(* ===== verification/_CoqProject ===== *)
-Q . S2P
Prelude.v
ArithUint256.v
Chain.v
Pow.v
Serialize.v
Script.v
Transaction.v
Interpreter.v
InterpreterSafety.v
InterpreterFlags.v
SigHash.v
Standard.v
Compressor.v
Coins.v
Ledger.v
TxVerify.v
Merkle.v
VersionBits.v
MerkleBlock.v
Bloom.v
BlockTree.v
Activation.v
Encodings.v
Decimal.v
FluidToken.v
FluidDB.v
Spork.v
Caches.v
MultiMaps.v
Governance.v
GovernanceManager.v
Payments.v
TxGraph.v
MemPool.v
MemPoolLocks.v
MemPoolInv.v
MemPoolOps.v
MemPoolAdd.v
MemPoolSteps.v
MemPoolFees.v
MemPoolReorg.v
MemPoolSafety.v
MemPoolCheck.v
Miner.v
MinerSelect.v
MinerCoinbase.v
