(* ===== verification/Prelude.v ===== *)
(** * A verification of the Cash (0DYNC) node

    Cash (0DYNC, src/src) is a Bitcoin-derived full node in C++ with masternodes, a
    "fluid" protocol and a directory (BDAP) on top.  This library models the
    consensus core of the node, from 256-bit arithmetic to the activation of
    the best chain, its memory pool, and the parts in which this network decides
    for itself (fluid commands, sporks, governance, masternode payments), as
    executable Rocq functions, and proves what makes each part correct.

    ** How the code is modelled

    A machine integer is a [Z] with its wrap-around written out ([u32], [i64]
    below).  A pointer to a block index entry is a number into a store of
    entries, so that aliasing is shared state; other data are records and
    lists.  State is passed explicitly.  A result [None] is undefined
    behaviour, a failed assertion or an uncaught exception of the C++ code
    (each file says which), so "the result is [Some _]" is part of what the
    theorems claim; errors that the code reports are values.  Loops that are
    not structural carry fuel, and the bound each definition chooses is proved
    to be enough, never assumed: heights for walks over the block index, the
    length of the rest for scripts and streams, the number of candidates for
    [FindMostWorkChain], (good blocks + 1) * (top height + 3) for
    [ActivateBestChain], the length of a string for the text parsers, the number
    of entries for the searches and the trimming of the memory pool, w * (w + 1)
    for the w waiting transactions of its check.  The
    exception is [Spork.CheckAndRemove], whose loop in the code does not always
    end: a theorem says exactly when it does.

    Code outside src/src is an operation of a type class with its documented
    laws: the hash functions ([Crypto], with [CryptoOk] for their lengths), ECDSA
    ([ECDSA]), the decompression and the recovery of public keys
    ([PubKeyCurve], [PubKeyRecovery]).  Values that the chain parameters choose
    per network are classes as well ([Base58Prefix], [Sovereigns]), and so are the
    fee estimator, floating point and the growth of vectors ([PoolEnv]).
    Two classes stand for parts of the node that are not modelled: [Protocols]
    ([TxVerify], what the fluid and BDAP rules say about a transaction) and
    [BlockChecks] ([Activation], the verdicts of [ConnectBlock] and
    [DisconnectBlock] on a block, the results of writing to disk and the answers
    of [ShutdownRequested]).  Where the governance, spork and payment
    code reads the clock, the masternode list or another manager, these are the
    fields of an environment record, and what it sends to peers or asks of
    other components is a list of effects.

    ** The files, in dependency order

    - [Prelude] (this file): machine integers, bit and byte lemmas, tactics and
      hint databases.
    - [ArithUint256]: arith_uint256.h/.cpp, [base_uint<256>] on 32-bit limbs.
    - [Chain]: chain.h/.cpp, [CBlockIndex] and [CChain]; the skip list, the
      median time, the work and the indexed chain refine following [pprev].
    - [Pow]: pow.cpp, the DigiShield retarget and the proof-of-work check.
    - [Serialize]: serialize.h, codecs with round-trip and canonicity laws.
    - [Script]: script/script.h/.cpp, instructions, script numbers, pushes,
      [FindAndDelete], the removal of BDAP prefixes, signature-operation counts.
    - [Transaction]: primitives/transaction.h/.cpp, amount.h/.cpp.
    - [Interpreter], [InterpreterSafety], [InterpreterFlags]: script/interpreter,
      [EvalScript] and [VerifyScript], their safety, and that verification
      flags only reject more.
    - [SigHash]: [SignatureHash] and the transaction signature checker.
    - [Standard]: script/standard.h/.cpp, [Solver] and destinations.
    - [Compressor]: compressor.h/.cpp, the stored form of amounts and scripts.
    - [Coins]: coins.h/.cpp, undo.h and txdb.cpp, views and caches of coins behind the interface
      [CCoinsViewOk]: a view is a finite map of coins.
    - [Ledger]: what connecting and disconnecting a block does to the coins.
    - [TxVerify]: validation.cpp, [CheckTransaction], [CheckTxInputs], lock times.
    - [Merkle], [MerkleBlock]: consensus/merkle.cpp and merkleblock.cpp.
    - [VersionBits]: versionbits.h/.cpp, the threshold states of deployments.
    - [Bloom]: bloom.h/.cpp, both Bloom filters, and MurmurHash3 of hash.cpp.
    - [BlockTree]: validation.cpp, the block index, the candidates for the tip,
      [AddToBlockIndex], [ReceivedBlockTransactions], [FindMostWorkChain].
    - [Activation]: validation.cpp, [ActivateBestChain] with its steps,
      [InvalidateBlock], [ReconsiderBlock], [PreciousBlock].
    - [Encodings], [Decimal]: utilstrencodings.cpp, base58.cpp and
      utilmoneystr.cpp, text encodings, addresses, integers and amounts.
    - [FluidToken], [FluidDB]: fluid/*.cpp, the commands by which sovereign
      addresses set rewards and mint coins: their form, their quorum, their
      databases and what [ConnectBlock] records of them.
    - [Spork]: spork.cpp and messagesigner.cpp, the signed switches of the network.
    - [Caches], [MultiMaps]: cachemap.h and cachemultimap.h, on list nodes and
      iterators.
    - [Governance]: governance-vote.cpp, governance-votedb.cpp,
      governance-object.cpp and governance-classes.cpp, votes, triggers and
      superblocks.
    - [GovernanceManager]: governance.cpp, which uses [Governance] and both
      caches: objects, orphan votes and objects, rate limits.
    - [Payments]: masternode-payments.cpp, the votes for the payee of each
      block and the checks of a coinbase against them, against superblocks
      ([Governance]) and rewards.
    - [TxGraph]: sums over finite sets and reachability in finite graphs.
    - [MemPool]: txmempool.h/.cpp and memusage.h, the unconfirmed transactions
      with their links, totals and memory, and every way in and out of the pool;
      validation.cpp, the lock points of an entry ([CheckFinalTx],
      [CheckSequenceLocks], [TestLockPointValidity]).
    - [MemPoolLocks]: the lock checks on a well-formed block index.
    - [MemPoolInv], [MemPoolOps], [MemPoolAdd], [MemPoolSteps], [MemPoolFees],
      [MemPoolReorg]: the invariant of the pool, and that the searches, the removal
      of a set of entries, the addition of one, the operations built from them,
      changes of priority and the return of the transactions of a disconnected
      block keep it.
    - [MemPoolSafety]: the operations in any order, and the theorems on the pool.
    - [MemPoolCheck]: txmempool.cpp, [CTxMemPool::check] against a view of coins
      ([Coins], [Ledger], [TxVerify]), and that it passes.
    - [Miner]: miner/miner-util.cpp, the block template, which uses the pool
      ([MemPool]), the rewards ([FluidDB]), the payments ([Payments]) and the rules
      of difficulty ([Pow]).
    - [MinerSelect], [MinerCoinbase]: the selection of transactions, and the
      coinbase and header, with their theorems.

    ** What the theorems show

    - Arithmetic and encodings: limb algorithms implement arithmetic modulo
      2^256, long division is exact, compact targets, script numbers,
      transactions and partial Merkle trees round-trip; amounts survive their
      compression exactly below a stated bound.
    - Scripts: no script makes the interpreter read outside its stacks, fail an
      assertion or run forever; setting more flags accepts no more scripts;
      [SignatureHash] equals its older definition; [FindAndDelete] is exact.
    - Coins and transactions: a stack of caches refines a finite map, and flushing
      it leaves these coins in the database; undoing a
      block restores the coins; a transaction that passes the checks, applied by
      [UpdateCoins], creates no money; lock times and relative locks hold whatever the order of checks.
    - Merkle trees: the one-pass computation is the tree; roots bind the leaves
      unless a mutation is flagged; a partial tree proves only what is in the
      block.  Where this needs the hash function to be injective, the theorem
      names the finite set of strings that the two computations hash, and the
      alternative is a collision inside that set.
    - Block tree: whatever the order in which headers and blocks arrive, the
      index is a tree with exact work and the completed blocks are found;
      [FindMostWorkChain] returns the best usable candidate;
      [ActivateBestChain] ends with the best of all valid chains active, unless it
      is shut down or a system error occurs.
    - Soft forks and filters: [GetStateFor] with its cache refines the BIP9
      state machine; Bloom filters have no false negatives and the rolling
      filter remembers the last generations.
    - Text: base 58, base 64, addresses and amounts round-trip, and the buffers
      and integers of the loops do not overflow.
    - Fluid: a command that passes the checks carries the signatures of three
      different sovereign addresses; the databases change only by such commands;
      a connected reward command sets the reward.
    - Sporks: a value is active only when enough known signers signed it, each in
      its newest message of those received, and
      nodes that see the same messages in any order agree.
    - Governance and payments: a masternode counts once, with its newest vote;
      the caches keep the most recent items while their limit is positive and
      not lowered; the votes counted for
      a payee are authenticated; an accepted coinbase pays no more than expected.
    - Memory pool: whatever the order of the operations, none fails an assertion
      and the pool passes its own check against every view that backs it: links are symmetric and acyclic, totals
      are the sums over ancestors and descendants, memory is exact; the
      transactions of a disconnected block are linked to their children.  The limits
      on chains of unconfirmed transactions are exact, a block leaves neither its
      transactions nor their conflicts, trimming ends within the limit, and a
      reorganisation expels exactly what fails the tests for the next block.
    - Block templates: the selection ends (within [select_fuel] rounds, one for each
      place of a transaction in a queue and one for each parent it waits for); what
      it chooses is distinct, final, within the limits and has parents first, so
      that the pool can take the block out again; a pool that fits is taken whole;
      the coinbase pays what the checks of a block expect.
    - Errors: the code's departures from its own intent are theorems too
      (difficulty on short chains, BDAP scripts cut inside a push, an undo that
      throws, deployments that can never lock in, a token whose signature
      crashes the node, a spork that anybody can switch on, orphan votes
      and objects that are lost, a funded superblock that no block satisfies,
      iterators that survive the entries of a cleared pool, a first masternode
      payment that the value of its block does not allow).

    ** Not modelled

    Disk files and databases, threads and locks, the network, the wallet, RPC,
    the graphical interface and vendored libraries; the fee estimator and the
    policy that accepts a transaction to the memory pool, the masternode list with
    its ranking and synchronisation, InstantSend, PrivateSend, the threads that mine
    and the BDAP state.
    The JSON of a governance object is read by a library: its outcome is part of
    the data ([Governance]), and the checks of an object against chain and
    masternodes are a field of the environment ([GovernanceManager]).  Floating point is left out where it appears (sizes
    of Bloom filters, priorities) or is a parameter ([Pow], the rate limits of
    [GovernanceManager]). *)

From stdpp Require Import base list list_numbers gmap numbers option.
From Stdlib Require Import ZArith Lia.

#[global] Set Default Proof Using "Type".
Local Open Scope Z_scope.

(** ** Machine integers

    A w-bit unsigned integer is a [Z] in [0, 2^w); a w-bit signed integer is
    a [Z] in [-2^(w-1), 2^(w-1)).  The wrap-around of the C++ conversions and
    of unsigned arithmetic is written out with these functions. *)

Definition u8 (z : Z) : Z := z mod 2 ^ 8.
Definition u16 (z : Z) : Z := z mod 2 ^ 16.
Definition u32 (z : Z) : Z := z mod 2 ^ 32.
Definition u64 (z : Z) : Z := z mod 2 ^ 64.
Definition i32 (z : Z) : Z := (z + 2 ^ 31) mod 2 ^ 32 - 2 ^ 31.
Definition i64 (z : Z) : Z := (z + 2 ^ 63) mod 2 ^ 64 - 2 ^ 63.

Definition INT64_MAX : Z := 2 ^ 63 - 1.

Lemma u8_bound z : 0 <= u8 z < 2 ^ 8.
Proof. apply Z.mod_pos_bound. lia. Qed.

Lemma u32_bound z : 0 <= u32 z < 2 ^ 32.
Proof. apply Z.mod_pos_bound. lia. Qed.

Lemma u64_bound z : 0 <= u64 z < 2 ^ 64.
Proof. apply Z.mod_pos_bound. lia. Qed.

Lemma u8_small z : 0 <= z < 2 ^ 8 -> u8 z = z.
Proof. apply Z.mod_small. Qed.

Lemma u32_small z : 0 <= z < 2 ^ 32 -> u32 z = z.
Proof. apply Z.mod_small. Qed.

Lemma u64_small z : 0 <= z < 2 ^ 64 -> u64 z = z.
Proof. apply Z.mod_small. Qed.

Lemma i32_small z : - 2 ^ 31 <= z < 2 ^ 31 -> i32 z = z.
Proof. intros. unfold i32. rewrite Z.mod_small; lia. Qed.

Lemma i64_small z : - 2 ^ 63 <= z < 2 ^ 63 -> i64 z = z.
Proof. intros. unfold i64. rewrite Z.mod_small; lia. Qed.

Lemma i64_bound z : - 2 ^ 63 <= i64 z < 2 ^ 63.
Proof.
  unfold i64. pose proof (Z.mod_pos_bound (z + 2 ^ 63) (2 ^ 64)). lia.
Qed.

Create HintDb machine.
Create Rewrite HintDb machine.
#[export] Hint Resolve u8_bound u32_bound u64_bound i64_bound : machine.
#[export] Hint Rewrite u8_small u32_small u64_small i32_small i64_small
  using lia : machine.

(** ** Counting loops

    [for_up i n body s] runs [body i], [body (i+1)], ..., [body (i+n-1)] on
    the state [s]: the model of [for (k = i; k < i + n; k++)].
    [for_down n body s] runs [body (n-1)], ..., [body 0]. *)

Fixpoint for_up {S : Type} (i n : nat) (body : nat -> S -> S) (s : S) : S :=
  match n with
  | O => s
  | Datatypes.S n' => for_up (Datatypes.S i) n' body (body i s)
  end.

Fixpoint for_down {S : Type} (n : nat) (body : nat -> S -> S) (s : S) : S :=
  match n with
  | O => s
  | Datatypes.S n' => for_down n' body (body n' s)
  end.

(** The invariant rule of the upward loop. *)
Lemma for_up_inv {S} (P : nat -> S -> Prop) body n :
  forall i s,
  P i s ->
  (forall j t, (i <= j < i + n)%nat -> P j t -> P (Datatypes.S j) (body j t)) ->
  P (i + n)%nat (for_up i n body s).
Proof.
  induction n as [|n IH]; intros i s H0 Hs; simpl.
  - by rewrite Nat.add_0_r.
  - replace (i + Datatypes.S n)%nat with (Datatypes.S i + n)%nat by lia.
    apply IH; [apply Hs; [lia|done]|]. intros; apply Hs; [lia|done].
Qed.

Lemma for_up_snoc {S} (body : nat -> S -> S) n :
  forall i s, for_up i (Datatypes.S n) body s = body (i + n)%nat (for_up i n body s).
Proof.
  induction n as [|n IH]; intros i s; [simpl; by rewrite Nat.add_0_r|].
  change (for_up i (Datatypes.S (Datatypes.S n)) body s)
    with (for_up (Datatypes.S i) (Datatypes.S n) body (body i s)).
  rewrite IH. simpl. f_equal. lia.
Qed.

(** ** Bits *)

Lemma testbit_above n w p : 0 <= n < 2 ^ w -> 0 <= w <= p -> Z.testbit n p = false.
Proof.
  intros Hn Hp. destruct (decide (n = 0)) as [->|]; [apply Z.bits_0|].
  apply Z.bits_above_log2; [lia|].
  apply Z.lt_le_trans with w; [|lia]. apply Z.log2_lt_pow2; lia.
Qed.

Lemma bits_bound n w : 0 <= w -> 0 <= n -> (forall p, w <= p -> Z.testbit n p = false) -> n < 2 ^ w.
Proof.
  intros Hw Hn Hb. destruct (decide (n = 0)) as [->|]; [lia|].
  apply Z.log2_lt_pow2; [lia|].
  destruct (Z.lt_ge_cases (Z.log2 n) w) as [|Hge]; [done|].
  specialize (Hb _ Hge). rewrite Z.bit_log2 in Hb; [done|lia].
Qed.

Lemma lor_bound a b w : 0 <= w -> 0 <= a < 2 ^ w -> 0 <= b < 2 ^ w -> 0 <= Z.lor a b < 2 ^ w.
Proof.
  intros Hw Ha Hb. assert (0 <= Z.lor a b) by (apply Z.lor_nonneg; lia).
  split; [done|]. apply bits_bound; [done..|]. intros p Hp.
  rewrite Z.lor_spec, (testbit_above a w), (testbit_above b w) by lia. done.
Qed.

Lemma land_ones_mod a w : 0 <= w -> Z.land a (2 ^ w - 1) = a mod 2 ^ w.
Proof.
  intros. rewrite <- Z.land_ones by done. f_equal. rewrite Z.ones_equiv. lia.
Qed.

(** A word [x] of [w] bits below [y]: its bits, and its form as a bitwise or. *)
Lemma testbit_concat x y w p :
  0 <= x < 2 ^ w -> 0 <= w -> 0 <= p ->
  Z.testbit (x + 2 ^ w * y) p = if p <? w then Z.testbit x p else Z.testbit y (p - w).
Proof.
  intros Hx Hw Hp. destruct (Z.ltb_spec p w) as [Hlt|Hge].
  - rewrite <- (Z.mod_pow2_bits_low _ w) by lia.
    rewrite Z.mul_comm, Z.mod_add, Z.mod_small by lia. done.
  - replace p with (p - w + w) at 1 by lia.
    rewrite <- Z.div_pow2_bits by lia.
    rewrite Z.mul_comm, Z.div_add, Z.div_small by lia. done.
Qed.

Lemma lor_shiftl_add x y w :
  0 <= x < 2 ^ w -> 0 <= w -> Z.lor x (Z.shiftl y w) = x + 2 ^ w * y.
Proof.
  intros Hx Hw. apply Z.bits_inj'. intros p Hp.
  rewrite testbit_concat, Z.lor_spec, Z.shiftl_spec by lia.
  destruct (Z.ltb_spec p w).
  - rewrite (Z.testbit_neg_r y) by lia. apply orb_false_r.
  - rewrite (testbit_above x w) by lia. done.
Qed.

(** Bits of a wrapped value. *)
Lemma testbit_mod n w p :
  0 <= w -> 0 <= p -> Z.testbit (n mod 2 ^ w) p = (p <? w) && Z.testbit n p.
Proof.
  intros Hw Hp. destruct (Z.ltb_spec p w).
  - by rewrite Z.mod_pow2_bits_low by lia.
  - by rewrite Z.mod_pow2_bits_high by lia.
Qed.

Lemma testbit_shiftl n s p :
  0 <= p -> Z.testbit (Z.shiftl n s) p = Z.testbit n (p - s).
Proof. intros. by apply Z.shiftl_spec. Qed.

Lemma land_pow2_eqb x k : 0 <= k -> (Z.land x (2 ^ k) =? 0) = negb (Z.testbit x k).
Proof.
  intros Hk. destruct (Z.testbit x k) eqn:Ht; cbn [negb].
  - apply Z.eqb_neq. intros E. apply (f_equal (fun z => Z.testbit z k)) in E.
    rewrite Z.land_spec, Ht, Z.pow2_bits_true, Z.bits_0 in E by lia. done.
  - apply Z.eqb_eq. apply Z.bits_inj'. intros p Hp. rewrite Z.land_spec, Z.bits_0.
    destruct (decide (p = k)) as [->|]; [by rewrite Ht|].
    rewrite Z.pow2_bits_false by lia. apply andb_false_r.
Qed.

Lemma lor_pow2 x k : 0 <= k -> Z.testbit x k = false -> Z.lor x (2 ^ k) = x + 2 ^ k.
Proof.
  intros Hk Hb. rewrite <- Z.lxor_lor, <- Z.add_nocarry_lxor; [done| |].
  all: apply Z.bits_inj'; intros p Hp; rewrite Z.land_spec, Z.bits_0;
    destruct (decide (p = k)) as [->|]; [by rewrite Hb|];
    rewrite Z.pow2_bits_false by lia; apply andb_false_r.
Qed.

(** A word below [2^w] has no bit in common with a multiple of [2^w]. *)
Lemma land_low_high x y w : 0 <= x < 2 ^ w -> 0 <= w -> Z.land x (2 ^ w * y) = 0.
Proof.
  intros Hx Hw. apply Z.bits_inj'. intros p Hp.
  rewrite Z.land_spec, Z.bits_0, Z.mul_comm, <- Z.shiftl_mul_pow2, testbit_shiftl by lia.
  destruct (Z.lt_ge_cases p w).
  - rewrite (Z.testbit_neg_r y) by lia. apply andb_false_r.
  - by rewrite (testbit_above x w) by lia.
Qed.

(** Decide a closed decidable proposition by evaluation. *)
Ltac by_decide := apply (bool_decide_unpack _); vm_compute; exact I.

Lemma land_le_r a b : 0 <= a -> 0 <= b -> Z.land a b <= b.
Proof.
  intros Ha Hb. rewrite <- (Z2N.id a), <- (Z2N.id b) by done.
  rewrite <- N2Z.inj_land. apply N2Z.inj_le, N.land_le_r.
Qed.

(** ** Bytes

    Byte strings are lists of integers below 256; a [uint256] (and a
    [uint160]) is the list of its bytes, least significant first, the order of
    [base_blob::data] in uint256.h. *)

Abbreviation uint256 := (list Z) (only parsing).

Definition is_byte (x : Z) : Prop := 0 <= x < 2 ^ 8.

#[export] Instance is_byte_dec x : Decision (is_byte x).
Proof. unfold is_byte. apply _. Defined.

(** The number a little-endian byte string denotes. *)
Fixpoint le_val (b : list Z) : Z :=
  match b with
  | [] => 0
  | x :: r => x + 2 ^ 8 * le_val r
  end.

(** The [n] low bytes of [x], least significant first. *)
Fixpoint le_bytes (n : nat) (x : Z) : list Z :=
  match n with
  | O => []
  | Datatypes.S n' => u8 x :: le_bytes n' (Z.shiftr x 8)
  end.

Lemma length_le_bytes n : forall x, length (le_bytes n x) = n.
Proof. induction n; intros x; simpl; congruence. Qed.

Lemma le_bytes_bytes n : forall x, Forall is_byte (le_bytes n x).
Proof. induction n; intros x; simpl; constructor; [apply u8_bound|auto]. Qed.

Lemma le_val_bytes n : forall x, le_val (le_bytes n x) = x mod 2 ^ (8 * Z.of_nat n).
Proof.
  induction n as [|n IH]; intros x.
  - cbn. by rewrite Z.mod_1_r.
  - cbn [le_bytes le_val]. rewrite IH, Z.shiftr_div_pow2 by lia. unfold u8.
    replace (8 * Z.of_nat (Datatypes.S n)) with (8 + 8 * Z.of_nat n) by lia.
    rewrite Z.pow_add_r by lia. by rewrite Z.rem_mul_r by lia.
Qed.

Lemma le_val_bound b : Forall is_byte b -> 0 <= le_val b < 2 ^ (8 * Z.of_nat (length b)).
Proof.
  induction 1 as [|x r Hx Hr IH]; [cbn; lia|]. cbn [le_val length]. unfold is_byte in Hx.
  replace (8 * Z.of_nat (Datatypes.S (length r))) with (8 + 8 * Z.of_nat (length r)) by lia.
  rewrite Z.pow_add_r by lia. nia.
Qed.

Lemma le_bytes_val b : Forall is_byte b -> le_bytes (length b) (le_val b) = b.
Proof.
  induction 1 as [|x r Hx Hr IH]; [done|]. cbn [length le_bytes le_val].
  unfold is_byte in Hx. f_equal.
  - unfold u8. rewrite Z.mul_comm, Z.mod_add, Z.mod_small by lia. done.
  - rewrite Z.shiftr_div_pow2, Z.mul_comm, Z.div_add, Z.div_small by lia. done.
Qed.

Lemma le_bytes_mod n : forall x, le_bytes n (x mod 2 ^ (8 * Z.of_nat n)) = le_bytes n x.
Proof.
  intros x. rewrite <- le_val_bytes.
  rewrite <- (length_le_bytes n x) at 1. apply le_bytes_val, le_bytes_bytes.
Qed.

Lemma le_val_inj a b : Forall is_byte a -> Forall is_byte b -> length a = length b ->
  le_val a = le_val b -> a = b.
Proof.
  intros Ha Hb Hl E. rewrite <- (le_bytes_val a), <- (le_bytes_val b) by done. congruence.
Qed.
