(* ===== verification/ArithUint256.v ===== *)
(** * 256-bit unsigned integers ([src/src/arith_uint256.h], [.cpp])

    [base_uint] is the C++ array [uint32_t pn[WIDTH]], least significant limb
    first, as a list of [Z].  Every operator is the loop of the source over
    the limbs; [val] is the integer the limbs denote.  The theorems show that
    the limb algorithms implement arithmetic modulo [2^256], that long
    division, [bits] and the comparison are exact, and that the compact
    encoding of difficulty targets round-trips. *)

From stdpp Require Import base list list_numbers numbers option.
From Stdlib Require Import ZArith Lia.
From S2P Require Import Prelude.

Local Open Scope Z_scope.

Module Arith256.

Definition WIDTH : nat := 8.

(** [uint32_t pn[WIDTH]] *)
Definition base_uint : Type := list Z.

Definition pn_get (pn : list Z) (i : nat) : Z := default 0 (pn !! i).

(** [base_uint()] *)
Definition base_zero : list Z := replicate WIDTH 0.

(** [base_uint(uint64_t b)] and [operator=(uint64_t)] *)
Definition of_u64 (b : Z) : list Z :=
  for_up 2 (WIDTH - 2) (fun i pn => <[i := 0]> pn)
    (<[1%nat := u32 (Z.shiftr b 32)]> (<[0%nat := u32 b]> base_zero)).

(** [operator!] *)
Definition is_zero (a : list Z) : bool := forallb (fun x => x =? 0) a.

(** [operator~] *)
Definition bnot (a : list Z) : list Z := map (fun x => u32 (Z.lnot x)) a.

(** [operator++()]: [while (++pn[i] == 0 && i < WIDTH - 1) i++;] *)
Fixpoint incr (a : list Z) : list Z :=
  match a with
  | [] => []
  | x :: r =>
      let x' := u32 (x + 1) in
      if x' =? 0 then x' :: incr r else x' :: r
  end.

(** [operator--()]: [while (--pn[i] == (uint32_t)-1 && i < WIDTH - 1) i++;] *)
Fixpoint decr (a : list Z) : list Z :=
  match a with
  | [] => []
  | x :: r =>
      let x' := u32 (x - 1) in
      if x' =? u32 (-1) then x' :: decr r else x' :: r
  end.

(** [operator-()] *)
Definition neg (a : list Z) : list Z := incr (bnot a).

(** [operator^=], [operator&=], [operator|=] *)
Fixpoint limbwise (f : Z -> Z -> Z) (a b : list Z) : list Z :=
  match a, b with
  | x :: a', y :: b' => f x y :: limbwise f a' b'
  | _, _ => []
  end.
Definition bxor : list Z -> list Z -> list Z := limbwise Z.lxor.
Definition band : list Z -> list Z -> list Z := limbwise Z.land.
Definition bor : list Z -> list Z -> list Z := limbwise Z.lor.

(** The loop of [operator+=(const base_uint&)]. *)
Fixpoint add_carry (carry : Z) (a b : list Z) : list Z :=
  match a, b with
  | x :: a', y :: b' =>
      let n := u64 (carry + x + y) in
      Z.land n 0xffffffff :: add_carry (Z.shiftr n 32) a' b'
  | _, _ => []
  end.

Definition add (a b : list Z) : list Z := add_carry 0 a b.

(** [operator-=(const base_uint&)]: [*this += -b]. *)
Definition sub (a b : list Z) : list Z := add a (neg b).

(** [operator+=(uint64_t)], [operator-=(uint64_t)] *)
Definition add_u64 (a : list Z) (b64 : Z) : list Z := add a (of_u64 b64).
Definition sub_u64 (a : list Z) (b64 : Z) : list Z := add a (neg (of_u64 b64)).

(** [operator<<=(unsigned int)] *)
Definition shl (a : list Z) (shift0 : Z) : list Z :=
  let k := Z.to_nat (shift0 / 32) in
  let shift := shift0 mod 32 in
  for_up 0 WIDTH (fun i pn =>
    let pn :=
      if (i + k + 1 <? WIDTH)%nat && negb (shift =? 0)
      then <[(i + k + 1)%nat :=
               Z.lor (pn_get pn (i + k + 1)) (Z.shiftr (pn_get a i) (32 - shift))]> pn
      else pn in
    if (i + k <? WIDTH)%nat
    then <[(i + k)%nat :=
             Z.lor (pn_get pn (i + k)) (u32 (Z.shiftl (pn_get a i) shift))]> pn
    else pn) base_zero.

(** [operator>>=(unsigned int)] *)
Definition shr (a : list Z) (shift0 : Z) : list Z :=
  let k := Z.to_nat (shift0 / 32) in
  let shift := shift0 mod 32 in
  for_up 0 WIDTH (fun i pn =>
    let pn :=
      if (k + 1 <=? i)%nat && negb (shift =? 0)
      then <[(i - k - 1)%nat :=
               Z.lor (pn_get pn (i - k - 1)) (u32 (Z.shiftl (pn_get a i) (32 - shift)))]> pn
      else pn in
    if (k <=? i)%nat
    then <[(i - k)%nat :=
             Z.lor (pn_get pn (i - k)) (Z.shiftr (pn_get a i) shift)]> pn
    else pn) base_zero.

(** The loop of [operator*=(uint32_t)]. *)
Fixpoint mul32_carry (carry : Z) (a : list Z) (b32 : Z) : list Z :=
  match a with
  | [] => []
  | x :: a' =>
      let n := u64 (carry + b32 * x) in
      Z.land n 0xffffffff :: mul32_carry (Z.shiftr n 32) a' b32
  end.

Definition mul32 (a : list Z) (b32 : Z) : list Z := mul32_carry 0 a b32.

(** [operator*=(const base_uint&)]: the inner loop over [i] for one [j] ... *)
Definition mul_row (a b : list Z) (j : nat) (pn : list Z) : list Z :=
  snd (for_up 0 (WIDTH - j) (fun i '(carry, pn) =>
         let n := u64 (carry + pn_get pn (i + j) + pn_get a j * pn_get b i) in
         (Z.shiftr n 32, <[(i + j)%nat := Z.land n 0xffffffff]> pn))
       (0, pn)).

(** ... and the outer loop over [j]. *)
Definition mul (a b : list Z) : list Z :=
  for_up 0 WIDTH (mul_row a b) (of_u64 0).

(** [CompareTo]: limbs from the most significant one down. *)
Fixpoint compare_from (n : nat) (a b : list Z) : Z :=
  match n with
  | O => 0
  | S i =>
      if pn_get a i <? pn_get b i then -1
      else if pn_get b i <? pn_get a i then 1
      else compare_from i a b
  end.

Definition CompareTo (a b : list Z) : Z := compare_from WIDTH a b.

(** [EqualTo(uint64_t)] *)
Definition EqualTo (a : list Z) (b : Z) : bool :=
  forallb (fun i => pn_get a i =? 0) (seq 2 (WIDTH - 2))
  && (pn_get a 1 =? Z.shiftr b 32)
  && (pn_get a 0 =? Z.land b 0xffffffff).

(** [bits]: the inner scan of one non-zero limb, [for (bits = 31; bits > 0; bits--)] ... *)
Fixpoint limb_bits (n : nat) (x : Z) : Z :=
  match n with
  | O => 1
  | S b =>
      if negb (Z.land x (Z.shiftl 1 (Z.of_nat n)) =? 0) then Z.of_nat n + 1
      else limb_bits b x
  end.

(** ... and the outer scan [for (pos = WIDTH - 1; pos >= 0; pos--)]. *)
Fixpoint bits_from (n : nat) (a : list Z) : Z :=
  match n with
  | O => 0
  | S pos =>
      if negb (pn_get a pos =? 0)
      then 32 * Z.of_nat pos + limb_bits 31 (pn_get a pos)
      else bits_from pos a
  end.

Definition bits (a : list Z) : Z := bits_from WIDTH a.

(** [GetLow64] *)
Definition GetLow64 (a : list Z) : Z := Z.lor (pn_get a 0) (Z.shiftl (pn_get a 1) 32).

(** One iteration of the [while (shift >= 0)] loop of [operator/=]. *)
Definition div_step (shift : nat) (st : list Z * list Z * list Z) : list Z * list Z * list Z :=
  let '(num, div, pn) := st in
  let '(num, pn) :=
    if 0 <=? CompareTo num div
    then (sub num div,
          <[(shift / 32)%nat :=
              Z.lor (pn_get pn (shift / 32))
                    (Z.shiftl 1 (Z.land (Z.of_nat shift) 31))]> pn)
    else (num, pn) in
  (num, shr div 1, pn).

(** [operator/=]: [None] is [throw uint_error("Division by zero")]. *)
Definition div (a b : list Z) : option (list Z) :=
  let num_bits := bits a in
  let div_bits := bits b in
  if div_bits =? 0 then None
  else if num_bits <? div_bits then Some (of_u64 0)
  else
    let shift := num_bits - div_bits in
    let '(_, _, q) :=
      for_down (Z.to_nat shift + 1) div_step (a, shl b shift, of_u64 0) in
    Some q.

(** [SetCompact]: the value, [*pfNegative] and [*pfOverflow]. *)
Definition SetCompact (nCompact : Z) : list Z * bool * bool :=
  let nSize := Z.shiftr nCompact 24 in
  let nWord := Z.land nCompact 0x007fffff in
  let '(this, nWord) :=
    if nSize <=? 3
    then let nWord := Z.shiftr nWord (8 * (3 - nSize)) in (of_u64 nWord, nWord)
    else (shl (of_u64 nWord) (8 * (nSize - 3)), nWord) in
  (this,
   negb (nWord =? 0) && negb (Z.land nCompact 0x00800000 =? 0),
   negb (nWord =? 0) && ((34 <? nSize) || ((0xff <? nWord) && (33 <? nSize))
                         || ((0xffff <? nWord) && (32 <? nSize)))).

(** [GetCompact]: [None] is a failed [assert]. *)
Definition GetCompact (a : list Z) (fNegative : bool) : option Z :=
  let nSize := (bits a + 7) / 8 in
  let nCompact :=
    if nSize <=? 3 then u32 (u64 (Z.shiftl (GetLow64 a) (8 * (3 - nSize))))
    else u32 (GetLow64 (shr a (8 * (nSize - 3)))) in
  let '(nCompact, nSize) :=
    if negb (Z.land nCompact 0x00800000 =? 0)
    then (Z.shiftr nCompact 8, nSize + 1) else (nCompact, nSize) in
  if negb (Z.land nCompact (u32 (Z.lnot 0x007fffff)) =? 0) then None
  else if negb (nSize <? 256) then None
  else
    let nCompact := Z.lor nCompact (u32 (Z.shiftl nSize 24)) in
    Some (Z.lor nCompact
            (if fNegative && negb (Z.land nCompact 0x007fffff =? 0)
             then 0x00800000 else 0)).

(** [operator>], [operator<], [operator>=], [operator<=] *)
Definition gtb (a b : list Z) : bool := 0 <? CompareTo a b.
Definition ltb (a b : list Z) : bool := CompareTo a b <? 0.
Definition geb (a b : list Z) : bool := 0 <=? CompareTo a b.
Definition leb (a b : list Z) : bool := CompareTo a b <=? 0.

(** [WriteLE32] / [ReadLE32] (crypto/common.h) on byte lists. *)
Definition WriteLE32 (x : Z) : list Z :=
  [u8 x; u8 (Z.shiftr x 8); u8 (Z.shiftr x 16); u8 (Z.shiftr x 24)].
Definition ReadLE32 (bs : list Z) : Z :=
  Z.lor (Z.lor (pn_get bs 0) (Z.shiftl (pn_get bs 1) 8))
        (Z.lor (Z.shiftl (pn_get bs 2) 16) (Z.shiftl (pn_get bs 3) 24)).

(** [ArithToUint256] and [UintToArith256]; a [uint256] is its 32 bytes. *)
Definition ArithToUint256 (a : list Z) : list Z :=
  concat (map (fun x => WriteLE32 (pn_get a x)) (seq 0 WIDTH)).
Definition UintToArith256 (b : list Z) : list Z :=
  map (fun x => ReadLE32 (drop (x * 4) b)) (seq 0 WIDTH).

(** ** Denotation and well-formedness *)

Fixpoint val (pn : list Z) : Z :=
  match pn with
  | [] => 0
  | x :: r => x + 2 ^ 32 * val r
  end.

Definition limb (x : Z) : Prop := 0 <= x < 2 ^ 32.

Definition wf (a : list Z) : Prop := length a = WIDTH /\ Forall limb a.

(** ** Limb lists *)

Lemma pn_get_insert pn i j x :
  (i < length pn)%nat ->
  pn_get (<[i := x]> pn) j = if decide (i = j) then x else pn_get pn j.
Proof.
  intros Hi. unfold pn_get. case_decide as Hd; [subst|].
  - by rewrite list_lookup_insert_eq.
  - by rewrite list_lookup_insert_ne.
Qed.

Lemma pn_get_limb a i : Forall limb a -> limb (pn_get a i).
Proof.
  intros Ha. unfold pn_get. destruct (a !! i) eqn:E; simpl; [|unfold limb; lia].
  by eapply (Forall_lookup_1 limb).
Qed.

Lemma pn_get_ge a i : (length a <= i)%nat -> pn_get a i = 0.
Proof. intros. unfold pn_get. by rewrite lookup_ge_None_2. Qed.

Lemma pn_get_base_zero i : pn_get base_zero i = 0.
Proof.
  unfold pn_get, base_zero. destruct (decide (i < WIDTH)%nat).
  - by rewrite lookup_replicate_2.
  - rewrite lookup_ge_None_2; [done|]. rewrite length_replicate. lia.
Qed.

Lemma wf_intro a :
  length a = WIDTH -> (forall i, (i < WIDTH)%nat -> limb (pn_get a i)) -> wf a.
Proof.
  intros Hl H. split; [done|]. apply Forall_lookup_2. intros i x Hx.
  pose proof (lookup_lt_Some _ _ _ Hx). specialize (H i ltac:(lia)).
  unfold pn_get in H. by rewrite Hx in H.
Qed.

Lemma val_bound a : Forall limb a -> 0 <= val a < 2 ^ (32 * Z.of_nat (length a)).
Proof.
  induction 1 as [|x a Hx Ha IH]; cbn [val]; [simpl; lia|].
  unfold limb in Hx. cbn [length].
  replace (32 * Z.of_nat (S (length a))) with (32 + 32 * Z.of_nat (length a)) by lia.
  rewrite Z.pow_add_r by lia. nia.
Qed.

Lemma wf_bound a : wf a -> 0 <= val a < 2 ^ 256.
Proof. intros [Hl Ha]. pose proof (val_bound a Ha) as H. rewrite Hl in H. exact H. Qed.

(** Bit [p] of the value is bit [p mod 32] of limb [p / 32]. *)
Lemma testbit_val a p :
  Forall limb a -> 0 <= p ->
  Z.testbit (val a) p = Z.testbit (pn_get a (Z.to_nat (p / 32))) (p mod 32).
Proof.
  intros Ha. revert p. induction Ha as [|x a Hx Ha IH]; intros p Hp; cbn [val].
  { by rewrite !Z.bits_0. }
  rewrite testbit_concat by (unfold limb in Hx; lia).
  destruct (Z.ltb_spec p 32).
  - rewrite Z.div_small, Z.mod_small by lia. done.
  - rewrite IH by lia. replace p with (p - 32 + 1 * 32) at 3 4 by lia.
    rewrite Z.div_add, Z.mod_add by lia.
    replace (Z.to_nat ((p - 32) / 32 + 1)) with (S (Z.to_nat ((p - 32) / 32))); [done|].
    pose proof (Z.div_pos (p - 32) 32). lia.
Qed.

(** Limbs with a given bit pattern denote the value with that pattern. *)
Lemma val_bits a v :
  wf a -> 0 <= v < 2 ^ 256 ->
  (forall j b, (j < WIDTH)%nat -> 0 <= b < 32 ->
     Z.testbit (pn_get a j) b = Z.testbit v (32 * Z.of_nat j + b)) ->
  val a = v.
Proof.
  intros Hwf Hv Hb. pose proof (wf_bound a Hwf) as Hva. destruct Hwf as [Hl Ha].
  apply Z.bits_inj'. intros p Hp.
  destruct (Z.lt_ge_cases p 256).
  - rewrite testbit_val by done.
    pose proof (Z.div_mod p 32). pose proof (Z.mod_pos_bound p 32).
    pose proof (Z.div_pos p 32). pose proof (Z.div_lt_upper_bound p 32 8).
    rewrite Hb by (unfold WIDTH; lia). f_equal. lia.
  - by rewrite (testbit_above _ 256), (testbit_above v 256) by lia.
Qed.

Lemma val_inj a b : wf a -> wf b -> val a = val b -> a = b.
Proof.
  intros [Hla Ha] [Hlb Hb]. rewrite <- Hlb in Hla. clear Hlb.
  revert b Hb Hla. induction Ha as [|x a Hx Ha IH]; intros [|y b] Hb Hl Hv; try done.
  apply Forall_cons_1 in Hb as [Hy Hb]. cbn [val] in Hv. unfold limb in *.
  assert (x = y) by (pose proof (f_equal (fun z => z mod 2 ^ 32) Hv) as Hm;
    cbv beta in Hm; rewrite !(Z.mul_comm (2 ^ 32)), !Z.mod_add, !Z.mod_small in Hm by lia; done).
  subst y. f_equal. apply IH; [done|by injection Hl|lia].
Qed.

(** ** Addition, complement, subtraction *)

Lemma split_word n : 0 <= n < 2 ^ 64 ->
  limb (Z.land n 0xffffffff) /\
  0 <= Z.shiftr n 32 < 2 ^ 32 /\
  n = Z.land n 0xffffffff + 2 ^ 32 * Z.shiftr n 32.
Proof.
  intros Hn. change 0xffffffff with (2 ^ 32 - 1).
  rewrite land_ones_mod, Z.shiftr_div_pow2 by lia. unfold limb.
  pose proof (Z.mod_pos_bound n (2 ^ 32)). pose proof (Z.div_mod n (2 ^ 32)).
  pose proof (Z.div_pos n (2 ^ 32)). pose proof (Z.div_lt_upper_bound n (2 ^ 32) (2 ^ 32)).
  lia.
Qed.

Lemma add_carry_spec a :
  forall b c, Forall limb a -> Forall limb b -> length b = length a -> 0 <= c < 2 ^ 32 ->
  length (add_carry c a b) = length a /\ Forall limb (add_carry c a b) /\
  val (add_carry c a b) = (c + val a + val b) mod 2 ^ (32 * Z.of_nat (length a)).
Proof.
  induction a as [|x a IH]; intros [|y b] c Ha Hb Hl Hc; try done.
  { cbn [val length add_carry]. repeat split; [done|]. by rewrite Z.mod_1_r. }
  apply Forall_cons_1 in Ha as [Hx Ha]. apply Forall_cons_1 in Hb as [Hy Hb].
  unfold limb in Hx, Hy. cbn [add_carry length val] in *.
  rewrite u64_small by lia.
  destruct (split_word (c + x + y)) as (Hlo & Hhi & Heq); [lia|].
  destruct (IH b (Z.shiftr (c + x + y) 32)) as (HL & HF & HV); [done|done|lia|lia|].
  split; [by rewrite HL|]. split; [by constructor|].
  rewrite HV. replace (32 * Z.of_nat (S (length a))) with (32 + 32 * Z.of_nat (length a)) by lia.
  rewrite Z.pow_add_r, Z.rem_mul_r by lia.
  set (n := c + x + y) in *. unfold limb in Hlo.
  replace (c + (x + 2 ^ 32 * val a) + (y + 2 ^ 32 * val b))
    with (Z.land n 0xffffffff + (Z.shiftr n 32 + val a + val b) * 2 ^ 32) by lia.
  rewrite Z.mod_add, Z.div_add, (Z.mod_small (Z.land n _)), (Z.div_small (Z.land n _)) by lia.
  by rewrite Z.add_0_l.
Qed.

Lemma add_spec a b : wf a -> wf b -> wf (add a b) /\ val (add a b) = (val a + val b) mod 2 ^ 256.
Proof.
  intros [Hla Ha] [Hlb Hb].
  destruct (add_carry_spec a b 0) as (HL & HF & HV); [done|done|congruence|lia|].
  unfold add. rewrite HV, Hla. repeat split; [congruence|done].
Qed.

Lemma u32_lnot x : limb x -> u32 (Z.lnot x) = 2 ^ 32 - 1 - x.
Proof.
  intros Hx. unfold limb in Hx. unfold u32.
  replace (Z.lnot x) with (2 ^ 32 - 1 - x + (-1) * 2 ^ 32) by (unfold Z.lnot; lia).
  rewrite Z.mod_add, Z.mod_small by lia. done.
Qed.

Lemma bnot_limbs a : Forall limb a ->
  Forall limb (bnot a) /\ val (bnot a) = 2 ^ (32 * Z.of_nat (length a)) - 1 - val a.
Proof.
  induction 1 as [|x a Hx Ha [IH1 IH2]]; [done|]. cbn [bnot map val length].
  fold (bnot a). rewrite (u32_lnot x Hx), IH2.
  replace (32 * Z.of_nat (S (length a))) with (32 + 32 * Z.of_nat (length a)) by lia.
  rewrite Z.pow_add_r by lia. unfold limb in *. split; [|lia].
  constructor; [unfold limb; lia|done].
Qed.

Lemma bnot_spec a : wf a -> wf (bnot a) /\ val (bnot a) = 2 ^ 256 - 1 - val a.
Proof.
  intros [Hl Ha]. destruct (bnot_limbs a Ha) as [H1 H2]. rewrite Hl in H2.
  repeat split; [|done|done]. unfold bnot. by rewrite length_map.
Qed.

Lemma incr_limbs a : Forall limb a ->
  length (incr a) = length a /\ Forall limb (incr a) /\
  val (incr a) = (val a + 1) mod 2 ^ (32 * Z.of_nat (length a)).
Proof.
  induction 1 as [|x a Hx Ha (IH0 & IH1 & IH2)].
  { split; [done|]. split; [done|]. simpl. by rewrite Z.mod_1_r. }
  pose proof (val_bound a Ha) as Hb. unfold limb in Hx.
  cbn [incr length val].
  replace (32 * Z.of_nat (S (length a))) with (32 + 32 * Z.of_nat (length a)) by lia.
  rewrite Z.pow_add_r by lia.
  destruct (decide (x = 2 ^ 32 - 1)) as [->|].
  - change (u32 (2 ^ 32 - 1 + 1)) with 0. cbn [Z.eqb val length]. split; [by rewrite IH0|].
    split; [constructor; [unfold limb; lia|done]|]. rewrite IH2.
    replace (2 ^ 32 - 1 + 2 ^ 32 * val a + 1) with (2 ^ 32 * (val a + 1)) by lia.
    rewrite Z.mul_mod_distr_l by lia. lia.
  - rewrite u32_small by lia. destruct (Z.eqb_spec (x + 1) 0); [lia|]. cbn [val length].
    split; [done|]. split; [constructor; [unfold limb; lia|done]|].
    rewrite Z.mod_small; [lia|nia].
Qed.

Lemma decr_limbs a : Forall limb a ->
  length (decr a) = length a /\ Forall limb (decr a) /\
  val (decr a) = (val a - 1) mod 2 ^ (32 * Z.of_nat (length a)).
Proof.
  induction 1 as [|x a Hx Ha (IH0 & IH1 & IH2)].
  { split; [done|]. split; [done|]. simpl. by rewrite Z.mod_1_r. }
  pose proof (val_bound a Ha) as Hb. unfold limb in Hx.
  cbn [decr length val]. change (u32 (-1)) with (2 ^ 32 - 1).
  replace (32 * Z.of_nat (S (length a))) with (32 + 32 * Z.of_nat (length a)) by lia.
  rewrite Z.pow_add_r by lia.
  destruct (decide (x = 0)) as [->|].
  - change (u32 (0 - 1)) with (2 ^ 32 - 1). rewrite Z.eqb_refl. cbn [val length].
    split; [by rewrite IH0|].
    split; [constructor; [unfold limb; lia|done]|]. rewrite IH2.
    replace (0 + 2 ^ 32 * val a - 1) with (2 ^ 32 - 1 + (val a - 1) * 2 ^ 32) by lia.
    rewrite Z.rem_mul_r, Z.mod_add, Z.div_add, (Z.mod_small (2 ^ 32 - 1)), (Z.div_small (2 ^ 32 - 1)) by lia.
    by rewrite Z.add_0_l.
  - rewrite u32_small by lia. destruct (Z.eqb_spec (x - 1) (2 ^ 32 - 1)); [lia|].
    cbn [val length].
    split; [done|]. split; [constructor; [unfold limb; lia|done]|].
    rewrite Z.mod_small; [lia|nia].
Qed.

Lemma incr_spec a : wf a -> wf (incr a) /\ val (incr a) = (val a + 1) mod 2 ^ 256.
Proof.
  intros [Hl Ha]. destruct (incr_limbs a Ha) as (H0 & H1 & H2). rewrite Hl in H0, H2. done.
Qed.

Lemma decr_spec a : wf a -> wf (decr a) /\ val (decr a) = (val a - 1) mod 2 ^ 256.
Proof.
  intros [Hl Ha]. destruct (decr_limbs a Ha) as (H0 & H1 & H2). rewrite Hl in H0, H2. done.
Qed.

Lemma neg_spec a : wf a -> wf (neg a) /\ val (neg a) = (- val a) mod 2 ^ 256.
Proof.
  intros Ha. destruct (bnot_spec a Ha) as [H1 H2]. destruct (incr_spec _ H1) as [H3 H4].
  split; [done|]. unfold neg. rewrite H4, H2.
  replace (2 ^ 256 - 1 - val a + 1) with (- val a + 1 * 2 ^ 256) by lia.
  by rewrite Z.mod_add by lia.
Qed.

Lemma sub_spec a b : wf a -> wf b -> wf (sub a b) /\ val (sub a b) = (val a - val b) mod 2 ^ 256.
Proof.
  intros Ha Hb. destruct (neg_spec b Hb) as [H1 H2]. destruct (add_spec _ _ Ha H1) as [H3 H4].
  split; [done|]. unfold sub. rewrite H4, H2, Z.add_mod_idemp_r by lia. done.
Qed.

Lemma of_u64_spec b : 0 <= b < 2 ^ 64 -> wf (of_u64 b) /\ val (of_u64 b) = b.
Proof.
  intros Hb. change (of_u64 b) with [u32 b; u32 (Z.shiftr b 32); 0; 0; 0; 0; 0; 0].
  rewrite Z.shiftr_div_pow2 by lia.
  pose proof (Z.div_pos b (2 ^ 32)). pose proof (Z.div_lt_upper_bound b (2 ^ 32) (2 ^ 32)).
  rewrite (u32_small (b / _)) by lia. unfold u32.
  pose proof (Z.mod_pos_bound b (2 ^ 32)). pose proof (Z.div_mod b (2 ^ 32)).
  split.
  - split; [done|]. repeat constructor; unfold limb; lia.
  - cbn [val]. lia.
Qed.

Lemma add_u64_spec a b : wf a -> 0 <= b < 2 ^ 64 ->
  wf (add_u64 a b) /\ val (add_u64 a b) = (val a + b) mod 2 ^ 256.
Proof.
  intros Ha Hb. destruct (of_u64_spec b Hb) as [H1 H2].
  destruct (add_spec a _ Ha H1) as [H3 H4]. unfold add_u64. by rewrite H4, H2.
Qed.

Lemma sub_u64_spec a b : wf a -> 0 <= b < 2 ^ 64 ->
  wf (sub_u64 a b) /\ val (sub_u64 a b) = (val a - b) mod 2 ^ 256.
Proof.
  intros Ha Hb. destruct (of_u64_spec b Hb) as [H1 H2].
  destruct (sub_spec a _ Ha H1) as [H3 H4]. rewrite H2 in H4. done.
Qed.

(** ** Shifts *)

(** Case analysis on the [nat] tests of the shift loops. *)
Ltac nat_tests :=
  repeat match goal with
  | |- context [(?a <? ?b)%nat] => destruct (Nat.ltb_spec a b); try lia
  | |- context [(?a <=? ?b)%nat] => destruct (Nat.leb_spec a b); try lia
  end; cbn [andb].

(** The limbs [operator<<=] leaves, each from at most two limbs of the operand. *)
Lemma shl_limbs a s :
  0 <= s ->
  length (shl a s) = WIDTH /\
  forall j, (j < WIDTH)%nat ->
  pn_get (shl a s) j =
    Z.lor (if (Z.to_nat (s / 32) <=? j)%nat
           then u32 (Z.shiftl (pn_get a (j - Z.to_nat (s / 32))) (s mod 32)) else 0)
          (if (Z.to_nat (s / 32) + 1 <=? j)%nat && negb (s mod 32 =? 0)
           then Z.shiftr (pn_get a (j - Z.to_nat (s / 32) - 1)) (32 - s mod 32) else 0).
Proof.
  intros _. unfold shl. set (k := Z.to_nat (s / 32)). set (s' := s mod 32).
  set (nz := negb (s' =? 0)).
  match goal with |- context [for_up 0 WIDTH ?f base_zero] => set (body := f) end.
  pose proof (for_up_inv (fun i pn => length pn = WIDTH /\
    forall j, (j < WIDTH)%nat -> pn_get pn j =
      Z.lor (if (k <=? j)%nat && (j - k <? i)%nat
             then u32 (Z.shiftl (pn_get a (j - k)) s') else 0)
            (if (k + 1 <=? j)%nat && (j - k - 1 <? i)%nat && nz
             then Z.shiftr (pn_get a (j - k - 1)) (32 - s') else 0)) body WIDTH 0 base_zero) as Hinv.
  destruct Hinv as [HL HG].
  - split; [done|]. intros j Hj. rewrite pn_get_base_zero. nat_tests; done.
  - intros i pn Hi [Hl Hg]. unfold body. fold nz. split.
    { destruct (_ && nz), (i + k <? WIDTH)%nat; by rewrite ?length_insert. }
    intros j Hj. destruct nz; rewrite ?andb_true_r, ?andb_false_r.
    + destruct (Nat.ltb_spec (i + k + 1) WIDTH), (Nat.ltb_spec (i + k) WIDTH); try lia;
        rewrite ?pn_get_insert, ?Hg by (rewrite ?length_insert; lia);
        repeat case_decide; subst; try lia; rewrite ?Hg by lia; nat_tests;
        rewrite ?Z.lor_0_r, ?Z.lor_0_l;
        try replace (i + k - k)%nat with i by lia;
        try replace (i + k + 1 - k - 1)%nat with i by lia; try done; apply Z.lor_comm.
    + destruct (Nat.ltb_spec (i + k) WIDTH);
        rewrite ?pn_get_insert, ?Hg by lia; repeat case_decide; subst; try lia; nat_tests;
        rewrite ?Z.lor_0_r, ?Z.lor_0_l;
        try replace (i + k - k)%nat with i by lia; done.
  - split; [done|]. intros j Hj. cbv beta in HG. rewrite HG by done.
    unfold WIDTH in *. nat_tests; done.
Qed.

Lemma testbit_val_at a j b :
  Forall limb a -> 0 <= b < 32 ->
  Z.testbit (val a) (32 * Z.of_nat j + b) = Z.testbit (pn_get a j) b.
Proof.
  intros Ha Hb. rewrite testbit_val by (done || lia).
  rewrite Z.add_comm, Z.mul_comm, Z.div_add, Z.mod_add, Z.div_small, Z.mod_small by lia.
  do 2 f_equal. lia.
Qed.

Lemma shl_spec a s :
  wf a -> 0 <= s -> wf (shl a s) /\ val (shl a s) = (val a * 2 ^ s) mod 2 ^ 256.
Proof.
  intros [Hl Ha] Hs. destruct (shl_limbs a s Hs) as [HL HG].
  pose proof (Z.div_mod s 32). pose proof (Z.mod_pos_bound s 32). pose proof (Z.div_pos s 32).
  set (k := Z.to_nat (s / 32)) in *. set (s' := s mod 32) in *.
  assert (Hwf : wf (shl a s)).
  { apply wf_intro; [done|]. intros j Hj. rewrite HG by done.
    apply lor_bound; [lia|case_match; [apply u32_bound|lia]|].
    case_match; [|lia]. destruct (pn_get_limb a (j - k - 1) Ha) as [Hx0 Hx1].
    rewrite Z.shiftr_div_pow2 by lia. split; [apply Z.div_pos; lia|].
    apply Z.le_lt_trans with (pn_get a (j - k - 1)); [|done]. apply Z.div_le_upper_bound; nia. }
  split; [done|]. apply val_bits; [done|apply Z.mod_pos_bound; lia|].
  intros j b Hj Hb. unfold WIDTH in Hj.
  rewrite HG, testbit_mod, Z.lor_spec by (unfold WIDTH; lia).
  destruct (Z.ltb_spec (32 * Z.of_nat j + b) 256); [|lia]. cbn [andb].
  rewrite <- Z.shiftl_mul_pow2, testbit_shiftl by lia.
  destruct (Z.leb_spec s' b).
  - (* the bits that come from limb [j - k] *)
    assert (Hz : Z.testbit (if (k + 1 <=? j)%nat && negb (s' =? 0)
       then Z.shiftr (pn_get a (j - k - 1)) (32 - s') else 0) b = false).
    { case_match; [|apply Z.bits_0]. rewrite Z.shiftr_spec by lia.
      apply (testbit_above _ 32); [apply pn_get_limb; done|lia]. }
    rewrite Hz, orb_false_r. destruct (Nat.leb_spec k j).
    + unfold u32. rewrite testbit_mod, testbit_shiftl by lia.
      destruct (Z.ltb_spec b 32); [|lia]. cbn [andb].
      rewrite <- testbit_val_at by (done || lia). f_equal. lia.
    + rewrite Z.bits_0, Z.testbit_neg_r; [done|lia].
  - assert (Hz : Z.testbit (if (k <=? j)%nat
       then u32 (Z.shiftl (pn_get a (j - k)) s') else 0) b = false).
    { case_match; [|apply Z.bits_0]. unfold u32. rewrite testbit_mod, testbit_shiftl by lia.
      rewrite (Z.testbit_neg_r _ (b - s')) by lia. apply andb_false_r. }
    rewrite Hz, orb_false_l. destruct (Z.eqb_spec s' 0); [lia|]. rewrite andb_true_r.
    destruct (Nat.leb_spec (k + 1) j).
    + rewrite Z.shiftr_spec, <- testbit_val_at by (done || lia). f_equal. lia.
    + rewrite Z.bits_0, Z.testbit_neg_r; [done|lia].
Qed.

(** The limbs [operator>>=] leaves. *)
Lemma shr_limbs a s :
  length (shr a s) = WIDTH /\
  forall j, (j < WIDTH)%nat ->
  pn_get (shr a s) j =
    Z.lor (if (j + Z.to_nat (s / 32) <? WIDTH)%nat
           then Z.shiftr (pn_get a (j + Z.to_nat (s / 32))) (s mod 32) else 0)
          (if (j + Z.to_nat (s / 32) + 1 <? WIDTH)%nat && negb (s mod 32 =? 0)
           then u32 (Z.shiftl (pn_get a (j + Z.to_nat (s / 32) + 1)) (32 - s mod 32)) else 0).
Proof.
  unfold shr. set (k := Z.to_nat (s / 32)). set (s' := s mod 32).
  set (nz := negb (s' =? 0)).
  match goal with |- context [for_up 0 WIDTH ?f base_zero] => set (body := f) end.
  pose proof (for_up_inv (fun i pn => length pn = WIDTH /\
    forall j, (j < WIDTH)%nat -> pn_get pn j =
      Z.lor (if (j + k <? i)%nat then Z.shiftr (pn_get a (j + k)) s' else 0)
            (if (j + k + 1 <? i)%nat && nz
             then u32 (Z.shiftl (pn_get a (j + k + 1)) (32 - s')) else 0)) body WIDTH 0 base_zero) as Hinv.
  destruct Hinv as [HL HG].
  - split; [done|]. intros j Hj. rewrite pn_get_base_zero. nat_tests; done.
  - intros i pn Hi [Hl Hg]. unfold body. fold nz. split.
    { destruct (_ && nz), (k <=? i)%nat; by rewrite ?length_insert. }
    intros j Hj. destruct nz; rewrite ?andb_true_r, ?andb_false_r.
    + destruct (Nat.leb_spec (k + 1) i), (Nat.leb_spec k i); try lia;
        rewrite ?pn_get_insert, ?Hg by (rewrite ?length_insert; lia);
        repeat case_decide; subst; try lia; rewrite ?Hg by lia; nat_tests;
        rewrite ?Z.lor_0_r, ?Z.lor_0_l;
        try replace (i - k + k)%nat with i by lia;
        try replace (i - k - 1 + k + 1)%nat with i by lia; try done; apply Z.lor_comm.
    + destruct (Nat.leb_spec k i);
        rewrite ?pn_get_insert, ?Hg by lia; repeat case_decide; subst; try lia; nat_tests;
        rewrite ?Z.lor_0_r, ?Z.lor_0_l;
        try replace (i - k + k)%nat with i by lia; done.
  - split; [done|]. intros j Hj. cbv beta in HG. rewrite HG by done. done.
Qed.

Lemma shr_spec a s :
  wf a -> 0 <= s -> wf (shr a s) /\ val (shr a s) = val a / 2 ^ s.
Proof.
  intros Hwfa Hs. pose proof (wf_bound a Hwfa) as Hva. destruct Hwfa as [Hl Ha].
  destruct (shr_limbs a s) as [HL HG].
  pose proof (Z.div_mod s 32). pose proof (Z.mod_pos_bound s 32). pose proof (Z.div_pos s 32).
  set (k := Z.to_nat (s / 32)) in *. set (s' := s mod 32) in *.
  assert (Hwf : wf (shr a s)).
  { apply wf_intro; [done|]. intros j Hj. rewrite HG by done.
    apply lor_bound; [lia| |case_match; [apply u32_bound|lia]].
    case_match; [|lia]. destruct (pn_get_limb a (j + k) Ha) as [Hx0 Hx1].
    rewrite Z.shiftr_div_pow2 by lia. split; [apply Z.div_pos; lia|].
    apply Z.le_lt_trans with (pn_get a (j + k)); [|done]. apply Z.div_le_upper_bound; nia. }
  split; [done|]. apply val_bits; [done| |].
  { split; [apply Z.div_pos; lia|]. apply Z.le_lt_trans with (val a); [|lia].
    apply Z.div_le_upper_bound; nia. }
  intros j b Hj Hb. unfold WIDTH in Hj.
  rewrite HG, Z.lor_spec by (unfold WIDTH; lia).
  rewrite <- Z.shiftr_div_pow2, Z.shiftr_spec by lia.
  assert (Hout : forall i, (8 <= i)%nat -> pn_get a i = 0) by (intros; apply pn_get_ge; rewrite Hl; done).
  destruct (Z.ltb_spec (b + s') 32).
  - assert (Hz : Z.testbit (if (j + k + 1 <? WIDTH)%nat && negb (s' =? 0)
       then u32 (Z.shiftl (pn_get a (j + k + 1)) (32 - s')) else 0) b = false).
    { case_match; [|apply Z.bits_0]. unfold u32. rewrite testbit_mod, testbit_shiftl by lia.
      rewrite (Z.testbit_neg_r _ (b - (32 - s'))) by lia. apply andb_false_r. }
    rewrite Hz, orb_false_r.
    replace (32 * Z.of_nat j + b + s) with (32 * Z.of_nat (j + k) + (b + s')) by lia.
    rewrite testbit_val_at by (done || lia).
    destruct (Nat.ltb_spec (j + k) WIDTH).
    + by rewrite Z.shiftr_spec by lia.
    + by rewrite Hout, !Z.bits_0 by (unfold WIDTH in *; lia).
  - assert (Hz : Z.testbit (if (j + k <? WIDTH)%nat
       then Z.shiftr (pn_get a (j + k)) s' else 0) b = false).
    { case_match; [|apply Z.bits_0]. rewrite Z.shiftr_spec by lia.
      apply (testbit_above _ 32); [apply pn_get_limb; done|lia]. }
    rewrite Hz, orb_false_l. destruct (Z.eqb_spec s' 0); [lia|]. rewrite andb_true_r.
    replace (32 * Z.of_nat j + b + s) with (32 * Z.of_nat (j + k + 1) + (b + s' - 32)) by lia.
    rewrite testbit_val_at by (done || lia).
    destruct (Nat.ltb_spec (j + k + 1) WIDTH).
    + unfold u32. rewrite testbit_mod, testbit_shiftl by lia.
      destruct (Z.ltb_spec b 32); [|lia]. cbn [andb]. f_equal. lia.
    + by rewrite Hout, !Z.bits_0 by (unfold WIDTH in *; lia).
Qed.

(** ** Multiplication *)

Lemma val_app l1 l2 : val (l1 ++ l2) = val l1 + 2 ^ (32 * Z.of_nat (length l1)) * val l2.
Proof.
  induction l1 as [|x l1 IH]; cbn [app val length]; [lia|].
  rewrite IH. replace (32 * Z.of_nat (S (length l1))) with (32 + 32 * Z.of_nat (length l1)) by lia.
  rewrite Z.pow_add_r by lia. lia.
Qed.

Lemma val_take_drop n l :
  (n <= length l)%nat -> val l = val (take n l) + 2 ^ (32 * Z.of_nat n) * val (drop n l).
Proof.
  intros. rewrite <- (take_drop n l) at 1. rewrite val_app, length_take. do 4 f_equal. lia.
Qed.

Lemma take_S_get l n :
  (n < length l)%nat -> take (S n) l = take n l ++ [pn_get l n].
Proof.
  intros Hn. apply lookup_lt_is_Some in Hn as [x Hx].
  rewrite (take_S_r _ _ _ Hx). unfold pn_get. by rewrite Hx.
Qed.

Lemma val_take_S l n :
  (n < length l)%nat -> val (take (S n) l) = val (take n l) + 2 ^ (32 * Z.of_nat n) * pn_get l n.
Proof.
  intros Hn. rewrite take_S_get, val_app, length_take by done. cbn [val].
  replace (n `min` length l)%nat with n by lia. lia.
Qed.

(** One schoolbook row, limb list against limb list. *)
Fixpoint mul_row_list (c x : Z) (p b : list Z) : list Z :=
  match p, b with
  | y :: p', z :: b' =>
      let n := u64 (c + y + x * z) in
      Z.land n 0xffffffff :: mul_row_list (Z.shiftr n 32) x p' b'
  | _, _ => []
  end.

Lemma drop_get l n : (n < length l)%nat -> drop n l = pn_get l n :: drop (S n) l.
Proof.
  intros Hn. apply lookup_lt_is_Some in Hn as [x Hx].
  rewrite (drop_S _ _ _ Hx). unfold pn_get. by rewrite Hx.
Qed.

Lemma mul_row_loop x b j n :
  forall i c pn, (i + n <= length b)%nat -> length pn = (i + j + n)%nat ->
  snd (for_up i n (fun i '(carry, pn) =>
         let n := u64 (carry + pn_get pn (i + j) + x * pn_get b i) in
         (Z.shiftr n 32, <[(i + j)%nat := Z.land n 0xffffffff]> pn)) (c, pn))
  = take (i + j) pn ++ mul_row_list c x (drop (i + j) pn) (drop i b).
Proof.
  induction n as [|n IH]; intros i c pn Hb Hp; cbn [for_up].
  - cbn [snd]. rewrite (drop_ge pn), app_nil_r, take_ge by lia. done.
  - cbv zeta. rewrite IH by (rewrite ?length_insert; lia).
    rewrite (drop_get pn (i + j)), (drop_get b i) by lia. cbn [mul_row_list].
    set (w := u64 _). change (S i + j)%nat with (S (i + j)).
    rewrite drop_insert_lt by lia.
    rewrite take_S_get by (rewrite length_insert; lia).
    rewrite take_insert_ge by lia. rewrite pn_get_insert by lia.
    rewrite decide_True by done. rewrite <- app_assoc. done.
Qed.

Lemma mul_row_list_spec x p :
  forall b c, Forall limb p -> Forall limb b -> (length p <= length b)%nat -> limb x -> limb c ->
  length (mul_row_list c x p b) = length p /\ Forall limb (mul_row_list c x p b) /\
  val (mul_row_list c x p b) = (c + val p + x * val b) mod 2 ^ (32 * Z.of_nat (length p)).
Proof.
  induction p as [|y p IH]; intros [|z b] c Hp Hb Hl Hx Hc; try done; try (simpl in Hl; lia).
  1,2: split; [done|]; split; [done|]; cbn [mul_row_list val length]; by rewrite Z.mod_1_r.
  apply Forall_cons_1 in Hp as [Hy Hp]. apply Forall_cons_1 in Hb as [Hz Hb].
  unfold limb in Hy, Hz, Hx, Hc. cbn [mul_row_list length val] in *.
  assert (0 <= c + y + x * z < 2 ^ 64) by nia. rewrite u64_small by lia.
  set (n := c + y + x * z) in *. destruct (split_word n) as (Hlo & Hhi & Heq); [lia|].
  destruct (IH b (Z.shiftr n 32)) as (HL & HF & HV); [done|done|lia|done|done|].
  split; [by rewrite HL|]. split; [by constructor|]. rewrite HV.
  replace (32 * Z.of_nat (S (length p))) with (32 + 32 * Z.of_nat (length p)) by lia.
  rewrite Z.pow_add_r, Z.rem_mul_r by lia. unfold limb in Hlo.
  replace (c + (y + 2 ^ 32 * val p) + x * (z + 2 ^ 32 * val b))
    with (Z.land n 0xffffffff + (Z.shiftr n 32 + val p + x * val b) * 2 ^ 32) by lia.
  rewrite Z.mod_add, Z.div_add, (Z.mod_small (Z.land n _)), (Z.div_small (Z.land n _)) by lia.
  by rewrite Z.add_0_l.
Qed.

Lemma mul_row_spec a b j pn :
  wf a -> wf b -> wf pn -> (j < WIDTH)%nat ->
  wf (mul_row a b j pn) /\
  val (mul_row a b j pn) = (val pn + 2 ^ (32 * Z.of_nat j) * (pn_get a j * val b)) mod 2 ^ 256.
Proof.
  intros [Hla Ha] [Hlb Hb] [Hlp Hp] Hj. unfold mul_row.
  rewrite mul_row_loop by (unfold WIDTH in *; lia). rewrite drop_0. cbn [Nat.add].
  destruct (mul_row_list_spec (pn_get a j) (drop j pn) b 0) as (HL & HF & HV);
    [by apply Forall_drop|done|rewrite length_drop; lia|by apply pn_get_limb|unfold limb; lia|].
  rewrite length_drop, Hlp in HL, HV. split.
  - split; [rewrite length_app, length_take, HL; lia|].
    apply Forall_app_2; [by apply Forall_take|done].
  - rewrite val_app, HV, length_take, Hlp, Z.add_0_l.
    replace (j `min` WIDTH)%nat with j by lia.
    rewrite (val_take_drop j pn) by lia.
    assert (Hlo : 0 <= val (take j pn) < 2 ^ (32 * Z.of_nat j)).
    { pose proof (val_bound (take j pn) (Forall_take _ _ _ Hp)) as H.
      rewrite length_take in H. replace (j `min` length pn)%nat with j in H by lia. done. }
    replace (2 ^ 256) with (2 ^ (32 * Z.of_nat j) * 2 ^ (32 * Z.of_nat (WIDTH - j)))
      by (rewrite <- Z.pow_add_r by lia; f_equal; unfold WIDTH in *; lia).
    rewrite Z.rem_mul_r by lia.
    set (M := 2 ^ (32 * Z.of_nat j)) in *. set (N := 2 ^ (32 * Z.of_nat (WIDTH - j))).
    replace (val (take j pn) + M * val (drop j pn) + M * (pn_get a j * val b))
      with (val (take j pn) + (val (drop j pn) + pn_get a j * val b) * M) by lia.
    rewrite Z.mod_add, Z.div_add, (Z.mod_small (val (take j pn))), (Z.div_small (val (take j pn))) by lia.
    by rewrite Z.add_0_l.
Qed.

Lemma mul_spec a b : wf a -> wf b -> wf (mul a b) /\ val (mul a b) = (val a * val b) mod 2 ^ 256.
Proof.
  intros Ha Hb. destruct (of_u64_spec 0) as [Hz0 Hz1]; [lia|].
  pose proof (for_up_inv (fun j pn => wf pn /\ val pn = (val (take j a) * val b) mod 2 ^ 256)
                (mul_row a b) WIDTH 0 (of_u64 0)) as Hinv.
  unfold mul. destruct Hinv as [H1 H2].
  - split; [done|]. rewrite Hz1. done.
  - intros j pn Hj [Hw Hv]. destruct (mul_row_spec a b j pn) as [H1 H2]; [done..|lia|].
    split; [done|]. rewrite H2, Hv, val_take_S by (destruct Ha; lia).
    rewrite Z.add_mod_idemp_l by lia. f_equal. lia.
  - split; [done|]. rewrite H2. destruct Ha as [Hl _]. by rewrite take_ge by (rewrite Hl; done).
Qed.

Lemma mul32_limbs x a :
  forall c, Forall limb a -> limb x -> limb c ->
  length (mul32_carry c a x) = length a /\ Forall limb (mul32_carry c a x) /\
  val (mul32_carry c a x) = (c + val a * x) mod 2 ^ (32 * Z.of_nat (length a)).
Proof.
  induction a as [|y a IH]; intros c Ha Hx Hc.
  { split; [done|]. split; [done|]. cbn [mul32_carry val length]. by rewrite Z.mod_1_r. }
  apply Forall_cons_1 in Ha as [Hy Ha]. unfold limb in Hy, Hx, Hc.
  cbn [mul32_carry length val] in *.
  assert (0 <= c + x * y < 2 ^ 64) by nia. rewrite u64_small by lia.
  set (n := c + x * y) in *. destruct (split_word n) as (Hlo & Hhi & Heq); [lia|].
  destruct (IH (Z.shiftr n 32)) as (HL & HF & HV); [done..|].
  split; [by rewrite HL|]. split; [by constructor|]. rewrite HV.
  replace (32 * Z.of_nat (S (length a))) with (32 + 32 * Z.of_nat (length a)) by lia.
  rewrite Z.pow_add_r, Z.rem_mul_r by lia. unfold limb in Hlo.
  replace (c + (y + 2 ^ 32 * val a) * x)
    with (Z.land n 0xffffffff + (Z.shiftr n 32 + val a * x) * 2 ^ 32) by lia.
  rewrite Z.mod_add, Z.div_add, (Z.mod_small (Z.land n _)), (Z.div_small (Z.land n _)) by lia.
  by rewrite Z.add_0_l.
Qed.

Lemma mul32_spec a x : wf a -> 0 <= x < 2 ^ 32 ->
  wf (mul32 a x) /\ val (mul32 a x) = (val a * x) mod 2 ^ 256.
Proof.
  intros [Hl Ha] Hx. destruct (mul32_limbs x a 0) as (H0 & H1 & H2);
    [done|done|unfold limb; lia|].
  rewrite Hl in H0, H2. done.
Qed.

(** ** Comparison and bit length *)

Lemma compare_from_spec n a b :
  Forall limb a -> Forall limb b -> (n <= length a)%nat -> (n <= length b)%nat ->
  compare_from n a b =
    match val (take n a) ?= val (take n b) with Lt => -1 | Eq => 0 | Gt => 1 end.
Proof.
  intros Ha Hb. induction n as [|n IH]; intros Hla Hlb; [done|].
  cbn [compare_from]. rewrite !val_take_S by lia. rewrite IH by lia.
  pose proof (val_bound (take n a) (Forall_take _ _ _ Ha)) as HA.
  pose proof (val_bound (take n b) (Forall_take _ _ _ Hb)) as HB.
  rewrite length_take in HA, HB.
  replace (n `min` length a)%nat with n in HA by lia.
  replace (n `min` length b)%nat with n in HB by lia.
  set (M := 2 ^ (32 * Z.of_nat n)) in *.
  destruct (Z.ltb_spec (pn_get a n) (pn_get b n)).
  { destruct (Z.compare_spec (val (take n a) + M * pn_get a n) (val (take n b) + M * pn_get b n));
      nia. }
  destruct (Z.ltb_spec (pn_get b n) (pn_get a n)).
  { destruct (Z.compare_spec (val (take n a) + M * pn_get a n) (val (take n b) + M * pn_get b n));
      nia. }
  replace (pn_get a n) with (pn_get b n) by lia.
  destruct (Z.compare_spec (val (take n a)) (val (take n b))),
    (Z.compare_spec (val (take n a) + M * pn_get b n) (val (take n b) + M * pn_get b n)); done || lia.
Qed.

Lemma CompareTo_spec a b : wf a -> wf b ->
  CompareTo a b = match val a ?= val b with Lt => -1 | Eq => 0 | Gt => 1 end.
Proof.
  intros [Hla Ha] [Hlb Hb]. unfold CompareTo. rewrite compare_from_spec by (done || lia).
  by rewrite !take_ge by lia.
Qed.

Lemma gtb_spec a b : wf a -> wf b -> gtb a b = (val b <? val a).
Proof.
  intros Ha Hb. unfold gtb. rewrite CompareTo_spec by done.
  destruct (Z.compare_spec (val a) (val b)), (Z.ltb_spec (val b) (val a)); done || lia.
Qed.

Lemma geb_spec a b : wf a -> wf b -> geb a b = (val b <=? val a).
Proof.
  intros Ha Hb. unfold geb. rewrite CompareTo_spec by done.
  destruct (Z.compare_spec (val a) (val b)), (Z.leb_spec (val b) (val a)); done || lia.
Qed.

Lemma EqualTo_spec a b : wf a -> 0 <= b < 2 ^ 64 -> EqualTo a b = (val a =? b).
Proof.
  intros [Hl Ha] Hb. destruct a as [|x0 [|x1 r]]; try done.
  unfold EqualTo. change (Z.land b 0xffffffff) with (Z.land b (2 ^ 32 - 1)).
  rewrite land_ones_mod, Z.shiftr_div_pow2 by lia. cbn [val].
  apply Forall_cons_1 in Ha as [H0 Ha]. apply Forall_cons_1 in Ha as [H1 Ha].
  unfold limb in H0, H1. pose proof (val_bound r Ha) as Hr.
  assert (Hz : forallb (fun i => pn_get (x0 :: x1 :: r) i =? 0) (seq 2 (WIDTH - 2)) = (val r =? 0)).
  { destruct r as [|r0 [|r1 [|r2 [|r3 [|r4 [|r5 [|]]]]]]]; try done. clear Hr.
    change (forallb _ _) with ((r0 =? 0) && ((r1 =? 0) && ((r2 =? 0) && ((r3 =? 0)
      && ((r4 =? 0) && ((r5 =? 0) && true)))))).
    repeat match goal with H : Forall limb (_ :: _) |- _ => apply Forall_cons_1 in H as [? ?] end.
    unfold limb in *. cbn [val].
    repeat match goal with |- context [?x =? 0] => destruct (Z.eqb_spec x 0); cbn [andb]; try lia end. }
  rewrite Hz. change (pn_get (x0 :: x1 :: r) 1) with x1. change (pn_get (x0 :: x1 :: r) 0) with x0.
  pose proof (Z.div_mod b (2 ^ 32)). pose proof (Z.mod_pos_bound b (2 ^ 32)).
  pose proof (Z.div_lt_upper_bound b (2 ^ 32) (2 ^ 32)).
  destruct (Z.eqb_spec (val r) 0), (Z.eqb_spec x1 (b / 2 ^ 32)), (Z.eqb_spec x0 (b mod 2 ^ 32)),
    (Z.eqb_spec (x0 + 2 ^ 32 * (x1 + 2 ^ 32 * val r)) b); cbn [andb]; try done; lia.
Qed.

Lemma limb_bits_spec n x :
  0 < x < 2 ^ (Z.of_nat n + 1) -> limb_bits n x = Z.log2 x + 1.
Proof.
  induction n as [|n IH]; intros Hx.
  - change (2 ^ (Z.of_nat 0 + 1)) with 2 in Hx. by replace x with 1 by lia.
  - cbn [limb_bits].
    rewrite Z.shiftl_1_l.
    rewrite land_pow2_eqb, negb_involutive by lia.
    destruct (Z.testbit x (Z.of_nat (S n))) eqn:Ht.
    + f_equal. symmetry. apply Z.log2_unique; [lia|].
      split; [|rewrite <- Z.add_1_r; lia].
      destruct (Z.le_gt_cases (2 ^ Z.of_nat (S n)) x); [done|].
      rewrite (testbit_above x (Z.of_nat (S n))) in Ht by lia. done.
    + apply IH. replace (Z.of_nat n + 1) with (Z.of_nat (S n)) by lia.
      split; [lia|]. apply bits_bound; [lia|lia|]. intros p Hp.
      destruct (decide (p = Z.of_nat (S n))) as [->|]; [done|].
      apply (testbit_above x (Z.of_nat (S n) + 1)); lia.
Qed.

Lemma bits_from_spec n a :
  Forall limb a -> (n <= length a)%nat ->
  bits_from n a = if val (take n a) =? 0 then 0 else Z.log2 (val (take n a)) + 1.
Proof.
  intros Ha. induction n as [|n IH]; intros Hl; [done|].
  cbn [bits_from]. rewrite val_take_S by lia. rewrite IH by lia.
  pose proof (val_bound (take n a) (Forall_take _ _ _ Ha)) as HA.
  rewrite length_take in HA. replace (n `min` length a)%nat with n in HA by lia.
  destruct (pn_get_limb a n Ha) as [Hx0 Hx1].
  set (M := 2 ^ (32 * Z.of_nat n)) in *.
  destruct (Z.eqb_spec (pn_get a n) 0) as [->|E]; cbn [negb].
  { by rewrite Z.mul_0_r, Z.add_0_r. }
  destruct (Z.eqb_spec (val (take n a) + M * pn_get a n) 0); [nia|].
  rewrite limb_bits_spec by (simpl; lia).
  rewrite Z.add_assoc. f_equal. symmetry. apply Z.log2_unique; [pose proof (Z.log2_nonneg (pn_get a n)); lia|].
  destruct (Z.log2_spec (pn_get a n)) as [Hlo Hhi]; [lia|].
  replace (Z.succ (32 * Z.of_nat n + Z.log2 (pn_get a n)))
    with (32 * Z.of_nat n + Z.succ (Z.log2 (pn_get a n))) by lia.
  pose proof (Z.log2_nonneg (pn_get a n)).
  rewrite !Z.pow_add_r by lia. fold M. nia.
Qed.

Lemma bits_spec a : wf a -> bits a = if val a =? 0 then 0 else Z.log2 (val a) + 1.
Proof.
  intros [Hl Ha]. unfold bits. rewrite bits_from_spec by (done || lia).
  by rewrite take_ge by lia.
Qed.

(** ** Division *)

Lemma val_insert i x pn :
  (i < length pn)%nat -> val (<[i := x]> pn) = val pn + 2 ^ (32 * Z.of_nat i) * (x - pn_get pn i).
Proof.
  intros Hi. rewrite insert_take_drop by done.
  rewrite (val_take_drop i pn) by lia. rewrite (drop_get pn i) by done.
  rewrite val_app. cbn [val]. rewrite length_take.
  replace (i `min` length pn)%nat with i by lia. lia.
Qed.

(** Setting a clear bit of the quotient adds its weight. *)
Lemma set_bit_spec q s :
  wf q -> (s < 256)%nat -> Z.testbit (val q) (Z.of_nat s) = false ->
  let q' := <[(s / 32)%nat := Z.lor (pn_get q (s / 32)) (Z.shiftl 1 (Z.land (Z.of_nat s) 31))]> q in
  wf q' /\ val q' = val q + 2 ^ Z.of_nat s.
Proof.
  intros [Hl Hq] Hs Hb q'. change 31 with (2 ^ 5 - 1) in q'.
  pose proof (Nat.div_mod_eq s 32). pose proof (Nat.mod_upper_bound s 32).
  assert (s / 32 < 8)%nat by (apply Nat.Div0.div_lt_upper_bound; lia).
  assert (Hq' : q' = <[(s / 32)%nat := pn_get q (s / 32) + 2 ^ Z.of_nat (s mod 32)]> q).
  { unfold q'. f_equal. rewrite land_ones_mod, Z.shiftl_1_l by lia.
    replace (Z.of_nat s mod 2 ^ 5) with (Z.of_nat (s mod 32)) by (rewrite Nat2Z.inj_mod; done).
    apply lor_pow2; [lia|]. rewrite <- testbit_val_at by (done || lia).
    rewrite <- Hb. f_equal. lia. }
  split.
  - apply wf_intro; [unfold q'; by rewrite length_insert|]. intros i Hi. unfold q'.
    rewrite pn_get_insert by (unfold WIDTH in *; lia). case_decide; [|by apply pn_get_limb].
    apply lor_bound; [lia|by apply pn_get_limb|]. rewrite land_ones_mod, Z.shiftl_1_l by lia.
    split; [lia|]. apply Z.pow_lt_mono_r; [lia|lia|apply Z.mod_pos_bound; lia].
  - rewrite Hq', val_insert by (unfold WIDTH in *; lia).
    replace (pn_get q (s / 32) + 2 ^ Z.of_nat (s mod 32) - pn_get q (s / 32))
      with (2 ^ Z.of_nat (s mod 32)) by lia.
    rewrite <- Z.pow_add_r by lia. do 2 f_equal. lia.
Qed.

(** What the loop of [operator/=] keeps: the divisor aligned at [shift], the
    dividend split as quotient times divisor plus remainder, the remaining
    remainder below the next multiple, and the low quotient bits still clear. *)
Definition div_inv (A B : Z) (shift : nat) (st : list Z * list Z * list Z) : Prop :=
  let '(num, dv, q) := st in
  wf num /\ wf dv /\ wf q /\
  A = val q * B + val num /\ val num < B * 2 ^ Z.of_nat shift /\
  (2 ^ Z.of_nat shift | val q) /\
  (forall s, shift = S s -> val dv = B * 2 ^ Z.of_nat s).

Lemma div_step_inv A B s st :
  0 < B -> (s < 256)%nat -> 0 <= A < 2 ^ 256 ->
  div_inv A B (S s) st -> div_inv A B s (div_step s st).
Proof.
  intros HB Hs HA. destruct st as [[num dv] q].
  intros (Hn & Hd & Hq & HA' & Hlt & Hdiv & Hdv). specialize (Hdv s eq_refl).
  assert (H2s : 2 ^ Z.of_nat (S s) = 2 * 2 ^ Z.of_nat s)
    by (rewrite Nat2Z.inj_succ, Z.pow_succ_r by lia; done).
  assert (0 < 2 ^ Z.of_nat s) by lia.
  destruct (shr_spec dv 1 Hd) as [Hd1 Hd2]; [lia|].
  assert (Hshr : forall s', s = S s' -> val (shr dv 1) = B * 2 ^ Z.of_nat s').
  { intros s' ->. rewrite Hd2, Hdv, Nat2Z.inj_succ, Z.pow_succ_r by lia.
    replace (B * (2 * 2 ^ Z.of_nat s')) with (B * 2 ^ Z.of_nat s' * 2 ^ 1) by lia.
    by rewrite Z.div_mul by lia. }
  pose proof (wf_bound num Hn). pose proof (wf_bound q Hq).
  destruct Hdiv as [c Hc].
  unfold div_step. change (0 <=? CompareTo num dv) with (geb num dv).
  rewrite geb_spec by done. destruct (Z.leb_spec (val dv) (val num)).
  - destruct (sub_spec num dv Hn Hd) as [Hs1 Hs2].
    rewrite Z.mod_small in Hs2 by (pose proof (wf_bound dv Hd); lia).
    assert (Hbit : Z.testbit (val q) (Z.of_nat s) = false).
    { rewrite Hc, H2s. replace (c * (2 * 2 ^ Z.of_nat s)) with (Z.shiftl (2 * c) (Z.of_nat s))
        by (rewrite Z.shiftl_mul_pow2 by lia; lia).
      rewrite testbit_shiftl, Z.sub_diag by lia. apply Z.testbit_even_0. }
    destruct (set_bit_spec q s Hq Hs Hbit) as [Hw Hv].
    split; [done|]. split; [done|]. split; [done|]. rewrite Hv, Hs2.
    split; [lia|]. split; [lia|]. split; [|done]. exists (2 * c + 1). lia.
  - split; [done|]. split; [done|]. split; [done|]. split; [done|]. split; [lia|].
    split; [|done]. exists (2 * c). lia.
Qed.

Lemma div_loop_inv A B n :
  forall st, 0 < B -> (n <= 256)%nat -> 0 <= A < 2 ^ 256 ->
  div_inv A B n st -> div_inv A B 0 (for_down n div_step st).
Proof.
  induction n as [|n IH]; intros st HB Hn HA Hinv; [done|].
  apply IH; [done|lia|done|]. by apply div_step_inv; [done|lia|done|].
Qed.

Lemma div_spec a b : wf a -> wf b -> val b <> 0 ->
  exists q, div a b = Some q /\ wf q /\ val q = val a / val b.
Proof.
  intros Ha Hb Hnz. pose proof (wf_bound a Ha). pose proof (wf_bound b Hb).
  destruct (of_u64_spec 0) as [Hz0 Hz1]; [lia|].
  unfold div. rewrite !bits_spec by done.
  destruct (Z.eqb_spec (val b) 0); [lia|]. pose proof (Z.log2_nonneg (val b)).
  destruct (Z.eqb_spec (Z.log2 (val b) + 1) 0); [lia|].
  destruct (Z.log2_spec (val b)) as [Hb1 Hb2]; [lia|].
  destruct (Z.eqb_spec (val a) 0) as [Ez|].
  { destruct (Z.ltb_spec 0 (Z.log2 (val b) + 1)); [|lia].
    eexists; split; [done|]. split; [done|]. by rewrite Hz1, Ez, Z.div_0_l. }
  destruct (Z.log2_spec (val a)) as [Ha1 Ha2]; [lia|].
  destruct (Z.ltb_spec (Z.log2 (val a) + 1) (Z.log2 (val b) + 1)).
  { eexists; split; [done|]. split; [done|]. rewrite Hz1, Z.div_small; [done|].
    split; [lia|]. apply (Z.log2_lt_cancel). lia. }
  set (s := Z.log2 (val a) + 1 - (Z.log2 (val b) + 1)).
  assert (Hlog : Z.log2 (val a) < 256) by (apply Z.log2_lt_pow2; lia).
  assert (Hs : 0 <= s < 256) by lia.
  destruct (shl_spec b s Hb) as [Hsh1 Hsh2]; [lia|].
  assert (Hpow : 2 ^ Z.succ (Z.log2 (val b)) * 2 ^ s = 2 ^ Z.succ (Z.log2 (val a)))
    by (rewrite <- Z.pow_add_r by lia; f_equal; lia).
  assert (2 ^ Z.succ (Z.log2 (val a)) <= 2 ^ 256) by (apply Z.pow_le_mono_r; lia).
  assert (Hps : 0 < 2 ^ s) by lia.
  rewrite Z.mod_small in Hsh2 by nia.
  assert (Hinv : div_inv (val a) (val b) (Z.to_nat s + 1) (a, shl b s, of_u64 0)).
  { split; [done|]. split; [done|]. split; [done|]. rewrite Hz1. split; [lia|].
    replace (Z.of_nat (Z.to_nat s + 1)) with (Z.succ s) by lia.
    rewrite Z.pow_succ_r by lia. rewrite Z.pow_succ_r in Hb2 by lia.
    split; [|split; [by exists 0|]].
    - rewrite Z.pow_succ_r in Hpow by lia. nia.
    - intros s' Hs'. rewrite Hsh2. do 2 f_equal. lia. }
  apply div_loop_inv in Hinv; [|lia|lia|lia].
  destruct (for_down _ _ _) as [[num dv] q].
  destruct Hinv as (Hn & _ & Hq & HA & Hlt & _ & _).
  exists q. split; [done|]. split; [done|]. pose proof (wf_bound num Hn).
  apply Z.div_unique with (val num); [simpl in Hlt; lia|lia].
Qed.

Lemma div_zero a b : wf b -> val b = 0 -> div a b = None.
Proof. intros Hb Hz. unfold div. by rewrite (bits_spec b Hb), Hz. Qed.

(** ** Compact encoding *)

(** [compact_of v N m]: exponent [N] and mantissa [m] encode [v] canonically. *)
Definition compact_of (v N m : Z) : Prop :=
  0 <= m < 2 ^ 23 /\ 0 <= N <= 33 /\
  ((v = 0 /\ N = 0 /\ m = 0) \/
   (0 < v /\ 1 <= N /\ 2 ^ 15 <= m /\ (N = 33 -> m < 2 ^ 16) /\
    (N <= 3 -> m = v * 256 ^ (3 - N)) /\ (3 < N -> m = v / 256 ^ (N - 3)))).

Lemma pow256_pos k : 0 < 256 ^ k \/ k < 0.
Proof. destruct (Z.lt_ge_cases k 0); [by right|left]. apply Z.pow_pos_nonneg; lia. Qed.

Lemma compact_of_range v N m : 0 < v -> compact_of v N m ->
  2 ^ 15 * 256 ^ N <= v * 256 ^ 3 < 2 ^ 23 * 256 ^ N.
Proof.
  intros Hv (Hm & HN & [(? & _)|(_ & HN1 & Hm1 & _ & Hlo & Hhi)]); [lia|].
  destruct (Z.le_gt_cases N 3).
  - rewrite Hlo in Hm, Hm1 by done. replace (256 ^ 3) with (256 ^ (3 - N) * 256 ^ N)
      by (rewrite <- Z.pow_add_r by lia; f_equal; lia).
    pose proof (Z.pow_pos_nonneg 256 N). nia.
  - specialize (Hhi H). replace (256 ^ N) with (256 ^ (N - 3) * 256 ^ 3)
      by (rewrite <- Z.pow_add_r by lia; f_equal; lia).
    set (K := 256 ^ (N - 3)) in *. assert (0 < K) by (apply Z.pow_pos_nonneg; lia).
    pose proof (Z.div_mod v K). pose proof (Z.mod_pos_bound v K). nia.
Qed.

Lemma compact_of_unique v N m N' m' :
  compact_of v N m -> compact_of v N' m' -> N = N' /\ m = m'.
Proof.
  intros H1 H2. destruct (decide (0 < v)) as [Hv|Hv].
  - pose proof (compact_of_range v N m Hv H1) as R1.
    pose proof (compact_of_range v N' m' Hv H2) as R2.
    assert (HNN : N = N').
    { destruct H1 as (_ & ? & _), H2 as (_ & ? & _).
      destruct (Z.lt_trichotomy N N') as [Hlt|[?|Hlt]]; [exfalso|done|exfalso].
      - pose proof (Z.pow_le_mono_r 256 (N + 1) N' ltac:(lia) ltac:(lia)) as Hp.
        rewrite Z.pow_add_r in Hp by lia. lia.
      - pose proof (Z.pow_le_mono_r 256 (N' + 1) N ltac:(lia) ltac:(lia)) as Hp.
        rewrite Z.pow_add_r in Hp by lia. lia. }
    subst N'. split; [done|].
    destruct H1 as (_ & _ & [(? & _)|(_ & _ & _ & _ & L1 & G1)]); [lia|].
    destruct H2 as (_ & _ & [(? & _)|(_ & _ & _ & _ & L2 & G2)]); [lia|].
    destruct (Z.le_gt_cases N 3); [rewrite L1, L2 by done|rewrite G1, G2 by done]; done.
  - destruct H1 as (_ & _ & [(_ & -> & ->)|(? & _)]); [|lia].
    destruct H2 as (_ & _ & [(_ & -> & ->)|(? & _)]); [|lia]. done.
Qed.

Lemma GetLow64_spec a : wf a -> val a < 2 ^ 64 -> GetLow64 a = val a.
Proof.
  intros [Hl Ha] Hv. destruct a as [|x0 [|x1 r]]; try done.
  unfold GetLow64. change (pn_get (x0 :: x1 :: r) 0) with x0. change (pn_get (x0 :: x1 :: r) 1) with x1.
  apply Forall_cons_1 in Ha as [H0 Ha]. apply Forall_cons_1 in Ha as [H1 Ha].
  unfold limb in H0, H1. pose proof (val_bound r Ha). cbn [val] in *.
  rewrite lor_shiftl_add by lia. nia.
Qed.

(** The byte length [(bits() + 7) / 8] brackets the value. *)
Lemma byte_size_spec a : wf a -> val a <> 0 ->
  let N := (bits a + 7) / 8 in
  1 <= N <= 32 /\ 256 ^ (N - 1) <= val a < 256 ^ N.
Proof.
  intros Ha Hnz N. pose proof (wf_bound a Ha). subst N. rewrite bits_spec by done.
  destruct (Z.eqb_spec (val a) 0); [done|].
  destruct (Z.log2_spec (val a)) as [H1 H2]; [lia|].
  assert (Z.log2 (val a) < 256) by (apply Z.log2_lt_pow2; lia).
  pose proof (Z.log2_nonneg (val a)). set (L := Z.log2 (val a)) in *.
  set (N := (L + 1 + 7) / 8).
  assert (HN : 8 * N <= L + 8 < 8 * N + 8)
    by (pose proof (Z.div_mod (L + 1 + 7) 8); pose proof (Z.mod_pos_bound (L + 1 + 7) 8); lia).
  split; [lia|].
  change 256 with (2 ^ 8). rewrite <- !Z.pow_mul_r by lia. split.
  - etransitivity; [|exact H1]. apply Z.pow_le_mono_r; lia.
  - eapply Z.lt_le_trans; [exact H2|]. apply Z.pow_le_mono_r; lia.
Qed.

(** The un-normalised mantissa before the sign-bit adjustment. *)
Lemma mantissa_spec a : wf a -> val a <> 0 ->
  let N := (bits a + 7) / 8 in
  let c := if N <=? 3 then u32 (u64 (Z.shiftl (GetLow64 a) (8 * (3 - N))))
           else u32 (GetLow64 (shr a (8 * (N - 3)))) in
  2 ^ 16 <= c < 2 ^ 24 /\
  (N <= 3 -> c = val a * 256 ^ (3 - N)) /\ (3 < N -> c = val a / 256 ^ (N - 3)).
Proof.
  intros Ha Hnz N. destruct (byte_size_spec a Ha Hnz) as [HN [Hlo Hhi]]. fold N in HN, Hlo, Hhi.
  assert (H8 : forall k, 0 <= k -> 2 ^ (8 * k) = 256 ^ k) by (intros; by rewrite Z.pow_mul_r).
  destruct (Z.leb_spec N 3) as [Hc|Hc]; cbv zeta.
  - assert (Hs : 256 ^ N * 256 ^ (3 - N) = 2 ^ 24 /\ 256 ^ (N - 1) * 256 ^ (3 - N) = 2 ^ 16)
      by (rewrite <- !Z.pow_add_r by lia; split;
          [by replace (N + (3 - N)) with 3 by lia|by replace (N - 1 + (3 - N)) with 2 by lia]).
    pose proof (Z.pow_pos_nonneg 256 (3 - N)). pose proof (Z.pow_le_mono_r 256 N 3).
    rewrite GetLow64_spec by (done || lia).
    rewrite Z.shiftl_mul_pow2, H8 by lia.
    assert (2 ^ 16 <= val a * 256 ^ (3 - N) < 2 ^ 24) by nia.
    rewrite u64_small, u32_small by lia. split; [done|]. split; [done|lia].
  - destruct (shr_spec a (8 * (N - 3)) Ha) as [Hw Hv]; [lia|]. rewrite H8 in Hv by lia.
    set (K := 256 ^ (N - 3)) in *. assert (0 < K) by (apply Z.pow_pos_nonneg; lia).
    assert (Hs : 256 ^ N = K * 2 ^ 24 /\ 256 ^ (N - 1) = K * 2 ^ 16).
    { unfold K. change (2 ^ 24) with (256 ^ 3). change (2 ^ 16) with (256 ^ 2).
      rewrite <- !Z.pow_add_r by lia. split; f_equal; lia. }
    assert (2 ^ 16 <= val a / K < 2 ^ 24).
    { split; [apply Z.div_le_lower_bound; lia|apply Z.div_lt_upper_bound; lia]. }
    rewrite GetLow64_spec, Hv, u32_small by (done || lia). split; [done|]. split; [lia|done].
Qed.

(** The tail of [GetCompact]: the assertions hold and the fields are packed. *)
Lemma compact_pack neg N m : 0 <= m < 2 ^ 23 -> 0 <= N < 256 ->
  (if negb (Z.land m (u32 (Z.lnot 0x007fffff)) =? 0) then None
   else if negb (N <? 256) then None
   else let nCompact := Z.lor m (u32 (Z.shiftl N 24)) in
        Some (Z.lor nCompact (if neg && negb (Z.land nCompact 0x007fffff =? 0)
                              then 0x00800000 else 0)))
  = Some (m + 2 ^ 24 * N + (if neg && negb (m =? 0) then 2 ^ 23 else 0)).
Proof.
  intros Hm HN. change (u32 (Z.lnot 0x007fffff)) with (2 ^ 23 * 511).
  rewrite land_low_high by lia. cbn [Z.eqb negb].
  destruct (Z.ltb_spec N 256); [|lia]. cbn [negb]. cbv zeta.
  assert (Hsh : u32 (Z.shiftl N 24) = Z.shiftl N 24).
  { apply u32_small. rewrite Z.shiftl_mul_pow2 by lia. lia. }
  rewrite Hsh, lor_shiftl_add by lia. f_equal.
  replace (Z.land (m + 2 ^ 24 * N) 0x007fffff) with m.
  2:{ change 0x007fffff with (2 ^ 23 - 1). rewrite land_ones_mod by lia.
      replace (m + 2 ^ 24 * N) with (m + (2 * N) * 2 ^ 23) by lia.
      rewrite Z.mod_add, Z.mod_small by lia. done. }
  destruct (neg && negb (m =? 0)).
  - change 0x800000 with (2 ^ 23). apply lor_pow2; [lia|].
    rewrite testbit_concat by lia. cbn [Z.ltb Z.compare Pos.compare Pos.compare_cont].
    apply (testbit_above m 23); lia.
  - rewrite Z.lor_0_r. lia.
Qed.

(** [GetCompact] never fails its assertions; its result is the canonical
    exponent and mantissa, with the sign bit as asked for. *)
Lemma GetCompact_spec a neg : wf a ->
  exists N m, compact_of (val a) N m /\
    GetCompact a neg = Some (m + 2 ^ 24 * N + (if neg && negb (m =? 0) then 2 ^ 23 else 0)).
Proof.
  intros Ha. pose proof (wf_bound a Ha) as Hb.
  destruct (decide (val a = 0)) as [Hz|Hnz].
  - exists 0, 0. split; [unfold compact_of; lia|].
    rewrite <- (compact_pack neg 0 0) by lia. unfold GetCompact. rewrite bits_spec, Hz by done.
    change ((0 + 7) / 8) with 0. cbn [Z.eqb].
    rewrite GetLow64_spec, Hz by (done || lia). done.
  - destruct (mantissa_spec a Ha Hnz) as (Hc & Hlo & Hhi).
    destruct (byte_size_spec a Ha Hnz) as [HN _].
    unfold GetCompact. set (N := (bits a + 7) / 8) in *.
    match type of Hc with _ <= ?x < _ => set (c := x) in * end.
    change 0x800000 with (2 ^ 23). rewrite land_pow2_eqb, negb_involutive by lia.
    destruct (Z.testbit c 23) eqn:Ht.
    + assert (2 ^ 23 <= c).
      { destruct (Z.le_gt_cases (2 ^ 23) c); [done|]. rewrite (testbit_above c 23) in Ht by lia. done. }
      rewrite Z.shiftr_div_pow2 by lia. change (2 ^ 8) with 256.
      assert (Hd : 2 ^ 15 <= c / 256 < 2 ^ 16)
        by (split; [apply Z.div_le_lower_bound|apply Z.div_lt_upper_bound]; lia).
      exists (N + 1), (c / 256). rewrite <- (compact_pack neg (N + 1) (c / 256)) by lia. split; [|done].
      split; [lia|]. split; [lia|]. right. split; [lia|]. split; [lia|]. split; [lia|].
      split; [lia|]. split; intros HN'.
      * rewrite Hlo by lia. replace (3 - N) with (3 - (N + 1) + 1) by lia.
        rewrite Z.pow_add_r, Z.mul_assoc by lia. change (256 ^ 1) with 256. by rewrite Z.div_mul by lia.
      * destruct (decide (N = 3)) as [HN3|].
        -- rewrite Hlo by lia. rewrite HN3. change (256 ^ (3 - 3)) with 1.
           change (256 ^ (3 + 1 - 3)) with 256. by rewrite Z.mul_1_r.
        -- rewrite Hhi by lia. replace (N + 1 - 3) with (N - 3 + 1) by lia.
           rewrite Z.pow_add_r, Z.div_div by (try apply Z.pow_nonzero; lia). done.
    + assert (c < 2 ^ 23).
      { apply bits_bound; [lia|lia|]. intros p Hp. destruct (decide (p = 23)) as [->|]; [done|].
        apply (testbit_above c 24); lia. }
      exists N, c. rewrite <- (compact_pack neg N c) by lia. split; [|done].
      split; [lia|]. split; [lia|]. right. repeat split; lia || done.
Qed.

(** [SetCompact] on an encoding with mantissa [m], exponent [N] and sign [s]. *)
Lemma SetCompact_spec N m (s : bool) :
  0 <= m < 2 ^ 23 -> 0 <= N < 256 ->
  exists t, wf t /\
    SetCompact (m + 2 ^ 24 * N + (if s then 2 ^ 23 else 0)) =
      (t, negb ((if N <=? 3 then m / 256 ^ (3 - N) else m) =? 0) && s,
       negb ((if N <=? 3 then m / 256 ^ (3 - N) else m) =? 0) &&
         ((34 <? N) || ((0xff <? (if N <=? 3 then m / 256 ^ (3 - N) else m)) && (33 <? N))
          || ((0xffff <? (if N <=? 3 then m / 256 ^ (3 - N) else m)) && (32 <? N)))) /\
    val t = if N <=? 3 then m / 256 ^ (3 - N) else (m * 256 ^ (N - 3)) mod 2 ^ 256.
Proof.
  intros Hm HN. unfold SetCompact.
  set (c := m + 2 ^ 24 * N + (if s then 2 ^ 23 else 0)).
  assert (Hsize : Z.shiftr c 24 = N).
  { rewrite Z.shiftr_div_pow2 by lia. subst c. symmetry.
    apply Z.div_unique with (m + (if s then 2 ^ 23 else 0)); destruct s; lia. }
  assert (Hword : Z.land c 0x007fffff = m).
  { change 0x007fffff with (2 ^ 23 - 1). rewrite land_ones_mod by lia. subst c. symmetry.
    apply Z.mod_unique with (2 * N + (if s then 1 else 0)); destruct s; lia. }
  assert (Hsign : negb (Z.land c 0x00800000 =? 0) = s).
  { change 0x00800000 with (2 ^ 23). rewrite land_pow2_eqb, negb_involutive by lia. subst c.
    replace (m + 2 ^ 24 * N + (if s then 2 ^ 23 else 0))
      with (m + 2 ^ 23 * (2 * N + (if s then 1 else 0))) by (destruct s; lia).
    rewrite testbit_concat by lia. change (23 <? 23) with false. cbv iota. change (23 - 23) with 0.
    destruct s; [apply Z.testbit_odd_0|rewrite Z.add_0_r; apply Z.testbit_even_0]. }
  rewrite Hsize, Hword, Hsign.
  assert (H8 : forall k, 0 <= k -> 2 ^ (8 * k) = 256 ^ k) by (intros; by rewrite Z.pow_mul_r).
  destruct (Z.leb_spec N 3).
  - rewrite Z.shiftr_div_pow2, H8 by lia. pose proof (Z.pow_pos_nonneg 256 (3 - N)).
    assert (0 <= m / 256 ^ (3 - N) <= m)
      by (split; [apply Z.div_pos; lia|apply Z.div_le_upper_bound; nia]).
    destruct (of_u64_spec (m / 256 ^ (3 - N))) as [? ?]; [lia|]. eauto.
  - destruct (of_u64_spec m) as [H1 H2]; [lia|].
    destruct (shl_spec (of_u64 m) (8 * (N - 3)) H1) as [H3 H4]; [lia|].
    rewrite H2, H8 in H4 by lia. eauto.
Qed.

(** Every 32-bit encoding splits into mantissa, sign and exponent. *)
Lemma compact_split c : 0 <= c < 2 ^ 32 ->
  exists N m (sg : bool), 0 <= m < 2 ^ 23 /\ 0 <= N < 256 /\
    c = m + 2 ^ 24 * N + (if sg then 2 ^ 23 else 0).
Proof.
  intros Hc. exists (c / 2 ^ 24), (c mod 2 ^ 23), (Z.testbit c 23).
  assert (Hsg : (if Z.testbit c 23 then 2 ^ 23 else 0) = 2 ^ 23 * (c / 2 ^ 23 mod 2)).
  { rewrite <- Z.testbit_spec' by lia. by destruct (Z.testbit c 23). }
  rewrite Hsg. change (2 ^ 24) with (2 ^ 23 * 2). rewrite <- Z.div_div by lia.
  pose proof (Z.div_mod c (2 ^ 23)). pose proof (Z.mod_pos_bound c (2 ^ 23)).
  pose proof (Z.div_mod (c / 2 ^ 23) 2). pose proof (Z.mod_pos_bound (c / 2 ^ 23) 2).
  pose proof (Z.div_pos (c / 2 ^ 23) 2). pose proof (Z.div_pos c (2 ^ 23)). lia.
Qed.

(** [SetCompact] yields a well-formed value, never the all-ones one. *)
Lemma SetCompact_wf c : 0 <= c < 2 ^ 32 ->
  exists t fneg fover, SetCompact c = (t, fneg, fover) /\ wf t /\ val t < 2 ^ 256 - 1.
Proof.
  intros Hc. destruct (compact_split c Hc) as (N & m & sg & Hm & HN & ->).
  destruct (SetCompact_spec N m sg Hm HN) as (t & Ht & -> & Hv).
  do 3 eexists. split; [done|]. split; [done|]. rewrite Hv.
  destruct (Z.leb_spec N 3).
  - pose proof (Z.pow_pos_nonneg 256 (3 - N)).
    apply Z.le_lt_trans with m; [apply Z.div_le_upper_bound; nia|lia].
  - replace (N - 3) with (N - 4 + 1) by lia. rewrite Z.pow_add_r by lia. change (256 ^ 1) with 256.
    replace (m * (256 ^ (N - 4) * 256)) with (256 * (m * 256 ^ (N - 4))) by lia.
    change (2 ^ 256) with (256 * 2 ^ 248). rewrite Z.mul_mod_distr_l by lia.
    pose proof (Z.mod_pos_bound (m * 256 ^ (N - 4)) (2 ^ 248)). lia.
Qed.

#[global] Instance limb_dec x : Decision (limb x).
Proof. unfold limb. apply _. Defined.
#[global] Instance wf_dec a : Decision (wf a).
Proof. unfold wf. apply _. Defined.

(** ** What clients of the 256-bit integers rely on *)

(** [repr a v]: the limbs [a] are well formed and denote [v]. *)
Definition repr (a : list Z) (v : Z) : Prop := wf a /\ val a = v.

Lemma repr_range a v : repr a v -> 0 <= v < 2 ^ 256.
Proof. intros [H <-]. by apply wf_bound. Qed.

Lemma repr_of_u64 b : 0 <= b < 2 ^ 64 -> repr (of_u64 b) b.
Proof. apply of_u64_spec. Qed.

Lemma repr_add a b x y : repr a x -> repr b y -> repr (add a b) ((x + y) mod 2 ^ 256).
Proof. intros [Ha <-] [Hb <-]. by apply add_spec. Qed.

Lemma repr_sub a b x y : repr a x -> repr b y -> repr (sub a b) ((x - y) mod 2 ^ 256).
Proof. intros [Ha <-] [Hb <-]. by apply sub_spec. Qed.

Lemma repr_mul a b x y : repr a x -> repr b y -> repr (mul a b) ((x * y) mod 2 ^ 256).
Proof. intros [Ha <-] [Hb <-]. by apply mul_spec. Qed.

Lemma repr_mul32 a x k : repr a x -> 0 <= k < 2 ^ 32 -> repr (mul32 a k) ((x * k) mod 2 ^ 256).
Proof. intros [Ha <-] Hk. by apply mul32_spec. Qed.

Lemma repr_bnot a x : repr a x -> repr (bnot a) (2 ^ 256 - 1 - x).
Proof. intros [Ha <-]. by apply bnot_spec. Qed.

Lemma repr_add_u64 a x k : repr a x -> 0 <= k < 2 ^ 64 -> repr (add_u64 a k) ((x + k) mod 2 ^ 256).
Proof. intros [Ha <-] Hk. by apply add_u64_spec. Qed.

Lemma repr_div a b x y : repr a x -> repr b y -> y <> 0 -> exists q, div a b = Some q /\ repr q (x / y).
Proof.
  intros [Ha <-] [Hb <-] Hy. destruct (div_spec a b Ha Hb Hy) as (q & ? & ? & ?).
  exists q. done.
Qed.

Lemma repr_gtb a b x y : repr a x -> repr b y -> gtb a b = (y <? x).
Proof. intros [Ha <-] [Hb <-]. by apply gtb_spec. Qed.

Lemma repr_EqualTo a x b : repr a x -> 0 <= b < 2 ^ 64 -> EqualTo a b = (x =? b).
Proof. intros [Ha <-] Hb. by apply EqualTo_spec. Qed.

Create HintDb u256.
#[export] Hint Resolve repr_of_u64 repr_add repr_sub repr_mul repr_mul32 repr_bnot repr_add_u64 : u256.

(** A target decoded from its canonical encoding keeps its leading bytes. *)
Lemma compact_decode v N m : compact_of v N m -> 0 <= v < 2 ^ 256 ->
  exists w, (if N <=? 3 then m / 256 ^ (3 - N) else (m * 256 ^ (N - 3)) mod 2 ^ 256) = w /\
    compact_of w N m /\ w <= v /\ (v - w) * 2 ^ 15 <= v /\ 0 <= w /\
    (v < 2 ^ 23 -> w = v) /\
    (m <> 0 -> (if N <=? 3 then m / 256 ^ (3 - N) else m) <> 0).
Proof.
  intros Hc Hv. destruct (decide (v = 0)) as [->|Hnz].
  { assert (N = 0 /\ m = 0) as [-> ->] by (destruct Hc as (_ & _ & [?|?]); lia).
    exists 0. repeat split; try done; lia. }
  pose proof (compact_of_range v N m ltac:(lia) Hc) as Hr. pose proof Hc as Hc0.
  destruct Hc as (Hm & HN & [?|(Hpos & HN1 & Hm1 & HN33 & Hlo & Hhi)]); [lia|].
  destruct (Z.leb_spec N 3) as [HN3|HN3].
  - assert (Hw : m / 256 ^ (3 - N) = v)
      by (rewrite Hlo by lia; apply Z.div_mul, Z.pow_nonzero; lia).
    exists v. rewrite Hw. split; [done|]. split; [done|]. lia.
  - specialize (Hhi HN3). set (K := 256 ^ (N - 3)) in *.
    assert (HK : 0 < K) by (apply Z.pow_pos_nonneg; lia).
    pose proof (Z.div_mod v K ltac:(lia)) as Hdm. pose proof (Z.mod_pos_bound v K HK).
    rewrite <- Hhi in Hdm.
    assert (H256 : 256 ^ 1 <= K) by (apply Z.pow_le_mono_r; lia).
    rewrite Z.mod_small by nia. exists (m * K). split; [done|]. split.
    + split; [done|]. split; [done|]. right.
      split; [nia|]. split; [done|]. split; [done|]. split; [done|]. split; [lia|].
      intros _. fold K. symmetry. apply Z.div_mul. lia.
    + split; [lia|]. split; [nia|]. split; [lia|]. split; [nia|lia].
Qed.

Lemma GetCompact_SetCompact a (neg : bool) (Ha : wf a) :
  exists c t, GetCompact a neg = Some c /\ 0 <= c < 2 ^ 32 /\
    SetCompact c = (t, neg && negb (val a =? 0), false) /\ wf t /\
    val t <= val a /\ (val a - val t) * 2 ^ 15 <= val a /\
    (val a < 2 ^ 23 -> val t = val a) /\
    GetCompact t neg = Some c.
Proof.
  destruct (GetCompact_spec a neg Ha) as (N & m & Hc & HG). rewrite HG.
  pose proof (wf_bound a Ha) as Hb.
  destruct (compact_decode _ _ _ Hc Hb) as (w & Hw & Hcw & Hle & Herr & Hw0 & Hex & Hmz).
  assert (Hm : 0 <= m < 2 ^ 23 /\ 0 <= N <= 33 /\ (N = 33 -> m < 2 ^ 16)) by (destruct Hc as (? & ? & [?|?]); lia).
  destruct (SetCompact_spec N m (neg && negb (m =? 0))) as (t & Ht & HS & Hv); [lia|lia|].
  rewrite Hw in Hv. exists (m + 2 ^ 24 * N + (if neg && negb (m =? 0) then 2 ^ 23 else 0)), t.
  split; [done|]. split; [destruct (neg && _); lia|].
  assert (Hmv : (m =? 0) = (val a =? 0)).
  { destruct Hc as (_ & _ & [?|?]); destruct (Z.eqb_spec m 0), (Z.eqb_spec (val a) 0); lia || done. }
  split.
  { rewrite HS. set (nw := if N <=? 3 then m / 256 ^ (3 - N) else m) in *.
    f_equal; [f_equal|].
    - rewrite <- Hmv. destruct (Z.eqb_spec m 0), neg; cbn [negb andb]; rewrite ?andb_false_r; try done.
      destruct (Z.eqb_spec nw 0); [|done]. lia.
    - destruct (Z.ltb_spec 34 N), (Z.ltb_spec 33 N); try lia. rewrite andb_false_r. cbn [orb].
      destruct (Z.ltb_spec 32 N); [|by rewrite !andb_false_r].
      subst nw. destruct (Z.leb_spec N 3); [lia|]. destruct (Z.ltb_spec 65535 m); [lia|].
      apply andb_false_r. }
  rewrite Hv. split; [done|]. split; [done|]. split; [done|]. split; [done|].
  destruct (GetCompact_spec t neg Ht) as (N' & m' & Hc' & ->). rewrite Hv in Hc'.
  destruct (compact_of_unique _ _ _ _ _ Hcw Hc') as [<- <-]. done.
Qed.

(** ** Conversion between limbs and bytes *)

(** A [uint256]: 32 bytes, least significant first. *)
Definition uint256_ok (b : list Z) : Prop := length b = 32%nat /\ Forall is_byte b.

Lemma ReadLE32_spec b0 b1 b2 b3 r :
  is_byte b0 -> is_byte b1 -> is_byte b2 -> is_byte b3 ->
  ReadLE32 (b0 :: b1 :: b2 :: b3 :: r) = b0 + 2 ^ 8 * (b1 + 2 ^ 8 * (b2 + 2 ^ 8 * b3)) /\
  limb (ReadLE32 (b0 :: b1 :: b2 :: b3 :: r)).
Proof.
  unfold is_byte. intros H0 H1 H2 H3.
  assert (E : ReadLE32 (b0 :: b1 :: b2 :: b3 :: r) = b0 + 2 ^ 8 * (b1 + 2 ^ 8 * (b2 + 2 ^ 8 * b3))).
  { unfold ReadLE32. unfold pn_get. cbn [lookup list_lookup].
    change (default 0 (Some b0)) with b0. change (default 0 (Some b1)) with b1.
    change (default 0 (Some b2)) with b2. change (default 0 (Some b3)) with b3.
    rewrite (lor_shiftl_add b0 b1 8) by lia.
    replace (Z.lor (Z.shiftl b2 16) (Z.shiftl b3 24)) with (Z.shiftl (b2 + 2 ^ 8 * b3) 16).
    - rewrite lor_shiftl_add by lia. lia.
    - rewrite <- lor_shiftl_add, Z.shiftl_lor, Z.shiftl_shiftl by lia. done. }
  rewrite E. unfold limb. split; [done|lia].
Qed.

Lemma UintToArith256_spec b : uint256_ok b -> repr (UintToArith256 b) (le_val b).
Proof.
  intros [Hl Hb].
  do 32 (destruct b as [|? b]; [done|apply Forall_cons_1 in Hb as [? Hb]]). destruct b; [|done].
  unfold UintToArith256. cbn [seq map WIDTH Nat.mul Nat.add drop].
  repeat match goal with
  | |- context [ReadLE32 (?a :: ?b :: ?c :: ?d :: ?r)] =>
      let E := fresh "E" in let L := fresh "L" in
      destruct (ReadLE32_spec a b c d r) as [E L]; [done..|];
      let x := fresh "x" in set (x := ReadLE32 (a :: b :: c :: d :: r)) in *; clearbody x
  end.
  split.
  - split; [done|]. repeat (apply Forall_cons_2; [done|]). apply Forall_nil_2.
  - cbn [val le_val]. lia.
Qed.

(** ** Properties *)

(** The limb loops of [+=], [-=], [*=], unary minus, [++] and [--]
    implement addition, subtraction, multiplication, negation, successor and
    predecessor modulo [2^256], and keep the array well formed. *)
Theorem base_uint_ring a b (Ha : wf a) (Hb : wf b) :
  repr (add a b) ((val a + val b) mod 2 ^ 256) /\
  repr (sub a b) ((val a - val b) mod 2 ^ 256) /\
  repr (mul a b) ((val a * val b) mod 2 ^ 256) /\
  repr (neg a) ((- val a) mod 2 ^ 256) /\
  repr (incr a) ((val a + 1) mod 2 ^ 256) /\
  repr (decr a) ((val a - 1) mod 2 ^ 256).
Proof.
  split; [by apply add_spec|]. split; [by apply sub_spec|]. split; [by apply mul_spec|].
  split; [by apply neg_spec|]. split; [by apply incr_spec|by apply decr_spec].
Qed.

Lemma base_uint_ring_witness :
  repr (mul (of_u64 0xffffffffffffffff) (of_u64 3)) ((0xffffffffffffffff * 3) mod 2 ^ 256).
Proof.
  apply (base_uint_ring (of_u64 0xffffffffffffffff) (of_u64 3)); by_decide.
Defined.

(** [<<=] and [>>=] are multiplication (modulo [2^256]) and floor
    division by a power of two, for every shift amount, larger than the width
    included. *)
Theorem base_uint_shifts a s (Ha : wf a) (Hs : 0 <= s) :
  repr (shl a s) ((val a * 2 ^ s) mod 2 ^ 256) /\ repr (shr a s) (val a / 2 ^ s).
Proof. split; [by apply shl_spec|by apply shr_spec]. Qed.

Lemma base_uint_shifts_witness :
  repr (shl (of_u64 0xdeadbeef) 77) ((0xdeadbeef * 2 ^ 77) mod 2 ^ 256).
Proof. apply (base_uint_shifts (of_u64 0xdeadbeef) 77); [by_decide|lia]. Defined.

(** [/=] throws exactly when the divisor is zero and otherwise leaves the
    floor quotient; the shift-and-subtract loop terminates within
    [bits(num) - bits(div) + 1] iterations by construction. *)
Theorem base_uint_division a b (Ha : wf a) (Hb : wf b) :
  (val b = 0 /\ div a b = None) \/
  (val b <> 0 /\ exists q, div a b = Some q /\ repr q (val a / val b)).
Proof.
  destruct (decide (val b = 0)) as [Hz|Hnz]; [left|right]; (split; [done|]).
  - by apply div_zero.
  - by apply (repr_div a b).
Qed.

Lemma base_uint_division_witness :
  exists q, div (of_u64 1000000007) (of_u64 97) = Some q /\ repr q (1000000007 / 97).
Proof.
  destruct (base_uint_division (of_u64 1000000007) (of_u64 97)) as [[H _]|[_ H]].
  - by_decide.
  - by_decide.
  - discriminate H.
  - exact H.
Defined.

(** [CompareTo] is the three-way comparison of the values, [bits] the
    position of the highest set bit plus one, and [EqualTo] equality with a
    64-bit value. *)
Theorem base_uint_order a b k (Ha : wf a) (Hb : wf b) (Hk : 0 <= k < 2 ^ 64) :
  CompareTo a b = match val a ?= val b with Lt => -1 | Eq => 0 | Gt => 1 end /\
  bits a = (if val a =? 0 then 0 else Z.log2 (val a) + 1) /\
  EqualTo a k = (val a =? k).
Proof.
  split; [by apply CompareTo_spec|]. split; [by apply bits_spec|by apply EqualTo_spec].
Qed.

Lemma base_uint_order_witness :
  CompareTo (of_u64 5) (shl (of_u64 1) 200) = -1 /\ bits (shl (of_u64 1) 200) = 201.
Proof.
  split.
  - apply (base_uint_order (of_u64 5) (shl (of_u64 1) 200) 0); [by_decide|by_decide|lia].
  - apply (base_uint_order (shl (of_u64 1) 200) (of_u64 0) 0); [by_decide|by_decide|lia].
Defined.

(** The compact encoding.  [GetCompact] passes its assertions on every
    value; decoding its result with [SetCompact] never overflows, gives back
    the sign that was asked for (a zero has none), never increases the value,
    loses less than one part in [2^15] of it (nothing below [2^23]), and
    encoding the decoded value again gives the same 32 bits. *)
Theorem compact_roundtrip a (neg : bool) (Ha : wf a) :
  exists c t, GetCompact a neg = Some c /\ 0 <= c < 2 ^ 32 /\
    SetCompact c = (t, neg && negb (val a =? 0), false) /\ wf t /\
    val t <= val a /\ (val a - val t) * 2 ^ 15 <= val a /\
    (val a < 2 ^ 23 -> val t = val a) /\
    GetCompact t neg = Some c.
Proof. by apply GetCompact_SetCompact. Qed.

Lemma compact_roundtrip_witness :
  exists c t, GetCompact (shl (of_u64 0xffff) 208) false = Some c /\
    SetCompact c = (t, false, false) /\ GetCompact t false = Some c.
Proof.
  destruct (compact_roundtrip (shl (of_u64 0xffff) 208) false) as (c & t & H1 & _ & H2 & _ & _ & _ & _ & H3).
  - by_decide.
  - exists c, t. split; [exact H1|]. split; [exact H2|exact H3].
Defined.

End Arith256.
