(* ===== verification/Chain.v ===== *)
(** * The block index and the active chain ([src/src/chain.h], [chain.cpp])

    A [CBlockIndex*] is a natural number, an address in the heap of block
    index entries; [NULL] is [None].  A model function returns [None] where
    the C++ would dereference a bad pointer or fail an assertion, and a value
    otherwise, so "the result is [Some _]" is part of what is proved.
    [nth_parent] (following [pprev] one block at a time) is the reference that
    the skip-list search, the indexed chain and the fork search refine. *)

From stdpp Require Import base list list_numbers gmap numbers option sorting.
From Stdlib Require Import ZArith Lia.
From S2P Require Import Prelude ArithUint256.

Local Open Scope Z_scope.

Module Chain.
Import Arith256.

(** ** Block headers and block index entries *)

(** A [uint256] is its list of bytes. *)

(** [CBlockHeader] (primitives/block.h) *)
Record CBlockHeader := mkHeader {
  hd_nVersion : Z;
  hd_hashPrevBlock : uint256;
  hd_hashMerkleRoot : uint256;
  hd_nTime : Z;
  hd_nBits : Z;
  hd_nNonce : Z
}.

(** [enum BlockStatus] *)
Definition BLOCK_VALID_HEADER : Z := 1.
Definition BLOCK_VALID_TREE : Z := 2.
Definition BLOCK_VALID_TRANSACTIONS : Z := 3.
Definition BLOCK_VALID_CHAIN : Z := 4.
Definition BLOCK_VALID_SCRIPTS : Z := 5.
Definition BLOCK_VALID_MASK : Z :=
  Z.lor BLOCK_VALID_HEADER (Z.lor BLOCK_VALID_TREE (Z.lor BLOCK_VALID_TRANSACTIONS
    (Z.lor BLOCK_VALID_CHAIN BLOCK_VALID_SCRIPTS))).
Definition BLOCK_HAVE_DATA : Z := 8.
Definition BLOCK_HAVE_UNDO : Z := 16.
Definition BLOCK_FAILED_VALID : Z := 32.
Definition BLOCK_FAILED_CHILD : Z := 64.
Definition BLOCK_FAILED_MASK : Z := Z.lor BLOCK_FAILED_VALID BLOCK_FAILED_CHILD.

(** [class CBlockIndex] *)
Record CBlockIndex := mkIndex {
  hashBlock : uint256;
  pprev : option nat;
  pskip : option nat;
  nHeight : Z;
  nFile : Z;
  nDataPos : Z;
  nUndoPos : Z;
  nChainWork : list Z;
  nTx : Z;
  nChainTx : Z;
  nStatus : Z;
  nVersion : Z;
  hashMerkleRoot : uint256;
  nTime : Z;
  nBits : Z;
  nNonce : Z;
  nSequenceId : Z;
  nTimeMax : Z
}.

(** [CBlockIndex::CBlockIndex(const CBlockHeader&)]: [SetNull] and the header
    fields; [phashBlock] is set by the caller. *)
Definition new_index (hash : uint256) (block : CBlockHeader) : CBlockIndex :=
  {| hashBlock := hash; pprev := None; pskip := None; nHeight := 0; nFile := 0;
     nDataPos := 0; nUndoPos := 0; nChainWork := base_zero; nTx := 0; nChainTx := 0;
     nStatus := 0; nVersion := hd_nVersion block; hashMerkleRoot := hd_hashMerkleRoot block;
     nTime := hd_nTime block; nBits := hd_nBits block; nNonce := hd_nNonce block;
     nSequenceId := 0; nTimeMax := 0 |}.

(** Field updates of a [CBlockIndex]. *)
Definition set_links (b : CBlockIndex) (prev skip : option nat) (h : Z) : CBlockIndex :=
  {| hashBlock := hashBlock b; pprev := prev; pskip := skip; nHeight := h; nFile := nFile b;
     nDataPos := nDataPos b; nUndoPos := nUndoPos b; nChainWork := nChainWork b; nTx := nTx b;
     nChainTx := nChainTx b; nStatus := nStatus b; nVersion := nVersion b;
     hashMerkleRoot := hashMerkleRoot b; nTime := nTime b; nBits := nBits b; nNonce := nNonce b;
     nSequenceId := nSequenceId b; nTimeMax := nTimeMax b |}.
Definition set_status (b : CBlockIndex) (st : Z) : CBlockIndex :=
  {| hashBlock := hashBlock b; pprev := pprev b; pskip := pskip b; nHeight := nHeight b;
     nFile := nFile b; nDataPos := nDataPos b; nUndoPos := nUndoPos b; nChainWork := nChainWork b;
     nTx := nTx b; nChainTx := nChainTx b; nStatus := st; nVersion := nVersion b;
     hashMerkleRoot := hashMerkleRoot b; nTime := nTime b; nBits := nBits b; nNonce := nNonce b;
     nSequenceId := nSequenceId b; nTimeMax := nTimeMax b |}.
Definition set_work (b : CBlockIndex) (tmax : Z) (work : list Z) : CBlockIndex :=
  {| hashBlock := hashBlock b; pprev := pprev b; pskip := pskip b; nHeight := nHeight b;
     nFile := nFile b; nDataPos := nDataPos b; nUndoPos := nUndoPos b; nChainWork := work;
     nTx := nTx b; nChainTx := nChainTx b; nStatus := nStatus b; nVersion := nVersion b;
     hashMerkleRoot := hashMerkleRoot b; nTime := nTime b; nBits := nBits b; nNonce := nNonce b;
     nSequenceId := nSequenceId b; nTimeMax := tmax |}.

(** [IsValid]; [None] is the failed [assert]. *)
Definition IsValid (b : CBlockIndex) (nUpTo : Z) : option bool :=
  if negb (Z.land nUpTo (Z.lnot BLOCK_VALID_MASK) =? 0) then None
  else if negb (Z.land (nStatus b) BLOCK_FAILED_MASK =? 0) then Some false
  else Some (nUpTo <=? Z.land (nStatus b) BLOCK_VALID_MASK).

(** [RaiseValidity]: the new entry and whether the validity changed. *)
Definition RaiseValidity (b : CBlockIndex) (nUpTo : Z) : option (CBlockIndex * bool) :=
  if negb (Z.land nUpTo (Z.lnot BLOCK_VALID_MASK) =? 0) then None
  else if negb (Z.land (nStatus b) BLOCK_FAILED_MASK =? 0) then Some (b, false)
  else if Z.land (nStatus b) BLOCK_VALID_MASK <? nUpTo
  then Some (set_status b (Z.lor (Z.land (nStatus b) (u32 (Z.lnot BLOCK_VALID_MASK))) nUpTo), true)
  else Some (b, false).

(** ** Ancestors *)

(** [InvertLowestOne], [GetSkipHeight] *)
Definition InvertLowestOne (n : Z) : Z := Z.land n (n - 1).

Definition GetSkipHeight (height : Z) : Z :=
  if height <? 2 then 0
  else if negb (Z.land height 1 =? 0)
  then InvertLowestOne (InvertLowestOne (height - 1)) + 1
  else InvertLowestOne height.

(** The [while (heightWalk > height)] loop of [CBlockIndex::GetAncestor];
    [fuel] bounds the iterations. *)
Fixpoint GetAncestor_loop (fuel : nat) (T : gmap nat CBlockIndex) (height : Z)
    (pindexWalk : nat) (heightWalk : Z) : option nat :=
  if heightWalk <=? height then Some pindexWalk
  else match fuel with
  | O => None
  | S fuel' =>
      b ← T !! pindexWalk;
      let heightSkip := GetSkipHeight heightWalk in
      let heightSkipPrev := GetSkipHeight (heightWalk - 1) in
      match pskip b with
      | Some skip =>
          if (heightSkip =? height)
             || ((height <? heightSkip)
                 && negb ((heightSkipPrev <? heightSkip - 2) && (height <=? heightSkipPrev)))
          then GetAncestor_loop fuel' T height skip heightSkip
          else prev ← pprev b; GetAncestor_loop fuel' T height prev (heightWalk - 1)
      | None => prev ← pprev b; GetAncestor_loop fuel' T height prev (heightWalk - 1)
      end
  end.

(** [CBlockIndex::GetAncestor]: [Some None] is the returned [NULL]. *)
Definition GetAncestor (T : gmap nat CBlockIndex) (p : nat) (height : Z) : option (option nat) :=
  b ← T !! p;
  if (nHeight b <? height) || (height <? 0) then Some None
  else a ← GetAncestor_loop (Z.to_nat (nHeight b)) T height p (nHeight b); Some (Some a).

(** [CBlockIndex::BuildSkip]: the value of [pskip] afterwards. *)
Definition BuildSkip (T : gmap nat CBlockIndex) (b : CBlockIndex) : option (option nat) :=
  match pprev b with
  | Some q => GetAncestor T q (GetSkipHeight (nHeight b))
  | None => Some (pskip b)
  end.

(** ** Median time past *)

Definition nMedianTimeSpan : nat := 11.

(** The [for] loop that collects up to [nMedianTimeSpan] block times. *)
Fixpoint collect_times (T : gmap nat CBlockIndex) (n : nat) (pindex : option nat) : option (list Z) :=
  match n, pindex with
  | S n', Some p => b ← T !! p; ts ← collect_times T n' (pprev b); Some (nTime b :: ts)
  | _, _ => Some []
  end.

(** [std::sort] on the collected times. *)
Definition sort_times (ts : list Z) : list Z := merge_sort Z.le ts.

(** [GetMedianTimePast] *)
Definition GetMedianTimePast (T : gmap nat CBlockIndex) (p : nat) : option Z :=
  ts ← collect_times T nMedianTimeSpan (Some p);
  sort_times ts !! (length ts / 2)%nat.

(** ** Work *)

(** [GetBlockProof]; [None] is an uncaught [uint_error]. *)
Definition GetBlockProof (bits : Z) : option (list Z) :=
  let '(bnTarget, fNegative, fOverflow) := SetCompact bits in
  if fNegative || fOverflow || EqualTo bnTarget 0 then Some (of_u64 0)
  else q ← div (bnot bnTarget) (add bnTarget (of_u64 1)); Some (add q (of_u64 1)).

(** [GetBlockProofEquivalentTime] *)
Definition GetBlockProofEquivalentTime (to_ from_ tip : CBlockIndex) (nPowTargetSpacing : Z) : option Z :=
  let '(r, sign) :=
    if gtb (nChainWork to_) (nChainWork from_)
    then (sub (nChainWork to_) (nChainWork from_), 1)
    else (sub (nChainWork from_) (nChainWork to_), -1) in
  proof ← GetBlockProof (nBits tip);
  r ← div (mul r (of_u64 (u64 nPowTargetSpacing))) proof;
  Some (if 63 <? bits r then sign * INT64_MAX else i64 (u64 (sign * GetLow64 r))).

(** ** The active chain *)

(** [std::vector<CBlockIndex*> vChain] *)
Abbreviation CChain := (list (option nat)).

(** [Tip], [operator[]], [Contains], [Next], [Height], [Genesis] *)
Definition Height (vChain : CChain) : Z := Z.of_nat (length vChain) - 1.
Definition chain_at (vChain : CChain) (h : Z) : option nat :=
  if (h <? 0) || (Z.of_nat (length vChain) <=? h) then None
  else default None (vChain !! Z.to_nat h).
Definition Genesis (vChain : CChain) : option nat := chain_at vChain 0.
Definition Tip (vChain : CChain) : option nat :=
  if (0 <? length vChain)%nat then default None (vChain !! (length vChain - 1)%nat) else None.
Definition Contains (T : gmap nat CBlockIndex) (vChain : CChain) (p : nat) : option bool :=
  b ← T !! p; Some (bool_decide (chain_at vChain (nHeight b) = Some p)).
Definition Next (T : gmap nat CBlockIndex) (vChain : CChain) (p : nat) : option (option nat) :=
  b ← T !! p;
  c ← Contains T vChain p;
  Some (if (c : bool) then chain_at vChain (nHeight b + 1) else None).

(** [std::vector::resize], new elements value-initialised to [NULL]. *)
Definition resize (n : nat) (v : CChain) : CChain := take n v ++ replicate (n - length v) None.

(** The [while (pindex && vChain[pindex->nHeight] != pindex)] loop of [SetTip]. *)
Fixpoint SetTip_loop (fuel : nat) (T : gmap nat CBlockIndex) (v : CChain) (pindex : option nat) : option CChain :=
  match pindex with
  | None => Some v
  | Some p =>
      b ← T !! p;
      if bool_decide (v !! Z.to_nat (nHeight b) = Some (Some p)) then Some v
      else match fuel with
      | O => None
      | S fuel' => SetTip_loop fuel' T (<[Z.to_nat (nHeight b) := Some p]> v) (pprev b)
      end
  end.

(** [CChain::SetTip] *)
Definition SetTip (T : gmap nat CBlockIndex) (v : CChain) (pindex : option nat) : option CChain :=
  match pindex with
  | None => Some []
  | Some p =>
      b ← T !! p;
      let n := Z.to_nat (nHeight b + 1) in
      SetTip_loop n T (resize n v) pindex
  end.

(** The [while (pindex && !Contains(pindex))] loop of [FindFork]. *)
Fixpoint FindFork_loop (fuel : nat) (T : gmap nat CBlockIndex) (v : CChain) (pindex : option nat) : option (option nat) :=
  match pindex with
  | None => Some None
  | Some p =>
      b ← T !! p;
      c ← Contains T v p;
      if (c : bool) then Some (Some p)
      else match fuel with
      | O => None
      | S fuel' => FindFork_loop fuel' T v (pprev b)
      end
  end.

(** [CChain::FindFork] *)
Definition FindFork (T : gmap nat CBlockIndex) (v : CChain) (pindex : option nat) : option (option nat) :=
  match pindex with
  | None => Some None
  | Some p =>
      b ← T !! p;
      start ← (if Height v <? nHeight b then GetAncestor T p (Height v) else Some (Some p));
      FindFork_loop (Z.to_nat (nHeight b + 1)) T v start
  end.

(** The [while (pindex)] loop of [GetLocator]: the hashes pushed, in order;
    [n] is [vHave.size()] before the iteration. *)
Fixpoint GetLocator_loop (fuel : nat) (T : gmap nat CBlockIndex) (v : CChain)
    (pindex : option nat) (nStep : Z) (n : nat) : option (list uint256) :=
  match pindex with
  | None => Some []
  | Some p =>
      b ← T !! p;
      if nHeight b =? 0 then Some [hashBlock b]
      else match fuel with
      | O => None
      | S fuel' =>
          let h := Z.max (nHeight b - nStep) 0 in
          c ← Contains T v p;
          next ← (if (c : bool) then Some (chain_at v h) else GetAncestor T p h);
          let nStep' := if (10 <? S n)%nat then nStep * 2 else nStep in
          rest ← GetLocator_loop fuel' T v next nStep' (S n);
          Some (hashBlock b :: rest)
      end
  end.

(** [CChain::GetLocator] *)
Definition GetLocator (T : gmap nat CBlockIndex) (v : CChain) (pindex : option nat) : option (list uint256) :=
  let pindex := match pindex with None => Tip v | Some p => Some p end in
  match pindex with
  | None => Some []
  | Some p => b ← T !! p; GetLocator_loop (Z.to_nat (nHeight b)) T v (Some p) 1 0
  end.

(** [std::lower_bound] on a random-access range of [len] elements from [first]. *)
Fixpoint lower_bound (fuel : nat) (pred : nat -> option bool) (first len : nat) : option nat :=
  match len with
  | O => Some first
  | _ =>
      match fuel with
      | O => None
      | S fuel' =>
          let half := (len / 2)%nat in
          let middle := (first + half)%nat in
          b ← pred middle;
          if (b : bool) then lower_bound fuel' pred (S middle) (len - half - 1)
          else lower_bound fuel' pred first half
      end
  end.

(** [CChain::FindEarliestAtLeast] *)
Definition FindEarliestAtLeast (T : gmap nat CBlockIndex) (v : CChain) (time : Z) : option (option nat) :=
  i ← lower_bound (length v) (fun i => o ← v !! i; p ← o; b ← T !! p; Some (nTimeMax b <? time)) 0 (length v);
  Some (if (i =? length v)%nat then None else default None (v !! i)).

(** ** The reference: following [pprev] *)

Fixpoint nth_parent (T : gmap nat CBlockIndex) (n : nat) (p : nat) : option nat :=
  match n with
  | O => Some p
  | S n' => b ← T !! p; q ← pprev b; nth_parent T n' q
  end.

(** The ancestor of [p] at height [h] along [pprev]. *)
Definition ancestor (T : gmap nat CBlockIndex) (p : nat) (h : Z) : option nat :=
  b ← T !! p; nth_parent T (Z.to_nat (nHeight b - h)) p.

(** The links of one entry: heights count the distance to a root, and a skip
    pointer, when present, is the ancestor at [GetSkipHeight]. *)
Definition entry_ok (T : gmap nat CBlockIndex) (b : CBlockIndex) : Prop :=
  match pprev b with
  | None => nHeight b = 0 /\ pskip b = None
  | Some q => exists bq, T !! q = Some bq /\ nHeight b = nHeight bq + 1 /\
      forall s, pskip b = Some s -> ancestor T q (GetSkipHeight (nHeight b)) = Some s
  end.

Definition tree_wf (T : gmap nat CBlockIndex) : Prop :=
  forall p b, T !! p = Some b -> 0 <= nHeight b /\ entry_ok T b.

#[global] Instance entry_ok_dec T b : Decision (entry_ok T b).
Proof.
  unfold entry_ok. destruct (pprev b) as [q|]; [|apply _].
  destruct (T !! q) as [bq|] eqn:E; [|right; naive_solver].
  destruct (decide (nHeight b = nHeight bq + 1)); [|right; naive_solver].
  destruct (pskip b) as [s|]; [|left; naive_solver].
  destruct (decide (ancestor T q (GetSkipHeight (nHeight b)) = Some s)); [left|right]; naive_solver.
Defined.

#[global] Instance tree_wf_dec T : Decision (tree_wf T).
Proof. apply (map_Forall_dec (fun _ b => 0 <= nHeight b /\ entry_ok T b)). Defined.

Lemma InvertLowestOne_bound n : 0 < n -> 0 <= InvertLowestOne n < n.
Proof.
  intros Hn. unfold InvertLowestOne.
  assert (0 <= Z.land n (n - 1)) by (apply Z.land_nonneg; lia). split; [done|].
  pose proof (land_le_r n (n - 1)). lia.
Qed.

Lemma GetSkipHeight_bound h : 1 <= h -> 0 <= GetSkipHeight h < h.
Proof.
  intros Hh. unfold GetSkipHeight. destruct (Z.ltb_spec h 2); [lia|].
  case_match; [|by apply InvertLowestOne_bound; lia].
  pose proof (InvertLowestOne_bound (h - 1) ltac:(lia)).
  destruct (decide (InvertLowestOne (h - 1) = 0)) as [->|].
  - change (InvertLowestOne 0) with 0. lia.
  - pose proof (InvertLowestOne_bound (InvertLowestOne (h - 1)) ltac:(lia)). lia.
Qed.

Section Tree.
Context (T : gmap nat CBlockIndex) (Hwf : tree_wf T).

Lemma nth_parent_height n p b :
  T !! p = Some b -> Z.of_nat n <= nHeight b ->
  exists q bq, nth_parent T n p = Some q /\ T !! q = Some bq /\ nHeight bq = nHeight b - Z.of_nat n.
Proof using Hwf.
  revert p b. induction n as [|n IH]; intros p b Hp Hn.
  - exists p, b. split; [done|]. split; [done|]. lia.
  - destruct (Hwf p b Hp) as [_ He]. unfold entry_ok in He. cbn [nth_parent]. rewrite Hp.
    cbn [mbind option_bind]. destruct (pprev b) as [q|] eqn:Eq; [|lia].
    destruct He as (bq & Hq & Hh & _). cbn [mbind option_bind].
    destruct (IH q bq Hq) as (r & br & Hr & Hbr & Hhr); [lia|].
    exists r, br. split; [done|]. split; [done|]. lia.
Qed.

Lemma nth_parent_add m n p :
  nth_parent T (m + n) p = (q ← nth_parent T m p; nth_parent T n q).
Proof using Type.
  revert p. induction m as [|m IH]; intros p; [done|]. cbn [Nat.add nth_parent].
  destruct (T !! p) as [b|]; [|done]. cbn [mbind option_bind].
  destruct (pprev b) as [q|]; [|done]. cbn [mbind option_bind]. apply IH.
Qed.

Lemma ancestor_some p b h :
  T !! p = Some b -> 0 <= h <= nHeight b ->
  exists q bq, ancestor T p h = Some q /\ T !! q = Some bq /\ nHeight bq = h.
Proof using Hwf.
  intros Hp Hh. destruct (nth_parent_height (Z.to_nat (nHeight b - h)) p b Hp) as (q & bq & H1 & H2 & H3);
    [lia|]. exists q, bq. unfold ancestor. rewrite Hp. cbn [mbind option_bind].
  split; [done|]. split; [done|]. lia.
Qed.

Lemma ancestor_self p b : T !! p = Some b -> ancestor T p (nHeight b) = Some p.
Proof using Type. intros Hp. unfold ancestor. rewrite Hp. cbn. by rewrite Z.sub_diag. Qed.

(** The ancestor at [h] of the ancestor at [h'] is the ancestor at [h]. *)
Lemma ancestor_trans p b h h' q :
  T !! p = Some b -> 0 <= h <= h' -> h' <= nHeight b ->
  ancestor T p h' = Some q -> ancestor T q h = ancestor T p h.
Proof using Hwf.
  intros Hp Hh Hh' Hq. destruct (ancestor_some p b h' Hp ltac:(lia)) as (q' & bq & H1 & H2 & H3).
  rewrite H1 in Hq. injection Hq as <-. unfold ancestor in *. rewrite Hp, H2 in *.
  cbn [mbind option_bind] in *.
  replace (Z.to_nat (nHeight b - h))
    with (Z.to_nat (nHeight b - h') + Z.to_nat (nHeight bq - h))%nat by lia.
  by rewrite nth_parent_add, H1.
Qed.

Lemma ancestor_parent p b q h :
  T !! p = Some b -> pprev b = Some q -> 0 <= h < nHeight b -> ancestor T q h = ancestor T p h.
Proof using Hwf.
  intros Hp Hq Hh. destruct (Hwf p b Hp) as [_ He]. unfold entry_ok in He. rewrite Hq in He.
  destruct He as (bq & HTq & Hhq & _).
  apply (ancestor_trans p b h (nHeight b - 1)); [done|lia|lia|].
  unfold ancestor. rewrite Hp. cbn [mbind option_bind].
  replace (Z.to_nat (nHeight b - (nHeight b - 1))) with 1%nat by lia.
  cbn [nth_parent]. by rewrite Hp; cbn [mbind option_bind]; rewrite Hq.
Qed.

(** The skip-list loop reaches the ancestor without failing. *)
Lemma GetAncestor_loop_correct fuel p b h :
  T !! p = Some b -> 0 <= h <= nHeight b -> (Z.to_nat (nHeight b - h) <= fuel)%nat ->
  GetAncestor_loop fuel T h p (nHeight b) = ancestor T p h.
Proof using Hwf.
  revert p b. induction fuel as [|fuel IH]; intros p b Hp Hh Hf; cbn [GetAncestor_loop].
  - destruct (Z.leb_spec (nHeight b) h); [|lia].
    replace h with (nHeight b) by lia. by rewrite (ancestor_self p b).
  - destruct (Z.leb_spec (nHeight b) h).
    { replace h with (nHeight b) by lia. by rewrite (ancestor_self p b). }
    rewrite Hp. cbn [mbind option_bind].
    destruct (Hwf p b Hp) as [_ He]. pose proof He as He'. unfold entry_ok in He.
    destruct (pprev b) as [q|] eqn:Eq; [|lia].
    destruct He as (bq & Hq & Hhq & Hskip).
    assert (Hprev : GetAncestor_loop fuel T h q (nHeight b - 1) = ancestor T p h).
    { replace (nHeight b - 1) with (nHeight bq) by lia.
      rewrite (IH q bq) by (done || lia). apply (ancestor_parent p b q h); [done|done|lia]. }
    destruct (pskip b) as [s|] eqn:Es; [|done].
    case_match eqn:Ec; [|done].
    pose proof (GetSkipHeight_bound (nHeight b) ltac:(lia)) as Hsb.
    destruct (ancestor_some q bq (GetSkipHeight (nHeight b)) Hq ltac:(lia)) as (s' & bs & H1 & H2 & H3).
    rewrite (Hskip s eq_refl) in H1. injection H1 as <-.
    assert (h <= GetSkipHeight (nHeight b)).
    { apply orb_prop in Ec as [Ec|Ec]; [lia|]. apply andb_prop in Ec as [Ec _]. lia. }
    rewrite <- H3 at 1. rewrite (IH s bs) by (done || lia).
    apply (ancestor_trans p b h (GetSkipHeight (nHeight b))); [done|lia|lia|].
    rewrite <- (ancestor_parent p b q) by (done || lia). by apply Hskip.
Qed.

Lemma GetAncestor_correct p b h :
  T !! p = Some b ->
  GetAncestor T p h = Some (if (0 <=? h) && (h <=? nHeight b) then ancestor T p h else None).
Proof using Hwf.
  intros Hp. unfold GetAncestor. rewrite Hp. cbn [mbind option_bind].
  destruct (Z.ltb_spec (nHeight b) h), (Z.leb_spec h (nHeight b)), (Z.ltb_spec h 0), (Z.leb_spec 0 h);
    try lia; try done. cbn [orb andb].
  rewrite (GetAncestor_loop_correct _ p b) by (done || lia).
  destruct (ancestor_some p b h Hp ltac:(lia)) as (q & _ & -> & _). done.
Qed.

End Tree.

(** ** The indexed chain refines the path of ancestors *)

(** The blocks from the root to [p], indexed by height. *)
Definition path (T : gmap nat CBlockIndex) (p : nat) : CChain :=
  match T !! p with
  | Some b => (fun h => ancestor T p (Z.of_nat h)) <$> seq 0 (Z.to_nat (nHeight b + 1))
  | None => []
  end.

(** A chain object is empty or holds the path of its tip. *)
Definition chain_ok (T : gmap nat CBlockIndex) (v : CChain) : Prop :=
  v = [] \/ exists p, is_Some (T !! p) /\ v = path T p.

Section ChainOps.
Context (T : gmap nat CBlockIndex) (Hwf : tree_wf T).

Lemma path_length p b : T !! p = Some b -> length (path T p) = Z.to_nat (nHeight b + 1).
Proof using Type. intros Hp. unfold path. by rewrite Hp, length_fmap, length_seq. Qed.

Lemma path_lookup p b i : T !! p = Some b ->
  path T p !! i = if decide (i < Z.to_nat (nHeight b + 1))%nat then Some (ancestor T p (Z.of_nat i)) else None.
Proof using Type.
  intros Hp. unfold path. rewrite Hp, list_lookup_fmap. case_decide.
  - by rewrite lookup_seq_lt.
  - by rewrite lookup_seq_ge by lia.
Qed.

(** Entries below the stopping point of [SetTip] are already right: whoever
    holds slot [i] has its own ancestors in the slots below. *)
Definition slots_closed (v : CChain) (n : Z) : Prop :=
  forall i q, v !! i = Some (Some q) -> Z.of_nat i <= n ->
  forall j, (j <= i)%nat -> v !! j = Some (ancestor T q (Z.of_nat j)).

Lemma path_slots_closed p b n : T !! p = Some b -> slots_closed (path T p) n.
Proof using Hwf.
  intros Hp i q Hi _ j Hj. pose proof (proj1 (Hwf p b Hp)). rewrite (path_lookup p b i Hp) in Hi. case_decide; [|done].
  injection Hi as Hi. rewrite (path_lookup p b j Hp), decide_True by lia. f_equal. symmetry.
  apply (ancestor_trans T Hwf p b _ (Z.of_nat i)); [done|lia|lia|done].
Qed.

Lemma resize_lookup n v i : (i < n)%nat -> resize n v !! i = match v !! i with Some x => Some x | None => Some None end.
Proof using Type.
  intros Hi. unfold resize. destruct (decide (i < length v)%nat).
  - rewrite lookup_app_l by (rewrite length_take; lia).
    rewrite lookup_take_lt by lia. by destruct (lookup_lt_is_Some_2 v i) as [x ->].
  - rewrite (lookup_ge_None_2 v i) by lia.
    rewrite lookup_app_r by (rewrite length_take; lia). rewrite length_take.
    apply lookup_replicate_2. lia.
Qed.

Lemma resize_slots_closed n v m : slots_closed v m -> m < Z.of_nat n -> slots_closed (resize n v) m.
Proof using Type.
  intros Hc Hm i q Hi Hle j Hj. rewrite resize_lookup in Hi by lia.
  destruct (v !! i) as [x|] eqn:Ei; [|done]. injection Hi as ->.
  rewrite resize_lookup by lia. by rewrite (Hc i q Ei Hle j Hj).
Qed.

Lemma SetTip_loop_correct p b fuel :
  T !! p = Some b ->
  forall v q bq, T !! q = Some bq -> ancestor T p (nHeight bq) = Some q -> nHeight bq <= nHeight b ->
  (Z.to_nat (nHeight bq) < fuel)%nat -> length v = Z.to_nat (nHeight b + 1) ->
  (forall i, nHeight bq < Z.of_nat i <= nHeight b -> v !! i = Some (ancestor T p (Z.of_nat i))) ->
  slots_closed v (nHeight bq) ->
  SetTip_loop fuel T v (Some q) = Some (path T p).
Proof using Hwf.
  intros Hp. induction fuel as [|fuel IH]; intros v q bq Hq Hanc Hle Hf Hl Hhi Hlo; [lia|].
  destruct (Hwf q bq Hq) as [Hnn He]. cbn [SetTip_loop]. rewrite Hq. cbn [mbind option_bind].
  case_bool_decide as Hd.
  - f_equal. apply list_eq. intros i. rewrite (path_lookup p b i Hp). case_decide as Hi.
    2:{ apply lookup_ge_None_2. lia. }
    destruct (Z.lt_ge_cases (nHeight bq) (Z.of_nat i)); [apply Hhi; lia|].
    rewrite (Hlo _ _ Hd) by lia. f_equal.
    apply (ancestor_trans T Hwf p b _ (nHeight bq)); [done|lia|lia|done].
  - unfold entry_ok in He. set (v' := <[_ := _]> v).
    assert (Hv' : forall i, nHeight bq - 1 < Z.of_nat i <= nHeight b -> v' !! i = Some (ancestor T p (Z.of_nat i))).
    { intros i Hi. unfold v'. destruct (decide (Z.to_nat (nHeight bq) = i)) as [<-|].
      - rewrite list_lookup_insert_eq by lia. by rewrite Z2Nat.id, Hanc.
      - rewrite list_lookup_insert_ne by done. apply Hhi. lia. }
    destruct (pprev bq) as [r|] eqn:Er.
    + destruct He as (br & Hr & Hhr & _). pose proof (proj1 (Hwf r br Hr)).
      apply (IH v' r br Hr); try lia.
      * rewrite <- (ancestor_trans T Hwf p b _ (nHeight bq) q) by (done || lia).
        rewrite <- (ancestor_parent T Hwf q bq r) by (done || lia). by apply ancestor_self.
      * unfold v'. by rewrite length_insert.
      * intros i Hi. apply Hv'. lia.
      * intros i s Hi Hin j Hj. unfold v' in *.
        rewrite list_lookup_insert_ne in Hi by lia. rewrite list_lookup_insert_ne by lia.
        apply (Hlo i s Hi); lia.
    + destruct fuel; cbn [SetTip_loop]; (f_equal; apply list_eq; intros i;
        rewrite (path_lookup p b i Hp); case_decide as Hi;
        [apply Hv'; lia|apply lookup_ge_None_2; unfold v'; rewrite length_insert; lia]).
Qed.

Lemma SetTip_correct v p b :
  chain_ok T v -> T !! p = Some b -> SetTip T v (Some p) = Some (path T p).
Proof using Hwf.
  intros Hv Hp. destruct (Hwf p b Hp) as [Hnn _]. unfold SetTip. rewrite Hp. cbn [mbind option_bind].
  assert (Hcl : slots_closed v (nHeight b)).
  { destruct Hv as [->|(t & [bt Ht] & ->)]; [|by apply (path_slots_closed t bt)].
    intros i q Hi. by rewrite lookup_nil in Hi. }
  apply (SetTip_loop_correct p b _ Hp _ p b); [done|by apply ancestor_self|lia|lia| | |].
  - unfold resize. rewrite length_app, length_take, length_replicate. lia.
  - intros i Hi. lia.
  - apply resize_slots_closed; [done|lia].
Qed.

Lemma chain_at_path p b h : T !! p = Some b ->
  chain_at (path T p) h = if (0 <=? h) && (h <=? nHeight b) then ancestor T p h else None.
Proof using Hwf.
  intros Hp. pose proof (proj1 (Hwf p b Hp)). unfold chain_at. rewrite (path_length p b Hp).
  destruct (Z.ltb_spec h 0), (Z.leb_spec 0 h), (Z.leb_spec h (nHeight b)),
    (Z.leb_spec (Z.of_nat (Z.to_nat (nHeight b + 1))) h); try lia; try done.
  cbn [orb andb]. rewrite (path_lookup p b) by done. rewrite decide_True by lia.
  by rewrite Z2Nat.id by lia.
Qed.

Lemma Contains_path p b q bq : T !! p = Some b -> T !! q = Some bq ->
  Contains T (path T p) q =
    Some (bool_decide (nHeight bq <= nHeight b /\ ancestor T p (nHeight bq) = Some q)).
Proof using Hwf.
  intros Hp Hq. unfold Contains. rewrite Hq. cbn [mbind option_bind].
  rewrite (chain_at_path p b) by done. destruct (Hwf q bq Hq) as [Hnn _].
  f_equal. apply bool_decide_ext.
  destruct (Z.leb_spec 0 (nHeight bq)), (Z.leb_spec (nHeight bq) (nHeight b)); try lia; cbn [andb]; split.
  - done.
  - by intros [_ ?].
  - done.
  - intros [? _]. lia.
Qed.

Lemma Height_path p b : T !! p = Some b -> Height (path T p) = nHeight b.
Proof using Hwf.
  intros Hp. pose proof (proj1 (Hwf p b Hp)). unfold Height. rewrite (path_length p b Hp). lia.
Qed.

(** [q] is on both branches: an ancestor of [p] and of the tip [t]. *)
Definition common_ancestor (t p q : nat) : Prop :=
  exists bq, T !! q = Some bq /\
    ancestor T t (nHeight bq) = Some q /\ ancestor T p (nHeight bq) = Some q /\
    forall bt bp, T !! t = Some bt -> T !! p = Some bp -> nHeight bq <= nHeight bt /\ nHeight bq <= nHeight bp.

(** What the backward loop of [FindFork] returns from an ancestor of [p]. *)
Lemma FindFork_loop_correct t bt p bp fuel :
  T !! t = Some bt -> T !! p = Some bp ->
  forall q bq, T !! q = Some bq -> ancestor T p (nHeight bq) = Some q ->
  nHeight bq <= nHeight bt -> nHeight bq <= nHeight bp -> (Z.to_nat (nHeight bq) < fuel)%nat ->
  exists r, FindFork_loop fuel T (path T t) (Some q) = Some r /\
    match r with
    | Some f => common_ancestor t p f /\
        forall g bf bg, common_ancestor t p g -> T !! f = Some bf -> T !! g = Some bg ->
        nHeight bg <= nHeight bq -> nHeight bg <= nHeight bf
    | None => forall g bg, common_ancestor t p g -> T !! g = Some bg -> nHeight bq < nHeight bg
    end.
Proof using Hwf.
  intros Ht Hp. induction fuel as [|fuel IH]; intros q bq Hq Hanc Hbt Hbp Hf; [lia|].
  destruct (Hwf q bq Hq) as [Hnn He]. unfold entry_ok in He.
  cbn [FindFork_loop]. rewrite Hq. cbn [mbind option_bind]. rewrite (Contains_path t bt q bq) by done.
  cbn [mbind option_bind]. case_bool_decide as Hd.
  - exists (Some q). split; [done|]. split.
    + exists bq. split; [done|]. split; [by destruct Hd|]. split; [done|]. intros. simplify_eq. lia.
    + intros g bf bg Hg Hbf Hbg Hle. by simplify_eq.
  - assert (Hno : forall g bg, common_ancestor t p g -> T !! g = Some bg -> nHeight bg <> nHeight bq).
    { intros g bg (bg' & Hg & Hg1 & Hg2 & _) Hbg Heq. simplify_eq. rewrite Heq in *. simplify_eq.
      apply Hd. by split. }
    destruct (pprev bq) as [r|] eqn:Er.
    + destruct He as (br & Hr & Hhr & _). pose proof (proj1 (Hwf r br Hr)).
      destruct (IH r br Hr) as (res & Hres & Hspec); [|lia|lia|lia|].
      { rewrite <- (ancestor_trans T Hwf p bp _ (nHeight bq) q) by (done || lia).
        rewrite <- (ancestor_parent T Hwf q bq r) by (done || lia). by apply ancestor_self. }
      exists res. split; [done|]. destruct res as [f|].
      * destruct Hspec as [Hf1 Hf2]. split; [done|]. intros g bf bg Hg Hbf Hbg Hle.
        pose proof (Hno g bg Hg Hbg). apply (Hf2 g bf bg); [done..|lia].
      * intros g bg Hg Hbg. pose proof (Hno g bg Hg Hbg). pose proof (Hspec g bg Hg Hbg). lia.
    + exists None. split; [by destruct fuel|]. intros g bg Hg Hbg.
      pose proof (Hno g bg Hg Hbg). pose proof (proj1 (Hwf g bg Hbg)). lia.
Qed.

Lemma FindFork_correct t bt p bp :
  T !! t = Some bt -> T !! p = Some bp ->
  exists r, FindFork T (path T t) (Some p) = Some r /\
    match r with
    | Some f => common_ancestor t p f /\
        forall g bf bg, common_ancestor t p g -> T !! f = Some bf -> T !! g = Some bg ->
        nHeight bg <= nHeight bf
    | None => forall g, ~ common_ancestor t p g
    end.
Proof using Hwf.
  intros Ht Hp. pose proof (proj1 (Hwf t bt Ht)). pose proof (proj1 (Hwf p bp Hp)).
  unfold FindFork. rewrite Hp. cbn [mbind option_bind]. rewrite (Height_path t bt Ht).
  assert (Hstart : exists q bq, T !! q = Some bq /\ ancestor T p (nHeight bq) = Some q /\
    nHeight bq = Z.min (nHeight bt) (nHeight bp) /\
    (if nHeight bt <? nHeight bp then GetAncestor T p (nHeight bt) else Some (Some p)) = Some (Some q)).
  { destruct (Z.ltb_spec (nHeight bt) (nHeight bp)).
    - rewrite (GetAncestor_correct T Hwf p bp) by done.
      destruct (Z.leb_spec 0 (nHeight bt)), (Z.leb_spec (nHeight bt) (nHeight bp)); try lia. cbn [andb].
      destruct (ancestor_some T Hwf p bp (nHeight bt) Hp) as (q & bq & Hq1 & Hq2 & Hq3); [lia|].
      exists q, bq. rewrite Hq3. split; [done|]. split; [done|]. split; [lia|by rewrite Hq1].
    - exists p, bp. split; [done|]. split; [by apply ancestor_self|]. split; [lia|done]. }
  destruct Hstart as (q & bq & Hq & Hanc & Hmin & ->). cbn [mbind option_bind].
  destruct (FindFork_loop_correct t bt p bp (Z.to_nat (nHeight bp + 1)) Ht Hp q bq Hq Hanc)
    as (r & Hr & Hspec); [lia|lia|lia|].
  exists r. split; [done|].
  assert (Hcap : forall g bg, common_ancestor t p g -> T !! g = Some bg -> nHeight bg <= nHeight bq).
  { intros g bg (bg' & Hg & _ & _ & Hle) Hbg. simplify_eq. destruct (Hle bt bp); [done..|lia]. }
  destruct r as [f|].
  - destruct Hspec as [H1 H2]. split; [done|]. intros g bf bg Hg Hbf Hbg.
    apply (H2 g bf bg Hg Hbf Hbg). by apply (Hcap g).
  - intros g Hg. pose proof Hg as (bg & Hbg & _). pose proof (Hspec g bg Hg Hbg).
    pose proof (Hcap g bg Hg Hbg). lia.
Qed.

End ChainOps.
(** ** Median time past *)

(** How many times in [l] are below [m]. *)
Definition count_below (m : Z) (l : list Z) : nat := length (filter (fun x => x < m) l).

Lemma count_below_app m l1 l2 : count_below m (l1 ++ l2) = (count_below m l1 + count_below m l2)%nat.
Proof. unfold count_below. by rewrite filter_app, length_app. Qed.

Lemma count_below_all m l : Forall (fun x => x < m) l -> count_below m l = length l.
Proof.
  unfold count_below. induction 1 as [|x l Hx Hl IH]; [done|].
  rewrite filter_cons_True by done. cbn. by rewrite IH.
Qed.

Lemma count_below_none m l : Forall (fun x => m <= x) l -> count_below m l = 0%nat.
Proof.
  unfold count_below. induction 1 as [|x l Hx Hl IH]; [done|].
  by rewrite filter_cons_False by lia.
Qed.

Lemma count_below_perm m l1 l2 : l1 ≡ₚ l2 -> count_below m l1 = count_below m l2.
Proof. intros H. unfold count_below. by rewrite H. Qed.

(** Position [k] of a sorted list is at least [m] when at most [k] elements are below it ... *)
Lemma sorted_lookup_ge l k x m :
  StronglySorted Z.le l -> l !! k = Some x -> (count_below m l <= k)%nat -> m <= x.
Proof.
  intros Hs Hk Hc. destruct (Z.le_gt_cases m x) as [|Hlt]; [done|]. exfalso.
  apply list_elem_of_split_length in Hk as (l1 & l2 & -> & ->).
  rewrite count_below_app in Hc.
  assert (Hall : Forall (fun y => y < m) l1).
  { apply Forall_forall. intros y Hy.
    pose proof (StronglySorted_app_1_elem_of Z.le l1 (x :: l2) y x Hs Hy (list_elem_of_here x l2)). lia. }
  rewrite (count_below_all _ _ Hall) in Hc. unfold count_below in Hc.
  rewrite filter_cons_True in Hc by lia. cbn in Hc. lia.
Qed.

(** ... and at most [k] elements of a sorted list are below its element at [k]. *)
Lemma sorted_count_below l k x :
  StronglySorted Z.le l -> l !! k = Some x -> (count_below x l <= k)%nat.
Proof.
  intros Hs Hk. apply list_elem_of_split_length in Hk as (l1 & l2 & -> & ->).
  rewrite count_below_app, (count_below_none x (x :: l2)).
  - unfold count_below. pose proof (length_filter (fun y => y < x) l1). lia.
  - apply StronglySorted_app_1_r in Hs. apply StronglySorted_cons in Hs as [Hx _].
    constructor; [lia|done].
Qed.

Lemma sort_times_sorted ts : StronglySorted Z.le (sort_times ts).
Proof. apply StronglySorted_merge_sort; apply _. Qed.

Lemma sort_times_perm ts : sort_times ts ≡ₚ ts.
Proof. apply merge_sort_Permutation. Qed.

(** The median of a window that slid forward by one time later than the old
    median is not smaller. *)
Lemma median_slide ts rest t m k :
  sort_times (ts ++ rest) !! (length (ts ++ rest) / 2)%nat = Some m ->
  (length rest <= 1)%nat -> m <= t ->
  k = (length (t :: ts) / 2)%nat ->
  exists m', sort_times (t :: ts) !! k = Some m' /\ m <= m'.
Proof.
  intros Hm Hr Ht ->.
  destruct (lookup_lt_is_Some_2 (sort_times (t :: ts)) (length (t :: ts) / 2)) as [m' Hm'].
  { rewrite (Permutation_length (sort_times_perm _)). cbn [length].
    apply Nat.div_lt; lia. }
  exists m'. split; [done|].
  apply (sorted_lookup_ge _ _ _ _ (sort_times_sorted _) Hm').
  rewrite (count_below_perm _ _ _ (sort_times_perm _)).
  apply sorted_count_below in Hm; [|apply sort_times_sorted].
  rewrite (count_below_perm _ _ _ (sort_times_perm _)), count_below_app in Hm.
  change (t :: ts) with ([t] ++ ts) at 1. rewrite count_below_app, (count_below_none m [t]) by (constructor; [lia|done]).
  rewrite length_app in Hm. cbn [length Nat.add].
  assert ((length ts + length rest) / 2 <= S (length ts) / 2)%nat by (apply Nat.Div0.div_le_mono; lia).
  lia.
Qed.

Section Median.
Context (T : gmap nat CBlockIndex) (Hwf : tree_wf T).

Lemma collect_times_S n p b : T !! p = Some b ->
  collect_times T (S n) (Some p) = (ts ← collect_times T n (pprev b); Some (nTime b :: ts)).
Proof using Type. intros Hb. cbn [collect_times]. by rewrite Hb. Qed.

Lemma collect_times_some n o :
  (forall p, o = Some p -> is_Some (T !! p)) -> exists ts, collect_times T n o = Some ts.
Proof using Hwf.
  revert o. induction n as [|n IH]; intros o Ho; [by exists []|].
  destruct o as [p|]; [|by exists []]. destruct (Ho p eq_refl) as [b Hb]. cbn [collect_times].
  rewrite Hb. cbn [mbind option_bind]. destruct (IH (pprev b)) as [ts ->]; [|by eexists].
  intros q Hq. destruct (Hwf p b Hb) as [_ He]. unfold entry_ok in He. rewrite Hq in He.
  destruct He as (bq & ? & _). by eexists.
Qed.

Lemma collect_times_snoc n o ts' :
  collect_times T (S n) o = Some ts' ->
  exists ts rest, collect_times T n o = Some ts /\ ts' = ts ++ rest /\ (length rest <= 1)%nat.
Proof using Type.
  revert o ts'. induction n as [|n IH]; intros o ts' H.
  - exists [], ts'. split; [by destruct o|]. split; [done|].
    destruct o as [p|]; cbn [collect_times] in H; [|injection H as <-; cbn; lia].
    destruct (T !! p); [|done]. cbn in H. injection H as <-. cbn. lia.
  - destruct o as [p|]; cbn [collect_times] in *; [|injection H as <-; exists [], []; cbn; auto with lia].
    destruct (T !! p) as [b|]; [|done]. cbn [mbind option_bind] in *.
    destruct (match pprev b with Some _ => _ | None => _ end) as [ts1|] eqn:E; [|done].
    injection H as <-. destruct (IH (pprev b) ts1 E) as (ts & rest & -> & -> & Hr).
    exists (nTime b :: ts), rest. done.
Qed.

(** A block later than its parent's median does not lower the median. *)
Lemma median_mono p b q m :
  T !! p = Some b -> pprev b = Some q -> GetMedianTimePast T q = Some m -> m <= nTime b ->
  exists m', GetMedianTimePast T p = Some m' /\ m <= m'.
Proof using Hwf.
  intros Hp Hq Hm Ht. unfold GetMedianTimePast in *.
  destruct (collect_times T nMedianTimeSpan (Some q)) as [tq|] eqn:Eq; [|done]. cbn [mbind option_bind] in Hm.
  destruct (collect_times_snoc 10 _ _ Eq) as (ts & rest & Hts & -> & Hr).
  assert (Hc : collect_times T nMedianTimeSpan (Some p) = Some (nTime b :: ts)).
  { unfold nMedianTimeSpan. by rewrite (collect_times_S 10 p b Hp), Hq, Hts. }
  rewrite Hc. cbn [mbind option_bind]. by apply (median_slide ts rest (nTime b) m _ Hm Hr Ht).
Qed.

Lemma median_total p b : T !! p = Some b ->
  exists m ts, GetMedianTimePast T p = Some m /\ collect_times T nMedianTimeSpan (Some p) = Some ts /\
    sort_times ts !! (length ts / 2)%nat = Some m /\ m ∈ ts.
Proof using Hwf.
  intros Hp. destruct (collect_times_some nMedianTimeSpan (Some p)) as [ts Hts].
  { intros q [= <-]. by eexists. }
  unfold GetMedianTimePast. rewrite Hts. cbn [mbind option_bind].
  destruct (lookup_lt_is_Some_2 (sort_times ts) (length ts / 2)) as [m Hm].
  - rewrite (Permutation_length (sort_times_perm _)).
    assert (0 < length ts)%nat; [|by apply Nat.div_lt; lia].
    unfold nMedianTimeSpan in Hts. rewrite (collect_times_S 10 p b Hp) in Hts.
    destruct (collect_times T 10 (pprev b)); [|done]. injection Hts as <-. cbn. lia.
  - exists m, ts. split; [done|]. split; [done|]. split; [done|].
    rewrite <- (sort_times_perm ts). by eapply list_elem_of_lookup_2.
Qed.
End Median.

(** ** Binary search by time *)

Lemma lower_bound_correct pred f :
  (forall i, f i = true -> forall j, (j <= i)%nat -> f j = true) ->
  forall fuel first len, (len <= fuel)%nat ->
  (forall i, (first <= i < first + len)%nat -> pred i = Some (f i)) ->
  exists i, lower_bound fuel pred first len = Some i /\ (first <= i <= first + len)%nat /\
    (forall j, (first <= j < i)%nat -> f j = true) /\
    (forall j, (i <= j < first + len)%nat -> f j = false).
Proof.
  intros Hmono. induction fuel as [|fuel IH]; intros first len Hlen Hpred.
  { replace len with 0%nat by lia. exists first. cbn. repeat split; lia. }
  destruct len as [|len']; [exists first; cbn; repeat split; lia|].
  set (len := S len') in *. cbn [lower_bound].
  pose proof (Nat.div_lt len 2 ltac:(lia) ltac:(lia)) as Hhalf.
  set (half := (len / 2)%nat) in *. rewrite Hpred by lia. cbn [mbind option_bind].
  destruct (f (first + half)%nat) eqn:Ef.
  - destruct (IH (S (first + half)) (len - half - 1)%nat) as (i & -> & Hi & H1 & H2);
      [lia|intros; apply Hpred; lia|].
    exists i. split; [done|]. split; [lia|]. split.
    + intros j Hj. destruct (decide (j <= first + half)%nat); [by apply (Hmono (first + half)%nat)|].
      apply H1. lia.
    + intros j Hj. apply H2. lia.
  - destruct (IH first half) as (i & -> & Hi & H1 & H2); [lia|intros; apply Hpred; lia|].
    exists i. split; [done|]. split; [lia|]. split; [done|].
    intros j Hj. destruct (decide (j < first + half)%nat); [apply H2; lia|].
    destruct (f j) eqn:Ej; [|done]. by rewrite (Hmono j Ej (first + half)%nat) in Ef by lia.
Qed.

(** [nTimeMax] never decreases from a block to its child. *)
Definition tmax_ok (T : gmap nat CBlockIndex) : Prop :=
  forall p b q bq, T !! p = Some b -> pprev b = Some q -> T !! q = Some bq -> nTimeMax bq <= nTimeMax b.

Section Search.
Context (T : gmap nat CBlockIndex) (Hwf : tree_wf T) (Htm : tmax_ok T).

Lemma tmax_nth_parent n p b q bq :
  T !! p = Some b -> nth_parent T n p = Some q -> T !! q = Some bq -> nTimeMax bq <= nTimeMax b.
Proof using Htm.
  revert p b. induction n as [|n IH]; intros p b Hp Hn Hq; cbn [nth_parent] in Hn.
  - simplify_eq. lia.
  - rewrite Hp in Hn. cbn [mbind option_bind] in Hn. destruct (pprev b) as [r|] eqn:Er; [|done].
    cbn [mbind option_bind] in Hn.
    destruct (T !! r) as [br|] eqn:Hr.
    + pose proof (IH r br Hr Hn Hq). pose proof (Htm p b r br Hp Er Hr). lia.
    + destruct n; cbn [nth_parent] in Hn; [simplify_eq|]. rewrite Hr in Hn. done.
Qed.

(** The time maximum of the block at height [i] on the path to [p]. *)
Definition tmax_at (p : nat) (i : nat) : Z :=
  default 0 (q ← ancestor T p (Z.of_nat i); b ← T !! q; Some (nTimeMax b)).

Lemma tmax_at_mono p b i j : T !! p = Some b -> (j <= i)%nat -> Z.of_nat i <= nHeight b ->
  tmax_at p j <= tmax_at p i.
Proof using Hwf Htm.
  intros Hp Hj Hi. unfold tmax_at.
  destruct (ancestor_some T Hwf p b (Z.of_nat i) Hp ltac:(lia)) as (qi & bi & Hai & Hbi & Hhi).
  destruct (ancestor_some T Hwf p b (Z.of_nat j) Hp ltac:(lia)) as (qj & bj & Haj & Hbj & Hhj).
  rewrite Hai, Haj. cbn. rewrite Hbi, Hbj. cbn.
  rewrite <- (ancestor_trans T Hwf p b _ (Z.of_nat i) qi) in Haj by (done || lia).
  unfold ancestor in Haj. rewrite Hbi in Haj. cbn in Haj.
  by apply (tmax_nth_parent _ qi bi qj bj Hbi Haj).
Qed.

Lemma FindEarliestAtLeast_correct p b time :
  T !! p = Some b ->
  exists i, (i <= Z.to_nat (nHeight b + 1))%nat /\
    FindEarliestAtLeast T (path T p) time =
      Some (if (i =? Z.to_nat (nHeight b + 1))%nat then None else ancestor T p (Z.of_nat i)) /\
    (forall j, (j < i)%nat -> tmax_at p j < time) /\
    (forall j, (i <= j < Z.to_nat (nHeight b + 1))%nat -> time <= tmax_at p j).
Proof using Hwf Htm.
  intros Hp. pose proof (proj1 (Hwf p b Hp)) as Hnn.
  set (n := Z.to_nat (nHeight b + 1)).
  set (f := fun i => (i <? n)%nat && (tmax_at p i <? time)).
  destruct (lower_bound_correct (fun i => o ← path T p !! i; q ← o; b ← T !! q; Some (nTimeMax b <? time)) f)
    with (fuel := n) (first := 0%nat) (len := n) as (i & Hlb & Hi & Hlt & Hge).
  - intros i Hi j Hj. unfold f in *. apply andb_prop in Hi as [Hin Hit].
    destruct (Nat.ltb_spec i n); [|done]. destruct (Nat.ltb_spec j n); [|lia]. cbn [andb].
    pose proof (tmax_at_mono p b i j Hp Hj ltac:(lia)). lia.
  - lia.
  - intros i Hi. rewrite (path_lookup T p b i Hp), decide_True by lia. cbn [mbind option_bind].
    destruct (ancestor_some T Hwf p b (Z.of_nat i) Hp ltac:(lia)) as (q & bq & Ha & Hb & Hh).
    unfold f, tmax_at. rewrite Ha. cbn [mbind option_bind]. rewrite Hb. cbn [mbind option_bind].
    by destruct (Nat.ltb_spec i n); [|lia].
  - exists i. split; [lia|]. split.
    + unfold FindEarliestAtLeast. rewrite (path_length T p b Hp). fold n. rewrite Hlb.
      cbn [mbind option_bind]. destruct (Nat.eqb_spec i n); [done|].
      rewrite (path_lookup T p b i Hp), decide_True by lia. done.
    + split; intros j Hj.
      * specialize (Hlt j ltac:(lia)). unfold f in Hlt. lia.
      * specialize (Hge j ltac:(lia)). unfold f in Hge.
        destruct (Nat.ltb_spec j n); [|lia]. cbn [andb] in Hge. lia.
Qed.
End Search.

(** ** Block locators *)

Section Locator.
Context (T : gmap nat CBlockIndex) (Hwf : tree_wf T).

(** Whether or not the block is on the indexed chain, the step goes to its
    ancestor at the wanted height. *)
Lemma locator_step v p b h :
  chain_ok T v -> T !! p = Some b -> 0 <= h <= nHeight b ->
  exists c, Contains T v p = Some c /\
    (if (c : bool) then Some (chain_at v h) else GetAncestor T p h) = Some (ancestor T p h).
Proof using Hwf.
  intros Hv Hp Hh.
  assert (HGA : GetAncestor T p h = Some (ancestor T p h)).
  { rewrite (GetAncestor_correct T Hwf p b) by done.
    destruct (Z.leb_spec 0 h), (Z.leb_spec h (nHeight b)); try lia. done. }
  destruct Hv as [->|(t & [bt Ht] & ->)].
  - exists false. split; [|done]. unfold Contains. rewrite Hp. cbn [mbind option_bind].
    f_equal. apply bool_decide_eq_false. unfold chain_at. by destruct (_ || _).
  - rewrite (Contains_path T Hwf t bt p b) by done. eexists. split; [done|].
    case_bool_decide as Hd; [|done]. destruct Hd as [Hle Hanc]. f_equal.
    rewrite (chain_at_path T Hwf t bt) by done.
    destruct (Z.leb_spec 0 h), (Z.leb_spec h (nHeight bt)); try lia. cbn [andb].
    symmetry. by apply (ancestor_trans T Hwf t bt h (nHeight b)).
Qed.

(** The blocks of a locator: from [p] down to a root, ancestors all. *)
Inductive locator_from : nat -> list uint256 -> Prop :=
| locator_root p b : T !! p = Some b -> nHeight b = 0 -> locator_from p [hashBlock b]
| locator_back p b h q hs : T !! p = Some b -> 0 <= h < nHeight b ->
    ancestor T p h = Some q -> locator_from q hs -> locator_from p (hashBlock b :: hs).

Lemma GetLocator_loop_correct v fuel :
  chain_ok T v ->
  forall p b nStep n, T !! p = Some b -> 1 <= nStep -> (Z.to_nat (nHeight b) <= fuel)%nat ->
  exists hs, GetLocator_loop fuel T v (Some p) nStep n = Some hs /\ locator_from p hs.
Proof using Hwf.
  intros Hv. induction fuel as [|fuel IH]; intros p b nStep n Hp Hs Hf;
    pose proof (proj1 (Hwf p b Hp)); cbn [GetLocator_loop]; rewrite Hp; cbn [mbind option_bind];
    (destruct (Z.eqb_spec (nHeight b) 0); [eexists; split; [done|by apply locator_root]|]); [lia|].
  destruct (locator_step v p b (Z.max (nHeight b - nStep) 0) Hv Hp ltac:(lia)) as (c & -> & Hstep).
  cbn [mbind option_bind]. rewrite Hstep. cbn [mbind option_bind].
  destruct (ancestor_some T Hwf p b (Z.max (nHeight b - nStep) 0) Hp ltac:(lia)) as (q & bq & Ha & Hq & Hh).
  rewrite Ha.
  destruct (IH q bq (if (10 <? S n)%nat then nStep * 2 else nStep) (S n) Hq) as (hs & -> & Hl);
    [destruct (_ <? _)%nat; lia|lia|].
  cbn [mbind option_bind]. eexists. split; [done|].
  by apply (locator_back p b (Z.max (nHeight b - nStep) 0) q); [done|lia|done|].
Qed.

Lemma GetLocator_correct v p b :
  chain_ok T v -> T !! p = Some b ->
  exists hs, GetLocator T v (Some p) = Some hs /\ locator_from p hs.
Proof using Hwf.
  intros Hv Hp. unfold GetLocator. rewrite Hp. cbn [mbind option_bind].
  by apply (GetLocator_loop_correct v _ Hv p b).
Qed.
End Locator.

(** ** Proof of work of a block *)

(** The work of a block is zero for an invalid target and otherwise the
    expected number of hashes, [2^256 / (target + 1)]. *)
Lemma GetBlockProof_correct c : 0 <= c < 2 ^ 32 ->
  exists t fneg fover w, SetCompact c = (t, fneg, fover) /\ GetBlockProof c = Some w /\
    repr w (if fneg || fover || (val t =? 0) then 0 else 2 ^ 256 / (val t + 1)).
Proof.
  intros Hc. destruct (SetCompact_wf c Hc) as (t & fneg & fover & HS & Hwt & Hmax).
  unfold GetBlockProof. rewrite HS. pose proof (wf_bound t Hwt) as Hb.
  rewrite EqualTo_spec by (done || lia).
  destruct (fneg || fover || (val t =? 0)) eqn:E.
  { exists t, fneg, fover. eexists. split; [done|]. split; [done|]. rewrite E. by apply repr_of_u64. }
  assert (H1 : repr (add t (of_u64 1)) (val t + 1)).
  { rewrite <- (Z.mod_small (val t + 1) (2 ^ 256)) by lia. apply repr_add; [done|by apply repr_of_u64]. }
  destruct (repr_div (bnot t) (add t (of_u64 1)) (2 ^ 256 - 1 - val t) (val t + 1)) as (q & Hq & Hrq);
    [by apply repr_bnot|done|lia|].
  exists t, fneg, fover. eexists. split; [done|]. rewrite Hq. split; [done|]. rewrite E.
  pose proof (repr_range _ _ Hrq) as Hr.
  replace (2 ^ 256 / (val t + 1)) with ((2 ^ 256 - 1 - val t) / (val t + 1) + 1).
  - assert (Hlt : (2 ^ 256 - 1 - val t) / (val t + 1) + 1 < 2 ^ 256).
    { assert (Hnz : val t <> 0) by (intros Hz; rewrite Hz in E; by rewrite orb_true_r in E).
      assert ((2 ^ 256 - 1 - val t) / (val t + 1) <= 2 ^ 255) by (apply Z.div_le_upper_bound; lia). lia. }
    rewrite <- (Z.mod_small (_ + 1) (2 ^ 256)) by lia. apply repr_add; [done|by apply repr_of_u64].
  - replace (2 ^ 256) with (2 ^ 256 - 1 - val t + 1 * (val t + 1)) at 2 by lia.
    by rewrite Z.div_add by lia.
Qed.

(** ** A small block tree for the witnesses: 0 - 1 - 2 - 3 and a fork 1 - 4 *)

Definition sample_header (t : Z) : CBlockHeader := mkHeader 4 [] [] t 0x1f05ffff 0.
Definition sample_block (p : nat) (prev skip : option nat) (h t : Z) : CBlockIndex :=
  set_work (set_links (new_index [Z.of_nat p] (sample_header t)) prev skip h) t base_zero.
Definition sample_tree : gmap nat CBlockIndex :=
  <[0%nat := sample_block 0 None None 0 100]>
  (<[1%nat := sample_block 1 (Some 0%nat) (Some 0%nat) 1 130]>
  (<[2%nat := sample_block 2 (Some 1%nat) (Some 0%nat) 2 160]>
  (<[3%nat := sample_block 3 (Some 2%nat) (Some 1%nat) 3 190]>
  (<[4%nat := sample_block 4 (Some 1%nat) (Some 0%nat) 2 165]> ∅)))).

Lemma sample_tree_wf : tree_wf sample_tree.
Proof. by_decide. Qed.

Lemma sample_tree_tmax : tmax_ok sample_tree.
Proof.
  intros p b q bq Hp Hq Hbq. unfold sample_tree in *.
  repeat (rewrite lookup_insert in Hp; case_decide; [simplify_eq; cbn in Hq; simplify_eq; vm_compute in Hbq; simplify_eq; vm_compute; congruence|]).
  by rewrite lookup_empty in Hp.
Qed.

(** ** Properties *)

(** In a well-formed block tree [GetAncestor] never fails, returns [NULL]
    exactly for heights outside [0, nHeight], and otherwise finds through the
    skip list the same block as following [pprev] one step at a time. *)
Theorem GetAncestor_refines_pprev T p b h (Hwf : tree_wf T) (Hp : T !! p = Some b) :
  GetAncestor T p h = Some (if (0 <=? h) && (h <=? nHeight b)
                            then nth_parent T (Z.to_nat (nHeight b - h)) p else None) /\
  (0 <= h <= nHeight b ->
   exists q bq, nth_parent T (Z.to_nat (nHeight b - h)) p = Some q /\ T !! q = Some bq /\ nHeight bq = h).
Proof.
  pose proof (GetAncestor_correct T Hwf p b h Hp) as H. unfold ancestor in H. rewrite Hp in H.
  split; [done|]. intros Hh. destruct (ancestor_some T Hwf p b h Hp Hh) as (q & bq & H1 & H2 & H3).
  unfold ancestor in H1. rewrite Hp in H1. by exists q, bq.
Qed.

Lemma GetAncestor_refines_pprev_witness : GetAncestor sample_tree 3 1 = Some (Some 1%nat).
Proof.
  destruct (GetAncestor_refines_pprev sample_tree 3 (sample_block 3 (Some 2%nat) (Some 1%nat) 3 190) 1) as [H _].
  - by_decide.
  - vm_compute. reflexivity.
  - rewrite H. vm_compute. reflexivity.
Defined.

(** [SetTip] stops as soon as a slot already holds the right block, and
    still leaves in [vChain] exactly the ancestors of the new tip, indexed by
    height, whatever (consistent) chain was there before. *)
Theorem SetTip_refines_path T v p b (Hwf : tree_wf T) (Hv : chain_ok T v) (Hp : T !! p = Some b) :
  SetTip T v (Some p) = Some (path T p) /\ chain_ok T (path T p) /\
  forall h, chain_at (path T p) h = if (0 <=? h) && (h <=? nHeight b) then ancestor T p h else None.
Proof.
  split; [by apply (SetTip_correct T Hwf v p b)|]. split.
  - right. exists p. split; [by eexists|done].
  - intros h. by apply chain_at_path.
Qed.

(** The re-organisation from tip 3 to the fork block 4. *)
Lemma SetTip_refines_path_witness :
  SetTip sample_tree (path sample_tree 3) (Some 4%nat) = Some [Some 0%nat; Some 1%nat; Some 4%nat].
Proof.
  destruct (SetTip_refines_path sample_tree (path sample_tree 3) 4
              (sample_block 4 (Some 1%nat) (Some 0%nat) 2 165)) as [H _].
  - by_decide.
  - right. exists 3%nat. split; [vm_compute; eexists; reflexivity|reflexivity].
  - vm_compute. reflexivity.
  - rewrite H. vm_compute. reflexivity.
Defined.

(** [FindFork] terminates and returns the last block that the given block
    and the active chain have in common, [NULL] only when there is none. *)
Theorem FindFork_last_common T t bt p bp (Hwf : tree_wf T) (Ht : T !! t = Some bt) (Hp : T !! p = Some bp) :
  exists r, FindFork T (path T t) (Some p) = Some r /\
    match r with
    | Some f => common_ancestor T t p f /\
        forall g bf bg, common_ancestor T t p g -> T !! f = Some bf -> T !! g = Some bg ->
        nHeight bg <= nHeight bf
    | None => forall g, ~ common_ancestor T t p g
    end.
Proof. by apply (FindFork_correct T Hwf t bt p bp). Qed.

Lemma FindFork_last_common_witness :
  exists r, FindFork sample_tree (path sample_tree 3) (Some 4%nat) = Some r /\ r = Some 1%nat.
Proof.
  destruct (FindFork_last_common sample_tree 3 (sample_block 3 (Some 2%nat) (Some 1%nat) 3 190) 4
              (sample_block 4 (Some 1%nat) (Some 0%nat) 2 165)) as (r & H & _).
  - by_decide.
  - vm_compute. reflexivity.
  - vm_compute. reflexivity.
  - exists r. split; [exact H|]. vm_compute in H. congruence.
Defined.

(** [GetLocator] terminates and lists the hash of the given block, then of
    ever lower ancestors of it, and ends with the root of its tree. *)
Theorem GetLocator_descends T v p b (Hwf : tree_wf T) (Hv : chain_ok T v) (Hp : T !! p = Some b) :
  exists hs, GetLocator T v (Some p) = Some hs /\ locator_from T p hs.
Proof. by apply (GetLocator_correct T Hwf v p b). Qed.

Lemma GetLocator_descends_witness :
  exists hs, GetLocator sample_tree (path sample_tree 3) (Some 4%nat) = Some hs /\ hs = [[4]; [1]; [0]].
Proof.
  destruct (GetLocator_descends sample_tree (path sample_tree 3) 4
              (sample_block 4 (Some 1%nat) (Some 0%nat) 2 165)) as (hs & H & _).
  - by_decide.
  - right. exists 3%nat. split; [vm_compute; eexists; reflexivity|reflexivity].
  - vm_compute. reflexivity.
  - exists hs. split; [exact H|]. vm_compute in H. congruence.
Defined.

(** [FindEarliestAtLeast] finds by binary search the lowest block of the
    chain whose [nTimeMax] has reached the given time, [NULL] when none has. *)
Theorem FindEarliestAtLeast_lowest T p b time
  (Hwf : tree_wf T) (Htm : tmax_ok T) (Hp : T !! p = Some b) :
  exists i, (i <= Z.to_nat (nHeight b + 1))%nat /\
    FindEarliestAtLeast T (path T p) time =
      Some (if (i =? Z.to_nat (nHeight b + 1))%nat then None else ancestor T p (Z.of_nat i)) /\
    (forall j, (j < i)%nat -> tmax_at T p j < time) /\
    (forall j, (i <= j < Z.to_nat (nHeight b + 1))%nat -> time <= tmax_at T p j).
Proof. by apply FindEarliestAtLeast_correct. Qed.

Lemma FindEarliestAtLeast_lowest_witness :
  exists i, (i <= 4)%nat /\ FindEarliestAtLeast sample_tree (path sample_tree 3) 150 =
      Some (if (i =? 4)%nat then None else ancestor sample_tree 3 (Z.of_nat i)).
Proof.
  destruct (FindEarliestAtLeast_lowest sample_tree 3 (sample_block 3 (Some 2%nat) (Some 1%nat) 3 190) 150)
    as (i & Hi & H & _).
  - by_decide.
  - exact sample_tree_tmax.
  - vm_compute. reflexivity.
  - exists i. split; [exact Hi|exact H].
Defined.

(** The median time past of a block whose time is at least its parent's
    median is at least the parent's median: the header rule makes the median
    clock of every branch monotone. *)
Theorem MedianTimePast_monotone T p b q m
  (Hwf : tree_wf T) (Hp : T !! p = Some b) (Hq : pprev b = Some q)
  (Hm : GetMedianTimePast T q = Some m) (Ht : m <= nTime b) :
  exists m', GetMedianTimePast T p = Some m' /\ m <= m'.
Proof. by apply (median_mono T Hwf p b q m). Qed.

Lemma MedianTimePast_monotone_witness :
  exists m', GetMedianTimePast sample_tree 3 = Some m' /\ 130 <= m'.
Proof.
  apply (MedianTimePast_monotone sample_tree 3 (sample_block 3 (Some 2%nat) (Some 1%nat) 3 190) 2 130).
  - by_decide.
  - vm_compute. reflexivity.
  - reflexivity.
  - vm_compute. reflexivity.
  - vm_compute. congruence.
Defined.

(** The work credited to a block is [2^256 / (target + 1)] exactly,
    computed without leaving 256 bits, and zero for an invalid encoding. *)
Theorem GetBlockProof_exact c (Hc : 0 <= c < 2 ^ 32) :
  exists t fneg fover w, SetCompact c = (t, fneg, fover) /\ GetBlockProof c = Some w /\
    repr w (if fneg || fover || (val t =? 0) then 0 else 2 ^ 256 / (val t + 1)).
Proof. by apply GetBlockProof_correct. Qed.

Lemma GetBlockProof_exact_witness :
  exists w, GetBlockProof 0x1f05ffff = Some w /\ wf w.
Proof.
  destruct (GetBlockProof_exact 0x1f05ffff) as (t & f1 & f2 & w & _ & H & Hw).
  - lia.
  - exists w. split; [exact H|exact (proj1 Hw)].
Defined.

End Chain.
