(* ===== verification/Pow.v ===== *)
(** * Proof of work and difficulty ([src/src/pow.cpp])

    The DigiShield retarget over the block index of [Chain], with the 256-bit
    arithmetic of [Arith256].  [None] stands for a failed assertion, an
    uncaught [uint_error] or the dereference of a null [pindexFirst].  The two
    [double] expressions of [GetNextWorkRequired] (they call [std::sin]) are
    parameters of the model. *)

From stdpp Require Import base list list_numbers gmap numbers option.
From Stdlib Require Import ZArith Lia.
From S2P Require Import Prelude ArithUint256 Chain.

Local Open Scope Z_scope.

Module Pow.
Import Arith256 Chain.

(** The proof-of-work fields of [Consensus::Params] (consensus/params.h) and
    the two switch heights of [CChainParams]. *)
Record Params := mkParams {
  powLimit : list Z;
  nPowTargetSpacing : Z;
  nPowAveragingWindow : Z;
  nPowMaxAdjustUp : Z;
  nPowMaxAdjustDown : Z;
  nUpdateDiffAlgoHeight : Z;
  FirstDifficultySwitchBlock : Z;
  SecondDifficultySwitchBlock : Z
}.

Definition AveragingWindowTimespan (p : Params) : Z :=
  i64 (nPowAveragingWindow p * nPowTargetSpacing p).
Definition MinActualTimespan (p : Params) : Z :=
  Z.quot (i64 (AveragingWindowTimespan p * (100 - nPowMaxAdjustUp p))) 100.
Definition MaxActualTimespan (p : Params) : Z :=
  Z.quot (i64 (AveragingWindowTimespan p * (100 + nPowMaxAdjustDown p))) 100.

(** [GetLastBlockIndex]: the root below [pindex]. *)
Fixpoint GetLastBlockIndex (fuel : nat) (T : gmap nat CBlockIndex) (pindex : nat) : option nat :=
  b ← T !! pindex;
  match pprev b with
  | None => Some pindex
  | Some q => match fuel with O => None | S fuel' => GetLastBlockIndex fuel' T q end
  end.

(** The averaging loop of [DigiShield]: [n] iterations are left. *)
Fixpoint DigiShield_loop (n : nat) (T : gmap nat CBlockIndex) (pindexFirst : option nat) (bnTot : list Z)
    : option (list Z * option nat) :=
  match n, pindexFirst with
  | S n', Some p =>
      b ← T !! p;
      let '(bnTmp, _, _) := SetCompact (nBits b) in
      DigiShield_loop n' T (pprev b) (add bnTot bnTmp)
  | _, _ => Some (bnTot, pindexFirst)
  end.

(** The damped and clamped timespan. *)
Definition clamp_timespan (span AvgTimespan MinSpan MaxSpan : Z) : Z :=
  let n := AvgTimespan + Z.quot (span - AvgTimespan) 4 in
  let n := if n <? 0 then MaxSpan else n in
  let n := if n <? MinSpan then MinSpan else n in
  if MaxSpan <? n then MaxSpan else n.

(** [DigiShield] *)
Definition DigiShield (T : gmap nat CBlockIndex) (pindexLast : nat)
    (AveragingWindow AvgTimespan MinSpan MaxSpan : Z) (limit : list Z) : option Z :=
  '(bnTot, pindexFirst) ← DigiShield_loop (Z.to_nat AveragingWindow) T (Some pindexLast) (of_u64 0);
  bnAvg ← div bnTot (of_u64 (u64 AveragingWindow));
  nLastBlockTime ← GetMedianTimePast T pindexLast;
  first ← pindexFirst;
  nFirstBlockTime ← GetMedianTimePast T first;
  let nActualTimespan := clamp_timespan (nLastBlockTime - nFirstBlockTime) AvgTimespan MinSpan MaxSpan in
  let bnPowLimit := UintToArith256 limit in
  bnNew ← div bnAvg (of_u64 (u64 AvgTimespan));
  let bnNew := mul32 bnNew (u32 nActualTimespan) in
  let bnNew := if gtb bnNew bnPowLimit then bnPowLimit else bnNew in
  GetCompact bnNew false.

Section NextWork.
(** [(int)(adjustedTimespan * (100 - (50 - 25 / std::sin(M_PI * 54 / 180))) / 100)] and
    [(int)(adjustedTimespan * (100 + (25 / std::sin(M_PI * 54 / 180))) / 100)],
    evaluated in [double] and truncated. *)
Context (scale_min scale_max : Z -> Z).

(** [GetNextWorkRequired]; the statements after the unconditional [return]
    (line 60) are unreachable. *)
Definition GetNextWorkRequired (T : gmap nat CBlockIndex) (pindexLast : option nat) (params : Params) : option Z :=
  last ← pindexLast;
  b ← T !! last;
  let nextHeight := nHeight b + 1 in
  if nextHeight <=? nUpdateDiffAlgoHeight params
  then GetCompact (UintToArith256 (powLimit params)) false
  else
    let averagingWindow := i32 (nPowAveragingWindow params) in
    let windowTimespan := i32 (AveragingWindowTimespan params) in
    let minTimespan := i32 (MinActualTimespan params) in
    let maxTimespan := i32 (MaxActualTimespan params) in
    if nextHeight <=? FirstDifficultySwitchBlock params
    then DigiShield T last averagingWindow windowTimespan minTimespan maxTimespan (powLimit params)
    else
      let adjustedWindow := Z.quot (averagingWindow * 10) 35 in
      let adjustedTimespan := Z.quot (windowTimespan * 10) 35 in
      DigiShield T last adjustedWindow adjustedTimespan
        (scale_min adjustedTimespan) (scale_max adjustedTimespan) (powLimit params).
End NextWork.

(** [CheckProofOfWork] *)
Definition CheckProofOfWork (hash : list Z) (bits : Z) (limit : list Z) : bool :=
  let '(bnTarget, fNegative, fOverflow) := SetCompact bits in
  if fNegative || EqualTo bnTarget 0 || fOverflow || gtb bnTarget (UintToArith256 limit) then false
  else if gtb (UintToArith256 hash) bnTarget then false
  else true.

(** ** The averaging window *)

(** The target a compact encoding denotes. *)
Definition target_of (bits : Z) : Z := let '(t, _, _) := SetCompact bits in val t.

(** The sum of the targets of [p] and the [n - 1] blocks before it. *)
Fixpoint window_sum (T : gmap nat CBlockIndex) (n : nat) (p : nat) : Z :=
  match n with
  | O => 0
  | S n' =>
      match T !! p with
      | Some b => target_of (nBits b) +
                  match pprev b with Some q => window_sum T n' q | None => 0 end
      | None => 0
      end
  end.

(** Every entry carries a 32-bit [nBits]. *)
Definition bits_ok (T : gmap nat CBlockIndex) : Prop :=
  forall p b, T !! p = Some b -> 0 <= nBits b < 2 ^ 32.

Section Window.
Context (T : gmap nat CBlockIndex) (Hwf : tree_wf T) (Hbits : bits_ok T).

Lemma target_repr p b : T !! p = Some b ->
  exists t f1 f2, SetCompact (nBits b) = (t, f1, f2) /\ repr t (target_of (nBits b)).
Proof using Hbits.
  intros Hp. destruct (SetCompact_wf _ (Hbits p b Hp)) as (t & f1 & f2 & HS & Ht & _).
  exists t, f1, f2. split; [done|]. unfold target_of. by rewrite HS.
Qed.

(** With more than [n] blocks in the chain the loop stops at the [n]-th
    ancestor, the targets of the window added up. *)
Lemma DigiShield_loop_full n :
  forall p b acc x, T !! p = Some b -> Z.of_nat n <= nHeight b -> repr acc x ->
  exists tot q, DigiShield_loop n T (Some p) acc = Some (tot, Some q) /\
    nth_parent T n p = Some q /\ is_Some (T !! q) /\ repr tot ((x + window_sum T n p) mod 2 ^ 256).
Proof using Hwf Hbits.
  induction n as [|n IH]; intros p b acc x Hp Hn Hx.
  - exists acc, p. split; [done|]. split; [done|]. split; [by eexists|].
    cbn [window_sum]. rewrite Z.add_0_r, Z.mod_small by (by eapply repr_range). done.
  - destruct (Hwf p b Hp) as [_ He]. unfold entry_ok in He.
    destruct (pprev b) as [q|] eqn:Eq; [|lia]. destruct He as (bq & Hq & Hhq & _).
    destruct (target_repr p b Hp) as (t & f1 & f2 & HS & Ht).
    cbn [DigiShield_loop nth_parent window_sum]. rewrite Hp. cbn [mbind option_bind]. rewrite HS, Eq.
    cbn [mbind option_bind].
    destruct (IH q bq (add acc t) _ Hq ltac:(lia) (repr_add _ _ _ _ Hx Ht)) as (tot & r & H1 & H2 & H3 & H4).
    exists tot, r. split; [done|]. split; [done|]. split; [done|].
    rewrite Z.add_mod_idemp_l in H4 by lia. by rewrite Z.add_assoc.
Qed.

(** With at most [n] blocks in the chain it runs off the root. *)
Lemma DigiShield_loop_short n :
  forall p b acc, T !! p = Some b -> nHeight b < Z.of_nat n ->
  exists tot, DigiShield_loop n T (Some p) acc = Some (tot, None).
Proof using Hwf.
  induction n as [|n IH]; intros p b acc Hp Hn; destruct (Hwf p b Hp) as [Hnn He]; [lia|].
  unfold entry_ok in He. cbn [DigiShield_loop]. rewrite Hp. cbn [mbind option_bind].
  destruct (SetCompact (nBits b)) as [[t ?] ?].
  destruct (pprev b) as [q|]; [|destruct n; by eexists].
  destruct He as (bq & Hq & Hhq & _). apply (IH q bq); [done|lia].
Qed.

Lemma clamp_timespan_bounds span A mn mx : mn <= mx -> mn <= clamp_timespan span A mn mx <= mx.
Proof using Type.
  intros H. unfold clamp_timespan. cbv zeta. set (n := A + _).
  destruct (n <? 0) eqn:?; [destruct (Z.ltb_spec mx mn)|destruct (Z.ltb_spec n mn)];
    match goal with |- context [mx <? ?y] => destruct (Z.ltb_spec mx y) end; lia.
Qed.

(** The retarget: the window's average target scaled by the clamped timespan,
    never above the limit. *)
Lemma DigiShield_correct p b AW A mn mx limit :
  T !! p = Some b -> uint256_ok limit ->
  0 < AW <= nHeight b -> AW < 2 ^ 31 -> 0 < A < 2 ^ 31 -> 0 <= mn <= mx -> mx < 2 ^ 31 ->
  exists q m0 m1 t c,
    nth_parent T (Z.to_nat AW) p = Some q /\
    GetMedianTimePast T p = Some m1 /\ GetMedianTimePast T q = Some m0 /\
    repr t (Z.min (le_val limit)
      ((window_sum T (Z.to_nat AW) p mod 2 ^ 256 / AW / A * clamp_timespan (m1 - m0) A mn mx) mod 2 ^ 256)) /\
    GetCompact t false = Some c /\
    DigiShield T p AW A mn mx limit = Some c.
Proof using Hwf Hbits.
  intros Hp Hlim HAW HAW2 HA Hmn Hmx.
  destruct (DigiShield_loop_full (Z.to_nat AW) p b (of_u64 0) 0 Hp) as (tot & q & HL & Hq & [bq Hbq] & Htot);
    [lia|by apply repr_of_u64|].
  rewrite Z.add_0_l in Htot.
  destruct (median_total T Hwf p b Hp) as (m1 & _ & Hm1 & _).
  destruct (median_total T Hwf q bq Hbq) as (m0 & _ & Hm0 & _).
  exists q, m0, m1.
  destruct (repr_div tot (of_u64 (u64 AW)) _ AW Htot) as (avg & Hdiv1 & Havg).
  { rewrite u64_small by lia. apply repr_of_u64. lia. } { lia. }
  destruct (repr_div avg (of_u64 (u64 A)) _ A Havg) as (nw & Hdiv2 & Hnw).
  { rewrite u64_small by lia. apply repr_of_u64. lia. } { lia. }
  pose proof (clamp_timespan_bounds (m1 - m0) A mn mx ltac:(lia)) as Hspan.
  set (span := clamp_timespan (m1 - m0) A mn mx) in *.
  assert (Hmul := repr_mul32 nw _ span Hnw ltac:(lia)).
  assert (Hl := UintToArith256_spec limit Hlim).
  set (v := (_ * span) mod 2 ^ 256) in *.
  set (t := if gtb (mul32 nw span) (UintToArith256 limit) then UintToArith256 limit else mul32 nw span).
  assert (Ht : repr t (Z.min (le_val limit) v)).
  { unfold t. rewrite (repr_gtb _ _ _ _ Hmul Hl).
    destruct (Z.ltb_spec (le_val limit) v); [rewrite Z.min_l by lia|rewrite Z.min_r by lia]; done. }
  destruct (GetCompact_SetCompact t false (proj1 Ht)) as (c & _ & Hc & _).
  exists t, c. split; [done|]. split; [done|]. split; [done|]. split; [done|]. split; [done|].
  unfold DigiShield. rewrite HL. cbn [mbind option_bind]. rewrite Hdiv1. cbn [mbind option_bind].
  rewrite Hm1. cbn [mbind option_bind]. rewrite Hm0. cbn [mbind option_bind]. rewrite Hdiv2.
  cbn [mbind option_bind]. fold span. rewrite u32_small by lia. done.
Qed.
End Window.

(** The cycle-free walk of [GetLastBlockIndex] ends at the root. *)
Lemma GetLastBlockIndex_correct T fuel p b :
  tree_wf T -> T !! p = Some b -> (Z.to_nat (nHeight b) <= fuel)%nat ->
  GetLastBlockIndex fuel T p = ancestor T p 0.
Proof.
  intros Hwf. revert p b. induction fuel as [|fuel IH]; intros p b Hp Hf;
    destruct (Hwf p b Hp) as [Hnn He]; unfold entry_ok in He;
    cbn [GetLastBlockIndex]; rewrite Hp; cbn [mbind option_bind];
    (destruct (pprev b) as [q|] eqn:Eq;
      [|destruct He as [Hz _]; rewrite <- Hz; symmetry; by apply ancestor_self]).
  - destruct He as (bq & Hq & Hhq & _). pose proof (proj1 (Hwf q bq Hq)). lia.
  - destruct He as (bq & Hq & Hhq & _). pose proof (proj1 (Hwf q bq Hq)).
    rewrite (IH q bq) by (done || lia). apply (ancestor_parent T Hwf p b q); [done|done|lia].
Qed.

(** The timespan in one formula. *)
Lemma clamp_timespan_spec span A mn mx : 0 <= mn <= mx ->
  clamp_timespan span A mn mx =
  if A + Z.quot (span - A) 4 <? 0 then mx else Z.max mn (Z.min mx (A + Z.quot (span - A) 4)).
Proof.
  intros H. unfold clamp_timespan. set (d := A + Z.quot (span - A) 4). clearbody d.
  destruct (Z.ltb_spec d 0).
  - rewrite (proj2 (Z.ltb_ge mx mn)), Z.ltb_irrefl by lia. done.
  - destruct (Z.ltb_spec d mn).
    + rewrite (proj2 (Z.ltb_ge mx mn)) by lia. lia.
    + destruct (Z.ltb_spec mx d); lia.
Qed.

(** What the rest of the node needs of a difficulty: an encoding that decodes
    without sign or overflow to a target within the limit. *)
Definition target_in_range (limit : list Z) (c : Z) : Prop :=
  exists t, SetCompact c = (t, false, false) /\ wf t /\ val t <= le_val limit.

Lemma GetCompact_in_range a limit c :
  wf a -> val a <= le_val limit -> GetCompact a false = Some c -> target_in_range limit c.
Proof.
  intros Ha Hle Hc. destruct (GetCompact_SetCompact a false Ha) as (c' & t & Hc' & _ & HS & Ht & Hv & _).
  assert (c' = c) as -> by congruence. exists t. split; [done|]. split; [done|lia].
Qed.

Lemma DigiShield_in_range T p b AW A mn mx limit :
  tree_wf T -> bits_ok T -> T !! p = Some b -> uint256_ok limit ->
  0 < AW <= nHeight b -> AW < 2 ^ 31 -> 0 < A < 2 ^ 31 -> 0 <= mn <= mx -> mx < 2 ^ 31 ->
  exists c, DigiShield T p AW A mn mx limit = Some c /\ target_in_range limit c.
Proof.
  intros Hwf Hbits Hp Hlim HAW HAW2 HA Hmn Hmx.
  destruct (DigiShield_correct T Hwf Hbits p b AW A mn mx limit) as (q & m0 & m1 & t & c & _ & _ & _ & [Ht Hv] & Hc & HD);
    try done.
  exists c. split; [done|]. apply (GetCompact_in_range t); [done|lia|done].
Qed.

(** Networks whose parameters make the retarget arithmetic meaningful. *)
Definition params_ok (p : Params) : Prop :=
  uint256_ok (powLimit p) /\
  0 < nPowAveragingWindow p < 2 ^ 31 /\
  0 < AveragingWindowTimespan p < 2 ^ 31 /\
  0 <= MinActualTimespan p <= MaxActualTimespan p /\ MaxActualTimespan p < 2 ^ 31 /\
  35 <= nPowAveragingWindow p * 10 < 2 ^ 31 /\ 35 <= AveragingWindowTimespan p * 10.

(** The main network: [consensus.powLimit], [nPowAveragingWindow], ... of
    chainparams.cpp (the switch heights are arguments). *)
Definition main_powLimit : list Z := replicate 30 255 ++ [5; 0].
Definition main_params (first second : Z) : Params :=
  {| powLimit := main_powLimit; nPowTargetSpacing := Z.quot 60 2; nPowAveragingWindow := 10080;
     nPowMaxAdjustUp := Z.quot 181 22; nPowMaxAdjustDown := Z.quot 213 16;
     nUpdateDiffAlgoHeight := 120; FirstDifficultySwitchBlock := first;
     SecondDifficultySwitchBlock := second |}.

#[global] Instance uint256_ok_dec b : Decision (uint256_ok b).
Proof. unfold uint256_ok. assert (forall x, Decision (is_byte x)) by (unfold is_byte; apply _). apply _. Defined.

Lemma main_params_ok first second : params_ok (main_params first second).
Proof.
  split; [by_decide|].
  change (AveragingWindowTimespan (main_params first second)) with 302400.
  change (MinActualTimespan (main_params first second)) with 278208.
  change (MaxActualTimespan (main_params first second)) with 341712.
  cbn [nPowAveragingWindow main_params]. lia.
Qed.

Lemma sample_bits_ok : bits_ok sample_tree.
Proof.
  assert (H : map_Forall (fun _ b => 0 <= nBits b < 2 ^ 32) sample_tree) by by_decide. exact H.
Qed.

(** ** Properties *)

(** C40: on a chain with more blocks than the averaging window, [DigiShield]
    terminates without failing and encodes the average target of the last
    [AveragingWindow] blocks (the sum and the scaled target taken modulo 2^256, as the
    256-bit words of the code do), scaled by the timespan (whose deviation is damped
    to a quarter and then clamped between the minimum and the maximum; a
    negative damped timespan counts as the maximum) and capped at the
    proof-of-work limit; the encoded target decodes without sign or overflow to a target at most that. *)
Theorem DigiShield_retarget T p b AW A mn mx limit
  (Hwf : tree_wf T) (Hbits : bits_ok T) (Hp : T !! p = Some b) (Hlim : uint256_ok limit)
  (HAW : 0 < AW <= nHeight b) (HAW2 : AW < 2 ^ 31) (HA : 0 < A < 2 ^ 31)
  (Hmn : 0 <= mn <= mx) (Hmx : mx < 2 ^ 31) :
  exists q m0 m1 c t,
    nth_parent T (Z.to_nat AW) p = Some q /\
    GetMedianTimePast T p = Some m1 /\ GetMedianTimePast T q = Some m0 /\
    DigiShield T p AW A mn mx limit = Some c /\
    SetCompact c = (t, false, false) /\ wf t /\
    let damped := A + Z.quot (m1 - m0 - A) 4 in
    let span := if damped <? 0 then mx else Z.max mn (Z.min mx damped) in
    let new := Z.min (le_val limit)
      ((window_sum T (Z.to_nat AW) p mod 2 ^ 256 / AW / A * span) mod 2 ^ 256) in
    val t <= new /\ (new - val t) * 2 ^ 15 <= new.
Proof.
  destruct (DigiShield_correct T Hwf Hbits p b AW A mn mx limit) as (q & m0 & m1 & t0 & c & Hq & H1 & H0 & Ht0 & Hc & HD);
    try done.
  destruct (GetCompact_SetCompact t0 false (proj1 Ht0)) as (c' & t & Hc' & _ & HS & Ht & Hle & Herr & _).
  assert (c' = c) as -> by congruence. destruct Ht0 as [_ Hv0]. rewrite Hv0 in Hle, Herr.
  exists q, m0, m1, c, t. split; [done|]. split; [done|]. split; [done|]. split; [done|].
  split; [done|]. split; [done|]. cbn zeta. rewrite <- clamp_timespan_spec by lia. done.
Qed.

Lemma DigiShield_retarget_witness :
  exists q c, nth_parent sample_tree 2 3 = Some q /\
    DigiShield sample_tree 3 2 60 50 80 main_powLimit = Some c.
Proof.
  destruct (DigiShield_retarget sample_tree 3 (sample_block 3 (Some 2%nat) (Some 1%nat) 3 190) 2 60 50 80 main_powLimit)
    as (q & m0 & m1 & c & t & H1 & _ & _ & H2 & _).
  - by_decide.
  - exact sample_bits_ok.
  - vm_compute. reflexivity.
  - by_decide.
  - split; [lia|vm_compute; congruence].
  - lia.
  - lia.
  - lia.
  - lia.
  - exists q, c. split; [exact H1|exact H2].
Defined.

(** On a shorter chain [DigiShield] walks off the genesis block and then
    reads the median time of the null [pindexFirst]: the call has no defined
    result whenever the tip's height is below the averaging window. *)
Theorem DigiShield_short_chain_undefined T p b AW A mn mx limit
  (Hwf : tree_wf T) (Hp : T !! p = Some b) (HAW : nHeight b < AW) :
  DigiShield T p AW A mn mx limit = None.
Proof.
  pose proof (proj1 (Hwf p b Hp)).
  destruct (DigiShield_loop_short T Hwf (Z.to_nat AW) p b (of_u64 0) Hp) as [tot HL]; [lia|].
  unfold DigiShield. rewrite HL. cbn [mbind option_bind].
  destruct (div tot _); [|done]. cbn [mbind option_bind]. by destruct (GetMedianTimePast T p).
Qed.

(** With the main network's window of 10080 blocks, height 3. *)
Lemma DigiShield_short_chain_undefined_witness :
  DigiShield sample_tree 3 10080 302400 278208 341712 main_powLimit = None.
Proof.
  apply (DigiShield_short_chain_undefined sample_tree 3 (sample_block 3 (Some 2%nat) (Some 1%nat) 3 190)).
  - by_decide.
  - vm_compute. reflexivity.
  - vm_compute. reflexivity.
Defined.

(** [CheckProofOfWork] accepts exactly the hashes at most a positive
    target that is not above the limit and is encoded without sign or
    overflow. *)
Theorem CheckProofOfWork_correct hash bits limit
  (Hh : uint256_ok hash) (Hb : 0 <= bits < 2 ^ 32) (Hl : uint256_ok limit) :
  CheckProofOfWork hash bits limit = true <->
  exists t, SetCompact bits = (t, false, false) /\
    0 < val t <= le_val limit /\ le_val hash <= val t.
Proof.
  destruct (SetCompact_wf bits Hb) as (t & f1 & f2 & HS & Ht & _).
  pose proof (wf_bound t Ht). unfold CheckProofOfWork. rewrite HS.
  rewrite (repr_EqualTo t (val t) 0) by (done || lia).
  rewrite (repr_gtb t _ (val t) (le_val limit)) by (done || by apply UintToArith256_spec).
  rewrite (repr_gtb _ t (le_val hash) (val t)) by (done || by apply UintToArith256_spec).
  split.
  - destruct f1, f2, (Z.eqb_spec (val t) 0), (Z.ltb_spec (le_val limit) (val t)),
      (Z.ltb_spec (val t) (le_val hash)); try done. intros _. exists t. split; [done|lia].
  - intros (t' & [= <- -> ->] & ? & ?).
    destruct (Z.eqb_spec (val t) 0), (Z.ltb_spec (le_val limit) (val t)),
      (Z.ltb_spec (val t) (le_val hash)); lia || done.
Qed.

Lemma CheckProofOfWork_correct_witness :
  CheckProofOfWork (replicate 32 0) 0x1f05ffff main_powLimit = true <->
  exists t, SetCompact 0x1f05ffff = (t, false, false) /\
    0 < val t <= le_val main_powLimit /\ le_val (replicate 32 0) <= val t.
Proof.
  apply (CheckProofOfWork_correct (replicate 32 0) 0x1f05ffff main_powLimit).
  - by_decide.
  - lia.
  - by_decide.
Defined.

(** With sane parameters and a long enough chain [GetNextWorkRequired]
    always returns an encoding that decodes without sign or overflow to a
    target within the proof-of-work limit, in each of the three height
    ranges; the [double] expressions are only assumed to order their results
    and keep them in [int] range. *)
Theorem GetNextWorkRequired_in_range scale_min scale_max T p b params
  (Hscale : forall x, 0 < x < 2 ^ 31 -> 0 <= scale_min x <= scale_max x /\ scale_max x < 2 ^ 31)
  (Hwf : tree_wf T) (Hbits : bits_ok T) (Hp : T !! p = Some b) (Hpar : params_ok params)
  (Hlong : nPowAveragingWindow params <= nHeight b \/ nHeight b + 1 <= nUpdateDiffAlgoHeight params) :
  exists c, GetNextWorkRequired scale_min scale_max T (Some p) params = Some c /\
    target_in_range (powLimit params) c.
Proof.
  destruct Hpar as (Hlim & HW & HA & Hmn & Hmx & HW35 & HA35).
  unfold GetNextWorkRequired. cbn [mbind option_bind]. rewrite Hp. cbn [mbind option_bind].
  destruct (UintToArith256_spec _ Hlim) as [Hlw Hlv].
  destruct (Z.leb_spec (nHeight b + 1) (nUpdateDiffAlgoHeight params)).
  { destruct (GetCompact_SetCompact _ false Hlw) as (c & _ & Hc & _). exists c. split; [done|].
    apply (GetCompact_in_range (UintToArith256 (powLimit params))); [done|lia|done]. }
  rewrite !i32_small by lia.
  destruct (Z.leb_spec (nHeight b + 1) (FirstDifficultySwitchBlock params)).
  { apply (DigiShield_in_range T p b); try done; lia. }
  pose proof (Z.quot_div_nonneg (nPowAveragingWindow params * 10) 35 ltac:(lia) ltac:(lia)) as E1.
  pose proof (Z.quot_div_nonneg (AveragingWindowTimespan params * 10) 35 ltac:(lia) ltac:(lia)) as E2.
  rewrite E1, E2.
  assert (0 < AveragingWindowTimespan params * 10 / 35 < 2 ^ 31) by
    (split; [apply Z.div_str_pos; lia|apply Z.div_lt_upper_bound; lia]).
  assert (0 < nPowAveragingWindow params * 10 / 35 <= nPowAveragingWindow params) by
    (split; [apply Z.div_str_pos; lia|apply Z.div_le_upper_bound; lia]).
  specialize (Hscale _ H1). apply (DigiShield_in_range T p b); try done; lia.
Qed.

Definition sample_params : Params :=
  {| powLimit := main_powLimit; nPowTargetSpacing := 30; nPowAveragingWindow := 4;
     nPowMaxAdjustUp := 8; nPowMaxAdjustDown := 13; nUpdateDiffAlgoHeight := 120;
     FirstDifficultySwitchBlock := 200; SecondDifficultySwitchBlock := 300 |}.

Lemma GetNextWorkRequired_in_range_witness :
  exists c, GetNextWorkRequired (fun x => x * 80 / 100) (fun x => x) sample_tree (Some 3%nat) sample_params = Some c
    /\ target_in_range main_powLimit c.
Proof.
  apply (GetNextWorkRequired_in_range (fun x => x * 80 / 100) (fun x => x) sample_tree 3
    (sample_block 3 (Some 2%nat) (Some 1%nat) 3 190) sample_params).
  - intros x Hx. split; [|lia]. split; [apply Z.div_pos; lia|apply Z.div_le_upper_bound; lia].
  - by_decide.
  - exact sample_bits_ok.
  - vm_compute. reflexivity.
  - split; [by_decide|]. change (AveragingWindowTimespan sample_params) with 120.
    change (MinActualTimespan sample_params) with 110. change (MaxActualTimespan sample_params) with 135.
    cbn [nPowAveragingWindow sample_params]. lia.
  - right. vm_compute. congruence.
Defined.

End Pow.
