(* ===== verification/Serialize.v ===== *)
(** * Serialization (serialize.h)

    Streams are byte strings.  Writing appends bytes; reading takes a prefix
    and returns the rest, or fails ([None]: the [std::ios_base::failure] the
    readers throw).  A [codec] pairs the [Serialize]/[Unserialize] overloads
    of one C++ type.  The classes [RoundTrip] and [Canonical] are the promises
    the rest of the development relies on: reading back what was written, and
    accepting no second encoding of a value. *)

From stdpp Require Import base list list_numbers numbers option.
From Stdlib Require Import ZArith Lia.
From S2P Require Import Prelude.

Local Open Scope Z_scope.

Module Serialize.

(** ** Streams and codecs *)

Definition reader (A : Type) : Type := list Z -> option (A * list Z).

Record codec (A : Type) : Type := Codec {
  Ser : A -> list Z;
  Unser : reader A
}.
Arguments Codec {A} _ _.
Arguments Ser {A} _ _.
Arguments Unser {A} _ _.

Class RoundTrip {A} (c : codec A) (P : A -> Prop) : Prop :=
  roundtrip : forall a rest, P a -> Unser c (Ser c a ++ rest) = Some (a, rest).

Class Canonical {A} (c : codec A) (P : A -> Prop) : Prop :=
  canonical : forall bs a rest, Forall is_byte bs ->
    Unser c bs = Some (a, rest) -> bs = Ser c a ++ rest /\ P a.

(** [s.read(p, n)]: fails at the end of the data. *)
Definition read (n : nat) : reader (list Z) := fun bs =>
  if decide (n <= length bs)%nat then Some (take n bs, drop n bs) else None.

(** ** Integers *)

Definition ser_writedata8 (obj : Z) : list Z := le_bytes 1 obj.
Definition ser_writedata16 (obj : Z) : list Z := le_bytes 2 obj.
Definition ser_writedata32 (obj : Z) : list Z := le_bytes 4 obj.
Definition ser_writedata64 (obj : Z) : list Z := le_bytes 8 obj.

Definition read_le (n : nat) : reader Z := fun bs =>
  '(b, r) ← read n bs; Some (le_val b, r).

Definition ser_readdata8 : reader Z := read_le 1.
Definition ser_readdata16 : reader Z := read_le 2.
Definition ser_readdata32 : reader Z := read_le 4.
Definition ser_readdata64 : reader Z := read_le 8.

Definition c_uint8 : codec Z := Codec ser_writedata8 ser_readdata8.
Definition c_uint16 : codec Z := Codec ser_writedata16 ser_readdata16.
Definition c_uint32 : codec Z := Codec ser_writedata32 ser_readdata32.
Definition c_uint64 : codec Z := Codec ser_writedata64 ser_readdata64.
Definition c_int32 : codec Z :=
  Codec ser_writedata32 (fun bs => '(x, r) ← ser_readdata32 bs; Some (i32 x, r)).
Definition c_int64 : codec Z :=
  Codec ser_writedata64 (fun bs => '(x, r) ← ser_readdata64 bs; Some (i64 x, r)).

(** A blob of a fixed number of bytes (base_blob::Serialize, CFlatData). *)
Definition c_blob (n : nat) : codec (list Z) := Codec (fun b => b) (read n).

(** ** Compact sizes *)

Definition MAX_SIZE : Z := 33554432.

Definition GetSizeOfCompactSize (nSize : Z) : Z :=
  if nSize <? 253 then 1
  else if nSize <=? 65535 then 3
  else if nSize <=? 4294967295 then 5
  else 9.

Definition WriteCompactSize (nSize : Z) : list Z :=
  if nSize <? 253 then ser_writedata8 nSize
  else if nSize <=? 65535 then ser_writedata8 253 ++ ser_writedata16 nSize
  else if nSize <=? 4294967295 then ser_writedata8 254 ++ ser_writedata32 nSize
  else ser_writedata8 255 ++ ser_writedata64 nSize.

Definition ReadCompactSize : reader Z := fun bs =>
  '(chSize, bs) ← ser_readdata8 bs;
  '(nSizeRet, bs) ←
    (if chSize <? 253 then Some (chSize, bs)
     else if chSize =? 253 then
       '(n, bs) ← ser_readdata16 bs; if (n <? 253 : bool) then None else Some (n, bs)
     else if chSize =? 254 then
       '(n, bs) ← ser_readdata32 bs; if (n <? 65536 : bool) then None else Some (n, bs)
     else
       '(n, bs) ← ser_readdata64 bs; if (n <? 4294967296 : bool) then None else Some (n, bs));
  if (nSizeRet >? MAX_SIZE : bool) then None else Some (nSizeRet, bs).

Definition c_compactsize : codec Z := Codec WriteCompactSize ReadCompactSize.

(** ** Variable-length integers (of an unsigned type of [w] bits) *)

Fixpoint GetSizeOfVarInt_loop (fuel : nat) (n nRet : Z) : Z :=
  match fuel with
  | O => nRet
  | S fuel =>
      let nRet := nRet + 1 in
      if n <=? 127 then nRet else GetSizeOfVarInt_loop fuel (Z.shiftr n 7 - 1) nRet
  end.
Definition GetSizeOfVarInt (n : Z) : Z := GetSizeOfVarInt_loop 10 n 0.

(** The array [tmp], last byte first, then written from its end. *)
Fixpoint WriteVarInt_loop (fuel : nat) (n : Z) (len : nat) (tmp : list Z) : list Z :=
  match fuel with
  | O => tmp
  | S fuel =>
      let tmp := Z.lor (Z.land n 127) (match len with O => 0 | _ => 128 end) :: tmp in
      if n <=? 127 then tmp else WriteVarInt_loop fuel (Z.shiftr n 7 - 1) (S len) tmp
  end.
Definition WriteVarInt (n : Z) : list Z := WriteVarInt_loop 10 n 0 [].

Fixpoint ReadVarInt_loop (w : Z) (bs : list Z) (n : Z) : option (Z * list Z) :=
  match bs with
  | [] => None
  | chData :: bs =>
      let n := Z.lor (Z.shiftl n 7 mod 2 ^ w) (Z.land chData 127) in
      if negb (Z.land chData 128 =? 0) then ReadVarInt_loop w bs ((n + 1) mod 2 ^ w)
      else Some (n, bs)
  end.
Definition ReadVarInt (w : Z) : reader Z := fun bs => ReadVarInt_loop w bs 0.

Definition c_varint (w : Z) : codec Z := Codec WriteVarInt (ReadVarInt w).

(** ** Vectors *)

(** [Unserialize_impl] for vectors of bytes: the data arrives in blocks of at
    most 5,000,000 bytes, so that a bogus size cannot exhaust the memory. *)
Fixpoint read_blocks (fuel : nat) (i nSize : Z) (v bs : list Z) : option (list Z * list Z) :=
  if i <? nSize then
    match fuel with
    | O => None
    | S fuel =>
        let blk := Z.min (nSize - i) (1 + 4999999) in
        '(b, bs) ← read (Z.to_nat blk) bs;
        read_blocks fuel (i + blk) nSize (v ++ b) bs
    end
  else Some (v, bs).

Definition c_bytes : codec (list Z) :=
  Codec (fun v => WriteCompactSize (Z.of_nat (length v)) ++ v)
        (fun bs => '(nSize, bs) ← ReadCompactSize bs; read_blocks 7 0 nSize [] bs).

(** [Unserialize_impl] for vectors of another type: element by element. *)
Fixpoint read_elems {A} (c : codec A) (n : nat) (v : list A) (bs : list Z) : option (list A * list Z) :=
  match n with
  | O => Some (v, bs)
  | S n => '(x, bs) ← Unser c bs; read_elems c n (v ++ [x]) bs
  end.

Definition c_vector {A} (c : codec A) : codec (list A) :=
  Codec (fun v => WriteCompactSize (Z.of_nat (length v)) ++ concat (map (Ser c) v))
        (fun bs => '(nSize, bs) ← ReadCompactSize bs; read_elems c (Z.to_nat nSize) [] bs).

(** [READWRITE(a); READWRITE(b);] and the (un)packing of a class's fields. *)
Definition c_pair {A B} (ca : codec A) (cb : codec B) : codec (A * B) :=
  Codec (fun p => Ser ca p.1 ++ Ser cb p.2)
        (fun bs => '(a, bs) ← Unser ca bs; '(b, bs) ← Unser cb bs; Some ((a, b), bs)).

Definition c_iso {A B} (f : A -> B) (g : B -> A) (c : codec A) : codec B :=
  Codec (fun b => Ser c (g b)) (fun bs => '(a, bs) ← Unser c bs; Some (f a, bs)).

(** ** Laws *)

Lemma read_app n b rest : length b = n -> read n (b ++ rest) = Some (b, rest).
Proof.
  intros <-. unfold read. rewrite decide_True by (rewrite length_app; lia).
  by rewrite take_app_length, drop_app_length.
Qed.

Lemma read_0 bs : read 0 bs = Some ([], bs).
Proof. unfold read. rewrite decide_True by lia. by rewrite drop_0. Qed.

Lemma read_inv n bs b rest : read n bs = Some (b, rest) -> bs = b ++ rest /\ length b = n.
Proof.
  unfold read. case_decide; intros [= <- <-].
  rewrite take_drop, length_take. split; [done|lia].
Qed.

Lemma read_le_app n x rest :
  0 <= x < 2 ^ (8 * Z.of_nat n) -> read_le n (le_bytes n x ++ rest) = Some (x, rest).
Proof.
  intros Hx. unfold read_le. rewrite read_app by apply length_le_bytes.
  cbn [mbind option_bind]. by rewrite le_val_bytes, Z.mod_small.
Qed.

Lemma read_le_inv n bs x rest : Forall is_byte bs -> read_le n bs = Some (x, rest) ->
  bs = le_bytes n x ++ rest /\ 0 <= x < 2 ^ (8 * Z.of_nat n).
Proof.
  unfold read_le. intros Hb H. destruct (read n bs) as [[b r]|] eqn:E; [|done].
  cbn [mbind option_bind] in H. simplify_eq. apply read_inv in E as [-> Hl].
  apply Forall_app in Hb as [Hb _]. rewrite <- Hl. rewrite le_bytes_val by done.
  split; [done|]. by apply le_val_bound.
Qed.

#[export] Instance uint8_rt : RoundTrip c_uint8 (fun x => 0 <= x < 2 ^ 8).
Proof. intros a rest H. by apply (read_le_app 1). Qed.
#[export] Instance uint16_rt : RoundTrip c_uint16 (fun x => 0 <= x < 2 ^ 16).
Proof. intros a rest H. by apply (read_le_app 2). Qed.
#[export] Instance uint32_rt : RoundTrip c_uint32 (fun x => 0 <= x < 2 ^ 32).
Proof. intros a rest H. by apply (read_le_app 4). Qed.
#[export] Instance uint64_rt : RoundTrip c_uint64 (fun x => 0 <= x < 2 ^ 64).
Proof. intros a rest H. by apply (read_le_app 8). Qed.

#[export] Instance uint8_can : Canonical c_uint8 (fun x => 0 <= x < 2 ^ 8).
Proof. intros bs a rest Hb H. by apply (read_le_inv 1). Qed.
#[export] Instance uint32_can : Canonical c_uint32 (fun x => 0 <= x < 2 ^ 32).
Proof. intros bs a rest Hb H. by apply (read_le_inv 4). Qed.
#[export] Instance uint64_can : Canonical c_uint64 (fun x => 0 <= x < 2 ^ 64).
Proof. intros bs a rest Hb H. by apply (read_le_inv 8). Qed.

Lemma i32_mod x : i32 (x mod 2 ^ 32) = i32 x.
Proof. unfold i32. by rewrite Zplus_mod_idemp_l. Qed.
Lemma i64_mod x : i64 (x mod 2 ^ 64) = i64 x.
Proof. unfold i64. by rewrite Zplus_mod_idemp_l. Qed.
Lemma mod_i32 x : i32 x mod 2 ^ 32 = x mod 2 ^ 32.
Proof. unfold i32. rewrite Zminus_mod_idemp_l. f_equal. lia. Qed.
Lemma mod_i64 x : i64 x mod 2 ^ 64 = x mod 2 ^ 64.
Proof. unfold i64. rewrite Zminus_mod_idemp_l. f_equal. lia. Qed.

#[export] Instance int32_rt : RoundTrip c_int32 (fun x => - 2 ^ 31 <= x < 2 ^ 31).
Proof.
  intros a rest H. cbn [c_int32 Ser Unser]. unfold ser_writedata32, ser_readdata32.
  rewrite <- (le_bytes_mod 4). change (8 * Z.of_nat 4) with 32.
  rewrite (read_le_app 4) by (apply Z.mod_pos_bound; lia).
  cbn [mbind option_bind]. by rewrite i32_mod, i32_small.
Qed.

#[export] Instance int64_rt : RoundTrip c_int64 (fun x => - 2 ^ 63 <= x < 2 ^ 63).
Proof.
  intros a rest H. cbn [c_int64 Ser Unser]. unfold ser_writedata64, ser_readdata64.
  rewrite <- (le_bytes_mod 8). change (8 * Z.of_nat 8) with 64.
  rewrite (read_le_app 8) by (apply Z.mod_pos_bound; lia).
  cbn [mbind option_bind]. by rewrite i64_mod, i64_small.
Qed.

#[export] Instance int32_can : Canonical c_int32 (fun x => - 2 ^ 31 <= x < 2 ^ 31).
Proof.
  intros bs a rest Hb H. cbn [c_int32 Ser Unser] in *. unfold ser_writedata32, ser_readdata32 in *.
  destruct (read_le 4 bs) as [[x r]|] eqn:E; [|done]. cbn [mbind option_bind] in H. simplify_eq.
  apply read_le_inv in E as [-> Hx]; [|done]. change (8 * Z.of_nat 4) with 32 in *.
  split; [|unfold i32; pose proof (Z.mod_pos_bound (x + 2 ^ 31) (2 ^ 32)); lia].
  rewrite <- (le_bytes_mod 4 (i32 x)). change (8 * Z.of_nat 4) with 32.
  by rewrite mod_i32, Z.mod_small.
Qed.

#[export] Instance int64_can : Canonical c_int64 (fun x => - 2 ^ 63 <= x < 2 ^ 63).
Proof.
  intros bs a rest Hb H. cbn [c_int64 Ser Unser] in *. unfold ser_writedata64, ser_readdata64 in *.
  destruct (read_le 8 bs) as [[x r]|] eqn:E; [|done]. cbn [mbind option_bind] in H. simplify_eq.
  apply read_le_inv in E as [-> Hx]; [|done]. change (8 * Z.of_nat 8) with 64 in *.
  split; [|apply i64_bound].
  rewrite <- (le_bytes_mod 8 (i64 x)). change (8 * Z.of_nat 8) with 64.
  by rewrite mod_i64, Z.mod_small.
Qed.

#[export] Instance blob_rt n : RoundTrip (c_blob n) (fun b => length b = n).
Proof. intros a rest H. by apply read_app. Qed.
#[export] Instance blob_can n : Canonical (c_blob n) (fun b => length b = n /\ Forall is_byte b).
Proof.
  intros bs a rest Hb H. apply read_inv in H as [-> Hl]. apply Forall_app in Hb as [? _]. done.
Qed.

#[export] Instance pair_rt {A B} (ca : codec A) (cb : codec B) P Q
  `{!RoundTrip ca P, !RoundTrip cb Q} : RoundTrip (c_pair ca cb) (fun p => P p.1 /\ Q p.2).
Proof.
  intros [a b] rest [Ha Hb]. cbn [c_pair Ser Unser fst snd] in *.
  rewrite <- app_assoc, roundtrip by done. cbn [mbind option_bind].
  by rewrite roundtrip.
Qed.

#[export] Instance pair_can {A B} (ca : codec A) (cb : codec B) P Q
  `{!Canonical ca P, !Canonical cb Q} : Canonical (c_pair ca cb) (fun p => P p.1 /\ Q p.2).
Proof.
  intros bs [a b] rest Hbs H. cbn [c_pair Ser Unser fst snd] in *.
  destruct (Unser ca bs) as [[a' bs1]|] eqn:E1; [|done]. cbn [mbind option_bind] in H.
  destruct (Unser cb bs1) as [[b' bs2]|] eqn:E2; [|done]. cbn [mbind option_bind] in H.
  simplify_eq. apply canonical in E1 as [-> HP]; [|done].
  apply Forall_app in Hbs as [_ Hbs]. apply canonical in E2 as [-> HQ]; [|done].
  by rewrite app_assoc.
Qed.

Lemma iso_rt {A B} (f : A -> B) (g : B -> A) (c : codec A) P (Q : B -> Prop) `{!RoundTrip c P} :
  (forall b, Q b -> P (g b) /\ f (g b) = b) -> RoundTrip (c_iso f g c) Q.
Proof.
  intros HQ b rest Hb. destruct (HQ _ Hb) as [HP E]. cbn [c_iso Ser Unser].
  rewrite roundtrip by done. cbn [mbind option_bind]. by rewrite E.
Qed.

Lemma iso_can {A B} (f : A -> B) (g : B -> A) (c : codec A) P (Q : B -> Prop) `{!Canonical c P} :
  (forall a, P a -> Q (f a) /\ g (f a) = a) -> Canonical (c_iso f g c) Q.
Proof.
  intros HQ bs b rest Hbs H. cbn [c_iso Ser Unser] in *.
  destruct (Unser c bs) as [[a r]|] eqn:E; [|done]. cbn [mbind option_bind] in H. simplify_eq.
  apply canonical in E as [-> HP]; [|done]. destruct (HQ _ HP) as [? ->]. done.
Qed.

(** ** Compact sizes: the shortest encoding, and the only one *)

#[export] Instance compactsize_rt : RoundTrip c_compactsize (fun n => 0 <= n <= MAX_SIZE).
Proof.
  intros n rest Hn. unfold MAX_SIZE in Hn.
  cbn [c_compactsize Ser Unser]. unfold WriteCompactSize, ReadCompactSize, ser_readdata8,
    ser_readdata16, ser_readdata32, ser_readdata64, ser_writedata8, ser_writedata16, ser_writedata32.
  destruct (Z.ltb_spec n 253); [|destruct (Z.leb_spec n 65535); [|destruct (Z.leb_spec n 4294967295); [|lia]]].
  - rewrite (read_le_app 1) by lia. cbn [mbind option_bind].
    rewrite (proj2 (Z.ltb_lt _ _)) by lia. cbn [mbind option_bind].
    rewrite Z.gtb_ltb, (proj2 (Z.ltb_ge _ _)) by (unfold MAX_SIZE; lia). done.
  - rewrite <- app_assoc, (read_le_app 1) by lia. cbn [mbind option_bind].
    change (253 <? 253) with false. change (253 =? 253) with true. cbn iota.
    rewrite (read_le_app 2) by lia. cbn [mbind option_bind].
    rewrite (proj2 (Z.ltb_ge _ _)) by lia. cbn [mbind option_bind].
    rewrite Z.gtb_ltb, (proj2 (Z.ltb_ge _ _)) by (unfold MAX_SIZE; lia). done.
  - rewrite <- app_assoc, (read_le_app 1) by lia. cbn [mbind option_bind].
    change (254 <? 253) with false. change (254 =? 253) with false. change (254 =? 254) with true.
    cbn iota. rewrite (read_le_app 4) by lia. cbn [mbind option_bind].
    rewrite (proj2 (Z.ltb_ge n 65536)) by lia. cbn [mbind option_bind].
    rewrite Z.gtb_ltb, (proj2 (Z.ltb_ge _ _)) by (unfold MAX_SIZE; lia). done.
Qed.

#[export] Instance compactsize_can : Canonical c_compactsize (fun n => 0 <= n <= MAX_SIZE).
Proof.
  intros bs n rest Hb H. cbn [c_compactsize Ser Unser] in *.
  unfold ReadCompactSize, ser_readdata8, ser_readdata16, ser_readdata32, ser_readdata64 in H.
  destruct (read_le 1 bs) as [[ch bs1]|] eqn:E1; [|done]. cbn [mbind option_bind] in H.
  apply read_le_inv in E1 as [-> Hch]; [|done]. apply Forall_app in Hb as [_ Hb].
  unfold WriteCompactSize, ser_writedata8, ser_writedata16, ser_writedata32, ser_writedata64.
  destruct (Z.ltb_spec ch 253).
  { cbn [mbind option_bind] in H. destruct (Z.gtb_spec ch MAX_SIZE); simplify_eq.
    rewrite (proj2 (Z.ltb_lt _ _)) by done. split; [done|]. lia. }
  destruct (Z.eqb_spec ch 253) as [->|]; [|destruct (Z.eqb_spec ch 254) as [->|]].
  - destruct (read_le 2 bs1) as [[m bs2]|] eqn:E2; [|done]. cbn [mbind option_bind] in H.
    apply read_le_inv in E2 as [-> Hm]; [|done].
    destruct (Z.ltb_spec m 253); [done|]. cbn [mbind option_bind] in H.
    destruct (Z.gtb_spec m MAX_SIZE); simplify_eq.
    rewrite (proj2 (Z.ltb_ge _ _)), (proj2 (Z.leb_le _ _)) by lia.
    split; [by rewrite <- app_assoc|lia].
  - destruct (read_le 4 bs1) as [[m bs2]|] eqn:E2; [|done]. cbn [mbind option_bind] in H.
    apply read_le_inv in E2 as [-> Hm]; [|done].
    destruct (Z.ltb_spec m 65536); [done|]. cbn [mbind option_bind] in H.
    destruct (Z.gtb_spec m MAX_SIZE); simplify_eq.
    rewrite (proj2 (Z.ltb_ge _ _)), (proj2 (Z.leb_gt n 65535)), (proj2 (Z.leb_le _ _)) by lia.
    split; [by rewrite <- app_assoc|lia].
  - destruct (read_le 8 bs1) as [[m bs2]|] eqn:E2; [|done]. cbn [mbind option_bind] in H.
    destruct (Z.ltb_spec m 4294967296); [done|]. cbn [mbind option_bind] in H.
    destruct (Z.gtb_spec m MAX_SIZE); [done|]. unfold MAX_SIZE in *. lia.
Qed.

Lemma length_WriteCompactSize n : Z.of_nat (length (WriteCompactSize n)) = GetSizeOfCompactSize n.
Proof. unfold WriteCompactSize, GetSizeOfCompactSize. by repeat case_match. Qed.

(** ** Vectors *)

(** Seven blocks of 5,000,000 bytes cover every size a compact size admits. *)
Lemma read_blocks_spec fuel : forall i n v bs,
  0 <= i <= n -> n - i <= 5000000 * Z.of_nat fuel ->
  read_blocks fuel i n v bs =
  '(b, bs) ← read (Z.to_nat (n - i)) bs; Some (v ++ b, bs).
Proof.
  induction fuel as [|fuel IH]; intros i n v bs Hi Hf; cbn [read_blocks].
  - assert (i = n) as -> by lia. rewrite Z.ltb_irrefl, Z.sub_diag.
    change (Z.to_nat 0) with 0%nat. rewrite read_0. cbn [mbind option_bind]. by rewrite app_nil_r.
  - destruct (Z.ltb_spec i n) as [Hlt|Hge].
    + set (blk := Z.min (n - i) (1 + 4999999)).
      assert (Hblk : 0 < blk <= n - i /\ n - i - blk <= 5000000 * Z.of_nat fuel) by (unfold blk; lia).
      clearbody blk. unfold read at 1. case_decide as Hd; cbn [mbind option_bind].
      * rewrite IH by lia. unfold read. rewrite length_drop.
        replace (n - (i + blk)) with (n - i - blk) by lia.
        case_decide; case_decide; cbn [mbind option_bind]; try lia; [|done].
        f_equal. rewrite <- app_assoc, drop_drop. repeat f_equal; [|lia].
        replace (Z.to_nat (n - i)) with (Z.to_nat blk + Z.to_nat (n - i - blk))%nat by lia.
        rewrite <- take_take_drop. done.
      * unfold read. rewrite decide_False by lia. done.
    + assert (i = n) as -> by lia. rewrite Z.sub_diag.
      change (Z.to_nat 0) with 0%nat. rewrite read_0. cbn [mbind option_bind]. by rewrite app_nil_r.
Qed.

Lemma Unser_bytes bs n r :
  ReadCompactSize bs = Some (n, r) -> 0 <= n <= MAX_SIZE ->
  Unser c_bytes bs = read (Z.to_nat n) r.
Proof.
  intros E Hn. cbn [c_bytes Unser]. rewrite E. cbn [mbind option_bind].
  rewrite read_blocks_spec; [|lia|unfold MAX_SIZE in *; lia].
  rewrite Z.sub_0_r. by destruct (read (Z.to_nat n) r) as [[? ?]|].
Qed.

(** A vector that fits the limit on sizes. *)
Definition size_ok {A} (v : list A) : Prop := Z.of_nat (length v) <= MAX_SIZE.

#[export] Instance bytes_rt : RoundTrip c_bytes size_ok.
Proof.
  intros v rest Hv. unfold size_ok in Hv.
  rewrite (Unser_bytes _ (Z.of_nat (length v)) (v ++ rest)); [|cbn [c_bytes Ser]|lia].
  - apply read_app. lia.
  - rewrite <- app_assoc. apply (compactsize_rt (Z.of_nat (length v))). lia.
Qed.

#[export] Instance bytes_can : Canonical c_bytes (fun v => size_ok v /\ Forall is_byte v).
Proof.
  intros bs v rest Hb H. destruct (ReadCompactSize bs) as [[n r]|] eqn:E;
    [|cbn [c_bytes Unser] in H; by rewrite E in H].
  pose proof E as E'. apply compactsize_can in E' as [-> Hn]; [|done].
  rewrite (Unser_bytes _ _ _ E) in H by done. apply read_inv in H as [-> Hl].
  apply Forall_app in Hb as [_ [Hv _]%Forall_app]. cbn [c_bytes Ser c_compactsize].
  rewrite Hl, Z2Nat.id by lia. rewrite app_assoc. unfold size_ok.
  rewrite Hl, Z2Nat.id by lia. split; [done|]. split; [lia|done].
Qed.

Lemma read_elems_rt {A} (c : codec A) P `{!RoundTrip c P} v : forall acc rest,
  Forall P v -> read_elems c (length v) acc (concat (map (Ser c) v) ++ rest) = Some (acc ++ v, rest).
Proof.
  induction v as [|x v IH]; intros acc rest Hv; cbn [length read_elems map concat].
  - by rewrite app_nil_r.
  - inversion Hv; subst. rewrite <- app_assoc, roundtrip by done. cbn [mbind option_bind].
    rewrite IH by done. by rewrite <- app_assoc.
Qed.

Lemma read_elems_can {A} (c : codec A) P `{!Canonical c P} n : forall acc bs v rest,
  Forall is_byte bs -> read_elems c n acc bs = Some (v, rest) ->
  exists w, v = acc ++ w /\ length w = n /\ Forall P w /\ bs = concat (map (Ser c) w) ++ rest.
Proof.
  induction n as [|n IH]; intros acc bs v rest Hb H; cbn [read_elems] in H.
  - simplify_eq. exists []. rewrite app_nil_r. auto.
  - destruct (Unser c bs) as [[x r]|] eqn:E; [|done]. cbn [mbind option_bind] in H.
    apply canonical in E as [-> HP]; [|done]. apply Forall_app in Hb as [_ Hb].
    apply IH in H as (w & -> & Hl & Hw & ->); [|done].
    exists (x :: w). rewrite <- app_assoc. cbn [length map concat]. rewrite Hl, <- app_assoc. auto.
Qed.

#[export] Instance vector_rt {A} (c : codec A) P `{!RoundTrip c P} :
  RoundTrip (c_vector c) (fun v => size_ok v /\ Forall P v).
Proof.
  intros v rest [Hs Hv]. unfold size_ok in Hs. cbn [c_vector Ser Unser]. rewrite <- app_assoc.
  pose proof (compactsize_rt (Z.of_nat (length v))) as E. cbn [c_compactsize Ser Unser] in E.
  rewrite E by lia. cbn [mbind option_bind]. rewrite Nat2Z.id. by apply (read_elems_rt c P).
Qed.

#[export] Instance vector_can {A} (c : codec A) P `{!Canonical c P} :
  Canonical (c_vector c) (fun v => size_ok v /\ Forall P v).
Proof.
  intros bs v rest Hb H. cbn [c_vector Ser Unser] in *.
  destruct (ReadCompactSize bs) as [[n r]|] eqn:E; [|done]. cbn [mbind option_bind] in H.
  apply compactsize_can in E as [-> Hn]; [|done]. apply Forall_app in Hb as [_ Hb].
  eapply (read_elems_can c P) in H as (w & -> & Hl & Hw & ->); [|done].
  cbn [app c_compactsize Ser]. unfold size_ok.
  rewrite Hl, Z2Nat.id by lia. rewrite <- app_assoc. split; [done|]. split; [lia|done].
Qed.

(** ** Variable-length integers *)

Lemma varint_byte n f : 0 <= n -> f = 0 \/ f = 128 ->
  Z.land (Z.lor (Z.land n 127) f) 127 = n mod 2 ^ 7 /\
  Z.land (Z.lor (Z.land n 127) f) 128 = f.
Proof.
  intros Hn Hf. change 127 with (2 ^ 7 - 1). rewrite !land_ones_mod by lia.
  pose proof (Z.mod_pos_bound n (2 ^ 7)) as Hr.
  set (r := n mod 2 ^ 7) in *. assert (Hr' : 0 <= r < 2 ^ 7) by lia. clearbody r.
  assert (Hf' : exists k, f = 2 ^ 7 * k /\ (k = 0 \/ k = 1)) by (destruct Hf; [exists 0|exists 1]; lia).
  destruct Hf' as (k & -> & Hk).
  replace (2 ^ 7 * k) with (Z.shiftl k 7) by (rewrite Z.shiftl_mul_pow2; lia).
  rewrite lor_shiftl_add by lia. split.
  - rewrite Z.mul_comm, Z.mod_add, Z.mod_small by lia. done.
  - change 128 with (2 ^ 7 * 1). rewrite Z.shiftl_mul_pow2 by lia.
    apply Z.bits_inj'. intros p Hp. rewrite Z.land_spec, testbit_concat by lia.
    replace (k * 2 ^ 7) with (0 + 2 ^ 7 * k) by lia.
    replace (2 ^ 7 * 1) with (0 + 2 ^ 7 * 1) by lia. rewrite !testbit_concat by lia.
    destruct (Z.ltb_spec p 7); [by rewrite !Z.bits_0, andb_false_r|].
    destruct Hk as [-> | ->]; [by rewrite Z.bits_0|]. apply andb_diag.
Qed.

Lemma varint_append w a r : 7 <= w -> 0 <= r < 2 ^ 7 ->
  Z.lor (Z.shiftl a 7 mod 2 ^ w) r = (2 ^ 7 * a + r) mod 2 ^ w.
Proof.
  intros Hw Hr. rewrite Z.lor_comm, Z.shiftl_mul_pow2 by lia.
  replace w with (7 + (w - 7)) by lia. rewrite Z.pow_add_r by lia.
  rewrite Z.mul_comm at 1. rewrite Zmult_mod_distr_l.
  replace (2 ^ 7 * (a mod 2 ^ (w - 7))) with (Z.shiftl (a mod 2 ^ (w - 7)) 7)
    by (rewrite Z.shiftl_mul_pow2; lia).
  rewrite lor_shiftl_add by lia.
  rewrite Z.rem_mul_r by lia.
  rewrite (Z.add_comm (2 ^ 7 * a)), (Z.mul_comm (2 ^ 7) a), Z.mod_add, Z.div_add by lia.
  rewrite (Z.mod_small r), (Z.div_small r) by lia. done.
Qed.

Lemma varint_next n : 127 < n -> 0 <= Z.shiftr n 7 - 1 /\
  2 ^ 7 * (Z.shiftr n 7 - 1 + 1) + n mod 2 ^ 7 = n.
Proof.
  intros Hn. rewrite Z.shiftr_div_pow2 by lia.
  pose proof (Z.div_mod n (2 ^ 7)). pose proof (Z.mod_pos_bound n (2 ^ 7)). lia.
Qed.

Lemma WriteVarInt_loop_read w fuel : 7 <= w -> forall n len tmp rest,
  0 <= n < 2 ^ (7 * Z.of_nat fuel) -> (0 < fuel)%nat -> (len = O -> tmp = []) ->
  ReadVarInt_loop w (WriteVarInt_loop fuel n len tmp ++ rest) 0 =
  match len with
  | O => Some (n mod 2 ^ w, rest)
  | _ => ReadVarInt_loop w (tmp ++ rest) ((n + 1) mod 2 ^ w)
  end.
Proof.
  intros Hw. induction fuel as [|fuel IH]; intros n len tmp rest Hn Hf Ht; [lia|].
  cbn [WriteVarInt_loop]. set (f := match len with O => 0 | _ => 128 end).
  assert (Hfc : f = 0 \/ f = 128) by (unfold f; destruct len; auto).
  destruct (varint_byte n f) as [E1 E2]; [lia|done|].
  pose proof (Z.mod_pos_bound n (2 ^ 7)) as Hm.
  destruct (Z.leb_spec n 127) as [Hle|Hgt].
  - cbn [app ReadVarInt_loop]. rewrite E1, E2. rewrite varint_append by lia.
    rewrite Z.mul_0_r, Z.add_0_l, (Z.mod_small n (2 ^ 7)) by lia.
    unfold f. destruct len; cbn.
    + by rewrite Ht.
    + by rewrite Zplus_mod_idemp_l.
  - destruct (varint_next n Hgt) as [Hn' En].
    rewrite IH; [| |by destruct fuel; [cbn in Hn; lia|lia]|done].
    2: { split; [done|]. replace (7 * Z.of_nat (S fuel)) with (7 + 7 * Z.of_nat fuel) in Hn by lia.
         rewrite Z.pow_add_r in Hn by lia. nia. }
    cbn [app ReadVarInt_loop]. rewrite E1, E2, varint_append by lia.
    assert (Ev : (2 ^ 7 * ((Z.shiftr n 7 - 1 + 1) mod 2 ^ w) + n mod 2 ^ 7) mod 2 ^ w = n mod 2 ^ w).
    { rewrite <- Zplus_mod_idemp_l, Zmult_mod_idemp_r, Zplus_mod_idemp_l, En. done. }
    rewrite Ev. unfold f. destruct len; cbn; [by rewrite Ht|]. by rewrite Zplus_mod_idemp_l.
Qed.

(** Reading a variable-length integer back at [w] bits yields it modulo
    [2^w], whatever the width it was written at. *)
Lemma ReadVarInt_WriteVarInt w n rest : 7 <= w -> 0 <= n < 2 ^ 64 ->
  ReadVarInt w (WriteVarInt n ++ rest) = Some (n mod 2 ^ w, rest).
Proof.
  intros Hw Hn. unfold ReadVarInt, WriteVarInt.
  apply (WriteVarInt_loop_read w 10 Hw n 0 [] rest); [|lia|done]. lia.
Qed.

Lemma WriteVarInt_loop_length fuel : forall n len tmp nRet,
  nRet = Z.of_nat (length tmp) ->
  Z.of_nat (length (WriteVarInt_loop fuel n len tmp)) = GetSizeOfVarInt_loop fuel n nRet.
Proof.
  induction fuel as [|fuel IH]; intros n len tmp nRet ->; cbn [WriteVarInt_loop GetSizeOfVarInt_loop]; [done|].
  case_match; [cbn [length]; lia|]. apply IH. cbn [length]. lia.
Qed.

(** The bytes written at [w] bits fit the buffer [tmp] of [(w + 6) / 7] bytes. *)
Lemma WriteVarInt_loop_bound k : forall fuel n len tmp,
  0 <= n < 2 ^ (7 * Z.of_nat k) -> (0 < k)%nat ->
  (length (WriteVarInt_loop fuel n len tmp) <= length tmp + k)%nat.
Proof.
  induction k as [|k IH]; intros fuel n len tmp Hn Hk; [lia|].
  destruct fuel as [|fuel]; cbn [WriteVarInt_loop]; [lia|].
  destruct (Z.leb_spec n 127) as [Hle|Hgt]; [cbn [length]; lia|].
  destruct (varint_next n Hgt) as [Hn' En]. pose proof (Z.mod_pos_bound n (2 ^ 7)).
  etransitivity; [apply IH|cbn [length]; lia].
  - split; [done|]. replace (7 * Z.of_nat (S k)) with (7 + 7 * Z.of_nat k) in Hn by lia.
    rewrite Z.pow_add_r in Hn by lia. nia.
  - destruct k; [cbn in Hn; lia|lia].
Qed.

Lemma WriteVarInt_length w n : 1 <= w -> 0 <= n < 2 ^ w ->
  Z.of_nat (length (WriteVarInt n)) <= (w + 6) / 7.
Proof.
  intros Hw Hn. unfold WriteVarInt.
  pose proof (Z.div_mod (w + 6) 7). pose proof (Z.mod_pos_bound (w + 6) 7).
  set (k := Z.to_nat ((w + 6) / 7)).
  pose proof (WriteVarInt_loop_bound k 10 n 0 []) as Hb. cbn [length] in Hb.
  enough ((length (WriteVarInt_loop 10 n 0 []) <= k)%nat) by lia.
  apply Hb; [|lia]. split; [lia|]. eapply Z.lt_le_trans; [apply Hn|].
  apply Z.pow_le_mono_r; lia.
Qed.

(** Variable-length integers round-trip.  A value of a [w]-bit unsigned
    type (w at most 64) written by [WriteVarInt] is read back unchanged by
    [ReadVarInt], leaving the rest of the stream; the encoding has exactly the
    [GetSizeOfVarInt] bytes and fits the [(w + 6) / 7]-byte buffer the writer
    fills. *)
Theorem varint_roundtrip w n rest :
  7 <= w <= 64 -> 0 <= n < 2 ^ w ->
  ReadVarInt w (WriteVarInt n ++ rest) = Some (n, rest) /\
  Z.of_nat (length (WriteVarInt n)) = GetSizeOfVarInt n /\
  Z.of_nat (length (WriteVarInt n)) <= (w + 6) / 7.
Proof.
  intros Hw Hn. split; [|split].
  - rewrite ReadVarInt_WriteVarInt; [by rewrite Z.mod_small|lia|].
    split; [lia|]. eapply Z.lt_le_trans; [apply Hn|]. apply Z.pow_le_mono_r; lia.
  - by apply WriteVarInt_loop_length.
  - apply WriteVarInt_length; lia.
Qed.

Lemma varint_roundtrip_witness :
  WriteVarInt 16512 = [128; 128; 0] /\ ReadVarInt 32 [128; 128; 0; 9] = Some (16512, [9]).
Proof.
  split; [reflexivity|].
  exact (proj1 (varint_roundtrip 32 16512 [9] ltac:(lia) ltac:(lia))).
Defined.

(** A [w]-bit integer has other encodings than its own: the bytes of
    [n + 2^w] (written from a wider type) decode to [n] as well, since
    [ReadVarInt] does not check for overflow. *)
Theorem varint_aliases w n :
  7 <= w < 64 -> 0 <= n < 2 ^ w ->
  ReadVarInt w (WriteVarInt (n + 2 ^ w)) = ReadVarInt w (WriteVarInt n) /\
  WriteVarInt (n + 2 ^ w) <> WriteVarInt n.
Proof.
  intros Hw Hn.
  assert (H64 : 2 ^ w + 2 ^ w <= 2 ^ 64).
  { replace 64 with (1 + 63) by lia. rewrite Z.pow_add_r by lia.
    assert (2 ^ w <= 2 ^ 63) by (apply Z.pow_le_mono_r; lia). lia. }
  pose proof (ReadVarInt_WriteVarInt w n []) as E1.
  pose proof (ReadVarInt_WriteVarInt w (n + 2 ^ w) []) as E2.
  pose proof (ReadVarInt_WriteVarInt 64 n []) as E3.
  pose proof (ReadVarInt_WriteVarInt 64 (n + 2 ^ w) []) as E4.
  rewrite app_nil_r in *. rewrite E1, E2 by lia. split.
  - f_equal. f_equal. replace (n + 2 ^ w) with (n + 1 * 2 ^ w) by lia. apply Z.mod_add. lia.
  - intros E. rewrite E in E4. rewrite E3 in E4 by lia.
    assert (Eq : n mod 2 ^ 64 = (n + 2 ^ w) mod 2 ^ 64) by (specialize (E4 ltac:(lia) ltac:(lia)); congruence).
    rewrite !Z.mod_small in Eq by lia. lia.
Qed.

Lemma varint_aliases_witness :
  ReadVarInt 32 [142; 254; 254; 255; 0] = ReadVarInt 32 [0].
Proof. exact (proj1 (varint_aliases 32 0 ltac:(lia) ltac:(lia))). Defined.

End Serialize.
