(* ===== verification/Script.v ===== *)
(** * Scripts (script/script.h, script/script.cpp)

    A [CScript] is its byte string; an iterator into it is an offset.
    Opcodes are the byte values of [enum opcodetype].  Modelled here: script
    numbers ([CScriptNum]), the instruction reader [GetOp2], the pushing
    operators, [FindAndDelete], signature-operation counting, the template
    tests, and the removal of the BDAP prefix of a script. *)

From stdpp Require Import base list list_numbers numbers option.
From Stdlib Require Import ZArith Lia.
From S2P Require Import Prelude.

Local Open Scope Z_scope.

Module Script.

Abbreviation CScript := (list Z) (only parsing).
Abbreviation valtype := (list Z) (only parsing).

Definition MAX_SCRIPT_ELEMENT_SIZE : Z := 520.
Definition MAX_OPS_PER_SCRIPT : Z := 201.
Definition MAX_PUBKEYS_PER_MULTISIG : Z := 20.
Definition MAX_SCRIPT_SIZE : Z := 10000.
Definition LOCKTIME_THRESHOLD : Z := 500000000.

Definition zlen {A} (l : list A) : Z := Z.of_nat (length l).

(** ** Opcodes *)

Definition OP_0 : Z := 0x00.
Definition OP_PUSHDATA1 : Z := 0x4c.
Definition OP_PUSHDATA2 : Z := 0x4d.
Definition OP_PUSHDATA4 : Z := 0x4e.
Definition OP_1NEGATE : Z := 0x4f.
Definition OP_RESERVED : Z := 0x50.
Definition OP_1 : Z := 0x51.
Definition OP_16 : Z := 0x60.
Definition OP_NOP : Z := 0x61.
Definition OP_VER : Z := 0x62.
Definition OP_IF : Z := 0x63.
Definition OP_NOTIF : Z := 0x64.
Definition OP_VERIF : Z := 0x65.
Definition OP_VERNOTIF : Z := 0x66.
Definition OP_ELSE : Z := 0x67.
Definition OP_ENDIF : Z := 0x68.
Definition OP_VERIFY : Z := 0x69.
Definition OP_RETURN : Z := 0x6a.
Definition OP_TOALTSTACK : Z := 0x6b.
Definition OP_FROMALTSTACK : Z := 0x6c.
Definition OP_2DROP : Z := 0x6d.
Definition OP_2DUP : Z := 0x6e.
Definition OP_3DUP : Z := 0x6f.
Definition OP_2OVER : Z := 0x70.
Definition OP_2ROT : Z := 0x71.
Definition OP_2SWAP : Z := 0x72.
Definition OP_IFDUP : Z := 0x73.
Definition OP_DEPTH : Z := 0x74.
Definition OP_DROP : Z := 0x75.
Definition OP_DUP : Z := 0x76.
Definition OP_NIP : Z := 0x77.
Definition OP_OVER : Z := 0x78.
Definition OP_PICK : Z := 0x79.
Definition OP_ROLL : Z := 0x7a.
Definition OP_ROT : Z := 0x7b.
Definition OP_SWAP : Z := 0x7c.
Definition OP_TUCK : Z := 0x7d.
Definition OP_CAT : Z := 0x7e.
Definition OP_SUBSTR : Z := 0x7f.
Definition OP_LEFT : Z := 0x80.
Definition OP_RIGHT : Z := 0x81.
Definition OP_SIZE : Z := 0x82.
Definition OP_INVERT : Z := 0x83.
Definition OP_AND : Z := 0x84.
Definition OP_OR : Z := 0x85.
Definition OP_XOR : Z := 0x86.
Definition OP_EQUAL : Z := 0x87.
Definition OP_EQUALVERIFY : Z := 0x88.
Definition OP_1ADD : Z := 0x8b.
Definition OP_1SUB : Z := 0x8c.
Definition OP_2MUL : Z := 0x8d.
Definition OP_2DIV : Z := 0x8e.
Definition OP_NEGATE : Z := 0x8f.
Definition OP_ABS : Z := 0x90.
Definition OP_NOT : Z := 0x91.
Definition OP_0NOTEQUAL : Z := 0x92.
Definition OP_ADD : Z := 0x93.
Definition OP_SUB : Z := 0x94.
Definition OP_MUL : Z := 0x95.
Definition OP_DIV : Z := 0x96.
Definition OP_MOD : Z := 0x97.
Definition OP_LSHIFT : Z := 0x98.
Definition OP_RSHIFT : Z := 0x99.
Definition OP_BOOLAND : Z := 0x9a.
Definition OP_BOOLOR : Z := 0x9b.
Definition OP_NUMEQUAL : Z := 0x9c.
Definition OP_NUMEQUALVERIFY : Z := 0x9d.
Definition OP_NUMNOTEQUAL : Z := 0x9e.
Definition OP_LESSTHAN : Z := 0x9f.
Definition OP_GREATERTHAN : Z := 0xa0.
Definition OP_LESSTHANOREQUAL : Z := 0xa1.
Definition OP_GREATERTHANOREQUAL : Z := 0xa2.
Definition OP_MIN : Z := 0xa3.
Definition OP_MAX : Z := 0xa4.
Definition OP_WITHIN : Z := 0xa5.
Definition OP_RIPEMD160 : Z := 0xa6.
Definition OP_SHA1 : Z := 0xa7.
Definition OP_SHA256 : Z := 0xa8.
Definition OP_HASH160 : Z := 0xa9.
Definition OP_HASH256 : Z := 0xaa.
Definition OP_CODESEPARATOR : Z := 0xab.
Definition OP_CHECKSIG : Z := 0xac.
Definition OP_CHECKSIGVERIFY : Z := 0xad.
Definition OP_CHECKMULTISIG : Z := 0xae.
Definition OP_CHECKMULTISIGVERIFY : Z := 0xaf.
Definition OP_NOP1 : Z := 0xb0.
Definition OP_CHECKLOCKTIMEVERIFY : Z := 0xb1.
Definition OP_CHECKSEQUENCEVERIFY : Z := 0xb2.
Definition OP_NOP4 : Z := 0xb3.
Definition OP_NOP10 : Z := 0xb9.
Definition OP_MINT : Z := 0xc0.
Definition OP_REWARD_MASTERNODE : Z := 0xc3.
Definition OP_REWARD_MINING : Z := 0xc4.
Definition OP_BDAP_REVOKE : Z := 0xc9.
Definition OP_BDAP_NEW : Z := 0x01.
Definition OP_BDAP_DELETE : Z := 0x02.
Definition OP_BDAP_EXPIRE : Z := 0x03.
Definition OP_BDAP_MODIFY : Z := 0x04.
Definition OP_BDAP_MOVE : Z := 0x05.
Definition OP_BDAP_ACCOUNT_ENTRY : Z := 0x06.
Definition OP_BDAP_LINK_REQUEST : Z := 0x07.
Definition OP_BDAP_LINK_ACCEPT : Z := 0x08.
Definition OP_BDAP_AUDIT : Z := 0x09.
Definition OP_BDAP_CERTIFICATE : Z := 0x0a.
Definition OP_BDAP_IDENTITY : Z := 0x0b.
Definition OP_BDAP_ID_VERIFICATION : Z := 0x0c.
Definition OP_BDAP_SIDECHAIN : Z := 0x0d.
Definition OP_BDAP_SIDECHAIN_CHECKPOINT : Z := 0x0e.
Definition OP_BDAP_ASSET : Z := 0x0f.
Definition OP_INVALIDOPCODE : Z := 0xff.

(** ** Script numbers

    A [CScriptNum] is its 64-bit value [m_value].  Construction from a stack
    element fails with [scriptnum_error]. *)

Fixpoint serialize_loop (fuel : nat) (absvalue : Z) : list Z :=
  match fuel with
  | O => []
  | S fuel => if absvalue =? 0 then [] else Z.land absvalue 255 :: serialize_loop fuel (Z.shiftr absvalue 8)
  end.

(** [CScriptNum::serialize]. *)
Definition serialize (value : Z) : valtype :=
  if value =? 0 then []
  else
    let neg := value <? 0 in
    let absvalue := u64 (if neg then - value else value) in
    let result := serialize_loop 8 absvalue in
    if negb (Z.land (List.last result 0) 128 =? 0) then result ++ [if neg then 128 else 0]
    else if neg then removelast result ++ [Z.lor (List.last result 0) 128]
    else result.

(** [CScriptNum::set_vch]; the shifts stay inside 64 bits for the at most
    five bytes the constructor admits. *)
Fixpoint set_vch_loop (i : Z) (vch : list Z) (result : Z) : Z :=
  match vch with
  | [] => result
  | b :: vch => set_vch_loop (i + 1) vch (Z.lor result (Z.shiftl b (8 * i)))
  end.

Definition set_vch (vch : valtype) : Z :=
  match vch with
  | [] => 0
  | _ =>
      let result := set_vch_loop 0 vch 0 in
      if negb (Z.land (List.last vch 0) 128 =? 0) then
        - (Z.land result (Z.lnot (Z.shiftl 128 (8 * (zlen vch - 1)))))
      else result
  end.

Definition nDefaultMaxNumSize : Z := 4.

(** The constructor of [CScriptNum] from a byte vector; [None] is the
    exception. *)
Definition CScriptNum (vch : valtype) (fRequireMinimal : bool) (nMaxNumSize : Z) : option Z :=
  if zlen vch >? nMaxNumSize then None
  else if fRequireMinimal && (zlen vch >? 0) && (Z.land (List.last vch 0) 127 =? 0)
          && ((zlen vch <=? 1) || (Z.land (nth (length vch - 2) vch 0) 128 =? 0))
  then None
  else Some (set_vch vch).

Definition INT_MAX : Z := 2147483647.
Definition INT_MIN : Z := -2147483648.

Definition getint (m_value : Z) : Z :=
  if m_value >? INT_MAX then INT_MAX
  else if m_value <? INT_MIN then INT_MIN
  else m_value.

(** ** Reading instructions

    [GetOp2] returns its success flag, the new value of the iterator (which
    moves also when it fails), the opcode and the pushed data. *)

Record opread : Type := OpRead {
  op_ok : bool;
  op_pc : nat;
  op_code : Z;
  op_data : valtype
}.

(** The size of the immediate operand: success flag, size, iterator. *)
Definition GetOp2_size (script : CScript) (pc : nat) (opcode : Z) : bool * Z * nat :=
  let avail := zlen script - Z.of_nat pc in
  if opcode <? OP_PUSHDATA1 then (true, opcode, pc)
  else if opcode =? OP_PUSHDATA1 then
    if avail <? 1 then (false, 0, pc) else (true, nth pc script 0, S pc)
  else if opcode =? OP_PUSHDATA2 then
    if avail <? 2 then (false, 0, pc) else (true, le_val (take 2 (drop pc script)), (pc + 2)%nat)
  else
    if avail <? 4 then (false, 0, pc) else (true, le_val (take 4 (drop pc script)), (pc + 4)%nat).

Definition GetOp2 (script : CScript) (pc : nat) : opread :=
  if (length script <=? pc)%nat then OpRead false pc OP_INVALIDOPCODE []
  else
    let opcode := nth pc script 0 in
    let pc := S pc in
    if opcode <=? OP_PUSHDATA4 then
      let '(ok, nSize, pc) := GetOp2_size script pc opcode in
      if negb ok then OpRead false pc OP_INVALIDOPCODE []
      else if zlen script - Z.of_nat pc <? nSize then OpRead false pc OP_INVALIDOPCODE []
      else OpRead true (pc + Z.to_nat nSize) opcode (take (Z.to_nat nSize) (drop pc script))
    else OpRead true pc opcode [].

(** [DecodeOP_N]/[EncodeOP_N]; [None] is a failed assertion. *)
Definition DecodeOP_N (opcode : Z) : option Z :=
  if opcode =? OP_0 then Some 0
  else if (OP_1 <=? opcode) && (opcode <=? OP_16) then Some (opcode - (OP_1 - 1))
  else None.

Definition EncodeOP_N (n : Z) : option Z :=
  if (0 <=? n) && (n <=? 16) then Some (if n =? 0 then OP_0 else OP_1 + n - 1) else None.

(** ** Writing instructions *)

(** [operator<<(opcodetype)]; [None] is the exception. *)
Definition push_opcode (s : CScript) (opcode : Z) : option CScript :=
  if (opcode <? 0) || (opcode >? 255) then None else Some (s ++ [opcode]).

(** [operator<<(const std::vector<unsigned char>&)]. *)
Definition push_bytes (s : CScript) (b : valtype) : CScript :=
  let n := zlen b in
  (if n <? OP_PUSHDATA1 then s ++ [u8 n]
   else if n <=? 255 then s ++ [OP_PUSHDATA1] ++ [u8 n]
   else if n <=? 65535 then s ++ [OP_PUSHDATA2] ++ le_bytes 2 n
   else s ++ [OP_PUSHDATA4] ++ le_bytes 4 n) ++ b.

Definition push_int64 (s : CScript) (n : Z) : CScript :=
  if (n =? -1) || ((n >=? 1) && (n <=? 16)) then s ++ [u8 (n + (OP_1 - 1))]
  else if n =? 0 then s ++ [OP_0]
  else push_bytes s (serialize n).

(** ** [FindAndDelete] *)

Definition matches_at (script b : list Z) (pc : nat) : bool :=
  (length b <=? length script - pc)%nat && bool_decide (take (length b) (drop pc script) = b).

Fixpoint skip_matches (fuel : nat) (script b : list Z) (pc : nat) (nFound : Z) : nat * Z :=
  match fuel with
  | O => (pc, nFound)
  | S fuel =>
      if matches_at script b pc then skip_matches fuel script b (pc + length b) (nFound + 1)
      else (pc, nFound)
  end.

(** The [do ... while (GetOp(pc, opcode))] loop: the kept bytes, the position
    [pc2] and the count. *)
Fixpoint FindAndDelete_loop (fuel : nat) (script b result : list Z) (pc pc2 : nat) (nFound : Z)
  : list Z * nat * Z :=
  match fuel with
  | O => (result, pc2, nFound)
  | S fuel =>
      let result := result ++ take (pc - pc2) (drop pc2 script) in
      let '(pc, nFound) := skip_matches (length script) script b pc nFound in
      let r := GetOp2 script pc in
      if op_ok r then FindAndDelete_loop fuel script b result (op_pc r) pc nFound
      else (result, pc, nFound)
  end.

Definition FindAndDelete (script b : CScript) : CScript * Z :=
  match b with
  | [] => (script, 0)
  | _ =>
      let '(result, pc2, nFound) := FindAndDelete_loop (S (length script)) script b [] 0 0 0 in
      if nFound >? 0 then (result ++ drop pc2 script, nFound) else (script, nFound)
  end.

Fixpoint Find_loop (fuel : nat) (script : CScript) (op : Z) (pc : nat) (nFound : Z) : Z :=
  match fuel with
  | O => nFound
  | S fuel =>
      if (pc =? length script)%nat then nFound
      else let r := GetOp2 script pc in
           if op_ok r then
             Find_loop fuel script op (op_pc r) (if op_code r =? op then nFound + 1 else nFound)
           else nFound
  end.
Definition Find (script : CScript) (op : Z) : Z := Find_loop (length script) script op 0 0.

(** ** Removing the BDAP part of a script *)

Definition IsBDAPOp (op : Z) : bool :=
  (op =? OP_BDAP_NEW) || (op =? OP_BDAP_DELETE) || (op =? OP_BDAP_EXPIRE) || (op =? OP_BDAP_REVOKE) ||
  (op =? OP_BDAP_MODIFY) || (op =? OP_BDAP_MOVE) || (op =? OP_BDAP_ACCOUNT_ENTRY) ||
  (op =? OP_BDAP_LINK_REQUEST) || (op =? OP_BDAP_LINK_ACCEPT) || (op =? OP_BDAP_AUDIT) ||
  (op =? OP_BDAP_CERTIFICATE) || (op =? OP_BDAP_IDENTITY) || (op =? OP_BDAP_ID_VERIFICATION) ||
  (op =? OP_BDAP_SIDECHAIN) || (op =? OP_BDAP_SIDECHAIN_CHECKPOINT) || (op =? OP_BDAP_ASSET).

Definition is_drop (opcode : Z) : bool := (opcode =? OP_DROP) || (opcode =? OP_2DROP).

(** The loop that collects the pushes up to the first drop. *)
Fixpoint collect_pushes (fuel : nat) (script : CScript) (pc : nat) (vvch : list valtype)
  : option (list valtype * nat) :=
  match fuel with
  | O => None
  | S fuel =>
      let r := GetOp2 script pc in
      if negb (op_ok r) then None
      else if is_drop (op_code r) then Some (vvch, op_pc r)
      else if negb ((0 <=? op_code r) && (op_code r <=? OP_PUSHDATA4)) then None
      else collect_pushes fuel script (op_pc r) (vvch ++ [op_data r])
  end.

(** The loop that moves past any further drops; it has read one instruction
    beyond them when it stops. *)
Fixpoint skip_drops (fuel : nat) (script : CScript) (pc : nat) : nat :=
  match fuel with
  | O => pc
  | S fuel =>
      let r := GetOp2 script pc in
      if negb (op_ok r) then op_pc r
      else if is_drop (op_code r) then skip_drops fuel script (op_pc r)
      else op_pc r
  end.

(** [DecodeBDAPScript]: the two BDAP codes, the pushed values and the final
    iterator (after [pc--]). *)
Definition DecodeBDAPScript (script : CScript) : option (Z * Z * list valtype * nat) :=
  let r1 := GetOp2 script 0 in
  if negb (op_ok r1) then None
  else if (op_code r1 <? OP_1) || (op_code r1 >? OP_16) then None
  else
    op1 ← DecodeOP_N (op_code r1);
    if negb ((op1 =? OP_BDAP_NEW) || (op1 =? OP_BDAP_DELETE) || (op1 =? OP_BDAP_EXPIRE) ||
             (op1 =? OP_BDAP_REVOKE) || (op1 =? OP_BDAP_MODIFY) || (op1 =? OP_BDAP_MOVE)) then None
    else
      let r2 := GetOp2 script (op_pc r1) in
      if negb (op_ok r2) then None
      else if (op_code r2 <? OP_1) || (op_code r2 >? OP_16) then None
      else
        op2 ← DecodeOP_N (op_code r2);
        if negb (IsBDAPOp op2) then None
        else
          '(vvch, pc) ← collect_pushes (length script) script (op_pc r2) [];
          Some (op1, op2, vvch, (skip_drops (length script) script pc - 1)%nat).

Definition RemoveBDAPScript (scriptIn : CScript) : option CScript :=
  '(_, _, _, pc) ← DecodeBDAPScript scriptIn;
  Some (drop pc scriptIn).

(** ** Counting signature operations *)

Definition sigops_of (fAccurate : bool) (lastOpcode opcode : Z) : Z :=
  if (opcode =? OP_CHECKSIG) || (opcode =? OP_CHECKSIGVERIFY) then 1
  else if (opcode =? OP_CHECKMULTISIG) || (opcode =? OP_CHECKMULTISIGVERIFY) then
    if fAccurate && (OP_1 <=? lastOpcode) && (lastOpcode <=? OP_16)
    then lastOpcode - (OP_1 - 1)
    else MAX_PUBKEYS_PER_MULTISIG
  else 0.

Fixpoint GetSigOpCount_loop (fuel : nat) (script : CScript) (fAccurate : bool) (pc : nat)
  (lastOpcode n : Z) : Z :=
  match fuel with
  | O => n
  | S fuel =>
      if (length script <=? pc)%nat then n
      else
        let r := GetOp2 script pc in
        if negb (op_ok r) then n
        else GetSigOpCount_loop fuel script fAccurate (op_pc r) (op_code r)
               (u32 (n + sigops_of fAccurate lastOpcode (op_code r)))
  end.

Definition GetSigOpCount (script : CScript) (fAccurate : bool) : Z :=
  GetSigOpCount_loop (length script) script fAccurate 0 OP_INVALIDOPCODE 0.

(** The template tests.  Each first computes the script without its BDAP part
    into a local variable and then tests [*this]. *)
Definition IsPayToPublicKeyHash (this : CScript) : bool :=
  (zlen this =? 25) && (nth 0 this 0 =? OP_DUP) && (nth 1 this 0 =? OP_HASH160) &&
  (nth 2 this 0 =? 20) && (nth 23 this 0 =? OP_EQUALVERIFY) && (nth 24 this 0 =? OP_CHECKSIG).

Definition IsPayToScriptHash (this : CScript) : bool :=
  (zlen this =? 23) && (nth 0 this 0 =? OP_HASH160) && (nth 1 this 0 =? 20) &&
  (nth 22 this 0 =? OP_EQUAL).

Definition IsPayToPublicKey (this : CScript) : bool :=
  if zlen this =? 35 then
    ((nth 1 this 0 =? 2) || (nth 1 this 0 =? 3)) && (nth 34 this 0 =? OP_CHECKSIG)
  else if zlen this =? 67 then (nth 1 this 0 =? 4) && (nth 66 this 0 =? OP_CHECKSIG)
  else false.

(** The data of the last instruction of a script of pushes; [None] when the
    loop of [GetSigOpCount(const CScript&)] returns 0. *)
Fixpoint last_push (fuel : nat) (script : CScript) (pc : nat) (data : valtype) : option valtype :=
  match fuel with
  | O => Some data
  | S fuel =>
      if (length script <=? pc)%nat then Some data
      else
        let r := GetOp2 script pc in
        if negb (op_ok r) then None
        else if op_code r >? OP_16 then None
        else last_push fuel script (op_pc r) (op_data r)
  end.

Definition GetSigOpCount_P2SH (this scriptSig : CScript) : Z :=
  if negb (IsPayToScriptHash this) then GetSigOpCount this true
  else match last_push (length scriptSig) scriptSig 0 [] with
       | None => 0
       | Some data => GetSigOpCount data true
       end.

Fixpoint IsPushOnly_loop (fuel : nat) (script : CScript) (pc : nat) : bool :=
  match fuel with
  | O => true
  | S fuel =>
      if (length script <=? pc)%nat then true
      else
        let r := GetOp2 script pc in
        if negb (op_ok r) then false
        else if op_code r >? OP_16 then false
        else IsPushOnly_loop fuel script (op_pc r)
  end.
Definition IsPushOnly (script : CScript) : bool := IsPushOnly_loop (length script) script 0.

Definition IsUnspendable (script : CScript) : bool :=
  ((zlen script >? 0) && (nth 0 script 0 =? OP_RETURN)) || (zlen script >? MAX_SCRIPT_SIZE).

(** Fluid protocol instructions; [None] is the exception. *)
Definition MINT_TX : Z := 1.
Definition MASTERNODE_MODFIY_TX : Z := 2.
Definition MINING_MODIFY_TX : Z := 3.
Definition BDAP_REVOKE_TX : Z := 6.

Definition IsProtocolInstruction (script : CScript) (code : Z) : option bool :=
  let starts op := (zlen script >? 0) && (nth 0 script 0 =? op) in
  if code =? MINT_TX then Some (starts OP_MINT)
  else if code =? MASTERNODE_MODFIY_TX then Some (starts OP_REWARD_MASTERNODE)
  else if code =? MINING_MODIFY_TX then Some (starts OP_REWARD_MINING)
  else if code =? BDAP_REVOKE_TX then Some (starts OP_BDAP_REVOKE)
  else None.

(** * Theorems *)

(** *** Script numbers are sign and magnitude in minimal little-endian bytes *)

(** The digits of a magnitude: bytes with no zero on top. *)
Definition digits (d : list Z) : Prop := Forall is_byte d /\ (d = [] \/ List.last d 0 <> 0).

Lemma last_snoc_std (l : list Z) b d : List.last (l ++ [b]) d = b.
Proof. apply last_last. Qed.

Lemma le_val_app a b : le_val (a ++ b) = le_val a + 2 ^ (8 * zlen a) * le_val b.
Proof.
  unfold zlen. induction a as [|x a IH]; cbn [app le_val length].
  - cbn [Z.of_nat]. rewrite Z.mul_0_r, Z.pow_0_r. lia.
  - rewrite IH. replace (8 * Z.of_nat (S (length a))) with (8 + 8 * Z.of_nat (length a)) by lia.
    rewrite Z.pow_add_r by lia. lia.
Qed.

Lemma digits_tail x r : digits (x :: r) -> digits r.
Proof.
  intros [Hb Hl]. inversion Hb; subst. split; [done|].
  destruct r as [|y r]; [by left|right]. destruct Hl as [?|Hl]; done.
Qed.

Lemma digits_pos d : digits d -> d <> [] -> 0 < le_val d.
Proof.
  induction d as [|x r IH]; intros Hd Hne; [done|]. pose proof Hd as [Hb Hl].
  inversion Hb as [|?? Hx Hr]; subst. unfold is_byte in Hx. cbn [le_val].
  pose proof (le_val_bound r Hr). destruct r as [|y r].
  - destruct Hl as [?|Hl]; [done|]. cbn in *. lia.
  - specialize (IH (digits_tail _ _ Hd) ltac:(done)). lia.
Qed.

Lemma byte_split x v : is_byte x ->
  Z.land (x + 2 ^ 8 * v) 255 = x /\ Z.shiftr (x + 2 ^ 8 * v) 8 = v.
Proof.
  unfold is_byte. intros Hx. change 255 with (2 ^ 8 - 1). rewrite land_ones_mod, Z.shiftr_div_pow2 by lia.
  rewrite (Z.mul_comm (2 ^ 8)), Z.mod_add, Z.div_add, Z.mod_small, Z.div_small by lia. done.
Qed.

Lemma serialize_loop_digits fuel : forall d, digits d -> (length d <= fuel)%nat ->
  serialize_loop fuel (le_val d) = d.
Proof.
  induction fuel as [|fuel IH]; intros d Hd Hl; [by destruct d; [|cbn in Hl; lia]|].
  destruct d as [|x r]; [done|]. cbn [serialize_loop].
  pose proof (digits_pos _ Hd ltac:(done)). rewrite (proj2 (Z.eqb_neq _ _)) by lia.
  pose proof Hd as [Hb _]. inversion Hb; subst. cbn [le_val].
  destruct (byte_split x (le_val r)) as [-> ->]; [done|].
  f_equal. apply IH; [by eapply digits_tail|cbn in Hl; lia].
Qed.

Lemma digits_exist fuel : forall m, 0 <= m < 2 ^ (8 * Z.of_nat fuel) ->
  exists d, digits d /\ (length d <= fuel)%nat /\ le_val d = m.
Proof.
  induction fuel as [|fuel IH]; intros m Hm.
  - exists []. cbn in *. split; [by split; [|left]|]. split; lia.
  - destruct (decide (m = 0)) as [->|Hnz]; [exists []; split; [by split; [|left]|]; cbn; split; lia|].
    replace (8 * Z.of_nat (S fuel)) with (8 + 8 * Z.of_nat fuel) in Hm by lia.
    rewrite Z.pow_add_r in Hm by lia.
    pose proof (Z.div_mod m (2 ^ 8)). pose proof (Z.mod_pos_bound m (2 ^ 8)).
    destruct (IH (m / 2 ^ 8)) as (d & Hd & Hl & Ev); [nia|].
    exists (m mod 2 ^ 8 :: d). cbn [le_val length]. rewrite Ev. split; [|split; lia].
    destruct Hd as [Hb Hlast]. split; [constructor; [unfold is_byte; lia|done]|right].
    destruct d as [|y d]; [cbn in *; lia|]. destruct Hlast as [?|Hlast]; done.
Qed.

Lemma set_vch_loop_val vch : forall i r,
  0 <= i -> 0 <= r < 2 ^ (8 * i) -> Forall is_byte vch ->
  set_vch_loop i vch r = r + 2 ^ (8 * i) * le_val vch.
Proof.
  induction vch as [|b vch IH]; intros i r Hi Hr Hb; cbn [set_vch_loop le_val]; [lia|].
  inversion Hb as [|?? Hx Hbs]; subst. unfold is_byte in Hx.
  rewrite lor_shiftl_add by lia.
  rewrite IH; [|lia| |done].
  - replace (8 * (i + 1)) with (8 * i + 8) by lia. rewrite Z.pow_add_r by lia. lia.
  - replace (8 * (i + 1)) with (8 * i + 8) by lia. rewrite Z.pow_add_r by lia. nia.
Qed.

Lemma land_128_byte b : is_byte b -> (Z.land b 128 =? 0) = (b <? 128).
Proof.
  unfold is_byte. intros Hb. change 128 with (2 ^ 7) at 1. rewrite land_pow2_eqb by lia.
  destruct (Z.ltb_spec b 128).
  - rewrite (testbit_above b 7) by lia. done.
  - replace b with (b - 128 + 2 ^ 7 * 1) by lia. rewrite testbit_concat by lia. done.
Qed.

Lemma land_127_byte b : is_byte b -> Z.land b 127 = if b <? 128 then b else b - 128.
Proof.
  unfold is_byte. intros Hb. change 127 with (2 ^ 7 - 1). rewrite land_ones_mod by lia.
  destruct (Z.ltb_spec b 128); [by rewrite Z.mod_small by lia|].
  replace b with (b - 128 + 1 * 2 ^ 7) at 1 by lia. rewrite Z.mod_add, Z.mod_small by lia. done.
Qed.

Lemma clear_bit x k : 0 <= k -> Z.testbit x k = false -> Z.land (x + 2 ^ k) (Z.lnot (2 ^ k)) = x.
Proof.
  intros Hk Hb. rewrite <- lor_pow2 by done. apply Z.bits_inj'. intros p Hp.
  rewrite Z.land_spec, Z.lor_spec, Z.lnot_spec by lia.
  destruct (decide (p = k)) as [->|].
  - by rewrite Hb, Z.pow2_bits_true by lia.
  - rewrite Z.pow2_bits_false by lia. by rewrite orb_false_r, andb_true_r.
Qed.

(** What a vector with last byte [b] decodes to. *)
Lemma set_vch_snoc l b : Forall is_byte l -> is_byte b ->
  set_vch (l ++ [b]) =
  if b <? 128 then le_val l + 2 ^ (8 * zlen l) * b
  else - (le_val l + 2 ^ (8 * zlen l) * (b - 128)).
Proof.
  intros Hl Hb. assert (Hlb : Forall is_byte (l ++ [b])) by (apply Forall_app; auto).
  unfold set_vch. destruct (l ++ [b]) eqn:E; [by destruct l|]. rewrite <- E in *. clear E.
  rewrite last_snoc_std, land_128_byte by done.
  rewrite set_vch_loop_val by (cbn; done || lia). rewrite Z.mul_0_r, Z.pow_0_r, Z.add_0_l, Z.mul_1_l.
  rewrite le_val_app. cbn [le_val]. rewrite Z.mul_0_r, Z.add_0_r.
  unfold is_byte in Hb. destruct (Z.ltb_spec b 128); [done|]. cbn [negb]. f_equal.
  unfold zlen. rewrite length_app. cbn [length].
  replace (8 * (Z.of_nat (length l + 1) - 1)) with (8 * Z.of_nat (length l)) by lia.
  set (k := 8 * Z.of_nat (length l)). assert (Hk : 0 <= k) by lia.
  pose proof (le_val_bound l Hl) as Hv. fold k in Hv.
  replace (Z.shiftl 128 k) with (2 ^ (k + 7)) by (rewrite Z.shiftl_mul_pow2, Z.pow_add_r; lia).
  replace (le_val l + 2 ^ k * b) with (le_val l + 2 ^ k * (b - 128) + 2 ^ (k + 7))
    by (rewrite Z.pow_add_r by lia; lia).
  apply clear_bit; [lia|]. rewrite testbit_concat by lia.
  destruct (Z.ltb_spec (k + 7) k); [lia|]. apply testbit_above with 7; lia.
Qed.

(** The minimality test on a vector with last byte [b]. *)
Lemma CScriptNum_snoc l b sz : Forall is_byte l -> is_byte b -> zlen l + 1 <= sz ->
  CScriptNum (l ++ [b]) true sz =
  if ((b =? 0) || (b =? 128)) && (List.last l 0 <? 128) then None else Some (set_vch (l ++ [b])).
Proof.
  intros Hl Hb Hsz. unfold CScriptNum, zlen in *. rewrite length_app. cbn [length].
  rewrite (Z.gtb_ltb _ sz), (proj2 (Z.ltb_ge sz _)) by lia.
  rewrite (Z.gtb_ltb _ 0), (proj2 (Z.ltb_lt 0 _)) by lia. cbn [andb].
  rewrite last_snoc_std, land_127_byte by done. unfold is_byte in Hb.
  assert (E1 : ((if b <? 128 then b else b - 128) =? 0) = ((b =? 0) || (b =? 128))).
  { destruct (Z.ltb_spec b 128), (Z.eqb_spec b 0), (Z.eqb_spec b 128); cbn; lia. }
  rewrite E1. clear E1.
  destruct l as [|x l] using rev_ind; [reflexivity|]. clear IHl.
  apply Forall_app in Hl as [Hl Hx]. inversion Hx as [|?? Hx' _]; subst.
  rewrite length_app in *. cbn [length] in *.
  rewrite (proj2 (Z.leb_gt _ 1)) by lia. cbn [orb].
  replace (length l + 1 + 1 - 2)%nat with (length l) by lia.
  rewrite <- app_assoc, app_nth2, Nat.sub_diag by lia. cbn [app nth].
  rewrite land_128_byte, last_snoc_std by done. done.
Qed.

Lemma serialize_digits n d : n <> 0 -> digits d -> d <> [] -> (length d <= 8)%nat ->
  le_val d = Z.abs n ->
  serialize n =
  if List.last d 0 <? 128 then (if n <? 0 then removelast d ++ [List.last d 0 + 128] else d)
  else d ++ [if n <? 0 then 128 else 0].
Proof.
  intros Hn Hd Hne Hl Ev. unfold serialize. rewrite (proj2 (Z.eqb_neq _ _)) by done.
  pose proof (le_val_bound d (proj1 Hd)) as Hb.
  assert (2 ^ (8 * Z.of_nat (length d)) <= 2 ^ 64) by (apply Z.pow_le_mono_r; lia).
  assert (Ea : u64 (if n <? 0 then - n else n) = le_val d).
  { rewrite Ev. destruct (Z.ltb_spec n 0); rewrite u64_small; lia. }
  rewrite Ea, serialize_loop_digits by done.
  assert (Hlast : is_byte (List.last d 0)).
  { destruct Hd as [Hd _]. destruct d as [|x d] using rev_ind; [done|].
    rewrite last_snoc_std. apply Forall_app in Hd as [_ Hd]. by inversion Hd. }
  rewrite land_128_byte by done. destruct (Z.ltb_spec (List.last d 0) 128) as [Hlt|Hge]; cbn [negb]; [|done].
  destruct (n <? 0); [|done]. do 2 f_equal.
  change 128 with (2 ^ 7). apply lor_pow2; [lia|]. unfold is_byte in Hlast. apply testbit_above with 7; lia.
Qed.

Lemma digits_snoc d : digits d -> d <> [] ->
  exists l b, d = l ++ [b] /\ Forall is_byte l /\ is_byte b /\ b <> 0.
Proof.
  intros [Hb Hl] Hne. destruct d as [|b l _] using rev_ind; [done|].
  exists l, b. apply Forall_app in Hb as [Hbl Hbb]. inversion Hbb; subst.
  rewrite last_snoc_std in Hl. destruct Hl as [E|Hl]; [by destruct l|done].
Qed.

Lemma snoc_digits l b : Forall is_byte l -> is_byte b -> b <> 0 -> digits (l ++ [b]).
Proof.
  intros. split; [apply Forall_app; auto|right]. by rewrite last_snoc_std.
Qed.

Lemma zlen_app {A} (a b : list A) : zlen (a ++ b) = zlen a + zlen b.
Proof. unfold zlen. rewrite length_app. lia. Qed.

Lemma zlen_snoc {A} (a : list A) b : zlen (a ++ [b]) = zlen a + 1.
Proof. apply zlen_app. Qed.

(** The top byte bounds the number of digits by the magnitude. *)
Lemma top_byte_length l b sz : Forall is_byte l -> 1 <= b ->
  le_val l + 2 ^ (8 * zlen l) * b < 2 ^ (8 * sz - 1) -> 1 <= sz ->
  zlen l + 1 <= sz /\ (128 <= b -> zlen l + 2 <= sz).
Proof.
  intros Hl Hb Hlt Hsz. pose proof (le_val_bound l Hl).
  assert (Hp : 0 < 2 ^ (8 * zlen l)) by (apply Z.pow_pos_nonneg; unfold zlen; lia).
  split.
  - assert (2 ^ (8 * zlen l) < 2 ^ (8 * sz - 1)) by nia.
    apply Z.pow_lt_mono_r_iff in H0; unfold zlen in *; lia.
  - intros Hb2. assert (Hx : 2 ^ (8 * zlen l + 7) < 2 ^ (8 * sz - 1)).
    { rewrite Z.pow_add_r by (unfold zlen; lia). nia. }
    apply Z.pow_lt_mono_r_iff in Hx; unfold zlen in *; lia.
Qed.

Lemma scriptnum_decode n sz : 1 <= sz <= 7 -> Z.abs n < 2 ^ (8 * sz - 1) ->
  CScriptNum (serialize n) true sz = Some n /\ zlen (serialize n) <= sz /\ Forall is_byte (serialize n).
Proof.
  intros Hsz Hn. destruct (decide (n = 0)) as [->|Hnz].
  { change (serialize 0) with (@nil Z). split; [|split; [change (zlen []) with 0; lia|constructor]].
    unfold CScriptNum. change (zlen []) with 0.
    rewrite Z.gtb_ltb, (proj2 (Z.ltb_ge _ _)) by lia. done. }
  assert (Hp : 2 ^ (8 * sz - 1) <= 2 ^ 64) by (apply Z.pow_le_mono_r; lia).
  destruct (digits_exist 8 (Z.abs n)) as (d & Hd & Hl & Ev); [cbn; lia|].
  assert (Hne : d <> []) by (intros ->; cbn in Ev; lia).
  rewrite (serialize_digits n d) by done.
  destruct (digits_snoc d Hd Hne) as (l & b & -> & Hbl & Hbb & Hb0).
  rewrite last_snoc_std, removelast_last. rewrite le_val_app in Ev. cbn [le_val] in Ev.
  rewrite Z.mul_0_r, Z.add_0_r in Ev. rewrite <- Ev in Hn.
  unfold is_byte in Hbb. apply top_byte_length in Hn as [Hs1 Hs2]; [|done|lia|lia].
  rewrite length_app in Hl. cbn [length] in Hl.
  destruct (Z.ltb_spec b 128).
  - destruct (Z.ltb_spec n 0).
    + rewrite CScriptNum_snoc, set_vch_snoc by (done || unfold is_byte; lia).
      rewrite (proj2 (Z.eqb_neq (b + 128) 0)), (proj2 (Z.eqb_neq (b + 128) 128)),
        (proj2 (Z.ltb_ge (b + 128) 128)) by lia. cbn [orb andb].
      split; [f_equal; replace (b + 128 - 128) with b by lia; lia|].
      rewrite zlen_snoc. split; [lia|]. apply Forall_app. split; [done|]. constructor; [|done].
      unfold is_byte. lia.
    + rewrite CScriptNum_snoc, set_vch_snoc by (done || unfold is_byte; lia).
      rewrite (proj2 (Z.eqb_neq b 0)), (proj2 (Z.eqb_neq b 128)), (proj2 (Z.ltb_lt b 128)) by lia.
      cbn [orb andb]. split; [f_equal; lia|]. rewrite zlen_snoc. split; [lia|].
      apply Forall_app. auto.
  - specialize (Hs2 H).
    assert (Hf : Forall is_byte (l ++ [b])) by (apply Forall_app; auto).
    assert (Hz : zlen (l ++ [b]) + 1 <= sz) by (rewrite zlen_snoc; lia).
    set (s := if n <? 0 then 128 else 0).
    assert (Hs : is_byte s /\ (s =? 0) || (s =? 128) = true) by (unfold s; destruct (n <? 0); by vm_compute).
    rewrite CScriptNum_snoc, set_vch_snoc by (done || apply Hs).
    rewrite last_snoc_std, (proj2 Hs), (proj2 (Z.ltb_ge b 128)) by lia. cbn [andb].
    rewrite le_val_app. cbn [le_val]. split; [|split].
    + unfold s. destruct (Z.ltb_spec n 0); cbn; f_equal; lia.
    + rewrite zlen_snoc. lia.
    + apply Forall_app. split; [done|]. constructor; [apply Hs|done].
Qed.

Lemma scriptnum_encode vch n sz : 1 <= sz <= 7 -> Forall is_byte vch ->
  CScriptNum vch true sz = Some n -> serialize n = vch.
Proof.
  intros Hsz Hb H. destruct vch as [|b l _] using rev_ind.
  { unfold CScriptNum in H. change (zlen []) with 0 in H.
    destruct (0 >? sz); [done|]. rewrite andb_false_r in H. cbn in H. by simplify_eq. }
  apply Forall_app in Hb as [Hl Hbb]. inversion Hbb as [|?? Hb _]; subst.
  assert (Hz : zlen l + 1 <= sz).
  { unfold CScriptNum in H. rewrite zlen_snoc in H. destruct (Z.gtb_spec (zlen l + 1) sz); [done|lia]. }
  rewrite CScriptNum_snoc in H by done. rewrite set_vch_snoc in H by done.
  unfold zlen in Hz. pose proof (le_val_bound l Hl) as Hlv. fold (zlen l) in Hlv.
  assert (Hp : 0 < 2 ^ (8 * zlen l)) by (apply Z.pow_pos_nonneg; unfold zlen; lia).
  pose proof Hb as Hb'. unfold is_byte in Hb'.
  destruct (decide (b = 0 \/ b = 128)) as [Hsign|Hns].
  - assert (Es : (b =? 0) || (b =? 128) = true) by (destruct Hsign as [-> | ->]; done).
    rewrite Es in H. cbn [andb] in H. destruct (Z.ltb_spec (List.last l 0) 128) as [|Hlast]; [done|].
    assert (Hd : digits l) by (split; [done|right; lia]).
    assert (Hne : l <> []) by (intros ->; cbn in Hlast; lia).
    pose proof (digits_pos l Hd Hne).
    assert (En : n = if b =? 0 then le_val l else - le_val l).
    { destruct Hsign as [-> | ->]; cbn in H; simplify_eq; cbn; lia. }
    rewrite (serialize_digits n l); [|destruct (b =? 0); lia|done..|lia|destruct (b =? 0); lia].
    rewrite (proj2 (Z.ltb_ge _ 128)) by done. do 2 f_equal.
    destruct Hsign as [-> | ->]; subst n; cbn.
    + by rewrite (proj2 (Z.ltb_ge _ 0)) by lia.
    + by rewrite (proj2 (Z.ltb_lt _ 0)) by lia.
  - assert (Es : (b =? 0) || (b =? 128) = false).
    { apply orb_false_iff. split; apply Z.eqb_neq; intros ->; apply Hns; auto. }
    rewrite Es in H. cbn [andb] in H.
    set (c := if b <? 128 then b else b - 128).
    assert (Hc : 0 < c < 128) by (unfold c; destruct (Z.ltb_spec b 128); lia).
    assert (Hd : digits (l ++ [c])) by (apply snoc_digits; [done|unfold is_byte; lia|lia]).
    assert (Ev : le_val (l ++ [c]) = le_val l + 2 ^ (8 * zlen l) * c) by (rewrite le_val_app; cbn; lia).
    rewrite (serialize_digits n (l ++ [c])); [| |done|by destruct l|rewrite length_app; cbn; lia|].
    + rewrite last_snoc_std, removelast_last, (proj2 (Z.ltb_lt c 128)) by lia.
      unfold c in *. destruct (Z.ltb_spec b 128); simplify_eq.
      * rewrite (proj2 (Z.ltb_ge _ 0)) by nia. done.
      * rewrite (proj2 (Z.ltb_lt _ 0)) by nia. do 2 f_equal. lia.
    + unfold c in *. destruct (Z.ltb_spec b 128); simplify_eq; nia.
    + unfold c in *. rewrite Ev. destruct (Z.ltb_spec b 128); simplify_eq; nia.
Qed.

(** Script numbers.  With the minimality rule, the byte vectors of at most
    [sz] bytes that [CScriptNum] accepts are in one-to-one correspondence with
    the integers of magnitude below [2^(8 sz - 1)]: [serialize] is read back to
    the same value, and every accepted vector is the serialization of its
    value.  For the default of four bytes this is the documented operand range
    [-2^31 + 1 .. 2^31 - 1]. *)
Theorem scriptnum_bijection sz :
  1 <= sz <= 7 ->
  (forall n, Z.abs n < 2 ^ (8 * sz - 1) ->
     CScriptNum (serialize n) true sz = Some n /\ zlen (serialize n) <= sz) /\
  (forall vch n, Forall is_byte vch ->
     CScriptNum vch true sz = Some n -> serialize n = vch).
Proof.
  intros Hsz. split.
  - intros n Hn. destruct (scriptnum_decode n sz Hsz Hn) as (? & ? & _). done.
  - intros vch n. by apply scriptnum_encode.
Qed.

Lemma scriptnum_bijection_witness :
  CScriptNum [255; 128] true 4 = Some (-255) /\ serialize (-255) = [255; 128].
Proof.
  split; [exact (proj1 (proj1 (scriptnum_bijection 4 ltac:(lia)) (-255) ltac:(lia)))|].
  apply (proj2 (scriptnum_bijection 4 ltac:(lia))); [|reflexivity]. by_decide.
Defined.

(** ** The instruction stream

    [next_op] is the reference reader: it takes the first instruction off a
    byte string.  [parses s ops tail] says that [s] is the instructions [ops]
    followed by a [tail] at which reading stops (nothing, or a truncated
    push). *)

Definition op_size (opcode : Z) (r : list Z) : option (Z * list Z) :=
  if opcode <? OP_PUSHDATA1 then Some (opcode, r)
  else if opcode =? OP_PUSHDATA1 then
    match r with n :: r => Some (n, r) | [] => None end
  else if opcode =? OP_PUSHDATA2 then
    match r with a :: b :: r => Some (le_val [a; b], r) | _ => None end
  else
    match r with a :: b :: c :: d :: r => Some (le_val [a; b; c; d], r) | _ => None end.

Definition next_op (s : list Z) : option (Z * valtype * list Z) :=
  match s with
  | [] => None
  | opcode :: r =>
      if opcode <=? OP_PUSHDATA4 then
        '(n, r) ← op_size opcode r;
        if (zlen r <? n : bool) then None else Some (opcode, take (Z.to_nat n) r, drop (Z.to_nat n) r)
      else Some (opcode, [], r)
  end.

Inductive parses : list Z -> list (Z * valtype) -> list Z -> Prop :=
  | parses_stop s : next_op s = None -> parses s [] s
  | parses_op s opcode data r ops tail :
      next_op s = Some (opcode, data, r) -> parses r ops tail ->
      parses s ((opcode, data) :: ops) tail.

Lemma GetOp2_size_spec script pc opcode : (pc <= length script)%nat -> OP_PUSHDATA1 <= opcode <= OP_PUSHDATA4 \/ opcode < OP_PUSHDATA1 ->
  match op_size opcode (drop pc script) with
  | Some (n, r) => exists pc', GetOp2_size script pc opcode = (true, n, pc') /\
                    (pc <= pc' <= length script)%nat /\ r = drop pc' script
  | None => GetOp2_size script pc opcode = (false, 0, pc)
  end.
Proof.
  intros Hpc Hop. unfold GetOp2_size, op_size, zlen.
  destruct (Z.ltb_spec opcode OP_PUSHDATA1); [by exists pc|].
  assert (Hlen : Z.of_nat (length script) - Z.of_nat pc = Z.of_nat (length (drop pc script)))
    by (rewrite length_drop; lia).
  rewrite Hlen.
  destruct (opcode =? OP_PUSHDATA1).
  { destruct (drop pc script) as [|n r] eqn:E; [done|]. cbn [length].
    rewrite (proj2 (Z.ltb_ge _ 1)) by lia. exists (S pc).
    pose proof (lookup_lt_Some script pc n) as Hlt. rewrite <- (Nat.add_0_r pc), <- lookup_drop, E in Hlt.
    specialize (Hlt eq_refl). rewrite Nat.add_0_r in Hlt. split; [|split; [lia|]].
    - do 2 f_equal. apply nth_lookup_Some. by rewrite <- (Nat.add_0_r pc), <- lookup_drop, E.
    - rewrite <- Nat.add_1_r, <- drop_drop, E. done. }
  destruct (opcode =? OP_PUSHDATA2).
  { destruct (drop pc script) as [|a [|b r]] eqn:E; [done..|]. cbn [length].
    rewrite (proj2 (Z.ltb_ge _ 2)) by lia. exists (pc + 2)%nat. split; [done|].
    rewrite <- drop_drop, E. split; [|done].
    pose proof (f_equal length E) as El. rewrite length_drop in El. cbn in El. lia. }
  destruct (drop pc script) as [|a [|b [|c [|d r]]]] eqn:E; [done..|]. cbn [length].
  rewrite (proj2 (Z.ltb_ge _ 4)) by lia. exists (pc + 4)%nat. split; [done|].
  rewrite <- drop_drop, E. split; [|done].
  pose proof (f_equal length E) as El. rewrite length_drop in El. cbn in El. lia.
Qed.

(** [GetOp2] is [next_op] on the suffix at the iterator; it advances, and
    stays inside the script. *)
Lemma GetOp2_spec script pc : (pc <= length script)%nat ->
  match next_op (drop pc script) with
  | Some (opcode, data, r) => exists pc', GetOp2 script pc = OpRead true pc' opcode data /\
                               (pc < pc' <= length script)%nat /\ r = drop pc' script
  | None => exists pc', GetOp2 script pc = OpRead false pc' OP_INVALIDOPCODE [] /\ (pc <= pc' <= length script)%nat
  end.
Proof.
  intros Hpc. unfold GetOp2. destruct (drop pc script) as [|opcode r] eqn:E; cbn [next_op].
  { assert (length script = pc).
    { apply (f_equal length) in E. rewrite length_drop in E. cbn in E. lia. }
    rewrite (proj2 (Nat.leb_le _ _)) by lia. exists pc. split; [done|lia]. }
  pose proof (f_equal length E) as El. rewrite length_drop in El. cbn in El.
  rewrite (proj2 (Nat.leb_gt _ _)) by lia.
  assert (Hn : nth pc script 0 = opcode).
  { apply nth_lookup_Some. by rewrite <- (Nat.add_0_r pc), <- lookup_drop, E. }
  assert (Hr : r = drop (S pc) script) by (rewrite <- Nat.add_1_r, <- drop_drop, E; done).
  rewrite Hn. destruct (Z.leb_spec opcode OP_PUSHDATA4) as [Hle|Hgt].
  - pose proof (GetOp2_size_spec script (S pc) opcode ltac:(lia) ltac:(lia)) as Hs. rewrite <- Hr in Hs.
    destruct (op_size opcode r) as [[n r']|]; cbn [mbind option_bind].
    + destruct Hs as (pc' & -> & Hpc' & ->). cbn [negb].
      assert (Hz : zlen script - Z.of_nat pc' = zlen (drop pc' script))
        by (unfold zlen; rewrite length_drop; lia).
      rewrite Hz. unfold zlen in *. destruct (Z.ltb_spec (Z.of_nat (length (drop pc' script))) n) as [|Hge].
      * exists pc'. split; [done|lia].
      * rewrite length_drop in Hge. exists (pc' + Z.to_nat n)%nat. split; [done|].
        rewrite drop_drop. split; [lia|done].
    + rewrite Hs. cbn [negb]. exists (S pc). split; [done|lia].
  - exists (S pc). split; [done|]. split; [lia|done].
Qed.

Lemma GetOp2_ok script pc : (pc <= length script)%nat -> op_ok (GetOp2 script pc) = true ->
  next_op (drop pc script) =
    Some (op_code (GetOp2 script pc), op_data (GetOp2 script pc), drop (op_pc (GetOp2 script pc)) script) /\
  (pc < op_pc (GetOp2 script pc) <= length script)%nat.
Proof.
  intros Hpc Hok. pose proof (GetOp2_spec script pc Hpc) as Hs.
  destruct (next_op (drop pc script)) as [[[o d] r]|]; destruct Hs as (pc' & E & H); rewrite E in *; [|done].
  destruct H as [? ->]. done.
Qed.

Lemma GetOp2_fail script pc : (pc <= length script)%nat -> op_ok (GetOp2 script pc) = false ->
  next_op (drop pc script) = None /\ op_code (GetOp2 script pc) = OP_INVALIDOPCODE /\
  (pc <= op_pc (GetOp2 script pc) <= length script)%nat.
Proof.
  intros Hpc Hok. pose proof (GetOp2_spec script pc Hpc) as Hs.
  destruct (next_op (drop pc script)) as [[[o d] r]|]; destruct Hs as (pc' & E & H); by rewrite E in *.
Qed.

Lemma next_op_app s t o d r : next_op s = Some (o, d, r) -> next_op (s ++ t) = Some (o, d, r ++ t).
Proof.
  destruct s as [|opcode s]; [done|]. cbn [next_op app].
  destruct (Z.leb_spec opcode OP_PUSHDATA4) as [Hle|]; [|by intros [= <- <- <-]].
  assert (Hsz : forall n r', op_size opcode s = Some (n, r') -> op_size opcode (s ++ t) = Some (n, r' ++ t)).
  { intros n r'. unfold op_size. destruct (opcode <? OP_PUSHDATA1); [by intros [= <- <-]|].
    destruct (opcode =? OP_PUSHDATA1); [destruct s; [done|by intros [= <- <-]]|].
    destruct (opcode =? OP_PUSHDATA2); [destruct s as [|? [|? ?]]; [done..|by intros [= <- <-]]|].
    destruct s as [|? [|? [|? [|? ?]]]]; [done..|by intros [= <- <-]]. }
  destruct (op_size opcode s) as [[n r']|] eqn:E; [|done]. rewrite (Hsz _ _ eq_refl).
  cbn [mbind option_bind]. unfold zlen. rewrite length_app.
  destruct (Z.ltb_spec (Z.of_nat (length r')) n); [done|].
  rewrite (proj2 (Z.ltb_ge _ _)) by lia. intros [= <- <- <-].
  rewrite take_app_le, drop_app_le by lia. done.
Qed.

Lemma next_op_shrinks s o d r : next_op s = Some (o, d, r) -> (length r < length s)%nat.
Proof.
  intros H. pose proof (GetOp2_spec s 0 ltac:(lia)) as Hs. rewrite drop_0, H in Hs.
  destruct Hs as (pc' & _ & Hpc & ->). rewrite length_drop. lia.
Qed.

(** An instruction starts with its opcode byte. *)
Lemma next_op_head s o d r : next_op s = Some (o, d, r) -> exists s', s = o :: s'.
Proof.
  destruct s as [|opcode s]; [done|]. cbn [next_op]. case_match; [|intros [= <- <- <-]; eauto].
  destruct (op_size opcode s) as [[n r']|]; [|done]. cbn [mbind option_bind].
  case_match; [done|]. intros [= <- <- <-]. eauto.
Qed.

Lemma next_op_suffix s o d r : next_op s = Some (o, d, r) -> r = drop (length s - length r) s.
Proof.
  intros H. pose proof (GetOp2_spec s 0 ltac:(lia)) as Hs. rewrite drop_0, H in Hs.
  destruct Hs as (pc' & _ & Hpc & ->). rewrite length_drop. f_equal. lia.
Qed.

(** Every byte string has exactly one reading. *)
Lemma parses_total s : exists ops tail, parses s ops tail.
Proof.
  induction s as [s IH] using (Wf_nat.induction_ltof1 _ length). unfold Wf_nat.ltof in IH.
  destruct (next_op s) as [[[o d] r]|] eqn:E; [|by exists [], s; constructor].
  destruct (IH r (next_op_shrinks _ _ _ _ E)) as (ops & tail & H).
  exists ((o, d) :: ops), tail. by econstructor.
Qed.

Lemma parses_det s ops1 t1 ops2 t2 : parses s ops1 t1 -> parses s ops2 t2 -> ops1 = ops2 /\ t1 = t2.
Proof.
  intros H1. revert ops2 t2. induction H1 as [s Hn|s o d r ops tail Hn Hp IH]; intros ops2 t2 H2;
    inversion H2 as [s' Hn'|s' o' d' r' ops' tail' Hn' Hp']; subst; [done|congruence|congruence|].
  rewrite Hn in Hn'. simplify_eq. by destruct (IH _ _ Hp') as [-> ->].
Qed.

(** Reading at a position given by a prefix. *)
Lemma GetOp2_at pre s o d r : next_op s = Some (o, d, r) ->
  GetOp2 (pre ++ s) (length pre) = OpRead true (length pre + (length s - length r)) o d.
Proof.
  intros H. pose proof (GetOp2_spec (pre ++ s) (length pre)) as Hs.
  rewrite drop_app_length, H in Hs. rewrite length_app in Hs.
  destruct (Hs ltac:(lia)) as (pc' & -> & Hpc & Hr). f_equal.
  subst r. rewrite length_drop, length_app in *. lia.
Qed.

(** ** Pushes are read back *)

Definition push_code (b : valtype) : Z :=
  if zlen b <? OP_PUSHDATA1 then zlen b
  else if zlen b <=? 255 then OP_PUSHDATA1
  else if zlen b <=? 65535 then OP_PUSHDATA2
  else OP_PUSHDATA4.

Lemma push_code_range b : 0 <= push_code b <= OP_PUSHDATA4.
Proof. unfold push_code, OP_PUSHDATA1, OP_PUSHDATA2, OP_PUSHDATA4, zlen. repeat case_match; lia. Qed.

Lemma push_bytes_app s b : push_bytes s b = s ++ push_bytes [] b.
Proof. unfold push_bytes. repeat case_match; cbn [app]; rewrite <- ?app_assoc; reflexivity. Qed.

Lemma next_op_push b t : zlen b < 2 ^ 32 ->
  next_op (push_bytes [] b ++ t) = Some (push_code b, b, t).
Proof.
  intros Hb. unfold push_bytes, push_code.
  assert (H0 : 0 <= zlen b) by (unfold zlen; lia).
  assert (Hfin : forall o n : Z, n = zlen b ->
     (if (zlen (b ++ t) <? n : bool) then None else Some (o, take (Z.to_nat n) (b ++ t), drop (Z.to_nat n) (b ++ t)))
       = Some (o, b, t)).
  { intros o n ->. rewrite zlen_app, (proj2 (Z.ltb_ge _ _)) by (unfold zlen; lia).
    unfold zlen. rewrite Nat2Z.id. by rewrite take_app_length, drop_app_length. }
  unfold OP_PUSHDATA1, OP_PUSHDATA2, OP_PUSHDATA4 in *.
  destruct (Z.ltb_spec (zlen b) 0x4c); [|destruct (Z.leb_spec (zlen b) 255); [|destruct (Z.leb_spec (zlen b) 65535)]];
    cbn [app]; unfold next_op; rewrite <- ?app_assoc.
  - cbn [app]. unfold u8. rewrite (Z.mod_small (zlen b)) by lia.
    unfold OP_PUSHDATA4. rewrite (proj2 (Z.leb_le _ _)) by lia.
    unfold op_size, OP_PUSHDATA1. rewrite (proj2 (Z.ltb_lt _ _)) by lia. cbn [mbind option_bind]. by apply Hfin.
  - cbn. apply Hfin. unfold u8. rewrite Z.mod_small by lia. done.
  - pose proof (le_val_bytes 2 (zlen b)) as E. rewrite Z.mod_small in E by lia.
    destruct (le_bytes 2 (zlen b)) as [|x [|y [|]]] eqn:El; try by (apply (f_equal length) in El; rewrite length_le_bytes in El).
    cbn [app]. change (0x4d <=? OP_PUSHDATA4) with true. cbn iota.
    change (op_size 0x4d (x :: y :: b ++ t)) with (Some (le_val [x; y], b ++ t)).
    cbn [mbind option_bind]. by apply Hfin.
  - pose proof (le_val_bytes 4 (zlen b)) as E. rewrite Z.mod_small in E by lia.
    destruct (le_bytes 4 (zlen b)) as [|x [|y [|z [|w [|]]]]] eqn:El; try by (apply (f_equal length) in El; rewrite length_le_bytes in El).
    cbn [app]. change (0x4e <=? OP_PUSHDATA4) with true. cbn iota.
    change (op_size 0x4e (x :: y :: z :: w :: b ++ t)) with (Some (le_val [x; y; z; w], b ++ t)).
    cbn [mbind option_bind]. by apply Hfin.
Qed.

Lemma length_push_bytes_pos b : (length (push_bytes [] b) > 0)%nat.
Proof. unfold push_bytes. repeat case_match; rewrite length_app; cbn; lia. Qed.

(** Pushing and reading back.  Whatever surrounds it, data appended to a
    script with [operator<<] is read by [GetOp] at that position as one
    instruction with exactly that data, and the iterator moves to the first
    byte after it. *)
Theorem push_GetOp_roundtrip s b t :
  zlen b < 2 ^ 32 ->
  GetOp2 (push_bytes s b ++ t) (length s) = OpRead true (length (push_bytes s b)) (push_code b) b.
Proof.
  intros Hb. rewrite push_bytes_app, <- app_assoc.
  rewrite (GetOp2_at s _ _ _ _ (next_op_push b t Hb)). f_equal. rewrite !length_app. lia.
Qed.

Lemma push_GetOp_roundtrip_witness :
  GetOp2 (push_bytes [OP_DUP] (repeat 7 80) ++ [OP_CHECKSIG]) 1 = OpRead true 83 OP_PUSHDATA1 (repeat 7 80).
Proof. exact (push_GetOp_roundtrip [OP_DUP] (repeat 7 80) [OP_CHECKSIG] ltac:(reflexivity)). Defined.

(** ** The loops over a script compute over its instructions *)

Fixpoint sigops (fAccurate : bool) (lastOpcode : Z) (ops : list (Z * valtype)) : Z :=
  match ops with
  | [] => 0
  | (o, _) :: ops => sigops_of fAccurate lastOpcode o + sigops fAccurate o ops
  end.

Definition push_only (ops : list (Z * valtype)) : bool := forallb (fun p => p.1 <=? OP_16) ops.

Lemma sigops_of_bound acc l o : 0 <= sigops_of acc l o <= 20.
Proof.
  unfold sigops_of, MAX_PUBKEYS_PER_MULTISIG, OP_1, OP_16.
  repeat case_match; lia.
Qed.

Lemma sigops_bound acc ops : forall l, 0 <= sigops acc l ops <= 20 * zlen ops.
Proof.
  unfold zlen. induction ops as [|[o d] ops IH]; intros l; cbn [sigops length]; [lia|].
  pose proof (sigops_of_bound acc l o). specialize (IH o). lia.
Qed.

Lemma parses_length s ops tail : parses s ops tail -> (length ops + length tail <= length s)%nat.
Proof.
  induction 1 as [|s o d r ops tail H _ IH]; [cbn; lia|]. apply next_op_shrinks in H. cbn [length]. lia.
Qed.

(** One step of a loop that reads with [GetOp2]. *)
Lemma loop_step script pc ops tail : (pc <= length script)%nat -> parses (drop pc script) ops tail ->
  match ops with
  | [] => op_ok (GetOp2 script pc) = false /\ op_code (GetOp2 script pc) = OP_INVALIDOPCODE /\
          tail = drop pc script
  | (o, d) :: ops => exists pc', GetOp2 script pc = OpRead true pc' o d /\ (pc < pc' <= length script)%nat /\
                       parses (drop pc' script) ops tail
  end.
Proof.
  intros Hpc H. pose proof (GetOp2_spec script pc Hpc) as Hs. inversion H as [? E|? o d r ops' ? E Hp]; subst.
  - rewrite E in Hs. destruct Hs as (pc' & -> & _). done.
  - rewrite E in Hs. destruct Hs as (pc' & -> & Hpc' & ->). eauto.
Qed.

Lemma at_end_tail script pc tail : (length script <= pc)%nat -> forall ops,
  parses (drop pc script) ops tail -> ops = [] /\ tail = [].
Proof. intros H ops Hp. rewrite drop_ge in Hp by done. inversion Hp; subst; done. Qed.

Lemma GetSigOpCount_loop_spec fuel : forall script acc pc l n ops tail,
  (pc <= length script)%nat -> (length script - pc <= fuel)%nat -> 0 <= n < 2 ^ 32 ->
  parses (drop pc script) ops tail ->
  GetSigOpCount_loop fuel script acc pc l n = u32 (n + sigops acc l ops).
Proof.
  induction fuel as [|fuel IH]; intros script acc pc l n ops tail Hpc Hf Hn Hp; cbn [GetSigOpCount_loop].
  - destruct (at_end_tail script pc tail ltac:(lia) ops Hp) as [-> _]. cbn. rewrite Z.add_0_r, u32_small; lia.
  - destruct (Nat.leb_spec (length script) pc).
    { destruct (at_end_tail script pc tail ltac:(lia) ops Hp) as [-> _]. cbn. rewrite Z.add_0_r, u32_small; lia. }
    apply loop_step in Hp; [|done]. destruct ops as [|[o d] ops].
    + destruct Hp as (-> & _). cbn. rewrite Z.add_0_r, u32_small; lia.
    + destruct Hp as (pc' & -> & Hpc' & Hp). cbn [op_ok op_pc op_code negb].
      rewrite (IH _ _ _ _ _ ops tail); [|lia|lia|apply u32_bound|done].
      cbn [sigops]. unfold u32. rewrite Zplus_mod_idemp_l. f_equal. lia.
Qed.

Lemma IsPushOnly_loop_spec fuel : forall script pc ops tail,
  (pc <= length script)%nat -> (length script - pc <= fuel)%nat -> parses (drop pc script) ops tail ->
  IsPushOnly_loop fuel script pc = push_only ops && bool_decide (tail = []).
Proof.
  induction fuel as [|fuel IH]; intros script pc ops tail Hpc Hf Hp; cbn [IsPushOnly_loop].
  - destruct (at_end_tail script pc tail ltac:(lia) ops Hp) as [-> ->]. done.
  - destruct (Nat.leb_spec (length script) pc) as [|Hlt].
    { destruct (at_end_tail script pc tail ltac:(lia) ops Hp) as [-> ->]. done. }
    apply loop_step in Hp; [|done]. destruct ops as [|[o d] ops].
    + destruct Hp as (-> & _ & ->). cbn. rewrite bool_decide_eq_false_2; [done|].
      intros E. apply (f_equal length) in E. rewrite length_drop in E. cbn in E. lia.
    + destruct Hp as (pc' & -> & Hpc' & Hp). cbn [op_ok op_pc op_code negb push_only forallb fst].
      rewrite Z.gtb_ltb. destruct (Z.leb_spec o OP_16).
      * rewrite (proj2 (Z.ltb_ge _ _)) by lia. cbn [andb]. apply IH; [lia|lia|done].
      * rewrite (proj2 (Z.ltb_lt _ _)) by lia. done.
Qed.

Lemma last_push_spec fuel : forall script pc ops tail data,
  (pc <= length script)%nat -> (length script - pc <= fuel)%nat -> parses (drop pc script) ops tail ->
  last_push fuel script pc data =
  if push_only ops && bool_decide (tail = []) then Some (List.last (data :: map snd ops) []) else None.
Proof.
  induction fuel as [|fuel IH]; intros script pc ops tail data Hpc Hf Hp; cbn [last_push].
  - destruct (at_end_tail script pc tail ltac:(lia) ops Hp) as [-> ->]. done.
  - destruct (Nat.leb_spec (length script) pc) as [|Hlt].
    { destruct (at_end_tail script pc tail ltac:(lia) ops Hp) as [-> ->]. done. }
    apply loop_step in Hp; [|done]. destruct ops as [|[o d] ops].
    + destruct Hp as (-> & _ & ->). cbn. rewrite bool_decide_eq_false_2; [done|].
      intros E. apply (f_equal length) in E. rewrite length_drop in E. cbn in E. lia.
    + destruct Hp as (pc' & -> & Hpc' & Hp). cbn [op_ok op_pc op_code op_data negb push_only forallb fst].
      rewrite Z.gtb_ltb. destruct (Z.leb_spec o OP_16).
      * rewrite (proj2 (Z.ltb_ge _ _)) by lia. cbn [andb].
        rewrite (IH _ _ ops tail) by (lia || done). done.
      * rewrite (proj2 (Z.ltb_lt _ _)) by lia. done.
Qed.

Lemma GetSigOpCount_sum script acc ops tail :
  zlen script < 2 ^ 27 -> parses script ops tail ->
  GetSigOpCount script acc = sigops acc OP_INVALIDOPCODE ops /\
  0 <= GetSigOpCount script acc <= 20 * zlen script.
Proof.
  intros Hs Hp. pose proof (parses_length _ _ _ Hp) as Hl.
  pose proof (sigops_bound acc ops OP_INVALIDOPCODE) as Hb. unfold zlen in *.
  unfold GetSigOpCount.
  rewrite (GetSigOpCount_loop_spec _ script acc 0 _ _ ops tail) by (rewrite ?drop_0; done || lia).
  rewrite Z.add_0_l, u32_small by lia. lia.
Qed.

(** The signature-operation counters are exact.  With [ops] the
    instructions of the script (up to the first unreadable one),
    [GetSigOpCount] is the sum of their signature operations, never above 20
    per byte, so the 32-bit counter does not wrap; for a pay-to-script-hash
    output it counts the script that the input's last push carries, or 0 when
    the input is not a readable sequence of pushes. *)
Theorem GetSigOpCount_exact script scriptSig acc ops tail sigs stail :
  zlen script < 2 ^ 27 -> parses script ops tail -> parses scriptSig sigs stail ->
  GetSigOpCount script acc = sigops acc OP_INVALIDOPCODE ops /\
  0 <= GetSigOpCount script acc <= 20 * zlen script /\
  GetSigOpCount_P2SH script scriptSig =
    if IsPayToScriptHash script then
      if push_only sigs && bool_decide (stail = [])
      then GetSigOpCount (List.last ([] :: map snd sigs) []) true else 0
    else sigops true OP_INVALIDOPCODE ops.
Proof.
  intros Hs Hp Hsig. destruct (GetSigOpCount_sum script acc ops tail Hs Hp) as [E1 E2].
  split; [done|]. split; [done|]. unfold GetSigOpCount_P2SH.
  destruct (IsPayToScriptHash script); cbn [negb].
  - rewrite (last_push_spec _ scriptSig 0 sigs stail) by (rewrite ?drop_0; done || lia).
    by destruct (push_only sigs && bool_decide (stail = [])).
  - by apply (GetSigOpCount_sum script true ops tail).
Qed.

(** A script of one byte-opcode instructions reads as those instructions. *)
Lemma parses_cons s o d r ops tail :
  next_op s = Some (o, d, r) -> parses r ops tail -> parses s ((o, d) :: ops) tail.
Proof. by econstructor. Qed.

Ltac parse_closed := repeat (eapply parses_cons; [reflexivity|]); apply parses_stop; reflexivity.

Lemma GetSigOpCount_exact_witness :
  GetSigOpCount [OP_1; 1; 7; 1; 8; OP_1 + 1; OP_CHECKMULTISIG; OP_CHECKSIG] true = 3.
Proof.
  refine (proj1 (GetSigOpCount_exact [OP_1; 1; 7; 1; 8; OP_1 + 1; OP_CHECKMULTISIG; OP_CHECKSIG] [] true
    [(OP_1, []); (1, [7]); (1, [8]); (OP_1 + 1, []); (OP_CHECKMULTISIG, []); (OP_CHECKSIG, [])] [] [] []
    ltac:(reflexivity) _ _)); parse_closed.
Defined.

(** ** [FindAndDelete] removes whole instructions *)

(** The raw bytes of the instructions of a script. *)
Inductive chunked : list Z -> list (list Z) -> list Z -> Prop :=
  | chunked_stop s : next_op s = None -> chunked s [] s
  | chunked_op c r o d cs tail :
      next_op (c ++ r) = Some (o, d, r) -> chunked r cs tail -> chunked (c ++ r) (c :: cs) tail.

Lemma next_op_chunk s o d r : next_op s = Some (o, d, r) ->
  exists c, s = c ++ r /\ (0 < length c)%nat.
Proof.
  intros H. pose proof (next_op_shrinks _ _ _ _ H) as Hl. pose proof (next_op_suffix _ _ _ _ H) as Hr.
  exists (take (length s - length r) s). split; [by rewrite Hr at 2; rewrite take_drop|].
  rewrite length_take. lia.
Qed.

Lemma chunked_total s : exists cs tail, chunked s cs tail.
Proof.
  induction s as [s IH] using (Wf_nat.induction_ltof1 _ length). unfold Wf_nat.ltof in IH.
  destruct (next_op s) as [[[o d] r]|] eqn:E; [|by exists [], s; constructor].
  destruct (IH r (next_op_shrinks _ _ _ _ E)) as (cs & tail & H).
  destruct (next_op_chunk _ _ _ _ E) as (c & -> & _). exists (c :: cs), tail. by econstructor.
Qed.

Lemma matches_at_spec script b pc :
  matches_at script b pc = true <-> exists r, drop pc script = b ++ r.
Proof.
  unfold matches_at. rewrite andb_true_iff, Nat.leb_le, bool_decide_eq_true. split.
  - intros [_ E]. exists (drop (length b) (drop pc script)). by rewrite <- E at 1; rewrite take_drop.
  - intros [r E]. split; [|by rewrite E, take_app_length].
    apply (f_equal length) in E. rewrite length_drop, length_app in E. lia.
Qed.

Section FindAndDelete_spec.
Context (b : list Z) (ob : Z) (db : valtype) (Hb : next_op b = Some (ob, db, [])).

Lemma one_instr_nonempty : (0 < length b)%nat.
Proof using Hb. destruct b; [done|cbn; lia]. Qed.

(** The first instruction is [b] exactly when the bytes start with [b]. *)
Lemma chunked_match s cs tail : chunked s cs tail ->
  (exists r, s = b ++ r) <-> (exists cs', cs = b :: cs').
Proof using Hb.
  intros H. split.
  - intros [r ->]. pose proof (next_op_app b r ob db [] Hb) as E. cbn [app] in E.
    inversion H as [? E'|c r' o d cs' ? E' Hp Es]; subst; [congruence|].
    rewrite Es, E in E'. simplify_eq. apply app_inv_tail in Es as ->. eauto.
  - intros [cs' ->]. inversion H; subst. eauto.
Qed.

Lemma skip_matches_spec fuel : forall script pc n cs tail,
  (pc <= length script)%nat -> (length script - pc <= fuel)%nat -> chunked (drop pc script) cs tail ->
  exists j cs', cs = repeat b j ++ cs' /\ (forall cs2, cs' <> b :: cs2) /\
    skip_matches fuel script b pc n = ((pc + j * length b)%nat, n + Z.of_nat j) /\
    (pc + j * length b <= length script)%nat /\
    chunked (drop (pc + j * length b) script) cs' tail.
Proof using Hb.
  pose proof one_instr_nonempty as Hpos.
  induction fuel as [|fuel IH]; intros script pc n cs tail Hpc Hf Hc; cbn [skip_matches].
  - exists O, cs. cbn [repeat app]. rewrite Nat.mul_0_l, Nat.add_0_r, Z.add_0_r.
    split; [done|]. split; [|done]. intros cs2 ->. rewrite drop_ge in Hc by lia.
    inversion Hc as [|c r o d ? ? E ? Es]; subst. apply app_eq_nil in Es as [-> ->]. done.
  - destruct (matches_at script b pc) eqn:Em.
    + apply matches_at_spec in Em as [r Er].
      destruct (proj1 (chunked_match _ _ _ Hc) (ex_intro _ r Er)) as [cs' ->].
      inversion Hc as [|c r' o d ? ? E Hp Es]; subst. rewrite Er in Es. apply app_inv_head in Es as ->.
      assert (Hr : r = drop (pc + length b) script) by (rewrite <- drop_drop, Er, drop_app_length; done).
      assert (Hlen : (pc + length b <= length script)%nat).
      { apply (f_equal length) in Er. rewrite length_drop, length_app in Er. lia. }
      rewrite Hr in Hp. destruct (IH script (pc + length b)%nat (n + 1) cs' tail) as (j & cs2 & -> & H1 & H2 & H3 & H4);
        [done|lia|done|].
      exists (S j), cs2. cbn [repeat app Nat.mul]. rewrite H2.
      replace (pc + (length b + j * length b))%nat with (pc + length b + j * length b)%nat by lia.
      split; [done|]. split; [done|]. split; [f_equal; lia|done].
    + exists O, cs. cbn [repeat app]. rewrite Nat.mul_0_l, Nat.add_0_r, Z.add_0_r.
      split; [done|]. split; [|done]. intros cs2 ->.
      destruct (proj2 (chunked_match _ _ _ Hc) (ex_intro _ cs2 eq_refl)) as [r Er].
      assert (matches_at script b pc = true) by (apply matches_at_spec; eauto). congruence.
Qed.

Definition others (cs : list (list Z)) : list (list Z) := filter (fun c => c <> b) cs.
Definition count_b (cs : list (list Z)) : nat := length (filter (fun c => c = b) cs).

Lemma others_repeat j cs : others (repeat b j ++ cs) = others cs.
Proof. unfold others. induction j; [done|]. cbn [repeat app]. rewrite filter_cons_False; [done|naive_solver]. Qed.

Lemma count_repeat j cs : count_b (repeat b j ++ cs) = (j + count_b cs)%nat.
Proof. unfold count_b. induction j; [done|]. cbn [repeat app]. rewrite filter_cons_True by done. cbn. lia. Qed.

Lemma FindAndDelete_loop_spec fuel : forall script result pc pc2 n cs tail,
  (pc2 <= pc <= length script)%nat -> (length script - pc < fuel)%nat -> chunked (drop pc script) cs tail ->
  exists res p, FindAndDelete_loop fuel script b result pc pc2 n = (res, p, n + Z.of_nat (count_b cs)) /\
    res ++ drop p script = (result ++ take (pc - pc2) (drop pc2 script)) ++ concat (others cs) ++ tail.
Proof using Hb.
  induction fuel as [|fuel IH]; intros script result pc pc2 n cs tail Hpc Hf Hc; [lia|].
  cbn [FindAndDelete_loop].
  destruct (skip_matches_spec (length script) script pc n cs tail) as (j & cs' & -> & Hne & -> & Hp & Hc');
    [lia|lia|done|].
  set (p := (pc + j * length b)%nat) in *. set (res := result ++ _).
  rewrite others_repeat, count_repeat.
  inversion Hc' as [s E Hs|c r o d cs2 t E Hr Es]; subst.
  - pose proof (GetOp2_spec script p Hp) as Hg. rewrite E in Hg. destruct Hg as (pc' & -> & _).
    cbn [op_ok]. exists res, p. split; [f_equal; cbn; lia|]. done.
  - pose proof (GetOp2_spec script p Hp) as Hg. rewrite <- Es, E in Hg.
    destruct Hg as (pc' & -> & Hpc' & ->). cbn [op_ok op_pc].
    assert (Hcb : c <> b) by (intros ->; by apply (Hne cs2)).
    destruct (IH script res pc' p (n + Z.of_nat j) cs2 tail) as (res2 & p2 & -> & Er); [lia|lia|done|].
    exists res2, p2. unfold others, count_b. rewrite filter_cons_False, filter_cons_True by done.
    split; [f_equal; lia|]. rewrite Er.
    assert (Ec : take (pc' - p) (drop p script) = c).
    { rewrite <- Es. assert (length c = (pc' - p)%nat) as <-; [|apply take_app_length].
      apply (f_equal length) in Es. rewrite length_app, !length_drop in Es. lia. }
    rewrite Ec. unfold others. cbn [concat]. by rewrite <- ?app_assoc.
Qed.

End FindAndDelete_spec.

Arguments others b cs : clear implicits.
Arguments count_b b cs : clear implicits.

Lemma count_others b cs : count_b b cs = O -> others b cs = cs.
Proof.
  unfold count_b, others. induction cs as [|c cs IH]; [done|]. destruct (decide (c = b)) as [->|Hne].
  - rewrite filter_cons_True by done. done.
  - rewrite filter_cons_False, filter_cons_True by done. intros E. by rewrite IH.
Qed.

Lemma chunked_concat s cs tail : chunked s cs tail -> s = concat cs ++ tail.
Proof. induction 1 as [|c r o d cs tail _ _ IH]; [done|]. cbn [concat]. by rewrite <- app_assoc, <- IH. Qed.

Lemma concat_others_length b cs :
  (length (concat (others b cs)) + count_b b cs * length b = length (concat cs))%nat.
Proof.
  unfold count_b, others. induction cs as [|c cs IH]; [done|]. cbn [concat]. rewrite length_app.
  destruct (decide (c = b)) as [->|Hne].
  - rewrite filter_cons_False, filter_cons_True by (done || naive_solver). cbn [length Nat.mul]. lia.
  - rewrite filter_cons_True, filter_cons_False by done. cbn [concat]. rewrite length_app. lia.
Qed.

Lemma FindAndDelete_result script b o d cs tail :
  next_op b = Some (o, d, []) -> chunked script cs tail ->
  FindAndDelete script b = (concat (others b cs) ++ tail, Z.of_nat (count_b b cs)).
Proof.
  intros Hb Hc. destruct (FindAndDelete_loop_spec b o d Hb (S (length script)) script [] 0 0 0 cs tail)
    as (res & p & El & Er); [lia|lia|by rewrite drop_0|].
  unfold FindAndDelete. rewrite El. destruct b as [|x b']; [done|]. rewrite Z.add_0_l.
  destruct (Z.gtb_spec (Z.of_nat (count_b (x :: b') cs)) 0); [by rewrite Er|].
  assert (count_b (x :: b') cs = O) as Hz by lia. rewrite Hz, count_others by done.
  by rewrite <- (chunked_concat _ _ _ Hc).
Qed.

(** [FindAndDelete] of one instruction [b] (a pushed signature) removes
    exactly the instructions of the script whose bytes are [b], keeps every
    other byte in order, and returns how many it removed; bytes that look like
    [b] inside the data of another push are not touched. *)
Theorem FindAndDelete_exact script b o d cs tail :
  next_op b = Some (o, d, []) -> chunked script cs tail ->
  FindAndDelete script b =
    (concat (filter (fun c => c <> b) cs) ++ tail, Z.of_nat (length (filter (fun c => c = b) cs))) /\
  zlen (FindAndDelete script b).1 = zlen script - zlen b * (FindAndDelete script b).2.
Proof.
  intros Hb Hc. pose proof (FindAndDelete_result script b o d cs tail Hb Hc) as E.
  split; [done|]. rewrite E. cbn [fst snd]. rewrite (chunked_concat _ _ _ Hc).
  pose proof (concat_others_length b cs). unfold zlen. rewrite !length_app. lia.
Qed.

Lemma FindAndDelete_exact_witness :
  FindAndDelete [1; 5; 2; 1; 5; 1; 5; OP_CHECKSIG] [1; 5] = ([2; 1; 5; OP_CHECKSIG], 2).
Proof.
  refine (proj1 (FindAndDelete_exact _ [1; 5] 1 [5] [[1; 5]; [2; 1; 5]; [1; 5]; [OP_CHECKSIG]] [] eq_refl _)).
  apply (chunked_op [1; 5] _ 1 [5]); [reflexivity|].
  apply (chunked_op [2; 1; 5] _ 2 [1; 5]); [reflexivity|].
  apply (chunked_op [1; 5] _ 1 [5]); [reflexivity|].
  apply (chunked_op [OP_CHECKSIG] [] OP_CHECKSIG []); [reflexivity|]. by apply chunked_stop.
Defined.

(** ** The BDAP part of a script *)

(** The BDAP part: its two codes, the pushed values and at least one drop. *)
Definition bdap_part (op1 op2 : Z) (vs : list valtype) (drops : list Z) : CScript :=
  [OP_1 + op1 - 1; OP_1 + op2 - 1] ++ concat (map (push_bytes []) vs) ++ drops.

Definition bdap_part_ok (op1 op2 : Z) (vs : list valtype) (drops : list Z) : Prop :=
  1 <= op1 <= 5 /\ 1 <= op2 <= 15 /\ Forall (fun v => zlen v < 2 ^ 32) vs /\
  drops <> [] /\ Forall (fun o => is_drop o = true) drops.

Lemma is_drop_next o t : is_drop o = true -> next_op (o :: t) = Some (o, [], t).
Proof.
  unfold is_drop. intros [E|E]%orb_true_iff; apply Z.eqb_eq in E as ->; done.
Qed.

Lemma push_code_not_drop b : is_drop (push_code b) = false.
Proof.
  pose proof (push_code_range b). unfold is_drop, OP_DROP, OP_2DROP, OP_PUSHDATA4 in *.
  rewrite !(proj2 (Z.eqb_neq _ _)) by lia. done.
Qed.

Lemma collect_pushes_spec vs : forall fuel pre d t acc,
  (length vs < fuel)%nat -> Forall (fun v => zlen v < 2 ^ 32) vs -> is_drop d = true ->
  collect_pushes fuel (pre ++ concat (map (push_bytes []) vs) ++ d :: t) (length pre) acc =
  Some (acc ++ vs, (length (pre ++ concat (map (push_bytes []) vs)) + 1)%nat).
Proof.
  induction vs as [|v vs IH]; intros fuel pre d t acc Hf Hv Hd; destruct fuel as [|fuel]; try (cbn in Hf; lia);
    cbn [map concat collect_pushes app].
  - rewrite (GetOp2_at pre _ _ _ _ (is_drop_next d t Hd)). cbn [op_ok op_code op_pc negb]. rewrite Hd.
    cbn [length]. rewrite !app_nil_r. do 2 f_equal. lia.
  - inversion Hv as [|?? Hv1 Hv2]; subst. rewrite <- app_assoc.
    rewrite (GetOp2_at pre _ _ _ _ (next_op_push v _ Hv1)). cbn [op_ok op_code op_pc op_data negb].
    rewrite push_code_not_drop. pose proof (push_code_range v).
    rewrite (proj2 (Z.leb_le 0 _)), (proj2 (Z.leb_le _ OP_PUSHDATA4)) by lia. cbn [andb negb].
    rewrite app_assoc. rewrite length_app.
    replace (length pre + (length (push_bytes [] v) + length (concat (map (push_bytes []) vs) ++ d :: t) -
      length (concat (map (push_bytes []) vs) ++ d :: t)))%nat with (length (pre ++ push_bytes [] v))
      by (rewrite length_app; lia).
    rewrite IH by (done || cbn in Hf; lia). rewrite <- !app_assoc. cbn [app]. done.
Qed.

Lemma skip_drops_spec drops : forall fuel pre t o d r,
  (length drops < fuel)%nat -> Forall (fun o => is_drop o = true) drops ->
  next_op t = Some (o, d, r) -> is_drop o = false ->
  skip_drops fuel (pre ++ drops ++ t) (length pre) = (length (pre ++ drops) + (length t - length r))%nat.
Proof.
  induction drops as [|x drops IH]; intros fuel pre t o d r Hf Hd Hn Ho; destruct fuel as [|fuel]; try (cbn in Hf; lia);
    cbn [skip_drops app].
  - rewrite (GetOp2_at pre _ _ _ _ Hn). cbn [op_ok op_code op_pc negb]. rewrite Ho, app_nil_r. done.
  - inversion Hd as [|?? Hx Hd']; subst.
    rewrite (GetOp2_at pre _ _ _ _ (is_drop_next x (drops ++ t) Hx)). cbn [op_ok op_code op_pc negb].
    rewrite Hx. cbn [length]. replace (length pre + (S (length (drops ++ t)) - length (drops ++ t)))%nat
      with (length (pre ++ [x])) by (rewrite length_app; cbn; lia).
    change (x :: drops ++ t) with ([x] ++ drops ++ t). rewrite app_assoc.
    rewrite (IH fuel (pre ++ [x]) t o d r) by (done || cbn in Hf; lia). rewrite <- app_assoc. done.
Qed.

Lemma small_int_op n t : 1 <= n <= 16 -> next_op (OP_1 + n - 1 :: t) = Some (OP_1 + n - 1, [], t).
Proof. intros Hn. unfold next_op, OP_1, OP_PUSHDATA4. rewrite (proj2 (Z.leb_gt _ _)) by lia. done. Qed.

Lemma DecodeOP_N_small n : 1 <= n <= 16 -> DecodeOP_N (OP_1 + n - 1) = Some n.
Proof.
  intros Hn. unfold DecodeOP_N, OP_0, OP_1, OP_16. rewrite (proj2 (Z.eqb_neq _ _)) by lia.
  rewrite (proj2 (Z.leb_le _ _)), (proj2 (Z.leb_le _ _)) by lia. cbn [andb]. f_equal. lia.
Qed.

Lemma IsBDAPOp_small n : 1 <= n <= 15 -> IsBDAPOp n = true.
Proof.
  intros Hn. assert (Hc : n = 1 \/ n = 2 \/ n = 3 \/ n = 4 \/ n = 5 \/ n = 6 \/ n = 7 \/ n = 8 \/ n = 9 \/
    n = 10 \/ n = 11 \/ n = 12 \/ n = 13 \/ n = 14 \/ n = 15) by lia.
  by repeat destruct Hc as [-> | Hc]; [..|subst n].
Qed.

Lemma bdap_op1_ok n : 1 <= n <= 5 ->
  (n =? OP_BDAP_NEW) || (n =? OP_BDAP_DELETE) || (n =? OP_BDAP_EXPIRE) || (n =? OP_BDAP_REVOKE) ||
  (n =? OP_BDAP_MODIFY) || (n =? OP_BDAP_MOVE) = true.
Proof.
  intros Hn. assert (Hc : n = 1 \/ n = 2 \/ n = 3 \/ n = 4 \/ n = 5) by lia.
  by repeat destruct Hc as [-> | Hc]; [..|subst n].
Qed.

Lemma length_concat_push vs : (length vs <= length (concat (map (push_bytes []) vs)))%nat.
Proof.
  induction vs as [|v vs IH]; [done|]. cbn [map concat length]. rewrite length_app.
  pose proof (length_push_bytes_pos v). lia.
Qed.

Lemma DecodeBDAPScript_spec op1 op2 vs drops tail o d r :
  bdap_part_ok op1 op2 vs drops -> next_op tail = Some (o, d, r) -> is_drop o = false ->
  DecodeBDAPScript (bdap_part op1 op2 vs drops ++ tail) =
  Some (op1, op2, vs, (length (bdap_part op1 op2 vs drops) + (length tail - length r) - 1)%nat).
Proof.
  intros (H1 & H2 & Hv & Hne & Hd) Hn Ho. unfold bdap_part.
  set (P := concat (map (push_bytes []) vs)). pose proof (length_concat_push vs) as HlP. fold P in HlP.
  destruct drops as [|d0 drops]; [done|]. inversion Hd as [|?? Hd0 Hds]; subst.
  set (a1 := OP_1 + op1 - 1). set (a2 := OP_1 + op2 - 1).
  assert (Hd1 : DecodeOP_N a1 = Some op1) by (apply DecodeOP_N_small; lia).
  assert (Hd2 : DecodeOP_N a2 = Some op2) by (apply DecodeOP_N_small; lia).
  assert (E1 : next_op (a1 :: a2 :: P ++ d0 :: drops ++ tail) = Some (a1, [], a2 :: P ++ d0 :: drops ++ tail))
    by (apply small_int_op; lia).
  assert (E2 : next_op (a2 :: P ++ d0 :: drops ++ tail) = Some (a2, [], P ++ d0 :: drops ++ tail))
    by (apply small_int_op; lia).
  replace (([a1; a2] ++ P ++ d0 :: drops) ++ tail) with ([] ++ a1 :: a2 :: P ++ d0 :: drops ++ tail)
    by (cbn [app]; by rewrite <- app_assoc).
  unfold DecodeBDAPScript. rewrite (GetOp2_at [] _ _ _ _ E1 : GetOp2 _ 0 = _).
  cbn [op_ok op_code op_pc negb length Nat.add]. rewrite Nat.sub_succ_l, Nat.sub_diag by lia.
  assert (Ha1 : (a1 <? OP_1) || (a1 >? OP_16) = false /\ (a2 <? OP_1) || (a2 >? OP_16) = false).
  { unfold a1, a2, OP_1, OP_16. rewrite !Z.gtb_ltb, !(proj2 (Z.ltb_ge _ _)) by lia. done. }
  destruct Ha1 as [-> Ha2]. rewrite Hd1. cbn [mbind option_bind].
  rewrite bdap_op1_ok by done. cbn [negb].
  change ([] ++ a1 :: a2 :: P ++ d0 :: drops ++ tail) with ([a1] ++ a2 :: P ++ d0 :: drops ++ tail).
  rewrite (GetOp2_at [a1] _ _ _ _ E2 : GetOp2 _ 1 = _).
  cbn [op_ok op_code op_pc negb length Nat.add]. rewrite Nat.sub_succ_l, Nat.sub_diag by lia.
  rewrite Ha2. rewrite Hd2. cbn [mbind option_bind].
  rewrite IsBDAPOp_small by done. cbn [negb].
  change ([a1] ++ a2 :: P ++ d0 :: drops ++ tail) with ([a1; a2] ++ P ++ d0 :: drops ++ tail).
  change 2%nat with (length [a1; a2]) at 1.
  rewrite (collect_pushes_spec vs _ [a1; a2] d0 (drops ++ tail) []);
    [|rewrite !length_app; cbn [length]; fold P; lia|done|done]. fold P.
  cbn [mbind option_bind app]. do 2 f_equal. f_equal.
  change (a1 :: a2 :: P ++ d0 :: drops ++ tail) with ([a1; a2] ++ P ++ ([d0] ++ drops ++ tail)).
  rewrite !(app_assoc [a1; a2]), (app_assoc _ [d0]).
  replace (length (a1 :: a2 :: P) + 1)%nat with (length (([a1; a2] ++ P) ++ [d0]))
    by (rewrite length_app; cbn; lia).
  rewrite (skip_drops_spec drops _ _ tail o d r); [|rewrite !length_app; cbn; lia|done..].
  f_equal. rewrite !length_app. cbn [length]. rewrite ?length_app. cbn [length]. lia.
Qed.

Lemma RemoveBDAPScript_spec op1 op2 vs drops tail o d r :
  bdap_part_ok op1 op2 vs drops -> next_op tail = Some (o, d, r) -> is_drop o = false ->
  RemoveBDAPScript (bdap_part op1 op2 vs drops ++ tail) =
  Some (drop (length tail - length r - 1) tail).
Proof.
  intros Hok Hn Ho. unfold RemoveBDAPScript.
  rewrite (DecodeBDAPScript_spec _ _ _ _ _ _ _ _ Hok Hn Ho). cbn [mbind option_bind]. f_equal.
  apply next_op_shrinks in Hn.
  rewrite drop_app_ge by lia. f_equal. lia.
Qed.

(** Removing the BDAP part.  When the script after the BDAP part starts
    with a one-byte instruction other than a drop (as pay-to-pubkey-hash and
    pay-to-script-hash scripts do), [RemoveBDAPScript] returns exactly that
    script, whatever values the BDAP part pushes. *)
Theorem RemoveBDAPScript_exact op1 op2 vs drops o rest :
  bdap_part_ok op1 op2 vs drops -> o = OP_0 \/ OP_PUSHDATA4 < o -> is_drop o = false ->
  RemoveBDAPScript (bdap_part op1 op2 vs drops ++ o :: rest) = Some (o :: rest).
Proof.
  intros Hok Ho Hd.
  assert (Hn : next_op (o :: rest) = Some (o, [], rest)).
  { destruct Ho as [-> | Ho].
    - change (next_op (OP_0 :: rest)) with
        (if (zlen rest <? 0 : bool) then None else Some (OP_0, take 0 rest, drop 0 rest)).
      by rewrite (proj2 (Z.ltb_ge _ _)) by (unfold zlen; lia).
    - unfold next_op. by rewrite (proj2 (Z.leb_gt _ _)) by done. }
  rewrite (RemoveBDAPScript_spec _ _ _ _ _ _ _ _ Hok Hn Hd). cbn [length].
  replace (S (length rest) - length rest - 1)%nat with 0%nat by lia. done.
Qed.

Lemma RemoveBDAPScript_exact_witness :
  RemoveBDAPScript ([OP_1; OP_1 + 5; 3; 1; 2; 3; OP_2DROP; OP_DROP] ++ [OP_DUP; OP_HASH160; 1; 9]) =
  Some [OP_DUP; OP_HASH160; 1; 9].
Proof.
  apply (RemoveBDAPScript_exact 1 6 [[1; 2; 3]] [OP_2DROP; OP_DROP] OP_DUP [OP_HASH160; 1; 9]).
  - split; [lia|]. split; [lia|]. split; [by repeat constructor|]. split; [done|by repeat constructor].
  - right. reflexivity.
  - reflexivity.
Defined.

(** The removal goes wrong before a push.  When the script after the BDAP
    part starts with a direct push of [data] (as a pay-to-pubkey script does),
    [RemoveBDAPScript] steps back a single byte instead of a whole
    instruction: what it returns starts inside the pushed data, with its last
    byte read as an opcode. *)
Theorem RemoveBDAPScript_splits_push op1 op2 vs drops data z rest :
  bdap_part_ok op1 op2 vs drops -> zlen (data ++ [z]) < OP_PUSHDATA1 ->
  RemoveBDAPScript (bdap_part op1 op2 vs drops ++ push_bytes [] (data ++ [z]) ++ rest) = Some (z :: rest).
Proof.
  intros Hok Hl. unfold OP_PUSHDATA1 in Hl.
  rewrite (RemoveBDAPScript_spec _ _ _ _ _ _ _ _ Hok (next_op_push (data ++ [z]) rest ltac:(lia)));
    [|apply push_code_not_drop].
  rewrite length_app. replace (length (push_bytes [] (data ++ [z])) + length rest - length rest - 1)%nat
    with (length (push_bytes [] (data ++ [z])) - 1)%nat by lia.
  unfold push_bytes, OP_PUSHDATA1. rewrite (proj2 (Z.ltb_lt _ _)) by lia.
  cbn [app length]. rewrite length_app. cbn [length].
  replace (S (length data + 1) - 1)%nat with (S (length data)) by lia. cbn [drop].
  rewrite <- app_assoc, drop_app_length. done.
Qed.

Lemma RemoveBDAPScript_splits_push_witness :
  RemoveBDAPScript ([OP_1; OP_1 + 5; OP_DROP] ++ push_bytes [] (repeat 2 32 ++ [81]) ++ [OP_CHECKSIG]) =
  Some [81; OP_CHECKSIG].
Proof.
  apply (RemoveBDAPScript_splits_push 1 6 [] [OP_DROP] (repeat 2 32) 81 [OP_CHECKSIG]).
  - split; [lia|]. split; [lia|]. split; [constructor|]. split; [done|by repeat constructor].
  - reflexivity.
Defined.

End Script.
