(* ===== verification/Transaction.v ===== *)
(** * Transactions (primitives/transaction.h, primitives/transaction.cpp, amount.h, amount.cpp)

    Outpoints, inputs, outputs and transactions with their (de)serialization,
    amounts and fee rates.  A transaction's cached hash is not a field: it is
    the value of [GetHash], the serialization hash, which the components that
    need it take as a parameter. *)

From stdpp Require Import base list list_numbers gmap numbers option.
From Stdlib Require Import ZArith Lia.
From S2P Require Import Prelude Serialize Script.

Local Open Scope Z_scope.

Module Transaction.
Import Serialize Script.

(** ** Amounts *)

Definition COIN : Z := 100000000.
Definition CENT : Z := 1000000.
Definition BDAP_CREDIT : Z := 100001.
Definition MAX_MONEY : Z := INT64_MAX.
Definition MoneyRange (nValue : Z) : bool := (nValue >=? 0) && (nValue <=? MAX_MONEY).

(** [CFeeRate]: its field [nSatoshisPerK].  [None] is a failed assertion;
    64-bit products wrap, and the division truncates towards zero. *)
Definition CFeeRate_of (nFeePaid nBytes_ : Z) : option Z :=
  if nBytes_ <=? INT64_MAX then
    let nSize := nBytes_ in
    Some (if nSize >? 0 then Z.quot (i64 (nFeePaid * 1000)) nSize else 0)
  else None.

Definition GetFee (nSatoshisPerK nBytes_ : Z) : option Z :=
  if nBytes_ <=? INT64_MAX then
    let nSize := nBytes_ in
    let nFee := Z.quot (i64 (nSatoshisPerK * nSize)) 1000 in
    Some (if (nFee =? 0) && negb (nSize =? 0) then
            (if nSatoshisPerK >? 0 then 1 else if nSatoshisPerK <? 0 then -1 else nFee)
          else nFee)
  else None.

(** ** Data *)

Record COutPoint : Type := mkCOutPoint { hash : uint256; n : Z }.

#[export] Instance COutPoint_eq_dec : EqDecision COutPoint.
Proof. solve_decision. Defined.

#[export] Instance COutPoint_countable : Countable COutPoint.
Proof.
  apply (inj_countable' (fun o => (hash o, n o)) (fun p => mkCOutPoint p.1 p.2)).
  by intros [].
Defined.

Record CTxIn : Type := mkCTxIn { prevout : COutPoint; scriptSig : CScript; nSequence : Z }.
Record CTxOut : Type := mkCTxOut { nValue : Z; scriptPubKey : CScript; nRounds : Z }.
Record CTransaction : Type := mkCTransaction {
  nVersion : Z;
  vin : list CTxIn;
  vout : list CTxOut;
  nLockTime : Z
}.

#[export] Instance CTxIn_eq_dec : EqDecision CTxIn.
Proof. solve_decision. Defined.
#[export] Instance CTxOut_eq_dec : EqDecision CTxOut.
Proof. solve_decision. Defined.
#[export] Instance CTransaction_eq_dec : EqDecision CTransaction.
Proof. solve_decision. Defined.

Definition SEQUENCE_FINAL : Z := 0xffffffff.
Definition SEQUENCE_LOCKTIME_DISABLE_FLAG : Z := 2 ^ 31.
Definition SEQUENCE_LOCKTIME_TYPE_FLAG : Z := 2 ^ 22.
Definition SEQUENCE_LOCKTIME_MASK : Z := 0x0000ffff.
Definition SEQUENCE_LOCKTIME_GRANULARITY : Z := 9.

(** [uint256()] and [IsNull]. *)
Definition uint256_null : uint256 := repeat 0 32.
Definition uint256_IsNull (h : uint256) : bool := forallb (fun b => b =? 0) h.

Definition COutPoint_SetNull : COutPoint := mkCOutPoint uint256_null (u32 (-1)).
Definition COutPoint_IsNull (o : COutPoint) : bool := uint256_IsNull (hash o) && (n o =? u32 (-1)).

(** [CTxOut::SetNull] and [CTxOut::IsNull]. *)
Definition CTxOut_SetNull : CTxOut := mkCTxOut (-1) [] (-10).
Definition CTxOut_IsNull (o : CTxOut) : bool := nValue o =? -1.

Definition IsCoinBase (tx : CTransaction) : bool :=
  match vin tx with
  | [i] => COutPoint_IsNull (prevout i)
  | _ => false
  end.

(** [CTxOut::IsBDAP] and [CTxOut::IsData]. *)
Definition IsBDAP (o : CTxOut) : bool :=
  if zlen (scriptPubKey o) <? 2 then false
  else
    let r := GetOp2 (scriptPubKey o) 0 in
    if negb (op_ok r) then false
    else if (op_code r <? OP_1) || (op_code r >? OP_16) then false
    else match DecodeOP_N (op_code r) with
         | Some op => (op =? OP_BDAP_NEW) || (op =? OP_BDAP_DELETE) || (op =? OP_BDAP_EXPIRE) ||
                      (op =? OP_BDAP_MODIFY) || (op =? OP_BDAP_MOVE)
         | None => false
         end.

Definition IsData (o : CTxOut) : bool :=
  let r := GetOp2 (scriptPubKey o) 0 in
  if negb (op_ok r) then false else op_code r =? OP_RETURN.

(** [GetValueOut]; [None] is the exception. *)
Fixpoint GetValueOut_loop (vout : list CTxOut) (nValueOut : Z) : option Z :=
  match vout with
  | [] => Some nValueOut
  | o :: vout =>
      let nValueOut := i64 (nValueOut + nValue o) in
      if negb (MoneyRange (nValue o)) || negb (MoneyRange nValueOut) then None
      else GetValueOut_loop vout nValueOut
  end.
Definition GetValueOut (tx : CTransaction) : option Z := GetValueOut_loop (vout tx) 0.

(** ** Serialization *)

Definition c_outpoint : codec COutPoint :=
  c_iso (fun p => mkCOutPoint p.1 p.2) (fun o => (hash o, n o)) (c_pair (c_blob 32) c_uint32).

Definition c_txin : codec CTxIn :=
  c_iso (fun p => mkCTxIn p.1 p.2.1 p.2.2) (fun i => (prevout i, (scriptSig i, nSequence i)))
        (c_pair c_outpoint (c_pair c_bytes c_uint32)).

(** Only the value and the script are serialized; a fresh [CTxOut] has
    [nRounds = -10]. *)
Definition c_txout : codec CTxOut :=
  c_iso (fun p => mkCTxOut p.1 p.2 (-10)) (fun o => (nValue o, scriptPubKey o))
        (c_pair c_int64 c_bytes).

Definition c_transaction : codec CTransaction :=
  c_iso (fun p => mkCTransaction p.1 p.2.1 p.2.2.1 p.2.2.2)
        (fun t => (nVersion t, (vin t, (vout t, nLockTime t))))
        (c_pair c_int32 (c_pair (c_vector c_txin) (c_pair (c_vector c_txout) c_uint32))).

Definition GetTotalSize (tx : CTransaction) : Z := zlen (Ser c_transaction tx).

(** [CalculateModifiedSize]. *)
Definition CalculateModifiedSize (tx : CTransaction) (nTxSize : Z) : Z :=
  let nTxSize := if nTxSize =? 0 then u32 (GetTotalSize tx) else nTxSize in
  fold_left (fun nTxSize i =>
    let offset := 41 + Z.min 110 (u32 (zlen (scriptSig i))) in
    if nTxSize >? offset then nTxSize - offset else nTxSize) (vin tx) nTxSize.

(** [GetDustThreshold] and [IsDust]. *)
Definition GetDustThreshold (o : CTxOut) (minRelayTxFee : Z) : option Z :=
  if IsUnspendable (scriptPubKey o) then Some 0
  else
    let nSize := zlen (Ser c_txout o) + 148 in
    fee ← GetFee minRelayTxFee nSize; Some (i64 (3 * fee)).

Definition IsDust (o : CTxOut) (minRelayTxFee : Z) : option bool :=
  t ← GetDustThreshold o minRelayTxFee; Some (nValue o <? t).

(** * Theorems *)

(** ** Serialization *)

Definition outpoint_ok (o : COutPoint) : Prop :=
  (length (hash o) = 32%nat /\ Forall is_byte (hash o)) /\ 0 <= n o < 2 ^ 32.
Definition txin_ok (i : CTxIn) : Prop :=
  outpoint_ok (prevout i) /\ (size_ok (scriptSig i) /\ Forall is_byte (scriptSig i)) /\ 0 <= nSequence i < 2 ^ 32.
Definition txout_ok (o : CTxOut) : Prop :=
  - 2 ^ 63 <= nValue o < 2 ^ 63 /\ (size_ok (scriptPubKey o) /\ Forall is_byte (scriptPubKey o)) /\ nRounds o = -10.
Definition transaction_ok (t : CTransaction) : Prop :=
  - 2 ^ 31 <= nVersion t < 2 ^ 31 /\
  (size_ok (vin t) /\ Forall txin_ok (vin t)) /\ (size_ok (vout t) /\ Forall txout_ok (vout t)) /\
  0 <= nLockTime t < 2 ^ 32.

#[export] Instance outpoint_rt : RoundTrip c_outpoint outpoint_ok.
Proof. apply (iso_rt _ _ _ _ _). intros [h k] [[? ?] ?]. done. Qed.
#[export] Instance outpoint_can : Canonical c_outpoint outpoint_ok.
Proof. apply (iso_can _ _ _ _ _). intros [h k] [[? ?] ?]. done. Qed.

#[export] Instance txin_rt : RoundTrip c_txin txin_ok.
Proof. apply (iso_rt _ _ _ _ _). intros [p s q] (? & [? ?] & ?). done. Qed.
#[export] Instance txin_can : Canonical c_txin txin_ok.
Proof. apply (iso_can _ _ _ _ _). intros [p [s q]] (? & [? ?] & ?). done. Qed.

#[export] Instance txout_rt : RoundTrip c_txout txout_ok.
Proof. apply (iso_rt _ _ _ _ _). intros [v s r] (? & [? ?] & E). cbn in E. by subst r. Qed.
#[export] Instance txout_can : Canonical c_txout txout_ok.
Proof. apply (iso_can _ _ _ _ _). intros [v s] (? & [? ?]). done. Qed.

#[export] Instance transaction_rt : RoundTrip c_transaction transaction_ok.
Proof. apply (iso_rt _ _ _ _ _). intros [v i o l] H. done. Qed.
#[export] Instance transaction_can : Canonical c_transaction transaction_ok.
Proof. apply (iso_can _ _ _ _ _). intros [v [i [o l]]] H. done. Qed.

(** C39: the transaction encoding is a bijection.  A well-formed transaction is
    read back unchanged from its serialization, whatever follows it in the
    stream; and conversely every byte string that decodes to a transaction is
    the serialization of that transaction, so a transaction has no second
    encoding under which it would hash differently. *)
Theorem transaction_encoding_bijective tx bs rest :
  (transaction_ok tx -> Unser c_transaction (Ser c_transaction tx ++ rest) = Some (tx, rest)) /\
  (Forall is_byte bs -> Unser c_transaction bs = Some (tx, rest) ->
     bs = Ser c_transaction tx ++ rest /\ transaction_ok tx).
Proof.
  split; intros; [by apply (roundtrip (c := c_transaction) (P := transaction_ok))|].
  by apply (canonical (c := c_transaction) (P := transaction_ok)).
Qed.

(** A sample transaction: one input, two outputs. *)
Definition sample_tx : CTransaction :=
  mkCTransaction 2 [mkCTxIn (mkCOutPoint (repeat 7 32) 1) [1; 9] SEQUENCE_FINAL]
    [mkCTxOut 5000 [OP_DUP; OP_CHECKSIG] (-10); mkCTxOut 7000 [OP_RETURN] (-10)] 0.

#[export] Instance transaction_ok_dec t : Decision (transaction_ok t).
Proof.
  unfold transaction_ok, size_ok. repeat apply and_dec; try apply _; apply Forall_dec; intros x;
    unfold txin_ok, txout_ok, outpoint_ok, size_ok; repeat apply and_dec; apply _.
Defined.

Lemma transaction_encoding_bijective_witness :
  Unser c_transaction (Ser c_transaction sample_tx ++ [42]) = Some (sample_tx, [42]) /\
  transaction_ok sample_tx.
Proof.
  assert (H : Unser c_transaction (Ser c_transaction sample_tx ++ [42]) = Some (sample_tx, [42])).
  { apply (proj1 (transaction_encoding_bijective sample_tx [] [42])). by_decide. }
  split; [exact H|].
  apply (proj2 (transaction_encoding_bijective sample_tx _ [42])) in H; [exact (proj2 H)|]. by_decide.
Defined.

(** ** Values *)

Definition sum_values (vout : list CTxOut) : Z := foldr (fun o s => nValue o + s) 0 vout.

Lemma MoneyRange_spec v : MoneyRange v = true <-> 0 <= v <= MAX_MONEY.
Proof. unfold MoneyRange. rewrite andb_true_iff, Z.geb_le, Z.leb_le. done. Qed.

Lemma sum_values_nonneg vout : Forall (fun o => 0 <= nValue o <= MAX_MONEY) vout -> 0 <= sum_values vout.
Proof. induction 1 as [|o vout Ho _ IH]; cbn [sum_values foldr]; [lia|]. fold (sum_values vout). lia. Qed.

(** The 64-bit sum of two amounts in range wraps to a negative value exactly
    when the true sum is out of range. *)
Lemma i64_add_range a b : 0 <= a <= MAX_MONEY -> 0 <= b <= MAX_MONEY ->
  MoneyRange (i64 (a + b)) = true <-> a + b <= MAX_MONEY.
Proof.
  unfold MAX_MONEY, INT64_MAX. intros Ha Hb. rewrite MoneyRange_spec. unfold MAX_MONEY, INT64_MAX. unfold i64.
  destruct (Z.le_gt_cases (a + b) (2 ^ 63 - 1)) as [Hle|Hgt].
  - rewrite Z.mod_small by lia. lia.
  - replace (a + b + 2 ^ 63) with (a + b - 2 ^ 63 + 1 * 2 ^ 64) by lia. rewrite Z.mod_add by lia.
    rewrite Z.mod_small by lia. lia.
Qed.

Lemma GetValueOut_loop_spec vout : forall acc,
  0 <= acc <= MAX_MONEY ->
  GetValueOut_loop vout acc =
  if bool_decide (Forall (fun o => 0 <= nValue o <= MAX_MONEY) vout /\ acc + sum_values vout <= MAX_MONEY)
  then Some (acc + sum_values vout) else None.
Proof.
  induction vout as [|o vout IH]; intros acc Ha; cbn [GetValueOut_loop sum_values foldr].
  - rewrite bool_decide_eq_true_2 by (split; [constructor|lia]). f_equal. lia.
  - fold (sum_values vout). destruct (MoneyRange (nValue o)) eqn:Em; cbn [negb orb].
    + apply MoneyRange_spec in Em. destruct (MoneyRange (i64 (acc + nValue o))) eqn:Es; cbn [negb].
      * apply i64_add_range in Es; [|lia..].
        assert (Ei : i64 (acc + nValue o) = acc + nValue o) by (apply i64_small; unfold MAX_MONEY, INT64_MAX in *; lia).
        rewrite Ei, IH by lia.
        assert (Hiff : (Forall (fun o => 0 <= nValue o <= MAX_MONEY) (o :: vout) /\ acc + (nValue o + sum_values vout) <= MAX_MONEY)
          <-> (Forall (fun o => 0 <= nValue o <= MAX_MONEY) vout /\ acc + nValue o + sum_values vout <= MAX_MONEY)).
        { rewrite Forall_cons_iff. split; intros; repeat split; try tauto; lia. }
        rewrite (bool_decide_ext _ _ Hiff), Z.add_assoc. done.
      * rewrite bool_decide_eq_false_2; [done|]. intros [Hf Hle]. apply Forall_cons_iff in Hf as [_ Hf].
        pose proof (sum_values_nonneg _ Hf).
        assert (MoneyRange (i64 (acc + nValue o)) = true) by (apply i64_add_range; lia). congruence.
    + rewrite bool_decide_eq_false_2; [done|]. intros [Hf _]. apply Forall_cons_iff in Hf as [Ho _].
      apply MoneyRange_spec in Ho. congruence.
Qed.

(** [GetValueOut] returns the exact sum of the output values when every
    value and the sum are at most [MAX_MONEY], and throws in every other case:
    although [MAX_MONEY] is the largest 64-bit integer, so that the running
    sum can leave the 64-bit range, a wrapped sum is never returned. *)
Theorem GetValueOut_exact tx :
  GetValueOut tx =
  if bool_decide (Forall (fun o => 0 <= nValue o <= MAX_MONEY) (vout tx) /\ sum_values (vout tx) <= MAX_MONEY)
  then Some (sum_values (vout tx)) else None.
Proof. unfold GetValueOut. rewrite GetValueOut_loop_spec by (unfold MAX_MONEY, INT64_MAX; lia). done. Qed.

(** ** Fee rates *)

(** Fee rates are consistent with the fee they come from.  For a
    transaction of [size] bytes that paid [fee] (with no 64-bit overflow), the
    fee that [GetFee] asks of that size at the rate [CFeeRate(fee, size)] is at
    least 0, at most [fee], and positive whenever the rate is. *)
Theorem FeeRate_consistent fee size rate :
  0 <= fee -> fee * 1000 < 2 ^ 63 -> 0 < size -> size < 2 ^ 63 ->
  CFeeRate_of fee size = Some rate ->
  exists f, GetFee rate size = Some f /\ 0 <= f <= fee /\ (0 < rate -> 0 < f) /\
    (0 < f -> f = 1 \/ f = rate * size / 1000).
Proof.
  intros Hf Hf2 Hs Hs2 Hr. unfold CFeeRate_of, GetFee, INT64_MAX in *.
  rewrite (proj2 (Z.leb_le size _)) in * by lia.
  rewrite (Z.gtb_ltb size), (proj2 (Z.ltb_lt 0 size)), (i64_small (fee * 1000)) in Hr by lia.
  rewrite Z.quot_div_nonneg in Hr by lia. injection Hr as Hr.
  assert (Hrate : 0 <= rate) by (rewrite <- Hr; apply Z.div_pos; lia).
  assert (Hrs : rate * size <= fee * 1000) by (rewrite <- Hr, Z.mul_comm; apply Z.mul_div_le; lia).
  assert (H0 : 0 <= rate * size) by (apply Z.mul_nonneg_nonneg; lia).
  rewrite (i64_small (rate * size)) by lia. rewrite Z.quot_div_nonneg by lia.
  assert (Hq : 0 <= rate * size / 1000 <= fee).
  { split; [apply Z.div_pos; lia|]. apply Z.div_le_upper_bound; lia. }
  rewrite (proj2 (Z.eqb_neq size 0)) by lia. cbn [negb]. rewrite andb_true_r.
  eexists. split; [reflexivity|]. destruct (Z.eqb_spec (rate * size / 1000) 0) as [E|].
  - destruct (Z.gtb_spec rate 0) as [Hp|].
    + assert (0 < fee) by nia. lia.
    + rewrite (proj2 (Z.ltb_ge rate 0)) by lia. rewrite E. lia.
  - assert (0 < rate * size / 1000) by lia. lia.
Qed.

Lemma FeeRate_consistent_witness :
  exists f, GetFee 4000 250 = Some f /\ 0 <= f <= 1000 /\ (0 < 4000 -> 0 < f) /\ (0 < f -> f = 1 \/ f = 4000 * 250 / 1000).
Proof. exact (FeeRate_consistent 1000 250 4000 ltac:(lia) ltac:(lia) ltac:(lia) ltac:(lia) eq_refl). Defined.

End Transaction.
