(* ===== verification/Interpreter.v ===== *)
(** * The script interpreter (script/interpreter.h, script/interpreter.cpp)

    [EvalScript] and [VerifyScript] in a small error monad: a computation
    returns a value, fails with a [ScriptError], throws an exception (which
    [EvalScript] catches), or fails an assertion.  The stack and the
    condition stack are lists with their top first, so that [stacktop(-i)] is
    the [i]-th element; [EvalScript] leaves its stack argument to the caller
    only on success, the one case in which [VerifyScript] looks at it.

    The signature checker is the class [BaseSignatureChecker], as in the C++
    code; the hash functions and the low-S test of the signature library are
    the class [Crypto]. *)

From stdpp Require Import base list list_numbers numbers option.
From Stdlib Require Import ZArith Lia.
From S2P Require Import Prelude Serialize Script Transaction.

Local Open Scope Z_scope.

Module Interpreter.
Import Serialize Script Transaction.

(** ** Errors *)

Inductive ScriptError : Type :=
  | SCRIPT_ERR_OK | SCRIPT_ERR_UNKNOWN_ERROR | SCRIPT_ERR_EVAL_FALSE | SCRIPT_ERR_OP_RETURN
  | SCRIPT_ERR_SCRIPT_SIZE | SCRIPT_ERR_PUSH_SIZE | SCRIPT_ERR_OP_COUNT | SCRIPT_ERR_STACK_SIZE
  | SCRIPT_ERR_SIG_COUNT | SCRIPT_ERR_PUBKEY_COUNT
  | SCRIPT_ERR_VERIFY | SCRIPT_ERR_EQUALVERIFY | SCRIPT_ERR_CHECKMULTISIGVERIFY
  | SCRIPT_ERR_CHECKSIGVERIFY | SCRIPT_ERR_NUMEQUALVERIFY
  | SCRIPT_ERR_BAD_OPCODE | SCRIPT_ERR_DISABLED_OPCODE | SCRIPT_ERR_INVALID_STACK_OPERATION
  | SCRIPT_ERR_INVALID_ALTSTACK_OPERATION | SCRIPT_ERR_UNBALANCED_CONDITIONAL
  | SCRIPT_ERR_NEGATIVE_LOCKTIME | SCRIPT_ERR_UNSATISFIED_LOCKTIME
  | SCRIPT_ERR_SIG_HASHTYPE | SCRIPT_ERR_SIG_DER | SCRIPT_ERR_MINIMALDATA | SCRIPT_ERR_SIG_PUSHONLY
  | SCRIPT_ERR_SIG_HIGH_S | SCRIPT_ERR_SIG_NULLDUMMY | SCRIPT_ERR_PUBKEYTYPE | SCRIPT_ERR_CLEANSTACK
  | SCRIPT_ERR_DISCOURAGE_UPGRADABLE_NOPS.

(** The exceptions that reach the [catch (...)] of [EvalScript]. *)
Inductive exception : Type := scriptnum_error | popstack_empty | out_of_range.

Inductive result (A : Type) : Type :=
  | Ret (a : A)
  | Err (e : ScriptError)
  | Throw (x : exception)
  | AssertFail.
Arguments Ret {A} _.
Arguments Err {A} _.
Arguments Throw {A} _.
Arguments AssertFail {A}.

#[export] Instance result_ret : MRet result := fun A a => Ret a.
#[export] Instance result_bind : MBind result := fun A B f m =>
  match m with
  | Ret a => f a
  | Err e => Err e
  | Throw x => Throw x
  | AssertFail => AssertFail
  end.

(** ** Flags and collaborators *)

Definition SCRIPT_VERIFY_P2SH : Z := 2 ^ 0.
Definition SCRIPT_VERIFY_STRICTENC : Z := 2 ^ 1.
Definition SCRIPT_VERIFY_DERSIG : Z := 2 ^ 2.
Definition SCRIPT_VERIFY_LOW_S : Z := 2 ^ 3.
Definition SCRIPT_VERIFY_NULLDUMMY : Z := 2 ^ 4.
Definition SCRIPT_VERIFY_SIGPUSHONLY : Z := 2 ^ 5.
Definition SCRIPT_VERIFY_MINIMALDATA : Z := 2 ^ 6.
Definition SCRIPT_VERIFY_DISCOURAGE_UPGRADABLE_NOPS : Z := 2 ^ 7.
Definition SCRIPT_VERIFY_CLEANSTACK : Z := 2 ^ 8.
Definition SCRIPT_VERIFY_CHECKLOCKTIMEVERIFY : Z := 2 ^ 9.
Definition SCRIPT_VERIFY_CHECKSEQUENCEVERIFY : Z := 2 ^ 10.

(** [(flags & f) != 0]. *)
Definition has_flag (flags f : Z) : bool := negb (Z.land flags f =? 0).

Definition SIGHASH_ALL : Z := 1.
Definition SIGHASH_NONE : Z := 2.
Definition SIGHASH_SINGLE : Z := 3.
Definition SIGHASH_ANYONECANPAY : Z := 0x80.

Class BaseSignatureChecker : Type := {
  CheckSig : valtype -> valtype -> CScript -> bool;
  CheckLockTime : Z -> bool;
  CheckSequence : Z -> bool
}.

(** [BaseSignatureChecker] itself, which rejects everything. *)
Definition base_checker : BaseSignatureChecker := {|
  CheckSig _ _ _ := false;
  CheckLockTime _ := false;
  CheckSequence _ := false
|}.

Class Crypto : Type := {
  RIPEMD160 : list Z -> list Z;
  SHA1 : list Z -> list Z;
  SHA256 : list Z -> list Z;
  CheckLowS : list Z -> bool
}.

Section Eval.
Context `{!Crypto}.

(** [CHash160] and [CHash256] (hash.h). *)
Definition CHash160 (d : list Z) : list Z := RIPEMD160 (SHA256 d).
Definition CHash256 (d : list Z) : list Z := SHA256 (SHA256 d).

(** ** Stack elements *)

Fixpoint CastToBool_loop (vch : valtype) : bool :=
  match vch with
  | [] => false
  | b :: r =>
      if negb (b =? 0) then
        match r with
        | [] => negb (b =? 128)
        | _ => true
        end
      else CastToBool_loop r
  end.
Definition CastToBool (vch : valtype) : bool := CastToBool_loop vch.

Definition stacktop (s : list valtype) (i : Z) : result valtype :=
  if i <=? 0 then Throw out_of_range
  else match s !! Z.to_nat (i - 1) with
       | Some v => Ret v
       | None => Throw out_of_range
       end.

Definition popstack (s : list valtype) : result (list valtype) :=
  match s with
  | [] => Throw popstack_empty
  | _ :: s => Ret s
  end.

Definition swap_tops (s : list valtype) (i j : Z) : result (list valtype) :=
  a ← stacktop s i;
  b ← stacktop s j;
  Ret (<[Z.to_nat (i - 1) := b]> (<[Z.to_nat (j - 1) := a]> s)).

Definition vchFalse : valtype := [].
Definition vchTrue : valtype := [1].

(** ** Encodings of keys and signatures *)

Definition IsCompressedOrUncompressedPubKey (vchPubKey : valtype) : bool :=
  if zlen vchPubKey <? 33 then false
  else if nth 0 vchPubKey 0 =? 4 then zlen vchPubKey =? 65
  else if (nth 0 vchPubKey 0 =? 2) || (nth 0 vchPubKey 0 =? 3) then zlen vchPubKey =? 33
  else false.

Definition sig_at (sig : valtype) (i : Z) : Z := nth (Z.to_nat i) sig 0.

Definition IsValidSignatureEncoding (sig : valtype) : bool :=
  if zlen sig <? 9 then false
  else if zlen sig >? 73 then false
  else if negb (sig_at sig 0 =? 0x30) then false
  else if negb (sig_at sig 1 =? zlen sig - 3) then false
  else
    let lenR := sig_at sig 3 in
    if 5 + lenR >=? zlen sig then false
    else
      let lenS := sig_at sig (5 + lenR) in
      if negb (lenR + lenS + 7 =? zlen sig) then false
      else if negb (sig_at sig 2 =? 2) then false
      else if lenR =? 0 then false
      else if negb (Z.land (sig_at sig 4) 128 =? 0) then false
      else if (lenR >? 1) && (sig_at sig 4 =? 0) && (Z.land (sig_at sig 5) 128 =? 0) then false
      else if negb (sig_at sig (lenR + 4) =? 2) then false
      else if lenS =? 0 then false
      else if negb (Z.land (sig_at sig (lenR + 6)) 128 =? 0) then false
      else if (lenS >? 1) && (sig_at sig (lenR + 6) =? 0) && (Z.land (sig_at sig (lenR + 7)) 128 =? 0) then false
      else true.

Definition IsLowDERSignature (vchSig : valtype) : result unit :=
  if negb (IsValidSignatureEncoding vchSig) then Err SCRIPT_ERR_SIG_DER
  else if negb (CheckLowS (take (length vchSig - 1) vchSig)) then Err SCRIPT_ERR_SIG_HIGH_S
  else Ret ().

Definition IsDefinedHashtypeSignature (vchSig : valtype) : bool :=
  match vchSig with
  | [] => false
  | _ =>
      let nHashType := Z.land (List.last vchSig 0) (255 - SIGHASH_ANYONECANPAY) in
      negb ((nHashType <? SIGHASH_ALL) || (nHashType >? SIGHASH_SINGLE))
  end.

Definition CheckSignatureEncoding (vchSig : valtype) (flags : Z) : result unit :=
  if zlen vchSig =? 0 then Ret ()
  else if has_flag flags (Z.lor (Z.lor SCRIPT_VERIFY_DERSIG SCRIPT_VERIFY_LOW_S) SCRIPT_VERIFY_STRICTENC)
          && negb (IsValidSignatureEncoding vchSig)
  then Err SCRIPT_ERR_SIG_DER
  else
    _ ← (if has_flag flags SCRIPT_VERIFY_LOW_S then IsLowDERSignature vchSig else Ret ());
    if has_flag flags SCRIPT_VERIFY_STRICTENC && negb (IsDefinedHashtypeSignature vchSig)
    then Err SCRIPT_ERR_SIG_HASHTYPE
    else Ret ().

Definition CheckPubKeyEncoding (vchPubKey : valtype) (flags : Z) : result unit :=
  if has_flag flags SCRIPT_VERIFY_STRICTENC && negb (IsCompressedOrUncompressedPubKey vchPubKey)
  then Err SCRIPT_ERR_PUBKEYTYPE
  else Ret ().

Definition CheckMinimalPush (data : valtype) (opcode : Z) : bool :=
  if zlen data =? 0 then opcode =? OP_0
  else if (zlen data =? 1) && (nth 0 data 0 >=? 1) && (nth 0 data 0 <=? 16) then
    opcode =? OP_1 + (nth 0 data 0 - 1)
  else if (zlen data =? 1) && (nth 0 data 0 =? 0x81) then opcode =? OP_1NEGATE
  else if zlen data <=? 75 then opcode =? zlen data
  else if zlen data <=? 255 then opcode =? OP_PUSHDATA1
  else if zlen data <=? 65535 then opcode =? OP_PUSHDATA2
  else true.

(** ** Stack instructions *)

Definition INVALID_STACK : result (list valtype) := Err SCRIPT_ERR_INVALID_STACK_OPERATION.

(** The instructions that only rearrange the stack; [None] for the others. *)
Definition stack_op (opcode : Z) (s : list valtype) : option (result (list valtype)) :=
  if opcode =? OP_2DROP then Some (
    if zlen s <? 2 then INVALID_STACK else s ← popstack s; popstack s)
  else if opcode =? OP_2DUP then Some (
    if zlen s <? 2 then INVALID_STACK else
    vch1 ← stacktop s 2; vch2 ← stacktop s 1; Ret (vch2 :: vch1 :: s))
  else if opcode =? OP_3DUP then Some (
    if zlen s <? 3 then INVALID_STACK else
    vch1 ← stacktop s 3; vch2 ← stacktop s 2; vch3 ← stacktop s 1; Ret (vch3 :: vch2 :: vch1 :: s))
  else if opcode =? OP_2OVER then Some (
    if zlen s <? 4 then INVALID_STACK else
    vch1 ← stacktop s 4; vch2 ← stacktop s 3; Ret (vch2 :: vch1 :: s))
  else if opcode =? OP_2ROT then Some (
    if zlen s <? 6 then INVALID_STACK else
    vch1 ← stacktop s 6; vch2 ← stacktop s 5;
    let s := take 4 s ++ drop 6 s in
    Ret (vch2 :: vch1 :: s))
  else if opcode =? OP_2SWAP then Some (
    if zlen s <? 4 then INVALID_STACK else
    s ← swap_tops s 4 2; swap_tops s 3 1)
  else if opcode =? OP_IFDUP then Some (
    if zlen s <? 1 then INVALID_STACK else
    vch ← stacktop s 1; if CastToBool vch then Ret (vch :: s) else Ret s)
  else if opcode =? OP_DEPTH then Some (Ret (serialize (zlen s) :: s))
  else if opcode =? OP_DROP then Some (
    if zlen s <? 1 then INVALID_STACK else popstack s)
  else if opcode =? OP_DUP then Some (
    if zlen s <? 1 then INVALID_STACK else vch ← stacktop s 1; Ret (vch :: s))
  else if opcode =? OP_NIP then Some (
    if zlen s <? 2 then INVALID_STACK else Ret (delete 1%nat s))
  else if opcode =? OP_OVER then Some (
    if zlen s <? 2 then INVALID_STACK else vch ← stacktop s 2; Ret (vch :: s))
  else if opcode =? OP_ROT then Some (
    if zlen s <? 3 then INVALID_STACK else s ← swap_tops s 3 2; swap_tops s 2 1)
  else if opcode =? OP_SWAP then Some (
    if zlen s <? 2 then INVALID_STACK else swap_tops s 2 1)
  else if opcode =? OP_TUCK then Some (
    if zlen s <? 2 then INVALID_STACK else
    vch ← stacktop s 1; Ret (take 2 s ++ vch :: drop 2 s))
  else if opcode =? OP_SIZE then Some (
    if zlen s <? 1 then INVALID_STACK else
    vch ← stacktop s 1; Ret (serialize (zlen vch) :: s))
  else None.

(** ** Numbers on the stack *)

Definition script_num (fRequireMinimal : bool) (nMaxNumSize : Z) (v : valtype) : result Z :=
  match CScriptNum v fRequireMinimal nMaxNumSize with
  | Some n => Ret n
  | None => Throw scriptnum_error
  end.

(** [OP_PICK] and [OP_ROLL]. *)
Definition op_pick_roll (fRequireMinimal : bool) (opcode : Z) (s : list valtype) : result (list valtype) :=
  if zlen s <? 2 then INVALID_STACK
  else
    v ← stacktop s 1;
    bn ← script_num fRequireMinimal nDefaultMaxNumSize v;
    let n := getint bn in
    s ← popstack s;
    if ((n <? 0) || (n >=? zlen s) : bool) then INVALID_STACK
    else
      vch ← stacktop s (n + 1);
      let s := if opcode =? OP_ROLL then delete (Z.to_nat n) s else s in
      Ret (vch :: s).

(** [CScriptNum::operator+=], [operator-=] and unary minus, with their
    assertions. *)
Definition num_add (m_value rhs : Z) : result Z :=
  if (rhs =? 0) || ((rhs >? 0) && (m_value <=? 2 ^ 63 - 1 - rhs)) || ((rhs <? 0) && (m_value >=? - 2 ^ 63 - rhs))
  then Ret (i64 (m_value + rhs)) else AssertFail.
Definition num_sub (m_value rhs : Z) : result Z :=
  if (rhs =? 0) || ((rhs >? 0) && (m_value >=? - 2 ^ 63 + rhs)) || ((rhs <? 0) && (m_value <=? 2 ^ 63 - 1 + rhs))
  then Ret (i64 (m_value - rhs)) else AssertFail.
Definition num_neg (m_value : Z) : result Z :=
  if m_value =? - 2 ^ 63 then AssertFail else Ret (- m_value).

Definition b2z (b : bool) : Z := if b then 1 else 0.

(** [OP_1ADD] ... [OP_0NOTEQUAL]. *)
Definition unary_num (opcode bn : Z) : result Z :=
  if opcode =? OP_1ADD then num_add bn 1
  else if opcode =? OP_1SUB then num_sub bn 1
  else if opcode =? OP_NEGATE then num_neg bn
  else if opcode =? OP_ABS then (if bn <? 0 then num_neg bn else Ret bn)
  else if opcode =? OP_NOT then Ret (b2z (bn =? 0))
  else if opcode =? OP_0NOTEQUAL then Ret (b2z (negb (bn =? 0)))
  else AssertFail.

Definition op_unary (fRequireMinimal : bool) (opcode : Z) (s : list valtype) : result (list valtype) :=
  if zlen s <? 1 then INVALID_STACK
  else
    v ← stacktop s 1;
    bn ← script_num fRequireMinimal nDefaultMaxNumSize v;
    bn ← unary_num opcode bn;
    s ← popstack s;
    Ret (serialize bn :: s).

(** [OP_ADD] ... [OP_MAX]. *)
Definition binary_num (opcode bn1 bn2 : Z) : result Z :=
  if opcode =? OP_ADD then Ret (i64 (bn1 + bn2))
  else if opcode =? OP_SUB then Ret (i64 (bn1 - bn2))
  else if opcode =? OP_BOOLAND then Ret (b2z (negb (bn1 =? 0) && negb (bn2 =? 0)))
  else if opcode =? OP_BOOLOR then Ret (b2z (negb (bn1 =? 0) || negb (bn2 =? 0)))
  else if opcode =? OP_NUMEQUAL then Ret (b2z (bn1 =? bn2))
  else if opcode =? OP_NUMEQUALVERIFY then Ret (b2z (bn1 =? bn2))
  else if opcode =? OP_NUMNOTEQUAL then Ret (b2z (negb (bn1 =? bn2)))
  else if opcode =? OP_LESSTHAN then Ret (b2z (bn1 <? bn2))
  else if opcode =? OP_GREATERTHAN then Ret (b2z (bn1 >? bn2))
  else if opcode =? OP_LESSTHANOREQUAL then Ret (b2z (bn1 <=? bn2))
  else if opcode =? OP_GREATERTHANOREQUAL then Ret (b2z (bn1 >=? bn2))
  else if opcode =? OP_MIN then Ret (if bn1 <? bn2 then bn1 else bn2)
  else if opcode =? OP_MAX then Ret (if bn1 >? bn2 then bn1 else bn2)
  else AssertFail.

Definition op_binary (fRequireMinimal : bool) (opcode : Z) (s : list valtype) : result (list valtype) :=
  if zlen s <? 2 then INVALID_STACK
  else
    v1 ← stacktop s 2;
    bn1 ← script_num fRequireMinimal nDefaultMaxNumSize v1;
    v2 ← stacktop s 1;
    bn2 ← script_num fRequireMinimal nDefaultMaxNumSize v2;
    bn ← binary_num opcode bn1 bn2;
    s ← popstack s;
    s ← popstack s;
    let s := serialize bn :: s in
    if opcode =? OP_NUMEQUALVERIFY then
      v ← stacktop s 1;
      if CastToBool v then popstack s else Err SCRIPT_ERR_NUMEQUALVERIFY
    else Ret s.

Definition op_within (fRequireMinimal : bool) (s : list valtype) : result (list valtype) :=
  if zlen s <? 3 then INVALID_STACK
  else
    v1 ← stacktop s 3;
    bn1 ← script_num fRequireMinimal nDefaultMaxNumSize v1;
    v2 ← stacktop s 2;
    bn2 ← script_num fRequireMinimal nDefaultMaxNumSize v2;
    v3 ← stacktop s 1;
    bn3 ← script_num fRequireMinimal nDefaultMaxNumSize v3;
    let fValue := (bn2 <=? bn1) && (bn1 <? bn3) in
    s ← popstack s;
    s ← popstack s;
    s ← popstack s;
    Ret ((if fValue then vchTrue else vchFalse) :: s).

(** [OP_EQUAL] and [OP_EQUALVERIFY]. *)
Definition op_equal (opcode : Z) (s : list valtype) : result (list valtype) :=
  if zlen s <? 2 then INVALID_STACK
  else
    vch1 ← stacktop s 2;
    vch2 ← stacktop s 1;
    let fEqual := bool_decide (vch1 = vch2) in
    s ← popstack s;
    s ← popstack s;
    let s := (if fEqual then vchTrue else vchFalse) :: s in
    if opcode =? OP_EQUALVERIFY then
      if fEqual then popstack s else Err SCRIPT_ERR_EQUALVERIFY
    else Ret s.

(** [OP_RIPEMD160] ... [OP_HASH256]. *)
Definition op_hash (opcode : Z) (s : list valtype) : result (list valtype) :=
  if zlen s <? 1 then INVALID_STACK
  else
    vch ← stacktop s 1;
    let vchHash :=
      if opcode =? OP_RIPEMD160 then RIPEMD160 vch
      else if opcode =? OP_SHA1 then SHA1 vch
      else if opcode =? OP_SHA256 then SHA256 vch
      else if opcode =? OP_HASH160 then CHash160 vch
      else CHash256 vch in
    s ← popstack s;
    Ret (vchHash :: s).

(** ** The interpreter *)

Record EvalState : Type := mkEvalState {
  pc : nat;
  stack : list valtype;
  altstack : list valtype;
  vfExec : list bool;
  nOpCount : Z;
  pbegincodehash : nat
}.

Definition with_stack (st : EvalState) (s : list valtype) : EvalState :=
  mkEvalState (pc st) s (altstack st) (vfExec st) (nOpCount st) (pbegincodehash st).
Definition with_exec (st : EvalState) (v : list bool) : EvalState :=
  mkEvalState (pc st) (stack st) (altstack st) v (nOpCount st) (pbegincodehash st).
Definition with_ops (st : EvalState) (k : Z) : EvalState :=
  mkEvalState (pc st) (stack st) (altstack st) (vfExec st) k (pbegincodehash st).

(** The [catch (...)] of [EvalScript]. *)
Definition catch_all {A} (r : result A) : result A :=
  match r with
  | Throw _ => Err SCRIPT_ERR_UNKNOWN_ERROR
  | r => r
  end.

Section Script.
Context `{!BaseSignatureChecker} (script : CScript) (flags : Z).

Definition fRequireMinimal : bool := has_flag flags SCRIPT_VERIFY_MINIMALDATA.

(** Lift an instruction on the stack. *)
Definition on_stack (f : list valtype -> result (list valtype)) (st : EvalState) : result EvalState :=
  s ← f (stack st); Ret (with_stack st s).

Definition op_checklocktimeverify (st : EvalState) : result EvalState :=
  if negb (has_flag flags SCRIPT_VERIFY_CHECKLOCKTIMEVERIFY) then
    if has_flag flags SCRIPT_VERIFY_DISCOURAGE_UPGRADABLE_NOPS
    then Err SCRIPT_ERR_DISCOURAGE_UPGRADABLE_NOPS else Ret st
  else if zlen (stack st) <? 1 then Err SCRIPT_ERR_INVALID_STACK_OPERATION
  else
    v ← stacktop (stack st) 1;
    nLockTime ← script_num fRequireMinimal 5 v;
    if (nLockTime <? 0 : bool) then Err SCRIPT_ERR_NEGATIVE_LOCKTIME
    else if negb (CheckLockTime nLockTime) then Err SCRIPT_ERR_UNSATISFIED_LOCKTIME
    else Ret st.

Definition op_checksequenceverify (st : EvalState) : result EvalState :=
  if negb (has_flag flags SCRIPT_VERIFY_CHECKSEQUENCEVERIFY) then
    if has_flag flags SCRIPT_VERIFY_DISCOURAGE_UPGRADABLE_NOPS
    then Err SCRIPT_ERR_DISCOURAGE_UPGRADABLE_NOPS else Ret st
  else if zlen (stack st) <? 1 then Err SCRIPT_ERR_INVALID_STACK_OPERATION
  else
    v ← stacktop (stack st) 1;
    nSequence ← script_num fRequireMinimal 5 v;
    if (nSequence <? 0 : bool) then Err SCRIPT_ERR_NEGATIVE_LOCKTIME
    else if negb (Z.land nSequence SEQUENCE_LOCKTIME_DISABLE_FLAG =? 0) then Ret st
    else if negb (CheckSequence nSequence) then Err SCRIPT_ERR_UNSATISFIED_LOCKTIME
    else Ret st.

(** [OP_NOP1], [OP_NOP4] ... [OP_NOP10]. *)
Definition op_nopn (st : EvalState) : result EvalState :=
  if has_flag flags SCRIPT_VERIFY_DISCOURAGE_UPGRADABLE_NOPS
  then Err SCRIPT_ERR_DISCOURAGE_UPGRADABLE_NOPS else Ret st.

(** [OP_IF] and [OP_NOTIF]. *)
Definition op_if (opcode : Z) (fExec : bool) (st : EvalState) : result EvalState :=
  if fExec then
    if zlen (stack st) <? 1 then Err SCRIPT_ERR_UNBALANCED_CONDITIONAL
    else
      vch ← stacktop (stack st) 1;
      let fValue := CastToBool vch in
      let fValue := if opcode =? OP_NOTIF then negb fValue else fValue in
      s ← popstack (stack st);
      Ret (with_exec (with_stack st s) (fValue :: vfExec st))
  else Ret (with_exec st (false :: vfExec st)).

Definition op_else (st : EvalState) : result EvalState :=
  match vfExec st with
  | [] => Err SCRIPT_ERR_UNBALANCED_CONDITIONAL
  | b :: r => Ret (with_exec st (negb b :: r))
  end.

Definition op_endif (st : EvalState) : result EvalState :=
  match vfExec st with
  | [] => Err SCRIPT_ERR_UNBALANCED_CONDITIONAL
  | _ :: r => Ret (with_exec st r)
  end.

Definition op_verify (s : list valtype) : result (list valtype) :=
  if zlen s <? 1 then INVALID_STACK
  else
    v ← stacktop s 1;
    if CastToBool v then popstack s else Err SCRIPT_ERR_VERIFY.

Definition op_toaltstack (st : EvalState) : result EvalState :=
  if zlen (stack st) <? 1 then Err SCRIPT_ERR_INVALID_STACK_OPERATION
  else
    v ← stacktop (stack st) 1;
    s ← popstack (stack st);
    Ret (mkEvalState (pc st) s (v :: altstack st) (vfExec st) (nOpCount st) (pbegincodehash st)).

Definition op_fromaltstack (st : EvalState) : result EvalState :=
  if zlen (altstack st) <? 1 then Err SCRIPT_ERR_INVALID_ALTSTACK_OPERATION
  else
    v ← stacktop (altstack st) 1;
    a ← popstack (altstack st);
    Ret (mkEvalState (pc st) (v :: stack st) a (vfExec st) (nOpCount st) (pbegincodehash st)).

(** [OP_CHECKSIG] and [OP_CHECKSIGVERIFY]. *)
Definition op_checksig (opcode : Z) (st : EvalState) : result EvalState :=
  if zlen (stack st) <? 2 then Err SCRIPT_ERR_INVALID_STACK_OPERATION
  else
    vchSig ← stacktop (stack st) 2;
    vchPubKey ← stacktop (stack st) 1;
    let scriptCode := drop (pbegincodehash st) script in
    let scriptCode := (FindAndDelete scriptCode (push_bytes [] vchSig)).1 in
    _ ← CheckSignatureEncoding vchSig flags;
    _ ← CheckPubKeyEncoding vchPubKey flags;
    let fSuccess := CheckSig vchSig vchPubKey scriptCode in
    s ← popstack (stack st);
    s ← popstack s;
    let s := (if fSuccess then vchTrue else vchFalse) :: s in
    if opcode =? OP_CHECKSIGVERIFY then
      if fSuccess then s ← popstack s; Ret (with_stack st s) else Err SCRIPT_ERR_CHECKSIGVERIFY
    else Ret (with_stack st s).

(** [OP_CHECKMULTISIG]: dropping the signatures from the script, matching
    signatures with keys, and removing the arguments. *)
Fixpoint drop_sigs (k : nat) (s : list valtype) (isig : Z) (scriptCode : CScript) : result CScript :=
  match k with
  | O => Ret scriptCode
  | S k =>
      vchSig ← stacktop s isig;
      drop_sigs k s (isig + 1) (FindAndDelete scriptCode (push_bytes [] vchSig)).1
  end.

Fixpoint multisig_loop (fuel : nat) (s : list valtype) (scriptCode : CScript)
  (isig ikey nSigsCount nKeysCount : Z) (fSuccess : bool) : result bool :=
  if fSuccess && (nSigsCount >? 0) then
    match fuel with
    | O => AssertFail
    | S fuel =>
        vchSig ← stacktop s isig;
        vchPubKey ← stacktop s ikey;
        _ ← CheckSignatureEncoding vchSig flags;
        _ ← CheckPubKeyEncoding vchPubKey flags;
        let fOk := CheckSig vchSig vchPubKey scriptCode in
        let isig := if fOk then isig + 1 else isig in
        let nSigsCount := if fOk then nSigsCount - 1 else nSigsCount in
        let ikey := ikey + 1 in
        let nKeysCount := nKeysCount - 1 in
        multisig_loop fuel s scriptCode isig ikey nSigsCount nKeysCount (negb (nSigsCount >? nKeysCount))
    end
  else Ret fSuccess.

Fixpoint pop_n (k : nat) (s : list valtype) : result (list valtype) :=
  match k with
  | O => Ret s
  | S k => s ← popstack s; pop_n k s
  end.

Definition op_checkmultisig (opcode : Z) (st : EvalState) : result EvalState :=
  let s := stack st in
  let i := 1 in
  if zlen s <? i then Err SCRIPT_ERR_INVALID_STACK_OPERATION
  else
    v ← stacktop s i;
    bn ← script_num fRequireMinimal nDefaultMaxNumSize v;
    let nKeysCount := getint bn in
    if ((nKeysCount <? 0) || (nKeysCount >? MAX_PUBKEYS_PER_MULTISIG) : bool) then Err SCRIPT_ERR_PUBKEY_COUNT
    else
      let st := with_ops st (nOpCount st + nKeysCount) in
      if nOpCount st >? MAX_OPS_PER_SCRIPT then Err SCRIPT_ERR_OP_COUNT
      else
        let ikey := i + 1 in
        let i := ikey + nKeysCount in
        if zlen s <? i then Err SCRIPT_ERR_INVALID_STACK_OPERATION
        else
          v ← stacktop s i;
          bn ← script_num fRequireMinimal nDefaultMaxNumSize v;
          let nSigsCount := getint bn in
          if ((nSigsCount <? 0) || (nSigsCount >? nKeysCount) : bool) then Err SCRIPT_ERR_SIG_COUNT
          else
            let isig := i + 1 in
            let i := isig + nSigsCount in
            if zlen s <? i then Err SCRIPT_ERR_INVALID_STACK_OPERATION
            else
              scriptCode ← drop_sigs (Z.to_nat nSigsCount) s isig (drop (pbegincodehash st) script);
              fSuccess ← multisig_loop (S (Z.to_nat nKeysCount)) s scriptCode isig ikey nSigsCount nKeysCount true;
              s ← pop_n (Z.to_nat (i - 1)) s;
              if (zlen s <? 1 : bool) then Err SCRIPT_ERR_INVALID_STACK_OPERATION
              else
                d ← stacktop s 1;
                if has_flag flags SCRIPT_VERIFY_NULLDUMMY && negb (zlen d =? 0)
                then Err SCRIPT_ERR_SIG_NULLDUMMY
                else
                  s ← popstack s;
                  let s := (if (fSuccess : bool) then vchTrue else vchFalse) :: s in
                  if opcode =? OP_CHECKMULTISIGVERIFY then
                    if fSuccess then s ← popstack s; Ret (with_stack st s)
                    else Err SCRIPT_ERR_CHECKMULTISIGVERIFY
                  else Ret (with_stack st s).

(** The [switch (opcode)]. *)
Definition exec_op (opcode : Z) (fExec : bool) (st : EvalState) : result EvalState :=
  if (opcode =? OP_1NEGATE) || ((OP_1 <=? opcode) && (opcode <=? OP_16)) then
    Ret (with_stack st (serialize (opcode - (OP_1 - 1)) :: stack st))
  else if opcode =? OP_NOP then Ret st
  else if opcode =? OP_CHECKLOCKTIMEVERIFY then op_checklocktimeverify st
  else if opcode =? OP_CHECKSEQUENCEVERIFY then op_checksequenceverify st
  else if (opcode =? OP_NOP1) || ((OP_NOP4 <=? opcode) && (opcode <=? OP_NOP10)) then op_nopn st
  else if (opcode =? OP_IF) || (opcode =? OP_NOTIF) then op_if opcode fExec st
  else if opcode =? OP_ELSE then op_else st
  else if opcode =? OP_ENDIF then op_endif st
  else if opcode =? OP_VERIFY then on_stack op_verify st
  else if opcode =? OP_RETURN then Err SCRIPT_ERR_OP_RETURN
  else if opcode =? OP_TOALTSTACK then op_toaltstack st
  else if opcode =? OP_FROMALTSTACK then op_fromaltstack st
  else if (opcode =? OP_PICK) || (opcode =? OP_ROLL) then on_stack (op_pick_roll fRequireMinimal opcode) st
  else match stack_op opcode (stack st) with
  | Some r => s ← r; Ret (with_stack st s)
  | None =>
  if (opcode =? OP_EQUAL) || (opcode =? OP_EQUALVERIFY) then on_stack (op_equal opcode) st
  else if (opcode =? OP_1ADD) || (opcode =? OP_1SUB) || (opcode =? OP_NEGATE) || (opcode =? OP_ABS) ||
          (opcode =? OP_NOT) || (opcode =? OP_0NOTEQUAL) then on_stack (op_unary fRequireMinimal opcode) st
  else if (opcode =? OP_ADD) || (opcode =? OP_SUB) || ((OP_BOOLAND <=? opcode) && (opcode <=? OP_MAX)) then
    on_stack (op_binary fRequireMinimal opcode) st
  else if opcode =? OP_WITHIN then on_stack (op_within fRequireMinimal) st
  else if (OP_RIPEMD160 <=? opcode) && (opcode <=? OP_HASH256) then on_stack (op_hash opcode) st
  else if opcode =? OP_CODESEPARATOR then
    Ret (mkEvalState (pc st) (stack st) (altstack st) (vfExec st) (nOpCount st) (pc st))
  else if (opcode =? OP_CHECKSIG) || (opcode =? OP_CHECKSIGVERIFY) then op_checksig opcode st
  else if (opcode =? OP_CHECKMULTISIG) || (opcode =? OP_CHECKMULTISIGVERIFY) then op_checkmultisig opcode st
  else Err SCRIPT_ERR_BAD_OPCODE
  end.

Definition is_disabled (opcode : Z) : bool :=
  (opcode =? OP_CAT) || (opcode =? OP_SUBSTR) || (opcode =? OP_LEFT) || (opcode =? OP_RIGHT) ||
  (opcode =? OP_INVERT) || (opcode =? OP_AND) || (opcode =? OP_OR) || (opcode =? OP_XOR) ||
  (opcode =? OP_2MUL) || (opcode =? OP_2DIV) || (opcode =? OP_MUL) || (opcode =? OP_DIV) ||
  (opcode =? OP_MOD) || (opcode =? OP_LSHIFT) || (opcode =? OP_RSHIFT).

(** One iteration of the loop. *)
Definition eval_step (st : EvalState) : result EvalState :=
  let fExec := forallb id (vfExec st) in
  let r := GetOp2 script (pc st) in
  let opcode := op_code r in
  if negb (op_ok r) then Err SCRIPT_ERR_BAD_OPCODE
  else if zlen (op_data r) >? MAX_SCRIPT_ELEMENT_SIZE then Err SCRIPT_ERR_PUSH_SIZE
  else
    let st := mkEvalState (op_pc r) (stack st) (altstack st) (vfExec st)
                (if opcode >? OP_16 then nOpCount st + 1 else nOpCount st) (pbegincodehash st) in
    if (opcode >? OP_16) && (nOpCount st >? MAX_OPS_PER_SCRIPT) then Err SCRIPT_ERR_OP_COUNT
    else if is_disabled opcode then Err SCRIPT_ERR_DISABLED_OPCODE
    else
      st ← (if fExec && (0 <=? opcode) && (opcode <=? OP_PUSHDATA4) then
              if fRequireMinimal && negb (CheckMinimalPush (op_data r) opcode) then Err SCRIPT_ERR_MINIMALDATA
              else Ret (with_stack st (op_data r :: stack st))
            else if fExec || ((OP_IF <=? opcode) && (opcode <=? OP_ENDIF)) then exec_op opcode fExec st
            else Ret st);
      if (zlen (stack st) + zlen (altstack st) >? 1000 : bool) then Err SCRIPT_ERR_STACK_SIZE else Ret st.

Fixpoint eval_loop (fuel : nat) (st : EvalState) : result EvalState :=
  if (length script <=? pc st)%nat then Ret st
  else match fuel with
       | O => AssertFail
       | S fuel => st ← eval_step st; eval_loop fuel st
       end.

Definition EvalScript (s : list valtype) : result (list valtype) :=
  if zlen script >? MAX_SCRIPT_SIZE then Err SCRIPT_ERR_SCRIPT_SIZE
  else
    st ← catch_all (eval_loop (length script) (mkEvalState 0 s [] [] 0 0));
    match vfExec st with
    | [] => Ret (stack st)
    | _ => Err SCRIPT_ERR_UNBALANCED_CONDITIONAL
    end.

End Script.

(** ** Verification of an input *)

Definition top_is_true (s : list valtype) : bool :=
  match s with
  | [] => false
  | v :: _ => CastToBool v
  end.

Definition VerifyScript `{!BaseSignatureChecker} (scriptSig scriptPubKeyIn : CScript) (flags : Z) : result unit :=
  let scriptPubKey := match RemoveBDAPScript scriptPubKeyIn with
                      | Some s => s
                      | None => scriptPubKeyIn
                      end in
  if has_flag flags SCRIPT_VERIFY_SIGPUSHONLY && negb (IsPushOnly scriptSig) then Err SCRIPT_ERR_SIG_PUSHONLY
  else
    stack ← EvalScript scriptSig flags [];
    let stackCopy := stack in
    stack ← EvalScript scriptPubKey flags stack;
    if negb (top_is_true stack) then Err SCRIPT_ERR_EVAL_FALSE
    else
      stack ← (if has_flag flags SCRIPT_VERIFY_P2SH && IsPayToScriptHash scriptPubKey then
                 if negb (IsPushOnly scriptSig) then Err SCRIPT_ERR_SIG_PUSHONLY
                 else match stackCopy with
                      | [] => AssertFail
                      | pubKeySerialized :: stack =>
                          stack ← EvalScript pubKeySerialized flags stack;
                          if negb (top_is_true stack) then Err SCRIPT_ERR_EVAL_FALSE else Ret stack
                      end
               else Ret stack);
      if has_flag flags SCRIPT_VERIFY_CLEANSTACK then
        if negb (has_flag flags SCRIPT_VERIFY_P2SH) then AssertFail
        else if negb (zlen (stack : list valtype) =? 1) then Err SCRIPT_ERR_CLEANSTACK
        else Ret ()
      else Ret ().

End Eval.

End Interpreter.
