(* ===== verification/InterpreterSafety.v ===== *)
(** * Safety of the script interpreter

    No script can make [EvalScript] read outside its stacks, pop an empty
    stack, fail an assertion or run forever, and the limits on the number and
    size of stack elements and on the operation count hold in every reachable
    state. *)

From stdpp Require Import base list list_numbers numbers option.
From Stdlib Require Import ZArith Lia.
From S2P Require Import Prelude Serialize Script Transaction Interpreter.

Local Open Scope Z_scope.

Module InterpreterSafety.
Import Script Transaction Interpreter.

(** The documented sizes of the hash functions. *)
Class CryptoOk `{!Crypto} : Prop := {
  RIPEMD160_size d : length (RIPEMD160 d) = 20%nat /\ Forall is_byte (RIPEMD160 d);
  SHA1_size d : length (SHA1 d) = 20%nat /\ Forall is_byte (SHA1 d);
  SHA256_size d : length (SHA256 d) = 32%nat /\ Forall is_byte (SHA256 d)
}.

(** ** Outcomes

    [safe Q r]: the computation returns a value satisfying [Q], fails with a
    script error, or throws [scriptnum_error]; it throws nothing else and
    fails no assertion. *)
Definition safe {A} (Q : A -> Prop) (r : result A) : Prop :=
  match r with
  | Ret a => Q a
  | Err _ => True
  | Throw x => x = scriptnum_error
  | AssertFail => False
  end.

Lemma safe_bind {A B} (P : A -> Prop) (Q : B -> Prop) (m : result A) (f : A -> result B) :
  safe P m -> (forall a, P a -> safe Q (f a)) -> safe Q (m ≫= f).
Proof. destruct m; cbn; auto. Qed.

Lemma safe_mono {A} (P Q : A -> Prop) (m : result A) : safe P m -> (forall a, P a -> Q a) -> safe Q m.
Proof. destruct m; cbn; auto. Qed.

(** ** Elements *)

Definition elem_ok (v : valtype) : Prop := Forall is_byte v /\ zlen v <= MAX_SCRIPT_ELEMENT_SIZE.
Definition stack_ok (s : list valtype) : Prop := Forall elem_ok s.

#[export] Instance elem_ok_dec v : Decision (elem_ok v).
Proof. unfold elem_ok. apply _. Defined.
#[export] Instance stack_ok_dec s : Decision (stack_ok s).
Proof. unfold stack_ok. apply _. Defined.

Lemma zlen_nonneg {A} (l : list A) : 0 <= zlen l.
Proof. unfold zlen. lia. Qed.

Lemma zlen_cons {A} (x : A) l : zlen (x :: l) = zlen l + 1.
Proof. unfold zlen. cbn [length]. lia. Qed.

Lemma serialize_ok n : Z.abs n < 2 ^ 55 -> elem_ok (serialize n).
Proof.
  intros Hn. destruct (scriptnum_decode n 7) as (_ & Hl & Hb); [lia|cbn; lia|].
  split; [done|]. unfold MAX_SCRIPT_ELEMENT_SIZE. lia.
Qed.

Lemma set_vch_bound v sz : Forall is_byte v -> zlen v <= sz -> 1 <= sz -> Z.abs (set_vch v) < 2 ^ (8 * sz - 1).
Proof.
  intros Hb Hl Hsz. destruct v as [|b l _] using rev_ind.
  { cbn. apply Z.pow_pos_nonneg; lia. }
  apply Forall_app in Hb as [Hbl Hbb]. inversion Hbb as [|?? Hb _]; subst.
  rewrite set_vch_snoc by done. rewrite zlen_snoc in Hl.
  pose proof (le_val_bound l Hbl) as Hv. fold (zlen l) in Hv. unfold is_byte in Hb.
  assert (Hp : 0 < 2 ^ (8 * zlen l)) by (apply Z.pow_pos_nonneg; pose proof (zlen_nonneg l); lia).
  assert (Hm : 2 ^ (8 * zlen l) * 128 <= 2 ^ (8 * sz - 1)).
  { replace (2 ^ (8 * zlen l) * 128) with (2 ^ (8 * zlen l + 7))
      by (rewrite Z.pow_add_r by (pose proof (zlen_nonneg l); lia); lia).
    apply Z.pow_le_mono_r; lia. }
  destruct (Z.ltb_spec b 128); nia.
Qed.

Lemma script_num_safe m sz v : elem_ok v -> 1 <= sz ->
  safe (fun n => Z.abs n < 2 ^ (8 * sz - 1)) (script_num m sz v).
Proof.
  intros [Hb _] Hsz. unfold script_num, CScriptNum.
  destruct (Z.gtb_spec (zlen v) sz); [done|].
  match goal with |- safe _ (match (if ?c then _ else _) with _ => _ end) => destruct c end; [done|].
  by apply set_vch_bound.
Qed.

Lemma stacktop_safe s i : stack_ok s -> 1 <= i <= zlen s -> safe elem_ok (stacktop s i).
Proof.
  intros Hs Hi. unfold stacktop, zlen in *. rewrite (proj2 (Z.leb_gt _ _)) by lia.
  destruct (lookup_lt_is_Some_2 s (Z.to_nat (i - 1))) as [v E]; [lia|]. rewrite E.
  unfold stack_ok in Hs. rewrite Forall_lookup in Hs. by apply (Hs _ _ E).
Qed.

Lemma stacktop_safe_in s i : 1 <= i <= zlen s -> safe (fun v => s !! Z.to_nat (i - 1) = Some v) (stacktop s i).
Proof.
  intros Hi. unfold stacktop, zlen in *. rewrite (proj2 (Z.leb_gt _ _)) by lia.
  destruct (lookup_lt_is_Some_2 s (Z.to_nat (i - 1))) as [v E]; [lia|]. by rewrite E.
Qed.

(** What an instruction on the stack keeps: good elements and at most three
    more of them. *)
Definition grown (s s' : list valtype) : Prop := stack_ok s' /\ zlen s' <= zlen s + 3.

Lemma popstack_safe s : stack_ok s -> 1 <= zlen s -> safe (fun s' => stack_ok s' /\ zlen s' = zlen s - 1) (popstack s).
Proof.
  intros Hs Hl. destruct s as [|v s]; [unfold zlen in Hl; cbn in Hl; lia|]. cbn [popstack safe]. rewrite zlen_cons. inversion Hs; subst. split; [done|lia].
Qed.

Lemma swap_tops_safe s i j : stack_ok s -> 1 <= i <= zlen s -> 1 <= j <= zlen s ->
  safe (fun s' => stack_ok s' /\ zlen s' = zlen s) (swap_tops s i j).
Proof.
  intros Hs Hi Hj. unfold swap_tops.
  eapply safe_bind; [by apply stacktop_safe|]. intros a Ha.
  eapply safe_bind; [by apply stacktop_safe|]. intros b Hb. cbn.
  unfold stack_ok, zlen. rewrite !length_insert. split; [|done].
  by repeat apply Forall_insert.
Qed.

(** Stepping through a guarded instruction. *)
Ltac size_guard := match goal with
  | |- safe _ (if ?x <? ?y then _ else _) => destruct (Z.ltb_spec x y); [exact I|]
  end.
Ltac bind_top := eapply safe_bind; [apply stacktop_safe; [assumption|lia]|]; intros ? ?.
Ltac bind_pop := eapply safe_bind; [apply popstack_safe; [assumption|lia]|]; intros ? [? ?].
Ltac bind_num := eapply safe_bind; [apply script_num_safe; [assumption|unfold nDefaultMaxNumSize; lia]|];
  unfold nDefaultMaxNumSize; intros ? ?.
Ltac branch := match goal with |- safe _ (if ?c then _ else _) => destruct c end.
Ltac finish := cbn [safe]; unfold grown, stack_ok in *; rewrite ?zlen_cons;
  try (split; [repeat (apply Forall_cons_2; [first [done|by_decide]|]); done|lia]).

Lemma stack_op_safe opcode s r : stack_ok s -> zlen s <= 1000 ->
  stack_op opcode s = Some r -> safe (grown s) r.
Proof.
  intros Hs Hl H. unfold stack_op, INVALID_STACK in H.
  repeat (match type of H with
          | (if ?c then _ else _) = Some _ => destruct c; [injection H as <-|]
          end); [..|done].
  - size_guard. bind_pop. eapply safe_mono; [apply popstack_safe; [done|lia]|]. intros ? [? ?]. finish.
  - size_guard. do 2 bind_top. finish.
  - size_guard. do 3 bind_top. finish.
  - size_guard. do 2 bind_top. finish.
  - size_guard. do 2 bind_top. cbn [safe]. split.
    + repeat (apply Forall_cons_2; [done|]). apply Forall_app. split; [by apply Forall_take|by apply Forall_drop].
    + unfold zlen in *. cbn [length]. rewrite length_app, length_take, length_drop. lia.
  - size_guard. eapply safe_bind; [apply swap_tops_safe; [done|lia..]|]. intros s' [? ?].
    eapply safe_mono; [apply swap_tops_safe; [done|lia..]|]. intros ? [? ?]. finish.
  - size_guard. bind_top. destruct (CastToBool _); finish.
  - cbn [safe]. split; [|rewrite zlen_cons; lia]. apply Forall_cons_2; [|done].
    apply serialize_ok. pose proof (zlen_nonneg s). lia.
  - size_guard. eapply safe_mono; [apply popstack_safe; [done|lia]|]. intros ? [? ?]. finish.
  - size_guard. bind_top. finish.
  - size_guard. cbn [safe]. split; [by apply Forall_delete|]. unfold zlen.
    destruct s as [|a [|b s]]; cbn; lia.
  - size_guard. bind_top. finish.
  - size_guard. eapply safe_bind; [apply swap_tops_safe; [done|lia..]|]. intros s' [? ?].
    eapply safe_mono; [apply swap_tops_safe; [done|lia..]|]. intros ? [? ?]. finish.
  - size_guard. eapply safe_mono; [apply swap_tops_safe; [done|lia..]|]. intros ? [? ?]. finish.
  - size_guard. bind_top. cbn [safe]. split.
    + apply Forall_app. split; [by apply Forall_take|]. apply Forall_cons_2; [done|by apply Forall_drop].
    + unfold zlen in *. rewrite length_app, length_take. cbn [length]. rewrite length_drop. lia.
  - size_guard. bind_top. cbn [safe]. split; [|rewrite zlen_cons; lia]. apply Forall_cons_2; [|done].
    match goal with H : elem_ok ?v |- _ => destruct H as [_ Hv]; unfold MAX_SCRIPT_ELEMENT_SIZE in Hv;
      apply serialize_ok; pose proof (zlen_nonneg v); lia end.
Qed.

Lemma op_pick_roll_safe m opcode s : stack_ok s -> safe (grown s) (op_pick_roll m opcode s).
Proof.
  intros Hs. unfold op_pick_roll, INVALID_STACK. size_guard. bind_top. bind_num. bind_pop.
  match goal with |- safe _ (if (?n <? 0) || (?n >=? ?z) then _ else _) =>
    destruct (Z.ltb_spec n 0); [exact I|]; destruct (Z.geb_spec n z); [exact I|] end. cbn [orb].
  bind_top. destruct (opcode =? OP_ROLL); [|finish].
  cbn [safe]. split; [apply Forall_cons_2; [done|by apply Forall_delete]|].
  unfold zlen in *. cbn [length]. rewrite length_delete; [lia|]. apply lookup_lt_is_Some_2. lia.
Qed.

Lemma num_add_1 bn : Z.abs bn < 2 ^ 31 -> num_add bn 1 = Ret (bn + 1).
Proof.
  intros Hb. unfold num_add. change (1 =? 0) with false. change (1 >? 0) with true. cbn [orb andb].
  rewrite (proj2 (Z.leb_le bn _)) by lia. cbn [orb]. rewrite i64_small by lia. done.
Qed.

Lemma num_sub_1 bn : Z.abs bn < 2 ^ 31 -> num_sub bn 1 = Ret (bn - 1).
Proof.
  intros Hb. unfold num_sub. change (1 =? 0) with false. change (1 >? 0) with true. cbn [orb andb].
  rewrite (proj2 (Z.geb_le bn _)) by lia. cbn [orb]. rewrite i64_small by lia. done.
Qed.

Lemma unary_num_safe opcode bn : Z.abs bn < 2 ^ 31 ->
  (opcode =? OP_1ADD) || (opcode =? OP_1SUB) || (opcode =? OP_NEGATE) || (opcode =? OP_ABS) ||
  (opcode =? OP_NOT) || (opcode =? OP_0NOTEQUAL) = true ->
  safe (fun n => Z.abs n <= 2 ^ 31) (unary_num opcode bn).
Proof.
  intros Hb Ho. unfold unary_num, num_neg, b2z. rewrite num_add_1, num_sub_1 by done.
  destruct (opcode =? OP_1ADD); [cbn [safe]; lia|].
  destruct (opcode =? OP_1SUB); [cbn [safe]; lia|].
  rewrite (proj2 (Z.eqb_neq bn (- 2 ^ 63))) by lia.
  destruct (opcode =? OP_NEGATE); [cbn; lia|].
  destruct (opcode =? OP_ABS); [destruct (bn <? 0); cbn; lia|].
  destruct (opcode =? OP_NOT); [destruct (bn =? 0); cbn; lia|].
  destruct (opcode =? OP_0NOTEQUAL); [destruct (negb (bn =? 0)); cbn; lia|done].
Qed.

Lemma op_unary_safe m opcode s : stack_ok s ->
  (opcode =? OP_1ADD) || (opcode =? OP_1SUB) || (opcode =? OP_NEGATE) || (opcode =? OP_ABS) ||
  (opcode =? OP_NOT) || (opcode =? OP_0NOTEQUAL) = true -> safe (grown s) (op_unary m opcode s).
Proof.
  intros Hs Ho. unfold op_unary, INVALID_STACK. size_guard. bind_top. bind_num.
  eapply safe_bind; [apply unary_num_safe; [lia|done]|]. intros n Hn. cbn beta in Hn. bind_pop.
  cbn [safe]. split; [|rewrite zlen_cons; lia]. apply Forall_cons_2; [|done]. apply serialize_ok. lia.
Qed.

Lemma binary_num_safe opcode a b : Z.abs a < 2 ^ 31 -> Z.abs b < 2 ^ 31 ->
  (opcode =? OP_ADD) || (opcode =? OP_SUB) || ((OP_BOOLAND <=? opcode) && (opcode <=? OP_MAX)) = true ->
  safe (fun n => Z.abs n < 2 ^ 32) (binary_num opcode a b).
Proof.
  intros Ha Hb Ho. unfold binary_num, b2z.
  destruct (Z.eqb_spec opcode OP_ADD); [cbn [safe]; rewrite i64_small; lia|].
  destruct (Z.eqb_spec opcode OP_SUB); [cbn [safe]; rewrite i64_small; lia|]. cbn [orb] in Ho.
  repeat match goal with
  | |- safe _ (if opcode =? ?c then _ else _) =>
      destruct (Z.eqb_spec opcode c); [cbn [safe]; repeat case_match; lia|]
  end.
  apply andb_true_iff in Ho as [H1%Z.leb_le H2%Z.leb_le].
  unfold OP_BOOLAND, OP_MAX, OP_BOOLOR, OP_NUMEQUAL, OP_NUMEQUALVERIFY, OP_NUMNOTEQUAL, OP_LESSTHAN,
    OP_GREATERTHAN, OP_LESSTHANOREQUAL, OP_GREATERTHANOREQUAL, OP_MIN in *. lia.
Qed.

Lemma op_binary_safe m opcode s : stack_ok s ->
  (opcode =? OP_ADD) || (opcode =? OP_SUB) || ((OP_BOOLAND <=? opcode) && (opcode <=? OP_MAX)) = true ->
  safe (grown s) (op_binary m opcode s).
Proof.
  intros Hs Ho. unfold op_binary, INVALID_STACK. size_guard. bind_top. bind_num. bind_top. bind_num.
  eapply safe_bind; [apply binary_num_safe; [lia|lia|done]|]. intros n Hn. cbn beta in Hn. bind_pop. bind_pop.
  assert (Hsn : elem_ok (serialize n)) by (apply serialize_ok; lia).
  destruct (opcode =? OP_NUMEQUALVERIFY); [|finish].
  eapply safe_bind; [apply (stacktop_safe _ 1); [by apply Forall_cons_2|rewrite zlen_cons; pose proof (zlen_nonneg a3); lia]|].
  intros v _. destruct (CastToBool v); [|exact I]. cbn [popstack]. finish.
Qed.

Lemma op_within_safe m s : stack_ok s -> safe (grown s) (op_within m s).
Proof.
  intros Hs. unfold op_within, INVALID_STACK. size_guard. bind_top. bind_num. bind_top. bind_num. bind_top. bind_num.
  bind_pop. bind_pop. bind_pop. destruct (_ && _); finish.
Qed.

Lemma op_equal_safe opcode s : stack_ok s -> safe (grown s) (op_equal opcode s).
Proof.
  intros Hs. unfold op_equal, INVALID_STACK. size_guard. bind_top. bind_top. bind_pop. bind_pop.
  destruct (opcode =? OP_EQUALVERIFY), (bool_decide _); cbn [popstack]; try exact I; finish.
Qed.

Lemma op_verify_safe s : stack_ok s -> safe (grown s) (op_verify s).
Proof.
  intros Hs. unfold op_verify, INVALID_STACK. size_guard. bind_top. destruct (CastToBool _); [|exact I].
  eapply safe_mono; [apply popstack_safe; [done|lia]|]. intros ? [? ?]. finish.
Qed.

Section WithCrypto.
Context `{!Crypto} {HC : CryptoOk}.

Lemma hash_elem_ok v k : length v = k /\ Forall is_byte v -> (k <= 32)%nat -> elem_ok v.
Proof. intros [Hl Hb] Hk. split; [done|]. unfold zlen, MAX_SCRIPT_ELEMENT_SIZE. lia. Qed.

Lemma op_hash_safe opcode s : stack_ok s -> safe (grown s) (op_hash opcode s).
Proof using HC.
  intros Hs. unfold op_hash, INVALID_STACK. size_guard. bind_top. bind_pop.
  cbn [safe]. split; [|rewrite zlen_cons; lia]. apply Forall_cons_2; [|done].
  repeat case_match; unfold CHash160, CHash256;
    first [by apply (hash_elem_ok _ 20); [apply RIPEMD160_size|lia]
          |by apply (hash_elem_ok _ 20); [apply SHA1_size|lia]
          |by apply (hash_elem_ok _ 32); [apply SHA256_size|lia]].
Qed.

Lemma CheckSignatureEncoding_safe v flags : safe (fun _ => True) (CheckSignatureEncoding v flags).
Proof.
  unfold CheckSignatureEncoding, IsLowDERSignature. repeat case_match; try done.
  all: repeat case_match; done.
Qed.

Lemma CheckPubKeyEncoding_safe v flags : safe (fun _ => True) (CheckPubKeyEncoding v flags).
Proof. unfold CheckPubKeyEncoding. case_match; done. Qed.

(** ** Instructions on the whole state *)

Section State.
Context `{!BaseSignatureChecker} (script : CScript) (flags : Z).

Definition st_ok (st : EvalState) : Prop :=
  stack_ok (stack st) /\ stack_ok (altstack st) /\ zlen (stack st) + zlen (altstack st) <= 1000 /\
  0 <= nOpCount st <= MAX_OPS_PER_SCRIPT.

(** What executing one instruction keeps. *)
Definition executed (st st' : EvalState) : Prop :=
  stack_ok (stack st') /\ stack_ok (altstack st') /\ pc st' = pc st /\
  nOpCount st <= nOpCount st' <= MAX_OPS_PER_SCRIPT.

Lemma on_stack_safe f st : st_ok st -> (stack_ok (stack st) -> safe (grown (stack st)) (f (stack st))) ->
  safe (executed st) (on_stack f st).
Proof.
  intros (Hs & Ha & Hz & Hn) Hf. unfold on_stack. eapply safe_bind; [by apply Hf|].
  intros s' [Hs' _]. cbn. unfold executed, with_stack; cbn. auto with lia.
Qed.

Lemma executed_refl st : st_ok st -> executed st st.
Proof. intros (? & ? & ? & ?). unfold executed. auto with lia. Qed.

Lemma op_checklocktimeverify_safe st : st_ok st -> safe (executed st) (op_checklocktimeverify flags st).
Proof.
  intros Hst. pose proof (executed_refl _ Hst). destruct Hst as (Hs & Ha & Hz & Hn).
  unfold op_checklocktimeverify. case_match; [case_match; done|]. size_guard. bind_top.
  eapply safe_bind; [apply script_num_safe; [done|lia]|]. intros nl _. repeat case_match; done.
Qed.

Lemma op_checksequenceverify_safe st : st_ok st -> safe (executed st) (op_checksequenceverify flags st).
Proof.
  intros Hst. pose proof (executed_refl _ Hst). destruct Hst as (Hs & Ha & Hz & Hn).
  unfold op_checksequenceverify. case_match; [case_match; done|]. size_guard. bind_top.
  eapply safe_bind; [apply script_num_safe; [done|lia]|]. intros nl _. repeat case_match; done.
Qed.

Lemma op_if_safe opcode fExec st : st_ok st -> safe (executed st) (op_if opcode fExec st).
Proof.
  intros Hst. pose proof (executed_refl _ Hst) as Hr. destruct Hst as (Hs & Ha & Hz & Hn).
  unfold op_if. destruct fExec; [|exact Hr]. size_guard. bind_top. bind_pop.
  unfold executed; cbn. auto with lia.
Qed.

Lemma op_toaltstack_safe st : st_ok st -> safe (executed st) (op_toaltstack st).
Proof.
  intros (Hs & Ha & Hz & Hn). unfold op_toaltstack. size_guard. bind_top. bind_pop.
  unfold executed; cbn. split; [done|]. split; [by apply Forall_cons_2|]. auto with lia.
Qed.

Lemma op_fromaltstack_safe st : st_ok st -> safe (executed st) (op_fromaltstack st).
Proof.
  intros (Hs & Ha & Hz & Hn). unfold op_fromaltstack. size_guard. bind_top. bind_pop.
  unfold executed; cbn. split; [by apply Forall_cons_2|]. auto with lia.
Qed.

Lemma op_checksig_safe opcode st : st_ok st -> safe (executed st) (op_checksig script flags opcode st).
Proof.
  intros (Hs & Ha & Hz & Hn). unfold op_checksig. size_guard. bind_top. bind_top.
  eapply safe_bind; [apply CheckSignatureEncoding_safe|]. intros _ _.
  eapply safe_bind; [apply CheckPubKeyEncoding_safe|]. intros _ _. bind_pop. bind_pop.
  destruct (opcode =? OP_CHECKSIGVERIFY), (CheckSig _ _ _); cbn [popstack safe mbind result_bind]; try exact I;
    unfold executed; cbn; (split; [first [apply Forall_cons_2; [by_decide|]; done|done]|]); auto with lia.
Qed.

Lemma drop_sigs_safe k : forall s isig code, stack_ok s -> 1 <= isig -> isig + Z.of_nat k - 1 <= zlen s ->
  safe (fun _ => True) (drop_sigs k s isig code).
Proof.
  induction k as [|k IH]; intros s isig code Hs Hi Hk; cbn [drop_sigs]; [done|].
  bind_top. apply IH; [done|lia|lia].
Qed.

(** The matching loop runs at most once per key and stays inside the keys and
    signatures on the stack. *)
Lemma multisig_loop_safe fuel : forall s code isig ikey nSigs nKeys ok,
  stack_ok s -> 1 <= isig -> isig + nSigs - 1 <= zlen s -> 1 <= ikey -> ikey + nKeys - 1 <= zlen s ->
  0 <= nKeys < Z.of_nat fuel -> (ok = true -> nSigs <= nKeys) ->
  safe (fun _ => True) (multisig_loop flags fuel s code isig ikey nSigs nKeys ok).
Proof.
  induction fuel as [|fuel IH]; intros s code isig ikey nSigs nKeys ok Hs H1 H2 H3 H4 Hf Hok; [lia|].
  cbn [multisig_loop]. destruct ok; cbn [andb]; [|done]. destruct (Z.gtb_spec nSigs 0); [|done].
  specialize (Hok eq_refl). bind_top. bind_top.
  eapply safe_bind; [apply CheckSignatureEncoding_safe|]. intros _ _.
  eapply safe_bind; [apply CheckPubKeyEncoding_safe|]. intros _ _.
  match goal with |- context [CheckSig ?a ?b ?c] => destruct (CheckSig a b c) end;
    (apply IH; [done|lia..|]); intros Hb; apply negb_true_iff in Hb; rewrite Z.gtb_ltb in Hb;
    apply Z.ltb_ge in Hb; lia.
Qed.

Lemma pop_n_safe k : forall s, stack_ok s -> Z.of_nat k <= zlen s ->
  safe (fun s' => stack_ok s' /\ zlen s' = zlen s - Z.of_nat k) (pop_n k s).
Proof.
  induction k as [|k IH]; intros s Hs Hk; cbn [pop_n]; [cbn; split; [done|lia]|].
  bind_pop. eapply safe_mono; [apply IH; [done|lia]|]. intros s' [? ?]. split; [done|lia].
Qed.

Lemma op_checkmultisig_safe opcode st : st_ok st -> safe (executed st) (op_checkmultisig script flags opcode st).
Proof.
  intros (Hs & Ha & Hz & Hn). unfold op_checkmultisig. size_guard. bind_top. bind_num.
  match goal with |- context [getint ?x] => set (nk := getint x) end. clearbody nk.
  unfold MAX_PUBKEYS_PER_MULTISIG. destruct (Z.ltb_spec nk 0); [exact I|]. destruct (Z.gtb_spec nk 20); [exact I|].
  cbn [orb nOpCount with_ops].
  destruct (Z.gtb_spec (nOpCount st + nk) MAX_OPS_PER_SCRIPT); [exact I|]. size_guard. bind_top. bind_num.
  match goal with |- context [getint ?x] => set (ns := getint x) end. clearbody ns.
  destruct (Z.ltb_spec ns 0); [exact I|]. destruct (Z.gtb_spec ns nk); [exact I|]. cbn [orb]. size_guard.
  eapply safe_bind; [apply drop_sigs_safe; [done|lia..]|]. intros code _.
  eapply safe_bind; [apply multisig_loop_safe; [done|lia..]|]. intros ok _.
  eapply safe_bind; [apply pop_n_safe; [done|lia]|]. intros s1 [Hs1 Hl1]. size_guard. bind_top.
  destruct (has_flag _ _ && _); [exact I|]. bind_pop.
  destruct (opcode =? OP_CHECKMULTISIGVERIFY), ok; cbn [popstack safe mbind result_bind]; try exact I;
    unfold executed; cbn; (split; [first [apply Forall_cons_2; [by_decide|]; done|done]|]); auto with lia.
Qed.

Lemma exec_op_safe opcode fExec st : st_ok st -> safe (executed st) (exec_op script flags opcode fExec st).
Proof using HC.
  intros Hst. pose proof (executed_refl _ Hst) as Hr. pose proof Hst as (Hs & Ha & Hz & Hn).
  unfold exec_op.
  destruct ((opcode =? OP_1NEGATE) || ((OP_1 <=? opcode) && (opcode <=? OP_16))) eqn:E1.
  { cbn. unfold executed; cbn. split; [|auto with lia]. apply Forall_cons_2; [|done]. apply serialize_ok.
    unfold OP_1NEGATE, OP_1, OP_16 in *. apply orb_true_iff in E1 as [E%Z.eqb_eq|[? ?]%andb_true_iff]; lia. }
  destruct (opcode =? OP_NOP); [exact Hr|].
  destruct (opcode =? OP_CHECKLOCKTIMEVERIFY); [by apply op_checklocktimeverify_safe|].
  destruct (opcode =? OP_CHECKSEQUENCEVERIFY); [by apply op_checksequenceverify_safe|].
  branch; [unfold op_nopn; branch; [exact I|exact Hr]|].
  branch; [by apply op_if_safe|].
  destruct (opcode =? OP_ELSE); [unfold op_else; case_match; [exact I|exact Hr]|].
  destruct (opcode =? OP_ENDIF); [unfold op_endif; case_match; [exact I|exact Hr]|].
  destruct (opcode =? OP_VERIFY); [apply on_stack_safe; [done|apply op_verify_safe]|].
  destruct (opcode =? OP_RETURN); [exact I|].
  destruct (opcode =? OP_TOALTSTACK); [by apply op_toaltstack_safe|].
  destruct (opcode =? OP_FROMALTSTACK); [by apply op_fromaltstack_safe|].
  branch; [apply on_stack_safe; [done|apply op_pick_roll_safe]|].
  destruct (stack_op opcode (stack st)) as [r|] eqn:Eso.
  { apply (on_stack_safe (fun _ => r)); [done|]. intros _. eapply stack_op_safe; [done| |done].
    pose proof (zlen_nonneg (altstack st)). lia. }
  branch; [apply on_stack_safe; [done|apply op_equal_safe]|].
  destruct ((opcode =? OP_1ADD) || _ || _ || _ || _ || _) eqn:E2.
  { apply on_stack_safe; [done|]. intros _. by apply op_unary_safe. }
  destruct ((opcode =? OP_ADD) || _ || _) eqn:E3.
  { apply on_stack_safe; [done|]. intros _. by apply op_binary_safe. }
  destruct (opcode =? OP_WITHIN); [apply on_stack_safe; [done|apply op_within_safe]|].
  branch; [apply on_stack_safe; [done|apply op_hash_safe]|].
  destruct (opcode =? OP_CODESEPARATOR); [exact Hr|].
  branch; [by apply op_checksig_safe|].
  branch; [by apply op_checkmultisig_safe|]. exact I.
Qed.

Lemma GetOp2_data_bytes k : Forall is_byte script -> Forall is_byte (op_data (GetOp2 script k)).
Proof.
  intros Hb. unfold GetOp2. case_match; [constructor|]. case_match; [|constructor].
  destruct (GetOp2_size _ _ _) as [[ok nSize] p]. repeat case_match; try constructor. cbn.
  by apply Forall_take, Forall_drop.
Qed.

Lemma eval_step_safe st : Forall is_byte script -> st_ok st -> (pc st <= length script)%nat ->
  safe (fun st' => st_ok st' /\ (pc st < pc st' <= length script)%nat) (eval_step script flags st).
Proof using HC.
  intros Hb Hst Hpc. unfold eval_step. pose proof (GetOp2_data_bytes (pc st) Hb) as Hd.
  destruct (op_ok (GetOp2 script (pc st))) eqn:Eok; cbn [negb]; [|exact I].
  destruct (GetOp2_ok script (pc st) Hpc Eok) as [_ Hpc']. set (r := GetOp2 script (pc st)) in *. clearbody r.
  destruct (Z.gtb_spec (zlen (op_data r)) MAX_SCRIPT_ELEMENT_SIZE); [exact I|].
  set (st1 := mkEvalState _ _ _ _ _ _). pose proof Hst as (Hs & Ha & Hz & Hn).
  destruct ((op_code r >? OP_16) && (nOpCount st1 >? MAX_OPS_PER_SCRIPT)) eqn:Eop; [exact I|].
  assert (Hst1 : st_ok st1).
  { unfold st_ok, st1; cbn [stack altstack nOpCount]. split; [done|]. split; [done|]. split; [done|].
    unfold st1 in Eop; cbn [nOpCount] in Eop. destruct (op_code r >? OP_16); [|lia]. cbn [andb] in Eop.
    rewrite Z.gtb_ltb in Eop. apply Z.ltb_ge in Eop. lia. }
  branch; [exact I|].
  assert (Hfin : forall st', executed st1 st' ->
    safe (fun st' => st_ok st' /\ (pc st < pc st' <= length script)%nat)
      (if (zlen (stack st') + zlen (altstack st') >? 1000 : bool) then Err SCRIPT_ERR_STACK_SIZE else Ret st')).
  { intros st' (Hs1 & Hs2 & Hs3 & Hs4). destruct (Z.gtb_spec (zlen (stack st') + zlen (altstack st')) 1000); [exact I|].
    cbn. destruct Hst1 as (_ & _ & _ & ?). split; [split; [done|]; split; [done|]; lia|].
    rewrite Hs3. cbn. lia. }
  eapply safe_bind; [|exact Hfin].
  branch.
  - branch; [exact I|]. cbn. pose proof (executed_refl _ Hst1) as (? & ? & ? & ?).
    split; [|done]. apply Forall_cons_2; [|done]. split; [done|lia].
  - branch; [by apply exec_op_safe|by apply executed_refl].
Qed.

Lemma eval_loop_safe fuel : forall st, Forall is_byte script -> st_ok st ->
  (pc st <= length script)%nat -> (length script - pc st <= fuel)%nat ->
  safe (fun st' => st_ok st' /\ (pc st' = length script)) (eval_loop script flags fuel st).
Proof using HC.
  induction fuel as [|fuel IH]; intros st Hb Hst Hpc Hf; cbn [eval_loop];
    (destruct (Nat.leb_spec (length script) (pc st)); [cbn; split; [done|lia]|]); [lia|].
  eapply safe_bind; [by apply eval_step_safe|]. intros st' [Hst' Hpc']. apply IH; [done|done|lia|lia].
Qed.

(** [EvalScript] ends in a stack or a script error. *)
Definition ends {A} (Q : A -> Prop) (r : result A) : Prop :=
  match r with
  | Ret a => Q a
  | Err _ => True
  | Throw _ => False
  | AssertFail => False
  end.

Lemma ends_bind {A B} (P : A -> Prop) (Q : B -> Prop) (m : result A) (f : A -> result B) :
  ends P m -> (forall a, P a -> ends Q (f a)) -> ends Q (m ≫= f).
Proof. destruct m; cbn; auto. Qed.

Lemma catch_ends {A} (Q : A -> Prop) (m : result A) : safe Q m -> ends Q (catch_all m).
Proof. by destruct m. Qed.

Lemma initial_ok s : stack_ok s -> zlen s <= 1000 -> st_ok (mkEvalState 0 s [] [] 0 0).
Proof.
  intros Hs Hl. unfold st_ok, MAX_OPS_PER_SCRIPT; cbn [stack altstack nOpCount].
  change (zlen []) with 0. split; [done|]. split; [constructor|]. lia.
Qed.

Lemma EvalScript_ends s : Forall is_byte script -> stack_ok s -> zlen s <= 1000 ->
  ends (fun s' => stack_ok s' /\ zlen s' <= 1000) (EvalScript script flags s).
Proof using HC.
  intros Hb Hs Hl. unfold EvalScript. destruct (zlen script >? MAX_SCRIPT_SIZE); [exact I|].
  eapply ends_bind; [apply catch_ends, eval_loop_safe; [done|by apply initial_ok|cbn; lia|cbn; lia]|].
  intros st [(H1 & H2 & H3 & H4) _]. pose proof (zlen_nonneg (altstack st)).
  destruct (vfExec st); cbn; [split; [done|lia]|done].
Qed.

End State.

(** ** The theorems *)

(** C1: the interpreter is safe on every script.  For any script bytes, flags
    and signature checker, and a starting stack within the limits, the loop of
    [EvalScript] comes to the end of the script within one iteration per byte;
    it never reads below the stack, pops an empty stack or fails an assertion
    (the only exception it throws is [scriptnum_error], which becomes
    [SCRIPT_ERR_UNKNOWN_ERROR]); and when it succeeds, the stacks together hold
    at most 1000 elements of at most 520 bytes, after at most 201 counted
    operations. *)
Theorem EvalScript_safe `{!BaseSignatureChecker} script flags s :
  Forall is_byte script -> stack_ok s -> zlen s <= 1000 ->
  safe (fun st => st_ok st /\ pc st = length script)
    (eval_loop script flags (length script) (mkEvalState 0 s [] [] 0 0)) /\
  ends (fun s' => stack_ok s' /\ zlen s' <= 1000) (EvalScript script flags s).
Proof using HC.
  intros Hb Hs Hl. split; [|by apply EvalScript_ends].
  apply eval_loop_safe; [done|by apply initial_ok|cbn; lia|cbn; lia].
Qed.

(** A pay-to-script-hash script cannot succeed on an empty stack. *)
Lemma P2SH_needs_stack `{!BaseSignatureChecker} script flags s :
  IsPayToScriptHash script = true -> EvalScript script flags [] <> Ret s.
Proof.
  unfold IsPayToScriptHash. rewrite !andb_true_iff, !Z.eqb_eq. intros [[[Hl Ho] _] _].
  destruct script as [|o rest]; [done|]. cbn [nth] in Ho. subst o.
  unfold EvalScript, MAX_SCRIPT_SIZE. rewrite Hl. change (23 >? 10000) with false. cbn iota.
  cbn [length eval_loop pc].
  assert (E : eval_step (OP_HASH160 :: rest) flags (mkEvalState 0 [] [] [] 0 0) = Err SCRIPT_ERR_INVALID_STACK_OPERATION).
  { unfold eval_step. cbn [vfExec forallb pc].
    change (GetOp2 (OP_HASH160 :: rest) 0) with (OpRead true 1 OP_HASH160 []). reflexivity. }
  cbn [Nat.leb]. rewrite E. done.
Qed.

Lemma RemoveBDAPScript_bytes s t : Forall is_byte s -> RemoveBDAPScript s = Some t -> Forall is_byte t.
Proof.
  unfold RemoveBDAPScript. intros Hs Ht. destruct (DecodeBDAPScript s) as [[[[a b] c] p]|]; [|done].
  cbn in Ht. simplify_eq. by apply Forall_drop.
Qed.

Lemma has_flag_spec flags k : 0 <= k -> has_flag flags (2 ^ k) = Z.testbit flags k.
Proof. intros Hk. unfold has_flag. rewrite land_pow2_eqb by done. apply negb_involutive. Qed.

(** [VerifyScript] always ends in success or a script error.  In
    particular the assertion that the saved stack of a pay-to-script-hash
    input is not empty never fails, and the assertion that CLEANSTACK comes
    with P2SH fails only for flags that break that rule. *)
Theorem VerifyScript_total `{!BaseSignatureChecker} scriptSig scriptPubKey flags :
  Forall is_byte scriptSig -> Forall is_byte scriptPubKey ->
  (Z.testbit flags 8 = true -> Z.testbit flags 0 = true) ->
  ends (fun _ => True) (VerifyScript scriptSig scriptPubKey flags).
Proof using HC.
  intros Hsig Hpk Hcs. unfold VerifyScript.
  set (pk := match RemoveBDAPScript scriptPubKey with Some s => s | None => scriptPubKey end).
  assert (Hb : Forall is_byte pk).
  { unfold pk. destruct (RemoveBDAPScript scriptPubKey) eqn:E; [by eapply RemoveBDAPScript_bytes|done]. }
  clearbody pk. destruct (has_flag flags SCRIPT_VERIFY_SIGPUSHONLY && _); [exact I|].
  pose proof (EvalScript_ends scriptSig flags [] Hsig ltac:(constructor) ltac:(done)) as He1.
  destruct (EvalScript scriptSig flags []) as [s1| | |] eqn:E1; try done. destruct He1 as [Hs1 Hl1].
  cbn [mbind result_bind].
  pose proof (EvalScript_ends pk flags s1 Hb Hs1 Hl1) as He2.
  destruct (EvalScript pk flags s1) as [s2| | |] eqn:E2; try done. cbn [mbind result_bind].
  destruct (negb (top_is_true s2)); [exact I|].
  apply (ends_bind (fun _ => True)).
  - destruct (has_flag flags SCRIPT_VERIFY_P2SH && IsPayToScriptHash pk) eqn:Ep; [|done].
    destruct (negb (IsPushOnly scriptSig)); [exact I|].
    destruct s1 as [|redeem s1].
    { apply andb_true_iff in Ep as [_ Ep]. by apply (P2SH_needs_stack _ flags s2) in Ep. }
    inversion Hs1 as [|?? [Hrb _] Hs1']; subst. rewrite zlen_cons in Hl1.
    pose proof (EvalScript_ends redeem flags s1 Hrb Hs1' ltac:(lia)) as He3.
    destruct (EvalScript redeem flags s1); try done. cbn [mbind result_bind]. by destruct (negb _).
  - intros s3 _. unfold SCRIPT_VERIFY_CLEANSTACK, SCRIPT_VERIFY_P2SH. rewrite !has_flag_spec by lia.
    destruct (Z.testbit flags 8); [|done]. rewrite Hcs by done. cbn [negb]. by destruct (negb _).
Qed.

End WithCrypto.

(** ** Witnesses *)

(** A toy hash of the right sizes, for concrete evaluations. *)
Definition toy_hash (k : nat) (d : list Z) : list Z := le_bytes k (foldl (fun a x => 31 * a + x + 1) 7 d).

Definition toy_crypto : Crypto := {|
  RIPEMD160 := toy_hash 20;
  SHA1 := toy_hash 20;
  SHA256 := toy_hash 32;
  CheckLowS _ := true
|}.

#[export] Instance toy_crypto_ok : @CryptoOk toy_crypto.
Proof. split; intros d; (split; [apply length_le_bytes|apply le_bytes_bytes]). Qed.

Lemma EvalScript_safe_witness :
  @EvalScript toy_crypto base_checker [OP_1; OP_1 + 1; OP_ADD; OP_DUP; OP_IF; OP_SHA1; OP_ENDIF] 0 [] =
    Ret [toy_hash 20 [3]] /\
  @ends (list (list Z)) (fun s' => stack_ok s' /\ zlen s' <= 1000)
    (@EvalScript toy_crypto base_checker [OP_1; OP_1 + 1; OP_ADD; OP_DUP; OP_IF; OP_SHA1; OP_ENDIF] 0 []).
Proof.
  split; [vm_compute; reflexivity|].
  apply (proj2 (@EvalScript_safe toy_crypto toy_crypto_ok base_checker
    [OP_1; OP_1 + 1; OP_ADD; OP_DUP; OP_IF; OP_SHA1; OP_ENDIF] 0 [] ltac:(by_decide) ltac:(by_decide) ltac:(by_decide))).
Defined.

Lemma VerifyScript_total_witness :
  @VerifyScript toy_crypto base_checker [OP_1] ([OP_HASH160; 20] ++ toy_hash 20 (toy_hash 32 [1]) ++ [OP_EQUAL]) 257 =
    Err SCRIPT_ERR_BAD_OPCODE /\
  @ends unit (fun _ => True)
    (@VerifyScript toy_crypto base_checker [OP_1] ([OP_HASH160; 20] ++ toy_hash 20 (toy_hash 32 [1]) ++ [OP_EQUAL]) 257).
Proof.
  split; [vm_compute; reflexivity|].
  apply (@VerifyScript_total toy_crypto toy_crypto_ok base_checker); [by_decide|by_decide|reflexivity].
Defined.

End InterpreterSafety.
