(* ===== verification/InterpreterFlags.v ===== *)
(** * Verification flags are soft forks

    The comments on the SCRIPT_VERIFY flags call them "softfork safe": setting
    more flags may reject more scripts but never accepts a script that fewer
    flags reject.  This file proves it for [EvalScript] and [VerifyScript],
    and what the pruning test [IsUnspendable] guarantees. *)

From stdpp Require Import base list list_numbers numbers option.
From Stdlib Require Import ZArith Lia.
From S2P Require Import Prelude Serialize Script Transaction Interpreter InterpreterSafety.

Local Open Scope Z_scope.

Module InterpreterFlags.
Import Script Transaction Interpreter InterpreterSafety.

(** [stricter r2 r1]: whenever [r2] returns, [r1] returns the same. *)
Definition stricter {A} (r2 r1 : result A) : Prop := forall a, r2 = Ret a -> r1 = Ret a.

Lemma stricter_refl {A} (r : result A) : stricter r r.
Proof. by intros a. Qed.

Lemma stricter_err {A} e (r : result A) : stricter (Err e) r.
Proof. by intros a. Qed.

Lemma stricter_bind {A B} (m2 m1 : result A) (f2 f1 : A -> result B) :
  stricter m2 m1 -> (forall a, m2 = Ret a -> stricter (f2 a) (f1 a)) -> stricter (m2 ≫= f2) (m1 ≫= f1).
Proof. intros Hm Hf b. destruct m2 as [a| | |]; cbn; try done. rewrite (Hm a eq_refl). by apply Hf. Qed.

Lemma stricter_bind_same {A B} (m : result A) (f2 f1 : A -> result B) :
  (forall a, m = Ret a -> stricter (f2 a) (f1 a)) -> stricter (m ≫= f2) (m ≫= f1).
Proof. intros. by apply stricter_bind; [apply stricter_refl|]. Qed.

(** [f1] has no flag that [f2] does not have; and when it discourages the
    upgradable NOPs, it agrees with [f2] on which of them are upgraded. *)
Definition fewer_flags (f1 f2 : Z) : Prop :=
  (forall k, 0 <= k <= 10 -> Z.testbit f1 k = true -> Z.testbit f2 k = true) /\
  (Z.testbit f1 7 = true -> Z.testbit f1 9 = Z.testbit f2 9 /\ Z.testbit f1 10 = Z.testbit f2 10).

Section Flags.
Context `{!Crypto} `{!BaseSignatureChecker} (script : CScript) (f1 f2 : Z) (Hf : fewer_flags f1 f2).

Lemma flag_mono k : 0 <= k <= 10 -> has_flag f1 (2 ^ k) = true -> has_flag f2 (2 ^ k) = true.
Proof using Hf. intros Hk. rewrite !has_flag_spec by lia. by apply Hf. Qed.

Lemma flag_mono_false k : 0 <= k <= 10 -> has_flag f2 (2 ^ k) = false -> has_flag f1 (2 ^ k) = false.
Proof using Hf.
  intros Hk H2. destruct (has_flag f1 (2 ^ k)) eqn:E; [|done]. by rewrite (flag_mono k Hk E) in H2.
Qed.

(** A check made only under a flag. *)
Lemma guarded_check {A} k (c : bool) e (r2 r1 : result A) : 0 <= k <= 10 -> stricter r2 r1 ->
  stricter (if has_flag f2 (2 ^ k) && c then Err e else r2) (if has_flag f1 (2 ^ k) && c then Err e else r1).
Proof using Hf.
  intros Hk Hr. destruct (has_flag f2 (2 ^ k)) eqn:E2.
  - destruct c; cbn [andb]; [apply stricter_err|]. by rewrite andb_false_r.
  - rewrite (flag_mono_false k Hk E2). done.
Qed.

Lemma script_num_mono sz v :
  stricter (script_num (fRequireMinimal f2) sz v) (script_num (fRequireMinimal f1) sz v).
Proof using Hf.
  unfold fRequireMinimal, SCRIPT_VERIFY_MINIMALDATA. destruct (has_flag f2 (2 ^ 6)) eqn:E2.
  - destruct (has_flag f1 (2 ^ 6)) eqn:E1; [apply stricter_refl|].
    unfold script_num, CScriptNum. destruct (zlen v >? sz); [apply stricter_refl|].
    match goal with |- stricter (match (if ?c then _ else _) with _ => _ end) _ => destruct c end; [by intros a|].
    cbn [andb]. apply stricter_refl.
  - rewrite (flag_mono_false 6 ltac:(lia) E2). apply stricter_refl.
Qed.

Ltac same := apply stricter_bind_same; intros ? _.
Ltac num := apply stricter_bind; [apply script_num_mono|]; intros ? _.
Ltac split_if := match goal with
  | |- stricter (if ?c then _ else _) (if ?c then _ else _) => destruct c
  end.
Ltac refl := first [apply stricter_refl | apply stricter_err].

Lemma op_pick_roll_mono o s : stricter (op_pick_roll (fRequireMinimal f2) o s) (op_pick_roll (fRequireMinimal f1) o s).
Proof using Hf. unfold op_pick_roll. split_if; [refl|]. same. num. refl. Qed.

Lemma op_unary_mono o s : stricter (op_unary (fRequireMinimal f2) o s) (op_unary (fRequireMinimal f1) o s).
Proof using Hf. unfold op_unary. split_if; [refl|]. same. num. refl. Qed.

Lemma op_binary_mono o s : stricter (op_binary (fRequireMinimal f2) o s) (op_binary (fRequireMinimal f1) o s).
Proof using Hf. unfold op_binary. split_if; [refl|]. same. num. same. num. refl. Qed.

Lemma op_within_mono s : stricter (op_within (fRequireMinimal f2) s) (op_within (fRequireMinimal f1) s).
Proof using Hf. unfold op_within. split_if; [refl|]. same. num. same. num. same. num. refl. Qed.

Lemma on_stack_mono g2 g1 st : stricter (g2 (stack st)) (g1 (stack st)) -> stricter (on_stack g2 st) (on_stack g1 st).
Proof. intros H1. unfold on_stack. apply stricter_bind; [done|]. intros ? _. apply stricter_refl. Qed.

(** CHECKLOCKTIMEVERIFY and CHECKSEQUENCEVERIFY never change the state, so
    treating them as NOPs accepts more. *)
Lemma upgraded_nop_mono k (g2 g1 : EvalState -> result EvalState) st :
  k = 9 \/ k = 10 -> stricter (g2 st) (g1 st) -> stricter (g2 st) (Ret st) ->
  stricter
    (if negb (has_flag f2 (2 ^ k)) then
       if has_flag f2 (2 ^ 7) then Err SCRIPT_ERR_DISCOURAGE_UPGRADABLE_NOPS else Ret st else g2 st)
    (if negb (has_flag f1 (2 ^ k)) then
       if has_flag f1 (2 ^ 7) then Err SCRIPT_ERR_DISCOURAGE_UPGRADABLE_NOPS else Ret st else g1 st).
Proof using Hf.
  intros Hk Hg Hst. destruct (has_flag f2 (2 ^ k)) eqn:E2; cbn [negb].
  - destruct (has_flag f1 (2 ^ k)) eqn:E1; cbn [negb]; [done|].
    destruct (has_flag f1 (2 ^ 7)) eqn:E7; [|done]. exfalso.
    rewrite has_flag_spec in E1, E2, E7 by lia. destruct Hf as [_ Hnop]. specialize (Hnop E7).
    destruct Hk as [-> | ->]; destruct Hnop; congruence.
  - rewrite (flag_mono_false k) by (done || lia). cbn [negb].
    destruct (has_flag f2 (2 ^ 7)) eqn:E7; [refl|]. rewrite (flag_mono_false 7) by (done || lia). refl.
Qed.

Lemma op_checklocktimeverify_mono st : stricter (op_checklocktimeverify f2 st) (op_checklocktimeverify f1 st).
Proof using Hf.
  unfold op_checklocktimeverify, SCRIPT_VERIFY_CHECKLOCKTIMEVERIFY, SCRIPT_VERIFY_DISCOURAGE_UPGRADABLE_NOPS.
  apply (upgraded_nop_mono 9 (fun st => if zlen (stack st) <? 1 then _ else _) (fun st => if zlen (stack st) <? 1 then _ else _));
    [by left| |].
  - split_if; [refl|]. same. num. refl.
  - destruct (zlen (stack st) <? 1); [refl|]. intros st'.
    destruct (stacktop (stack st) 1); cbn; try done. destruct (script_num _ _ _); cbn; try done. by repeat case_match.
Qed.

Lemma op_checksequenceverify_mono st : stricter (op_checksequenceverify f2 st) (op_checksequenceverify f1 st).
Proof using Hf.
  unfold op_checksequenceverify, SCRIPT_VERIFY_CHECKSEQUENCEVERIFY, SCRIPT_VERIFY_DISCOURAGE_UPGRADABLE_NOPS.
  apply (upgraded_nop_mono 10 (fun st => if zlen (stack st) <? 1 then _ else _) (fun st => if zlen (stack st) <? 1 then _ else _));
    [by right| |].
  - split_if; [refl|]. same. num. refl.
  - destruct (zlen (stack st) <? 1); [refl|]. intros st'.
    destruct (stacktop (stack st) 1); cbn; try done. destruct (script_num _ _ _); cbn; try done. by repeat case_match.
Qed.

Lemma op_nopn_mono st : stricter (op_nopn f2 st) (op_nopn f1 st).
Proof using Hf.
  unfold op_nopn, SCRIPT_VERIFY_DISCOURAGE_UPGRADABLE_NOPS. pose proof (guarded_check 7 true SCRIPT_ERR_DISCOURAGE_UPGRADABLE_NOPS
    (Ret st) (Ret st) ltac:(lia) (stricter_refl _)) as H1. by rewrite !andb_true_r in H1.
Qed.

Lemma sig_flags_bits f : has_flag f (Z.lor (Z.lor SCRIPT_VERIFY_DERSIG SCRIPT_VERIFY_LOW_S) SCRIPT_VERIFY_STRICTENC) =
  has_flag f (2 ^ 2) || has_flag f (2 ^ 3) || has_flag f (2 ^ 1).
Proof.
  unfold has_flag, SCRIPT_VERIFY_DERSIG, SCRIPT_VERIFY_LOW_S, SCRIPT_VERIFY_STRICTENC.
  rewrite !Z.land_lor_distr_r.
  assert (Hor : forall a b, (Z.lor a b =? 0) = (a =? 0) && (b =? 0)).
  { intros a b. destruct (Z.eqb_spec a 0) as [->|]; cbn [andb].
    - done.
    - apply Z.eqb_neq. intros [? ?]%Z.lor_eq_0_iff. done. }
  rewrite !Hor. by destruct (Z.land f (2 ^ 2) =? 0), (Z.land f (2 ^ 3) =? 0), (Z.land f (2 ^ 1) =? 0).
Qed.

Lemma CheckSignatureEncoding_mono v : stricter (CheckSignatureEncoding v f2) (CheckSignatureEncoding v f1).
Proof using Hf.
  unfold CheckSignatureEncoding. split_if; [refl|]. rewrite !sig_flags_bits.
  unfold SCRIPT_VERIFY_LOW_S, SCRIPT_VERIFY_STRICTENC.
  destruct (has_flag f2 (2 ^ 2)) eqn:E2, (has_flag f2 (2 ^ 3)) eqn:E3, (has_flag f2 (2 ^ 1)) eqn:E1;
    rewrite ?(flag_mono_false 2 ltac:(lia) E2), ?(flag_mono_false 3 ltac:(lia) E3), ?(flag_mono_false 1 ltac:(lia) E1);
    cbn [orb andb]; unfold IsLowDERSignature;
    destruct (IsValidSignatureEncoding v); cbn [negb andb mbind result_bind]; rewrite ?andb_false_r, ?andb_true_r;
    try refl;
    destruct (has_flag f1 (2 ^ 2)), (has_flag f1 (2 ^ 3)), (has_flag f1 (2 ^ 1));
    cbn [orb andb mbind result_bind];
    destruct (CheckLowS (take (length v - 1) v)); cbn [negb mbind result_bind];
    destruct (IsDefinedHashtypeSignature v); cbn [negb]; refl.
Qed.

Lemma CheckPubKeyEncoding_mono v : stricter (CheckPubKeyEncoding v f2) (CheckPubKeyEncoding v f1).
Proof using Hf. unfold CheckPubKeyEncoding, SCRIPT_VERIFY_STRICTENC. apply guarded_check; [lia|refl]. Qed.

Lemma op_checksig_mono o st : stricter (op_checksig script f2 o st) (op_checksig script f1 o st).
Proof using Hf.
  unfold op_checksig. split_if; [refl|]. same. same.
  apply stricter_bind; [apply CheckSignatureEncoding_mono|]. intros _ _.
  apply stricter_bind; [apply CheckPubKeyEncoding_mono|]. intros _ _. refl.
Qed.

Lemma multisig_loop_mono fuel : forall s code isig ikey ns nk ok,
  stricter (multisig_loop f2 fuel s code isig ikey ns nk ok) (multisig_loop f1 fuel s code isig ikey ns nk ok).
Proof using Hf.
  induction fuel as [|fuel IH]; intros s code isig ikey ns nk ok; cbn [multisig_loop]; [refl|]. split_if; [|refl].
  same. same. apply stricter_bind; [apply CheckSignatureEncoding_mono|]. intros _ _.
  apply stricter_bind; [apply CheckPubKeyEncoding_mono|]. intros _ _. apply IH.
Qed.

Lemma op_checkmultisig_mono o st : stricter (op_checkmultisig script f2 o st) (op_checkmultisig script f1 o st).
Proof using Hf.
  unfold op_checkmultisig. split_if; [refl|]. same. num. split_if; [refl|]. split_if; [refl|]. split_if; [refl|].
  same. num. split_if; [refl|]. split_if; [refl|]. same.
  apply stricter_bind; [apply multisig_loop_mono|]. intros ? _. same. split_if; [refl|]. same.
  unfold SCRIPT_VERIFY_NULLDUMMY. apply guarded_check; [lia|refl].
Qed.

Lemma exec_op_mono o fe st : stricter (exec_op script f2 o fe st) (exec_op script f1 o fe st).
Proof using Hf.
  unfold exec_op. split_if; [refl|]. split_if; [refl|]. split_if; [apply op_checklocktimeverify_mono|].
  split_if; [apply op_checksequenceverify_mono|]. split_if; [apply op_nopn_mono|].
  do 7 (split_if; [refl|]). split_if; [apply on_stack_mono, op_pick_roll_mono|].
  destruct (stack_op o (stack st)); [refl|]. split_if; [refl|].
  split_if; [apply on_stack_mono, op_unary_mono|]. split_if; [apply on_stack_mono, op_binary_mono|].
  split_if; [apply on_stack_mono, op_within_mono|]. do 2 (split_if; [refl|]).
  split_if; [apply op_checksig_mono|]. split_if; [apply op_checkmultisig_mono|]. refl.
Qed.

Lemma eval_step_mono st : stricter (eval_step script f2 st) (eval_step script f1 st).
Proof using Hf.
  unfold eval_step. do 4 (split_if; [refl|]).
  apply stricter_bind; [|intros ? _; refl]. split_if.
  - unfold fRequireMinimal, SCRIPT_VERIFY_MINIMALDATA. apply guarded_check; [lia|refl].
  - split_if; [apply exec_op_mono|refl].
Qed.

Lemma eval_loop_mono fuel : forall st, stricter (eval_loop script f2 fuel st) (eval_loop script f1 fuel st).
Proof using Hf.
  induction fuel as [|fuel IH]; intros st; cbn [eval_loop]; [refl|]. split_if; [refl|].
  apply stricter_bind; [apply eval_step_mono|]. intros ? _. apply IH.
Qed.

Lemma catch_mono {A} (r2 r1 : result A) : stricter r2 r1 -> stricter (catch_all r2) (catch_all r1).
Proof. intros H1 a. destruct r2 as [b| | |]; cbn; try done. by rewrite (H1 b eq_refl). Qed.

Lemma EvalScript_mono s : stricter (EvalScript script f2 s) (EvalScript script f1 s).
Proof using Hf.
  unfold EvalScript. split_if; [refl|]. apply stricter_bind; [apply catch_mono, eval_loop_mono|].
  intros ? _. refl.
Qed.

End Flags.

(** C2: soft-fork safety.  If an input is accepted with the flags [f2], it is
    accepted with any fewer flags [f1] (as long as [f1] respects the documented
    rule that CLEANSTACK comes with P2SH, and does not discourage as unknown a
    NOP that [f2] treats as upgraded): a flag only ever rejects more. *)
Theorem VerifyScript_softfork `{!Crypto} `{!BaseSignatureChecker} scriptSig scriptPubKey f1 f2 :
  fewer_flags f1 f2 -> (Z.testbit f1 8 = true -> Z.testbit f1 0 = true) ->
  VerifyScript scriptSig scriptPubKey f2 = Ret () -> VerifyScript scriptSig scriptPubKey f1 = Ret ().
Proof.
  intros Hf Hcs. unfold VerifyScript.
  set (pk := match RemoveBDAPScript scriptPubKey with Some s => s | None => scriptPubKey end).
  enough (Hmain : stricter (VerifyScript scriptSig scriptPubKey f2) (VerifyScript scriptSig scriptPubKey f1))
    by (unfold VerifyScript in Hmain; fold pk in Hmain; apply Hmain).
  unfold VerifyScript. fold pk. unfold SCRIPT_VERIFY_SIGPUSHONLY. apply (guarded_check f1 f2 Hf); [lia|].
  apply stricter_bind; [by apply EvalScript_mono|]. intros s1 _.
  apply stricter_bind; [by apply EvalScript_mono|]. intros s2 _.
  destruct (negb (top_is_true s2)); [apply stricter_err|].
  unfold SCRIPT_VERIFY_P2SH, SCRIPT_VERIFY_CLEANSTACK.
  destruct (has_flag f1 (2 ^ 0)) eqn:E1.
  - rewrite (flag_mono f1 f2 Hf 0 ltac:(lia) E1). apply stricter_bind.
    + cbn [andb]. destruct (IsPayToScriptHash pk); [|apply stricter_refl].
      destruct (negb (IsPushOnly scriptSig)); [apply stricter_err|]. destruct s1 as [|redeem s1]; [apply stricter_refl|].
      apply stricter_bind; [by apply EvalScript_mono|]. intros ? _. apply stricter_refl.
    + intros s3 _. cbn [negb]. destruct (has_flag f2 (2 ^ 8)) eqn:E8.
      * destruct (negb (zlen s3 =? 1)); [apply stricter_err|]. destruct (has_flag f1 (2 ^ 8)); apply stricter_refl.
      * rewrite (flag_mono_false f1 f2 Hf 8 ltac:(lia) E8). apply stricter_refl.
  - cbn [andb mbind result_bind].
    assert (E8 : has_flag f1 (2 ^ 8) = false).
    { destruct (has_flag f1 (2 ^ 8)) eqn:E; [|done]. rewrite has_flag_spec in E, E1 by lia.
      rewrite (Hcs E) in E1. done. }
    rewrite E8. intros [] _. done.
Qed.

(** A checker that accepts one signature for one key. *)
Definition toy_checker : BaseSignatureChecker := {|
  CheckSig sig key _ := bool_decide (sig = [5; 5] /\ key = [9; 9]);
  CheckLockTime n := n <=? 100;
  CheckSequence _ := false
|}.

Definition lock_script : CScript := [1; 17; OP_CHECKLOCKTIMEVERIFY; OP_DROP; OP_CHECKSIG].

(** Accepted with P2SH, MINIMALDATA, CLEANSTACK and CHECKLOCKTIMEVERIFY, hence
    with P2SH alone. *)
Lemma VerifyScript_softfork_witness :
  @VerifyScript toy_crypto toy_checker [2; 5; 5; 2; 9; 9] lock_script 833 = Ret () /\
  @VerifyScript toy_crypto toy_checker [2; 5; 5; 2; 9; 9] lock_script 1 = Ret ().
Proof.
  assert (H : @VerifyScript toy_crypto toy_checker [2; 5; 5; 2; 9; 9] lock_script 833 = Ret ())
    by (vm_compute; reflexivity).
  split; [exact H|].
  refine (@VerifyScript_softfork toy_crypto toy_checker _ _ 1 833 _ _ H).
  - split; [|done]. intros k Hk H1. destruct (decide (k = 0)) as [->|]; [done|].
    rewrite (testbit_above 1 1) in H1 by lia. done.
  - done.
Defined.

(** ** Scripts that can never be satisfied *)

(** [IsUnspendable] implies failure.  A script that starts with OP_RETURN
    or is longer than 10,000 bytes makes [EvalScript] fail whatever the stack,
    the flags and the checker, so that leaving its output out of the UTXO set
    loses nothing. *)
Theorem IsUnspendable_fails `{!Crypto} `{!BaseSignatureChecker} script flags s s' :
  IsUnspendable script = true -> EvalScript script flags s <> Ret s'.
Proof.
  unfold IsUnspendable, EvalScript. intros Hu.
  destruct (zlen script >? MAX_SCRIPT_SIZE); [done|]. rewrite orb_false_r in Hu.
  apply andb_true_iff in Hu as [_ Hu%Z.eqb_eq]. destruct script as [|o rest]; [done|]. cbn [nth] in Hu. subst o.
  cbn [length eval_loop pc Nat.leb].
  assert (E : eval_step (OP_RETURN :: rest) flags (mkEvalState 0 s [] [] 0 0) = Err SCRIPT_ERR_OP_RETURN).
  { unfold eval_step. cbn [vfExec forallb pc].
    change (GetOp2 (OP_RETURN :: rest) 0) with (OpRead true 1 OP_RETURN []). reflexivity. }
  rewrite E. done.
Qed.

Lemma IsUnspendable_fails_witness :
  @EvalScript toy_crypto toy_checker [OP_RETURN; OP_1] 0 [[1]] <> Ret [[1]].
Proof. apply (@IsUnspendable_fails toy_crypto toy_checker). reflexivity. Defined.

(** The pruning test and the verifier disagree on long BDAP outputs.  The
    guarantee above is about [EvalScript] of the whole script, but
    [VerifyScript] first removes the BDAP part: an output whose BDAP part
    takes it over 10,000 bytes is "unspendable" (never entered into the UTXO
    set) although [VerifyScript] accepts a spend of it. *)
Theorem oversize_BDAP_is_satisfiable `{!Crypto} `{!BaseSignatureChecker} op1 op2 vs drops :
  bdap_part_ok op1 op2 vs drops -> MAX_SCRIPT_SIZE <= zlen (bdap_part op1 op2 vs drops) ->
  IsUnspendable (bdap_part op1 op2 vs drops ++ [OP_1]) = true /\
  VerifyScript [] (bdap_part op1 op2 vs drops ++ [OP_1]) SCRIPT_VERIFY_P2SH = Ret ().
Proof.
  intros Hok Hl. split.
  - unfold IsUnspendable. apply orb_true_iff. right. rewrite zlen_app, Z.gtb_ltb.
    apply Z.ltb_lt. change (zlen [OP_1]) with 1. lia.
  - unfold VerifyScript. rewrite (RemoveBDAPScript_spec _ _ _ _ [OP_1] OP_1 [] []) by done. reflexivity.
Qed.

Lemma oversize_BDAP_is_satisfiable_witness :
  @VerifyScript toy_crypto toy_checker [] (bdap_part 1 6 [repeat 7 (Z.to_nat 10000)] [OP_DROP] ++ [OP_1]) SCRIPT_VERIFY_P2SH = Ret ().
Proof.
  refine (proj2 (@oversize_BDAP_is_satisfiable toy_crypto toy_checker 1 6 [repeat 7 (Z.to_nat 10000)] [OP_DROP] _ _)).
  - split; [lia|]. split; [lia|]. split; [constructor; [vm_compute; reflexivity|constructor]|].
    split; [done|by repeat constructor].
  - vm_compute. discriminate.
Defined.

End InterpreterFlags.
