(* ===== verification/SigHash.v ===== *)
(** * Signature hashes and lock times (script/interpreter.cpp, second half)

    [SignatureHash] with its [CTransactionSignatureSerializer], and the
    signature checker of a transaction input: [CheckSig], [CheckLockTime] and
    [CheckSequence]; public keys as [CPubKey] stores them.  Verification of an ECDSA signature is the class
    [ECDSA] (pubkey.cpp calls the secp256k1 library). *)

From stdpp Require Import base list list_numbers numbers option.
From Stdlib Require Import ZArith Lia.
From S2P Require Import Prelude Serialize Script Transaction Interpreter InterpreterSafety.

Local Open Scope Z_scope.

Module SigHash.
Import Serialize Script Transaction Interpreter InterpreterSafety.

(** ** Public keys (pubkey.h) *)

Definition GetLen (chHeader : Z) : Z :=
  if (chHeader =? 2) || (chHeader =? 3) then 33
  else if (chHeader =? 4) || (chHeader =? 6) || (chHeader =? 7) then 65
  else 0.

(** [CPubKey::Set]: the bytes of a key, or [None] for an invalidated one. *)
Definition CPubKey_Set (b : valtype) : option valtype :=
  let len := match b with [] => 0 | h :: _ => GetLen h end in
  if negb (len =? 0) && (len =? zlen b) then Some b else None.

Definition CPubKey_IsValid (k : option valtype) : bool :=
  match k with
  | Some (h :: _) => GetLen h >? 0
  | _ => false
  end.

(** [CPubKey::Verify] of a valid key. *)
Class ECDSA : Type := pubkey_Verify : valtype -> uint256 -> valtype -> bool.

(** ** The serializer *)

Section Serializer.
Context (txTo : CTransaction) (scriptCode : CScript) (nIn : nat) (nHashType : Z).

Definition fAnyoneCanPay : bool := negb (Z.land nHashType SIGHASH_ANYONECANPAY =? 0).
Definition fHashSingle : bool := Z.land nHashType 0x1f =? SIGHASH_SINGLE.
Definition fHashNone : bool := Z.land nHashType 0x1f =? SIGHASH_NONE.

(** The first loop: the number of code separators. *)
Fixpoint count_separators (fuel : nat) (it : nat) (nCodeSeparators : Z) : Z :=
  match fuel with
  | O => nCodeSeparators
  | S fuel =>
      let r := GetOp2 scriptCode it in
      if op_ok r then
        count_separators fuel (op_pc r)
          (if op_code r =? OP_CODESEPARATOR then nCodeSeparators + 1 else nCodeSeparators)
      else nCodeSeparators
  end.

(** The second loop: the bytes written, and the iterators [it] and [itBegin]. *)
Fixpoint write_pieces (fuel : nat) (it itBegin : nat) (out : list Z) : list Z * nat * nat :=
  match fuel with
  | O => (out, it, itBegin)
  | S fuel =>
      let r := GetOp2 scriptCode it in
      let it := op_pc r in
      if op_ok r then
        if op_code r =? OP_CODESEPARATOR
        then write_pieces fuel it it (out ++ take (it - itBegin - 1) (drop itBegin scriptCode))
        else write_pieces fuel it itBegin out
      else (out, it, itBegin)
  end.

Definition SerializeScriptCode : list Z :=
  let nCodeSeparators := count_separators (S (length scriptCode)) 0 0 in
  let '(out, it, itBegin) := write_pieces (S (length scriptCode)) 0 0 [] in
  WriteCompactSize (zlen scriptCode - nCodeSeparators) ++ out ++
  (if (itBegin =? length scriptCode)%nat then [] else take (it - itBegin) (drop itBegin scriptCode)).

Definition null_in : CTxIn := mkCTxIn COutPoint_SetNull [] SEQUENCE_FINAL.

Definition SerializeInput (nInput : nat) : list Z :=
  let nInput := if fAnyoneCanPay then nIn else nInput in
  let i := nth nInput (vin txTo) null_in in
  Ser c_outpoint (prevout i) ++
  (if negb (nInput =? nIn)%nat then Ser c_bytes [] else SerializeScriptCode) ++
  (if negb (nInput =? nIn)%nat && (fHashSingle || fHashNone) then ser_writedata32 0
   else ser_writedata32 (nSequence i)).

Definition SerializeOutput (nOutput : nat) : list Z :=
  if fHashSingle && negb (nOutput =? nIn)%nat then Ser c_txout CTxOut_SetNull
  else Ser c_txout (nth nOutput (vout txTo) CTxOut_SetNull).

Definition SerializeForSignature : list Z :=
  let nInputs := if fAnyoneCanPay then 1%nat else length (vin txTo) in
  let nOutputs := if fHashNone then 0%nat else if fHashSingle then S nIn else length (vout txTo) in
  ser_writedata32 (nVersion txTo) ++
  WriteCompactSize (Z.of_nat nInputs) ++ concat (map SerializeInput (seq 0 nInputs)) ++
  WriteCompactSize (Z.of_nat nOutputs) ++ concat (map SerializeOutput (seq 0 nOutputs)) ++
  ser_writedata32 (nLockTime txTo).

End Serializer.

(** The hash value 1 that marks an impossible request. *)
Definition uint256_one : uint256 := 1 :: repeat 0 31.

Definition SignatureHash `{!Crypto} (scriptCode : CScript) (txTo : CTransaction) (nIn : nat) (nHashType : Z) : uint256 :=
  if (length (vin txTo) <=? nIn)%nat then uint256_one
  else if (Z.land nHashType 0x1f =? SIGHASH_SINGLE) && (length (vout txTo) <=? nIn)%nat then uint256_one
  else CHash256 (SerializeForSignature txTo scriptCode nIn nHashType ++ ser_writedata32 nHashType).

(** ** The checker of an input *)

Definition TransactionCheckSig `{!Crypto} `{!ECDSA} (txTo : CTransaction) (nIn : nat)
  (vchSigIn vchPubKey : valtype) (scriptCode : CScript) : bool :=
  if negb (CPubKey_IsValid (CPubKey_Set vchPubKey)) then false
  else match vchSigIn with
       | [] => false
       | _ =>
           let nHashType := List.last vchSigIn 0 in
           let vchSig := removelast vchSigIn in
           let sighash := SignatureHash scriptCode txTo nIn nHashType in
           pubkey_Verify vchPubKey sighash vchSig
       end.

Definition TransactionCheckLockTime (txTo : CTransaction) (nIn : nat) (nLock : Z) : bool :=
  if negb (((nLockTime txTo <? LOCKTIME_THRESHOLD) && (nLock <? LOCKTIME_THRESHOLD)) ||
           ((nLockTime txTo >=? LOCKTIME_THRESHOLD) && (nLock >=? LOCKTIME_THRESHOLD))) then false
  else if nLock >? nLockTime txTo then false
  else if SEQUENCE_FINAL =? nSequence (nth nIn (vin txTo) null_in) then false
  else true.

Definition TransactionCheckSequence (txTo : CTransaction) (nIn : nat) (nSeq : Z) : bool :=
  let txToSequence := nSequence (nth nIn (vin txTo) null_in) in
  if u32 (nVersion txTo) <? 2 then false
  else if negb (Z.land txToSequence SEQUENCE_LOCKTIME_DISABLE_FLAG =? 0) then false
  else
    let nLockTimeMask := Z.lor SEQUENCE_LOCKTIME_TYPE_FLAG SEQUENCE_LOCKTIME_MASK in
    let txToSequenceMasked := Z.land txToSequence nLockTimeMask in
    let nSequenceMasked := Z.land nSeq nLockTimeMask in
    if negb (((txToSequenceMasked <? SEQUENCE_LOCKTIME_TYPE_FLAG) && (nSequenceMasked <? SEQUENCE_LOCKTIME_TYPE_FLAG)) ||
             ((txToSequenceMasked >=? SEQUENCE_LOCKTIME_TYPE_FLAG) && (nSequenceMasked >=? SEQUENCE_LOCKTIME_TYPE_FLAG)))
    then false
    else if nSequenceMasked >? txToSequenceMasked then false
    else true.

(** [TransactionSignatureChecker]. *)
Definition TransactionSignatureChecker `{!Crypto} `{!ECDSA} (txTo : CTransaction) (nIn : nat) : BaseSignatureChecker := {|
  CheckSig := TransactionCheckSig txTo nIn;
  CheckLockTime := TransactionCheckLockTime txTo nIn;
  CheckSequence := TransactionCheckSequence txTo nIn
|}.

(** ** The reference definition

    The function [SignatureHashOld] that test/sighash_tests.cpp keeps as the
    reference: copy the transaction, blank what is not signed, serialize. *)

Definition blank_inputs (code : CScript) (nIn : nat) (single_or_none : bool) (ins : list CTxIn) : list CTxIn :=
  imap (fun i x =>
    mkCTxIn (prevout x) (if decide (i = nIn) then code else [])
      (if single_or_none && negb (i =? nIn)%nat then 0 else nSequence x)) ins.

Definition blank_outputs (nIn : nat) (nHashType : Z) (outs : list CTxOut) : list CTxOut :=
  if Z.land nHashType 0x1f =? SIGHASH_NONE then []
  else if Z.land nHashType 0x1f =? SIGHASH_SINGLE then
    imap (fun i o => if (i <? nIn)%nat then CTxOut_SetNull else o) (take (S nIn) outs)
  else outs.

Definition SignatureHashOld_tx (scriptCode : CScript) (txTo : CTransaction) (nIn : nat) (nHashType : Z) : CTransaction :=
  let code := (FindAndDelete scriptCode [OP_CODESEPARATOR]).1 in
  let single_or_none := (Z.land nHashType 0x1f =? SIGHASH_NONE) || (Z.land nHashType 0x1f =? SIGHASH_SINGLE) in
  let ins := blank_inputs code nIn single_or_none (vin txTo) in
  mkCTransaction (nVersion txTo)
    (if negb (Z.land nHashType SIGHASH_ANYONECANPAY =? 0) then [nth nIn ins null_in] else ins)
    (blank_outputs nIn nHashType (vout txTo)) (nLockTime txTo).

Definition SignatureHashOld `{!Crypto} (scriptCode : CScript) (txTo : CTransaction) (nIn : nat) (nHashType : Z) : uint256 :=
  if (length (vin txTo) <=? nIn)%nat then uint256_one
  else if (Z.land nHashType 0x1f =? SIGHASH_SINGLE) && (length (vout txTo) <=? nIn)%nat then uint256_one
  else CHash256 (Ser c_transaction (SignatureHashOld_tx scriptCode txTo nIn nHashType) ++ ser_writedata32 nHashType).

(** * Theorems *)

(** ** The script code without code separators *)

Definition sep : list Z := [OP_CODESEPARATOR].

Lemma sep_op : next_op sep = Some (OP_CODESEPARATOR, [], []).
Proof. reflexivity. Qed.

(** The instruction with opcode OP_CODESEPARATOR is the single byte. *)
Lemma separator_chunk c r o d : next_op (c ++ r) = Some (o, d, r) ->
  o = OP_CODESEPARATOR <-> c = sep.
Proof.
  intros H. destruct (next_op_head _ _ _ _ H) as [s' Es]. split.
  - intros ->. rewrite Es in H. change (next_op (OP_CODESEPARATOR :: s')) with (Some (OP_CODESEPARATOR, @nil Z, s')) in H.
    simplify_eq. change (OP_CODESEPARATOR :: r) with (sep ++ r) in Es. by apply app_inv_tail in Es.
  - intros ->. unfold sep in Es. cbn [app] in Es. congruence.
Qed.

Section Pieces.
Context (scriptCode : CScript).

Lemma chunked_step it cs : (it <= length scriptCode)%nat -> chunked (drop it scriptCode) cs [] ->
  match cs with
  | [] => it = length scriptCode /\ GetOp2 scriptCode it = OpRead false it OP_INVALIDOPCODE []
  | c :: cs => exists it' o d, GetOp2 scriptCode it = OpRead true it' o d /\ (it < it' <= length scriptCode)%nat /\
      drop it scriptCode = c ++ drop it' scriptCode /\ length c = (it' - it)%nat /\
      (o = OP_CODESEPARATOR <-> c = sep) /\ chunked (drop it' scriptCode) cs []
  end.
Proof.
  intros Hit H. inversion H as [s E Es0 Es1 Es|c r o d cs' t E Hr Es]; subst.
  - assert (it = length scriptCode).
    { apply (f_equal length) in Es. rewrite length_drop in Es. cbn in Es. lia. }
    split; [done|]. subst it. unfold GetOp2. by rewrite Nat.leb_refl, Es.
  - pose proof (GetOp2_spec scriptCode it Hit) as Hg. rewrite <- Es, E in Hg.
    destruct Hg as (it' & Eg & Hit' & ->). exists it', o, d. split; [done|]. split; [done|]. split; [done|].
    split; [|split; [by eapply separator_chunk|done]].
    apply (f_equal length) in Es. rewrite length_app, !length_drop in Es. lia.
Qed.

Lemma count_separators_spec fuel : forall it k cs,
  (it <= length scriptCode)%nat -> (length scriptCode - it < fuel)%nat -> chunked (drop it scriptCode) cs [] ->
  count_separators scriptCode fuel it k = k + Z.of_nat (count_b sep cs).
Proof.
  induction fuel as [|fuel IH]; intros it k cs Hit Hf Hc; [lia|]. cbn [count_separators].
  apply chunked_step in Hc; [|done]. destruct cs as [|c cs].
  - destruct Hc as [_ ->]. cbn. lia.
  - destruct Hc as (it' & o & d & -> & Hit' & _ & _ & Ho & Hc). cbn [op_ok op_pc op_code].
    rewrite (IH _ _ cs) by (done || lia). unfold count_b. destruct (Z.eqb_spec o OP_CODESEPARATOR) as [Eo|Eo].
    + rewrite filter_cons_True by (by apply Ho). cbn [length]. lia.
    + rewrite filter_cons_False by tauto. done.
Qed.

Lemma write_pieces_spec fuel : forall it itBegin out cs,
  (itBegin <= it <= length scriptCode)%nat -> (length scriptCode - it < fuel)%nat -> chunked (drop it scriptCode) cs [] ->
  exists out' itBegin', write_pieces scriptCode fuel it itBegin out = (out', length scriptCode, itBegin') /\
    (itBegin' <= length scriptCode)%nat /\
    out' ++ drop itBegin' scriptCode =
      out ++ take (it - itBegin) (drop itBegin scriptCode) ++ concat (others sep cs).
Proof.
  induction fuel as [|fuel IH]; intros it itBegin out cs Hit Hf Hc; [lia|]. cbn [write_pieces].
  apply chunked_step in Hc; [|lia]. destruct cs as [|c cs].
  - destruct Hc as [-> ->]. cbn [op_ok op_pc]. exists out, itBegin. split; [done|]. split; [lia|].
    cbn. rewrite app_nil_r. by rewrite <- length_drop, firstn_all.
  - destruct Hc as (it' & o & d & -> & Hit' & Ed & Hl & Ho & Hc). cbn [op_ok op_pc op_code].
    assert (Etake : take (it' - itBegin) (drop itBegin scriptCode) = take (it - itBegin) (drop itBegin scriptCode) ++ c).
    { replace (it' - itBegin)%nat with ((it - itBegin) + length c)%nat by lia.
      rewrite <- take_take_drop, drop_drop. replace (itBegin + (it - itBegin))%nat with it by lia.
      by rewrite Ed, take_app_length. }
    unfold others. destruct (Z.eqb_spec o OP_CODESEPARATOR) as [Eo|Eo].
    + rewrite filter_cons_False by (intros Hne; by apply Hne, Ho).
      destruct (IH it' it' (out ++ take (it' - itBegin - 1) (drop itBegin scriptCode)) cs) as (o' & b' & -> & Hb & E);
        [lia|lia|done|].
      exists o', b'. split; [done|]. split; [done|]. rewrite E, Nat.sub_diag. cbn [take app]. rewrite <- app_assoc.
      f_equal. assert (Hcl : length c = 1%nat) by (apply Ho in Eo as ->; done).
      replace (it' - itBegin - 1)%nat with (it - itBegin)%nat by lia. done.
    + rewrite filter_cons_True by (intros ->; by apply Eo, Ho).
      destruct (IH it' itBegin out cs) as (o' & b' & -> & Hb & E); [lia|lia|done|].
      exists o', b'. split; [done|]. split; [done|]. rewrite E, Etake. cbn [concat]. by rewrite <- !app_assoc.
Qed.

Lemma SerializeScriptCode_spec cs : chunked scriptCode cs [] ->
  SerializeScriptCode scriptCode = Ser c_bytes (FindAndDelete scriptCode sep).1.
Proof.
  intros Hc. unfold SerializeScriptCode.
  rewrite (count_separators_spec _ 0 0 cs) by (rewrite ?drop_0; done || lia).
  destruct (write_pieces_spec (S (length scriptCode)) 0 0 [] cs) as (out & b & -> & Hb & E);
    [lia|lia|by rewrite drop_0|].
  rewrite (FindAndDelete_result _ _ _ _ _ _ sep_op Hc), app_nil_r. cbn [fst c_bytes Ser].
  cbn [app] in E. rewrite take_0, app_nil_l in E. rewrite <- E. f_equal.
  - f_equal. pose proof (concat_others_length sep cs) as Hlen. rewrite <- E in Hlen.
    pose proof (f_equal length (chunked_concat _ _ _ Hc)) as Hlc. rewrite app_nil_r in Hlc.
    unfold zlen. change (length sep) with 1%nat in Hlen. lia.
  - f_equal. destruct (Nat.eqb_spec b (length scriptCode)) as [->|]; [by rewrite drop_all|].
    by rewrite <- length_drop, firstn_all.
Qed.

End Pieces.

(** ** The serializer equals the reference *)

Lemma lookup_map {A B} (g : A -> B) l i : map g l !! i = g <$> l !! i.
Proof. revert i. induction l as [|x l IH]; intros [|i]; cbn; auto. Qed.

Lemma imap_seq {A B} (f : nat -> A -> B) (d : A) l :
  imap f l = map (fun k => f k (nth k l d)) (seq 0 (length l)).
Proof.
  apply list_eq. intros i. rewrite list_lookup_imap, lookup_map.
  destruct (l !! i) as [x|] eqn:E.
  - rewrite lookup_seq_lt by (by eapply lookup_lt_Some). cbn. f_equal. f_equal.
    symmetry. by apply nth_lookup_Some.
  - rewrite lookup_seq_ge by (by apply lookup_ge_None). done.
Qed.

Lemma Ser_txin i : Ser c_txin i = Ser c_outpoint (prevout i) ++ Ser c_bytes (scriptSig i) ++ ser_writedata32 (nSequence i).
Proof. reflexivity. Qed.

Lemma Ser_transaction t : Ser c_transaction t =
  ser_writedata32 (nVersion t) ++
  WriteCompactSize (Z.of_nat (length (vin t))) ++ concat (map (Ser c_txin) (vin t)) ++
  WriteCompactSize (Z.of_nat (length (vout t))) ++ concat (map (Ser c_txout) (vout t)) ++
  ser_writedata32 (nLockTime t).
Proof.
  cbn [c_transaction c_iso c_pair c_vector c_int32 c_uint32 Ser fst snd]. rewrite <- !app_assoc. done.
Qed.

Section Equivalence.
Context (txTo : CTransaction) (scriptCode : CScript) (nIn : nat) (nHashType : Z) (cs : list (list Z)).
Context (Hc : chunked scriptCode cs []) (Hin : (nIn < length (vin txTo))%nat).
Context (Hout : fHashSingle nHashType = true -> (nIn < length (vout txTo))%nat).

Let code := (FindAndDelete scriptCode sep).1.
Let f := fun (i : nat) (x : CTxIn) =>
  mkCTxIn (prevout x) (if decide (i = nIn) then code else [])
    (if ((fHashNone nHashType || fHashSingle nHashType) && negb (i =? nIn)%nat)%bool then 0 else nSequence x).

Lemma SerializeInput_plain k : fAnyoneCanPay nHashType = false ->
  SerializeInput txTo scriptCode nIn nHashType k = Ser c_txin (f k (nth k (vin txTo) null_in)).
Proof using Hc.
  intros Ea. unfold SerializeInput. rewrite Ea, Ser_txin. cbn [f prevout scriptSig nSequence].
  destruct (Nat.eqb_spec k nIn) as [->|Hne]; cbn [negb].
  - rewrite decide_True by done. rewrite (SerializeScriptCode_spec scriptCode cs Hc).
    rewrite andb_false_r. cbn [andb]. done.
  - rewrite decide_False by done. rewrite andb_true_r. cbn [andb].
    rewrite (orb_comm (fHashSingle nHashType)). by destruct (fHashNone nHashType || fHashSingle nHashType).
Qed.

Lemma SerializeInput_acp k : fAnyoneCanPay nHashType = true ->
  SerializeInput txTo scriptCode nIn nHashType k = Ser c_txin (f nIn (nth nIn (vin txTo) null_in)).
Proof using Hc.
  intros Ea. unfold SerializeInput. rewrite Ea, Ser_txin. cbn [f prevout scriptSig nSequence].
  rewrite Nat.eqb_refl. cbn [negb]. rewrite decide_True by done.
  rewrite (SerializeScriptCode_spec scriptCode cs Hc), andb_false_r. cbn [andb]. done.
Qed.

Lemma blank_inputs_f : blank_inputs code nIn (fHashNone nHashType || fHashSingle nHashType) (vin txTo) =
  map (fun k => f k (nth k (vin txTo) null_in)) (seq 0 (length (vin txTo))).
Proof. unfold blank_inputs. by rewrite (imap_seq _ null_in). Qed.

Lemma SerializeOutput_none k : fHashSingle nHashType = false ->
  SerializeOutput txTo nIn nHashType k = Ser c_txout (nth k (vout txTo) CTxOut_SetNull).
Proof. intros E. unfold SerializeOutput. by rewrite E. Qed.

Lemma map_nth_seq {A} (l : list A) d : map (fun k => nth k l d) (seq 0 (length l)) = l.
Proof. rewrite <- (imap_seq (fun _ x => x) d l). apply list_eq. intros i. rewrite list_lookup_imap. by destruct (l !! i). Qed.

Lemma outputs_equal :
  let outs := blank_outputs nIn nHashType (vout txTo) in
  let m := (if fHashNone nHashType then 0%nat else if fHashSingle nHashType then S nIn else length (vout txTo)) in
  m = length outs /\ map (SerializeOutput txTo nIn nHashType) (seq 0 m) = map (Ser c_txout) outs.
Proof using Hin Hout code.
  unfold blank_outputs. fold (fHashNone nHashType) (fHashSingle nHashType).
  destruct (fHashNone nHashType); [done|]. destruct (fHashSingle nHashType) eqn:Es; cbn zeta.
  - specialize (Hout eq_refl). split; [rewrite length_imap, length_take; lia|].
    rewrite (imap_seq _ CTxOut_SetNull), length_take, Nat.min_l, map_map by lia.
    apply map_ext_in. intros k [_ Hk]%in_seq. unfold SerializeOutput. rewrite Es. cbn [andb].
    assert (En : nth k (take (S nIn) (vout txTo)) CTxOut_SetNull = nth k (vout txTo) CTxOut_SetNull).
    { rewrite !nth_lookup, lookup_take_lt by lia. done. }
    rewrite En. destruct (Nat.eqb_spec k nIn) as [->|]; cbn [negb].
    + by rewrite (proj2 (Nat.ltb_ge _ _)) by lia.
    + by rewrite (proj2 (Nat.ltb_lt _ _)) by lia.
  - split; [done|]. rewrite <- (map_nth_seq (vout txTo) CTxOut_SetNull) at 2. rewrite map_map.
    apply map_ext. intros k. by apply SerializeOutput_none.
Qed.

Lemma SerializeForSignature_old :
  SerializeForSignature txTo scriptCode nIn nHashType =
  Ser c_transaction (SignatureHashOld_tx scriptCode txTo nIn nHashType).
Proof using Hc Hin Hout.
  rewrite Ser_transaction. unfold SerializeForSignature, SignatureHashOld_tx. cbn [nVersion vin vout nLockTime].
  destruct outputs_equal as [El Eo]. rewrite <- Eo, El.
  fold (fHashNone nHashType) (fHashSingle nHashType) (fAnyoneCanPay nHashType). fold sep code.
  rewrite blank_inputs_f. destruct (fAnyoneCanPay nHashType) eqn:Ea.
  - cbn [seq map concat length]. rewrite SerializeInput_acp by done. do 4 f_equal.
    f_equal. f_equal. rewrite (nth_lookup (map _ _)), lookup_map, lookup_seq_lt by done. done.
  - rewrite length_map, length_seq, map_map.
    do 3 f_equal. f_equal. apply map_ext. intros k. by apply SerializeInput_plain.
Qed.

End Equivalence.

(** C38: the signature hash equals its reference.  For every script code that
    reads as whole instructions, [SignatureHash] (which serializes on the fly,
    skipping code separators and blanking what the hash type leaves out)
    equals [SignatureHashOld], which hashes a modified copy of the
    transaction: the same value for every hash type, input index and
    transaction, including the two out-of-range cases. *)
Theorem SignatureHash_refines_old `{!Crypto} scriptCode txTo nIn nHashType cs :
  chunked scriptCode cs [] ->
  SignatureHash scriptCode txTo nIn nHashType = SignatureHashOld scriptCode txTo nIn nHashType.
Proof.
  intros Hc. unfold SignatureHash, SignatureHashOld.
  destruct (Nat.leb_spec (length (vin txTo)) nIn); [done|].
  destruct ((Z.land nHashType 31 =? SIGHASH_SINGLE) && (length (vout txTo) <=? nIn)%nat) eqn:E; [done|].
  rewrite (SerializeForSignature_old _ _ _ _ cs); [done|done|lia|].
  intros Hs. unfold fHashSingle in Hs. rewrite Hs in E. cbn [andb] in E. by apply Nat.leb_gt in E.
Qed.

Lemma SignatureHash_refines_old_witness :
  @SignatureHash toy_crypto [OP_DUP; OP_CODESEPARATOR; OP_CHECKSIG] sample_tx 0 0x83 =
  @SignatureHashOld toy_crypto [OP_DUP; OP_CODESEPARATOR; OP_CHECKSIG] sample_tx 0 0x83.
Proof.
  apply (@SignatureHash_refines_old toy_crypto _ _ _ _ [[OP_DUP]; [OP_CODESEPARATOR]; [OP_CHECKSIG]]).
  apply (chunked_op [OP_DUP] _ OP_DUP []); [reflexivity|].
  apply (chunked_op [OP_CODESEPARATOR] _ OP_CODESEPARATOR []); [reflexivity|].
  apply (chunked_op [OP_CHECKSIG] [] OP_CHECKSIG []); [reflexivity|]. by apply chunked_stop.
Defined.

End SigHash.
