(* ===== verification/Standard.v ===== *)
(** * Standard scripts (script/standard.h, script/standard.cpp)

    The template matcher [Solver], destinations and the scripts that pay to
    them, and what executing a pay-to-pubkey-hash script checks. *)

From stdpp Require Import base list list_numbers numbers option.
From Stdlib Require Import ZArith Lia.
From S2P Require Import Prelude Serialize Script Transaction Interpreter InterpreterSafety SigHash.

Local Open Scope Z_scope.

Module Standard.
Import Script Transaction Interpreter InterpreterSafety SigHash.

Inductive txnouttype : Type :=
  | TX_NONSTANDARD | TX_PUBKEY | TX_PUBKEYHASH | TX_SCRIPTHASH | TX_MULTISIG | TX_NULL_DATA.

#[export] Instance txnouttype_eq_dec : EqDecision txnouttype.
Proof. solve_decision. Defined.

(** [CTxDestination]: a stealth address is kept opaque. *)
Inductive CTxDestination : Type :=
  | CNoDestination
  | CKeyID (h : list Z)
  | CScriptID (h : list Z)
  | CStealthAddress (raw : list Z).

Definition OP_SMALLINTEGER : Z := 0xfa.
Definition OP_PUBKEYS : Z := 0xfb.
Definition OP_PUBKEYHASH : Z := 0xfd.
Definition OP_PUBKEY : Z := 0xfe.

(** The templates, in the order of the multimap. *)
Definition mTemplates : list (txnouttype * CScript) :=
  [(TX_PUBKEY, [OP_PUBKEY; OP_CHECKSIG]);
   (TX_PUBKEYHASH, [OP_DUP; OP_HASH160; OP_PUBKEYHASH; OP_EQUALVERIFY; OP_CHECKSIG]);
   (TX_MULTISIG, [OP_SMALLINTEGER; OP_PUBKEYS; OP_SMALLINTEGER; OP_CHECKMULTISIG])].

(** ** The matcher *)

(** The loop that collects public keys: the solutions and the last read. *)
Fixpoint take_pubkeys (fuel : nat) (script1 : CScript) (r1 : opread) (sols : list valtype) : list valtype * opread :=
  match fuel with
  | O => (sols, r1)
  | S fuel =>
      if (zlen (op_data r1) >=? 33) && (zlen (op_data r1) <=? 65) then
        let sols := sols ++ [op_data r1] in
        let r := GetOp2 script1 (op_pc r1) in
        if negb (op_ok r) then (sols, r) else take_pubkeys fuel script1 r sols
      else (sols, r1)
  end.

(** One comparison against a template instruction; [None] is [break]. *)
Definition match_one (opcode2 : Z) (vch2 : valtype) (opcode1 : Z) (vch1 : valtype) (sols : list valtype)
  : option (list valtype) :=
  if opcode2 =? OP_PUBKEY then
    if (zlen vch1 <? 33) || (zlen vch1 >? 65) then None else Some (sols ++ [vch1])
  else if opcode2 =? OP_PUBKEYHASH then
    if negb (zlen vch1 =? 20) then None else Some (sols ++ [vch1])
  else if opcode2 =? OP_SMALLINTEGER then
    if (opcode1 =? OP_0) || ((opcode1 >=? OP_1) && (opcode1 <=? OP_16)) then
      n ← DecodeOP_N opcode1; Some (sols ++ [[n]])
    else None
  else if negb (opcode1 =? opcode2) || negb (bool_decide (vch1 = vch2)) then None
  else Some sols.

Fixpoint match_template (fuel : nat) (script1 script2 : CScript) (pc1 pc2 : nat) (sols : list valtype)
  : option (list valtype) :=
  if (pc1 =? length script1)%nat && (pc2 =? length script2)%nat then Some sols
  else match fuel with
  | O => None
  | S fuel =>
      let r1 := GetOp2 script1 pc1 in
      if negb (op_ok r1) then None
      else
        let r2 := GetOp2 script2 pc2 in
        if negb (op_ok r2) then None
        else
          let '(sols, r1, r2) :=
            (if op_code r2 =? OP_PUBKEYS then
               let '(sols, r1) := take_pubkeys (length script1) script1 r1 sols in
               (sols, r1, GetOp2 script2 (op_pc r2))
             else (sols, r1, r2)) in
          if negb (op_ok r2) then None
          else
            sols ← match_one (op_code r2) (op_data r2) (op_code r1) (op_data r1) sols;
            match_template fuel script1 script2 (op_pc r1) (op_pc r2) sols
  end.

(** The extra checks for a multisignature match. *)
Definition multisig_ok (sols : list valtype) : bool :=
  let m := nth 0 (nth 0 sols []) 0 in
  let n := nth 0 (List.last sols []) 0 in
  negb ((m <? 1) || (n <? 1) || (m >? n) || negb (zlen sols - 2 =? n)).

Fixpoint scan_templates (ts : list (txnouttype * CScript)) (script1 : CScript) : bool * txnouttype * list valtype :=
  match ts with
  | [] => (false, TX_NONSTANDARD, [])
  | (t, script2) :: ts =>
      match match_template (S (length script1)) script1 script2 0 0 [] with
      | Some sols =>
          if bool_decide (t = TX_MULTISIG) then (multisig_ok sols, t, sols) else (true, t, sols)
      | None => scan_templates ts script1
      end
  end.

(** [Solver]: its result, type and solutions. *)
Definition Solver (scriptPubKeyIn : CScript) : bool * txnouttype * list valtype :=
  let scriptPubKey := match RemoveBDAPScript scriptPubKeyIn with
                      | Some s => s
                      | None => scriptPubKeyIn
                      end in
  if IsPayToScriptHash scriptPubKey then (true, TX_SCRIPTHASH, [take 20 (drop 2 scriptPubKey)])
  else if (zlen scriptPubKey >=? 1) && (nth 0 scriptPubKey 0 =? OP_RETURN) &&
          IsPushOnly_loop (length scriptPubKey) scriptPubKey 1 then (true, TX_NULL_DATA, [])
  else scan_templates mTemplates scriptPubKey.

(** ** Destinations *)

Definition ExtractDestination `{!Crypto} (scriptPubKey : CScript) : option CTxDestination :=
  let '(ok, whichType, vSolutions) := Solver scriptPubKey in
  if negb ok then None
  else match whichType, vSolutions with
       | TX_PUBKEY, k :: _ =>
           match CPubKey_Set k with
           | Some pubKey => if CPubKey_IsValid (Some pubKey) then Some (CKeyID (CHash160 pubKey)) else None
           | None => None
           end
       | TX_PUBKEYHASH, h :: _ => Some (CKeyID h)
       | TX_SCRIPTHASH, h :: _ => Some (CScriptID h)
       | _, _ => None
       end.

(** [ExtractDestinations]: the type, the addresses and [nRequiredRet]. *)
Definition ExtractDestinations `{!Crypto} (scriptPubKey : CScript) : option (txnouttype * list CTxDestination * Z) :=
  let '(ok, typeRet, vSolutions) := Solver scriptPubKey in
  if negb ok then None
  else if bool_decide (typeRet = TX_NULL_DATA) then None
  else if bool_decide (typeRet = TX_MULTISIG) then
    let addressRet := omap (fun k => match CPubKey_Set k with
                                     | Some pubKey => Some (CKeyID (CHash160 pubKey))
                                     | None => None
                                     end) (take (length vSolutions - 2) (drop 1 vSolutions)) in
    match addressRet with
    | [] => None
    | _ => Some (typeRet, addressRet, nth 0 (nth 0 vSolutions []) 0)
    end
  else
    address ← ExtractDestination scriptPubKey;
    Some (typeRet, [address], 1).

(** [CScriptVisitor] and [GetScriptForDestination]. *)
Definition GetScriptForDestination (dest : CTxDestination) : CScript :=
  match dest with
  | CNoDestination => []
  | CKeyID keyID => push_bytes [OP_DUP; OP_HASH160] keyID ++ [OP_EQUALVERIFY; OP_CHECKSIG]
  | CScriptID scriptID => push_bytes [OP_HASH160] scriptID ++ [OP_EQUAL]
  | CStealthAddress _ => []
  end.

Definition GetScriptForRawPubKey (pubKey : valtype) : CScript := push_bytes [] pubKey ++ [OP_CHECKSIG].

Definition GetScriptForMultisig (nRequired : Z) (keys : list valtype) : option CScript :=
  m ← EncodeOP_N nRequired;
  n ← EncodeOP_N (zlen keys);
  Some ([m] ++ concat (map (push_bytes []) keys) ++ [n; OP_CHECKMULTISIG]).

Definition IsValidDestination (dest : CTxDestination) : bool :=
  match dest with
  | CNoDestination => false
  | _ => true
  end.

(** * Theorems *)

(** ** Destinations *)

Ltac bytes20 h := do 20 (destruct h as [|? h]; [done|]); destruct h; [|done].

Lemma GetScriptForDestination_head d : (exists h, length h = 20%nat /\ (d = CKeyID h \/ d = CScriptID h)) ->
  exists o rest, GetScriptForDestination d = o :: rest /\ OP_PUSHDATA4 < o /\ is_drop o = false /\ RemoveBDAPScript (o :: rest) = None.
Proof.
  intros (h & Hl & [-> | ->]); bytes20 h; eexists _, _; (split; [reflexivity|]); split; done.
Qed.

Lemma Solver_destination d s : (exists h, length h = 20%nat /\ (d = CKeyID h \/ d = CScriptID h)) ->
  (s = GetScriptForDestination d \/ RemoveBDAPScript s = Some (GetScriptForDestination d)) ->
  Solver s = (true, match d with CScriptID _ => TX_SCRIPTHASH | _ => TX_PUBKEYHASH end,
              [match d with CKeyID h => h | CScriptID h => h | _ => [] end]).
Proof.
  intros Hd Hs.
  assert (E : match RemoveBDAPScript s with Some s' => s' | None => s end = GetScriptForDestination d).
  { destruct Hs as [-> | ->]; [|done]. destruct (GetScriptForDestination_head d Hd) as (o & rest & -> & _ & _ & ->). done. }
  unfold Solver. rewrite E. destruct Hd as (h & Hl & [-> | ->]); bytes20 h; reflexivity.
Qed.

(** Addresses round-trip.  The script that pays to a key hash or a script
    hash is recognised by [Solver] as that type with that hash, and
    [ExtractDestination] returns the destination it was made for; the same
    holds when the script is preceded by a BDAP part. *)
Theorem destination_roundtrip `{!Crypto} d op1 op2 vs drops :
  (exists h, length h = 20%nat /\ (d = CKeyID h \/ d = CScriptID h)) -> bdap_part_ok op1 op2 vs drops ->
  ExtractDestination (GetScriptForDestination d) = Some d /\
  ExtractDestination (bdap_part op1 op2 vs drops ++ GetScriptForDestination d) = Some d.
Proof.
  intros Hd Hok. unfold ExtractDestination.
  rewrite (Solver_destination d) by auto.
  rewrite (Solver_destination d (bdap_part op1 op2 vs drops ++ GetScriptForDestination d)); [|done|].
  - destruct Hd as (h & _ & [-> | ->]); done.
  - right. destruct (GetScriptForDestination_head d Hd) as (o & rest & -> & Ho & Hdr & _).
    rewrite (RemoveBDAPScript_spec _ _ _ _ (o :: rest) o [] rest); [|done| |done].
    + cbn [length]. replace (S (length rest) - length rest - 1)%nat with 0%nat by lia. done.
    + unfold next_op. by rewrite (proj2 (Z.leb_gt _ _)) by done.
Qed.

Lemma destination_roundtrip_witness :
  @ExtractDestination toy_crypto (bdap_part 1 6 [[65; 66]] [OP_2DROP] ++ GetScriptForDestination (CKeyID (repeat 7 20))) =
  Some (CKeyID (repeat 7 20)).
Proof.
  refine (proj2 (@destination_roundtrip toy_crypto (CKeyID (repeat 7 20)) 1 6 [[65; 66]] [OP_2DROP] _ _)).
  - exists (repeat 7 20). split; [reflexivity|by left].
  - split; [lia|]. split; [lia|]. split; [by repeat constructor|]. split; [done|by repeat constructor].
Defined.

(** ** Multisignature scripts *)

Definition key_size_ok (k : valtype) : Prop := 33 <= zlen k <= 65.

Lemma take_pubkeys_spec keys : forall fuel pre k n t sols,
  (length keys < fuel)%nat -> key_size_ok k -> Forall key_size_ok keys -> 1 <= n <= 16 ->
  take_pubkeys fuel (pre ++ concat (map (push_bytes []) keys) ++ OP_1 + n - 1 :: t)
    (OpRead true (length pre) (push_code k) k) sols =
  (sols ++ k :: keys,
   OpRead true (length pre + length (concat (map (push_bytes []) keys)) + 1) (OP_1 + n - 1) []).
Proof.
  induction keys as [|k' keys IH]; intros fuel pre k n t sols Hf Hk Hks Hn; destruct fuel as [|fuel]; try (cbn in Hf; lia);
    cbn [take_pubkeys map concat app op_data op_pc].
  - unfold key_size_ok in Hk. rewrite (proj2 (Z.geb_le _ _)), (proj2 (Z.leb_le _ _)) by lia. cbn [andb].
    rewrite (GetOp2_at pre _ _ _ _ (small_int_op n t Hn)). cbn [op_ok negb length].
    replace (length pre + (S (length t) - length t))%nat with (length pre + 0 + 1)%nat by lia.
    destruct fuel; done.
  - inversion Hks as [|?? Hk' Hks']; subst. unfold key_size_ok in Hk.
    rewrite (proj2 (Z.geb_le _ _)), (proj2 (Z.leb_le _ _)) by lia. cbn [andb]. rewrite <- app_assoc.
    rewrite (GetOp2_at pre _ _ _ _ (next_op_push k' _ ltac:(unfold key_size_ok in Hk'; lia))).
    cbn [op_ok negb]. rewrite app_assoc. rewrite length_app.
    replace (length pre + (length (push_bytes [] k') + length (concat (map (push_bytes []) keys) ++ (OP_1 + n - 1)%Z :: t) -
      length (concat (map (push_bytes []) keys) ++ (OP_1 + n - 1)%Z :: t)))%nat with (length (pre ++ push_bytes [] k'))
      by (rewrite length_app; lia).
    rewrite (IH fuel _ k' n t) by (done || cbn in Hf; lia). rewrite <- app_assoc, !length_app. cbn [app].
    f_equal. f_equal. lia.
Qed.

Lemma match_template_step fuel script1 script2 pc1 pc2 sols o1 d1 p1 o2 d2 p2 :
  (pc1 < length script1)%nat -> GetOp2 script1 pc1 = OpRead true p1 o1 d1 ->
  GetOp2 script2 pc2 = OpRead true p2 o2 d2 -> o2 <> OP_PUBKEYS ->
  match_template (S fuel) script1 script2 pc1 pc2 sols =
  sols ← match_one o2 d2 o1 d1 sols; match_template fuel script1 script2 p1 p2 sols.
Proof.
  intros Hpc E1 E2 Hne. cbn [match_template]. rewrite (proj2 (Nat.eqb_neq pc1 _)) by lia. cbn [andb].
  rewrite E1, E2. cbn [op_ok op_code op_data op_pc negb]. rewrite (proj2 (Z.eqb_neq o2 _)) by done. done.
Qed.

Lemma length_push_bytes_ge b : (length b + 1 <= length (push_bytes [] b))%nat.
Proof. unfold push_bytes. rewrite length_app. repeat case_match; cbn [app length]; lia. Qed.

Lemma multisig_length m n k keys : key_size_ok k ->
  23 < zlen (OP_1 + m - 1 :: push_bytes [] k ++ concat (map (push_bytes []) keys) ++ [OP_1 + n - 1; OP_CHECKMULTISIG]).
Proof.
  unfold key_size_ok, zlen. intros Hk. cbn [length]. rewrite !length_app.
  pose proof (length_push_bytes_ge k). lia.
Qed.

Section Multisig.
Context (m : Z) (keys : list valtype).
Context (Hm : 1 <= m <= zlen keys) (Hn : zlen keys <= 16) (Hk : Forall key_size_ok keys).

Let script1 := [OP_1 + m - 1] ++ concat (map (push_bytes []) keys) ++ [OP_1 + zlen keys - 1; OP_CHECKMULTISIG].
Let n := zlen keys.

Lemma keys_nonempty : exists k ks, keys = k :: ks.
Proof using Hm Hn Hk. destruct keys as [|k ks]; [unfold zlen in Hm; cbn in Hm; lia|eauto]. Qed.

Lemma multisig_first_op : GetOp2 script1 0 = OpRead true 1 (OP_1 + m - 1) [].
Proof using Hm Hn.
  pose proof (GetOp2_at [] script1 _ _ _ (small_int_op m (concat (map (push_bytes []) keys) ++ [OP_1 + zlen keys - 1; OP_CHECKMULTISIG]) ltac:(lia))) as E.
  cbn [app length Nat.add] in E. rewrite E. f_equal.
  unfold script1. cbn [app length]. lia.
Qed.

Lemma match_multisig :
  match_template (S (length script1)) script1 [OP_SMALLINTEGER; OP_PUBKEYS; OP_SMALLINTEGER; OP_CHECKMULTISIG] 0 0 [] =
  Some ([m] :: keys ++ [[n]]).
Proof using Hm Hn Hk.
  assert (Hlen : (3 <= length script1)%nat) by (unfold script1; rewrite !length_app; cbn; lia).
  rewrite (match_template_step _ _ _ 0 0 [] (OP_1 + m - 1) [] 1 OP_SMALLINTEGER [] 1);
    [|lia|apply multisig_first_op|done|done].
  unfold match_one. change (OP_SMALLINTEGER =? OP_PUBKEY) with false.
  change (OP_SMALLINTEGER =? OP_PUBKEYHASH) with false. change (OP_SMALLINTEGER =? OP_SMALLINTEGER) with true. cbn iota.
  assert (Hsm : forall x, 1 <= x <= 16 -> (OP_1 + x - 1 =? OP_0) || ((OP_1 + x - 1 >=? OP_1) && (OP_1 + x - 1 <=? OP_16)) = true).
  { intros x Hx. unfold OP_0, OP_1, OP_16. rewrite (proj2 (Z.eqb_neq _ _)), (proj2 (Z.geb_le _ _)), (proj2 (Z.leb_le _ _)) by lia. done. }
  rewrite Hsm, DecodeOP_N_small by lia. cbn [mbind option_bind app].
  destruct keys_nonempty as (k & ks & Eks).
  assert (Hks : key_size_ok k /\ Forall key_size_ok ks) by (apply Forall_cons_iff; by rewrite <- Eks).
  destruct Hks as [Hk1 Hks].
  set (P := concat (map (push_bytes []) ks)).
  assert (Es : script1 = ([OP_1 + m - 1] ++ push_bytes [] k) ++ P ++ OP_1 + n - 1 :: [OP_CHECKMULTISIG]).
  { unfold script1, P. rewrite Eks at 1. cbn [map concat]. by rewrite <- !app_assoc. }
  assert (E1 : GetOp2 script1 1 = OpRead true (length ([OP_1 + m - 1] ++ push_bytes [] k)) (push_code k) k).
  { rewrite Es. rewrite <- app_assoc.
    pose proof (GetOp2_at [OP_1 + m - 1] _ _ _ _ (next_op_push k (P ++ OP_1 + n - 1 :: [OP_CHECKMULTISIG]) ltac:(unfold key_size_ok in Hk1; lia))) as E.
    cbn [length] in E. rewrite E. f_equal. rewrite !length_app. cbn [length]. lia. }
  pose proof (length_push_bytes_pos k) as Hkp. rewrite <- Nat.add_1_r in Hlen.
  destruct (length script1) as [|f1] eqn:El1; [lia|].
  cbn [match_template]. rewrite El1. rewrite (proj2 (Nat.eqb_neq 1 _)) by lia. cbn [andb]. rewrite E1.
  change (GetOp2 [OP_SMALLINTEGER; OP_PUBKEYS; OP_SMALLINTEGER; OP_CHECKMULTISIG] 1) with (OpRead true 2 OP_PUBKEYS []).
  cbn [op_ok op_code op_pc op_data negb]. change (OP_PUBKEYS =? OP_PUBKEYS) with true. cbn iota.
  rewrite Es at 1. pose proof (length_concat_push ks) as HlP. fold P in HlP.
  assert (Hl1 : length script1 = (1 + length (push_bytes [] k) + length P + 2)%nat)
    by (rewrite Es, !length_app; cbn [length]; lia).
  rewrite (take_pubkeys_spec ks (S f1) _ k n [OP_CHECKMULTISIG] [[m]]) by (done || unfold n; lia).
  change (GetOp2 [OP_SMALLINTEGER; OP_PUBKEYS; OP_SMALLINTEGER; OP_CHECKMULTISIG] 2) with (OpRead true 3 OP_SMALLINTEGER []).
  cbn [op_ok op_code op_pc op_data negb]. unfold match_one. change (OP_SMALLINTEGER =? OP_PUBKEY) with false.
  change (OP_SMALLINTEGER =? OP_PUBKEYHASH) with false. change (OP_SMALLINTEGER =? OP_SMALLINTEGER) with true. cbn iota.
  rewrite Hsm, DecodeOP_N_small by (unfold n; lia). cbn [mbind option_bind].
  set (p1 := (length ([(OP_1 + m - 1)%Z] ++ push_bytes [] k) + length P + 1)%nat).
  assert (Hp1 : p1 = (length script1 - 1)%nat) by (unfold p1; rewrite length_app; cbn [length]; lia).
  destruct f1 as [|f2]; [lia|].
  assert (E2 : GetOp2 script1 p1 = OpRead true (length script1) OP_CHECKMULTISIG []).
  { assert (Es2 : script1 = (([OP_1 + m - 1] ++ push_bytes [] k) ++ P ++ [OP_1 + n - 1]) ++ [OP_CHECKMULTISIG]).
    { rewrite Es. by rewrite <- !app_assoc. }
    assert (Hpl : p1 = length (([OP_1 + m - 1] ++ push_bytes [] k) ++ P ++ [OP_1 + n - 1])).
    { unfold p1. rewrite !length_app. cbn [length]. lia. }
    rewrite Es2, Hpl. rewrite (GetOp2_at _ [OP_CHECKMULTISIG] OP_CHECKMULTISIG [] [] eq_refl).
    f_equal. rewrite !length_app. cbn [length]. lia. }
  rewrite (match_template_step _ _ _ p1 3 _ OP_CHECKMULTISIG [] (length script1) OP_CHECKMULTISIG [] 4);
    [|lia|done|done|done].
  change (match_one OP_CHECKMULTISIG [] OP_CHECKMULTISIG [] ([[m]] ++ k :: ks ++ [[n]])) with (Some ([[m]] ++ k :: ks ++ [[n]])).
  assert (Em : match_one OP_CHECKMULTISIG [] OP_CHECKMULTISIG [] (([[m]] ++ k :: ks) ++ [[n]]) = Some (([[m]] ++ k :: ks) ++ [[n]])) by done.
  rewrite Em. cbn [mbind option_bind].
  destruct f2 as [|f3]; cbn [match_template]; rewrite Nat.eqb_refl; cbn [length Nat.eqb andb]; rewrite Eks; cbn [app]; done.
Qed.

Lemma Solver_multisig : Solver script1 = (true, TX_MULTISIG, [m] :: keys ++ [[n]]).
Proof using Hm Hn Hk.
  assert (Hd : RemoveBDAPScript script1 = None).
  { unfold RemoveBDAPScript, DecodeBDAPScript. rewrite multisig_first_op. cbn [op_ok op_code op_pc negb].
    assert (Hr : (OP_1 + m - 1 <? OP_1) || (OP_1 + m - 1 >? OP_16) = false).
    { unfold OP_1, OP_16. rewrite Z.gtb_ltb, !(proj2 (Z.ltb_ge _ _)) by lia. done. }
    rewrite Hr, DecodeOP_N_small by lia. cbn [mbind option_bind].
    match goal with |- (if ?c then _ else _) ≫= _ = _ => destruct c; [done|] end.
    destruct keys_nonempty as (k & ks & Eks).
    assert (Hk1 : key_size_ok k) by (assert (Hk' : Forall key_size_ok (k :: ks)) by (by rewrite <- Eks);
      by apply Forall_cons_iff in Hk' as [? _]).
    pose proof (GetOp2_at [OP_1 + m - 1] _ _ _ _ (next_op_push k (concat (map (push_bytes []) ks) ++ [OP_1 + zlen keys - 1; OP_CHECKMULTISIG])
      ltac:(unfold key_size_ok in Hk1; lia))) as E.
    cbn [length] in E.
    assert (Es : script1 = [OP_1 + m - 1] ++ push_bytes [] k ++ concat (map (push_bytes []) ks) ++ [OP_1 + zlen keys - 1; OP_CHECKMULTISIG]).
    { unfold script1. rewrite Eks at 1. cbn [map concat]. by rewrite <- !app_assoc. }
    rewrite <- Es in E. rewrite E. cbn [op_ok op_code op_pc negb]. pose proof (push_code_range k) as Hc.
    assert (Hlt : (push_code k <? OP_1) = true) by (apply Z.ltb_lt; unfold OP_PUSHDATA4, OP_1 in *; lia).
    by rewrite Hlt. }
  unfold Solver. rewrite Hd.
  destruct keys_nonempty as (k & ks & Eks).
  assert (Hbig : 23 < zlen script1).
  { unfold script1. rewrite Eks at 1. cbn [map concat app]. rewrite <- (app_assoc (push_bytes [] k)).
    apply multisig_length. assert (Hk' : Forall key_size_ok (k :: ks)) by (by rewrite <- Eks).
    by apply Forall_cons_iff in Hk' as [? _]. }
  unfold IsPayToScriptHash. rewrite (proj2 (Z.eqb_neq _ 23)) by lia. cbn [andb].
  assert (Hh : nth 0 script1 0 = OP_1 + m - 1) by done.
  rewrite Hh, (proj2 (Z.eqb_neq (OP_1 + m - 1) OP_RETURN)) by (unfold OP_1, OP_RETURN; lia).
  rewrite andb_false_r. cbn [andb].
  unfold mTemplates, scan_templates.
  rewrite (match_template_step _ script1 [OP_PUBKEY; OP_CHECKSIG] 0 0 [] (OP_1 + m - 1) [] 1 OP_PUBKEY [] 1);
    [|unfold zlen in Hbig; lia|apply multisig_first_op|done|done].
  change (match_one OP_PUBKEY [] (OP_1 + m - 1) [] []) with (@None (list valtype)). cbn [mbind option_bind].
  rewrite (match_template_step _ script1 [OP_DUP; OP_HASH160; OP_PUBKEYHASH; OP_EQUALVERIFY; OP_CHECKSIG] 0 0 [] (OP_1 + m - 1) [] 1 OP_DUP [] 1);
    [|unfold zlen in Hbig; lia|apply multisig_first_op|done|done].
  assert (Em : match_one OP_DUP [] (OP_1 + m - 1) [] [] = None).
  { unfold match_one. change (OP_DUP =? OP_PUBKEY) with false. change (OP_DUP =? OP_PUBKEYHASH) with false.
    change (OP_DUP =? OP_SMALLINTEGER) with false. cbn iota.
    rewrite (proj2 (Z.eqb_neq (OP_1 + m - 1) OP_DUP)) by (unfold OP_1, OP_DUP; lia). done. }
  rewrite Em. cbn [mbind option_bind]. rewrite match_multisig. rewrite bool_decide_eq_true_2 by done.
  f_equal. f_equal. unfold multisig_ok. cbn [nth].
  assert (Hlast : List.last ([m] :: keys ++ [[n]]) [] = [n]).
  { change ([m] :: keys ++ [[n]]) with (([m] :: keys) ++ [[n]]). apply last_last. }
  rewrite Hlast. cbn [nth]. rewrite zlen_cons, zlen_snoc. unfold n.
  rewrite (proj2 (Z.ltb_ge m 1)), (proj2 (Z.ltb_ge (zlen keys) 1)), (Z.gtb_ltb m), (proj2 (Z.ltb_ge (zlen keys) m)) by lia.
  rewrite (proj2 (Z.eqb_eq _ _)) by lia. done.
Qed.

End Multisig.

(** Multisignature scripts.  [Solver] recognises the script that
    [GetScriptForMultisig] makes for [m] of [keys] (1 <= m <= n <= 16, keys of
    33 to 65 bytes) and returns exactly [m], the keys in order, and [n]. *)
Theorem multisig_roundtrip m keys s :
  1 <= m <= zlen keys -> zlen keys <= 16 -> Forall key_size_ok keys ->
  GetScriptForMultisig m keys = Some s ->
  Solver s = (true, TX_MULTISIG, [m] :: keys ++ [[zlen keys]]).
Proof.
  intros Hm Hn Hk Hs. unfold GetScriptForMultisig, EncodeOP_N in Hs.
  rewrite (proj2 (Z.leb_le 0 m)), (proj2 (Z.leb_le m 16)), (proj2 (Z.leb_le 0 (zlen keys))), (proj2 (Z.leb_le (zlen keys) 16)) in Hs by lia.
  cbn [andb mbind option_bind] in Hs. rewrite !(proj2 (Z.eqb_neq _ 0)) in Hs by lia. injection Hs as <-.
  by apply Solver_multisig.
Qed.

Lemma multisig_roundtrip_witness :
  Solver ([OP_1] ++ (33 :: 2 :: repeat 7 32) ++ (33 :: 3 :: repeat 8 32) ++ [OP_1 + 1; OP_CHECKMULTISIG]) =
  (true, TX_MULTISIG, [[1]; 2 :: repeat 7 32; 3 :: repeat 8 32; [2]]).
Proof.
  apply (multisig_roundtrip 1 [2 :: repeat 7 32; 3 :: repeat 8 32]); [by_decide|by_decide| |reflexivity].
  repeat constructor; by_decide.
Defined.

(** ** Executing pay-to-pubkey-hash *)

Section Execution.
Context `{!Crypto} `{!BaseSignatureChecker} (script : CScript) (flags : Z).

(** One executed instruction, and one executed push. *)
Lemma eval_step_exec st p o : GetOp2 script (pc st) = OpRead true p o [] -> OP_16 < o ->
  nOpCount st < MAX_OPS_PER_SCRIPT -> is_disabled o = false -> vfExec st = [] ->
  eval_step script flags st =
  st' ← exec_op script flags o true (mkEvalState p (stack st) (altstack st) [] (nOpCount st + 1) (pbegincodehash st));
  if (zlen (stack st') + zlen (altstack st') >? 1000 : bool) then Err SCRIPT_ERR_STACK_SIZE else Ret st'.
Proof.
  intros E Ho Hn Hd Hv. unfold eval_step. rewrite E, Hv. cbn [op_ok op_code op_pc op_data negb forallb].
  change (zlen (A := Z) [] >? MAX_SCRIPT_ELEMENT_SIZE) with false. cbn iota.
  rewrite (Z.gtb_ltb o), (proj2 (Z.ltb_lt _ _)) by done. cbn [andb nOpCount].
  rewrite (Z.gtb_ltb (nOpCount st + 1)), (proj2 (Z.ltb_ge _ _)) by lia. rewrite Hd.
  assert (Hpush : (0 <=? o) && (o <=? OP_PUSHDATA4) = false).
  { unfold OP_16, OP_PUSHDATA4 in *. rewrite (proj2 (Z.leb_gt o _)) by lia. apply andb_false_r. }
  rewrite Hpush. done.
Qed.

Lemma eval_step_push st p o d : GetOp2 script (pc st) = OpRead true p o d -> 0 <= o <= OP_PUSHDATA4 ->
  zlen d <= MAX_SCRIPT_ELEMENT_SIZE -> CheckMinimalPush d o = true -> vfExec st = [] ->
  zlen (stack st) + zlen (altstack st) < 1000 ->
  eval_step script flags st = Ret (mkEvalState p (d :: stack st) (altstack st) [] (nOpCount st) (pbegincodehash st)).
Proof.
  intros E Ho Hd Hc Hv Hz. unfold eval_step. rewrite E, Hv. cbn [op_ok op_code op_pc op_data negb forallb].
  rewrite (Z.gtb_ltb (zlen d)), (proj2 (Z.ltb_ge _ _)) by done.
  assert (Hgt : (o >? OP_16) = false) by (rewrite Z.gtb_ltb; apply Z.ltb_ge; unfold OP_16, OP_PUSHDATA4 in *; lia).
  rewrite Hgt. cbn [andb].
  assert (Hdis : is_disabled o = false).
  { unfold is_disabled, OP_PUSHDATA4, OP_CAT, OP_SUBSTR, OP_LEFT, OP_RIGHT, OP_INVERT, OP_AND, OP_OR, OP_XOR, OP_2MUL,
      OP_2DIV, OP_MUL, OP_DIV, OP_MOD, OP_LSHIFT, OP_RSHIFT in *. rewrite !(proj2 (Z.eqb_neq o _)) by lia. done. }
  rewrite Hdis, (proj2 (Z.leb_le 0 o)), (proj2 (Z.leb_le o _)), Hc by lia. cbn [andb negb].
  rewrite andb_false_r. cbn [mbind result_bind with_stack stack altstack].
  rewrite zlen_cons, Z.gtb_ltb, (proj2 (Z.ltb_ge _ _)) by lia. done.
Qed.

Definition room (s : list valtype) : Prop := zlen s <= 1000.

(** Running the loop past an instruction that succeeds, or into one that fails. *)
Lemma loop_exec fuel st p o s' : (pc st < length script)%nat -> GetOp2 script (pc st) = OpRead true p o [] -> OP_16 < o ->
  nOpCount st < MAX_OPS_PER_SCRIPT -> is_disabled o = false -> vfExec st = [] -> altstack st = [] -> room s' ->
  let st1 := mkEvalState p (stack st) [] [] (nOpCount st + 1) (pbegincodehash st) in
  exec_op script flags o true st1 = Ret (with_stack st1 s') ->
  eval_loop script flags (S fuel) st = eval_loop script flags fuel (with_stack st1 s').
Proof.
  intros Hpc E Ho Hn Hd Hv Ha Hr st1 He. cbn [eval_loop]. rewrite (proj2 (Nat.leb_gt _ _)) by done.
  rewrite (eval_step_exec st p o) by done. rewrite Ha. fold st1. rewrite He. cbn [mbind result_bind with_stack stack altstack st1].
  change (zlen (A := valtype) []) with 0. unfold room in Hr. rewrite Z.gtb_ltb, (proj2 (Z.ltb_ge _ _)) by lia. done.
Qed.

Lemma loop_exec_err fuel st p o e : (pc st < length script)%nat -> GetOp2 script (pc st) = OpRead true p o [] -> OP_16 < o ->
  nOpCount st < MAX_OPS_PER_SCRIPT -> is_disabled o = false -> vfExec st = [] -> altstack st = [] ->
  exec_op script flags o true (mkEvalState p (stack st) [] [] (nOpCount st + 1) (pbegincodehash st)) = Err e ->
  eval_loop script flags (S fuel) st = Err e.
Proof.
  intros Hpc E Ho Hn Hd Hv Ha He. cbn [eval_loop]. rewrite (proj2 (Nat.leb_gt _ _)) by done.
  rewrite (eval_step_exec st p o) by done. rewrite Ha, He. done.
Qed.

Lemma loop_push fuel st p o d : (pc st < length script)%nat -> GetOp2 script (pc st) = OpRead true p o d ->
  0 <= o <= OP_PUSHDATA4 -> zlen d <= MAX_SCRIPT_ELEMENT_SIZE -> CheckMinimalPush d o = true -> vfExec st = [] ->
  altstack st = [] -> room (d :: stack st) ->
  eval_loop script flags (S fuel) st =
  eval_loop script flags fuel (mkEvalState p (d :: stack st) [] [] (nOpCount st) (pbegincodehash st)).
Proof.
  intros Hpc E Ho Hd Hc Hv Ha Hr. cbn [eval_loop]. rewrite (proj2 (Nat.leb_gt _ _)) by done.
  unfold room in Hr. rewrite zlen_cons in Hr.
  rewrite (eval_step_push st p o d) by (done || (rewrite Ha; change (zlen (A := valtype) []) with 0; lia)).
  by rewrite Ha.
Qed.

Lemma eval_loop_end fuel st : pc st = length script -> eval_loop script flags fuel st = Ret st.
Proof. intros Hpc. destruct fuel; cbn [eval_loop]; rewrite Hpc, Nat.leb_refl; done. Qed.

(** The instructions of the template. *)
Lemma exec_dup st x s : stack st = x :: s -> exec_op script flags OP_DUP true st = Ret (with_stack st (x :: x :: s)).
Proof.
  intros E. change (exec_op script flags OP_DUP true st) with
    (s' ← (if zlen (stack st) <? 1 then INVALID_STACK else vch ← stacktop (stack st) 1; Ret (vch :: stack st)); Ret (with_stack st s')).
  rewrite E, zlen_cons, (proj2 (Z.ltb_ge _ _)) by (pose proof (zlen_nonneg s); lia). done.
Qed.

Lemma exec_hash160 st x s : stack st = x :: s -> exec_op script flags OP_HASH160 true st = Ret (with_stack st (CHash160 x :: s)).
Proof.
  intros E. change (exec_op script flags OP_HASH160 true st) with (on_stack (op_hash OP_HASH160) st).
  unfold on_stack, op_hash. rewrite E, zlen_cons, (proj2 (Z.ltb_ge _ _)) by (pose proof (zlen_nonneg s); lia). done.
Qed.

Lemma exec_equalverify st x y s : stack st = x :: y :: s -> exec_op script flags OP_EQUALVERIFY true st =
  if bool_decide (y = x) then Ret (with_stack st s) else Err SCRIPT_ERR_EQUALVERIFY.
Proof.
  intros E. change (exec_op script flags OP_EQUALVERIFY true st) with (on_stack (op_equal OP_EQUALVERIFY) st).
  unfold on_stack, op_equal. rewrite E, !zlen_cons, (proj2 (Z.ltb_ge _ _)) by (pose proof (zlen_nonneg s); lia).
  change (stacktop (x :: y :: s) 2) with (@Ret valtype y). change (stacktop (x :: y :: s) 1) with (@Ret valtype x).
  cbn [mbind result_bind popstack]. change (OP_EQUALVERIFY =? OP_EQUALVERIFY) with true. by destruct (bool_decide _).
Qed.

Lemma exec_checksig st key sig s : stack st = key :: sig :: s -> exec_op script flags OP_CHECKSIG true st =
  _ ← CheckSignatureEncoding sig flags; _ ← CheckPubKeyEncoding key flags;
  Ret (with_stack st ((if CheckSig sig key (FindAndDelete (drop (pbegincodehash st) script) (push_bytes [] sig)).1
                       then vchTrue else vchFalse) :: s)).
Proof.
  intros E. change (exec_op script flags OP_CHECKSIG true st) with (op_checksig script flags OP_CHECKSIG st).
  unfold op_checksig. rewrite E, !zlen_cons, (proj2 (Z.ltb_ge _ _)) by (pose proof (zlen_nonneg s); lia).
  change (stacktop (key :: sig :: s) 2) with (@Ret valtype sig). change (stacktop (key :: sig :: s) 1) with (@Ret valtype key).
  cbn [mbind result_bind popstack]. change (OP_CHECKSIG =? OP_CHECKSIGVERIFY) with false. done.
Qed.

(** The encoding checks return or fail with a script error. *)
Lemma encodings_cases key sig :
  (CheckSignatureEncoding sig flags = Ret () /\ CheckPubKeyEncoding key flags = Ret ()) \/
  (exists e, (forall B (g : result B), (_ ← CheckSignatureEncoding sig flags; _ ← CheckPubKeyEncoding key flags; g) = Err e)).
Proof.
  destruct (CheckSignatureEncoding sig flags) as [[]|e|x|] eqn:Es.
  - destruct (CheckPubKeyEncoding key flags) as [[]|e|x|] eqn:Ep; [by left|right; by exists e| |];
      unfold CheckPubKeyEncoding in Ep; by case_match.
  - right. by exists e.
  - unfold CheckSignatureEncoding, IsLowDERSignature in Es. by repeat case_match.
  - unfold CheckSignatureEncoding, IsLowDERSignature in Es. by repeat case_match.
Qed.

End Execution.

Lemma p2pkh_FindAndDelete h sig : length h = 20%nat -> sig <> h -> zlen sig < 2 ^ 32 ->
  (FindAndDelete (GetScriptForDestination (CKeyID h)) (push_bytes [] sig)).1 = GetScriptForDestination (CKeyID h).
Proof.
  intros Hl Hne Hs.
  pose proof (next_op_push sig [] Hs) as Hb. rewrite app_nil_r in Hb.
  assert (Hh : zlen h < 2 ^ 32) by (unfold zlen; lia).
  assert (Hc : chunked (GetScriptForDestination (CKeyID h))
    [[OP_DUP]; [OP_HASH160]; push_bytes [] h; [OP_EQUALVERIFY]; [OP_CHECKSIG]] []).
  { cbn [GetScriptForDestination]. rewrite push_bytes_app, <- app_assoc.
    apply (chunked_op [OP_DUP] _ OP_DUP []); [done|]. apply (chunked_op [OP_HASH160] _ OP_HASH160 []); [done|].
    apply (chunked_op (push_bytes [] h) _ (push_code h) h); [by apply next_op_push|].
    apply (chunked_op [OP_EQUALVERIFY] _ OP_EQUALVERIFY []); [done|].
    apply (chunked_op [OP_CHECKSIG] [] OP_CHECKSIG []); [done|]. by apply chunked_stop. }
  rewrite (FindAndDelete_result _ _ _ _ _ _ Hb Hc). cbn [fst]. rewrite app_nil_r.
  assert (Hnp : forall o, is_byte o -> OP_PUSHDATA4 < o -> [o] <> push_bytes [] sig).
  { intros o _ Ho E. rewrite <- E in Hb. unfold next_op in Hb. rewrite (proj2 (Z.leb_gt _ _)) in Hb by done.
    injection Hb as E1 _. pose proof (push_code_range sig). lia. }
  rewrite count_others; [symmetry; rewrite (chunked_concat _ _ _ Hc) at 1; by rewrite app_nil_r|].
  unfold count_b. rewrite !filter_cons_False; [done|..]; try (apply Hnp; by_decide).
  intros E. rewrite E in *. pose proof (next_op_push h [] Hh) as Hh'. rewrite app_nil_r, E, Hb in Hh'. congruence.
Qed.

(** What a pay-to-pubkey-hash output checks.  Executed on a stack with the
    key on top of the signature, the script succeeds in comparing hashes only
    if the key hashes to [h]; then both encodings are checked, the signature is
    verified against the script itself, and its outcome is the only element
    added to the rest of the stack. *)
Theorem p2pkh_execution `{!Crypto} `{!BaseSignatureChecker} h key sig s flags :
  length h = 20%nat -> sig <> h -> zlen sig < 2 ^ 32 -> zlen s <= 990 ->
  EvalScript (GetScriptForDestination (CKeyID h)) flags (key :: sig :: s) =
  if bool_decide (CHash160 key = h) then
    _ ← CheckSignatureEncoding sig flags;
    _ ← CheckPubKeyEncoding key flags;
    Ret ((if CheckSig sig key (GetScriptForDestination (CKeyID h)) then vchTrue else vchFalse) :: s)
  else Err SCRIPT_ERR_EQUALVERIFY.
Proof.
  intros Hl Hne Hsig Hs. pose proof (p2pkh_FindAndDelete h sig Hl Hne Hsig) as Hfd.
  set (script := GetScriptForDestination (CKeyID h)) in *.
  assert (Hlen : length script = 25%nat) by (unfold script; by bytes20 h).
  assert (Hop0 : GetOp2 script 0 = OpRead true 1 OP_DUP []) by (unfold script; by bytes20 h).
  assert (Hop1 : GetOp2 script 1 = OpRead true 2 OP_HASH160 []) by (unfold script; by bytes20 h).
  assert (Hop2 : GetOp2 script 2 = OpRead true 23 20 h) by (unfold script; by bytes20 h).
  assert (Hop3 : GetOp2 script 23 = OpRead true 24 OP_EQUALVERIFY []) by (unfold script; by bytes20 h).
  assert (Hop4 : GetOp2 script 24 = OpRead true 25 OP_CHECKSIG []) by (unfold script; by bytes20 h).
  assert (Hmin : CheckMinimalPush h 20 = true) by (by bytes20 h).
  assert (Hzh : zlen h = 20) by (unfold zlen; lia). clearbody script.
  assert (Hroom : forall a b c d : valtype, room (a :: b :: c :: d :: s) /\ room (a :: b :: c :: s) /\ room (a :: b :: s) /\ room (a :: s))
    by (intros; unfold room; rewrite !zlen_cons; lia).
  unfold EvalScript. replace (zlen script) with 25 by (unfold zlen; lia). change (25 >? MAX_SCRIPT_SIZE) with false. cbn iota.
  rewrite Hlen.
  rewrite (loop_exec _ _ _ _ 1 OP_DUP (key :: key :: sig :: s)); [|cbn; lia|done..|by apply Hroom|by apply exec_dup].
  rewrite (loop_exec _ _ _ _ 2 OP_HASH160 (CHash160 key :: key :: sig :: s)); [|cbn; lia|done..|by apply Hroom|by apply exec_hash160].
  rewrite (loop_push _ _ _ _ 23 20 h); [|cbn; lia|done|unfold OP_PUSHDATA4; lia|unfold MAX_SCRIPT_ELEMENT_SIZE; lia|done..|by apply Hroom].
  cbn [with_stack pc stack altstack vfExec nOpCount pbegincodehash].
  case_bool_decide as Hh.
  2: { rewrite (loop_exec_err _ _ _ _ 24 OP_EQUALVERIFY SCRIPT_ERR_EQUALVERIFY); [done|cbn; lia|done..|].
       rewrite (exec_equalverify _ _ _ h (CHash160 key) (key :: sig :: s)) by done. by rewrite bool_decide_eq_false_2. }
  rewrite (loop_exec _ _ _ _ 24 OP_EQUALVERIFY (key :: sig :: s)); [|cbn; lia|done..|by apply Hroom|].
  2: { rewrite (exec_equalverify _ _ _ h (CHash160 key) (key :: sig :: s)) by done. by rewrite bool_decide_eq_true_2. }
  destruct (encodings_cases flags key sig) as [[E1 E2]|[e He]].
  - rewrite E1, E2. cbn [mbind result_bind].
    rewrite (loop_exec _ _ _ _ 25 OP_CHECKSIG ((if CheckSig sig key script then vchTrue else vchFalse) :: s));
      [|cbn; lia|done..|by apply Hroom|].
    2: { rewrite (exec_checksig _ _ _ key sig s) by done. cbn [with_stack pbegincodehash]. by rewrite E1, E2, drop_0, Hfd. }
    rewrite eval_loop_end by (cbn; lia). done.
  - rewrite He. rewrite (loop_exec_err _ _ _ _ 25 OP_CHECKSIG e); [done|cbn; lia|done..|].
    rewrite (exec_checksig _ _ _ key sig s) by done. apply He.
Qed.

Lemma p2pkh_execution_witness :
  let h := toy_hash 20 (toy_hash 32 [9; 9]) in
  @EvalScript toy_crypto base_checker (GetScriptForDestination (CKeyID h)) 0 [[9; 9]; [5; 5]] = Ret [vchFalse].
Proof.
  intros h. subst h.
  rewrite (@p2pkh_execution toy_crypto base_checker (toy_hash 20 (toy_hash 32 [9; 9])) [9; 9] [5; 5] [] 0);
    [vm_compute; reflexivity|vm_compute; reflexivity|vm_compute; discriminate|vm_compute; reflexivity|vm_compute; discriminate].
Defined.

End Standard.
