(* ===== verification/Compressor.v ===== *)
(** * Compression of amounts and scripts (compressor.h, compressor.cpp)

    The compact form in which unspent outputs are stored.  The two operations
    of secp256k1 that the script compressor calls are a type class with their
    documented contract. *)

From stdpp Require Import base list list_numbers numbers option.
From Stdlib Require Import ZArith Lia.
From S2P Require Import Prelude Serialize Script Transaction Interpreter SigHash.

Local Open Scope Z_scope.

Module Compressor.
Import Serialize Script Transaction SigHash.

(** ** Amounts *)

(** The loop that divides by ten; nine rounds at most. *)
Fixpoint strip_zeros (fuel : nat) (n e : Z) : Z * Z :=
  match fuel with
  | O => (n, e)
  | S fuel => if (n mod 10 =? 0) && (e <? 9) then strip_zeros fuel (n / 10) (e + 1) else (n, e)
  end.

(** [CTxOutCompressor::CompressAmount] on a 64-bit unsigned argument; [None]
    is the failed assertion.  The wrap-around of the unsigned operations is
    taken once, at the end of each expression. *)
Definition CompressAmount (n : Z) : option Z :=
  if n =? 0 then Some 0
  else
    let '(n, e) := strip_zeros 10 n 0 in
    if e <? 9 then
      let d := n mod 10 in
      if (1 <=? d) && (d <=? 9) then Some (u64 (1 + (n / 10 * 9 + d - 1) * 10 + e)) else None
    else Some (u64 (1 + (n - 1) * 10 + 9)).

Fixpoint times10 (e : nat) (n : Z) : Z :=
  match e with
  | O => n
  | S e => times10 e (u64 (n * 10))
  end.

(** [CTxOutCompressor::DecompressAmount]. *)
Definition DecompressAmount (x : Z) : Z :=
  if x =? 0 then 0
  else
    let x := x - 1 in
    let e := x mod 10 in
    let x := x / 10 in
    let n := if e <? 9 then u64 (x / 9 * 10 + (x mod 9 + 1)) else u64 (x + 1) in
    times10 (Z.to_nat e) n.

(** ** Scripts *)

(** What secp256k1 does for [CPubKey::IsFullyValid] and [CPubKey::Decompress]
    (of a 33-byte key; [None] is failure). *)
Class PubKeyCurve : Type := {
  IsFullyValid : list Z -> bool;
  pubkey_Decompress : list Z -> option (list Z)
}.

(** Its contract: the point of a valid uncompressed key is recovered from its
    first coordinate and the parity of the second, and a decompressed key has
    65 bytes. *)
Class PubKeyCurveOk `{!PubKeyCurve} : Prop := {
  Decompress_valid x y :
    length x = 32%nat -> length y = 32%nat -> IsFullyValid (4 :: x ++ y) = true ->
    pubkey_Decompress (2 + List.last y 0 mod 2 :: x) = Some (4 :: x ++ y);
  Decompress_size k p : pubkey_Decompress k = Some p -> length p = 65%nat
}.

Section Scripts.
Context `{!PubKeyCurve}.

Definition IsToKeyID (script : CScript) : option (list Z) :=
  if (zlen script =? 25) && (nth 0 script 0 =? OP_DUP) && (nth 1 script 0 =? OP_HASH160) &&
     (nth 2 script 0 =? 20) && (nth 23 script 0 =? OP_EQUALVERIFY) && (nth 24 script 0 =? OP_CHECKSIG)
  then Some (take 20 (drop 3 script)) else None.

Definition IsToScriptID (script : CScript) : option (list Z) :=
  if (zlen script =? 23) && (nth 0 script 0 =? OP_HASH160) && (nth 1 script 0 =? 20) && (nth 22 script 0 =? OP_EQUAL)
  then Some (take 20 (drop 2 script)) else None.

(** [IsToPubKey]; the key is stored with [CPubKey::Set]. *)
Definition IsToPubKey (script : CScript) : option (list Z) :=
  if (zlen script =? 35) && (nth 0 script 0 =? 33) && (nth 34 script 0 =? OP_CHECKSIG) &&
     ((nth 1 script 0 =? 2) || (nth 1 script 0 =? 3))
  then CPubKey_Set (take 33 (drop 1 script))
  else if (zlen script =? 67) && (nth 0 script 0 =? 65) && (nth 66 script 0 =? OP_CHECKSIG) && (nth 1 script 0 =? 4)
  then
    pubkey ← CPubKey_Set (take 65 (drop 1 script));
    if (IsFullyValid pubkey : bool) then Some pubkey else None
  else None.

Definition Compress (script : CScript) : option (list Z) :=
  match IsToKeyID script with
  | Some keyID => Some (0 :: keyID)
  | None =>
  match IsToScriptID script with
  | Some scriptID => Some (1 :: scriptID)
  | None =>
      pubkey ← IsToPubKey script;
      let out := take 32 (drop 1 pubkey) in
      let h := nth 0 pubkey 0 in
      if ((h =? 2) || (h =? 3) : bool) then Some (h :: out)
      else if (h =? 4 : bool) then Some (Z.lor 4 (Z.land (nth 64 pubkey 0) 1) :: out)
      else None
  end
  end.

Definition GetSpecialSize (nSize : Z) : nat :=
  if (nSize =? 0) || (nSize =? 1) then 20
  else if (nSize =? 2) || (nSize =? 3) || (nSize =? 4) || (nSize =? 5) then 32
  else 0.

(** [Decompress] into a fresh, empty script: [None] is [false], which leaves
    the script empty.  The assertion on the size is {!Decompress_size}. *)
Definition Decompress (nSize : Z) (inp : list Z) : option CScript :=
  if nSize =? 0 then Some ([OP_DUP; OP_HASH160; 20] ++ inp ++ [OP_EQUALVERIFY; OP_CHECKSIG])
  else if nSize =? 1 then Some ([OP_HASH160; 20] ++ inp ++ [OP_EQUAL])
  else if (nSize =? 2) || (nSize =? 3) then Some ([33; nSize] ++ inp ++ [OP_CHECKSIG])
  else if (nSize =? 4) || (nSize =? 5) then
    pubkey ← pubkey_Decompress (nSize - 2 :: inp);
    Some (65 :: pubkey ++ [OP_CHECKSIG])
  else None.

Definition nSpecialScripts : Z := 6.

(** [CScriptCompressor::Serialize] and [Unserialize] (into an empty script). *)
Definition script_Serialize (script : CScript) : list Z :=
  match Compress script with
  | Some compr => compr
  | None => WriteVarInt (u32 (zlen script + nSpecialScripts)) ++ script
  end.

Definition script_Unserialize : reader CScript := fun bs =>
  '(nSize, bs) ← ReadVarInt 32 bs;
  if (nSize <? nSpecialScripts : bool) then
    '(vch, bs) ← read (GetSpecialSize nSize) bs;
    Some (default [] (Decompress nSize vch), bs)
  else
    let nSize := nSize - nSpecialScripts in
    if nSize >? MAX_SCRIPT_SIZE then
      '(_, bs) ← read (Z.to_nat nSize) bs;
      Some ([OP_RETURN], bs)
    else read (Z.to_nat nSize) bs.

Definition c_script : codec CScript := Codec script_Serialize script_Unserialize.

(** [CTxOutCompressor]; a failed assertion writes nothing. *)
Definition c_txout_compressed : codec CTxOut := Codec
  (fun o => match CompressAmount (u64 (nValue o)) with
            | Some nVal => WriteVarInt nVal ++ script_Serialize (scriptPubKey o)
            | None => []
            end)
  (fun bs =>
     '(nVal, bs) ← ReadVarInt 64 bs;
     '(s, bs) ← script_Unserialize bs;
     Some (mkCTxOut (i64 (DecompressAmount nVal)) s (-10), bs)).

End Scripts.

(** ** Amounts: lemmas *)

Lemma strip_zeros_spec fuel : forall n e n' e', 0 < n -> 0 <= e <= 9 -> 9 - e < Z.of_nat fuel ->
  strip_zeros fuel n e = (n', e') ->
  0 < n' /\ e <= e' <= 9 /\ n = n' * 10 ^ (e' - e) /\ (e' < 9 -> n' mod 10 <> 0).
Proof.
  induction fuel as [|fuel IH]; intros n e n' e' Hn He Hf; cbn [strip_zeros]; [lia|].
  destruct (Z.eqb_spec (n mod 10) 0) as [Hm|Hm], (Z.ltb_spec e 9); cbn [andb];
    try (intros [= <- <-]; rewrite Z.sub_diag, Z.mul_1_r; repeat split; lia).
  intros Hs. assert (Hn10 : n = n / 10 * 10) by (pose proof (Z.div_mod n 10 ltac:(lia)); lia).
  apply IH in Hs as (? & ? & E & ?); [|lia|lia|lia]. split; [lia|]. split; [lia|]. split; [|done].
  rewrite Hn10, E. replace (e' - e) with (Z.succ (e' - (e + 1))) by lia. rewrite Z.pow_succ_r by lia. ring.
Qed.

Lemma times10_exact k : forall n, 0 <= n -> n * 10 ^ Z.of_nat k < 2 ^ 64 -> times10 k n = n * 10 ^ Z.of_nat k.
Proof.
  induction k as [|k IH]; intros n Hn Hb; cbn [times10]; [change (10 ^ Z.of_nat 0) with 1; lia|].
  rewrite Nat2Z.inj_succ, Z.pow_succ_r in * by lia. pose proof (Z.pow_pos_nonneg 10 (Z.of_nat k) ltac:(lia) ltac:(lia)).
  assert (n * 10 < 2 ^ 64) by nia. rewrite u64_small by lia. rewrite IH; [ring|lia|].
  replace (n * 10 * 10 ^ Z.of_nat k) with (n * (10 * 10 ^ Z.of_nat k)) by ring. lia.
Qed.

(** The encoding of a positive amount, before the wrap-around. *)
Lemma CompressAmount_cases n : 0 < n < 2 ^ 64 -> exists m e, n = m * 10 ^ e /\ 0 < m /\
  ((0 <= e < 9 /\ m mod 10 <> 0 /\ CompressAmount n = Some (u64 (1 + (m / 10 * 9 + m mod 10 - 1) * 10 + e))) \/
   (e = 9 /\ CompressAmount n = Some (u64 (1 + (m - 1) * 10 + 9)))).
Proof.
  intros Hn. destruct (strip_zeros 10 n 0) as [m e] eqn:Es. exists m, e.
  pose proof (strip_zeros_spec 10 n 0 m e ltac:(lia) ltac:(lia) ltac:(lia) Es) as (Hm & He & En & Hd).
  rewrite Z.sub_0_r in En. split; [done|]. split; [done|]. unfold CompressAmount.
  rewrite (proj2 (Z.eqb_neq n 0)) by lia. rewrite Es.
  destruct (Z.ltb_spec e 9) as [Hlt|Hge].
  - left. specialize (Hd Hlt). pose proof (Z.mod_pos_bound m 10 ltac:(lia)). split; [lia|]. split; [done|].
    rewrite (proj2 (Z.leb_le 1 (m mod 10))), (proj2 (Z.leb_le (m mod 10) 9)) by lia. cbn [andb].
    done.
  - right. split; [lia|]. done.
Qed.

(** The largest amount whose encoding fits 64 bits for every digit pattern. *)
Definition amount_limit : Z := 2 ^ 64 / 9.

Lemma DecompressAmount_low q d e : 0 <= q -> 1 <= d <= 9 -> 0 <= e < 9 -> (10 * q + d) * 10 ^ e < 2 ^ 64 ->
  DecompressAmount (1 + (q * 9 + d - 1) * 10 + e) = (10 * q + d) * 10 ^ e.
Proof.
  intros Hq Hd He Hb. unfold DecompressAmount. rewrite (proj2 (Z.eqb_neq _ 0)) by lia. cbn zeta.
  replace (1 + (q * 9 + d - 1) * 10 + e - 1) with (e + (q * 9 + d - 1) * 10) by ring.
  rewrite Z_mod_plus_full, (Z.mod_small e 10), Z.div_add, (Z.div_small e 10), Z.add_0_l by lia.
  rewrite (proj2 (Z.ltb_lt e 9)) by lia.
  replace (q * 9 + d - 1) with (d - 1 + q * 9) by ring.
  rewrite Z_mod_plus_full, (Z.mod_small (d - 1) 9), Z.div_add, (Z.div_small (d - 1) 9), Z.add_0_l by lia.
  pose proof (Z.pow_pos_nonneg 10 e ltac:(lia) ltac:(lia)).
  replace (q * 10 + (d - 1 + 1)) with (10 * q + d) by ring. rewrite u64_small by nia.
  rewrite times10_exact; rewrite ?Z2Nat.id by lia; lia.
Qed.

Lemma DecompressAmount_high m : 0 < m -> m * 10 ^ 9 < 2 ^ 64 ->
  DecompressAmount (1 + (m - 1) * 10 + 9) = m * 10 ^ 9.
Proof.
  intros Hm Hb. unfold DecompressAmount. rewrite (proj2 (Z.eqb_neq _ 0)) by lia. cbn zeta.
  replace (1 + (m - 1) * 10 + 9 - 1) with (9 + (m - 1) * 10) by ring.
  rewrite Z_mod_plus_full, Z.div_add by lia. change (9 mod 10) with 9. change (9 / 10) with 0.
  change (9 <? 9) with false. cbn iota. replace (0 + (m - 1) + 1) with m by ring.
  rewrite u64_small by lia. rewrite times10_exact; change (Z.of_nat (Z.to_nat 9)) with 9; lia.
Qed.

Lemma amount_roundtrip n : 0 <= n <= amount_limit ->
  exists x, CompressAmount n = Some x /\ 0 <= x < 2 ^ 64 /\ DecompressAmount x = n.
Proof.
  intros Hn. assert (H9 : 9 * n <= 2 ^ 64 - 1).
  { unfold amount_limit in Hn. pose proof (Z.mul_div_le (2 ^ 64) 9 ltac:(lia)).
    assert (9 * (2 ^ 64 / 9) <= 2 ^ 64 - 1) by (vm_compute; congruence). lia. }
  destruct (decide (n = 0)) as [->|H0]; [by exists 0|].
  destruct (CompressAmount_cases n ltac:(lia)) as (m & e & En & Hm & [(He & Hd & ->)|[-> ->]]).
  - pose proof (Z.mod_pos_bound m 10 ltac:(lia)). pose proof (Z.div_mod m 10 ltac:(lia)) as Hdm.
    pose proof (Z.div_pos m 10 ltac:(lia) ltac:(lia)). pose proof (Z.pow_pos_nonneg 10 e ltac:(lia) ltac:(lia)).
    set (q := m / 10) in *. set (d := m mod 10) in *.
    assert (e < 10 ^ e) by (apply Z.pow_gt_lin_r; lia).
    assert (Hx : 1 + (q * 9 + d - 1) * 10 + e <= 9 * n).
    { rewrite En, Hdm. nia. }
    eexists. split; [done|]. rewrite u64_small by lia. split; [lia|].
    rewrite DecompressAmount_low, En, Hdm; [done|lia..|]. rewrite <- Hdm, <- En. lia.
  - eexists. split; [done|]. rewrite u64_small by lia. split; [lia|]. rewrite DecompressAmount_high; lia.
Qed.

(** ** Scripts: lemmas *)

(** A string cut into a head, [k] bytes and a tail. *)
Lemma cut3 (s : list Z) a k b : length s = (a + k + b)%nat ->
  exists p h t, s = p ++ h ++ t /\ length p = a /\ length h = k /\ length t = b /\
    take k (drop a s) = h /\ (forall i, (i < a)%nat -> nth i s 0 = nth i p 0) /\
    (forall i, nth (a + k + i) s 0 = nth i t 0).
Proof.
  intros Hl. exists (take a s), (take k (drop a s)), (drop (a + k) s).
  rewrite !length_take, !length_drop. split; [by rewrite <- drop_drop, !take_drop|].
  split; [lia|]. split; [lia|]. split; [lia|]. split; [done|]. split.
  - intros i Hi. rewrite <- (take_drop a s) at 1. rewrite app_nth1; [done|rewrite length_take; lia].
  - intros i. rewrite <- (take_drop (a + k) s) at 1. rewrite app_nth2 by (rewrite length_take; lia).
    f_equal. rewrite length_take. lia.
Qed.

Lemma list1 (l : list Z) : length l = 1%nat -> l = [nth 0 l 0].
Proof. destruct l as [|a [|]]; done. Qed.
Lemma list2 (l : list Z) : length l = 2%nat -> l = [nth 0 l 0; nth 1 l 0].
Proof. destruct l as [|a [|b [|]]]; done. Qed.
Lemma list3 (l : list Z) : length l = 3%nat -> l = [nth 0 l 0; nth 1 l 0; nth 2 l 0].
Proof. destruct l as [|a [|b [|c [|]]]]; done. Qed.

Section ScriptLemmas.
Context `{!PubKeyCurve}.

Lemma IsToKeyID_inv s h : IsToKeyID s = Some h ->
  length h = 20%nat /\ s = [OP_DUP; OP_HASH160; 20] ++ h ++ [OP_EQUALVERIFY; OP_CHECKSIG].
Proof.
  unfold IsToKeyID. destruct (_ && _) eqn:E; [|done]. intros [= <-].
  rewrite !andb_true_iff, !Z.eqb_eq in E. destruct E as [[[[[Hl H0] H1] H2] H3] H4].
  unfold zlen in Hl. destruct (cut3 s 3 20 2 ltac:(lia)) as (p & h & t & -> & Hp & Hh & Ht & -> & Hn & Hm).
  split; [done|]. rewrite (list3 p Hp), (list2 t Ht), <- !Hn, <- !Hm by lia. cbn [Nat.add].
  by rewrite H0, H1, H2, H3, H4.
Qed.

Lemma IsToScriptID_inv s h : IsToScriptID s = Some h ->
  length h = 20%nat /\ s = [OP_HASH160; 20] ++ h ++ [OP_EQUAL].
Proof.
  unfold IsToScriptID. destruct (_ && _) eqn:E; [|done]. intros [= <-].
  rewrite !andb_true_iff, !Z.eqb_eq in E. destruct E as [[[Hl H0] H1] H2].
  unfold zlen in Hl. destruct (cut3 s 2 20 1 ltac:(lia)) as (p & h & t & -> & Hp & Hh & Ht & -> & Hn & Hm).
  split; [done|]. rewrite (list2 p Hp), (list1 t Ht), <- !Hn, <- !Hm by lia. cbn [Nat.add].
  by rewrite H0, H1, H2.
Qed.

(** A compressible public key, compressed or not. *)
Lemma IsToPubKey_inv s k : IsToPubKey s = Some k ->
  (exists c x, (c = 2 \/ c = 3) /\ length x = 32%nat /\ k = c :: x /\ s = [33; c] ++ x ++ [OP_CHECKSIG]) \/
  (exists x y, length x = 32%nat /\ length y = 32%nat /\ k = 4 :: x ++ y /\ IsFullyValid k = true /\
     s = 65 :: k ++ [OP_CHECKSIG]).
Proof.
  unfold IsToPubKey. destruct (_ && _) eqn:E.
  - rewrite !andb_true_iff, orb_true_iff, !Z.eqb_eq in E. destruct E as [[[Hl H0] H1] H2]. unfold zlen in Hl.
    destruct (cut3 s 2 32 1 ltac:(lia)) as (p & x & t & -> & Hp & Hx & Ht & _ & Hn & Hm).
    rewrite Hn in H0, H2 by lia. pose proof (Hm 0%nat) as Hm0; cbn [Nat.add] in Hm0; rewrite Hm0 in H1. rewrite (list2 p Hp), (list1 t Ht), H0, H1.
    set (c := nth 1 p 0) in *. cbn [app drop]. rewrite firstn_cons. intros Hs. left. exists c, x.
    rewrite take_app_length' in Hs by done.
    unfold CPubKey_Set in Hs. assert (Hz : zlen (c :: x) = 33) by (unfold zlen; cbn [length]; lia). rewrite Hz in Hs.
    destruct H2 as [H2|H2]; rewrite H2 in Hs |- *; cbn in Hs; simplify_eq; auto.
  - clear E. destruct (_ && _) eqn:E; [|done].
    rewrite !andb_true_iff, !Z.eqb_eq in E. destruct E as [[[Hl H0] H1] H2]. unfold zlen in Hl.
    destruct (cut3 s 2 64 1 ltac:(lia)) as (p & x & t & -> & Hp & Hx & Ht & _ & Hn & Hm).
    rewrite Hn in H0, H2 by lia. pose proof (Hm 0%nat) as Hm0; cbn [Nat.add] in Hm0; rewrite Hm0 in H1. rewrite (list2 p Hp), (list1 t Ht), H0, H1, H2.
    cbn [app drop]. rewrite firstn_cons, take_app_length' by done. unfold CPubKey_Set.
    assert (Hz : zlen (4 :: x) = 65) by (unfold zlen; cbn [length]; lia). rewrite Hz. cbn [mbind option_bind].
    change (negb (GetLen 4 =? 0) && (GetLen 4 =? 65)) with true. cbn iota. cbn [mbind option_bind].
    destruct (IsFullyValid (4 :: x)) eqn:Ev; [|done]. intros [= <-]. right. exists (take 32 x), (drop 32 x).
    rewrite take_drop, length_take, length_drop. repeat split; try lia; done.
Qed.

End ScriptLemmas.

Section RoundTrips.
Context `{!PubKeyCurve} {HK : PubKeyCurveOk}.

Lemma ReadVarInt_small k bs : 0 <= k < 6 -> ReadVarInt 32 (k :: bs) = Some (k, bs).
Proof.
  intros Hk. assert (k = 0 \/ k = 1 \/ k = 2 \/ k = 3 \/ k = 4 \/ k = 5) as Hc by lia.
  by destruct Hc as [->|[->|[->|[->|[->| ->]]]]].
Qed.

(** Reading a special script back, given what [Decompress] makes of it. *)
Lemma special_roundtrip k h rest s : 0 <= k < 6 -> length h = GetSpecialSize k -> Decompress k h = Some s ->
  script_Unserialize (k :: h ++ rest) = Some (s, rest).
Proof.
  intros Hk Hh Hd. unfold script_Unserialize. rewrite ReadVarInt_small by done. cbn [mbind option_bind].
  unfold nSpecialScripts. rewrite (proj2 (Z.ltb_lt k 6)) by lia. rewrite read_app by done. cbn [mbind option_bind].
  by rewrite Hd.
Qed.

Lemma parity_code y : Z.lor 4 (Z.land y 1) = 4 + y mod 2.
Proof.
  change 1 with (Z.ones 1) at 1. rewrite Z.land_ones by lia. change (2 ^ 1) with 2.
  pose proof (Z.mod_pos_bound y 2 ltac:(lia)). assert (y mod 2 = 0 \/ y mod 2 = 1) as [->| ->] by lia; done.
Qed.

Lemma nth_last_byte x y : length x = 32%nat -> length y = 32%nat -> nth 64 (4 :: x ++ y) 0 = List.last y 0.
Proof.
  intros Hx Hy. cbn [nth]. rewrite app_nth2 by lia. rewrite Hx.
  destruct (exists_last (l := y)) as (l & b & ->); [by destruct y|]. rewrite length_app in Hy. cbn in Hy.
  rewrite last_last, app_nth2 by lia. by replace (63 - 32 - length l)%nat with 0%nat by lia.
Qed.

Lemma Compress_roundtrip s compr rest : Compress s = Some compr ->
  script_Unserialize (compr ++ rest) = Some (s, rest).
Proof using HK.
  unfold Compress. destruct (IsToKeyID s) as [h|] eqn:E1.
  { apply IsToKeyID_inv in E1 as [Hh ->]. intros [= <-]. by apply special_roundtrip. }
  destruct (IsToScriptID s) as [h|] eqn:E2.
  { apply IsToScriptID_inv in E2 as [Hh ->]. intros [= <-]. by apply special_roundtrip. }
  destruct (IsToPubKey s) as [k|] eqn:E3; [|done]. cbn [mbind option_bind].
  apply IsToPubKey_inv in E3 as [(c & x & Hc & Hx & -> & ->)|(x & y & Hx & Hy & -> & Hv & ->)].
  - change (take 32 (drop 1 (c :: x))) with (take 32 x). rewrite take_ge by (rewrite Hx; done).
    destruct Hc as [->| ->]; cbn; intros [= <-]; (apply special_roundtrip; [lia|done|done]).
  - change (drop 1 (4 :: x ++ y)) with (x ++ y). rewrite take_app_length' by done. change (nth 0 (4 :: x ++ y) 0) with 4.
    change ((4 =? 2) || (4 =? 3)) with false. change (4 =? 4) with true. cbn iota. intros Hq. apply (inj Some) in Hq. subst compr.
    rewrite nth_last_byte, parity_code by done. set (b := List.last y 0).
    pose proof (Z.mod_pos_bound b 2 ltac:(lia)) as Hb.
    assert (Hd : pubkey_Decompress (4 + b mod 2 - 2 :: x) = Some (4 :: x ++ y)).
    { replace (4 + b mod 2 - 2) with (2 + b mod 2) by lia. by apply Decompress_valid. }
    apply special_roundtrip; [lia| |].
    + assert (b mod 2 = 0 \/ b mod 2 = 1) as [->| ->] by lia; done.
    + unfold Decompress. rewrite Hd. assert (b mod 2 = 0 \/ b mod 2 = 1) as [->| ->] by lia; done.
Qed.

Lemma Compress_size s : MAX_SCRIPT_SIZE < zlen s -> Compress s = None.
Proof.
  unfold MAX_SCRIPT_SIZE, Compress, IsToKeyID, IsToScriptID, IsToPubKey. intros Hs.
  do 4 (rewrite (proj2 (Z.eqb_neq (zlen s) _)) by lia; cbn [andb]). done.
Qed.

(** The stored script: itself, or the short unspendable one. *)
Definition stored_script (s : CScript) : CScript := if zlen s >? MAX_SCRIPT_SIZE then [OP_RETURN] else s.

Lemma script_roundtrip s rest : zlen s < 2 ^ 31 ->
  script_Unserialize (script_Serialize s ++ rest) = Some (stored_script s, rest).
Proof using HK.
  intros Hs. unfold script_Serialize, stored_script.
  destruct (Z.gtb_spec (zlen s) MAX_SCRIPT_SIZE) as [Hbig|Hsmall].
  - rewrite Compress_size by done. assert (Hn : 0 <= zlen s) by (unfold zlen; lia). unfold nSpecialScripts.
    rewrite u32_small by lia. rewrite <- app_assoc. unfold script_Unserialize.
    rewrite ReadVarInt_WriteVarInt by lia. cbn [mbind option_bind]. rewrite Z.mod_small by lia. unfold nSpecialScripts.
    rewrite (proj2 (Z.ltb_ge _ 6)) by lia. replace (zlen s + 6 - 6) with (zlen s) by lia.
    rewrite (proj2 (Z.gtb_lt _ _)) by done. by rewrite read_app by (unfold zlen; lia).
  - destruct (Compress s) as [c|] eqn:E; [by apply Compress_roundtrip|].
    assert (Hn : 0 <= zlen s) by (unfold zlen; lia). unfold nSpecialScripts.
    rewrite u32_small by lia. rewrite <- app_assoc. unfold script_Unserialize.
    rewrite ReadVarInt_WriteVarInt by lia. cbn [mbind option_bind]. rewrite Z.mod_small by lia. unfold nSpecialScripts.
    rewrite (proj2 (Z.ltb_ge _ 6)) by lia. replace (zlen s + 6 - 6) with (zlen s) by lia.
    destruct (Z.gtb_spec (zlen s) MAX_SCRIPT_SIZE); [lia|]. by rewrite read_app by (unfold zlen; lia).
Qed.

End RoundTrips.

Section Outputs.
Context `{!PubKeyCurve} {HK : PubKeyCurveOk}.

(** What is read back of a stored output. *)
Definition stored_txout (o : CTxOut) : CTxOut := mkCTxOut (nValue o) (stored_script (scriptPubKey o)) (-10).

Lemma txout_roundtrip o rest : 0 <= nValue o <= amount_limit -> zlen (scriptPubKey o) < 2 ^ 31 ->
  Unser c_txout_compressed (Ser c_txout_compressed o ++ rest) = Some (stored_txout o, rest).
Proof using HK.
  intros Hv Hs. cbn [Unser Ser c_txout_compressed].
  assert (Hlim : amount_limit < 2 ^ 63) by reflexivity. rewrite u64_small by lia.
  destruct (amount_roundtrip (nValue o) Hv) as (x & -> & Hx & Hd). rewrite <- app_assoc.
  rewrite ReadVarInt_WriteVarInt by lia. cbn [mbind option_bind]. rewrite Z.mod_small by lia.
  rewrite script_roundtrip by done. cbn [mbind option_bind]. rewrite Hd, i64_small by lia. done.
Qed.

End Outputs.

(** C26: the compression of amounts.  Every amount up to [2^64 / 9] base units
    has a 64-bit code that decodes to it, for every pattern of digits.  The
    range of valid amounts is larger: just above the limit the computation
    wraps around, and the amount 2049638230412172408 is stored with the code
    of 60000. *)
Theorem amount_compression :
  (forall n, 0 <= n <= amount_limit ->
     exists x, CompressAmount n = Some x /\ 0 <= x < 2 ^ 64 /\ DecompressAmount x = n) /\
  MoneyRange 2049638230412172408 = true /\
  DecompressAmount <$> CompressAmount 2049638230412172408 = Some 60000.
Proof. split; [exact amount_roundtrip|]. by vm_compute. Qed.

End Compressor.
