(* ===== verification/Coins.v ===== *)
(** * Unspent outputs: cached views and undo (coins.h, coins.cpp, undo.h,
      txdb.cpp, validation.cpp)

    [CCoinsView] is the interface the views implement, [CCoinsViewOk] what one
    view promises to a cache placed on top of it: it holds a finite map from
    outpoints to unspent coins, reading does not change the map, and a batch
    of cache entries overwrites it.  The database and the cache are instances,
    so a cache may stand on a cache.  The memory accounting of the cache
    ([cachedCoinsUsage]) is left out. *)

From stdpp Require Import base list list_numbers numbers option gmap fin_maps.
From Stdlib Require Import ZArith Lia.
From S2P Require Import Prelude Serialize Script Transaction Interpreter InterpreterSafety SigHash Compressor.

Local Open Scope Z_scope.

Module Coins.
Import Serialize Script Transaction Compressor.

(** ** Results of operations that may throw or fail an assertion *)

Inductive outcome (A : Type) : Type :=
  | Done (a : A)
  | LogicError
  | AssertError.
Arguments Done {A} _.
Arguments LogicError {A}.
Arguments AssertError {A}.

#[export] Instance outcome_bind : MBind outcome := fun A B f r =>
  match r with
  | Done a => f a
  | LogicError => LogicError
  | AssertError => AssertError
  end.

(** ** Coins *)

Record Coin : Type := mkCoin {
  coin_out : CTxOut;
  coin_fCoinBase : bool;
  coin_nHeight : Z
}.

#[export] Instance Coin_eq_dec : EqDecision Coin.
Proof. solve_decision. Defined.

(** [Coin()] and what [Clear] leaves. *)
Definition coinEmpty : Coin := mkCoin CTxOut_SetNull false 0.

Definition IsSpent (c : Coin) : bool := CTxOut_IsNull (coin_out c).

(** The constructor from an output: the height goes into a 31-bit field. *)
Definition Coin_of (out : CTxOut) (nHeight : Z) (fCoinBase : bool) : Coin := mkCoin out fCoinBase (nHeight mod 2 ^ 31).

(** [Coin::Serialize] (of an unspent coin) and [Coin::Unserialize]. *)
Definition c_coin `{!PubKeyCurve} : codec Coin := Codec
  (fun c => WriteVarInt (u32 (coin_nHeight c * 2 + Z.b2z (coin_fCoinBase c))) ++ Ser c_txout_compressed (coin_out c))
  (fun bs =>
     '(code, bs) ← ReadVarInt 32 bs;
     '(out, bs) ← Unser c_txout_compressed bs;
     Some (mkCoin out (negb (Z.land code 1 =? 0)) (Z.shiftr code 1), bs)).

(** ** Cache entries *)

Record CCoinsCacheEntry : Type := mkEntry {
  coin : Coin;
  flags : Z
}.

Definition DIRTY : Z := 1.
Definition FRESH : Z := 2.
Definition has (f bit : Z) : bool := negb (Z.land f bit =? 0).

Abbreviation CCoinsMap := (gmap COutPoint CCoinsCacheEntry).

(** ** Views *)

(** The virtual functions a cache calls on its base.  The [const] readers may
    fill the caches below, so they return the view too. *)
Class CCoinsView (V : Type) : Type := {
  GetCoin : V -> COutPoint -> option Coin * V;
  GetBestBlock : V -> uint256 * V;
  BatchWrite : V -> CCoinsMap -> uint256 -> outcome (bool * V)
}.

(** [CCoinsViewDB]: the coin table (serialized coins by outpoint) and the best
    block of the chain state database.  A failed write throws and is not
    modelled. *)
Record CCoinsViewDB : Type := mkDB {
  db_coins : gmap COutPoint (list Z);
  db_best : option uint256
}.

Section DB.
Context `{!PubKeyCurve}.

Definition db_write_entry (t : gmap COutPoint (list Z)) (p : COutPoint * CCoinsCacheEntry) : gmap COutPoint (list Z) :=
  let '(o, e) := p in
  if has (flags e) DIRTY then
    if IsSpent (coin e) then delete o t else <[o := Ser c_coin (coin e)]> t
  else t.

#[export] Instance CCoinsViewDB_view : CCoinsView CCoinsViewDB := {|
  GetCoin db o := (bs ← db_coins db !! o; fst <$> Unser c_coin bs, db);
  GetBestBlock db := (default uint256_null (db_best db), db);
  BatchWrite db mapCoins hashBlock :=
    Done (true, mkDB (foldl db_write_entry (db_coins db) (map_to_list mapCoins))
                     (if uint256_IsNull hashBlock then db_best db else Some hashBlock))
|}.
End DB.

(** ** The cache *)

Record CCoinsViewCache (V : Type) : Type := mkCache {
  base : V;
  hashBlock : uint256;
  cacheCoins : CCoinsMap
}.
Arguments mkCache {V} _ _ _.
Arguments base {V} _.
Arguments hashBlock {V} _.
Arguments cacheCoins {V} _.

Section Cache.
Context {V : Type} `{!CCoinsView V}.
Implicit Types c : CCoinsViewCache V.

Definition new_cache (v : V) : CCoinsViewCache V := mkCache v uint256_null ∅.
Definition with_coins c (m : CCoinsMap) : CCoinsViewCache V := mkCache (base c) (hashBlock c) m.

Definition FetchCoin c (outpoint : COutPoint) : option CCoinsCacheEntry * CCoinsViewCache V :=
  match cacheCoins c !! outpoint with
  | Some e => (Some e, c)
  | None =>
      let '(r, v) := GetCoin (base c) outpoint in
      let c := mkCache v (hashBlock c) (cacheCoins c) in
      match r with
      | None => (None, c)
      | Some tmp =>
          let e := mkEntry tmp (if IsSpent tmp then FRESH else 0) in
          (Some e, with_coins c (<[outpoint := e]> (cacheCoins c)))
      end
  end.

Definition cache_GetCoin c (outpoint : COutPoint) : option Coin * CCoinsViewCache V :=
  let '(it, c) := FetchCoin c outpoint in
  (match it with
   | Some e => if IsSpent (coin e) then None else Some (coin e)
   | None => None
   end, c).

Definition AddCoin c (outpoint : COutPoint) (newcoin : Coin) (possible_overwrite : bool) : outcome (CCoinsViewCache V) :=
  if IsSpent newcoin then AssertError
  else if IsUnspendable (scriptPubKey (coin_out newcoin)) then Done c
  else
    let it := default (mkEntry coinEmpty 0) (cacheCoins c !! outpoint) in
    if negb possible_overwrite && negb (IsSpent (coin it)) then LogicError
    else
      let fresh := negb possible_overwrite && negb (has (flags it) DIRTY) in
      let it := mkEntry newcoin (Z.lor (flags it) (Z.lor DIRTY (if fresh then FRESH else 0))) in
      Done (with_coins c (<[outpoint := it]> (cacheCoins c))).

(** [SpendCoin]: the coin moved out, or [None] when it returns [false]. *)
Definition SpendCoin c (outpoint : COutPoint) : option Coin * CCoinsViewCache V :=
  let '(it, c) := FetchCoin c outpoint in
  match it with
  | None => (None, c)
  | Some e =>
      (Some (coin e),
       if has (flags e) FRESH then with_coins c (delete outpoint (cacheCoins c))
       else with_coins c (<[outpoint := mkEntry coinEmpty (Z.lor (flags e) DIRTY)]> (cacheCoins c)))
  end.

Definition AccessCoin c (outpoint : COutPoint) : Coin * CCoinsViewCache V :=
  let '(it, c) := FetchCoin c outpoint in
  (match it with Some e => coin e | None => coinEmpty end, c).

Definition HaveCoin c (outpoint : COutPoint) : bool * CCoinsViewCache V :=
  let '(it, c) := FetchCoin c outpoint in
  (match it with Some e => negb (IsSpent (coin e)) | None => false end, c).

Definition HaveCoinInCache c (outpoint : COutPoint) : bool :=
  match cacheCoins c !! outpoint with Some e => negb (IsSpent (coin e)) | None => false end.

Definition cache_GetBestBlock c : uint256 * CCoinsViewCache V :=
  if uint256_IsNull (hashBlock c) then
    let '(h, v) := GetBestBlock (base c) in (h, mkCache v h (cacheCoins c))
  else (hashBlock c, c).

Definition SetBestBlock c (h : uint256) : CCoinsViewCache V := mkCache (base c) h (cacheCoins c).

(** One round of the loop of [BatchWrite]. *)
Definition BatchWrite_entry c (p : COutPoint * CCoinsCacheEntry) : outcome (CCoinsViewCache V) :=
  let '(o, e) := p in
  if has (flags e) DIRTY then
    match cacheCoins c !! o with
    | None =>
        if has (flags e) FRESH && IsSpent (coin e) then Done c
        else
          let entry := mkEntry (coin e) (if has (flags e) FRESH then Z.lor DIRTY FRESH else DIRTY) in
          Done (with_coins c (<[o := entry]> (cacheCoins c)))
    | Some us =>
        if has (flags e) FRESH && negb (IsSpent (coin us)) then LogicError
        else if has (flags us) FRESH && IsSpent (coin e) then Done (with_coins c (delete o (cacheCoins c)))
        else Done (with_coins c (<[o := mkEntry (coin e) (Z.lor (flags us) DIRTY)]> (cacheCoins c)))
    end
  else Done c.

Fixpoint BatchWrite_loop (l : list (COutPoint * CCoinsCacheEntry)) c : outcome (CCoinsViewCache V) :=
  match l with
  | [] => Done c
  | p :: l => c ← BatchWrite_entry c p; BatchWrite_loop l c
  end.

Definition cache_BatchWrite c (mapCoins : CCoinsMap) (hashBlockIn : uint256) : outcome (bool * CCoinsViewCache V) :=
  c ← BatchWrite_loop (map_to_list mapCoins) c; Done (true, SetBestBlock c hashBlockIn).

Definition Flush c : outcome (bool * CCoinsViewCache V) :=
  '(fOk, v) ← BatchWrite (base c) (cacheCoins c) (hashBlock c);
  Done (fOk, mkCache v (hashBlock c) ∅).

Definition Uncache c (outpoint : COutPoint) : CCoinsViewCache V :=
  match cacheCoins c !! outpoint with
  | Some e => if flags e =? 0 then with_coins c (delete outpoint (cacheCoins c)) else c
  | None => c
  end.

Definition GetCacheSize c : nat := size (cacheCoins c).

End Cache.

#[export] Instance CCoinsViewCache_view {V} `{!CCoinsView V} : CCoinsView (CCoinsViewCache V) := {|
  GetCoin := cache_GetCoin;
  GetBestBlock := cache_GetBestBlock;
  BatchWrite := cache_BatchWrite
|}.

(** ** What a view promises *)

(** The content an entry stands for. *)
Definition content (e : CCoinsCacheEntry) : option Coin := if IsSpent (coin e) then None else Some (coin e).

(** The coins a map of entries leaves visible on top of [u]. *)
Definition overlay (m : CCoinsMap) (u : gmap COutPoint Coin) : gmap COutPoint Coin :=
  merge (fun e b => match e with Some e => content e | None => b end) m u.

(** The meaning of the flags, given what the base has at the outpoint. *)
Definition entry_ok (P : Coin -> Prop) (b : option Coin) (e : CCoinsCacheEntry) : Prop :=
  (IsSpent (coin e) = false -> P (coin e)) /\
  (has (flags e) DIRTY = false -> content e = b) /\
  (has (flags e) FRESH = true -> b = None).

Definition batch_ok (P : Coin -> Prop) (u : gmap COutPoint Coin) (m : CCoinsMap) : Prop :=
  forall o e, m !! o = Some e -> entry_ok P (u !! o) e.

Class CCoinsViewOk (V : Type) `{!CCoinsView V} : Type := {
  view_ok : V -> Prop;
  coin_ok : Coin -> Prop;
  utxo : V -> gmap COutPoint Coin;
  best : V -> uint256;
  utxo_ok v o x : view_ok v -> utxo v !! o = Some x -> IsSpent x = false /\ coin_ok x;
  GetCoin_ok v o : view_ok v -> exists v', GetCoin v o = (utxo v !! o, v') /\
    view_ok v' /\ utxo v' = utxo v /\ best v' = best v;
  GetBestBlock_ok v : view_ok v -> exists v', GetBestBlock v = (best v, v') /\
    view_ok v' /\ utxo v' = utxo v /\ best v' = best v;
  BatchWrite_ok v m h : view_ok v -> batch_ok coin_ok (utxo v) m -> exists v', BatchWrite v m h = Done (true, v') /\
    view_ok v' /\ utxo v' = overlay m (utxo v) /\ (uint256_IsNull h = false -> best v' = h)
}.

(** ** Overlays *)

Lemma lookup_overlay m u o : overlay m u !! o = match m !! o with Some e => content e | None => u !! o end.
Proof. unfold overlay. rewrite lookup_merge. by destruct (m !! o), (u !! o). Qed.

Lemma overlay_empty u : overlay ∅ u = u.
Proof. apply map_eq. intros o. by rewrite lookup_overlay, lookup_empty. Qed.

Lemma overlay_insert m u o e : overlay (<[o := e]> m) u = partial_alter (fun _ => content e) o (overlay m u).
Proof.
  apply map_eq. intros o'. rewrite lookup_overlay. destruct (decide (o = o')) as [<-|Hne].
  - by rewrite lookup_insert_eq, lookup_partial_alter_eq.
  - rewrite lookup_insert_ne, lookup_partial_alter_ne by done. by rewrite lookup_overlay.
Qed.

Lemma overlay_delete m u o : overlay (delete o m) u = partial_alter (fun _ => u !! o) o (overlay m u).
Proof.
  apply map_eq. intros o'. rewrite lookup_overlay. destruct (decide (o = o')) as [<-|Hne].
  - by rewrite lookup_delete_eq, lookup_partial_alter_eq.
  - rewrite lookup_delete_ne, lookup_partial_alter_ne by done. by rewrite lookup_overlay.
Qed.

(** Writing one entry through, then the others. *)
Lemma overlay_step m u o e : m !! o = None ->
  overlay m (partial_alter (fun _ => content e) o u) = overlay (<[o := e]> m) u.
Proof.
  intros Hm. apply map_eq. intros o'. rewrite !lookup_overlay. destruct (decide (o = o')) as [<-|Hne].
  - by rewrite lookup_insert_eq, Hm, lookup_partial_alter_eq.
  - by rewrite lookup_insert_ne, lookup_partial_alter_ne by done.
Qed.

Lemma alter_same (u : gmap COutPoint Coin) o x : u !! o = x -> partial_alter (fun _ => x) o u = u.
Proof.
  intros H. apply map_eq. intros o'. destruct (decide (o = o')) as [<-|Hne].
  - by rewrite lookup_partial_alter_eq.
  - by rewrite lookup_partial_alter_ne.
Qed.

Lemma alter_Some (u : gmap COutPoint Coin) o x : partial_alter (fun _ => Some x) o u = <[o := x]> u.
Proof. done. Qed.

Lemma alter_None (u : gmap COutPoint Coin) o : partial_alter (fun _ => None) o u = delete o u.
Proof. done. Qed.

Lemma has_spec f k : 0 <= k -> has f (2 ^ k) = Z.testbit f k.
Proof. intros Hk. unfold has. rewrite land_pow2_eqb by done. apply negb_involutive. Qed.

Lemma has_DIRTY f : has f DIRTY = Z.testbit f 0.
Proof. exact (has_spec f 0 ltac:(lia)). Qed.
Lemma has_FRESH f : has f FRESH = Z.testbit f 1.
Proof. exact (has_spec f 1 ltac:(lia)). Qed.

Ltac flags := cbn [flags coin]; rewrite ?has_DIRTY, ?has_FRESH in *; rewrite ?Z.lor_spec;
  change (Z.testbit DIRTY 0) with true; change (Z.testbit DIRTY 1) with false;
  change (Z.testbit FRESH 0) with false; change (Z.testbit FRESH 1) with true;
  rewrite ?Z.bits_0, ?orb_true_r, ?orb_false_r; cbn [orb].

Lemma IsSpent_empty f : content (mkEntry coinEmpty f) = None.
Proof. done. Qed.

Lemma entry_ok_unspent P b e x : entry_ok P b e -> content e = Some x -> IsSpent x = false /\ P x.
Proof. intros (HP & _) Hc. unfold content in Hc. destruct (IsSpent (coin e)) eqn:E; simplify_eq. auto. Qed.

(** ** The cache keeps its promises *)

Section CacheOk.
Context {V : Type} `{!CCoinsView V} {HV : CCoinsViewOk V}.
Implicit Types c : CCoinsViewCache V.

(** The invariant of a cache: its flags tell the truth about the base. *)
Definition cache_ok c : Prop := view_ok (base c) /\ batch_ok coin_ok (utxo (base c)) (cacheCoins c).

Definition cache_utxo c : gmap COutPoint Coin := overlay (cacheCoins c) (utxo (base c)).

Definition cache_best c : uint256 := if uint256_IsNull (hashBlock c) then best (base c) else hashBlock c.

Lemma batch_insert P u m o e : batch_ok P u m -> entry_ok P (u !! o) e -> batch_ok P u (<[o := e]> m).
Proof.
  intros Hm He o' e'. destruct (decide (o = o')) as [<-|Hne].
  - rewrite lookup_insert_eq. intros [= <-]. done.
  - rewrite lookup_insert_ne by done. apply Hm.
Qed.

Lemma batch_delete P u m o : batch_ok P u m -> batch_ok P u (delete o m).
Proof. intros Hm o' e'. rewrite lookup_delete_Some. intros [_ ?]. by apply Hm. Qed.

Lemma cache_utxo_ok c o x : cache_ok c -> cache_utxo c !! o = Some x -> IsSpent x = false /\ coin_ok x.
Proof.
  intros [Hb Hm]. unfold cache_utxo. rewrite lookup_overlay. destruct (cacheCoins c !! o) as [e|] eqn:E.
  - apply (entry_ok_unspent _ (utxo (base c) !! o)), Hm, E.
  - by apply utxo_ok.
Qed.

(** [FetchCoin] finds an entry exactly when the cache or the base has one,
    changes nothing visible, and afterwards the entry is in the cache. *)
Lemma FetchCoin_ok c o : cache_ok c -> exists it c', FetchCoin c o = (it, c') /\ cache_ok c' /\
  cache_utxo c' = cache_utxo c /\ cache_best c' = cache_best c /\ hashBlock c' = hashBlock c /\
  cacheCoins c' !! o = it /\ cache_utxo c !! o = (it ≫= content).
Proof.
  intros [Hb Hm]. unfold FetchCoin, cache_utxo, cache_best. rewrite lookup_overlay.
  destruct (cacheCoins c !! o) as [e|] eqn:E.
  { exists (Some e), c. by rewrite E. }
  destruct (GetCoin_ok (base c) o Hb) as (v & -> & Hv & Hu & Hbest).
  destruct (utxo (base c) !! o) as [x|] eqn:Ex.
  - destruct (utxo_ok _ _ _ Hb Ex) as [Hx1 Hx2]. cbn beta iota zeta.
    eexists _, _. split; [reflexivity|]. rewrite Hx1. unfold with_coins. cbn [base hashBlock cacheCoins].
    assert (Hc : content (mkEntry x 0) = Some x) by (unfold content; cbn [coin]; by rewrite Hx1).
    split; [|split; [|split; [|split; [|split]]]].
    + split; [done|]. cbn [base cacheCoins]. rewrite Hu. apply batch_insert; [done|]. rewrite Ex.
      split; [done|]. split; [done|]. by flags.
    + rewrite Hu, overlay_insert, Hc. apply alter_same. by rewrite lookup_overlay, E.
    + by rewrite Hbest.
    + done.
    + apply lookup_insert_eq.
    + done.
  - eexists _, _. split; [done|]. cbn [base hashBlock cacheCoins]. rewrite Hu, Hbest.
    split; [split; cbn [base cacheCoins]; [done|by rewrite Hu]|]. done.
Qed.

Lemma cache_GetCoin_ok c o : cache_ok c -> exists c', cache_GetCoin c o = (cache_utxo c !! o, c') /\
  cache_ok c' /\ cache_utxo c' = cache_utxo c /\ cache_best c' = cache_best c.
Proof.
  intros Hc. destruct (FetchCoin_ok c o Hc) as (it & c' & Hf & Hc' & Hu & Hbest & _ & _ & ->).
  exists c'. unfold cache_GetCoin. rewrite Hf. by destruct it.
Qed.

Lemma HaveCoin_ok c o : cache_ok c -> exists c', HaveCoin c o = (bool_decide (is_Some (cache_utxo c !! o)), c') /\
  cache_ok c' /\ cache_utxo c' = cache_utxo c /\ cache_best c' = cache_best c /\
  (is_Some (cache_utxo c !! o) -> HaveCoinInCache c' o = true).
Proof.
  intros Hc. destruct (FetchCoin_ok c o Hc) as (it & c' & Hf & Hc' & Hu & Hbest & _ & Hl & ->).
  exists c'. unfold HaveCoin, HaveCoinInCache. rewrite Hf, Hl. split.
  - f_equal. destruct it as [e|]; cbn [mbind option_bind]; [|done]. unfold content. by destruct (IsSpent (coin e)).
  - split; [done|]. split; [done|]. split; [done|]. intros [x Hx]. destruct it as [e|]; [|done].
    cbn [mbind option_bind] in Hx. unfold content in Hx. by destruct (IsSpent (coin e)).
Qed.

Lemma AccessCoin_ok c o : cache_ok c -> exists x c', AccessCoin c o = (x, c') /\
  cache_ok c' /\ cache_utxo c' = cache_utxo c /\ cache_best c' = cache_best c /\
  cache_utxo c !! o = (if IsSpent x then None else Some x).
Proof.
  intros Hc. destruct (FetchCoin_ok c o Hc) as (it & c' & Hf & Hc' & Hu & Hbest & _ & _ & ->).
  unfold AccessCoin. rewrite Hf. exists (match it with Some e => coin e | None => coinEmpty end), c'.
  split; [done|]. split; [done|]. split; [done|]. split; [done|]. by destruct it.
Qed.

(** [SpendCoin] removes the coin and hands it out. *)
Lemma SpendCoin_ok c o : cache_ok c -> exists r c', SpendCoin c o = (r, c') /\ cache_ok c' /\
  cache_utxo c' = delete o (cache_utxo c) /\ cache_best c' = cache_best c /\
  (forall x, cache_utxo c !! o = Some x -> r = Some x) /\
  (cache_utxo c !! o = None -> r = None \/ exists x, r = Some x /\ IsSpent x = true).
Proof.
  intros Hc. destruct (FetchCoin_ok c o Hc) as (it & c' & Hf & [Hb Hm] & Hu & Hbest & Hh & Hl & Hlook).
  unfold SpendCoin. rewrite Hf. destruct it as [e|]; cbn [mbind option_bind] in Hlook.
  - pose proof (Hm o e Hl) as (HP & Hd & Hfr). eexists _, _. split; [done|]. rewrite <- Hu in Hlook |- *.
    unfold cache_utxo, cache_best, cache_ok in *.
    destruct (has (flags e) FRESH) eqn:E; unfold with_coins; cbn [base hashBlock cacheCoins].
    + rewrite overlay_delete, Hfr, alter_None by done. split; [split; [done|by apply batch_delete]|].
      split; [done|]. split; [done|]. rewrite Hlook. unfold content. destruct (IsSpent (coin e)) eqn:Es.
      * split; [done|]. eauto.
      * split; [by intros x [= ->]|done].
    + rewrite overlay_insert, IsSpent_empty, alter_None. split.
      { split; [done|]. apply batch_insert; [done|]. split; [done|]. split.
        - by flags.
        - flags. by rewrite E. }
      split; [done|]. split; [done|]. rewrite Hlook. unfold content. destruct (IsSpent (coin e)) eqn:Es.
      * split; [done|]. eauto.
      * split; [by intros x [= ->]|done].
  - eexists _, _. split; [done|]. split; [done|]. rewrite Hlook, Hu, delete_id by done. auto.
Qed.

End CacheOk.

Section CacheWrite.
Context {V : Type} `{!CCoinsView V} {HV : CCoinsViewOk V}.
Implicit Types c : CCoinsViewCache V.

(** Replacing the entry of one outpoint. *)
Lemma cache_put c o e : cache_ok c -> entry_ok coin_ok (utxo (base c) !! o) e ->
  let c' := with_coins c (<[o := e]> (cacheCoins c)) in
  cache_ok c' /\ cache_best c' = cache_best c /\ cache_utxo c' = partial_alter (fun _ => content e) o (cache_utxo c).
Proof.
  intros [Hb Hm] He. unfold cache_ok, cache_utxo, cache_best, with_coins. cbn [base hashBlock cacheCoins].
  rewrite overlay_insert. split; [|done]. split; [done|]. by apply batch_insert.
Qed.

Lemma cache_erase c o : cache_ok c -> utxo (base c) !! o = None ->
  let c' := with_coins c (delete o (cacheCoins c)) in
  cache_ok c' /\ cache_best c' = cache_best c /\ cache_utxo c' = delete o (cache_utxo c).
Proof.
  intros [Hb Hm] He. unfold cache_ok, cache_utxo, cache_best, with_coins. cbn [base hashBlock cacheCoins].
  rewrite overlay_delete, He. split; [|done]. split; [done|]. by apply batch_delete.
Qed.

Lemma content_unspent x f : IsSpent x = false -> content (mkEntry x f) = Some x.
Proof. intros Hx. unfold content. cbn [coin]. by rewrite Hx. Qed.

(** [AddCoin]: the caller may deny an overwrite only when there is no coin. *)
Lemma AddCoin_ok c o x ov : cache_ok c -> IsSpent x = false -> coin_ok x ->
  (ov = false -> cache_utxo c !! o = None) ->
  exists c', AddCoin c o x ov = Done c' /\ cache_ok c' /\ cache_best c' = cache_best c /\
    cache_utxo c' = if IsUnspendable (scriptPubKey (coin_out x)) then cache_utxo c else <[o := x]> (cache_utxo c).
Proof.
  intros Hc Hx HP Hov. unfold AddCoin. rewrite Hx. destruct (IsUnspendable _); [by exists c|].
  assert (Hspent : ov = false -> IsSpent (coin (default (mkEntry coinEmpty 0) (cacheCoins c !! o))) = true /\
    (has (flags (default (mkEntry coinEmpty 0) (cacheCoins c !! o))) DIRTY = false -> utxo (base c) !! o = None)).
  { intros E. specialize (Hov E). unfold cache_utxo in Hov. rewrite lookup_overlay in Hov.
    destruct (cacheCoins c !! o) as [e|] eqn:El; cbn [from_option id]; [|split; [done|by intros _]].
    destruct Hc as [_ Hm]. pose proof (Hm o e El) as (_ & Hd & _). rewrite Hov in Hd.
    unfold content in Hov. destruct (IsSpent (coin e)); [|done]. split; [done|]. intros E'. by rewrite <- Hd. }
  assert (Hfr : has (flags (default (mkEntry coinEmpty 0) (cacheCoins c !! o))) FRESH = true -> utxo (base c) !! o = None).
  { destruct (cacheCoins c !! o) as [e|] eqn:El; [|done]. cbn [from_option id]. destruct Hc as [_ Hm]. apply (Hm o e El). }
  set (it := default _ _) in *. clearbody it.
  assert (Hg : negb ov && negb (IsSpent (coin it)) = false).
  { destruct ov; [done|]. by rewrite (proj1 (Hspent eq_refl)). }
  rewrite Hg. eexists. split; [done|].
  rewrite <- (alter_Some _ o x), <- (content_unspent x (Z.lor (flags it) (Z.lor DIRTY (if negb ov && negb (has (flags it) DIRTY) then FRESH else 0)))) by done.
  apply cache_put; [done|]. split; [done|]. split; [by flags|]. intros Hf. destruct ov.
  - apply Hfr. revert Hf. by flags.
  - destruct (has (flags it) DIRTY) eqn:Ed; [|by apply Hspent]. apply Hfr. revert Hf. by flags.
Qed.

(** One entry of a batch. *)
Lemma BatchWrite_entry_ok c o e : cache_ok c -> entry_ok coin_ok (cache_utxo c !! o) e ->
  exists c', BatchWrite_entry c (o, e) = Done c' /\ cache_ok c' /\ cache_best c' = cache_best c /\
    cache_utxo c' = partial_alter (fun _ => content e) o (cache_utxo c).
Proof.
  intros Hc (HP & Hd & Hf). unfold BatchWrite_entry.
  destruct (has (flags e) DIRTY) eqn:Ed; [|exists c; by rewrite alter_same by (symmetry; by apply Hd)].
  pose proof (lookup_overlay (cacheCoins c) (utxo (base c)) o) as Hl. fold (cache_utxo c) in Hl.
  destruct (cacheCoins c !! o) as [us|] eqn:El.
  - destruct Hc as [Hb Hm]. pose proof (Hm o us El) as (_ & Hdu & Hfu).
    destruct (has (flags e) FRESH && negb (IsSpent (coin us))) eqn:E1.
    { apply andb_true_iff in E1 as [Ef Es]. rewrite (Hf Ef) in Hl. unfold content in Hl.
      by destruct (IsSpent (coin us)). }
    destruct (has (flags us) FRESH && IsSpent (coin e)) eqn:E2.
    { apply andb_true_iff in E2 as [Ef Es]. eexists. split; [done|]. unfold content. rewrite Es.
      apply cache_erase; [done|auto]. }
    eexists. split; [done|]. change (content e) with (content (mkEntry (coin e) (Z.lor (flags us) DIRTY))).
    apply cache_put; [done|]. split; [done|]. split; [by flags|]. intros H. apply Hfu. revert H. by flags.
  - destruct (has (flags e) FRESH && IsSpent (coin e)) eqn:E1.
    { apply andb_true_iff in E1 as [Ef Es]. exists c. unfold content. rewrite Es. rewrite alter_same by auto. done. }
    eexists. split; [done|]. destruct (has (flags e) FRESH) eqn:Ef.
    + change (content e) with (content (mkEntry (coin e) (Z.lor DIRTY FRESH))). apply cache_put; [done|].
      split; [done|]. split; [by flags|]. intros _. rewrite <- Hl. auto.
    + change (content e) with (content (mkEntry (coin e) DIRTY)). apply cache_put; [done|].
      split; [done|]. split; [by flags|]. by flags.
Qed.

(** A batch, in any order. *)
Lemma BatchWrite_loop_ok l : forall c, cache_ok c -> NoDup l.*1 ->
  (forall o e, (o, e) ∈ l -> entry_ok coin_ok (cache_utxo c !! o) e) ->
  exists c', BatchWrite_loop l c = Done c' /\ cache_ok c' /\ cache_best c' = cache_best c /\
    cache_utxo c' = overlay (list_to_map l) (cache_utxo c).
Proof.
  induction l as [|[o e] l IH]; intros c Hc Hnd Hl.
  { exists c. by rewrite overlay_empty. }
  cbn [fmap list_fmap fst] in Hnd. apply NoDup_cons in Hnd as [Hni Hnd].
  destruct (BatchWrite_entry_ok c o e Hc) as (c1 & H1 & Hc1 & Hb1 & Hu1); [apply Hl; left|].
  destruct (IH c1 Hc1 Hnd) as (c2 & H2 & Hc2 & Hb2 & Hu2).
  { intros o' e' Hin. rewrite Hu1. destruct (decide (o = o')) as [<-|Hne].
    - exfalso. apply Hni. apply list_elem_of_fmap. by exists (o, e').
    - rewrite lookup_partial_alter_ne by done. apply Hl. by right. }
  exists c2. cbn [BatchWrite_loop]. rewrite H1. cbn [mbind outcome_bind]. split; [done|]. split; [done|].
  split; [congruence|]. cbn [list_to_map foldr uncurry fst snd].
  rewrite Hu2, Hu1, overlay_step; [done|]. by apply not_elem_of_list_to_map_1.
Qed.

Lemma cache_BatchWrite_ok c m h : cache_ok c -> batch_ok coin_ok (cache_utxo c) m ->
  exists c', cache_BatchWrite c m h = Done (true, c') /\ cache_ok c' /\ cache_utxo c' = overlay m (cache_utxo c) /\
    (uint256_IsNull h = false -> cache_best c' = h).
Proof.
  intros Hc Hm. destruct (BatchWrite_loop_ok (map_to_list m) c Hc) as (c' & H1 & Hc' & _ & Hu).
  - apply NoDup_fst_map_to_list.
  - intros o e Hin. apply elem_of_map_to_list in Hin. by apply Hm.
  - exists (SetBestBlock c' h). unfold cache_BatchWrite. rewrite H1. split; [done|]. split; [done|].
    rewrite list_to_map_to_list in Hu. split; [exact Hu|]. intros Hh. unfold cache_best, SetBestBlock. cbn [hashBlock]. by rewrite Hh.
Qed.

Lemma cache_GetBestBlock_ok c : cache_ok c -> exists c', cache_GetBestBlock c = (cache_best c, c') /\
  cache_ok c' /\ cache_utxo c' = cache_utxo c /\ cache_best c' = cache_best c.
Proof.
  intros [Hb Hm]. unfold cache_GetBestBlock, cache_best. destruct (uint256_IsNull (hashBlock c)) eqn:E.
  - destruct (GetBestBlock_ok (base c) Hb) as (v & -> & Hv & Hu & Hbe). eexists. split; [done|].
    unfold cache_ok, cache_utxo. cbn [base hashBlock cacheCoins]. rewrite Hu, Hbe. split; [done|]. split; [done|].
    by destruct (uint256_IsNull (best (base c))).
  - exists c. by rewrite E.
Qed.

End CacheWrite.

(** A cache is a view again: the instance that lets caches be stacked. *)
#[export] Instance CCoinsViewCache_ok {V} `{!CCoinsView V} {HV : CCoinsViewOk V} : CCoinsViewOk (CCoinsViewCache V) := {|
  view_ok := cache_ok;
  coin_ok := coin_ok;
  utxo := cache_utxo;
  best := cache_best;
  utxo_ok := cache_utxo_ok;
  GetCoin_ok := cache_GetCoin_ok;
  GetBestBlock_ok := cache_GetBestBlock_ok;
  BatchWrite_ok := cache_BatchWrite_ok
|}.

(** ** The database keeps its promises *)

Section DBOk.
Context `{!PubKeyCurve} {HK : PubKeyCurveOk}.

(** The coins whose stored form is faithful. *)
Definition coin_storable (x : Coin) : Prop :=
  0 <= nValue (coin_out x) <= amount_limit /\ zlen (scriptPubKey (coin_out x)) <= MAX_SCRIPT_SIZE /\
  nRounds (coin_out x) = -10 /\ 0 <= coin_nHeight x < 2 ^ 31.

Lemma coin_roundtrip x rest : coin_storable x -> Unser c_coin (Ser c_coin x ++ rest) = Some (x, rest).
Proof using HK.
  intros (Hv & Hs & Hr & Hh). cbn [Unser Ser c_coin]. rewrite <- app_assoc.
  assert (0 <= Z.b2z (coin_fCoinBase x) < 2) by (destruct (coin_fCoinBase x); cbn; lia).
  rewrite u32_small, ReadVarInt_WriteVarInt by lia. cbn [mbind option_bind]. rewrite Z.mod_small by lia.
  rewrite txout_roundtrip by (unfold MAX_SCRIPT_SIZE in Hs; lia). cbn [mbind option_bind].
  set (b := Z.b2z (coin_fCoinBase x)) in *.
  assert (E1 : Z.shiftr (coin_nHeight x * 2 + b) 1 = coin_nHeight x).
  { rewrite Z.shiftr_div_pow2 by lia. change (2 ^ 1) with 2. rewrite Z.div_add_l, (Z.div_small b 2) by lia. lia. }
  assert (E2 : negb (Z.land (coin_nHeight x * 2 + b) 1 =? 0) = coin_fCoinBase x).
  { change 1 with (Z.ones 1) at 1. rewrite Z.land_ones by lia. change (2 ^ 1) with 2.
    rewrite Z.add_comm, Z_mod_plus_full, Z.mod_small by lia. unfold b. by destruct (coin_fCoinBase x). }
  rewrite E1, E2. destruct x as [[v s r] f h]. unfold stored_txout, stored_script. cbn [coin_out nValue scriptPubKey nRounds coin_nHeight coin_fCoinBase] in *.
  destruct (Z.gtb_spec (zlen s) MAX_SCRIPT_SIZE); [lia|]. by subst r.
Qed.

Definition db_ok (db : CCoinsViewDB) : Prop :=
  forall o bs, db_coins db !! o = Some bs -> exists x, coin_storable x /\ bs = Ser c_coin x.

Definition table_utxo (t : gmap COutPoint (list Z)) : gmap COutPoint Coin := omap (fun bs => fst <$> Unser c_coin bs) t.

Definition db_utxo (db : CCoinsViewDB) : gmap COutPoint Coin := table_utxo (db_coins db).

Lemma Unser_stored x : coin_storable x -> fst <$> Unser c_coin (Ser c_coin x) = Some x.
Proof using HK. intros Hx. pose proof (coin_roundtrip x [] Hx) as Hrt. rewrite app_nil_r in Hrt. by rewrite Hrt. Qed.

Lemma storable_unspent x : coin_storable x -> IsSpent x = false.
Proof. intros (Hv & _). unfold IsSpent, CTxOut_IsNull. apply Z.eqb_neq. lia. Qed.

Lemma db_utxo_ok db o x : db_ok db -> db_utxo db !! o = Some x -> IsSpent x = false /\ coin_storable x.
Proof using HK.
  intros Hdb. unfold db_utxo, table_utxo. rewrite lookup_omap. destruct (db_coins db !! o) as [bs|] eqn:E; [|done].
  destruct (Hdb o bs E) as (y & Hy & ->). cbn [mbind option_bind]. rewrite Unser_stored by done. intros [= <-].
  split; [by apply storable_unspent|done].
Qed.

Lemma db_GetCoin_ok db o : db_ok db -> exists db', GetCoin db o = (db_utxo db !! o, db') /\
  db_ok db' /\ db_utxo db' = db_utxo db /\ default uint256_null (db_best db') = default uint256_null (db_best db).
Proof. intros Hdb. exists db. split; [|done]. cbn. f_equal. unfold db_utxo, table_utxo. by rewrite lookup_omap. Qed.

(** One entry, then a list of entries of different outpoints. *)
Lemma db_write_entry_ok t o e : entry_ok coin_storable (table_utxo t !! o) e ->
  table_utxo (db_write_entry t (o, e)) = partial_alter (fun _ => content e) o (table_utxo t).
Proof using HK.
  intros (HP & Hd & Hf). unfold db_write_entry. destruct (has (flags e) DIRTY).
  - unfold content. destruct (IsSpent (coin e)); unfold table_utxo.
    + by rewrite omap_delete.
    + rewrite alter_Some. apply omap_insert_Some. by apply Unser_stored, HP.
  - by rewrite alter_same by (symmetry; by apply Hd).
Qed.

Lemma db_write_stored t o e : (forall o bs, t !! o = Some bs -> exists x, coin_storable x /\ bs = Ser c_coin x) ->
  (IsSpent (coin e) = false -> coin_storable (coin e)) ->
  forall o' bs, db_write_entry t (o, e) !! o' = Some bs -> exists x, coin_storable x /\ bs = Ser c_coin x.
Proof.
  intros Ht He o' bs. unfold db_write_entry. destruct (has (flags e) DIRTY); [|by apply Ht].
  destruct (IsSpent (coin e)).
  - rewrite lookup_delete_Some. intros [_ Hl]. by apply (Ht o').
  - rewrite lookup_insert_Some. intros [[_ <-]|[_ Hl]]; [eauto|by apply (Ht o')].
Qed.

Lemma db_write_list_ok l : forall t, NoDup l.*1 ->
  (forall o bs, t !! o = Some bs -> exists x, coin_storable x /\ bs = Ser c_coin x) ->
  (forall o e, (o, e) ∈ l -> entry_ok coin_storable (table_utxo t !! o) e) ->
  (forall o bs, foldl db_write_entry t l !! o = Some bs -> exists x, coin_storable x /\ bs = Ser c_coin x) /\
  table_utxo (foldl db_write_entry t l) = overlay (list_to_map l) (table_utxo t).
Proof using HK.
  induction l as [|[o e] l IH]; intros t Hnd Ht Hl.
  { split; [done|]. by rewrite overlay_empty. }
  cbn [fmap list_fmap fst] in Hnd. apply NoDup_cons in Hnd as [Hni Hnd].
  pose proof (Hl o e ltac:(left)) as He. pose proof (db_write_entry_ok t o e He) as Hu. cbn [foldl].
  destruct (IH (db_write_entry t (o, e)) Hnd) as [IH1 IH2].
  - apply db_write_stored; [done|]. apply He.
  - intros o' e' Hin. rewrite Hu. destruct (decide (o = o')) as [<-|Hne].
    + exfalso. apply Hni. apply list_elem_of_fmap. by exists (o, e').
    + rewrite lookup_partial_alter_ne by done. apply Hl. by right.
  - split; [done|]. cbn [list_to_map foldr uncurry fst snd].
    rewrite IH2, Hu, overlay_step; [done|]. by apply not_elem_of_list_to_map_1.
Qed.

#[export] Program Instance CCoinsViewDB_ok : CCoinsViewOk CCoinsViewDB := {|
  view_ok := db_ok;
  coin_ok := coin_storable;
  utxo := db_utxo;
  best db := default uint256_null (db_best db);
  utxo_ok := db_utxo_ok;
  GetCoin_ok := db_GetCoin_ok
|}.
Next Obligation. intros db Hdb. by exists db. Qed.
Next Obligation.
  intros db m h Hdb Hm. destruct (db_write_list_ok (map_to_list m) (db_coins db)) as [H1 H2].
  - apply NoDup_fst_map_to_list.
  - done.
  - intros o e Hin. apply elem_of_map_to_list in Hin. by apply Hm.
  - eexists. split; [done|]. split; [done|]. rewrite list_to_map_to_list in H2. split; [done|].
    intros Hh. cbn [db_best]. by rewrite Hh.
Qed.

End DBOk.

(** ** The theorems *)

Section Theorems.
Context {V : Type} `{!CCoinsView V} {HV : CCoinsViewOk V}.
Implicit Types c : CCoinsViewCache V.

Lemma Flush_ok c : cache_ok c -> exists c', Flush c = Done (true, c') /\ cache_ok c' /\
  cacheCoins c' = ∅ /\ utxo (base c') = cache_utxo c /\ cache_utxo c' = cache_utxo c /\
  (uint256_IsNull (hashBlock c) = false -> best (base c') = hashBlock c).
Proof.
  intros [Hb Hm]. destruct (BatchWrite_ok (base c) (cacheCoins c) (hashBlock c) Hb Hm) as (v & Hw & Hv & Hu & Hbest).
  unfold Flush. rewrite Hw. cbn [mbind outcome_bind]. eexists. split; [done|].
  unfold cache_ok, cache_utxo. cbn [base cacheCoins]. rewrite overlay_empty.
  split; [|by split_and!]. split; [done|]. intros o e. by rewrite lookup_empty.
Qed.

Lemma Uncache_ok c o : cache_ok c -> cache_ok (Uncache c o) /\ cache_utxo (Uncache c o) = cache_utxo c.
Proof.
  intros [Hb Hm]. unfold Uncache. destruct (cacheCoins c !! o) as [e|] eqn:E; [|done].
  destruct (Z.eqb_spec (flags e) 0) as [Hf|]; [|done].
  pose proof (Hm o e E) as (_ & Hd & _). rewrite Hf in Hd. specialize (Hd eq_refl).
  unfold cache_ok, cache_utxo, with_coins. cbn [base cacheCoins]. split; [split; [done|by apply batch_delete]|].
  rewrite overlay_delete, <- Hd. apply alter_same. by rewrite lookup_overlay, E.
Qed.

(** C7: the cache refines a finite map.  On a cache whose flags are right
    (over any view that keeps its promises), reading returns the map's coin and
    changes nothing, spending removes the coin and hands it out, adding inserts
    it (unless the output is unspendable; and an overwrite may be denied only
    where the map has no coin), dropping an unmodified entry changes nothing,
    and every operation keeps the flags right. *)
Theorem cache_refines_map c o (Hc : cache_ok c) :
  (exists c', GetCoin c o = (cache_utxo c !! o, c') /\ cache_ok c' /\ cache_utxo c' = cache_utxo c) /\
  (exists r c', SpendCoin c o = (r, c') /\ cache_ok c' /\ cache_utxo c' = delete o (cache_utxo c) /\
     (forall x, cache_utxo c !! o = Some x -> r = Some x)) /\
  (forall x ov, IsSpent x = false -> coin_ok x -> (ov = false -> cache_utxo c !! o = None) ->
     exists c', AddCoin c o x ov = Done c' /\ cache_ok c' /\
       cache_utxo c' = if IsUnspendable (scriptPubKey (coin_out x)) then cache_utxo c else <[o := x]> (cache_utxo c)) /\
  cache_ok (Uncache c o) /\ cache_utxo (Uncache c o) = cache_utxo c.
Proof.
  split; [|split; [|split]].
  - destruct (cache_GetCoin_ok c o Hc) as (c' & H1 & H2 & H3 & _). eauto.
  - destruct (SpendCoin_ok c o Hc) as (r & c' & H1 & H2 & H3 & _ & H4 & _). exists r, c'. auto.
  - intros x ov Hx HP Hov. destruct (AddCoin_ok c o x ov Hc Hx HP Hov) as (c' & H1 & H2 & _ & H3). eauto.
  - by apply Uncache_ok.
Qed.

End Theorems.

Section Stack.
Context `{!PubKeyCurve} {HK : PubKeyCurveOk}.

End Stack.

(** A cache on a cache on a database with one coin. *)

Definition toy_curve : PubKeyCurve := {| IsFullyValid _ := false; pubkey_Decompress _ := None |}.
Lemma toy_curve_ok : @PubKeyCurveOk toy_curve.
Proof. by split. Qed.

#[local] Existing Instance toy_curve.
#[local] Existing Instance toy_curve_ok.

Definition sample_coin : Coin := mkCoin (mkCTxOut 5000 [OP_1] (-10)) true 7.
Definition sample_outpoint : COutPoint := mkCOutPoint (repeat 7 32) 0.
Definition sample_db : CCoinsViewDB := mkDB {[ sample_outpoint := Ser c_coin sample_coin ]} (Some (repeat 9 32)).
Definition sample_cache : CCoinsViewCache (CCoinsViewCache CCoinsViewDB) := new_cache (new_cache sample_db).

Lemma sample_coin_storable : coin_storable sample_coin.
Proof. unfold coin_storable. cbn. split; [|done]. split; [lia|]. by vm_compute. Qed.

Lemma new_cache_ok {V} `{!CCoinsView V} {HV : CCoinsViewOk V} (v : V) : view_ok v -> cache_ok (new_cache v).
Proof. intros Hv. split; [done|]. intros o e. unfold new_cache. cbn [cacheCoins base]. by rewrite lookup_empty. Qed.

Lemma sample_cache_ok : cache_ok sample_cache.
Proof.
  apply new_cache_ok, new_cache_ok. intros o bs. unfold new_cache, sample_db. cbn [base db_coins]. rewrite lookup_singleton_Some. intros [<- <-].
  exists sample_coin. split; [exact sample_coin_storable|done].
Qed.

Lemma cache_refines_map_witness :
  (exists c', GetCoin sample_cache sample_outpoint = (Some sample_coin, c')) /\
  exists c', AddCoin sample_cache sample_outpoint sample_coin true = Done c' /\
    cache_utxo c' !! sample_outpoint = Some sample_coin.
Proof.
  destruct (cache_refines_map sample_cache sample_outpoint sample_cache_ok) as ((c1 & H1 & _) & _ & H3 & _).
  split; [exists c1; rewrite H1; by vm_compute|].
  destruct (H3 sample_coin true eq_refl sample_coin_storable ltac:(done)) as (c2 & H2 & _ & H4).
  exists c2. split; [exact H2|]. rewrite H4. by vm_compute.
Defined.

(** The coin of the database is spent and another one added. *)
Definition other_outpoint : COutPoint := mkCOutPoint (repeat 6 32) 1.
Definition busy_cache : CCoinsViewCache (CCoinsViewCache CCoinsViewDB) :=
  SetBestBlock (match AddCoin (SpendCoin sample_cache sample_outpoint).2 other_outpoint sample_coin false with Done c => c | _ => sample_cache end)
    (repeat 8 32).

Lemma busy_cache_ok : cache_ok busy_cache /\ cache_utxo busy_cache = {[ other_outpoint := sample_coin ]}.
Proof.
  destruct (SpendCoin_ok sample_cache sample_outpoint sample_cache_ok) as (r & c1 & E1 & Hc1 & Hu1 & _).
  assert (Hu : cache_utxo c1 = ∅) by (rewrite Hu1; by vm_compute).
  destruct (AddCoin_ok c1 other_outpoint sample_coin false Hc1 eq_refl sample_coin_storable) as (c2 & E2 & Hc2 & _ & Hu2); [intros _; by rewrite Hu|].
  unfold busy_cache. rewrite E1. cbn [snd]. rewrite E2. split; [exact Hc2|]. change (cache_utxo c2 = {[other_outpoint := sample_coin]}). rewrite Hu2, Hu.
  replace (IsUnspendable _) with false by (vm_compute; reflexivity). reflexivity.
Qed.


End Coins.
