(* ===== verification/Ledger.v ===== *)
(** * Blocks and the set of coins (coins.cpp, validation.cpp)

    How transactions change a cache of coins ([AddCoins], [UpdateCoins]), how
    a block is undone ([ApplyTxInUndo], the coin part of [DisconnectBlock]),
    and the abstract ledger, a relation on finite maps of coins, that both
    implement.  The databases that [DisconnectBlock] also updates (BDAP
    entries, address and spent indexes) are left out; they do not touch the
    coins. *)

From stdpp Require Import base list list_numbers numbers option gmap fin_maps.
From Stdlib Require Import ZArith Lia.
From S2P Require Import Prelude Serialize Script Transaction Interpreter InterpreterSafety Compressor Coins.

Local Open Scope Z_scope.

Module Ledger.
Import Serialize Script Transaction Interpreter InterpreterSafety Coins.

Definition COINBASE_MATURITY : Z := 40.
Definition MAX_BLOCK_SIZE : Z := 1572864.

(** A serialized empty output has 9 bytes. *)
Definition MAX_OUTPUTS_PER_BLOCK : Z := MAX_BLOCK_SIZE / 9.

Inductive DisconnectResult : Type := DISCONNECT_OK | DISCONNECT_UNCLEAN | DISCONNECT_FAILED.

#[export] Instance DisconnectResult_eq_dec : EqDecision DisconnectResult.
Proof. solve_decision. Defined.

Section Ops.
Context `{!Crypto} {V : Type} `{!CCoinsView V}.
Implicit Types c : CCoinsViewCache V.

(** [CTransaction::GetHash]. *)
Definition GetHash (tx : CTransaction) : uint256 := CHash256 (Ser c_transaction tx).

Fixpoint AddCoins_loop c (txid : uint256) (i : Z) (outs : list CTxOut) (nHeight : Z) (fCoinbase : bool)
  : outcome (CCoinsViewCache V) :=
  match outs with
  | [] => Done c
  | out :: outs =>
      c ← AddCoin c (mkCOutPoint txid (u32 i)) (Coin_of out nHeight fCoinbase) fCoinbase;
      AddCoins_loop c txid (i + 1) outs nHeight fCoinbase
  end.

Definition AddCoins c (tx : CTransaction) (nHeight : Z) : outcome (CCoinsViewCache V) :=
  AddCoins_loop c (GetHash tx) 0 (vout tx) nHeight (IsCoinBase tx).

(** The inputs of [UpdateCoins]: each coin moves to the undo record, and the
    call must have found an entry. *)
Fixpoint spend_inputs c (vin : list CTxIn) : outcome (list Coin * CCoinsViewCache V) :=
  match vin with
  | [] => Done ([], c)
  | txin :: vin =>
      match SpendCoin c (prevout txin) with
      | (None, _) => AssertError
      | (Some x, c) => '(xs, c) ← spend_inputs c vin; Done (x :: xs, c)
      end
  end.

(** [UpdateCoins]; the list is [txundo.vprevout]. *)
Definition UpdateCoins c (tx : CTransaction) (nHeight : Z) : outcome (list Coin * CCoinsViewCache V) :=
  '(undo, c) ← (if IsCoinBase tx then Done ([], c) else spend_inputs c (vin tx));
  c ← AddCoins c tx nHeight;
  Done (undo, c).

Fixpoint HaveInputs_loop c (vin : list CTxIn) : bool * CCoinsViewCache V :=
  match vin with
  | [] => (true, c)
  | txin :: vin =>
      let '(b, c) := HaveCoin c (prevout txin) in
      if b then HaveInputs_loop c vin else (false, c)
  end.
Definition HaveInputs c (tx : CTransaction) : bool * CCoinsViewCache V :=
  if IsCoinBase tx then (true, c) else HaveInputs_loop c (vin tx).

Fixpoint GetValueIn_loop c (vin : list CTxIn) (nResult : Z) : Z * CCoinsViewCache V :=
  match vin with
  | [] => (nResult, c)
  | txin :: vin =>
      let '(x, c) := AccessCoin c (prevout txin) in
      GetValueIn_loop c vin (i64 (nResult + nValue (coin_out x)))
  end.
Definition GetValueIn c (tx : CTransaction) : Z * CCoinsViewCache V :=
  if IsCoinBase tx then (0, c) else GetValueIn_loop c (vin tx) 0.

(** [AccessByTxid]: the first unspent output of a transaction. *)
Fixpoint AccessByTxid_loop (fuel : nat) c (txid : uint256) (n : Z) : Coin * CCoinsViewCache V :=
  match fuel with
  | O => (coinEmpty, c)
  | S fuel =>
      let '(alternate, c) := AccessCoin c (mkCOutPoint txid n) in
      if negb (IsSpent alternate) then (alternate, c) else AccessByTxid_loop fuel c txid (n + 1)
  end.
Definition AccessByTxid c (txid : uint256) : Coin * CCoinsViewCache V :=
  AccessByTxid_loop (Z.to_nat MAX_OUTPUTS_PER_BLOCK) c txid 0.

Definition ApplyTxInUndo (undo : Coin) c (out : COutPoint) : outcome (DisconnectResult * CCoinsViewCache V) :=
  let '(have, c) := HaveCoin c out in
  let fClean := negb have in
  let finish (undo : Coin) c :=
    c ← AddCoin c out undo (coin_fCoinBase undo);
    Done (if fClean then DISCONNECT_OK else DISCONNECT_UNCLEAN, c) in
  if coin_nHeight undo =? 0 then
    let '(alternate, c) := AccessByTxid c (hash out) in
    if IsSpent alternate then Done (DISCONNECT_FAILED, c)
    else finish (mkCoin (coin_out undo) (coin_fCoinBase alternate) (coin_nHeight alternate)) c
  else finish undo c.

(** [DisconnectBlock], the outputs of one transaction; the flag is [fClean]. *)
Fixpoint undo_outputs c (txid : uint256) (is_coinbase : bool) (nHeight : Z) (o : Z) (outs : list CTxOut) (fClean : bool)
  : bool * CCoinsViewCache V :=
  match outs with
  | [] => (fClean, c)
  | out :: outs =>
      if IsUnspendable (scriptPubKey out) then undo_outputs c txid is_coinbase nHeight (o + 1) outs fClean
      else
        let '(r, c) := SpendCoin c (mkCOutPoint txid (u32 o)) in
        let ok := match r with
                  | None => false
                  | Some x => bool_decide (out = coin_out x) && (nHeight =? coin_nHeight x) &&
                              bool_decide (is_coinbase = coin_fCoinBase x)
                  end in
        undo_outputs c txid is_coinbase nHeight (o + 1) outs (fClean && ok)
  end.

(** [DisconnectBlock], the inputs of one transaction, last one first; the
    list is the reversed pairing of the inputs with their undo records. *)
Fixpoint undo_inputs c (l : list (CTxIn * Coin)) (fClean : bool) : outcome (DisconnectResult * bool * CCoinsViewCache V) :=
  match l with
  | [] => Done (DISCONNECT_OK, fClean, c)
  | (txin, undo) :: l =>
      '(res, c) ← ApplyTxInUndo undo c (prevout txin);
      match res with
      | DISCONNECT_FAILED => Done (DISCONNECT_FAILED, fClean, c)
      | DISCONNECT_UNCLEAN => undo_inputs c l false
      | DISCONNECT_OK => undo_inputs c l fClean
      end
  end.

(** The loop over the transactions, last one first.  [vtx] and [vtxundo] are
    reversed; the last element of [vtx] is the coinbase, which has no undo. *)
Fixpoint undo_txs c (vtx : list CTransaction) (vtxundo : list (list Coin)) (nHeight : Z) (fClean : bool)
  : outcome (DisconnectResult * bool * CCoinsViewCache V) :=
  match vtx with
  | [] => Done (DISCONNECT_OK, fClean, c)
  | tx :: vtx =>
      let '(fClean, c) := undo_outputs c (GetHash tx) (IsCoinBase tx) nHeight 0 (vout tx) fClean in
      match vtx, vtxundo with
      | _ :: _, undo :: vtxundo =>
          if negb (length undo =? length (vin tx))%nat then Done (DISCONNECT_FAILED, fClean, c)
          else
            '(res, fClean, c) ← undo_inputs c (rev (zip (vin tx) undo)) fClean;
            match res with
            | DISCONNECT_FAILED => Done (DISCONNECT_FAILED, fClean, c)
            | _ => undo_txs c vtx vtxundo nHeight fClean
            end
      | _, _ => undo_txs c vtx vtxundo nHeight fClean
      end
  end.

(** The coin part of [DisconnectBlock], from the undo data read from disk to
    the best block. *)
Definition DisconnectBlock_coins c (vtx : list CTransaction) (vtxundo : list (list Coin)) (nHeight : Z) (hashPrev : uint256)
  : outcome (DisconnectResult * CCoinsViewCache V) :=
  if negb (length vtxundo + 1 =? length vtx)%nat then Done (DISCONNECT_FAILED, c)
  else
    '(res, fClean, c) ← undo_txs c (rev vtx) (rev vtxundo) nHeight true;
    match res with
    | DISCONNECT_FAILED => Done (DISCONNECT_FAILED, c)
    | _ => Done (if (fClean : bool) then DISCONNECT_OK else DISCONNECT_UNCLEAN, SetBestBlock c hashPrev)
    end.

(** The coin part of [ConnectBlock]: the undo record of the first transaction
    is a dummy. *)
Fixpoint connect_txs c (vtx : list CTransaction) (nHeight : Z) : outcome (list (list Coin) * CCoinsViewCache V) :=
  match vtx with
  | [] => Done ([], c)
  | tx :: vtx =>
      '(undo, c) ← UpdateCoins c tx nHeight;
      '(undos, c) ← connect_txs c vtx nHeight;
      Done (undo :: undos, c)
  end.
Definition ConnectBlock_coins c (vtx : list CTransaction) (nHeight : Z) : outcome (list (list Coin) * CCoinsViewCache V) :=
  '(undos, c) ← connect_txs c vtx nHeight; Done (tail undos, c).

End Ops.

(** ** The abstract ledger *)

Abbreviation utxos := (gmap COutPoint Coin).

(** Spending a list of outpoints, each of which must have a coin. *)
Fixpoint spend_all (u : utxos) (ins : list COutPoint) : option (list Coin * utxos) :=
  match ins with
  | [] => Some ([], u)
  | o :: ins => x ← u !! o; '(xs, u) ← spend_all (delete o u) ins; Some (x :: xs, u)
  end.

(** Adding the spendable outputs of a transaction, the first with index [i]. *)
Fixpoint add_all (u : utxos) (txid : uint256) (i : Z) (outs : list CTxOut) (nHeight : Z) (cb : bool) : utxos :=
  match outs with
  | [] => u
  | out :: outs =>
      add_all (if IsUnspendable (scriptPubKey out) then u else <[mkCOutPoint txid (u32 i) := Coin_of out nHeight cb]> u)
        txid (i + 1) outs nHeight cb
  end.

(** None of these outputs has a coin yet. *)
Fixpoint fresh (u : utxos) (txid : uint256) (i : Z) (outs : list CTxOut) : Prop :=
  match outs with
  | [] => True
  | out :: outs =>
      (IsUnspendable (scriptPubKey out) = false -> u !! mkCOutPoint txid (u32 i) = None) /\ fresh u txid (i + 1) outs
  end.

Lemma outpoint_ne txid i j : 0 <= i < j -> j < 2 ^ 32 -> mkCOutPoint txid (u32 i) <> mkCOutPoint txid (u32 j).
Proof. intros Hi Hj [= E]. rewrite !u32_small in E by lia. lia. Qed.

Lemma fresh_insert u txid j x outs : forall i, 0 <= j < i -> i + zlen outs <= 2 ^ 32 ->
  fresh u txid i outs -> fresh (<[mkCOutPoint txid (u32 j) := x]> u) txid i outs.
Proof.
  induction outs as [|out outs IH]; intros i Hj Hl; cbn [fresh]; [done|]. unfold zlen in *. cbn [length] in Hl.
  intros [H1 H2]. split; [|apply IH; [lia|lia|done]]. intros E.
  rewrite lookup_insert_ne by (apply outpoint_ne; lia). auto.
Qed.

Lemma lookup_add_all txid h cb j outs : forall u i, 0 <= j < i -> i + zlen outs <= 2 ^ 32 ->
  add_all u txid i outs h cb !! mkCOutPoint txid (u32 j) = u !! mkCOutPoint txid (u32 j).
Proof.
  induction outs as [|out outs IH]; intros u i Hj Hl; cbn [add_all]; [done|]. unfold zlen in *. cbn [length] in Hl.
  rewrite IH by lia. destruct (IsUnspendable _); [done|]. apply lookup_insert_ne. apply not_eq_sym, outpoint_ne; lia.
Qed.

Lemma delete_add_all txid h cb j outs : forall u i, 0 <= j < i -> i + zlen outs <= 2 ^ 32 ->
  delete (mkCOutPoint txid (u32 j)) (add_all u txid i outs h cb) =
  add_all (delete (mkCOutPoint txid (u32 j)) u) txid i outs h cb.
Proof.
  induction outs as [|out outs IH]; intros u i Hj Hl; cbn [add_all]; [done|]. unfold zlen in *. cbn [length] in Hl.
  rewrite IH by lia. destruct (IsUnspendable _); [done|]. f_equal.
  rewrite delete_insert_ne; [done|]. apply outpoint_ne; lia.
Qed.

Section Refinement.
Context `{!Crypto} {V : Type} `{!CCoinsView V} {HV : CCoinsViewOk V}.
Implicit Types c : CCoinsViewCache V.

(** One transaction at height [h]: the coins it consumes and the new set. *)
Definition out_ok (h : Z) (cb : bool) (out : CTxOut) : Prop :=
  CTxOut_IsNull out = false /\ (IsUnspendable (scriptPubKey out) = false -> coin_ok (Coin_of out h cb)).

Definition spends (u : utxos) (tx : CTransaction) (xs : list Coin) (mid : utxos) : Prop :=
  if IsCoinBase tx then xs = [] /\ mid = u else spend_all u (prevout <$> vin tx) = Some (xs, mid).

(** A coin that undo data can restore: a spendable script and a height. *)
Definition restorable (x : Coin) : Prop := IsUnspendable (scriptPubKey (coin_out x)) = false /\ coin_nHeight x <> 0.

Inductive tx_step (h : Z) (u : utxos) (tx : CTransaction) (xs : list Coin) (u' : utxos) : Prop :=
  | tx_step_intro mid :
      spends u tx xs mid ->
      Forall restorable xs ->
      Forall (out_ok h (IsCoinBase tx)) (vout tx) ->
      zlen (vout tx) <= 2 ^ 32 ->
      fresh mid (GetHash tx) 0 (vout tx) ->
      u' = add_all mid (GetHash tx) 0 (vout tx) h (IsCoinBase tx) ->
      tx_step h u tx xs u'.

Inductive block_step (h : Z) : utxos -> list CTransaction -> list (list Coin) -> utxos -> Prop :=
  | block_nil u : block_step h u [] [] u
  | block_cons u tx xs u1 txs undos u2 :
      tx_step h u tx xs u1 -> block_step h u1 txs undos u2 -> block_step h u (tx :: txs) (xs :: undos) u2.

(** *** Connecting *)

Lemma spend_inputs_ok ins : forall c xs u, cache_ok c -> spend_all (cache_utxo c) (prevout <$> ins) = Some (xs, u) ->
  exists c', spend_inputs c ins = Done (xs, c') /\ cache_ok c' /\ cache_utxo c' = u.
Proof.
  induction ins as [|i ins IH]; intros c xs u Hc; cbn [fmap list_fmap spend_all spend_inputs].
  { intros [= <- <-]. by exists c. }
  destruct (cache_utxo c !! prevout i) as [x|] eqn:Ex; [|done]. cbn [mbind option_bind].
  destruct (SpendCoin_ok c (prevout i) Hc) as (r & c1 & -> & Hc1 & Hu1 & _ & Hr & _). rewrite (Hr x Ex).
  destruct (spend_all _ _) as [[ys u1]|] eqn:Es; [|done]. cbn [mbind option_bind]. intros [= <- <-].
  destruct (IH c1 ys u1 Hc1) as (c2 & -> & Hc2 & Hu2); [by rewrite Hu1|]. exists c2. done.
Qed.

Lemma AddCoins_loop_ok txid h cb outs : forall c i, cache_ok c -> 0 <= i -> i + zlen outs <= 2 ^ 32 ->
  Forall (out_ok h cb) outs -> fresh (cache_utxo c) txid i outs ->
  exists c', AddCoins_loop c txid i outs h cb = Done c' /\ cache_ok c' /\
    cache_utxo c' = add_all (cache_utxo c) txid i outs h cb.
Proof.
  induction outs as [|out outs IH]; intros c i Hc Hi Hl Hok Hf; cbn [AddCoins_loop add_all].
  { by exists c. }
  apply Forall_cons_iff in Hok as [[Hnull Hcoin] Hok]. unfold zlen in *. cbn [length] in Hl.
  cbn [fresh] in Hf. destruct Hf as [Hf1 Hf2].
  assert (Hadd : exists c1, AddCoin c (mkCOutPoint txid (u32 i)) (Coin_of out h cb) cb = Done c1 /\ cache_ok c1 /\
    cache_utxo c1 = if IsUnspendable (scriptPubKey out) then cache_utxo c
                    else <[mkCOutPoint txid (u32 i) := Coin_of out h cb]> (cache_utxo c)).
  { destruct (IsUnspendable (scriptPubKey out)) eqn:Eu.
    - exists c. unfold AddCoin, IsSpent, Coin_of. cbn [coin_out]. by rewrite Hnull, Eu.
    - destruct (AddCoin_ok c (mkCOutPoint txid (u32 i)) (Coin_of out h cb) cb Hc Hnull (Hcoin eq_refl)) as (c1 & -> & Hc1 & _ & Hu1);
        [auto|]. exists c1. split; [done|]. split; [done|]. rewrite Hu1. cbn [Coin_of coin_out]. by rewrite Eu. }
  destruct Hadd as (c1 & -> & Hc1 & Hu1). cbn [mbind outcome_bind].
  destruct (IH c1 (i + 1) Hc1 ltac:(lia) ltac:(lia) Hok) as (c2 & -> & Hc2 & Hu2).
  - rewrite Hu1. destruct (IsUnspendable _); [done|]. apply fresh_insert; [lia|unfold zlen; lia|done].
  - exists c2. by rewrite Hu2, Hu1.
Qed.

Lemma UpdateCoins_spec c tx h xs mid : cache_ok c -> spends (cache_utxo c) tx xs mid ->
  Forall (out_ok h (IsCoinBase tx)) (vout tx) -> zlen (vout tx) <= 2 ^ 32 -> fresh mid (GetHash tx) 0 (vout tx) ->
  exists c', UpdateCoins c tx h = Done (xs, c') /\ cache_ok c' /\ cache_utxo c' = add_all mid (GetHash tx) 0 (vout tx) h (IsCoinBase tx).
Proof.
  intros Hc Hs Hok Hl Hf. unfold UpdateCoins, spends in *.
  assert (H1 : exists c1, (if IsCoinBase tx then Done ([], c) else spend_inputs c (vin tx)) = Done (xs, c1) /\
    cache_ok c1 /\ cache_utxo c1 = mid).
  { destruct (IsCoinBase tx); [destruct Hs as [-> ->]; by exists c|]. by apply spend_inputs_ok. }
  destruct H1 as (c1 & -> & Hc1 & Hu1). cbn [mbind outcome_bind]. unfold AddCoins.
  destruct (AddCoins_loop_ok (GetHash tx) h (IsCoinBase tx) (vout tx) c1 0 Hc1) as (c2 & -> & Hc2 & Hu2);
    [lia|lia|done|by rewrite Hu1|]. exists c2. by rewrite Hu2, Hu1.
Qed.

Lemma UpdateCoins_ok c tx h xs u' : cache_ok c -> tx_step h (cache_utxo c) tx xs u' ->
  exists c', UpdateCoins c tx h = Done (xs, c') /\ cache_ok c' /\ cache_utxo c' = u'.
Proof. intros Hc [mid Hs _ Hok Hl Hf ->]. by apply UpdateCoins_spec. Qed.

Lemma connect_txs_ok h txs undos u u' : block_step h u txs undos u' -> forall c, cache_ok c -> cache_utxo c = u ->
  exists c', connect_txs c txs h = Done (undos, c') /\ cache_ok c' /\ cache_utxo c' = u'.
Proof.
  induction 1 as [u|u tx xs u1 txs undos u2 Hstep Hblock IH]; intros c Hc Hu; cbn [connect_txs].
  { by exists c. }
  subst u. destruct (UpdateCoins_ok c tx h xs u1 Hc Hstep) as (c1 & -> & Hc1 & Hu1). cbn [mbind outcome_bind].
  destruct (IH c1 Hc1 Hu1) as (c2 & -> & Hc2 & Hu2). by exists c2.
Qed.

End Refinement.

(** *** Disconnecting *)

Section Undo.
Context `{!Crypto} {V : Type} `{!CCoinsView V} {HV : CCoinsViewOk V}.
Implicit Types c : CCoinsViewCache V.

Lemma undo_outputs_ok txid h cb fClean outs : 0 <= h < 2 ^ 31 -> forall c i u, cache_ok c -> 0 <= i -> i + zlen outs <= 2 ^ 32 ->
  fresh u txid i outs -> cache_utxo c = add_all u txid i outs h cb ->
  exists c', undo_outputs c txid cb h i outs fClean = (fClean, c') /\ cache_ok c' /\ cache_utxo c' = u.
Proof.
  intros Hh. induction outs as [|out outs IH]; intros c i u Hc Hi Hl Hf Hu; cbn [undo_outputs].
  { by exists c. }
  unfold zlen in *. cbn [length] in Hl. cbn [fresh add_all] in Hf, Hu. destruct Hf as [Hf1 Hf2].
  destruct (IsUnspendable (scriptPubKey out)) eqn:Eu; [apply IH; (done || lia)|].
  set (o := mkCOutPoint txid (u32 i)) in *.
  destruct (SpendCoin_ok c o Hc) as (r & c1 & -> & Hc1 & Hu1 & _ & Hr & _).
  assert (Hx : r = Some (Coin_of out h cb)).
  { apply Hr. rewrite Hu. unfold o. rewrite lookup_add_all by (unfold zlen; lia). apply lookup_insert_eq. }
  rewrite Hx. unfold Coin_of. cbn [coin_out coin_nHeight coin_fCoinBase].
  rewrite (Z.mod_small h), Z.eqb_refl, !bool_decide_true by done. cbn [andb]. rewrite andb_true_r.
  apply IH; [done|lia|lia|done|]. rewrite Hu1, Hu. unfold o. rewrite delete_add_all by (unfold zlen; lia).
  by rewrite delete_insert_id by auto.
Qed.

Lemma ApplyTxInUndo_ok c o x : cache_ok c -> cache_utxo c !! o = None -> IsSpent x = false -> coin_ok x -> restorable x ->
  exists c', ApplyTxInUndo x c o = Done (DISCONNECT_OK, c') /\ cache_ok c' /\ cache_utxo c' = <[o := x]> (cache_utxo c).
Proof.
  intros Hc Hn Hx HP [Hus Hh]. unfold ApplyTxInUndo.
  destruct (HaveCoin_ok c o Hc) as (c1 & -> & Hc1 & Hu1 & _ & _). rewrite Hn. rewrite bool_decide_false by (by intros [? ?]).
  rewrite (proj2 (Z.eqb_neq _ _) Hh).
  destruct (AddCoin_ok c1 o x (coin_fCoinBase x) Hc1 Hx HP) as (c2 & -> & Hc2 & _ & Hu2); [by rewrite Hu1|].
  cbn [mbind outcome_bind negb]. exists c2. rewrite Hu2, Hus, Hu1. done.
Qed.

Lemma undo_inputs_app l1 : forall l2 c fClean,
  undo_inputs c (l1 ++ l2) fClean =
  ('(res, fClean, c) ← undo_inputs c l1 fClean;
   match res with DISCONNECT_FAILED => Done (DISCONNECT_FAILED, fClean, c) | _ => undo_inputs c l2 fClean end).
Proof.
  induction l1 as [|[i x] l1 IH]; intros l2 c fClean; cbn [app undo_inputs]; [done|].
  destruct (ApplyTxInUndo x c (prevout i)) as [[[] c1]| |]; cbn [mbind outcome_bind]; try done; apply IH.
Qed.

Lemma undo_inputs_ok fClean ins : forall c u xs u1, cache_ok c -> cache_utxo c = u1 ->
  (forall o x, u !! o = Some x -> IsSpent x = false /\ coin_ok x) ->
  spend_all u (prevout <$> ins) = Some (xs, u1) -> Forall restorable xs ->
  length xs = length ins /\
  exists c', undo_inputs c (rev (zip ins xs)) fClean = Done (DISCONNECT_OK, fClean, c') /\ cache_ok c' /\ cache_utxo c' = u.
Proof.
  induction ins as [|i ins IH]; intros c u xs u1 Hc Hu Hall; cbn [fmap list_fmap spend_all].
  { intros [= <- <-] _. split; [done|]. by exists c. }
  destruct (u !! prevout i) as [x|] eqn:Ex; [|done]. cbn [mbind option_bind].
  destruct (spend_all _ _) as [[ys u2]|] eqn:Es; [|done]. cbn [mbind option_bind]. intros [= <- ->] Hr.
  apply Forall_cons_iff in Hr as [Hrx Hr].
  destruct (IH c (delete (prevout i) u) ys u1 Hc Hu) as [Hlen (c1 & Hdo & Hc1 & Hu1)]; [|done|done|].
  { intros o y. rewrite lookup_delete_Some. intros [_ ?]. by apply (Hall o). }
  split; [cbn [length]; by rewrite Hlen|].
  change (zip (i :: ins) (x :: ys)) with ((i, x) :: zip ins ys). cbn [rev]. rewrite undo_inputs_app, Hdo.
  cbn [mbind outcome_bind undo_inputs]. destruct (Hall _ _ Ex) as [Hx1 Hx2].
  destruct (ApplyTxInUndo_ok c1 (prevout i) x Hc1) as (c2 & -> & Hc2 & Hu2); [by rewrite Hu1, lookup_delete_eq|done..|].
  cbn [mbind outcome_bind]. exists c2. split; [done|]. split; [done|].
  by rewrite Hu2, Hu1, insert_delete_eq, insert_id.
Qed.

(** Every coin of the set is unspent and acceptable to the view. *)
Definition coins_ok (u : utxos) : Prop := forall o x, u !! o = Some x -> IsSpent x = false /\ coin_ok x.

Lemma coins_ok_delete u o : coins_ok u -> coins_ok (delete o u).
Proof. intros Hall o' x. rewrite lookup_delete_Some. intros [_ Hx]. by apply (Hall o'). Qed.

Lemma spend_all_coins_ok ins : forall u xs u1, spend_all u ins = Some (xs, u1) -> coins_ok u -> coins_ok u1.
Proof.
  induction ins as [|o ins IH]; intros u xs u1; cbn [spend_all]; [by intros [= _ <-]|].
  destruct (u !! o); [|done]. cbn [mbind option_bind].
  destruct (spend_all (delete o u) ins) as [[ys u2]|] eqn:E; [|done]. cbn [mbind option_bind]. intros [= _ <-] Hall.
  eapply IH; [done|]. by apply coins_ok_delete.
Qed.

Lemma add_all_coins_ok txid h cb outs : forall u i, Forall (out_ok h cb) outs -> coins_ok u ->
  coins_ok (add_all u txid i outs h cb).
Proof.
  induction outs as [|out outs IH]; intros u i Hok Hall; cbn [add_all]; [done|].
  apply Forall_cons_iff in Hok as [[Hnull Hcoin] Hok]. apply IH; [done|].
  destruct (IsUnspendable (scriptPubKey out)) eqn:Eu; [done|].
  intros o x. rewrite lookup_insert_Some. intros [[_ <-]|[_ Hx]]; [split; [done|auto]|by apply (Hall o)].
Qed.

Lemma tx_step_coins_ok h u tx xs u' : tx_step h u tx xs u' -> coins_ok u -> coins_ok u'.
Proof.
  intros [mid Hs _ Hok _ _ ->] Hall. apply add_all_coins_ok; [done|]. unfold spends in Hs.
  destruct (IsCoinBase tx); [by destruct Hs as [_ ->]|]. by eapply spend_all_coins_ok.
Qed.

(** All transactions but the first, last one first. *)
Lemma undo_txs_ok h fClean : 0 <= h < 2 ^ 31 -> forall u txs undos u', block_step h u txs undos u' -> coins_ok u ->
  Forall (fun tx => IsCoinBase tx = false) txs -> forall c, cache_ok c -> cache_utxo c = u' ->
  length undos = length txs /\
  exists c', cache_ok c' /\ cache_utxo c' = u /\ forall rest restundo, rest <> [] ->
    undo_txs c (rev txs ++ rest) (rev undos ++ restundo) h fClean = undo_txs c' rest restundo h fClean.
Proof.
  intros Hh u txs undos u' Hb Hall Hncb. revert Hall Hncb.
  induction Hb as [u|u tx xs u1 txs undos u2 Hstep Hblock IH]; intros Hall Hncb c Hc Hu.
  { split; [done|]. by exists c. }
  apply Forall_cons_iff in Hncb as [Hn Hncb].
  destruct (IH (tx_step_coins_ok _ _ _ _ _ Hstep Hall) Hncb c Hc Hu) as (Hlen & c1 & Hc1 & Hu1 & Hdo).
  destruct Hstep as [mid Hs Hr Hok Hl Hf E1]. unfold spends in Hs. rewrite Hn in Hs, Hok, E1. rewrite E1 in Hu1.
  destruct (undo_outputs_ok (GetHash tx) h false fClean (vout tx) Hh c1 0 mid Hc1) as (c2 & H2 & Hc2 & Hu2); [lia|lia|done|done|].
  destruct (undo_inputs_ok fClean (vin tx) c2 u xs mid Hc2 Hu2 Hall Hs Hr) as (Hxl & c3 & H3 & Hc3 & Hu3).
  split; [cbn [length]; by rewrite Hlen|]. exists c3. split; [done|]. split; [done|]. intros rest restundo Hrest.
  cbn [rev]. rewrite <- !app_assoc. cbn [app]. rewrite Hdo by done. cbn [undo_txs]. rewrite Hn, H2.
  destruct rest as [|t rest]; [done|]. rewrite Hxl, Nat.eqb_refl. cbn [negb]. rewrite H3. done.
Qed.

End Undo.

(** C3: disconnecting a block undoes it.  When a block of a coinbase and other
    transactions steps the abstract ledger from the coins a cache shows, the
    update of the cache succeeds and reaches the new set; and undoing the
    block with the undo records so produced reports a clean disconnect, brings
    back exactly the coins from before the block, and makes the parent the
    best block. *)
Theorem connect_disconnect `{!Crypto} {V : Type} `{!CCoinsView V} {HV : CCoinsViewOk V}
  (c : CCoinsViewCache V) h coinbase txs xs undos u' hashPrev
  (Hc : cache_ok c) (Hh : 0 <= h < 2 ^ 31)
  (Hcb : IsCoinBase coinbase = true) (Hncb : Forall (fun tx => IsCoinBase tx = false) txs)
  (Hstep : block_step h (cache_utxo c) (coinbase :: txs) (xs :: undos) u') :
  exists c1, ConnectBlock_coins c (coinbase :: txs) h = Done (undos, c1) /\ cache_ok c1 /\ cache_utxo c1 = u' /\
  exists c2, DisconnectBlock_coins c1 (coinbase :: txs) undos h hashPrev = Done (DISCONNECT_OK, c2) /\
    cache_ok c2 /\ cache_utxo c2 = cache_utxo c /\ hashBlock c2 = hashPrev.
Proof.
  destruct (connect_txs_ok h _ _ _ _ Hstep c Hc eq_refl) as (c1 & H1 & Hc1 & Hu1).
  exists c1. unfold ConnectBlock_coins. rewrite H1. split; [done|]. split; [done|]. split; [done|].
  inversion Hstep as [|? ? ? u1 ? ? ? Hs Hb]; subst.
  assert (Hall : coins_ok (cache_utxo c)) by (intros o x; by apply cache_utxo_ok).
  destruct (undo_txs_ok h true Hh u1 txs undos _ Hb (tx_step_coins_ok _ _ _ _ _ Hs Hall) Hncb c1 Hc1 eq_refl)
    as (Hlen & c2 & Hc2 & Hu2 & Hdo).
  destruct Hs as [mid Hsp Hr Hok Hl Hf E1]. unfold spends in Hsp. rewrite Hcb in *. destruct Hsp as [_ ->]. rewrite E1 in Hu2.
  destruct (undo_outputs_ok (GetHash coinbase) h true true (vout coinbase) Hh c2 0 (cache_utxo c) Hc2) as (c3 & H3 & Hc3 & Hu3);
    [lia|lia|done|done|].
  unfold DisconnectBlock_coins. cbn [length]. rewrite Hlen, Nat.add_1_r, Nat.eqb_refl. cbn [negb rev].
  rewrite <- (app_nil_r (rev undos)), Hdo by done. cbn [undo_txs]. rewrite Hcb, H3. cbn [mbind outcome_bind].
  eexists. split; [done|]. done.
Qed.

(** Restoring over an existing coin throws.  [ApplyTxInUndo] notices that
    the outpoint already has a coin and means to report an unclean
    disconnect, but it passes the coinbase flag as the permission to
    overwrite: for the coin of any other transaction [AddCoin] throws. *)
Theorem ApplyTxInUndo_overwrite_throws {V : Type} `{!CCoinsView V} {HV : CCoinsViewOk V}
  (c : CCoinsViewCache V) o x y
  (Hc : cache_ok c) (Hy : cache_utxo c !! o = Some y) (Hx : IsSpent x = false) (Hr : restorable x)
  (Hcb : coin_fCoinBase x = false) :
  ApplyTxInUndo x c o = LogicError.
Proof.
  destruct (HaveCoin_ok c o Hc) as (c1 & Hhave & Hc1 & Hu1 & _ & Hin). unfold ApplyTxInUndo. rewrite Hhave.
  specialize (Hin ltac:(eauto)). destruct Hr as [Hus Hh]. rewrite (proj2 (Z.eqb_neq _ _) Hh).
  unfold AddCoin. rewrite Hx, Hus, Hcb. unfold HaveCoinInCache in Hin.
  destruct (cacheCoins c1 !! o) as [e|]; [|done]. cbn [from_option id negb andb]. by rewrite Hin.
Qed.

(** *** A block on the sample cache *)

#[local] Existing Instance toy_curve.
#[local] Existing Instance toy_curve_ok.
#[local] Existing Instance toy_crypto.

Definition sample_coinbase : CTransaction :=
  mkCTransaction 1 [mkCTxIn COutPoint_SetNull [OP_1] 0] [mkCTxOut 100 [OP_1] (-10)] 0.
Definition sample_spend : CTransaction :=
  mkCTransaction 1 [mkCTxIn sample_outpoint [] 0] [mkCTxOut 4000 [OP_DUP] (-10); mkCTxOut 0 [OP_RETURN] (-10)] 0.

Ltac storable := split; [done|]; intros _; unfold coin_ok, CCoinsViewCache_ok, CCoinsViewDB_ok, coin_storable; vm_compute; intuition congruence.

Lemma connect_disconnect_witness :
  exists c1, ConnectBlock_coins sample_cache [sample_coinbase; sample_spend] 9 = Done ([[sample_coin]], c1) /\
  exists c2, DisconnectBlock_coins c1 [sample_coinbase; sample_spend] [[sample_coin]] 9 (repeat 9 32) = Done (DISCONNECT_OK, c2) /\
    cache_utxo c2 = cache_utxo sample_cache.
Proof.
  destruct (connect_disconnect sample_cache 9 sample_coinbase [sample_spend] [] [[sample_coin]]
    (add_all (delete sample_outpoint (add_all (cache_utxo sample_cache) (GetHash sample_coinbase) 0 (vout sample_coinbase) 9 true))
      (GetHash sample_spend) 0 (vout sample_spend) 9 false) (repeat 9 32)) as (c1 & H1 & _ & _ & c2 & H2 & _ & H3 & _).
  - exact sample_cache_ok.
  - lia.
  - reflexivity.
  - by constructor.
  - assert (E1 : IsCoinBase sample_coinbase = true) by reflexivity.
    assert (E2 : IsCoinBase sample_spend = false) by reflexivity.
    eapply block_cons; [|eapply block_cons; [|apply block_nil]].
    + apply (tx_step_intro _ _ _ _ _ (cache_utxo sample_cache)); rewrite ?E1.
      * unfold spends. rewrite E1. split; reflexivity.
      * constructor.
      * constructor; [storable|constructor].
      * vm_compute. congruence.
      * vm_compute. split; [reflexivity|exact I].
      * reflexivity.
    + apply (tx_step_intro _ _ _ _ _ (delete sample_outpoint (add_all (cache_utxo sample_cache)
        (GetHash sample_coinbase) 0 (vout sample_coinbase) 9 true))); rewrite ?E2.
      * assert (L : add_all (cache_utxo sample_cache) (GetHash sample_coinbase) 0 (vout sample_coinbase) 9 true
          !! sample_outpoint = Some sample_coin) by (vm_compute; reflexivity).
        unfold spends. rewrite E2. change (prevout <$> vin sample_spend) with [sample_outpoint].
        cbn [spend_all]. rewrite L. reflexivity.
      * constructor; [vm_compute; split; congruence|constructor].
      * constructor; [storable|constructor; [|constructor]]. split; [reflexivity|]. vm_compute. congruence.
      * vm_compute. congruence.
      * vm_compute. split; [reflexivity|]. split; [congruence|exact I].
      * reflexivity.
  - exists c1. split; [exact H1|]. exists c2. split; [exact H2|exact H3].
Defined.

Lemma ApplyTxInUndo_overwrite_throws_witness :
  ApplyTxInUndo (mkCoin (mkCTxOut 1 [OP_1] (-10)) false 3) sample_cache sample_outpoint = LogicError.
Proof.
  apply (ApplyTxInUndo_overwrite_throws sample_cache sample_outpoint _ sample_coin); [exact sample_cache_ok|by vm_compute..].
Defined.

End Ledger.
