(* ===== verification/TxVerify.v ===== *)
(** * Transaction rules (validation.cpp, consensus/validation.h, fluid/fluid.cpp)

    Lock times, relative locks, signature-operation counts and the two checks
    of a transaction: [CheckTransaction] on its own and [CheckTxInputs]
    against the coins.  The parts of the fluid and BDAP protocols that these
    functions consult (signed instructions, records in databases, the use of
    credits) are the operations of the class [Protocols]. *)

From stdpp Require Import base list list_numbers numbers option gmap fin_maps strings.
From Stdlib Require Import ZArith Lia.
From S2P Require Import Prelude Serialize Script Transaction Interpreter InterpreterSafety SigHash Standard Chain Compressor Coins Ledger.

Local Open Scope Z_scope.

Module TxVerify.
Import Serialize Script Transaction Interpreter InterpreterSafety SigHash Standard Coins Ledger.

Definition MAX_TX_SIZE : Z := 786432.
Definition BDAP_TX_VERSION : Z := 0x3500.
Definition FLUID_ACTIVATE_HEIGHT : Z := 10.
Definition FLUID_TRANSACTION_COST : Z := 1000000 * COIN.
Definition LOCKTIME_VERIFY_SEQUENCE : Z := 1.

(** What a rejection leaves in [CValidationState]: the DoS points, the code
    and the reason. *)
Record rejection : Type := DoS {
  nDoS : Z;
  chRejectCode : Z;
  strRejectReason : string
}.
Definition REJECT_INVALID : Z := 0x10.

(** The fluid and BDAP operations consulted here. *)
Class Protocols : Type := {
  ProvisionalCheckTransaction : CTransaction -> bool;
  CheckFluidOperationScript : CScript -> Z -> bool;
  (** [fluid.ValidationProcesses] *)
  ValidationProcesses : CScript -> Z -> bool;
  (** the standard and credit amounts in and out, and the burned data *)
  CheckBDAPTxCreditUsage : CTransaction -> list Coin -> Z -> Z -> Z -> Z -> Z -> bool
}.

Definition protocol (script : CScript) (code : Z) : bool := default false (IsProtocolInstruction script code).

(** [IsTransactionFluid] of a script, and the first fluid script of a
    transaction. *)
Definition IsTransactionFluid (script : CScript) : bool :=
  protocol script MINT_TX || protocol script MASTERNODE_MODFIY_TX || protocol script MINING_MODIFY_TX ||
  protocol script BDAP_REVOKE_TX.

Fixpoint fluid_script (vout : list CTxOut) : option CScript :=
  match vout with
  | [] => None
  | out :: vout => if IsTransactionFluid (scriptPubKey out) then Some (scriptPubKey out) else fluid_script vout
  end.

(** ** Lock times *)

Definition IsFinalTx `{!Protocols} (tx : CTransaction) (nBlockHeight nBlockTime : Z) : bool :=
  if nLockTime tx =? 0 then true
  else if nLockTime tx <? (if nLockTime tx <? LOCKTIME_THRESHOLD then nBlockHeight else nBlockTime) then true
  else if (nBlockHeight >=? FLUID_ACTIVATE_HEIGHT) &&
          (negb (ProvisionalCheckTransaction tx) ||
           match fluid_script (vout tx) with
           | Some s => negb (CheckFluidOperationScript s nBlockTime)
           | None => false
           end) then false
  else forallb (fun i => nSequence i =? SEQUENCE_FINAL) (vin tx).

(** The loop of [CalculateSequenceLocks] over the inputs and the heights of
    their coins, on a block [p] of the tree [T].  [None] is a null ancestor. *)
Fixpoint sequence_locks_loop (T : gmap nat Chain.CBlockIndex) (p : nat) (vin : list CTxIn) (prevHeights : list Z)
  (nMinHeight nMinTime : Z) : option (Z * Z) :=
  match vin, prevHeights with
  | txin :: vin, nCoinHeight :: prevHeights =>
      if negb (Z.land (nSequence txin) SEQUENCE_LOCKTIME_DISABLE_FLAG =? 0) then
        sequence_locks_loop T p vin prevHeights nMinHeight nMinTime
      else
        let n := Z.land (nSequence txin) SEQUENCE_LOCKTIME_MASK in
        if negb (Z.land (nSequence txin) SEQUENCE_LOCKTIME_TYPE_FLAG =? 0) then
          a ← Chain.GetAncestor T p (Z.max (nCoinHeight - 1) 0);
          q ← a;
          nCoinTime ← Chain.GetMedianTimePast T q;
          sequence_locks_loop T p vin prevHeights nMinHeight
            (Z.max nMinTime (nCoinTime + Z.shiftl n SEQUENCE_LOCKTIME_GRANULARITY - 1))
        else sequence_locks_loop T p vin prevHeights (Z.max nMinHeight (nCoinHeight + n - 1)) nMinTime
  | _, _ => Some (nMinHeight, nMinTime)
  end.

Definition CalculateSequenceLocks (T : gmap nat Chain.CBlockIndex) (tx : CTransaction) (flags : Z) (prevHeights : list Z)
  (block : nat) : option (Z * Z) :=
  if negb (length prevHeights =? length (vin tx))%nat then None
  else if negb ((u32 (nVersion tx) >=? 2) && negb (Z.land flags LOCKTIME_VERIFY_SEQUENCE =? 0)) then Some (-1, -1)
  else sequence_locks_loop T block (vin tx) prevHeights (-1) (-1).

Definition EvaluateSequenceLocks (T : gmap nat Chain.CBlockIndex) (block : nat) (lockPair : Z * Z) : option bool :=
  b ← T !! block;
  q ← Chain.pprev b;
  nBlockTime ← Chain.GetMedianTimePast T q;
  Some (negb ((lockPair.1 >=? Chain.nHeight b) || (lockPair.2 >=? nBlockTime))).

Definition SequenceLocks (T : gmap nat Chain.CBlockIndex) (tx : CTransaction) (flags : Z) (prevHeights : list Z)
  (block : nat) : option bool :=
  lockPair ← CalculateSequenceLocks T tx flags prevHeights block;
  EvaluateSequenceLocks T block lockPair.

(** ** Signature operations *)

Definition GetLegacySigOpCount (tx : CTransaction) : Z :=
  u32 (foldl (fun n i => n + GetSigOpCount (scriptSig i) false) 0 (vin tx) +
       foldl (fun n o => n + GetSigOpCount (scriptPubKey o) false) 0 (vout tx)).

(** ** [CheckTransaction] *)

(** The sums kept by the loop over the outputs. *)
Record out_sums : Type := mkSums {
  nValueOut : Z;
  nStandardOut : Z;
  nCreditsOut : Z;
  nDataBurned : Z;
  outBDAP : bool
}.

Section Checks.
Context `{!Protocols} {V : Type} `{!CCoinsView V}.
Implicit Types c : CCoinsViewCache V.

Fixpoint check_outputs (vout : list CTxOut) (s : out_sums) : rejection + out_sums :=
  match vout with
  | [] => inr s
  | txout :: vout =>
      let v := nValue txout in
      if v <? 0 then inl (DoS 100 REJECT_INVALID "bad-txns-vout-negative")
      else if v >? MAX_MONEY then inl (DoS 100 REJECT_INVALID "bad-txns-vout-toolarge")
      else
        let nValueOut := i64 (nValueOut s + v) in
        if negb (MoneyRange nValueOut) then inl (DoS 100 REJECT_INVALID "bad-txns-txouttotal-toolarge")
        else if IsTransactionFluid (scriptPubKey txout) && (FLUID_TRANSACTION_COST >? v) then
          inl (DoS 100 REJECT_INVALID "bad-txns-fluid-vout-amount-toolow")
        else if IsTransactionFluid (scriptPubKey txout) && negb (ValidationProcesses (scriptPubKey txout) v) then
          inl (DoS 100 REJECT_INVALID "bad-txns-fluid-validate-failure")
        else
          check_outputs vout
            (if IsBDAP txout then
               mkSums nValueOut (nStandardOut s) (i64 (nCreditsOut s + v)) (nDataBurned s) true
             else if IsData txout then
               mkSums nValueOut (nStandardOut s) (nCreditsOut s) (i64 (nDataBurned s + v)) (outBDAP s)
             else
               mkSums nValueOut (i64 (nStandardOut s + v)) (nCreditsOut s) (nDataBurned s) (outBDAP s))
  end.

(** The set of outpoints seen so far. *)
Fixpoint inputs_distinct (vin : list CTxIn) (seen : gset COutPoint) : bool :=
  match vin with
  | [] => true
  | txin :: vin =>
      if decide (prevout txin ∈ seen) then false else inputs_distinct vin ({[ prevout txin ]} ∪ seen)
  end.

(** The loop over the inputs of other transactions: the BDAP coins, the sums
    [nStandardIn] and [nCreditsIn] and whether a BDAP coin was seen.  Each
    round reads through a fresh cache on [pcoinsTip]. *)
Fixpoint check_inputs c (vin : list CTxIn) (coins : list Coin) (nStandardIn nCreditsIn : Z)
  : rejection + (list Coin * Z * Z * CCoinsViewCache V) :=
  match vin with
  | [] => inr (coins, nStandardIn, nCreditsIn, c)
  | txin :: vin =>
      if COutPoint_IsNull (prevout txin) then inl (DoS 10 REJECT_INVALID "bad-txns-prevout-null")
      else
        let '(x, view) := AccessCoin (new_cache c) (prevout txin) in
        if IsBDAP (coin_out x) then
          check_inputs (base view) vin (coins ++ [x]) nStandardIn (i64 (nCreditsIn + nValue (coin_out x)))
        else check_inputs (base view) vin coins (i64 (nStandardIn + nValue (coin_out x))) nCreditsIn
  end.

(** [pcoinsTip] is the cache [c]. *)
Definition CheckTransaction c (tx : CTransaction) : rejection + CCoinsViewCache V :=
  match vin tx with
  | [] => inl (DoS 10 REJECT_INVALID "bad-txns-vin-empty")
  | txin0 :: _ =>
  if bool_decide (vout tx = []) then inl (DoS 10 REJECT_INVALID "bad-txns-vout-empty")
  else if GetTotalSize tx >? MAX_TX_SIZE then inl (DoS 100 REJECT_INVALID "bad-txns-oversize")
  else
    match check_outputs (vout tx) (mkSums 0 0 0 0 false) with
    | inl r => inl r
    | inr s =>
    if negb (inputs_distinct (vin tx) ∅) then inl (DoS 100 REJECT_INVALID "bad-txns-inputs-duplicate")
    else
      match (if IsCoinBase tx then
               if (zlen (scriptSig txin0) <? 2) || (zlen (scriptSig txin0) >? 100)
               then inl (DoS 100 REJECT_INVALID "bad-cb-length")
               else inr ([], 0, 0, c)
             else check_inputs c (vin tx) [] 0 0) with
      | inl r => inl r
      | inr (vBdapCoins, nStandardIn, nCreditsIn, c) =>
      let fIsBDAP := outBDAP s || negb (bool_decide (vBdapCoins = [])) in
      if IsCoinBase tx && (nVersion tx =? BDAP_TX_VERSION) then inl (DoS 100 REJECT_INVALID "bdap-tx-can-not-be-coinbase")
      else if fIsBDAP && negb (nVersion tx =? BDAP_TX_VERSION) then inl (DoS 100 REJECT_INVALID "incorrect-bdap-tx-version")
      else if fIsBDAP && negb (CheckBDAPTxCreditUsage tx vBdapCoins nStandardIn nCreditsIn (nStandardOut s) (nCreditsOut s) (nDataBurned s))
      then inl (DoS 100 REJECT_INVALID "bad-bdap-credit-use")
      else inr c
      end
    end
  end.

(** ** [Consensus::CheckTxInputs] *)

(** The loop over the inputs: the value in; [AssertError] when a coin is
    missing. *)
Fixpoint tx_inputs_loop c (vin : list CTxIn) (nSpendHeight nValueIn : Z)
  : outcome (rejection + (Z * CCoinsViewCache V)) :=
  match vin with
  | [] => Done (inr (nValueIn, c))
  | txin :: vin =>
      let '(x, c) := AccessCoin c (prevout txin) in
      if IsSpent x then AssertError
      else if coin_fCoinBase x && (nSpendHeight - coin_nHeight x <? COINBASE_MATURITY) then
        Done (inl (DoS 0 REJECT_INVALID "bad-txns-premature-spend-of-coinbase"))
      else
        let nValueIn := i64 (nValueIn + nValue (coin_out x)) in
        if negb (MoneyRange (nValue (coin_out x))) || negb (MoneyRange nValueIn) then
          Done (inl (DoS 100 REJECT_INVALID "bad-txns-inputvalues-outofrange"))
        else tx_inputs_loop c vin nSpendHeight nValueIn
  end.

(** [CheckTxInputs]; [LogicError] also stands for the exception of
    [GetValueOut]. *)
Definition CheckTxInputs c (tx : CTransaction) (nSpendHeight : Z) : outcome (rejection + CCoinsViewCache V) :=
  let '(have, c) := HaveInputs c tx in
  if negb have then Done (inl (DoS 0 0 ""))
  else
    r ← tx_inputs_loop c (vin tx) nSpendHeight 0;
    match r with
    | inl r => Done (inl r)
    | inr (nValueIn, c) =>
        match GetValueOut tx with
        | None => LogicError
        | Some out =>
            if nValueIn <? out then Done (inl (DoS 100 REJECT_INVALID "bad-txns-in-belowout"))
            else
              let nTxFee := i64 (nValueIn - out) in
              if nTxFee <? 0 then Done (inl (DoS 100 REJECT_INVALID "bad-txns-fee-negative"))
              else if negb (MoneyRange nTxFee) then Done (inl (DoS 100 REJECT_INVALID "bad-txns-fee-outofrange"))
              else Done (inr c)
        end
    end.

(** [GetP2SHSigOpCount]. *)
Fixpoint p2sh_sigops c (vin : list CTxIn) (nSigOps : Z) : outcome (Z * CCoinsViewCache V) :=
  match vin with
  | [] => Done (nSigOps, c)
  | txin :: vin =>
      let '(x, c) := AccessCoin c (prevout txin) in
      if IsSpent x then AssertError
      else
        let s := scriptPubKey (coin_out x) in
        p2sh_sigops c vin (if IsPayToScriptHash s then u32 (nSigOps + GetSigOpCount_P2SH s (scriptSig txin)) else nSigOps)
  end.
Definition GetP2SHSigOpCount c (tx : CTransaction) : outcome (Z * CCoinsViewCache V) :=
  if IsCoinBase tx then Done (0, c) else p2sh_sigops c (vin tx) 0.

End Checks.

(** ** Time locks *)

Lemma CScriptNum_lax v sz x : CScriptNum v true sz = Some x -> CScriptNum v false sz = Some x.
Proof. unfold CScriptNum. destruct (zlen v >? sz); [done|]. cbn [andb]. by case_match. Qed.

Lemma serialize_decodes m x : 0 <= x < 2 ^ 39 -> CScriptNum (serialize x) m 5 = Some x.
Proof.
  intros Hx. destruct (scriptnum_decode x 5 ltac:(lia) ltac:(change (8 * 5 - 1) with 39; lia)) as [Hd _].
  destruct m; [done|by apply CScriptNum_lax].
Qed.

Section Locks.
Context `{!Crypto} `{!BaseSignatureChecker}.

Lemma catch_all_Ret {A} (r : result A) a : catch_all r = Ret a -> r = Ret a.
Proof. by destruct r. Qed.

(** A script that starts with a push and an executed instruction succeeds
    only if that instruction succeeds with the data on top of the stack. *)
Lemma push_then_exec d o rest flags s s' : zlen d < 2 ^ 32 -> OP_16 < o -> is_disabled o = false ->
  EvalScript (push_bytes [] d ++ o :: rest) flags s = Ret s' ->
  exists p st, exec_op (push_bytes [] d ++ o :: rest) flags o true (mkEvalState p (d :: s) [] [] 1 0) = Ret st.
Proof.
  intros Hd Ho Hdis. set (script := push_bytes [] d ++ o :: rest).
  assert (Hlen : exists f, length script = S (S f)).
  { unfold script. rewrite length_app. cbn [length]. assert (push_bytes [] d <> []).
    { unfold push_bytes. by repeat case_match. }
    destruct (push_bytes [] d) as [|b l]; [done|]. exists (length l + length rest)%nat. cbn [length]. lia. }
  destruct Hlen as [f Hf].
  pose proof (GetOp2_at [] script (push_code d) d (o :: rest) (next_op_push d (o :: rest) Hd)) as Hop1.
  cbn [app length Nat.add] in Hop1. set (p1 := (length script - S (length rest))%nat) in *.
  assert (Hp1 : p1 = length (push_bytes [] d)).
  { unfold p1, script. rewrite length_app. cbn [length]. lia. }
  assert (Hop2 : GetOp2 script p1 = OpRead true (p1 + 1) o []).
  { rewrite Hp1. unfold script. rewrite (GetOp2_at (push_bytes [] d) (o :: rest) o [] rest).
    - f_equal. cbn [length]. lia.
    - cbn [next_op]. rewrite (proj2 (Z.leb_gt o OP_PUSHDATA4)); [done|]. unfold OP_16, OP_PUSHDATA4 in *. lia. }
  unfold EvalScript. destruct (zlen script >? MAX_SCRIPT_SIZE); [done|]. rewrite Hf.
  destruct (catch_all _) as [st| | |] eqn:Ec; try done. intros _. apply catch_all_Ret in Ec.
  cbn [eval_loop pc] in Ec. rewrite (proj2 (Nat.leb_gt (length script) 0)) in Ec by lia.
  destruct (eval_step script flags (mkEvalState 0 s [] [] 0 0)) as [st1| | |] eqn:E1; try done.
  cbn [mbind result_bind] in Ec.
  assert (Hst1 : st1 = mkEvalState p1 (d :: s) [] [] 0 0).
  { revert E1. unfold eval_step. cbn [pc vfExec forallb]. rewrite Hop1. cbn [op_ok op_code op_pc op_data negb].
    destruct (zlen d >? MAX_SCRIPT_ELEMENT_SIZE); [done|]. pose proof (push_code_range d) as Hr.
    assert (Hg : (push_code d >? OP_16) = false) by (rewrite Z.gtb_ltb; apply Z.ltb_ge; unfold OP_16, OP_PUSHDATA4 in *; lia).
    rewrite Hg. cbn [andb]. destruct (is_disabled (push_code d)); [done|].
    rewrite (proj2 (Z.leb_le 0 _)), (proj2 (Z.leb_le _ OP_PUSHDATA4)) by lia. cbn [andb].
    destruct (_ && negb (CheckMinimalPush _ _)); cbn [mbind result_bind]; [done|]. cbn [mbind result_bind with_stack stack altstack].
    destruct (_ >? 1000); [done|]. by intros [= <-]. }
  subst st1. cbn [pc] in Ec.
  rewrite (proj2 (Nat.leb_gt (length script) p1)) in Ec by (unfold p1; lia).
  rewrite (eval_step_exec script flags (mkEvalState p1 (d :: s) [] [] 0 0) (p1 + 1) o Hop2 Ho ltac:(done) Hdis eq_refl) in Ec.
  cbn [stack altstack nOpCount pbegincodehash] in Ec. change (0 + 1) with 1 in Ec.
  destruct (exec_op script flags o true _) as [st3| | |] eqn:E3; [by exists (p1 + 1)%nat, st3|done..].
Qed.

Lemma cltv_checks script flags n s st st' : 0 <= n < 2 ^ 39 -> has_flag flags SCRIPT_VERIFY_CHECKLOCKTIMEVERIFY = true ->
  stack st = serialize n :: s -> exec_op script flags OP_CHECKLOCKTIMEVERIFY true st = Ret st' -> CheckLockTime n = true.
Proof.
  intros Hn Hf Hs. change (exec_op script flags OP_CHECKLOCKTIMEVERIFY true st) with (op_checklocktimeverify flags st).
  unfold op_checklocktimeverify. rewrite Hf, Hs, zlen_cons, (proj2 (Z.ltb_ge _ 1)) by (pose proof (zlen_nonneg s); lia).
  cbn [negb]. change (stacktop (serialize n :: s) 1) with (@Ret valtype (serialize n)). cbn [mbind result_bind].
  unfold script_num. rewrite serialize_decodes by done. cbn [mbind result_bind].
  rewrite (proj2 (Z.ltb_ge n 0)) by lia. by destruct (CheckLockTime n).
Qed.

Lemma csv_checks script flags n s st st' : 0 <= n < 2 ^ 39 -> has_flag flags SCRIPT_VERIFY_CHECKSEQUENCEVERIFY = true ->
  Z.land n SEQUENCE_LOCKTIME_DISABLE_FLAG = 0 ->
  stack st = serialize n :: s -> exec_op script flags OP_CHECKSEQUENCEVERIFY true st = Ret st' -> CheckSequence n = true.
Proof.
  intros Hn Hf Hd Hs. change (exec_op script flags OP_CHECKSEQUENCEVERIFY true st) with (op_checksequenceverify flags st).
  unfold op_checksequenceverify. rewrite Hf, Hs, zlen_cons, (proj2 (Z.ltb_ge _ 1)) by (pose proof (zlen_nonneg s); lia).
  cbn [negb]. change (stacktop (serialize n :: s) 1) with (@Ret valtype (serialize n)). cbn [mbind result_bind].
  unfold script_num. rewrite serialize_decodes by done. cbn [mbind result_bind].
  rewrite (proj2 (Z.ltb_ge n 0)), Hd by lia. cbn. by destruct (CheckSequence n).
Qed.

Lemma serialize_short n : 0 <= n < 2 ^ 39 -> zlen (serialize n) < 2 ^ 32.
Proof.
  intros Hn. pose proof (scriptnum_decode n 5 ltac:(lia) ltac:(change (8 * 5 - 1) with 39; lia)) as (_ & ? & _). lia.
Qed.

End Locks.

(** C12: absolute time locks hold.  When a script that starts with a positive number
    [n] of at most five bytes and OP_CHECKLOCKTIMEVERIFY is satisfied (with its
    flag set) by an input of a transaction, and the transaction is final at a height
    and time, then that height (for [n] below the threshold of 500000000) or that
    time (for any other [n]) has passed [n]. *)
Theorem timelock_enforced `{!Crypto} `{!ECDSA} `{!Protocols} tx nIn n rest flags s s' height time
  (Hn : 0 < n < 2 ^ 39) (HnIn : (nIn < length (vin tx))%nat)
  (Hflag : has_flag flags SCRIPT_VERIFY_CHECKLOCKTIMEVERIFY = true)
  (Heval : @EvalScript _ (TransactionSignatureChecker tx nIn)
             (push_bytes [] (serialize n) ++ OP_CHECKLOCKTIMEVERIFY :: rest) flags s = Ret s')
  (Hfinal : IsFinalTx tx height time = true) :
  if n <? LOCKTIME_THRESHOLD then n < height else n < time.
Proof.
  apply push_then_exec in Heval as (p & st & He); [|apply serialize_short; lia|done|done].
  apply (cltv_checks _ _ n s) in He as Ec; [|lia|done|done]. clear He. cbn in Ec. unfold TransactionCheckLockTime in Ec.
  destruct (negb _) eqn:Et in Ec; [done|]. destruct (Z.gtb_spec n (nLockTime tx)) as [|Hle]; [done|].
  destruct (Z.eqb_spec SEQUENCE_FINAL (nSequence (nth nIn (vin tx) null_in))) as [|Hseq]; [done|].
  apply negb_false_iff in Et. rewrite orb_true_iff, !andb_true_iff, !Z.ltb_lt, !Z.geb_le in Et.
  unfold IsFinalTx in Hfinal. destruct (Z.eqb_spec (nLockTime tx) 0); [lia|].
  destruct (Z.ltb_spec (nLockTime tx) (if nLockTime tx <? LOCKTIME_THRESHOLD then height else time)) as [Hlt|].
  - destruct Et as [[Ht1 Ht2]|[Ht1 Ht2]].
    + rewrite (proj2 (Z.ltb_lt (nLockTime tx) _)) in Hlt by done. rewrite (proj2 (Z.ltb_lt n _)) by done. lia.
    + rewrite (proj2 (Z.ltb_ge (nLockTime tx) _)) in Hlt by done. rewrite (proj2 (Z.ltb_ge n _)) by done. lia.
  - destruct (_ && _) in Hfinal; [done|]. rewrite forallb_forall in Hfinal.
    exfalso. apply Hseq. symmetry. apply Z.eqb_eq, Hfinal, nth_In. done.
Qed.

(** ** Relative locks *)

(** The lock of one input, whose coin has the height [h], against the height
    [H] of the block and the median time [B] of its parent. *)
Definition lock_satisfied (T : gmap nat Chain.CBlockIndex) (p : nat) (H B : Z) (txin : CTxIn) (h : Z) : Prop :=
  let n := Z.land (nSequence txin) SEQUENCE_LOCKTIME_MASK in
  Z.land (nSequence txin) SEQUENCE_LOCKTIME_DISABLE_FLAG <> 0 \/
  (if Z.land (nSequence txin) SEQUENCE_LOCKTIME_TYPE_FLAG =? 0 then h + n <= H
   else exists q m, Chain.GetAncestor T p (Z.max (h - 1) 0) = Some (Some q) /\ Chain.GetMedianTimePast T q = Some m /\
          m + 512 * n <= B).

Lemma sequence_locks_loop_exact T p H B vin : forall hs mh mt mh' mt', length hs = length vin ->
  sequence_locks_loop T p vin hs mh mt = Some (mh', mt') ->
  (mh' < H /\ mt' < B) <-> (mh < H /\ mt < B /\ Forall2 (lock_satisfied T p H B) vin hs).
Proof.
  induction vin as [|i vin IH]; intros [|h hs] mh mt mh' mt' Hl; try done; cbn [sequence_locks_loop].
  { intros [= <- <-]. split; [|tauto]. intros [? ?]. auto. }
  injection Hl as Hl. rewrite Forall2_cons. unfold lock_satisfied at 1.
  destruct (Z.eqb_spec (Z.land (nSequence i) SEQUENCE_LOCKTIME_DISABLE_FLAG) 0) as [Hd|Hd]; cbn [negb].
  2: { intros Hs. rewrite (IH hs mh mt mh' mt' Hl Hs). tauto. }
  destruct (Z.land (nSequence i) SEQUENCE_LOCKTIME_TYPE_FLAG =? 0) eqn:Et; cbn [negb].
  - intros Hs. rewrite (IH hs _ mt mh' mt' Hl Hs), Z.max_lub_lt_iff.
    split; [intros ((? & ?) & ? & ?)|intros (? & ? & ([?|?] & ?))]; repeat split; try done; try (right; lia); lia.
  - destruct (Chain.GetAncestor T p (Z.max (h - 1) 0)) as [[q|]|] eqn:Ea; try done. cbn [mbind option_bind].
    destruct (Chain.GetMedianTimePast T q) as [m|] eqn:Em; [|done]. cbn [mbind option_bind].
    assert (Hsh : Z.shiftl (Z.land (nSequence i) SEQUENCE_LOCKTIME_MASK) SEQUENCE_LOCKTIME_GRANULARITY =
      512 * Z.land (nSequence i) SEQUENCE_LOCKTIME_MASK).
    { unfold SEQUENCE_LOCKTIME_GRANULARITY. rewrite Z.shiftl_mul_pow2 by lia. change (2 ^ 9) with 512. lia. }
    rewrite Hsh. intros Hs. rewrite (IH hs mh _ mh' mt' Hl Hs), Z.max_lub_lt_iff.
    split.
    + intros (? & (? & ?) & ?). repeat split; try done. right. exists q, m. repeat split; try done; lia.
    + intros (? & ? & ([?|(q' & m' & Ha' & Hm' & ?)] & ?)); [done|]. injection Ha' as <-. rewrite Em in Hm'.
      injection Hm' as <-. repeat split; try done; lia.
Qed.

(** The bits of a sequence number that a relative lock uses. *)
Lemma lock_bits x : Z.land x (Z.lor SEQUENCE_LOCKTIME_TYPE_FLAG SEQUENCE_LOCKTIME_MASK) =
    Z.land x SEQUENCE_LOCKTIME_TYPE_FLAG + Z.land x SEQUENCE_LOCKTIME_MASK /\
  (Z.land x SEQUENCE_LOCKTIME_TYPE_FLAG = 0 \/ Z.land x SEQUENCE_LOCKTIME_TYPE_FLAG = SEQUENCE_LOCKTIME_TYPE_FLAG) /\
  0 <= Z.land x SEQUENCE_LOCKTIME_MASK < 2 ^ 16.
Proof.
  split; [|split].
  - rewrite Z.land_lor_distr_r. set (a := Z.land x SEQUENCE_LOCKTIME_TYPE_FLAG). set (m := Z.land x SEQUENCE_LOCKTIME_MASK).
    assert (H0 : Z.land a m = 0).
    { unfold a, m. rewrite <- Z.land_assoc, (Z.land_comm _ (Z.land x _)), <- Z.land_assoc.
      change (Z.land SEQUENCE_LOCKTIME_MASK SEQUENCE_LOCKTIME_TYPE_FLAG) with 0. by rewrite !Z.land_0_r. }
    rewrite Z.add_nocarry_lxor by done. symmetry. by apply Z.lxor_lor.
  - destruct (Z.testbit x 22) eqn:E; [right|left]; apply Z.bits_inj'; intros i Hi;
      unfold SEQUENCE_LOCKTIME_TYPE_FLAG; rewrite Z.land_spec, ?Z.bits_0, Z.pow2_bits_eqb by lia;
      destruct (Z.eqb_spec 22 i) as [<-|]; rewrite ?E; try done; by rewrite andb_false_r.
  - unfold SEQUENCE_LOCKTIME_MASK. change 65535 with (Z.ones 16). rewrite Z.land_ones by lia.
    apply Z.mod_pos_bound. lia.
Qed.

Lemma land_high_bit n : 0 <= n < 2 ^ 31 -> Z.land n SEQUENCE_LOCKTIME_DISABLE_FLAG = 0.
Proof.
  intros Hn. apply Z.eqb_eq. unfold SEQUENCE_LOCKTIME_DISABLE_FLAG. rewrite land_pow2_eqb by lia.
  apply negb_true_iff, Z.testbit_false; [lia|]. by rewrite Z.div_small.
Qed.

Lemma SequenceLocks_sound T tx hs p b q B : u32 (nVersion tx) >= 2 ->
  T !! p = Some b -> Chain.pprev b = Some q -> Chain.GetMedianTimePast T q = Some B ->
  SequenceLocks T tx LOCKTIME_VERIFY_SEQUENCE hs p = Some true ->
  Forall2 (lock_satisfied T p (Chain.nHeight b) B) (vin tx) hs.
Proof.
  intros Hv Hb Hq HB. unfold SequenceLocks, CalculateSequenceLocks.
  destruct (Nat.eqb_spec (length hs) (length (vin tx))) as [Hl|]; cbn [negb]; [|done].
  rewrite (proj2 (Z.geb_le (u32 (nVersion tx)) 2)) by lia.
  change (negb (Z.land LOCKTIME_VERIFY_SEQUENCE LOCKTIME_VERIFY_SEQUENCE =? 0)) with true. cbn [andb negb].
  destruct (sequence_locks_loop _ _ _ _ _ _) as [[mh mt]|] eqn:Es; [|done]. cbn [mbind option_bind].
  unfold EvaluateSequenceLocks. rewrite Hb. cbn [mbind option_bind]. rewrite Hq. cbn [mbind option_bind]. rewrite HB.
  cbn [mbind option_bind fst snd]. intros [= Ht]. apply negb_true_iff, orb_false_iff in Ht as [H1 H2].
  rewrite Z.geb_leb, Z.leb_gt in H1, H2.
  by apply (sequence_locks_loop_exact T p (Chain.nHeight b) B (vin tx) hs (-1) (-1) mh mt Hl Es).
Qed.

(** C13: relative locks hold.  Let a script start with a number [n] from 0 to
    [2^31 - 1] (so without the bit that disables the lock) and
    OP_CHECKSEQUENCEVERIFY, and let [m] be the low 16 bits of [n].  When the script
    is satisfied (with its flag set) by an input, and the transaction passes
    [SequenceLocks] in a block, then the coin spent by that input is old enough: by
    [m] blocks when bit 22 of [n] is clear; when it is set, the median time before the
    block is at least [512 * m] seconds past the median time before the coin. *)
Theorem relative_lock_enforced `{!Crypto} `{!ECDSA} T tx nIn n rest flags s s' hs p b q B h
  (Hn : 0 <= n < 2 ^ 31) (Hh : hs !! nIn = Some h)
  (Hflag : has_flag flags SCRIPT_VERIFY_CHECKSEQUENCEVERIFY = true)
  (Heval : @EvalScript _ (TransactionSignatureChecker tx nIn)
             (push_bytes [] (serialize n) ++ OP_CHECKSEQUENCEVERIFY :: rest) flags s = Ret s')
  (Hb : T !! p = Some b) (Hq : Chain.pprev b = Some q) (HB : Chain.GetMedianTimePast T q = Some B)
  (Hlocks : SequenceLocks T tx LOCKTIME_VERIFY_SEQUENCE hs p = Some true) :
  let m := Z.land n SEQUENCE_LOCKTIME_MASK in
  if Z.land n SEQUENCE_LOCKTIME_TYPE_FLAG =? 0 then h + m <= Chain.nHeight b
  else exists a t, Chain.GetAncestor T p (Z.max (h - 1) 0) = Some (Some a) /\ Chain.GetMedianTimePast T a = Some t /\
         t + 512 * m <= B.
Proof.
  intros m. apply push_then_exec in Heval as (pc & st & He); [|apply serialize_short; lia|done|done].
  apply (csv_checks _ _ n s) in He as Ec; [|lia|done|by apply land_high_bit|done]. clear He. cbn in Ec. unfold TransactionCheckSequence in Ec.
  destruct (Z.ltb_spec (u32 (nVersion tx)) 2) as [|Hv]; [done|].
  set (i := nth nIn (vin tx) null_in) in *.
  destruct (Z.eqb_spec (Z.land (nSequence i) SEQUENCE_LOCKTIME_DISABLE_FLAG) 0) as [Hdis|]; [|done]. cbn [negb] in Ec.
  destruct (lock_bits n) as (En & Htn & Hmn). destruct (lock_bits (nSequence i)) as (Ei & Hti & Hmi). rewrite En, Ei in Ec. fold m in Ec, Hmn.
  destruct (negb _) eqn:Et in Ec; [done|]. apply negb_false_iff in Et.
  rewrite orb_true_iff, !andb_true_iff, !Z.ltb_lt, !Z.geb_le in Et.
  destruct (Z.gtb_spec (Z.land n SEQUENCE_LOCKTIME_TYPE_FLAG + m)
    (Z.land (nSequence i) SEQUENCE_LOCKTIME_TYPE_FLAG + Z.land (nSequence i) SEQUENCE_LOCKTIME_MASK)) as [|Hle]; [done|].
  pose proof (SequenceLocks_sound T tx hs p b q B ltac:(lia) Hb Hq HB Hlocks) as Hall.
  assert (Hi : vin tx !! nIn = Some i).
  { apply Forall2_length in Hall. apply lookup_lt_Some in Hh. unfold i. rewrite nth_lookup.
    by destruct (lookup_lt_is_Some_2 (vin tx) nIn ltac:(lia)) as [y ->]. }
  destruct (Forall2_lookup_lr _ _ _ _ _ _ Hall Hi Hh) as [|Hsat]; [done|]. unfold SEQUENCE_LOCKTIME_TYPE_FLAG in *.
  destruct (Z.eqb_spec (Z.land n (2 ^ 22)) 0) as [E1|E1], (Z.eqb_spec (Z.land (nSequence i) (2 ^ 22)) 0) as [E2|E2]; try lia.
  destruct Hsat as (a & t & Ha & Ht & Hs). exists a, t. split; [done|]. split; [done|]. lia.
Qed.

(** ** Inputs and the money supply *)

Definition in_values (xs : list Coin) : Z := foldr (fun x s => nValue (coin_out x) + s) 0 xs.

Definition mature (nSpendHeight : Z) (x : Coin) : Prop :=
  coin_fCoinBase x = true -> COINBASE_MATURITY <= nSpendHeight - coin_nHeight x.

#[export] Instance mature_dec h x : Decision (mature h x).
Proof. unfold mature. apply _. Defined.

(** The coins that inputs refer to. *)
Definition coins_of (u : utxos) (vin : list CTxIn) (xs : list Coin) : Prop :=
  Forall2 (fun i x => u !! prevout i = Some x) vin xs.

Lemma in_values_nonneg xs : Forall (fun x => 0 <= nValue (coin_out x) <= MAX_MONEY) xs -> 0 <= in_values xs.
Proof. induction 1 as [|x xs Hx _ IH]; cbn [in_values foldr]; [lia|]. fold (in_values xs). lia. Qed.

Lemma coins_of_inj u vin xs ys : coins_of u vin xs -> coins_of u vin ys -> xs = ys.
Proof.
  intros Hx. revert ys. induction Hx as [|i x vin xs Hi _ IH]; intros ys Hy; inversion Hy; subst; [done|].
  f_equal; [congruence|auto].
Qed.

Section Inputs.
Context {V : Type} `{!CCoinsView V} {HV : CCoinsViewOk V}.
Implicit Types c : CCoinsViewCache V.

Lemma HaveInputs_loop_ok vin : forall c, cache_ok c ->
  exists c', cache_ok c' /\ cache_utxo c' = cache_utxo c /\
    ((exists xs, coins_of (cache_utxo c) vin xs) /\ HaveInputs_loop c vin = (true, c') \/
     ~ (exists xs, coins_of (cache_utxo c) vin xs) /\ HaveInputs_loop c vin = (false, c')).
Proof.
  induction vin as [|i vin IH]; intros c Hc; cbn [HaveInputs_loop].
  { exists c. split; [done|]. split; [done|]. left. split; [by exists []; constructor|done]. }
  destruct (HaveCoin_ok c (prevout i) Hc) as (c1 & -> & Hc1 & Hu1 & _ & _).
  destruct (cache_utxo c !! prevout i) as [x|] eqn:Ex.
  - rewrite bool_decide_true by done. destruct (IH c1 Hc1) as (c2 & Hc2 & Hu2 & Hcase). rewrite Hu1 in Hu2, Hcase.
    exists c2. split; [done|]. split; [done|]. destruct Hcase as [[[xs Hxs] ->]|[Hno ->]].
    + left. split; [exists (x :: xs); by constructor|done].
    + right. split; [|done]. intros [ys Hys]. apply Hno. inversion Hys; subst. eauto.
  - rewrite bool_decide_false by (by intros [? ?]). exists c1. split; [done|]. split; [done|]. right. split; [|done].
    intros [ys Hys]. inversion Hys; subst. congruence.
Qed.

(** The input loop accepts exactly mature coins whose values stay in range,
    and adds them up without wrapping. *)
Lemma tx_inputs_loop_ok h vin : forall c xs acc, cache_ok c -> 0 <= acc <= MAX_MONEY -> coins_of (cache_utxo c) vin xs ->
  let good := Forall (mature h) xs /\ Forall (fun x => 0 <= nValue (coin_out x) <= MAX_MONEY) xs /\
              acc + in_values xs <= MAX_MONEY in
  (good /\ exists c', tx_inputs_loop c vin h acc = Done (inr (acc + in_values xs, c')) /\ cache_ok c' /\
     cache_utxo c' = cache_utxo c) \/
  (~ good /\ exists r, tx_inputs_loop c vin h acc = Done (inl r)).
Proof.
  induction vin as [|i vin IH]; intros c xs acc Hc Ha Hxs; inversion Hxs as [|? x ? xs' Hx Hxs']; subst; cbn zeta;
    cbn [tx_inputs_loop in_values foldr].
  { left. rewrite Z.add_0_r. split; [|by exists c]. split; [constructor|]. split; [constructor|lia]. }
  fold (in_values xs'). destruct (AccessCoin_ok c (prevout i) Hc) as (y & c1 & -> & Hc1 & Hu1 & _ & Hy).
  rewrite Hx in Hy. destruct (IsSpent y) eqn:Es; [done|]. injection Hy as <-. rewrite !Forall_cons_iff.
  pose proof (in_values_nonneg xs') as Hnn.
  destruct (coin_fCoinBase x && (h - coin_nHeight x <? COINBASE_MATURITY)) eqn:Em.
  { right. split; [|by eexists]. intros [[Hm _] _]. apply andb_true_iff in Em as [E1 E2]. apply Z.ltb_lt in E2.
    specialize (Hm E1). lia. }
  assert (Hm : mature h x).
  { intros E. rewrite E in Em. apply Z.ltb_ge in Em. lia. }
  destruct (MoneyRange (nValue (coin_out x))) eqn:Er; cbn [negb orb].
  2: { right. split; [|by eexists]. intros (_ & [Hr _] & _). apply MoneyRange_spec in Hr. congruence. }
  apply MoneyRange_spec in Er. destruct (MoneyRange (i64 (acc + nValue (coin_out x)))) eqn:Ei; cbn [negb].
  - apply i64_add_range in Ei; [|lia..]. rewrite i64_small by (unfold MAX_MONEY, INT64_MAX in *; lia).
    destruct (IH c1 xs' (acc + nValue (coin_out x)) Hc1 ltac:(lia)) as [[Hg (c2 & Hl & Hc2 & Hu2)]|[Hg Hl]]; [by rewrite Hu1| |].
    + left. split; [split; [tauto|]; split; [tauto|lia]|]. exists c2. rewrite Hl, Hu2. split; [do 3 f_equal; lia|done].
    + right. split; [|done]. intros ([_ ?] & [_ ?] & ?). apply Hg. split; [done|]. split; [done|lia].
  - right. split; [|by eexists]. intros (_ & [_ Hf] & Hle). specialize (Hnn Hf).
    assert (MoneyRange (i64 (acc + nValue (coin_out x))) = true) by (apply i64_add_range; lia). congruence.
Qed.

(** The transactions [CheckTxInputs] is meant to accept. *)
Definition inputs_valid (u : utxos) (tx : CTransaction) (h : Z) (xs : list Coin) : Prop :=
  coins_of u (vin tx) xs /\ Forall (mature h) xs /\
  Forall (fun x => 0 <= nValue (coin_out x) <= MAX_MONEY) xs /\ in_values xs <= MAX_MONEY /\
  Forall (fun o => 0 <= nValue o <= MAX_MONEY) (vout tx) /\ sum_values (vout tx) <= in_values xs.

Lemma CheckTxInputs_cases c tx h : cache_ok c -> IsCoinBase tx = false ->
  (exists xs c', inputs_valid (cache_utxo c) tx h xs /\
     CheckTxInputs c tx h = Done (inr c') /\ cache_ok c' /\ cache_utxo c' = cache_utxo c) \/
  (~ (exists xs, inputs_valid (cache_utxo c) tx h xs) /\ forall c', CheckTxInputs c tx h <> Done (inr c')).
Proof.
  intros Hc Hcb. unfold CheckTxInputs, HaveInputs. rewrite Hcb.
  destruct (HaveInputs_loop_ok (vin tx) c Hc) as (c1 & Hc1 & Hu1 & [[[xs Hxs] ->]|[Hno ->]]); cbn [negb].
  2: { right. split; [|done]. intros (xs & Hxs & _). destruct Hno. eauto. }
  destruct (tx_inputs_loop_ok h (vin tx) c1 xs 0 Hc1) as [[Hg (c2 & -> & Hc2 & Hu2)]|[Hg [r ->]]];
    [unfold MAX_MONEY, INT64_MAX; lia|by rewrite Hu1| |]; cbn [mbind outcome_bind].
  2: { right. split; [|done]. intros (ys & Hys & Hm & Hr & Hle & _).
       assert (ys = xs) as -> by (eapply coins_of_inj; eauto). destruct Hg. split; [done|]. split; [done|lia]. }
  rewrite Z.add_0_l in Hg |- *. destruct Hg as (Hm & Hr & Hle). unfold GetValueOut.
  rewrite GetValueOut_loop_spec by (unfold MAX_MONEY, INT64_MAX; lia). rewrite Z.add_0_l. case_bool_decide as Ho.
  2: { right. split; [|done]. intros (ys & Hys & _ & _ & Hle' & Ho' & Hlt).
       assert (ys = xs) as -> by (eapply coins_of_inj; eauto). destruct Ho. split; [done|lia]. }
  destruct Ho as [Ho1 Ho2]. pose proof (sum_values_nonneg _ Ho1).
  destruct (Z.ltb_spec (in_values xs) (sum_values (vout tx))).
  - right. split; [|done]. intros (ys & Hys & _ & _ & _ & _ & Hlt).
    assert (ys = xs) as -> by (eapply coins_of_inj; eauto). lia.
  - left. exists xs, c2. rewrite i64_small by (unfold MAX_MONEY, INT64_MAX in *; lia).
    rewrite (proj2 (Z.ltb_ge _ 0)), (proj2 (MoneyRange_spec _)) by lia. cbn [negb]. by rewrite Hu2.
Qed.

End Inputs.

(** The total value of a set of coins, and the value of the outputs that can
    never be spent. *)
Definition supply (u : utxos) : Z := map_fold (fun _ x s => nValue (coin_out x) + s) 0 u.
Definition burned (vout : list CTxOut) : Z :=
  foldr (fun o s => (if IsUnspendable (scriptPubKey o) then nValue o else 0) + s) 0 vout.

Lemma supply_insert u o x : u !! o = None -> supply (<[o := x]> u) = nValue (coin_out x) + supply u.
Proof. intros Ho. unfold supply. rewrite map_fold_insert_L; [done| |done]. intros. lia. Qed.

Lemma supply_delete u o x : u !! o = Some x -> supply u = nValue (coin_out x) + supply (delete o u).
Proof. intros Ho. rewrite <- (insert_delete_id u o x Ho) at 1. apply supply_insert, lookup_delete_eq. Qed.

Lemma spend_all_coins u0 vin : forall u xs u1, u ⊆ u0 -> spend_all u (prevout <$> vin) = Some (xs, u1) ->
  coins_of u0 vin xs /\ supply u = in_values xs + supply u1.
Proof.
  induction vin as [|i vin IH]; intros u xs u1 Hsub; cbn [fmap list_fmap spend_all].
  { intros [= <- <-]. split; [constructor|done]. }
  destruct (u !! prevout i) as [x|] eqn:Ex; [|done]. cbn [mbind option_bind].
  destruct (spend_all _ _) as [[ys u2]|] eqn:Es; [|done]. cbn [mbind option_bind]. intros [= <- <-].
  destruct (IH (delete (prevout i) u) ys u2) as [IH1 IH2]; [|done|].
  { etransitivity; [apply delete_subseteq|done]. }
  split; [constructor; [by eapply lookup_weaken|done]|]. cbn [in_values foldr]. fold (in_values ys).
  rewrite (supply_delete u (prevout i) x Ex), IH2. lia.
Qed.

Lemma add_all_supply txid h cb outs : forall u i, 0 <= i -> i + zlen outs <= 2 ^ 32 -> fresh u txid i outs ->
  supply (add_all u txid i outs h cb) = supply u + (sum_values outs - burned outs).
Proof.
  induction outs as [|out outs IH]; intros u i Hi Hl Hf; cbn [add_all sum_values burned foldr]; [lia|].
  fold (sum_values outs) (burned outs). unfold zlen in *. cbn [length] in Hl. cbn [fresh] in Hf. destruct Hf as [Hf1 Hf2].
  destruct (IsUnspendable (scriptPubKey out)) eqn:Eu.
  - rewrite IH; [lia|lia|unfold zlen; lia|done].
  - rewrite IH; [|lia|unfold zlen; lia|by apply fresh_insert; [lia|unfold zlen; lia|]].
    rewrite supply_insert by auto. cbn [Coin_of coin_out]. lia.
Qed.

Lemma burned_nonneg outs : Forall (fun o => 0 <= nValue o <= MAX_MONEY) outs -> 0 <= burned outs.
Proof.
  induction 1 as [|o outs Ho _ IH]; cbn [burned foldr]; [lia|]. fold (burned outs). destruct (IsUnspendable _); lia.
Qed.

(** C11: [CheckTxInputs] accepts a transaction exactly when all its coins exist
    and are mature, every value and the total in are in range, and it pays out
    at most what it takes in; an accepted check leaves the set of coins as it
    is. *)
Theorem CheckTxInputs_exact {V : Type} `{!CCoinsView V} {HV : CCoinsViewOk V} (c : CCoinsViewCache V) tx h
  (Hc : cache_ok c) (Hcb : IsCoinBase tx = false) :
  ((exists c', CheckTxInputs c tx h = Done (inr c')) <-> exists xs, inputs_valid (cache_utxo c) tx h xs) /\
  (forall c', CheckTxInputs c tx h = Done (inr c') -> cache_ok c' /\ cache_utxo c' = cache_utxo c).
Proof.
  destruct (CheckTxInputs_cases c tx h Hc Hcb) as [(xs & c1 & Hv & -> & Hc1 & Hu1)|[Hno Hr]].
  - split; [split; eauto|]. by intros c' [= <-].
  - split; [split; [intros [c' E]|intros Hv]|intros c' E]; by (destruct (Hr c') || destruct Hno).
Qed.

Lemma coins_of_spend u vin : forall u1 xs, NoDup (prevout <$> vin) -> coins_of u vin xs ->
  (forall i, i ∈ vin -> u1 !! prevout i = u !! prevout i) -> exists mid, spend_all u1 (prevout <$> vin) = Some (xs, mid) /\ mid ⊆ u1.
Proof.
  induction vin as [|i vin IH]; intros u1 xs Hd Hxs Hu; inversion Hxs as [|? x ? xs' Hx Hxs']; subst; cbn [fmap list_fmap spend_all].
  { by exists u1. }
  cbn [fmap list_fmap] in Hd. apply NoDup_cons in Hd as [Hn Hd]. rewrite Hu, Hx by by left. cbn [mbind option_bind].
  destruct (IH (delete (prevout i) u1) xs' Hd Hxs') as (mid & -> & Hsub).
  - intros j Hj. rewrite lookup_delete_ne; [apply Hu; by right|]. intros E. apply Hn. rewrite E. by apply list_elem_of_fmap_2.
  - exists mid. split; [done|]. etransitivity; [done|apply delete_subseteq].
Qed.

Lemma fresh_sub u u1 txid outs : forall i, u1 ⊆ u -> fresh u txid i outs -> fresh u1 txid i outs.
Proof.
  induction outs as [|o outs IH]; intros i Hs; cbn [fresh]; [done|]. intros [H1 H2]. split; [|by apply IH].
  intros Hu. apply (lookup_weaken_None u1 u); [by apply H1|done].
Qed.

(** C4: no money is created.  Let a transaction other than a coinbase, with distinct
    inputs, pass [CheckTxInputs]; none of its outputs has a coin yet, and the view
    can hold them.  Then [UpdateCoins] succeeds in spending its coins and
    adding its outputs, and the total value of the coins falls by exactly its fee and
    the value of its unspendable outputs, both of which are at least 0. *)
Theorem no_inflation `{!Crypto} {V : Type} `{!CCoinsView V} {HV : CCoinsViewOk V} (c c1 : CCoinsViewCache V) tx h
  (Hc : cache_ok c) (Hcb : IsCoinBase tx = false) (Hd : NoDup (prevout <$> vin tx)) (Hl : zlen (vout tx) <= 2 ^ 32)
  (Hstore : forall o, o ∈ vout tx -> IsUnspendable (scriptPubKey o) = false -> coin_ok (Coin_of o h false)) (Hfresh : fresh (cache_utxo c) (GetHash tx) 0 (vout tx))
  (Hcheck : CheckTxInputs c tx h = Done (inr c1)) :
  exists xs c2, UpdateCoins c1 tx h = Done (xs, c2) /\ coins_of (cache_utxo c) (vin tx) xs /\
    let fee := in_values xs - sum_values (vout tx) in
    0 <= fee /\ 0 <= burned (vout tx) /\ supply (cache_utxo c2) + fee + burned (vout tx) = supply (cache_utxo c).
Proof.
  destruct (CheckTxInputs_cases c tx h Hc Hcb) as [(xs & c1' & (Hxs & _ & _ & _ & Ho & Hle) & E & Hc1 & Hu1)|[_ Hr]]; [|by destruct (Hr c1)].
  rewrite Hcheck in E. injection E as <-. destruct (coins_of_spend (cache_utxo c) (vin tx) (cache_utxo c) xs Hd Hxs) as (mid & Hs & Hsub); [done|].
  destruct (UpdateCoins_spec c1 tx h xs mid Hc1) as (c2 & Hup & _ & Hu2).
  - unfold spends. by rewrite Hcb, Hu1.
  - rewrite Hcb. apply list.Forall_forall. intros o Hin. split; [|by apply Hstore]. rewrite list.Forall_forall in Ho. specialize (Ho o Hin).
    unfold CTxOut_IsNull. lia.
  - done.
  - by apply (fresh_sub (cache_utxo c)).
  - exists xs, c2. split; [done|]. split; [done|]. intros fee. split; [unfold fee; lia|]. split; [by apply burned_nonneg|].
    destruct (spend_all_coins (cache_utxo c) (vin tx) (cache_utxo c) xs mid) as [_ Hsup]; [done|done|].
    rewrite Hu2, add_all_supply; [unfold fee; lia|lia|lia|by apply (fresh_sub (cache_utxo c))].
Qed.

(** ** [CheckTransaction] *)

Section CheckTx.
Context `{!Protocols} {V : Type} `{!CCoinsView V} {HV : CCoinsViewOk V}.
Implicit Types c : CCoinsViewCache V.

(** Reading through a fresh cache on [c]. *)
Lemma AccessCoin_fresh c o : cache_ok c -> exists x view, AccessCoin (new_cache c) o = (x, view) /\
  cache_ok (base view) /\ cache_utxo (base view) = cache_utxo c /\
  cache_utxo c !! o = (if IsSpent x then None else Some x) /\ (cache_utxo c !! o = None -> x = coinEmpty).
Proof.
  intros Hc. unfold AccessCoin, FetchCoin, new_cache. cbn [cacheCoins base hashBlock]. rewrite lookup_empty.
  change (GetCoin c o) with (cache_GetCoin c o). destruct (cache_GetCoin_ok c o Hc) as (c' & -> & Hc' & Hu & _).
  destruct (cache_utxo c !! o) as [x|] eqn:Ex.
  - destruct (cache_utxo_ok c o x Hc Ex) as [Hx _]. eexists _, _. split; [reflexivity|]. cbn [coin base with_coins].
    rewrite Hx. done.
  - eexists _, _. split; [reflexivity|]. done.
Qed.

Lemma inputs_distinct_spec vin : forall seen,
  inputs_distinct vin seen = true <-> NoDup (prevout <$> vin) /\ Forall (fun i => prevout i ∉ seen) vin.
Proof.
  induction vin as [|i vin IH]; intros seen; cbn [inputs_distinct fmap list_fmap].
  { split; [|done]. intros _. split; constructor. }
  rewrite NoDup_cons, Forall_cons_iff. destruct (decide (prevout i ∈ seen)) as [Hin|Hin]; [split; [done|tauto]|].
  rewrite IH. assert (Hiff : (Forall (fun j => prevout j ∉ ({[prevout i]} ∪ seen : gset COutPoint)) vin) <->
    (prevout i ∉ (prevout <$> vin)) /\ Forall (fun j => prevout j ∉ seen) vin).
  { rewrite list_elem_of_fmap, !Forall_forall. set_solver. }
  rewrite Hiff. tauto.
Qed.

(** Outputs of an ordinary transaction. *)
Definition plain_out (o : CTxOut) : Prop := IsTransactionFluid (scriptPubKey o) = false /\ IsBDAP o = false.

Lemma check_outputs_spec vout : forall s, Forall plain_out vout -> 0 <= nValueOut s <= MAX_MONEY ->
  let good := Forall (fun o => 0 <= nValue o <= MAX_MONEY) vout /\ nValueOut s + sum_values vout <= MAX_MONEY in
  (good /\ exists s', check_outputs vout s = inr s' /\ outBDAP s' = outBDAP s) \/
  (~ good /\ exists r, check_outputs vout s = inl r).
Proof.
  induction vout as [|o vout IH]; intros s Hp Hs; cbn zeta; cbn [check_outputs sum_values foldr].
  { left. split; [split; [constructor|lia]|]. by exists s. }
  fold (sum_values vout). apply Forall_cons_iff in Hp as [[Hfl Hb] Hp]. rewrite Forall_cons_iff.
  destruct (Z.ltb_spec (nValue o) 0); [right; split; [lia|eauto]|].
  destruct (Z.gtb_spec (nValue o) MAX_MONEY); [right; split; [lia|eauto]|].
  destruct (MoneyRange (i64 (nValueOut s + nValue o))) eqn:Er; cbn [negb].
  - apply i64_add_range in Er; [|lia..]. rewrite i64_small by (unfold MAX_MONEY, INT64_MAX in *; lia).
    rewrite Hfl, Hb. cbn [andb]. set (s1 := if IsData o then _ else _).
    assert (Hs1 : nValueOut s1 = nValueOut s + nValue o /\ outBDAP s1 = outBDAP s) by (unfold s1; by destruct (IsData o)).
    destruct Hs1 as [E1 E2]. destruct (IH s1 Hp ltac:(lia)) as [[Hg (s2 & -> & Hb2)]|[Hg [r ->]]]; rewrite E1 in Hg.
    + left. split; [split; [tauto|lia]|]. exists s2. split; [done|congruence].
    + right. split; [|eauto]. intros [[_ ?] ?]. apply Hg. split; [done|lia].
  - right. split; [|eauto]. intros [[_ Hf] Hle]. pose proof (sum_values_nonneg _ Hf).
    assert (MoneyRange (i64 (nValueOut s + nValue o)) = true) by (apply i64_add_range; lia). congruence.
Qed.

Lemma check_inputs_spec vin : forall c a b, cache_ok c ->
  Forall (fun i => forall x, cache_utxo c !! prevout i = Some x -> IsBDAP (coin_out x) = false) vin ->
  (Forall (fun i => COutPoint_IsNull (prevout i) = false) vin /\
   exists a' b' c', check_inputs c vin [] a b = inr ([], a', b', c') /\ cache_ok c' /\ cache_utxo c' = cache_utxo c) \/
  (~ Forall (fun i => COutPoint_IsNull (prevout i) = false) vin /\ exists r, check_inputs c vin [] a b = inl r).
Proof.
  induction vin as [|i vin IH]; intros c a b Hc Hn; cbn [check_inputs].
  { left. split; [constructor|]. by exists a, b, c. }
  apply Forall_cons_iff in Hn as [Hi Hn]. rewrite Forall_cons_iff.
  destruct (COutPoint_IsNull (prevout i)); [right; split; [intros [? _]; done|eauto]|].
  destruct (AccessCoin_fresh c (prevout i) Hc) as (x & view & -> & Hc1 & Hu1 & Hx & Hemp).
  assert (Hnb : IsBDAP (coin_out x) = false).
  { destruct (IsSpent x); [by rewrite (Hemp Hx)|by apply Hi]. }
  rewrite Hnb. destruct (IH (base view) (i64 (a + nValue (coin_out x))) b Hc1) as [[Hg (a' & b' & c' & -> & Hc' & Hu')]|[Hg [r ->]]].
  - by rewrite Hu1.
  - left. split; [done|]. exists a', b', c'. by rewrite Hu', Hu1.
  - right. split; [tauto|eauto].
Qed.

(** The rules for an ordinary transaction. *)
Definition tx_valid (tx : CTransaction) : Prop :=
  vin tx <> [] /\ vout tx <> [] /\ GetTotalSize tx <= MAX_TX_SIZE /\
  Forall (fun o => 0 <= nValue o <= MAX_MONEY) (vout tx) /\ sum_values (vout tx) <= MAX_MONEY /\
  NoDup (prevout <$> vin tx) /\
  (if IsCoinBase tx
   then 2 <= zlen (scriptSig (nth 0 (vin tx) null_in)) <= 100 /\ nVersion tx <> BDAP_TX_VERSION
   else Forall (fun i => COutPoint_IsNull (prevout i) = false) (vin tx)).

End CheckTx.

(** C14: [CheckTransaction] on ordinary transactions.  When no output is a fluid
    or BDAP output and no coin spent is a BDAP coin, a transaction is accepted
    exactly when it has inputs and outputs, is not too large, every output
    value and their exact sum are in range, no outpoint is spent twice, and a
    coinbase has a script of 2 to 100 bytes and not the version of BDAP
    transactions, while any other transaction refers to no null outpoint. *)
Theorem CheckTransaction_exact `{!Protocols} {V : Type} `{!CCoinsView V} {HV : CCoinsViewOk V} (c : CCoinsViewCache V) tx
  (Hc : cache_ok c) (Hplain : Forall plain_out (vout tx))
  (Hcoins : Forall (fun i => forall x, cache_utxo c !! prevout i = Some x -> IsBDAP (coin_out x) = false) (vin tx)) :
  (exists c', CheckTransaction c tx = inr c' /\ cache_utxo c' = cache_utxo c) <-> tx_valid tx.
Proof.
  unfold CheckTransaction, tx_valid. destruct (vin tx) as [|i0 ins] eqn:Ei.
  { split; [by intros (? & ? & _)|]. intros [? _]. done. }
  case_bool_decide as Eo. { split; [by intros (? & ? & _)|]. intros (_ & ? & _). done. }
  destruct (Z.gtb_spec (GetTotalSize tx) MAX_TX_SIZE). { split; [by intros (? & ? & _)|]. intros (_ & _ & ? & _). lia. }
  destruct (check_outputs_spec (vout tx) (mkSums 0 0 0 0 false) Hplain) as [[Hg (s & -> & Hs)]|[Hg [r ->]]];
    [cbn; unfold MAX_MONEY, INT64_MAX; lia| |]; cbn [nValueOut] in Hg; rewrite Z.add_0_l in Hg.
  2: { split; [by intros (? & ? & _)|]. intros (_ & _ & _ & ? & ? & _). tauto. }
  cbn [outBDAP] in Hs. rewrite Hs. cbn [orb].
  destruct (inputs_distinct (i0 :: ins) ∅) eqn:Ed; cbn [negb].
  2: { split; [by intros (? & ? & _)|]. intros (_ & _ & _ & _ & _ & Hnd & _).
       assert (inputs_distinct (i0 :: ins) ∅ = true); [|congruence]. apply inputs_distinct_spec. split; [done|].
       apply Forall_true. set_solver. }
  apply inputs_distinct_spec in Ed as [Hnd _]. destruct (IsCoinBase tx) eqn:Ecb.
  - cbn [nth]. destruct (Z.ltb_spec (zlen (scriptSig i0)) 2), (Z.gtb_spec (zlen (scriptSig i0)) 100); cbn [orb];
      try (split; [by intros (? & ? & _)|intros (_ & _ & _ & _ & _ & _ & ? & _); lia]).
    rewrite bool_decide_true by done. cbn [negb andb].
    destruct (Z.eqb_spec (nVersion tx) BDAP_TX_VERSION).
    + split; [by intros (? & ? & _)|]. intros (_ & _ & _ & _ & _ & _ & _ & ?). done.
    + split; [|intros _; by exists c]. intros _. repeat split; try tauto; try done; lia.
  - destruct (check_inputs_spec (i0 :: ins) c 0 0 Hc Hcoins) as [[Hn (a & b & c' & -> & Hc' & Hu)]|[Hn [r ->]]].
    + rewrite bool_decide_true by done. cbn [negb andb]. split; [|intros _; by exists c'].
      intros _. repeat split; try tauto; try done; lia.
    + split; [by intros (? & ? & _)|]. intros (_ & _ & _ & _ & _ & _ & ?). done.
Qed.

(** ** Bare multisignature outputs *)

Lemma check_outputs_flag `{!Protocols} vout : forall s s', check_outputs vout s = inr s' ->
  outBDAP s = true \/ Exists (fun o => IsBDAP o = true) vout -> outBDAP s' = true.
Proof.
  induction vout as [|o vout IH]; intros s s'; cbn [check_outputs].
  { intros [= <-] [?|He]; [done|by inversion He]. }
  destruct (nValue o <? 0); [done|]. destruct (nValue o >? MAX_MONEY); [done|].
  destruct (negb (MoneyRange _)); [done|]. destruct (IsTransactionFluid _ && (_ >? _)); [done|].
  destruct (IsTransactionFluid _ && negb _); [done|]. intros Hs Hor. apply (IH _ _ Hs). rewrite Exists_cons in Hor.
  destruct (IsBDAP o) eqn:Eb; [by left|]. destruct Hor as [?|[?|?]]; [left; by destruct (IsData o)|congruence|by right].
Qed.

Lemma multisig_is_BDAP m keys s out : 1 <= m <= 5 -> GetScriptForMultisig m keys = Some s -> scriptPubKey out = s ->
  IsBDAP out = true.
Proof.
  intros Hm Hs Hout. unfold GetScriptForMultisig in Hs.
  destruct (EncodeOP_N m) as [o|] eqn:Eo; [|done]. cbn [mbind option_bind] in Hs.
  destruct (EncodeOP_N (zlen keys)) as [k|]; [|done]. cbn [mbind option_bind] in Hs. injection Hs as <-.
  unfold IsBDAP. rewrite Hout.
  set (rest := concat (map (push_bytes []) keys) ++ [k; OP_CHECKMULTISIG]). cbn [app].
  assert (Hl : 2 <= zlen (o :: rest)).
  { unfold zlen, rest. cbn [length]. rewrite length_app. cbn [length]. lia. }
  rewrite (proj2 (Z.ltb_ge (zlen (o :: rest)) 2) Hl). clearbody rest. clear Hl.
  assert (Hcase : m = 1 \/ m = 2 \/ m = 3 \/ m = 4 \/ m = 5) by lia.
  destruct Hcase as [->|[->|[->|[->| ->]]]]; vm_compute in Eo; injection Eo as <-; reflexivity.
Qed.

(** Bare multisignature outputs are rejected.  The script of an [m]-of-[n]
    multisignature starts with the opcode of the number [m], and so does a
    BDAP script: for [m] from 1 to 5 the output is taken for a BDAP output,
    and no transaction with one passes [CheckTransaction] unless it has the
    version of BDAP transactions. *)
Theorem bare_multisig_rejected `{!Protocols} {V : Type} `{!CCoinsView V} (c : CCoinsViewCache V) tx out m keys s
  (Hm : 1 <= m <= 5) (Hs : GetScriptForMultisig m keys = Some s) (Hout : scriptPubKey out = s) (Hin : out ∈ vout tx)
  (Hv : nVersion tx <> BDAP_TX_VERSION) :
  exists r, CheckTransaction c tx = inl r.
Proof.
  pose proof (multisig_is_BDAP m keys s out Hm Hs Hout) as Hb. unfold CheckTransaction.
  destruct (vin tx) as [|i0 ins]; [eauto|]. case_bool_decide; [eauto|]. destruct (_ >? _); [eauto|].
  destruct (check_outputs _ _) as [r|s1] eqn:Eo; [eauto|].
  assert (Hfl : outBDAP s1 = true).
  { apply (check_outputs_flag _ _ _ Eo). right. apply Exists_exists. eauto. }
  destruct (negb _); [eauto|]. destruct (if IsCoinBase tx then _ else _) as [r|[[[coins a] b] c1]]; [eauto|].
  rewrite Hfl, (proj2 (Z.eqb_neq _ _) Hv). destruct (IsCoinBase tx && false); cbn [orb andb negb]; eauto.
Qed.

(** ** Witnesses *)

#[local] Existing Instance toy_curve.
#[local] Existing Instance toy_curve_ok.
#[local] Existing Instance toy_crypto.

Definition toy_protocols : Protocols := {|
  ProvisionalCheckTransaction _ := true;
  CheckFluidOperationScript _ _ := true;
  ValidationProcesses _ _ := true;
  CheckBDAPTxCreditUsage _ _ _ _ _ _ _ := true
|}.
#[local] Existing Instance toy_protocols.
Definition toy_ecdsa : ECDSA := fun _ _ _ => true.
#[local] Existing Instance toy_ecdsa.

(** An input locked until height 100, spent at height 150. *)
Definition locked_tx : CTransaction := mkCTransaction 2 [mkCTxIn sample_outpoint [] 2] [mkCTxOut 4000 [OP_DUP] (-10)] 100.

Lemma timelock_enforced_witness : 100 < 150.
Proof.
  apply (timelock_enforced locked_tx 0 100 [OP_DROP; OP_1] 512 [] [[1]] 150 0);
    [lia|vm_compute; lia|vm_compute; reflexivity..].
Defined.

(** An input that waits two blocks after height 1, in the block at height 3. *)
Lemma relative_lock_enforced_witness : 1 + 2 <= 3.
Proof.
  apply (relative_lock_enforced Chain.sample_tree locked_tx 0 2 [OP_DROP; OP_1] 1024 [] [[1]] [1] 3
    (Chain.sample_block 3 (Some 2%nat) (Some 1%nat) 3 190) 2 130 1);
    [lia|vm_compute; reflexivity..].
Defined.

Lemma sample_inputs_valid : inputs_valid (cache_utxo sample_cache) sample_spend 50 [sample_coin].
Proof.
  split; [constructor; [vm_compute; reflexivity|constructor]|].
  split; [constructor; [intros _; vm_compute; discriminate|constructor]|].
  split; [constructor; [split; vm_compute; discriminate|constructor]|].
  split; [vm_compute; discriminate|].
  split; [|vm_compute; discriminate].
  constructor; [split; vm_compute; discriminate|constructor; [split; vm_compute; discriminate|constructor]].
Qed.

Lemma CheckTxInputs_exact_witness : exists c', CheckTxInputs sample_cache sample_spend 50 = Done (inr c').
Proof.
  apply (CheckTxInputs_exact sample_cache sample_spend 50 sample_cache_ok eq_refl).
  exists [sample_coin]. exact sample_inputs_valid.
Defined.

Lemma no_inflation_witness : exists c1 c2, CheckTxInputs sample_cache sample_spend 50 = Done (inr c1) /\
  UpdateCoins c1 sample_spend 50 = Done ([sample_coin], c2) /\ supply (cache_utxo c2) + 1000 + 0 = supply (cache_utxo sample_cache).
Proof.
  destruct (CheckTxInputs_cases sample_cache sample_spend 50 sample_cache_ok eq_refl) as [(ys & c1 & _ & E & _)|[Hno _]];
    [|destruct Hno; exists [sample_coin]; exact sample_inputs_valid].
  destruct (no_inflation sample_cache c1 sample_spend 50 sample_cache_ok eq_refl) as (xs & c2 & Hup & Hxs & _ & _ & Hs).
  - constructor; [apply not_elem_of_nil|constructor].
  - vm_compute. congruence.
  - intros o Ho. unfold coin_ok, CCoinsViewCache_ok, CCoinsViewDB_ok, coin_storable.
    apply elem_of_cons in Ho as [->|Ho]; [vm_compute; intuition congruence|]. apply list_elem_of_singleton in Ho as ->. vm_compute. congruence.
  - vm_compute. split; [reflexivity|]. split; [congruence|exact I].
  - exact E.
  - assert (Hc : coins_of (cache_utxo sample_cache) (vin sample_spend) [sample_coin]) by exact (proj1 sample_inputs_valid).
    assert (xs = [sample_coin]) as -> by (eapply coins_of_inj; eauto).
    exists c1, c2. split; [exact E|]. split; [exact Hup|exact Hs].
Defined.

Lemma CheckTransaction_exact_witness : exists c', CheckTransaction sample_cache sample_spend = inr c'.
Proof.
  destruct (proj2 (CheckTransaction_exact sample_cache sample_spend sample_cache_ok
    ltac:(constructor; [split; reflexivity|constructor; [split; reflexivity|constructor]])
    ltac:(constructor; [intros x Hx; vm_compute in Hx; injection Hx as <-; reflexivity|constructor]))) as (c' & H & _);
    [|exists c'; exact H].
  split; [discriminate|]. split; [discriminate|]. split; [vm_compute; discriminate|].
  split; [constructor; [split; vm_compute; discriminate|constructor; [split; vm_compute; discriminate|constructor]]|].
  split; [vm_compute; discriminate|].
  split; [constructor; [apply not_elem_of_nil|constructor]|]. constructor; [reflexivity|constructor].
Defined.

Lemma bare_multisig_rejected_witness :
  exists r, CheckTransaction sample_cache (mkCTransaction 1 [mkCTxIn sample_outpoint [] 0]
    [mkCTxOut 4000 ([OP_1 + 1; 33] ++ repeat 2 33 ++ [33] ++ repeat 3 33 ++ [OP_1 + 1; OP_CHECKMULTISIG]) (-10)] 0) = inl r.
Proof.
  apply (bare_multisig_rejected sample_cache _ (mkCTxOut 4000 ([OP_1 + 1; 33] ++ repeat 2 33 ++ [33] ++ repeat 3 33 ++ [OP_1 + 1; OP_CHECKMULTISIG]) (-10))
    2 [repeat 2 33; repeat 3 33] ([OP_1 + 1; 33] ++ repeat 2 33 ++ [33] ++ repeat 3 33 ++ [OP_1 + 1; OP_CHECKMULTISIG]));
    [lia|vm_compute; reflexivity|reflexivity|left|vm_compute; discriminate].
Defined.

End TxVerify.
