(* ===== verification/Merkle.v ===== *)
(** * Merkle trees (consensus/merkle.cpp)

    [MerkleComputation] reads the leaves once and keeps one hash per level of
    the tree.  The reference is the definition of the tree level by level: the
    root of a list of leaves is found by hashing neighbours together, an odd
    last element with itself, until one hash is left. *)

From stdpp Require Import base sets list list_numbers numbers option.
From Stdlib Require Import ZArith Lia.
From S2P Require Import Prelude Serialize Script Transaction Interpreter InterpreterSafety Compressor Coins Ledger.

Local Open Scope Z_scope.

Module Merkle.
Import Transaction Interpreter InterpreterSafety Ledger.

Section Merkle.
Context `{!Crypto}.

(** [CHash256().Write(a).Write(b)] and [Hash(a, b)]. *)
Definition Hash2 (a b : uint256) : uint256 := CHash256 (a ++ b).

(** [count & (1 << level)] *)
Definition bit_clear (count : Z) (level : nat) : bool := Z.land count (Z.shiftl 1 (Z.of_nat level)) =? 0.

(** What the loops over the levels carry. *)
Record climb : Type := mkClimb {
  level : nat;
  h : uint256;
  matchh : bool;
  pbranch : list uint256;
  mutated : bool
}.

(** The loop [for (level = 0; !(count & (1 << level)); level++)]; the same loop
    ends each round of the final sweep.  A count of 32 bits stops it within 32
    rounds. *)
Fixpoint climb_loop (fuel : nat) (inner : list uint256) (matchlevel : Z) (count : Z) (s : climb) : climb :=
  match fuel with
  | O => s
  | S fuel =>
      if bit_clear count (level s) then
        let i := nth (level s) inner uint256_null in
        let '(branch, m) :=
          if matchh s then (pbranch s ++ [i], true)
          else if matchlevel =? Z.of_nat (level s) then (pbranch s ++ [h s], true)
          else (pbranch s, false) in
        climb_loop fuel inner matchlevel count
          (mkClimb (S (level s)) (Hash2 i (h s)) m branch (mutated s || bool_decide (i = h s)))
      else s
  end.

(** The loop over the leaves. *)
Record fold_state : Type := mkFold {
  count : Z;
  inner : list uint256;
  matchlevel : Z;
  f_branch : list uint256;
  f_mutated : bool
}.

Definition add_leaf (branchpos : Z) (st : fold_state) (leaf : uint256) : fold_state :=
  let m := count st =? branchpos in
  let c := u32 (count st + 1) in
  let s := climb_loop 32 (inner st) (matchlevel st) c (mkClimb 0 leaf m (f_branch st) (f_mutated st)) in
  mkFold c (<[level s := h s]> (inner st)) (if matchh s then Z.of_nat (level s) else matchlevel st) (pbranch s) (mutated s).

(** [while (!(count & (1 << level))) level++] *)
Fixpoint lowest_level (fuel : nat) (count : Z) (level : nat) : nat :=
  match fuel with
  | O => level
  | S fuel => if bit_clear count level then lowest_level fuel count (S level) else level
  end.

(** The final sweep; each round climbs at least one level. *)
Fixpoint sweep (fuel : nat) (inner : list uint256) (matchlevel : Z) (count : Z) (s : climb) : climb :=
  match fuel with
  | O => s
  | S fuel =>
      if count =? Z.shiftl 1 (Z.of_nat (level s)) then s
      else
        let branch := if matchh s then pbranch s ++ [h s] else pbranch s in
        let count := u32 (count + Z.shiftl 1 (Z.of_nat (level s))) in
        let s := mkClimb (S (level s)) (Hash2 (h s) (h s)) (matchh s) branch (mutated s) in
        let s' := climb_loop 32 inner matchlevel count s in
        sweep fuel inner matchlevel count (mkClimb (level s') (h s') (matchh s') (pbranch s') (mutated s))
  end.

(** [MerkleComputation]: the root, the mutation flag and the branch. *)
Definition MerkleComputation (leaves : list uint256) (branchpos : Z) : uint256 * bool * list uint256 :=
  match leaves with
  | [] => (uint256_null, false, [])
  | _ =>
      let st := foldl (add_leaf branchpos) (mkFold 0 (repeat uint256_null 32) (-1) [] false) leaves in
      let level := lowest_level 32 (count st) 0 in
      let s := sweep 32 (inner st) (matchlevel st) (count st)
                 (mkClimb level (nth level (inner st) uint256_null) (matchlevel st =? Z.of_nat level) (f_branch st) (f_mutated st)) in
      (h s, mutated s, pbranch s)
  end.

Definition ComputeMerkleRoot (leaves : list uint256) : uint256 * bool := (MerkleComputation leaves (u32 (-1))).1.

Definition ComputeMerkleBranch (leaves : list uint256) (position : Z) : list uint256 := (MerkleComputation leaves position).2.

Fixpoint ComputeMerkleRootFromBranch (hash : uint256) (vMerkleBranch : list uint256) (nIndex : Z) : uint256 :=
  match vMerkleBranch with
  | [] => hash
  | it :: branch =>
      ComputeMerkleRootFromBranch (if Z.land nIndex 1 =? 0 then Hash2 hash it else Hash2 it hash) branch (Z.shiftr nIndex 1)
  end.

(** [BlockMerkleRoot] and [BlockMerkleBranch], on the transactions of a block. *)
Definition BlockMerkleRoot (vtx : list CTransaction) : uint256 * bool := ComputeMerkleRoot (map GetHash vtx).
Definition BlockMerkleBranch (vtx : list CTransaction) (position : Z) : list uint256 :=
  ComputeMerkleBranch (map GetHash vtx) position.

(** ** The reference *)

(** One level: neighbours hashed together, an odd last one with itself. *)
Fixpoint pair_up (l : list uint256) : list uint256 :=
  match l with
  | [] => []
  | [a] => [Hash2 a a]
  | a :: b :: l => Hash2 a b :: pair_up l
  end.

Fixpoint levels (fuel : nat) (l : list uint256) : uint256 :=
  match l, fuel with
  | [a], _ => a
  | _, O => uint256_null
  | _, S fuel => levels fuel (pair_up l)
  end.

(** The root level by level; the empty list has the null root. *)
Definition merkle_root (l : list uint256) : uint256 := levels (length l) l.

End Merkle.

(** ** Nodes of the tree *)

Section Proofs.
Context `{!Crypto}.

Lemma odd_of_nat n : Z.odd (Z.of_nat n) = Nat.odd n.
Proof.
  induction n as [|n IH]; [done|]. rewrite Nat2Z.inj_succ, Z.odd_succ, Nat.odd_succ, <- Z.negb_odd, <- Nat.negb_odd.
  by rewrite IH.
Qed.

Lemma nat_testbit a k : Z.testbit (Z.of_nat a) (Z.of_nat k) = Nat.odd (a / 2 ^ k).
Proof.
  rewrite Z.testbit_odd, Z.shiftr_div_pow2 by lia. rewrite <- odd_of_nat, Nat2Z.inj_div, Nat2Z.inj_pow. done.
Qed.

Lemma bit_clear_spec a k : bit_clear (Z.of_nat a) k = Nat.even (a / 2 ^ k).
Proof.
  unfold bit_clear. rewrite Z.shiftl_1_l, land_pow2_eqb, nat_testbit by lia. apply Nat.negb_odd.
Qed.

Lemma pow2_pos k : (0 < 2 ^ k)%nat.
Proof. induction k; cbn; lia. Qed.

Lemma div_block q k t : (t < 2 ^ k)%nat -> ((q * 2 ^ k + t) / 2 ^ k = q)%nat.
Proof. intros Ht. pose proof (pow2_pos k). rewrite Nat.div_add_l, Nat.div_small; lia. Qed.

(** The root of a list of at most [2^k] leaves, at height [k]. *)
Fixpoint mroot (k : nat) (l : list uint256) : uint256 :=
  match k with
  | O => nth 0 l uint256_null
  | S k =>
      if (length l <=? 2 ^ k)%nat then Hash2 (mroot k l) (mroot k l)
      else Hash2 (mroot k (take (2 ^ k) l)) (mroot k (drop (2 ^ k) l))
  end.

Section Tree.
Context (L : list uint256).

(** The [j]-th node of height [k]. *)
Definition node (k j : nat) : uint256 := mroot k (take (2 ^ k) (drop (j * 2 ^ k) L)).

Lemma node_full k j : ((2 * j + 1) * 2 ^ k < length L)%nat -> node (S k) j = Hash2 (node k (2 * j)) (node k (2 * j + 1)).
Proof.
  intros Hj. pose proof (pow2_pos k). unfold node. cbn [mroot Nat.pow].
  rewrite length_take, length_drop, (proj2 (Nat.leb_gt _ _)) by nia. f_equal.
  - rewrite take_take. do 2 f_equal; [lia|]. f_equal. lia.
  - replace (2 * 2 ^ k)%nat with (2 ^ k + 2 ^ k)%nat by lia. rewrite <- take_drop_commute, drop_drop. do 2 f_equal. f_equal. lia.
Qed.

Lemma node_half k j : (length L <= (2 * j + 1) * 2 ^ k)%nat -> node (S k) j = Hash2 (node k (2 * j)) (node k (2 * j)).
Proof.
  intros Hj. pose proof (pow2_pos k). unfold node. cbn [mroot Nat.pow].
  rewrite length_take, length_drop, (proj2 (Nat.leb_le _ _)) by nia.
  rewrite !take_ge by (rewrite length_drop; nia). by replace (j * (2 * 2 ^ k))%nat with (2 * j * 2 ^ k)%nat by lia.
Qed.

Lemma node_leaf j : node 0 j = nth j L uint256_null.
Proof.
  unfold node. cbn [mroot Nat.pow]. rewrite Nat.mul_1_r. rewrite <- (Nat.add_0_r j) at 2. rewrite <- List.nth_skipn.
  by destruct (drop j L).
Qed.

End Tree.

(** *** The reference is the node at the smallest height *)

Lemma length_pair_up l : length (pair_up l) = ((length l + 1) / 2)%nat.
Proof.
  assert (Hind : forall (n : nat) l, (length l <= n)%nat -> length (pair_up l) = ((length l + 1) / 2)%nat); [|by apply (Hind (length l))].
  clear l. intros n. induction n as [|n IH]; intros [|a [|b l]] Hl; cbn [length] in Hl; try lia; try done.
  cbn [pair_up length]. rewrite IH by lia. replace (S (S (length l)) + 1)%nat with (length l + 1 + 1 * 2)%nat by lia.
  rewrite Nat.div_add; lia.
Qed.

Lemma pair_up_split j : forall l, (2 * j <= length l)%nat ->
  take j (pair_up l) = pair_up (take (2 * j) l) /\ drop j (pair_up l) = pair_up (drop (2 * j) l).
Proof.
  induction j as [|j IH]; intros l Hl; [done|]. destruct l as [|a [|b l]]; cbn [length] in Hl; try lia.
  replace (2 * S j)%nat with (S (S (2 * j))) by lia. cbn [pair_up]. rewrite !firstn_cons, !skipn_cons. cbn [pair_up].
  destruct (IH l ltac:(lia)) as [-> ->]. done.
Qed.

Lemma mroot_pair k : forall l, (0 < length l <= 2 ^ S k)%nat -> mroot (S k) l = mroot k (pair_up l).
Proof.
  induction k as [|k IH]; intros l Hl.
  { destruct l as [|a [|b [|]]]; cbn in Hl; try lia; done. }
  pose proof (pow2_pos k). change (mroot (S (S k)) l) with
    (if (length l <=? 2 ^ S k)%nat then Hash2 (mroot (S k) l) (mroot (S k) l)
     else Hash2 (mroot (S k) (take (2 ^ S k) l)) (mroot (S k) (drop (2 ^ S k) l))).
  change (mroot (S k) (pair_up l)) with
    (if (length (pair_up l) <=? 2 ^ k)%nat then Hash2 (mroot k (pair_up l)) (mroot k (pair_up l))
     else Hash2 (mroot k (take (2 ^ k) (pair_up l))) (mroot k (drop (2 ^ k) (pair_up l)))).
  rewrite length_pair_up. assert (Hp : (2 ^ S k = 2 * 2 ^ k)%nat) by (cbn; lia).
  pose proof (Nat.div_mod_eq (length l + 1) 2) as Hdm. pose proof (Nat.mod_upper_bound (length l + 1) 2 ltac:(lia)).
  destruct (Nat.leb_spec (length l) (2 ^ S k)).
  - rewrite (proj2 (Nat.leb_le _ _)) by lia. rewrite IH by lia. done.
  - rewrite (proj2 (Nat.leb_gt _ _)) by lia. destruct (pair_up_split (2 ^ k) l ltac:(lia)) as [-> ->].
    rewrite <- Hp. change (2 ^ S (S k))%nat with (2 ^ S k + (2 ^ S k + 0))%nat in Hl.
    rewrite !IH; [done|rewrite length_drop; lia|rewrite length_take; lia].
Qed.

Lemma levels_mroot k : forall l fuel, (0 < length l <= 2 ^ k)%nat -> (2 ^ k < 2 * length l)%nat -> (k <= fuel)%nat ->
  levels fuel l = mroot k l.
Proof.
  induction k as [|k IH]; intros l fuel Hl Hlow Hf.
  { destruct l as [|a [|]]; cbn in Hl; try lia. by destruct fuel. }
  destruct fuel as [|fuel]; [lia|]. assert (Hp : (2 ^ S k = 2 * 2 ^ k)%nat) by (cbn; lia). pose proof (pow2_pos k).
  rewrite mroot_pair by done. destruct l as [|a [|b l]]; cbn [length] in *; try lia.
  change (levels (S fuel) (a :: b :: l)) with (levels fuel (pair_up (a :: b :: l))).
  assert (Hlen : (length (pair_up (a :: b :: l)) = (S (S (length l)) + 1) / 2)%nat) by apply length_pair_up.
  pose proof (Nat.div_mod_eq (S (S (length l)) + 1) 2). pose proof (Nat.mod_upper_bound (S (S (length l)) + 1) 2 ltac:(lia)).
  apply IH; lia.
Qed.

Lemma pow2_gt k : (k < 2 ^ k)%nat.
Proof. induction k; cbn; lia. Qed.

Lemma merkle_root_node L k : (0 < length L <= 2 ^ k)%nat -> (2 ^ k < 2 * length L)%nat -> merkle_root L = node L k 0.
Proof.
  intros Hl Hlow. unfold merkle_root, node. rewrite Nat.mul_0_l, drop_0, take_ge by lia.
  apply levels_mroot; [done|done|]. pose proof (pow2_gt k). destruct k; [lia|].
  assert (2 ^ S k = 2 * 2 ^ k)%nat by (cbn; lia). pose proof (pow2_gt k). lia.
Qed.

(** ** The computation, against the nodes of the tree *)

Lemma from_branch_snoc b x : forall hash pos,
  ComputeMerkleRootFromBranch hash (b ++ [x]) (Z.of_nat pos) =
  let r := ComputeMerkleRootFromBranch hash b (Z.of_nat pos) in
  if Nat.even (pos / 2 ^ length b) then Hash2 r x else Hash2 x r.
Proof.
  assert (Hbit : forall p, (Z.land (Z.of_nat p) 1 =? 0) = Nat.even p).
  { intros p. rewrite <- (Nat.div_1_r p) at 2. apply (bit_clear_spec p 0). }
  assert (Hshift : forall p, Z.shiftr (Z.of_nat p) 1 = Z.of_nat (p / 2)).
  { intros p. rewrite Z.shiftr_div_pow2, Nat2Z.inj_div by lia. done. }
  induction b as [|y b IH]; intros hash pos; cbn [app ComputeMerkleRootFromBranch length].
  - rewrite Hbit. by rewrite Nat.div_1_r.
  - rewrite Hshift, IH. cbn zeta. rewrite Nat.pow_succ_r', Nat.Div0.div_div. done.
Qed.

Lemma pow2_bit k : Z.shiftl 1 (Z.of_nat k) = Z.of_nat (2 ^ k).
Proof. rewrite Z.shiftl_1_l, Nat2Z.inj_pow. done. Qed.

(** A number has one decomposition into an odd multiple of a power of two. *)
Lemma odd_multiple_unique q k q' k' :
  Nat.odd q = true -> (q * 2 ^ k = q' * 2 ^ k')%nat -> (k' <= k)%nat.
Proof.
  intros Hq He. destruct (Nat.le_gt_cases k' k) as [|Hk]; [done|].
  exfalso. replace k' with (k' - k - 1 + 1 + k)%nat in He by lia. rewrite !Nat.pow_add_r in He. pose proof (pow2_pos k).
  assert (q = 2 * (q' * 2 ^ (k' - k - 1)))%nat as -> by (apply (Nat.mul_cancel_r _ _ (2 ^ k)); cbn in *; lia).
  rewrite Nat.odd_mul in Hq. done.
Qed.

Lemma half_even q : Nat.even q = true -> (0 < q)%nat -> exists r, q = (2 * r + 2)%nat.
Proof. intros [r ->]%Nat.even_spec Hq. exists (r - 1)%nat. lia. Qed.

Section Compute.
Context (L : list uint256) (pos : nat).

Abbreviation node := (node L).

(** The entries of [inner] after [n0] leaves: at each bit of [n0] the node of
    that height which ends there. *)
Definition inner_ok (n0 : nat) (inner : list uint256) : Prop :=
  forall k r t, n0 = ((2 * r + 1) * 2 ^ k + t)%nat -> (t < 2 ^ k)%nat -> nth k inner uint256_null = node k (2 * r).

(** The branch [b] leads from the leaf at [pos] to node [j] of height [k]. *)
Definition held (k j : nat) (b : list uint256) : Prop :=
  length b = k /\ (pos / 2 ^ k = j)%nat /\ ComputeMerkleRootFromBranch (node 0 pos) b (Z.of_nat pos) = node k j.

(** The leaf is under no node being climbed: not read yet, or under an entry
    of [inner] at this level or above. *)
Definition idle (lim n0 : nat) (ml : Z) (lv : nat) (b : list uint256) : Prop :=
  (ml = -1 /\ b = [] /\ (lim <= pos)%nat) \/
  exists m r t, ml = Z.of_nat m /\ (lv <= m)%nat /\ n0 = ((2 * r + 1) * 2 ^ m + t)%nat /\ (t < 2 ^ m)%nat /\ held m (2 * r) b.

(** A state of the climb at the [q]-th node of its level. *)
Record climbing (lim n0 c : nat) (ml : Z) (q : nat) (s : climb) : Prop := {
  cl_pos : (0 < q)%nat;
  cl_count : c = (q * 2 ^ level s)%nat;
  cl_low : ((q - 1) * 2 ^ level s <= n0)%nat;
  cl_len : ((q - 1) * 2 ^ level s < length L)%nat;
  cl_h : h s = node (level s) (q - 1);
  cl_match : if matchh s then held (level s) (q - 1) (pbranch s) else idle lim n0 ml (level s) (pbranch s)
}.

Lemma held_right k j b x : held k (2 * j + 1) b -> x = node k (2 * j) ->
  ((2 * j + 1) * 2 ^ k < length L)%nat -> held (S k) j (b ++ [x]).
Proof.
  intros (Hb & Hp & Hr) -> Hl. split_and!.
  - rewrite length_app. cbn. lia.
  - rewrite Nat.pow_succ_r', Nat.mul_comm, <- Nat.Div0.div_div, Hp. symmetry. apply (Nat.div_unique _ 2 j 1); lia.
  - rewrite from_branch_snoc, Hb, Hp, Hr. cbn zeta.
    replace (Nat.even (2 * j + 1)) with false by (rewrite Nat.even_add, Nat.even_mul; done).
    symmetry. by apply node_full.
Qed.

Lemma held_left k j b x : held k (2 * j) b -> Hash2 (node k (2 * j)) x = node (S k) j -> held (S k) j (b ++ [x]).
Proof.
  intros (Hb & Hp & Hr) Hx. split_and!.
  - rewrite length_app. cbn. lia.
  - rewrite Nat.pow_succ_r', Nat.mul_comm, <- Nat.Div0.div_div, Hp. symmetry. apply (Nat.div_unique _ 2 j 0); lia.
  - rewrite from_branch_snoc, Hb, Hp, Hr. cbn zeta. rewrite Nat.even_mul. done.
Qed.

Lemma inner_at lim n0 c ml inner r s : inner_ok n0 inner -> climbing lim n0 c ml (2 * r + 2) s -> (n0 < c)%nat ->
  nth (level s) inner uint256_null = node (level s) (2 * r).
Proof.
  intros Hin [_ Hc Hlow _ _ _] Hn. pose proof (pow2_pos (level s)).
  replace (2 * r + 2 - 1)%nat with (2 * r + 1)%nat in * by lia.
  apply (Hin _ r (n0 - (2 * r + 1) * 2 ^ level s)%nat); lia.
Qed.

(** One round of the climb. *)
Lemma climb_step lim n0 c ml inner r s :
  inner_ok n0 inner -> climbing lim n0 c ml (2 * r + 2) s -> (n0 < c)%nat ->
  let i := nth (level s) inner uint256_null in
  let '(branch, m) :=
    if matchh s then (pbranch s ++ [i], true)
    else if ml =? Z.of_nat (level s) then (pbranch s ++ [h s], true) else (pbranch s, false) in
  forall mu, climbing lim n0 c ml (r + 1) (mkClimb (S (level s)) (Hash2 i (h s)) m branch mu).
Proof.
  intros Hin Hs Hn i. pose proof (inner_at _ _ _ _ _ _ _ Hin Hs Hn) as Hi. fold i in Hi.
  destruct Hs as [_ Hc Hlow Hlen Hh Hm]. pose proof (pow2_pos (level s)) as Hpow.
  replace (2 * r + 2 - 1)%nat with (2 * r + 1)%nat in * by lia.
  assert (Hnode : Hash2 i (h s) = node (S (level s)) r) by (rewrite Hi, Hh, <- node_full; done).
  assert (Hgo : forall (m : bool) b (mu : bool), (if m then held (S (level s)) r b else idle lim n0 ml (S (level s)) b) ->
    climbing lim n0 c ml (r + 1) (mkClimb (S (level s)) (Hash2 i (h s)) m b mu)).
  { intros m b mu Hmb. split; cbn [level h matchh pbranch]; rewrite ?Nat.add_sub, ?Nat.pow_succ_r'; try done; lia. }
  destruct (matchh s); [intros mu; apply Hgo; by apply held_right|].
  destruct (Z.eqb_spec ml (Z.of_nat (level s))) as [He|Hne]; intros mu; apply Hgo.
  - destruct Hm as [[? _]|(m & r' & t & Hml & _ & Hdec & Ht & Hheld)]; [lia|]. assert (m = level s) as -> by lia.
    assert (r' = r) as -> by nia. apply held_left; [done|]. by rewrite <- Hi.
  - destruct Hm as [?|(m & r' & t & Hml & Hlv & Hdec & Ht & Hheld)]; [by left|].
    right. exists m, r', t. split_and!; try done. assert (m <> level s) by congruence. lia.
Qed.

Lemma level_bound q lv w : (0 < q)%nat -> Z.of_nat (q * 2 ^ lv) < 2 ^ Z.of_nat w -> (lv < w)%nat.
Proof.
  intros Hq Hc. destruct (Nat.lt_ge_cases lv w) as [|Hge]; [done|].
  assert (2 ^ Z.of_nat w <= 2 ^ Z.of_nat lv) by (apply Z.pow_le_mono_r; lia).
  pose proof (Nat2Z.inj_pow 2 lv). nia.
Qed.

(** The climb ends at an odd node: the bit of the count that is set. *)
Lemma climb_ok lim n0 c ml inner fuel : forall q s,
  inner_ok n0 inner -> climbing lim n0 c ml q s -> (n0 < c)%nat -> Z.of_nat c < 2 ^ 32 -> (32 <= level s + fuel)%nat ->
  let s' := climb_loop fuel inner ml (Z.of_nat c) s in
  exists q', Nat.odd q' = true /\ climbing lim n0 c ml q' s' /\ (level s <= level s' < 32)%nat /\
    (mutated s' = false -> mutated s = false /\
       forall k j, (level s <= k < level s')%nat -> ((2 * j + 2) * 2 ^ k = c)%nat -> node k (2 * j) <> node k (2 * j + 1)).
Proof.
  induction fuel as [|fuel IH]; intros q s Hin Hs Hn Hc Hf; pose proof (pow2_pos (level s)) as Hpow.
  { exfalso. destruct Hs as [Hq Hcnt _ _ _ _]. subst c. pose proof (level_bound q (level s) 32 Hq Hc). lia. }
  assert (Hbit : bit_clear (Z.of_nat c) (level s) = Nat.even q).
  { rewrite bit_clear_spec, (cl_count _ _ _ _ _ _ Hs). rewrite <- (Nat.add_0_r (q * _)), div_block by done. done. }
  cbn [climb_loop]. rewrite Hbit. destruct (Nat.even q) eqn:Heven.
  - destruct (half_even q Heven (cl_pos _ _ _ _ _ _ Hs)) as [r ->].
    pose proof (climb_step lim n0 c ml inner r s Hin Hs Hn) as Hstep. cbn zeta in Hstep |- *.
    case_match. specialize (Hstep (mutated s || bool_decide (nth (level s) inner uint256_null = h s))).
    destruct (IH _ _ Hin Hstep Hn Hc ltac:(cbn [level]; lia)) as (q' & Ho & Hq' & Hlv & Hmu).
    exists q'. cbn [level mutated] in Hlv, Hmu. split_and!; [done|done|lia..|]. intros [[Hm0 Hne]%orb_false_iff Hrest]%Hmu.
    split; [done|]. intros k j Hk Hj. destruct (decide (k = level s)) as [->|]; [|apply Hrest; [lia|done]].
    apply bool_decide_eq_false in Hne. rewrite (inner_at _ _ _ _ _ _ _ Hin Hs Hn), (cl_h _ _ _ _ _ _ Hs) in Hne.
    assert (j = r) as ->; [|by replace (2 * r + 2 - 1)%nat with (2 * r + 1)%nat in Hne by lia].
    rewrite (cl_count _ _ _ _ _ _ Hs) in Hj. apply Nat.mul_cancel_r in Hj; lia.
  - exists q. split_and!; [by rewrite <- Nat.negb_even, Heven|done|lia| |intros ?; split; [done|lia]].
    destruct Hs as [Hq Hcnt _ _ _ _]. subst c. exact (level_bound q (level s) 32 Hq Hc).
Qed.

(** No two full neighbours among the first [n0] leaves are equal. *)
Definition distinct_upto (n0 : nat) : Prop :=
  forall k j, ((2 * j + 2) * 2 ^ k <= n0)%nat -> node k (2 * j) <> node k (2 * j + 1).

(** What the loop over the leaves keeps after [n0] leaves. *)
Record folded (n0 : nat) (st : fold_state) : Prop := {
  fo_count : count st = Z.of_nat n0;
  fo_size : length (inner st) = 32%nat;
  fo_inner : inner_ok n0 (inner st);
  fo_match : idle n0 n0 (matchlevel st) 0 (f_branch st);
  fo_mutated : f_mutated st = false -> distinct_upto n0
}.

(** Storing the climbed node keeps [inner] right. *)
Lemma inner_ok_store n0 inner q lv x :
  inner_ok n0 inner -> S n0 = (q * 2 ^ lv)%nat -> Nat.odd q = true -> (lv < length inner)%nat ->
  x = node lv (q - 1) -> inner_ok (S n0) (<[lv := x]> inner).
Proof.
  intros Hin Hc Hodd Hlv -> k r t Hdec Ht. destruct (decide (k = lv)) as [->|Hne].
  - rewrite nth_lookup, list_lookup_insert_eq by done. cbn. f_equal.
    assert (2 * r + 1 = q)%nat; [|lia].
    rewrite <- (div_block (2 * r + 1) lv t), <- Hdec, Hc by done. apply Nat.div_mul. pose proof (pow2_pos lv). lia.
  - rewrite nth_lookup, list_lookup_insert_ne, <- nth_lookup by done.
    assert (Hk : t = 0%nat -> (k <= lv)%nat).
    { intros ->. apply (odd_multiple_unique q lv (2 * r + 1)); [done|lia]. }
    destruct (Nat.lt_ge_cases k lv) as [Hlt|Hge].
    + exfalso. replace lv with (lv - k - 1 + 1 + k)%nat in Hc by lia. rewrite !Nat.pow_add_r in Hc.
      assert (2 * r + 1 = q * 2 ^ (lv - k - 1) * 2)%nat; [|lia].
      rewrite <- (div_block (2 * r + 1) k t), <- Hdec, Hc by done. cbn [Nat.pow].
      replace (q * (2 ^ (lv - k - 1) * (2 * 1) * 2 ^ k))%nat with (q * 2 ^ (lv - k - 1) * 2 * 2 ^ k)%nat by lia.
      apply Nat.div_mul. pose proof (pow2_pos k). lia.
    + apply (Hin k r (t - 1)%nat); lia.
Qed.

Lemma add_leaf_ok n0 st leaf :
  folded n0 st -> (n0 < length L)%nat -> Z.of_nat (length L) <= 2 ^ 31 -> L !! n0 = Some leaf ->
  folded (S n0) (add_leaf (Z.of_nat pos) st leaf).
Proof.
  intros [Hc Hsz Hin Hm Hmu] Hn HL Hleaf. unfold add_leaf. rewrite Hc.
  replace (u32 (Z.of_nat n0 + 1)) with (Z.of_nat (S n0)) by (rewrite u32_small; lia).
  set (s0 := mkClimb 0 leaf _ _ _).
  assert (Hs0 : climbing (S n0) n0 (S n0) (matchlevel st) (S n0) s0).
  { split; cbn [level h matchh pbranch s0 Nat.pow]; try lia.
    - replace (S n0 - 1)%nat with n0 by lia. rewrite node_leaf. symmetry. by apply nth_lookup_Some.
    - destruct (Z.eqb_spec (Z.of_nat n0) (Z.of_nat pos)) as [He|Hne].
      + assert (n0 = pos) as -> by lia. destruct Hm as [(_ & -> & _)|(m & r & t & _ & _ & Hdec & Ht & Hb & Hp & _)].
        * split_and!; [done| |by rewrite Nat.sub_succ, Nat.sub_0_r]. rewrite Nat.div_1_r. lia.
        * exfalso. rewrite Hdec, div_block in Hp by done. lia.
      + destruct Hm as [(? & ? & ?)|?]; [left; split_and!; try done; lia|by right]. }
  destruct (climb_ok _ _ _ _ (inner st) 32 _ s0 Hin Hs0 ltac:(lia) ltac:(lia) ltac:(cbn; lia)) as (q & Hodd & Hs & Hlv & Hmu').
  set (s := climb_loop 32 _ _ _ s0) in *. destruct Hs as [Hq Hcnt Hlow Hlen Hh Hmt].
  split; cbn [count inner matchlevel f_branch f_mutated]; [done|by rewrite length_insert| | |].
  - apply inner_ok_store with q; try done. lia.
  - apply Nat.odd_spec in Hodd as Hodd'. destruct Hodd' as [r Hr]. pose proof (pow2_pos (level s)).
    destruct (matchh s).
    + right. exists (level s), r, 0%nat. replace (q - 1)%nat with (2 * r)%nat in Hmt by lia. subst q. split_and!; try done; lia.
    + destruct Hmt as [?|(m & r' & t & Hml & Hlm & Hdec & Ht & Hheld)]; [by left|].
      right. exists m, r', (S t). split_and!; try done; try lia.
      assert (S t <> 2 ^ m)%nat; [|lia]. intros He.
      assert (m = level s) as ->.
      { apply Nat.le_antisymm; [|done]. apply (odd_multiple_unique q _ (2 * r' + 2)); [done|lia]. }
      assert (q = 2 * r' + 2)%nat by nia. lia.
  - intros [Hm0 Hlast]%Hmu' k j Hj. destruct (decide ((2 * j + 2) * 2 ^ k = S n0)%nat) as [He|]; [|apply Hmu; [done|lia]].
    apply Hlast; [|done]. split; [cbn; lia|]. apply (odd_multiple_unique q _ (j + 1) (S k)); [done|]. rewrite Nat.pow_succ_r'. lia.
Qed.

Lemma fold_leaves_ok : Z.of_nat (length L) <= 2 ^ 31 -> forall todo done st,
  L = done ++ todo -> folded (length done) st -> folded (length L) (foldl (add_leaf (Z.of_nat pos)) st todo).
Proof.
  intros HL todo. induction todo as [|x todo IH]; intros dn st HE Hst.
  - rewrite app_nil_r in HE. by subst dn.
  - cbn [foldl]. apply (IH (dn ++ [x])); [by rewrite <- app_assoc|].
    rewrite length_app, Nat.add_1_r. apply add_leaf_ok; try done.
    + rewrite HE, length_app. cbn [length]. lia.
    + rewrite HE. by apply list_lookup_middle.
Qed.

(** A state of the final sweep: the last node of its level, at an odd count
    below the power of two [2^K] that closes the tree. *)
Record sweeping (K c : nat) (ml : Z) (q : nat) (s : climb) : Prop := {
  sw_odd : Nat.odd q = true;
  sw_count : c = (q * 2 ^ level s)%nat;
  sw_low : ((q - 1) * 2 ^ level s < length L)%nat;
  sw_high : (length L <= c)%nat;
  sw_top : (c <= 2 ^ K)%nat;
  sw_h : h s = node (level s) (q - 1);
  sw_match : if matchh s then held (level s) (q - 1) (pbranch s) else idle (length L) (length L) ml (S (level s)) (pbranch s)
}.

Lemma idle_above q lv ml b : Nat.odd q = true -> ((q - 1) * 2 ^ lv < length L < q * 2 ^ lv)%nat ->
  idle (length L) (length L) ml lv b -> idle (length L) (length L) ml (S lv) b.
Proof.
  intros [r' Hr']%Nat.odd_spec Hl [?|(m & r & t & Hml & Hlm & Hdec & Ht & Hheld)]; [by left|].
  right. exists m, r, t. split_and!; try done. assert (m <> lv); [|lia]. intros ->.
  assert (2 * r + 1 = 2 * r')%nat; [|lia]. replace (q - 1)%nat with (2 * r')%nat in Hl by lia.
  rewrite <- (div_block (2 * r + 1) lv t), <- Hdec by done. pose proof (pow2_pos lv).
  symmetry. apply (Nat.div_unique _ _ _ (length L - 2 * r' * 2 ^ lv)); nia.
Qed.

(** One round of the sweep. *)
Lemma sweep_round K c ml inner q s : (K <= 31)%nat -> inner_ok (length L) inner -> sweeping K c ml q s -> c <> (2 ^ level s)%nat ->
  let branch := if matchh s then pbranch s ++ [h s] else pbranch s in
  let s1 := mkClimb (S (level s)) (Hash2 (h s) (h s)) (matchh s) branch (mutated s) in
  let c' := (c + 2 ^ level s)%nat in
  let s' := climb_loop 32 inner ml (Z.of_nat c') s1 in
  (exists q', sweeping K c' ml q' (mkClimb (level s') (h s') (matchh s') (pbranch s') (mutated s))) /\
  (level s < level s')%nat /\ (c' <= 2 ^ K)%nat.
Proof.
  intros HK Hin [Hodd Hc Hlow Hhigh Htop Hh Hm] Hne branch s1 c' s'.
  apply Nat.odd_spec in Hodd as [r Hr]. pose proof (pow2_pos (level s)) as Hpow.
  replace (q - 1)%nat with (2 * r)%nat in * by lia.
  assert (HlvK : (level s < K)%nat).
  { apply (Nat.pow_lt_mono_r_iff 2); [lia|]. assert (q <> 1)%nat by nia. nia. }
  assert (Htop' : (c' <= 2 ^ K)%nat).
  { unfold c'. assert (HK2 : (2 ^ K = 2 * 2 ^ (K - level s - 1) * 2 ^ level s)%nat).
    { rewrite <- Nat.pow_succ_r', <- Nat.pow_add_r. f_equal. lia. }
    rewrite HK2 in Htop |- *. assert (2 * r + 1 <= 2 * 2 ^ (K - level s - 1))%nat; [|nia].
    apply (Nat.mul_le_mono_pos_r _ _ (2 ^ level s)); lia. }
  assert (HcZ : Z.of_nat c' < 2 ^ 32).
  { assert (2 ^ Z.of_nat K <= 2 ^ 31) by (apply Z.pow_le_mono_r; lia). pose proof (Nat2Z.inj_pow 2 K). lia. }
  assert (Hnode : Hash2 (h s) (h s) = node (S (level s)) r) by (rewrite Hh; symmetry; apply node_half; lia).
  assert (Hs1 : climbing (length L) (length L) c' ml (r + 1) s1).
  { split; cbn [level h matchh pbranch s1]; rewrite ?Nat.add_sub, ?Nat.pow_succ_r'; unfold c'; try lia; [done|].
    unfold branch. destruct (matchh s); [|done]. apply held_left; [done|]. rewrite Hh in *. done. }
  destruct (climb_ok _ _ _ _ inner 32 _ s1 Hin Hs1 ltac:(unfold c'; lia) HcZ ltac:(cbn; lia)) as (q' & Hodd' & Hs' & Hlv & _).
  fold s' in Hs', Hlv. cbn [level s1] in Hlv. split; [|split; [lia|done]]. destruct Hs' as [Hq' Hc' Hlow' Hlen' Hh' Hm'].
  exists q'. split; cbn [level h matchh pbranch]; try done; [unfold c'; lia|].
  destruct (matchh s'); [done|]. apply idle_above with q'; [done| |done]. unfold c' in Hc'. lia.
Qed.

Lemma sweep_S fuel inner ml c s :
  sweep (S fuel) inner ml c s =
  if c =? Z.shiftl 1 (Z.of_nat (level s)) then s
  else
    let branch := if matchh s then pbranch s ++ [h s] else pbranch s in
    let c' := u32 (c + Z.shiftl 1 (Z.of_nat (level s))) in
    let s1 := mkClimb (S (level s)) (Hash2 (h s) (h s)) (matchh s) branch (mutated s) in
    let s' := climb_loop 32 inner ml c' s1 in
    sweep fuel inner ml c' (mkClimb (level s') (h s') (matchh s') (pbranch s') (mutated s)).
Proof. done. Qed.

Lemma sweep_ok K ml inner fuel : (K <= 31)%nat -> inner_ok (length L) inner -> forall c q s,
  sweeping K c ml q s -> (32 <= level s + fuel)%nat ->
  exists lv, sweeping K (2 ^ lv) ml 1 (sweep fuel inner ml (Z.of_nat c) s) /\
    level (sweep fuel inner ml (Z.of_nat c) s) = lv /\ mutated (sweep fuel inner ml (Z.of_nat c) s) = mutated s.
Proof.
  intros HK Hin. induction fuel as [|fuel IH]; intros c q s Hs Hf.
  { exfalso. destruct Hs as [Hodd Hc _ _ Htop _ _]. pose proof (pow2_pos (level s)). assert (0 < q)%nat by (destruct q; [done|lia]).
    assert (level s <= K)%nat by (apply (Nat.pow_le_mono_r_iff 2); [lia|nia]). lia. }
  rewrite sweep_S, pow2_bit. destruct (Z.eqb_spec (Z.of_nat c) (Z.of_nat (2 ^ level s))) as [He|Hne].
  - exists (level s). split; [|done]. apply Nat2Z.inj in He. subst c. assert (q = 1)%nat as ->; [|done].
    pose proof (sw_count _ _ _ _ _ Hs). pose proof (pow2_pos (level s)). nia.
  - assert (Hne' : c <> (2 ^ level s)%nat) by congruence.
    pose proof (sweep_round K c ml inner q s HK Hin Hs Hne') as Hround. cbn zeta in Hround |- *.
    replace (u32 (Z.of_nat c + Z.of_nat (2 ^ level s))) with (Z.of_nat (c + 2 ^ level s)).
    2:{ assert (2 ^ Z.of_nat K <= 2 ^ 31) by (apply Z.pow_le_mono_r; lia). pose proof (Nat2Z.inj_pow 2 K). 
        destruct Hround as (_ & _ & ?). rewrite u32_small; lia. }
    set (s' := climb_loop 32 _ _ _ _) in *. clearbody s'. destruct Hround as ([q' Hq'] & Hlv & _).
    destruct (IH _ _ _ Hq' ltac:(cbn [level]; lia)) as (lv & ? & ? & ?). by exists lv.
Qed.

(** [while (!(count & (1 << level))) level++] stops at the lowest set bit. *)
Lemma lowest_level_ok c fuel : forall lv q, c = (q * 2 ^ lv)%nat -> (0 < q)%nat -> Z.of_nat c < 2 ^ 32 -> (32 <= lv + fuel)%nat ->
  exists q', Nat.odd q' = true /\ c = (q' * 2 ^ lowest_level fuel (Z.of_nat c) lv)%nat.
Proof.
  induction fuel as [|fuel IH]; intros lv q Hc Hq HcZ Hf.
  { exfalso. subst c. pose proof (level_bound q lv 32 Hq HcZ). lia. }
  cbn [lowest_level]. rewrite bit_clear_spec. pose proof (pow2_pos lv).
  replace (c / 2 ^ lv)%nat with q by (rewrite Hc, Nat.div_mul; lia).
  destruct (Nat.even q) eqn:Heven.
  - destruct (half_even q Heven Hq) as [r ->]. apply (IH _ (r + 1)%nat); try lia. rewrite Nat.pow_succ_r'. lia.
  - exists q. split; [by rewrite <- Nat.negb_even, Heven|done].
Qed.

(** The power of two that closes a tree of [n] leaves. *)
Lemma closing_log2 n : (0 < n)%nat -> (n <= 2 ^ Nat.log2_up n)%nat /\ (2 ^ Nat.log2_up n < 2 * n)%nat.
Proof.
  intros Hn. destruct (decide (n = 1)%nat) as [->|Hne]; [cbn; lia|].
  pose proof (Nat.log2_up_spec n ltac:(lia)) as [Hlow Hhigh]. split; [done|].
  assert (HK : (0 < Nat.log2_up n)%nat) by (apply Nat.log2_up_pos; lia).
  rewrite <- (Nat.succ_pred_pos _ HK), Nat.pow_succ_r'. lia.
Qed.

Lemma closing_power n : (0 < n)%nat -> Z.of_nat n <= 2 ^ 31 -> exists K, (K <= 31)%nat /\ (n <= 2 ^ K)%nat /\ (2 ^ K < 2 * n)%nat.
Proof.
  intros Hn Hmax. exists (Nat.log2_up n). destruct (closing_log2 n Hn). split_and!; try done.
  destruct (Nat.log2_up n) as [|k]; [lia|]. rewrite Nat.pow_succ_r' in *.
  enough (k < 31)%nat by lia. apply (level_bound 1); [lia|]. change (2 ^ Z.of_nat 31) with (2 ^ 31). lia.
Qed.

(** The state in which the final sweep starts. *)
Lemma sweep_start K st : folded (length L) st -> (0 < length L <= 2 ^ K)%nat -> Z.of_nat (length L) <= 2 ^ 31 ->
  let lv := lowest_level 32 (Z.of_nat (length L)) 0 in
  exists q, sweeping K (length L) (matchlevel st) q
    (mkClimb lv (nth lv (inner st) uint256_null) (matchlevel st =? Z.of_nat lv) (f_branch st) (f_mutated st)).
Proof.
  intros [Hc Hsz Hin Hm Hmu] [Hn Hup] Hmax lv.
  destruct (lowest_level_ok (length L) 32 0 (length L) ltac:(cbn; lia) Hn ltac:(lia) ltac:(lia)) as (q & Hodd & Hq).
  fold lv in Hq. clearbody lv. apply Nat.odd_spec in Hodd as Hr. destruct Hr as [r Hr]. pose proof (pow2_pos lv).
  exists q. split; cbn [level h matchh pbranch]; try done; [nia| |].
  - replace (q - 1)%nat with (2 * r)%nat by lia. apply (Hin lv r 0%nat); [subst q; lia|lia].
  - destruct (Z.eqb_spec (matchlevel st) (Z.of_nat lv)) as [He|Hne].
    + destruct Hm as [[? _]|(m & r' & t & Hml & _ & Hdec & Ht & Hheld)]; [lia|]. assert (m = lv) as -> by lia.
      replace (q - 1)%nat with (2 * r')%nat; [done|]. assert (2 * r' + 1 = q)%nat; [|lia].
      rewrite <- (div_block (2 * r' + 1) lv t), <- Hdec, Hq by done. apply Nat.div_mul. lia.
    + destruct Hm as [?|(m & r' & t & Hml & _ & Hdec & Ht & Hheld)]; [by left|]. right. exists m, r', t. split_and!; try done.
      destruct (Nat.lt_ge_cases lv m) as [|Hge]; [lia|]. exfalso. assert (m <> lv) by congruence.
      assert (Hdiv : (length L / 2 ^ m = 2 * (q * 2 ^ (lv - m - 1)))%nat).
      { replace lv with (lv - m - 1 + 1 + m)%nat in Hq by lia. rewrite Hq, !Nat.pow_add_r. pose proof (pow2_pos m).
        rewrite !Nat.mul_assoc, Nat.div_mul by lia. cbn. lia. }
      rewrite Hdec, div_block in Hdiv by done. lia.
Qed.

(** The root, the branch and the mutation flag of a non-empty list. *)
Lemma MerkleComputation_ok : (0 < length L)%nat -> Z.of_nat (length L) <= 2 ^ 31 ->
  exists root mut branch, MerkleComputation L (Z.of_nat pos) = (root, mut, branch) /\ root = merkle_root L /\
    ((pos < length L)%nat -> ComputeMerkleRootFromBranch (node 0 pos) branch (Z.of_nat pos) = merkle_root L) /\
    (mut = false -> distinct_upto (length L)).
Proof.
  intros Hn Hmax. destruct (closing_power _ Hn Hmax) as (K & HK & Hup & Hlow).
  assert (Hst : folded (length L) (foldl (add_leaf (Z.of_nat pos)) (mkFold 0 (repeat uint256_null 32) (-1) [] false) L)).
  { apply (fold_leaves_ok Hmax L []); [done|]. split; cbn [count inner matchlevel f_branch f_mutated length]; try done.
    - intros k r t He Ht. pose proof (pow2_pos k). lia.
    - left. split_and!; try done. lia.
    - intros _ k j Hj. pose proof (pow2_pos k). nia. }
  unfold MerkleComputation. destruct L as [|x L'] eqn:HL; [cbn in Hn; lia|]. rewrite <- HL in *. clear x L' HL.
  set (st := foldl _ _ L) in *. clearbody st. rewrite (fo_count _ _ Hst). cbn zeta.
  destruct (sweep_start K st Hst (conj Hn Hup) Hmax) as [q Hs0]. destruct Hst as [_ _ Hin _ Hmu]. cbn zeta in Hs0.
  set (s0 := mkClimb (lowest_level _ _ _) _ _ _ _) in *.
  destruct (sweep_ok K _ _ 32 HK Hin _ _ _ Hs0 ltac:(cbn; lia)) as (l & Hs & Hl & Hmut). set (s := sweep 32 _ _ _ s0) in *.
  clearbody s. subst l. destruct Hs as [_ Hcl _ Hhigh Htop Hh Hmt]. change (1 - 1)%nat with 0%nat in *.
  assert (Hroot : merkle_root L = node (level s) 0) by (apply merkle_root_node; lia).
  exists (h s), (mutated s), (pbranch s). split_and!; [done|congruence| |rewrite Hmut; exact Hmu].
  intros Hpos. rewrite Hroot. destruct (matchh s); [by destruct Hmt as (_ & _ & ?)|].
  exfalso. destruct Hmt as [(_ & _ & ?)|(m & r' & t & _ & Hlm & Hdec & Ht & _)]; [lia|].
  assert (2 ^ S (level s) <= 2 ^ m)%nat as Hpw by (apply Nat.pow_le_mono_r; lia). rewrite Nat.pow_succ_r' in Hpw. nia.
Qed.

End Compute.

(** ** Binding *)

(** The strings that are hashed for the root of a tree of height [k]. *)
Fixpoint node_inputs (k : nat) (l : list uint256) : list (list Z) :=
  match k with
  | O => []
  | S k =>
      if (length l <=? 2 ^ k)%nat then (mroot k l ++ mroot k l) :: node_inputs k l
      else (mroot k (take (2 ^ k) l) ++ mroot k (drop (2 ^ k) l)) :: node_inputs k (take (2 ^ k) l) ++ node_inputs k (drop (2 ^ k) l)
  end.
Definition hashed_inputs (l : list uint256) : list (list Z) := node_inputs (Nat.log2_up (length l)) l.

(** Two different strings among the given ones have the same hash. *)
Definition collision_among (S : list (list Z)) : Prop := exists x y, x ∈ S /\ y ∈ S /\ x <> y /\ CHash256 x = CHash256 y.

Lemma collision_mono S S' : S ⊆ S' -> collision_among S -> collision_among S'.
Proof. intros Hs (x & y & Hx & Hy & Hc). exists x, y. split; [by apply Hs|]. split; [by apply Hs|done]. Qed.

Lemma block_left (L : list uint256) k j : take (2 ^ k) (take (2 ^ S k) (drop (j * 2 ^ S k) L)) = take (2 ^ k) (drop (2 * j * 2 ^ k) L).
Proof. rewrite Nat.pow_succ_r', take_take. f_equal; [lia|]. f_equal. lia. Qed.

Lemma block_right (L : list uint256) k j : drop (2 ^ k) (take (2 ^ S k) (drop (j * 2 ^ S k) L)) = take (2 ^ k) (drop ((2 * j + 1) * 2 ^ k) L).
Proof.
  replace (2 ^ S k)%nat with (2 ^ k + 2 ^ k)%nat by (rewrite Nat.pow_succ_r'; lia). rewrite <- take_drop_commute, drop_drop. do 2 f_equal. lia.
Qed.

(** No full pair of subtrees of equal roots. *)
Fixpoint clean (k : nat) (l : list uint256) : Prop :=
  match k with
  | O => True
  | S k =>
      if (length l <=? 2 ^ k)%nat then clean k l
      else clean k (take (2 ^ k) l) /\ clean k (drop (2 ^ k) l) /\
           (length l = 2 * 2 ^ k -> mroot k (take (2 ^ k) l) <> mroot k (drop (2 ^ k) l))%nat
  end.

Lemma distinct_clean L k : forall j, distinct_upto L (length L) -> clean k (take (2 ^ k) (drop (j * 2 ^ k) L)).
Proof.
  induction k as [|k IH]; intros j Hd; [done|]. pose proof (pow2_pos k). cbn [clean]. set (B := take (2 ^ S k) _).
  assert (HB1 : take (2 ^ k) B = take (2 ^ k) (drop (2 * j * 2 ^ k) L)) by apply block_left.
  assert (HB2 : drop (2 ^ k) B = take (2 ^ k) (drop ((2 * j + 1) * 2 ^ k) L)) by apply block_right.
  destruct (Nat.leb_spec (length B) (2 ^ k)).
  - rewrite <- (take_ge B (2 ^ k)), HB1 by lia. by apply IH.
  - rewrite HB1, HB2. split_and!; [by apply IH|by apply IH|]. intros Hfull. apply Hd.
    unfold B in Hfull. rewrite length_take, length_drop, Nat.pow_succ_r' in Hfull. nia.
Qed.

(** The strings hashed for a node are among those for the nodes above it. *)
Lemma block_inputs_up L k j : (j * 2 ^ k < length L)%nat ->
  node_inputs k (take (2 ^ k) (drop (j * 2 ^ k) L)) ⊆ node_inputs (S k) (take (2 ^ S k) (drop (j / 2 * 2 ^ S k) L)).
Proof.
  intros Hj. cbn [node_inputs]. set (B := take (2 ^ S k) _). pose proof (pow2_pos k). pose proof (Nat.div_mod_eq j 2) as Hd.
  assert (HB1 : take (2 ^ k) B = take (2 ^ k) (drop (2 * (j / 2) * 2 ^ k) L)) by apply block_left.
  assert (HB2 : drop (2 ^ k) B = take (2 ^ k) (drop ((2 * (j / 2) + 1) * 2 ^ k) L)) by apply block_right.
  pose proof (Nat.mod_upper_bound j 2 ltac:(lia)). assert (j = (2 * (j / 2))%nat \/ j = (2 * (j / 2) + 1)%nat) as [Ej|Ej] by lia.
  - rewrite Ej at 1. rewrite <- HB1. destruct (Nat.leb_spec (length B) (2 ^ k)); [rewrite take_ge by done|]; set_solver +.
  - rewrite Ej at 1. rewrite <- HB2. destruct (Nat.leb_spec (length B) (2 ^ k)) as [Hle|]; [|set_solver +].
    exfalso. unfold B in Hle. rewrite length_take, length_drop, Nat.pow_succ_r' in Hle. nia.
Qed.

Lemma block_inputs L d : forall k j, (k + d = Nat.log2_up (length L))%nat -> (j * 2 ^ k < length L)%nat ->
  node_inputs k (take (2 ^ k) (drop (j * 2 ^ k) L)) ⊆ hashed_inputs L.
Proof.
  induction d as [|d IH]; intros k j Hk Hj; pose proof (pow2_pos k).
  - destruct (closing_log2 (length L) ltac:(lia)) as [Hup _]. rewrite Nat.add_0_r in Hk. rewrite <- Hk in Hup. assert (j = 0%nat) as -> by nia.
    unfold hashed_inputs. by rewrite Nat.mul_0_l, drop_0, take_ge, Hk by lia.
  - etrans; [by apply block_inputs_up|]. apply IH; [lia|]. rewrite Nat.pow_succ_r'. pose proof (Nat.Div0.mul_div_le j 2). nia.
Qed.

Section Binding.
Context {HC : CryptoOk}.

Lemma Hash2_length a b : length (Hash2 a b) = 32%nat.
Proof using HC. unfold Hash2, CHash256. apply SHA256_size. Qed.

Lemma mroot_length k l : (0 < length l)%nat -> Forall (fun x => length x = 32%nat) l -> length (mroot k l) = 32%nat.
Proof using HC.
  destruct k as [|k]; intros Hl Hf; cbn [mroot]; [|case_match; apply Hash2_length].
  destruct l; [cbn in Hl; lia|]. by apply Forall_cons_iff in Hf as [? _].
Qed.

Lemma Hash2_inj a b c d : length a = 32%nat -> length b = 32%nat -> length c = 32%nat -> length d = 32%nat ->
  Hash2 a b = Hash2 c d -> (a = c /\ b = d) \/ collision_among [a ++ b; c ++ d].
Proof using Type.
  intros Ha Hb Hc Hd He. destruct (decide (a ++ b = c ++ d)) as [Heq|Hne].
  - left. apply app_inj_1 in Heq; [done|congruence].
  - right. exists (a ++ b), (c ++ d). split_and!; [set_solver +|set_solver +|done|done].
Qed.

Definition hashes (l : list uint256) : Prop := Forall (fun x => length x = 32%nat) l.

Definition determined (k : nat) : Prop := forall l l',
  (0 < length l <= 2 ^ k)%nat -> (0 < length l' <= 2 ^ k)%nat -> hashes l -> hashes l' ->
  clean k l -> clean k l' -> mroot k l = mroot k l' -> l = l' \/ collision_among (node_inputs k l ++ node_inputs k l').

(** The halves of a list of more than [2^k] leaves. *)
Lemma halves k (l : list uint256) : (2 ^ k < length l <= 2 ^ S k)%nat -> hashes l ->
  ((0 < length (take (2 ^ k) l) <= 2 ^ k)%nat /\ hashes (take (2 ^ k) l)) /\
  ((0 < length (drop (2 ^ k) l) <= 2 ^ k)%nat /\ hashes (drop (2 ^ k) l)).
Proof.
  intros Hl Hf. rewrite length_take, length_drop. rewrite Nat.pow_succ_r' in Hl. pose proof (pow2_pos k).
  split; (split; [lia|]); [by apply Forall_take|by apply Forall_drop].
Qed.

(** A tree that doubles its only half has the root of no clean larger one. *)
Lemma doubled_half k l l' : determined k -> (0 < length l <= 2 ^ k)%nat -> (2 ^ k < length l' <= 2 ^ S k)%nat ->
  hashes l -> hashes l' -> clean (S k) l' -> mroot (S k) l = mroot (S k) l' ->
  collision_among (node_inputs (S k) l ++ node_inputs (S k) l').
Proof using HC.
  intros IH Hl Hl' Hf Hf' Hcl He. destruct (halves k l' Hl' Hf') as [[Hlen1 Hf1] [Hlen2 Hf2]].
  pose proof (pow2_pos k). rewrite Nat.pow_succ_r' in Hl'. cbn [clean mroot node_inputs] in *.
  rewrite (proj2 (Nat.leb_le (length l) _)) in * by lia. rewrite (proj2 (Nat.leb_gt (length l') _)) in * by lia.
  destruct Hcl as (Hc1 & Hc2 & Hne). apply Hash2_inj in He as [[H1 H2]|Hc]; [|revert Hc; apply collision_mono; set_solver +|apply mroot_length; (done || lia)..].
  destruct (IH _ _ Hlen1 Hlen2 Hf1 Hf2 Hc1 Hc2) as [Heq|Hc]; [congruence| |revert Hc; apply collision_mono; set_solver +].
  exfalso. apply Hne; [|by rewrite Heq]. apply (f_equal length) in Heq. rewrite length_take, length_drop in Heq. lia.
Qed.

(** The root of a clean tree of height [k] determines its leaves. *)
Lemma mroot_inj k : determined k.
Proof using HC.
  induction k as [|k IH]; intros l l' Hl Hl' Hf Hf' Hcl Hcl' He.
  { left. cbn in *. destruct l as [|a []]; cbn in Hl; try lia. destruct l' as [|b []]; cbn in Hl'; try lia. cbn in He. by subst. }
  destruct (Nat.le_gt_cases (length l) (2 ^ k)) as [Hs|Hg], (Nat.le_gt_cases (length l') (2 ^ k)) as [Hs'|Hg'].
  - cbn [clean mroot node_inputs] in *. rewrite !(proj2 (Nat.leb_le _ _)) in * by done.
    apply Hash2_inj in He as [[Hh1 _]|Hc]; [|right; revert Hc; apply collision_mono; set_solver +|apply mroot_length; (done || lia)..].
    destruct (IH l l' ltac:(lia) ltac:(lia) Hf Hf' Hcl Hcl' Hh1) as [|Hc]; [by left|]. right. revert Hc. apply collision_mono. set_solver +.
  - right. apply (doubled_half k l l'); try done; lia.
  - right. apply (collision_mono (node_inputs (S k) l' ++ node_inputs (S k) l)); [set_solver +|]. apply (doubled_half k l' l); try done; lia.
  - destruct (halves k l ltac:(lia) Hf) as [[? ?] [? ?]], (halves k l' ltac:(lia) Hf') as [[? ?] [? ?]].
    cbn [clean mroot node_inputs] in *. rewrite !(proj2 (Nat.leb_gt _ _)) in * by done. destruct Hcl as (C1 & C2 & _), Hcl' as (C1' & C2' & _).
    apply Hash2_inj in He as [[Hh1 Hh2]|Hc]; [|right; revert Hc; apply collision_mono; set_solver +|apply mroot_length; (done || lia)..].
    destruct (IH (take (2 ^ k) l) (take (2 ^ k) l')) as [E1|Hc]; try done; [|right; revert Hc; apply collision_mono; set_solver +].
    destruct (IH (drop (2 ^ k) l) (drop (2 ^ k) l')) as [E2|Hc]; try done; [|right; revert Hc; apply collision_mono; set_solver +].
    left. rewrite <- (take_drop (2 ^ k) l), <- (take_drop (2 ^ k) l'). by f_equal.
Qed.

End Binding.

(** ** Properties *)

(** The root that [ComputeMerkleRoot] returns, for any position asked. *)
Lemma ComputeMerkleRoot_ok L : Z.of_nat (length L) <= 2 ^ 31 ->
  (ComputeMerkleRoot L).1 = merkle_root L /\ ((ComputeMerkleRoot L).2 = false -> distinct_upto L (length L)).
Proof.
  intros Hmax. destruct (decide (length L = 0%nat)) as [H0|Hn].
  { apply nil_length_inv in H0 as ->. split; [done|]. intros _ k j Hj. cbn in Hj. pose proof (pow2_pos k). nia. }
  assert (Hp : exists p, u32 (-1) = Z.of_nat p).
  { exists (Z.to_nat (u32 (-1))). symmetry. apply Z2Nat.id, u32_bound. }
  destruct Hp as [p Hp]. unfold ComputeMerkleRoot. rewrite Hp.
  destruct (MerkleComputation_ok L p ltac:(lia) Hmax) as (root & mut & b & He & Hr & _ & Hd).
  by rewrite He.
Qed.

(** C9: the one-pass computation with one hash per level gives, for every
    list of up to 2^31 hashes, the root that the definition of the tree level
    by level gives; and the branch it returns for a position leads from the
    leaf there to that root. *)
Theorem merkle_tree leaves :
  Z.of_nat (length leaves) <= 2 ^ 31 ->
  (ComputeMerkleRoot leaves).1 = merkle_root leaves /\
  forall pos leaf, leaves !! pos = Some leaf ->
    ComputeMerkleRootFromBranch leaf (ComputeMerkleBranch leaves (Z.of_nat pos)) (Z.of_nat pos) = merkle_root leaves.
Proof.
  intros Hmax. split; [apply (ComputeMerkleRoot_ok _ Hmax)|]. intros pos leaf Hleaf.
  pose proof (lookup_lt_Some _ _ _ Hleaf) as Hpos.
  destruct (MerkleComputation_ok leaves pos ltac:(lia) Hmax) as (root & mut & b & He & _ & Hb & _).
  unfold ComputeMerkleBranch. rewrite He. cbn. rewrite <- (Hb Hpos), node_leaf. f_equal. symmetry. by apply nth_lookup_Some.
Qed.

(** C8: two lists of hashes whose trees have the same height and the same
    root, neither reported as mutated, are the same list, or among the strings
    that are hashed for the nodes of these two trees there are two different ones
    with the same hash: the mutation flag is what makes the root bind the
    transactions, although an odd level hashes its last element with itself. *)
Theorem merkle_binding {HC : CryptoOk} l l' root :
  (0 < length l)%nat -> (0 < length l')%nat -> Z.of_nat (length l) <= 2 ^ 31 -> Z.of_nat (length l') <= 2 ^ 31 ->
  hashes l -> hashes l' -> Nat.log2_up (length l) = Nat.log2_up (length l') ->
  ComputeMerkleRoot l = (root, false) -> ComputeMerkleRoot l' = (root, false) ->
  l = l' \/ collision_among (hashed_inputs l ++ hashed_inputs l').
Proof.
  intros Hn Hn' Hm Hm' Hf Hf' Hh He He'.
  assert (Hone : forall L, (0 < length L)%nat -> Z.of_nat (length L) <= 2 ^ 31 -> ComputeMerkleRoot L = (root, false) ->
    (length L <= 2 ^ Nat.log2_up (length L))%nat /\ clean (Nat.log2_up (length L)) L /\ mroot (Nat.log2_up (length L)) L = root).
  { intros L Hl Hlm HL. destruct (ComputeMerkleRoot_ok L Hlm) as [Hr Hd]. rewrite HL in Hr, Hd. cbn in Hr, Hd.
    destruct (closing_log2 (length L) Hl) as [Hup Hlow]. split_and!; [done| |].
    - pose proof (distinct_clean L (Nat.log2_up (length L)) 0 (Hd eq_refl)) as Hc. by rewrite Nat.mul_0_l, drop_0, take_ge in Hc.
    - rewrite Hr, (merkle_root_node L (Nat.log2_up (length L))) by lia. unfold node. by rewrite Nat.mul_0_l, drop_0, take_ge. }
  destruct (Hone l) as (? & ? & ?), (Hone l') as (? & ? & ?); try done. unfold hashed_inputs. rewrite <- Hh in *.
  apply (mroot_inj (Nat.log2_up (length l))); (lia || done || congruence).
Qed.

End Proofs.

(** ** Witnesses *)

Definition sample_leaves : list uint256 := map (fun i => repeat i 32) [1; 2; 3; 4; 5].

Lemma merkle_tree_witness :
  @ComputeMerkleRootFromBranch toy_crypto (repeat 5 32) (@ComputeMerkleBranch toy_crypto sample_leaves 4) 4 =
    (@ComputeMerkleRoot toy_crypto sample_leaves).1 /\
  length (@ComputeMerkleBranch toy_crypto sample_leaves 4) = 3%nat.
Proof.
  split; [|vm_compute; reflexivity].
  destruct (@merkle_tree toy_crypto sample_leaves ltac:(by_decide)) as [Hr Hb].
  rewrite Hr. apply (Hb 4%nat (repeat 5 32)). reflexivity.
Defined.

Lemma merkle_binding_witness :
  (@ComputeMerkleRoot toy_crypto (sample_leaves ++ [repeat 5 32])).1 = (@ComputeMerkleRoot toy_crypto sample_leaves).1 /\
  (@ComputeMerkleRoot toy_crypto (sample_leaves ++ [repeat 5 32])).2 = true /\
  forall l', length l' = 5%nat -> hashes l' ->
    @ComputeMerkleRoot toy_crypto l' = @ComputeMerkleRoot toy_crypto sample_leaves -> 
      l' = sample_leaves \/ @collision_among toy_crypto (@hashed_inputs toy_crypto l' ++ @hashed_inputs toy_crypto sample_leaves).
Proof.
  split; [vm_compute; reflexivity|]. split; [vm_compute; reflexivity|]. intros l' Hl Hh He.
  assert (Hs : @ComputeMerkleRoot toy_crypto sample_leaves = ((@ComputeMerkleRoot toy_crypto sample_leaves).1, false))
    by (vm_compute; reflexivity).
  refine (@merkle_binding toy_crypto toy_crypto_ok l' sample_leaves (@ComputeMerkleRoot toy_crypto sample_leaves).1
    _ _ _ _ Hh _ _ (eq_trans He Hs) Hs); rewrite ?Hl; cbn; try lia. repeat constructor.
Defined.


End Merkle.
