(* ===== verification/VersionBits.v ===== *)
(** * Version bits (versionbits.h, versionbits.cpp)

    The threshold state machine of soft-fork deployments.  [GetStateFor] walks
    back over whole periods to a block whose state is in the cache, then
    forward again, filling the cache.  The reference is the state machine as
    an inductive relation over the periods of a branch; the cache and the
    shortcut for blocks before the start time do not show.

    A [const CBlockIndex*] is an [option nat] into the store of block index
    entries, [None] being [NULL]; [None] as a result is undefined behaviour
    (a null dereference or a division by zero). *)

From stdpp Require Import base list gmap numbers option.
From Stdlib Require Import ZArith Lia.
From S2P Require Import Prelude ArithUint256 Chain.

Local Open Scope Z_scope.

Module VersionBits.
Import Chain.

Abbreviation tree := (gmap nat CBlockIndex).

Definition VERSIONBITS_LAST_OLD_BLOCK_VERSION : Z := 4.
Definition VERSIONBITS_TOP_BITS : Z := 0x10000000.
Definition VERSIONBITS_TOP_MASK : Z := i32 0xE0000000.
Definition VERSIONBITS_NUM_BITS : Z := 29.

Inductive ThresholdState : Type :=
  | THRESHOLD_DEFINED | THRESHOLD_STARTED | THRESHOLD_LOCKED_IN | THRESHOLD_ACTIVE | THRESHOLD_FAILED.

#[export] Instance ThresholdState_eq_dec : EqDecision ThresholdState.
Proof. solve_decision. Defined.

Abbreviation ThresholdConditionCache := (gmap (option nat) ThresholdState).

(** The virtual methods of [AbstractThresholdConditionChecker], for fixed
    parameters of the network. *)
Class ThresholdConditionChecker : Type := {
  Condition : CBlockIndex -> bool;
  BeginTime : Z;
  EndTime : Z;
  Period : Z;
  Threshold : Z
}.

Section Checker.
Context `{!ThresholdConditionChecker} (T : tree).

(** The block that ends the period before the one of the next block. *)
Definition period_end (pindexPrev : option nat) : option (option nat) :=
  match pindexPrev with
  | None => Some None
  | Some p =>
      b ← T !! p;
      if Period =? 0 then None
      else GetAncestor T p (nHeight b - Z.rem (nHeight b + 1) Period)
  end.

(** The walk back: the block whose state is known, the blocks to compute (the
    last one pushed first) and the cache. *)
Fixpoint walk_back (fuel : nat) (cache : ThresholdConditionCache) (pindexPrev : option nat) (vToCompute : list nat)
  : option (option nat * list nat * ThresholdConditionCache) :=
  match cache !! pindexPrev with
  | Some _ => Some (pindexPrev, vToCompute, cache)
  | None =>
      match pindexPrev with
      | None => Some (None, vToCompute, <[None := THRESHOLD_DEFINED]> cache)
      | Some p =>
          b ← T !! p;
          mtp ← GetMedianTimePast T p;
          if mtp <? BeginTime then Some (Some p, vToCompute, <[Some p := THRESHOLD_DEFINED]> cache)
          else match fuel with
               | O => None
               | S fuel => q ← GetAncestor T p (nHeight b - Period); walk_back fuel cache q (p :: vToCompute)
               end
      end
  end.

(** The loop that counts the blocks of a period that meet the condition. *)
Fixpoint count_blocks (n : nat) (pindexCount : option nat) (count : Z) : option Z :=
  match n with
  | O => Some count
  | S n =>
      p ← pindexCount;
      b ← T !! p;
      count_blocks n (pprev b) (if Condition b then count + 1 else count)
  end.

(** The [switch]: the state of the period after block [p]. *)
Definition next_state (state : ThresholdState) (p : nat) : option ThresholdState :=
  match state with
  | THRESHOLD_DEFINED =>
      mtp ← GetMedianTimePast T p;
      Some (if mtp >=? EndTime then THRESHOLD_FAILED
            else if mtp >=? BeginTime then THRESHOLD_STARTED else THRESHOLD_DEFINED)
  | THRESHOLD_STARTED =>
      mtp ← GetMedianTimePast T p;
      if mtp >=? EndTime then Some THRESHOLD_FAILED
      else
        count ← count_blocks (Z.to_nat Period) (Some p) 0;
        Some (if count >=? Threshold then THRESHOLD_LOCKED_IN else THRESHOLD_STARTED)
  | THRESHOLD_LOCKED_IN => Some THRESHOLD_ACTIVE
  | THRESHOLD_FAILED => Some THRESHOLD_FAILED
  | THRESHOLD_ACTIVE => Some THRESHOLD_ACTIVE
  end.

(** The walk forward over the blocks to compute. *)
Fixpoint walk_forward (vToCompute : list nat) (state : ThresholdState) (cache : ThresholdConditionCache)
  : option (ThresholdState * ThresholdConditionCache) :=
  match vToCompute with
  | [] => Some (state, cache)
  | p :: rest =>
      stateNext ← next_state state p;
      walk_forward rest stateNext (<[Some p := stateNext]> cache)
  end.

(** The number of rounds is at most the height of the block. *)
Definition walk_fuel (o : option nat) : nat :=
  match o with Some p => match T !! p with Some b => S (Z.to_nat (nHeight b)) | None => 0 end | None => 0 end.

Definition GetStateFor (pindexPrev : option nat) (cache : ThresholdConditionCache)
  : option (ThresholdState * ThresholdConditionCache) :=
  pindexPrev ← period_end pindexPrev;
  '(known, vToCompute, cache) ← walk_back (walk_fuel pindexPrev) cache pindexPrev [];
  state ← cache !! known;
  walk_forward vToCompute state cache.

(** The loop of [GetStateSinceHeightFor]; the result is its [pindexPrev]. *)
Fixpoint since_loop (fuel : nat) (initialState : ThresholdState) (p : nat) (cache : ThresholdConditionCache)
  : option (nat * ThresholdConditionCache) :=
  match fuel with
  | O => None
  | S fuel =>
      b ← T !! p;
      previousPeriodParent ← GetAncestor T p (nHeight b - Period);
      match previousPeriodParent with
      | None => Some (p, cache)
      | Some q =>
          '(state, cache) ← GetStateFor (Some q) cache;
          if bool_decide (state = initialState) then since_loop fuel initialState q cache else Some (p, cache)
      end
  end.

Definition GetStateSinceHeightFor (pindexPrev : option nat) (cache : ThresholdConditionCache)
  : option (Z * ThresholdConditionCache) :=
  '(initialState, cache) ← GetStateFor pindexPrev cache;
  if bool_decide (initialState = THRESHOLD_DEFINED) then Some (0, cache)
  else
    p0 ← pindexPrev;
    p ← period_end (Some p0);
    p ← p;
    '(q, cache) ← since_loop (walk_fuel (Some p)) initialState p cache;
    b ← T !! q;
    Some (nHeight b + 1, cache).

(** ** The reference: the state machine over the periods of a branch *)

(** The last block of the period before the one that [p] ends. *)
Definition prev_period (p : nat) : option nat :=
  b ← T !! p; if 0 <=? nHeight b - Period then ancestor T p (nHeight b - Period) else None.

(** [bip9 o s]: the blocks of the period that follows [o] are in state [s]. *)
Inductive bip9 : option nat -> ThresholdState -> Prop :=
  | bip9_genesis : bip9 None THRESHOLD_DEFINED
  | bip9_next p b s s' :
      T !! p = Some b -> bip9 (prev_period p) s -> next_state s p = Some s' -> bip9 (Some p) s'.

(** [since s p q]: going back from [p] over whole periods in state [s], [q]
    ends the period before the first of them. *)
Inductive since (s : ThresholdState) : nat -> nat -> Prop :=
  | since_first p : match prev_period p with None => True | Some q => ~ bip9 (Some q) s end -> since s p p
  | since_back p q r : prev_period p = Some q -> bip9 (Some q) s -> since s q r -> since s p r.

(** Blocks that end a period. *)
Definition ends_period (o : option nat) : Prop :=
  match o with None => True | Some p => exists b, T !! p = Some b /\ (nHeight b + 1) mod Period = 0 end.

Definition cache_ok (cache : ThresholdConditionCache) : Prop :=
  forall o s, cache !! o = Some s -> ends_period o /\ bip9 o s.

(** The header rule: no block is earlier than the median time of its parent. *)
Definition times_ok : Prop :=
  forall p b q m, T !! p = Some b -> pprev b = Some q -> GetMedianTimePast T q = Some m -> m <= nTime b.

End Checker.

(** ** The deployments *)

(** [BIP9Deployment] and the two defaults of the network's parameters. *)
Record BIP9Deployment : Type := mkDeployment {
  bit : Z;
  nStartTime : Z;
  nTimeout : Z;
  nWindowSize : Z;
  nThreshold : Z
}.

Definition Mask (d : BIP9Deployment) : Z := u32 (Z.shiftl 1 (bit d)).

(** [VersionBitsConditionChecker] *)
Definition VersionBitsConditionChecker (d : BIP9Deployment) (nMinerConfirmationWindow nRuleChangeActivationThreshold : Z)
  : ThresholdConditionChecker := {|
  Condition b := (Z.land (nVersion b) VERSIONBITS_TOP_MASK =? VERSIONBITS_TOP_BITS) && negb (Z.land (nVersion b) (Mask d) =? 0);
  BeginTime := nStartTime d;
  EndTime := nTimeout d;
  Period := i32 (if nWindowSize d =? 0 then nMinerConfirmationWindow else nWindowSize d);
  Threshold := i32 (if nThreshold d =? 0 then nRuleChangeActivationThreshold else nThreshold d)
|}.

(** ** The caching computation refines the state machine *)

Section Refinement.
Context `{!ThresholdConditionChecker} (T : tree).
Context (Hwf : tree_wf T) (Htimes : times_ok T) (HP : 0 < Period) (Hwin : BeginTime <= EndTime).

Lemma period_parent p b : T !! p = Some b -> GetAncestor T p (nHeight b - Period) = Some (prev_period T p).
Proof using Hwf HP.
  intros Hp. rewrite (GetAncestor_correct T Hwf p b) by done. unfold prev_period. rewrite Hp. cbn [mbind option_bind].
  rewrite (proj2 (Z.leb_le (nHeight b - Period) (nHeight b))) by lia. by rewrite andb_true_r.
Qed.

Lemma prev_period_spec p q : prev_period T p = Some q ->
  exists b bq, T !! p = Some b /\ T !! q = Some bq /\ nHeight bq = nHeight b - Period /\
    ancestor T p (nHeight bq) = Some q.
Proof using Hwf HP.
  unfold prev_period. destruct (T !! p) as [b|] eqn:Hp; [|done]. cbn [mbind option_bind].
  destruct (Z.leb_spec 0 (nHeight b - Period)); [|done]. intros Hq.
  assert (Hr : 0 <= nHeight b - Period <= nHeight b) by lia.
  destruct (ancestor_some T Hwf p b _ Hp Hr) as (q' & bq & H1 & H2 & H3).
  assert (q' = q) as -> by congruence. exists b, bq. split_and!; [done..|]. by rewrite H3.
Qed.

Lemma prev_ends_period p : ends_period T (Some p) -> ends_period T (prev_period T p).
Proof using Hwf HP.
  intros (b & Hp & Hm). destruct (prev_period T p) as [q|] eqn:Hq; [|done].
  destruct (prev_period_spec p q Hq) as (b' & bq & Hp' & Hbq & Hh & _). simplify_eq. exists bq. split; [done|].
  replace (nHeight bq + 1) with (nHeight b + 1 + (-1) * Period) by lia. by rewrite Z.mod_add by lia.
Qed.

(** The median clock does not run backwards along a branch. *)
Lemma median_ancestor n : forall p q m, nth_parent T n p = Some q -> GetMedianTimePast T p = Some m ->
  exists m', GetMedianTimePast T q = Some m' /\ m' <= m.
Proof using Hwf Htimes.
  induction n as [|n IH]; intros p q m Hq Hm; cbn [nth_parent] in Hq; [simplify_eq; by exists m|].
  destruct (T !! p) as [b|] eqn:Hp; [|done]. cbn [mbind option_bind] in Hq.
  destruct (pprev b) as [r|] eqn:Hr; [|done]. cbn [mbind option_bind] in Hq.
  destruct (Hwf p b Hp) as [_ He]. unfold entry_ok in He. rewrite Hr in He. destruct He as (br & Hbr & _).
  destruct (median_total T Hwf r br Hbr) as (mr & _ & Hmr & _).
  destruct (median_mono T Hwf p b r mr Hp Hr Hmr (Htimes p b r mr Hp Hr Hmr)) as (m' & Hm' & Hle).
  rewrite Hm in Hm'. simplify_eq. destruct (IH r q mr Hq Hmr) as (mq & ? & ?). exists mq. split; [done|lia].
Qed.

Lemma prev_period_median p q m : prev_period T p = Some q -> GetMedianTimePast T p = Some m ->
  exists m', GetMedianTimePast T q = Some m' /\ m' <= m.
Proof using Hwf Htimes HP.
  intros Hq Hm. destruct (prev_period_spec p q Hq) as (b & bq & Hp & _ & _ & Ha).
  unfold ancestor in Ha. rewrite Hp in Ha. exact (median_ancestor _ p q m Ha Hm).
Qed.

(** Before the start time the state is DEFINED, however far back. *)
Lemma early_defined n : forall p b m, T !! p = Some b -> nHeight b <= Z.of_nat n -> GetMedianTimePast T p = Some m ->
  m < BeginTime -> bip9 T (Some p) THRESHOLD_DEFINED.
Proof using Hwf Htimes HP Hwin.
  induction n as [|n IH]; intros p b m Hp Hn Hm Hlt;
    (apply (bip9_next T p b THRESHOLD_DEFINED); [done| |unfold next_state; rewrite Hm; cbn [mbind option_bind];
      rewrite !Z.geb_leb, !(proj2 (Z.leb_gt _ m)) by lia; done]);
    (destruct (prev_period T p) as [q|] eqn:Hq; [|constructor]);
    destruct (prev_period_spec p q Hq) as (b' & bq & Hp' & Hbq & Hh & _); simplify_eq;
    destruct (prev_period_median p q m Hq Hm) as (mq & Hmq & Hle); destruct (Hwf q bq Hbq) as [Hpos _]; [lia|].
  apply (IH q bq mq); (done || lia).
Qed.

Lemma count_blocks_total n : forall p b c, T !! p = Some b -> Z.of_nat n <= nHeight b + 1 -> exists r, count_blocks T n (Some p) c = Some r.
Proof using Hwf.
  induction n as [|n IH]; intros p b c Hp Hn; cbn [count_blocks]; [by eexists|]. cbn [mbind option_bind]. rewrite Hp. cbn [mbind option_bind].
  destruct (Hwf p b Hp) as [_ He]. unfold entry_ok in He. destruct (pprev b) as [q|].
  - destruct He as (bq & Hq & Hh & _). apply (IH q bq); [done|lia].
  - destruct n; [cbn; by eexists|lia].
Qed.

Lemma next_state_total s p : ends_period T (Some p) -> exists s', next_state T s p = Some s'.
Proof using Hwf HP.
  intros (b & Hp & Hm). destruct (median_total T Hwf p b Hp) as (m & _ & Hmt & _). destruct (Hwf p b Hp) as [Hpos _].
  assert (HPb : Period <= nHeight b + 1).
  { apply Z.mod_divide in Hm; [|lia]. apply Z.divide_pos_le; [lia|done]. }
  assert (HPn : Z.of_nat (Z.to_nat Period) <= nHeight b + 1) by lia.
  destruct (count_blocks_total _ p b 0 Hp HPn) as [r Hr].
  destruct s; unfold next_state; rewrite ?Hmt; cbn [mbind option_bind]; try (by eexists). case_match; [by eexists|]. rewrite Hr. by eexists.
Qed.

Lemma bip9_functional o s : bip9 T o s -> forall s', bip9 T o s' -> s = s'.
Proof using Type.
  induction 1 as [|p b s s1 Hp _ IH Hn]; intros s' Hs'; inversion Hs'; [done|]. simplify_eq.
  match goal with H : bip9 T (prev_period T p) _ |- _ => apply IH in H end. by simplify_eq.
Qed.

(** [walk_back] pushed the periods between [o] and [start]. *)
Fixpoint pushed (o : option nat) (stack : list nat) (start : option nat) : Prop :=
  match stack with
  | [] => o = start
  | p :: rest => prev_period T p = o /\ ends_period T (Some p) /\ pushed (Some p) rest start
  end.

Lemma cache_ok_insert cache o s : cache_ok T cache -> ends_period T o -> bip9 T o s -> cache_ok T (<[o := s]> cache).
Proof using Type.
  intros Hc He Hb o' s'. destruct (decide (o = o')) as [<-|]; [rewrite lookup_insert_eq|rewrite lookup_insert_ne by done; apply Hc].
  by intros [= <-].
Qed.

Lemma walk_back_ok fuel : forall cache o stack start,
  cache_ok T cache -> ends_period T o -> (walk_fuel T o <= fuel)%nat -> pushed o stack start ->
  exists o' stack' cache' s, walk_back T fuel cache o stack = Some (o', stack', cache') /\
    pushed o' stack' start /\ cache_ok T cache' /\ cache' !! o' = Some s /\ cache ⊆ cache'.
Proof using Hwf Htimes HP Hwin.
  assert (Hstop : forall cache o stack start s, cache_ok T cache -> ends_period T o -> pushed o stack start ->
    cache !! o = None -> bip9 T o s ->
    exists o' stack' cache' s', Some (o, stack, <[o := s]> cache) = Some (o', stack', cache') /\
      pushed o' stack' start /\ cache_ok T cache' /\ cache' !! o' = Some s' /\ cache ⊆ cache').
  { intros cache o stack start s Hc He Hp Hn Hb. exists o, stack, (<[o := s]> cache), s. split_and!; [done|done| | |by apply insert_subseteq].
    - by apply cache_ok_insert.
    - by rewrite lookup_insert_eq. }
  induction fuel as [|fuel IH]; intros cache o stack start Hc He Hf Hp; cbn [walk_back].
  all: destruct (cache !! o) as [s|] eqn:Ho; [exists o, stack, cache, s; by split_and!|].
  all: destruct o as [p|]; [|apply Hstop; (done || apply bip9_genesis)].
  all: destruct He as (b & Hb & Hm); cbn [walk_fuel] in Hf; rewrite Hb in Hf.
  { lia. }
  rewrite Hb. cbn [mbind option_bind]. destruct (median_total T Hwf p b Hb) as (m & _ & Hmt & _). rewrite Hmt. cbn [mbind option_bind].
  assert (He : ends_period T (Some p)) by (by exists b).
  destruct (Z.ltb_spec m BeginTime).
  { apply Hstop; try done. apply (early_defined (Z.to_nat (nHeight b)) p b m); try done. lia. }
  rewrite (period_parent p b Hb). cbn [mbind option_bind]. apply IH; [done|by apply prev_ends_period| |done].
  destruct (prev_period T p) as [q|] eqn:Hq; cbn [walk_fuel]; [|lia].
  destruct (prev_period_spec p q Hq) as (b' & bq & Hp' & Hbq & Hh & _). simplify_eq. rewrite Hbq.
  destruct (Hwf q bq Hbq) as [Hpos _]. lia.
Qed.

Lemma walk_forward_ok stack : forall cache o s start, cache_ok T cache -> pushed o stack start -> bip9 T o s ->
  (forall p, p ∈ stack -> forall s', cache !! Some p = Some s' -> bip9 T (Some p) s') ->
  exists s' cache', walk_forward T stack s cache = Some (s', cache') /\ bip9 T start s' /\ cache_ok T cache' /\ cache ⊆ cache'.
Proof using Hwf HP.
  induction stack as [|p stack IH]; intros cache o s start Hc Hp Hb Hin; cbn [walk_forward pushed] in *.
  { subst. by exists s, cache. }
  destruct Hp as (Hprev & He & Hp). destruct (next_state_total s p He) as [s1 Hs1]. rewrite Hs1. cbn [mbind option_bind].
  assert (Hb1 : bip9 T (Some p) s1). { destruct He as (b & Hpb & _). apply (bip9_next T p b s); try done. by rewrite Hprev. }
  destruct (IH (<[Some p := s1]> cache) (Some p) s1 start) as (s' & cache' & H1 & H2 & H3 & H4); try done.
  - by apply cache_ok_insert.
  - intros p' _ s'. destruct (decide (p = p')) as [<-|]; [rewrite lookup_insert_eq; by intros [= <-]|].
    rewrite lookup_insert_ne by congruence. apply Hc.
  - exists s', cache'. split_and!; try done. transitivity (<[Some p := s1]> cache); [|done].
    destruct (cache !! Some p) as [s2|] eqn:Hcp; [|by apply insert_subseteq].
    assert (s2 = s1) as -> by (apply Hc in Hcp as [_ Hcp]; by apply (bip9_functional _ _ Hcp)). by rewrite insert_id.
Qed.

(** The end of the period before a block. *)
Lemma period_end_ok o : (forall p, o = Some p -> is_Some (T !! p)) ->
  exists o', period_end T o = Some o' /\ ends_period T o'.
Proof using Hwf HP.
  intros Ho. destruct o as [p|]; [|by exists None]. destruct (Ho p eq_refl) as [b Hp]. unfold period_end. rewrite Hp.
  cbn [mbind option_bind]. rewrite (proj2 (Z.eqb_neq Period 0)) by lia. rewrite (GetAncestor_correct T Hwf p b) by done.
  destruct (Hwf p b Hp) as [Hpos _]. assert (Hr : 0 <= Z.rem (nHeight b + 1) Period < Period) by (apply Z.rem_bound_pos; lia).
  rewrite (proj2 (Z.leb_le _ (nHeight b))), andb_true_r by lia. eexists. split; [done|].
  destruct (Z.leb_spec 0 (nHeight b - Z.rem (nHeight b + 1) Period)) as [Hle|]; [|done].
  assert (Hhi : nHeight b - Z.rem (nHeight b + 1) Period <= nHeight b) by lia.
  destruct (ancestor_some T Hwf p b _ Hp (conj Hle Hhi)) as (q & bq & Hq & Hbq & Hh). rewrite Hq.
  exists bq. split; [done|]. rewrite Hh, Z.rem_mod_nonneg by lia.
  replace (nHeight b - (nHeight b + 1) mod Period + 1) with (nHeight b + 1 - (nHeight b + 1) mod Period) by lia.
  rewrite Zminus_mod_idemp_r, Z.sub_diag. by apply Z.mod_0_l; lia.
Qed.

Lemma GetStateFor_ok o cache : (forall p, o = Some p -> is_Some (T !! p)) -> cache_ok T cache ->
  exists o' s cache', period_end T o = Some o' /\ GetStateFor T o cache = Some (s, cache') /\
    bip9 T o' s /\ cache_ok T cache' /\ cache ⊆ cache'.
Proof using Hwf Htimes HP Hwin.
  intros Ho Hc. destruct (period_end_ok o Ho) as (o' & Hend & He). unfold GetStateFor. rewrite Hend. cbn [mbind option_bind].
  destruct (walk_back_ok (walk_fuel T o') cache o' [] o' Hc He ltac:(lia) eq_refl) as (k & stack & c1 & s & Hw & Hp & Hc1 & Hk & Hsub).
  rewrite Hw. cbn [mbind option_bind]. rewrite Hk. cbn [mbind option_bind].
  destruct (walk_forward_ok stack c1 k s o' Hc1 Hp) as (s' & c2 & Hf & Hb & Hc2 & Hsub2).
  - by apply Hc1.
  - intros p _ s'. apply Hc1.
  - exists o', s', c2. split_and!; try done. by transitivity c1.
Qed.

Lemma since_loop_ok fuel : forall s p b cache, cache_ok T cache -> ends_period T (Some p) -> T !! p = Some b ->
  nHeight b < Z.of_nat fuel ->
  exists q cache', since_loop T fuel s p cache = Some (q, cache') /\ since T s p q /\ cache_ok T cache' /\ ends_period T (Some q).
Proof using Hwf Htimes HP Hwin.
  induction fuel as [|fuel IH]; intros s p b cache Hc He Hp Hf; [destruct (Hwf p b Hp); lia|].
  cbn [since_loop]. rewrite Hp. cbn [mbind option_bind]. rewrite (period_parent p b Hp). cbn [mbind option_bind].
  destruct (prev_period T p) as [q|] eqn:Hq; [|exists p, cache; split_and!; try done; constructor; by rewrite Hq].
  destruct (prev_period_spec p q Hq) as (b' & bq & Hp' & Hbq & Hh & _). simplify_eq.
  destruct (GetStateFor_ok (Some q) cache) as (o' & s' & c1 & Hend & Hget & Hb9 & Hc1 & _); [intros ? [= <-]; by eexists|done|].
  assert (Hqe : ends_period T (Some q)) by (rewrite <- Hq; by apply prev_ends_period).
  assert (o' = Some q) as ->.
  { destruct Hqe as (bq' & Hbq' & Hm). simplify_eq. unfold period_end in Hend. rewrite Hbq in Hend. cbn [mbind option_bind] in Hend.
    rewrite (proj2 (Z.eqb_neq Period 0)) in Hend by lia. destruct (Hwf q bq Hbq) as [Hpos _].
    rewrite Z.rem_mod_nonneg, Hm, Z.sub_0_r, (GetAncestor_correct T Hwf q bq), Z.leb_refl, (proj2 (Z.leb_le 0 _)) in Hend by (lia || done).
    cbn in Hend. rewrite (ancestor_self T q bq) in Hend by done. congruence. }
  rewrite Hget. cbn [mbind option_bind]. case_bool_decide as Hs.
  - subst s'. destruct (IH s q bq c1) as (r & c2 & H1 & H2 & H3 & H4); try done; [lia|].
    exists r, c2. split_and!; try done. by apply since_back with q.
  - exists p, c1. split_and!; try done. constructor. rewrite Hq. intros Hb9'. apply Hs. by apply (bip9_functional _ _ Hb9).
Qed.

(** What locking in takes: a period that ended before the timeout with enough
    blocks meeting the condition. *)
Lemma locked_in_signalled o s : bip9 T o s -> s = THRESHOLD_LOCKED_IN \/ s = THRESHOLD_ACTIVE ->
  exists p m c, bip9 T (prev_period T p) THRESHOLD_STARTED /\ GetMedianTimePast T p = Some m /\ m < EndTime /\
    count_blocks T (Z.to_nat Period) (Some p) 0 = Some c /\ Threshold <= c.
Proof using Type.
  induction 1 as [|p b s s' Hp Hb IH Hn]; [intros [[=]|[=]]|]. intros Hs. destruct s; unfold next_state in Hn.
  1,2: destruct (GetMedianTimePast T p) as [m|] eqn:Hm; [|done]; cbn [mbind option_bind] in Hn.
  - repeat case_match; simplify_eq; by destruct Hs.
  - rewrite Z.geb_leb in Hn. destruct (Z.leb_spec EndTime m); [simplify_eq; by destruct Hs|].
    destruct (count_blocks T (Z.to_nat Period) (Some p) 0) as [c|] eqn:Hc; [|done]. cbn [mbind option_bind] in Hn.
    rewrite Z.geb_leb in Hn. destruct (Z.leb_spec Threshold c); simplify_eq; [|by destruct Hs]. by exists p, m, c.
  - apply IH. by left.
  - apply IH. by right.
  - simplify_eq. by destruct Hs.
Qed.

End Refinement.

(** ** Properties *)

(** C31: the cached computation of a deployment's state is the state machine.
    In a well-formed tree of blocks whose times respect the median rule, with
    a positive period and a start time not after the timeout, and a cache of
    right entries, [GetStateFor] always returns, without undefined behaviour,
    the state that the machine gives to the period of the next block, and
    only adds right entries to the cache: neither the cache nor the shortcut
    for early blocks changes a state. *)
Theorem GetStateFor_refines `{!ThresholdConditionChecker} T o cache
  (Hwf : tree_wf T) (Ht : times_ok T) (HP : 0 < Period) (Hw : BeginTime <= EndTime)
  (Ho : forall p, o = Some p -> is_Some (T !! p)) (Hc : cache_ok T cache) :
  exists o' s cache', period_end T o = Some o' /\ GetStateFor T o cache = Some (s, cache') /\
    (forall s', bip9 T o' s' <-> s' = s) /\ cache_ok T cache' /\ cache ⊆ cache'.
Proof.
  destruct (GetStateFor_ok T Hwf Ht HP Hw o cache Ho Hc) as (o' & s & c' & H1 & H2 & H3 & H4 & H5).
  exists o', s, c'. split_and!; try done. intros s'. split; [|by intros ->]. intros Hs'. symmetry. by apply (bip9_functional T _ _ H3).
Qed.

(** [GetStateSinceHeightFor] returns the height of the first block of the
    run of periods in the present state: it goes back exactly over the whole
    periods that have that state. *)
Theorem GetStateSinceHeightFor_first `{!ThresholdConditionChecker} T p b cache s o
  (Hwf : tree_wf T) (Ht : times_ok T) (HP : 0 < Period) (Hw : BeginTime <= EndTime)
  (Hp : T !! p = Some b) (Hc : cache_ok T cache) (Ho : period_end T (Some p) = Some o) (Hs : bip9 T o s) :
  exists cache', cache_ok T cache' /\
    match o with
    | Some p0 => if bool_decide (s = THRESHOLD_DEFINED) then GetStateSinceHeightFor T (Some p) cache = Some (0, cache')
                 else exists q bq, since T s p0 q /\ T !! q = Some bq /\
                        GetStateSinceHeightFor T (Some p) cache = Some (nHeight bq + 1, cache')
    | None => GetStateSinceHeightFor T (Some p) cache = Some (0, cache')
    end.
Proof.
  destruct (GetStateFor_ok T Hwf Ht HP Hw (Some p) cache) as (o' & s' & c1 & H1 & H2 & H3 & H4 & _); [intros ? [= <-]; by eexists|done|].
  rewrite Ho in H1. simplify_eq. apply (bip9_functional T _ _ Hs) in H3 as <-. unfold GetStateSinceHeightFor. rewrite H2. cbn [mbind option_bind].
  destruct o' as [p0|].
  - case_bool_decide; [by exists c1|]. rewrite Ho. cbn [mbind option_bind].
    destruct (period_end_ok T Hwf HP (Some p)) as (o'' & Ho' & He); [intros ? [= <-]; by eexists|]. rewrite Ho in Ho'. simplify_eq.
    destruct He as (b0 & Hb0 & Hm). destruct (Hwf p0 b0 Hb0) as [Hpos _].
    destruct (since_loop_ok T Hwf Ht HP Hw (walk_fuel T (Some p0)) s p0 b0 c1 H4) as (q & c2 & H5 & H6 & H7 & bq & Hbq & _); try done.
    { by exists b0. } { cbn [walk_fuel]. rewrite Hb0. lia. }
    rewrite H5. cbn [mbind option_bind]. rewrite Hbq. cbn [mbind option_bind]. exists c2. split; [done|]. by exists q, bq.
  - inversion Hs. subst s. rewrite bool_decide_true by done. by exists c1.
Qed.

(** The version bits test needs a bit that its mask excludes. *)
Lemma Condition_false d w r b : @Condition (VersionBitsConditionChecker d w r) b = false.
Proof.
  cbn. apply andb_false_iff. left. apply Z.eqb_neq. intros He. apply (f_equal (fun x => Z.testbit x 28)) in He.
  rewrite Z.land_spec in He. change (Z.testbit VERSIONBITS_TOP_MASK 28) with false in He. rewrite andb_false_r in He. done.
Qed.

Lemma count_blocks_zero d w r T n : forall o c k,
  @count_blocks (VersionBitsConditionChecker d w r) T n o c = Some k -> k = c.
Proof.
  induction n as [|n IH]; intros o c k Hk; cbn [count_blocks] in Hk; [by simplify_eq|].
  destruct o as [p|]; [|done]. cbn [mbind option_bind] in Hk. destruct (T !! p) as [b|]; [|done]. cbn [mbind option_bind] in Hk.
  rewrite Condition_false in Hk. by apply IH in Hk.
Qed.

(** No deployment can lock in.  The bits that mark a version-bits block
    (0x10000000) are outside the mask they are compared under (0xE0000000), so
    no block version ever signals: whatever the blocks, the deployment and the
    positive threshold, [GetStateFor] never returns LOCKED_IN or ACTIVE, and
    the rules that wait for a deployment are never enforced. *)
Theorem deployments_never_lock_in d w r T o cache
  (Hwf : tree_wf T) (Ht : times_ok T)
  (HP : 0 < @Period (VersionBitsConditionChecker d w r)) (Hw : nStartTime d <= nTimeout d)
  (HT : 0 < @Threshold (VersionBitsConditionChecker d w r))
  (Ho : forall p, o = Some p -> is_Some (T !! p)) (Hc : @cache_ok (VersionBitsConditionChecker d w r) T cache) :
  exists s cache', @GetStateFor (VersionBitsConditionChecker d w r) T o cache = Some (s, cache') /\
    (s = THRESHOLD_DEFINED \/ s = THRESHOLD_STARTED \/ s = THRESHOLD_FAILED).
Proof.
  destruct (@GetStateFor_ok (VersionBitsConditionChecker d w r) T Hwf Ht HP Hw o cache Ho Hc) as (o' & s & c' & _ & Hg & Hb & _).
  exists s, c'. split; [done|]. destruct s; try (by auto); exfalso;
    (destruct (locked_in_signalled T _ _ Hb ltac:(auto)) as (p & m & c & _ & _ & _ & Hcount & Hle);
     apply count_blocks_zero in Hcount; lia).
Qed.

(** ** Witnesses *)

Definition sample_checker : ThresholdConditionChecker := {|
  Condition b := nTime b >=? 100; BeginTime := 90; EndTime := 1000; Period := 2; Threshold := 2 |}.

Lemma sample_times_ok : times_ok sample_tree.
Proof.
  intros p b q m Hp Hq Hm. unfold sample_tree in Hp.
  repeat (rewrite lookup_insert in Hp; case_decide; [simplify_eq; cbn in Hq; simplify_eq; vm_compute in Hm; simplify_eq; vm_compute; congruence|]).
  by rewrite lookup_empty in Hp.
Qed.

Lemma GetStateFor_refines_witness :
  exists s cache', @GetStateFor sample_checker sample_tree (Some 3%nat) ∅ = Some (s, cache') /\ s = THRESHOLD_LOCKED_IN.
Proof.
  destruct (@GetStateFor_refines sample_checker sample_tree (Some 3%nat) ∅) as (o' & s & c' & _ & Hg & _).
  - exact sample_tree_wf.
  - exact sample_times_ok.
  - reflexivity.
  - cbn. lia.
  - intros p [= <-]. vm_compute. by eexists.
  - intros o s Hs. by rewrite lookup_empty in Hs.
  - exists s, c'. split; [exact Hg|]. vm_compute in Hg. by injection Hg.
Defined.

Lemma GetStateSinceHeightFor_first_witness :
  exists cache', @GetStateSinceHeightFor sample_checker sample_tree (Some 2%nat) ∅ = Some (2, cache').
Proof.
  destruct (@GetStateSinceHeightFor_first sample_checker sample_tree 2 (sample_block 2 (Some 1%nat) (Some 0%nat) 2 160) ∅
    THRESHOLD_STARTED (Some 1%nat)) as (c' & _ & q & bq & Hq & Hbq & Hg).
  - exact sample_tree_wf.
  - exact sample_times_ok.
  - reflexivity.
  - cbn. lia.
  - vm_compute. reflexivity.
  - intros o s Hs. by rewrite lookup_empty in Hs.
  - vm_compute. reflexivity.
  - apply (@bip9_next sample_checker sample_tree 1 (sample_block 1 (Some 0%nat) (Some 0%nat) 1 130) THRESHOLD_DEFINED).
    + vm_compute. reflexivity.
    + replace (@prev_period sample_checker sample_tree 1) with (@None nat) by (vm_compute; reflexivity). apply bip9_genesis.
    + vm_compute. reflexivity.
  - assert (E : fst <$> @GetStateSinceHeightFor sample_checker sample_tree (Some 2%nat) ∅ = Some 2) by (vm_compute; reflexivity).
    exists c'. rewrite Hg in E |- *. injection E as ->. reflexivity.
Defined.

(** A deployment on bit 0, as the one of relative lock times. *)
Definition csv : BIP9Deployment := mkDeployment 0 100 999999999999 0 0.

Lemma deployments_never_lock_in_witness :
  exists s cache', @GetStateFor (VersionBitsConditionChecker csv 2 1) sample_tree (Some 3%nat) ∅ = Some (s, cache') /\
    s <> THRESHOLD_LOCKED_IN /\ s <> THRESHOLD_ACTIVE.
Proof.
  destruct (deployments_never_lock_in csv 2 1 sample_tree (Some 3%nat) ∅) as (s & c' & Hg & Hs).
  - exact sample_tree_wf.
  - exact sample_times_ok.
  - reflexivity.
  - cbn. lia.
  - reflexivity.
  - intros p [= <-]. vm_compute. by eexists.
  - intros o s Hs. by rewrite lookup_empty in Hs.
  - exists s, c'. split; [exact Hg|]. split; intros ->; by destruct Hs as [[=]|[[=]|[=]]].
Defined.

End VersionBits.
