(* ===== verification/MerkleBlock.v ===== *)
(** * Partial Merkle trees (merkleblock.h, merkleblock.cpp)

    A [CPartialMerkleTree] proves to a light client which transactions of a
    block match.  [TraverseAndBuild] writes a bit per visited node and the
    hashes it does not descend below; [TraverseAndExtract] reads them back.
    Heights and positions are naturals (they stay below the number of
    transactions, 26214 at most for a tree that is accepted); a read outside
    [vTxid] or [vMatch] is undefined behaviour, [None]. *)

From stdpp Require Import base sets list list_numbers numbers option.
From Stdlib Require Import ZArith Lia.
From S2P Require Import Prelude ArithUint256 Serialize Script Transaction Interpreter InterpreterSafety Compressor Coins Ledger Merkle.

Local Open Scope Z_scope.

Module MerkleBlock.
Import Serialize Transaction Interpreter InterpreterSafety Ledger Merkle.

Record CPartialMerkleTree : Type := mkTree {
  nTransactions : Z;
  vBits : list bool;
  vHash : list uint256;
  fBad : bool
}.

(** [CalcTreeWidth]: [(nTransactions + (1 << height) - 1) >> height]. *)
Definition CalcTreeWidth (n : Z) (height : nat) : Z :=
  Z.shiftr (u32 (n + Z.shiftl 1 (Z.of_nat height) - 1)) (Z.of_nat height).

(** [while (CalcTreeWidth(nHeight) > 1) nHeight++] *)
Fixpoint tree_height (fuel : nat) (n : Z) (nHeight : nat) : nat :=
  match fuel with
  | O => nHeight
  | S fuel => if CalcTreeWidth n nHeight >? 1 then tree_height fuel n (S nHeight) else nHeight
  end.

Section Trees.
Context `{!Crypto}.

Fixpoint CalcHash (n : Z) (height pos : nat) (vTxid : list uint256) : option uint256 :=
  match height with
  | O => vTxid !! pos
  | S height =>
      hleft ← CalcHash n height (pos * 2) vTxid;
      hright ← (if Z.of_nat (pos * 2 + 1) <? CalcTreeWidth n height then CalcHash n height (pos * 2 + 1) vTxid else Some hleft);
      Some (Hash2 hleft hright)
  end.

(** The loop over the leaves below a node: [k] of them from [p] on. *)
Fixpoint parent_of_match (n : Z) (vMatch : list bool) (k p : nat) (fParentOfMatch : bool) : option bool :=
  match k with
  | O => Some fParentOfMatch
  | S k =>
      if Z.of_nat p <? n then
        m ← vMatch !! p; parent_of_match n vMatch k (S p) (fParentOfMatch || m)
      else Some fParentOfMatch
  end.

Fixpoint TraverseAndBuild (n : Z) (height pos : nat) (vTxid : list uint256) (vMatch : list bool)
  (st : list bool * list uint256) : option (list bool * list uint256) :=
  fParentOfMatch ← parent_of_match n vMatch (2 ^ height) (pos * 2 ^ height) false;
  let bits := st.1 ++ [fParentOfMatch] in
  match height with
  | S h =>
      if (fParentOfMatch : bool) then
        st ← TraverseAndBuild n h (pos * 2) vTxid vMatch (bits, st.2);
        if Z.of_nat (pos * 2 + 1) <? CalcTreeWidth n h then TraverseAndBuild n h (pos * 2 + 1) vTxid vMatch st else Some st
      else hash ← CalcHash n height pos vTxid; Some (bits, st.2 ++ [hash])
  | O => hash ← CalcHash n height pos vTxid; Some (bits, st.2 ++ [hash])
  end.

(** The constructor [CPartialMerkleTree(vTxid, vMatch)]. *)
Definition build_tree (vTxid : list uint256) (vMatch : list bool) : option CPartialMerkleTree :=
  let n := u32 (Z.of_nat (length vTxid)) in
  '(bits, hashes) ← TraverseAndBuild n (tree_height 32 n 0) 0 vTxid vMatch ([], []);
  Some (mkTree n bits hashes false).

(** The references that [TraverseAndExtract] passes around, and [fBad]. *)
Record extraction : Type := mkExtraction {
  nBitsUsed : nat;
  nHashUsed : nat;
  vMatched : list uint256;
  vnIndex : list nat;
  bad : bool
}.

Definition set_bad (s : extraction) : extraction := mkExtraction (nBitsUsed s) (nHashUsed s) (vMatched s) (vnIndex s) true.

Fixpoint TraverseAndExtract (t : CPartialMerkleTree) (height pos : nat) (s : extraction) : uint256 * extraction :=
  match vBits t !! nBitsUsed s with
  | None => (uint256_null, set_bad s)
  | Some fParentOfMatch =>
      let s := mkExtraction (S (nBitsUsed s)) (nHashUsed s) (vMatched s) (vnIndex s) (bad s) in
      let stored (leaf : bool) :=
        match vHash t !! nHashUsed s with
        | None => (uint256_null, set_bad s)
        | Some hash =>
            (hash, if leaf then mkExtraction (nBitsUsed s) (S (nHashUsed s)) (vMatched s ++ [hash]) (vnIndex s ++ [pos]) (bad s)
                   else mkExtraction (nBitsUsed s) (S (nHashUsed s)) (vMatched s) (vnIndex s) (bad s))
        end in
      match height with
      | S h =>
          if fParentOfMatch then
            let '(hleft, s) := TraverseAndExtract t h (pos * 2) s in
            if Z.of_nat (pos * 2 + 1) <? CalcTreeWidth (nTransactions t) h then
              let '(hright, s) := TraverseAndExtract t h (pos * 2 + 1) s in
              (Hash2 hleft hright, if bool_decide (hright = hleft) then set_bad s else s)
            else (Hash2 hleft hleft, s)
          else stored false
      | O => stored fParentOfMatch
      end
  end.

(** [ExtractMatches]: the root, [vMatch] and [vnIndex] (which, unlike
    [vMatch], is not cleared). *)
Definition ExtractMatches (t : CPartialMerkleTree) (index0 : list nat) : uint256 * list uint256 * list nat :=
  let fail := (uint256_null, [], index0) in
  if nTransactions t =? 0 then fail
  else if nTransactions t >? MAX_BLOCK_SIZE / 60 then fail
  else if Z.of_nat (length (vHash t)) >? nTransactions t then fail
  else if (length (vBits t) <? length (vHash t))%nat then fail
  else
    let '(hashMerkleRoot, s) :=
      TraverseAndExtract t (tree_height 32 (nTransactions t) 0) 0 (mkExtraction 0 0 [] index0 (fBad t)) in
    let result root := (root, vMatched s, vnIndex s) in
    if bad s then result uint256_null
    else if negb ((nBitsUsed s + 7) / 8 =? (length (vBits t) + 7) / 8)%nat then result uint256_null
    else if negb (nHashUsed s =? length (vHash t))%nat then result uint256_null
    else result hashMerkleRoot.

(** ** Serialization: the bits packed eight to a byte *)

Definition pack_bits (bits : list bool) : list Z :=
  for_up 0 (length bits)
    (fun p vBytes => <[(p / 8)%nat := Z.lor (nth (p / 8) vBytes 0) (Z.shiftl (Z.b2z (nth p bits false)) (Z.of_nat (p mod 8)))]> vBytes)
    (repeat 0 ((length bits + 7) / 8)).

Definition unpack_bits (vBytes : list Z) : list bool :=
  map (fun p => negb (Z.land (nth (p / 8) vBytes 0) (Z.shiftl 1 (Z.of_nat (p mod 8))) =? 0)) (seq 0 (length vBytes * 8)).

Definition c_partial_tree : codec CPartialMerkleTree := Codec
  (fun t => Ser c_uint32 (nTransactions t) ++ Ser (c_vector (c_blob 32)) (vHash t) ++ Ser c_bytes (pack_bits (vBits t)))
  (fun bs =>
     '(n, bs) ← Unser c_uint32 bs;
     '(hashes, bs) ← Unser (c_vector (c_blob 32)) bs;
     '(bytes, bs) ← Unser c_bytes bs;
     Some (mkTree n (unpack_bits bytes) hashes false, bs)).

(** The matches of [CMerkleBlock(block, txids)]: its tree is
    [build_tree] on the transaction identifiers and this mask. *)
Definition match_txids (vtx : list CTransaction) (txids : list uint256) : list bool :=
  map (fun tx => bool_decide (GetHash tx ∈ txids)) vtx.

Definition CMerkleBlock_txids (vtx : list CTransaction) (txids : list uint256) : option CPartialMerkleTree :=
  build_tree (map GetHash vtx) (match_txids vtx txids).

End Trees.

(** ** Widths and heights *)

Section Width.
Context (n : nat) (Hn : Z.of_nat n <= 2 ^ 30).

(** A node is beyond the end of the tree when its first leaf is. *)
Lemma width_spec pos h : (h <= 30)%nat -> (Z.of_nat pos <? CalcTreeWidth (Z.of_nat n) h) = (pos * 2 ^ h <? n)%nat.
Proof using Hn.
  intros Hh. unfold CalcTreeWidth. assert (Hpow : 2 ^ Z.of_nat h <= 2 ^ 30) by (apply Z.pow_le_mono_r; lia).
  pose proof (pow2_pos h). rewrite pow2_bit. pose proof (Nat2Z.inj_pow 2 h).
  rewrite u32_small, Z.shiftr_div_pow2 by lia. replace (2 ^ Z.of_nat h) with (Z.of_nat (2 ^ h)) by lia.
  set (w := Z.of_nat (2 ^ h)) in *. destruct (Nat.ltb_spec (pos * 2 ^ h) n).
  - apply Z.ltb_lt. enough (Z.of_nat pos + 1 <= (Z.of_nat n + w - 1) / w) by lia.
    apply Z.div_le_lower_bound; [lia|]. unfold w in *. nia.
  - apply Z.ltb_ge. enough ((Z.of_nat n + w - 1) / w < Z.of_nat pos + 1) by lia. apply Z.div_lt_upper_bound; [lia|]. unfold w in *. nia.
Qed.

Lemma tree_height_spec fuel : forall h, (31 <= h + fuel)%nat -> (h <= Nat.log2_up n)%nat -> (0 < n)%nat ->
  tree_height fuel (Z.of_nat n) h = Nat.log2_up n /\ (Nat.log2_up n <= 30)%nat.
Proof using Hn.
  intros h Hf Hh H0. assert (Hmax : (Nat.log2_up n <= 30)%nat).
  { destruct (closing_log2 n H0) as [_ Hlow]. destruct (Nat.log2_up n) as [|k]; [lia|]. rewrite Nat.pow_succ_r' in Hlow.
    enough (k < 30)%nat by lia. apply (level_bound 1); [lia|]. change (2 ^ Z.of_nat 30) with (2 ^ 30). lia. }
  split; [|done]. revert h Hf Hh. induction fuel as [|fuel IH]; intros h Hf Hh; [lia|]. cbn [tree_height].
  replace (CalcTreeWidth (Z.of_nat n) h >? 1) with (Z.of_nat 1 <? CalcTreeWidth (Z.of_nat n) h) by (symmetry; apply Z.gtb_ltb).
  rewrite width_spec by lia. rewrite Nat.mul_1_l. destruct (Nat.ltb_spec (2 ^ h) n) as [Hc|Hc].
  - apply IH; [lia|]. enough (h < Nat.log2_up n)%nat by lia. by apply Nat.log2_up_lt_pow2.
  - enough (Nat.log2_up n <= h)%nat by lia. by apply Nat.log2_up_le_pow2.
Qed.

End Width.

(** ** What is built *)

Section Build.
Context `{!Crypto} (L : list uint256) (mask : list bool).
Context (Hn : Z.of_nat (length L) <= 2 ^ 30) (Hlen : length mask = length L).

Abbreviation n := (length L).
Abbreviation node := (Merkle.node L).

(** The matched leaves below a node. *)
Definition matched (h pos : nat) : list nat :=
  filter (fun i => nth i mask false = true) (seq (pos * 2 ^ h) (2 ^ h `min` (n - pos * 2 ^ h))).

Definition pm (h pos : nat) : bool := bool_decide (matched h pos <> []).

Fixpoint bits_of (h pos : nat) : list bool :=
  pm h pos :: match h with
              | S h' => if pm h pos then bits_of h' (pos * 2) ++ (if ((pos * 2 + 1) * 2 ^ h' <? n)%nat then bits_of h' (pos * 2 + 1) else [])
                        else []
              | O => []
              end.

Fixpoint hashes_of (h pos : nat) : list uint256 :=
  match h with
  | S h' => if pm h pos then hashes_of h' (pos * 2) ++ (if ((pos * 2 + 1) * 2 ^ h' <? n)%nat then hashes_of h' (pos * 2 + 1) else [])
            else [node h pos]
  | O => [node h pos]
  end.

Lemma matched_split h pos : matched (S h) pos = matched h (pos * 2) ++ matched h (pos * 2 + 1).
Proof.
  clear Hlen Hn. unfold matched. rewrite <- list.filter_app. f_equal. pose proof (pow2_pos h). rewrite Nat.pow_succ_r'.
  replace (pos * (2 * 2 ^ h))%nat with (pos * 2 * 2 ^ h)%nat by lia.
  destruct (Nat.le_gt_cases n ((pos * 2 + 1) * 2 ^ h)).
  - replace (2 ^ h `min` (n - (pos * 2 + 1) * 2 ^ h))%nat with 0%nat by lia. cbn [seq]. rewrite app_nil_r. f_equal. lia.
  - replace ((pos * 2 + 1) * 2 ^ h)%nat with (pos * 2 * 2 ^ h + (2 ^ h `min` (n - pos * 2 * 2 ^ h)))%nat by lia.
    rewrite <- seq_app. f_equal. lia.
Qed.

Lemma matched_beyond h pos : (n <= pos * 2 ^ h)%nat -> matched h pos = [].
Proof. clear Hlen Hn. intros Hp. unfold matched. by replace (2 ^ h `min` (n - pos * 2 ^ h))%nat with 0%nat by lia. Qed.

Lemma CalcHash_ok h : forall pos, (h <= 30)%nat -> (pos * 2 ^ h < n)%nat -> CalcHash (Z.of_nat n) h pos L = Some (node h pos).
Proof using Hn.
  clear Hlen. induction h as [|h IH]; intros pos Hh Hp.
  { rewrite node_leaf. cbn [CalcHash]. rewrite Nat.pow_0_r in Hp. destruct (nth_lookup_or_length L pos uint256_null); [done|lia]. }
  cbn [CalcHash]. pose proof (pow2_pos h). rewrite Nat.pow_succ_r' in Hp. rewrite (IH (pos * 2)%nat) by lia. cbn [mbind option_bind].
  rewrite width_spec by lia. replace (pos * 2)%nat with (2 * pos)%nat by lia. destruct (Nat.ltb_spec ((2 * pos + 1) * 2 ^ h) n).
  - rewrite IH by lia. cbn [mbind option_bind]. by rewrite node_full.
  - cbn [mbind option_bind]. by rewrite node_half.
Qed.

Lemma parent_of_match_ok k : forall p acc,
  parent_of_match (Z.of_nat n) mask k p acc =
  Some (acc || bool_decide (filter (fun i => nth i mask false = true) (seq p (k `min` (n - p))) <> [])).
Proof using Hlen.
  clear Hn. induction k as [|k IH]; intros p acc; cbn [parent_of_match]; [by rewrite orb_false_r|].
  destruct (Z.ltb_spec (Z.of_nat p) (Z.of_nat n)).
  - destruct (lookup_lt_is_Some_2 mask p ltac:(lia)) as [m Hm]. rewrite Hm. cbn [mbind option_bind]. rewrite IH.
    replace (S k `min` (n - p))%nat with (S (k `min` (n - S p))) by lia. cbn [seq]. rewrite filter_cons.
    rewrite (nth_lookup_Some _ _ _ _ Hm). destruct m.
    + rewrite decide_True by done. rewrite (bool_decide_true (_ :: _ <> [])) by done. by rewrite !orb_true_r.
    + rewrite decide_False by done. by rewrite orb_false_r.
  - replace (S k `min` (n - p))%nat with 0%nat by lia. cbn. by rewrite orb_false_r.
Qed.

Lemma TraverseAndBuild_ok h : forall pos st, (h <= 30)%nat -> (pos * 2 ^ h < n)%nat ->
  TraverseAndBuild (Z.of_nat n) h pos L mask st = Some (st.1 ++ bits_of h pos, st.2 ++ hashes_of h pos).
Proof using Hn Hlen.
  induction h as [|h IH]; intros pos st Hh Hp.
  - cbn [TraverseAndBuild]. rewrite parent_of_match_ok. cbn [mbind option_bind]. by rewrite CalcHash_ok.
  - pose proof (pow2_pos h) as Hpow. cbn [TraverseAndBuild]. rewrite parent_of_match_ok. cbn [mbind option_bind orb].
    cbn [bits_of hashes_of]. change (bool_decide _) with (pm (S h) pos). destruct (pm (S h) pos).
    + rewrite Nat.pow_succ_r' in Hp. rewrite (IH (pos * 2)%nat) by lia. cbn [mbind option_bind fst snd]. rewrite width_spec by lia.
      destruct (Nat.ltb_spec ((pos * 2 + 1) * 2 ^ h) n).
      * rewrite IH by lia. cbn [fst snd]. by rewrite <- !app_assoc.
      * rewrite !app_nil_r. by rewrite <- app_assoc.
    + by rewrite CalcHash_ok.
Qed.

Definition leaf (i : nat) : uint256 := nth i L uint256_null.

Lemma matched_leaf pos : (pos < n)%nat -> matched 0 pos = if pm 0 pos then [pos] else [].
Proof.
  clear Hlen Hn. intros Hp. unfold pm, matched. rewrite Nat.pow_0_r, Nat.mul_1_r.
  replace (1 `min` (n - pos))%nat with 1%nat by lia. cbn [seq]. rewrite filter_cons. by destruct (decide (nth pos mask false = true)).
Qed.

Lemma unmatched h pos : pm h pos = false -> matched h pos = [].
Proof. clear Hlen Hn. unfold pm. rewrite bool_decide_eq_false. intros He. destruct (matched h pos); [done|]. exfalso. by apply He. Qed.

(** Reading back what was built, from any place of the two vectors. *)
Lemma TraverseAndExtract_built t h : nTransactions t = Z.of_nat n ->
  (forall k j, ((2 * j + 1) * 2 ^ k < n)%nat -> node k (2 * j) = node k (2 * j + 1) -> collision_among (hashed_inputs L)) ->
  forall pos B1 B2 H1 H2 M I b, (h <= 30)%nat -> (pos * 2 ^ h < n)%nat ->
  vBits t = B1 ++ bits_of h pos ++ B2 -> vHash t = H1 ++ hashes_of h pos ++ H2 ->
  TraverseAndExtract t h pos (mkExtraction (length B1) (length H1) M I b) =
    (node h pos, mkExtraction (length (B1 ++ bits_of h pos)) (length (H1 ++ hashes_of h pos))
                   (M ++ map leaf (matched h pos)) (I ++ matched h pos) b) \/ collision_among (hashed_inputs L).
Proof using Hn.
  clear Hlen. intros Ht Hsib. induction h as [|h IH]; intros pos B1 B2 H1 H2 M I b Hh Hp HB HH.
  - left. cbn [bits_of hashes_of] in HB, HH |- *. cbn [TraverseAndExtract nBitsUsed nHashUsed vMatched vnIndex bad].
    cbn [app] in HB, HH. rewrite HB, list_lookup_middle by done. rewrite HH, list_lookup_middle by done. rewrite Nat.pow_0_r in Hp.
    rewrite matched_leaf, !length_app by lia. cbn [length]. rewrite !Nat.add_1_r. rewrite node_leaf.
    destruct (pm 0 pos); cbn [map]; by rewrite ?app_nil_r.
  - cbn [bits_of hashes_of] in HB, HH |- *. cbn [TraverseAndExtract nBitsUsed nHashUsed vMatched vnIndex bad].
    rewrite HB, <- app_comm_cons, list_lookup_middle by done. destruct (pm (S h) pos) eqn:Hpm.
    + pose proof (pow2_pos h). rewrite Nat.pow_succ_r' in Hp. rewrite Ht, width_spec by lia. rewrite matched_split.
      replace (S (length B1)) with (length (B1 ++ [true])) by (rewrite length_app; cbn; lia).
      set (two := ((pos * 2 + 1) * 2 ^ h <? n)%nat) in *.
      rewrite <- app_assoc in HH.
      destruct (IH (pos * 2)%nat (B1 ++ [true]) ((if two then bits_of h (pos * 2 + 1) else []) ++ B2) H1
        ((if two then hashes_of h (pos * 2 + 1) else []) ++ H2) M I b) as [Hl|]; [lia|lia| |done| |by right].
      { rewrite HB. cbn [app]. by rewrite <- !app_assoc. }
      rewrite Hl. replace (pos * 2)%nat with (2 * pos)%nat in * by lia. destruct two eqn:Htwo; unfold two in Htwo.
      * apply Nat.ltb_lt in Htwo.
        destruct (IH (2 * pos + 1)%nat ((B1 ++ [true]) ++ bits_of h (2 * pos)) B2 (H1 ++ hashes_of h (2 * pos)) H2
          (M ++ map leaf (matched h (2 * pos))) (I ++ matched h (2 * pos)) b) as [Hr|]; [lia|lia| | | |by right].
        { rewrite HB. cbn [app]. by rewrite <- !app_assoc. } { rewrite HH. by rewrite <- !app_assoc. }
        rewrite Hr. rewrite <- node_full by lia. case_bool_decide as Heq.
        -- right. apply (Hsib h pos); [lia|done].
        -- left. rewrite map_app. by rewrite <- !app_assoc.
      * apply Nat.ltb_ge in Htwo. left. rewrite <- node_half by lia.
        rewrite (matched_beyond h (2 * pos + 1)), !app_nil_r by lia. by rewrite <- app_assoc.
    + left. cbn [app] in HH. rewrite HH, list_lookup_middle by done. rewrite (unmatched (S h) pos Hpm), !length_app. cbn [map length].
      by rewrite !app_nil_r, !Nat.add_1_r.
Qed.

(** The sizes that [ExtractMatches] checks. *)
Lemma hashes_of_length h : forall pos, (pos * 2 ^ h < n)%nat ->
  (length (hashes_of h pos) <= 2 ^ h `min` (n - pos * 2 ^ h))%nat /\ (length (hashes_of h pos) <= length (bits_of h pos))%nat.
Proof.
  clear Hlen Hn. induction h as [|h IH]; intros pos Hp; cbn [hashes_of bits_of].
  { rewrite Nat.pow_0_r in *. cbn [length]. lia. }
  pose proof (pow2_pos h). rewrite Nat.pow_succ_r' in *. destruct (pm (S h) pos); [|cbn [length]; lia].
  destruct (IH (pos * 2)%nat ltac:(lia)) as [H1 H2]. cbn [length]. rewrite !length_app.
  destruct (Nat.ltb_spec ((pos * 2 + 1) * 2 ^ h) n) as [Hb|Hb]; [destruct (IH (pos * 2 + 1)%nat Hb) as [H3 H4]|]; cbn [length]; lia.
Qed.

Lemma hashes_of_hashes `{!CryptoOk} h : forall pos, hashes L -> (pos * 2 ^ h < n)%nat -> hashes (hashes_of h pos).
Proof.
  clear Hlen Hn. assert (Hnode : forall k pos, hashes L -> (pos * 2 ^ k < n)%nat -> hashes [node k pos]).
  { intros k pos HL Hp. constructor; [|done]. apply mroot_length; [|by apply Forall_take, Forall_drop].
    rewrite length_take, length_drop. pose proof (pow2_pos k). lia. }
  induction h as [|h IH]; intros pos HL Hp; cbn [hashes_of]; [by apply (Hnode 0%nat)|].
  destruct (pm (S h) pos); [|by apply Hnode]. pose proof (pow2_pos h). rewrite Nat.pow_succ_r' in Hp.
  apply Forall_app. split; [apply IH; [done|lia]|]. destruct (Nat.ltb_spec ((pos * 2 + 1) * 2 ^ h) n); [by apply IH|constructor].
Qed.

End Build.

(** ** Soundness: what a tree can make a client believe *)

(** The strings that [TraverseAndExtract] hashes. *)
Fixpoint extract_inputs `{!Crypto} (t : CPartialMerkleTree) (height pos : nat) (s : extraction) : list (list Z) :=
  match vBits t !! nBitsUsed s, height with
  | Some true, S h =>
      let s := mkExtraction (S (nBitsUsed s)) (nHashUsed s) (vMatched s) (vnIndex s) (bad s) in
      let '(hleft, s1) := TraverseAndExtract t h (pos * 2) s in
      if Z.of_nat (pos * 2 + 1) <? CalcTreeWidth (nTransactions t) h then
        (hleft ++ (TraverseAndExtract t h (pos * 2 + 1) s1).1) :: extract_inputs t h (pos * 2) s ++ extract_inputs t h (pos * 2 + 1) s1
      else (hleft ++ hleft) :: extract_inputs t h (pos * 2) s
  | _, _ => []
  end.

(** Those of [ExtractMatches]. *)
Definition extracted_inputs `{!Crypto} (t : CPartialMerkleTree) : list (list Z) :=
  extract_inputs t (Nat.log2_up (Z.to_nat (nTransactions t))) 0 (mkExtraction 0 0 [] [] (fBad t)).

Section Sound.
Context `{!Crypto} {HC : CryptoOk} (L : list uint256) (Hn : Z.of_nat (length L) <= 2 ^ 30) (HL : hashes L).
Context (t : CPartialMerkleTree) (Ht : nTransactions t = Z.of_nat (length L)) (HH : hashes (vHash t)).

Abbreviation n := (length L).
Abbreviation node := (Merkle.node L).

(** The matches of [s'] are those of [s] and entries of [L]. *)
Definition adds_entries (s s' : extraction) : Prop :=
  exists new, vMatched s' = vMatched s ++ map snd new /\ vnIndex s' = vnIndex s ++ map fst new /\
    Forall (fun p => L !! p.1 = Some p.2) new.

Lemma adds_entries_refl s s' : vMatched s' = vMatched s -> vnIndex s' = vnIndex s -> adds_entries s s'.
Proof. intros H1 H2. exists []. rewrite H1, H2. by rewrite !app_nil_r. Qed.

Lemma adds_entries_trans s1 s2 s3 : adds_entries s1 s2 -> adds_entries s2 s3 -> adds_entries s1 s3.
Proof.
  intros (a & Ha1 & Ha2 & Ha) (b & Hb1 & Hb2 & Hb). exists (a ++ b). rewrite Hb1, Hb2, Ha1, Ha2, !map_app, !app_assoc. split_and!; try done.
  by apply Forall_app.
Qed.

Lemma extract_length h : forall pos s, length (TraverseAndExtract t h pos s).1 = 32%nat.
Proof using HC HH.
  clear Ht. assert (Hstored : forall x k, vHash t !! k = Some x -> length x = 32%nat).
  { intros x k Hx. by apply (Forall_lookup_1 _ _ _ _ HH Hx). }
  induction h as [|h IH]; intros pos s; cbn [TraverseAndExtract]; repeat case_match; simplify_eq; cbn [fst];
    try done; try (by eapply Hstored); try apply Hash2_length.
Qed.

Lemma node_length h pos : (pos * 2 ^ h < n)%nat -> length (node h pos) = 32%nat.
Proof using HC HL.
  intros Hp. apply mroot_length; [|by apply Forall_take, Forall_drop]. rewrite length_take, length_drop. pose proof (pow2_pos h). lia.
Qed.

(** The string hashed for a node is among those of the tree. *)
Lemma node_input h pos : (S h <= Nat.log2_up n)%nat -> (pos * 2 ^ S h < n)%nat ->
  (if ((2 * pos + 1) * 2 ^ h <? n)%nat then node h (2 * pos) ++ node h (2 * pos + 1) else node h (2 * pos) ++ node h (2 * pos)) ∈ hashed_inputs L.
Proof using Type.
  clear Hn Ht HH t HL. intros Hh Hp. apply (block_inputs L (Nat.log2_up n - S h) (S h) pos ltac:(lia) Hp). pose proof (pow2_pos h).
  cbn [node_inputs]. rewrite block_left, block_right. set (B := take (2 ^ S h) _). unfold Merkle.node.
  assert (Hlen : length B = (2 ^ S h `min` (n - pos * 2 ^ S h))%nat) by (unfold B; by rewrite length_take, length_drop). rewrite Nat.pow_succ_r' in Hlen, Hp.
  destruct (Nat.ltb_spec ((2 * pos + 1) * 2 ^ h) n).
  - rewrite (proj2 (Nat.leb_gt _ _)) by nia. by left.
  - assert (HB : take (2 ^ h) (drop (2 * pos * 2 ^ h) L) = B) by (rewrite <- block_left; apply take_ge; fold B; nia).
    rewrite (proj2 (Nat.leb_le _ _)), HB by nia. by left.
Qed.

(** A traversal that returns a node of the tree only adds its leaves. *)
Lemma TraverseAndExtract_sound h : forall pos s, (h <= Nat.log2_up n <= 30)%nat -> (pos * 2 ^ h < n)%nat ->
  (TraverseAndExtract t h pos s).1 = node h pos ->
  adds_entries s (TraverseAndExtract t h pos s).2 \/ collision_among (extract_inputs t h pos s ++ hashed_inputs L).
Proof using HC HL Hn Ht HH.
  induction h as [|h IH]; intros pos s Hh Hp; cbn [TraverseAndExtract extract_inputs nBitsUsed nHashUsed vMatched vnIndex bad].
  - intros He. left. destruct (vBits t !! nBitsUsed s) as [m|]; [|by apply adds_entries_refl].
    destruct (vHash t !! nHashUsed s) as [x|]; [|by apply adds_entries_refl]. destruct m; [|by apply adds_entries_refl].
    cbn [fst] in He. rewrite node_leaf in He. rewrite Nat.pow_0_r in Hp. exists [(pos, x)]. split_and!; try done. constructor; [|done].
    cbn [fst snd]. subst x. destruct (nth_lookup_or_length L pos uint256_null); [done|lia].
  - destruct (vBits t !! nBitsUsed s) as [m|]; [|left; by apply adds_entries_refl].
    destruct m; [|destruct (vHash t !! nHashUsed s); left; by apply adds_entries_refl].
    pose proof (pow2_pos h). assert (Hp' := Hp). rewrite Nat.pow_succ_r' in Hp. rewrite Ht, width_spec by lia.
    set (s0 := mkExtraction _ _ _ _ _). pose proof (extract_length h (pos * 2) s0) as Hl1.
    pose proof (IH (pos * 2)%nat s0 ltac:(lia) ltac:(lia)) as IH1.
    assert (Hs0 : adds_entries s s0) by (by apply adds_entries_refl).
    destruct (TraverseAndExtract t h (pos * 2) s0) as [x s1]. cbn [fst snd] in Hl1, IH1.
    replace (pos * 2)%nat with (2 * pos)%nat in * by lia.
    destruct (Nat.ltb_spec ((2 * pos + 1) * 2 ^ h) n) as [Hb|Hb].
    + pose proof (extract_length h (2 * pos + 1) s1) as Hl2. pose proof (IH (2 * pos + 1)%nat s1 ltac:(lia) Hb) as IH2.
      destruct (TraverseAndExtract t h (2 * pos + 1) s1) as [y s2]. cbn [fst snd] in *. rewrite node_full by done. intros He.
      apply Hash2_inj in He as [[-> ->]|Hc]; [| |done|done|by apply node_length; lia..].
      2: { right. revert Hc. apply collision_mono. pose proof (node_input h pos ltac:(lia) Hp') as Hin.
           rewrite (proj2 (Nat.ltb_lt _ _)) in Hin by done. set_solver +Hin. }
      destruct (IH1 eq_refl) as [A1|Hc]; [|right; revert Hc; apply collision_mono; set_solver +].
      destruct (IH2 eq_refl) as [A2|Hc]; [|right; revert Hc; apply collision_mono; set_solver +]. left.
      apply (adds_entries_trans _ s0); [done|]. apply (adds_entries_trans _ s1); [done|].
      apply (adds_entries_trans _ s2); [done|]. by apply adds_entries_refl; case_bool_decide.
    + cbn [fst snd]. rewrite node_half by lia. intros He.
      apply Hash2_inj in He as [[-> _]|Hc]; [| |done|done|by apply node_length; lia..].
      2: { right. revert Hc. apply collision_mono. pose proof (node_input h pos ltac:(lia) Hp') as Hin.
           rewrite (proj2 (Nat.ltb_ge _ _)) in Hin by lia. set_solver +Hin. }
      destruct (IH1 eq_refl) as [A1|Hc]; [|right; revert Hc; apply collision_mono; set_solver +]. left. by apply (adds_entries_trans _ s0).
Qed.

End Sound.

(** ** The packed bits *)

Lemma b2z_shift b k i : 0 <= k -> 0 <= i -> Z.testbit (Z.shiftl (Z.b2z b) k) i = b && (i =? k).
Proof.
  intros Hk Hi. rewrite Z.shiftl_spec by done. destruct (Z.eqb_spec i k) as [->|Hne].
  - rewrite Z.sub_diag, Z.b2z_bit0. by rewrite andb_true_r.
  - rewrite andb_false_r. destruct (Z.lt_trichotomy (i - k) 0) as [|[|]]; [by apply Z.testbit_neg_r|lia|].
    apply (testbit_above _ 1); [destruct b; cbn; lia|lia].
Qed.

Lemma pack_bits_ok bits : length (pack_bits bits) = ((length bits + 7) / 8)%nat /\
  forall p, (p < (length bits + 7) / 8 * 8)%nat ->
    Z.testbit (nth (p / 8) (pack_bits bits) 0) (Z.of_nat (p mod 8)) = nth p bits false.
Proof.
  set (m := ((length bits + 7) / 8)%nat).
  assert (Hm : (length bits <= m * 8)%nat).
  { unfold m. pose proof (Nat.div_mod_eq (length bits + 7) 8). pose proof (Nat.mod_upper_bound (length bits + 7) 8 ltac:(lia)). lia. }
  pose (P := fun (j : nat) (v : list Z) => length v = m /\ forall p, (p < m * 8)%nat ->
    Z.testbit (nth (p / 8) v 0) (Z.of_nat (p mod 8)) = (p <? j)%nat && nth p bits false).
  assert (HP : P (0 + length bits)%nat (pack_bits bits)).
  { unfold pack_bits. apply (for_up_inv P).
    - split; [by rewrite repeat_length|]. intros p Hp. rewrite nth_repeat. by rewrite Z.bits_0.
    - intros j v Hj [Hl Hv]. split; [by rewrite length_insert|]. intros p Hp.
      assert (Hj8 : (j / 8 < length v)%nat) by (rewrite Hl; apply Nat.Div0.div_lt_upper_bound; lia).
      pose proof (Nat.div_mod_eq p 8). pose proof (Nat.div_mod_eq j 8).
      destruct (decide (j / 8 = p / 8)%nat) as [He|Hne].
      + rewrite (nth_lookup (<[_ := _]> _)), <- He, list_lookup_insert_eq by done. cbn [from_option id].
        rewrite Z.lor_spec, b2z_shift, He, Hv by lia.
        destruct (Z.eqb_spec (Z.of_nat (p mod 8)) (Z.of_nat (j mod 8))).
        * assert (p = j) as -> by lia. rewrite (proj2 (Nat.ltb_ge j j)), (proj2 (Nat.ltb_lt j (S j))) by lia. by rewrite andb_true_r.
        * rewrite andb_false_r, orb_false_r. f_equal. destruct (Nat.ltb_spec p j), (Nat.ltb_spec p (S j)); try done; lia.
      + rewrite nth_lookup, list_lookup_insert_ne, <- nth_lookup, Hv by done. f_equal.
        destruct (Nat.ltb_spec p j), (Nat.ltb_spec p (S j)); try done; try lia. assert (p = j) by lia. by subst. }
  destruct HP as [Hl Hv]. split; [done|]. intros p Hp. rewrite Hv by done. destruct (Nat.ltb_spec p (0 + length bits)) as [|Hge]; [done|].
  symmetry. by apply nth_overflow.
Qed.

(** Unpacking gives the bits back, with zeros up to a whole byte. *)
Lemma unpack_pack bits : unpack_bits (pack_bits bits) =
  bits ++ repeat false ((length bits + 7) / 8 * 8 - length bits).
Proof.
  destruct (pack_bits_ok bits) as [Hl Hv]. unfold unpack_bits. rewrite Hl. set (m := ((length bits + 7) / 8 * 8)%nat) in *.
  assert (Hm : (length bits <= m)%nat).
  { unfold m. pose proof (Nat.div_mod_eq (length bits + 7) 8). pose proof (Nat.mod_upper_bound (length bits + 7) 8 ltac:(lia)). lia. }
  apply (List.nth_ext _ _ false false).
  { rewrite length_map, length_seq, length_app, repeat_length. lia. }
  rewrite length_map, length_seq. intros p Hp.
  rewrite (List.nth_indep _ false (negb (Z.land (nth (0 / 8) (pack_bits bits) 0) (Z.shiftl 1 (Z.of_nat (0 mod 8))) =? 0)))
    by (rewrite length_map, length_seq; done).
  rewrite (List.map_nth (fun p => negb (Z.land (nth (p / 8) (pack_bits bits) 0) (Z.shiftl 1 (Z.of_nat (p mod 8))) =? 0)) (seq 0 m) 0%nat).
  rewrite seq_nth by done. cbn [Nat.add]. rewrite Z.shiftl_1_l, land_pow2_eqb, negb_involutive, Hv by (done || lia).
  destruct (Nat.lt_ge_cases p (length bits)).
  - by rewrite app_nth1.
  - rewrite app_nth2, nth_repeat, nth_overflow; done || lia.
Qed.

(** ** Properties *)

Section Properties.
Context `{!Crypto} {HC : CryptoOk}.

Lemma bits_of_length L mask h : forall pos, (length (bits_of L mask h pos) <= 2 * 2 ^ h - 1)%nat.
Proof.
  induction h as [|h IH]; intros pos; [done|]. rewrite Nat.pow_succ_r'. pose proof (pow2_pos h). cbn [bits_of length].
  destruct (pm L mask (S h) pos); [|cbn [length]; lia]. rewrite length_app. pose proof (IH (pos * 2)%nat).
  pose proof (IH (pos * 2 + 1)%nat). case_match; cbn [length]; lia.
Qed.

(** Neighbours of an unmutated tree are different, also when the right one is
    not full. *)
Lemma siblings_differ L : hashes L -> distinct_upto L (length L) ->
  forall k j, ((2 * j + 1) * 2 ^ k < length L)%nat -> node L k (2 * j) = node L k (2 * j + 1) -> collision_among (hashed_inputs L).
Proof using HC.
  intros HL Hd k j Hj He. pose proof (pow2_pos k) as Hp.
  destruct (mroot_inj k (take (2 ^ k) (drop (2 * j * 2 ^ k) L)) (take (2 ^ k) (drop ((2 * j + 1) * 2 ^ k) L))) as [Heq|Hc]; try done.
  1,2: rewrite length_take, length_drop; lia.
  1,2: by apply Forall_take, Forall_drop.
  1,2: by apply distinct_clean.
  { exfalso. apply (Hd k j); [|done]. apply (f_equal length) in Heq. rewrite !length_take, !length_drop in Heq. nia. }
  revert Hc. apply collision_mono. destruct (closing_log2 (length L) ltac:(lia)) as [Hup _].
  assert (Hk : (k <= Nat.log2_up (length L))%nat).
  { apply (Nat.pow_le_mono_r_iff 2); [lia|]. nia. }
  pose proof (block_inputs L (Nat.log2_up (length L) - k) k (2 * j) ltac:(lia) ltac:(lia)).
  pose proof (block_inputs L (Nat.log2_up (length L) - k) k (2 * j + 1) ltac:(lia) ltac:(lia)). set_solver.
Qed.

(** The traversal of what was built, at the root; [pad] is the padding of the
    serialized bits. *)
Lemma ExtractMatches_built L mask root pad :
  hashes L -> (0 < length L)%nat -> Z.of_nat (length L) <= MAX_BLOCK_SIZE / 60 -> length mask = length L ->
  ComputeMerkleRoot L = (root, false) ->
  let h := Nat.log2_up (length L) in
  let idx := filter (fun i => nth i mask false = true) (seq 0 (length L)) in
  ((length (bits_of L mask h 0 ++ pad) + 7) / 8 = (length (bits_of L mask h 0) + 7) / 8)%nat ->
  ExtractMatches (mkTree (Z.of_nat (length L)) (bits_of L mask h 0 ++ pad) (hashes_of L mask h 0) false) [] =
    (root, map (leaf L) idx, idx) \/ collision_among (hashed_inputs L).
Proof using HC.
  intros HL H0 Hmax Hlen Hroot h idx Hpad. assert (Hn : Z.of_nat (length L) <= 2 ^ 30) by (change (MAX_BLOCK_SIZE / 60) with 26214 in Hmax; lia).
  destruct (tree_height_spec (length L) Hn 32 0 ltac:(lia) ltac:(lia) H0) as [Hth Hh30]. fold h in Hth, Hh30.
  destruct (ComputeMerkleRoot_ok L ltac:(lia)) as [Hr Hd]. rewrite Hroot in Hr, Hd. cbn in Hr, Hd. specialize (Hd eq_refl).
  destruct (closing_log2 (length L) H0) as [Hup Hlow]. fold h in Hup, Hlow.
  assert (Hidx : matched L mask h 0 = idx).
  { unfold matched, idx. rewrite Nat.mul_0_l, Nat.sub_0_r. by replace (2 ^ h `min` length L)%nat with (length L) by lia. }
  destruct (hashes_of_length L mask h 0 ltac:(lia)) as [Hs1 Hs2].
  unfold ExtractMatches. cbn [nTransactions vHash vBits fBad].
  rewrite (proj2 (Z.eqb_neq _ 0)), !Z.gtb_ltb, !(proj2 (Z.ltb_ge _ _)) by lia.
  rewrite (proj2 (Nat.ltb_ge _ _)) by (rewrite length_app; lia). rewrite Hth.
  destruct (TraverseAndExtract_built L mask Hn (mkTree (Z.of_nat (length L)) (bits_of L mask h 0 ++ pad) (hashes_of L mask h 0) false)
    h eq_refl (siblings_differ L HL Hd) 0 [] pad [] [] [] [] false Hh30 ltac:(lia) eq_refl) as [He|]; [by rewrite app_nil_r| |by right].
  cbn [length] in He. rewrite He. cbn [bad nBitsUsed nHashUsed vMatched vnIndex app]. rewrite Hpad, !Nat.eqb_refl. cbn [negb]. left.
  rewrite Hidx, Hr. by rewrite (merkle_root_node L h) by lia.
Qed.

(** C30: a partial tree proves what it was built for.  For the identifiers of a
    block whose Merkle tree is not mutated and any mask, the constructed tree
    survives the wire, and both it and its received copy make
    [ExtractMatches] return the block's Merkle root with exactly the selected
    identifiers and their positions, in order; unless two different strings that
    are hashed for the nodes of this block's own tree have the same hash. *)
Theorem partial_tree_complete vTxid vMatch root
  (HL : hashes vTxid) (H0 : (0 < length vTxid)%nat) (Hmax : Z.of_nat (length vTxid) <= MAX_BLOCK_SIZE / 60)
  (Hlen : length vMatch = length vTxid) (Hroot : ComputeMerkleRoot vTxid = (root, false)) :
  let idx := filter (fun i => nth i vMatch false = true) (seq 0 (length vTxid)) in
  let result := (root, map (leaf vTxid) idx, idx) in
  exists t t', build_tree vTxid vMatch = Some t /\ Unser c_partial_tree (Ser c_partial_tree t) = Some (t', []) /\
    ((ExtractMatches t [] = result /\ ExtractMatches t' [] = result) \/ collision_among (hashed_inputs vTxid)).
Proof using HC.
  intros idx result. assert (Hn : Z.of_nat (length vTxid) <= 2 ^ 30) by (change (MAX_BLOCK_SIZE / 60) with 26214 in Hmax; lia).
  destruct (tree_height_spec (length vTxid) Hn 32 0 ltac:(lia) ltac:(lia) H0) as [Hth Hh30].
  set (h := Nat.log2_up (length vTxid)) in *. destruct (closing_log2 (length vTxid) H0) as [Hup Hlow]. fold h in Hup, Hlow.
  set (bits := bits_of vTxid vMatch h 0). set (hs := hashes_of vTxid vMatch h 0).
  set (pad := repeat false ((length bits + 7) / 8 * 8 - length bits)).
  exists (mkTree (Z.of_nat (length vTxid)) bits hs false), (mkTree (Z.of_nat (length vTxid)) (bits ++ pad) hs false). split_and!.
  - unfold build_tree. rewrite u32_small, Hth by lia. rewrite (TraverseAndBuild_ok vTxid vMatch Hn Hlen) by lia. done.
  - cbn [c_partial_tree Ser Unser nTransactions vHash vBits].
    destruct (hashes_of_length vTxid vMatch h 0 ltac:(lia)) as [Hs1 _]. fold hs in Hs1.
    pose proof (bits_of_length vTxid vMatch h 0) as Hb. fold bits in Hb. destruct (pack_bits_ok bits) as [Hpl _].
    assert (Hbl : ((length bits + 7) / 8 <= length bits + 7)%nat) by (apply Nat.Div0.div_le_upper_bound; lia).
    assert (Hbig : Z.of_nat (length vTxid) <= 26214) by exact Hmax.
    rewrite (roundtrip (c := c_uint32)) by lia. cbn [mbind option_bind].
    rewrite (roundtrip (c := c_vector (c_blob 32))); [cbn [mbind option_bind]|].
    + rewrite <- (app_nil_r (Ser c_bytes _)), (roundtrip (c := c_bytes)); [cbn [mbind option_bind]; by rewrite unpack_pack|].
      unfold size_ok. rewrite Hpl. unfold MAX_SIZE. lia.
    + split; [unfold size_ok, MAX_SIZE; lia|]. by apply hashes_of_hashes.
  - destruct (ExtractMatches_built vTxid vMatch root [] HL H0 Hmax Hlen Hroot) as [E1|]; [by rewrite app_nil_r| |by right].
    destruct (ExtractMatches_built vTxid vMatch root pad HL H0 Hmax Hlen Hroot) as [E2|]; [|left|by right].
    + fold h bits. unfold pad. rewrite length_app, repeat_length.
      pose proof (Nat.div_mod_eq (length bits + 7) 8). pose proof (Nat.mod_upper_bound (length bits + 7) 8 ltac:(lia)).
      replace (length bits + ((length bits + 7) / 8 * 8 - length bits) + 7)%nat with (7 + (length bits + 7) / 8 * 8)%nat by lia.
      rewrite Nat.div_add by lia. done.
    + split; [|done]. rewrite app_nil_r in E1. done.
Qed.

(** C29: a partial tree proves nothing else.  Whatever bits and hashes a peer
    sends, when [ExtractMatches] returns the Merkle root (not the null hash
    that reports a failure) of a block with that number of transactions, every
    identifier it extracts is the one at the reported position of the block;
    unless among the strings that were hashed in reading this tree and for the
    nodes of the block's tree there are two different ones with the same hash. *)
Theorem partial_tree_sound t L m idx
  (HL : hashes L) (H0 : (0 < length L)%nat) (Ht : nTransactions t = Z.of_nat (length L)) (HH : hashes (vHash t))
  (Hroot : (ComputeMerkleRoot L).1 <> uint256_null)
  (He : ExtractMatches t [] = ((ComputeMerkleRoot L).1, m, idx)) :
  (length m = length idx /\ forall k hash i, m !! k = Some hash -> idx !! k = Some i -> L !! i = Some hash) \/
  collision_among (extracted_inputs t ++ hashed_inputs L).
Proof using HC.
  unfold ExtractMatches in He. destruct (nTransactions t =? 0); [congruence|].
  destruct (Z.gtb_spec (nTransactions t) (MAX_BLOCK_SIZE / 60)) as [|Hmax]; [congruence|]. rewrite Ht in Hmax.
  assert (Hn : Z.of_nat (length L) <= 2 ^ 30) by (change (MAX_BLOCK_SIZE / 60) with 26214 in Hmax; lia).
  destruct (_ >? nTransactions t); [congruence|]. destruct (_ <? _)%nat; [congruence|].
  destruct (tree_height_spec (length L) Hn 32 0 ltac:(lia) ltac:(lia) H0) as [Hth Hh30].
  destruct (ComputeMerkleRoot_ok L ltac:(lia)) as [Hr _]. destruct (closing_log2 (length L) H0) as [Hup Hlow].
  rewrite Ht, Hth in He. set (s0 := mkExtraction 0 0 [] [] (fBad t)) in *.
  pose proof (TraverseAndExtract_sound L Hn HL t Ht HH (Nat.log2_up (length L)) 0 s0 ltac:(lia) ltac:(lia)) as Hs.
  destruct (TraverseAndExtract t (Nat.log2_up (length L)) 0 s0) as [root s]. cbn [fst snd] in Hs.
  destruct (bad s); [congruence|]. destruct (negb _); [congruence|]. destruct (negb _); [congruence|]. simplify_eq.
  rewrite Hr, (merkle_root_node L (Nat.log2_up (length L))) in Hs by lia.
  destruct (Hs eq_refl) as [(new & -> & -> & Hnew)|Hc]; [left|right; unfold extracted_inputs; by rewrite Ht, Nat2Z.id]. cbn [s0 vMatched vnIndex app]. rewrite !length_map. split; [done|].
  intros k hash i. rewrite !list_lookup_fmap_Some. intros ([i' x] & -> & Hk) ([i2 x2] & -> & Hk2). simplify_eq.
  by apply (Forall_lookup_1 _ _ _ _ Hnew Hk).
Qed.

End Properties.

(** ** Witnesses *)

Definition sample_mask : list bool := [false; true; false; false; true].

Lemma partial_tree_complete_witness :
  exists t t', @build_tree toy_crypto sample_leaves sample_mask = Some t /\ Unser c_partial_tree (Ser c_partial_tree t) = Some (t', []) /\
    (@ExtractMatches toy_crypto t' [] = ((@ComputeMerkleRoot toy_crypto sample_leaves).1, [repeat 2 32; repeat 5 32], [1; 4]%nat) \/
     @collision_among toy_crypto (@hashed_inputs toy_crypto sample_leaves)).
Proof.
  destruct (@partial_tree_complete toy_crypto toy_crypto_ok sample_leaves sample_mask (@ComputeMerkleRoot toy_crypto sample_leaves).1)
    as (t & t' & Hb & Hu & Hr).
  - repeat constructor.
  - cbn. lia.
  - vm_compute. discriminate.
  - reflexivity.
  - vm_compute. reflexivity.
  - exists t, t'. split; [exact Hb|]. split; [exact Hu|]. destruct Hr as [[_ Hr]|Hr]; [left; exact Hr|right; exact Hr].
Defined.

Lemma partial_tree_sound_witness :
  match @build_tree toy_crypto sample_leaves sample_mask with
  | Some t => sample_leaves !! 4%nat = Some (repeat 5 32) \/
      @collision_among toy_crypto (@extracted_inputs toy_crypto t ++ @hashed_inputs toy_crypto sample_leaves)
  | None => False
  end.
Proof.
  destruct (@build_tree toy_crypto sample_leaves sample_mask) as [t|] eqn:Hb; [|vm_compute in Hb; discriminate].
  destruct (@partial_tree_sound toy_crypto toy_crypto_ok t sample_leaves [repeat 2 32; repeat 5 32] [1; 4]%nat) as [[_ H]|H].
  - repeat constructor.
  - cbn. lia.
  - vm_compute in Hb. injection Hb as <-. reflexivity.
  - vm_compute in Hb. injection Hb as <-. repeat constructor.
  - vm_compute. discriminate.
  - vm_compute in Hb. injection Hb as <-. vm_compute. reflexivity.
  - left. exact (H 1%nat (repeat 5 32) 4%nat eq_refl eq_refl).
  - right. exact H.
Defined.

End MerkleBlock.
