(* ===== verification/Bloom.v ===== *)
(** * Bloom filters (bloom.h, bloom.cpp, hash.cpp)

    [CBloomFilter] is what a light client sends to a node, with the matching
    of transactions that updates it; [CRollingBloomFilter] remembers what was
    recently inserted, in generations.  The constructors choose sizes with
    floating-point logarithms and are left out: a filter is a record of any
    size.  [None] is undefined behaviour: [Hash] divides by the size of the
    data. *)

From stdpp Require Import base list list_numbers numbers option.
From Stdlib Require Import ZArith Lia.
From S2P Require Import Prelude ArithUint256 Serialize Script Transaction Interpreter InterpreterSafety Standard Compressor Coins Ledger.

Local Open Scope Z_scope.

Module Bloom.
Import Serialize Script Transaction Interpreter InterpreterSafety Standard Ledger.

(** ** MurmurHash3 (hash.cpp) *)

Definition ROTL32 (x r : Z) : Z := u32 (Z.lor (Z.shiftl x r) (Z.shiftr x (32 - r))).

Definition c1 : Z := 0xcc9e2d51.
Definition c2 : Z := 0x1b873593.

Definition murmur_mix (k1 : Z) : Z := u32 (ROTL32 (u32 (k1 * c1)) 15 * c2).

(** The loop over the blocks of four bytes. *)
Fixpoint murmur_body (nblocks : nat) (data : list Z) (h1 : Z) : Z :=
  match nblocks with
  | O => h1
  | S nblocks =>
      let h1 := Z.lxor h1 (murmur_mix (le_val (take 4 data))) in
      murmur_body nblocks (drop 4 data) (u32 (ROTL32 h1 13 * 5 + 0xe6546b64))
  end.

(** The [switch] on the one to three bytes left. *)
Definition murmur_tail (tail : list Z) (h1 : Z) : Z :=
  if (length tail =? 0)%nat then h1
  else
    let k1 := 0 in
    let k1 := if (3 <=? length tail)%nat then Z.lxor k1 (Z.shiftl (nth 2 tail 0) 16) else k1 in
    let k1 := if (2 <=? length tail)%nat then Z.lxor k1 (Z.shiftl (nth 1 tail 0) 8) else k1 in
    let k1 := Z.lxor k1 (nth 0 tail 0) in
    Z.lxor h1 (murmur_mix k1).

Definition murmur_final (h1 : Z) : Z :=
  let h1 := Z.lxor h1 (Z.shiftr h1 16) in
  let h1 := u32 (h1 * 0x85ebca6b) in
  let h1 := Z.lxor h1 (Z.shiftr h1 13) in
  let h1 := u32 (h1 * 0xc2b2ae35) in
  Z.lxor h1 (Z.shiftr h1 16).

Definition MurmurHash3 (nHashSeed : Z) (vDataToHash : list Z) : Z :=
  let nblocks := (length vDataToHash / 4)%nat in
  let h1 := murmur_body nblocks vDataToHash nHashSeed in
  let h1 := murmur_tail (drop (nblocks * 4) vDataToHash) h1 in
  murmur_final (Z.lxor h1 (u32 (Z.of_nat (length vDataToHash)))).

(** The vectors of the repository's hash tests. *)
Example murmur_vectors :
  (MurmurHash3 0 [], MurmurHash3 0xFBA4C795 [], MurmurHash3 0xffffffff [], MurmurHash3 0 [0], MurmurHash3 0xFBA4C795 [0]) =
    (0, 0x6a396f08, 0x81f16f39, 0x514e28b7, 0xea3f0b17) /\
  (MurmurHash3 0 [0x00; 0x11], MurmurHash3 0 [0x00; 0x11; 0x22], MurmurHash3 0 [0x00; 0x11; 0x22; 0x33],
   MurmurHash3 0 [0x00; 0x11; 0x22; 0x33; 0x44; 0x55; 0x66]) = (0x16c6b7ab, 0x8eb51c3d, 0xb4471bf8, 0xb074502c).
Proof. split; vm_compute; reflexivity. Qed.

(** ** [CBloomFilter] *)

Definition MAX_BLOOM_FILTER_SIZE : Z := 36000.
Definition MAX_HASH_FUNCS : Z := 50.

Definition BLOOM_UPDATE_NONE : Z := 0.
Definition BLOOM_UPDATE_ALL : Z := 1.
Definition BLOOM_UPDATE_P2PUBKEY_ONLY : Z := 2.
Definition BLOOM_UPDATE_MASK : Z := 3.

Record CBloomFilter : Type := mkFilter {
  vData : list Z;
  isFull : bool;
  isEmpty : bool;
  nHashFuncs : nat;
  nTweak : Z;
  nFlags : Z
}.

(** The default constructor. *)
Definition default_filter : CBloomFilter := mkFilter [] true false 0 0 0.

Definition with_data (f : CBloomFilter) (d : list Z) : CBloomFilter :=
  mkFilter d (isFull f) (isEmpty f) (nHashFuncs f) (nTweak f) (nFlags f).
Definition with_flags (f : CBloomFilter) (full empty : bool) : CBloomFilter :=
  mkFilter (vData f) full empty (nHashFuncs f) (nTweak f) (nFlags f).

Definition Hash (f : CBloomFilter) (nHashNum : Z) (key : list Z) : option Z :=
  if (length (vData f) =? 0)%nat then None
  else Some (MurmurHash3 (u32 (nHashNum * 0xFBA4C795 + nTweak f)) key mod (zlen (vData f) * 8)).

(** Bit [nIndex] of the data. *)
Definition test_bit (d : list Z) (nIndex : Z) : bool :=
  negb (Z.land (nth (Z.to_nat (Z.shiftr nIndex 3)) d 0) (Z.shiftl 1 (Z.land 7 nIndex)) =? 0).
Definition set_bit (d : list Z) (nIndex : Z) : list Z :=
  <[Z.to_nat (Z.shiftr nIndex 3) := Z.lor (nth (Z.to_nat (Z.shiftr nIndex 3)) d 0) (Z.shiftl 1 (Z.land 7 nIndex))]> d.

(** The loop of [insert]: the hash functions from number [i] on. *)
Fixpoint insert_loop (n : nat) (i : Z) (key : list Z) (f : CBloomFilter) : option CBloomFilter :=
  match n with
  | O => Some f
  | S n => nIndex ← Hash f i key; insert_loop n (i + 1) key (with_data f (set_bit (vData f) nIndex))
  end.

Definition insert (f : CBloomFilter) (vKey : list Z) : option CBloomFilter :=
  if isFull f then Some f
  else f ← insert_loop (nHashFuncs f) 0 vKey f; Some (with_flags f (isFull f) false).

Definition insert_outpoint (f : CBloomFilter) (o : COutPoint) : option CBloomFilter := insert f (Ser c_outpoint o).

Fixpoint contains_loop (n : nat) (i : Z) (key : list Z) (f : CBloomFilter) : option bool :=
  match n with
  | O => Some true
  | S n => nIndex ← Hash f i key; if test_bit (vData f) nIndex then contains_loop n (i + 1) key f else Some false
  end.

Definition contains (f : CBloomFilter) (vKey : list Z) : option bool :=
  if isFull f then Some true
  else if isEmpty f then Some false
  else contains_loop (nHashFuncs f) 0 vKey f.

Definition contains_outpoint (f : CBloomFilter) (o : COutPoint) : option bool := contains f (Ser c_outpoint o).

Definition clear (f : CBloomFilter) : CBloomFilter := with_flags (with_data f (repeat 0 (length (vData f)))) false true.

Definition reset (f : CBloomFilter) (nNewTweak : Z) : CBloomFilter :=
  let f := clear f in mkFilter (vData f) (isFull f) (isEmpty f) (nHashFuncs f) nNewTweak (nFlags f).

Definition IsWithinSizeConstraints (f : CBloomFilter) : bool :=
  (zlen (vData f) <=? MAX_BLOOM_FILTER_SIZE) && (Z.of_nat (nHashFuncs f) <=? MAX_HASH_FUNCS).

Definition UpdateEmptyFull (f : CBloomFilter) : CBloomFilter :=
  let full := foldl (fun full b => full && (b =? 0xff)) true (vData f) in
  let empty := foldl (fun empty b => empty && (b =? 0)) true (vData f) in
  with_flags f full empty.

(** *** [IsRelevantAndUpdate] *)

(** The loop over the instructions of a script: does one push data that the
    filter contains? *)
Fixpoint scan_script (fuel : nat) (f : CBloomFilter) (script : CScript) (pc : nat) : option bool :=
  match fuel with
  | O => Some false
  | S fuel =>
      if (pc <? length script)%nat then
        let r := GetOp2 script pc in
        if negb (op_ok r) then Some false
        else if (length (op_data r) =? 0)%nat then scan_script fuel f script (op_pc r)
        else
          found ← contains f (op_data r);
          if (found : bool) then Some true else scan_script fuel f script (op_pc r)
      else Some false
  end.

(** Whether the flags ask for the matched output to be added. *)
Definition update_output (f : CBloomFilter) (script : CScript) : bool :=
  if Z.land (nFlags f) BLOOM_UPDATE_MASK =? BLOOM_UPDATE_ALL then true
  else if Z.land (nFlags f) BLOOM_UPDATE_MASK =? BLOOM_UPDATE_P2PUBKEY_ONLY then
    let '(ok, type, _) := Solver script in
    ok && (bool_decide (type = TX_PUBKEY) || bool_decide (type = TX_MULTISIG))
  else false.

(** The loop over the outputs, from number [i] on. *)
Fixpoint match_outputs (f : CBloomFilter) (hash : uint256) (i : Z) (vout : list CTxOut) (fFound : bool)
  : option (bool * CBloomFilter) :=
  match vout with
  | [] => Some (fFound, f)
  | txout :: vout =>
      m ← scan_script (length (scriptPubKey txout)) f (scriptPubKey txout) 0;
      if (m : bool) then
        f ← (if update_output f (scriptPubKey txout) then insert_outpoint f (mkCOutPoint hash (u32 i)) else Some f);
        match_outputs f hash (i + 1) vout true
      else match_outputs f hash (i + 1) vout fFound
  end.

Fixpoint match_inputs (f : CBloomFilter) (vin : list CTxIn) : option bool :=
  match vin with
  | [] => Some false
  | txin :: vin =>
      m ← contains_outpoint f (prevout txin);
      if (m : bool) then Some true
      else
        m ← scan_script (length (scriptSig txin)) f (scriptSig txin) 0;
        if (m : bool) then Some true else match_inputs f vin
  end.

Definition IsRelevantAndUpdate `{!Crypto} (f : CBloomFilter) (tx : CTransaction) : option (bool * CBloomFilter) :=
  if isFull f then Some (true, f)
  else if isEmpty f then Some (false, f)
  else
    fFound ← contains f (GetHash tx);
    '(fFound, f) ← match_outputs f (GetHash tx) 0 (vout tx) fFound;
    if (fFound : bool) then Some (true, f)
    else r ← match_inputs f (vin tx); Some (r, f).

(** ** [CRollingBloomFilter] *)

Record CRollingBloomFilter : Type := mkRolling {
  nEntriesPerGeneration : Z;
  nEntriesThisGeneration : Z;
  nGeneration : Z;
  data : list Z;
  r_nTweak : Z;
  r_nHashFuncs : nat
}.

Definition RollingBloomHash (nHashNum nTweak : Z) (key : list Z) : Z :=
  MurmurHash3 (u32 (nHashNum * 0xFBA4C795 + nTweak)) key.

(** [pos & ~1] and [pos | 1] *)
Definition low_word (pos : Z) : nat := Z.to_nat (Z.land pos (Z.lnot 1)).
Definition high_word (pos : Z) : nat := Z.to_nat (Z.lor pos 1).

(** The wiping loop: the two words at [p], [p + 1], for all even [p]. *)
Fixpoint wipe (d : list Z) (nGenerationMask1 nGenerationMask2 : Z) : list Z :=
  match d with
  | p1 :: p2 :: d =>
      let mask := Z.lor (Z.lxor p1 nGenerationMask1) (Z.lxor p2 nGenerationMask2) in
      Z.land p1 mask :: Z.land p2 mask :: wipe d nGenerationMask1 nGenerationMask2
  | d => d
  end.

(** [data\[w\] = (data\[w\] & ~(1 << bit)) | (v << bit)] *)
Definition put_bit (d : list Z) (w : nat) (bit v : Z) : list Z :=
  <[w := Z.lor (Z.land (nth w d 0) (u64 (Z.lnot (Z.shiftl 1 bit)))) (Z.shiftl v bit)]> d.

Fixpoint rolling_insert_loop (k : nat) (n : Z) (g tweak : Z) (key : list Z) (d : list Z) : list Z :=
  match k with
  | O => d
  | S k =>
      let h := RollingBloomHash n tweak key in
      let bit := Z.land h 0x3F in
      let pos := Z.shiftr h 6 mod zlen d in
      let d := put_bit d (low_word pos) bit (Z.land g 1) in
      let d := put_bit d (high_word pos) bit (Z.shiftr g 1) in
      rolling_insert_loop k (n + 1) g tweak key d
  end.

(** The part of [insert] that starts a new generation. *)
Definition next_generation (f : CRollingBloomFilter) : CRollingBloomFilter :=
  if nEntriesThisGeneration f =? nEntriesPerGeneration f then
    let g := nGeneration f + 1 in
    let g := if g =? 4 then 1 else g in
    mkRolling (nEntriesPerGeneration f) 0 g
      (wipe (data f) (u64 (- Z.land g 1)) (u64 (- Z.shiftr g 1))) (r_nTweak f) (r_nHashFuncs f)
  else f.

Definition rolling_insert (f : CRollingBloomFilter) (vKey : list Z) : option CRollingBloomFilter :=
  let f := next_generation f in
  if (length (data f) =? 0)%nat && negb (r_nHashFuncs f =? 0)%nat then None
  else Some (mkRolling (nEntriesPerGeneration f) (nEntriesThisGeneration f + 1) (nGeneration f)
               (rolling_insert_loop (r_nHashFuncs f) 0 (nGeneration f) (r_nTweak f) vKey (data f))
               (r_nTweak f) (r_nHashFuncs f)).

Fixpoint rolling_contains_loop (k : nat) (n : Z) (tweak : Z) (key : list Z) (d : list Z) : bool :=
  match k with
  | O => true
  | S k =>
      let h := RollingBloomHash n tweak key in
      let bit := Z.land h 0x3F in
      let pos := Z.shiftr h 6 mod zlen d in
      if Z.land (Z.shiftr (Z.lor (nth (low_word pos) d 0) (nth (high_word pos) d 0)) bit) 1 =? 0 then false
      else rolling_contains_loop k (n + 1) tweak key d
  end.

Definition rolling_contains (f : CRollingBloomFilter) (vKey : list Z) : option bool :=
  if (length (data f) =? 0)%nat && negb (r_nHashFuncs f =? 0)%nat then None
  else Some (rolling_contains_loop (r_nHashFuncs f) 0 (r_nTweak f) vKey (data f)).

(** [reset]; the new tweak is drawn at random. *)
Definition rolling_reset (f : CRollingBloomFilter) (tweak : Z) : CRollingBloomFilter :=
  mkRolling (nEntriesPerGeneration f) 0 1 (repeat 0 (length (data f))) tweak (r_nHashFuncs f).

(** ** The bits of a filter *)

Lemma low_bits i : Z.land 7 i = i mod 8.
Proof. rewrite Z.land_comm. apply (land_ones_mod i 3). lia. Qed.

Lemma test_bit_spec d i : 0 <= i -> test_bit d i = Z.testbit (nth (Z.to_nat (i / 8)) d 0) (i mod 8).
Proof.
  intros Hi. unfold test_bit. rewrite Z.shiftr_div_pow2, low_bits, Z.shiftl_1_l by lia.
  change (2 ^ 3) with 8. rewrite land_pow2_eqb by (apply Z.mod_pos_bound; lia). apply negb_involutive.
Qed.

Lemma test_set_bit d i j : 0 <= i < zlen d * 8 -> 0 <= j -> test_bit (set_bit d i) j = (i =? j) || test_bit d j.
Proof.
  intros Hi Hj. rewrite !test_bit_spec by done. unfold set_bit. rewrite Z.shiftr_div_pow2 by lia. change (2 ^ 3) with 8.
  rewrite low_bits, Z.shiftl_1_l by lia.
  assert (Hlt : (Z.to_nat (i / 8) < length d)%nat).
  { unfold zlen in Hi. assert (i / 8 < Z.of_nat (length d)) by (apply Z.div_lt_upper_bound; lia). pose proof (Z.div_pos i 8). lia. }
  pose proof (Z.div_mod i 8 ltac:(lia)). pose proof (Z.div_mod j 8 ltac:(lia)).
  pose proof (Z.div_pos i 8 ltac:(lia) ltac:(lia)). pose proof (Z.div_pos j 8 ltac:(lia) ltac:(lia)).
  pose proof (Z.mod_pos_bound i 8 ltac:(lia)). pose proof (Z.mod_pos_bound j 8 ltac:(lia)).
  destruct (decide (i / 8 = j / 8)) as [He|Hne].
  - rewrite (nth_lookup (<[_ := _]> _)), <- He, list_lookup_insert_eq by done. cbn [from_option id].
    rewrite Z.lor_spec, Z.pow2_bits_eqb by lia. rewrite orb_comm. f_equal.
    destruct (Z.eqb_spec (i mod 8) (j mod 8)), (Z.eqb_spec i j); try done; lia.
  - rewrite (nth_lookup (<[_ := _]> _)), list_lookup_insert_ne, <- nth_lookup by lia. destruct (Z.eqb_spec i j); [congruence|done].
Qed.

Lemma length_set_bit d i : length (set_bit d i) = length d.
Proof. apply length_insert. Qed.

Definition usable (f : CBloomFilter) : Prop := vData f <> [].

(** [f'] has the parameters of [f] and all its bits. *)
Record grows (f f' : CBloomFilter) : Prop := {
  gr_funcs : nHashFuncs f' = nHashFuncs f;
  gr_tweak : nTweak f' = nTweak f;
  gr_flags : nFlags f' = nFlags f;
  gr_size : length (vData f') = length (vData f);
  gr_full : isFull f' = isFull f;
  gr_empty : isEmpty f' = true -> isEmpty f = true;
  gr_bits : forall i, 0 <= i -> test_bit (vData f) i = true -> test_bit (vData f') i = true
}.

#[export] Instance grows_preorder : PreOrder grows.
Proof.
  split; [intros f; by split|]. intros f g h [] []. split; try congruence; eauto.
Qed.

Lemma usable_grows f f' : usable f -> grows f f' -> usable f'.
Proof. unfold usable. intros Hu Hg He. apply Hu. apply length_zero_iff_nil. by rewrite <- (gr_size _ _ Hg), He. Qed.

Lemma Hash_total f i key : usable f -> exists idx, Hash f i key = Some idx /\ 0 <= idx < zlen (vData f) * 8.
Proof.
  intros Hu. unfold Hash, zlen. destruct (vData f) as [|x d] eqn:Hd; [by apply Hu in Hd|]. cbn [length Nat.eqb].
  eexists. split; [done|]. apply Z.mod_pos_bound. lia.
Qed.

Lemma Hash_grows f f' i key : grows f f' -> Hash f' i key = Hash f i key.
Proof. intros Hg. unfold Hash, zlen. by rewrite (gr_size _ _ Hg), (gr_tweak _ _ Hg). Qed.

(** All the bits of [key] under the hash functions from [i] on. *)
Definition has_bits (f : CBloomFilter) (n : nat) (i : Z) (key : list Z) : Prop :=
  forall j idx, (j < n)%nat -> Hash f (i + Z.of_nat j) key = Some idx -> test_bit (vData f) idx = true.

Lemma has_bits_grows f f' n i key : usable f -> grows f f' -> has_bits f n i key -> has_bits f' n i key.
Proof.
  intros Hu Hg Hb j idx Hj Hi. rewrite (Hash_grows f f') in Hi by done.
  destruct (Hash_total f (i + Z.of_nat j) key Hu) as (x & Hx & Hxb). rewrite Hi in Hx. simplify_eq.
  apply (gr_bits _ _ Hg); [lia|]. by apply (Hb j).
Qed.

Lemma has_bits_S f n i key : has_bits f (S n) i key <->
  (forall idx, Hash f i key = Some idx -> test_bit (vData f) idx = true) /\ has_bits f n (i + 1) key.
Proof.
  split.
  - intros Hb. split; [intros idx Hi; apply (Hb 0%nat); [lia|by rewrite Z.add_0_r]|].
    intros j idx Hj Hi. apply (Hb (S j)); [lia|]. by replace (i + Z.of_nat (S j)) with (i + 1 + Z.of_nat j) by lia.
  - intros [H0 Hb] [|j] idx Hj Hi; [apply H0; by rewrite Z.add_0_r in Hi|]. apply (Hb j); [lia|].
    by replace (i + 1 + Z.of_nat j) with (i + Z.of_nat (S j)) by lia.
Qed.

Lemma contains_loop_spec f key : usable f -> forall n i, exists b, contains_loop n i key f = Some b /\ (b = true <-> has_bits f n i key).
Proof.
  intros Hu n. induction n as [|n IH]; intros i; cbn [contains_loop].
  { exists true. split; [done|]. split; [|done]. intros _ j idx Hj. lia. }
  destruct (Hash_total f i key Hu) as (idx & Hi & _). rewrite Hi. cbn [mbind option_bind].
  destruct (test_bit (vData f) idx) eqn:Ht.
  - destruct (IH (i + 1)) as (b & Hb & Hiff). exists b. split; [done|]. rewrite Hiff, has_bits_S. split; [|by intros [_ ?]].
    intros Hh. split; [|done]. intros idx' Hi'. by simplify_eq.
  - exists false. split; [done|]. rewrite has_bits_S. split; [done|]. intros [H0 _]. specialize (H0 idx Hi). congruence.
Qed.

Lemma insert_loop_ok key n : forall i f, usable f ->
  exists f', insert_loop n i key f = Some f' /\ grows f f' /\ isEmpty f' = isEmpty f /\ has_bits f' n i key.
Proof.
  induction n as [|n IH]; intros i f Hu; cbn [insert_loop].
  { exists f. split_and!; try done. intros j idx Hj. lia. }
  destruct (Hash_total f i key Hu) as (idx & Hi & Hb). rewrite Hi. cbn [mbind option_bind].
  set (f1 := with_data f (set_bit (vData f) idx)).
  assert (Hg1 : grows f f1).
  { split; try done; cbn [vData f1 with_data]; [apply length_set_bit|]. intros j Hj Ht. rewrite test_set_bit by (unfold zlen in *; lia).
    rewrite Ht. apply orb_true_r. }
  destruct (IH (i + 1) f1 (usable_grows _ _ Hu Hg1)) as (f' & Hf' & Hg' & He' & Hb'). exists f'. split_and!; try done.
  - by transitivity f1.
  - apply has_bits_S. split; [|done]. intros idx' Hi'.
    rewrite (Hash_grows f f') in Hi' by (by transitivity f1). simplify_eq. apply (gr_bits _ _ Hg'); [lia|].
    cbn [vData f1 with_data]. rewrite test_set_bit by lia. by rewrite Z.eqb_refl.
Qed.

(** Whether the filter reports a key: full, or not empty with its bits set. *)
Definition reports (f : CBloomFilter) (key : list Z) : Prop :=
  isFull f = true \/ (isEmpty f = false /\ has_bits f (nHashFuncs f) 0 key).

Lemma contains_reports f key : usable f -> exists b, contains f key = Some b /\ (b = true <-> reports f key).
Proof.
  intros Hu. unfold contains, reports. destruct (isFull f); [exists true; split; [done|]; split; [by left|done]|].
  destruct (isEmpty f).
  - exists false. split; [done|]. split; [done|]. by intros [|[? _]].
  - destruct (contains_loop_spec f key Hu (nHashFuncs f) 0) as (b & Hb & Hiff). exists b. split; [done|]. rewrite Hiff.
    split; [by right|]. by intros [|[_ ?]].
Qed.

Lemma reports_grows f f' key : usable f -> grows f f' -> reports f key -> reports f' key.
Proof.
  intros Hu Hg [Hf|[He Hb]]; [left; by rewrite (gr_full _ _ Hg)|]. right. split.
  - destruct (isEmpty f') eqn:E; [|done]. apply (gr_empty _ _ Hg) in E. congruence.
  - rewrite (gr_funcs _ _ Hg). by apply (has_bits_grows f).
Qed.

Lemma insert_ok f key : usable f -> exists f', insert f key = Some f' /\ grows f f' /\ reports f' key.
Proof.
  intros Hu. unfold insert. destruct (isFull f) eqn:Hf; [exists f; split_and!; try done; by left|].
  destruct (insert_loop_ok key (nHashFuncs f) 0 f Hu) as (f' & Hf' & Hg & He & Hb). rewrite Hf'. cbn [mbind option_bind].
  eexists. split_and!; [done| |].
  - destruct Hg. split; try done; by cbn.
  - right. split; [done|]. cbn [nHashFuncs with_flags]. rewrite (gr_funcs _ _ Hg). exact Hb.
Qed.

(** ** Matching transactions *)

Lemma scan_script_total f script : usable f -> forall fuel pc, exists b, scan_script fuel f script pc = Some b.
Proof.
  intros Hu fuel. induction fuel as [|fuel IH]; intros pc; cbn [scan_script]; [by eexists|].
  repeat case_match; try (by eexists); try apply IH.
  destruct (contains_reports f (op_data (GetOp2 script pc)) Hu) as (b & Hb & _). rewrite Hb. cbn [mbind option_bind].
  destruct b; [by eexists|apply IH].
Qed.

Lemma scan_script_grows f f' script : usable f -> grows f f' -> forall fuel pc,
  scan_script fuel f script pc = Some true -> scan_script fuel f' script pc = Some true.
Proof.
  intros Hu Hg fuel. induction fuel as [|fuel IH]; intros pc; cbn [scan_script]; [done|].
  destruct (pc <? length script)%nat; [|done]. destruct (negb _); [done|]. destruct (_ =? 0)%nat; [apply IH|].
  set (key := op_data _). destruct (contains_reports f key Hu) as (b & Hb & Hiff).
  destruct (contains_reports f' key (usable_grows _ _ Hu Hg)) as (b' & Hb' & Hiff'). rewrite Hb, Hb'. cbn [mbind option_bind].
  destruct b'; [done|]. destruct b; [|apply IH]. intros _. exfalso.
  assert (false = true) by (apply Hiff', (reports_grows f); [done..|by apply Hiff]). done.
Qed.

Lemma update_output_grows f f' s : grows f f' -> update_output f' s = update_output f s.
Proof. intros Hg. unfold update_output. by rewrite (gr_flags _ _ Hg). Qed.

Definition out_matches (f : CBloomFilter) (o : CTxOut) : Prop :=
  scan_script (length (scriptPubKey o)) f (scriptPubKey o) 0 = Some true.

Lemma match_outputs_ok hash vout : forall f i fnd, usable f ->
  exists r f', match_outputs f hash i vout fnd = Some (r, f') /\ grows f f' /\ (fnd = true -> r = true) /\
    forall k o, vout !! k = Some o -> out_matches f o ->
      r = true /\ (update_output f (scriptPubKey o) = true -> reports f' (Ser c_outpoint (mkCOutPoint hash (u32 (i + Z.of_nat k))))).
Proof.
  induction vout as [|o vout IH]; intros f i fnd Hu; cbn [match_outputs].
  { exists fnd, f. split_and!; try done. }
  destruct (scan_script_total f (scriptPubKey o) Hu (length (scriptPubKey o)) 0) as [m Hm]. rewrite Hm. cbn [mbind option_bind].
  assert (Hstep : exists f1, (if m then if update_output f (scriptPubKey o) then insert_outpoint f (mkCOutPoint hash (u32 i)) else Some f else Some f) = Some f1 /\
    grows f f1 /\ (m = true -> update_output f (scriptPubKey o) = true -> reports f1 (Ser c_outpoint (mkCOutPoint hash (u32 i))))).
  { destruct m; [|by exists f]. destruct (update_output f (scriptPubKey o)); [|by exists f].
    destruct (insert_ok f (Ser c_outpoint (mkCOutPoint hash (u32 i))) Hu) as (f1 & H1 & H2 & H3). by exists f1. }
  destruct Hstep as (f1 & Hf1 & Hg1 & Hr1). pose proof (usable_grows _ _ Hu Hg1) as Hu1.
  assert (Hrest : exists fnd', (m = true -> fnd' = true) /\ (fnd = true -> fnd' = true) /\
    (if m then f ← (if update_output f (scriptPubKey o) then insert_outpoint f (mkCOutPoint hash (u32 i)) else Some f);
               match_outputs f hash (i + 1) vout true
     else match_outputs f hash (i + 1) vout fnd) = match_outputs f1 hash (i + 1) vout fnd').
  { destruct m; [exists true|exists fnd]; (split_and!; [done|done|]); [rewrite Hf1; done|by simplify_eq]. }
  destruct Hrest as (fnd' & Hm' & Hfnd & ->). destruct (IH f1 (i + 1) fnd' Hu1) as (r & f' & Hf' & Hg' & Hr & Hall).
  exists r, f'. split_and!; [done|by transitivity f1|by auto|]. intros [|k] o' Ho Hmt.
  - cbn in Ho. simplify_eq. unfold out_matches in Hmt. rewrite Hm in Hmt. simplify_eq. split; [by auto|]. intros Hup.
    rewrite Z.add_0_r. apply (reports_grows f1); [done..|by apply Hr1].
  - cbn in Ho. destruct (Hall k o' Ho) as [? Hrep].
    { unfold out_matches in *. by apply (scan_script_grows f). }
    split; [done|]. intros Hup. replace (i + Z.of_nat (S k)) with (i + 1 + Z.of_nat k) by lia. apply Hrep.
    by rewrite (update_output_grows f f1).
Qed.

Lemma match_inputs_outpoint f vin txin : usable f -> txin ∈ vin -> reports f (Ser c_outpoint (prevout txin)) ->
  match_inputs f vin = Some true.
Proof.
  intros Hu Hin Hr. induction vin as [|x vin IH]; [by apply not_elem_of_nil in Hin|]. cbn [match_inputs].
  destruct (contains_reports f (Ser c_outpoint (prevout x)) Hu) as (b & Hb & Hiff). unfold contains_outpoint. rewrite Hb. cbn [mbind option_bind].
  destruct b; [done|]. apply elem_of_cons in Hin as [->|Hin]; [by apply Hiff in Hr|].
  destruct (scan_script_total f (scriptSig x) Hu (length (scriptSig x)) 0) as [m Hm]. rewrite Hm. cbn [mbind option_bind].
  destruct m; [done|]. by apply IH.
Qed.

Lemma relevant_spend `{!Crypto} f tx txin : usable f -> txin ∈ vin tx -> reports f (Ser c_outpoint (prevout txin)) ->
  exists f', IsRelevantAndUpdate f tx = Some (true, f').
Proof.
  intros Hu Hin Hr. unfold IsRelevantAndUpdate. destruct (isFull f) eqn:Hf; [by eexists|].
  destruct Hr as [|[He Hb]]; [congruence|]. rewrite He. assert (Hr : reports f (Ser c_outpoint (prevout txin))) by (by right).
  destruct (contains_reports f (GetHash tx) Hu) as (b & Hc & _). rewrite Hc. cbn [mbind option_bind].
  destruct (match_outputs_ok (GetHash tx) (vout tx) f 0 b Hu) as (r & f' & Hm & Hg & _). rewrite Hm. cbn [mbind option_bind].
  destruct r; [by eexists|]. rewrite (match_inputs_outpoint f' _ txin); [by eexists|by apply (usable_grows f)|done|by apply (reports_grows f)].
Qed.

(** ** Properties of [CBloomFilter] *)

Fixpoint insert_all (keys : list (list Z)) (f : CBloomFilter) : option CBloomFilter :=
  match keys with [] => Some f | k :: keys => f ← insert f k; insert_all keys f end.

Lemma insert_all_ok keys : forall f, usable f ->
  exists f', insert_all keys f = Some f' /\ grows f f' /\ forall k, k ∈ keys -> reports f' k.
Proof.
  induction keys as [|k keys IH]; intros f Hu; cbn [insert_all].
  { exists f. split_and!; try done. intros k Hk. by apply not_elem_of_nil in Hk. }
  destruct (insert_ok f k Hu) as (f1 & H1 & Hg1 & Hr1). rewrite H1. cbn [mbind option_bind].
  destruct (IH f1 (usable_grows _ _ Hu Hg1)) as (f' & Hf' & Hg' & Hr'). exists f'. split_and!; [done|by transitivity f1|].
  intros k' [->|Hk]%elem_of_cons; [|by apply Hr']. apply (reports_grows f1); try done. by apply (usable_grows f).
Qed.

Lemma fold_all_equal x d : forall acc, foldl (fun a b => a && (b =? x)) acc d = true -> acc = true /\ Forall (fun b => b = x) d.
Proof.
  induction d as [|y d IH]; intros acc Hd; [done|]. cbn in Hd. apply IH in Hd as [[Ha Hy]%andb_true_iff Hd].
  split; [done|]. constructor; [by apply Z.eqb_eq|done].
Qed.

(** The byte that holds a bit of the filter. *)
Lemma index_byte f i key idx : usable f -> Hash f i key = Some idx -> exists x, vData f !! Z.to_nat (idx / 8) = Some x /\
  test_bit (vData f) idx = Z.testbit x (idx mod 8) /\ 0 <= idx mod 8 < 8.
Proof.
  intros Hu Hi. destruct (Hash_total f i key Hu) as (x & Hx & Hxb). rewrite Hi in Hx. simplify_eq.
  assert (x / 8 < zlen (vData f)) by (apply Z.div_lt_upper_bound; lia). unfold zlen in *. pose proof (Z.div_pos x 8 ltac:(lia) ltac:(lia)).
  destruct (nth_lookup_or_length (vData f) (Z.to_nat (x / 8)) 0) as [Hl|Hl]; [|lia].
  eexists. split_and!; [exact Hl|by apply test_bit_spec; lia|apply Z.mod_pos_bound; lia..].
Qed.

Lemma UpdateEmptyFull_contains f k : usable f -> (0 < nHashFuncs f)%nat ->
  contains (UpdateEmptyFull f) k = contains_loop (nHashFuncs f) 0 k f.
Proof.
  intros Hu Hn. unfold contains, UpdateEmptyFull, with_flags. cbn [isFull isEmpty nHashFuncs vData].
  destruct (foldl _ true (vData f)) eqn:Hfull; [|destruct (foldl (fun empty b => empty && (b =? 0)) _ _) eqn:Hempty].
  - apply fold_all_equal in Hfull as [_ Hfull]. destruct (contains_loop_spec f k Hu (nHashFuncs f) 0) as (b & Hb & Hiff). rewrite Hb. f_equal.
    symmetry. apply Hiff. intros j idx _ Hi. destruct (index_byte f _ k idx Hu Hi) as (x & Hx & -> & Hm).
    rewrite (Forall_lookup_1 _ _ _ _ Hfull Hx). change 255 with (Z.ones 8). by apply Z.ones_spec_low.
  - apply fold_all_equal in Hempty as [_ Hempty]. destruct (nHashFuncs f) as [|n]; [lia|]. cbn [contains_loop].
    destruct (Hash_total f 0 k Hu) as (idx & Hi & _). rewrite Hi. cbn [mbind option_bind].
    destruct (index_byte f _ k idx Hu Hi) as (x & Hx & -> & _). rewrite (Forall_lookup_1 _ _ _ _ Hempty Hx). by rewrite Z.bits_0.
  - assert (Hext : forall n i, contains_loop n i k (mkFilter (vData f) false false (nHashFuncs f) (nTweak f) (nFlags f)) = contains_loop n i k f); [|by rewrite Hext].
    intros n. induction n as [|n IH]; intros i; [done|]. cbn [contains_loop]. unfold Hash. cbn [vData nTweak]. destruct (_ =? 0)%nat; [done|].
    cbn [mbind option_bind]. by rewrite IH.
Qed.

(** No false negatives.  On a filter with data, [insert] never fails, and
    after any sequence of insertions [contains] reports every inserted key;
    the empty and full flags that [UpdateEmptyFull] computes never change the
    answer that testing the bits gives. *)
Theorem bloom_no_false_negative f keys (Hu : usable f) :
  (exists f', insert_all keys f = Some f' /\ forall k, k ∈ keys -> contains f' k = Some true) /\
  ((0 < nHashFuncs f)%nat -> forall k, contains (UpdateEmptyFull f) k = contains_loop (nHashFuncs f) 0 k f).
Proof.
  split; [|intros Hn k; by apply UpdateEmptyFull_contains]. destruct (insert_all_ok keys f Hu) as (f' & Hf' & Hg & Hr).
  exists f'. split; [done|]. intros k Hk. destruct (contains_reports f' k (usable_grows _ _ Hu Hg)) as (b & Hb & Hiff).
  rewrite Hb. f_equal. by apply Hiff, Hr.
Qed.

(** A filter follows the coins.  When an output of a transaction pushes
    data that the filter contains, the transaction is relevant, and when the
    flags ask for the output to be added (all outputs, or those that pay to a
    public key or a multisignature), every later transaction that spends it is
    relevant under the updated filter. *)
Theorem bloom_follows_spend `{!Crypto} f tx k out
  (Hu : usable f) (Ho : vout tx !! k = Some out) (Hm : out_matches f out) :
  exists f', IsRelevantAndUpdate f tx = Some (true, f') /\
    (isFull f = false -> update_output f (scriptPubKey out) = true -> forall tx2 txin, txin ∈ vin tx2 ->
       prevout txin = mkCOutPoint (GetHash tx) (u32 (Z.of_nat k)) ->
       exists f'', IsRelevantAndUpdate f' tx2 = Some (true, f'')).
Proof.
  destruct (isFull f) eqn:Hf; [exists f; unfold IsRelevantAndUpdate; by rewrite Hf|].
  assert (He : isEmpty f = false).
  { destruct (isEmpty f) eqn:He; [|done]. exfalso. clear Ho. unfold out_matches in Hm. revert Hm.
    generalize (length (scriptPubKey out)) 0%nat. intros fuel. induction fuel as [|fuel IH]; intros pc; cbn [scan_script]; [done|].
    repeat case_match; try done; try apply IH. unfold contains. rewrite Hf, He. cbn [mbind option_bind]. apply IH. }
  unfold IsRelevantAndUpdate at 1. rewrite Hf, He. destruct (contains_reports f (GetHash tx) Hu) as (b & Hc & _). rewrite Hc. cbn [mbind option_bind].
  destruct (match_outputs_ok (GetHash tx) (vout tx) f 0 b Hu) as (r & f' & Hmo & Hg & _ & Hall). rewrite Hmo. cbn [mbind option_bind].
  destruct (Hall k out Ho Hm) as [-> Hrep]. exists f'. split; [done|]. intros _ Hup tx2 txin Hin Hp.
  apply (relevant_spend f' tx2 txin); [by apply (usable_grows f)|done|]. rewrite Hp. by apply Hrep.
Qed.

(** ** The rolling filter: cells of two bits *)

Lemma low_high_word pos : 0 <= pos ->
  low_word pos = (2 * Z.to_nat (pos / 2))%nat /\ high_word pos = S (2 * Z.to_nat (pos / 2)).
Proof.
  intros Hp. unfold low_word, high_word. pose proof (Z.div_pos pos 2 Hp ltac:(lia)).
  assert (Hl : Z.land pos (Z.lnot 1) = 2 * (pos / 2)).
  { change (Z.lnot 1) with (Z.lnot (Z.ones 1)). rewrite <- Z.ldiff_land, Z.ldiff_ones_r, Z.shiftl_mul_pow2, Z.shiftr_div_pow2 by lia.
    change (2 ^ 1) with 2. lia. }
  assert (Hh : Z.lor pos 1 = 2 * (pos / 2) + 1).
  { apply Z.bits_inj'. intros i Hi. rewrite Z.lor_spec. destruct (decide (i = 0)) as [->|].
    - rewrite Z.testbit_odd_0. by rewrite orb_true_r.
    - rewrite (testbit_above 1 1 i), orb_false_r by lia. replace i with (Z.succ (i - 1)) at 2 by lia.
      rewrite Z.testbit_odd_succ by lia. change (pos / 2) with (pos / 2 ^ 1). rewrite Z.div_pow2_bits by lia. f_equal. lia. }
  rewrite Hl, Hh. split; lia.
Qed.

(** The generation stored at bit [b] of pair [p]; zero is unset. *)
Definition cell (d : list Z) (p : nat) (b : Z) : Z :=
  Z.b2z (Z.testbit (nth (2 * p) d 0) b) + 2 * Z.b2z (Z.testbit (nth (S (2 * p)) d 0) b).

Definition generation_ok (g : Z) : Prop := g = 1 \/ g = 2 \/ g = 3.

Lemma testbit_minus1 v b : 0 <= b < 64 -> v = 0 \/ v = 1 -> Z.testbit (u64 (- v)) b = (v =? 1).
Proof.
  intros Hb [->| ->]; [apply Z.bits_0|]. unfold u64. rewrite Z.mod_pow2_bits_low by lia. by apply Z.bits_m1; lia.
Qed.

Lemma wipe_cell m1 m2 p : forall d b, (S (2 * p) < length d)%nat ->
  cell (wipe d m1 m2) p b =
  if bool_decide (cell d p b = Z.b2z (Z.testbit m1 b) + 2 * Z.b2z (Z.testbit m2 b)) then 0 else cell d p b.
Proof.
  induction p as [|p IH]; intros d b Hp; destruct d as [|p1 [|p2 d]]; cbn [length] in Hp; try lia.
  - unfold cell. cbn [wipe nth Nat.mul Nat.add]. rewrite !Z.land_spec, Z.lor_spec, !Z.lxor_spec.
    destruct (Z.testbit p1 b), (Z.testbit p2 b), (Z.testbit m1 b), (Z.testbit m2 b); done.
  - specialize (IH d b ltac:(lia)). unfold cell in *. replace (2 * S p)%nat with (S (S (2 * p))) by lia. cbn [wipe nth]. exact IH.
Qed.

Lemma length_wipe m1 m2 : forall d, length (wipe d m1 m2) = length d.
Proof.
  assert (Hind : forall (n : nat) d, (length d <= n)%nat -> length (wipe d m1 m2) = length d); [|intros d; by apply (Hind (length d))].
  intros n. induction n as [|n IH]; intros [|p1 [|p2 d]] Hd; cbn [length] in Hd; try lia; try done. cbn [wipe length]. rewrite IH; lia.
Qed.

Lemma put_bit_spec d w b v w' b' : 0 <= b < 64 -> 0 <= b' < 64 -> v = 0 \/ v = 1 -> (w < length d)%nat ->
  Z.testbit (nth w' (put_bit d w b v) 0) b' =
  if bool_decide (w = w' /\ b = b') then (v =? 1) else Z.testbit (nth w' d 0) b'.
Proof.
  intros Hb Hb' Hv Hw. unfold put_bit. destruct (decide (w = w')) as [->|Hne].
  - rewrite nth_lookup, list_lookup_insert_eq by done. cbn [from_option id]. rewrite Z.lor_spec, Z.land_spec.
    unfold u64. rewrite Z.mod_pow2_bits_low, Z.lnot_spec, Z.shiftl_1_l, Z.pow2_bits_eqb by lia.
    assert (Hsh : Z.testbit (Z.shiftl v b) b' = (v =? 1) && (b =? b')).
    { rewrite Z.shiftl_spec by lia. destruct (Z.eqb_spec b b') as [->|Hbb].
      - rewrite Z.sub_diag. by destruct Hv as [->| ->].
      - rewrite andb_false_r. destruct (Z.lt_ge_cases (b' - b) 0); [by apply Z.testbit_neg_r|].
        apply (testbit_above _ 1); [destruct Hv as [->| ->]; cbn; lia|lia]. }
    rewrite Hsh. destruct (Z.eqb_spec b b') as [->|Hbb].
    + rewrite bool_decide_true by done. cbn. by rewrite andb_false_r, andb_true_r.
    + rewrite bool_decide_false by (intros [_ ?]; done). cbn. by rewrite andb_true_r, andb_false_r, orb_false_r.
  - rewrite (bool_decide_false (w = w' /\ b = b')) by (intros [? _]; done). rewrite nth_lookup, list_lookup_insert_ne, <- nth_lookup by done. done.
Qed.

#[local] Opaque RollingBloomHash.

(** The cell that hash function [n] gives to [key]. *)
Definition slot (len tweak : Z) (key : list Z) (n : Z) : nat * Z :=
  let h := RollingBloomHash n tweak key in (Z.to_nat (Z.shiftr h 6 mod len / 2), Z.land h 0x3F).

Definition put_generation (d : list Z) (tweak : Z) (key : list Z) (n g : Z) : list Z :=
  let h := RollingBloomHash n tweak key in
  let pos := Z.shiftr h 6 mod zlen d in
  put_bit (put_bit d (low_word pos) (Z.land h 0x3F) (Z.land g 1)) (high_word pos) (Z.land h 0x3F) (Z.shiftr g 1).

Definition even_size (d : list Z) : Prop := exists m, length d = (2 * S m)%nat.

Lemma slot_bounds d tweak key n : even_size d -> let s := slot (zlen d) tweak key n in (S (2 * s.1) < length d)%nat /\ 0 <= s.2 < 64.
Proof.
  intros [m Hm]. unfold slot, zlen. cbn [fst snd]. change 0x3F with (2 ^ 6 - 1). rewrite land_ones_mod by lia.
  split; [|apply Z.mod_pos_bound; lia]. set (x := Z.shiftr _ 6). pose proof (Z.mod_pos_bound x (Z.of_nat (length d)) ltac:(lia)).
  assert (x mod Z.of_nat (length d) / 2 < Z.of_nat (S m)) by (apply Z.div_lt_upper_bound; lia).
  pose proof (Z.div_pos (x mod Z.of_nat (length d)) 2). lia.
Qed.

(** Writing a generation: its cell, and no other. *)
Lemma put_generation_cell d tweak key n g p b : even_size d -> generation_ok g -> 0 <= b < 64 ->
  cell (put_generation d tweak key n g) p b = if bool_decide (slot (zlen d) tweak key n = (p, b)) then g else cell d p b.
Proof.
  intros Hs Hg Hb. destruct (slot_bounds d tweak key n Hs) as [Hp Hsb]. unfold slot in Hp, Hsb |- *. cbn [fst snd] in Hp, Hsb.
  unfold put_generation, cell. set (h := RollingBloomHash n tweak key) in *. set (pos := Z.shiftr h 6 mod zlen d) in *.
  assert (Hz : 0 < zlen d) by (destruct Hs as [m Hm]; unfold zlen; lia).
  assert (Hpos : 0 <= pos) by (by apply Z.mod_pos_bound).
  destruct (low_high_word pos Hpos) as [-> ->]. set (q := Z.to_nat (pos / 2)) in *.
  assert (H1 : Z.land g 1 = 0 \/ Z.land g 1 = 1) by (destruct Hg as [->|[->| ->]]; (by left) || (by right)).
  assert (H2 : Z.shiftr g 1 = 0 \/ Z.shiftr g 1 = 1) by (destruct Hg as [->|[->| ->]]; (by left) || (by right)).
  rewrite !put_bit_spec by (done || lia || (unfold put_bit; rewrite length_insert; lia)).
  destruct (decide (q = p)) as [->|Hq]; [destruct (decide (Z.land h 63 = b)) as [->|Hbb]|].
  - rewrite (bool_decide_true ((p, b) = (p, b))) by done.
    rewrite (bool_decide_false (S (2 * p) = 2 * p /\ b = b)%nat), (bool_decide_true (2 * p = 2 * p /\ b = b)%nat), (bool_decide_true (S (2 * p) = S (2 * p) /\ b = b)%nat) by lia.
    by destruct Hg as [->|[->| ->]].
  - rewrite !bool_decide_false; try done; intros Hx; [by simplify_eq|by destruct Hx..].
  - rewrite !bool_decide_false; try done; intros Hx; [by simplify_eq|by destruct Hx; lia..].
Qed.

Lemma put_generation_length d tweak key n g : length (put_generation d tweak key n g) = length d.
Proof. unfold put_generation, put_bit. by rewrite !length_insert. Qed.

Lemma rolling_insert_loop_S k n g tweak key d :
  rolling_insert_loop (S k) n g tweak key d = rolling_insert_loop k (n + 1) g tweak key (put_generation d tweak key n g).
Proof. done. Qed.

(** The insertion: the cells of the key get the generation, the others keep
    theirs or get it too. *)
Lemma rolling_insert_loop_ok g tweak key k : forall n d, even_size d -> generation_ok g ->
  let d' := rolling_insert_loop k n g tweak key d in
  length d' = length d /\
  (forall p b, 0 <= b < 64 -> cell d' p b = cell d p b \/ cell d' p b = g) /\
  (forall j, (j < k)%nat -> let s := slot (zlen d) tweak key (n + Z.of_nat j) in cell d' s.1 s.2 = g).
Proof.
  induction k as [|k IH]; intros n d Hs Hg d'; [split_and!; [done|by left|lia]|]. subst d'. rewrite rolling_insert_loop_S.
  set (d1 := put_generation d tweak key n g). assert (Hl1 : length d1 = length d) by apply put_generation_length.
  destruct (IH (n + 1) d1) as (Hl & Hkeep & Hkey); [destruct Hs as [m Hm]; exists m; lia|done|]. cbn zeta in Hkeep, Hkey. split_and!; [lia| |].
  - intros p b Hb. destruct (Hkeep p b Hb) as [-> | ->]; [|by right]. unfold d1. rewrite put_generation_cell by done.
    case_bool_decide; [by right|by left].
  - intros [|j] Hj s.
    + destruct (slot_bounds d tweak key n Hs) as [_ Hb]. unfold s. rewrite Z.add_0_r.
      destruct (Hkeep (slot (zlen d) tweak key n).1 (slot (zlen d) tweak key n).2 Hb) as [-> | ->]; [|done].
      unfold d1. rewrite put_generation_cell by done. rewrite bool_decide_true by (by destruct (slot _ _ _ _)). done.
    + specialize (Hkey j ltac:(lia)). unfold s, zlen in *. rewrite Hl1 in Hkey.
      by replace (n + Z.of_nat (S j)) with (n + 1 + Z.of_nat j) by lia.
Qed.

(** *** What is remembered *)

(** How many generations ago the [i]-th most recent key was inserted. *)
Definition key_age (f : CRollingBloomFilter) (i : nat) : Z :=
  if Z.of_nat i <? nEntriesThisGeneration f then 0
  else if Z.of_nat i <? nEntriesThisGeneration f + nEntriesPerGeneration f then 1 else 2.

(** A cell set at most [a] generations ago. *)
Definition cell_live (g a v : Z) : Prop := generation_ok v /\ (g - v) mod 3 <= a.

Record rolling_ok (f : CRollingBloomFilter) (hist : list (list Z)) : Prop := {
  ro_size : even_size (data f);
  ro_gen : generation_ok (nGeneration f);
  ro_pos : 0 < nEntriesPerGeneration f;
  ro_count : 0 <= nEntriesThisGeneration f <= nEntriesPerGeneration f;
  ro_live : forall i key, hist !! i = Some key -> Z.of_nat i < nEntriesThisGeneration f + 2 * nEntriesPerGeneration f ->
    forall j, (j < r_nHashFuncs f)%nat -> let s := slot (zlen (data f)) (r_nTweak f) key (Z.of_nat j) in
    cell_live (nGeneration f) (key_age f i) (cell (data f) s.1 s.2)
}.

(** Starting a generation wipes what is two generations old and ages the rest. *)
Lemma live_next g v : generation_ok g -> cell_live g 1 v ->
  let g' := if g + 1 =? 4 then 1 else g + 1 in
  generation_ok g' /\ v <> g' /\ (g' - v) mod 3 = (g - v) mod 3 + 1.
Proof.
  intros Hg [Hv Ha]. destruct Hg as [->|[->| ->]], Hv as [->|[->| ->]]; cbn in Ha |- *; try (exfalso; by apply Ha);
    (split_and!; [|done|done]); unfold generation_ok; auto.
Qed.

Lemma live_mono g a a' v : cell_live g a v -> a <= a' -> cell_live g a' v.
Proof. intros [Hv Ha] Hle. split; [done|lia]. Qed.

Lemma generation_bits g : generation_ok g ->
  (Z.land g 1 = 0 \/ Z.land g 1 = 1) /\ (Z.shiftr g 1 = 0 \/ Z.shiftr g 1 = 1) /\
  Z.b2z (Z.land g 1 =? 1) + 2 * Z.b2z (Z.shiftr g 1 =? 1) = g.
Proof. intros [->|[->| ->]]; split_and!; (done || (by left) || (by right)). Qed.

Lemma next_generation_ok f hist : rolling_ok f hist ->
  rolling_ok (next_generation f) hist /\ nEntriesThisGeneration (next_generation f) < nEntriesPerGeneration (next_generation f) /\
  nEntriesPerGeneration (next_generation f) = nEntriesPerGeneration f /\ r_nHashFuncs (next_generation f) = r_nHashFuncs f.
Proof.
  intros [Hs Hg Hp Hc Hl]. unfold next_generation. destruct (Z.eqb_spec (nEntriesThisGeneration f) (nEntriesPerGeneration f)) as [He|Hne].
  2: { split; [by split|]. split_and!; [lia|done|done]. }
  set (g' := if _ =? 4 then _ else _). split; [|cbn [nEntriesThisGeneration nEntriesPerGeneration r_nHashFuncs]; split_and!; (done || lia)].
  assert (Hg' : generation_ok g').
  { destruct (live_next (nGeneration f) (nGeneration f) Hg) as [? _]; [split; [done|]; by rewrite Z.sub_diag|done]. }
  destruct (generation_bits g' Hg') as (Hb1 & Hb2 & Hval).
  split; cbn [data nGeneration nEntriesPerGeneration nEntriesThisGeneration r_nHashFuncs r_nTweak]; try done; try lia.
  - destruct Hs as [m Hm]. exists m. by rewrite length_wipe.
  - intros i key Hi Hlt j Hj. unfold zlen. rewrite length_wipe. fold (zlen (data f)).
    destruct (slot_bounds (data f) (r_nTweak f) key (Z.of_nat j) Hs) as [Hsp Hsb].
    set (t := slot (zlen (data f)) (r_nTweak f) key (Z.of_nat j)) in *.
    rewrite wipe_cell, !testbit_minus1, Hval by done. specialize (Hl i key Hi ltac:(lia) j Hj). cbn zeta in Hl. fold t in Hl.
    assert (Hl1 : cell_live (nGeneration f) 1 (cell (data f) t.1 t.2)).
    { eapply live_mono; [exact Hl|]. unfold key_age. destruct (Z.ltb_spec (Z.of_nat i) (nEntriesThisGeneration f)); [lia|].
      destruct (Z.ltb_spec (Z.of_nat i) (nEntriesThisGeneration f + nEntriesPerGeneration f)); lia. }
    destruct (live_next _ _ Hg Hl1) as (_ & Hnv & Hage). rewrite bool_decide_false by exact Hnv. split; [apply Hl|].
    etransitivity; [apply Z.eq_le_incl, Hage|]. destruct Hl as [_ Hl]. unfold key_age in *. cbn [nEntriesThisGeneration nEntriesPerGeneration].
    rewrite (proj2 (Z.ltb_ge (Z.of_nat i) 0)) by lia. rewrite He in Hl.
    destruct (Z.ltb_spec (Z.of_nat i) (nEntriesPerGeneration f)), (Z.ltb_spec (Z.of_nat i) (0 + nEntriesPerGeneration f));
      destruct (Z.ltb_spec (Z.of_nat i) (nEntriesPerGeneration f + nEntriesPerGeneration f)); lia.
Qed.

Lemma rolling_insert_ok f hist key : rolling_ok f hist ->
  exists f', rolling_insert f key = Some f' /\ rolling_ok f' (key :: hist) /\ 0 < nEntriesThisGeneration f' /\
    nEntriesPerGeneration f' = nEntriesPerGeneration f /\ r_nHashFuncs f' = r_nHashFuncs f.
Proof.
  intros Hf. destruct (next_generation_ok f hist Hf) as (Hr & Hlt & Hper & Hfun). unfold rolling_insert.
  destruct (next_generation f) as [E cnt g d tw nf]. cbn [data nEntriesPerGeneration nEntriesThisGeneration nGeneration r_nTweak r_nHashFuncs] in *.
  destruct Hr as [Hs Hg Hp Hc Hl]. cbn [data nEntriesPerGeneration nEntriesThisGeneration nGeneration r_nTweak r_nHashFuncs] in *.
  assert (Hd0 : (length d =? 0)%nat = false) by (destruct Hs as [m Hm]; apply Nat.eqb_neq; lia). rewrite Hd0. cbn [andb].
  eexists. split; [done|]. cbn [data nEntriesPerGeneration nEntriesThisGeneration nGeneration r_nTweak r_nHashFuncs]. split_and!; [|lia|done|done].
  destruct (rolling_insert_loop_ok g tw key nf 0 d Hs Hg) as (Hlen & Hkeep & Hkey). cbn zeta in Hkeep, Hkey.
  set (d' := rolling_insert_loop nf 0 g tw key d) in *.
  split; cbn [data nEntriesPerGeneration nEntriesThisGeneration nGeneration r_nTweak r_nHashFuncs]; try done; try lia.
  - destruct Hs as [m Hm]. exists m. lia.
  - assert (Hlive0 : forall a, 0 <= a -> cell_live g a g). { intros a Ha. split; [done|]. by rewrite Z.sub_diag. }
    intros [|i] k Hk Hi j Hj; unfold zlen; rewrite Hlen; fold (zlen d).
    + cbn in Hk. simplify_eq. specialize (Hkey j Hj). rewrite Z.add_0_l in Hkey. rewrite Hkey. apply Hlive0.
      unfold key_age. repeat case_match; lia.
    + cbn in Hk. destruct (slot_bounds d tw k (Z.of_nat j) Hs) as [_ Hb].
      destruct (Hkeep (slot (zlen d) tw k (Z.of_nat j)).1 _ Hb) as [-> | ->]; [|apply Hlive0; unfold key_age; repeat case_match; lia].
      eapply live_mono; [apply (Hl i k Hk ltac:(lia) j Hj)|]. unfold key_age. cbn [nEntriesThisGeneration nEntriesPerGeneration].
      repeat match goal with |- context [?x <? ?y] => destruct (Z.ltb_spec x y) end; lia.
Qed.

Lemma rolling_contains_loop_ok tweak key d : even_size d -> forall k n,
  (forall j, (j < k)%nat -> let s := slot (zlen d) tweak key (n + Z.of_nat j) in cell d s.1 s.2 <> 0) ->
  rolling_contains_loop k n tweak key d = true.
Proof.
  intros Hs k. induction k as [|k IH]; intros n Hc; [done|]. cbn [rolling_contains_loop].
  pose proof (Hc 0%nat ltac:(lia)) as H0. cbn zeta in H0. rewrite Z.add_0_r in H0. unfold slot in H0. cbn [fst snd] in H0.
  destruct (slot_bounds d tweak key n Hs) as [_ Hb]. unfold slot in Hb. cbn [fst snd] in Hb.
  set (h := RollingBloomHash n tweak key) in *. set (pos := Z.shiftr h 6 mod zlen d) in *.
  assert (Hz : 0 < zlen d) by (destruct Hs as [m Hm]; unfold zlen; lia). assert (Hpos : 0 <= pos) by (by apply Z.mod_pos_bound).
  destruct (low_high_word pos Hpos) as [-> ->].
  replace (Z.land _ 1 =? 0) with false.
  - apply IH. intros j Hj. specialize (Hc (S j) ltac:(lia)). cbn zeta in Hc |- *.
    by replace (n + 1 + Z.of_nat j) with (n + Z.of_nat (S j)) by lia.
  - symmetry. change 1 with (2 ^ 0). rewrite land_pow2_eqb by lia. rewrite Z.shiftr_spec, Z.add_0_l, Z.lor_spec by lia.
    unfold cell in H0. destruct (Z.testbit _ _), (Z.testbit _ _) in H0 |- *; done.
Qed.

Fixpoint rolling_insert_all (keys : list (list Z)) (f : CRollingBloomFilter) : option CRollingBloomFilter :=
  match keys with [] => Some f | k :: keys => f ← rolling_insert f k; rolling_insert_all keys f end.

Lemma rolling_insert_all_ok keys : forall f hist, rolling_ok f hist ->
  exists f', rolling_insert_all keys f = Some f' /\ rolling_ok f' (rev keys ++ hist) /\
    nEntriesPerGeneration f' = nEntriesPerGeneration f /\ r_nHashFuncs f' = r_nHashFuncs f.
Proof.
  induction keys as [|k keys IH]; intros f hist Hf; cbn [rolling_insert_all]; [by exists f|].
  destruct (rolling_insert_ok f hist k Hf) as (f1 & H1 & Hr1 & _ & Hp1 & Hn1). rewrite H1. cbn [mbind option_bind].
  destruct (IH f1 (k :: hist) Hr1) as (f' & H2 & Hr2 & Hp2 & Hn2). exists f'. split; [done|]. cbn [rev]. rewrite <- app_assoc.
  split_and!; try done; congruence.
Qed.

(** C32: the rolling filter remembers.  After [reset], insertions never fail,
    and [contains] reports every key among the last two generations' worth of
    insertions (the last [2 * nEntriesPerGeneration] keys),
    although old generations are wiped and newer keys overwrite their cells. *)
Theorem rolling_remembers f tweak keys i key
  (Hs : even_size (data f)) (Hp : 0 < nEntriesPerGeneration f)
  (Hk : rev keys !! i = Some key) (Hi : Z.of_nat i < 2 * nEntriesPerGeneration f) :
  exists f', rolling_insert_all keys (rolling_reset f tweak) = Some f' /\ rolling_contains f' key = Some true.
Proof.
  assert (H0 : rolling_ok (rolling_reset f tweak) []).
  { split; cbn [data nEntriesPerGeneration nEntriesThisGeneration nGeneration rolling_reset]; try done; try lia.
    - destruct Hs as [m Hm]. exists m. by rewrite repeat_length.
    - by left. }
  destruct (rolling_insert_all_ok keys _ [] H0) as (f' & Hf' & Hr & Hper & Hn). exists f'. split; [done|]. rewrite app_nil_r in Hr.
  destruct Hr as [Hs' _ _ Hc' Hl']. unfold rolling_contains.
  assert (Hd0 : (length (data f') =? 0)%nat = false) by (destruct Hs' as [m Hm]; apply Nat.eqb_neq; lia). rewrite Hd0. cbn [andb]. f_equal.
  apply rolling_contains_loop_ok; [done|]. intros j Hj. rewrite Z.add_0_l. cbn zeta. cbn in Hper.
  destruct (Hl' i key Hk ltac:(lia) j Hj) as [[->|[->| ->]] _]; done.
Qed.

#[local] Transparent RollingBloomHash.

(** ** Witnesses *)

Definition sample_filter : CBloomFilter := mkFilter (repeat 0 8) false true 5 7 BLOOM_UPDATE_ALL.

Lemma bloom_no_false_negative_witness :
  exists f', insert_all [[1; 2; 3]; [4]] sample_filter = Some f' /\ contains f' [4] = Some true.
Proof.
  destruct (bloom_no_false_negative sample_filter [[1; 2; 3]; [4]]) as [(f' & Hf & Hc) _]; [done|].
  exists f'. split; [exact Hf|]. apply Hc. apply list_elem_of_further, list_elem_of_here.
Defined.

Definition paying_tx : CTransaction := mkCTransaction 1 [] [mkCTxOut 50 [3; 7; 8; 9] (-10)] 0.

Lemma bloom_follows_spend_witness :
  exists f f', insert sample_filter [7; 8; 9] = Some f /\ @IsRelevantAndUpdate toy_crypto f paying_tx = Some (true, f') /\
    exists f'', @IsRelevantAndUpdate toy_crypto f'
      (mkCTransaction 1 [mkCTxIn (mkCOutPoint (@GetHash toy_crypto paying_tx) 0) [] 0] [] 0) = Some (true, f'').
Proof.
  destruct (insert sample_filter [7; 8; 9]) as [f|] eqn:Hf; [|vm_compute in Hf; discriminate].
  vm_compute in Hf. injection Hf as Hf.
  destruct (@bloom_follows_spend toy_crypto f paying_tx 0 (mkCTxOut 50 [3; 7; 8; 9] (-10))) as (f' & Hr & Hspend).
  - subst f. discriminate.
  - reflexivity.
  - subst f. vm_compute. reflexivity.
  - exists f, f'. split; [reflexivity|]. split; [exact Hr|]. apply (Hspend ltac:(subst f; reflexivity) ltac:(subst f; reflexivity) _
      (mkCTxIn (mkCOutPoint (@GetHash toy_crypto paying_tx) 0) [] 0)).
    + apply list_elem_of_here.
    + reflexivity.
Defined.

Definition sample_rolling : CRollingBloomFilter := mkRolling 2 0 1 (repeat 0 4) 9 3.

Lemma rolling_remembers_witness :
  exists f', rolling_insert_all [[1]; [2]; [3]; [4]; [5]; [6]] (rolling_reset sample_rolling 11) = Some f' /\
    rolling_contains f' [3] = Some true.
Proof.
  apply (rolling_remembers sample_rolling 11 [[1]; [2]; [3]; [4]; [5]; [6]] 3 [3]).
  - exists 1%nat. reflexivity.
  - reflexivity.
  - reflexivity.
  - reflexivity.
Defined.

End Bloom.
