(* ===== verification/BlockTree.v ===== *)
(** * The block tree and the choice of the active chain (validation.cpp)

    The global state that [validation.cpp] keeps about blocks: the index
    entries, the candidates for the tip, the blocks whose parents are missing
    and the active chain.  A [CBlockIndex*] is the number of its entry in the
    store, and the order of the numbers is the order of the addresses that the
    comparator falls back to.  [setBlockIndexCandidates] is a finite set whose
    last element is its maximum under the comparator; [mapBlocksUnlinked] is a
    list of pairs in insertion order.  [None] is a failed assertion or a null
    dereference.

    Headers and blocks arrive here and candidates are chosen; [Activation]
    connects the chain that is chosen. *)

From Stdlib Require Import ZArith Lia.
From stdpp Require Import base list gmap numbers option.
From S2P Require Import Prelude ArithUint256 Chain.

Local Open Scope Z_scope.

Module BlockTree.
Import Arith256 Chain.

Abbreviation store := (gmap nat CBlockIndex).

(** The globals of [validation.cpp] that concern blocks. *)
Record chainstate : Type := mkState {
  index : store;
  mapBlockIndex : gmap (list Z) nat;
  chainActive : CChain;
  setBlockIndexCandidates : gset nat;
  mapBlocksUnlinked : list (nat * nat);
  pindexBestHeader : option nat;
  pindexBestInvalid : option nat;
  setDirtyBlockIndex : gset nat;
  nBlockSequenceId : Z;
  nBlockReverseSequenceId : Z;
  nLastPreciousChainwork : list Z
}.

(** Field updates. *)
Definition with_index (s : chainstate) (T : store) : chainstate :=
  mkState T (mapBlockIndex s) (chainActive s) (setBlockIndexCandidates s) (mapBlocksUnlinked s) (pindexBestHeader s)
    (pindexBestInvalid s) (setDirtyBlockIndex s) (nBlockSequenceId s) (nBlockReverseSequenceId s) (nLastPreciousChainwork s).
Definition with_chain (s : chainstate) (v : CChain) : chainstate :=
  mkState (index s) (mapBlockIndex s) v (setBlockIndexCandidates s) (mapBlocksUnlinked s) (pindexBestHeader s)
    (pindexBestInvalid s) (setDirtyBlockIndex s) (nBlockSequenceId s) (nBlockReverseSequenceId s) (nLastPreciousChainwork s).
Definition with_candidates (s : chainstate) (c : gset nat) : chainstate :=
  mkState (index s) (mapBlockIndex s) (chainActive s) c (mapBlocksUnlinked s) (pindexBestHeader s)
    (pindexBestInvalid s) (setDirtyBlockIndex s) (nBlockSequenceId s) (nBlockReverseSequenceId s) (nLastPreciousChainwork s).
Definition with_unlinked (s : chainstate) (u : list (nat * nat)) : chainstate :=
  mkState (index s) (mapBlockIndex s) (chainActive s) (setBlockIndexCandidates s) u (pindexBestHeader s)
    (pindexBestInvalid s) (setDirtyBlockIndex s) (nBlockSequenceId s) (nBlockReverseSequenceId s) (nLastPreciousChainwork s).
Definition with_best (s : chainstate) (header invalid : option nat) : chainstate :=
  mkState (index s) (mapBlockIndex s) (chainActive s) (setBlockIndexCandidates s) (mapBlocksUnlinked s) header
    invalid (setDirtyBlockIndex s) (nBlockSequenceId s) (nBlockReverseSequenceId s) (nLastPreciousChainwork s).
Definition mark_dirty (s : chainstate) (p : nat) : chainstate :=
  mkState (index s) (mapBlockIndex s) (chainActive s) (setBlockIndexCandidates s) (mapBlocksUnlinked s) (pindexBestHeader s)
    (pindexBestInvalid s) ({[p]} ∪ setDirtyBlockIndex s) (nBlockSequenceId s) (nBlockReverseSequenceId s) (nLastPreciousChainwork s).
Definition with_sequence (s : chainstate) (n : Z) : chainstate :=
  mkState (index s) (mapBlockIndex s) (chainActive s) (setBlockIndexCandidates s) (mapBlocksUnlinked s) (pindexBestHeader s)
    (pindexBestInvalid s) (setDirtyBlockIndex s) n (nBlockReverseSequenceId s) (nLastPreciousChainwork s).
Definition with_precious (s : chainstate) (r : Z) (w : list Z) : chainstate :=
  mkState (index s) (mapBlockIndex s) (chainActive s) (setBlockIndexCandidates s) (mapBlocksUnlinked s) (pindexBestHeader s)
    (pindexBestInvalid s) (setDirtyBlockIndex s) (nBlockSequenceId s) r w.

Definition set_sequence (b : CBlockIndex) (id : Z) : CBlockIndex :=
  {| hashBlock := hashBlock b; pprev := pprev b; pskip := pskip b; nHeight := nHeight b; nFile := nFile b;
     nDataPos := nDataPos b; nUndoPos := nUndoPos b; nChainWork := nChainWork b; nTx := nTx b;
     nChainTx := nChainTx b; nStatus := nStatus b; nVersion := nVersion b;
     hashMerkleRoot := hashMerkleRoot b; nTime := nTime b; nBits := nBits b; nNonce := nNonce b;
     nSequenceId := id; nTimeMax := nTimeMax b |}.
Definition set_chain_tx (b : CBlockIndex) (n : Z) : CBlockIndex :=
  {| hashBlock := hashBlock b; pprev := pprev b; pskip := pskip b; nHeight := nHeight b; nFile := nFile b;
     nDataPos := nDataPos b; nUndoPos := nUndoPos b; nChainWork := nChainWork b; nTx := nTx b;
     nChainTx := n; nStatus := nStatus b; nVersion := nVersion b;
     hashMerkleRoot := hashMerkleRoot b; nTime := nTime b; nBits := nBits b; nNonce := nNonce b;
     nSequenceId := nSequenceId b; nTimeMax := nTimeMax b |}.
Definition set_data (b : CBlockIndex) (tx file pos undo : Z) : CBlockIndex :=
  {| hashBlock := hashBlock b; pprev := pprev b; pskip := pskip b; nHeight := nHeight b; nFile := file;
     nDataPos := pos; nUndoPos := undo; nChainWork := nChainWork b; nTx := tx;
     nChainTx := nChainTx b; nStatus := nStatus b; nVersion := nVersion b;
     hashMerkleRoot := hashMerkleRoot b; nTime := nTime b; nBits := nBits b; nNonce := nNonce b;
     nSequenceId := nSequenceId b; nTimeMax := nTimeMax b |}.

(** ** [CBlockIndexWorkComparator] *)

Definition CBlockIndexWorkComparator (pa : nat) (a : CBlockIndex) (pb : nat) (b : CBlockIndex) : bool :=
  if gtb (nChainWork a) (nChainWork b) then false
  else if ltb (nChainWork a) (nChainWork b) then true
  else if nSequenceId a <? nSequenceId b then false
  else if nSequenceId a >? nSequenceId b then true
  else if (pa <? pb)%nat then false
  else if (pb <? pa)%nat then true
  else false.

(** [value_comp()(pa, pb)] on pointers to entries. *)
Definition worse (T : store) (pa pb : nat) : bool :=
  match T !! pa, T !! pb with
  | Some a, Some b => CBlockIndexWorkComparator pa a pb b
  | _, _ => false
  end.

(** [*setBlockIndexCandidates.rbegin()]: the maximum, if any. *)
Definition rbegin (T : store) (c : gset nat) : option nat :=
  foldr (fun p acc => match acc with Some q => if worse T q p then Some p else Some q | None => Some p end) None (elements c).

(** ** Adding headers and blocks *)

(** [AddToBlockIndex]; [hash] is the hash of the header and [p] the address of
    the allocated entry. *)
Definition AddToBlockIndex (s : chainstate) (block : CBlockHeader) (hash : list Z) (p : nat) : option (nat * chainstate) :=
  match mapBlockIndex s !! hash with
  | Some q => Some (q, s)
  | None =>
      let b := new_index hash block in
      let s := mkState (<[p := b]> (index s)) (<[hash := p]> (mapBlockIndex s)) (chainActive s) (setBlockIndexCandidates s)
                 (mapBlocksUnlinked s) (pindexBestHeader s) (pindexBestInvalid s) (setDirtyBlockIndex s) (nBlockSequenceId s)
                 (nBlockReverseSequenceId s) (nLastPreciousChainwork s) in
      '(b, tmax, work) ←
        match mapBlockIndex s !! hd_hashPrevBlock block with
        | Some q =>
            bq ← index s !! q;
            let b := set_links b (Some q) None (nHeight bq + 1) in
            skip ← BuildSkip (index s) b;
            Some (set_links b (Some q) skip (nHeight bq + 1), Z.max (nTimeMax bq) (nTime b), nChainWork bq)
        | None => Some (b, nTime b, of_u64 0)
        end;
      proof ← GetBlockProof (nBits b);
      '(b, _) ← RaiseValidity (set_work b tmax (add work proof)) BLOCK_VALID_TREE;
      let s := with_index s (<[p := b]> (index s)) in
      better ← (match pindexBestHeader s with
                | None => Some true
                | Some h => bh ← index s !! h; Some (ltb (nChainWork bh) (nChainWork b))
                end);
      let s := if (better : bool) then with_best s (Some p) (pindexBestInvalid s) else s in
      Some (p, mark_dirty s p)
  end.

(** The pairs of [mapBlocksUnlinked] under a key, and the others. *)
Definition equal_range (u : list (nat * nat)) (p : nat) : list nat := map snd (filter (fun x => x.1 = p) u).
Definition erase_range (u : list (nat * nat)) (p : nat) : list (nat * nat) := filter (fun x => x.1 <> p) u.

(** The queue of [ReceivedBlockTransactions]: every round links one block. *)
Fixpoint link_loop (fuel : nat) (s : chainstate) (queue : list nat) : option chainstate :=
  match queue with
  | [] => Some s
  | p :: queue =>
      match fuel with
      | O => None
      | S fuel =>
          b ← index s !! p;
          prevTx ← (match pprev b with Some q => bq ← index s !! q; Some (nChainTx bq) | None => Some 0 end);
          let b := set_sequence (set_chain_tx b (u32 (prevTx + nTx b))) (nBlockSequenceId s) in
          let s := with_sequence (with_index s (<[p := b]> (index s))) (i32 (nBlockSequenceId s + 1)) in
          let insert := match Tip (chainActive s) with None => true | Some t => negb (worse (index s) p t) end in
          let s := if insert then with_candidates s ({[p]} ∪ setBlockIndexCandidates s) else s in
          let children := equal_range (mapBlocksUnlinked s) p in
          link_loop fuel (with_unlinked s (erase_range (mapBlocksUnlinked s) p)) (queue ++ children)
      end
  end.

(** [ReceivedBlockTransactions]: [ntx] transactions stored at the given place. *)
Definition ReceivedBlockTransactions (s : chainstate) (p : nat) (ntx file pos : Z) : option chainstate :=
  b ← index s !! p;
  let b := set_chain_tx (set_data b (u32 ntx) file pos 0) 0 in
  '(b, _) ← RaiseValidity (set_status b (Z.lor (nStatus b) BLOCK_HAVE_DATA)) BLOCK_VALID_TRANSACTIONS;
  let s := mark_dirty (with_index s (<[p := b]> (index s))) p in
  match pprev b with
  | None => link_loop (S (length (mapBlocksUnlinked s))) s [p]
  | Some q =>
      bq ← index s !! q;
      if negb (nChainTx bq =? 0) then link_loop (S (length (mapBlocksUnlinked s))) s [p]
      else
        valid ← IsValid bq BLOCK_VALID_TREE;
        Some (if (valid : bool) then with_unlinked s (mapBlocksUnlinked s ++ [(q, p)]) else s)
  end.

(** ** Choosing the best chain *)

Definition InvalidChainFound (s : chainstate) (p : nat) : option chainstate :=
  b ← index s !! p;
  better ← (match pindexBestInvalid s with
            | None => Some true
            | Some i => bi ← index s !! i; Some (gtb (nChainWork b) (nChainWork bi))
            end);
  _ ← Tip (chainActive s);
  Some (if (better : bool) then with_best s (pindexBestHeader s) (Some p) else s).

(** [pindex->nStatus |= flag] *)
Definition raise_flag (s : chainstate) (p : nat) (flag : Z) : option chainstate :=
  b ← index s !! p; Some (with_index s (<[p := set_status b (Z.lor (nStatus b) flag)]> (index s))).

Definition InvalidBlockFound (s : chainstate) (p : nat) (corruptionPossible : bool) : option chainstate :=
  if corruptionPossible then Some s
  else
    s ← raise_flag s p BLOCK_FAILED_VALID;
    let s := mark_dirty s p in
    InvalidChainFound (with_candidates s (setBlockIndexCandidates s ∖ {[p]})) p.

(** The walk from a candidate to the active chain: the first block that failed
    or misses data, with the two flags. *)
Fixpoint scan_path (fuel : nat) (T : store) (v : CChain) (pindexTest : option nat) : option (option (nat * bool * bool)) :=
  match pindexTest with
  | None => Some None
  | Some p =>
      active ← Contains T v p;
      if (active : bool) then Some None
      else
        match fuel with
        | O => None
        | S fuel =>
            b ← T !! p;
            if (nChainTx b =? 0) && negb (nHeight b =? 0) then None
            else
              let fFailedChain := negb (Z.land (nStatus b) BLOCK_FAILED_MASK =? 0) in
              let fMissingData := Z.land (nStatus b) BLOCK_HAVE_DATA =? 0 in
              if fFailedChain || fMissingData then Some (Some (p, fFailedChain, fMissingData))
              else scan_path fuel T v (pprev b)
        end
  end.

(** Removing the chain from the candidate down to [pindexTest]. *)
Fixpoint remove_chain (fuel : nat) (s : chainstate) (pindexTest pindexFailed : nat) (fFailedChain fMissingData : bool) : option chainstate :=
  if bool_decide (pindexTest = pindexFailed) then Some s
  else
    match fuel with
    | O => None
    | S fuel =>
        b ← index s !! pindexFailed;
        s ← (if fFailedChain then raise_flag s pindexFailed BLOCK_FAILED_CHILD
             else if fMissingData then prev ← pprev b; Some (with_unlinked s (mapBlocksUnlinked s ++ [(prev, pindexFailed)]))
             else Some s);
        prev ← pprev b;
        remove_chain fuel (with_candidates s (setBlockIndexCandidates s ∖ {[pindexFailed]})) pindexTest prev fFailedChain fMissingData
    end.

Definition height_fuel (T : store) (p : nat) : nat := match T !! p with Some b => S (Z.to_nat (nHeight b)) | None => 1 end.

(** [FindMostWorkChain]; every round but the last removes a candidate. *)
Fixpoint find_loop (fuel : nat) (s : chainstate) : option (option nat * chainstate) :=
  match rbegin (index s) (setBlockIndexCandidates s) with
  | None => Some (None, s)
  | Some pindexNew =>
      match fuel with
      | O => None
      | S fuel =>
          r ← scan_path (height_fuel (index s) pindexNew) (index s) (chainActive s) (Some pindexNew);
          match r with
          | None => Some (Some pindexNew, s)
          | Some (pindexTest, fFailedChain, fMissingData) =>
              b ← index s !! pindexNew;
              worst ← (if negb fFailedChain then Some false
                       else match pindexBestInvalid s with
                            | None => Some true
                            | Some i => bi ← index s !! i; Some (gtb (nChainWork b) (nChainWork bi))
                            end);
              let s := if (worst : bool) then with_best s (pindexBestHeader s) (Some pindexNew) else s in
              s ← remove_chain (height_fuel (index s) pindexNew) s pindexTest pindexNew fFailedChain fMissingData;
              find_loop fuel (with_candidates s (setBlockIndexCandidates s ∖ {[pindexTest]}))
          end
      end
  end.
Definition FindMostWorkChain (s : chainstate) : option (option nat * chainstate) :=
  find_loop (size (setBlockIndexCandidates s)) s.

(** [PruneBlockIndexCandidates]: the elements before the tip go; the ones left
    must not be none. *)
Definition PruneBlockIndexCandidates (s : chainstate) : option chainstate :=
  t ← Tip (chainActive s);
  let left := filter (fun p => worse (index s) p t = false) (setBlockIndexCandidates s) in
  if bool_decide (left = ∅) then None else Some (with_candidates s left).

(** ** Adding headers *)

Lemma nth_parent_mono T T' n : forall p r, T ⊆ T' -> nth_parent T n p = Some r -> nth_parent T' n p = Some r.
Proof.
  induction n as [|n IH]; intros p r Hs; cbn [nth_parent]; [done|]. destruct (T !! p) as [b|] eqn:Hp; [|done].
  rewrite (lookup_weaken _ _ _ _ Hp Hs). cbn [mbind option_bind]. destruct (pprev b) as [q|]; [|done]. by apply IH.
Qed.

Lemma ancestor_mono T T' p h r : T ⊆ T' -> ancestor T p h = Some r -> ancestor T' p h = Some r.
Proof.
  intros Hs. unfold ancestor. destruct (T !! p) as [b|] eqn:Hp; [|done]. rewrite (lookup_weaken _ _ _ _ Hp Hs).
  cbn [mbind option_bind]. by apply nth_parent_mono.
Qed.

Lemma entry_ok_mono T T' b : T ⊆ T' -> entry_ok T b -> entry_ok T' b.
Proof.
  intros Hs. unfold entry_ok. destruct (pprev b) as [q|]; [|done]. intros (bq & Hq & Hh & Hsk). exists bq.
  split_and!; [by apply (lookup_weaken _ _ _ _ Hq)|done|]. intros x Hx. apply (ancestor_mono T); [done|by apply Hsk].
Qed.

Lemma tree_wf_insert T p b : T !! p = None -> tree_wf T -> 0 <= nHeight b -> entry_ok T b -> tree_wf (<[p := b]> T).
Proof.
  intros Hp Hwf Hh He. assert (Hs : T ⊆ <[p := b]> T) by (by apply insert_subseteq).
  intros p' b'. destruct (decide (p = p')) as [<-|Hne]; [rewrite lookup_insert_eq|rewrite lookup_insert_ne by done].
  - intros [= <-]. split; [done|]. by apply (entry_ok_mono T).
  - intros Hp'. destruct (Hwf p' b' Hp') as [? ?]. split; [done|]. by apply (entry_ok_mono T).
Qed.

(** The work that the header's target credits. *)
Definition block_work (bits : Z) : Z := match GetBlockProof bits with Some w => val w | None => 0 end.

(** Chain work accumulates along [pprev]. *)
Definition work_ok (T : store) : Prop :=
  forall p b, T !! p = Some b -> wf (nChainWork b) /\
    exists before, val (nChainWork b) = (before + block_work (nBits b)) mod 2 ^ 256 /\
      match pprev b with
      | None => before = 0
      | Some q => exists bq, T !! q = Some bq /\ before = val (nChainWork bq)
      end.

Definition map_ok (s : chainstate) : Prop :=
  (forall h p, mapBlockIndex s !! h = Some p -> exists b, index s !! p = Some b /\ hashBlock b = h) /\
  (forall p b, index s !! p = Some b -> mapBlockIndex s !! hashBlock b = Some p).

Definition index_ok (s : chainstate) : Prop := tree_wf (index s) /\ tmax_ok (index s) /\ work_ok (index s) /\ map_ok s.

Lemma work_ok_insert T p b before : T !! p = None -> work_ok T -> wf (nChainWork b) ->
  val (nChainWork b) = (before + block_work (nBits b)) mod 2 ^ 256 ->
  match pprev b with None => before = 0 | Some q => exists bq, T !! q = Some bq /\ before = val (nChainWork bq) end ->
  work_ok (<[p := b]> T).
Proof.
  intros Hp Hw Hb Hv Hpre p' b'.
  assert (Hup : forall q bq, T !! q = Some bq -> <[p := b]> T !! q = Some bq) by (intros q bq Hq; rewrite lookup_insert_ne; congruence).
  destruct (decide (p = p')) as [<-|Hne]; [rewrite lookup_insert_eq; intros [= <-]|rewrite lookup_insert_ne by done; intros Hp'].
  - split; [done|]. exists before. split; [done|]. destruct (pprev b); [|done]. destruct Hpre as (bq & ? & ?). exists bq. auto.
  - destruct (Hw p' b' Hp') as (Hwf & bf & Hv' & Hpre'). split; [done|]. exists bf. split; [done|].
    destruct (pprev b'); [|done]. destruct Hpre' as (bq & ? & ?). exists bq. auto.
Qed.

Lemma tmax_ok_insert T p b : T !! p = None -> tree_wf T -> tmax_ok T ->
  (forall q bq, pprev b = Some q -> T !! q = Some bq -> nTimeMax bq <= nTimeMax b) ->
  (forall q, pprev b = Some q -> q <> p) -> tmax_ok (<[p := b]> T).
Proof.
  intros Hp Hwf Ht Hb Hq p' b' q bq Hp' Hpq Hbq. destruct (decide (p = p')) as [<-|Hne].
  - rewrite lookup_insert_eq in Hp'. simplify_eq. rewrite lookup_insert_ne in Hbq by (intros <-; by apply (Hq p)). eauto.
  - rewrite lookup_insert_ne in Hp' by done. destruct (Hwf p' b' Hp') as [_ He]. unfold entry_ok in He. rewrite Hpq in He.
    destruct He as (x & Hx & _). rewrite lookup_insert_ne in Hbq by congruence. eauto.
Qed.

(** A fresh entry is raised to [BLOCK_VALID_TREE]. *)
Lemma RaiseValidity_fresh b : nStatus b = 0 -> RaiseValidity b BLOCK_VALID_TREE = Some (set_status b 2, true).
Proof. intros Hs. unfold RaiseValidity. rewrite Hs. done. Qed.

Definition best_header (s : chainstate) : Prop :=
  match pindexBestHeader s with
  | None => index s = ∅
  | Some h => exists bh, index s !! h = Some bh /\ forall p b, index s !! p = Some b -> val (nChainWork b) <= val (nChainWork bh)
  end.

(** The entry that [AddToBlockIndex] makes and the store it goes to. *)
Lemma new_entry s block hash p : index_ok s -> index s !! p = None -> mapBlockIndex s !! hash = None ->
  hd_hashPrevBlock block <> hash -> 0 <= hd_nBits block < 2 ^ 32 ->
  exists b, hashBlock b = hash /\ nBits b = hd_nBits block /\ nStatus b = BLOCK_VALID_TREE /\ nChainTx b = 0 /\ nTx b = 0 /\
    pprev b = mapBlockIndex s !! hd_hashPrevBlock block /\
    tree_wf (<[p := b]> (index s)) /\ tmax_ok (<[p := b]> (index s)) /\ work_ok (<[p := b]> (index s)) /\ wf (nChainWork b) /\
    AddToBlockIndex s block hash p =
      (let s1 := mkState (<[p := b]> (index s)) (<[hash := p]> (mapBlockIndex s)) (chainActive s) (setBlockIndexCandidates s)
                 (mapBlocksUnlinked s) (pindexBestHeader s) (pindexBestInvalid s) (setDirtyBlockIndex s) (nBlockSequenceId s)
                 (nBlockReverseSequenceId s) (nLastPreciousChainwork s) in
       better ← (match pindexBestHeader s with
                 | None => Some true
                 | Some h => bh ← <[p := b]> (index s) !! h; Some (ltb (nChainWork bh) (nChainWork b))
                 end);
       let s2 := if (better : bool) then with_best s1 (Some p) (pindexBestInvalid s1) else s1 in
       Some (p, mark_dirty s2 p)).
Proof.
  intros (Hwf & Htm & Hwk & Hm1 & Hm2) Hp Hhash Hprev Hbits. unfold AddToBlockIndex. rewrite Hhash. cbn [index mapBlockIndex].
  rewrite lookup_insert_ne by done. destruct (GetBlockProof_correct _ Hbits) as (? & ? & ? & w & _ & Hw & Hrep).
  assert (Hbw : block_work (hd_nBits block) = val w) by (unfold block_work; by rewrite Hw).
  destruct (mapBlockIndex s !! hd_hashPrevBlock block) as [q|] eqn:Hq.
  - destruct (Hm1 _ _ Hq) as (bq & Hbq & _). assert (Hqp : q <> p) by congruence.
    set (b0 := new_index hash block). set (T1 := <[p := b0]> (index s)).
    assert (HT1 : tree_wf T1) by (by apply tree_wf_insert). assert (Hsub : index s ⊆ T1) by (by apply insert_subseteq).
    assert (Hq1 : T1 !! q = Some bq) by (by apply (lookup_weaken _ _ _ _ Hbq)). destruct (Hwf q bq Hbq) as [Hh0 _].
    pose proof (GetSkipHeight_bound (nHeight bq + 1) ltac:(lia)) as Hsk.
    destruct (ancestor_some (index s) Hwf q bq (GetSkipHeight (nHeight bq + 1)) Hbq ltac:(lia)) as (r & br & Hr & _ & _).
    rewrite Hq1. cbn [mbind option_bind]. unfold BuildSkip at 1. cbn [pprev set_links nHeight].
    rewrite (GetAncestor_correct T1 HT1 q bq) by done. rewrite (proj2 (Z.leb_le 0 _)), (proj2 (Z.leb_le _ (nHeight bq))) by lia.
    cbn [andb mbind option_bind]. rewrite (ancestor_mono _ _ _ _ _ Hsub Hr). cbn [mbind option_bind nBits set_links b0 new_index].
    rewrite Hw. cbn [mbind option_bind]. rewrite RaiseValidity_fresh by done. cbn [mbind option_bind].
    unfold T1. rewrite insert_insert_eq. set (b := set_status _ 2). exists b.
    destruct (Hwk q bq Hbq) as (Hwfq & _). pose proof (repr_add _ _ _ _ (conj Hwfq eq_refl) Hrep) as [Hwb Hvb].
    split_and!; try done.
    + apply tree_wf_insert; [done|done|cbn; lia|]. unfold entry_ok. cbn. exists bq. split_and!; try done. by intros ? [= <-].
    + apply tmax_ok_insert; try done; cbn; [|by intros ? [= <-]]. intros ? ? [= <-] ?. simplify_eq. lia.
    + apply (work_ok_insert _ _ _ (val (nChainWork bq))); try done; cbn; [|by exists bq]. rewrite Hbw, (proj2 Hrep). exact Hvb.
  - cbn [mbind option_bind nBits new_index]. rewrite Hw. cbn [mbind option_bind]. rewrite RaiseValidity_fresh by done. cbn [mbind option_bind].
    rewrite insert_insert_eq. set (b := set_status _ 2). exists b.
    pose proof (repr_add _ _ _ _ (repr_of_u64 0 ltac:(lia)) Hrep) as [Hwb Hvb].
    split_and!; try done.
    + by apply tree_wf_insert.
    + by apply tmax_ok_insert.
    + apply (work_ok_insert _ _ _ 0); try done.
      change (nBits b) with (hd_nBits block). rewrite Hbw, (proj2 Hrep). exact Hvb.
Qed.

Lemma ltb_spec' a b : wf a -> wf b -> ltb a b = (val a <? val b).
Proof.
  intros Ha Hb. unfold ltb. rewrite CompareTo_spec by done. destruct (Z.compare_spec (val a) (val b)); symmetry.
  - apply Z.ltb_ge. lia.
  - by apply Z.ltb_lt.
  - apply Z.ltb_ge. lia.
Qed.

Lemma insert_all (T : store) p b (P : CBlockIndex -> Prop) : P b -> (forall q x, T !! q = Some x -> P x) ->
  forall q x, <[p := b]> T !! q = Some x -> P x.
Proof.
  intros Hb HT q x. destruct (decide (p = q)) as [<-|?]; [rewrite lookup_insert_eq|rewrite lookup_insert_ne by done]; [by intros [= <-]|apply HT].
Qed.

(** A header that is not in the index gets an entry; the invariants hold after
    it. *)
Lemma AddToBlockIndex_spec s block hash p : index_ok s -> best_header s -> index s !! p = None -> mapBlockIndex s !! hash = None ->
  hd_hashPrevBlock block <> hash -> 0 <= hd_nBits block < 2 ^ 32 ->
  exists s' b, AddToBlockIndex s block hash p = Some (p, s') /\ index_ok s' /\ best_header s' /\
    index s' = <[p := b]> (index s) /\ hashBlock b = hash /\ nBits b = hd_nBits block /\ nStatus b = BLOCK_VALID_TREE /\ nChainTx b = 0 /\
    pprev b = mapBlockIndex s !! hd_hashPrevBlock block /\ p ∈ setDirtyBlockIndex s' /\
    nTx b = 0 /\ mapBlocksUnlinked s' = mapBlocksUnlinked s /\ chainActive s' = chainActive s.
Proof.
  intros Hok Hbest Hp Hhash Hprev Hbits.
  destruct (new_entry s block hash p Hok Hp Hhash Hprev Hbits) as (b & Hbh & Hbb & Hst & Hct & Htx & Hpp & Hwf & Htm & Hwk & Hwb & ->).
  assert (Hmap : (forall h q, <[hash := p]> (mapBlockIndex s) !! h = Some q -> exists x, <[p := b]> (index s) !! q = Some x /\ hashBlock x = h) /\
    (forall q x, <[p := b]> (index s) !! q = Some x -> <[hash := p]> (mapBlockIndex s) !! hashBlock x = Some q)).
  { destruct Hok as (_ & _ & _ & Hm1 & Hm2). split.
    - intros h q. destruct (decide (hash = h)) as [<-|?].
      + rewrite lookup_insert_eq. intros [= <-]. exists b. by rewrite lookup_insert_eq.
      + rewrite lookup_insert_ne by done. intros Hq. destruct (Hm1 _ _ Hq) as (x & Hx & <-). exists x.
        rewrite lookup_insert_ne by congruence. done.
    - intros q x. destruct (decide (p = q)) as [<-|?].
      + rewrite lookup_insert_eq. intros [= <-]. rewrite Hbh. by rewrite lookup_insert_eq.
      + rewrite lookup_insert_ne by done. intros Hx. pose proof (Hm2 _ _ Hx). rewrite lookup_insert_ne by congruence. done. }
  destruct Hok as (_ & _ & Hwk0 & _), Hmap as [Hma Hmb]. cbn zeta. destruct (pindexBestHeader s) as [h|] eqn:Hh; cbn [mbind option_bind].
  - unfold best_header in Hbest. rewrite Hh in Hbest. destruct Hbest as (bh & Hbh' & Hmax). assert (p <> h) by congruence.
    rewrite lookup_insert_ne by done. rewrite Hbh'. cbn [mbind option_bind]. destruct (Hwk0 _ _ Hbh') as [Hwbh _].
    rewrite ltb_spec' by done. destruct (Z.ltb_spec (val (nChainWork bh)) (val (nChainWork b))) as [Hlt|Hge]; eexists _, b;
      (split; [reflexivity|]); unfold index_ok, map_ok, best_header; cbn; rewrite ?Hh; split_and!; try done; try (by apply elem_of_union_l, elem_of_singleton).
    + exists b. rewrite lookup_insert_eq. split; [done|]. apply insert_all; [lia|]. intros q x Hx. specialize (Hmax q x Hx). lia.
    + exists bh. rewrite lookup_insert_ne by done. split; [done|]. apply insert_all; [lia|done].
  - eexists _, b. split; [reflexivity|]. unfold best_header in Hbest. rewrite Hh in Hbest.
    unfold index_ok, map_ok, best_header; cbn. split_and!; try done; try (by apply elem_of_union_l, elem_of_singleton).
    exists b. rewrite lookup_insert_eq. split; [done|]. apply insert_all; [lia|]. rewrite Hbest. intros q x. by rewrite lookup_empty.
Qed.

Lemma gtb_spec' a b : wf a -> wf b -> gtb a b = (val b <? val a).
Proof.
  intros Ha Hb. unfold gtb. rewrite CompareTo_spec by done. destruct (Z.compare_spec (val a) (val b)); symmetry.
  - apply Z.ltb_ge. lia.
  - apply Z.ltb_ge. lia.
  - by apply Z.ltb_lt.
Qed.

(** ** Linking blocks to their ancestors *)

(** The block's parent, whether its transactions have arrived, and whether the
    transactions of all of its ancestors have been counted. *)
Definition parent (T : store) (p : nat) : option nat := T !! p ≫= pprev.
Definition received (T : store) (p : nat) : Prop := exists b, T !! p = Some b /\ nTx b <> 0.
Definition linked (T : store) (p : nat) : Prop := exists b, T !! p = Some b /\ nChainTx b <> 0.

(** The update of an entry that keeps the shape of the tree. *)
Definition same_place (b b' : CBlockIndex) : Prop :=
  pprev b' = pprev b /\ pskip b' = pskip b /\ nHeight b' = nHeight b /\ hashBlock b' = hashBlock b /\
  nChainWork b' = nChainWork b /\ nBits b' = nBits b /\ nTimeMax b' = nTimeMax b.

Lemma nth_parent_same T p b b' n x : T !! p = Some b -> pprev b' = pprev b -> nth_parent (<[p := b']> T) n x = nth_parent T n x.
Proof.
  intros Hp Hb. revert x. induction n as [|n IH]; intros x; cbn [nth_parent]; [done|].
  destruct (decide (p = x)) as [<-|?]; [rewrite lookup_insert_eq, Hp|rewrite lookup_insert_ne by done]; cbn [mbind option_bind].
  - rewrite Hb. destruct (pprev b); [apply IH|done].
  - destruct (T !! x) as [y|]; [|done]. cbn. destruct (pprev y); [apply IH|done].
Qed.

Lemma tree_wf_same T p b b' : T !! p = Some b -> same_place b b' -> tree_wf T -> tree_wf (<[p := b']> T).
Proof.
  intros Hp (Hpp & Hsk & Hh & _) Hwf. assert (Hanc : forall x h, ancestor (<[p := b']> T) x h = ancestor T x h).
  { intros x h. unfold ancestor. destruct (decide (p = x)) as [<-|?]; [rewrite lookup_insert_eq, Hp|rewrite lookup_insert_ne by done];
      cbn [mbind option_bind]; [rewrite Hh; by apply (nth_parent_same _ _ b)|]. destruct (T !! x); [|done]. by apply (nth_parent_same _ _ b). }
  assert (He : forall e, entry_ok T e -> entry_ok (<[p := b']> T) e).
  { intros e. unfold entry_ok. destruct (pprev e) as [q|]; [|done]. intros (bq & Hq & Heq & Hs). setoid_rewrite Hanc.
    destruct (decide (p = q)) as [<-|?]; [exists b'; rewrite lookup_insert_eq|exists bq; rewrite lookup_insert_ne by done]; [|done].
    split_and!; [done| |done]. rewrite Hh. by simplify_eq. }
  intros x y. destruct (decide (p = x)) as [<-|?]; [rewrite lookup_insert_eq|rewrite lookup_insert_ne by done]; intros Hx; simplify_eq.
  - destruct (Hwf p b Hp) as [H0 Hb]. split; [lia|]. apply He. unfold entry_ok in *. by rewrite Hpp, Hsk, Hh.
  - destruct (Hwf x y Hx) as [? ?]. split; [done|by apply He].
Qed.

Section Update.
Context (T : store) (p : nat) (b b' : CBlockIndex) (Hp : T !! p = Some b).

Lemma parent_same x : pprev b' = pprev b -> parent (<[p := b']> T) x = parent T x.
Proof using Hp.
  intros Hb. unfold parent. destruct (decide (p = x)) as [<-|?]; [|by rewrite lookup_insert_ne].
  rewrite lookup_insert_eq, Hp. done.
Qed.

Lemma received_same x : nTx b' = nTx b -> received (<[p := b']> T) x <-> received T x.
Proof using Hp.
  intros Hb. unfold received. destruct (decide (p = x)) as [<-|?]; [|by rewrite lookup_insert_ne].
  rewrite lookup_insert_eq, Hp. split; intros (y & [= <-] & Hy); eexists; (split; [done|congruence]).
Qed.

Lemma linked_insert x : nChainTx b' <> 0 -> linked (<[p := b']> T) x <-> x = p \/ linked T x.
Proof using Hp.
  intros Hb. unfold linked. destruct (decide (p = x)) as [<-|?]; [rewrite lookup_insert_eq|rewrite lookup_insert_ne by done].
  - split; [by left|]. intros _. by exists b'.
  - split; [by right|]. by intros [->|?].
Qed.
End Update.

(** The bookkeeping of received blocks, with a queue of blocks that wait to be
    linked (empty between calls): linked blocks have linked parents; a received
    block is linked or in the queue when its parent is linked, and is filed
    under its parent in [mapBlocksUnlinked] otherwise. *)
Record queue_ok (s : chainstate) (queue : list nat) : Prop := {
  q_received : forall p, linked (index s) p -> received (index s) p;
  q_closed : forall p q, linked (index s) p -> parent (index s) p = Some q -> linked (index s) q;
  q_ready : forall p, received (index s) p -> (forall q, parent (index s) p = Some q -> linked (index s) q) ->
    linked (index s) p \/ p ∈ queue;
  q_waiting : forall p q, received (index s) p -> parent (index s) p = Some q -> ~ linked (index s) q -> (q, p) ∈ mapBlocksUnlinked s;
  q_unlinked : forall p q, (q, p) ∈ mapBlocksUnlinked s -> received (index s) p /\ parent (index s) p = Some q /\ ~ linked (index s) p;
  q_queue : forall p, p ∈ queue -> received (index s) p /\ ~ linked (index s) p /\ forall q, parent (index s) p = Some q -> linked (index s) q;
  q_nodup : NoDup (queue ++ map snd (mapBlocksUnlinked s))
}.

(** The counts stay in their 32 bits: no block has more than [M] transactions
    and the chains are short enough. *)
Definition counts_ok (M : Z) (T : store) : Prop := forall p b, T !! p = Some b ->
  0 <= nTx b <= M /\ (nHeight b + 1) * M < 2 ^ 32 /\ 0 <= nChainTx b <= (nHeight b + 1) * M.

Lemma range_split u p : map snd u ≡ₚ equal_range u p ++ map snd (erase_range u p).
Proof.
  unfold equal_range, erase_range. rewrite <-map_app. apply fmap_Permutation.
  induction u as [|x u IH]; [done|]. rewrite !filter_cons. destruct (decide (x.1 = p)) as [He|He].
  - rewrite (decide_False (P := x.1 <> p)) by tauto. cbn. by rewrite <-IH.
  - rewrite (decide_True (P := x.1 <> p)) by done. rewrite <-Permutation_middle. by rewrite <-IH.
Qed.

Lemma elem_of_range u p x : x ∈ equal_range u p <-> (p, x) ∈ u.
Proof.
  unfold equal_range. rewrite list_elem_of_fmap. split.
  - intros ([a b] & -> & Hf). apply list_elem_of_filter in Hf as [Ha Hb]. cbn in *. by subst.
  - intros Hx. exists (p, x). split; [done|]. by apply list_elem_of_filter.
Qed.

Lemma elem_of_erase u p q x : (q, x) ∈ erase_range u p <-> q <> p /\ (q, x) ∈ u.
Proof. unfold erase_range. by rewrite list_elem_of_filter. Qed.

(** One round: the block at the front is linked, its waiting children join the
    queue. *)
Lemma queue_step s s' p queue : queue_ok s (p :: queue) ->
  (forall x, linked (index s') x <-> x = p \/ linked (index s) x) ->
  (forall x, received (index s') x <-> received (index s) x) ->
  (forall x, parent (index s') x = parent (index s) x) ->
  mapBlocksUnlinked s' = erase_range (mapBlocksUnlinked s) p ->
  queue_ok s' (queue ++ equal_range (mapBlocksUnlinked s) p).
Proof.
  intros [Hlr Hcl Hrd Hwt Hun Hqu Hnd] Hl Hr Hpar Hu. destruct (Hqu p ltac:(left)) as (Hrp & Hnp & Hpp).
  assert (Hnin : forall x, x ∈ queue \/ x ∈ map snd (mapBlocksUnlinked s) -> x <> p).
  { intros x Hx ->. apply list.NoDup_cons in Hnd as [Hn _]. apply Hn. rewrite elem_of_app. done. }
  assert (Hsnd : forall q x, (q, x) ∈ mapBlocksUnlinked s -> x <> p).
  { intros q x Hx. apply Hnin. right. apply list_elem_of_fmap. by exists (q, x). }
  split.
  - intros x. rewrite Hl, Hr. intros [->|Hx]; auto.
  - intros x q. rewrite !Hl, Hpar. intros [->|Hx] Hq; right; eauto.
  - intros x. rewrite Hr, Hl. setoid_rewrite Hpar. setoid_rewrite Hl. intros Hx Hq. rewrite elem_of_app, elem_of_range.
    destruct (parent (index s) x) as [q|] eqn:Hpx.
    + destruct (Hq q eq_refl) as [->|Hlq]; [right; right; by apply Hwt|].
      destruct (Hrd x Hx) as [?|Hin]; [intros ? ?; by simplify_eq|tauto|]. apply elem_of_cons in Hin as [->|?]; tauto.
    + destruct (Hrd x Hx) as [?|Hin]; [congruence|tauto|]. apply elem_of_cons in Hin as [->|?]; tauto.
  - intros x q. rewrite Hr, Hpar, Hl, Hu, elem_of_erase. intros Hx Hq Hn. split; [tauto|]. apply Hwt; tauto.
  - intros x q. rewrite Hr, Hpar, Hl, Hu, elem_of_erase. intros [Hq Hin]. destruct (Hun _ _ Hin) as (? & ? & ?).
    pose proof (Hsnd _ _ Hin). tauto.
  - intros x. rewrite elem_of_app, elem_of_range, Hr, Hl. setoid_rewrite Hpar. setoid_rewrite Hl. intros [Hin|Hin].
    + destruct (Hqu x ltac:(by right)) as (? & ? & ?). pose proof (Hnin x ltac:(by left)). split_and!; [done|tauto|]. auto.
    + destruct (Hun _ _ Hin) as (? & He & ?). pose proof (Hsnd _ _ Hin). split_and!; [done|tauto|].
      intros q Hq. left. congruence.
  - rewrite Hu. apply list.NoDup_cons in Hnd as [_ Hnd]. by rewrite <-app_assoc, <-range_split.
Qed.

(** What linking does to the rest of the state: the entries of linked blocks
    stay, and a block that gets linked becomes a candidate unless the tip is
    better. *)
Record progress (s s' : chainstate) : Prop := {
  g_chain : chainActive s' = chainActive s;
  g_header : pindexBestHeader s' = pindexBestHeader s;
  g_received : forall x, received (index s') x <-> received (index s) x;
  g_parent : forall x, parent (index s') x = parent (index s) x;
  g_linked : forall x b, index s !! x = Some b -> nChainTx b <> 0 -> index s' !! x = Some b;
  g_candidates : setBlockIndexCandidates s ⊆ setBlockIndexCandidates s';
  g_new : forall x, linked (index s') x -> ~ linked (index s) x ->
    (forall t, Tip (chainActive s) = Some t -> worse (index s') x t = false) -> x ∈ setBlockIndexCandidates s'
}.
Definition tip_linked (s : chainstate) : Prop := forall t, Tip (chainActive s) = Some t -> linked (index s) t.

Lemma progress_linked s s' x : progress s s' -> linked (index s) x -> linked (index s') x.
Proof. intros Hg (b & Hb & Hn). exists b. split; [by apply (g_linked _ _ Hg)|done]. Qed.

#[global] Instance linked_dec T p : Decision (linked T p).
Proof.
  destruct (T !! p) as [b|] eqn:E; [destruct (decide (nChainTx b = 0))|]; [right|left|right];
    unfold linked; rewrite E; [intros (? & ? & ?); congruence|by exists b|intros (? & ? & ?); congruence].
Defined.

Lemma worse_stable s s' x t : progress s s' -> linked (index s) x -> linked (index s) t -> worse (index s') x t = worse (index s) x t.
Proof.
  intros Hg (b & Hb & Hn) (bt & Hbt & Hnt). unfold worse. by rewrite Hb, Hbt, (g_linked _ _ Hg x b Hb Hn), (g_linked _ _ Hg t bt Hbt Hnt).
Qed.

Lemma progress_trans s1 s2 s3 : tip_linked s1 -> progress s1 s2 -> progress s2 s3 -> progress s1 s3.
Proof.
  intros Ht H1 H2. split.
  - by rewrite (g_chain _ _ H2), (g_chain _ _ H1).
  - by rewrite (g_header _ _ H2), (g_header _ _ H1).
  - intros x. by rewrite (g_received _ _ H2), (g_received _ _ H1).
  - intros x. by rewrite (g_parent _ _ H2), (g_parent _ _ H1).
  - intros x b Hb Hn. apply (g_linked _ _ H2); [|done]. by apply (g_linked _ _ H1).
  - by rewrite (g_candidates _ _ H1), (g_candidates _ _ H2).
  - intros x H3 Hn Hw. destruct (decide (linked (index s2) x)) as [Hl|Hl].
    + apply (g_candidates _ _ H2), (g_new _ _ H1); [done|done|]. intros t Htip. rewrite <-(Hw t Htip). symmetry.
      apply worse_stable; [done|done|]. apply (progress_linked _ _ _ H1). by apply Ht.
    + apply (g_new _ _ H2); [done|done|]. by rewrite (g_chain _ _ H1).
Qed.

Lemma progress_refl s : progress s s.
Proof. split; [done|done|done|done|done|done|]. intros x H1 H2. done. Qed.

Lemma index_ok_same s s' p b b' : index s !! p = Some b -> same_place b b' -> index s' = <[p := b']> (index s) ->
  mapBlockIndex s' = mapBlockIndex s -> index_ok s -> index_ok s'.
Proof.
  intros Hp Hs Hi Hm (Hwf & Htm & Hwk & Hm1 & Hm2). pose proof Hs as (Hpp & Hsk & Hh & Hha & Hcw & Hbi & Htx). unfold index_ok, map_ok. rewrite Hi, Hm.
  assert (Hl : forall x y, <[p := b']> (index s) !! x = Some y -> exists z, index s !! x = Some z /\ same_place z y).
  { intros x y. destruct (decide (p = x)) as [<-|?]; [rewrite lookup_insert_eq; intros [= <-]; by exists b|].
    rewrite lookup_insert_ne by done. intros Hx. exists y. done. }
  assert (Hr : forall x z, index s !! x = Some z -> exists y, <[p := b']> (index s) !! x = Some y /\ same_place z y).
  { intros x z Hx. destruct (decide (p = x)) as [<-|?]; [rewrite lookup_insert_eq; exists b'; by simplify_eq|].
    rewrite lookup_insert_ne by done. exists z. done. }
  split_and!.
  - by apply (tree_wf_same _ _ b).
  - intros x y q yq Hx Hq Hyq. destruct (Hl _ _ Hx) as (z & Hz & Hzy), (Hl _ _ Hyq) as (zq & Hzq & Hzyq).
    destruct Hzy as (Hzp & _ & _ & _ & _ & _ & ->), Hzyq as (_ & _ & _ & _ & _ & _ & ->). apply (Htm x z q zq); congruence.
  - intros x y Hx. destruct (Hl _ _ Hx) as (z & Hz & Hzp & _ & _ & _ & Hzw & Hzb & _). destruct (Hwk x z Hz) as (? & bf & Hv & Hpre).
    rewrite Hzw, Hzb. split; [done|]. exists bf. split; [done|]. rewrite Hzp. destruct (pprev z) as [q|]; [|done].
    destruct Hpre as (zq & Hzq & ->). destruct (Hr _ _ Hzq) as (yq & Hyq & _ & _ & _ & _ & Hw & _). exists yq. by rewrite Hw.
  - intros h x Hx. destruct (Hm1 _ _ Hx) as (z & Hz & <-). destruct (Hr _ _ Hz) as (y & Hy & _ & _ & _ & Hyh & _). exists y. done.
  - intros x y Hx. destruct (Hl _ _ Hx) as (z & Hz & _ & _ & _ & -> & _). by apply Hm2.
Qed.

(** The count of the parent's chain. *)
Lemma prev_count M s p b : index_ok s -> counts_ok M (index s) -> index s !! p = Some b -> 
  exists n, match pprev b with Some q => bq ← index s !! q; Some (nChainTx bq) | None => Some 0 end = Some n /\ 0 <= n <= nHeight b * M.
Proof.
  intros (Hwf & _) Hc Hp. destruct (Hwf p b Hp) as [Hh He], (Hc p b Hp) as [? _]. unfold entry_ok in He.
  destruct (pprev b) as [q|]; [|exists 0; split; [done|nia]]. destruct He as (bq & Hq & Hhb & _). rewrite Hq. cbn [mbind option_bind].
  destruct (Hc q bq Hq) as (_ & _ & Hn). exists (nChainTx bq). split; [done|]. rewrite Hhb. lia.
Qed.

Definition link_entry (s : chainstate) (b : CBlockIndex) (n : Z) : CBlockIndex :=
  set_sequence (set_chain_tx b (u32 (n + nTx b))) (nBlockSequenceId s).

(** One round of [link_loop] makes progress. *)
Lemma link_round M s s' p b n queue : index_ok s -> counts_ok M (index s) -> queue_ok s (p :: queue) -> tip_linked s ->
  index s !! p = Some b -> 0 <= n <= nHeight b * M ->
  index s' = <[p := link_entry s b n]> (index s) -> mapBlockIndex s' = mapBlockIndex s -> chainActive s' = chainActive s ->
  pindexBestHeader s' = pindexBestHeader s -> mapBlocksUnlinked s' = erase_range (mapBlocksUnlinked s) p ->
  setBlockIndexCandidates s' = (if match Tip (chainActive s) with None => true | Some t => negb (worse (<[p := link_entry s b n]> (index s)) p t) end
    then {[p]} ∪ setBlockIndexCandidates s else setBlockIndexCandidates s) ->
  index_ok s' /\ counts_ok M (index s') /\ queue_ok s' (queue ++ equal_range (mapBlocksUnlinked s) p) /\ progress s s'.
Proof.
  intros Hok Hc Hq Htip Hp Hn Hi Hm Hch Hbh Hu Hcand. destruct (q_queue _ _ Hq p ltac:(left)) as ((b1 & Hb1 & Htx) & Hnl & _).
  assert (b1 = b) as -> by congruence. destruct (Hc p b Hp) as (HM & Hov & _).
  assert (Hcount : nChainTx (link_entry s b n) = n + nTx b) by (cbn; unfold u32; apply Z.mod_small; nia).
  assert (Hnz : nChainTx (link_entry s b n) <> 0) by lia.
  assert (Hl : forall x, linked (index s') x <-> x = p \/ linked (index s) x) by (intros x; rewrite Hi; by apply (linked_insert _ _ b)).
  assert (Hr : forall x, received (index s') x <-> received (index s) x) by (intros x; rewrite Hi; by apply (received_same _ _ b)).
  assert (Hpar : forall x, parent (index s') x = parent (index s) x) by (intros x; rewrite Hi; by apply (parent_same _ _ b)).
  split_and!.
  - by apply (index_ok_same s s' p b (link_entry s b n)).
  - rewrite Hi. unfold counts_ok. apply insert_all; [|done]. rewrite Hcount. cbn. lia.
  - by apply (queue_step s).
  - split; [done|done|done|done| | |].
    + intros x bx Hx Hxn. rewrite Hi, lookup_insert_ne; [done|]. intros <-. apply Hnl. by exists bx.
    + rewrite Hcand. case_match; [apply union_subseteq_r|done].
    + intros x Hx Hxn Hw. apply Hl in Hx as [->|?]; [|done]. rewrite Hcand. destruct (Tip (chainActive s)) as [t|]; [rewrite <-Hi, (Hw t eq_refl)|]; by apply elem_of_union_l, elem_of_singleton.
Qed.

Lemma tip_linked_progress s s' : tip_linked s -> progress s s' -> tip_linked s'.
Proof. intros Ht Hg t. rewrite (g_chain _ _ Hg). intros Hx. by apply (progress_linked _ _ _ Hg), Ht. Qed.

Lemma link_loop_ok M fuel : forall s queue, index_ok s -> counts_ok M (index s) -> queue_ok s queue -> tip_linked s ->
  (length queue + length (mapBlocksUnlinked s) <= fuel)%nat ->
  exists s', link_loop fuel s queue = Some s' /\ index_ok s' /\ counts_ok M (index s') /\ queue_ok s' [] /\ progress s s'.
Proof.
  induction fuel as [|fuel IH]; intros s [|p queue] Hok Hc Hq Htip Hf; try (exists s; split_and!; try done; apply progress_refl); [cbn in Hf; lia|].
  destruct (q_queue _ _ Hq p ltac:(left)) as ((b & Hp & _) & _ & _). destruct (prev_count M s p b Hok Hc Hp) as (n & Hn & Hnb).
  cbn [link_loop]. rewrite Hp. cbn [mbind option_bind]. rewrite Hn. cbn [mbind option_bind]. fold (link_entry s b n).
  match goal with |- context [link_loop fuel ?x ?q] => set (s1 := x); set (qq := q) end.
  destruct (link_round M s s1 p b n queue Hok Hc Hq Htip Hp Hnb) as (Hok1 & Hc1 & Hq1 & Hg1); try (subst s1; cbn; repeat case_match; done).
  assert (Hqq : qq = queue ++ equal_range (mapBlocksUnlinked s) p) by (subst qq; cbn; repeat case_match; done).
  assert (Hu1 : mapBlocksUnlinked s1 = erase_range (mapBlocksUnlinked s) p) by (subst s1; cbn; repeat case_match; done).
  clearbody s1 qq. subst qq. destruct (IH s1 _ Hok1 Hc1 Hq1) as (s' & Hrun & Hok' & Hc' & Hq' & Hg').
  - by apply (tip_linked_progress s).
  - rewrite Hu1, length_app. pose proof (Permutation_length (range_split (mapBlocksUnlinked s) p)) as Hlen.
    rewrite length_app, !length_map in Hlen. cbn in Hf. lia.
  - exists s'. split_and!; try done. by apply (progress_trans s s1 s').
Qed.

(** The invariant of the state between the calls. *)
Record chain_ok (M : Z) (s : chainstate) : Prop := {
  c_index : index_ok s;
  c_header : best_header s;
  c_counts : counts_ok M (index s);
  c_queue : queue_ok s [];
  c_tip : tip_linked s
}.

(** A block all of whose ancestors have arrived. *)
Inductive complete (T : store) : nat -> Prop :=
| complete_intro p b : T !! p = Some b -> nTx b <> 0 -> (forall q, pprev b = Some q -> complete T q) -> complete T p.

(** The entry after its transactions are stored, before it is linked. *)
Lemma received_entry b ntx file pos : exists b1 ch, 0 < ntx < 2 ^ 32 ->
  RaiseValidity (set_status (set_chain_tx (set_data b (u32 ntx) file pos 0) 0)
    (Z.lor (nStatus (set_chain_tx (set_data b (u32 ntx) file pos 0) 0)) BLOCK_HAVE_DATA)) BLOCK_VALID_TRANSACTIONS = Some (b1, ch) /\
  same_place b b1 /\ nTx b1 = ntx /\ nChainTx b1 = 0.
Proof.
  unfold RaiseValidity. change (Z.land BLOCK_VALID_TRANSACTIONS (Z.lnot BLOCK_VALID_MASK) =? 0) with true. cbn [negb].
  repeat case_match; eexists _, _; intros Hn; (split; [reflexivity|]); cbn; (split_and!; try done);
    unfold u32; apply Z.mod_small; lia.
Qed.

Section Receive.
Context (s s' : chainstate) (p : nat) (b b1 : CBlockIndex) (Hp : index s !! p = Some b) (Hs : same_place b b1).
Context (Hb : nTx b = 0) (Hc : nChainTx b = 0) (Hb1 : nTx b1 <> 0) (Hc1 : nChainTx b1 = 0) (Hi : index s' = <[p := b1]> (index s)).

Lemma receive_linked x : linked (index s') x <-> linked (index s) x.
Proof using Hp Hc Hc1 Hi.
  unfold linked. rewrite Hi. destruct (decide (p = x)) as [<-|?]; [|by rewrite lookup_insert_ne].
  rewrite lookup_insert_eq, Hp. split; intros (? & [= <-] & ?); congruence.
Qed.

Lemma receive_received x : received (index s') x <-> x = p \/ received (index s) x.
Proof using Hb1 Hi.
  unfold received. rewrite Hi. destruct (decide (p = x)) as [<-|?]; [rewrite lookup_insert_eq|rewrite lookup_insert_ne by done].
  - split; [by left|]. intros _. by exists b1.
  - split; [by right|]. by intros [->|?].
Qed.

Lemma receive_parent x : parent (index s') x = parent (index s) x.
Proof using Hp Hs Hi. rewrite Hi. apply (parent_same _ _ b); [done|apply Hs]. Qed.

Lemma receive_fresh : ~ received (index s) p /\ ~ linked (index s) p.
Proof using Hp Hb Hc. split; intros (y & Hy & Hn); rewrite Hp in Hy; injection Hy as <-; by apply Hn. Qed.

Lemma receive_queue : queue_ok s [] -> mapBlocksUnlinked s' = mapBlocksUnlinked s ->
  (forall q, parent (index s) p = Some q -> linked (index s) q) -> queue_ok s' [p].
Proof using Hp Hs Hb Hc Hb1 Hc1 Hi.
  intros [Hlr Hcl Hrd Hwt Hun Hqu Hnd] Hu Hpar. destruct receive_fresh as [Hnr Hnl].
  split; setoid_rewrite receive_linked || idtac; setoid_rewrite receive_received || idtac; setoid_rewrite receive_parent || idtac; rewrite ?Hu.
  - auto.
  - done.
  - intros x [->|Hx] Hq; [right; left|]. left. destruct (Hrd x Hx Hq) as [?|Hn]; [done|by apply elem_of_nil in Hn].
  - intros x q [->|Hx] Hq Hn; [destruct Hn; by apply Hpar|by apply Hwt].
  - intros x q Hin. destruct (Hun _ _ Hin) as (? & ? & ?). auto.
  - intros x Hx. apply list_elem_of_singleton in Hx as ->. auto.
  - cbn. apply list.NoDup_cons. split; [|done]. intros Hin. apply list_elem_of_fmap in Hin as ([q y] & -> & Hin). destruct (Hun _ _ Hin). done.
Qed.

Lemma receive_wait q : queue_ok s [] -> mapBlocksUnlinked s' = mapBlocksUnlinked s ++ [(q, p)] ->
  parent (index s) p = Some q -> ~ linked (index s) q -> queue_ok s' [].
Proof using Hp Hs Hb Hc Hb1 Hc1 Hi.
  intros [Hlr Hcl Hrd Hwt Hun Hqu Hnd] Hu Hpar Hnq. destruct receive_fresh as [Hnr Hnl].
  split; setoid_rewrite receive_linked || idtac; setoid_rewrite receive_received || idtac; setoid_rewrite receive_parent || idtac; rewrite ?Hu.
  - auto.
  - done.
  - intros x [->|Hx] Hq; [destruct Hnq; by apply Hq|auto].
  - intros x y [->|Hx] Hq Hn; rewrite elem_of_app; [right; simplify_eq; by left|left; by apply Hwt].
  - intros x y Hin. apply elem_of_app in Hin as [Hin|Hin]; [destruct (Hun _ _ Hin) as (? & ? & ?); auto|].
    apply list_elem_of_singleton in Hin as [= -> ->]. auto.
  - intros x Hx. by apply elem_of_nil in Hx.
  - cbn. rewrite map_app. cbn. apply list.NoDup_app. split_and!; [done| |apply NoDup_singleton].
    intros x Hin Hx. apply list_elem_of_singleton in Hx as ->. apply list_elem_of_fmap in Hin as ([y z] & -> & Hin). by destruct (Hun _ _ Hin).
Qed.
End Receive.

Lemma best_header_frame s s' p b b' : index s !! p = Some b -> same_place b b' -> index s' = <[p := b']> (index s) ->
  pindexBestHeader s' = pindexBestHeader s -> best_header s -> best_header s'.
Proof.
  intros Hp (_ & _ & _ & _ & Hw & _) Hi Hh. unfold best_header. rewrite Hh, Hi. destruct (pindexBestHeader s) as [h|]; [|intros He; by rewrite He in Hp].
  intros (bh & Hbh & Hmax). destruct (decide (p = h)) as [<-|?].
  - exists b'. rewrite lookup_insert_eq. split; [done|]. simplify_eq. apply insert_all; [lia|]. intros q x Hx. rewrite Hw. by apply (Hmax q).
  - exists bh. rewrite lookup_insert_ne by done. split; [done|]. apply insert_all; [rewrite Hw; by apply (Hmax p)|done].
Qed.

(** [link_loop] keeps the work of every entry, hence the best header. *)
Lemma link_loop_work fuel : forall s queue s', link_loop fuel s queue = Some s' -> best_header s -> best_header s'.
Proof.
  induction fuel as [|fuel IH]; intros s [|p queue] s'; cbn [link_loop]; try (by intros [= <-]).
  destruct (index s !! p) as [b|] eqn:Hp; [|done]. cbn [mbind option_bind]. destruct (match pprev b with Some _ => _ | None => _ end) as [n|]; [|done].
  cbn [mbind option_bind]. intros Hrun Hbh. refine (IH _ _ _ Hrun _).
  apply (best_header_frame s _ p b (link_entry s b n)); try done; by case_match.
Qed.

Lemma linked_complete s p : index_ok s -> queue_ok s [] -> linked (index s) p <-> complete (index s) p.
Proof.
  intros (Hwf & _) Hq. split.
  - intros Hl. pose proof Hl as (b & Hp & _). revert p b Hl Hp.
    assert (Hind : forall n p b, linked (index s) p -> index s !! p = Some b -> (Z.to_nat (nHeight b) < n)%nat -> complete (index s) p).
    { induction n as [|n IH]; intros p b Hl Hp Hn; [lia|]. destruct (q_received _ _ Hq p Hl) as (b2 & Hb2 & Htx). simplify_eq.
      apply (complete_intro _ _ b); [done|done|]. intros q Hpq. destruct (Hwf p b Hp) as [Hh He]. unfold entry_ok in He. rewrite Hpq in He.
      destruct He as (bq & Hq' & Hhq & _). destruct (Hwf q bq Hq') as [? _]. apply (IH q bq); [|done|lia].
      apply (q_closed _ _ Hq p); [done|]. unfold parent. by rewrite Hp. }
    intros p b Hl Hp. by apply (Hind (S (Z.to_nat (nHeight b))) p b); [| |lia].
  - induction 1 as [p b Hp Htx Hpar IH]. destruct (q_ready _ _ Hq p) as [?|Hn]; [by exists b| |done|by apply elem_of_nil in Hn].
    intros q. unfold parent. rewrite Hp. cbn. apply IH.
Qed.

(** What the arrival of the transactions of [p] means for the state. *)
Definition arrival (M : Z) (s : chainstate) (p : nat) (s' : chainstate) : Prop :=
  chain_ok M s' /\ (forall x, received (index s') x <-> x = p \/ received (index s) x) /\
  (forall x, parent (index s') x = parent (index s) x) /\ chainActive s' = chainActive s /\
  forall x, linked (index s') x -> ~ linked (index s) x ->
    (forall t, Tip (chainActive s) = Some t -> worse (index s') x t = false) -> x ∈ setBlockIndexCandidates s'.

(** The state after the entry is stored, before blocks are linked. *)
Section Arrival.
Context (M : Z) (s s1 : chainstate) (p : nat) (b b1 : CBlockIndex) (Hs0 : chain_ok M s) (Hp : index s !! p = Some b) (Hs : same_place b b1).
Context (Hb : nTx b = 0) (Hc : nChainTx b = 0) (Hb1 : 0 < nTx b1 <= M) (Hc1 : nChainTx b1 = 0).
Context (Hi : index s1 = <[p := b1]> (index s)) (Hm : mapBlockIndex s1 = mapBlockIndex s) (Hch : chainActive s1 = chainActive s).
Context (Hbh : pindexBestHeader s1 = pindexBestHeader s).

Lemma arrival_base : index_ok s1 /\ best_header s1 /\ counts_ok M (index s1) /\ tip_linked s1.
Proof using Hs0 Hp Hs Hb1 Hc Hc1 Hi Hm Hch Hbh.
  destruct Hs0 as [Hok Hbe Hcn _ Htip]. split_and!.
  - by apply (index_ok_same s s1 p b b1).
  - by apply (best_header_frame s s1 p b b1).
  - rewrite Hi. unfold counts_ok. apply insert_all; [|done]. destruct Hok as (Hwf & _). destruct (Hwf p b Hp) as [Hh _], (Hcn p b Hp) as (_ & Hov & _).
    destruct Hs as (_ & _ & -> & _). rewrite Hc1. split_and!; nia.
  - intros t. rewrite Hch. intros Ht. apply (receive_linked s s1 p b b1); try done. by apply Htip.
Qed.

Lemma arrival_link : mapBlocksUnlinked s1 = mapBlocksUnlinked s -> (forall q, pprev b = Some q -> linked (index s) q) ->
  exists s', link_loop (S (length (mapBlocksUnlinked s1))) s1 [p] = Some s' /\ arrival M s p s'.
Proof using Hs0 Hp Hs Hb Hb1 Hc Hc1 Hi Hm Hch Hbh.
  intros Hu Hpl. destruct arrival_base as (Hok1 & Hbe1 & Hcn1 & Htip1). assert (Hn : nTx b1 <> 0) by lia.
  assert (Hpl' : forall q, parent (index s) p = Some q -> linked (index s) q) by (unfold parent; rewrite Hp; done).
  pose proof (receive_queue s s1 p b b1 Hp Hs Hb Hc Hn Hc1 Hi (c_queue _ _ Hs0) Hu Hpl') as Hq1.
  destruct (link_loop_ok M (S (length (mapBlocksUnlinked s1))) s1 [p] Hok1 Hcn1 Hq1 Htip1) as (s' & Hrun & Hok' & Hcn' & Hq' & Hg); [cbn; lia|].
  exists s'. split; [done|]. split; [split; [done|by apply (link_loop_work _ _ _ _ Hrun)|done|done|by apply (tip_linked_progress s1)]|].
  split; [intros x; rewrite (g_received _ _ Hg); by apply (receive_received s s1 p b1)|].
  split; [intros x; rewrite (g_parent _ _ Hg); by apply (receive_parent s s1 p b b1)|]. split; [by rewrite (g_chain _ _ Hg)|].
  intros x Hx Hnx Hw. apply (g_new _ _ Hg); [done| |by rewrite Hch]. by rewrite (receive_linked s s1 p b b1).
Qed.

Lemma arrival_wait q : mapBlocksUnlinked s1 = mapBlocksUnlinked s ++ [(q, p)] -> pprev b = Some q -> ~ linked (index s) q -> arrival M s p s1.
Proof using Hs0 Hp Hs Hb Hb1 Hc Hc1 Hi Hm Hch Hbh.
  intros Hu Hq Hnq. destruct arrival_base as (Hok1 & Hbe1 & Hcn1 & Htip1). assert (Hn : nTx b1 <> 0) by lia.
  assert (Hpq : parent (index s) p = Some q) by (unfold parent; by rewrite Hp).
  pose proof (receive_wait s s1 p b b1 Hp Hs Hb Hc Hn Hc1 Hi q (c_queue _ _ Hs0) Hu Hpq Hnq) as Hq1.
  split; [split; done|]. split; [by apply (receive_received s s1 p b1)|]. split; [by apply (receive_parent s s1 p b b1)|]. split; [done|].
  intros x Hx Hnx. destruct Hnx. by apply (receive_linked s s1 p b b1).
Qed.
End Arrival.

(** [ReceivedBlockTransactions] on a block that arrives for the first time,
    below a parent that has not failed. *)
Lemma Received_ok M s p b ntx file pos : chain_ok M s -> index s !! p = Some b -> nTx b = 0 -> 0 < ntx <= M ->
  (forall q bq, pprev b = Some q -> index s !! q = Some bq -> nChainTx bq = 0 -> IsValid bq BLOCK_VALID_TREE = Some true) ->
  exists s', ReceivedBlockTransactions s p ntx file pos = Some s' /\ arrival M s p s'.
Proof.
  intros Hs0 Hp Hb Hntx Hpar. pose proof (c_index _ _ Hs0) as (Hwf & _). destruct (Hwf p b Hp) as [Hh He], (c_counts _ _ Hs0 p b Hp) as (_ & Hov & _).
  assert (Hc : nChainTx b = 0).
  { destruct (decide (nChainTx b = 0)); [done|]. destruct (q_received _ _ (c_queue _ _ Hs0) p) as (y & Hy & Hn); [by exists b|]. congruence. }
  destruct (received_entry b ntx file pos) as (b1 & ch & Hrv). destruct Hrv as (Hrv & Hs & Hb1 & Hc1); [nia|]. rewrite <-Hb1 in Hntx.
  unfold ReceivedBlockTransactions. rewrite Hp. cbn [mbind option_bind]. rewrite Hrv. cbn [mbind option_bind].
  assert (Hpe : pprev b1 = pprev b) by apply Hs. rewrite Hpe. destruct (pprev b) as [q|] eqn:Hpq; [|apply (arrival_link M s _ p b b1); try done; congruence].
  unfold entry_ok in He. rewrite Hpq in He. destruct He as (bq & Hbq & Hhq & _).
  assert (Hqp : p <> q) by (intros ->; assert (b = bq) by congruence; subst; lia).
  cbn [index mark_dirty with_index]. rewrite lookup_insert_ne, Hbq by done. cbn [mbind option_bind].
  destruct (Z.eqb_spec (nChainTx bq) 0) as [H0|H0]; cbn [negb].
  - rewrite (Hpar q bq eq_refl Hbq H0). cbn [mbind option_bind]. eexists. split; [reflexivity|].
    apply (arrival_wait M s _ p b b1) with (q := q); try done. intros (y & Hy & Hn). congruence.
  - apply (arrival_link M s _ p b b1); try done. rewrite Hpq. intros ? [= <-]. by exists bq.
Qed.

(** A new header changes nothing for the blocks that are there. *)
Lemma Add_ok M s block hash p : chain_ok M s -> index s !! p = None -> mapBlockIndex s !! hash = None ->
  hd_hashPrevBlock block <> hash -> 0 <= hd_nBits block < 2 ^ 32 -> 0 <= M -> M < 2 ^ 32 ->
  (forall q bq, index s !! q = Some bq -> (nHeight bq + 2) * M < 2 ^ 32) ->
  exists s' b, AddToBlockIndex s block hash p = Some (p, s') /\ chain_ok M s' /\ index s' = <[p := b]> (index s) /\
    hashBlock b = hash /\ nBits b = hd_nBits block /\ nStatus b = BLOCK_VALID_TREE /\ nChainTx b = 0 /\
    pprev b = mapBlockIndex s !! hd_hashPrevBlock block /\ p ∈ setDirtyBlockIndex s'.
Proof.
  intros [Hok Hbh Hcn Hq Htip] Hp Hhash Hprev Hbits HM0 HM Hht.
  destruct (AddToBlockIndex_spec s block hash p Hok Hbh Hp Hhash Hprev Hbits)
    as (s' & b & Hrun & Hok' & Hbh' & Hi & Hha & Hbi & Hst & Hct & Hpp & Hd & Htx & Hu & Hch).
  exists s', b. split; [done|]. split; [|by split_and!].
  assert (Hl : forall x, linked (index s') x <-> linked (index s) x).
  { intros x. unfold linked. rewrite Hi. destruct (decide (p = x)) as [<-|?]; [|by rewrite lookup_insert_ne]. rewrite lookup_insert_eq, Hp.
    split; intros (y & Hy & Hn); [injection Hy as <-; congruence|done]. }
  assert (Hr : forall x, received (index s') x <-> received (index s) x).
  { intros x. unfold received. rewrite Hi. destruct (decide (p = x)) as [<-|?]; [|by rewrite lookup_insert_ne]. rewrite lookup_insert_eq, Hp.
    split; intros (y & Hy & Hn); [injection Hy as <-; congruence|done]. }
  assert (Hpar : forall x, received (index s) x -> parent (index s') x = parent (index s) x).
  { intros x (y & Hx & _). unfold parent. rewrite Hi, lookup_insert_ne; [done|congruence]. }
  split; [done|done| | |].
  - rewrite Hi. unfold counts_ok. apply insert_all; [|done]. rewrite Htx, Hct. destruct Hok' as (Hwf & _).
    destruct (Hwf p b) as [Hh He]; [rewrite Hi; by rewrite lookup_insert_eq|]. unfold entry_ok in He.
    assert ((nHeight b + 1) * M < 2 ^ 32); [|split_and!; nia]. destruct (pprev b) as [q|] eqn:Hq'; [|destruct He as [-> _]; lia].
    destruct He as (bq & Hbq & -> & _). rewrite Hi in Hbq. symmetry in Hpp. destruct Hok as (_ & _ & _ & Hm1 & _).
    destruct (Hm1 _ _ Hpp) as (z & Hz & _). rewrite lookup_insert_ne in Hbq by congruence. specialize (Hht q bq Hbq). lia.
  - destruct Hq as [Hlr Hcl Hrd Hwt Hun Hqu Hnd]. split; rewrite ?Hu; try setoid_rewrite Hl; try setoid_rewrite Hr.
    + done.
    + intros x q Hx. rewrite Hpar by auto. eauto.
    + intros x Hx. rewrite Hpar by done. auto.
    + intros x q Hx. rewrite Hpar by done. auto.
    + intros x q Hin. destruct (Hun _ _ Hin) as (? & ? & ?). by rewrite Hpar.
    + intros x Hx. by apply elem_of_nil in Hx.
    + done.
  - intros t. rewrite Hch. intros Ht. apply Hl. by apply Htip.
Qed.

(** ** The order of the candidates *)

Definition ranked (T : store) (p : nat) : Prop := exists b, T !! p = Some b /\ wf (nChainWork b).

(** More work first, then the earlier arrival, then the lower address. *)
Lemma worse_spec T p q a b : T !! p = Some a -> T !! q = Some b -> wf (nChainWork a) -> wf (nChainWork b) ->
  worse T p q = true <-> val (nChainWork a) < val (nChainWork b) \/ (val (nChainWork a) = val (nChainWork b) /\
    (nSequenceId b < nSequenceId a \/ (nSequenceId a = nSequenceId b /\ (q < p)%nat))).
Proof.
  intros Hp Hq Ha Hb. unfold worse, CBlockIndexWorkComparator. rewrite Hp, Hq, gtb_spec', ltb_spec', Z.gtb_ltb by done.
  destruct (Z.ltb_spec (val (nChainWork b)) (val (nChainWork a))); [split; [done|lia]|].
  destruct (Z.ltb_spec (val (nChainWork a)) (val (nChainWork b))); [split; [lia|done]|].
  destruct (Z.ltb_spec (nSequenceId a) (nSequenceId b)); [split; [done|lia]|].
  destruct (Z.ltb_spec (nSequenceId b) (nSequenceId a)); [split; [lia|done]|].
  destruct (Nat.ltb_spec p q); [split; [done|lia]|]. destruct (Nat.ltb_spec q p); split; done || lia.
Qed.

Definition works_ok (T : store) : Prop := forall p b, T !! p = Some b -> wf (nChainWork b).

(** The comparator is a strict total order on the entries. *)
Lemma worse_trans T p q r : works_ok T -> worse T p q = true -> worse T q r = true -> worse T p r = true.
Proof.
  intros Hw H1 H2. destruct (T !! p) as [a|] eqn:Hp; [|by unfold worse in H1; rewrite Hp in H1].
  destruct (T !! q) as [b|] eqn:Hq; [|by unfold worse in H1; rewrite Hp, Hq in H1].
  destruct (T !! r) as [c|] eqn:Hr; [|by unfold worse in H2; rewrite Hq, Hr in H2].
  apply (worse_spec T p q a b) in H1; eauto. apply (worse_spec T q r b c) in H2; eauto. apply (worse_spec T p r a c); eauto. lia.
Qed.

Lemma worse_irrefl T p : works_ok T -> worse T p p = false.
Proof.
  intros Hw. destruct (T !! p) as [a|] eqn:Hp; [|by unfold worse; rewrite Hp]. apply not_true_iff_false.
  rewrite (worse_spec T p p a a); eauto. lia.
Qed.

Lemma worse_total T p q : works_ok T -> is_Some (T !! p) -> is_Some (T !! q) -> p <> q -> worse T p q = true \/ worse T q p = true.
Proof.
  intros Hw [a Hp] [b Hq] Hne. rewrite (worse_spec T p q a b), (worse_spec T q p b a); eauto. lia.
Qed.

(** The last element is the maximum. *)
Lemma rbegin_spec T (c : gset nat) : works_ok T -> (forall p, p ∈ c -> is_Some (T !! p)) ->
  match rbegin T c with
  | None => c = ∅
  | Some m => m ∈ c /\ forall p, p ∈ c -> p = m \/ worse T p m = true
  end.
Proof.
  intros Hw Hc. unfold rbegin. assert (Hel : forall p, p ∈ elements c <-> p ∈ c) by (intros; apply elem_of_elements).
  assert (Hl : forall l, (forall p, p ∈ l -> is_Some (T !! p)) ->
    match foldr (fun p acc => match acc with Some q => if worse T q p then Some p else Some q | None => Some p end) None l with
    | None => l = [] | Some m => m ∈ l /\ forall p, p ∈ l -> p = m \/ worse T p m = true end).
  { induction l as [|x l IH]; intros Hl; [done|]. cbn [foldr]. specialize (IH (fun p Hp => Hl p (list_elem_of_further _ _ _ Hp))).
    destruct (foldr _ None l) as [m|]; [|subst l; split; [left|]; intros p Hp; apply list_elem_of_singleton in Hp; by left].
    destruct IH as [Hm Hmax]. destruct (worse T m x) eqn:Hmx; (split; [by constructor|]); intros p Hp; apply elem_of_cons in Hp as [->|Hp].
    - by left.
    - right. destruct (Hmax p Hp) as [->|?]; [done|]. by apply (worse_trans T p m x).
    - destruct (decide (x = m)) as [->|?]; [by left|right].
      destruct (worse_total T x m Hw) as [?|?]; [apply Hl; left|apply Hl; by right|done|done|congruence].
    - auto. }
  specialize (Hl (elements c) (fun p Hp => Hc p (proj1 (Hel p) Hp))). destruct (foldr _ None (elements c)) as [m|].
  - destruct Hl as [Hm Hmax]. split; [by apply Hel|]. intros p Hp. by apply Hmax, Hel.
  - apply leibniz_equiv. by apply elements_empty_iff.
Qed.

(** ** Stores that differ in the status of entries only *)

Definition same_core (b b' : CBlockIndex) : Prop :=
  same_place b b' /\ nChainTx b' = nChainTx b /\ nSequenceId b' = nSequenceId b /\ nTx b' = nTx b.
Definition alike (T T' : store) : Prop := forall x,
  match T !! x, T' !! x with Some b, Some b' => same_core b b' | None, None => True | _, _ => False end.

Lemma same_core_refl b : same_core b b.
Proof. by split_and!. Qed.
Lemma same_core_trans a b c : same_core a b -> same_core b c -> same_core a c.
Proof. unfold same_core, same_place. intros (? & ? & ? & ?) (? & ? & ? & ?). destruct_and!. split_and!; congruence. Qed.
Lemma same_core_sym a b : same_core a b -> same_core b a.
Proof. unfold same_core, same_place. intros (? & ? & ? & ?). destruct_and!. split_and!; congruence. Qed.

#[export] Instance alike_equiv : Equivalence alike.
Proof.
  split.
  - intros T x. destruct (T !! x); [apply same_core_refl|done].
  - intros T T' H x. specialize (H x). destruct (T !! x), (T' !! x); try done. by apply same_core_sym.
  - intros T1 T2 T3 H1 H2 x. specialize (H1 x). specialize (H2 x).
    destruct (T1 !! x), (T2 !! x), (T3 !! x); try done. by apply (same_core_trans _ c0).
Qed.

Lemma alike_insert T p b b' : T !! p = Some b -> same_core b b' -> alike T (<[p := b']> T).
Proof.
  intros Hp Hc x. destruct (decide (p = x)) as [<-|?]; [by rewrite lookup_insert_eq, Hp|].
  rewrite lookup_insert_ne by done. destruct (T !! x); [apply same_core_refl|done].
Qed.

Lemma alike_lookup T T' x b : alike T T' -> T !! x = Some b -> exists b', T' !! x = Some b' /\ same_core b b'.
Proof. intros H Hx. specialize (H x). rewrite Hx in H. destruct (T' !! x) as [b'|]; [|done]. by exists b'. Qed.

Lemma alike_inv T T' x b' : alike T T' -> T' !! x = Some b' -> exists b, T !! x = Some b /\ same_core b b'.
Proof. intros H Hx. specialize (H x). rewrite Hx in H. destruct (T !! x) as [b|]; [|done]. by exists b. Qed.

Section Alike.
Context (T T' : store).

Lemma alike_parent x : alike T T' -> parent T' x = parent T x.
Proof. intros H. specialize (H x). unfold parent. destruct (T !! x), (T' !! x); try done. cbn. by destruct H as [[? _] _]. Qed.

Lemma alike_Contains v x : alike T T' -> Contains T' v x = Contains T v x.
Proof.
  intros H. specialize (H x). unfold Contains. destruct (T !! x), (T' !! x); try done. cbn.
  destruct H as [(_ & _ & Hh & _) _]. by rewrite Hh.
Qed.

Lemma alike_worse x y : alike T T' -> worse T' x y = worse T x y.
Proof.
  intros H. pose proof (H x) as Hx. pose proof (H y) as Hy. unfold worse, CBlockIndexWorkComparator.
  destruct (T !! x), (T' !! x); try done. destruct (T !! y), (T' !! y); try done.
  destruct Hx as [(_ & _ & _ & _ & -> & _) (_ & -> & _)], Hy as [(_ & _ & _ & _ & -> & _) (_ & -> & _)]. done.
Qed.

Lemma alike_linked x : alike T T' -> linked T' x <-> linked T x.
Proof.
  intros H. specialize (H x). unfold linked. destruct (T !! x) as [b|], (T' !! x) as [b'|]; try done.
  destruct H as (_ & Hn & _). split; intros (? & [= <-] & ?); eexists; (split; [reflexivity|congruence]).
Qed.

Lemma alike_nth_parent n x : alike T T' -> nth_parent T' n x = nth_parent T n x.
Proof.
  intros H. revert x. induction n as [|n IH]; intros x; cbn [nth_parent]; [done|]. pose proof (H x) as Hx.
  destruct (T !! x) as [b|], (T' !! x) as [b'|]; try done. cbn. destruct Hx as [(-> & _) _]. destruct (pprev b); [apply IH|done].
Qed.

Lemma alike_ancestor x h : alike T T' -> ancestor T' x h = ancestor T x h.
Proof.
  intros H. pose proof (H x) as Hx. unfold ancestor. destruct (T !! x), (T' !! x); try done. cbn.
  destruct Hx as [(_ & _ & -> & _) _]. by apply alike_nth_parent.
Qed.

Lemma alike_path x : alike T T' -> path T' x = path T x.
Proof.
  intros H. pose proof (H x) as Hx. unfold path. destruct (T !! x), (T' !! x); try done. destruct Hx as [(_ & _ & -> & _) _].
  apply list_fmap_ext. intros i h _. by apply alike_ancestor.
Qed.

Lemma alike_tree_wf : alike T T' -> tree_wf T -> tree_wf T'.
Proof.
  intros Hm Hwf p b' Hp. destruct (alike_inv T T' p b' Hm Hp) as (b & Hb & (Hpp & Hsk & Hh & _) & _).
  destruct (Hwf p b Hb) as [H0 He]. rewrite Hh. split; [done|]. unfold entry_ok in *. rewrite Hpp, Hsk, Hh. destruct (pprev b) as [q|]; [|done].
  destruct He as (bq & Hq & Hhq & Hs). destruct (alike_lookup T T' q bq Hm Hq) as (bq' & Hq' & (_ & _ & Hh' & _) & _). exists bq'.
  split_and!; [done|congruence|]. intros x Hx. rewrite alike_ancestor by done. by apply Hs.
Qed.
End Alike.

(** ** The most work chain *)

(** A block that failed, or whose data is not there. *)
Definition bad (b : CBlockIndex) : bool := negb (Z.land (nStatus b) BLOCK_FAILED_MASK =? 0) || (Z.land (nStatus b) BLOCK_HAVE_DATA =? 0).

(** The chain from [p] down to the active chain has no bad block. *)
Inductive usable (T : store) (v : CChain) : nat -> Prop :=
| usable_active p : Contains T v p = Some true -> usable T v p
| usable_step p b : T !! p = Some b -> Contains T v p = Some false -> bad b = false ->
    (forall q, pprev b = Some q -> usable T v q) -> usable T v p.

(** The first bad block on the way from [p] is [t], with [n] blocks before it. *)
Inductive doomed (T : store) (v : CChain) (t : nat) : nat -> nat -> Prop :=
| doomed_here b : T !! t = Some b -> Contains T v t = Some false -> bad b = true -> doomed T v t 0 t
| doomed_step n p b q : T !! p = Some b -> Contains T v p = Some false -> bad b = false -> pprev b = Some q ->
    doomed T v t n q -> doomed T v t (S n) p.

Lemma doomed_not_usable T v t n p : doomed T v t n p -> ~ usable T v p.
Proof.
  induction 1 as [b Hb Hc Hbad|n p b q Hb Hc Hbad Hq Hd IH]; intros Hu; inversion Hu; try congruence; simplify_eq; eauto; congruence.
Qed.

Lemma Contains_some T v p b : T !! p = Some b -> exists c, Contains T v p = Some c.
Proof. intros Hp. unfold Contains. rewrite Hp. cbn. by eexists. Qed.

(** The walk ends at the active chain, at a root or at the first bad block. *)
Lemma scan_path_spec T v : tree_wf T -> (forall x q, linked T x -> parent T x = Some q -> linked T q) ->
  forall fuel p b, T !! p = Some b -> linked T p -> (Z.to_nat (nHeight b) < fuel)%nat ->
  (scan_path fuel T v (Some p) = Some None /\ usable T v p) \/
  exists n t bt f m, scan_path fuel T v (Some p) = Some (Some (t, f, m)) /\ doomed T v t n p /\ T !! t = Some bt /\
    f = negb (Z.land (nStatus bt) BLOCK_FAILED_MASK =? 0) /\ m = (Z.land (nStatus bt) BLOCK_HAVE_DATA =? 0) /\ (n <= Z.to_nat (nHeight b))%nat.
Proof.
  intros Hwf Hcl. induction fuel as [|fuel IH]; intros p b Hp Hl Hf; [lia|]. destruct (Contains_some T v p b Hp) as (c & Hc).
  cbn [scan_path]. rewrite Hc. cbn [mbind option_bind]. destruct c; [left; split; [done|by constructor]|]. rewrite Hp. cbn [mbind option_bind].
  pose proof Hl as (b' & Hb' & Hn). assert (b' = b) as -> by congruence. rewrite (proj2 (Z.eqb_neq _ _) Hn). cbn [andb].
  fold (bad b). destruct (bad b) eqn:Hbad.
  { right. exists 0%nat, p, b. do 2 eexists. split; [reflexivity|]. split; [by apply (doomed_here _ _ _ b)|]. split_and!; try done. lia. }
  destruct (Hwf p b Hp) as [Hh He]. unfold entry_ok in He. destruct (pprev b) as [q|] eqn:Hq.
  - destruct He as (bq & Hbq & Hhq & _). destruct (Hwf q bq Hbq) as [Hh' _]. assert (Hpq : parent T p = Some q) by (unfold parent; by rewrite Hp).
    destruct (IH q bq Hbq (Hcl p q Hl Hpq) ltac:(lia)) as [[-> Hu]|(n & t & bt & f & m & -> & Hd & Ht & Hff & Hmm & Hn')].
    + left. split; [done|]. apply (usable_step _ _ _ b); try done. intros ? ?. by simplify_eq.
    + right. exists (S n), t, bt, f, m. split; [done|]. split; [by apply (doomed_step _ _ _ n p b q)|]. split_and!; try done. lia.
  - left. split; [by destruct fuel|]. apply (usable_step _ _ _ b); try done. intros ? ?. by simplify_eq.
Qed.

Definition fail_child (b : CBlockIndex) : CBlockIndex := set_status b (Z.lor (nStatus b) BLOCK_FAILED_CHILD).

(** [T'] is [T] with some of the entries in [D] marked. *)
Definition marked (D : nat -> Prop) (T T' : store) : Prop := forall x, T' !! x = T !! x \/
  (D x /\ exists b, T !! x = Some b /\ T' !! x = Some (fail_child b)).

Lemma fail_child_twice b : fail_child (fail_child b) = fail_child b.
Proof. unfold fail_child, set_status. cbn. by rewrite <-Z.lor_assoc, Z.lor_diag. Qed.

Lemma marked_trans D T1 T2 T3 : marked D T1 T2 -> marked D T2 T3 -> marked D T1 T3.
Proof.
  intros H1 H2 x. destruct (H1 x) as [E1|(Hd & b & Hb & E1)], (H2 x) as [E2|(Hd' & b' & Hb' & E2)].
  - left. congruence.
  - right. split; [done|]. exists b'. split; [congruence|done].
  - right. split; [done|]. exists b. split; [done|congruence].
  - right. split; [done|]. exists b. split; [done|]. rewrite E1 in Hb'. injection Hb' as <-. by rewrite fail_child_twice in E2.
Qed.

Lemma marked_refl D T : marked D T T.
Proof. intros x. by left. Qed.

Lemma marked_one (D : nat -> Prop) T p b : T !! p = Some b -> D p -> marked D T (<[p := fail_child b]> T).
Proof.
  intros Hp Hd x. destruct (decide (p = x)) as [<-|?]; [right; split; [done|]; exists b; by rewrite lookup_insert_eq|left].
  by rewrite lookup_insert_ne.
Qed.

Lemma marked_alike D T T' : marked D T T' -> alike T T'.
Proof.
  intros H x. destruct (H x) as [->|(_ & b & -> & ->)]; [destruct (T !! x); [apply same_core_refl|done]|]. by split_and!.
Qed.

Lemma fail_child_bad b : bad (fail_child b) = true.
Proof.
  unfold bad, fail_child. cbn [nStatus set_status]. apply orb_true_iff. left. apply negb_true_iff, Z.eqb_neq. intros H.
  assert (Ht : Z.testbit (Z.land (Z.lor (nStatus b) BLOCK_FAILED_CHILD) BLOCK_FAILED_MASK) 6 = true) by (rewrite Z.land_spec, Z.lor_spec; by rewrite orb_true_r).
  rewrite H in Ht. done.
Qed.

(** Marking unusable blocks leaves the usable ones alone. *)
Lemma marked_usable (D : nat -> Prop) T T' v x : marked D T T' -> (forall y, D y -> ~ usable T v y) -> usable T' v x <-> usable T v x.
Proof.
  intros Hm HD. pose proof (marked_alike D T T' Hm) as Hal. split.
  - induction 1 as [p Hc|p b Hp Hc Hbad Hq IH]; rewrite (alike_Contains T T') in Hc by done; [by constructor|].
    destruct (Hm p) as [E|(_ & b0 & Hb & E)]; [|rewrite E in Hp; simplify_eq; by rewrite fail_child_bad in Hbad].
    apply (usable_step _ _ _ b); [congruence|done|done|auto].
  - induction 1 as [p Hc|p b Hp Hc Hbad Hq IH]; [constructor; by rewrite (alike_Contains T T')|].
    destruct (Hm p) as [E|(Hd & _)]; [|destruct (HD p Hd); by apply (usable_step _ _ _ b)].
    apply (usable_step _ _ _ b); [congruence|by rewrite (alike_Contains T T')|done|auto].
Qed.

(** [t] is [n] blocks below [p], and the blocks before it are in [D]. *)
Inductive descends (D : nat -> Prop) (T : store) (t : nat) : nat -> nat -> Prop :=
| descends_here : descends D T t 0 t
| descends_step n p q : parent T p = Some q -> p <> t -> D p -> descends D T t n q -> descends D T t (S n) p.

Lemma descends_marked D D' T T' t n p : marked D' T T' -> descends D T t n p -> descends D T' t n p.
Proof. intros Hm%marked_alike. induction 1; [constructor|econstructor; eauto]. by rewrite (alike_parent T T'). Qed.

Lemma doomed_bad T v t n p : doomed T v t n p -> exists b, T !! t = Some b /\ bad b = true.
Proof. induction 1; eauto. Qed.

Lemma doomed_descends T v t n p : doomed T v t n p -> descends (fun x => ~ usable T v x) T t n p.
Proof.
  induction 1 as [b Hb Hc Hbad|n p b q Hb Hc Hbad Hq Hd IH]; [constructor|]. apply (descends_step _ _ _ n p q); [|..|done].
  - unfold parent. by rewrite Hb.
  - intros ->. destruct (doomed_bad _ _ _ _ _ Hd) as (b' & Hb' & Hx). congruence.
  - by apply (doomed_not_usable _ _ t (S n)), (doomed_step _ _ _ n p b q).
Qed.

(** Removing a chain of candidates: only blocks of [D] are marked and leave the
    set, the first one among them. *)
Lemma remove_chain_spec D t f m n : forall fuel s p, descends D (index s) t n p -> (n <= fuel)%nat ->
  exists s' R, remove_chain fuel s t p f m = Some s' /\ marked D (index s) (index s') /\
    setBlockIndexCandidates s' = setBlockIndexCandidates s ∖ R /\ (forall x, x ∈ R -> D x) /\ (p = t \/ p ∈ R) /\
    chainActive s' = chainActive s /\ pindexBestInvalid s' = pindexBestInvalid s.
Proof.
  induction n as [|n IH]; intros fuel s p Hd Hf; inversion Hd as [|n' p' q Hq Hne HD Hrest]; subst.
  { exists s, ∅. split; [destruct fuel; cbn; by rewrite bool_decide_true|]. split; [apply marked_refl|]. split_and!; try done; [|by left].
    symmetry. by apply difference_empty_L. }
  destruct fuel as [|fuel]; [lia|]. cbn [remove_chain]. rewrite bool_decide_false by congruence. unfold parent in Hq.
  destruct (index s !! p) as [b|] eqn:Hp; [|done]. cbn [mbind option_bind] in *.
  assert (Hmid : exists s1, (if f then raise_flag s p BLOCK_FAILED_CHILD
     else if m then prev ← pprev b; Some (with_unlinked s (mapBlocksUnlinked s ++ [(prev, p)])) else Some s) = Some s1 /\
     marked D (index s) (index s1) /\ setBlockIndexCandidates s1 = setBlockIndexCandidates s /\ chainActive s1 = chainActive s /\
     pindexBestInvalid s1 = pindexBestInvalid s).
  { destruct f; [|destruct m]; [unfold raise_flag|..]; rewrite ?Hp, ?Hq; cbn [mbind option_bind]; eexists; (split; [reflexivity|]);
      cbn; (split; [|done]); [by apply marked_one|apply marked_refl|apply marked_refl]. }
  destruct Hmid as (s1 & -> & Hm1 & Hc1 & Hv1 & Hi1). cbn [mbind option_bind]. rewrite Hq. cbn [mbind option_bind].
  destruct (IH fuel (with_candidates s1 (setBlockIndexCandidates s1 ∖ {[p]})) q) as (s' & R & Hrun & Hm & Hc & HR & _ & Hv & Hi);
    [by apply (descends_marked D D _ _ _ _ _ Hm1)|lia|].
  exists s', ({[p]} ∪ R). split; [done|]. split; [by apply (marked_trans D _ (index s1))|]. cbn in Hc, Hv, Hi. rewrite Hc, Hc1, Hv, Hi.
  split_and!; try done; [by rewrite difference_difference_l_L| |right; by apply elem_of_union_l, elem_of_singleton].
  intros x [->%elem_of_singleton|Hx]%elem_of_union; auto.
Qed.

(** What the search needs of the state. *)
Record search_ok (s : chainstate) : Prop := {
  f_tree : tree_wf (index s);
  f_work : works_ok (index s);
  f_closed : forall x q, linked (index s) x -> parent (index s) x = Some q -> linked (index s) q;
  f_candidates : forall x, x ∈ setBlockIndexCandidates s -> linked (index s) x;
  f_invalid : forall i, pindexBestInvalid s = Some i -> is_Some (index s !! i)
}.

Lemma alike_search s s' : alike (index s) (index s') -> setBlockIndexCandidates s' ⊆ setBlockIndexCandidates s ->
  (forall i, pindexBestInvalid s' = Some i -> pindexBestInvalid s = Some i \/ is_Some (index s !! i)) -> search_ok s -> search_ok s'.
Proof.
  intros Hm Hc Hb [Hwf Hw Hcl Hca Hi]. split.
  - by apply (alike_tree_wf (index s)).
  - intros p b' Hp. destruct (alike_inv _ _ _ _ Hm Hp) as (b & Hpb & (_ & _ & _ & _ & -> & _) & _). by apply (Hw p).
  - intros x q. rewrite !(alike_linked _ _ _ Hm), (alike_parent _ _ _ Hm). apply Hcl.
  - intros x Hx. rewrite (alike_linked _ _ _ Hm). auto.
  - intros i Hx. assert (His : is_Some (index s !! i)) by (destruct (Hb i Hx) as [?|?]; auto). destruct His as [b Hbi].
    destruct (alike_lookup _ _ _ _ Hm Hbi) as (b' & -> & _). by eexists.
Qed.

(** What a search leaves: only unusable blocks are marked or dropped, and the
    answer is the best of the candidates that are left. *)
Definition search_result (s : chainstate) (r : option nat) (s' : chainstate) : Prop :=
  let D := fun x => ~ usable (index s) (chainActive s) x in
  marked D (index s) (index s') /\ setBlockIndexCandidates s' ⊆ setBlockIndexCandidates s /\
  (forall x, x ∈ setBlockIndexCandidates s -> x ∉ setBlockIndexCandidates s' -> D x) /\ chainActive s' = chainActive s /\ search_ok s' /\
  match r with
  | None => setBlockIndexCandidates s' = ∅
  | Some c => c ∈ setBlockIndexCandidates s' /\ usable (index s) (chainActive s) c /\
      forall d, d ∈ setBlockIndexCandidates s' -> d = c \/ worse (index s) d c = true
  end.

Lemma search_step s s1 r s' : search_ok s -> let D := fun x => ~ usable (index s) (chainActive s) x in
  marked D (index s) (index s1) -> setBlockIndexCandidates s1 ⊆ setBlockIndexCandidates s ->
  (forall x, x ∈ setBlockIndexCandidates s -> x ∉ setBlockIndexCandidates s1 -> D x) -> chainActive s1 = chainActive s ->
  search_result s1 r s' -> search_result s r s'.
Proof.
  intros Hok D Hm Hc HD Hv (Hm' & Hc' & HD' & Hv' & Hok' & Hr).
  assert (Hus : forall x, usable (index s1) (chainActive s1) x <-> usable (index s) (chainActive s) x).
  { intros x. rewrite Hv. apply (marked_usable D); [done|]. by intros y Hy. }
  assert (Hm2 : marked D (index s1) (index s')).
  { intros x. destruct (Hm' x) as [?|(Hd & Hx)]; [by left|right]. split; [|done]. intros Hu. apply Hd. by apply Hus. }
  split_and!.
  - by apply (marked_trans D _ (index s1)).
  - by transitivity (setBlockIndexCandidates s1).
  - intros x Hx Hn. destruct (decide (x ∈ setBlockIndexCandidates s1)) as [H1|H1]; [|by apply HD].
    intros Hu. apply (HD' x H1 Hn). by apply Hus.
  - congruence.
  - done.
  - destruct r as [c|]; [|done]. destruct Hr as (Hin & Hu & Hmax). split_and!; [done|by apply Hus|].
    intros d Hd. destruct (Hmax d Hd) as [?|Hw]; [by left|right]. by rewrite <-(alike_worse (index s) (index s1)) by (by apply (marked_alike D)).
Qed.

(** One failed round. *)
Lemma search_round s c n t bt f m : search_ok s -> c ∈ setBlockIndexCandidates s -> index s !! t = Some bt ->
  doomed (index s) (chainActive s) t n c -> (n < height_fuel (index s) c)%nat ->
  exists s1, (b ← index s !! c;
     worst ← (if negb f then Some false else match pindexBestInvalid s with
        | None => Some true | Some i => (bi ← index s !! i; Some (gtb (nChainWork b) (nChainWork bi))) end);
     remove_chain (height_fuel (index s) c) (if (worst : bool) then with_best s (pindexBestHeader s) (Some c) else s) t c f m) = Some s1 /\
  let s2 := with_candidates s1 (setBlockIndexCandidates s1 ∖ {[t]}) in let D := fun x => ~ usable (index s) (chainActive s) x in
  marked D (index s) (index s2) /\ setBlockIndexCandidates s2 ⊆ setBlockIndexCandidates s /\ (c ∉ setBlockIndexCandidates s2) /\
  (forall x, x ∈ setBlockIndexCandidates s -> x ∉ setBlockIndexCandidates s2 -> D x) /\ chainActive s2 = chainActive s /\ search_ok s2.
Proof.
  intros Hok Hc Ht Hd Hn. destruct (f_candidates _ Hok c Hc) as (b & Hb & _). rewrite Hb. cbn [mbind option_bind].
  assert (Hw : exists w, (if negb f then Some false else match pindexBestInvalid s with
        | None => Some true | Some i => (bi ← index s !! i; Some (gtb (nChainWork b) (nChainWork bi))) end) = Some w).
  { destruct (negb f); [by eexists|]. destruct (pindexBestInvalid s) as [i|] eqn:Hi; [|by eexists].
    destruct (f_invalid _ Hok i Hi) as [bi ->]. by eexists. }
  destruct Hw as (w & ->). cbn [mbind option_bind]. set (s0 := if w then _ else s).
  assert (H0 : index s0 = index s /\ setBlockIndexCandidates s0 = setBlockIndexCandidates s /\ chainActive s0 = chainActive s) by (by destruct w).
  destruct H0 as (Hi0 & Hc0 & Hv0).
  assert (Hinv : forall i, pindexBestInvalid s0 = Some i -> pindexBestInvalid s = Some i \/ is_Some (index s !! i)).
  { intros i. subst s0. destruct w; cbn; [intros [= <-]; right; by eexists|by left]. }
  destruct (remove_chain_spec (fun x => ~ usable (index s) (chainActive s) x) t f m n (height_fuel (index s) c) s0 c)
    as (s1 & R & Hrun & Hm & Hcd & HR & HcR & Hv & Hi); [rewrite Hi0; by apply doomed_descends|lia|].
  exists s1. split; [done|]. cbn. rewrite Hi0 in Hm. rewrite Hcd, Hc0, Hv, Hv0.
  assert (Hsub : setBlockIndexCandidates s ∖ R ∖ {[t]} ⊆ setBlockIndexCandidates s) by (intros x [[? _]%elem_of_difference _]%elem_of_difference; done).
  split; [done|]. split; [done|]. split; [|split; [|split; [done|]]].
  - intros [[_ HnR]%elem_of_difference Hnt]%elem_of_difference. destruct HcR as [->|?]; [|done]. apply Hnt. by apply elem_of_singleton.
  - intros x Hx Hnx. destruct (decide (x ∈ R)) as [HxR|HxR]; [by apply HR|]. destruct (decide (x = t)) as [->|Hxt].
    + destruct (doomed_bad _ _ _ _ _ Hd) as (bt' & Hbt' & Hbad). apply (doomed_not_usable _ _ t 0). 
      clear - Hd. induction Hd; [by apply (doomed_here _ _ _ b)|done].
    + destruct Hnx. apply elem_of_difference. split; [by apply elem_of_difference|by rewrite elem_of_singleton].
  - apply (alike_search s); cbn; [by apply (marked_alike (fun x => ~ usable (index s) (chainActive s) x))|done|by rewrite Hi|done].
Qed.

Lemma find_loop_spec fuel : forall s, search_ok s -> (size (setBlockIndexCandidates s) <= fuel)%nat ->
  exists r s', find_loop fuel s = Some (r, s') /\ search_result s r s'.
Proof.
  induction fuel as [|fuel IH]; intros s Hok Hf.
  - assert (He : setBlockIndexCandidates s = ∅) by (apply leibniz_equiv, size_empty_iff; lia). exists None, s. cbn [find_loop]. rewrite He.
    split; [done|]. split_and!; try done; apply marked_refl.
  - pose proof (rbegin_spec (index s) (setBlockIndexCandidates s) (f_work _ Hok)) as Hrb. cbn [find_loop].
    destruct (rbegin (index s) (setBlockIndexCandidates s)) as [c|].
    2: { exists None, s. specialize (Hrb (fun p Hp => let '(ex_intro _ b (conj Hb _)) := f_candidates _ Hok p Hp in ex_intro _ b Hb)).
         split; [done|]. split_and!; try done; apply marked_refl. }
    destruct Hrb as [Hc Hmax]. { intros p Hp. destruct (f_candidates _ Hok p Hp) as (b & Hb & _). by eexists. }
    pose proof (f_candidates _ Hok c Hc) as Hl. pose proof Hl as (b & Hb & _).
    assert (Hh : height_fuel (index s) c = S (Z.to_nat (nHeight b))) by (unfold height_fuel; by rewrite Hb).
    destruct (scan_path_spec (index s) (chainActive s) (f_tree _ Hok) (f_closed _ Hok) (height_fuel (index s) c) c b Hb Hl ltac:(lia))
      as [[-> Hu]|(n & t & bt & f & m & -> & Hd & Ht & Hff & Hmm & Hn)]; cbn [mbind option_bind].
    + exists (Some c), s. split; [done|]. split_and!; try done; apply marked_refl.
    + destruct (search_round s c n t bt f m Hok Hc Ht Hd ltac:(lia)) as (s1 & Hrun & Hm & Hsub & Hnc & HD & Hv & Hok2).
      rewrite Hb in *. cbn [mbind option_bind] in *. destruct (if negb f then _ else _) as [w|]; [|done]. cbn [mbind option_bind] in *.
      assert (Hhf : forall w : bool, height_fuel (index (if w then with_best s (pindexBestHeader s) (Some c) else s)) c = height_fuel (index s) c) by (by intros []).
      rewrite Hhf, Hrun. cbn [mbind option_bind]. set (s2 := with_candidates s1 _) in *.
      assert (Hlt : (size (setBlockIndexCandidates s2) < size (setBlockIndexCandidates s))%nat).
      { apply subset_size. split; [done|]. intros Hx. by apply Hnc, Hx. }
      destruct (IH s2 Hok2 ltac:(lia)) as (r & s' & Hrest & Hres). exists r, s'. split; [done|]. by apply (search_step s s2).
Qed.

(** ** Theorems *)

Definition empty_state : chainstate := mkState ∅ ∅ [] ∅ [] None None ∅ 1 (-1) (of_u64 0).

(** Headers and blocks arrive in any order; the address of a new entry is
    fresh. *)
Inductive arrives (M : Z) : chainstate -> chainstate -> Prop :=
| arrives_header s s' block hash p q : index s !! p = None -> hd_hashPrevBlock block <> hash -> 0 <= hd_nBits block < 2 ^ 32 ->
    (forall x b, index s !! x = Some b -> (nHeight b + 2) * M < 2 ^ 32) ->
    AddToBlockIndex s block hash p = Some (q, s') -> arrives M s s'
| arrives_block s s' p b ntx file pos : index s !! p = Some b -> nTx b = 0 -> 0 < ntx <= M ->
    (forall q bq, pprev b = Some q -> index s !! q = Some bq -> nChainTx bq = 0 -> IsValid bq BLOCK_VALID_TREE = Some true) ->
    ReceivedBlockTransactions s p ntx file pos = Some s' -> arrives M s s'.

Lemma empty_ok M : chain_ok M empty_state.
Proof.
  split.
  - unfold index_ok, map_ok. split_and!; [intros p b H|intros p b q bq H|intros p b H|intros p b H|intros p b H]; unfold empty_state in H; cbn [index mapBlockIndex] in H; by rewrite lookup_empty in H.
  - done.
  - intros p b H. unfold empty_state in H. cbn [index] in H. by rewrite lookup_empty in H.
  - split; cbn; try (by intros ? (? & H & _)); try (by intros ? ? (? & H & _)); try (intros ? ? H; by apply elem_of_nil in H).
    + intros ? H. by apply elem_of_nil in H.
    + constructor.
  - intros t. done.
Qed.

Lemma arrives_ok M s s' : 0 <= M < 2 ^ 32 -> chain_ok M s -> arrives M s s' -> chain_ok M s'.
Proof.
  intros HM Hok Ha. revert Hok. destruct Ha as [s s' block hash p q Hp Hprev Hbits Hht Hrun|s s' p b ntx file pos Hp Hb Hn Hpar Hrun]; intros Hok.
  - destruct (mapBlockIndex s !! hash) as [x|] eqn:Hx; [unfold AddToBlockIndex in Hrun; rewrite Hx in Hrun; by simplify_eq|].
    destruct (Add_ok M s block hash p Hok Hp Hx Hprev Hbits ltac:(lia) ltac:(lia) Hht) as (s2 & ? & Hrun2 & ? & _).
    congruence.
  - destruct (Received_ok M s p b ntx file pos Hok Hp Hb Hn Hpar) as (s2 & Hrun2 & ? & _). congruence.
Qed.

Lemma reached_ok M s : 0 <= M < 2 ^ 32 -> rtc (arrives M) empty_state s -> chain_ok M s.
Proof.
  intros HM Hr. remember empty_state as s0 eqn:E0. assert (H0 : chain_ok M s0) by (subst; apply empty_ok). clear E0.
  induction Hr as [|s1 s2 s3 Hstep Hr IH]; [done|]. by apply IH, (arrives_ok M s1).
Qed.

(** C28: whatever the order in which headers and blocks arrive, the block index
    stays a tree with skip pointers and accumulated work, [mapBlockIndex] finds
    every entry by its hash, [pindexBestHeader] has the most work, and
    [nChainTx] is set for exactly the blocks all of whose ancestors have
    arrived. *)
Theorem index_invariant M s : 0 <= M < 2 ^ 32 -> rtc (arrives M) empty_state s ->
  index_ok s /\ best_header s /\ forall p, linked (index s) p <-> complete (index s) p.
Proof.
  intros HM Hr. pose proof (reached_ok M s HM Hr) as Hok.
  split_and!; [apply (c_index _ _ Hok)|apply (c_header _ _ Hok)|]. intros p. apply linked_complete; [apply (c_index _ _ Hok)|apply (c_queue _ _ Hok)].
Qed.

(** Storing the transactions of a block that arrives for the first time
    links exactly the blocks whose ancestors are now all there: the block, and
    the descendants that were waiting for it; each of them becomes a candidate
    for the tip unless the tip is better. *)
Theorem ReceivedBlockTransactions_links M s p b ntx file pos : chain_ok M s -> index s !! p = Some b -> nTx b = 0 -> 0 < ntx <= M ->
  (forall q bq, pprev b = Some q -> index s !! q = Some bq -> nChainTx bq = 0 -> IsValid bq BLOCK_VALID_TREE = Some true) ->
  exists s', ReceivedBlockTransactions s p ntx file pos = Some s' /\ chain_ok M s' /\
    (forall x, received (index s') x <-> x = p \/ received (index s) x) /\
    (forall x, linked (index s') x <-> complete (index s') x) /\
    (forall x, complete (index s') x -> ~ complete (index s) x ->
      (forall t, Tip (chainActive s) = Some t -> worse (index s') x t = false) -> x ∈ setBlockIndexCandidates s').
Proof.
  intros Hok Hp Hb Hn Hpar. destruct (Received_ok M s p b ntx file pos Hok Hp Hb Hn Hpar) as (s' & Hrun & Hok' & Hr & _ & _ & Hnew).
  assert (Hl : forall x, linked (index s') x <-> complete (index s') x) by (intros x; apply linked_complete; apply Hok').
  exists s'. split_and!; try done. intros x Hx Hnx. apply Hnew; [by apply Hl|].
  rewrite (linked_complete s x); [done|apply Hok|apply Hok].
Qed.

(** [FindMostWorkChain] ends; it returns a candidate whose chain has no
    failed block and no missing data down to the active chain, better than
    every other such candidate, and it returns no block only if there is no
    such candidate.  It drops and marks only blocks of chains that cannot be
    used. *)
Theorem FindMostWorkChain_best s : search_ok s ->
  exists r s', FindMostWorkChain s = Some (r, s') /\ search_ok s' /\ chainActive s' = chainActive s /\
    (forall x, usable (index s') (chainActive s') x <-> usable (index s) (chainActive s) x) /\
    (forall x, x ∈ setBlockIndexCandidates s -> usable (index s) (chainActive s) x -> x ∈ setBlockIndexCandidates s') /\
    match r with
    | Some c => c ∈ setBlockIndexCandidates s /\ usable (index s) (chainActive s) c /\
        forall d, d ∈ setBlockIndexCandidates s -> usable (index s) (chainActive s) d -> d = c \/ worse (index s) d c = true
    | None => setBlockIndexCandidates s' = ∅ /\ forall d, d ∈ setBlockIndexCandidates s -> ~ usable (index s) (chainActive s) d
    end.
Proof.
  intros Hok. destruct (find_loop_spec _ s Hok (le_n _)) as (r & s' & Hrun & Hm & Hsub & HD & Hv & Hok' & Hr). exists r, s'.
  assert (Hkeep : forall x, x ∈ setBlockIndexCandidates s -> usable (index s) (chainActive s) x -> x ∈ setBlockIndexCandidates s').
  { intros x Hx Hu. destruct (decide (x ∈ setBlockIndexCandidates s')) as [?|Hn]; [done|]. by destruct (HD x Hx Hn). }
  split_and!; try done; [intros x; rewrite Hv; by apply (marked_usable _ _ _ _ _ Hm)|].
  destruct r as [c|].
  - destruct Hr as (Hc & Hu & Hmax). split_and!; [by apply Hsub|done|]. intros d Hd Hud. by apply Hmax, Hkeep.
  - split; [done|]. intros d Hd Hu. specialize (Hkeep d Hd Hu). rewrite Hr in Hkeep. by apply elem_of_empty in Hkeep.
Qed.

(** Three blocks on a chain: the headers come first, then the bodies, the
    oldest last. *)
Definition ex_header (prev : list Z) (time : Z) : CBlockHeader := mkHeader 1 prev [] time 0x207fffff 0.
Definition ex_add (s : chainstate) (prev hash : list Z) (p : nat) : chainstate :=
  match AddToBlockIndex s (ex_header prev (Z.of_nat p)) hash p with Some (_, s') => s' | None => s end.
Definition ex_body (s : chainstate) (p : nat) : chainstate :=
  match ReceivedBlockTransactions s p 1 0 0 with Some s' => s' | None => s end.
Definition ex_headers : chainstate := ex_add (ex_add (ex_add empty_state [0] [1] 0) [1] [2] 1) [2] [3] 2.
Definition ex_waiting : chainstate := ex_body (ex_body ex_headers 2) 1.
Definition ex_linked : chainstate := ex_body ex_waiting 0.

Lemma ex_heights s M : forallb (fun x => (nHeight x.2 + 2) * M <? 2 ^ 32) (map_to_list (index s)) = true ->
  forall x b, index s !! x = Some b -> (nHeight b + 2) * M < 2 ^ 32.
Proof.
  intros Hf x b Hx. apply elem_of_map_to_list in Hx. apply list_elem_of_In in Hx. rewrite forallb_forall in Hf.
  apply Z.ltb_lt. exact (Hf _ Hx).
Qed.

Lemma ex_add_arrives s prev hash p : bool_decide (index s !! p = None) && bool_decide (prev <> hash) &&
  forallb (fun x => (nHeight x.2 + 2) * 1000 <? 2 ^ 32) (map_to_list (index s)) &&
  bool_decide (is_Some (AddToBlockIndex s (ex_header prev (Z.of_nat p)) hash p)) = true -> arrives 1000 s (ex_add s prev hash p).
Proof.
  unfold ex_add. destruct (AddToBlockIndex s _ hash p) as [[q s']|] eqn:Hrun; [|by rewrite andb_false_r].
  intros [[[Hp%bool_decide_eq_true_1 Hne%bool_decide_eq_true_1]%andb_prop Hh]%andb_prop _]%andb_prop.
  apply (arrives_header 1000 s s' (ex_header prev (Z.of_nat p)) hash p q); try done. by apply ex_heights.
Qed.

Lemma ex_body_arrives s p : 
  match index s !! p with
  | Some b => (nTx b =? 0) && match pprev b ≫= (index s !!.) with Some bq => bool_decide (IsValid bq BLOCK_VALID_TREE = Some true) | None => true end
  | None => false
  end && bool_decide (is_Some (ReceivedBlockTransactions s p 1 0 0)) = true -> arrives 1000 s (ex_body s p).
Proof.
  unfold ex_body. destruct (ReceivedBlockTransactions s p 1 0 0) as [s'|] eqn:Hrun; [|by rewrite andb_false_r].
  destruct (index s !! p) as [b|] eqn:Hp; [|done]. intros [[Hb%Z.eqb_eq Hv]%andb_prop _]%andb_prop.
  apply (arrives_block 1000 s s' p b 1 0 0); try done. intros q bq Hq Hbq _. rewrite Hq in Hv. cbn in Hv. rewrite Hbq in Hv.
  by apply bool_decide_eq_true_1 in Hv.
Qed.

Lemma ex_waiting_reached : rtc (arrives 1000) empty_state ex_waiting.
Proof.
  apply (rtc_r _ (ex_body ex_headers 2)); [|apply (ex_body_arrives (ex_body ex_headers 2) 1); vm_compute; reflexivity].
  apply (rtc_r _ ex_headers); [|apply (ex_body_arrives ex_headers 2); vm_compute; reflexivity].
  apply (rtc_r _ (ex_add (ex_add empty_state [0] [1] 0) [1] [2] 1)); [|apply (ex_add_arrives _ [2] [3] 2); vm_compute; reflexivity].
  apply (rtc_r _ (ex_add empty_state [0] [1] 0)); [|apply (ex_add_arrives _ [1] [2] 1); vm_compute; reflexivity].
  apply (rtc_r _ empty_state); [apply rtc_refl|apply (ex_add_arrives _ [0] [1] 0); vm_compute; reflexivity].
Qed.

Lemma ex_linked_arrives : arrives 1000 ex_waiting ex_linked.
Proof. apply (ex_body_arrives ex_waiting 0). vm_compute. reflexivity. Qed.

Lemma index_invariant_witness : linked (index ex_linked) 2 <-> complete (index ex_linked) 2.
Proof.
  apply (index_invariant 1000); [lia|]. apply (rtc_r _ ex_waiting); [apply ex_waiting_reached|apply ex_linked_arrives].
Defined.

Lemma ReceivedBlockTransactions_links_witness : exists s', ReceivedBlockTransactions ex_waiting 0 1 0 0 = Some s' /\ chain_ok 1000 s' /\
  forall x, linked (index s') x <-> complete (index s') x.
Proof.
  destruct (index ex_waiting !! 0%nat) as [b|] eqn:Hb; [|vm_compute in Hb; discriminate].
  assert (Hv : nTx b = 0 /\ pprev b = None) by (vm_compute in Hb; injection Hb as <-; done). destruct Hv as [Ht Hq].
  destruct (ReceivedBlockTransactions_links 1000 ex_waiting 0 b 1 0 0) as (s' & H1 & H2 & _ & H3 & _);
    [apply reached_ok; [lia|exact ex_waiting_reached]|exact Hb|exact Ht|lia|congruence|].
  exists s'. exact (conj H1 (conj H2 H3)).
Defined.

(** The search on the three linked blocks, the second of which has failed. *)
Definition ex_failed : chainstate := default ex_linked (raise_flag ex_linked 1 BLOCK_FAILED_VALID).

Lemma chain_search M s : chain_ok M s -> (forall x, x ∈ setBlockIndexCandidates s -> linked (index s) x) -> pindexBestInvalid s = None -> search_ok s.
Proof.
  intros Hok Hc Hi. destruct (c_index _ _ Hok) as (Hwf & _ & Hwk & _). split; [done| |apply (q_closed _ _ (c_queue _ _ Hok))|done|congruence].
  intros p b Hp. by destruct (Hwk p b Hp).
Qed.

Lemma raise_flag_search s s' p flag : raise_flag s p flag = Some s' -> search_ok s -> search_ok s'.
Proof.
  unfold raise_flag. destruct (index s !! p) as [b|] eqn:Hp; [|done]. cbn [mbind option_bind]. intros [= <-]. apply alike_search; [|done|auto].
  by apply (alike_insert _ _ b).
Qed.

Lemma linked_set T (c : gset nat) : forallb (fun x => bool_decide (linked T x)) (elements c) = true -> forall x, x ∈ c -> linked T x.
Proof.
  intros Hf x Hx. rewrite forallb_forall in Hf. apply (bool_decide_eq_true_1 (linked T x)), Hf.
  by apply list_elem_of_In, elem_of_elements.
Qed.

Lemma ex_linked_search : search_ok ex_linked.
Proof.
  apply (chain_search 1000); [|apply linked_set; vm_compute; reflexivity|vm_compute; reflexivity].
  apply reached_ok; [lia|]. apply (rtc_r _ ex_waiting); [exact ex_waiting_reached|exact ex_linked_arrives].
Qed.

Lemma ex_failed_search : search_ok ex_failed.
Proof.
  destruct (raise_flag ex_linked 1 BLOCK_FAILED_VALID) as [s'|] eqn:Hr; [|vm_compute in Hr; discriminate].
  unfold ex_failed. rewrite Hr. apply (raise_flag_search _ _ _ _ Hr), ex_linked_search.
Qed.

Lemma FindMostWorkChain_best_witness : exists s', FindMostWorkChain ex_failed = Some (Some 0%nat, s') /\
  usable (index ex_failed) (chainActive ex_failed) 0 /\ ~ usable (index ex_failed) (chainActive ex_failed) 2.
Proof.
  destruct (FindMostWorkChain_best ex_failed ex_failed_search) as (r & s' & Hrun & _ & _ & _ & Hk & Hr).
  assert (He : fmap fst (FindMostWorkChain ex_failed) = Some (Some 0%nat)) by (vm_compute; reflexivity).
  rewrite Hrun in He. cbn in He. injection He as ->. destruct Hr as (_ & Hu & Hmax). exists s'. split; [exact Hrun|split; [exact Hu|]].
  intros H2. assert (Hin : 2%nat ∈ setBlockIndexCandidates ex_failed) by (apply (bool_decide_eq_true_1 (2%nat ∈ setBlockIndexCandidates ex_failed)); vm_compute; reflexivity).
  destruct (Hmax 2%nat Hin H2) as [H|H]; [discriminate|]. vm_compute in H. discriminate.
Defined.

End BlockTree.
