(* ===== verification/Activation.v ===== *)
(** * Activating the best chain (validation.cpp)

    [ConnectTip], [DisconnectTip], [ActivateBestChainStep] and
    [ActivateBestChain] on the state of [BlockTree], and the operations that
    mark blocks by hand: [InvalidateBlock], [ReconsiderBlock],
    [PreciousBlock].

    What [ConnectBlock] and [DisconnectBlock] decide about a block, which
    needs its data on disk, whether the state can be written, and the answers of
    [ShutdownRequested], are the operations of a type class; what [ConnectBlock] does to the block's entry
    is modelled.  The memory pool, the warnings and the notifications are left
    out.  [None] is a failed assertion or a null dereference, as in
    [BlockTree]. *)

From stdpp Require Import base list gmap numbers option.
From Stdlib Require Import ZArith Lia.
From S2P Require Import Prelude ArithUint256 Chain BlockTree.

Local Open Scope Z_scope.

Module Activation.
Import Arith256 Chain BlockTree.

(** What [ConnectBlock] reports in [CValidationState]: success, a rule that
    is violated (with [CorruptionPossible]), or a system error. *)
Inductive verdict : Type := Accepted | Rejected (corruptionPossible : bool) | SystemError.
#[export] Instance verdict_eq_dec : EqDecision verdict.
Proof. solve_decision. Defined.

(** [connects] is the verdict of [ConnectBlock], [flushes] the result of
    [FlushStateToDisk] after a block, [flushes_periodic] the one at the end of
    [ActivateBestChain], [ShutdownRequested n] the answer in round [n] of its loop. *)
Class BlockChecks : Type := {
  connects : nat -> verdict;
  disconnects : nat -> bool;
  flushes : nat -> bool;
  undo_position : nat -> Z;
  ShutdownRequested : nat -> bool;
  flushes_periodic : bool
}.

Section Checks.
Context {BC : BlockChecks}.

(** ** Connecting and disconnecting the tip *)

(** The end of [ConnectBlock]: the entry of a block whose undo data is
    written, and whether it has changed; the genesis block has none. *)
Definition store_undo (b : CBlockIndex) (nPos : Z) : option (CBlockIndex * bool) :=
  match pprev b with
  | None => Some (b, false)
  | Some _ =>
      let missing := Z.land (nStatus b) BLOCK_HAVE_UNDO =? 0 in
      valid ← IsValid b BLOCK_VALID_SCRIPTS;
      if missing || negb valid then
        let b := if missing then set_status (set_data b (nTx b) (nFile b) (nDataPos b) nPos) (Z.lor (nStatus b) BLOCK_HAVE_UNDO) else b in
        r ← RaiseValidity b BLOCK_VALID_SCRIPTS; Some (fst r, true)
      else Some (b, false)
  end.
Definition with_entry (s : chainstate) (p : nat) (b : CBlockIndex) (dirty : bool) : chainstate :=
  let s := with_index s (<[p := b]> (index s)) in if dirty then mark_dirty s p else s.

Definition UpdateTip (s : chainstate) (p : nat) : option chainstate :=
  v ← SetTip (index s) (chainActive s) (Some p); Some (with_chain s v).

Definition ConnectTip (s : chainstate) (p : nat) : option (verdict * chainstate) :=
  b ← index s !! p;
  if negb (bool_decide (pprev b = Tip (chainActive s))) then None
  else
    match connects p with
    | SystemError => Some (SystemError, s)
    | Rejected c => s ← InvalidBlockFound s p c; Some (Rejected c, s)
    | Accepted =>
        r ← store_undo b (undo_position p);
        let s := with_entry s p (fst r) (snd r) in
        if flushes p then s ← UpdateTip s p; Some (Accepted, s) else Some (SystemError, s)
    end.

Definition DisconnectTip (s : chainstate) : option (bool * chainstate) :=
  p ← Tip (chainActive s);
  b ← index s !! p;
  if disconnects p then q ← pprev b; s ← UpdateTip s q; Some (true, s) else Some (false, s).

(** ** [ActivateBestChainStep] *)

(** [while (chainActive.Tip() && chainActive.Tip() != pindexFork)] *)
Fixpoint disconnect_loop (fuel : nat) (s : chainstate) (pindexFork : option nat) : option (bool * chainstate) :=
  match Tip (chainActive s) with
  | None => Some (true, s)
  | Some t =>
      if bool_decide (Some t = pindexFork) then Some (true, s)
      else
        match fuel with
        | O => None
        | S fuel =>
            r ← DisconnectTip s;
            let '(ok, s) := r in
            if (ok : bool) then disconnect_loop fuel s pindexFork else Some (false, s)
        end
  end.

(** [while (pindexIter && pindexIter->nHeight != nHeight)]: the blocks pushed to
    [vpindexToConnect], the last one first. *)
Fixpoint collect (fuel : nat) (T : store) (pindexIter : option nat) (nHeight0 : Z) (acc : list nat) : option (list nat) :=
  match pindexIter with
  | None => Some acc
  | Some p =>
      b ← T !! p;
      if nHeight b =? nHeight0 then Some acc
      else match fuel with O => None | S fuel => collect fuel T (pprev b) nHeight0 (p :: acc) end
  end.

(** How a pass over [vpindexToConnect] ends: all connected, stopped at a
    better tip, stopped at an invalid block, or a system error. *)
Inductive pass : Type := AllConnected | BetterTip | InvalidFound | Failed.

(** [BOOST_REVERSE_FOREACH]: the list is in the order of connection, [back] is
    [vpindexToConnect.back()]. *)
Fixpoint connect_list (s : chainstate) (pindexOldTip : option nat) (back : nat) (l : list nat) : option (pass * chainstate) :=
  match l with
  | [] => Some (AllConnected, s)
  | p :: l =>
      r ← ConnectTip s p;
      match r with
      | (SystemError, s) => Some (Failed, s)
      | (Rejected c, s) =>
          s ← (if c then Some s else InvalidChainFound s back);
          Some (InvalidFound, s)
      | (Accepted, s) =>
          s ← PruneBlockIndexCandidates s;
          t ← Tip (chainActive s);
          bt ← index s !! t;
          better ← (match pindexOldTip with
                    | None => Some true
                    | Some o => bo ← index s !! o; Some (gtb (nChainWork bt) (nChainWork bo))
                    end);
          if (better : bool) then Some (BetterTip, s) else connect_list s pindexOldTip back l
      end
  end.

(** [while (fContinue && nHeight != pindexMostWork->nHeight)], 32 blocks at a
    time. *)
Fixpoint connect_loop (fuel : nat) (s : chainstate) (pindexOldTip : option nat) (pindexMostWork : nat) (nHeight0 : Z)
    : option (pass * chainstate) :=
  bm ← index s !! pindexMostWork;
  if nHeight0 =? nHeight bm then Some (AllConnected, s)
  else
    match fuel with
    | O => None
    | S fuel =>
        let nTargetHeight := Z.min (nHeight0 + 32) (nHeight bm) in
        pindexIter ← GetAncestor (index s) pindexMostWork nTargetHeight;
        l ← collect (Z.to_nat (nTargetHeight + 1)) (index s) pindexIter nHeight0 [];
        r ← connect_list s pindexOldTip (default 0%nat (head l)) l;
        match r with
        | (AllConnected, s) => connect_loop fuel s pindexOldTip pindexMostWork nTargetHeight
        | r => Some r
        end
    end.

(** The result, [fInvalidFound] and the state. *)
Definition ActivateBestChainStep (s : chainstate) (pindexMostWork : nat) : option (bool * bool * chainstate) :=
  let pindexOldTip := Tip (chainActive s) in
  pindexFork ← FindFork (index s) (chainActive s) (Some pindexMostWork);
  d ← disconnect_loop (length (chainActive s)) s pindexFork;
  match d with
  | (false, s) => Some (false, false, s)
  | (true, s) =>
      nHeight0 ← (match pindexFork with Some f => bf ← index s !! f; Some (nHeight bf) | None => Some (-1) end);
      bm ← index s !! pindexMostWork;
      r ← connect_loop (Z.to_nat (nHeight bm + 1)) s pindexOldTip pindexMostWork nHeight0;
      match r with
      | (Failed, s) => Some (false, false, s)
      | (InvalidFound, s) => Some (true, true, s)
      | (_, s) => Some (true, false, s)
      end
  end.

(** ** [ActivateBestChain] *)

(** How the loop ends: by a [return], by the [break] for a shutdown, or because
    its condition is false. *)
Inductive loop_end : Type := Returned (ok : bool) | Broken | Finished.

(** The [do ... while (pindexNewTip != pindexMostWork)] loop, from round [n] on. *)
Fixpoint activate_loop (fuel n : nat) (s : chainstate) (pindexMostWork : option nat) : option (loop_end * chainstate) :=
  match fuel with
  | O => None
  | S fuel =>
      if ShutdownRequested n then Some (Broken, s) else
      r ← (match pindexMostWork with None => FindMostWorkChain s | Some m => Some (Some m, s) end);
      let '(pindexMostWork, s) := r in
      match pindexMostWork with
      | None => Some (Returned true, s)
      | Some m =>
          if bool_decide (Some m = Tip (chainActive s)) then Some (Returned true, s)
          else
            step ← ActivateBestChainStep s m;
            let '(ok, fInvalidFound, s) := step in
            if negb ok then Some (Returned false, s)
            else
              let pindexMostWork := if (fInvalidFound : bool) then None else Some m in
              if bool_decide (Tip (chainActive s) = pindexMostWork) then Some (Finished, s)
              else activate_loop fuel (S n) s pindexMostWork
      end
  end.

(** A bound on the rounds: one per height for every block that is not bad. *)
Definition top_height (T : store) : Z := map_fold (fun _ b h => Z.max (nHeight b) h) 0 T.
Definition good_set (T : store) : gset nat := dom (filter (fun x => bad x.2 = false) T).
Definition good_count (T : store) : nat := size (good_set T).
Definition activation_fuel (T : store) : nat := S (good_count T) * (Z.to_nat (top_height T) + 3).

Definition ActivateBestChain (s : chainstate) : option (bool * chainstate) :=
  r ← activate_loop (activation_fuel (index s)) 0 s None;
  match r with
  | (Returned ok, s) => Some (ok, s)
  | (_, s) => Some (flushes_periodic, s)
  end.

(** ** Marking blocks by hand *)

(** The pointers of [mapBlockIndex]. *)
Definition all_blocks (s : chainstate) : list nat := map snd (map_to_list (mapBlockIndex s)).

(** [IsValid(BLOCK_VALID_TRANSACTIONS) && nChainTx] *)
Definition connectable (T : store) (p : nat) : bool :=
  match T !! p with
  | Some b => bool_decide (IsValid b BLOCK_VALID_TRANSACTIONS = Some true) && negb (nChainTx b =? 0)
  | None => false
  end.

(** [if (p == pindexBestHeader) { pindexBestInvalid = pindexBestHeader;
    pindexBestHeader = pindexBestHeader->pprev; }] *)
Definition lower_header (s : chainstate) (p : nat) : option chainstate :=
  if bool_decide (Some p = pindexBestHeader s) then b ← index s !! p; Some (with_best s (pprev b) (Some p)) else Some s.

(** [pindex->nStatus |= flag; setDirtyBlockIndex.insert(pindex);
    setBlockIndexCandidates.erase(pindex)] *)
Definition fail_block (s : chainstate) (p : nat) (flag : Z) : option chainstate :=
  s ← raise_flag s p flag;
  let s := mark_dirty s p in
  Some (with_candidates s (setBlockIndexCandidates s ∖ {[p]})).

(** [while (chainActive.Contains(pindex))] of [InvalidateBlock] *)
Fixpoint invalidate_loop (fuel : nat) (s : chainstate) (pindex : nat) : option (bool * chainstate) :=
  active ← Contains (index s) (chainActive s) pindex;
  if negb active then Some (true, s)
  else
    match fuel with
    | O => None
    | S fuel =>
        pindexWalk ← Tip (chainActive s);
        s ← fail_block s pindexWalk BLOCK_FAILED_CHILD;
        r ← DisconnectTip s;
        let '(ok, s) := r in
        if negb ok then Some (false, s)
        else s ← lower_header s pindexWalk; invalidate_loop fuel s pindex
    end.

Definition InvalidateBlock (s : chainstate) (pindex : nat) : option (bool * chainstate) :=
  s ← fail_block s pindex BLOCK_FAILED_VALID;
  s ← lower_header s pindex;
  r ← invalidate_loop (length (chainActive s)) s pindex;
  let '(ok, s) := r in
  if negb ok then Some (false, s)
  else
    t ← Tip (chainActive s);
    let again := filter (fun p => connectable (index s) p && negb (worse (index s) p t) = true) (all_blocks s) in
    s ← InvalidChainFound (with_candidates s (setBlockIndexCandidates s ∪ list_to_set again)) pindex;
    Some (true, s).

(** [pindex->nStatus &= ~BLOCK_FAILED_MASK; setDirtyBlockIndex.insert(pindex)] *)
Definition clear_failed (b : CBlockIndex) : CBlockIndex := set_status b (Z.land (nStatus b) (u32 (Z.lnot BLOCK_FAILED_MASK))).
Definition clear_block (s : chainstate) (p : nat) : option chainstate :=
  b ← index s !! p; Some (mark_dirty (with_index s (<[p := clear_failed b]> (index s))) p).

(** The body of the loop over [mapBlockIndex] in [ReconsiderBlock]. *)
Definition reconsider_one (s : chainstate) (pindex : nat) (height : Z) (p : nat) : option chainstate :=
  b ← index s !! p;
  valid ← IsValid b BLOCK_VALID_TRANSACTIONS;
  a ← GetAncestor (index s) p height;
  if negb valid && bool_decide (a = Some pindex) then
    s ← clear_block s p;
    better ← (if connectable (index s) p then t ← Tip (chainActive s); Some (worse (index s) t p) else Some false);
    let s := if (better : bool) then with_candidates s ({[p]} ∪ setBlockIndexCandidates s) else s in
    Some (if bool_decide (Some p = pindexBestInvalid s) then with_best s (pindexBestHeader s) None else s)
  else Some s.
Fixpoint reconsider_all (s : chainstate) (pindex : nat) (height : Z) (l : list nat) : option chainstate :=
  match l with
  | [] => Some s
  | p :: l => s ← reconsider_one s pindex height p; reconsider_all s pindex height l
  end.

(** [while (pindex != NULL)]: the flags of the ancestors. *)
Fixpoint clear_ancestors (fuel : nat) (s : chainstate) (pindex : option nat) : option chainstate :=
  match pindex with
  | None => Some s
  | Some p =>
      match fuel with
      | O => None
      | S fuel =>
          b ← index s !! p;
          s ← (if negb (Z.land (nStatus b) BLOCK_FAILED_MASK =? 0) then clear_block s p else Some s);
          clear_ancestors fuel s (pprev b)
      end
  end.

Definition ReconsiderBlock (s : chainstate) (pindex : nat) : option chainstate :=
  b ← index s !! pindex;
  s ← reconsider_all s pindex (nHeight b) (all_blocks s);
  clear_ancestors (Z.to_nat (nHeight b + 1)) s (Some pindex).

(** The same loops, called for blocks to be processed again. *)
Definition ResetBlockFailureFlags (s : chainstate) (pindex : nat) : option chainstate := ReconsiderBlock s pindex.

Definition PreciousBlock (s : chainstate) (pindex : nat) : option (bool * chainstate) :=
  b ← index s !! pindex;
  t ← Tip (chainActive s);
  bt ← index s !! t;
  if ltb (nChainWork b) (nChainWork bt) then Some (true, s)
  else
    let r := if gtb (nChainWork bt) (nLastPreciousChainwork s) then -1 else nBlockReverseSequenceId s in
    let s := with_candidates s (setBlockIndexCandidates s ∖ {[pindex]}) in
    let s := with_index s (<[pindex := set_sequence b r]> (index s)) in
    let s := with_precious s (if - 2 ^ 31 <? r then r - 1 else r) (nChainWork bt) in
    s ← (if connectable (index s) pindex
         then PruneBlockIndexCandidates (with_candidates s ({[pindex]} ∪ setBlockIndexCandidates s)) else Some s);
    ActivateBestChain s.

(** ** The invariant of the activation *)

(** A chain that can be connected: no block of it is marked or misses data, and
    [ConnectBlock] accepts every block. *)
Inductive valid (T : store) : nat -> Prop :=
| valid_intro p b : T !! p = Some b -> bad b = false -> connects p = Accepted -> (forall q, pprev b = Some q -> valid T q) -> valid T p.

(** No disk or database error occurs. *)
Definition no_errors : Prop := (forall p, connects p <> SystemError) /\ (forall p, disconnects p = true) /\ (forall p, flushes p = true) /\
  flushes_periodic = true.

(** [T] is [T0] after some blocks have been marked, none of a valid chain. *)
Definition evolves (T0 T : store) : Prop := alike T0 T /\ forall x b b', T0 !! x = Some b -> T !! x = Some b' ->
  bad b' = bad b \/ (~ valid T0 x /\ bad b' = true).

Lemma evolves_refl T : evolves T T.
Proof. split; [done|]. intros x b b' H1 H2. left. congruence. Qed.

Lemma evolves_update T0 T p b b' : evolves T0 T -> T !! p = Some b -> same_core b b' ->
  bad b' = bad b \/ (~ valid T0 p /\ bad b' = true) -> evolves T0 (<[p := b']> T).
Proof.
  intros [Hal Hb] Hp Hc Hbad. split; [etrans; [exact Hal|by apply (alike_insert _ _ b)]|].
  intros x b0 bx Hx. destruct (decide (p = x)) as [<-|?]; [rewrite lookup_insert_eq; intros [= <-]|rewrite lookup_insert_ne by done; by apply Hb].
  destruct (Hb p b0 b Hx Hp) as [H1|[H1 H2]], Hbad as [H3|[H3 H4]]; [left|right|right|right]; try split; congruence.
Qed.

Lemma valid_usable T0 T v x : evolves T0 T -> valid T0 x -> usable T v x.
Proof.
  intros [Hal Hb]. induction 1 as [p b Hp Hbad Hacc Hq IH]. destruct (alike_lookup _ _ _ _ Hal Hp) as (b' & Hp' & Hc).
  destruct (Contains_some T v p b' Hp') as (c & Hcc). destruct c; [by constructor|]. apply (usable_step _ _ _ b'); [done|done| |].
  - destruct (Hb p b b' Hp Hp') as [?|[Hn _]]; [congruence|]. destruct Hn. by apply (valid_intro _ _ b).
  - destruct Hc as [(-> & _) _]. done.
Qed.

Lemma evolves_marked T0 T T' v : evolves T0 T -> marked (fun x => ~ usable T v x) T T' -> evolves T0 T'.
Proof.
  intros He Hm. pose proof He as [Hal Hb]. split; [etrans; [exact Hal|by apply (marked_alike _ _ _ Hm)]|].
  intros x b b' Hx Hx'. destruct (Hm x) as [E|(Hu & b1 & Hb1 & E)]; [rewrite E in Hx'; eauto|]. right.
  rewrite E in Hx'. injection Hx' as <-. split; [|apply fail_child_bad]. intros Hv. by apply Hu, (valid_usable T0).
Qed.

Lemma valid_parent T x q : valid T x -> parent T x = Some q -> valid T q.
Proof. intros Hv Hq. inversion Hv as [p b Hp _ _ Hpar]; subst. unfold parent in Hq. rewrite Hp in Hq. auto. Qed.

(** [bad] looks at three bits of the status. *)
Lemma bad_bits b : bad b = Z.testbit (nStatus b) 5 || Z.testbit (nStatus b) 6 || negb (Z.testbit (nStatus b) 3).
Proof.
  unfold bad. f_equal; [|by apply (land_pow2_eqb (nStatus b) 3)].
  assert (H : (Z.land (nStatus b) BLOCK_FAILED_MASK =? 0) = (Z.land (nStatus b) (2 ^ 5) =? 0) && (Z.land (nStatus b) (2 ^ 6) =? 0)).
  { unfold BLOCK_FAILED_MASK. rewrite Z.land_lor_distr_r. apply eq_true_iff_eq. rewrite andb_true_iff, !Z.eqb_eq. apply Z.lor_eq_0_iff. }
  rewrite H, !land_pow2_eqb by lia. by destruct (Z.testbit (nStatus b) 5), (Z.testbit (nStatus b) 6).
Qed.

Lemma bad_status b b' : (forall i, In i [3; 5; 6] -> Z.testbit (nStatus b') i = Z.testbit (nStatus b) i) -> bad b' = bad b.
Proof. intros H. by rewrite !bad_bits, !H by (cbn; tauto). Qed.

Lemma RaiseValidity_bad b v : In v [2; 3; 4; 5] -> exists b' ch, RaiseValidity b v = Some (b', ch) /\ same_core b b' /\ bad b' = bad b.
Proof.
  intros Hv. assert (Hm : (Z.land v (Z.lnot BLOCK_VALID_MASK) =? 0) = true) by (destruct Hv as [<-|[<-|[<-|[<-|[]]]]]; done).
  assert (Hbits : forall i, In i [3; 5; 6] -> Z.testbit v i = false).
  { intros i Hi. destruct Hv as [<-|[<-|[<-|[<-|[]]]]], Hi as [<-|[<-|[<-|[]]]]; done. }
  unfold RaiseValidity. rewrite Hm. cbn [negb]. pose proof (same_core_refl b) as Hr. case_match; [by exists b, false|]. case_match; [|by exists b, false].
  eexists _, true. split; [reflexivity|]. split; [by split_and!|]. apply bad_status. intros i Hi. cbn [nStatus set_status].
  rewrite Z.lor_spec, Z.land_spec, Hbits, orb_false_r by done. destruct Hi as [<-|[<-|[<-|[]]]]; apply andb_true_r.
Qed.

Lemma store_undo_spec b n : exists b' d, store_undo b n = Some (b', d) /\ same_core b b' /\ bad b' = bad b.
Proof.
  pose proof (same_core_refl b) as Hr. unfold store_undo. destruct (pprev b); [|by exists b, false]. assert (Hv : exists v, IsValid b BLOCK_VALID_SCRIPTS = Some v).
  { unfold IsValid. change (Z.land BLOCK_VALID_SCRIPTS (Z.lnot BLOCK_VALID_MASK) =? 0) with true. cbn [negb]. case_match; by eexists. }
  destruct Hv as (v & ->). cbn [mbind option_bind]. destruct (_ || negb v); [|by exists b, false].
  set (b1 := if Z.land (nStatus b) BLOCK_HAVE_UNDO =? 0 then _ else b).
  assert (H1 : same_core b b1 /\ bad b1 = bad b).
  { subst b1. case_match; [|split; [apply same_core_refl|done]]. split; [by split_and!|]. apply bad_status. intros i Hi. cbn [nStatus set_status set_data].
    rewrite Z.lor_spec. destruct Hi as [<-|[<-|[<-|[]]]]; apply orb_false_r. }
  destruct (RaiseValidity_bad b1 BLOCK_VALID_SCRIPTS) as (b' & ch & -> & Hc & Hb); [cbn; tauto|]. cbn. exists b', true.
  split; [done|]. destruct H1 as [H1 H1b]. split; [by apply (same_core_trans _ b1)|congruence].
Qed.

Lemma failed_bad b : bad (set_status b (Z.lor (nStatus b) BLOCK_FAILED_VALID)) = true.
Proof. rewrite bad_bits. cbn [nStatus set_status]. rewrite !Z.lor_spec. change (Z.testbit BLOCK_FAILED_VALID 5) with true. by rewrite orb_true_r. Qed.

(** ** Counting the blocks that are not bad *)

Definition bad_grows (T T' : store) : Prop := forall x b b', T !! x = Some b -> T' !! x = Some b' -> bad b = true -> bad b' = true.

Lemma good_dom T x : x ∈ good_set T <-> exists b, T !! x = Some b /\ bad b = false.
Proof. unfold good_set. rewrite elem_of_dom. unfold is_Some. setoid_rewrite map_lookup_filter_Some. cbn. done. Qed.

Lemma good_sub T T' : alike T T' -> bad_grows T T' -> good_set T' ⊆ good_set T.
Proof.
  intros Hal Hb x. rewrite !good_dom. intros (b' & Hx & Hg). destruct (alike_inv _ _ _ _ Hal Hx) as (b & Hxb & _). exists b. split; [done|].
  destruct (bad b) eqn:E; [|done]. by rewrite (Hb x b b' Hxb Hx E) in Hg.
Qed.

Lemma good_count_le T T' : alike T T' -> bad_grows T T' -> (good_count T' <= good_count T)%nat.
Proof. intros Hal Hb. unfold good_count. by apply subseteq_size, good_sub. Qed.

Lemma good_count_lt T T' p b b' : alike T T' -> bad_grows T T' -> T !! p = Some b -> bad b = false -> T' !! p = Some b' -> bad b' = true ->
  (good_count T' < good_count T)%nat.
Proof.
  intros Hal Hb Hp Hg Hp' Hg'. unfold good_count. apply subset_size. split; [by apply good_sub|].
  intros Hs. specialize (Hs p). rewrite !good_dom in Hs. destruct Hs as (x & Hx & Hxg); [by exists b|]. congruence.
Qed.

Lemma bad_grows_update T p b b' : T !! p = Some b -> (bad b = true -> bad b' = true) -> bad_grows T (<[p := b']> T).
Proof.
  intros Hp Hb x c c' Hx. destruct (decide (p = x)) as [<-|?]; [rewrite lookup_insert_eq; intros [= <-]; by simplify_eq|].
  rewrite lookup_insert_ne by done. congruence.
Qed.

Lemma bad_grows_marked D T T' : marked D T T' -> bad_grows T T'.
Proof.
  intros Hm x b b' Hx Hx' Hb. destruct (Hm x) as [E|(_ & c & Hc & E)]; [congruence|]. rewrite E in Hx'. injection Hx' as <-. apply fail_child_bad.
Qed.

Lemma bad_grows_trans T1 T2 T3 : alike T1 T2 -> bad_grows T1 T2 -> bad_grows T2 T3 -> bad_grows T1 T3.
Proof.
  intros Hal H1 H2 x b b' Hx Hx' Hb. destruct (alike_lookup _ _ _ _ Hal Hx) as (c & Hc & _). eauto.
Qed.

(** ** The invariant *)

Section Run.
Context (T0 : store) (root : nat).
Context (Hwf : tree_wf T0) (Hworks : works_ok T0).
Context (Hroot : forall p b, T0 !! p = Some b -> pprev b = None -> p = root).
Context (Hmild : forall p, connects p <> Rejected true).

(** The active chain is the path of the valid tip [t]; [best] is the best tip
    so far, and every valid block that is not worse is still a candidate. *)
Record act_inv (s : chainstate) (t best : nat) : Prop := {
  a_search : search_ok s;
  a_evolves : evolves T0 (index s);
  a_chain : chainActive s = path T0 t;
  a_tip : valid T0 t;
  a_best : valid T0 best /\ linked T0 best /\ best ∈ setBlockIndexCandidates s;
  a_candidates : forall x, valid T0 x -> linked T0 x -> worse T0 x best = false -> x ∈ setBlockIndexCandidates s
}.

Lemma valid_lookup T x : valid T x -> exists b, T !! x = Some b /\ bad b = false.
Proof. intros Hv. inversion Hv. eauto. Qed.

Lemma Tip_path t b : T0 !! t = Some b -> Tip (path T0 t) = Some t.
Proof using Hwf.
  intros Ht. pose proof (proj1 (Hwf t b Ht)). unfold Tip. rewrite (path_length T0 t b Ht).
  rewrite (proj2 (Nat.ltb_lt 0 _)) by lia. rewrite (path_lookup T0 t b) by done. rewrite decide_True by lia. cbn [default].
  replace (Z.of_nat (Z.to_nat (nHeight b + 1) - 1)) with (nHeight b) by lia. by rewrite (ancestor_self T0 t b).
Qed.

Lemma inv_tip s t best : act_inv s t best -> Tip (chainActive s) = Some t.
Proof using Hwf. intros Hi. rewrite (a_chain _ _ _ Hi). destruct (valid_lookup _ _ (a_tip _ _ _ Hi)) as (b & Hb & _). by apply (Tip_path t b). Qed.

(** Moving the tip. *)
Lemma UpdateTip_spec s t p : evolves T0 (index s) -> is_Some (T0 !! t) -> chainActive s = path T0 t -> is_Some (T0 !! p) ->
  UpdateTip s p = Some (with_chain s (path T0 p)).
Proof using Hwf.
  intros [Hal _] [bt Ht] Hc [b Hp]. unfold UpdateTip. rewrite Hc. pose proof (alike_tree_wf _ _ Hal Hwf) as Hwf'.
  destruct (alike_lookup _ _ _ _ Hal Hp) as (b' & Hb' & _), (alike_lookup _ _ _ _ Hal Ht) as (bt' & Ht' & _).
  rewrite (SetTip_correct (index s) Hwf' _ p b'); [|right; exists t; split; [by eexists|by rewrite (alike_path T0 (index s) t)]|done].
  cbn [mbind option_bind]. by rewrite (alike_path T0 (index s) p).
Qed.

Lemma inv_frame s s' t best : act_inv s t best -> search_ok s' -> index s' = index s -> chainActive s' = chainActive s ->
  setBlockIndexCandidates s' = setBlockIndexCandidates s -> act_inv s' t best.
Proof. intros [? ? ? ? ? ?] Hs Hi Hc Hd. split; rewrite ?Hi, ?Hc, ?Hd; done. Qed.

Lemma inv_move s t best q : act_inv s t best -> valid T0 q -> act_inv (with_chain s (path T0 q)) q best.
Proof. intros [[? ? ? ? ?] ? ? ? ? ?] Hq. by split. Qed.
Lemma valid_parent_entry t q b : valid T0 t -> T0 !! t = Some b -> pprev b = Some q -> valid T0 q.
Proof. intros Hv Ht Hq. apply (valid_parent _ t); [done|]. unfold parent. by rewrite Ht. Qed.

Lemma DisconnectTip_spec s t best b q : act_inv s t best -> T0 !! t = Some b -> pprev b = Some q ->
  (disconnects t = false /\ DisconnectTip s = Some (false, s)) \/ DisconnectTip s = Some (true, with_chain s (path T0 q)).
Proof using Hwf.
  intros Hi Ht Hq. pose proof (a_evolves _ _ _ Hi) as [Hal _]. destruct (alike_lookup _ _ _ _ Hal Ht) as (b' & Hb' & (Hpp & _) & _).
  unfold DisconnectTip. rewrite (inv_tip s t best Hi). cbn [mbind option_bind]. rewrite Hb'. cbn [mbind option_bind].
  destruct (disconnects t); [right|by left]. rewrite Hpp, Hq. cbn [mbind option_bind].
  destruct (valid_lookup _ _ (valid_parent_entry t q b (a_tip _ _ _ Hi) Ht Hq)) as (bq & Hbq & _).
  rewrite (UpdateTip_spec s t q); [done|apply Hi|by eexists|apply Hi|by eexists].
Qed.

Lemma nth_parent_lower n : forall p f b bf, T0 !! p = Some b -> nth_parent T0 n p = Some f -> T0 !! f = Some bf -> nHeight bf = nHeight b - Z.of_nat n.
Proof using Hwf.
  induction n as [|n IH]; intros p f b bf Hp Hn Hf; cbn [nth_parent] in Hn; [simplify_eq; lia|]. rewrite Hp in Hn. cbn in Hn.
  destruct (Hwf p b Hp) as [_ He]. unfold entry_ok in He. destruct (pprev b) as [q|]; [|done]. destruct He as (bq & Hq & Hh & _).
  rewrite (IH q f bq bf Hq Hn Hf). lia.
Qed.

(** Disconnecting down to an ancestor of the tip. *)
Lemma disconnect_loop_spec n : forall fuel s t best f bt bf, act_inv s t best -> T0 !! t = Some bt -> T0 !! f = Some bf ->
  nth_parent T0 n t = Some f -> (n <= fuel)%nat ->
  (exists t' s', disconnect_loop fuel s (Some f) = Some (false, s') /\ act_inv s' t' best /\ index s' = index s /\ ~ no_errors) \/
  disconnect_loop fuel s (Some f) = Some (true, with_chain s (path T0 f)) /\ valid T0 f.
Proof using Hwf.
  induction n as [|n IH]; intros fuel s t best f bt bf Hi Ht Hf Hn Hfuel.
  { cbn in Hn. injection Hn as <-. right. split; [|apply Hi]. assert (He : with_chain s (path T0 t) = s) by (rewrite <-(a_chain _ _ _ Hi); by destruct s).
    destruct fuel; cbn [disconnect_loop]; rewrite (inv_tip s t best Hi), bool_decide_true by done; by rewrite He. }
  destruct fuel as [|fuel]; [lia|]. cbn [disconnect_loop]. rewrite (inv_tip s t best Hi). cbn [nth_parent] in Hn. rewrite Ht in Hn. cbn [mbind option_bind] in Hn.
  destruct (pprev bt) as [q|] eqn:Hq; [|done]. cbn in Hn. pose proof (valid_parent_entry t q bt (a_tip _ _ _ Hi) Ht Hq) as Hvq.
  destruct (valid_lookup _ _ Hvq) as (bq & Hbq & _). assert (Hne : t <> f).
  { intros ->. assert (H : nth_parent T0 (S n) f = Some f) by (cbn [nth_parent]; rewrite Ht; cbn; by rewrite Hq).
    pose proof (nth_parent_lower (S n) f f bt bt Ht H Ht). lia. }
  rewrite bool_decide_false by congruence. destruct (DisconnectTip_spec s t best bt q Hi Ht Hq) as [[Hd ->]| ->]; cbn [mbind option_bind].
  - left. exists t, s. split_and!; try done. intros (_ & Hall & _). by rewrite Hall in Hd.
  - destruct (IH fuel (with_chain s (path T0 q)) q best f bq bf) as [?|[-> ?]]; try done; [by apply (inv_move s t)|lia|by left|by right].
Qed.

Lemma InvalidChainFound_spec s t best p : act_inv s t best -> is_Some (T0 !! p) ->
  exists s', InvalidChainFound s p = Some s' /\ act_inv s' t best /\ index s' = index s.
Proof using Hwf.
  intros Hi [b Hp]. pose proof (a_evolves _ _ _ Hi) as [Hal _]. destruct (alike_lookup _ _ _ _ Hal Hp) as (b' & Hb' & _).
  unfold InvalidChainFound. rewrite Hb'. cbn [mbind option_bind].
  assert (Hw : exists w, match pindexBestInvalid s with
      | None => Some true | Some i => (bi ← index s !! i; Some (gtb (nChainWork b') (nChainWork bi))) end = Some w).
  { destruct (pindexBestInvalid s) as [i|] eqn:Hbi; [|by eexists]. destruct (f_invalid _ (a_search _ _ _ Hi) i Hbi) as [bi ->]. by eexists. }
  destruct Hw as (w & ->). cbn [mbind option_bind]. rewrite (inv_tip s t best Hi). cbn [mbind option_bind]. eexists. split; [reflexivity|].
  destruct w; [|done]. split; [|done]. apply (inv_frame s); try done. apply (alike_search s); cbn; [done|done| |apply Hi].
  intros i [= <-]. right. by eexists.
Qed.

(** A block that [ConnectBlock] rejects is marked. *)
Lemma InvalidBlockFound_spec s t best p b : act_inv s t best -> index s !! p = Some b -> bad b = false -> ~ valid T0 p ->
  exists s', InvalidBlockFound s p false = Some s' /\ act_inv s' t best /\ alike (index s) (index s') /\ bad_grows (index s) (index s') /\
    (good_count (index s') < good_count (index s))%nat.
Proof using Hwf.
  intros Hi Hp Hb Hnv. unfold InvalidBlockFound, raise_flag. rewrite Hp. cbn [mbind option_bind].
  set (b' := set_status b (Z.lor (nStatus b) BLOCK_FAILED_VALID)).
  set (s1 := with_candidates _ _). pose proof (failed_bad b) as Hfb. fold b' in Hfb.
  assert (Hal : alike (index s) (<[p := b']> (index s))) by (by apply (alike_insert _ _ b)).
  assert (Hbg : bad_grows (index s) (<[p := b']> (index s))) by (by apply (bad_grows_update _ _ b)).
  assert (Hi1 : act_inv s1 t best).
  { destruct Hi as [Hs He Hc Ht (Hbv & Hbl & Hbc) Hca]. split; cbn; try done.
    - apply (alike_search s); cbn; [done|by intros x [? _]%elem_of_difference|by left|done].
    - apply (evolves_update _ _ _ b); try done. by right.
    - split_and!; try done. apply elem_of_difference. split; [done|]. intros ->%elem_of_singleton. done.
    - intros x Hx Hl Hw. apply elem_of_difference. split; [by apply Hca|]. intros ->%elem_of_singleton. done. }
  destruct (a_evolves _ _ _ Hi) as [Hal0 _]. destruct (alike_inv _ _ _ _ Hal0 Hp) as (b0 & Hb0 & _).
  destruct (InvalidChainFound_spec s1 t best p Hi1) as (s' & Hrun & Hi' & Hidx); [by eexists|]. exists s'. rewrite Hidx. cbn [index s1 with_candidates mark_dirty with_index].
  split_and!; try done. apply (good_count_lt _ _ p b b'); try done. by rewrite lookup_insert_eq.
Qed.

Lemma with_entry_same s p b d : index (with_entry s p b d) = <[p := b]> (index s) /\ chainActive (with_entry s p b d) = chainActive s /\
  setBlockIndexCandidates (with_entry s p b d) = setBlockIndexCandidates s /\ mapBlockIndex (with_entry s p b d) = mapBlockIndex s /\
  pindexBestInvalid (with_entry s p b d) = pindexBestInvalid s.
Proof. by destruct d. Qed.

(** Accepting a block and pruning the candidates. *)
Lemma accept_spec s t best p b b' d : act_inv s t best -> index s !! p = Some b -> bad b = false -> pprev b = Some t -> connects p = Accepted ->
  linked T0 p -> same_core b b' -> bad b' = bad b ->
  exists s2 best', PruneBlockIndexCandidates (with_chain (with_entry s p b' d) (path T0 p)) = Some s2 /\
    act_inv s2 p best' /\ index s2 = <[p := b']> (index s).
Proof using Hwf Hworks.
  intros Hi Hp Hb Hpp Hacc Hlk Hc Hbb. destruct Hi as [Hs He Hch Ht (Hbv & Hbl & Hbc) Hca]. pose proof He as [Hal Hev].
  destruct (alike_inv _ _ _ _ Hal Hp) as (b0 & Hb0 & Hc0). assert (Hvp : valid T0 p).
  { apply (valid_intro _ _ b0); [done| |done|].
    - destruct (Hev p b0 b Hb0 Hp) as [?|[_ ?]]; congruence.
    - destruct Hc0 as [(Hq & _) _]. intros q Hq'. rewrite Hq' in Hq. rewrite Hpp in Hq. injection Hq as <-. done. }
  assert (He' : evolves T0 (<[p := b']> (index s))) by (apply (evolves_update _ _ _ b); auto).
  assert (Hw : forall x y, worse (<[p := b']> (index s)) x y = worse T0 x y) by (intros x y; apply alike_worse, He').
  unfold PruneBlockIndexCandidates. cbn [chainActive with_chain]. rewrite (Tip_path p b0 Hb0). cbn [mbind option_bind].
  destruct (with_entry_same s p b' d) as (Hei & Hec & Hed & Hev' & Heb). cbn [index setBlockIndexCandidates with_chain]. rewrite Hei, Hed.
  set (left := filter _ _).
  assert (Hleft : forall x, x ∈ left <-> worse T0 x p = false /\ x ∈ setBlockIndexCandidates s) by (intros x; unfold left; by rewrite elem_of_filter, Hw).
  assert (Hnew : exists best', valid T0 best' /\ linked T0 best' /\ best' ∈ left /\
    forall x, valid T0 x -> linked T0 x -> worse T0 x best' = false -> x ∈ left).
  { destruct (worse T0 p best) eqn:Hpb.
    - exists best. assert (Hbp : worse T0 best p = false).
      { destruct (worse T0 best p) eqn:E; [|done]. pose proof (worse_trans T0 _ _ _ Hworks E Hpb). by rewrite worse_irrefl in H. }
      split_and!; try done; [by apply Hleft|]. intros x Hx Hl Hxb. apply Hleft. split; [|by apply Hca].
      destruct (worse T0 x p) eqn:E; [|done]. by rewrite (worse_trans T0 _ _ _ Hworks E Hpb) in Hxb.
    - exists p. split_and!; try done; [apply Hleft; split; [by apply worse_irrefl|by apply Hca]|].
      intros x Hx Hl Hxp. apply Hleft. split; [done|]. apply Hca; [done|done|]. destruct (worse T0 x best) eqn:E; [|done].
      destruct (decide (p = best)) as [->|Hne]; [congruence|]. destruct Hbl as (bb & Hbb' & _).
      destruct (worse_total T0 p best Hworks) as [?|Hbp]; [by eexists|by eexists|done|congruence|].
      by rewrite (worse_trans T0 _ _ _ Hworks E Hbp) in Hxp. }
  destruct Hnew as (best' & Hv' & Hl' & Hin & Hall). rewrite bool_decide_false by (intros E; rewrite E in Hin; by apply elem_of_empty in Hin).
  eexists _, best'. split; [reflexivity|]. cbn [index with_candidates with_chain]. split; [|done].
  split; cbn [index chainActive setBlockIndexCandidates with_chain with_candidates]; rewrite ?Hei; try done.
  apply (alike_search s); cbn [index setBlockIndexCandidates pindexBestInvalid with_chain with_candidates]; rewrite ?Hei, ?Heb;
    [by apply (alike_insert _ _ b)|intros x Hx; by apply Hleft in Hx as [_ ?]|by left|done].
Qed.

(** Blocks on top of each other. *)
Inductive ascends : nat -> list nat -> nat -> Prop :=
| ascends_nil t : ascends t [] t
| ascends_cons t p b l e : T0 !! p = Some b -> pprev b = Some t -> ascends p l e -> ascends t (p :: l) e.

Definition bad_same (T T' : store) : Prop := forall x b b', T !! x = Some b -> T' !! x = Some b' -> bad b' = bad b.
Definition good_in (s : chainstate) (y : nat) : Prop := exists b, index s !! y = Some b /\ bad b = false.

Lemma bad_same_update T p b b' : T !! p = Some b -> bad b' = bad b -> bad_same T (<[p := b']> T).
Proof.
  intros Hp Hb x c c' Hx. destruct (decide (p = x)) as [<-|?]; [rewrite lookup_insert_eq; intros [= <-]; congruence|].
  rewrite lookup_insert_ne by done. congruence.
Qed.
Lemma bad_same_trans T1 T2 T3 : alike T1 T2 -> bad_same T1 T2 -> bad_same T2 T3 -> bad_same T1 T3.
Proof. intros Hal H1 H2 x b b' Hx Hx'. destruct (alike_lookup _ _ _ _ Hal Hx) as (c & Hc & _). rewrite (H2 x c b' Hc Hx'). by apply (H1 x). Qed.
Lemma bad_same_grows T T' : bad_same T T' -> bad_grows T T'.
Proof. intros H x b b' Hx Hx' Hb. by rewrite (H x b b'). Qed.
Lemma bad_same_refl T : bad_same T T.
Proof. intros x b b' H1 H2. congruence. Qed.

(** What a pass over blocks leaves, by the way it ends. *)
Definition pass_result (s : chainstate) (r : pass) (s' : chainstate) (better : nat -> Prop) (e t' : nat) : Prop :=
  alike (index s) (index s') /\ bad_grows (index s) (index s') /\
  match r with
  | AllConnected => t' = e /\ bad_same (index s) (index s')
  | BetterTip => better t' /\ bad_same (index s) (index s')
  | InvalidFound => (good_count (index s') < good_count (index s))%nat
  | Failed => ~ no_errors
  end.

(** The three ways in which a block on top of the tip is handled. *)
Lemma ConnectTip_cases s t best p b0 : act_inv s t best -> T0 !! p = Some b0 -> pprev b0 = Some t -> linked T0 p -> good_in s p ->
  (exists s1 s2 best', ConnectTip s p = Some (Accepted, s1) /\ PruneBlockIndexCandidates s1 = Some s2 /\ act_inv s2 p best' /\
     alike (index s) (index s2) /\ bad_same (index s) (index s2)) \/
  (exists s1, ConnectTip s p = Some (Rejected false, s1) /\ act_inv s1 t best /\ alike (index s) (index s1) /\ bad_grows (index s) (index s1) /\
     (good_count (index s1) < good_count (index s))%nat) \/
  (exists s1, ConnectTip s p = Some (SystemError, s1) /\ act_inv s1 t best /\ alike (index s) (index s1) /\ bad_same (index s) (index s1) /\ ~ no_errors).
Proof using Hwf Hworks Hmild.
  intros Hi Hb0 Hpp Hlk (b & Hp & Hb). pose proof (a_evolves _ _ _ Hi) as [Hal _].
  destruct (alike_lookup _ _ _ _ Hal Hb0) as (b1 & Hb1 & (Hq & _) & _). assert (b1 = b) as -> by congruence. rewrite Hpp in Hq.
  unfold ConnectTip. rewrite Hp. cbn [mbind option_bind]. rewrite (inv_tip s t best Hi), Hq, bool_decide_true by done. cbn [negb].
  destruct (connects p) as [|c|] eqn:Hacc.
  - destruct (store_undo_spec b (undo_position p)) as (b' & d & -> & Hc' & Hbb). cbn [mbind option_bind fst snd].
    destruct (with_entry_same s p b' d) as (Hei & Hec & Hed & Hev' & Heb).
    assert (Hal1 : alike (index s) (<[p := b']> (index s))) by (by apply (alike_insert _ _ b)).
    assert (Hsame : bad_same (index s) (<[p := b']> (index s))) by (by apply (bad_same_update _ _ b)).
    assert (Hev1 : evolves T0 (<[p := b']> (index s))) by (apply (evolves_update _ _ _ b); [apply Hi|done|done|by left]).
    destruct (flushes p) eqn:Hfl.
    + left. destruct (valid_lookup _ _ (a_tip _ _ _ Hi)) as (bt & Ht & _).
      destruct (accept_spec s t best p b b' d Hi Hp Hb Hq Hacc Hlk Hc' Hbb) as (s2 & best' & Hprune & Hi2 & Hidx).
      eexists _, s2, best'. rewrite (UpdateTip_spec _ t p); [|by rewrite Hei|by eexists|rewrite Hec; apply Hi|by eexists].
      split; [reflexivity|]. rewrite Hidx. done.
    + right; right. eexists. split; [reflexivity|]. rewrite Hei. split; [|split; [done|split; [done|]]].
      * destruct Hi as [Hs He Hch Ht Hbe Hca]. split; rewrite ?Hei, ?Hec, ?Hed; try done.
        apply (alike_search s); [by rewrite Hei|by rewrite Hed|rewrite Heb; by left|done].
      * intros (_ & _ & Hall & _). by rewrite Hall in Hfl.
  - destruct c; [by destruct (Hmild p)|]. assert (Hnv : ~ valid T0 p) by (intros Hv; inversion Hv; congruence). right; left.
    destruct (InvalidBlockFound_spec s t best p b Hi Hp Hb Hnv) as (s1 & -> & Hi1 & Hal1 & Hbg1 & Hcnt). cbn [mbind option_bind]. by exists s1.
  - right; right. exists s. split; [done|]. split; [done|]. split; [done|]. split; [apply bad_same_refl|]. intros (Hall & _). by apply (Hall p).
Qed.

Lemma pass_result_step s s1 s' r Q Q' e t' : alike (index s) (index s1) -> bad_same (index s) (index s1) -> (forall x, Q x -> Q' x) ->
  pass_result s1 r s' Q e t' -> pass_result s r s' Q' e t'.
Proof.
  intros Hal Hs HQ (Ha & Hg & Hr). split; [by transitivity (index s1)|]. split; [by apply (bad_grows_trans _ _ _ Hal (bad_same_grows _ _ Hs))|].
  destruct r; [|..|done]; [destruct Hr as [? ?]; split; [auto|by apply (bad_same_trans _ _ _ Hal Hs)]..|].
  pose proof (good_count_le _ _ Hal (bad_same_grows _ _ Hs)). lia.
Qed.

Lemma connect_list_spec l : forall s t best old back e, act_inv s t best -> ascends t l e -> (forall y, y ∈ l -> linked T0 y /\ good_in s y) ->
  (forall o, old = Some o -> is_Some (T0 !! o)) -> is_Some (T0 !! back) ->
  exists r s' t' best', connect_list s old back l = Some (r, s') /\ act_inv s' t' best' /\ pass_result s r s' (fun x => x ∈ l) e t'.
Proof using Hwf Hworks Hmild.
  induction l as [|p l IH]; intros s t best old back e Hi Hasc Hl Hold Hback.
  { inversion Hasc; subst. exists AllConnected, s, e, best. split; [done|]. split; [done|]. split; [done|]. split; [apply bad_same_grows, bad_same_refl|].
    split; [done|apply bad_same_refl]. }
  inversion Hasc as [|t1 p1 b0 l1 e1 Hb0 Hpp Hrest]; subst. destruct (Hl p ltac:(left)) as [Hlk Hg]. cbn [connect_list].
  destruct (ConnectTip_cases s t best p b0 Hi Hb0 Hpp Hlk Hg)
    as [(s1 & s2 & best' & -> & Hprune & Hi2 & Hal2 & Hsame)|[(s1 & -> & Hi1 & Hal1 & Hbg1 & Hcnt)|(s1 & -> & Hi1 & Hal1 & Hs1 & Hne)]]; cbn [mbind option_bind].
  - rewrite Hprune. cbn [mbind option_bind]. rewrite (inv_tip s2 p best' Hi2). cbn [mbind option_bind].
    destruct (a_evolves _ _ _ Hi2) as [Hal0 _]. destruct (alike_lookup _ _ _ _ Hal0 Hb0) as (b2 & -> & _). cbn [mbind option_bind].
    assert (Hbt : exists w, match old with None => Some true | Some o => (bo ← index s2 !! o; Some (gtb (nChainWork b2) (nChainWork bo))) end = Some w).
    { destruct old as [o|]; [|by eexists]. destruct (Hold o eq_refl) as [bo Ho]. destruct (alike_lookup _ _ _ _ Hal0 Ho) as (bo' & -> & _). by eexists. }
    destruct Hbt as (w & ->). cbn [mbind option_bind]. destruct w.
    + exists BetterTip, s2, p, best'. split; [done|]. split; [done|]. split; [done|]. split; [by apply bad_same_grows|]. split; [left|done].
    + destruct (IH s2 p best' old back e Hi2 Hrest) as (r & s' & t' & best2 & Hrun & Hi' & Hr); [|done|done|].
      { intros y Hy. destruct (Hl y ltac:(by right)) as [? (by' & Hby & Hgy)]. split; [done|]. destruct (alike_lookup _ _ _ _ Hal2 Hby) as (c & Hc & _).
        exists c. split; [done|]. by rewrite (Hsame y by' c). }
      exists r, s', t', best2. split; [done|]. split; [done|]. apply (pass_result_step s s2 s' r (fun x => x ∈ l)); try done. by right.
  - destruct (InvalidChainFound_spec s1 t best back Hi1 Hback) as (s2 & -> & Hi2 & Hidx). cbn [mbind option_bind].
    exists InvalidFound, s2, t, best. split; [done|]. split; [done|]. unfold pass_result. rewrite Hidx. done.
  - exists Failed, s1, t, best. split; [done|]. split; [done|]. split; [done|]. split; [by apply bad_same_grows|done].
Qed.
Lemma collect_spec T n : forall fuel p acc e t bp bt, alike T0 T -> T0 !! p = Some bp -> nth_parent T0 n p = Some t -> T0 !! t = Some bt ->
  ascends p acc e -> (n <= fuel)%nat ->
  exists l, collect fuel T (Some p) (nHeight bt) acc = Some l /\ ascends t l e /\
    forall y, y ∈ l -> y ∈ acc \/ exists k, (k < n)%nat /\ nth_parent T0 k p = Some y.
Proof using Hwf.
  induction n as [|n IH]; intros fuel p acc e t bp bt Hal Hp Hn Ht Hasc Hf; destruct (alike_lookup _ _ _ _ Hal Hp) as (bp' & Hp' & (Hpp & _ & Hh & _) & _).
  { cbn in Hn. injection Hn as <-. exists acc. assert (bt = bp) as -> by congruence. destruct fuel; cbn [collect]; rewrite Hp'; cbn [mbind option_bind];
      rewrite Hh, Z.eqb_refl; by auto. }
  destruct fuel as [|fuel]; [lia|]. cbn [collect]. rewrite Hp'. cbn [mbind option_bind].
  pose proof (nth_parent_lower (S n) p t bp bt Hp Hn Ht) as Hlow. rewrite Hh, (proj2 (Z.eqb_neq _ _)) by lia.
  cbn [nth_parent] in Hn. rewrite Hp in Hn. cbn in Hn. rewrite Hpp. destruct (pprev bp) as [q|] eqn:Hq; [|done]. cbn in Hn.
  destruct (Hwf p bp Hp) as [_ He]. unfold entry_ok in He. rewrite Hq in He. destruct He as (bq & Hbq & _).
  destruct (IH fuel q (p :: acc) e t bq bt Hal Hbq Hn Ht (ascends_cons q p bp acc e Hp Hq Hasc) ltac:(lia)) as (l & -> & Hl & Hin).
  exists l. split; [done|]. split; [done|]. intros y Hy. destruct (Hin y Hy) as [[->|?]%elem_of_cons|(k & Hk & Hky)].
  - right. exists 0%nat. split; [lia|done].
  - by left.
  - right. exists (S k). split; [lia|]. cbn [nth_parent]. rewrite Hp. cbn. by rewrite Hq.
Qed.

(** The blocks above [h0] on the way to [m] are linked and not bad. *)
Definition ready (s : chainstate) (m : nat) (n : nat) : Prop := forall k y, (k < n)%nat -> nth_parent T0 k m = Some y -> linked T0 y /\ good_in s y.

Lemma ready_same s s' m n n' : ready s m n -> (n' <= n)%nat -> alike (index s) (index s') -> bad_same (index s) (index s') -> ready s' m n'.
Proof.
  intros Hr Hn Hal Hs k y Hk Hy. destruct (Hr k y ltac:(lia) Hy) as [Hl (b & Hb & Hg)]. split; [done|].
  destruct (alike_lookup _ _ _ _ Hal Hb) as (b' & Hb' & _). exists b'. split; [done|]. by rewrite (Hs y b b').
Qed.

Lemma connect_loop_spec m bm : T0 !! m = Some bm -> forall fuel s t best old n bt, act_inv s t best -> T0 !! t = Some bt ->
  nth_parent T0 n m = Some t -> ready s m n -> (forall o, old = Some o -> is_Some (T0 !! o)) -> (n <= fuel)%nat ->
  exists r s' t' best', connect_loop fuel s old m (nHeight bt) = Some (r, s') /\ act_inv s' t' best' /\
    pass_result s r s' (fun x => exists k, (k < n)%nat /\ nth_parent T0 k m = Some x) m t'.
Proof using Hwf Hworks Hmild.
  intros Hm. induction fuel as [|fuel IH]; intros s t best old n bt Hi Ht Hn Hrd Hold Hf; pose proof (a_evolves _ _ _ Hi) as [Hal _];
    destruct (alike_lookup _ _ _ _ Hal Hm) as (bm' & Hm' & (_ & _ & Hh & _) & _); pose proof (nth_parent_lower n m t bm bt Hm Hn Ht) as Hlow;
    cbn [connect_loop]; rewrite Hm'; cbn [mbind option_bind]; rewrite Hh.
  - assert (n = 0%nat) as -> by lia. cbn in Hn. injection Hn as <-. assert (bt = bm) as -> by congruence. rewrite Z.eqb_refl.
    exists AllConnected, s, m, best. split; [done|]. split; [done|]. split; [done|]. split; [apply bad_same_grows, bad_same_refl|split; [done|apply bad_same_refl]].
  - destruct (Z.eqb_spec (nHeight bt) (nHeight bm)) as [E|E].
    { assert (n = 0%nat) as -> by lia. cbn in Hn. injection Hn as <-. exists AllConnected, s, m, best.
      split; [done|]. split; [done|]. split; [done|]. split; [apply bad_same_grows, bad_same_refl|split; [done|apply bad_same_refl]]. }
    pose proof (proj1 (Hwf t bt Ht)) as Hht. set (tg := Z.min (nHeight bt + 32) (nHeight bm)).
    set (j := Z.to_nat (nHeight bm - tg)). set (d := Z.to_nat (tg - nHeight bt)). assert (Hjd : n = (j + d)%nat) by lia.
    destruct (nth_parent_height T0 Hwf j m bm Hm ltac:(lia)) as (a & ba & Ha & Hba & Hha).
    pose proof (alike_tree_wf _ _ Hal Hwf) as Hwf'. rewrite (GetAncestor_correct (index s) Hwf' m bm') by done.
    rewrite Hh, (proj2 (Z.leb_le 0 tg)), (proj2 (Z.leb_le tg (nHeight bm))) by lia. cbn [andb mbind option_bind].
    assert (Hanc : ancestor (index s) m tg = Some a).
    { rewrite (alike_ancestor T0 (index s)) by done. unfold ancestor. rewrite Hm. cbn. exact Ha. }
    rewrite Hanc. assert (Hda : nth_parent T0 d a = Some t).
    { rewrite Hjd in Hn. rewrite nth_parent_add in Hn. rewrite Ha in Hn. exact Hn. }
    destruct (collect_spec (index s) d (Z.to_nat (tg + 1)) a [] a t ba bt Hal Hba Hda Ht (ascends_nil a) ltac:(lia)) as (l & -> & Hasc & Hin).
    cbn [mbind option_bind].
    assert (Hl : forall y, y ∈ l -> exists k, (k < n)%nat /\ nth_parent T0 k m = Some y).
    { intros y Hy. destruct (Hin y Hy) as [Hnil|(k & Hk & Hky)]; [by apply elem_of_nil in Hnil|]. exists (j + k)%nat. split; [lia|].
      rewrite nth_parent_add, Ha. exact Hky. }
    assert (Hback : is_Some (T0 !! default 0%nat (head l))).
    { destruct Hasc as [t|t x bx l' e Hx _ _]; [|by eexists]. assert (bt = ba) by congruence. subst. lia. }
    destruct (connect_list_spec l s t best old (default 0%nat (head l)) a Hi Hasc) as (r & s' & t' & best' & -> & Hi' & Hr); [|done|done|].
    { intros y Hy. destruct (Hl y Hy) as (k & Hk & Hky). by apply (Hrd k). }
    cbn [mbind option_bind]. destruct r; [|exists BetterTip, s', t', best'|exists InvalidFound, s', t', best'|exists Failed, s', t', best'].
    2-4: split; [done|]; split; [done|]; destruct Hr as (H1 & H2 & H3); split; [done|]; split; [done|];
      first [done|destruct H3 as [H3 H4]; split; [by apply Hl|done]].
    destruct Hr as (Ha' & Hg' & -> & Hs'). replace tg with (nHeight ba) by lia.
    destruct (IH s' a best' old j ba Hi' Hba Ha) as (r2 & s2 & t2 & best2 & -> & Hi2 & Hr2); [by apply (ready_same s s' m n); [|lia|..]|done|lia|].
    exists r2, s2, t2, best2. split; [done|]. split; [done|]. apply (pass_result_step s s' s2 r2 (fun x => exists k, (k < j)%nat /\ nth_parent T0 k m = Some x)); try done.
    intros x (k & Hk & Hx). exists k. split; [lia|done].
Qed.


(** Every block descends from the root. *)
Lemma root_ancestor x b : T0 !! x = Some b -> ancestor T0 x 0 = Some root /\ exists br, T0 !! root = Some br /\ nHeight br = 0.
Proof using Hwf Hroot.
  intros Hx. pose proof (proj1 (Hwf x b Hx)). destruct (ancestor_some T0 Hwf x b 0 Hx ltac:(lia)) as (q & bq & Hq & Hbq & Hh).
  destruct (Hwf q bq Hbq) as [_ He]. unfold entry_ok in He. destruct (pprev bq) as [r|] eqn:Hr.
  - destruct He as (br & Hbr & Hhr & _). pose proof (proj1 (Hwf r br Hbr)). lia.
  - assert (q = root) as -> by (by apply (Hroot q bq)). split; [done|]. by exists bq.
Qed.

Lemma nth_ancestor k x b y : T0 !! x = Some b -> nth_parent T0 k x = Some y -> exists yb, T0 !! y = Some yb /\ nHeight yb = nHeight b - Z.of_nat k /\
  ancestor T0 x (nHeight yb) = Some y.
Proof using Hwf.
  intros Hx Hk. assert (Hyb : is_Some (T0 !! y)).
  { revert x b Hx Hk. induction k as [|k IH]; intros x b Hx; cbn [nth_parent]; [intros [= <-]; by eexists|]. rewrite Hx. cbn.
    destruct (Hwf x b Hx) as [_ He]. unfold entry_ok in He. destruct (pprev b) as [q|]; [|done]. destruct He as (bq & Hq & _). by apply (IH q bq). }
  destruct Hyb as [yb Hyb]. exists yb. pose proof (nth_parent_lower k x y b yb Hx Hk Hyb). split; [done|]. split; [done|].
  unfold ancestor. rewrite Hx. cbn. by replace (Z.to_nat (nHeight b - nHeight yb)) with k by lia.
Qed.

(** The fork of the active chain and [m], with the distances to it. *)
Lemma fork_spec s t best m bt bm : act_inv s t best -> T0 !! t = Some bt -> T0 !! m = Some bm ->
  exists f bf nt n, FindFork (index s) (chainActive s) (Some m) = Some (Some f) /\ T0 !! f = Some bf /\ nth_parent T0 nt t = Some f /\
    nth_parent T0 n m = Some f /\ nHeight bf = nHeight bm - Z.of_nat n /\ nHeight bf = nHeight bt - Z.of_nat nt /\
    (forall k y, (k < n)%nat -> nth_parent T0 k m = Some y -> Contains (index s) (chainActive s) y = Some false).
Proof using Hwf Hroot.
  intros Hi Ht Hm. pose proof (a_evolves _ _ _ Hi) as [Hal _]. pose proof (alike_tree_wf _ _ Hal Hwf) as Hwf'.
  destruct (alike_lookup _ _ _ _ Hal Ht) as (bt' & Ht' & (_ & _ & Hht & _) & _), (alike_lookup _ _ _ _ Hal Hm) as (bm' & Hm' & (_ & _ & Hhm & _) & _).
  assert (Hch : chainActive s = path (index s) t) by (rewrite (alike_path T0 (index s)) by done; apply Hi). rewrite Hch.
  pose proof (proj1 (Hwf t bt Ht)). pose proof (proj1 (Hwf m bm Hm)).
  destruct (FindFork_correct (index s) Hwf' t bt' m bm' Ht' Hm') as (r & -> & Hr). destruct r as [f|].
  2: { exfalso. destruct (root_ancestor t bt Ht) as (Hrt & br & Hbr & Hhr), (root_ancestor m bm Hm) as (Hrm & _).
       destruct (alike_lookup _ _ _ _ Hal Hbr) as (br' & Hbr' & (_ & _ & Hhr' & _) & _). apply (Hr root). exists br'. rewrite Hhr', Hhr, !(alike_ancestor T0 (index s)) by done.
       split_and!; try done. intros ? ? ? ?. simplify_eq. lia. }
  destruct Hr as [(bf' & Hf' & Hft & Hfm & Hle) Hmax]. destruct (alike_inv _ _ _ _ Hal Hf') as (bf & Hf & (_ & _ & Hhf & _) & _).
  destruct (Hle bt' bm' Ht' Hm') as [Hle1 Hle2]. rewrite (alike_ancestor T0 (index s)) in Hft, Hfm by done. unfold ancestor in Hft, Hfm.
  rewrite Ht in Hft. rewrite Hm in Hfm. cbn in Hft, Hfm. pose proof (proj1 (Hwf f bf Hf)).
  exists f, bf, (Z.to_nat (nHeight bt - nHeight bf')), (Z.to_nat (nHeight bm - nHeight bf')). split_and!; try done; try lia.
  intros k y Hk Hy. destruct (nth_ancestor k m bm y Hm Hy) as (yb & Hyb & Hhy & Hay). destruct (alike_lookup _ _ _ _ Hal Hyb) as (yb' & Hyb' & (_ & _ & Hhy' & _) & _).
  rewrite (Contains_path (index s) Hwf' t bt' y yb') by done. f_equal. apply bool_decide_eq_false_2. intros [Hl Ha].
  assert (Hc : common_ancestor (index s) t m y).
  { exists yb'. split_and!; try done; [rewrite (alike_ancestor T0 (index s)) by done; by rewrite Hhy'|]. intros ? ? ? ?. simplify_eq. lia. }
  specialize (Hmax y bf' yb' Hc Hf' Hyb'). lia.
Qed.

Lemma usable_good s v k : forall m y, usable (index s) v m -> alike T0 (index s) -> nth_parent T0 k m = Some y ->
  (forall j z, (j <= k)%nat -> nth_parent T0 j m = Some z -> Contains (index s) v z = Some false) -> good_in s y.
Proof.
  induction k as [|k IH]; intros m y Hu Hal Hk Hc; pose proof (Hc 0%nat m ltac:(lia) eq_refl) as Hm; inversion Hu as [p Hx|p b Hp _ Hbad Hq]; subst; try congruence.
  - cbn in Hk. injection Hk as <-. by exists b.
  - destruct (alike_inv _ _ _ _ Hal Hp) as (b0 & Hb0 & (Hpp & _) & _). cbn [nth_parent] in Hk. rewrite Hb0 in Hk. cbn in Hk. rewrite <-Hpp in Hk.
    destruct (pprev b) as [q|] eqn:Hpq; [|done]. cbn in Hk. apply (IH q y); [by apply Hq|done|done|]. intros j z Hj Hz.
    apply (Hc (S j) z); [lia|]. cbn [nth_parent]. rewrite Hb0. cbn. by rewrite <-Hpp.
Qed.

Lemma linked_nth s k : forall m y, search_ok s -> alike T0 (index s) -> linked T0 m -> nth_parent T0 k m = Some y -> linked T0 y.
Proof.
  induction k as [|k IH]; intros m y Hs Hal Hl; cbn [nth_parent]; [by intros [= <-]|]. destruct (T0 !! m) as [b|] eqn:Hm; [|done]. cbn.
  destruct (pprev b) as [q|] eqn:Hq; [|done]. cbn. apply IH; [done|done|]. apply (alike_linked T0 (index s)); [done|].
  apply (f_closed _ Hs m); [by apply (alike_linked T0 (index s))|]. rewrite (alike_parent T0 (index s)) by done. unfold parent. by rewrite Hm.
Qed.

(** [m] can be connected: [n] good blocks lie above the fork. *)
Definition fork_ready (s : chainstate) (t m n : nat) : Prop := exists f bf nt,
  FindFork (index s) (chainActive s) (Some m) = Some (Some f) /\ T0 !! f = Some bf /\ nth_parent T0 nt t = Some f /\ nth_parent T0 n m = Some f /\ ready s m n.

Lemma fork_ready_usable s t best m bm : act_inv s t best -> T0 !! m = Some bm -> linked T0 m -> usable (index s) (chainActive s) m ->
  exists n, fork_ready s t m n /\ Z.of_nat n <= nHeight bm.
Proof using Hwf Hroot.
  intros Hi Hm Hl Hu. destruct (valid_lookup _ _ (a_tip _ _ _ Hi)) as (bt & Ht & _). pose proof (a_evolves _ _ _ Hi) as [Hal _].
  destruct (fork_spec s t best m bt bm Hi Ht Hm) as (f & bf & nt & n & Hf & Hbf & Hnt & Hn & Hh1 & Hh2 & Hc). pose proof (proj1 (Hwf f bf Hbf)).
  exists n. split; [|lia]. exists f, bf, nt. split_and!; try done. intros k y Hk Hy.
  split; [by apply (linked_nth s k m y (a_search _ _ _ Hi))|]. apply (usable_good s (chainActive s) k m y); try done.
  intros j z Hj Hz. apply (Hc j z); [lia|done].
Qed.

Lemma fork_ready_next s t best m bm k : act_inv s t best -> T0 !! m = Some bm -> nth_parent T0 k m = Some t -> ready s m k -> fork_ready s t m k.
Proof using Hwf Hroot.
  intros Hi Hm Hk Hr. destruct (nth_ancestor k m bm t Hm Hk) as (bt & Ht & Hh & Ha).
  destruct (fork_spec s t best m bt bm Hi Ht Hm) as (f & bf & nt & n & Hf & Hbf & Hnt & Hn & Hh1 & Hh2 & Hc).
  assert (Hnk : n = k); [|subst; by exists f, bf, nt]. destruct (decide (k < n)%nat) as [Hlt|]; [|lia]. exfalso.
  pose proof (Hc k t Hlt Hk) as Hcont. pose proof (a_evolves _ _ _ Hi) as [Hal _].
  rewrite (alike_Contains T0 (index s)) in Hcont by done. rewrite (a_chain _ _ _ Hi) in Hcont.
  rewrite (Contains_path T0 Hwf t bt t bt) in Hcont by done. injection Hcont as Hcont. apply bool_decide_eq_false_1 in Hcont.
  apply Hcont. split; [lia|]. by apply ancestor_self.
Qed.

Lemma step_spec s t best m bm n : act_inv s t best -> T0 !! m = Some bm -> fork_ready s t m n ->
  exists ok inv s' t' best', ActivateBestChainStep s m = Some (ok, inv, s') /\ act_inv s' t' best' /\ alike (index s) (index s') /\
    bad_grows (index s) (index s') /\ (ok = false -> ~ no_errors) /\
    (ok = true -> inv = true -> (good_count (index s') < good_count (index s))%nat) /\
    (ok = true -> inv = false -> t' = m \/ exists k, (k < n)%nat /\ nth_parent T0 k m = Some t' /\ ready s' m k).
Proof using Hwf Hworks Hmild.
  intros Hi Hm (f & bf & nt & Hf & Hbf & Hnt & Hn & Hrd). destruct (valid_lookup _ _ (a_tip _ _ _ Hi)) as (bt & Ht & _).
  unfold ActivateBestChainStep. rewrite Hf. cbn [mbind option_bind]. rewrite (inv_tip s t best Hi).
  assert (Hfuel : (nt <= length (chainActive s))%nat).
  { rewrite (a_chain _ _ _ Hi), (path_length T0 t bt Ht). pose proof (nth_parent_lower nt t f bt bf Ht Hnt Hbf). pose proof (proj1 (Hwf f bf Hbf)). lia. }
  destruct (disconnect_loop_spec nt (length (chainActive s)) s t best f bt bf Hi Ht Hbf Hnt Hfuel) as [(t' & s' & -> & Hi' & Hidx & Hne)|[-> Hvf]]; cbn [mbind option_bind].
  - exists false, false, s', t', best. rewrite Hidx. split; [done|]. split; [done|]. split; [done|]. split; [apply bad_same_grows, bad_same_refl|]. done.
  - set (s1 := with_chain s (path T0 f)). assert (Hi1 : act_inv s1 f best) by (by apply (inv_move s t)).
    destruct (a_evolves _ _ _ Hi1) as [Hal1 _]. destruct (alike_lookup _ _ _ _ Hal1 Hbf) as (bf' & Hbf' & (_ & _ & Hhf & _) & _),
      (alike_lookup _ _ _ _ Hal1 Hm) as (bm' & Hm' & (_ & _ & Hhm & _) & _).
    rewrite Hbf'. cbn [mbind option_bind]. rewrite Hm'. cbn [mbind option_bind]. rewrite Hhf, Hhm.
    pose proof (nth_parent_lower n m f bm bf Hm Hn Hbf). pose proof (proj1 (Hwf f bf Hbf)).
    destruct (connect_loop_spec m bm Hm (Z.to_nat (nHeight bm + 1)) s1 f best (Some t) n bf Hi1 Hbf Hn Hrd) as (r & s' & t' & best' & -> & Hi' & Ha & Hg & Hr);
      [intros ? [= <-]; by eexists|lia|]. cbn [mbind option_bind].
    assert (Hrd' : forall k, (k <= n)%nat -> bad_same (index s1) (index s') -> ready s' m k) by (intros k Hk Hs; by apply (ready_same s1 s' m n)).
    destruct r; [exists true, false|exists true, false|exists true, true|exists false, false]; exists s', t', best'; (split; [done|]);
      (split; [done|]); (split; [done|]); (split; [done|]); (split; [done|]).
    + split; [done|]. intros _ _. left. by destruct Hr.
    + split; [done|]. intros _ _. right. destruct Hr as [(k & Hk & Hkm) Hs]. exists k. split_and!; try done. apply Hrd'; [lia|done].
    + split; [done|]. done.
    + done.
Qed.


(** No valid block is better. *)
Definition best_of (m : nat) : Prop := forall x, valid T0 x -> linked T0 x -> x = m \/ worse T0 x m = true.

Lemma search_spec s t best : act_inv s t best -> exists m bm s1, FindMostWorkChain s = Some (Some m, s1) /\ act_inv s1 t best /\ T0 !! m = Some bm /\
  linked T0 m /\ usable (index s1) (chainActive s1) m /\ best_of m /\ alike (index s) (index s1) /\ bad_grows (index s) (index s1).
Proof using Hworks.
  intros Hi. pose proof Hi as [Hs He Hch Ht (Hbv & Hbl & Hbc) Hca]. pose proof He as [Hal _].
  destruct (find_loop_spec _ s Hs (le_n _)) as (r & s1 & Hrun & Hm & Hsub & HD & Hv & Hok & Hr).
  assert (Hkeep : forall x, valid T0 x -> x ∈ setBlockIndexCandidates s -> x ∈ setBlockIndexCandidates s1).
  { intros x Hx Hin. destruct (decide (x ∈ setBlockIndexCandidates s1)) as [?|Hn]; [done|]. destruct (HD x Hin Hn). by apply (valid_usable T0). }
  destruct r as [m|]; [|specialize (Hkeep best Hbv Hbc); rewrite Hr in Hkeep; by apply elem_of_empty in Hkeep].
  destruct Hr as (Hmc & Hmu & Hmax). pose proof (f_candidates _ Hs m (Hsub m Hmc)) as Hml. rewrite (alike_linked T0) in Hml by done.
  pose proof Hml as (bm & Hbm & _). exists m, bm, s1. split; [done|]. split; [|split; [done|split; [done|]]].
  - split; try done; [by apply (evolves_marked _ (index s) _ (chainActive s))|congruence|by auto|]. intros x Hx Hl Hw. auto.
  - split; [rewrite Hv; by apply (marked_usable _ _ _ _ _ Hm)|]. split; [|split; [by apply (marked_alike _ _ _ Hm)|by apply (bad_grows_marked _ _ _ Hm)]].
    intros x Hx Hl. assert (Hw : forall y, valid T0 y -> y ∈ setBlockIndexCandidates s -> y = m \/ worse T0 y m = true).
    { intros y Hy Hyc. destruct (Hmax y (Hkeep y Hy Hyc)) as [?|H]; [by left|right]. by rewrite <-(alike_worse T0 (index s)). }
    destruct (worse T0 x best) eqn:Hxb; [right|by apply Hw; [|apply Hca]].
    destruct (Hw best Hbv Hbc) as [<-|Hb]; [done|]. by apply (worse_trans T0 x best m).
Qed.

Definition rank (s : chainstate) (H : nat) (mw : option nat) (k : nat) : nat :=
  (good_count (index s) * (H + 2) + match mw with None => H + 1 | Some _ => k end)%nat.

Definition round_ok (s : chainstate) (t : nat) (mw : option nat) (k : nat) : Prop :=
  match mw with
  | None => True
  | Some m => best_of m /\ is_Some (T0 !! m) /\ nth_parent T0 k m = Some t /\ ready s m k
  end.

(** One round of the loop: it ends, or the rank falls. *)
Definition end_ok (e : loop_end) (t : nat) : Prop :=
  match e with
  | Returned false => ~ no_errors
  | Broken => exists n, ShutdownRequested n = true
  | _ => best_of t
  end.

Lemma round_spec fuel n0 s t best mw k H : act_inv s t best -> round_ok s t mw k -> (forall p b, T0 !! p = Some b -> nHeight b <= Z.of_nat H) ->
  (exists e s' t' best', activate_loop (S fuel) n0 s mw = Some (e, s') /\ act_inv s' t' best' /\ end_ok e t') \/
  (exists s' t' best' mw' k', activate_loop (S fuel) n0 s mw = activate_loop fuel (S n0) s' mw' /\ act_inv s' t' best' /\ round_ok s' t' mw' k' /\
    (rank s' H mw' k' < rank s H mw k)%nat).
Proof using Hwf Hworks Hroot Hmild.
  intros Hi Hround HH. destruct (ShutdownRequested n0) eqn:Hsd.
  { left. exists Broken, s, t, best. cbn [activate_loop]. rewrite Hsd. split_and!; try done. by exists n0. }
  assert (Hstart : exists m bm s1 n, match mw with None => FindMostWorkChain s | Some m => Some (Some m, s) end = Some (Some m, s1) /\
    act_inv s1 t best /\ T0 !! m = Some bm /\ best_of m /\ fork_ready s1 t m n /\ (good_count (index s1) * (H + 2) + n <= rank s H mw k)%nat).
  { destruct mw as [m|].
    - destruct Hround as (Hb & [bm Hm] & Hk & Hr). exists m, bm, s, k. split_and!; try done. by apply (fork_ready_next s t best m bm).
    - destruct (search_spec s t best Hi) as (m & bm & s1 & -> & Hi1 & Hm & Hl & Hu & Hb & Hal & Hg).
      destruct (fork_ready_usable s1 t best m bm Hi1 Hm Hl Hu) as (n & Hf & Hn). exists m, bm, s1, n. split_and!; try done.
      pose proof (good_count_le _ _ Hal Hg). specialize (HH m bm Hm). unfold rank. nia. }
  destruct Hstart as (m & bm & s1 & n & Hgo & Hi1 & Hm & Hb & Hf & Hrank). cbn [activate_loop]. rewrite Hsd, Hgo. cbn [mbind option_bind].
  rewrite (inv_tip s1 t best Hi1). destruct (decide (m = t)) as [->|Hne].
  { left. rewrite bool_decide_true by done. exists (Returned true), s1, t, best. done. }
  rewrite bool_decide_false by congruence.
  destruct (step_spec s1 t best m bm n Hi1 Hm Hf) as (ok & inv & s' & t' & best' & -> & Hi' & Hal & Hg & Herr & Hinv & Hgo'). cbn [mbind option_bind].
  destruct ok; cbn [negb]; [|left; exists (Returned false), s', t', best'; split_and!; try done; by apply Herr].
  rewrite (inv_tip s' t' best' Hi'). destruct inv.
  - right. rewrite bool_decide_false by congruence. exists s', t', best', None, 0%nat. split_and!; try done. specialize (Hinv eq_refl eq_refl). unfold rank at 1. nia.
  - destruct (decide (t' = m)) as [->|Hne']; [left; rewrite bool_decide_true by done; by exists Finished, s', m, best'|].
    destruct (Hgo' eq_refl eq_refl) as [?|(k' & Hk' & Hkm & Hr')]; [done|]. right. rewrite bool_decide_false by congruence.
    exists s', t', best', (Some m), k'. split_and!; try done. pose proof (good_count_le _ _ Hal Hg). unfold rank at 1. nia.
Qed.

Lemma activate_loop_spec H : (forall p b, T0 !! p = Some b -> nHeight b <= Z.of_nat H) -> forall fuel n s t best mw k, act_inv s t best -> round_ok s t mw k ->
  (rank s H mw k < fuel)%nat ->
  exists e s' t' best', activate_loop fuel n s mw = Some (e, s') /\ act_inv s' t' best' /\ end_ok e t'.
Proof using Hwf Hworks Hroot Hmild.
  intros HH. induction fuel as [|fuel IH]; intros n s t best mw k Hi Hr Hf; [lia|].
  destruct (round_spec fuel n s t best mw k H Hi Hr HH) as [?|(s' & t' & best' & mw' & k' & -> & Hi' & Hr' & Hlt)]; [done|].
  apply (IH (S n) s' t' best' mw' k' Hi' Hr'). lia.
Qed.

End Run.

Lemma top_height_spec T p b : T !! p = Some b -> nHeight b <= top_height T.
Proof.
  revert p b. unfold top_height. apply (map_fold_weak_ind (fun h T => forall p b, T !! p = Some b -> nHeight b <= h)).
  - intros p b H. by rewrite lookup_empty in H.
  - intros i x m r _ IH p b. destruct (decide (i = p)) as [<-|?]; [rewrite lookup_insert_eq; intros [= <-]; lia|].
    rewrite lookup_insert_ne by done. intros H. specialize (IH p b H). lia.
Qed.

(** The state in which the activation starts: the tree has one root, the active
    chain is valid, and the valid blocks that are
    not worse than the tip are candidates, the tip among them. *)
Record activation_ok (s : chainstate) (t root : nat) : Prop := {
  i_search : search_ok s;
  i_root : forall p b, index s !! p = Some b -> pprev b = None -> p = root;
  i_chain : chainActive s = path (index s) t;
  i_tip : valid (index s) t /\ linked (index s) t /\ t ∈ setBlockIndexCandidates s;
  i_candidates : forall x, valid (index s) x -> linked (index s) x -> worse (index s) x t = false -> x ∈ setBlockIndexCandidates s
}.

(** C27: [ActivateBestChain] ends, whatever blocks turn out to be invalid on
    the way. It starts from a block index as [activation_ok] says: one root, the search
    invariant of the candidates, an active chain of valid blocks whose tip is a candidate, and among the
    candidates every valid complete block not worse than the tip. The
    active chain it leaves is the path to a block of which
    [ConnectBlock] accepts the whole chain; when it reports success, either
    [ShutdownRequested] broke the loop, or no other complete block whose chain is
    valid has more work, or as much work and an earlier arrival; and it reports success unless
    a system error (reading, writing or flushing) occurs.  (A verdict that may be
    due to corruption leaves the block unmarked, and is excluded.) *)
Theorem ActivateBestChain_best s t root : activation_ok s t root -> (forall p, connects p <> Rejected true) ->
  exists ok s' t', ActivateBestChain s = Some (ok, s') /\ chainActive s' = path (index s) t' /\ Tip (chainActive s') = Some t' /\
    valid (index s) t' /\ (no_errors -> ok = true) /\
    (ok = true -> (exists n, ShutdownRequested n = true) \/
       forall x, valid (index s) x -> linked (index s) x -> x = t' \/ worse (index s) x t' = true).
Proof.
  intros [Hs Hroot Hch (Htv & Htl & Htc) Hca] Hmild.
  assert (Hi : act_inv (index s) s t t) by (split; [done|apply evolves_refl|done|done|done|done]).
  destruct (activate_loop_spec (index s) root (f_tree _ Hs) (f_work _ Hs) Hroot Hmild (Z.to_nat (top_height (index s)))) with
    (fuel := activation_fuel (index s)) (n := 0%nat) (s := s) (t := t) (best := t) (mw := @None nat) (k := 0%nat) as (e & s' & t' & best' & Hrun & Hi' & He);
    [|done|done|unfold rank, activation_fuel; nia|].
  - intros p b Hp. pose proof (top_height_spec _ _ _ Hp). lia.
  - unfold ActivateBestChain. rewrite Hrun. cbn [mbind option_bind].
    assert (Hno : no_errors -> flushes_periodic = true) by (intros (_ & _ & _ & ?); done).
    exists (match e with Returned ok => ok | _ => flushes_periodic end), s', t'.
    split; [by destruct e|]. split; [apply Hi'|]. split; [by apply (inv_tip (index s) (f_tree _ Hs) s' t' best')|]. split; [apply Hi'|].
    destruct e as [[]| |]; cbn [end_ok] in He; split; auto; try done; intros; by destruct (He ltac:(done)).
Qed.

End Checks.

(** ** [ReconsiderBlock] *)

Definition failed (b : CBlockIndex) : bool := negb (Z.land (nStatus b) BLOCK_FAILED_MASK =? 0).

(** [T'] is [T] with the failure flags of some entries in [D] cleared. *)
Definition cleared (D : nat -> Prop) (T T' : store) : Prop := forall x, T' !! x = T !! x \/
  (D x /\ exists b, T !! x = Some b /\ T' !! x = Some (clear_failed b)).

Lemma clear_failed_twice b : clear_failed (clear_failed b) = clear_failed b.
Proof. unfold clear_failed, set_status. cbn [nStatus]. by rewrite <-Z.land_assoc, Z.land_diag. Qed.

Lemma clear_failed_good b : failed (clear_failed b) = false.
Proof. unfold failed, clear_failed. cbn [nStatus set_status]. rewrite <-Z.land_assoc. change (Z.land (u32 (Z.lnot BLOCK_FAILED_MASK)) BLOCK_FAILED_MASK) with 0. by rewrite Z.land_0_r. Qed.

Lemma cleared_trans D T1 T2 T3 : cleared D T1 T2 -> cleared D T2 T3 -> cleared D T1 T3.
Proof.
  intros H1 H2 x. destruct (H1 x) as [E1|(Hd & b & Hb & E1)], (H2 x) as [E2|(Hd' & b' & Hb' & E2)].
  - left. congruence.
  - right. split; [done|]. exists b'. split; [congruence|done].
  - right. split; [done|]. exists b. split; [done|congruence].
  - right. split; [done|]. exists b. split; [done|]. rewrite E1 in Hb'. injection Hb' as <-. by rewrite clear_failed_twice in E2.
Qed.

Lemma cleared_refl D T : cleared D T T.
Proof. intros x. by left. Qed.

Lemma cleared_one (D : nat -> Prop) T p b : T !! p = Some b -> D p -> cleared D T (<[p := clear_failed b]> T).
Proof.
  intros Hp Hd x. destruct (decide (p = x)) as [<-|?]; [right; split; [done|]; exists b; by rewrite lookup_insert_eq|left].
  by rewrite lookup_insert_ne.
Qed.

Lemma cleared_alike D T T' : cleared D T T' -> alike T T'.
Proof.
  intros H x. destruct (H x) as [->|(_ & b & -> & ->)]; [destruct (T !! x); [apply same_core_refl|done]|]. by split_and!.
Qed.

Lemma cleared_keeps D T T' x b b' : cleared D T T' -> T !! x = Some b -> T' !! x = Some b' -> failed b = false -> failed b' = false.
Proof. intros H Hx Hx' Hf. destruct (H x) as [E|(_ & c & _ & E)]; [congruence|]. rewrite E in Hx'. injection Hx' as <-. apply clear_failed_good. Qed.

Lemma clear_block_spec s p b : index s !! p = Some b -> exists s1, clear_block s p = Some s1 /\ index s1 = <[p := clear_failed b]> (index s) /\
  chainActive s1 = chainActive s /\ setBlockIndexCandidates s1 = setBlockIndexCandidates s.
Proof. intros Hp. unfold clear_block. rewrite Hp. cbn. eexists. split; [reflexivity|]. done. Qed.

(** [x] is [p] or descends from it. *)
Definition descendant (T : store) (p x : nat) : Prop := exists bp, T !! p = Some bp /\ GetAncestor T x (nHeight bp) = Some (Some p).

Lemma IsValid_total b : exists v, IsValid b BLOCK_VALID_TRANSACTIONS = Some v /\ (v = true -> failed b = false).
Proof.
  unfold IsValid, failed. change (Z.land BLOCK_VALID_TRANSACTIONS (Z.lnot BLOCK_VALID_MASK) =? 0) with true. cbn [negb].
  destruct (Z.land (nStatus b) BLOCK_FAILED_MASK =? 0); cbn [negb]; eexists; (split; [reflexivity|]); done.
Qed.

(** One entry of the loop over the block index. *)
Lemma reconsider_one_spec T0 s pindex bp p b : tree_wf T0 -> alike T0 (index s) -> T0 !! pindex = Some bp -> T0 !! p = Some b ->
  is_Some (Tip (chainActive s)) ->
  exists s', reconsider_one s pindex (nHeight bp) p = Some s' /\ cleared (descendant T0 pindex) (index s) (index s') /\
    chainActive s' = chainActive s /\ setBlockIndexCandidates s ⊆ setBlockIndexCandidates s' /\
    (descendant T0 pindex p -> forall b', index s' !! p = Some b' -> failed b' = false).
Proof.
  intros Hwf Hal Hpi Hp [t Ht]. destruct (alike_lookup _ _ _ _ Hal Hp) as (b1 & Hb1 & _). pose proof (alike_tree_wf _ _ Hal Hwf) as Hwf1.
  unfold reconsider_one. rewrite Hb1. cbn [mbind option_bind]. destruct (IsValid_total b1) as (v & -> & Hv). cbn [mbind option_bind].
  assert (Hanc : GetAncestor (index s) p (nHeight bp) = GetAncestor T0 p (nHeight bp)).
  { rewrite (GetAncestor_correct T0 Hwf p b), (GetAncestor_correct (index s) Hwf1 p b1) by done.
    destruct (alike_lookup _ _ _ _ Hal Hp) as (b2 & Hb2 & (_ & _ & Hh & _) & _). assert (b2 = b1) as -> by congruence. rewrite Hh.
    by rewrite (alike_ancestor T0 (index s)). }
  rewrite Hanc. assert (Ha : exists a, GetAncestor T0 p (nHeight bp) = Some a) by (rewrite (GetAncestor_correct T0 Hwf p b) by done; case_match; by eexists).
  destruct Ha as (a & Ha). rewrite Ha. cbn [mbind option_bind].
  destruct (negb v && bool_decide (a = Some pindex)) eqn:Hc.
  - apply andb_prop in Hc as [_ Hc]. apply bool_decide_eq_true_1 in Hc as ->.
    destruct (clear_block_spec s p b1 Hb1) as (s1 & -> & Hi1 & Hc1 & Hd1). cbn [mbind option_bind].
    assert (Hbt : exists w, (if connectable (index s1) p then (t ← Tip (chainActive s1); Some (worse (index s1) t p)) else Some false) = Some w).
    { rewrite Hc1, Ht. case_match; by eexists. }
    destruct Hbt as (w & ->). cbn [mbind option_bind]. eexists. split; [reflexivity|].
    assert (Hidx : index (if bool_decide (Some p = pindexBestInvalid (if w then with_candidates s1 ({[p]} ∪ setBlockIndexCandidates s1) else s1))
      then with_best (if w then with_candidates s1 ({[p]} ∪ setBlockIndexCandidates s1) else s1)
        (pindexBestHeader (if w then with_candidates s1 ({[p]} ∪ setBlockIndexCandidates s1) else s1)) None
      else if w then with_candidates s1 ({[p]} ∪ setBlockIndexCandidates s1) else s1) = index s1) by (case_match; by destruct w).
    rewrite Hidx, Hi1. split; [apply cleared_one; [done|by exists bp]|]. split; [rewrite <-Hc1; case_match; by destruct w|].
    split; [rewrite <-Hd1; case_match; destruct w; cbn; try done; apply union_subseteq_r|].
    intros _ b'. rewrite lookup_insert_eq. intros [= <-]. apply clear_failed_good.
  - exists s. split; [done|]. split; [apply cleared_refl|]. split; [done|]. split; [done|]. intros (bp' & Hbp' & Hd) b' Hb'.
    assert (bp' = bp) as -> by congruence. rewrite Ha in Hd. injection Hd as ->. rewrite bool_decide_true, andb_true_r in Hc by done.
    assert (b' = b1) as -> by congruence. apply Hv. by destruct v.
Qed.

Lemma reconsider_all_spec T0 pindex bp l : tree_wf T0 -> T0 !! pindex = Some bp -> forall s, alike T0 (index s) -> (forall p, p ∈ l -> is_Some (T0 !! p)) ->
  is_Some (Tip (chainActive s)) ->
  exists s', reconsider_all s pindex (nHeight bp) l = Some s' /\ cleared (descendant T0 pindex) (index s) (index s') /\
    chainActive s' = chainActive s /\ setBlockIndexCandidates s ⊆ setBlockIndexCandidates s' /\
    (forall p, p ∈ l -> descendant T0 pindex p -> forall b', index s' !! p = Some b' -> failed b' = false).
Proof.
  intros Hwf Hpi. induction l as [|p l IH]; intros s Hal Hl Ht; cbn [reconsider_all].
  { exists s. split; [done|]. split; [apply cleared_refl|]. split_and!; try done. intros p Hp. by apply elem_of_nil in Hp. }
  destruct (Hl p ltac:(left)) as [b Hp]. destruct (reconsider_one_spec T0 s pindex bp p b Hwf Hal Hpi Hp Ht) as (s1 & -> & Hc1 & Hv1 & Hd1 & Hf1).
  cbn [mbind option_bind]. assert (Hal1 : alike T0 (index s1)) by (etrans; [exact Hal|by apply (cleared_alike _ _ _ Hc1)]).
  destruct (IH s1 Hal1) as (s2 & -> & Hc2 & Hv2 & Hd2 & Hf2); [intros x Hx; apply Hl; by right|by rewrite Hv1|].
  exists s2. split; [done|]. split; [by apply (cleared_trans _ _ (index s1))|]. split; [congruence|]. split; [by transitivity (setBlockIndexCandidates s1)|].
  intros x [->|Hx]%elem_of_cons Hdx b' Hb'; [|by apply (Hf2 x)].
  destruct (alike_lookup _ _ _ _ Hal1 Hp) as (b1 & Hb1 & _). by apply (cleared_keeps _ _ _ p b1 b' Hc2 Hb1 Hb'), Hf1.
Qed.

(** The ancestors of a block, itself included. *)
Definition ascendant (T : store) (p x : nat) : Prop := exists k, nth_parent T k p = Some x.

Lemma clear_ancestors_spec T0 fuel : tree_wf T0 -> forall s p b, alike T0 (index s) -> T0 !! p = Some b -> (Z.to_nat (nHeight b) < fuel)%nat ->
  exists s', clear_ancestors fuel s (Some p) = Some s' /\ cleared (ascendant T0 p) (index s) (index s') /\
    chainActive s' = chainActive s /\ setBlockIndexCandidates s' = setBlockIndexCandidates s /\
    (forall x b', ascendant T0 p x -> index s' !! x = Some b' -> failed b' = false).
Proof.
  intros Hwf. induction fuel as [|fuel IH]; intros s p b Hal Hp Hf; [lia|]. destruct (alike_lookup _ _ _ _ Hal Hp) as (b1 & Hb1 & (Hpp & _) & _).
  cbn [clear_ancestors]. rewrite Hb1. cbn [mbind option_bind].
  assert (Hself : ascendant T0 p p) by (by exists 0%nat).
  assert (Hone : exists s1, (if negb (Z.land (nStatus b1) BLOCK_FAILED_MASK =? 0) then clear_block s p else Some s) = Some s1 /\
    cleared (ascendant T0 p) (index s) (index s1) /\ chainActive s1 = chainActive s /\ setBlockIndexCandidates s1 = setBlockIndexCandidates s /\
    (forall b', index s1 !! p = Some b' -> failed b' = false)).
  { fold (failed b1). destruct (failed b1) eqn:Hfb.
    - destruct (clear_block_spec s p b1 Hb1) as (s1 & -> & Hi1 & Hc1 & Hd1). exists s1. rewrite Hi1. split; [done|]. split; [by apply cleared_one|].
      split_and!; try done. intros b'. rewrite lookup_insert_eq. intros [= <-]. apply clear_failed_good.
    - exists s. split; [done|]. split; [apply cleared_refl|]. split_and!; try done. intros b' Hb'. congruence. }
  destruct Hone as (s1 & -> & Hc1 & Hv1 & Hd1 & Hf1). cbn [mbind option_bind].
  assert (Hal1 : alike T0 (index s1)) by (etrans; [exact Hal|by apply (cleared_alike _ _ _ Hc1)]).
  destruct (alike_lookup _ _ _ _ Hal1 Hp) as (b2 & Hb2 & _). rewrite Hpp. destruct (pprev b) as [q|] eqn:Hq.
  - destruct (Hwf p b Hp) as [Hh He]. unfold entry_ok in He. rewrite Hq in He. destruct He as (bq & Hbq & Hhq & _). pose proof (proj1 (Hwf q bq Hbq)).
    destruct (IH s1 q bq Hal1 Hbq ltac:(lia)) as (s2 & -> & Hc2 & Hv2 & Hd2 & Hf2). exists s2.
    assert (Hup : forall x, ascendant T0 q x -> ascendant T0 p x) by (intros x (k & Hk); exists (S k); cbn; rewrite Hp; cbn; by rewrite Hq).
    split; [done|]. split; [|split_and!; try congruence].
    + apply (cleared_trans _ _ (index s1)); [done|]. intros x. destruct (Hc2 x) as [?|[? ?]]; [by left|right; auto].
    + intros x b' ([|k] & Hk) Hb'; [cbn in Hk; injection Hk as <-; by apply (cleared_keeps _ _ _ p b2 b' Hc2 Hb2 Hb'), Hf1|].
      apply (Hf2 x b'); [|done]. exists k. cbn in Hk. rewrite Hp in Hk. cbn in Hk. by rewrite Hq in Hk.
  - exists s1. split; [by destruct fuel|]. split_and!; try done. intros x b' ([|k] & Hk) Hb'; [cbn in Hk; injection Hk as <-; by apply Hf1|].
    cbn in Hk. rewrite Hp in Hk. cbn in Hk. by rewrite Hq in Hk.
Qed.

(** [ReconsiderBlock] clears the failure flags of the block, of its
    ancestors and of its descendants, and changes no other entry; it drops no
    candidate and leaves the active chain alone. *)
Theorem ReconsiderBlock_clears s p b : index_ok s -> index s !! p = Some b -> is_Some (Tip (chainActive s)) ->
  exists s', ReconsiderBlock s p = Some s' /\ alike (index s) (index s') /\ chainActive s' = chainActive s /\
    setBlockIndexCandidates s ⊆ setBlockIndexCandidates s' /\
    (forall x b', descendant (index s) p x \/ ascendant (index s) p x -> index s' !! x = Some b' -> failed b' = false) /\
    (forall x, index s' !! x <> index s !! x -> descendant (index s) p x \/ ascendant (index s) p x).
Proof.
  intros (Hwf & _ & _ & Hm1 & Hm2) Hp Ht. unfold ReconsiderBlock. rewrite Hp. cbn [mbind option_bind]. set (T0 := index s) in *.
  assert (Hall : forall x, x ∈ all_blocks s <-> is_Some (T0 !! x)).
  { intros x. unfold all_blocks. rewrite list_elem_of_fmap. split.
    - intros ([h y] & -> & Hy%elem_of_map_to_list). destruct (Hm1 h y Hy) as (bx & ? & _). by exists bx.
    - intros [bx Hx]. exists (hashBlock bx, x). split; [done|]. apply elem_of_map_to_list. by apply Hm2. }
  destruct (reconsider_all_spec T0 p b (all_blocks s) Hwf Hp s) as (s1 & -> & Hc1 & Hv1 & Hd1 & Hf1); [done|intros x Hx; by apply Hall|done|].
  cbn [mbind option_bind]. pose proof (cleared_alike _ _ _ Hc1) as Hal1. pose proof (proj1 (Hwf p b Hp)).
  destruct (clear_ancestors_spec T0 (Z.to_nat (nHeight b + 1)) Hwf s1 p b Hal1 Hp ltac:(lia)) as (s2 & -> & Hc2 & Hv2 & Hd2 & Hf2). exists s2.
  pose proof (cleared_alike _ _ _ Hc2) as Hal2. split; [done|]. split; [by transitivity (index s1)|]. split; [congruence|]. split; [by rewrite Hd2|]. split.
  - intros x b' [Hd|Ha] Hb'; [|by apply (Hf2 x)]. destruct (alike_inv _ _ _ _ Hal2 Hb') as (b1 & Hb1 & _), (alike_inv _ _ _ _ Hal1 Hb1) as (b0 & Hb0 & _).
    apply (cleared_keeps _ _ _ x b1 b' Hc2 Hb1 Hb'), (Hf1 x); [apply Hall; by eexists|done|done].
  - intros x Hx. destruct (Hc1 x) as [E1|[? _]]; [|by left]. destruct (Hc2 x) as [E2|[? _]]; [destruct Hx; exact (eq_trans E2 E1)|by right].
Qed.

(** ** [InvalidateBlock] *)

Section Invalidate.
Context {BC : BlockChecks}.
Context (T0 : store) (Hwf : tree_wf T0) (Hdisc : forall x, disconnects x = true).

(** The parts of the state that marking blocks leaves alone. *)
Definition marks_only (D : nat -> Prop) (s s' : chainstate) : Prop :=
  marked D (index s) (index s') /\ setBlockIndexCandidates s' ⊆ setBlockIndexCandidates s /\ mapBlockIndex s' = mapBlockIndex s /\
  (forall i, pindexBestInvalid s' = Some i -> pindexBestInvalid s = Some i \/ is_Some (T0 !! i)).

Lemma lower_header_spec s p : alike T0 (index s) -> is_Some (T0 !! p) -> exists s', lower_header s p = Some s' /\ index s' = index s /\
  setBlockIndexCandidates s' = setBlockIndexCandidates s /\ mapBlockIndex s' = mapBlockIndex s /\ chainActive s' = chainActive s /\
  (forall i, pindexBestInvalid s' = Some i -> pindexBestInvalid s = Some i \/ is_Some (T0 !! i)).
Proof.
  intros Hal [b Hp]. destruct (alike_lookup _ _ _ _ Hal Hp) as (b1 & Hb1 & _). unfold lower_header. case_bool_decide.
  - rewrite Hb1. cbn. eexists. split; [reflexivity|]. split_and!; try done. intros i [= <-]. right. by eexists.
  - exists s. split_and!; try done. by left.
Qed.

Lemma DisconnectTip_path s t q b : alike T0 (index s) -> chainActive s = path T0 t -> T0 !! t = Some b -> pprev b = Some q ->
  DisconnectTip s = Some (true, with_chain s (path T0 q)).
Proof using Hwf Hdisc.
  intros Hal Hc Ht Hq. destruct (alike_lookup _ _ _ _ Hal Ht) as (b1 & Hb1 & (Hpp & _) & _). pose proof (alike_tree_wf _ _ Hal Hwf) as Hwf1.
  destruct (Hwf t b Ht) as [_ He]. unfold entry_ok in He. rewrite Hq in He. destruct He as (bq & Hbq & _).
  destruct (alike_lookup _ _ _ _ Hal Hbq) as (bq1 & Hbq1 & _).
  unfold DisconnectTip. rewrite Hc, (Tip_path T0 Hwf t b Ht). cbn [mbind option_bind]. rewrite Hb1. cbn [mbind option_bind]. rewrite Hdisc, Hpp, Hq.
  cbn [mbind option_bind]. unfold UpdateTip. rewrite Hc. rewrite (SetTip_correct (index s) Hwf1 _ q bq1); [|right; exists t; split; [by eexists|]|done].
  - cbn [mbind option_bind]. by rewrite (alike_path T0 (index s)).
  - by rewrite (alike_path T0 (index s)).
Qed.

(** Disconnecting the active blocks from the tip down to [p]. *)
Lemma invalidate_loop_spec p bp q n : T0 !! p = Some bp -> pprev bp = Some q -> forall fuel s t bt, alike T0 (index s) -> chainActive s = path T0 t ->
  T0 !! t = Some bt -> nth_parent T0 n t = Some p -> (n < fuel)%nat ->
  exists s', invalidate_loop fuel s p = Some (true, s') /\ chainActive s' = path T0 q /\
    marks_only (fun x => exists k, (k <= n)%nat /\ nth_parent T0 k t = Some x) s s'.
Proof using Hwf Hdisc.
  intros Hp Hq. induction n as [|n IH]; intros fuel s t bt Hal Hc Ht Hn Hf; (destruct fuel as [|fuel]; [lia|]);
    destruct (alike_lookup _ _ _ _ Hal Ht) as (b1 & Hb1 & _); cbn [invalidate_loop];
    destruct (nth_ancestor T0 Hwf _ t bt p Ht Hn) as (bp' & Hbp' & Hh & Ha); assert (bp' = bp) as -> by congruence;
    (assert (Hcont : Contains (index s) (chainActive s) p = Some true) by
      (rewrite (alike_Contains T0 (index s)) by done; rewrite Hc, (Contains_path T0 Hwf t bt p bp) by done; f_equal; apply bool_decide_eq_true_2; split; [lia|done]));
    rewrite Hcont; cbn [mbind option_bind negb]; rewrite Hc, (Tip_path T0 Hwf t bt Ht); cbn [mbind option_bind];
    unfold fail_block at 1, raise_flag at 1; rewrite Hb1; cbn [mbind option_bind]; fold (fail_child b1);
    match goal with |- context [DisconnectTip ?x] => set (s1 := x) end;
    (assert (Hm1 : marked (fun x => exists k, (k <= 0)%nat /\ nth_parent T0 k t = Some x) (index s) (index s1)) by
      (cbn; apply marked_one; [done|]; by exists 0%nat));
    (assert (Hal1 : alike T0 (index s1)) by (etrans; [exact Hal|by apply (marked_alike _ _ _ Hm1)])).
  - cbn in Hn. injection Hn as <-. assert (bt = bp) as -> by congruence.
    rewrite (DisconnectTip_path s1 t q bp Hal1 Hc Hp Hq). cbn [mbind option_bind negb].
    destruct (lower_header_spec (with_chain s1 (path T0 q)) t Hal1 ltac:(by eexists)) as (s2 & -> & Hi2 & Hd2 & Hmp2 & Hv2 & Hb2). cbn [mbind option_bind].
    destruct (Hwf t bp Hp) as [_ He]. unfold entry_ok in He. rewrite Hq in He. destruct He as (bq & Hbq & Hhq & _).
    exists s2. split; [|split; [by rewrite Hv2|]].
    + assert (Hf2 : Contains (index s2) (chainActive s2) t = Some false).
      { rewrite Hi2, Hv2. cbn [index chainActive with_chain]. rewrite (alike_Contains T0 (index s1)) by done. rewrite (Contains_path T0 Hwf q bq t bp) by done.
        f_equal. apply bool_decide_eq_false_2. intros [? _]. lia. }
      destruct fuel; cbn [invalidate_loop]; by rewrite Hf2.
    + split; [by rewrite Hi2|]. split; [rewrite Hd2; cbn; by intros x [? _]%elem_of_difference|]. split; [done|]. intros i Hi. by destruct (Hb2 i Hi); [left|right].
  - pose proof Hn as Hn'. cbn [nth_parent] in Hn'. rewrite Ht in Hn'. cbn in Hn'. destruct (pprev bt) as [r|] eqn:Hr; [|done]. cbn in Hn'.
    destruct (Hwf t bt Ht) as [_ He]. unfold entry_ok in He. rewrite Hr in He. destruct He as (br & Hbr & _).
    rewrite (DisconnectTip_path s1 t r bt Hal1 Hc Ht Hr). cbn [mbind option_bind negb].
    destruct (lower_header_spec (with_chain s1 (path T0 r)) t Hal1 ltac:(by eexists)) as (s2 & -> & Hi2 & Hd2 & Hmp2 & Hv2 & Hb2). cbn [mbind option_bind].
    destruct (IH fuel s2 r br) as (s3 & -> & Hc3 & Hm3 & Hd3 & Hmp3 & Hb3); [by rewrite Hi2|by rewrite Hv2|done|done|lia|].
    exists s3. split; [done|]. split; [done|]. split; [|split; [|split; [by rewrite Hmp3, Hmp2|]]].
    + apply (marked_trans _ _ (index s1)); intros x; [destruct (Hm1 x) as [?|[(k & Hk & Hx) ?]]|rewrite Hi2 in Hm3; destruct (Hm3 x) as [?|[(k & Hk & Hx) ?]]];
        [by left|right; split; [exists k; split; [lia|done]|done]|by left|right; split; [|done]].
      exists (S k). split; [lia|]. cbn [nth_parent]. rewrite Ht. cbn. by rewrite Hr.
    + rewrite Hd3, Hd2. cbn. by intros x [? _]%elem_of_difference.
    + intros i Hi. destruct (Hb3 i Hi) as [H3|]; [|by right]. by destruct (Hb2 i H3); [left|right].
Qed.
End Invalidate.

Lemma InvalidChainFound_frame s t p : is_Some (index s !! p) -> Tip (chainActive s) = Some t -> (forall i, pindexBestInvalid s = Some i -> is_Some (index s !! i)) ->
  exists s', InvalidChainFound s p = Some s' /\ index s' = index s /\ chainActive s' = chainActive s /\ setBlockIndexCandidates s' = setBlockIndexCandidates s.
Proof.
  intros [b Hp] Ht Hi. unfold InvalidChainFound. rewrite Hp. cbn [mbind option_bind].
  assert (Hw : exists w, match pindexBestInvalid s with
      | None => Some true | Some i => (bi ← index s !! i; Some (gtb (nChainWork b) (nChainWork bi))) end = Some w).
  { destruct (pindexBestInvalid s) as [i|] eqn:Hbi; [|by eexists]. destruct (Hi i eq_refl) as [bi ->]. by eexists. }
  destruct Hw as (w & ->). cbn [mbind option_bind]. rewrite Ht. cbn [mbind option_bind]. eexists. split; [reflexivity|]. by destruct w.
Qed.

Lemma failed_not_connectable T p b : T !! p = Some b -> failed b = true -> connectable T p = false.
Proof.
  intros Hp Hf. unfold connectable. rewrite Hp. destruct (IsValid_total b) as (v & -> & Hv). rewrite bool_decide_false; [done|]. intros [= ->].
  by rewrite Hv in Hf.
Qed.

Lemma failed_flag b : failed (set_status b (Z.lor (nStatus b) BLOCK_FAILED_VALID)) = true.
Proof.
  unfold failed. cbn [nStatus set_status]. apply negb_true_iff, Z.eqb_neq. intros H.
  assert (Ht : Z.testbit (Z.land (Z.lor (nStatus b) BLOCK_FAILED_VALID) BLOCK_FAILED_MASK) 5 = true) by (rewrite Z.land_spec, Z.lor_spec; by rewrite orb_true_r).
  rewrite H in Ht. done.
Qed.

Lemma marked_failed D T T' x b b' : marked D T T' -> T !! x = Some b -> T' !! x = Some b' -> failed b = true -> failed b' = true.
Proof.
  intros Hm Hx Hx' Hf. destruct (Hm x) as [E|(_ & c & Hc & E)]; [congruence|]. rewrite E in Hx'. injection Hx' as <-. assert (c = b) as -> by congruence.
  unfold failed in *. cbn [nStatus set_status fail_child]. apply negb_true_iff, Z.eqb_neq. apply negb_true_iff, Z.eqb_neq in Hf.
  rewrite Z.land_lor_distr_l. intros [H _]%Z.lor_eq_0_iff. done.
Qed.

(** Where the active chain goes when [p] is given up. *)
Definition tip_without (T : store) (t p q : nat) : nat :=
  if bool_decide (Contains T (path T t) p = Some true) then q else t.

(** The disconnections, after the block has been marked. *)
Lemma invalidate_disconnect {BC : BlockChecks} T0 s t bt p bp q : tree_wf T0 -> (forall x, disconnects x = true) -> alike T0 (index s) ->
  chainActive s = path T0 t -> T0 !! t = Some bt -> T0 !! p = Some bp -> pprev bp = Some q ->
  exists s' D, invalidate_loop (length (chainActive s)) s p = Some (true, s') /\ chainActive s' = path T0 (tip_without T0 t p q) /\
    Contains T0 (path T0 (tip_without T0 t p q)) p = Some false /\ is_Some (T0 !! tip_without T0 t p q) /\ marks_only T0 D s s'.
Proof.
  intros Hwf Hdisc Hal Hc Ht Hp Hq. unfold tip_without. case_bool_decide as Hd.
  - destruct (Hwf p bp Hp) as [Hh0 He]. unfold entry_ok in He. rewrite Hq in He. destruct He as (bq & Hbq & Hhq & _).
    pose proof Hd as Hd'. rewrite (Contains_path T0 Hwf t bt p bp) in Hd' by done. injection Hd' as Hd'. apply bool_decide_eq_true_1 in Hd' as [Hle Hanc].
    unfold ancestor in Hanc. rewrite Ht in Hanc. cbn in Hanc.
    destruct (invalidate_loop_spec T0 Hwf Hdisc p bp q (Z.to_nat (nHeight bt - nHeight bp)) Hp Hq (length (chainActive s)) s t bt Hal Hc Ht Hanc)
      as (s' & Hrun & Hc' & Hm); [rewrite Hc, (path_length T0 t bt Ht); lia|].
    exists s'. eexists. split; [done|]. split; [done|]. split; [|split; [by eexists|exact Hm]].
    rewrite (Contains_path T0 Hwf q bq p bp) by done. f_equal. apply bool_decide_eq_false_2. intros [? _]. lia.
  - destruct (Contains_some T0 (path T0 t) p bp Hp) as (c & Hcc). destruct c; [done|].
    exists s, (fun _ => False). split; [|split; [done|split; [done|split; [by eexists|]]]].
    + assert (Hf : Contains (index s) (chainActive s) p = Some false) by (rewrite (alike_Contains T0 (index s)) by done; by rewrite Hc).
      destruct (length (chainActive s)); cbn [invalidate_loop]; by rewrite Hf.
    + split; [apply marked_refl|]. split; [done|]. split; [done|]. by left.
Qed.

(** [InvalidateBlock], when no disconnection fails, leaves the block marked
    and outside the active chain, which ends at the block's parent if the block
    was active and is unchanged otherwise; the block is no candidate, and every
    complete block that has not failed and is not worse than the new tip is a
    candidate again. *)
Theorem InvalidateBlock_effect {BC : BlockChecks} s t bt p bp q : index_ok s -> chainActive s = path (index s) t -> index s !! t = Some bt ->
  index s !! p = Some bp -> pprev bp = Some q -> (forall x, disconnects x = true) -> (forall i, pindexBestInvalid s = Some i -> is_Some (index s !! i)) ->
  exists s', InvalidateBlock s p = Some (true, s') /\ alike (index s) (index s') /\ chainActive s' = path (index s) (tip_without (index s) t p q) /\
    Contains (index s') (chainActive s') p = Some false /\ (exists b', index s' !! p = Some b' /\ failed b' = true) /\ (p ∉ setBlockIndexCandidates s') /\
    (forall x, connectable (index s') x = true -> worse (index s') x (tip_without (index s) t p q) = false -> x ∈ setBlockIndexCandidates s').
Proof.
  intros (Hwf & _ & _ & Hm1 & Hm2) Hc Ht Hp Hq Hdisc Hinv. set (T0 := index s) in *. set (t' := tip_without T0 t p q).
  unfold InvalidateBlock, fail_block, raise_flag. fold T0. rewrite Hp. cbn [mbind option_bind].
  set (b1 := set_status bp (Z.lor (nStatus bp) BLOCK_FAILED_VALID)). set (s1 := with_candidates _ _).
  assert (Hal1 : alike T0 (index s1)) by (by apply (alike_insert _ _ bp)).
  destruct (lower_header_spec T0 s1 p Hal1 ltac:(by eexists)) as (s2 & -> & Hi2 & Hd2 & Hmp2 & Hc2 & Hb2). cbn [mbind option_bind].
  assert (Hal2 : alike T0 (index s2)) by (by rewrite Hi2).
  destruct (invalidate_disconnect T0 s2 t bt p bp q Hwf Hdisc Hal2) as (s3 & D & -> & Hc3 & Hcont & [bt' Ht'] & Hm3 & Hd3 & Hmp3 & Hb3); [by rewrite Hc2|done|done|done|].
  cbn [mbind option_bind negb]. pose proof (marked_alike _ _ _ Hm3) as Hal23. assert (Hal3 : alike T0 (index s3)) by (etrans; [exact Hal2|exact Hal23]).
  assert (Htip : Tip (chainActive s3) = Some t') by (rewrite Hc3; by apply (Tip_path T0 Hwf t' bt')). rewrite Htip. cbn [mbind option_bind].
  assert (Hp1 : index s2 !! p = Some b1) by (rewrite Hi2; by apply lookup_insert_eq). destruct (alike_lookup _ _ _ _ Hal23 Hp1) as (b3 & Hp3 & _).
  pose proof (marked_failed _ _ _ p b1 b3 Hm3 Hp1 Hp3 (failed_flag bp)) as Hf3. set (again := filter _ (all_blocks s3)).
  destruct (InvalidChainFound_frame (with_candidates s3 (setBlockIndexCandidates s3 ∪ list_to_set again)) t' p) as (s4 & -> & Hi4 & Hc4 & Hd4); [by eexists|done| |].
  { intros i Hi. assert (H0 : is_Some (T0 !! i)); [|destruct H0 as [bi Hbi]; destruct (alike_lookup _ _ _ _ Hal3 Hbi) as (? & ? & _); by eexists].
    destruct (Hb3 i Hi) as [H3|]; [|done]. destruct (Hb2 i H3) as [H2|]; [|done]. by apply Hinv. }
  cbn [mbind option_bind]. exists s4. rewrite Hi4, Hc4, Hd4. cbn [index chainActive setBlockIndexCandidates with_candidates].
  split; [done|]. split; [done|]. split; [done|]. split; [by rewrite (alike_Contains T0 (index s3)), Hc3|]. split; [by exists b3|]. split.
  - intros [Hin|Hin]%elem_of_union.
    + apply Hd3 in Hin. rewrite Hd2 in Hin. apply elem_of_difference in Hin as [_ Hn]. by apply Hn, elem_of_singleton.
    + apply elem_of_list_to_set in Hin. unfold again in Hin. apply list_elem_of_filter in Hin as [Hcon _].
      by rewrite (failed_not_connectable _ p b3) in Hcon.
  - intros x Hcon Hw. apply elem_of_union_r, elem_of_list_to_set. unfold again. apply list_elem_of_filter. split; [by rewrite Hcon, Hw|].
    unfold connectable in Hcon. destruct (index s3 !! x) as [bx|] eqn:Hx; [|done]. destruct (alike_inv _ _ _ _ Hal3 Hx) as (bx0 & Hx0 & _).
    unfold all_blocks. apply list_elem_of_fmap. exists (hashBlock bx0, x). split; [done|]. apply elem_of_map_to_list. rewrite Hmp3, Hmp2. by apply Hm2.
Qed.

(** Three blocks on a chain, the last of which violates a rule; the first one is
    active. *)
Definition ex_checks : BlockChecks :=
  {| connects p := if (p =? 2)%nat then Rejected false else Accepted; disconnects _ := true; flushes _ := true; undo_position _ := 0;
     ShutdownRequested _ := false; flushes_periodic := true |}.
Definition ex_active : chainstate := with_chain ex_linked (path (index ex_linked) 0).

Lemma ex_entry p b : index ex_active !! p = Some b -> (p < 3)%nat.
Proof.
  intros Hp. apply elem_of_map_to_list in Hp. apply (list_elem_of_fmap_2 fst) in Hp.
  assert (He : map fst (map_to_list (index ex_active)) = [2; 1; 0]%nat) by (vm_compute; reflexivity). cbn [fst] in Hp. unfold fmap, list_fmap in Hp.
  change (p ∈ map fst (map_to_list (index ex_active))) in Hp. rewrite He in Hp. clear He. rewrite !elem_of_cons, elem_of_nil in Hp. lia.
Qed.

Lemma chain_with_chain s t : chainActive (with_chain s (path (index s) t)) = path (index (with_chain s (path (index s) t))) t.
Proof. done. Qed.

Lemma search_with_chain s v : search_ok s -> search_ok (with_chain s v).
Proof. intros [? ? ? ? ?]. by split. Qed.

Lemma ex_active_ok : @activation_ok ex_checks ex_active 0 0.
Proof.
  assert (Hall : forall x, (x < 3)%nat -> linked (index ex_active) x /\ x ∈ setBlockIndexCandidates ex_active).
  { intros x Hx. assert (H : forallb (fun y => bool_decide (linked (index ex_active) y) && bool_decide (y ∈ setBlockIndexCandidates ex_active)) (seq 0 3) = true)
      by (vm_compute; reflexivity). rewrite forallb_forall in H. specialize (H x ltac:(apply in_seq; lia)). apply andb_prop in H as [H1 H2].
    exact (conj (bool_decide_eq_true_1 (linked (index ex_active) x) H1) (bool_decide_eq_true_1 (x ∈ setBlockIndexCandidates ex_active) H2)). }
  split.
  - exact (search_with_chain ex_linked _ ex_linked_search).
  - intros p b Hp Hq. pose proof (ex_entry p b Hp) as Hlt. destruct p as [|[|[|p]]]; [reflexivity|..|lia]; vm_compute in Hp; injection Hp as <-; discriminate Hq.
  - exact (chain_with_chain ex_linked 0).
  - split; [|apply Hall; lia]. destruct (index ex_active !! 0%nat) as [b|] eqn:Hb; [|vm_compute in Hb; discriminate Hb].
    assert (Hv : bad b = false /\ pprev b = None) by (vm_compute in Hb; injection Hb as <-; split; reflexivity). destruct Hv as [Hbad Hq].
    apply (@valid_intro ex_checks _ _ b Hb Hbad eq_refl). intros q H. congruence.
  - intros x Hv _ _. destruct Hv as [x b Hx _ _ _]. apply Hall. by apply (ex_entry x b).
Qed.

Lemma ActivateBestChain_best_witness : exists s', @ActivateBestChain ex_checks ex_active = Some (true, s') /\ Tip (chainActive s') = Some 1%nat.
Proof.
  destruct (@ActivateBestChain_best ex_checks ex_active 0 0 ex_active_ok) as (ok & s' & t' & Hrun & _ & Htip & _ & Hok & _).
  - intros p. cbn. destruct (p =? 2)%nat; discriminate.
  - assert (He : ok = true). { apply Hok. split; [|split; [reflexivity|split; reflexivity]]. intros p. cbn. destruct (p =? 2)%nat; discriminate. }
    subst ok. exists s'. split; [exact Hrun|]. assert (Hc : fmap (fun r => Tip (chainActive r.2)) (@ActivateBestChain ex_checks ex_active) = Some (Some 1%nat)) by (vm_compute; reflexivity).
    rewrite Hrun in Hc. cbn in Hc. congruence.
Defined.

(** The second of the three blocks is given up while all three are active. *)
Lemma ex_linked_index : index_ok ex_linked.
Proof. apply (c_index 1000). apply reached_ok; [lia|]. apply (rtc_r _ ex_waiting); [exact ex_waiting_reached|exact ex_linked_arrives]. Qed.

Lemma index_ok_chain s v : index_ok s -> index_ok (with_chain s v).
Proof. done. Qed.

Lemma raise_flag_index s s' p flag : raise_flag s p flag = Some s' -> index_ok s -> index_ok s'.
Proof.
  unfold raise_flag. destruct (index s !! p) as [b|] eqn:Hp; [|done]. cbn [mbind option_bind]. intros [= <-].
  by apply (index_ok_same s _ p b (set_status b (Z.lor (nStatus b) flag))).
Qed.

Definition ex_three : chainstate := with_chain ex_linked (path (index ex_linked) 2).

Lemma InvalidateBlock_effect_witness : exists s', @InvalidateBlock ex_checks ex_three 1 = Some (true, s') /\ Tip (chainActive s') = Some 0%nat.
Proof.
  destruct (index ex_three !! 2%nat) as [b2|] eqn:H2; [|vm_compute in H2; discriminate H2].
  destruct (index ex_three !! 1%nat) as [b1|] eqn:H1; [|vm_compute in H1; discriminate H1].
  assert (Hq : pprev b1 = Some 0%nat) by (vm_compute in H1; injection H1 as <-; reflexivity).
  destruct (@InvalidateBlock_effect ex_checks ex_three 2 b2 1 b1 0) as (s' & Hrun & _);
    [exact (index_ok_chain ex_linked _ ex_linked_index)|exact (chain_with_chain ex_linked 2)|exact H2|exact H1|exact Hq|reflexivity| |].
  - intros i Hi. assert (Hn : pindexBestInvalid ex_three = None) by (vm_compute; reflexivity). congruence.
  - exists s'. split; [exact Hrun|]. assert (Hc : fmap (fun r => Tip (chainActive r.2)) (@InvalidateBlock ex_checks ex_three 1) = Some (Some 0%nat)) by (vm_compute; reflexivity).
    rewrite Hrun in Hc. cbn in Hc. congruence.
Defined.

(** The failed block is reconsidered. *)
Definition ex_reconsider : chainstate := with_chain ex_failed (path (index ex_failed) 0).

Lemma ex_failed_index : index_ok ex_reconsider.
Proof.
  apply index_ok_chain. destruct (raise_flag ex_linked 1 BLOCK_FAILED_VALID) as [s'|] eqn:Hr; [|vm_compute in Hr; discriminate].
  unfold ex_failed. rewrite Hr. exact (raise_flag_index _ _ _ _ Hr ex_linked_index).
Qed.

Lemma ReconsiderBlock_clears_witness : exists s', ReconsiderBlock ex_reconsider 1 = Some s' /\
  forall b', index s' !! 1%nat = Some b' -> failed b' = false.
Proof.
  destruct (index ex_reconsider !! 1%nat) as [b|] eqn:Hb; [|vm_compute in Hb; discriminate Hb].
  destruct (ReconsiderBlock_clears ex_reconsider 1 b ex_failed_index Hb) as (s' & Hrun & _ & _ & _ & Hf & _).
  - exists 0%nat. vm_compute. reflexivity.
  - exists s'. split; [exact Hrun|]. intros b' Hb'. apply (Hf 1%nat b'); [|exact Hb']. right. exists 0%nat. reflexivity.
Defined.

End Activation.
