(* ===== verification/Encodings.v ===== *)
(** * Text encodings (utilstrencodings.h/.cpp, base58.h/.cpp)

    A [std::string] is the list of its characters as bytes; a [const char*] is
    the list of the characters before the terminating NUL, so reading past the
    last one gives 0.  Hexadecimal, base 58 and base 64 are translated from the
    loops of the code; the theorems are round trips, and that the fixed-size
    buffers of the base 58 routines never overflow (their assertions hold). *)

From stdpp Require Import base list list_numbers numbers option strings.
From Stdlib Require Import ZArith Lia.
From S2P Require Import Prelude Script Transaction Interpreter InterpreterSafety Standard.

Local Open Scope Z_scope.

Module Encodings.
Import Script Transaction Interpreter InterpreterSafety.

(** ** Characters and literals *)

(** The bytes of a string literal. *)
Definition str (s : string) : list Z :=
  (fun a => Z.of_N (Ascii.N_of_ascii a)) <$> String.list_ascii_of_string s.

(** [s.c_str()] read as a C string ends at the first NUL. *)
Fixpoint c_str (s : list Z) : list Z :=
  match s with
  | c :: s' => if c =? 0 then [] else c :: c_str s'
  | [] => []
  end.

(** [isspace] and [isdigit] of the "C" locale. *)
Definition isspace (c : Z) : bool := (c =? 32) || ((9 <=? c) && (c <=? 13)).
Definition isdigit (c : Z) : bool := (48 <=? c) && (c <=? 57).

Fixpoint skip_spaces (p : list Z) : list Z :=
  match p with
  | c :: p' => if isspace c then skip_spaces p' else p
  | [] => []
  end.

(** The first position of a character ([strchr], a lookup table read backwards). *)
Fixpoint index_of (c : Z) (l : list Z) : option nat :=
  match l with
  | d :: l' => if c =? d then Some O else S <$> index_of c l'
  | [] => None
  end.

(** ** Hexadecimal *)

(** [p_util_hexdigit]. *)
Definition HexDigit (c : Z) : Z :=
  if (48 <=? c) && (c <=? 57) then c - 48
  else if (65 <=? c) && (c <=? 70) then c - 55
  else if (97 <=? c) && (c <=? 102) then c - 87
  else -1.

Definition hexmap : list Z := str "0123456789abcdef".

Fixpoint HexStr (v : list Z) : list Z :=
  match v with
  | b :: v' => hexmap !!! Z.to_nat (Z.shiftr b 4) :: hexmap !!! Z.to_nat (Z.land b 15) :: HexStr v'
  | [] => []
  end.

Definition IsHex (s : list Z) : bool :=
  forallb (fun c => 0 <=? HexDigit c) s && (0 <? Z.of_nat (length s)) && (Z.of_nat (length s) mod 2 =? 0).

Fixpoint ParseHex_loop (p : list Z) : list Z :=
  match p with
  | c :: p' =>
      if isspace c then ParseHex_loop p'
      else if HexDigit c =? -1 then []
      else match p' with
           | d :: p'' =>
               if HexDigit d =? -1 then []
               else Z.lor (u8 (Z.shiftl (HexDigit c) 4)) (HexDigit d) :: ParseHex_loop p''
           | [] => []
           end
  | [] => []
  end.

Definition ParseHex (s : list Z) : list Z := ParseHex_loop (c_str s).

(** ** Base 58 *)

Definition pszBase58 : list Z := str "123456789ABCDEFGHJKLMNPQRSTUVWXYZabcdefghijkmnopqrstuvwxyz".

(** The inner loop [b = b * mult + carry] over the digits of the buffer, least
    significant first ([rbegin] to [rend]); [i] digits are done and at least
    [length] must be.  Returns the digits, the carry left and the count. *)
Fixpoint mul_add (mult base carry : Z) (i length : nat) (b : list Z) : list Z * Z * nat :=
  match b with
  | [] => ([], carry, i)
  | d :: b' =>
      if (carry =? 0) && (length <=? i)%nat then (b, carry, i)
      else
        let c := carry + mult * d in
        let '(r, k, j) := mul_add mult base (c / base) (S i) length b' in
        (c mod base :: r, k, j)
  end.

Fixpoint skip_zeroes (v : list Z) : list Z :=
  match v with
  | d :: v' => if d =? 0 then skip_zeroes v' else v
  | [] => []
  end.

(** The leading elements equal to [x], counted and skipped. *)
Fixpoint count_skip (x : Z) (v : list Z) : nat * list Z :=
  match v with
  | d :: v' => if d =? x then let '(n, r) := count_skip x v' in (S n, r) else (O, v)
  | [] => (O, [])
  end.

(** The bytes of the input, [None] when [assert(carry == 0)] fails. *)
Fixpoint encode_loop (v b58 : list Z) (len : nat) : option (list Z * nat) :=
  match v with
  | [] => Some (b58, len)
  | b :: v' =>
      let '(b58', carry, len') := mul_add 256 58 b 0 len b58 in
      if carry =? 0 then encode_loop v' b58' len' else None
  end.

Definition EncodeBase58 (v : list Z) : option (list Z) :=
  let '(zeroes, w) := count_skip 0 v in
  let size := Z.to_nat (Z.of_nat (length w) * 138 / 100 + 1) in
  '(b58, len) ← encode_loop w (replicate size 0) 0;
  Some (replicate zeroes 49 ++
    ((fun d => pszBase58 !!! Z.to_nat d) <$> skip_zeroes (rev (take len b58)))).

(** The characters of the input: [None] is a failed assertion, [Some None] a
    character outside the alphabet; else what is left to read and the buffer. *)
Fixpoint decode_loop (psz b256 : list Z) (len : nat) : option (option (list Z * list Z * nat)) :=
  match psz with
  | [] => Some (Some ([], b256, len))
  | c :: psz' =>
      if isspace c then Some (Some (psz, b256, len))
      else match index_of c pszBase58 with
           | None => Some None
           | Some k =>
               let '(b', carry, len') := mul_add 58 256 (Z.of_nat k) 0 len b256 in
               if carry =? 0 then decode_loop psz' b' len' else None
           end
  end.

(** [None] is a failed assertion, [Some None] the result [false]. *)
Definition DecodeBase58 (s : list Z) : option (option (list Z)) :=
  let '(zeroes, psz) := count_skip 49 (skip_spaces (c_str s)) in
  let size := Z.to_nat (Z.of_nat (length psz) * 733 / 1000 + 1) in
  r ← decode_loop psz (replicate size 0) 0;
  match r with
  | None => Some None
  | Some (rest, b256, len) =>
      match skip_spaces rest with
      | _ :: _ => Some None
      | [] => Some (Some (replicate zeroes 0 ++ skip_zeroes (rev (take len b256))))
      end
  end.

Section Check58.
Context `{!Crypto}.

Definition EncodeBase58Check (v : list Z) : option (list Z) :=
  EncodeBase58 (v ++ take 4 (CHash256 v)).

Definition DecodeBase58Check (s : list Z) : option (option (list Z)) :=
  r ← DecodeBase58 s;
  match r with
  | None => Some None
  | Some v =>
      if (length v <? 4)%nat then Some None
      else
        let d := take (length v - 4) v in
        if bool_decide (take 4 (CHash256 d) = drop (length v - 4) v) then Some (Some d)
        else Some None
  end.

End Check58.

(** ** Hexadecimal: lemmas *)

Lemma hex_digit_table n : 0 <= n < 16 ->
  HexDigit (hexmap !!! Z.to_nat n) = n /\ isspace (hexmap !!! Z.to_nat n) = false /\
  (hexmap !!! Z.to_nat n =? 0) = false.
Proof.
  intros Hn. assert (Hall : forallb (fun k => let c := hexmap !!! Z.to_nat k in
    (HexDigit c =? k) && negb (isspace c) && negb (c =? 0)) (seqZ 0 16) = true) by reflexivity.
  rewrite forallb_forall in Hall. specialize (Hall n).
  rewrite <- list_elem_of_In, elem_of_seqZ in Hall. specialize (Hall Hn). cbn zeta in Hall.
  apply andb_prop in Hall as [Hall H3]. apply andb_prop in Hall as [H1 H2].
  apply Z.eqb_eq in H1. apply negb_true_iff in H2, H3. done.
Qed.

Lemma byte_nibbles b : is_byte b ->
  0 <= Z.shiftr b 4 < 16 /\ 0 <= Z.land b 15 < 16 /\
  Z.lor (u8 (Z.shiftl (Z.shiftr b 4) 4)) (Z.land b 15) = b.
Proof.
  unfold is_byte. intros Hb. change 15 with (2 ^ 4 - 1). rewrite (land_ones_mod b 4), Z.shiftr_div_pow2 by lia.
  assert (Hd : 0 <= b / 2 ^ 4 < 16) by (split; [apply Z.div_pos|apply Z.div_lt_upper_bound]; lia).
  assert (Hm : 0 <= b mod 2 ^ 4 < 2 ^ 4) by (apply Z.mod_pos_bound; lia).
  split; [done|]. split; [lia|].
  rewrite u8_small by (rewrite Z.shiftl_mul_pow2; lia).
  rewrite Z.lor_comm, lor_shiftl_add by lia. pose proof (Z.div_mod b (2 ^ 4)). lia.
Qed.

Lemma c_str_id s : Forall (fun c => (c =? 0) = false) s -> c_str s = s.
Proof. induction 1 as [|c s Hc Hs IH]; cbn; [done|]. rewrite Hc, IH. done. Qed.

Lemma HexStr_chars v : Forall is_byte v ->
  Forall (fun c => (c =? 0) = false) (HexStr v) /\ forallb (fun c => 0 <=? HexDigit c) (HexStr v) = true /\
  length (HexStr v) = (2 * length v)%nat /\ ParseHex_loop (HexStr v) = v.
Proof.
  induction 1 as [|b v Hb Hv (IH1 & IH2 & IH3 & IH4)]; [done|].
  destruct (byte_nibbles b Hb) as (Hh & Hl & Heq).
  destruct (hex_digit_table _ Hh) as (Ha1 & Ha2 & Ha3). destruct (hex_digit_table _ Hl) as (Hb1 & Hb2 & Hb3).
  cbn [HexStr ParseHex_loop forallb length]. rewrite Ha1, Hb1, Ha2, Heq.
  replace (Z.shiftr b 4 =? -1) with false by lia. replace (Z.land b 15 =? -1) with false by lia.
  replace (0 <=? Z.shiftr b 4) with true by lia. replace (0 <=? Z.land b 15) with true by lia.
  rewrite IH4, IH3. repeat split; [by repeat constructor|done|cbn; lia].
Qed.

(** Hexadecimal text round-trips: [HexStr] writes hexadecimal that [ParseHex]
    reads back; it is accepted by [IsHex] unless it is empty. *)
Theorem hex_roundtrip v : Forall is_byte v ->
  ParseHex (HexStr v) = v /\ IsHex (HexStr v) = negb (bool_decide (v = [])).
Proof.
  intros Hv. destruct (HexStr_chars v Hv) as (H1 & H2 & H3 & H4).
  unfold ParseHex, IsHex. rewrite (c_str_id _ H1), H2, H3. split; [done|].
  replace (Z.of_nat (2 * length v) mod 2) with 0 by (rewrite Nat2Z.inj_mul, Z.mul_comm, Z.mod_mul; lia).
  destruct v; cbn [length]; [done|]. rewrite bool_decide_eq_false_2 by done.
  rewrite (proj2 (Z.ltb_lt 0 _)) by lia. done.
Qed.

(** ** Base 58: lemmas *)

(** The number that digits stand for, least significant first. *)
Fixpoint val (base : Z) (b : list Z) : Z :=
  match b with
  | [] => 0
  | d :: b' => d + base * val base b'
  end.

Abbreviation digits base := (Forall (fun d : Z => 0 <= d < base)).

Section Digits.
Context (base : Z) (Hbase : 1 < base).

Lemma dval_bound b : digits base b -> 0 <= val base b < base ^ Z.of_nat (length b).
Proof using Hbase.
  induction 1 as [|d b Hd Hb IH]; cbn [val length]; [lia|].
  rewrite Nat2Z.inj_succ, Z.pow_succ_r by lia. nia.
Qed.

Lemma dval_app a b : val base (a ++ b) = val base a + base ^ Z.of_nat (length a) * val base b.
Proof using Hbase.
  induction a as [|d a IH]; cbn [val length app]; [lia|].
  rewrite IH, Nat2Z.inj_succ, Z.pow_succ_r by lia. ring.
Qed.

Lemma val_zeroes n : val base (replicate n 0) = 0.
Proof. induction n as [|n IH]; cbn [replicate val]; [done|]. rewrite IH. lia. Qed.

Lemma digits_zeroes n : digits base (replicate n 0).
Proof using Hbase. induction n; constructor; [lia|done]. Qed.

Lemma dval_inj a : forall b, digits base a -> digits base b -> length a = length b ->
  val base a = val base b -> a = b.
Proof using Hbase.
  induction a as [|d a IH]; intros [|e b] Ha Hb Hl Hv; try done.
  apply Forall_cons_iff in Ha as [Hd Ha]. apply Forall_cons_iff in Hb as [He Hb].
  cbn [val length] in *.
  assert (Hde : d = e).
  { rewrite <- (Z.mod_small d base), <- (Z.mod_small e base) by lia.
    rewrite <- (Z.mod_add d (val base a) base), <- (Z.mod_add e (val base b) base) by lia.
    f_equal. lia. }
  subst e. f_equal. apply IH; [done|done|lia|nia].
Qed.

Lemma skip_zeroes_pad n b : skip_zeroes (replicate n 0 ++ b) = skip_zeroes b.
Proof. induction n; [done|]. done. Qed.

Lemma rev_replicate {A} n (x : A) : rev (replicate n x) = replicate n x.
Proof.
  induction n as [|n IH]; [done|]. cbn [replicate rev]. rewrite IH. clear IH.
  induction n as [|n IH]; [done|]. cbn [replicate app]. rewrite IH. done.
Qed.

(** The digits of a number without leading zeroes depend only on the number. *)
Lemma skip_zeroes_val a b : digits base a -> digits base b -> val base a = val base b ->
  skip_zeroes (rev a) = skip_zeroes (rev b).
Proof using Hbase.
  intros Ha Hb Hv. set (pa := (length b - length a)%nat). set (pb := (length a - length b)%nat).
  assert (Heq : a ++ replicate pa 0 = b ++ replicate pb 0).
  { apply dval_inj.
    - apply Forall_app. split; [done|apply digits_zeroes].
    - apply Forall_app. split; [done|apply digits_zeroes].
    - rewrite !length_app, !length_replicate. unfold pa, pb. lia.
    - rewrite !dval_app, !val_zeroes. lia. }
  rewrite <- (skip_zeroes_pad pa (rev a)), <- (skip_zeroes_pad pb (rev b)).
  rewrite <- (rev_replicate pa), <- (rev_replicate pb), <- !rev_app_distr, Heq. done.
Qed.

End Digits.

Section Horner.
Context (mult base : Z) (Hmult : 1 < mult) (Hbase : 1 < base).

Abbreviation clear_from n b := (Forall (fun d : Z => d = 0) (drop n b)).

Lemma val_all_zero b : Forall (fun d => d = 0) b -> val base b = 0.
Proof. induction 1 as [|d b Hd Hb IH]; cbn [val]; [done|]. lia. Qed.

Lemma val_take n b : clear_from n b -> val base (take n b) = val base b.
Proof using Hbase.
  intros Hz. rewrite <- (take_drop n b) at 2. rewrite dval_app, (val_all_zero _ Hz) by done. lia.
Qed.

(** One step of the conversion: the digits and the carry that is left hold
    [carry + mult * b], and the digits after the count are still zero. *)
Lemma mul_add_spec b : forall carry i len r k j,
  digits base b -> 0 <= carry -> clear_from (len - i) b ->
  mul_add mult base carry i len b = (r, k, j) ->
  digits base r /\ length r = length b /\ clear_from (j - i) r /\ (i <= j)%nat /\ 0 <= k /\
  val base r + base ^ Z.of_nat (length b) * k = carry + mult * val base b.
Proof using Hmult Hbase.
  induction b as [|d b IH]; intros carry i len r k j Hb Hc Hz E; cbn [mul_add] in E.
  { injection E as <- <- <-. rewrite drop_nil. repeat split; [constructor|constructor|lia|lia|cbn; lia]. }
  destruct ((carry =? 0) && (len <=? i)%nat) eqn:Estop.
  - injection E as <- <- <-. apply andb_prop in Estop as [E1 E2]. apply Z.eqb_eq in E1. apply Nat.leb_le in E2.
    replace (len - i)%nat with 0%nat in Hz by lia. rewrite Nat.sub_diag.
    rewrite (val_all_zero (d :: b) Hz).
    repeat split; try done; lia.
  - apply Forall_cons_iff in Hb as [Hd Hb].
    destruct (mul_add mult base ((carry + mult * d) / base) (S i) len b) as [[r' k'] j'] eqn:E'.
    injection E as <- <- <-.
    assert (Hz' : clear_from (len - S i) b).
    { destruct (decide (len <= i)%nat) as [Hle|Hgt].
      - replace (len - i)%nat with 0%nat in Hz by lia. replace (len - S i)%nat with 0%nat by lia.
        apply Forall_cons_iff in Hz as [_ Hz]. done.
      - replace (len - i)%nat with (S (len - S i)) in Hz by lia. done. }
    pose proof (Z.mod_pos_bound (carry + mult * d) base) as Hm.
    pose proof (Z.div_mod (carry + mult * d) base) as Hdm.
    eapply IH in E' as (H1 & H2 & H3 & H4 & H5 & H6); [|done|apply Z.div_pos; nia|done].
    repeat split; [constructor; [lia|done]|cbn; lia| |lia|done| ].
    + replace (j' - i)%nat with (S (j' - S i)) by lia. done.
    + cbn [val length]. rewrite Nat2Z.inj_succ, Z.pow_succ_r by lia. nia.
Qed.

(** The outer loop of both conversions, over the digits to add. *)
Fixpoint horner (ds b : list Z) (len : nat) : option (list Z * nat) :=
  match ds with
  | [] => Some (b, len)
  | d :: ds' =>
      let '(b', carry, len') := mul_add mult base d 0 len b in
      if carry =? 0 then horner ds' b' len' else None
  end.

Lemma horner_spec ds : forall b len, digits mult ds -> digits base b -> clear_from len b ->
  val mult (rev ds) + mult ^ Z.of_nat (length ds) * val base b < base ^ Z.of_nat (length b) ->
  exists b' len', horner ds b len = Some (b', len') /\ digits base b' /\ clear_from len' b' /\
    val base b' = val mult (rev ds) + mult ^ Z.of_nat (length ds) * val base b.
Proof using Hmult Hbase.
  induction ds as [|d ds IH]; intros b len Hds Hb Hz Hfit; cbn [horner].
  { exists b, len. cbn [rev val length] in *. repeat split; try done. lia. }
  apply Forall_cons_iff in Hds as [Hd Hds]. cbn [rev length] in *.
  rewrite dval_app, length_rev, Nat2Z.inj_succ, Z.pow_succ_r in * by lia. cbn [val] in *.
  assert (Hr : 0 <= val mult (rev ds)) by (apply dval_bound; [done|apply Forall_rev; done]).
  assert (Hp : 0 < mult ^ Z.of_nat (length ds)) by (apply Z.pow_pos_nonneg; lia).
  pose proof (dval_bound base Hbase b Hb) as Hvb.
  destruct (mul_add mult base d 0 len b) as [[b' k] len'] eqn:E.
  eapply mul_add_spec in E as (H1 & H2 & H3 & _ & H5 & H6); [|done|lia|rewrite Nat.sub_0_r; done].
  rewrite Nat.sub_0_r in H3.
  pose proof (dval_bound base Hbase b' H1) as Hvb'.
  assert (Hk : k = 0).
  { assert (d + mult * val base b < base ^ Z.of_nat (length b)) by nia. nia. }
  subst k. cbn [Z.eqb]. destruct (IH b' len' Hds H1 H3) as (b'' & len'' & E1 & E2 & E3 & E4).
  { rewrite H2. nia. }
  exists b'', len''. repeat split; try done. rewrite E4. nia.
Qed.

(** The whole conversion from zero, with a buffer of [size] digits. *)
Lemma horner_digits ds size : digits mult ds -> mult ^ Z.of_nat (length ds) <= base ^ Z.of_nat size ->
  exists b len, horner ds (replicate size 0) 0 = Some (b, len) /\ digits base (take len b) /\
    val base (take len b) = val mult (rev ds).
Proof using Hmult Hbase.
  intros Hds Hsize.
  pose proof (dval_bound mult Hmult (rev ds) (Forall_rev Hds)) as Hv. rewrite length_rev in Hv.
  destruct (horner_spec ds (replicate size 0) 0 Hds (digits_zeroes base Hbase size)) as (b & len & E & H1 & H2 & H3).
  { rewrite drop_0. apply Forall_replicate. done. }
  { rewrite val_zeroes, length_replicate. lia. }
  exists b, len. rewrite val_take by done. rewrite H3, val_zeroes. repeat split; [done|by apply Forall_take|lia].
Qed.

End Horner.

(** ** Base 58: the theorem *)

(** A buffer of [n * p / q + 1] digits is enough when [p / q] is above the ratio
    of the logarithms. *)
Lemma buffer_enough a b p q n : 1 < a -> 1 < b -> 0 < p -> 0 < q -> 0 <= n ->
  a ^ q <= b ^ p -> a ^ n <= b ^ (n * p / q + 1).
Proof.
  intros Ha Hb Hp Hq Hn Hab. destruct (Z.le_gt_cases (a ^ n) (b ^ (n * p / q + 1))) as [Hle|Hgt]; [done|exfalso].
  assert (Hdiv : 0 <= n * p / q) by (apply Z.div_pos; nia).
  assert (Hup : n * p <= (n * p / q + 1) * q) by (pose proof (Z.div_mod (n * p) q); pose proof (Z.mod_pos_bound (n * p) q); nia).
  assert (Hlt := Z.pow_lt_mono_l _ _ q Hq (conj (Z.pow_nonneg b (n * p / q + 1) ltac:(lia)) Hgt)).
  rewrite <- !Z.pow_mul_r in Hlt by lia.
  assert (H1 : a ^ (n * q) <= b ^ (n * p)).
  { rewrite (Z.mul_comm n q), (Z.mul_comm n p), !Z.pow_mul_r by lia.
    apply Z.pow_le_mono_l. split; [apply Z.pow_nonneg; lia|done]. }
  assert (H2 : b ^ (n * p) <= b ^ ((n * p / q + 1) * q)) by (apply Z.pow_le_mono_r; lia).
  lia.
Qed.

Definition starts_not (x : Z) (v : list Z) : Prop := match v with d :: _ => d <> x | [] => True end.

Lemma count_skip_spec x v : let '(n, r) := count_skip x v in v = replicate n x ++ r /\ starts_not x r.
Proof.
  induction v as [|d v IH]; cbn; [done|]. destruct (d =? x) eqn:E.
  - destruct (count_skip x v) as [n r]. destruct IH as [-> IH]. apply Z.eqb_eq in E. subst d. done.
  - apply Z.eqb_neq in E. done.
Qed.

Lemma count_skip_replicate x n r : starts_not x r -> count_skip x (replicate n x ++ r) = (n, r).
Proof.
  intros Hr. induction n as [|n IH]; cbn [replicate app count_skip].
  - destruct r as [|d r]; [done|]. cbn in *. apply Z.eqb_neq in Hr. rewrite Hr. done.
  - rewrite Z.eqb_refl, IH. done.
Qed.

Lemma skip_zeroes_starts v : starts_not 0 (skip_zeroes v).
Proof. induction v as [|d v IH]; cbn; [done|]. destruct (d =? 0) eqn:E; [done|]. by apply Z.eqb_neq in E. Qed.

Lemma skip_zeroes_id v : starts_not 0 v -> skip_zeroes v = v.
Proof. destruct v as [|d v]; cbn; [done|]. intros Hd. apply Z.eqb_neq in Hd. rewrite Hd. done. Qed.

Lemma skip_zeroes_digits base v : digits base v -> digits base (skip_zeroes v).
Proof. induction 1 as [|d v Hd Hv IH]; cbn; [done|]. destruct (d =? 0); [done|by constructor]. Qed.

Lemma skip_zeroes_same base v : 1 < base -> val base (rev (skip_zeroes v)) = val base (rev v).
Proof.
  intros Hb. induction v as [|d v IH]; cbn [skip_zeroes]; [done|]. destruct (d =? 0) eqn:E; [|done].
  apply Z.eqb_eq in E. subst d. cbn [rev]. rewrite dval_app by done. cbn [val]. lia.
Qed.

(** Converting digits there and back is the identity on the digits of a number
    without leading zeroes. *)
Lemma digits_back base ds b : 1 < base -> digits base ds -> starts_not 0 ds -> digits base b ->
  val base b = val base (rev ds) -> skip_zeroes (rev b) = ds.
Proof.
  intros Hbase Hds Hs Hb Hv. rewrite (skip_zeroes_val base Hbase b (rev ds) Hb (Forall_rev Hds) Hv), rev_involutive.
  by apply skip_zeroes_id.
Qed.

Abbreviation chars58 ds := ((fun d => pszBase58 !!! Z.to_nat d) <$> ds).

(** The alphabet is a bijection with the digits; none of its characters is
    white space or NUL. *)
Lemma alphabet_digit d : 0 <= d < 58 -> let c := pszBase58 !!! Z.to_nat d in
  index_of c pszBase58 = Some (Z.to_nat d) /\ isspace c = false /\ (c =? 0) = false /\ (c = 49 -> d = 0).
Proof.
  intros Hd. assert (Hall : forallb (fun k => let c := pszBase58 !!! Z.to_nat k in
    bool_decide (index_of c pszBase58 = Some (Z.to_nat k)) && negb (isspace c) && negb (c =? 0) &&
    (negb (c =? 49) || (k =? 0))) (seqZ 0 58) = true) by reflexivity.
  rewrite forallb_forall in Hall. specialize (Hall d).
  rewrite <- list_elem_of_In, elem_of_seqZ in Hall. specialize (Hall Hd). cbn zeta in *.
  apply andb_prop in Hall as [Hall H4]. apply andb_prop in Hall as [Hall H3]. apply andb_prop in Hall as [H1 H2].
  apply bool_decide_eq_true_1 in H1. apply negb_true_iff in H2, H3. repeat split; try done.
  intros Hc. rewrite Hc in H4. cbn in H4. lia.
Qed.

Lemma chars58_clean ds : digits 58 ds ->
  Forall (fun c => (c =? 0) = false) (chars58 ds) /\ Forall (fun c => isspace c = false) (chars58 ds).
Proof.
  induction 1 as [|d ds Hd Hds [IH1 IH2]]; cbn; [by split|].
  destruct (alphabet_digit d Hd) as (_ & H2 & H3 & _). by split; constructor.
Qed.

Lemma chars58_one ds : digits 58 ds -> starts_not 0 ds -> starts_not 49 (chars58 ds).
Proof.
  destruct 1 as [|d ds Hd Hds]; cbn; [done|]. intros Hs Hc.
  destruct (alphabet_digit d Hd) as (_ & _ & _ & H4). auto.
Qed.

Lemma skip_spaces_id p : Forall (fun c => isspace c = false) p -> skip_spaces p = p.
Proof. destruct 1 as [|c p Hc Hp]; cbn; [done|]. rewrite Hc. done. Qed.

Lemma encode_loop_horner v : forall b len, encode_loop v b len = horner 256 58 v b len.
Proof.
  induction v as [|d v IH]; intros b len; cbn; [done|].
  destruct (mul_add 256 58 d 0 len b) as [[b' k] len']. destruct (k =? 0); [apply IH|done].
Qed.

Lemma decode_loop_horner ds : digits 58 ds -> forall b len,
  decode_loop (chars58 ds) b len = '(b', len') ← horner 58 256 ds b len; Some (Some ([], b', len')).
Proof.
  induction 1 as [|d ds Hd Hds IH]; intros b len; cbn [fmap list_fmap decode_loop horner]; [done|].
  destruct (alphabet_digit d Hd) as (H1 & H2 & _). rewrite H1, H2, Z2Nat.id by lia.
  destruct (mul_add 58 256 d 0 len b) as [[b' k] len']. destruct (k =? 0); [apply IH|done].
Qed.

Lemma index_of_lookup c l : forall k, index_of c l = Some k -> l !! k = Some c.
Proof.
  induction l as [|d l IH]; intros k; cbn; [done|]. destruct (c =? d) eqn:E.
  - intros [= <-]. apply Z.eqb_eq in E. subst d. done.
  - destruct (index_of c l) as [j|]; cbn; [|done]. intros [= <-]. apply IH. done.
Qed.

(** Only digits reach the buffer. *)
Lemma decode_loop_prefix psz : forall b len, decode_loop psz b len = None ->
  exists ds, digits 58 ds /\ (length ds <= length psz)%nat /\ horner 58 256 ds b len = None.
Proof.
  induction psz as [|c psz IH]; intros b len; cbn [decode_loop]; [done|].
  destruct (isspace c); [done|]. destruct (index_of c pszBase58) as [k|] eqn:Ek; [|done].
  assert (Hk : 0 <= Z.of_nat k < 58).
  { apply index_of_lookup in Ek as Hl. apply lookup_lt_Some in Hl. change (length pszBase58) with 58%nat in Hl. lia. }
  destruct (mul_add 58 256 (Z.of_nat k) 0 len b) as [[b' cy] len'] eqn:Em.
  destruct (cy =? 0) eqn:Ecy.
  - intros Hd. destruct (IH _ _ Hd) as (ds & H1 & H2 & H3). exists (Z.of_nat k :: ds).
    split; [by constructor|]. split; [cbn; lia|]. cbn. rewrite Em, Ecy. done.
  - intros _. exists [Z.of_nat k]. split; [constructor; [done|constructor]|]. split; [cbn; lia|].
    cbn. rewrite Em, Ecy. done.
Qed.


Lemma bytes_digits v : Forall is_byte v <-> digits 256 v.
Proof. done. Qed.

Lemma number_unique base a b : 1 < base -> digits base a -> digits base b -> starts_not 0 a -> starts_not 0 b ->
  val base (rev a) = val base (rev b) -> a = b.
Proof.
  intros Hbase Ha Hb Hsa Hsb Hv. rewrite <- (rev_involutive a), <- (digits_back base b (rev a)); [|done..|by apply Forall_rev|done].
  rewrite rev_involutive. symmetry. by apply skip_zeroes_id.
Qed.

Lemma encode_shape z w : digits 256 w -> starts_not 0 w ->
  exists ds, EncodeBase58 (replicate z 0 ++ w) = Some (replicate z 49 ++ chars58 ds) /\
    digits 58 ds /\ starts_not 0 ds /\ val 58 (rev ds) = val 256 (rev w).
Proof.
  intros Hw Hs. unfold EncodeBase58. rewrite count_skip_replicate, encode_loop_horner by done.
  destruct (horner_digits 256 58 ltac:(lia) ltac:(lia) w (Z.to_nat (Z.of_nat (length w) * 138 / 100 + 1)) Hw)
    as (b & len & E & Hb & Hv).
  { rewrite Z2Nat.id by (apply Z.add_nonneg_nonneg; [apply Z.div_pos|]; lia).
    apply buffer_enough; [lia..|by_decide]. }
  rewrite E. cbn [mbind option_bind]. exists (skip_zeroes (rev (take len b))). split; [done|].
  split; [by apply skip_zeroes_digits, Forall_rev|]. split; [apply skip_zeroes_starts|].
  rewrite skip_zeroes_same, rev_involutive by lia. done.
Qed.

Lemma ones_clean z ds : digits 58 ds ->
  c_str (replicate z 49 ++ chars58 ds) = replicate z 49 ++ chars58 ds /\
  skip_spaces (replicate z 49 ++ chars58 ds) = replicate z 49 ++ chars58 ds.
Proof.
  intros Hds. destruct (chars58_clean ds Hds) as [H1 H2].
  split; [apply c_str_id|apply skip_spaces_id]; apply Forall_app; (split; [by apply Forall_replicate|done]).
Qed.

Lemma decode_shape z ds : digits 58 ds -> starts_not 0 ds ->
  exists w, DecodeBase58 (replicate z 49 ++ chars58 ds) = Some (Some (replicate z 0 ++ w)) /\
    digits 256 w /\ starts_not 0 w /\ val 256 (rev w) = val 58 (rev ds).
Proof.
  intros Hds Hs. unfold DecodeBase58. destruct (ones_clean z ds Hds) as [-> ->].
  rewrite count_skip_replicate, length_fmap, decode_loop_horner by (done || by apply chars58_one).
  destruct (horner_digits 58 256 ltac:(lia) ltac:(lia) ds (Z.to_nat (Z.of_nat (length ds) * 733 / 1000 + 1)) Hds)
    as (b & len & E & Hb & Hv).
  { rewrite Z2Nat.id by (apply Z.add_nonneg_nonneg; [apply Z.div_pos|]; lia).
    apply buffer_enough; [lia..|by_decide]. }
  rewrite E. cbn [mbind option_bind skip_spaces]. exists (skip_zeroes (rev (take len b))). split; [done|].
  split; [by apply skip_zeroes_digits, Forall_rev|]. split; [apply skip_zeroes_starts|].
  rewrite skip_zeroes_same, rev_involutive by lia. done.
Qed.

Lemma DecodeBase58_total s : DecodeBase58 s <> None.
Proof.
  unfold DecodeBase58. destruct (count_skip 49 (skip_spaces (c_str s))) as [z psz].
  destruct (decode_loop psz _ 0) as [[[[rest b] len]|]|] eqn:E; cbn [mbind option_bind]; [|done|].
  { destruct (skip_spaces rest); done. }
  exfalso. apply decode_loop_prefix in E as (ds & Hds & Hl & E).
  destruct (horner_digits 58 256 ltac:(lia) ltac:(lia) ds (Z.to_nat (Z.of_nat (length psz) * 733 / 1000 + 1)) Hds)
    as (b & len & E' & _); [|by rewrite E in E'].
  rewrite Z2Nat.id by (apply Z.add_nonneg_nonneg; [apply Z.div_pos|]; lia).
  transitivity (58 ^ Z.of_nat (length psz)); [apply Z.pow_le_mono_r; lia|].
  apply buffer_enough; [lia..|by_decide].
Qed.

Lemma alphabet_string s : Forall (fun c => c ∈ pszBase58) s -> exists ds, s = chars58 ds /\ digits 58 ds.
Proof.
  induction 1 as [|c s Hc Hs (ds & -> & IH)]; [by exists []|].
  apply list_elem_of_lookup in Hc as [k Hk]. exists (Z.of_nat k :: ds). split.
  - cbn. f_equal. rewrite Nat2Z.id. symmetry. by apply list_lookup_total_correct.
  - constructor; [|done]. apply lookup_lt_Some in Hk. change (length pszBase58) with 58%nat in Hk. lia.
Qed.

Lemma chars58_zeroes z : chars58 (replicate z 0) = replicate z 49.
Proof. by rewrite fmap_replicate. Qed.

Lemma base58_decode_encode v : Forall is_byte v ->
  exists s, EncodeBase58 v = Some s /\ Forall (fun c => c ∈ pszBase58) s /\ DecodeBase58 s = Some (Some v).
Proof.
  intros Hv. pose proof (count_skip_spec 0 v) as Hc. destruct (count_skip 0 v) as [z w]. destruct Hc as [-> Hs].
  apply Forall_app in Hv as [_ Hw].
  destruct (encode_shape z w Hw Hs) as (ds & E & Hds & Hs' & Hval).
  destruct (decode_shape z ds Hds Hs') as (w' & E' & Hw' & Hs'' & Hval').
  exists (replicate z 49 ++ chars58 ds). split; [done|]. split.
  - rewrite <- chars58_zeroes, <- fmap_app. apply Forall_fmap.
    apply (Forall_impl _ _ _ (proj2 (Forall_app _ _ _) (conj (digits_zeroes 58 ltac:(lia) z) Hds))).
    intros d Hd. apply (list_elem_of_lookup_2 _ (Z.to_nat d)), list_lookup_lookup_total_lt.
    assert (Hl : length pszBase58 = 58%nat) by done. lia.
  - rewrite E'. do 3 f_equal. apply (number_unique 256); [lia|done..|lia].
Qed.

Lemma base58_encode_decode s : Forall (fun c => c ∈ pszBase58) s ->
  exists v, DecodeBase58 s = Some (Some v) /\ Forall is_byte v /\ EncodeBase58 v = Some s.
Proof.
  intros Hs. apply alphabet_string in Hs as (ds & -> & Hds).
  pose proof (count_skip_spec 0 ds) as Hc. destruct (count_skip 0 ds) as [z es]. destruct Hc as [-> Hst].
  apply Forall_app in Hds as [_ Hes]. rewrite fmap_app, chars58_zeroes.
  destruct (decode_shape z es Hes Hst) as (w & E & Hw & Hs' & Hval).
  destruct (encode_shape z w Hw Hs') as (ds' & E' & Hds' & Hs'' & Hval').
  exists (replicate z 0 ++ w). split; [done|]. split.
  - apply Forall_app. split; [by apply Forall_replicate|done].
  - rewrite E'. do 3 f_equal. apply (number_unique 58); [lia|done..|lia].
Qed.

(** Base 58. No string makes the decoder fail its assertion; encoding any
    bytes succeeds and decodes back to them; every string over the alphabet is
    the encoding of exactly the bytes it decodes to. *)
Theorem base58_bijection :
  (forall s, DecodeBase58 s <> None) /\
  (forall v, Forall is_byte v ->
    exists s, EncodeBase58 v = Some s /\ Forall (fun c => c ∈ pszBase58) s /\ DecodeBase58 s = Some (Some v)) /\
  (forall s, Forall (fun c => c ∈ pszBase58) s ->
    exists v, DecodeBase58 s = Some (Some v) /\ Forall is_byte v /\ EncodeBase58 v = Some s).
Proof. exact (conj DecodeBase58_total (conj base58_decode_encode base58_encode_decode)). Qed.


(** ** Addresses *)

(** [Params().Base58Prefix] of the kinds of addresses. *)
Class Base58Prefix : Type := {
  PUBKEY_ADDRESS : list Z;
  SCRIPT_ADDRESS : list Z;
  STEALTH_ADDRESS : list Z
}.

Definition main_prefixes : Base58Prefix := {| PUBKEY_ADDRESS := [28]; SCRIPT_ADDRESS := [50]; STEALTH_ADDRESS := [0x0F] |}.
Definition testnet_prefixes : Base58Prefix := {| PUBKEY_ADDRESS := [87]; SCRIPT_ADDRESS := [196]; STEALTH_ADDRESS := [0x15] |}.
Definition regtest_prefixes : Base58Prefix := {| PUBKEY_ADDRESS := [140]; SCRIPT_ADDRESS := [196]; STEALTH_ADDRESS := [0x13] |}.
Definition privatenet_prefixes : Base58Prefix := {| PUBKEY_ADDRESS := [142]; SCRIPT_ADDRESS := [196]; STEALTH_ADDRESS := [0x12] |}.

(** What [SetString], which takes one version byte, needs of them. *)
Class Base58PrefixOk `{!Base58Prefix} : Prop := {
  prefix_one : length PUBKEY_ADDRESS = 1%nat /\ length SCRIPT_ADDRESS = 1%nat;
  prefix_bytes : Forall is_byte PUBKEY_ADDRESS /\ Forall is_byte SCRIPT_ADDRESS;
  prefix_distinct : PUBKEY_ADDRESS <> SCRIPT_ADDRESS
}.

Record CBase58Data : Type := MkBase58Data { vchVersion : list Z; vchData : list Z }.

#[global] Instance CBase58Data_eq_dec : EqDecision CBase58Data.
Proof. solve_decision. Defined.

Definition empty58 : CBase58Data := MkBase58Data [] [].

Section Addresses.
Context `{!Crypto} `{!Base58Prefix}.

(** [SetString(psz, 1)]: the object left and the result; [None] is the failed
    assertion of [DecodeBase58]. *)
Definition SetString (s : list Z) : option (CBase58Data * bool) :=
  rc58 ← DecodeBase58Check s;
  match rc58 with
  | Some vchTemp =>
      if (length vchTemp <? 1)%nat then Some (empty58, false)
      else Some (MkBase58Data (take 1 vchTemp) (drop 1 vchTemp), true)
  | None => Some (empty58, false)
  end.

Definition ToString (a : CBase58Data) : option (list Z) := EncodeBase58Check (vchVersion a ++ vchData a).

(** [CDebitAddress::Set] on a fresh object; the raw form of a stealth address is
    the one [ToRaw] gives. *)
Definition Set_dest (dest : Standard.CTxDestination) : CBase58Data :=
  match dest with
  | Standard.CKeyID id => MkBase58Data PUBKEY_ADDRESS id
  | Standard.CScriptID id => MkBase58Data SCRIPT_ADDRESS id
  | Standard.CStealthAddress raw => MkBase58Data STEALTH_ADDRESS raw
  | Standard.CNoDestination => empty58
  end.

Definition Address_IsValid (a : CBase58Data) : bool :=
  bool_decide (length (vchData a) = 20%nat) &&
  (bool_decide (vchVersion a = PUBKEY_ADDRESS) || bool_decide (vchVersion a = SCRIPT_ADDRESS)).

Definition Address_Get (a : CBase58Data) : Standard.CTxDestination :=
  if negb (Address_IsValid a) then Standard.CNoDestination
  else if bool_decide (vchVersion a = PUBKEY_ADDRESS) then Standard.CKeyID (vchData a)
  else if bool_decide (vchVersion a = SCRIPT_ADDRESS) then Standard.CScriptID (vchData a)
  else Standard.CNoDestination.

Context {HC : CryptoOk} {HP : Base58PrefixOk}.

Lemma CHash256_check d : length (take 4 (CHash256 d)) = 4%nat /\ Forall is_byte (take 4 (CHash256 d)).
Proof using HC.
  destruct (SHA256_size (SHA256 d)) as [H1 H2]. unfold CHash256. rewrite length_take, H1. split; [done|].
  by apply Forall_take.
Qed.

Lemma base58check_roundtrip v : Forall is_byte v ->
  exists s, EncodeBase58Check v = Some s /\ DecodeBase58Check s = Some (Some v).
Proof using HC.
  intros Hv. destruct (CHash256_check v) as [Hl Hb].
  destruct (base58_decode_encode (v ++ take 4 (CHash256 v))) as (s & E & _ & D); [by apply Forall_app|].
  exists s. split; [done|]. unfold DecodeBase58Check. rewrite D. cbn [mbind option_bind].
  rewrite length_app, Hl. replace (_ <? 4)%nat with false by (symmetry; apply Nat.ltb_ge; lia).
  replace (length v + 4 - 4)%nat with (length v) by lia. rewrite take_app_length, drop_app_length.
  rewrite bool_decide_eq_true_2 by done. done.
Qed.

(** What is printed for an address with a one-byte version is read back. *)
Lemma address_string a : length (vchVersion a) = 1%nat -> Forall is_byte (vchVersion a ++ vchData a) ->
  exists s, ToString a = Some s /\ SetString s = Some (a, true).
Proof using HC.
  destruct a as [ver data]; cbn [vchVersion vchData]. intros Hver Hb.
  destruct (base58check_roundtrip _ Hb) as (s & E & D).
  exists s. split; [done|]. unfold SetString. rewrite D. cbn [mbind option_bind].
  destruct ver as [|x [|y ver]]; [done| |done]. done.
Qed.

(** An address round-trips. The address of a public-key hash or of a script
    hash of 20 bytes is printed without failing an assertion, reads back as
    itself, is valid, and leads to the same destination; the two kinds are never
    confused. *)
Theorem address_roundtrip id : length id = 20%nat -> Forall is_byte id ->
  Forall (fun dest => exists s, ToString (Set_dest dest) = Some s /\
      SetString s = Some (Set_dest dest, true) /\ Address_IsValid (Set_dest dest) = true /\
      Address_Get (Set_dest dest) = dest)
    [Standard.CKeyID id; Standard.CScriptID id].
Proof using HC HP.
  intros Hl Hb. destruct prefix_one as [Hk Hs], prefix_bytes as [Hkb Hsb]. pose proof prefix_distinct as Hd.
  assert (Hget : forall dest, dest = Standard.CKeyID id \/ dest = Standard.CScriptID id ->
    Address_IsValid (Set_dest dest) = true /\ Address_Get (Set_dest dest) = dest).
  { intros dest [-> | ->]; unfold Address_Get, Address_IsValid; cbn [Set_dest vchData vchVersion];
      rewrite (bool_decide_eq_true_2 (length id = 20%nat)) by done; cbn [andb];
      [rewrite (bool_decide_eq_true_2 (PUBKEY_ADDRESS = PUBKEY_ADDRESS)) by done; done|].
    rewrite (bool_decide_eq_false_2 (SCRIPT_ADDRESS = PUBKEY_ADDRESS)) by congruence.
    rewrite (bool_decide_eq_true_2 (SCRIPT_ADDRESS = SCRIPT_ADDRESS)) by done. done. }
  apply Forall_cons_iff. split; [|apply Forall_cons_iff; split; [|constructor]].
  - destruct (address_string (Set_dest (Standard.CKeyID id))) as (s & E & D); [done|by apply Forall_app|].
    exists s. destruct (Hget _ (or_introl eq_refl)) as [H1 H2]. done.
  - destruct (address_string (Set_dest (Standard.CScriptID id))) as (s & E & D); [done|by apply Forall_app|].
    exists s. destruct (Hget _ (or_intror eq_refl)) as [H1 H2]. done.
Qed.

End Addresses.

#[global] Instance main_prefixes_ok : @Base58PrefixOk main_prefixes.
Proof. split; by_decide. Qed.
#[global] Instance testnet_prefixes_ok : @Base58PrefixOk testnet_prefixes.
Proof. split; by_decide. Qed.
#[global] Instance regtest_prefixes_ok : @Base58PrefixOk regtest_prefixes.
Proof. split; by_decide. Qed.
#[global] Instance privatenet_prefixes_ok : @Base58PrefixOk privatenet_prefixes.
Proof. split; by_decide. Qed.


(** ** Base 64 *)

Definition pbase64 : list Z := str "ABCDEFGHIJKLMNOPQRSTUVWXYZabcdefghijklmnopqrstuvwxyz0123456789+/".

(** [mode] is the number of pending pairs of bits, [bits] these bits in place. *)
Fixpoint encode64_loop (v : list Z) (mode bits : Z) : list Z :=
  match v with
  | enc :: v' =>
      if mode =? 0 then
        pbase64 !!! Z.to_nat (Z.shiftr enc 2) :: encode64_loop v' 1 (Z.shiftl (Z.land enc 3) 4)
      else if mode =? 1 then
        pbase64 !!! Z.to_nat (Z.lor bits (Z.shiftr enc 4)) :: encode64_loop v' 2 (Z.shiftl (Z.land enc 15) 2)
      else
        pbase64 !!! Z.to_nat (Z.lor bits (Z.shiftr enc 6)) ::
        pbase64 !!! Z.to_nat (Z.land enc 63) :: encode64_loop v' 0 bits
  | [] =>
      if mode =? 0 then []
      else pbase64 !!! Z.to_nat bits :: 61 :: (if mode =? 1 then [61] else [])
  end.

Definition EncodeBase64 (v : list Z) : list Z := encode64_loop v 0 0.

(** [decode64_table]. *)
Definition decode64_table (c : Z) : Z :=
  match index_of c pbase64 with Some k => Z.of_nat k | None => -1 end.

(** The main loop: the bytes, the mode, the bits left and the characters left. *)
Fixpoint decode64_loop (p : list Z) (mode bits : Z) : list Z * Z * Z * list Z :=
  match p with
  | [] => ([], mode, bits, [])
  | c :: p' =>
      let dec := decode64_table c in
      if dec =? -1 then ([], mode, bits, p)
      else if mode =? 0 then decode64_loop p' 1 dec
      else if mode =? 1 then
        let '(v, m, l, r) := decode64_loop p' 2 (Z.land dec 15) in
        (u8 (Z.lor (Z.shiftl bits 2) (Z.shiftr dec 4)) :: v, m, l, r)
      else if mode =? 2 then
        let '(v, m, l, r) := decode64_loop p' 3 (Z.land dec 3) in
        (u8 (Z.lor (Z.shiftl bits 4) (Z.shiftr dec 2)) :: v, m, l, r)
      else
        let '(v, m, l, r) := decode64_loop p' 0 bits in
        (u8 (Z.lor (Z.shiftl bits 6) dec) :: v, m, l, r)
  end.

(** [p[n]], 0 at the terminator (the code reads no further). *)
Definition at_c (p : list Z) (n : nat) : Z := default 0 (p !! n).

(** [*pfInvalid], from the mode, the bits and the characters left. *)
Definition invalid64 (mode bits : Z) (p : list Z) : bool :=
  if mode =? 0 then false
  else if mode =? 1 then true
  else if mode =? 2 then
    negb (bits =? 0) || negb (at_c p 0 =? 61) || negb (at_c p 1 =? 61) || negb (decode64_table (at_c p 2) =? -1)
  else negb (bits =? 0) || negb (at_c p 0 =? 61) || negb (decode64_table (at_c p 1) =? -1).

Definition DecodeBase64 (s : list Z) : list Z * bool :=
  let '(vchRet, mode, bits, p) := decode64_loop (c_str s) 0 0 in (vchRet, invalid64 mode bits p).

Lemma base64_digit d : 0 <= d < 64 -> let c := pbase64 !!! Z.to_nat d in
  decode64_table c = d /\ (c =? 0) = false.
Proof.
  intros Hd. assert (Hall : forallb (fun k => let c := pbase64 !!! Z.to_nat k in
    (decode64_table c =? k) && negb (c =? 0)) (seqZ 0 64) = true) by (vm_compute; reflexivity).
  rewrite forallb_forall in Hall. specialize (Hall d).
  rewrite <- list_elem_of_In, elem_of_seqZ in Hall. specialize (Hall Hd). cbn zeta in *.
  apply andb_prop in Hall as [H1 H2]. apply Z.eqb_eq in H1. apply negb_true_iff in H2. done.
Qed.

(** A byte cut after its top [8 - k] bits: the two parts, and the byte again. *)
Lemma byte_cut k b : 0 <= k <= 8 -> is_byte b ->
  Z.shiftr b k = b / 2 ^ k /\ Z.land b (2 ^ k - 1) = b mod 2 ^ k /\
  0 <= b / 2 ^ k < 2 ^ (8 - k) /\ 0 <= b mod 2 ^ k < 2 ^ k /\ b = b / 2 ^ k * 2 ^ k + b mod 2 ^ k.
Proof.
  intros Hk Hb. unfold is_byte in Hb. assert (Hp : 0 < 2 ^ k) by (apply Z.pow_pos_nonneg; lia).
  rewrite Z.shiftr_div_pow2, land_ones_mod by lia. split; [done|]. split; [done|].
  split; [|split; [apply Z.mod_pos_bound; lia|pose proof (Z.div_mod b (2 ^ k)); lia]].
  split; [apply Z.div_pos; lia|]. apply Z.div_lt_upper_bound; [lia|].
  rewrite <- Z.pow_add_r by lia. replace (k + (8 - k)) with 8 by lia. lia.
Qed.

Lemma lor_high x y w : 0 <= x < 2 ^ w -> 0 <= w -> Z.lor (Z.shiftl y w) x = 2 ^ w * y + x.
Proof. intros Hx Hw. rewrite Z.lor_comm, lor_shiftl_add by lia. lia. Qed.


Abbreviation char64 d := (pbase64 !!! Z.to_nat d).

Lemma decode64_step d p mode bits : 0 <= d < 64 ->
  decode64_loop (char64 d :: p) mode bits =
    if mode =? 0 then decode64_loop p 1 d
    else if mode =? 1 then
      let '(v, m, l, r) := decode64_loop p 2 (Z.land d 15) in
      (u8 (Z.lor (Z.shiftl bits 2) (Z.shiftr d 4)) :: v, m, l, r)
    else if mode =? 2 then
      let '(v, m, l, r) := decode64_loop p 3 (Z.land d 3) in
      (u8 (Z.lor (Z.shiftl bits 4) (Z.shiftr d 2)) :: v, m, l, r)
    else
      let '(v, m, l, r) := decode64_loop p 0 bits in (u8 (Z.lor (Z.shiftl bits 6) d) :: v, m, l, r).
Proof.
  intros Hd. cbn [decode64_loop]. destruct (base64_digit d Hd) as [-> _].
  replace (d =? -1) with false by lia. done.
Qed.

(** Bits moved between bytes and six-bit digits, as arithmetic. *)
Lemma cut_arith a b c : is_byte a -> is_byte b -> is_byte c ->
  Z.shiftr a 2 = a / 4 /\
  Z.lor (Z.shiftl (Z.land a 3) 4) (Z.shiftr b 4) = 16 * (a mod 4) + b / 16 /\
  Z.lor (Z.shiftl (Z.land b 15) 2) (Z.shiftr c 6) = 4 * (b mod 16) + c / 64 /\
  Z.land c 63 = c mod 64 /\
  Z.shiftl (Z.land a 3) 4 = 16 * (a mod 4) /\ Z.shiftl (Z.land b 15) 2 = 4 * (b mod 16).
Proof.
  intros Ha Hb Hc.
  destruct (byte_cut 2 a ltac:(lia) Ha) as (A1 & A2 & _).
  destruct (byte_cut 4 b ltac:(lia) Hb) as (B1 & B2 & B3 & _).
  destruct (byte_cut 6 c ltac:(lia) Hc) as (C1 & C2 & C3 & _).
  change (Z.land a 3) with (Z.land a (2 ^ 2 - 1)). change (Z.land b 15) with (Z.land b (2 ^ 4 - 1)).
  change (Z.land c 63) with (Z.land c (2 ^ 6 - 1)).
  change (2 ^ (8 - 4)) with (2 ^ 4) in B3. change (2 ^ (8 - 6)) with (2 ^ 2) in C3.
  rewrite A1, A2, B1, B2, C1, C2, !lor_high, !Z.shiftl_mul_pow2 by lia.
  change (2 ^ 6) with 64. change (2 ^ 4) with 16. change (2 ^ 2) with 4. repeat split; lia.
Qed.

Lemma merge_arith d e : 0 <= d < 64 -> 0 <= e < 64 ->
  u8 (Z.lor (Z.shiftl d 2) (Z.shiftr e 4)) = 4 * d + e / 16 /\
  u8 (Z.lor (Z.shiftl (Z.land d 15) 4) (Z.shiftr e 2)) = 16 * (d mod 16) + e / 4 /\
  u8 (Z.lor (Z.shiftl (Z.land d 3) 6) e) = 64 * (d mod 4) + e.
Proof.
  intros Hd He. change (Z.land d 15) with (Z.land d (2 ^ 4 - 1)). change (Z.land d 3) with (Z.land d (2 ^ 2 - 1)).
  rewrite !land_ones_mod, !Z.shiftr_div_pow2 by lia.
  assert (0 <= e / 2 ^ 4 < 4 /\ 0 <= e / 2 ^ 2 < 16 /\ 0 <= d mod 2 ^ 4 < 16 /\ 0 <= d mod 2 ^ 2 < 4)
    by (Z.to_euclidean_division_equations; lia).
  rewrite !lor_high, !u8_small by lia. change (2 ^ 6) with 64. change (2 ^ 4) with 16. change (2 ^ 2) with 4.
  repeat split; lia.
Qed.

(** The end of a run: decoding gives [v], and the padding is right. *)
Definition decodes (p : list Z) (bits : Z) (v : list Z) : Prop :=
  exists m l r, decode64_loop p 0 bits = (v, m, l, r) /\ invalid64 m l r = false.

Lemma decodes_triple a b c p v bits : is_byte a -> is_byte b -> is_byte c ->
  (forall l, decodes p l v) ->
  decodes (char64 (Z.shiftr a 2) :: char64 (Z.lor (Z.shiftl (Z.land a 3) 4) (Z.shiftr b 4)) ::
    char64 (Z.lor (Z.shiftl (Z.land b 15) 2) (Z.shiftr c 6)) :: char64 (Z.land c 63) :: p) bits (a :: b :: c :: v).
Proof.
  intros Ha Hb Hc Hp. destruct (cut_arith a b c Ha Hb Hc) as (-> & -> & -> & -> & _). unfold is_byte in *.
  assert (H : 0 <= a / 4 < 64 /\ 0 <= 16 * (a mod 4) + b / 16 < 64 /\ 0 <= 4 * (b mod 16) + c / 64 < 64 /\
    0 <= c mod 64 < 64) by (Z.to_euclidean_division_equations; lia).
  destruct H as (H1 & H2 & H3 & H4). unfold decodes. rewrite !decode64_step by done. cbn [Z.eqb Pos.eqb].
  destruct (Hp (Z.land (4 * (b mod 16) + c / 64) 3)) as (m & l & r & E & Ei). rewrite E.
  destruct (merge_arith _ _ H1 H2) as (-> & _). destruct (merge_arith _ _ H2 H3) as (_ & -> & _).
  destruct (merge_arith _ _ H3 H4) as (_ & _ & ->).
  exists m, l, r. split; [|done]. clear E. repeat f_equal; Z.to_euclidean_division_equations; lia.
Qed.

Lemma decodes_one a bits : is_byte a ->
  decodes [char64 (Z.shiftr a 2); char64 (Z.shiftl (Z.land a 3) 4); 61; 61] bits [a].
Proof.
  intros Ha. destruct (cut_arith a 0 0 Ha ltac:(by_decide) ltac:(by_decide)) as (-> & _ & _ & _ & -> & _).
  unfold is_byte in *.
  assert (H : 0 <= a / 4 < 64 /\ 0 <= 16 * (a mod 4) < 64) by (Z.to_euclidean_division_equations; lia).
  destruct H as [H1 H2]. unfold decodes. rewrite !decode64_step by done. cbn [Z.eqb Pos.eqb].
  destruct (merge_arith _ _ H1 H2) as (-> & _).
  exists 2, (Z.land (16 * (a mod 4)) 15), [61; 61]. split.
  - change (decode64_loop [61; 61] 2 (Z.land (16 * (a mod 4)) 15))
      with (@nil Z, 2, Z.land (16 * (a mod 4)) 15, [61; 61]). cbn beta iota.
    repeat f_equal. Z.to_euclidean_division_equations; lia.
  - change 15 with (2 ^ 4 - 1). rewrite land_ones_mod, Z.mul_comm, Z.mod_mul by lia. reflexivity.
Qed.

Lemma decodes_two a b bits : is_byte a -> is_byte b ->
  decodes [char64 (Z.shiftr a 2); char64 (Z.lor (Z.shiftl (Z.land a 3) 4) (Z.shiftr b 4));
    char64 (Z.shiftl (Z.land b 15) 2); 61] bits [a; b].
Proof.
  intros Ha Hb. destruct (cut_arith a b 0 Ha Hb ltac:(by_decide)) as (-> & -> & _ & _ & _ & ->).
  unfold is_byte in *.
  assert (H : 0 <= a / 4 < 64 /\ 0 <= 16 * (a mod 4) + b / 16 < 64 /\ 0 <= 4 * (b mod 16) < 64)
    by (Z.to_euclidean_division_equations; lia).
  destruct H as (H1 & H2 & H3). unfold decodes. rewrite !decode64_step by done. cbn [Z.eqb Pos.eqb].
  destruct (merge_arith _ _ H1 H2) as (-> & _). destruct (merge_arith _ _ H2 H3) as (_ & -> & _).
  exists 3, (Z.land (4 * (b mod 16)) 3), [61]. split.
  - change (decode64_loop [61] 3 (Z.land (4 * (b mod 16)) 3))
      with (@nil Z, 3, Z.land (4 * (b mod 16)) 3, [61]). cbn beta iota.
    repeat f_equal; Z.to_euclidean_division_equations; lia.
  - change 3 with (2 ^ 2 - 1) at 2. rewrite land_ones_mod, Z.mul_comm, Z.mod_mul by lia. reflexivity.
Qed.

Lemma encode64_decodes n : forall v bits l, (length v <= n)%nat -> Forall is_byte v ->
  decodes (encode64_loop v 0 bits) l v.
Proof.
  induction n as [|n IH]; intros v bits l Hn Hv.
  - destruct v; [|cbn in Hn; lia]. exists 0, l, []. done.
  - destruct v as [|a [|b [|c v]]]; [exists 0, l, []; done|..];
      repeat (apply Forall_cons_iff in Hv as [? Hv]); cbn [encode64_loop Z.eqb Pos.eqb].
    + by apply decodes_one.
    + by apply decodes_two.
    + apply decodes_triple; [done..|]. intros l'. apply IH; [cbn in Hn; lia|done].
Qed.

Lemma encode64_clean v : forall mode bits, Forall is_byte v -> 0 <= mode <= 2 -> 0 <= bits < 64 ->
  (mode = 1 -> bits mod 16 = 0) -> (mode = 2 -> bits mod 4 = 0) ->
  Forall (fun c => (c =? 0) = false) (encode64_loop v mode bits).
Proof.
  induction v as [|e v IH]; intros mode bits Hv Hm Hbits H1 H2; cbn [encode64_loop].
  - destruct (mode =? 0); [constructor|]. constructor; [by apply base64_digit|]. constructor; [done|].
    destruct (mode =? 1); by repeat constructor.
  - apply Forall_cons_iff in Hv as [He Hv].
    destruct (cut_arith e e e He He He) as (-> & _ & _ & -> & -> & ->).
    destruct (byte_cut 4 e ltac:(lia) He) as (E4 & _). destruct (byte_cut 6 e ltac:(lia) He) as (E6 & _).
    unfold is_byte in He.
    destruct (mode =? 0) eqn:Em0; [|destruct (mode =? 1) eqn:Em1].
    + constructor; [apply base64_digit|apply IH; try done]; Z.to_euclidean_division_equations; lia.
    + apply Z.eqb_eq in Em1. specialize (H1 Em1). rewrite E4.
      assert (Hb : bits = Z.shiftl (bits / 16) 4)
        by (rewrite Z.shiftl_mul_pow2 by lia; Z.to_euclidean_division_equations; lia).
      rewrite Hb, lor_high by (Z.to_euclidean_division_equations; lia).
      constructor; [apply base64_digit|apply IH; try done]; Z.to_euclidean_division_equations; lia.
    + assert (mode = 2) by lia. specialize (H2 H). rewrite E6.
      assert (Hb : bits = Z.shiftl (bits / 4) 2)
        by (rewrite Z.shiftl_mul_pow2 by lia; Z.to_euclidean_division_equations; lia).
      constructor; [rewrite Hb, lor_high by (Z.to_euclidean_division_equations; lia)|constructor; [|apply IH; try done; lia]];
        apply base64_digit; Z.to_euclidean_division_equations; lia.
Qed.

(** Base 64 text round-trips: what [EncodeBase64] writes for any bytes is
    decoded to the same bytes and is reported as valid. *)
Theorem base64_roundtrip v : Forall is_byte v -> DecodeBase64 (EncodeBase64 v) = (v, false).
Proof.
  intros Hv. unfold DecodeBase64, EncodeBase64.
  rewrite c_str_id by (apply encode64_clean; [done|lia..]).
  destruct (encode64_decodes (length v) v 0 0 ltac:(lia) Hv) as (m & l & r & -> & ->). done.
Qed.

Lemma base64_roundtrip_witness : Forall is_byte [77; 97; 110; 0; 255] /\
  DecodeBase64 (EncodeBase64 [77; 97; 110; 0; 255]) = ([77; 97; 110; 0; 255], false).
Proof. assert (H : Forall is_byte [77; 97; 110; 0; 255]) by by_decide. exact (conj H (base64_roundtrip _ H)). Defined.


Lemma base58_bijection_witness : Forall is_byte [0; 0; 40; 127; 180] /\
  EncodeBase58 [0; 0; 40; 127; 180] = Some (str "11Ebyu") /\
  exists s, EncodeBase58 [0; 0; 40; 127; 180] = Some s /\ Forall (fun c => c ∈ pszBase58) s /\
    DecodeBase58 s = Some (Some [0; 0; 40; 127; 180]).
Proof.
  assert (H : Forall is_byte [0; 0; 40; 127; 180]) by by_decide.
  exact (conj H (conj eq_refl (proj1 (proj2 base58_bijection) _ H))).
Defined.

Lemma address_roundtrip_witness : length (replicate 20 7) = 20%nat /\ Forall is_byte (replicate 20 7) /\
  exists s, @ToString toy_crypto (@Set_dest main_prefixes (Standard.CKeyID (replicate 20 7))) = Some s /\
    @SetString toy_crypto s = Some (@Set_dest main_prefixes (Standard.CKeyID (replicate 20 7)), true).
Proof.
  assert (H1 : length (replicate 20 7) = 20%nat) by done. assert (H2 : Forall is_byte (replicate 20 7)) by by_decide.
  split; [done|]. split; [done|].
  pose proof (@address_roundtrip toy_crypto main_prefixes toy_crypto_ok main_prefixes_ok _ H1 H2) as H.
  apply Forall_cons_iff in H as [(s & E & D & _) _]. exists s. exact (conj E D).
Defined.

End Encodings.
