(* ===== verification/Decimal.v ===== *)
(** * Decimal numbers (utilstrencodings.cpp, utilmoneystr.cpp)

    The parsers of integers and fixed-point amounts, and the printing of
    amounts.  A parser returns [None] where the C++ function returns [false];
    [ParseInt64] also says whether it wrote its output, because some callers
    ignore the result.  The theorems: an amount that is parsed stays below
    10^18 in absolute value without any overflow on the way, a plain decimal
    has its exact value, and printed amounts are read back by both parsers. *)

From stdpp Require Import base list list_numbers numbers option strings.
From Stdlib Require Import ZArith Lia.
From S2P Require Import Prelude Transaction Encodings.

Local Open Scope Z_scope.

Module Decimal.
Import Transaction Encodings.

(** ** Integers *)

Definition ParsePrechecks (s : list Z) : bool :=
  match s with
  | [] => false
  | c :: _ =>
      negb (isspace c || isspace (default 0 (last s))) && bool_decide (length s = length (c_str s))
  end.

(** The value of the leading decimal digits, added to [acc], and the rest. *)
Fixpoint scan_digits (p : list Z) (acc : Z) : Z * list Z :=
  match p with
  | c :: p' => if isdigit c then scan_digits p' (acc * 10 + (c - 48)) else (acc, p)
  | [] => (acc, [])
  end.

(** [strtoll(s, &endp, 10)] of the C library: the value, the characters from
    [endp] on (all of them when there is no digit), and whether [errno] is set. *)
Definition strtoll (s : list Z) : Z * list Z * bool :=
  let p := skip_spaces s in
  let '(neg, q) := match p with
                   | 45 :: p' => (true, p')
                   | 43 :: p' => (false, p')
                   | _ => (false, p)
                   end in
  match q with
  | c :: _ =>
      if isdigit c then
        let '(v, rest) := scan_digits q 0 in
        let n := if (neg : bool) then - v else v in
        if n <? - 2 ^ 63 then (- 2 ^ 63, rest, true)
        else if 2 ^ 63 - 1 <? n then (2 ^ 63 - 1, rest, true)
        else (n, rest, false)
      else (0, s, false)
  | [] => (0, s, false)
  end.

(** The result and what is written to [*out], if anything. *)
Definition ParseInt64 (s : list Z) : bool * option Z :=
  if negb (ParsePrechecks s) then (false, None)
  else let '(n, endp, errno) := strtoll (c_str s) in
       (bool_decide (endp = []) && negb errno && (- 2 ^ 63 <=? n) && (n <=? 2 ^ 63 - 1), Some n).

Definition ParseInt32 (s : list Z) : bool * option Z :=
  if negb (ParsePrechecks s) then (false, None)
  else let '(n, endp, errno) := strtoll (c_str s) in
       (bool_decide (endp = []) && negb errno && (- 2 ^ 31 <=? n) && (n <=? 2 ^ 31 - 1), Some (i32 n)).

Definition atoi64 (s : list Z) : Z := let '(n, _, _) := strtoll (c_str s) in n.

(** ** Fixed-point amounts *)

Definition UPPER_BOUND : Z := 1000000000000000000 - 1.

(** [for (i = 0; i < n; ++i)] of [ProcessMantissaDigit]: the mantissa times ten,
    each time guarded. *)
Fixpoint grow (n : nat) (mantissa : Z) : option Z :=
  match n with
  | O => Some mantissa
  | S n' => if UPPER_BOUND / 10 <? mantissa then None else grow n' (mantissa * 10)
  end.

(** The last loop of [ParseFixedPoint], on a mantissa with its sign. *)
Fixpoint shift_digits (n : nat) (mantissa : Z) : option Z :=
  match n with
  | O => Some mantissa
  | S n' =>
      if (UPPER_BOUND / 10 <? mantissa) || (mantissa <? - (UPPER_BOUND / 10)) then None
      else shift_digits n' (mantissa * 10)
  end.

(** The mantissa and its count of pending trailing zeros. *)
Definition ProcessMantissaDigit (ch : Z) (mantissa : Z) (mantissa_tzeros : nat) : option (Z * nat) :=
  if ch =? 48 then Some (mantissa, S mantissa_tzeros)
  else m ← grow (S mantissa_tzeros) mantissa; Some (m + (ch - 48), O).

(** [while (ptr < end && isdigit)]: the state, the rest and the digits read. *)
Fixpoint mantissa_loop (p : list Z) (mantissa : Z) (tz : nat) (count : Z) : option (Z * nat * list Z * Z) :=
  match p with
  | c :: p' =>
      if isdigit c then
        '(m, t) ← ProcessMantissaDigit c mantissa tz; mantissa_loop p' m t (count + 1)
      else Some (mantissa, tz, p, count)
  | [] => Some (mantissa, tz, [], count)
  end.

Fixpoint exponent_loop (p : list Z) (exponent : Z) : option (Z * list Z) :=
  match p with
  | c :: p' =>
      if isdigit c then
        if UPPER_BOUND / 10 <? exponent then None else exponent_loop p' (exponent * 10 + (c - 48))
      else Some (exponent, p)
  | [] => Some (exponent, [])
  end.

(** The part before the point. *)
Definition parse_whole (p : list Z) : option (Z * nat * list Z) :=
  match p with
  | c :: p' =>
      if c =? 48 then Some (0, O, p')
      else if (49 <=? c) && (c <=? 57) then
        '(m, t, r, _) ← mantissa_loop p 0 0 0; Some (m, t, r)
      else None
  | [] => None
  end.

(** The fraction: a point needs a digit after it. *)
Definition parse_fraction (p : list Z) (m : Z) (t : nat) : option (Z * nat * list Z * Z) :=
  match p with
  | 46 :: p' =>
      match p' with
      | c :: _ => if isdigit c then mantissa_loop p' m t 0 else None
      | [] => None
      end
  | _ => Some (m, t, p, 0)
  end.

Definition parse_exponent (p : list Z) : option (Z * list Z) :=
  match p with
  | e :: p' =>
      if (e =? 101) || (e =? 69) then
        let '(neg, q) := match p' with
                         | 43 :: q => (false, q)
                         | 45 :: q => (true, q)
                         | _ => (false, p')
                         end in
        match q with
        | c :: _ =>
            if isdigit c then
              '(x, r) ← exponent_loop q 0; Some (if (neg : bool) then - x else x, r)
            else None
        | [] => None
        end
      else Some (0, p)
  | [] => Some (0, [])
  end.

Definition ParseFixedPoint (s : list Z) (decimals : Z) : option Z :=
  let '(mantissa_sign, p) := match s with 45 :: p => (true, p) | _ => (false, s) end in
  '(m, t, p) ← parse_whole p;
  '(m, t, p, point_ofs) ← parse_fraction p m t;
  '(x, p) ← parse_exponent p;
  match p with
  | _ :: _ => None
  | [] =>
      let exponent := x - point_ofs + Z.of_nat t + decimals in
      let mantissa := if (mantissa_sign : bool) then - m else m in
      if exponent <? 0 then None
      else if 18 <=? exponent then None
      else r ← shift_digits (Z.to_nat exponent) mantissa;
           if (UPPER_BOUND <? r) || (r <? - UPPER_BOUND) then None else Some r
  end.

(** ** Printing and parsing of money *)

Definition CENT : Z := 1000000.

(** [n] decimal digits of a number, least significant first. *)
Fixpoint le_digits (n : nat) (x : Z) : list Z :=
  match n with
  | O => []
  | S n' => x mod 10 :: le_digits n' (x / 10)
  end.

Definition show_digits (ds : list Z) : list Z := (fun d => d + 48) <$> ds.

(** ["%d"] of a non-negative 64-bit number, and ["%08d"]. *)
Definition show_d (x : Z) : list Z :=
  if x =? 0 then [48] else show_digits (skip_zeroes (rev (le_digits 19 x))).
Definition show_08d (x : Z) : list Z := show_digits (rev (le_digits 8 x)).

(** The trimming loop, on the characters from the last one on. *)
Fixpoint trim (rs : list Z) : list Z :=
  match rs with
  | c0 :: ((_ :: c2 :: _) as rs') => if (c0 =? 48) && isdigit c2 then trim rs' else rs
  | _ => rs
  end.

Definition FormatMoney (n : Z) : list Z :=
  let n_abs := if 0 <? n then n else - n in
  let s := show_d (n_abs / COIN) ++ [46] ++ show_08d (n_abs mod COIN) in
  let s := rev (trim (rev s)) in
  if n <? 0 then 45 :: s else s.

(** The digits after the point: [nUnits] and the rest. *)
Fixpoint units_loop (p : list Z) (nMult nUnits : Z) : Z * list Z :=
  match p with
  | c :: p' =>
      if isdigit c && (0 <? nMult) then units_loop p' (nMult / 10) (nUnits + nMult * (c - 48))
      else (nUnits, p)
  | [] => (nUnits, [])
  end.

(** The first [for] loop: the whole part, the units and the rest. *)
Fixpoint money_loop (p strWhole : list Z) : option (list Z * Z * list Z) :=
  match p with
  | c :: p' =>
      if c =? 46 then let '(u, r) := units_loop p' (CENT * 10) 0 in Some (strWhole, u, r)
      else if isspace c then Some (strWhole, 0, p)
      else if negb (isdigit c) then None
      else money_loop p' (strWhole ++ [c])
  | [] => Some (strWhole, 0, [])
  end.

Definition ParseMoney (s : list Z) : option Z :=
  '(strWhole, nUnits, p) ← money_loop (skip_spaces (c_str s)) [];
  if negb (forallb isspace p) then None
  else if (10 <? length strWhole)%nat then None
  else if (nUnits <? 0) || (COIN <? nUnits) then None
  else Some (i64 (atoi64 strWhole * COIN + nUnits)).

Example format_ex : FormatMoney 1234500000 = str "12.345" /\ FormatMoney (-1) = str "-0.00000001" /\
  FormatMoney 100000000000 = str "1000.00" /\ ParseMoney (str " 12.345 ") = Some 1234500000 /\
  ParseFixedPoint (str "12.5e-1") 8 = Some 125000000 /\ ParseFixedPoint (str "-0.1") 8 = Some (-10000000) /\
  ParseInt64 (str "-42") = (true, Some (-42)) /\ ParseInt64 (str "4x") = (false, Some 4) /\ ParseInt64 [] = (false, None).
Proof. vm_compute. repeat split. Qed.

(** ** Values *)

Lemma grow_value n : forall m, 0 <= m -> (match n with O => True | S n' => m * 10 ^ Z.of_nat n' <= UPPER_BOUND / 10 end) ->
  grow n m = Some (m * 10 ^ Z.of_nat n).
Proof.
  induction n as [|n IH]; intros m Hm Hle; cbn [grow]; [f_equal; lia|].
  assert (Hp : 0 < 10 ^ Z.of_nat n) by (apply Z.pow_pos_nonneg; lia).
  replace (UPPER_BOUND / 10 <? m) with false by nia.
  rewrite IH; [apply (f_equal Some); rewrite Nat2Z.inj_succ, Z.pow_succ_r by lia; ring|lia|].
  destruct n as [|n]; [done|]. rewrite Nat2Z.inj_succ, Z.pow_succ_r in Hle by lia. nia.
Qed.

Lemma shift_digits_value n : forall m, Z.abs m * 10 ^ Z.of_nat n <= UPPER_BOUND ->
  shift_digits n m = Some (m * 10 ^ Z.of_nat n).
Proof.
  induction n as [|n IH]; intros m Hm; cbn [shift_digits]; [f_equal; lia|].
  rewrite Nat2Z.inj_succ, Z.pow_succ_r in * by lia.
  assert (Hp : 0 < 10 ^ Z.of_nat n) by (apply Z.pow_pos_nonneg; lia).
  change (UPPER_BOUND / 10) with 99999999999999999. unfold UPPER_BOUND in *.
  replace ((99999999999999999 <? m) || (m <? - (99999999999999999))) with false by nia.
  rewrite IH; [apply (f_equal Some); ring|]. rewrite Z.abs_mul. change (Z.abs 10) with 10. nia.
Qed.

Lemma val10_cons d ds : val 10 (rev (d :: ds)) = d * 10 ^ Z.of_nat (length ds) + val 10 (rev ds).
Proof. cbn [rev]. rewrite dval_app, length_rev by lia. cbn [val]. lia. Qed.

Lemma val10_nonneg ds : digits 10 ds -> 0 <= val 10 (rev ds).
Proof. intros H. apply (dval_bound 10 ltac:(lia) (rev ds)), Forall_rev, H. Qed.

Definition no_digit (p : list Z) : Prop := match p with c :: _ => isdigit c = false | [] => True end.

Lemma isdigit_digit d : 0 <= d < 10 -> isdigit (d + 48) = true.
Proof. unfold isdigit. lia. Qed.

(** Reading digits multiplies the mantissa and its zeros as decimal notation
    does. *)
Lemma mantissa_loop_digits ds : digits 10 ds -> forall m t cnt rest, 0 <= m -> no_digit rest ->
  m * 10 ^ (Z.of_nat t + Z.of_nat (length ds)) + val 10 (rev ds) <= UPPER_BOUND ->
  exists m' t', mantissa_loop (show_digits ds ++ rest) m t cnt = Some (m', t', rest, cnt + Z.of_nat (length ds)) /\
    0 <= m' /\ (t' <= t + length ds)%nat /\
    m' * 10 ^ Z.of_nat t' = m * 10 ^ (Z.of_nat t + Z.of_nat (length ds)) + val 10 (rev ds).
Proof.
  induction 1 as [|d ds Hd Hds IH]; intros m t cnt rest Hm Hrest Hle.
  { exists m, t. cbn [show_digits fmap list_fmap app rev val length]. rewrite !Z.add_0_r. split; [|split; [done|split; [lia|done]]].
    destruct rest as [|c rest]; cbn [mantissa_loop]; [done|]. cbn in Hrest. rewrite Hrest. done. }
  rewrite val10_cons in *. pose proof (val10_nonneg ds Hds) as Hv.
  change (show_digits (d :: ds)) with (d + 48 :: show_digits ds).
  cbn [app mantissa_loop length] in *. rewrite isdigit_digit by done.
  unfold ProcessMantissaDigit. rewrite Nat2Z.inj_succ in *.
  assert (Hp : 0 < 10 ^ Z.of_nat (length ds)) by (apply Z.pow_pos_nonneg; lia).
  replace (Z.of_nat t + Z.succ (Z.of_nat (length ds))) with (Z.of_nat (S t) + Z.of_nat (length ds)) in * by lia.
  destruct (d + 48 =? 48) eqn:Ed; cbn [mbind option_bind].
  - destruct (IH m (S t) (cnt + 1) rest Hm Hrest) as (m' & t' & E & H1 & Ht & H2); [nia|].
    exists m', t'. rewrite E, H2. replace (cnt + 1 + Z.of_nat (length ds)) with (cnt + Z.succ (Z.of_nat (length ds))) by lia.
    split; [done|]. split; [done|]. split; [lia|]. assert (d = 0) by lia. nia.
  - rewrite Z.pow_add_r in Hle |- * by lia.
    assert (Hps : 0 < 10 ^ Z.of_nat t) by (apply Z.pow_pos_nonneg; lia).
    rewrite grow_value; [|done|].
    2: { rewrite Nat2Z.inj_succ, Z.pow_succ_r in Hle by lia.
         change (UPPER_BOUND / 10) with 99999999999999999. unfold UPPER_BOUND in Hle. nia. }
    cbn [mbind option_bind]. replace (d + 48 - 48) with d by lia.
    assert (Hm2 : 0 <= m * 10 ^ Z.of_nat (S t) + d) by (pose proof (Z.pow_nonneg 10 (Z.of_nat (S t))); nia).
    destruct (IH (m * 10 ^ Z.of_nat (S t) + d) 0%nat (cnt + 1) rest Hm2 Hrest) as (m' & t' & E & H1 & Ht & H2).
    { change (Z.of_nat 0) with 0. rewrite Z.add_0_l, Z.mul_add_distr_r, <- Z.mul_assoc. lia. }
    exists m', t'. rewrite E, H2. replace (cnt + 1 + Z.of_nat (length ds)) with (cnt + Z.succ (Z.of_nat (length ds))) by lia.
    split; [done|]. split; [done|]. split; [lia|].
    change (Z.of_nat 0) with 0. rewrite Z.add_0_l, Z.mul_add_distr_r, <- Z.mul_assoc. lia.
Qed.


(** The whole part of a number: a single zero, or digits that start with another. *)
Definition whole_ok (w : list Z) : Prop := w = [0] \/ (w <> [] /\ starts_not 0 w).

Lemma parse_whole_digits w rest : digits 10 w -> whole_ok w -> no_digit rest -> val 10 (rev w) <= UPPER_BOUND ->
  exists m t, parse_whole (show_digits w ++ rest) = Some (m, t, rest) /\ 0 <= m /\
    m * 10 ^ Z.of_nat t = val 10 (rev w) /\ (m = 0 -> t = O).
Proof.
  intros Hw [-> | [Hne Hs]] Hrest Hle.
  { exists 0, O. done. }
  destruct w as [|d w]; [done|]. cbn [starts_not] in Hs. apply Forall_cons_iff in Hw as Hw'. destruct Hw' as [Hd Hw'].
  destruct (mantissa_loop_digits (d :: w) Hw 0 0%nat 0 rest ltac:(lia) Hrest) as (m & t & E & H1 & _ & H2); [lia|].
  unfold parse_whole. rewrite E.
  change (show_digits (d :: w) ++ rest) with (d + 48 :: (show_digits w ++ rest)). cbn [mbind option_bind].
  replace (d + 48 =? 48) with false by lia. replace ((49 <=? d + 48) && (d + 48 <=? 57)) with true by lia.
  exists m, t. split; [done|]. split; [done|]. split; [lia|].
  intros ->. pose proof (val10_nonneg w Hw'). rewrite val10_cons in H2.
  assert (0 < 10 ^ Z.of_nat (length w)) by (apply Z.pow_pos_nonneg; lia). nia.
Qed.

(** The last steps, for a mantissa whose scaled value fits. *)
Lemma scale_value (neg : bool) m x : 0 <= m -> 0 <= x -> (m = 0 -> x < 18) -> m * 10 ^ x <= UPPER_BOUND ->
  (if x <? 0 then None
   else if 18 <=? x then None
   else r ← shift_digits (Z.to_nat x) (if neg then - m else m);
        if (UPPER_BOUND <? r) || (r <? - UPPER_BOUND) then None else Some r) =
  Some (if neg then - (m * 10 ^ x) else m * 10 ^ x).
Proof.
  intros Hm Hx H0 Hle. assert (Hx18 : x < 18).
  { destruct (Z.eq_dec m 0) as [E|E]; [auto|]. apply Z.nle_gt. intros Hge.
    pose proof (Z.pow_le_mono_r 10 18 x ltac:(lia) Hge) as Hp. change (10 ^ 18) with 1000000000000000000 in Hp.
    unfold UPPER_BOUND in Hle. nia. }
  replace (x <? 0) with false by lia. replace (18 <=? x) with false by lia.
  assert (Hp : 0 <= 10 ^ x) by (apply Z.pow_nonneg; lia).
  rewrite shift_digits_value by (rewrite Z2Nat.id by lia; destruct neg; rewrite ?Z.abs_opp, Z.abs_eq; lia).
  rewrite Z2Nat.id by lia. cbn [mbind option_bind].
  destruct neg; [rewrite Z.mul_opp_l|].
  - replace ((UPPER_BOUND <? - (m * 10 ^ x)) || (- (m * 10 ^ x) <? - UPPER_BOUND)) with false; [done|].
    symmetry. apply orb_false_iff. assert (0 <= m * 10 ^ x) by nia. unfold UPPER_BOUND in *. lia.
  - replace ((UPPER_BOUND <? m * 10 ^ x) || (m * 10 ^ x <? - UPPER_BOUND)) with false; [done|].
    symmetry. apply orb_false_iff. assert (0 <= m * 10 ^ x) by nia. unfold UPPER_BOUND in *. lia.
Qed.

Definition signed (neg : bool) (s : list Z) : list Z := if neg then 45 :: s else s.

(** A plain decimal has its exact value, when it has at most [decimals] digits
    after the point and the scaled value is below 10^18. *)
Lemma ParseFixedPoint_decimal neg w f decimals : digits 10 w -> whole_ok w -> digits 10 f -> f <> [] ->
  Z.of_nat (length f) <= decimals < 18 ->
  val 10 (rev (w ++ f)) * 10 ^ (decimals - Z.of_nat (length f)) <= UPPER_BOUND ->
  ParseFixedPoint (signed neg (show_digits w ++ 46 :: show_digits f)) decimals =
  Some (let v := val 10 (rev (w ++ f)) * 10 ^ (decimals - Z.of_nat (length f)) in if neg then - v else v).
Proof.
  intros Hw Hok Hf Hne Hdec Hle.
  rewrite rev_app_distr, dval_app, length_rev in * by lia.
  pose proof (val10_nonneg w Hw) as Hvw. pose proof (val10_nonneg f Hf) as Hvf.
  assert (Hpf : 0 < 10 ^ Z.of_nat (length f)) by (apply Z.pow_pos_nonneg; lia).
  assert (Hpd : 0 < 10 ^ (decimals - Z.of_nat (length f))) by (apply Z.pow_pos_nonneg; lia).
  set (v := val 10 (rev f) + 10 ^ Z.of_nat (length f) * val 10 (rev w)) in *.
  assert (Hv : 0 <= v /\ v <= UPPER_BOUND) by (unfold v in *; nia).
  assert (Hvw' : val 10 (rev w) <= v) by (unfold v; nia).
  destruct (parse_whole_digits w (46 :: show_digits f) Hw Hok eq_refl ltac:(lia)) as (m & t & E & H1 & H2 & H3).
  assert (Hsign : exists c p, show_digits w ++ 46 :: show_digits f = c :: p /\ c <> 45).
  { destruct w as [|d w]; [destruct Hok as [?|[? _]]; done|]. eexists _, _. split; [done|].
    apply Forall_cons_iff in Hw as [Hd _]. lia. }
  destruct f as [|e f]; [done|]. apply Forall_cons_iff in Hf as Hf'. destruct Hf' as [He Hf'].
  destruct (mantissa_loop_digits (e :: f) Hf m t 0 [] H1 I) as (m' & t' & E' & H1' & Ht & H2').
  { rewrite Z.pow_add_r, Z.mul_assoc, H2 by lia. unfold v in Hv. lia. }
  rewrite app_nil_r in E'. rewrite Z.pow_add_r, Z.mul_assoc, H2 in H2' by lia.
  replace (val 10 (rev w) * _ + _) with v in H2' by (unfold v; lia).
  unfold ParseFixedPoint.
  assert (Es : match signed neg (show_digits w ++ 46 :: show_digits (e :: f)) with 45 :: p => (true, p)
    | _ => (false, signed neg (show_digits w ++ 46 :: show_digits (e :: f))) end =
    (neg, show_digits w ++ 46 :: show_digits (e :: f))).
  { destruct neg; cbn [signed]; [done|]. destruct Hsign as (c & p & -> & Hc).
    destruct c as [|c|c]; try done. do 6 (destruct c as [c|c|]; try done). }
  assert (Ef : parse_fraction (46 :: show_digits (e :: f)) m t = mantissa_loop (show_digits (e :: f)) m t 0).
  { change (show_digits (e :: f)) with (e + 48 :: show_digits f). cbn [parse_fraction].
    rewrite isdigit_digit by done. done. }
  rewrite Es, E. cbn [mbind option_bind]. rewrite Ef, E'. cbn [mbind option_bind parse_exponent].
  replace (0 - (0 + Z.of_nat (length (e :: f))) + Z.of_nat t' + decimals)
    with (Z.of_nat t' + (decimals - Z.of_nat (length (e :: f)))) by lia.
  rewrite scale_value; [|done|lia| |].
  - rewrite Z.pow_add_r, Z.mul_assoc, H2' by lia. cbn zeta. destruct neg; f_equal; lia.
  - intros ->. rewrite Z.mul_0_l in H2'. assert (val 10 (rev w) = 0) by nia.
    assert (t = O); [|lia]. apply H3. assert (0 < 10 ^ Z.of_nat t) by (apply Z.pow_pos_nonneg; lia). nia.
  - rewrite Z.pow_add_r, Z.mul_assoc, H2' by lia. lia.
Qed.


(** ** Printed amounts *)

Lemma le_digits_spec n : forall x, 0 <= x ->
  digits 10 (le_digits n x) /\ length (le_digits n x) = n /\ val 10 (le_digits n x) = x mod 10 ^ Z.of_nat n.
Proof.
  induction n as [|n IH]; intros x Hx; cbn [le_digits val length].
  { split; [constructor|]. split; [done|]. change (10 ^ Z.of_nat 0) with 1. rewrite Z.mod_1_r. done. }
  destruct (IH (x / 10) ltac:(apply Z.div_pos; lia)) as (H1 & H2 & H3).
  split; [constructor; [apply Z.mod_pos_bound; lia|done]|]. split; [lia|].
  rewrite H3, Nat2Z.inj_succ, Z.pow_succ_r, Z.rem_mul_r by (try apply Z.pow_nonzero; lia). lia.
Qed.

Lemma skip_zeroes_nonempty v : val 10 (rev v) <> 0 -> skip_zeroes v <> [].
Proof. intros Hv E. apply Hv. rewrite <- (skip_zeroes_same 10) by lia. rewrite E. done. Qed.

(** ["%d"] prints the digits of the number, without leading zeroes. *)
Lemma show_d_digits x : 0 <= x < 10 ^ 19 ->
  exists w, show_d x = show_digits w /\ digits 10 w /\ whole_ok w /\ val 10 (rev w) = x.
Proof.
  intros Hx. unfold show_d. destruct (x =? 0) eqn:E.
  { exists [0]. split; [done|]. split; [by repeat constructor|]. split; [by left|]. cbn. lia. }
  destruct (le_digits_spec 19 x ltac:(lia)) as (H1 & H2 & H3). change (Z.of_nat 19) with 19 in H3. rewrite Z.mod_small in H3 by lia.
  exists (skip_zeroes (rev (le_digits 19 x))). split; [done|].
  split; [by apply skip_zeroes_digits, Forall_rev|]. split.
  - right. split; [|apply skip_zeroes_starts]. apply skip_zeroes_nonempty. rewrite rev_involutive, H3. lia.
  - rewrite skip_zeroes_same, rev_involutive by lia. done.
Qed.

(** Trimming removes zeros at the end of the fraction and leaves two digits. *)
Lemma trim_fraction F W : digits 10 F -> (2 <= length F)%nat ->
  exists j F', F = replicate j 0 ++ F' /\ (2 <= length F')%nat /\ trim (show_digits F ++ 46 :: W) = show_digits F' ++ 46 :: W.
Proof.
  induction F as [|a F IH]; intros Hd Hl; [cbn in Hl; lia|].
  apply Forall_cons_iff in Hd as [Ha Hd]. destruct F as [|b [|c F]]; [cbn in Hl; lia|..].
  - exists O, [a; b]. split; [done|]. split; [done|]. cbn. rewrite andb_false_r. done.
  - change (show_digits (a :: b :: c :: F) ++ 46 :: W)
      with (a + 48 :: b + 48 :: c + 48 :: (show_digits F ++ 46 :: W)). cbn [trim].
    assert (Hc : 0 <= c < 10) by (apply Forall_cons_iff in Hd as [_ Hd]; apply Forall_cons_iff in Hd as [Hc _]; done).
    rewrite (isdigit_digit c Hc), andb_true_r. destruct (a + 48 =? 48) eqn:E.
    + destruct (IH Hd ltac:(cbn; lia)) as (j & F' & EF & HF & Et).
      exists (S j), F'. split; [|by split]. rewrite EF. cbn. f_equal. lia.
    + exists O, (a :: b :: c :: F). done.
Qed.

Lemma rev_show ds : rev (show_digits ds) = show_digits (rev ds).
Proof. unfold show_digits. induction ds as [|d ds IH]; cbn [fmap list_fmap rev]; [done|]. rewrite IH, fmap_app. done. Qed.

(** The shape of a printed amount, and its value. *)
Lemma FormatMoney_shape n : Z.abs n <= UPPER_BOUND ->
  exists w f, FormatMoney n = signed (n <? 0) (show_digits w ++ 46 :: show_digits f) /\
    digits 10 w /\ whole_ok w /\ digits 10 f /\ (2 <= length f <= 8)%nat /\
    val 10 (rev w) = Z.abs n / COIN /\
    val 10 (rev f) * 10 ^ (8 - Z.of_nat (length f)) = Z.abs n mod COIN.
Proof.
  intros Hn. unfold FormatMoney, UPPER_BOUND in *.
  replace (if 0 <? n then n else - n) with (Z.abs n) by (destruct (0 <? n) eqn:E; lia).
  set (q := Z.abs n / COIN). set (r := Z.abs n mod COIN).
  assert (Hr : 0 <= r < 10 ^ 8) by (apply Z.mod_pos_bound; done).
  assert (Hq : 0 <= q < 10 ^ 19) by (split; [apply Z.div_pos|apply Z.div_lt_upper_bound]; unfold COIN; lia).
  destruct (show_d_digits q Hq) as (w & -> & Hw & Hok & Hvw).
  destruct (le_digits_spec 8 r ltac:(lia)) as (Hd & Hl & Hv). change (Z.of_nat 8) with 8 in Hv.
  rewrite Z.mod_small in Hv by lia.
  destruct (trim_fraction (le_digits 8 r) (rev (show_digits w)) Hd ltac:(lia)) as (j & F & EF & HF & Et).
  assert (Hlen : length (le_digits 8 r) = (j + length F)%nat) by (rewrite EF, length_app, length_replicate; done).
  exists w, (rev F). split.
  - assert (Erev : rev (show_digits w ++ [46] ++ show_08d r) = show_digits (le_digits 8 r) ++ 46 :: rev (show_digits w)).
    { rewrite !rev_app_distr. unfold show_08d. rewrite rev_show, rev_involutive. cbn [rev app]. rewrite <- app_assoc. done. }
    rewrite Erev, Et, rev_app_distr. cbn [rev]. rewrite rev_involutive, <- app_assoc, rev_show. done.
  - rewrite rev_involutive, length_rev. split; [done|]. split; [done|].
    split; [apply Forall_rev; rewrite EF in Hd; by apply Forall_app in Hd as [_ Hd]|].
    split; [lia|]. split; [done|].
    rewrite <- Hv, EF, dval_app, val_zeroes, length_replicate by lia.
    replace (8 - Z.of_nat (length F)) with (Z.of_nat j) by lia. lia.
Qed.

Lemma amount_parts n : Z.abs n = COIN * (Z.abs n / COIN) + Z.abs n mod COIN.
Proof. apply Z.div_mod. done. Qed.

Lemma format_parse_fixed n : Z.abs n <= UPPER_BOUND -> ParseFixedPoint (FormatMoney n) 8 = Some n.
Proof.
  intros Hn. destruct (FormatMoney_shape n Hn) as (w & f & -> & Hw & Hok & Hf & Hl & Hvw & Hvf).
  assert (Hval : val 10 (rev (w ++ f)) * 10 ^ (8 - Z.of_nat (length f)) = Z.abs n).
  { rewrite rev_app_distr, dval_app, length_rev, Z.mul_add_distr_r, Hvf, Hvw by lia.
    rewrite (Z.mul_comm (10 ^ Z.of_nat (length f))), <- Z.mul_assoc, <- Z.pow_add_r by lia.
    replace (Z.of_nat (length f) + (8 - Z.of_nat (length f))) with 8 by lia.
    pose proof (amount_parts n) as Hp. unfold COIN in *. lia. }
  rewrite ParseFixedPoint_decimal; try done; [|destruct f; [cbn in Hl; lia|done]|lia|lia].
  rewrite Hval. cbn zeta. destruct (n <? 0) eqn:E; f_equal; lia.
Qed.


Lemma units_loop_digits ds : digits 10 ds -> forall k u, (length ds <= k)%nat ->
  units_loop (show_digits ds) (10 ^ Z.of_nat k / 10) u = (u + val 10 (rev ds) * 10 ^ (Z.of_nat k - Z.of_nat (length ds)), []).
Proof.
  induction 1 as [|d ds Hd Hds IH]; intros k u Hk; [cbn; f_equal; lia|].
  destruct k as [|k]; [cbn in Hk; lia|]. rewrite val10_cons.
  change (show_digits (d :: ds)) with (d + 48 :: show_digits ds). cbn [units_loop length] in *.
  rewrite isdigit_digit by done.
  assert (Hp : 10 ^ Z.of_nat (S k) / 10 = 10 ^ Z.of_nat k).
  { rewrite Nat2Z.inj_succ, Z.pow_succ_r, Z.mul_comm, Z.div_mul by lia. done. }
  assert (Hpos : 0 < 10 ^ Z.of_nat k) by (apply Z.pow_pos_nonneg; lia).
  rewrite Hp. replace (0 <? 10 ^ Z.of_nat k) with true by lia. cbn [andb].
  rewrite IH by lia. f_equal. replace (Z.of_nat (S k) - Z.of_nat (S (length ds))) with (Z.of_nat k - Z.of_nat (length ds)) by lia.
  rewrite Z.mul_add_distr_r, <- Z.mul_assoc, <- Z.pow_add_r by lia.
  replace (Z.of_nat (length ds) + (Z.of_nat k - Z.of_nat (length ds))) with (Z.of_nat k) by lia. lia.
Qed.

Lemma digit_char d : 0 <= d < 10 -> (d + 48 =? 46) = false /\ isspace (d + 48) = false /\ (d + 48 =? 0) = false.
Proof. intros Hd. unfold isspace. lia. Qed.

Lemma money_loop_digits ds rest : digits 10 ds -> forall acc,
  money_loop (show_digits ds ++ rest) acc = money_loop rest (acc ++ show_digits ds).
Proof.
  induction 1 as [|d ds Hd Hds IH]; intros acc; [rewrite app_nil_r; done|].
  change (show_digits (d :: ds) ++ rest) with (d + 48 :: (show_digits ds ++ rest)). cbn [money_loop].
  destruct (digit_char d Hd) as (-> & -> & _). rewrite isdigit_digit by done. cbn [negb].
  rewrite IH, <- app_assoc. done.
Qed.

Lemma scan_digits_show ds : digits 10 ds -> forall acc,
  scan_digits (show_digits ds) acc = (acc * 10 ^ Z.of_nat (length ds) + val 10 (rev ds), []).
Proof.
  induction 1 as [|d ds Hd Hds IH]; intros acc; [cbn; f_equal; lia|].
  change (show_digits (d :: ds)) with (d + 48 :: show_digits ds). cbn [scan_digits length].
  rewrite isdigit_digit, IH, val10_cons, Nat2Z.inj_succ, Z.pow_succ_r by (done || lia). f_equal. lia.
Qed.

Lemma show_clean ds : digits 10 ds ->
  Forall (fun c => (c =? 0) = false) (show_digits ds) /\ Forall (fun c => isspace c = false) (show_digits ds).
Proof.
  induction 1 as [|d ds Hd Hds [IH1 IH2]]; [by split|]. destruct (digit_char d Hd) as (_ & H2 & H3).
  split; by constructor.
Qed.

Lemma strtoll_show w : digits 10 w -> w <> [] -> val 10 (rev w) < 2 ^ 63 ->
  strtoll (show_digits w) = (val 10 (rev w), [], false).
Proof.
  intros Hw Hne Hlt. destruct (show_clean w Hw) as [_ Hs]. unfold strtoll. rewrite skip_spaces_id by done.
  pose proof (val10_nonneg w Hw) as Hpos. destruct w as [|d w]; [done|].
  apply Forall_cons_iff in Hw as Hw'. destruct Hw' as [Hd _].
  assert (Esign : match show_digits (d :: w) with 45 :: p' => (true, p') | 43 :: p' => (false, p')
    | _ => (false, show_digits (d :: w)) end = (false, show_digits (d :: w))).
  { change (show_digits (d :: w)) with (d + 48 :: show_digits w).
    remember (d + 48) as c eqn:Ec. destruct c as [|c|c]; try done. do 6 (destruct c as [c|c|]; try done; try (exfalso; lia)). }
  rewrite Esign. change (show_digits (d :: w)) with (d + 48 :: show_digits w) at 1. cbn iota.
  rewrite isdigit_digit, scan_digits_show by done.
  replace (0 * _ + val 10 (rev (d :: w))) with (val 10 (rev (d :: w))) by lia.
  replace (val 10 (rev (d :: w)) <? - 2 ^ 63) with false by lia.
  replace (2 ^ 63 - 1 <? val 10 (rev (d :: w))) with false by lia. done.
Qed.

(** A number below 10^10 has at most ten digits. *)
Lemma whole_length w k : digits 10 w -> whole_ok w -> (0 < k)%nat -> val 10 (rev w) < 10 ^ Z.of_nat k -> (length w <= k)%nat.
Proof.
  intros Hw [-> | [Hne Hs]] Hk Hv; [cbn; lia|]. destruct w as [|d w]; [done|]. cbn [starts_not] in Hs.
  apply Forall_cons_iff in Hw as [Hd Hw]. rewrite val10_cons in Hv. pose proof (val10_nonneg w Hw) as Hp.
  destruct (le_lt_dec k (length w)) as [Hge|Hlt]; [exfalso|cbn; lia].
  assert (10 ^ Z.of_nat k <= 10 ^ Z.of_nat (length w)) by (apply Z.pow_le_mono_r; lia). nia.
Qed.

Lemma format_parse_money n : 0 <= n <= UPPER_BOUND -> ParseMoney (FormatMoney n) = Some n.
Proof.
  intros Hn. destruct (FormatMoney_shape n ltac:(lia)) as (w & f & -> & Hw & Hok & Hf & Hl & Hvw & Hvf).
  rewrite Z.abs_eq in Hvw, Hvf by lia. replace (n <? 0) with false by lia. cbn [signed].
  destruct (show_clean w Hw) as [Hc1 Hs1]. destruct (show_clean f Hf) as [Hc2 Hs2].
  unfold ParseMoney. rewrite c_str_id, skip_spaces_id
    by (apply Forall_app; split; [done|constructor; [done|done]]).
  rewrite money_loop_digits by done. cbn [app money_loop]. change (46 =? 46) with true. cbn iota.
  change (CENT * 10) with (10 ^ Z.of_nat 8 / 10). rewrite units_loop_digits by (done || lia).
  cbn [mbind option_bind forallb negb]. change (Z.of_nat 8) with 8. rewrite Z.add_0_l, Hvf.
  assert (Hq : n / COIN < 10 ^ 10) by (apply Z.div_lt_upper_bound; unfold COIN, UPPER_BOUND in *; lia).
  assert (Hlen : (length w <= 10)%nat) by (apply whole_length; [done|done|lia|change (Z.of_nat 10) with 10; lia]).
  assert (Hr : 0 <= n mod COIN < COIN) by (apply Z.mod_pos_bound; done).
  unfold show_digits at 1. rewrite length_fmap.
  replace (10 <? length w)%nat with false by (symmetry; apply Nat.ltb_ge; lia).
  replace ((n mod COIN <? 0) || (COIN <? n mod COIN)) with false by lia.
  unfold atoi64. rewrite c_str_id by done.
  rewrite strtoll_show; [|done|destruct Hok as [->|[? _]]; done|lia].
  rewrite Hvw. pose proof (amount_parts n) as Hp. rewrite Z.abs_eq in Hp by lia.
  rewrite i64_small by (unfold UPPER_BOUND, COIN in *; lia). f_equal. lia.
Qed.

(** Printed amounts read back. Whatever amount below 10^18 base units in
    absolute value [FormatMoney] prints, [ParseFixedPoint] with eight decimals
    reads back, sign included; [ParseMoney] reads back the amounts that are not
    negative. *)
Theorem money_roundtrip n : Z.abs n <= UPPER_BOUND ->
  ParseFixedPoint (FormatMoney n) 8 = Some n /\ (0 <= n -> ParseMoney (FormatMoney n) = Some n).
Proof. intros Hn. split; [by apply format_parse_fixed|]. intros H0. apply format_parse_money. lia. Qed.

Lemma money_roundtrip_witness : Z.abs 1234500000 <= UPPER_BOUND /\ FormatMoney 1234500000 = str "12.345" /\
  ParseFixedPoint (FormatMoney 1234500000) 8 = Some 1234500000.
Proof.
  assert (H : Z.abs 1234500000 <= UPPER_BOUND) by (vm_compute; discriminate).
  exact (conj H (conj eq_refl (proj1 (money_roundtrip 1234500000 H)))).
Defined.

End Decimal.
