(* ===== verification/FluidToken.v ===== *)
(** * Fluid commands (fluid/operations.h/.cpp, fluid/fluid.h/.cpp, core_write.cpp)

    A fluid command is a script: an opcode and one push, the token.  A token is
    a message [a$b$c], followed by signatures separated by [@].  The code works
    on the printed form of the script ([ScriptToAsmStr]), so this file models
    the printing, the splitting of strings, the recovery of the signers and the
    checks on a command, up to the rules that [CheckTransaction] applies.

    A result is a value of [res]: besides a value there are the three ways in
    which these functions do not return: [std::out_of_range] from [at], a null
    pointer that is read (an address made from [nullptr]), and a failed
    assertion. *)

From stdpp Require Import base list list_numbers numbers option strings.
From Stdlib Require Import ZArith Lia.
From S2P Require Import Prelude Serialize Script Transaction Interpreter InterpreterSafety Standard Encodings Decimal TxVerify.

Local Open Scope Z_scope.

Module FluidToken.
Import Serialize Script Transaction Interpreter InterpreterSafety Encodings Decimal.

(** ** Outcomes *)

Inductive res (A : Type) : Type :=
  | Val (a : A)
  | OutOfRange
  | NullDeref
  | BadAssert.
Arguments Val {A} _.
Arguments OutOfRange {A}.
Arguments NullDeref {A}.
Arguments BadAssert {A}.

#[global] Instance res_bind : MBind res := fun A B f r =>
  match r with
  | Val a => f a
  | OutOfRange => OutOfRange
  | NullDeref => NullDeref
  | BadAssert => BadAssert
  end.

(** [v.at(n)]. *)
Definition at_ {A} (v : list A) (n : nat) : res A :=
  match v !! n with Some a => Val a | None => OutOfRange end.

(** The operations of [Encodings] whose only failure is an assertion. *)
Definition asserted {A} (o : option A) : res A :=
  match o with Some a => Val a | None => BadAssert end.

(** ** Printed scripts *)

Definition op_names : list (Z * string) := [
  (0, "0"); (76, "OP_PUSHDATA1"); (77, "OP_PUSHDATA2"); (78, "OP_PUSHDATA4");
  (79, "-1"); (80, "OP_RESERVED"); (81, "1"); (82, "2");
  (83, "3"); (84, "4"); (85, "5"); (86, "6");
  (87, "7"); (88, "8"); (89, "9"); (90, "10");
  (91, "11"); (92, "12"); (93, "13"); (94, "14");
  (95, "15"); (96, "16"); (97, "OP_NOP"); (98, "OP_VER");
  (99, "OP_IF"); (100, "OP_NOTIF"); (101, "OP_VERIF"); (102, "OP_VERNOTIF");
  (103, "OP_ELSE"); (104, "OP_ENDIF"); (105, "OP_VERIFY"); (106, "OP_RETURN");
  (107, "OP_TOALTSTACK"); (108, "OP_FROMALTSTACK"); (109, "OP_2DROP"); (110, "OP_2DUP");
  (111, "OP_3DUP"); (112, "OP_2OVER"); (113, "OP_2ROT"); (114, "OP_2SWAP");
  (115, "OP_IFDUP"); (116, "OP_DEPTH"); (117, "OP_DROP"); (118, "OP_DUP");
  (119, "OP_NIP"); (120, "OP_OVER"); (121, "OP_PICK"); (122, "OP_ROLL");
  (123, "OP_ROT"); (124, "OP_SWAP"); (125, "OP_TUCK"); (126, "OP_CAT");
  (127, "OP_SUBSTR"); (128, "OP_LEFT"); (129, "OP_RIGHT"); (130, "OP_SIZE");
  (131, "OP_INVERT"); (132, "OP_AND"); (133, "OP_OR"); (134, "OP_XOR");
  (135, "OP_EQUAL"); (136, "OP_EQUALVERIFY"); (137, "OP_RESERVED1"); (138, "OP_RESERVED2");
  (139, "OP_1ADD"); (140, "OP_1SUB"); (141, "OP_2MUL"); (142, "OP_2DIV");
  (143, "OP_NEGATE"); (144, "OP_ABS"); (145, "OP_NOT"); (146, "OP_0NOTEQUAL");
  (147, "OP_ADD"); (148, "OP_SUB"); (149, "OP_MUL"); (150, "OP_DIV");
  (151, "OP_MOD"); (152, "OP_LSHIFT"); (153, "OP_RSHIFT"); (154, "OP_BOOLAND");
  (155, "OP_BOOLOR"); (156, "OP_NUMEQUAL"); (157, "OP_NUMEQUALVERIFY"); (158, "OP_NUMNOTEQUAL");
  (159, "OP_LESSTHAN"); (160, "OP_GREATERTHAN"); (161, "OP_LESSTHANOREQUAL"); (162, "OP_GREATERTHANOREQUAL");
  (163, "OP_MIN"); (164, "OP_MAX"); (165, "OP_WITHIN"); (166, "OP_RIPEMD160");
  (167, "OP_SHA1"); (168, "OP_SHA256"); (169, "OP_HASH160"); (170, "OP_HASH256");
  (171, "OP_CODESEPARATOR"); (172, "OP_CHECKSIG"); (173, "OP_CHECKSIGVERIFY"); (174, "OP_CHECKMULTISIG");
  (175, "OP_CHECKMULTISIGVERIFY"); (176, "OP_NOP1"); (177, "OP_CHECKLOCKTIMEVERIFY"); (178, "OP_CHECKSEQUENCEVERIFY");
  (179, "OP_NOP4"); (180, "OP_NOP5"); (181, "OP_NOP6"); (182, "OP_NOP7");
  (183, "OP_NOP8"); (184, "OP_NOP9"); (185, "OP_NOP10"); (192, "OP_MINT");
  (195, "OP_REWARD_MASTERNODE"); (196, "OP_REWARD_MINING"); (197, "OP_SWAP_SOVEREIGN_ADDRESS"); (198, "OP_UPDATE_FEES");
  (199, "OP_FREEZE_ADDRESS"); (200, "OP_RELEASE_ADDRESS"); (1, "OP_BDAP_NEW"); (2, "OP_BDAP_DELETE");
  (201, "OP_BDAP_REVOKE"); (4, "OP_BDAP_MODIFY"); (5, "OP_BDAP_MOVE"); (6, "OP_BDAP_ACCOUNT_ENTRY");
  (7, "OP_BDAP_LINK_REQUEST"); (8, "OP_BDAP_LINK_ACCEPT"); (9, "OP_BDAP_AUDIT"); (10, "OP_BDAP_CERTIFICATE");
  (11, "OP_BDAP_IDENTITY"); (12, "OP_BDAP_ID_VERIFICATION"); (13, "OP_BDAP_SIDECHAIN"); (14, "OP_BDAP_SIDECHAIN_CHECKPOINT");
  (15, "OP_BDAP_ASSET"); (255, "OP_INVALIDOPCODE")
]%string.

Fixpoint assoc (k : Z) (l : list (Z * string)) : option string :=
  match l with
  | (k', s) :: l' => if k =? k' then Some s else assoc k l'
  | [] => None
  end.

Definition GetOpName (opcode : Z) : list Z := str (default "OP_UNKNOWN"%string (assoc opcode op_names)).

(** ["%d"] of an [int]. *)
Definition show_int (x : Z) : list Z := if x <? 0 then 45 :: show_d (- x) else show_d x.

Definition asm_item (opcode : Z) (vch : list Z) : list Z :=
  if (0 <=? opcode) && (opcode <=? OP_PUSHDATA4) then
    if zlen vch <=? 4 then show_int (getint (default 0 (CScriptNum vch false nDefaultMaxNumSize)))
    else HexStr vch
  else GetOpName opcode.

Fixpoint asm_loop (fuel : nat) (script : CScript) (pc : nat) (s : list Z) : list Z :=
  match fuel with
  | O => s
  | S fuel =>
      if (pc <? length script)%nat then
        let s := match s with [] => [] | _ => s ++ [32] end in
        let r := GetOp2 script pc in
        if negb (op_ok r) then s ++ str "[error]"
        else asm_loop fuel script (op_pc r) (s ++ asm_item (op_code r) (op_data r))
      else s
  end.

(** [ScriptToAsmStr(script)], without the decoding of signatures. *)
Definition ScriptToAsmStr (script : CScript) : list Z := asm_loop (length script) script 0 [].

(** ** Strings (operations.cpp) *)

Definition PrimaryDelimiter : Z := 64.
Definition SubDelimiter : Z := 36.

(** [boost::split(output, input, is_any_of(sep))] for one separator. *)
Fixpoint split (sep : Z) (s : list Z) : list (list Z) :=
  match s with
  | [] => [[]]
  | c :: s' =>
      if c =? sep then [] :: split sep s'
      else match split sep s' with
           | t :: ts => (c :: t) :: ts
           | [] => [[c]]
           end
  end.

Definition remove (c : Z) (s : list Z) : list Z := List.filter (fun d => negb (d =? c)) s.

Definition ScrubString (input : list Z) (forInteger : bool) : list Z :=
  let s := remove 36 (remove 64 input) in
  if forInteger then remove 32 s else s.

Definition SeparateString (input : list Z) (subDelimiter : bool) : list (list Z) :=
  if subDelimiter then split SubDelimiter input else split PrimaryDelimiter input.

Definition SeparateFluidOpString (input : list Z) : list (list Z) :=
  match SeparateString input false with
  | first :: second :: rest => SeparateString first true ++ second :: rest
  | _ => []
  end.

Definition StitchString (stringOne stringTwo : list Z) (subDelimiter : bool) : list Z :=
  stringOne ++ [if subDelimiter then SubDelimiter else PrimaryDelimiter] ++ stringTwo.

Definition GetRidOfScriptStatement (input : list Z) (position : nat) : res (list Z) := at_ (split 32 input) position.

Definition hex_upper : list Z := str "0123456789ABCDEF".

Fixpoint StringToHex (s : list Z) : list Z :=
  match s with
  | c :: s' => hex_upper !!! Z.to_nat (Z.shiftr c 4) :: hex_upper !!! Z.to_nat (Z.land c 15) :: StringToHex s'
  | [] => []
  end.

(** The value of leading hexadecimal digits. *)
Fixpoint scan_hex (p : list Z) (acc : Z) : Z :=
  match p with
  | c :: p' => if 0 <=? HexDigit c then scan_hex p' (acc * 16 + HexDigit c) else acc
  | [] => acc
  end.

(** [strtol(byte.c_str(), nullptr, 16)] on at most two characters, where a
    prefix "0x" has no digit after it and counts as zero. *)
Definition strtol16 (s : list Z) : Z :=
  match skip_spaces (c_str s) with
  | 45 :: p => - scan_hex p 0
  | 43 :: p => scan_hex p 0
  | p => scan_hex p 0
  end.

Fixpoint HexToString (hex : list Z) : list Z :=
  match hex with
  | c :: d :: hex' => u8 (strtol16 [c; d]) :: HexToString hex'
  | [c] => [u8 (strtol16 [c])]
  | [] => []
  end.

(** ** Signers *)

Definition strMessageMagic : list Z := str "Cash Signed Message:" ++ [10].

(** [CPubKey::RecoverCompact] (secp256k1): the serialized key, or a failure. *)
Class PubKeyRecovery : Type := RecoverCompact : list Z -> list Z -> option (list Z).

(** The printed addresses of [InitialiseSovereignIdentities]. *)
Class Sovereigns : Type := sovereign_identities : list (list Z).

Definition main_sovereigns : Sovereigns := str <$>
  ["CMRbmYckH5TKhkFev8y4gCrpMo7gZ96xoD"; "CVrMHUfNfFUnzbTM2m7ZpCjtXSuzyKfyG6"; "CeCbHRu59fqW6a3RoZfcz148mrAmyQjXCU";
   "CHt97fgnG9LXzQNyWaqYNW3EhRumLCENqS"; "CaJQVSM8A9ZVfeJq9S8q1v7AxzE1XVHzo8"]%string.
Definition testnet_sovereigns : Sovereigns := str <$>
  ["cFWG3ehFrwnmGjtg1NJJyPE72fHkWu5Sfe"; "c2xbM7uqFaagjCsqK6bNKHu1QeCr9PtHkp"; "cBFo7y2Z1poM954HLvCneWGwPi6Jh1xsPd";
   "cMDjfnWnADPxMas9eHEP4TwEEELgXMd4nQ"; "c927QBgjEtWJB9BhgbDxhQzPq68Nw9hWyf"]%string.
Definition regtest_sovereigns : Sovereigns := str <$>
  ["yVTakBsj3x1deP3wjuKr7YetnAB4hH7HaD"; "yeCMR9T3Ps9VESzmdk5ohTeLiTbnbaBZRz"; "ya8DWb1kvsamWoDgyE7DF6qoR6BqrYKP1f";
   "yLdaHs5E4zWfuFgzgtqGPx6UeRtB5DfmVi"; "yPbK1Kkq7q8WxVL5gAmScUZawigHt9vfTF"]%string.
Definition privatenet_sovereigns : Sovereigns := str <$>
  ["zXxBSLdnM37xNRNupWzoXuHZ8Y5E9qG15Y"; "zDqX4cYz94K4xNYjicvKGvMHdspsXZqN3j"; "zF6KFaNUX9VgZ7zZj8uWAoGCNKYCnbb9eS";
   "zCiLScE3RRommWgWCkSygtDkdvtuyzowuj"; "z92TwCnVLxQRNxsCyQnz4Qvwh4xqsE9WxV"]%string.

Definition MAX_FLUID_TIME_DISTORT : Z := 60 * 60.
Definition FLUID_MAX_REWARD_FOR_MASTERNODE : Z := 1000 * COIN.
Definition FLUID_MAX_REWARD_FOR_MINING : Z := 1000 * COIN.
Definition FLUID_MAX_FOR_MINT : Z := 1000000000 * COIN.

Section Commands.
Context {CR : Crypto} {BP : Base58Prefix} {PK : PubKeyRecovery} {SV : Sovereigns}.

(** The value found in a variable that was never written. *)
Context (uninit : Z).

(** [CDebitAddress(str)]. *)
Definition CDebitAddress (s : list Z) : res CBase58Data := '(a, _) ← asserted (SetString s); Val a.

Definition AddressString (a : CBase58Data) : res (list Z) := asserted (ToString a).

Fixpoint map_addresses (l : list (list Z)) : res (list (list Z)) :=
  match l with
  | [] => Val []
  | s :: l' => a ← CDebitAddress s; t ← AddressString a; ts ← map_addresses l'; Val (t :: ts)
  end.

Definition InitialiseAddresses : res (list (list Z)) := map_addresses sovereign_identities.

(** [return nullptr] makes a [CDebitAddress] from a null [const char*], which
    [DecodeBase58] then reads. *)
Definition GetAddressFromDigestSignature (digestSignature messageTokenKey : list Z) : res CBase58Data :=
  let '(vchSig, fInvalid) := DecodeBase64 digestSignature in
  if (fInvalid : bool) then NullDeref
  else match RecoverCompact (CHash256 (Ser c_bytes strMessageMagic ++ Ser c_bytes messageTokenKey)) vchSig with
       | None => NullDeref
       | Some pubkey => Val (Set_dest (Standard.CKeyID (CHash160 pubkey)))
       end.

(** The result, the signer (which may be the one passed in) and the message. *)
Definition GenericVerifyInstruction (consentToken : list Z) (signer : CBase58Data) (whereToLook : nat)
  : res (bool * CBase58Data * list Z) :=
  consentTokenNoScript ← GetRidOfScriptStatement consentToken 1;
  let strs := SeparateString (HexToString consentTokenNoScript) false in
  messageTokenKey ← at_ strs 0;
  if (length strs <=? whereToLook)%nat || (whereToLook =? 0)%nat then Val (false, signer, messageTokenKey)
  else
    digestSignature ← at_ strs whereToLook;
    signer ← GetAddressFromDigestSignature digestSignature messageTokenKey;
    Val (true, signer, messageTokenKey).

(** One [if] of the loop: the key of one place and [attemptKey]. *)
Definition quorum_place (consentToken : list Z) (xKey attemptKey : CBase58Data) (place : nat) (key : CBase58Data * bool)
  : res (CBase58Data * bool * CBase58Data) :=
  '(ok, attemptKey, _) ← GenericVerifyInstruction consentToken attemptKey place;
  if ok && bool_decide (xKey = attemptKey) then
    s ← AddressString attemptKey; a ← CDebitAddress s; Val (a, true, attemptKey)
  else Val (key, attemptKey).

(** The loop over the sovereign addresses; [None] is [return false]. *)
Fixpoint quorum_loop (addresses : list (list Z)) (consentToken : list Z) (keyOne keyTwo keyThree : CBase58Data * bool)
  : res (option ((CBase58Data * bool) * (CBase58Data * bool) * (CBase58Data * bool))) :=
  match addresses with
  | [] => Val (Some (keyOne, keyTwo, keyThree))
  | address :: addresses =>
      xKey ← CDebitAddress address;
      if negb (Address_IsValid xKey) then Val None
      else
        '(keyOne, attemptKey) ← quorum_place consentToken xKey empty58 1 keyOne;
        '(keyTwo, attemptKey) ← quorum_place consentToken xKey attemptKey 2 keyTwo;
        '(keyThree, _) ← quorum_place consentToken xKey attemptKey 3 keyThree;
        quorum_loop addresses consentToken keyOne keyTwo keyThree
  end.

(** The common body of [CheckIfQuorumExists] and [CheckSignatureQuorum]. *)
Definition CheckQuorum (fluidSovereigns : list (list Z)) (consentToken : list Z) (individual : bool) : res bool :=
  keys ← quorum_loop fluidSovereigns consentToken (empty58, false) (empty58, false) (empty58, false);
  match keys with
  | None => Val false
  | Some (keyOne, keyTwo, keyThree) =>
      s1 ← AddressString keyOne.1; s2 ← AddressString keyTwo.1; s3 ← AddressString keyThree.1;
      let fValid := negb (bool_decide (s1 = s2)) && negb (bool_decide (s2 = s3)) && negb (bool_decide (s1 = s3)) in
      Val (if individual then keyOne.2 || keyTwo.2 || keyThree.2
           else if fValid then keyOne.2 && keyTwo.2 && keyThree.2
           else false)
  end.

Definition CheckIfQuorumExists (consentToken : list Z) (individual : bool) : res bool :=
  fluidSovereigns ← InitialiseAddresses; CheckQuorum fluidSovereigns consentToken individual.

Definition CheckNonScriptQuorum (consentToken : list Z) (individual : bool) : res bool :=
  CheckIfQuorumExists (str "12345 " ++ consentToken) individual.

(** ** Checks on a command *)

Definition amount_command (strOpCode : list Z) : bool :=
  bool_decide (strOpCode = str "OP_MINT") || bool_decide (strOpCode = str "OP_REWARD_MINING") ||
  bool_decide (strOpCode = str "OP_REWARD_MASTERNODE").

(** The number that [ParseInt64] leaves in a fresh variable. *)
Definition token_time (ls : list Z) : Z := default uninit (ParseInt64 (ScrubString ls true)).2.

Definition too_old (timeStamp : Z) (ls : list Z) : bool := i64 (token_time ls + MAX_FLUID_TIME_DISTORT) <? timeStamp.

Definition ExtractCheckTimestamp (strOpCode consentToken : list Z) (timeStamp : Z) : res bool :=
  consentTokenNoScript ← GetRidOfScriptStatement consentToken 1;
  let strs := SeparateString (HexToString consentTokenNoScript) false in
  first ← at_ strs 0;
  let ptrs := SeparateString first true in
  if (length strs <=? 1)%nat then Val false
  else if amount_command strOpCode then ls ← at_ ptrs 1; Val (negb (too_old timeStamp ls))
  else if bool_decide (strOpCode = str "OP_BDAP_REVOKE") then ls ← at_ ptrs 0; Val (negb (too_old timeStamp ls))
  else Val false.

(** The limits on the amount of a command. *)
Definition amount_allowed (strOperationCode : list Z) (fluidAmount : Z) : bool :=
  if (bool_decide (strOperationCode = str "OP_REWARD_MINING") ||
      bool_decide (strOperationCode = str "OP_REWARD_MASTERNODE")) && (fluidAmount <? 0) then false
  else if bool_decide (strOperationCode = str "OP_MINT") && (FLUID_MAX_FOR_MINT <? fluidAmount) then false
  else if bool_decide (strOperationCode = str "OP_REWARD_MINING") && (FLUID_MAX_REWARD_FOR_MINING <? fluidAmount) then false
  else negb (bool_decide (strOperationCode = str "OP_REWARD_MASTERNODE") && (FLUID_MAX_REWARD_FOR_MASTERNODE <? fluidAmount)).

Definition CheckFluidOperationScript (fluidScriptPubKey : CScript) (timeStamp : Z) (fSkipTimeStampCheck : bool) : res bool :=
  let strFluidOpScript := ScriptToAsmStr fluidScriptPubKey in
  verificationWithoutOpCode ← GetRidOfScriptStatement strFluidOpScript 1;
  strOperationCode ← GetRidOfScriptStatement strFluidOpScript 0;
  fresh ← (if fSkipTimeStampCheck then Val true else ExtractCheckTimestamp strOperationCode strFluidOpScript timeStamp);
  if negb fresh then Val false
  else if negb (IsHex verificationWithoutOpCode) then Val false
  else
    let vecSplitScript := SeparateString (HexToString verificationWithoutOpCode) true in
    if amount_command strOperationCode then
      match vecSplitScript with
      | strAmount :: _ :: _ =>
          match ParseFixedPoint strAmount 8 with
          | Some fluidAmount => Val (amount_allowed strOperationCode fluidAmount)
          | None => Val true
          end
      | _ => Val false
      end
    else if bool_decide (strOperationCode = str "OP_BDAP_REVOKE") then Val (1 <? length vecSplitScript)%nat
    else Val false.

(** [false] is [None]; else the parts of the message. *)
Definition ProcessFluidToken (consentToken : list Z) (strVecNo : nat) : res (option (list (list Z))) :=
  consentTokenNoScript ← GetRidOfScriptStatement consentToken 1;
  quorum ← CheckNonScriptQuorum consentTokenNoScript false;
  if negb quorum then Val None
  else
    let strs := SeparateString (HexToString consentTokenNoScript) false in
    first ← at_ strs 0;
    Val (if (length strs <=? strVecNo)%nat then None else Some (SeparateString first true)).

(** The result and [coinAmount], which keeps its value when the text is no
    number. *)
Definition GenericParseNumber (consentToken : list Z) (timeStamp coinAmount : Z) (txCheckPurpose : bool) : res (bool * Z) :=
  ptrs ← ProcessFluidToken consentToken 1;
  match ptrs with
  | None => Val (false, coinAmount)
  | Some ptrs =>
      lr ← at_ ptrs 0;
      ls ← at_ ptrs 1;
      if too_old timeStamp ls && negb txCheckPurpose then Val (false, coinAmount)
      else Val (true, default coinAmount (ParseFixedPoint (ScrubString lr true) 8))
  end.

(** The result, the destination and [coinAmount]. *)
Definition ParseMintKey (nTime : Z) (destination : CBase58Data) (coinAmount : Z) (uniqueIdentifier : list Z) (txCheckPurpose : bool)
  : res (bool * CBase58Data * Z) :=
  ptrs ← ProcessFluidToken uniqueIdentifier 1;
  match ptrs with
  | None => Val (false, destination, coinAmount)
  | Some ptrs =>
      if (length ptrs <=? 2)%nat then Val (false, destination, coinAmount)
      else
        lr ← at_ ptrs 0;
        ls ← at_ ptrs 1;
        if too_old nTime ls && negb txCheckPurpose then Val (false, destination, coinAmount)
        else
          let coinAmount := default coinAmount (ParseFixedPoint (ScrubString lr true) 8) in
          recipientAddress ← at_ ptrs 2;
          destination ← CDebitAddress recipientAddress;
          Val (Address_IsValid destination, destination, coinAmount)
  end.

(** [None] is [true]; else the reason given to [state.DoS]. *)
Definition ValidationProcesses (txOut : CScript) : res (option string) :=
  if TxVerify.IsTransactionFluid txOut then
    quorum ← CheckIfQuorumExists (ScriptToAsmStr txOut) false;
    if negb quorum then Val (Some "bad-txns-fluid-auth-failure"%string)
    else
      mint ← (if TxVerify.protocol txOut MINT_TX then
                '(ok, _, _) ← ParseMintKey 0 empty58 uninit (ScriptToAsmStr txOut) true; Val ok
              else Val true);
      if negb mint then Val (Some "bad-txns-fluid-mint-auth-failure"%string)
      else
        modify ← (if TxVerify.protocol txOut MASTERNODE_MODFIY_TX || TxVerify.protocol txOut MINING_MODIFY_TX then
                    '(ok, _) ← GenericParseNumber (ScriptToAsmStr txOut) 0 uninit true; Val ok
                  else Val true);
        Val (if (modify : bool) then None else Some "bad-txns-fluid-modify-parse-failure"%string)
  else Val None.

(** The vector of earlier commands is local and stays empty. *)
Definition CheckTransactionInRecord (fluidInstruction : CScript) : res bool :=
  if TxVerify.IsTransactionFluid fluidInstruction then
    let verificationString := ScriptToAsmStr fluidInstruction in
    let transactionRecord := @nil (list Z) in
    verificationWithoutOpCode ← GetRidOfScriptStatement verificationString 1;
    quorum ← CheckIfQuorumExists verificationString false;
    Val ((quorum : bool) &&
         existsb (fun existingRecord =>
                    match GetRidOfScriptStatement existingRecord 1 with
                    | Val s => bool_decide (s = verificationWithoutOpCode)
                    | _ => false
                    end) transactionRecord)
  else Val false.

Fixpoint ProvisionalCheckTransaction (vout : list CTxOut) : res bool :=
  match vout with
  | [] => Val true
  | txout :: vout =>
      if TxVerify.IsTransactionFluid (scriptPubKey txout) then
        seen ← CheckTransactionInRecord (scriptPubKey txout);
        if (seen : bool) then Val false else ProvisionalCheckTransaction vout
      else ProvisionalCheckTransaction vout
  end.

End Commands.


(** ** Strings: lemmas *)

Lemma hex_pairs b : is_byte b ->
  u8 (strtol16 [hexmap !!! Z.to_nat (Z.shiftr b 4); hexmap !!! Z.to_nat (Z.land b 15)]) = b /\
  (hexmap !!! Z.to_nat (Z.shiftr b 4) =? 32) = false /\ (hexmap !!! Z.to_nat (Z.land b 15) =? 32) = false.
Proof.
  intros Hb. assert (Hall : forallb (fun b =>
    (u8 (strtol16 [hexmap !!! Z.to_nat (Z.shiftr b 4); hexmap !!! Z.to_nat (Z.land b 15)]) =? b) &&
    negb (hexmap !!! Z.to_nat (Z.shiftr b 4) =? 32) && negb (hexmap !!! Z.to_nat (Z.land b 15) =? 32))
    (seqZ 0 256) = true) by (vm_compute; reflexivity).
  rewrite forallb_forall in Hall. specialize (Hall b).
  rewrite <- list_elem_of_In, elem_of_seqZ in Hall. unfold is_byte in Hb. specialize (Hall ltac:(lia)).
  apply andb_prop in Hall as [Hall H3]. apply andb_prop in Hall as [H1 H2].
  apply Z.eqb_eq in H1. apply negb_true_iff in H2, H3. done.
Qed.

(** A token printed in hexadecimal is read back, and holds no space. *)
Lemma HexToString_HexStr v : Forall is_byte v ->
  HexToString (HexStr v) = v /\ Forall (fun c => (c =? 32) = false) (HexStr v).
Proof.
  induction 1 as [|b v Hb Hv [IH1 IH2]]; [done|]. destruct (hex_pairs b Hb) as (H1 & H2 & H3).
  cbn [HexStr HexToString]. rewrite H1, IH1. split; [done|]. by repeat constructor.
Qed.

Abbreviation free c s := (Forall (fun d : Z => (d =? c) = false) s).

Lemma split_free sep s : free sep s -> split sep s = [s].
Proof. induction 1 as [|c s Hc Hs IH]; cbn [split]; [done|]. rewrite Hc, IH. done. Qed.

Lemma split_app sep s rest : free sep s -> split sep (s ++ sep :: rest) = s :: split sep rest.
Proof.
  induction 1 as [|c s Hc Hs IH]; cbn [split app]; [rewrite Z.eqb_refl; done|]. rewrite Hc, IH. done.
Qed.

(** The parts of a string put back together with the separator. *)
Fixpoint join (sep : Z) (parts : list (list Z)) : list Z :=
  match parts with
  | [] => []
  | [p] => p
  | p :: parts => p ++ sep :: join sep parts
  end.

Lemma split_join sep p parts : Forall (fun q => free sep q) (p :: parts) -> split sep (join sep (p :: parts)) = p :: parts.
Proof.
  revert p. induction parts as [|q parts IH]; intros p Hp; apply Forall_cons_iff in Hp as [H1 H2].
  - by apply split_free.
  - change (join sep (p :: q :: parts)) with (p ++ sep :: join sep (q :: parts)).
    rewrite split_app by done. by rewrite IH.
Qed.

Lemma join_split sep s : join sep (split sep s) = s.
Proof.
  induction s as [|c s IH]; [done|]. cbn [split]. destruct (c =? sep) eqn:E.
  - apply Z.eqb_eq in E. subst c. destruct (split sep s) as [|t ts] eqn:Es; [by destruct s as [|d s']; cbn in Es; repeat case_match|].
    change (join sep ([] :: t :: ts)) with (sep :: join sep (t :: ts)). rewrite IH. done.
  - destruct (split sep s) as [|t ts]; [cbn in IH; subst s; done|].
    destruct ts as [|u ts]; cbn [join] in *; rewrite <- IH; done.
Qed.

(** A command prints as its opcode's name, a space and the token in hexadecimal. *)
Lemma ScriptToAsmStr_command op tok : OP_PUSHDATA4 < op -> GetOpName op <> [] ->
  4 < zlen tok -> zlen tok < 2 ^ 32 ->
  ScriptToAsmStr (push_bytes [op] tok) = GetOpName op ++ 32 :: HexStr tok.
Proof.
  intros Hop Hname H5 Hlt. unfold ScriptToAsmStr.
  assert (E1 : GetOp2 (push_bytes [op] tok) 0 = OpRead true 1 op []).
  { rewrite push_bytes_app. unfold GetOp2. cbn [app length Nat.leb nth]. rewrite (proj2 (Z.leb_gt _ _)) by lia. done. }
  assert (E2 : GetOp2 (push_bytes [op] tok) 1 = OpRead true (length (push_bytes [op] tok)) (push_code tok) tok).
  { pose proof (push_GetOp_roundtrip [op] tok [] Hlt) as H. rewrite app_nil_r in H. exact H. }
  assert (Hlen : (2 <= length (push_bytes [op] tok))%nat).
  { rewrite push_bytes_app. cbn [app length]. pose proof (length_push_bytes_pos tok). lia. }
  destruct (length (push_bytes [op] tok)) as [|[|n]] eqn:El; [lia|lia|].
  cbn [asm_loop]. rewrite El. cbn [Nat.ltb Nat.leb]. rewrite E1. cbn [op_ok op_pc op_code op_data negb app].
  rewrite E2. cbn [op_ok op_pc op_code op_data negb].
  assert (Ei : asm_item op [] = GetOpName op).
  { unfold asm_item, OP_PUSHDATA4 in *. replace ((0 <=? op) && (op <=? 78)) with false by lia. done. }
  assert (Ep : asm_item (push_code tok) tok = HexStr tok).
  { unfold asm_item. pose proof (push_code_range tok).
    replace ((0 <=? push_code tok) && (push_code tok <=? OP_PUSHDATA4)) with true by lia.
    replace (zlen tok <=? 4) with false by lia. done. }
  rewrite Ei, Ep. destruct (GetOpName op) as [|c s] eqn:En; [done|].
  destruct n as [|n]; cbn [asm_loop]; rewrite ?El, ?Nat.ltb_irrefl, <- app_assoc; done.
Qed.


(** ** The quorum *)

Lemma res_bind_Val {A B} (r : res A) (f : A -> res B) b :
  r ≫= f = Val b -> exists a, r = Val a /\ f a = Val b.
Proof. destruct r as [a| | |]; cbn; [eauto|done..]. Qed.

Ltac res_inv H := let x := fresh "x" in let E := fresh "E" in
  apply res_bind_Val in H as (x & E & H).

Section Quorum.
Context {CR : Crypto} {BP : Base58Prefix} {PK : PubKeyRecovery} {SV : Sovereigns}.
Context {HC : CryptoOk} {HP : Base58PrefixOk}.

(** Who signed at a place of the token, if there is a signature. *)
Definition signer_at (consentToken : list Z) (place : nat) : res (option CBase58Data) :=
  '(ok, a, _) ← GenericVerifyInstruction consentToken empty58 place; Val (if (ok : bool) then Some a else None).

Lemma GenericVerifyInstruction_signer token e place :
  GenericVerifyInstruction token e place =
  '(ok, a, m) ← GenericVerifyInstruction token empty58 place; Val (ok, if (ok : bool) then a else e, m).
Proof using.
  unfold GenericVerifyInstruction. destruct (GetRidOfScriptStatement token 1) as [t| | |]; cbn [mbind res_bind]; try done.
  destruct (at_ _ 0) as [m| | |]; cbn [mbind res_bind]; try done.
  destruct (_ || _); cbn [mbind res_bind]; [done|].
  destruct (at_ _ place) as [s| | |]; cbn [mbind res_bind]; try done.
  destruct (GetAddressFromDigestSignature s m); done.
Qed.

(** Addresses that print and read back as themselves. *)
Definition good (a : CBase58Data) : Prop := length (vchVersion a) = 1%nat /\ Forall is_byte (vchVersion a ++ vchData a).

Lemma good_string a : good a -> exists s, AddressString a = Val s /\ CDebitAddress s = Val a.
Proof using HC.
  intros [H1 H2]. destruct (address_string a H1 H2) as (s & E & D).
  exists s. unfold AddressString, CDebitAddress. rewrite E, D. done.
Qed.

Lemma empty_string : exists s, AddressString empty58 = Val s.
Proof using HC.
  destruct (base58check_roundtrip [] (Forall_nil_2 _)) as (s & E & _).
  exists s. unfold AddressString, ToString. cbn [empty58 vchVersion vchData app]. rewrite E. done.
Qed.

Lemma signer_good token place a : signer_at token place = Val (Some a) -> good a.
Proof using HC HP.
  unfold signer_at, GenericVerifyInstruction. intros H. res_inv H. destruct x as [[ok b] m].
  do 2 res_inv E. destruct (_ || _); [injection E as <- <- <-; done|]. do 2 res_inv E.
  injection E as <- <- <-. injection H as <-. unfold GetAddressFromDigestSignature in E3.
  destruct (DecodeBase64 _) as [sig [|]]; [done|]. destruct (RecoverCompact _ _) as [k|]; [|done].
  injection E3 as <-. destruct prefix_one as [H1 _], prefix_bytes as [H2 _]. split; [done|].
  cbn [Set_dest vchVersion vchData]. apply Forall_app. split; [done|]. unfold CHash160. apply RIPEMD160_size.
Qed.

Lemma quorum_place_spec token x e place k o : signer_at token place = Val o ->
  exists e', quorum_place token x e place k = Val (if bool_decide (o = Some x) then (x, true) else k, e').
Proof using HC HP.
  intros Ho. unfold quorum_place. rewrite GenericVerifyInstruction_signer. pose proof (signer_good token place) as Hgood.
  unfold signer_at in *. destruct (GenericVerifyInstruction token empty58 place) as [[[ok a] m]| | |]; try done.
  cbn [mbind res_bind] in *. injection Ho as <-. destruct ok; cbn [andb].
  - destruct (decide (x = a)) as [->|Hne].
    + rewrite !bool_decide_eq_true_2 by done. destruct (good_string a (Hgood a eq_refl)) as (s & -> & Hs).
      cbn [mbind res_bind]. rewrite Hs. cbn [mbind res_bind]. eauto.
    + rewrite !bool_decide_eq_false_2 by congruence. eauto.
  - rewrite bool_decide_eq_false_2 by done. eauto.
Qed.

(** The key of a place after the sovereigns [seen]. *)
Definition key_of (o : option CBase58Data) (seen : list CBase58Data) : CBase58Data * bool :=
  match o with
  | Some a => if bool_decide (a ∈ seen) then (a, true) else (empty58, false)
  | None => (empty58, false)
  end.

Lemma key_of_cons o x seen : key_of o (x :: seen) = if bool_decide (o = Some x) then (x, true) else key_of o seen.
Proof using.
  destruct o as [a|]; cbn [key_of]; [|rewrite bool_decide_eq_false_2 by done; done].
  destruct (decide (a = x)) as [->|Hne].
  - rewrite !bool_decide_eq_true_2; [done|done|by left].
  - rewrite (bool_decide_eq_false_2 (Some a = Some x)) by congruence.
    rewrite (bool_decide_ext (a ∈ x :: seen) (a ∈ seen)); [done|]. rewrite elem_of_cons. tauto.
Qed.

(** The printed form of a valid sovereign address. *)
Definition sovereign (s : list Z) (a : CBase58Data) : Prop := CDebitAddress s = Val a /\ Address_IsValid a = true.

Lemma quorum_loop_spec token o1 o2 o3 strs addrs : Forall2 sovereign strs addrs ->
  signer_at token 1 = Val o1 -> signer_at token 2 = Val o2 -> signer_at token 3 = Val o3 -> forall seen,
  quorum_loop strs token (key_of o1 seen) (key_of o2 seen) (key_of o3 seen) =
  Val (Some (key_of o1 (rev addrs ++ seen), key_of o2 (rev addrs ++ seen), key_of o3 (rev addrs ++ seen))).
Proof using HC HP.
  intros Hs H1 H2 H3. induction Hs as [|s a strs addrs [Ea Ev] Hs IH]; intros seen; cbn [quorum_loop]; [done|].
  rewrite Ea. cbn [mbind res_bind]. rewrite Ev. cbn [negb].
  destruct (quorum_place_spec token a empty58 1 (key_of o1 seen) o1 H1) as [e1 ->]. cbn [mbind res_bind].
  destruct (quorum_place_spec token a e1 2 (key_of o2 seen) o2 H2) as [e2 ->]. cbn [mbind res_bind].
  destruct (quorum_place_spec token a e2 3 (key_of o3 seen) o3 H3) as [e3 ->]. cbn [mbind res_bind].
  rewrite <- !key_of_cons, IH. cbn [rev]. rewrite <- app_assoc. done.
Qed.

(** Three different sovereigns. *)
Definition three_of (addrs : list CBase58Data) (o1 o2 o3 : option CBase58Data) : bool :=
  match o1, o2, o3 with
  | Some a, Some b, Some c =>
      bool_decide (a ∈ addrs) && bool_decide (b ∈ addrs) && bool_decide (c ∈ addrs) &&
      negb (bool_decide (a = b)) && negb (bool_decide (b = c)) && negb (bool_decide (a = c))
  | _, _, _ => false
  end.

Lemma key_good o seen : (forall a, o = Some a -> good a) -> exists s, AddressString (key_of o seen).1 = Val s /\
  ((key_of o seen).2 = true -> exists a, o = Some a /\ a ∈ seen /\ CDebitAddress s = Val a).
Proof using HC.
  intros Hg. destruct empty_string as [s0 Es0]. destruct o as [a|]; cbn [key_of]; [|exists s0; done].
  destruct (bool_decide_reflect (a ∈ seen)) as [Hin|Hin]; cbn [fst snd]; [|exists s0; done].
  destruct (good_string a (Hg a eq_refl)) as (s & E & D). exists s. split; [done|]. intros _. eauto.
Qed.

Lemma three_of_spec addrs o1 o2 o3 : three_of addrs o1 o2 o3 = true <->
  exists a b c, o1 = Some a /\ o2 = Some b /\ o3 = Some c /\ a ∈ addrs /\ b ∈ addrs /\ c ∈ addrs /\
    a <> b /\ b <> c /\ a <> c.
Proof using.
  split.
  - destruct o1 as [a|], o2 as [b|], o3 as [c|]; cbn [three_of]; try done.
    rewrite !andb_true_iff, !negb_true_iff, !bool_decide_eq_true, !bool_decide_eq_false.
    intros (((((H1 & H2) & H3) & H4) & H5) & H6). exists a, b, c. done.
  - intros (a & b & c & -> & -> & -> & H1 & H2 & H3 & H4 & H5 & H6). cbn [three_of].
    rewrite !andb_true_iff, !negb_true_iff, !bool_decide_eq_true, !bool_decide_eq_false. done.
Qed.

(** The check against a list of valid sovereign addresses, for a token whose
    signatures can be recovered: three different sovereigns signed it. *)
Lemma CheckQuorum_exact token strs addrs o1 o2 o3 : Forall2 sovereign strs addrs ->
  signer_at token 1 = Val o1 -> signer_at token 2 = Val o2 -> signer_at token 3 = Val o3 ->
  CheckQuorum strs token false = Val (three_of addrs o1 o2 o3).
Proof using HC HP.
  intros Hs H1 H2 H3. unfold CheckQuorum.
  pose proof (quorum_loop_spec token o1 o2 o3 strs addrs Hs H1 H2 H3 []) as El.
  assert (Enil : forall o, key_of o [] = (empty58, false)).
  { intros [a|]; cbn [key_of]; [rewrite bool_decide_eq_false_2 by apply not_elem_of_nil|]; done. }
  rewrite !Enil, app_nil_r in El. rewrite El. cbn [mbind res_bind].
  assert (Hg : forall n o, signer_at token n = Val o -> forall a, o = Some a -> good a).
  { intros n o Hn a ->. exact (signer_good token n a Hn). }
  destruct (key_good o1 (rev addrs) (Hg _ _ H1)) as (s1 & E1 & K1).
  destruct (key_good o2 (rev addrs) (Hg _ _ H2)) as (s2 & E2 & K2).
  destruct (key_good o3 (rev addrs) (Hg _ _ H3)) as (s3 & E3 & K3).
  rewrite E1, E2, E3. cbn [mbind res_bind]. f_equal.
  destruct ((key_of o1 (rev addrs)).2 && (key_of o2 (rev addrs)).2 && (key_of o3 (rev addrs)).2) eqn:Ek.
  - apply andb_prop in Ek as [Ek F3]. apply andb_prop in Ek as [F1 F2].
    destruct (K1 F1) as (a & -> & Ha & Da), (K2 F2) as (b & -> & Hb & Db), (K3 F3) as (c & -> & Hc & Dc).
    cbn [three_of]. apply list_elem_of_In, in_rev, list_elem_of_In in Ha, Hb, Hc.
    rewrite !(bool_decide_eq_true_2 (_ ∈ addrs)) by done. cbn [andb].
    rewrite (bool_decide_ext (s1 = s2) (a = b)), (bool_decide_ext (s2 = s3) (b = c)), (bool_decide_ext (s1 = s3) (a = c));
      [by destruct (_ && _)|..]; (split; [congruence|]); intros <-; congruence.
  - assert (Hf : three_of addrs o1 o2 o3 = false); [|rewrite Hf; by repeat case_match].
    apply not_true_iff_false. intros Ht. apply three_of_spec in Ht as (a & b & c & -> & -> & -> & Ha & Hb & Hc & _).
    cbn [key_of] in Ek. apply list_elem_of_In, in_rev, list_elem_of_In in Ha, Hb, Hc.
    rewrite !(bool_decide_eq_true_2 (_ ∈ rev addrs)) in Ek by done. done.
Qed.

(** A place that was filled in had a signer. *)
Lemma quorum_place_inv token x e place k r : quorum_place token x e place k = Val r -> exists o, signer_at token place = Val o.
Proof using.
  unfold quorum_place, signer_at. rewrite GenericVerifyInstruction_signer.
  destruct (GenericVerifyInstruction token empty58 place) as [[[ok a] m]| | |]; cbn [mbind res_bind]; [eauto|done..].
Qed.

(** A list of addresses that is accepted holds valid addresses only, and all
    three signatures were recovered. *)
Lemma quorum_loop_inv token strs : forall k1 k2 k3 ks, quorum_loop strs token k1 k2 k3 = Val (Some ks) ->
  (exists addrs, Forall2 sovereign strs addrs) /\
  (ks = (k1, k2, k3) \/
   exists o1 o2 o3, signer_at token 1 = Val o1 /\ signer_at token 2 = Val o2 /\ signer_at token 3 = Val o3).
Proof using.
  induction strs as [|s strs IH]; intros k1 k2 k3 ks H; cbn [quorum_loop] in H.
  { injection H as <-. split; [exists []; constructor|left; done]. }
  res_inv H. destruct (Address_IsValid x) eqn:Ev; [|done]. cbn [negb] in H.
  apply res_bind_Val in H as ([k1' e1] & E1 & H). apply res_bind_Val in H as ([k2' e2] & E2 & H).
  apply res_bind_Val in H as ([k3' e3] & E3 & H).
  destruct (IH _ _ _ _ H) as [(addrs & Ha) _]. split; [exists (x :: addrs); by repeat constructor|].
  right. apply quorum_place_inv in E1 as [o1 E1], E2 as [o2 E2], E3 as [o3 E3]. eauto 10.
Qed.

Lemma CheckQuorum_sound token strs : CheckQuorum strs token false = Val true ->
  exists addrs a b c, Forall2 sovereign strs addrs /\
    signer_at token 1 = Val (Some a) /\ signer_at token 2 = Val (Some b) /\ signer_at token 3 = Val (Some c) /\
    a ∈ addrs /\ b ∈ addrs /\ c ∈ addrs /\ a <> b /\ b <> c /\ a <> c.
Proof using HC HP.
  intros H. pose proof H as Hq. unfold CheckQuorum in H. res_inv H. destruct x as [[[k1 k2] k3]|]; [|done].
  destruct (quorum_loop_inv token strs _ _ _ _ E) as [(addrs & Ha) [Ek | (o1 & o2 & o3 & H1 & H2 & H3)]].
  - injection Ek as -> -> ->. do 3 res_inv H. exfalso. revert H. cbn. by repeat case_match.
  - rewrite (CheckQuorum_exact token strs addrs o1 o2 o3 Ha H1 H2 H3) in Hq. injection Hq as Hq.
    apply three_of_spec in Hq as (a & b & c & -> & -> & -> & Hq). exists addrs, a, b, c. done.
Qed.


Lemma at_Val {A} (v : list A) n a : at_ v n = Val a <-> v !! n = Some a.
Proof using. unfold at_. destruct (v !! n); split; congruence. Qed.

(** A signer was recovered from the signature at its place and from the first
    part of the token. *)
Lemma signer_at_inv token place a : signer_at token place = Val (Some a) ->
  exists tok m s, GetRidOfScriptStatement token 1 = Val tok /\
    SeparateString (HexToString tok) false !! 0%nat = Some m /\
    SeparateString (HexToString tok) false !! place = Some s /\ GetAddressFromDigestSignature s m = Val a.
Proof using.
  unfold signer_at, GenericVerifyInstruction. intros H. res_inv H. destruct x as [[ok b] m].
  apply res_bind_Val in E as (tok & Et & E). apply res_bind_Val in E as (m' & Em & E). rewrite at_Val in Em.
  destruct (_ || _) eqn:Eo; [injection E as <- <- <-; done|].
  apply res_bind_Val in E as (s & Es & E). apply res_bind_Val in E as (b' & Eb & E). rewrite at_Val in Es.
  injection E as <- <- <-. injection H as <-. exists tok, m', s. done.
Qed.

(** C33: no fluid command without a quorum. Whatever script is offered as a fluid
    output, [ValidationProcesses] accepts it only when the token starts with a
    message and three signatures from which the addresses of three different
    sovereigns are recovered. *)
Theorem fluid_command_authorised uninit txOut :
  TxVerify.IsTransactionFluid txOut = true -> ValidationProcesses uninit txOut = Val None ->
  exists sovereigns addrs tok msg s1 s2 s3 more a b c,
    InitialiseAddresses = Val sovereigns /\ Forall2 sovereign sovereigns addrs /\
    GetRidOfScriptStatement (ScriptToAsmStr txOut) 1 = Val tok /\
    SeparateString (HexToString tok) false = msg :: s1 :: s2 :: s3 :: more /\
    GetAddressFromDigestSignature s1 msg = Val a /\ GetAddressFromDigestSignature s2 msg = Val b /\
    GetAddressFromDigestSignature s3 msg = Val c /\
    a ∈ addrs /\ b ∈ addrs /\ c ∈ addrs /\ a <> b /\ b <> c /\ a <> c.
Proof using HC HP.
  intros Hf H. unfold ValidationProcesses in H. rewrite Hf in H. apply res_bind_Val in H as (q & Eq & H).
  destruct q; [|done]. clear H. unfold CheckIfQuorumExists in Eq. apply res_bind_Val in Eq as (strs & Ei & Eq).
  apply CheckQuorum_sound in Eq as (addrs & a & b & c & Hs & H1 & H2 & H3 & Hd).
  apply signer_at_inv in H1 as (tok & m & s1 & Et & Em & E1 & A1).
  apply signer_at_inv in H2 as (tok2 & m2 & s2 & Et2 & Em2 & E2 & A2).
  apply signer_at_inv in H3 as (tok3 & m3 & s3 & Et3 & Em3 & E3 & A3).
  rewrite Et in Et2, Et3. injection Et2 as <-. injection Et3 as <-. rewrite Em in Em2, Em3.
  injection Em2 as <-. injection Em3 as <-.
  destruct (SeparateString (HexToString tok) false) as [|x0 [|x1 [|x2 [|x3 more]]]] eqn:Ep; try done.
  cbn in Em, E1, E2, E3. injection Em as ->. injection E1 as ->. injection E2 as ->. injection E3 as ->.
  exists strs, addrs, tok, m, s1, s2, s3, more, a, b, c. destruct Hd as (D1 & D2 & D3 & D4 & D5 & D6). done.
Qed.

(** ** Commands as they are built *)

(** The opcodes of fluid outputs, with their names. *)
Definition fluid_ops : list (Z * list Z) :=
  [(OP_MINT, str "OP_MINT"); (OP_REWARD_MASTERNODE, str "OP_REWARD_MASTERNODE");
   (OP_REWARD_MINING, str "OP_REWARD_MINING"); (OP_BDAP_REVOKE, str "OP_BDAP_REVOKE")].

Lemma fluid_op_name op name : (op, name) ∈ fluid_ops ->
  OP_PUSHDATA4 < op /\ GetOpName op = name /\ name <> [] /\ free 32 name /\
  forall tok, TxVerify.IsTransactionFluid (push_bytes [op] tok) = true.
Proof using.
  intros Hin. unfold fluid_ops in Hin. rewrite !elem_of_cons, elem_of_nil in Hin.
  assert (Hfl : forall tok, TxVerify.IsTransactionFluid (push_bytes [op] tok) =
    ((op =? OP_MINT) || (op =? OP_REWARD_MASTERNODE) || (op =? OP_REWARD_MINING) || (op =? OP_BDAP_REVOKE))).
  { intros tok. rewrite push_bytes_app. reflexivity. }
  destruct Hin as [[= -> ->]|[[= -> ->]|[[= -> ->]|[[= -> ->]|[]]]]];
    (split; [done|]; split; [done|]; split; [done|]; split; [by repeat constructor|]; intros tok; rewrite Hfl; done).
Qed.

(** The two words of a printed command. *)
Lemma command_words op name tok : (op, name) ∈ fluid_ops -> Forall is_byte tok -> 4 < zlen tok -> zlen tok < 2 ^ 32 ->
  GetRidOfScriptStatement (ScriptToAsmStr (push_bytes [op] tok)) 0 = Val name /\
  GetRidOfScriptStatement (ScriptToAsmStr (push_bytes [op] tok)) 1 = Val (HexStr tok).
Proof using.
  intros Hin Hb H4 Hlt. destruct (fluid_op_name op name Hin) as (Hop & Hname & Hne & Hfree & _).
  rewrite ScriptToAsmStr_command by (rewrite ?Hname; done). rewrite Hname.
  destruct (HexToString_HexStr tok Hb) as [_ Hsp]. unfold GetRidOfScriptStatement.
  rewrite split_app, split_free by done. done.
Qed.

(** A first signature that is not base 64 makes every check of the quorum read
    the null pointer. *)
Lemma CheckQuorum_null t ts a token tok m s more : sovereign t a ->
  GetRidOfScriptStatement token 1 = Val tok -> SeparateString (HexToString tok) false = m :: s :: more ->
  (DecodeBase64 s).2 = true -> CheckQuorum (t :: ts) token false = NullDeref.
Proof using.
  intros [Ea Ev] Et Ep Ei. unfold CheckQuorum. cbn [quorum_loop]. rewrite Ea. cbn [mbind res_bind]. rewrite Ev. cbn [negb].
  unfold quorum_place, GenericVerifyInstruction. rewrite Et. cbn [mbind res_bind]. rewrite Ep.
  cbn [at_ lookup list_lookup mbind res_bind length Nat.leb Nat.eqb orb].
  unfold GetAddressFromDigestSignature. destruct (DecodeBase64 s) as [sig inv]. cbn in Ei. subst inv. done.
Qed.

(** A malformed signature crashes the node. Take any fluid output whose token
    has a first signature that is not valid base 64: it needs no key and no
    sovereign. [GetAddressFromDigestSignature] answers [nullptr], which becomes
    an address made from a null string, and [ValidationProcesses], a check made
    on every transaction received, reads the null pointer. *)
Theorem malformed_signature_crashes uninit op name msg sig more t ts a :
  (op, name) ∈ fluid_ops -> InitialiseAddresses = Val (t :: ts) -> sovereign t a ->
  Forall (Forall is_byte) (msg :: sig :: more) -> Forall (fun q => free 64 q) (msg :: sig :: more) ->
  (DecodeBase64 sig).2 = true ->
  4 < zlen (join 64 (msg :: sig :: more)) < 2 ^ 32 ->
  ValidationProcesses uninit (push_bytes [op] (join 64 (msg :: sig :: more))) = NullDeref.
Proof using.
  intros Hin Hi Hs Hb Hfree Hinv Hlen. destruct (fluid_op_name op name Hin) as (_ & _ & _ & _ & Hfl).
  assert (Hbj : Forall is_byte (join 64 (msg :: sig :: more))).
  { clear Hlen Hinv Hfree. generalize dependent (sig :: more). intros parts Hb. revert msg Hb.
    induction parts as [|q parts IH]; intros m Hb; apply Forall_cons_iff in Hb as [H1 H2]; [done|].
    change (join 64 (m :: q :: parts)) with (m ++ 64 :: join 64 (q :: parts)).
    apply Forall_app. split; [done|]. constructor; [by_decide|by apply IH]. }
  destruct (command_words op name _ Hin Hbj ltac:(lia) ltac:(lia)) as [_ Hw].
  destruct (HexToString_HexStr _ Hbj) as [Hx _].
  unfold ValidationProcesses. rewrite Hfl. unfold CheckIfQuorumExists. rewrite Hi. cbn [mbind res_bind].
  rewrite (CheckQuorum_null t ts a _ _ msg sig more Hs Hw); [done| |done].
  rewrite Hx. unfold SeparateString, PrimaryDelimiter. by apply split_join.
Qed.

(** A repeated command is never recognised. [ProvisionalCheckTransaction]
    and [CheckTransactionInRecord] compare with a list of earlier commands that
    nothing fills: no transaction is reported as executed before. *)
Theorem replay_never_detected vout : ProvisionalCheckTransaction vout <> Val false.
Proof using.
  induction vout as [|o vout IH]; cbn [ProvisionalCheckTransaction]; [done|].
  destruct (TxVerify.IsTransactionFluid (scriptPubKey o)) eqn:Ef; [|done].
  unfold CheckTransactionInRecord. rewrite Ef. intros H. apply res_bind_Val in H as (seen & E & H).
  do 2 res_inv E. cbn [existsb] in E. rewrite andb_false_r in E. injection E as <-. done.
Qed.


Lemma amount_command_in op name : (op, name) ∈ fluid_ops -> op <> OP_BDAP_REVOKE -> amount_command name = true.
Proof using.
  unfold fluid_ops. rewrite !elem_of_cons, elem_of_nil. intros [[= -> ->]|[[= -> ->]|[[= -> ->]|[[= -> ->]|[]]]]]; done.
Qed.

(** The limits on amounts: a reward must lie between zero and a thousand coins;
    a minted amount has an upper limit and no lower one. *)
Lemma CheckFluidOperationScript_amount uninit op name amount rest n timeStamp :
  (op, name) ∈ fluid_ops -> op <> OP_BDAP_REVOKE ->
  Forall is_byte (amount ++ 36 :: rest) -> free 36 amount -> 4 < zlen (amount ++ 36 :: rest) < 2 ^ 32 ->
  ParseFixedPoint amount 8 = Some n ->
  CheckFluidOperationScript uninit (push_bytes [op] (amount ++ 36 :: rest)) timeStamp true =
  Val (if op =? OP_MINT then n <=? FLUID_MAX_FOR_MINT else (0 <=? n) && (n <=? 1000 * COIN)).
Proof using.
  intros Hin Hop Hb Hfree Hlen Hn. destruct (command_words op name _ Hin Hb ltac:(lia) ltac:(lia)) as [Hw0 Hw1].
  destruct (HexToString_HexStr _ Hb) as [Hx _]. destruct (hex_roundtrip _ Hb) as [_ Hhex].
  unfold CheckFluidOperationScript. rewrite Hw1. cbn [mbind res_bind]. rewrite Hw0. cbn [mbind res_bind negb].
  rewrite Hhex, bool_decide_eq_false_2 by (destruct amount; done). cbn [negb].
  rewrite (amount_command_in op name Hin Hop), Hx. unfold SeparateString, SubDelimiter. rewrite split_app by done.
  destruct (split 36 rest) as [|r rs] eqn:Es; [destruct rest; cbn in Es; repeat case_match; done|].
  rewrite Hn. f_equal. unfold amount_allowed, FLUID_MAX_REWARD_FOR_MINING, FLUID_MAX_REWARD_FOR_MASTERNODE.
  unfold fluid_ops in Hin. rewrite !elem_of_cons, elem_of_nil in Hin.
  destruct Hin as [[= -> ->]|[[= -> ->]|[[= -> ->]|[[= -> ->]|[]]]]]; [| | |done].
  all: cbn [OP_MINT OP_REWARD_MASTERNODE OP_REWARD_MINING Z.eqb Pos.eqb].
  all: repeat match goal with |- context [bool_decide (?x = ?y)] =>
    let b := eval vm_compute in (bool_decide (x = y)) in change (bool_decide (x = y)) with b end; cbn [andb orb negb].
  all: repeat case_match; lia.
Qed.

End Quorum.


(** ** Witnesses *)

(** A toy world: a signature is the key itself, and the sovereigns are the
    holders of three keys. *)
Definition toy_recovery : PubKeyRecovery := fun _ sig => Some sig.
Definition toy_key (n : Z) : list Z := replicate 8 n.
Definition toy_address (n : Z) : list Z :=
  default [] (@ToString toy_crypto (@Set_dest main_prefixes (Standard.CKeyID (@CHash160 toy_crypto (toy_key n))))).
Definition toy_sovereigns : Sovereigns := [toy_address 1; toy_address 2; toy_address 3].

Definition toy_mint : CScript :=
  push_bytes [OP_MINT] (join 64 [str "300000$1558389600$" ++ toy_address 9;
    EncodeBase64 (toy_key 1); EncodeBase64 (toy_key 2); EncodeBase64 (toy_key 3)]).

Lemma fluid_command_authorised_witness : TxVerify.IsTransactionFluid toy_mint = true /\
  @ValidationProcesses toy_crypto main_prefixes toy_recovery toy_sovereigns 0 toy_mint = Val None /\
  exists tok msg s1 s2 s3 more, GetRidOfScriptStatement (ScriptToAsmStr toy_mint) 1 = Val tok /\
    SeparateString (HexToString tok) false = msg :: s1 :: s2 :: s3 :: more.
Proof.
  assert (H1 : TxVerify.IsTransactionFluid toy_mint = true) by reflexivity.
  assert (H2 : @ValidationProcesses toy_crypto main_prefixes toy_recovery toy_sovereigns 0 toy_mint = Val None)
    by (vm_compute; reflexivity).
  split; [exact H1|]. split; [exact H2|].
  destruct (@fluid_command_authorised toy_crypto main_prefixes toy_recovery toy_sovereigns toy_crypto_ok main_prefixes_ok
    0 toy_mint H1 H2) as (sov & addrs & tok & msg & s1 & s2 & s3 & more & a & b & c & _ & _ & E & P & _).
  exists tok, msg, s1, s2, s3, more. exact (conj E P).
Defined.

Lemma malformed_signature_crashes_witness :
  (DecodeBase64 (str "A")).2 = true /\
  @ValidationProcesses toy_crypto main_prefixes toy_recovery toy_sovereigns 0
    (push_bytes [OP_MINT] (join 64 [str "1$1$x"; str "A"])) = NullDeref.
Proof.
  split; [reflexivity|].
  apply (@malformed_signature_crashes toy_crypto main_prefixes toy_recovery toy_sovereigns 0 OP_MINT (str "OP_MINT")
    (str "1$1$x") (str "A") [] (toy_address 1) [toy_address 2; toy_address 3]
    (@Set_dest main_prefixes (Standard.CKeyID (@CHash160 toy_crypto (toy_key 1))))).
  - left.
  - vm_compute. reflexivity.
  - split; vm_compute; reflexivity.
  - by_decide.
  - by_decide.
  - reflexivity.
  - vm_compute. split; reflexivity.
Defined.

End FluidToken.
