(* ===== verification/FluidDB.v ===== *)
(** * Fluid records and rewards (fluid/fluiddb.cpp, fluidmint, fluidmining,
    fluidmasternode, fluidsovereign, and the fluid part of [ConnectBlock])

    Each kind of fluid command has a database of the commands that were
    connected, keyed by the printed script; the block reward is the one of the
    newest record that is old enough.  A database is the list of its entries in
    the order in which LevelDB iterates, which is the order of the serialized
    keys.  The part of [ConnectBlock] between "BEGIN FLUID" and "END FLUID" that
    records commands is a function from the databases to the databases: it
    writes as it goes, also when it then rejects the block. *)

From stdpp Require Import base list list_numbers gmap numbers option strings.
From Stdlib Require Import ZArith Lia.
From S2P Require Import Prelude Serialize Script Transaction Interpreter InterpreterSafety Standard TxVerify.
From S2P Require Import Encodings Decimal FluidToken.

Local Open Scope Z_scope.

Module FluidDB.
Import Serialize Script Transaction Interpreter InterpreterSafety Encodings Decimal FluidToken.

(** ** Rewards without records *)

(** The products with 0.100 and 0.400 are exact in floating point. *)
Definition BLOCKCHAIN_INIT_REWARD : Z := COIN * 0.
Definition PHASE_1_POW_REWARD : Z := COIN / 10.
Definition PHASE_2_MASTERNODE_PAYMENT : Z := COIN * 4 / 10.
Definition INITIAL_SUPERBLOCK_PAYMENT : Z := 15000000 * COIN.

(** The consensus parameters read here. *)
Record reward_params : Type := mkRewardParams {
  nRewardsStart : Z;
  nFeeRewardStart : Z;
  nMasternodePaymentsStartBlock : Z
}.

Definition main_rewards : reward_params := mkRewardParams 2880 1000000 4320.
Definition testnet_rewards : reward_params := mkRewardParams 2880 10080 43200.
Definition regtest_rewards : reward_params := mkRewardParams 0 1440 0.

Definition GetStandardPoWBlockPayment (p : reward_params) (nHeight : Z) : Z :=
  if nHeight =? 1 then INITIAL_SUPERBLOCK_PAYMENT
  else if (1 <? nHeight) && (nHeight <=? nRewardsStart p) then BLOCKCHAIN_INIT_REWARD
  else if nRewardsStart p <? nHeight then PHASE_1_POW_REWARD
  else BLOCKCHAIN_INIT_REWARD.

Definition GetStandardMasternodePayment (p : reward_params) (nHeight : Z) : Z :=
  if nMasternodePaymentsStartBlock p <? nHeight then PHASE_2_MASTERNODE_PAYMENT else BLOCKCHAIN_INIT_REWARD.

(** ** Records *)

(** [CFluidMining] and [CFluidMasternode], which differ in the name of [Reward]. *)
Record CFluidReward : Type := mkReward {
  FluidScript : list Z;
  Reward : Z;
  nTimeStamp : Z;
  SovereignAddresses : list (list Z);
  txHash : list Z;
  rHeight : Z
}.

Definition null_hash : list Z := replicate 32 0.
Definition null_reward : CFluidReward := mkReward [] (-1) 0 [] null_hash 0.
Definition reward_IsNull (e : CFluidReward) : bool := nTimeStamp e =? 0.

Record CFluidMint : Type := mkMint {
  mFluidScript : list Z;
  MintAmount : Z;
  DestinationAddress : list Z;
  mTimeStamp : Z;
  mSovereignAddresses : list (list Z);
  mtxHash : list Z;
  mHeight : Z
}.

Definition null_mint : CFluidMint := mkMint [] (-1) [] 0 [] null_hash 0.

Record CFluidSovereign : Type := mkSovereign {
  sFluidScript : list Z;
  sTimeStamp : Z;
  sAddresses : list (list Z);
  stxHash : list Z;
  sHeight : Z
}.

Definition null_sovereign : CFluidSovereign := mkSovereign [] 0 [] null_hash 0.

(** ** Databases *)

(** The order of LevelDB keys. *)
Fixpoint bytes_lt (a b : list Z) : bool :=
  match a, b with
  | [], _ :: _ => true
  | x :: a, y :: b => (x <? y) || ((x =? y) && bytes_lt a b)
  | _, _ => false
  end.

(** [Write(make_pair("script", key), entry)]: the key part that follows the
    serialized word "script" decides the order. *)
Fixpoint db_put {A} (key : list Z) (e : A) (db : list (list Z * A)) : list (list Z * A) :=
  match db with
  | [] => [(key, e)]
  | (k, x) :: db' =>
      if bool_decide (k = key) then (key, e) :: db'
      else if bytes_lt (Ser c_bytes key) (Ser c_bytes k) then (key, e) :: (k, x) :: db'
      else (k, x) :: db_put key e db'
  end.

(** A database: the entries under "script" and the keys under "txid", which
    come first in the iteration and are passed over by every loop. *)
Record fluid_db (A : Type) : Type := mkDB {
  scripts : list (list Z * A);
  txids : list (list Z * list Z)
}.
Arguments mkDB {A} _ _.
Arguments scripts {A} _.
Arguments txids {A} _.

Definition db_IsEmpty {A} (db : fluid_db A) : bool :=
  match scripts db, txids db with [], [] => true | _, _ => false end.

Definition AddFluidRewardEntry (e : CFluidReward) (db : fluid_db CFluidReward) : fluid_db CFluidReward :=
  mkDB (db_put (FluidScript e) e (scripts db)) (db_put (txHash e) (FluidScript e) (txids db)).

Definition AddFluidMintEntry (e : CFluidMint) (db : fluid_db CFluidMint) : fluid_db CFluidMint :=
  mkDB (db_put (mFluidScript e) e (scripts db)) (db_put (mtxHash e) (mFluidScript e) (txids db)).

Definition AddFluidSovereignEntry (e : CFluidSovereign) (db : fluid_db CFluidSovereign) : fluid_db CFluidSovereign :=
  mkDB (db_put (sFluidScript e) e (scripts db)) (db_put (stxHash e) (sFluidScript e) (txids db)).

(** [GetLastFluidMiningRecord], [GetLastFluidMasternodeRecord]; [None] is [false]. *)
Fixpoint last_reward (nHeight : Z) (es : list (list Z * CFluidReward)) (ret : CFluidReward) : option CFluidReward :=
  match es with
  | [] => Some ret
  | (_, e) :: es =>
      if reward_IsNull e then None
      else if (rHeight ret <? rHeight e) && (i32 (rHeight e + 1) <? nHeight) then last_reward nHeight es e
      else last_reward nHeight es ret
  end.

Definition GetLastFluidReward (db : fluid_db CFluidReward) (nHeight : Z) : option CFluidReward :=
  last_reward nHeight (scripts db) null_reward.

Fixpoint last_mint (es : list (list Z * CFluidMint)) (ret : CFluidMint) : CFluidMint :=
  match es with
  | [] => ret
  | (_, e) :: es => last_mint es (if mHeight ret <? mHeight e then e else ret)
  end.

Definition GetLastFluidMintRecord (db : fluid_db CFluidMint) : CFluidMint := last_mint (scripts db) null_mint.

(** [operator=] of [CFluidSovereign] appends the addresses to those already
    there. *)
Definition sovereign_assign (a b : CFluidSovereign) : CFluidSovereign :=
  mkSovereign (sFluidScript b) (sTimeStamp b) (sAddresses a ++ sAddresses b) (stxHash b) (sHeight b).

Fixpoint last_sovereign (es : list (list Z * CFluidSovereign)) (ret : CFluidSovereign) : CFluidSovereign :=
  match es with
  | [] => ret
  | (_, e) :: es => last_sovereign es (if sHeight ret <? sHeight e then sovereign_assign ret e else ret)
  end.

Definition GetLastFluidSovereignRecord (db : fluid_db CFluidSovereign) : CFluidSovereign :=
  last_sovereign (scripts db) null_sovereign.

(** ** Rewards *)

(** The common body of [GetFluidMiningReward] and [GetFluidMasternodeReward];
    [db] is [None] when the database is not open. *)
Definition fluid_reward (standard : Z) (db : option (fluid_db CFluidReward)) (nHeight : Z) : Z :=
  if nHeight <? TxVerify.FLUID_ACTIVATE_HEIGHT then standard
  else match db with
       | None => standard
       | Some db =>
           if db_IsEmpty db then standard
           else match GetLastFluidReward db nHeight with
                | None => standard
                | Some r => if 0 <? Reward r then Reward r else standard
                end
       end.

Definition GetFluidMiningReward (p : reward_params) (db : option (fluid_db CFluidReward)) (nHeight : Z) : Z :=
  fluid_reward (GetStandardPoWBlockPayment p nHeight) db nHeight.

Definition GetFluidMasternodeReward (p : reward_params) (db : option (fluid_db CFluidReward)) (nHeight : Z) : Z :=
  fluid_reward (GetStandardMasternodePayment p nHeight) db nHeight.

(** [None] is [false]. *)
Definition GetMintingInstructions (db : option (fluid_db CFluidMint)) (nHeight : Z) : option CFluidMint :=
  match db with
  | None => None
  | Some db =>
      if db_IsEmpty db then None
      else let m := GetLastFluidMintRecord db in
           if i32 (mHeight m) =? nHeight - 1 then Some m else None
  end.

(** [nExpectedBlockValue] of [ConnectBlock], for the block at [nHeight] on a
    chain of height [tip]. *)
Definition expected_block_value (p : reward_params) (mining masternode : option (fluid_db CFluidReward))
  (mint : option (fluid_db CFluidMint)) (tip nHeight nFees : Z) : Z :=
  let newMiningReward := GetFluidMiningReward p mining nHeight in
  let newMasternodeReward := if nMasternodePaymentsStartBlock p <? tip then GetFluidMasternodeReward p masternode nHeight else 0 in
  let newMintIssuance :=
    if nHeight >=? TxVerify.FLUID_ACTIVATE_HEIGHT then
      match GetMintingInstructions mint nHeight with Some m => MintAmount m | None => 0 end
    else 0 in
  if nFeeRewardStart p <? tip then i64 (i64 (i64 (nFees + newMintIssuance) + newMiningReward) + newMasternodeReward)
  else i64 (i64 (newMintIssuance + newMiningReward) + newMasternodeReward).


(** ** Records from scripts *)

Section Records.
Context {CR : Crypto} {BP : Base58Prefix} {PK : PubKeyRecovery} {SV : Sovereigns}.
Context (uninit : Z).

(** [GetAddressFromDigestSignature(...).ToString()] for each signature. *)
Fixpoint signer_strings (sigs : list (list Z)) (messageTokenKey : list Z) : res (list (list Z)) :=
  match sigs with
  | [] => Val []
  | s :: sigs =>
      a ← GetAddressFromDigestSignature s messageTokenKey;
      t ← AddressString a;
      ts ← signer_strings sigs messageTokenKey;
      Val (t :: ts)
  end.

(** The parts of a printed command: the opcode, the message and the pieces of
    [SeparateFluidOpString]. *)
Definition command_parts (fluidOperationString : list Z) : res (list Z * list Z * list (list Z)) :=
  strOperationCode ← GetRidOfScriptStatement fluidOperationString 0;
  verificationWithoutOpCode ← GetRidOfScriptStatement fluidOperationString 1;
  let token := HexToString verificationWithoutOpCode in
  messageTokenKey ← at_ (SeparateString token false) 0;
  Val (strOperationCode, messageTokenKey, SeparateFluidOpString token).

(** The time written by a successful [ParseInt64]. *)
Definition parsed_time (s : list Z) : Z :=
  match ParseInt64 s with (true, Some n) => n | _ => 0 end.

(** [CFluidMining(script)] and [CFluidMasternode(script)], by the name of the
    opcode: the null record when the command has another form. *)
Definition CFluidReward_of (name : list Z) (scriptPubKey : CScript) : res CFluidReward :=
  let fluidOperationString := ScriptToAsmStr scriptPubKey in
  '(strOperationCode, messageTokenKey, vecSplitScript) ← command_parts fluidOperationString;
  match vecSplitScript with
  | [strAmount; strTimeStamp; s1; s2; s3] =>
      if bool_decide (strOperationCode = name) then
        addrs ← signer_strings [s1; s2; s3] messageTokenKey;
        Val (mkReward fluidOperationString (default (-1) (ParseFixedPoint strAmount 8)) (parsed_time strTimeStamp)
               addrs null_hash 0)
      else Val null_reward
  | _ => Val null_reward
  end.

(** [CFluidMint(script)]. *)
Definition CFluidMint_of (scriptPubKey : CScript) : res CFluidMint :=
  let fluidOperationString := ScriptToAsmStr scriptPubKey in
  '(strOperationCode, messageTokenKey, vecSplitScript) ← command_parts fluidOperationString;
  match vecSplitScript with
  | strAmount :: strTimeStamp :: strDestination :: s1 :: s2 :: s3 :: _ =>
      if bool_decide (strOperationCode = str "OP_MINT") then
        addrs ← signer_strings [s1; s2; s3] messageTokenKey;
        Val (mkMint fluidOperationString (default (-1) (ParseFixedPoint strAmount 8)) strDestination
               (parsed_time strTimeStamp) addrs null_hash 0)
      else Val null_mint
  | _ => Val null_mint
  end.

(** [CFluidSovereignDB::InitEmpty]. *)
Definition InitEmpty (db : fluid_db CFluidSovereign) : res (fluid_db CFluidSovereign) :=
  if db_IsEmpty db then
    addrs ← InitialiseAddresses;
    Val (AddFluidSovereignEntry (mkSovereign (str "init sovereign") 1 addrs null_hash 1) db)
  else Val db.

(** [db] is [None] when the database is not open. *)
Definition GetLastFluidSovereignAddressStrings (db : option (fluid_db CFluidSovereign)) : option (list (list Z)) :=
  db ← db; Some (sAddresses (GetLastFluidSovereignRecord db)).

Definition CheckSignatureQuorum (db : option (fluid_db CFluidSovereign)) (vchFluidScript : list Z) (individual : bool) : res bool :=
  match GetLastFluidSovereignAddressStrings db with
  | None => Val false
  | Some fluidSovereigns => CheckQuorum fluidSovereigns vchFluidScript individual
  end.

(** ** Connecting a block *)

(** The open databases: mining, masternode, mint and sovereign records, the
    directory accounts by full path, and the banned ones. *)
Record fluid_state : Type := mkFluid {
  miningDB : option (fluid_db CFluidReward);
  masternodeDB : option (fluid_db CFluidReward);
  mintDB : option (fluid_db CFluidMint);
  sovereignDB : option (fluid_db CFluidSovereign);
  accounts : gset (list Z);
  banned : gset (list Z)
}.

(** [CheckAccountBanScript]: the accounts to ban, [None] for [false]. *)
Definition CheckAccountBanScript (st : fluid_state) (fluidScript : CScript) : res (option (list (list Z))) :=
  verificationWithoutOpCode ← GetRidOfScriptStatement (ScriptToAsmStr fluidScript) 1;
  if negb (IsHex verificationWithoutOpCode) then Val None
  else
    let vecSplitScript := SeparateString (HexToString verificationWithoutOpCode) true in
    Val (Some (filter (fun p => p ∈ accounts st) ((fun s => (DecodeBase64 s).1) <$> drop 1 vecSplitScript))).

(** [ExtractTimestampWithAddresses]: the time and the signers, [None] for [false]. *)
Definition ExtractTimestampWithAddresses (strOpCode : list Z) (fluidScript : CScript) : res (option (Z * list (list Z))) :=
  consentTokenNoScript ← GetRidOfScriptStatement (ScriptToAsmStr fluidScript) 1;
  let strs := SeparateString (HexToString consentTokenNoScript) false in
  first ← at_ strs 0;
  let ptrs := SeparateString first true in
  if (length strs <=? 1)%nat then Val None
  else if amount_command strOpCode then
    ls ← at_ ptrs 1; addrs ← signer_strings (drop 1 strs) first; Val (Some (token_time uninit ls, addrs))
  else if bool_decide (strOpCode = str "OP_BDAP_REVOKE") then
    ls ← at_ ptrs 0; addrs ← signer_strings (drop 1 strs) first; Val (Some (token_time uninit ls, addrs))
  else Val None.

Definition set_height (e : CFluidReward) (hash : list Z) (h : Z) : CFluidReward :=
  mkReward (FluidScript e) (Reward e) (nTimeStamp e) (SovereignAddresses e) hash h.
Definition set_mint_height (e : CFluidMint) (hash : list Z) (h : Z) : CFluidMint :=
  mkMint (mFluidScript e) (MintAmount e) (DestinationAddress e) (mTimeStamp e) (mSovereignAddresses e) hash h.

(** The accounts of a ban are deleted from the directory and recorded. *)
Definition ban_accounts (st : fluid_state) (paths : list (list Z)) : fluid_state :=
  mkFluid (miningDB st) (masternodeDB st) (mintDB st) (sovereignDB st)
    (accounts st ∖ list_to_set paths) (banned st ∪ list_to_set paths).

(** One fluid transaction: the state, and the reason of a rejection. *)
Definition connect_fluid (st : fluid_state) (scriptFluid : CScript) (hash : list Z) (nHeight : Z)
  : res (fluid_state * option string) :=
  if TxVerify.protocol scriptFluid MINT_TX then
    e ← CFluidMint_of scriptFluid;
    let e := set_mint_height e hash nHeight in
    match mintDB st with
    | None => Val (st, None)
    | Some db =>
        q ← CheckSignatureQuorum (sovereignDB st) (mFluidScript e) false;
        if negb q then Val (st, Some "invalid-fluid-mint-address-signature"%string)
        else Val (mkFluid (miningDB st) (masternodeDB st) (Some (AddFluidMintEntry e db)) (sovereignDB st)
                    (accounts st) (banned st), None)
    end
  else if TxVerify.protocol scriptFluid MASTERNODE_MODFIY_TX then
    e ← CFluidReward_of (str "OP_REWARD_MASTERNODE") scriptFluid;
    let e := set_height e hash nHeight in
    match masternodeDB st with
    | None => Val (st, None)
    | Some db =>
        q ← CheckSignatureQuorum (sovereignDB st) (FluidScript e) false;
        if negb q then Val (st, Some "invalid-fluid-masternode-address-signature"%string)
        else Val (mkFluid (miningDB st) (Some (AddFluidRewardEntry e db)) (mintDB st) (sovereignDB st)
                    (accounts st) (banned st), None)
    end
  else if TxVerify.protocol scriptFluid MINING_MODIFY_TX then
    e ← CFluidReward_of (str "OP_REWARD_MINING") scriptFluid;
    let e := set_height e hash nHeight in
    match miningDB st with
    | None => Val (st, None)
    | Some db =>
        q ← CheckSignatureQuorum (sovereignDB st) (FluidScript e) false;
        if negb q then Val (st, Some "invalid-fluid-mining-address-signature"%string)
        else Val (mkFluid (Some (AddFluidRewardEntry e db)) (masternodeDB st) (mintDB st) (sovereignDB st)
                    (accounts st) (banned st), None)
    end
  else if TxVerify.protocol scriptFluid BDAP_REVOKE_TX then
    q ← CheckSignatureQuorum (sovereignDB st) (ScriptToAsmStr scriptFluid) false;
    if negb q then Val (st, Some "invalid-fluid-ban-address-signature"%string)
    else
      paths ← CheckAccountBanScript st scriptFluid;
      match paths with
      | None => Val (st, Some "fluid-ban-script-invalid"%string)
      | Some paths =>
          t ← ExtractTimestampWithAddresses (str "OP_BDAP_REVOKE") scriptFluid;
          Val (match t with Some _ => ban_accounts st paths | None => st end, None)
      end
  else Val (st, Some "invalid-fluid-operation-code"%string).

(** The loop over the transactions of the block. *)
Fixpoint connect_fluid_txs (st : fluid_state) (txs : list (CTransaction * list Z)) (nHeight : Z)
  : res (fluid_state * option string) :=
  match txs with
  | [] => Val (st, None)
  | (tx, hash) :: txs =>
      match TxVerify.fluid_script (vout tx) with
      | None => connect_fluid_txs st txs nHeight
      | Some scriptFluid =>
          '(st, reject) ← connect_fluid st scriptFluid hash nHeight;
          match reject with
          | Some _ => Val (st, reject)
          | None => connect_fluid_txs st txs nHeight
          end
      end
  end.

End Records.


(** ** Databases: lemmas *)

Lemma key_order_inj a b : Ser c_bytes a = Ser c_bytes b -> a = b.
Proof.
  cbn [Ser c_bytes]. intros H.
  assert (Hsz : forall n, length (WriteCompactSize n) = Z.to_nat (GetSizeOfCompactSize n)).
  { intros n. unfold WriteCompactSize, GetSizeOfCompactSize. repeat case_match; done. }
  assert (Hl : length a = length b).
  { apply (f_equal length) in H. rewrite !length_app, !Hsz in H. unfold GetSizeOfCompactSize in H.
    repeat case_match; lia. }
  rewrite Hl in H. by apply app_inv_head in H.
Qed.

Lemma bytes_lt_trans a : forall b c, bytes_lt a b = true -> bytes_lt b c = true -> bytes_lt a c = true.
Proof.
  induction a as [|x a IH]; intros [|y b] [|z c]; cbn; try done.
  rewrite !orb_true_iff, !andb_true_iff, !Z.ltb_lt, !Z.eqb_eq. intros [H1|[-> H1]] [H2|[-> H2]]; [left; lia|left; lia|left; lia|].
  right. split; [done|]. by apply (IH b c).
Qed.

Lemma bytes_lt_total a : forall b, a <> b -> bytes_lt a b = false -> bytes_lt b a = true.
Proof.
  induction a as [|x a IH]; intros [|y b] Hne; cbn; try done.
  rewrite orb_false_iff, orb_true_iff, !andb_true_iff, !Z.ltb_lt, Z.ltb_ge, !Z.eqb_eq. intros [H1 H2].
  destruct (decide (x = y)) as [->|Hxy]; [|left; lia]. right. split; [done|].
  rewrite Z.eqb_refl in H2. apply IH; [congruence|done].
Qed.

(** The iteration order: strictly ascending keys, so no key twice. *)
Definition key_before (k1 k2 : list Z) : Prop := bytes_lt (Ser c_bytes k1) (Ser c_bytes k2) = true.

Definition db_sorted {A} (db : list (list Z * A)) : Prop := Sorted.StronglySorted key_before (db.*1).

Lemma key_before_irrefl k : ~ key_before k k.
Proof.
  unfold key_before. generalize (Ser c_bytes k). intros l. induction l as [|z l IH]; cbn; [done|].
  rewrite Z.ltb_irrefl, Z.eqb_refl. done.
Qed.

Lemma db_sorted_cons {A} k (x : A) db :
  db_sorted ((k, x) :: db) <-> (forall kx, kx ∈ db -> key_before k kx.1) /\ db_sorted db.
Proof.
  unfold db_sorted. rewrite fmap_cons. split.
  - intros H. apply Sorted.StronglySorted_inv in H as [H1 H2]. split; [|done]. intros kx Hin.
    rewrite Forall_forall in H2. by apply H2, list_elem_of_fmap_2.
  - intros [H1 H2]. constructor; [done|]. apply Forall_forall. intros k' Hk'.
    apply list_elem_of_fmap in Hk' as (kx & -> & Hin). by apply H1.
Qed.

Lemma db_put_in {A} key (e : A) db kx : kx ∈ db_put key e db -> kx = (key, e) \/ kx ∈ db.
Proof.
  induction db as [|[k x] db IH]; cbn [db_put]; [rewrite elem_of_cons, elem_of_nil; tauto|].
  destruct (bool_decide (k = key)); [rewrite !elem_of_cons; tauto|].
  destruct (bytes_lt _ _); rewrite !elem_of_cons; [tauto|]. intros [->|H]; [tauto|]. apply IH in H. tauto.
Qed.

Lemma db_put_sorted {A} key (e : A) db : db_sorted db -> db_sorted (db_put key e db).
Proof.
  induction db as [|[k x] db IH]; intros Hs; cbn [db_put].
  { apply db_sorted_cons. split; [intros kx H; by apply elem_of_nil in H|constructor]. }
  apply db_sorted_cons in Hs as [Hall Hs].
  destruct (bool_decide_reflect (k = key)) as [->|Hne]; [by apply db_sorted_cons|].
  destruct (bytes_lt (Ser c_bytes key) (Ser c_bytes k)) eqn:Elt; apply db_sorted_cons.
  - split; [|by apply db_sorted_cons]. intros kx Hin. apply elem_of_cons in Hin as [->|Hin]; [done|].
    by apply (bytes_lt_trans _ _ _ Elt), Hall.
  - split; [|by apply IH]. intros kx Hin. apply db_put_in in Hin as [->|Hin]; [|by apply Hall].
    apply bytes_lt_total; [|done]. intros H. by apply key_order_inj in H.
Qed.

(** The entries after a write: the new one, and the old ones under other keys. *)
Lemma db_put_entries {A} key (e : A) db kx : db_sorted db ->
  kx ∈ db_put key e db <-> kx = (key, e) \/ (kx ∈ db /\ kx.1 <> key).
Proof.
  induction db as [|[k x] db IH]; intros Hs; cbn [db_put]; [rewrite elem_of_cons, elem_of_nil; tauto|].
  apply db_sorted_cons in Hs as [Hall Hs].
  assert (Hk : forall kx, kx ∈ db -> kx.1 <> k).
  { intros kx' Hin Hk. apply (key_before_irrefl k). rewrite <- Hk at 2. by apply Hall. }
  destruct (bool_decide_reflect (k = key)) as [->|Hne].
  { rewrite !elem_of_cons. split; [intros [->|Hin]; [tauto|]; right; split; [tauto|by apply Hk]|].
    intros [->|[[->|Hin] Hkk]]; [tauto|done|tauto]. }
  destruct (bytes_lt (Ser c_bytes key) (Ser c_bytes k)) eqn:Elt; rewrite !elem_of_cons.
  - assert (Hkey : forall kx, kx ∈ db -> kx.1 <> key).
    { intros kx' Hin Hkk. apply (key_before_irrefl key). rewrite <- Hkk at 2.
      by apply (bytes_lt_trans _ _ _ Elt), Hall. }
    split; [|tauto]. intros [->|[->|Hin]]; [tauto|right; split; [by left|done]|].
    right. split; [by right|by apply Hkey].
  - rewrite (IH Hs). split; [intros [->|[->|[Hin Hkk]]]; [right; split; [by left|done]|tauto|tauto]|].
    intros [->|[[->|Hin] Hkk]]; tauto.
Qed.

(** ** The reward in force *)

Definition eligible (nHeight : Z) (e : CFluidReward) : bool := i32 (rHeight e + 1) <? nHeight.

Lemma last_reward_null nHeight es : forall ret, Exists (fun kx => reward_IsNull kx.2 = true) es -> last_reward nHeight es ret = None.
Proof.
  induction es as [|[k e] es IH]; intros ret H; [by apply Exists_nil in H|]. cbn [last_reward].
  destruct (reward_IsNull e) eqn:En; [done|]. apply Exists_cons in H as [H|H]; [cbn in H; congruence|].
  destruct (_ && _); by apply IH.
Qed.

Lemma last_reward_best nHeight es : forall ret, Forall (fun kx => reward_IsNull kx.2 = false) es ->
  exists r, last_reward nHeight es ret = Some r /\ rHeight ret <= rHeight r /\
    (r = ret \/ exists k, (k, r) ∈ es /\ eligible nHeight r = true) /\
    (forall k e, (k, e) ∈ es -> eligible nHeight e = true -> rHeight e <= rHeight r).
Proof.
  induction es as [|[k e] es IH]; intros ret Hn; cbn [last_reward].
  { exists ret. split; [done|]. split; [lia|]. split; [by left|]. intros k e H. by apply elem_of_nil in H. }
  apply Forall_cons_iff in Hn as [He Hn]. cbn in He. rewrite He.
  destruct ((rHeight ret <? rHeight e) && (i32 (rHeight e + 1) <? nHeight)) eqn:Ec.
  - apply andb_prop in Ec as [E1 E2]. apply Z.ltb_lt in E1.
    destruct (IH e Hn) as (r & -> & H1 & H2 & H3). exists r. split; [done|]. split; [lia|]. split.
    + right. destruct H2 as [->|(k' & Hin & Hel)]; [exists k; split; [by left|done]|exists k'; split; [by right|done]].
    + intros k' e' Hin Hel. apply elem_of_cons in Hin as [[= -> ->]|Hin]; [lia|by apply (H3 k')].
  - destruct (IH ret Hn) as (r & -> & H1 & H2 & H3). exists r. split; [done|]. split; [lia|]. split.
    + destruct H2 as [->|(k' & Hin & Hel)]; [by left|right; exists k'; split; [by right|done]].
    + intros k' e' Hin Hel. apply elem_of_cons in Hin as [[= -> ->]|Hin]; [|by apply (H3 k')].
      unfold eligible in Hel. rewrite Hel, andb_true_r in Ec. apply Z.ltb_ge in Ec. lia.
Qed.

(** A record that does not count yet changes nothing. *)
Lemma last_reward_put nHeight key e es : forall ret, reward_IsNull e = false -> eligible nHeight e = false ->
  (key ∉ es.*1) -> last_reward nHeight (db_put key e es) ret = last_reward nHeight es ret.
Proof.
  induction es as [|[k x] es IH]; intros ret Hn Hel Hk; cbn [db_put last_reward]; unfold eligible in Hel.
  { rewrite Hn, Hel, andb_false_r. done. }
  rewrite fmap_cons, not_elem_of_cons in Hk. destruct Hk as [Hk1 Hk2]. cbn in Hk1.
  rewrite bool_decide_eq_false_2 by congruence.
  destruct (bytes_lt _ _); cbn [last_reward]; [rewrite Hn, Hel, andb_false_r; done|].
  destruct (reward_IsNull x); [done|]. destruct (_ && _); by apply IH.
Qed.

(** The records of a database that the loops can work with: sorted, dated, and
    below the height [h]. *)
Definition records_below (h : Z) (db : fluid_db CFluidReward) : Prop :=
  db_sorted (scripts db) /\
  Forall (fun kx => reward_IsNull kx.2 = false /\ 0 <= rHeight kx.2 < h) (scripts db).

Section Effects.
Context {CR : Crypto} {BP : Base58Prefix} {PK : PubKeyRecovery} {SV : Sovereigns}.

Lemma connect_mining uninit st script hash h db e st' :
  TxVerify.protocol script MINING_MODIFY_TX = true -> miningDB st = Some db ->
  CFluidReward_of (str "OP_REWARD_MINING") script = Val e ->
  connect_fluid uninit st script hash h = Val (st', None) ->
  miningDB st' = Some (AddFluidRewardEntry (set_height e hash h) db).
Proof.
  intros Hp Hdb He H. unfold connect_fluid in H.
  assert (Hex : TxVerify.protocol script MINT_TX = false /\ TxVerify.protocol script MASTERNODE_MODFIY_TX = false).
  { revert Hp. destruct script as [|o script]; [done|]. unfold TxVerify.protocol, IsProtocolInstruction, zlen. cbn [length nth].
    change (MINING_MODIFY_TX =? MINT_TX) with false. change (MINING_MODIFY_TX =? MASTERNODE_MODFIY_TX) with false.
    cbn [Z.eqb MINING_MODIFY_TX MINT_TX MASTERNODE_MODFIY_TX Pos.eqb default from_option id].
    rewrite !andb_true_iff, !andb_false_iff, !Z.eqb_eq, !Z.eqb_neq. unfold OP_MINT, OP_REWARD_MASTERNODE, OP_REWARD_MINING. lia. }
  destruct Hex as [Hx1 Hx2]. rewrite Hx1, Hx2, Hp, He in H. cbn [mbind res_bind] in H. rewrite Hdb in H.
  apply res_bind_Val in H as (q & Eq & H). destruct q; [|done]. injection H as <-. done.
Qed.

Lemma put_not_empty {A} key (e : A) es ts : db_IsEmpty (mkDB (db_put key e es) ts) = false.
Proof. unfold db_IsEmpty. cbn. destruct (db_put key e es) eqn:E; [|done]. destruct es as [|[k x] es]; cbn in E; repeat case_match; done. Qed.

(** C34: a reward command takes effect. A mining command is connected at height
    [h] with [0 < h < 2^31 - 1]; its amount is positive and its time parses, its script is not
    recorded yet, and every record of the (sorted) database has a time and a height
    below [h]. Then the mining reward is its amount for every block from
    [h + 2] and from [FLUID_ACTIVATE_HEIGHT] (10) on, and what it was before the command
    for every block up to [h + 1]. (Of the conditions, the undated record is
    [undated_command_disables_rewards]; a script that is recorded again
    overwrites its old record.) *)
Theorem reward_command_takes_effect p uninit st script hash h db e st' :
  TxVerify.protocol script MINING_MODIFY_TX = true -> miningDB st = Some db -> records_below h db ->
  0 < h < 2 ^ 31 - 1 -> CFluidReward_of (str "OP_REWARD_MINING") script = Val e ->
  nTimeStamp e <> 0 -> 0 < Reward e -> (FluidScript e ∉ (scripts db).*1) ->
  connect_fluid uninit st script hash h = Val (st', None) ->
  (forall nHeight, TxVerify.FLUID_ACTIVATE_HEIGHT <= nHeight -> h + 1 < nHeight ->
     GetFluidMiningReward p (miningDB st') nHeight = Reward e) /\
  (forall nHeight, nHeight <= h + 1 ->
     GetFluidMiningReward p (miningDB st') nHeight = GetFluidMiningReward p (miningDB st) nHeight).
Proof.
  intros Hp Hdb [Hsort Hrec] Hh He Ht Hpos Hkey Hc. rewrite (connect_mining uninit st script hash h db e st' Hp Hdb He Hc), Hdb.
  assert (Hnull : reward_IsNull (set_height e hash h) = false) by (unfold reward_IsNull; cbn; lia).
  unfold GetFluidMiningReward, fluid_reward, AddFluidRewardEntry, GetLastFluidReward. cbn [scripts].
  split; intros nHeight; [intros Ha Hlt|intros Hle].
  - rewrite (proj2 (Z.ltb_ge _ _)), put_not_empty by lia.
    destruct (last_reward_best nHeight (db_put (FluidScript (set_height e hash h)) (set_height e hash h) (scripts db)) null_reward)
      as (r & -> & _ & Hr & Hmax).
    { apply Forall_forall. intros kx Hin. apply db_put_in in Hin as [->|Hin]; [done|].
      rewrite Forall_forall in Hrec. by apply Hrec. }
    assert (Htop : h <= rHeight r).
    { apply (Hmax (FluidScript e) (set_height e hash h)); [apply db_put_entries; [done|by left]|].
      unfold eligible. cbn [rHeight set_height]. rewrite i32_small by lia. by apply Z.ltb_lt. }
    destruct Hr as [->|(k & Hin & _)]; [cbn in Htop; lia|]. apply db_put_in in Hin as [[= -> ->]|Hin].
    + cbn [Reward set_height]. rewrite (proj2 (Z.ltb_lt _ _)) by lia. done.
    + rewrite Forall_forall in Hrec. apply Hrec in Hin as [_ Hin]. cbn in Hin. lia.
  - destruct (nHeight <? TxVerify.FLUID_ACTIVATE_HEIGHT); [done|]. rewrite put_not_empty.
    rewrite last_reward_put; [|done| |done].
    + destruct (db_IsEmpty db) eqn:Ee; [|done]. unfold db_IsEmpty in Ee. destruct (scripts db); [done|done].
    + unfold eligible. cbn [rHeight set_height]. rewrite i32_small by lia. apply Z.ltb_ge. lia.
Qed.

(** A malformed time disables the command of rewards for good. When a mining
    command is recorded whose time did not parse (the record keeps time 0, which
    the search for the newest record takes for the end of valid data), every
    block from then on gets the standard reward, whatever was commanded before. *)
Theorem undated_command_disables_rewards p uninit st script hash h db e st' :
  TxVerify.protocol script MINING_MODIFY_TX = true -> miningDB st = Some db -> db_sorted (scripts db) ->
  CFluidReward_of (str "OP_REWARD_MINING") script = Val e -> nTimeStamp e = 0 ->
  connect_fluid uninit st script hash h = Val (st', None) ->
  forall nHeight, GetFluidMiningReward p (miningDB st') nHeight = GetStandardPoWBlockPayment p nHeight.
Proof.
  intros Hp Hdb Hsort He Ht Hc nHeight. rewrite (connect_mining uninit st script hash h db e st' Hp Hdb He Hc).
  unfold GetFluidMiningReward, fluid_reward, AddFluidRewardEntry, GetLastFluidReward. cbn [scripts].
  destruct (_ <? _); [done|]. rewrite put_not_empty, last_reward_null; [done|].
  apply Exists_exists. exists (FluidScript e, set_height e hash h). split.
  - apply db_put_entries; [done|by left].
  - unfold reward_IsNull. cbn. lia.
Qed.

End Effects.

(** ** Commands as they are built by maketoken and signtoken *)

(** The characters of printed numbers. *)
Definition number_char (c : Z) : Prop := 45 <= c < 58.

Lemma show_digits_chars ds : Encodings.digits 10 ds -> Forall number_char (show_digits ds).
Proof. unfold show_digits. intros H. apply Forall_fmap. apply (Forall_impl _ _ _ H). intros d Hd. unfold number_char; cbn. lia. Qed.

Lemma show_d_chars t : 0 <= t < 10 ^ 19 -> Forall number_char (show_d t).
Proof. intros Ht. destruct (show_d_digits t Ht) as (w & -> & Hw & _). by apply show_digits_chars. Qed.

Lemma FormatMoney_chars n : Z.abs n <= UPPER_BOUND -> Forall number_char (FormatMoney n).
Proof.
  intros Hn. destruct (FormatMoney_shape n Hn) as (w & f & -> & Hw & _ & Hf & _).
  assert (H : Forall number_char (show_digits w ++ 46 :: show_digits f)).
  { apply Forall_app. split; [by apply show_digits_chars|]. constructor; [unfold number_char; lia|by apply show_digits_chars]. }
  unfold signed. destruct (n <? 0); [constructor; [unfold number_char; lia|done]|done].
Qed.

Lemma number_char_ok s : Forall number_char s -> Forall is_byte s /\ free 64 s /\ free 36 s.
Proof.
  intros H. split; [|split]; apply (Forall_impl _ _ _ H); unfold number_char, is_byte; intros c Hc; lia.
Qed.

Lemma prechecks_clean s : s <> [] -> Forall (fun c => isspace c = false) s -> Forall (fun c => (c =? 0) = false) s ->
  ParsePrechecks s = true.
Proof.
  intros Hne Hs Hz. unfold ParsePrechecks. rewrite c_str_id by done. destruct s as [|c s]; [done|].
  rewrite bool_decide_eq_true_2, andb_true_r by done. pose proof Hs as Hs'. apply Forall_cons_iff in Hs' as [-> _].
  cbn [orb]. destruct (last (c :: s)) as [x|] eqn:El; cbn [default from_option id]; [|done].
  rewrite Forall_forall in Hs. rewrite (Hs x); [done|]. apply last_Some in El as [l' ->].
  apply elem_of_app. right. by left.
Qed.

Lemma ParseInt64_show t : 0 <= t < 2 ^ 63 -> ParseInt64 (show_d t) = (true, Some t).
Proof.
  intros Ht. destruct (show_d_digits t ltac:(lia)) as (w & -> & Hw & Hok & Hv).
  destruct (show_clean w Hw) as [Hz Hs]. destruct w as [|d w]; [destruct Hok as [?|[? _]]; done|].
  unfold ParseInt64. rewrite c_str_id, strtoll_show by (done || lia). rewrite Hv.
  rewrite prechecks_clean by done.
  cbn [negb]. f_equal. rewrite bool_decide_eq_true_2 by done. cbn [andb negb].
  apply andb_true_iff. split; apply Z.leb_le; lia.
Qed.

Lemma join_bytes sep parts : is_byte sep -> Forall (Forall is_byte) parts -> Forall is_byte (join sep parts).
Proof.
  intros Hsep. induction parts as [|p parts IH]; intros H; [constructor|].
  apply Forall_cons_iff in H as [H1 H2]. destruct parts as [|q parts]; [done|].
  change (join sep (p :: q :: parts)) with (p ++ sep :: join sep (q :: parts)).
  apply Forall_app. split; [done|]. constructor; [done|by apply IH].
Qed.

Lemma join_free c sep parts : (sep =? c) = false -> Forall (fun p => free c p) parts -> free c (join sep parts).
Proof.
  intros Hsep. induction parts as [|p parts IH]; intros H; [constructor|].
  apply Forall_cons_iff in H as [H1 H2]. destruct parts as [|q parts]; [done|].
  change (join sep (p :: q :: parts)) with (p ++ sep :: join sep (q :: parts)).
  apply Forall_app. split; [done|]. constructor; [done|by apply IH].
Qed.

Section Built.
Context {CR : Crypto} {BP : Base58Prefix} {PK : PubKeyRecovery} {SV : Sovereigns}.

(** A command made of a message and signatures falls into its parts. *)
Lemma command_parts_built op name p parts s sigs : (op, name) ∈ fluid_ops ->
  Forall (fun q => Forall is_byte q /\ free 36 q /\ free 64 q) (p :: parts) ->
  Forall (fun q => Forall is_byte q /\ free 64 q) (s :: sigs) ->
  let tok := join 64 (join 36 (p :: parts) :: s :: sigs) in
  4 < zlen tok < 2 ^ 32 ->
  command_parts (ScriptToAsmStr (push_bytes [op] tok)) = Val (name, join 36 (p :: parts), (p :: parts) ++ s :: sigs).
Proof.
  intros Hin Hp Hs tok Hlen.
  assert (Hf36 : Forall (fun q => free 36 q) (p :: parts)) by (apply (Forall_impl _ _ _ Hp); tauto).
  assert (Hf64 : Forall (fun q => free 64 q) (join 36 (p :: parts) :: s :: sigs)).
  { constructor; [|apply (Forall_impl _ _ _ Hs); tauto]. apply join_free; [done|]. apply (Forall_impl _ _ _ Hp). tauto. }
  assert (Hb : Forall is_byte tok).
  { apply join_bytes; [by_decide|]. constructor; [|apply (Forall_impl _ _ _ Hs); tauto].
    apply join_bytes; [by_decide|]. apply (Forall_impl _ _ _ Hp). tauto. }
  destruct (command_words op name tok Hin Hb ltac:(lia) ltac:(lia)) as [H0 H1].
  destruct (HexToString_HexStr tok Hb) as [Hx _].
  unfold command_parts. rewrite H0. cbn [mbind res_bind]. rewrite H1. cbn [mbind res_bind]. rewrite Hx.
  unfold SeparateFluidOpString, SeparateString, PrimaryDelimiter, SubDelimiter. unfold tok.
  rewrite split_join by done. cbn [at_ lookup list_lookup mbind res_bind]. rewrite split_join by done. done.
Qed.

Context {HC : CryptoOk} {HP : Base58PrefixOk}.

Lemma signature_string s m a : GetAddressFromDigestSignature s m = Val a -> exists x, AddressString a = Val x.
Proof using HC HP.
  intros H. assert (Hg : good a); [|destruct (good_string a Hg) as (x & E & _); eauto].
  unfold GetAddressFromDigestSignature in H. destruct (DecodeBase64 s) as [sig [|]]; [done|].
  destruct (RecoverCompact _ _); [|done]. injection H as <-. destruct prefix_one as [H1 _], prefix_bytes as [H2 _].
  split; [done|]. cbn [Set_dest vchVersion vchData]. apply Forall_app. split; [done|]. apply RIPEMD160_size.
Qed.

(** What is commanded is what is recorded. A mint command built from an
    amount, a time and a destination, with three signatures that can be
    recovered, is recorded with exactly this amount, time and destination and
    with the addresses of the signers. *)
Theorem mint_command_roundtrip n t dest s1 s2 s3 a1 a2 a3 :
  Z.abs n <= UPPER_BOUND -> 0 <= t < 2 ^ 63 ->
  Forall is_byte dest -> free 36 dest -> free 64 dest ->
  Forall (fun q => Forall is_byte q /\ free 64 q) [s1; s2; s3] ->
  let msg := join 36 [FormatMoney n; show_d t; dest] in
  let script := push_bytes [OP_MINT] (join 64 [msg; s1; s2; s3]) in
  4 < zlen (join 64 [msg; s1; s2; s3]) < 2 ^ 32 ->
  GetAddressFromDigestSignature s1 msg = Val a1 -> GetAddressFromDigestSignature s2 msg = Val a2 ->
  GetAddressFromDigestSignature s3 msg = Val a3 ->
  exists x1 x2 x3, AddressString a1 = Val x1 /\ AddressString a2 = Val x2 /\ AddressString a3 = Val x3 /\
    CFluidMint_of script = Val (mkMint (ScriptToAsmStr script) n dest t [x1; x2; x3] null_hash 0).
Proof using HC HP.
  intros Hn Ht Hd1 Hd2 Hd3 Hsig msg script Hlen H1 H2 H3.
  destruct (signature_string s1 msg a1 H1) as [x1 E1]. destruct (signature_string s2 msg a2 H2) as [x2 E2].
  destruct (signature_string s3 msg a3 H3) as [x3 E3]. exists x1, x2, x3.
  split; [done|]. split; [done|]. split; [done|].
  destruct (number_char_ok _ (FormatMoney_chars n Hn)) as (F1 & F2 & F3).
  destruct (number_char_ok _ (show_d_chars t ltac:(lia))) as (G1 & G2 & G3).
  assert (Ep : command_parts (ScriptToAsmStr script) = Val (str "OP_MINT", msg, [FormatMoney n; show_d t; dest; s1; s2; s3])).
  { apply (command_parts_built OP_MINT (str "OP_MINT") (FormatMoney n) [show_d t; dest] s1 [s2; s3]); [left| |done|done].
    repeat apply Forall_cons_2; [split; [done|split; done]..|]. constructor. }
  unfold CFluidMint_of. rewrite Ep. cbn [mbind res_bind]. rewrite bool_decide_eq_true_2 by done. cbn [signer_strings].
  rewrite H1, H2, H3. cbn [mbind res_bind]. rewrite E1. cbn [mbind res_bind]. rewrite E2. cbn [mbind res_bind].
  rewrite E3. cbn [mbind res_bind]. rewrite format_parse_fixed by done. cbn [default from_option id].
  unfold parsed_time. rewrite ParseInt64_show by done. done.
Qed.

End Built.

(** ** Who may write to the databases *)

(** The records of an open database. *)
Definition records {A} (odb : option (fluid_db A)) : list (list Z * A) := from_option scripts [] odb.

(** The fluid scripts of a block, each with the hash of its transaction. *)
Definition fluid_commands (txs : list (CTransaction * list Z)) : list (CScript * list Z) :=
  omap (fun '(tx, hash) => (fun s => (s, hash)) <$> TxVerify.fluid_script (vout tx)) txs.

(** Every record of the second database is one of the first or is explained by [P]. *)
Definition new_only {A} (P : list Z * A -> Prop) (odb odb' : option (fluid_db A)) : Prop :=
  forall kr, kr ∈ records odb' -> kr ∈ records odb \/ P kr.

Lemma new_only_refl {A} P (odb : option (fluid_db A)) : new_only P odb odb.
Proof. intros kr Hin. by left. Qed.

Lemma new_only_trans {A} (P Q R : list Z * A -> Prop) odb1 odb2 odb3 : (forall kr, P kr -> R kr) -> (forall kr, Q kr -> R kr) ->
  new_only P odb1 odb2 -> new_only Q odb2 odb3 -> new_only R odb1 odb3.
Proof. intros HP HQ H12 H23 kr [[Hin|Hin]%H12|Hin]%H23; eauto. Qed.

Lemma new_only_put {A} (P : list Z * A -> Prop) k e (db : fluid_db A) ts : P (k, e) ->
  new_only P (Some db) (Some (mkDB (db_put k e (scripts db)) ts)).
Proof. intros HP kr [->|Hin]%db_put_in; [by right|by left]. Qed.

Section WellFormed.
Context {CR : Crypto} {BP : Base58Prefix} {PK : PubKeyRecovery} {SV : Sovereigns}.
Context {HC : CryptoOk} {HP : Base58PrefixOk}.

(** The script carries signatures of three different sovereigns of the database. *)
Definition signed_by_three (sov : option (fluid_db CFluidSovereign)) (script : list Z) : Prop :=
  exists db addrs a b c, sov = Some db /\ Forall2 sovereign (sAddresses (GetLastFluidSovereignRecord db)) addrs /\
    signer_at script 1 = Val (Some a) /\ signer_at script 2 = Val (Some b) /\ signer_at script 3 = Val (Some c) /\
    a ∈ addrs /\ b ∈ addrs /\ c ∈ addrs /\ a <> b /\ b <> c /\ a <> c.

Lemma quorum_signed sov script : CheckSignatureQuorum sov script false = Val true -> signed_by_three sov script.
Proof using HC HP.
  unfold CheckSignatureQuorum, GetLastFluidSovereignAddressStrings. destruct sov as [db|]; [|done]. cbn [mbind option_bind].
  intros (addrs & a & b & c & Hq)%CheckQuorum_sound. by exists db, addrs, a, b, c.
Qed.

(** A reward record that a command of the list commands at height [h]. *)
Definition commanded_reward sov (cmds : list (CScript * list Z)) (h code : Z) (name : string) (kr : list Z * CFluidReward) : Prop :=
  exists s hash e, (s, hash) ∈ cmds /\ TxVerify.protocol s code = true /\ CFluidReward_of (str name) s = Val e /\
    kr = (FluidScript e, set_height e hash h) /\ signed_by_three sov (FluidScript e).

Definition commanded_mint sov (cmds : list (CScript * list Z)) (h : Z) (kr : list Z * CFluidMint) : Prop :=
  exists s hash e, (s, hash) ∈ cmds /\ TxVerify.protocol s MINT_TX = true /\ CFluidMint_of s = Val e /\
    kr = (mFluidScript e, set_mint_height e hash h) /\ signed_by_three sov (mFluidScript e).

Definition commanded_ban sov (cmds : list (CScript * list Z)) : Prop :=
  exists s hash, (s, hash) ∈ cmds /\ TxVerify.protocol s BDAP_REVOKE_TX = true /\ signed_by_three sov (ScriptToAsmStr s).

(** All that the commands change. *)
Definition authorised_change (cmds : list (CScript * list Z)) (h : Z) (st st' : fluid_state) : Prop :=
  sovereignDB st' = sovereignDB st /\
  new_only (commanded_reward (sovereignDB st) cmds h MINING_MODIFY_TX "OP_REWARD_MINING") (miningDB st) (miningDB st') /\
  new_only (commanded_reward (sovereignDB st) cmds h MASTERNODE_MODFIY_TX "OP_REWARD_MASTERNODE") (masternodeDB st) (masternodeDB st') /\
  new_only (commanded_mint (sovereignDB st) cmds h) (mintDB st) (mintDB st') /\
  accounts st' ⊆ accounts st /\ banned st ⊆ banned st' /\
  forall p, p ∈ accounts st ∖ accounts st' \/ p ∈ banned st' ∖ banned st ->
    p ∈ accounts st /\ p ∈ banned st' /\ commanded_ban (sovereignDB st) cmds.

Lemma authorised_refl cmds h st : authorised_change cmds h st st.
Proof using. unfold authorised_change. split_and!; try first [done|apply new_only_refl]. set_solver+. Qed.

Lemma authorised_trans c1 c2 cmds h st1 st2 st3 : c1 ⊆ cmds -> c2 ⊆ cmds ->
  authorised_change c1 h st1 st2 -> authorised_change c2 h st2 st3 -> authorised_change cmds h st1 st3.
Proof using.
  intros S1 S2 (A1 & A2 & A3 & A4 & A5 & A6 & A7) (B1 & B2 & B3 & B4 & B5 & B6 & B7). rewrite A1 in B1, B2, B3, B4, B7.
  assert (Hr : forall c code name kr, c ⊆ cmds -> commanded_reward (sovereignDB st1) c h code name kr ->
    commanded_reward (sovereignDB st1) cmds h code name kr).
  { intros c code name kr Hs (s & hash & e & Hin & Hc). exists s, hash, e. auto. }
  assert (Hm : forall c kr, c ⊆ cmds -> commanded_mint (sovereignDB st1) c h kr -> commanded_mint (sovereignDB st1) cmds h kr).
  { intros c kr Hs (s & hash & e & Hin & Hc). exists s, hash, e. auto. }
  assert (Hb : forall c, c ⊆ cmds -> commanded_ban (sovereignDB st1) c -> commanded_ban (sovereignDB st1) cmds).
  { intros c Hs (s & hash & Hin & Hc). exists s, hash. auto. }
  split; [done|]. split; [|split; [|split; [|split; [|split]]]].
  - eapply new_only_trans; [| |exact A2|exact B2]; eauto.
  - eapply new_only_trans; [| |exact A3|exact B3]; eauto.
  - eapply new_only_trans; [| |exact A4|exact B4]; eauto.
  - by etrans.
  - by etrans.
  - intros p Hp. destruct (decide (p ∈ accounts st1 ∖ accounts st2 \/ p ∈ banned st2 ∖ banned st1)) as [H1|H1].
    + destruct (A7 p H1) as (P1 & P2 & P3). split; [done|]. split; [by apply B6|eauto].
    + destruct (B7 p) as (P1 & P2 & P3).
      { destruct (decide (p ∈ accounts st2)) as [D1|D1], (decide (p ∈ banned st2)) as [D2|D2]; set_solver +Hp H1 D1 D2. }
      split; [by apply A5|]. split; [done|eauto].
Qed.

Lemma connect_fluid_authorised uninit st script hash h st' reject :
  connect_fluid uninit st script hash h = Val (st', reject) -> authorised_change [(script, hash)] h st st'.
Proof using HC HP.
  intros H. unfold connect_fluid in H. assert (Hin : (script, hash) ∈ [(script, hash)]) by (by left).
  destruct (TxVerify.protocol script MINT_TX) eqn:P1; [|destruct (TxVerify.protocol script MASTERNODE_MODFIY_TX) eqn:P2;
    [|destruct (TxVerify.protocol script MINING_MODIFY_TX) eqn:P3; [|destruct (TxVerify.protocol script BDAP_REVOKE_TX) eqn:P4]]].
  - res_inv H. destruct (mintDB st) as [db|] eqn:Edb; [|injection H as <- <-; apply authorised_refl].
    res_inv H. destruct x0; injection H as <- <-; [|apply authorised_refl].
    unfold authorised_change. split_and!; try first [done|apply new_only_refl]; [|intros q Hq; cbn in Hq; set_solver +Hq]. cbn. rewrite Edb. apply new_only_put.
    exists script, hash, x. split; [done|]. split; [done|]. split; [done|]. split; [done|]. by apply quorum_signed.
  - res_inv H. destruct (masternodeDB st) as [db|] eqn:Edb; [|injection H as <- <-; apply authorised_refl].
    res_inv H. destruct x0; injection H as <- <-; [|apply authorised_refl].
    unfold authorised_change. split_and!; try first [done|apply new_only_refl]; [|intros q Hq; cbn in Hq; set_solver +Hq]. cbn. rewrite Edb. apply new_only_put.
    exists script, hash, x. split; [done|]. split; [done|]. split; [done|]. split; [done|]. by apply quorum_signed.
  - res_inv H. destruct (miningDB st) as [db|] eqn:Edb; [|injection H as <- <-; apply authorised_refl].
    res_inv H. destruct x0; injection H as <- <-; [|apply authorised_refl].
    unfold authorised_change. split_and!; try first [done|apply new_only_refl]; [|intros q Hq; cbn in Hq; set_solver +Hq]. cbn. rewrite Edb. apply new_only_put.
    exists script, hash, x. split; [done|]. split; [done|]. split; [done|]. split; [done|]. by apply quorum_signed.
  - apply res_bind_Val in H as (q & Eq & H). destruct q; [|injection H as <- <-; apply authorised_refl].
    apply res_bind_Val in H as (paths & Ep & H). destruct paths as [paths|]; [|injection H as <- <-; apply authorised_refl].
    apply res_bind_Val in H as (t & Et & H). injection H as <- <-. destruct t as [t|]; [|apply authorised_refl].
    assert (Hacc : forall p, p ∈ paths -> p ∈ accounts st).
    { unfold CheckAccountBanScript in Ep. apply res_bind_Val in Ep as (v & _ & Ep). destruct (negb _); [done|]. injection Ep as <-.
      intros p Hp. by apply list_elem_of_filter in Hp as [Hp _]. }
    unfold authorised_change. split_and!; try first [done|apply new_only_refl|cbn; set_solver+]. cbn. intros p Hp.
    assert (Hpp : p ∈ paths) by (set_solver +Hp). split; [by apply Hacc|]. split; [set_solver +Hpp|].
    exists script, hash. split; [done|]. split; [done|]. by apply quorum_signed.
  - injection H as <- <-. apply authorised_refl.
Qed.

(** C35: the fluid databases change only by commands of three sovereigns. Whatever
    fluid transactions a block has, and whether it is accepted or rejected on the
    way: the sovereigns stay as they are; every new record of a mining or masternode
    reward or of a mint is the record of a command of its kind in the block, with
    the command's amount, the hash of its transaction and the height of the block;
    an account leaves the directory only into the banned ones, and only when the
    block has a command to revoke; and each of these commands carries, in its first
    three signatures, signatures of three different sovereigns. *)
Theorem fluid_records_authorised uninit txs st h st' reject :
  connect_fluid_txs uninit st txs h = Val (st', reject) -> authorised_change (fluid_commands txs) h st st'.
Proof using HC HP.
  revert st. induction txs as [|[tx hash] txs IH]; intros st Hc; cbn [connect_fluid_txs fluid_commands omap list_omap] in Hc |- *.
  { injection Hc as <- <-. apply authorised_refl. }
  destruct (TxVerify.fluid_script (vout tx)) as [s|]; cbn [fmap option_fmap option_map]; [|by apply IH].
  apply res_bind_Val in Hc as ([st1 r1] & E & Hc). apply connect_fluid_authorised in E.
  assert (S1 : [(s, hash)] ⊆ (s, hash) :: fluid_commands txs) by set_solver+.
  assert (S2 : fluid_commands txs ⊆ (s, hash) :: fluid_commands txs) by set_solver+.
  destruct r1; [injection Hc as <- <-|].
  - eapply (authorised_trans _ []); [exact S1|set_solver+|exact E|apply authorised_refl].
  - eapply authorised_trans; [exact S1|exact S2|exact E|by apply IH].
Qed.

(** A mining command with a signature too many stops the block. The record
    of a command that does not fall into five parts is empty, and the quorum is
    then checked on its empty script: reading the second word of an empty string
    throws [std::out_of_range] out of [ConnectBlock]. *)
Theorem extra_part_throws uninit st db sdb p parts s sigs hash h t ts a :
  miningDB st = Some db -> sovereignDB st = Some sdb -> sAddresses (GetLastFluidSovereignRecord sdb) = t :: ts -> sovereign t a ->
  Forall (fun q => Forall is_byte q /\ free 36 q /\ free 64 q) (p :: parts) ->
  Forall (fun q => Forall is_byte q /\ free 64 q) (s :: sigs) ->
  let tok := join 64 (join 36 (p :: parts) :: s :: sigs) in
  4 < zlen tok < 2 ^ 32 -> length ((p :: parts) ++ s :: sigs) <> 5%nat ->
  connect_fluid uninit st (push_bytes [OP_REWARD_MINING] tok) hash h = OutOfRange.
Proof.
  intros Hdb Hsdb Hadr [Ht1 Ht2] Hp Hs tok Hlen Hne.
  assert (Hin : (OP_REWARD_MINING, str "OP_REWARD_MINING") ∈ fluid_ops) by (right; right; left).
  assert (Hpr : forall code, TxVerify.protocol (push_bytes [OP_REWARD_MINING] tok) code =
    TxVerify.protocol [OP_REWARD_MINING] code).
  { intros code. rewrite push_bytes_app. unfold TxVerify.protocol, IsProtocolInstruction.
    assert (Hz : (zlen ([OP_REWARD_MINING] ++ push_bytes [] tok) >? 0) = true)
      by (apply Z.gtb_lt; unfold zlen; cbn [app length]; lia).
    rewrite Hz. done. }
  unfold connect_fluid. rewrite !Hpr. cbn [TxVerify.protocol].
  change (TxVerify.protocol [OP_REWARD_MINING] MINT_TX) with false.
  change (TxVerify.protocol [OP_REWARD_MINING] MASTERNODE_MODFIY_TX) with false.
  change (TxVerify.protocol [OP_REWARD_MINING] MINING_MODIFY_TX) with true. cbn iota.
  unfold CFluidReward_of, tok. rewrite (command_parts_built _ _ p parts s sigs Hin Hp Hs Hlen). cbn [mbind res_bind].
  assert (He : forall (A : Type) (f : list Z -> list Z -> list Z -> list Z -> list Z -> A) g l, length l <> 5%nat ->
    match l with [x1; x2; x3; x4; x5] => f x1 x2 x3 x4 x5 | _ => g end = g).
  { intros A f g l Hl. destruct l as [|? [|? [|? [|? [|? [|? ?]]]]]]; done. }
  rewrite He by done. cbn [mbind res_bind]. rewrite Hdb.
  unfold CheckSignatureQuorum, GetLastFluidSovereignAddressStrings. rewrite Hsdb. cbn [mbind option_bind]. rewrite Hadr.
  cbn [FluidScript set_height null_reward]. unfold CheckQuorum. cbn [quorum_loop]. rewrite Ht1. cbn [mbind res_bind].
  rewrite Ht2. done.
Qed.

End WellFormed.

(** ** Witnesses *)

Definition toy_command (op : Z) (parts : list (list Z)) (sigs : list Z) : CScript :=
  push_bytes [op] (join 64 (join 36 parts :: ((fun n => EncodeBase64 (toy_key n)) <$> sigs))).

Definition empty_db {A} : fluid_db A := mkDB [] [].

Definition toy_sovereign_db : fluid_db CFluidSovereign :=
  match InitEmpty (CR := toy_crypto) (SV := toy_sovereigns) empty_db with Val db => db | _ => empty_db end.

Definition toy_state : fluid_state :=
  mkFluid (Some empty_db) (Some empty_db) (Some empty_db) (Some toy_sovereign_db) ∅ ∅.

Definition toy_connect (script : CScript) : res (fluid_state * option string) :=
  @connect_fluid toy_crypto main_prefixes toy_recovery 0 toy_state script null_hash 100.

Definition toy_after (script : CScript) : fluid_state :=
  match toy_connect script with Val (st, _) => st | _ => toy_state end.

Definition toy_record (script : CScript) : CFluidReward :=
  match @CFluidReward_of toy_crypto main_prefixes toy_recovery (str "OP_REWARD_MINING") script with Val e => e | _ => null_reward end.

Definition toy_reward : CScript := toy_command OP_REWARD_MINING [str "2.5"; str "1558389600"] [1; 2; 3].
Definition toy_undated : CScript := toy_command OP_REWARD_MINING [str "2.5"; str "9999999999x"] [1; 2; 3].
Definition toy_four : CScript := toy_command OP_REWARD_MINING [str "2.5"; str "1558389600"] [1; 2; 3; 1].

Lemma toy_records_below : records_below 100 empty_db.
Proof. split; [constructor|constructor]. Qed.

Lemma reward_command_takes_effect_witness :
  @connect_fluid toy_crypto main_prefixes toy_recovery 0 toy_state toy_reward null_hash 100 = Val (toy_after toy_reward, None) /\
  Reward (toy_record toy_reward) = 250000000 /\
  GetFluidMiningReward main_rewards (miningDB (toy_after toy_reward)) 102 = Reward (toy_record toy_reward).
Proof.
  assert (H1 : @connect_fluid toy_crypto main_prefixes toy_recovery 0 toy_state toy_reward null_hash 100 =
    Val (toy_after toy_reward, None)) by (vm_compute; reflexivity).
  split; [exact H1|]. split; [vm_compute; reflexivity|].
  assert (H2 : TxVerify.protocol toy_reward MINING_MODIFY_TX = true) by (vm_compute; reflexivity).
  assert (H3 : CFluidReward_of (CR := toy_crypto) (BP := main_prefixes) (PK := toy_recovery) (str "OP_REWARD_MINING") toy_reward =
    Val (toy_record toy_reward)) by (vm_compute; reflexivity).
  assert (H4 : nTimeStamp (toy_record toy_reward) = 1558389600) by (vm_compute; reflexivity).
  assert (H5 : Reward (toy_record toy_reward) = 250000000) by (vm_compute; reflexivity).
  apply (proj1 (@reward_command_takes_effect toy_crypto main_prefixes toy_recovery main_rewards 0 toy_state toy_reward null_hash 100
    empty_db (toy_record toy_reward) (toy_after toy_reward) H2 eq_refl toy_records_below ltac:(lia) H3 ltac:(lia) ltac:(lia)
    (not_elem_of_nil _) H1)); unfold TxVerify.FLUID_ACTIVATE_HEIGHT; lia.
Defined.

Lemma undated_command_disables_rewards_witness :
  @ValidationProcesses toy_crypto main_prefixes toy_recovery toy_sovereigns 0 toy_undated = Val None /\
  CheckFluidOperationScript 0 toy_undated 1600000000 false = Val true /\
  @connect_fluid toy_crypto main_prefixes toy_recovery 0 toy_state toy_undated null_hash 100 = Val (toy_after toy_undated, None) /\
  GetFluidMiningReward main_rewards (miningDB (toy_after toy_undated)) 5000 = GetStandardPoWBlockPayment main_rewards 5000.
Proof.
  assert (H1 : @connect_fluid toy_crypto main_prefixes toy_recovery 0 toy_state toy_undated null_hash 100 =
    Val (toy_after toy_undated, None)) by (vm_compute; reflexivity).
  split; [vm_compute; reflexivity|]. split; [vm_compute; reflexivity|]. split; [exact H1|].
  refine (@undated_command_disables_rewards toy_crypto main_prefixes toy_recovery main_rewards 0 toy_state toy_undated null_hash 100
    empty_db (toy_record toy_undated) (toy_after toy_undated) _ _ _ _ _ H1 5000).
  - vm_compute; reflexivity.
  - reflexivity.
  - constructor.
  - vm_compute; reflexivity.
  - vm_compute; reflexivity.
Defined.

Lemma fluid_records_authorised_witness :
  exists st', connect_fluid_txs (CR := toy_crypto) (BP := main_prefixes) (PK := toy_recovery) 0 toy_state
    [(mkCTransaction 1 [] [mkCTxOut 0 toy_reward 0] 0, null_hash)] 100 = Val (st', None) /\
  map snd (records (miningDB st')) = [set_height (toy_record toy_reward) null_hash 100] /\
  authorised_change (CR := toy_crypto) (BP := main_prefixes) (PK := toy_recovery) [(toy_reward, null_hash)] 100 toy_state st'.
Proof.
  exists (toy_after toy_reward).
  assert (H1 : connect_fluid_txs (CR := toy_crypto) (BP := main_prefixes) (PK := toy_recovery) 0 toy_state
    [(mkCTransaction 1 [] [mkCTxOut 0 toy_reward 0] 0, null_hash)] 100 = Val (toy_after toy_reward, None)) by (vm_compute; reflexivity).
  split; [exact H1|]. split; [vm_compute; reflexivity|].
  exact (@fluid_records_authorised toy_crypto main_prefixes toy_recovery toy_crypto_ok main_prefixes_ok 0 _ toy_state 100 _ _ H1).
Defined.

Lemma mint_command_roundtrip_witness : exists x1 x2 x3,
  CFluidMint_of (CR := toy_crypto) (BP := main_prefixes) (PK := toy_recovery)
    (push_bytes [OP_MINT] (join 64 [join 36 [FormatMoney (300000 * COIN); show_d 1558389600; toy_address 9];
       EncodeBase64 (toy_key 1); EncodeBase64 (toy_key 2); EncodeBase64 (toy_key 3)])) =
  Val (mkMint (ScriptToAsmStr (push_bytes [OP_MINT] (join 64 [join 36 [FormatMoney (300000 * COIN); show_d 1558389600; toy_address 9];
       EncodeBase64 (toy_key 1); EncodeBase64 (toy_key 2); EncodeBase64 (toy_key 3)])))
    (300000 * COIN) (toy_address 9) 1558389600 [x1; x2; x3] null_hash 0).
Proof.
  pose (key n := @Set_dest main_prefixes (Standard.CKeyID (@CHash160 toy_crypto (toy_key n)))).
  destruct (@mint_command_roundtrip toy_crypto main_prefixes toy_recovery toy_crypto_ok main_prefixes_ok
    (300000 * COIN) 1558389600 (toy_address 9) (EncodeBase64 (toy_key 1)) (EncodeBase64 (toy_key 2)) (EncodeBase64 (toy_key 3))
    (key 1) (key 2) (key 3)) as (x1 & x2 & x3 & _ & _ & _ & E).
  - by_decide.
  - lia.
  - by_decide.
  - by_decide.
  - by_decide.
  - by_decide.
  - vm_compute. split; reflexivity.
  - vm_compute. reflexivity.
  - vm_compute. reflexivity.
  - vm_compute. reflexivity.
  - exists x1, x2, x3. exact E.
Defined.

Lemma extra_part_throws_witness :
  @ValidationProcesses toy_crypto main_prefixes toy_recovery toy_sovereigns 0 toy_four = Val None /\
  toy_connect toy_four = OutOfRange.
Proof.
  split; [vm_compute; reflexivity|].
  refine (@extra_part_throws toy_crypto main_prefixes toy_recovery 0 toy_state empty_db toy_sovereign_db (str "2.5") [str "1558389600"]
    (EncodeBase64 (toy_key 1)) [EncodeBase64 (toy_key 2); EncodeBase64 (toy_key 3); EncodeBase64 (toy_key 1)] null_hash 100
    (toy_address 1) [toy_address 2; toy_address 3] (@Set_dest main_prefixes (Standard.CKeyID (@CHash160 toy_crypto (toy_key 1))))
    _ _ _ _ _ _ _ _).
  - reflexivity.
  - reflexivity.
  - vm_compute; reflexivity.
  - split; vm_compute; reflexivity.
  - by_decide.
  - by_decide.
  - vm_compute. split; reflexivity.
  - cbn. lia.
Defined.

End FluidDB.
