(* ===== verification/Spork.v ===== *)
(** * Sporks (spork.h/.cpp, messagesigner.cpp)

    A spork is a switch of the network: a number with a value, signed by one of
    the keys that the node knows.  The manager keeps, per spork and signer, the
    newest message, and takes the value on which enough signers agree.  Clocks,
    the light mode and the presence of a tip are the fields of an environment;
    what the functions send or ask of other components is a list of effects.

    A [std::map] keyed by a hash is a [gmap], walked in the order of [memcmp]. *)

From stdpp Require Import base list list_numbers gmap sorting numbers option strings.
From Stdlib Require Import ZArith Lia.
From S2P Require Import Prelude Serialize Script Transaction Interpreter InterpreterSafety Standard Encodings Decimal FluidToken FluidDB.

Local Open Scope Z_scope.

Module Spork.
Import Serialize Script Interpreter InterpreterSafety Encodings Decimal FluidToken.

(** ** Ordered maps *)

Definition blob_le {A} (a b : list Z * A) : Prop := FluidDB.bytes_lt b.1 a.1 = false.
#[export] Instance blob_le_dec {A} : RelDecision (@blob_le A).
Proof. intros a b. unfold blob_le. apply _. Defined.

Definition int_le {A} (a b : Z * A) : Prop := a.1 <= b.1.
#[export] Instance int_le_dec {A} : RelDecision (@int_le A).
Proof. intros a b. unfold int_le. apply _. Defined.

(** The entries in the order of the iterators. *)
Definition in_order {A} (m : gmap (list Z) A) : list (list Z * A) := merge_sort blob_le (map_to_list m).
Definition int_order {A} (m : gmap Z A) : list (Z * A) := merge_sort int_le (map_to_list m).

(** ** Identifiers and defaults *)

Definition SPORK_2_INSTANTSEND_ENABLED : Z := 10001.
Definition SPORK_3_INSTANTSEND_BLOCK_FILTERING : Z := 10002.
Definition SPORK_5_INSTANTSEND_MAX_VALUE : Z := 10004.
Definition SPORK_6_NEW_SIGS : Z := 10005.
Definition SPORK_8_MASTERNODE_PAYMENT_ENFORCEMENT : Z := 10007.
Definition SPORK_9_SUPERBLOCKS_ENABLED : Z := 10008.
Definition SPORK_10_MASTERNODE_PAY_UPDATED_NODES : Z := 10009.
Definition SPORK_12_RECONSIDER_BLOCKS : Z := 10011.
Definition SPORK_13_OLD_SUPERBLOCK_FLAG : Z := 10012.
Definition SPORK_14_REQUIRE_SENTINEL_FLAG : Z := 10013.
Definition SPORK_15_INSTANTSEND_AUTOLOCKS : Z := 10015.
Definition SPORK_30_ACTIVATE_BDAP : Z := 10030.
Definition SPORK_32_BDAP_V2 : Z := 10032.

Definition mapSporkDefaults : gmap Z Z := list_to_map [
  (SPORK_2_INSTANTSEND_ENABLED, 0);
  (SPORK_3_INSTANTSEND_BLOCK_FILTERING, 0);
  (SPORK_5_INSTANTSEND_MAX_VALUE, 1000);
  (SPORK_6_NEW_SIGS, 4070908800);
  (SPORK_8_MASTERNODE_PAYMENT_ENFORCEMENT, 4070908800);
  (SPORK_9_SUPERBLOCKS_ENABLED, 4070908800);
  (SPORK_10_MASTERNODE_PAY_UPDATED_NODES, 4070908800);
  (SPORK_12_RECONSIDER_BLOCKS, 0);
  (SPORK_14_REQUIRE_SENTINEL_FLAG, 4070908800);
  (SPORK_15_INSTANTSEND_AUTOLOCKS, 4070908800);
  (SPORK_30_ACTIVATE_BDAP, 4070908800);
  (SPORK_32_BDAP_V2, 4070908800)].

Definition spork_names : list (Z * string) := [
  (SPORK_2_INSTANTSEND_ENABLED, "SPORK_2_INSTANTSEND_ENABLED");
  (SPORK_3_INSTANTSEND_BLOCK_FILTERING, "SPORK_3_INSTANTSEND_BLOCK_FILTERING");
  (SPORK_5_INSTANTSEND_MAX_VALUE, "SPORK_5_INSTANTSEND_MAX_VALUE");
  (SPORK_6_NEW_SIGS, "SPORK_6_NEW_SIGS");
  (SPORK_8_MASTERNODE_PAYMENT_ENFORCEMENT, "SPORK_8_MASTERNODE_PAYMENT_ENFORCEMENT");
  (SPORK_9_SUPERBLOCKS_ENABLED, "SPORK_9_SUPERBLOCKS_ENABLED");
  (SPORK_10_MASTERNODE_PAY_UPDATED_NODES, "SPORK_10_MASTERNODE_PAY_UPDATED_NODES");
  (SPORK_12_RECONSIDER_BLOCKS, "SPORK_12_RECONSIDER_BLOCKS");
  (SPORK_13_OLD_SUPERBLOCK_FLAG, "SPORK_13_OLD_SUPERBLOCK_FLAG");
  (SPORK_14_REQUIRE_SENTINEL_FLAG, "SPORK_14_REQUIRE_SENTINEL_FLAG");
  (SPORK_15_INSTANTSEND_AUTOLOCKS, "SPORK_15_INSTANTSEND_AUTOLOCKS");
  (SPORK_30_ACTIVATE_BDAP, "SPORK_30_ACTIVATE_BDAP");
  (SPORK_32_BDAP_V2, "SPORK_32_BDAP_V2")
]%string.

Definition GetSporkNameByID (nSporkID : Z) : string := default "Unknown"%string (assoc nSporkID spork_names).

Definition GetSporkIDByName (strName : string) : Z :=
  match List.find (fun e => String.eqb (snd e) strName) spork_names with Some e => fst e | None => -1 end.

(** ** Messages *)

Record CSporkMessage : Type := mkSpork {
  nSporkID : Z;
  nValue : Z;
  nTimeSigned : Z;
  vchSig : list Z
}.

#[export] Instance CSporkMessage_eq_dec : EqDecision CSporkMessage.
Proof. solve_decision. Defined.

(** A private key, as an object with the operations used of it. *)
Record CKey : Type := mkKey {
  key_IsValid : bool;
  SignCompact : list Z -> option (list Z);
  GetPubKey : list Z
}.

Record CSporkManager : Type := mkManager {
  mapSporksByHash : gmap (list Z) CSporkMessage;
  mapSporksActive : gmap Z (gmap (list Z) CSporkMessage);
  setSporkPubKeyIDs : gset (list Z);
  nMinSporkKeys : Z;
  sporkPrivKey : CKey;
  nTimeExecuted : Z
}.

(** What the functions read of the rest of the node. *)
Record spork_env : Type := mkEnv {
  fLiteMode : bool;
  hasTip : bool;
  adjustedTime : Z;
  getTime : Z
}.

(** What they ask of it. *)
Inductive spork_effect : Type :=
  | Misbehaving (howmuch : Z)
  | RelayInv (hash : list Z)
  | PushSpork (spork : CSporkMessage)
  | ReprocessBlocks (nBlocks : Z).

Section Messages.
Context {CR : Crypto} {PK : PubKeyRecovery}.

Definition signed_fields (m : CSporkMessage) : list Z :=
  Ser c_int32 (nSporkID m) ++ Ser c_int64 (nValue m) ++ Ser c_int64 (nTimeSigned m).

Definition spork_GetHash (m : CSporkMessage) : list Z := CHash256 (signed_fields m ++ Ser c_bytes (vchSig m)).

Definition GetSignatureHash (m : CSporkMessage) : list Z := CHash256 (signed_fields m).

(** The numbers, one after the other. *)
Definition strMessage (m : CSporkMessage) : list Z :=
  show_int (nSporkID m) ++ show_int (nValue m) ++ show_int (nTimeSigned m).

(** The hash of [CMessageSigner]. *)
Definition message_hash (text : list Z) : list Z := CHash256 (Ser c_bytes strMessageMagic ++ Ser c_bytes text).

Definition VerifyHash (hash keyID sig : list Z) : bool :=
  match RecoverCompact hash sig with
  | Some pubkeyFromSig => bool_decide (CHash160 pubkeyFromSig = keyID)
  | None => false
  end.

Definition VerifyMessage (keyID sig text : list Z) : bool := VerifyHash (message_hash text) keyID sig.

Definition CheckSignature (m : CSporkMessage) (pubKeyId : list Z) (fSporkSixActive : bool) : bool :=
  if fSporkSixActive then VerifyHash (GetSignatureHash m) pubKeyId (vchSig m)
  else VerifyMessage pubKeyId (vchSig m) (strMessage m) || VerifyHash (GetSignatureHash m) pubKeyId (vchSig m).

Definition GetSignerKeyID (m : CSporkMessage) (fSporkSixActive : bool) : option (list Z) :=
  pubkeyFromSig ← RecoverCompact (if fSporkSixActive then GetSignatureHash m else message_hash (strMessage m)) (vchSig m);
  Some (CHash160 pubkeyFromSig).

(** The message with its signature; [None] is [false]. *)
Definition Sign (m : CSporkMessage) (key : CKey) (fSporkSixActive : bool) : option CSporkMessage :=
  if negb (key_IsValid key) then None
  else
    let hash := if fSporkSixActive then GetSignatureHash m else message_hash (strMessage m) in
    sig ← SignCompact key hash;
    if VerifyHash hash (CHash160 (GetPubKey key)) sig then Some (mkSpork (nSporkID m) (nValue m) (nTimeSigned m) sig) else None.

(** ** The manager *)

(** The loop of [SporkValueIsActive], with the counts of the values so far. *)
Fixpoint count_values (min : Z) (es : list (list Z * CSporkMessage)) (mapValueCounts : gmap Z Z) : option Z :=
  match es with
  | [] => None
  | (_, m) :: es =>
      let c := default 0 (mapValueCounts !! nValue m) + 1 in
      if min <=? c then Some (nValue m) else count_values min es (<[nValue m := c]> mapValueCounts)
  end.

Definition SporkValueIsActive (st : CSporkManager) (id : Z) : option Z :=
  inner ← mapSporksActive st !! id; count_values (nMinSporkKeys st) (in_order inner) ∅.

Definition IsSporkActive (st : CSporkManager) (now : Z) (id : Z) : bool :=
  match SporkValueIsActive st id with
  | Some nSporkValue => nSporkValue <? now
  | None => match mapSporkDefaults !! id with Some v => v <? now | None => false end
  end.

Definition GetSporkValue (st : CSporkManager) (id : Z) : Z :=
  match SporkValueIsActive st id with
  | Some nSporkValue => nSporkValue
  | None => default (-1) (mapSporkDefaults !! id)
  end.

Definition set_sporks (st : CSporkManager) byHash active : CSporkManager :=
  mkManager byHash active (setSporkPubKeyIDs st) (nMinSporkKeys st) (sporkPrivKey st) (nTimeExecuted st).

Definition Clear (st : CSporkManager) : CSporkManager := set_sporks st ∅ ∅.

(** [mapSporksByHash[hash] = spork; mapSporksActive[id][signer] = spork]. *)
Definition record_spork (st : CSporkManager) (keyIDSigner : list Z) (m : CSporkMessage) : CSporkManager :=
  set_sporks st (<[spork_GetHash m := m]> (mapSporksByHash st))
    (<[nSporkID m := <[keyIDSigner := m]> (default ∅ (mapSporksActive st !! nSporkID m))]> (mapSporksActive st)).

(** [ExecuteSpork], with its static variable and [int nValue]. *)
Definition ExecuteSpork (env : spork_env) (st : CSporkManager) (id value : Z) : CSporkManager * list spork_effect :=
  if (id =? SPORK_12_RECONSIDER_BLOCKS) && (0 <? value) then
    let nMaxBlocks := 144 in
    let nTimeout := 10 * 60 in
    if getTime env - nTimeExecuted st <? nTimeout then (st, [])
    else if nMaxBlocks <? value then (st, [])
    else (mkManager (mapSporksByHash st) (mapSporksActive st) (setSporkPubKeyIDs st) (nMinSporkKeys st) (sporkPrivKey st)
            (getTime env), [ReprocessBlocks value])
  else (st, []).

(** The signer, recovered in one format. *)
Definition known_signer (st : CSporkManager) (m : CSporkMessage) (six : bool) : option (list Z) :=
  k ← GetSignerKeyID m six; if decide (k ∈ setSporkPubKeyIDs st) then Some k else None.

(** The signer in the current format, else in the other one. *)
Definition resolve_signer (st : CSporkManager) (m : CSporkMessage) (six : bool) : option (list Z) :=
  match known_signer st m six with Some k => Some k | None => known_signer st m (negb six) end.

(** Whether a message of the same signer is as new. *)
Definition seen (st : CSporkManager) (keyIDSigner : list Z) (m : CSporkMessage) : bool :=
  match mapSporksActive st !! nSporkID m ≫= (fun inner => inner !! keyIDSigner) with
  | Some old => nTimeSigned m <=? nTimeSigned old
  | None => false
  end.

(** [ProcessSpork] for "spork". *)
Definition ProcessSpork (env : spork_env) (st : CSporkManager) (spork : CSporkMessage) : CSporkManager * list spork_effect :=
  if fLiteMode env then (st, [])
  else if negb (hasTip env) then (st, [])
  else
    let fSpork6IsActive := IsSporkActive st (adjustedTime env) SPORK_6_NEW_SIGS in
    match resolve_signer st spork fSpork6IsActive with
    | None => (st, [Misbehaving 100])
    | Some keyIDSigner =>
        if seen st keyIDSigner spork then (st, [])
        else
          let st := record_spork st keyIDSigner spork in
          match SporkValueIsActive st (nSporkID spork) with
          | Some nActiveValue =>
              let '(st, es) := ExecuteSpork env st (nSporkID spork) (i32 nActiveValue) in
              (st, RelayInv (spork_GetHash spork) :: es)
          | None => (st, [RelayInv (spork_GetHash spork)])
          end
    end.

(** [ProcessSpork] for "getsporks". *)
Definition GetSporks (env : spork_env) (st : CSporkManager) : list spork_effect :=
  if fLiteMode env then []
  else p ← int_order (mapSporksActive st); (fun e => PushSpork (snd e)) <$> in_order (snd p).

Definition UpdateSpork (env : spork_env) (st : CSporkManager) (id value : Z) : CSporkManager * list spork_effect * bool :=
  let fSpork6IsActive := IsSporkActive st (adjustedTime env) SPORK_6_NEW_SIGS in
  match Sign (mkSpork id value (adjustedTime env) []) (sporkPrivKey st) fSpork6IsActive with
  | Some spork =>
      match known_signer st spork fSpork6IsActive with
      | None => (st, [], false)
      | Some keyIDSigner => (record_spork st keyIDSigner spork, [RelayInv (spork_GetHash spork)], true)
      end
  | None => (st, [], false)
  end.

Definition SetMinSporkKeys (st : CSporkManager) (minSporkKeys : Z) : CSporkManager * bool :=
  let maxKeysNumber := Z.of_nat (size (setSporkPubKeyIDs st)) in
  if (minSporkKeys <=? maxKeysNumber / 2) || (maxKeysNumber <? minSporkKeys) then (st, false)
  else (mkManager (mapSporksByHash st) (mapSporksActive st) (setSporkPubKeyIDs st) minSporkKeys (sporkPrivKey st) (nTimeExecuted st), true).

Definition GetSporkByHash (st : CSporkManager) (hash : list Z) : option CSporkMessage := mapSporksByHash st !! hash.

(** [SetPrivKey]; the reading of a secret is [CMessageSigner::GetKeysFromSecret]. *)
Definition SetPrivKey (GetKeysFromSecret : list Z -> option CKey) (st : CSporkManager) (now : Z) (strPrivKey : list Z)
  : CSporkManager * bool :=
  match GetKeysFromSecret strPrivKey with
  | None => (st, false)
  | Some key =>
      if decide (CHash160 (GetPubKey key) ∈ setSporkPubKeyIDs st) then
        match Sign (mkSpork 0 0 0 []) key (IsSporkActive st now SPORK_6_NEW_SIGS) with
        | Some _ => (mkManager (mapSporksByHash st) (mapSporksActive st) (setSporkPubKeyIDs st) (nMinSporkKeys st) key (nTimeExecuted st), true)
        | None => (st, false)
        end
      else (st, false)
  end.

Context {BP : Base58Prefix}.

(** [SetSporkAddress]: the [res] is the assertion of the decoding of base 58. *)
Definition SetSporkAddress (st : CSporkManager) (strAddress : list Z) : res (CSporkManager * bool) :=
  address ← CDebitAddress strAddress;
  if Address_IsValid address && bool_decide (vchVersion address = PUBKEY_ADDRESS) then
    Val (mkManager (mapSporksByHash st) (mapSporksActive st) ({[vchData address]} ∪ setSporkPubKeyIDs st)
           (nMinSporkKeys st) (sporkPrivKey st) (nTimeExecuted st), true)
  else Val (st, false).

(** ** The check of a restored cache *)

(** The inner loop of [CheckAndRemove]; for an unknown signer [continue] leaves
    the iterator where it is.  [None]: the fuel ran out. *)
Fixpoint remove_signers (fuel : nat) (keys : gset (list Z)) (todo : list (list Z * CSporkMessage))
  (inner byHash : gmap (list Z) CSporkMessage) : option (gmap (list Z) CSporkMessage * gmap (list Z) CSporkMessage) :=
  match fuel with
  | O => None
  | S fuel =>
      match todo with
      | [] => Some (inner, byHash)
      | (k, m) :: rest =>
          if decide (k ∈ keys) then
            if CheckSignature m k false || CheckSignature m k true then remove_signers fuel keys rest inner byHash
            else remove_signers fuel keys rest (delete k inner) (delete (spork_GetHash m) byHash)
          else remove_signers fuel keys todo inner (delete (spork_GetHash m) byHash)
      end
  end.

Fixpoint remove_sporks (fuel : nat) (keys : gset (list Z)) (todo : list (Z * gmap (list Z) CSporkMessage))
  (active : gmap Z (gmap (list Z) CSporkMessage)) (byHash : gmap (list Z) CSporkMessage)
  : option (gmap Z (gmap (list Z) CSporkMessage) * gmap (list Z) CSporkMessage) :=
  match todo with
  | [] => Some (active, byHash)
  | (id, inner) :: rest =>
      '(inner, byHash) ← remove_signers fuel keys (in_order inner) inner byHash;
      remove_sporks fuel keys rest (if decide (inner = ∅) then delete id active else <[id := inner]> active) byHash
  end.

Definition CheckAndRemove (fuel : nat) (st : CSporkManager) : option (res CSporkManager) :=
  if decide (setSporkPubKeyIDs st = ∅) then Some BadAssert
  else
    '(active, byHash) ← remove_sporks fuel (setSporkPubKeyIDs st) (int_order (mapSporksActive st)) (mapSporksActive st) (mapSporksByHash st);
    let found (m : CSporkMessage) :=
      existsb (fun signer => CheckSignature m signer false || CheckSignature m signer true) (elements (setSporkPubKeyIDs st)) in
    Some (Val (set_sporks st (filter (fun e => found e.2 = true) byHash) active)).

End Messages.

(** ** Agreement *)

(** The newest message of a signer. *)
Definition active_message (st : CSporkManager) (id : Z) (k : list Z) : option CSporkMessage :=
  mapSporksActive st !! id ≫= (fun inner => inner !! k).

(** The signers of a value among some entries. *)
Definition voters (v : Z) (es : list (list Z * CSporkMessage)) : list (list Z) := (filter (fun e => nValue e.2 = v) es).*1.

Lemma voters_cons v k m es : voters v ((k, m) :: es) = if decide (nValue m = v) then k :: voters v es else voters v es.
Proof. unfold voters. rewrite filter_cons. cbn [snd]. by case_decide. Qed.

Lemma count_values_spec min es : forall counts,
  match count_values min es counts with
  | Some v => min <= default 0 (counts !! v) + zlen (voters v es)
  | None => forall v, voters v es <> [] -> default 0 (counts !! v) + zlen (voters v es) < min
  end.
Proof.
  induction es as [|[k m] es IH]; intros counts; cbn [count_values]; [done|].
  destruct (_ <=? _) eqn:El.
  { rewrite voters_cons, decide_True by done. unfold zlen. cbn [length]. lia. }
  specialize (IH (<[nValue m := default 0 (counts !! nValue m) + 1]> counts)).
  assert (Hv : forall v, default 0 (<[nValue m := default 0 (counts !! nValue m) + 1]> counts !! v) + zlen (voters v es) =
    default 0 (counts !! v) + zlen (voters v ((k, m) :: es))).
  { intros v. rewrite voters_cons. destruct (decide (nValue m = v)) as [->|Hne].
    - rewrite lookup_insert_eq. unfold zlen. cbn [length default from_option id]. lia.
    - rewrite lookup_insert_ne by done. done. }
  destruct (count_values _ _ _) as [v|]; [by rewrite <- Hv|].
  intros v Hne. rewrite <- Hv. destruct (decide (voters v es = [])) as [Ev|Ev]; [|by apply IH].
  rewrite voters_cons, Ev in Hne. destruct (decide (nValue m = v)) as [<-|]; [|done].
  rewrite Ev, lookup_insert_eq. unfold zlen. cbn [default from_option id length]. lia.
Qed.

Lemma in_order_perm {A} (m : gmap (list Z) A) : in_order m ≡ₚ map_to_list m.
Proof. apply merge_sort_Permutation. Qed.

Lemma in_order_lookup {A} (m : gmap (list Z) A) k x : (k, x) ∈ in_order m <-> m !! k = Some x.
Proof. rewrite in_order_perm. apply elem_of_map_to_list. Qed.

Lemma in_order_keys {A} (m : gmap (list Z) A) : NoDup (in_order m).*1.
Proof. rewrite in_order_perm. apply NoDup_fst_map_to_list. Qed.

Lemma voters_NoDup v es : NoDup es.*1 -> NoDup (voters v es).
Proof.
  intros H. induction es as [|[k m] es IH]; [constructor|]. rewrite fmap_cons in H. apply list.NoDup_cons in H as [H1 H2].
  rewrite voters_cons. destruct (decide _); [|auto]. apply list.NoDup_cons. split; [|auto].
  intros Hin. apply H1. unfold voters in Hin. apply list_elem_of_fmap in Hin as ([k' m'] & -> & Hin).
  apply list_elem_of_filter in Hin as [_ Hin]. apply list_elem_of_fmap. exists (k', m'). done.
Qed.

Lemma voters_in v inner k : k ∈ voters v (in_order inner) <-> exists m, inner !! k = Some m /\ nValue m = v.
Proof.
  unfold voters. rewrite list_elem_of_fmap. split.
  - intros ([k' m] & -> & Hin). apply list_elem_of_filter in Hin as [Hv Hin]. apply in_order_lookup in Hin. eauto.
  - intros (m & Hm & Hv). exists (k, m). split; [done|]. apply list_elem_of_filter. split; [done|]. by apply in_order_lookup.
Qed.

(** Signers of two values are different signers. *)
Lemma voters_disjoint v w (es : list (list Z * CSporkMessage)) : v <> w -> zlen (voters v es) + zlen (voters w es) <= zlen es.
Proof.
  intros Hne. unfold zlen. induction es as [|[k m] es IH]; [done|]. rewrite !voters_cons.
  destruct (decide _), (decide _); cbn [length]; [congruence|lia..].
Qed.

Lemma SporkValueIsActive_spec st id v inner :
  mapSporksActive st !! id = Some inner -> 0 < nMinSporkKeys st -> Z.of_nat (size inner) < 2 * nMinSporkKeys st ->
  SporkValueIsActive st id = Some v <-> nMinSporkKeys st <= zlen (voters v (in_order inner)).
Proof.
  intros Hi Hmin Hsz. unfold SporkValueIsActive. rewrite Hi. cbn [mbind option_bind].
  assert (Hlen : zlen (in_order inner) = Z.of_nat (size inner)).
  { unfold zlen. rewrite in_order_perm, length_map_to_list. done. }
  pose proof (count_values_spec (nMinSporkKeys st) (in_order inner) ∅) as H.
  destruct (count_values _ _ _) as [w|].
  - rewrite lookup_empty in H. change (default 0 None) with 0 in H. split; [intros [= ->]; lia|]. intros Hv.
    destruct (decide (v = w)) as [->|Hne]; [done|]. pose proof (voters_disjoint v w (in_order inner) Hne). lia.
  - split; [done|]. intros Hv. specialize (H v). rewrite lookup_empty in H. change (default 0 None) with 0 in H.
    destruct (voters v (in_order inner)) as [|x l] eqn:E; [unfold zlen in Hv; cbn in Hv; lia|]. specialize (H ltac:(done)). lia.
Qed.

Section Manager.
Context {CR : Crypto} {PK : PubKeyRecovery}.

Lemma active_record st k m id' k' :
  active_message (record_spork st k m) id' k' = if decide (id' = nSporkID m /\ k' = k) then Some m else active_message st id' k'.
Proof.
  unfold active_message, record_spork, set_sporks. cbn [mapSporksActive].
  destruct (decide (id' = nSporkID m)) as [->|Hne].
  - rewrite lookup_insert_eq. cbn [mbind option_bind]. destruct (decide (k' = k)) as [->|Hk].
    + rewrite lookup_insert_eq, decide_True by done. done.
    + rewrite lookup_insert_ne, decide_False by (done || tauto). destruct (mapSporksActive st !! nSporkID m); done.
  - rewrite lookup_insert_ne, decide_False by (done || tauto). done.
Qed.

(** What a message does to the active sporks. *)
Definition processed (env : spork_env) (st : CSporkManager) (m : CSporkMessage) : option (list Z) :=
  if fLiteMode env || negb (hasTip env) then None
  else k ← resolve_signer st m (IsSporkActive st (adjustedTime env) SPORK_6_NEW_SIGS); if seen st k m then None else Some k.

Lemma ProcessSpork_spec env st m (st' := (ProcessSpork env st m).1) :
  setSporkPubKeyIDs st' = setSporkPubKeyIDs st /\ nMinSporkKeys st' = nMinSporkKeys st /\
  mapSporksActive st' = match processed env st m with Some k => mapSporksActive (record_spork st k m) | None => mapSporksActive st end.
Proof.
  subst st'. unfold ProcessSpork, processed. destruct (fLiteMode env); [done|]. destruct (hasTip env); [|done]. cbn [negb orb].
  destruct (resolve_signer _ _ _) as [k|]; [|done]. cbn [mbind option_bind]. destruct (seen st k m); [done|].
  destruct (SporkValueIsActive _ _); [|done]. unfold ExecuteSpork. by repeat case_match; simplify_eq.
Qed.

(** Each active message was signed by a known key, for its own number. *)
Definition authentic (st : CSporkManager) : Prop := forall id' k m, active_message st id' k = Some m ->
  k ∈ setSporkPubKeyIDs st /\ nSporkID m = id' /\ exists six, GetSignerKeyID m six = Some k.

Lemma known_signer_inv st m six k : known_signer st m six = Some k -> k ∈ setSporkPubKeyIDs st /\ GetSignerKeyID m six = Some k.
Proof.
  unfold known_signer. destruct (GetSignerKeyID m six) as [k'|]; [|done]. cbn [mbind option_bind].
  case_decide; [|done]. intros [= ->]. done.
Qed.

Lemma resolve_signer_inv st m six k : resolve_signer st m six = Some k ->
  k ∈ setSporkPubKeyIDs st /\ exists six', GetSignerKeyID m six' = Some k.
Proof.
  unfold resolve_signer. destruct (known_signer st m six) as [k'|] eqn:E.
  - intros [= ->]. apply known_signer_inv in E as [H1 H2]. eauto.
  - intros H. apply known_signer_inv in H as [H1 H2]. eauto.
Qed.

Lemma authentic_record st k m : authentic st -> k ∈ setSporkPubKeyIDs st -> (exists six, GetSignerKeyID m six = Some k) ->
  authentic (record_spork st k m).
Proof.
  intros Ha Hk Hs id' k' m'. rewrite active_record. case_decide as Hd; [|apply Ha].
  destruct Hd as [-> ->]. intros [= <-]. done.
Qed.

(** A signature that is valid in the new format is valid in the old one. *)
Lemma CheckSignature_either m k : CheckSignature m k false || CheckSignature m k true = CheckSignature m k false.
Proof. unfold CheckSignature. destruct (VerifyMessage _ _ _), (VerifyHash _ _ _); done. Qed.

Definition entry_ok (e : list Z * CSporkMessage) : Prop := CheckSignature e.2 e.1 false = true.

#[local] Instance entry_ok_dec e : Decision (entry_ok e).
Proof. unfold entry_ok. apply _. Defined.

(** The entries that a complete walk removes. *)
Fixpoint purge (todo : list (list Z * CSporkMessage)) (inner : gmap (list Z) CSporkMessage) : gmap (list Z) CSporkMessage :=
  match todo with
  | [] => inner
  | e :: todo => purge todo (if decide (entry_ok e) then inner else delete e.1 inner)
  end.

Lemma purge_other todo k : forall inner, k ∉ todo.*1 -> purge todo inner !! k = inner !! k.
Proof.
  induction todo as [|e todo IH]; intros inner Hk; [done|]. rewrite fmap_cons, not_elem_of_cons in Hk. destruct Hk as [Hk1 Hk2].
  cbn [purge]. rewrite IH by done. case_decide; [done|]. by apply lookup_delete_ne.
Qed.

Lemma purge_in todo k m : NoDup todo.*1 -> (k, m) ∈ todo -> forall inner,
  purge todo inner !! k = if decide (entry_ok (k, m)) then inner !! k else None.
Proof.
  induction todo as [|e todo IH]; intros Hn Hin inner; [by apply elem_of_nil in Hin|]. rewrite fmap_cons in Hn.
  apply list.NoDup_cons in Hn as [Hn1 Hn2]. cbn [purge]. apply elem_of_cons in Hin as [Heq|Hin].
  - subst e. cbn [fst] in *. rewrite purge_other by done. case_decide; [done|]. by rewrite lookup_delete_eq.
  - rewrite IH by done. case_decide; [|done]. case_decide; [done|]. apply lookup_delete_ne. intros He.
    apply Hn1. rewrite He. apply list_elem_of_fmap. exists (k, m). done.
Qed.

Lemma purge_all inner : purge (in_order inner) inner = filter entry_ok inner.
Proof.
  apply map_eq. intros k. destruct (inner !! k) as [m|] eqn:E.
  - rewrite (purge_in _ k m (in_order_keys inner)) by by apply in_order_lookup. case_decide as Hd.
    + rewrite E. symmetry. apply map_lookup_filter_Some. done.
    + symmetry. apply map_lookup_filter_None. right. intros m' Hm. congruence.
  - rewrite purge_other.
    + rewrite E. symmetry. apply map_lookup_filter_None. by left.
    + intros Hin. apply list_elem_of_fmap in Hin as ([k' m'] & -> & Hin). apply in_order_lookup in Hin. cbn in E. congruence.
Qed.

(** The inner loop ends only when every signer is known, and then has removed
    the entries without a valid signature; a step per entry is enough. *)
Lemma remove_signers_spec keys todo : forall fuel inner byHash,
  match remove_signers fuel keys todo inner byHash with
  | Some (inner', _) => Forall (fun k => k ∈ keys) todo.*1 /\ inner' = purge todo inner
  | None => Forall (fun k => k ∈ keys) todo.*1 -> (fuel <= length todo)%nat
  end.
Proof.
  intros fuel. revert todo. induction fuel as [|fuel IH]; intros todo inner byHash; [cbn; lia|].
  cbn [remove_signers]. destruct todo as [|[k m] todo]; [done|]. rewrite CheckSignature_either, fmap_cons. cbn [fst purge length].
  destruct (decide (k ∈ keys)) as [Hk|Hk].
  - destruct (CheckSignature m k false) eqn:Es.
    + rewrite (decide_True (P := entry_ok (k, m))) by done. specialize (IH todo inner byHash).
      destruct (remove_signers _ _ _ _ _) as [[i' b']|]; [destruct IH; split; [by constructor|done]|].
      intros [_ H]%Forall_cons_iff. specialize (IH H). lia.
    + rewrite (decide_False (P := entry_ok (k, m))) by (unfold entry_ok; cbn [fst snd]; by rewrite Es).
      specialize (IH todo (delete k inner) (delete (spork_GetHash m) byHash)).
      destruct (remove_signers _ _ _ _ _) as [[i' b']|]; [destruct IH; split; [by constructor|done]|].
      intros [_ H]%Forall_cons_iff. specialize (IH H). lia.
  - specialize (IH ((k, m) :: todo) inner (delete (spork_GetHash m) byHash)).
    destruct (remove_signers _ _ _ _ _) as [[i' b']|]; [destruct IH as [IH _]|intros IH'; clear IH; rename IH' into IH];
      rewrite ?fmap_cons in IH; apply Forall_cons_iff in IH as [IH _]; done.
Qed.

Definition all_known (keys : gset (list Z)) (inner : gmap (list Z) CSporkMessage) : Prop :=
  Forall (fun k => k ∈ keys) (in_order inner).*1.

Lemma all_known_lookup keys inner : all_known keys inner <-> forall k m, inner !! k = Some m -> k ∈ keys.
Proof.
  unfold all_known. rewrite Forall_fmap, Forall_forall. split.
  - intros H k m Hm. apply in_order_lookup in Hm. apply (H (k, m) Hm).
  - intros H [k m] Hin. apply in_order_lookup in Hin. by apply (H k m).
Qed.

(** The entry of a spork after the walk. *)
Definition purged (inner : gmap (list Z) CSporkMessage) : option (gmap (list Z) CSporkMessage) :=
  if decide (filter entry_ok inner = ∅) then None else Some (filter entry_ok inner).

Lemma remove_sporks_spec fuel keys todo : forall active byHash, NoDup todo.*1 ->
  match remove_sporks fuel keys todo active byHash with
  | Some (active', _) => (forall i inner, (i, inner) ∈ todo -> all_known keys inner /\ active' !! i = purged inner) /\
      forall i, i ∉ todo.*1 -> active' !! i = active !! i
  | None => (forall i inner, (i, inner) ∈ todo -> all_known keys inner) ->
      exists i inner, (i, inner) ∈ todo /\ (fuel <= size inner)%nat
  end.
Proof.
  induction todo as [|[i inner] todo IH]; intros active byHash Hn; cbn [remove_sporks].
  { split; [|done]. intros i inner Hin. by apply elem_of_nil in Hin. }
  rewrite fmap_cons in Hn. apply list.NoDup_cons in Hn as [Hi Hn].
  pose proof (remove_signers_spec keys (in_order inner) fuel inner byHash) as Hs.
  destruct (remove_signers _ _ _ _ _) as [[inner' byHash']|]; cbn [mbind option_bind].
  - destruct Hs as [Hk ->]. rewrite purge_all. set (active1 := if decide _ then _ else _).
    specialize (IH active1 byHash' Hn). destruct (remove_sporks _ _ _ _ _) as [[active' byHash'']|].
    + destruct IH as [IH1 IH2]. split.
      * intros j inner1 [[= -> ->]|Hin]%elem_of_cons; [|by apply IH1]. split; [done|]. rewrite IH2 by done.
        subst active1. unfold purged. case_decide; [apply lookup_delete_eq|apply lookup_insert_eq].
      * intros j Hj. rewrite fmap_cons, not_elem_of_cons in Hj. destruct Hj as [Hj1 Hj2]. rewrite IH2 by done.
        subst active1. case_decide; [by apply lookup_delete_ne|by apply lookup_insert_ne].
    + intros Hall. destruct IH as (j & inner1 & Hin & Hf); [|exists j, inner1; split; [by right|done]].
      intros j inner1 Hin. apply (Hall j). by right.
  - intros Hall. exists i, inner. split; [by left|]. specialize (Hs (Hall i inner ltac:(by left))).
    rewrite in_order_perm, length_map_to_list in Hs. done.
Qed.

Lemma int_order_lookup {A} (m : gmap Z A) i x : (i, x) ∈ int_order m <-> m !! i = Some x.
Proof. unfold int_order. rewrite merge_sort_Permutation. apply elem_of_map_to_list. Qed.

Lemma int_order_keys {A} (m : gmap Z A) : NoDup (int_order m).*1.
Proof. unfold int_order. rewrite merge_sort_Permutation. apply NoDup_fst_map_to_list. Qed.

(** The entries of the sporks after a complete check. *)
Lemma CheckAndRemove_spec fuel st : setSporkPubKeyIDs st <> ∅ ->
  match CheckAndRemove fuel st with
  | Some (Val st') => (forall i inner, mapSporksActive st !! i = Some inner -> all_known (setSporkPubKeyIDs st) inner) /\
      setSporkPubKeyIDs st' = setSporkPubKeyIDs st /\ nMinSporkKeys st' = nMinSporkKeys st /\
      forall i, mapSporksActive st' !! i = mapSporksActive st !! i ≫= purged
  | Some _ => False
  | None => (forall i inner, mapSporksActive st !! i = Some inner -> all_known (setSporkPubKeyIDs st) inner) ->
      exists i inner, mapSporksActive st !! i = Some inner /\ (fuel <= size inner)%nat
  end.
Proof.
  intros Hne. unfold CheckAndRemove. rewrite decide_False by done.
  pose proof (remove_sporks_spec fuel (setSporkPubKeyIDs st) (int_order (mapSporksActive st)) (mapSporksActive st)
    (mapSporksByHash st) (int_order_keys _)) as H.
  destruct (remove_sporks _ _ _ _ _) as [[active' byHash']|]; cbn [mbind option_bind].
  - destruct H as [H1 H2]. split; [intros i inner Hi; apply (H1 i), int_order_lookup, Hi|]. split; [done|]. split; [done|].
    intros i. cbn [set_sporks mapSporksActive]. destruct (mapSporksActive st !! i) as [inner|] eqn:E.
    + apply (H1 i), int_order_lookup, E.
    + rewrite H2; [done|]. intros Hin. apply list_elem_of_fmap in Hin as ([j inner] & -> & Hin).
      apply int_order_lookup in Hin. cbn in E. congruence.
  - intros Hall. destruct H as (i & inner & Hin & Hf).
    + intros i inner Hin. by apply (Hall i), int_order_lookup.
    + exists i, inner. split; [by apply int_order_lookup|done].
Qed.

Lemma purged_lookup inner k : purged inner ≫= (fun inner => inner !! k) =
  m ← inner !! k; if CheckSignature m k false then Some m else None.
Proof.
  assert (H : filter entry_ok inner !! k = m ← inner !! k; if CheckSignature m k false then Some m else None).
  { rewrite map_lookup_filter. destruct (inner !! k) as [m|]; [|done]. cbn [mbind option_bind].
    destruct (CheckSignature m k false) eqn:Es.
    - rewrite option_guard_True; [done|]. done.
    - rewrite option_guard_False; [done|]. unfold entry_ok. cbn [fst snd]. by rewrite Es. }
  unfold purged. case_decide as Hd; cbn [mbind option_bind]; [|done]. by rewrite <- H, Hd, lookup_empty.
Qed.

(** The check of a restored cache ends exactly when the cache is harmless.
    With keys set, [CheckAndRemove] returns if and only if every active spork was
    signed by a key that is still configured; then it leaves exactly the sporks
    whose signature is valid. One signer that is no longer configured, and the
    loop never ends. *)
Theorem CheckAndRemove_terminates st : setSporkPubKeyIDs st <> ∅ ->
  ((forall i k m, active_message st i k = Some m -> k ∈ setSporkPubKeyIDs st) ->
   exists fuel st', CheckAndRemove fuel st = Some (Val st') /\
     forall i k, active_message st' i k = m ← active_message st i k; if CheckSignature m k false then Some m else None) /\
  (forall i k m, active_message st i k = Some m -> k ∉ setSporkPubKeyIDs st -> forall fuel, CheckAndRemove fuel st = None).
Proof.
  intros Hne. split.
  - intros Hall. exists (S (max_list (size <$> (int_order (mapSporksActive st)).*2))).
    pose proof (CheckAndRemove_spec (S (max_list (size <$> (int_order (mapSporksActive st)).*2))) st Hne) as H.
    assert (Hk : forall i inner, mapSporksActive st !! i = Some inner -> all_known (setSporkPubKeyIDs st) inner).
    { intros i inner Hi. apply all_known_lookup. intros k m Hm. apply (Hall i k m). unfold active_message. by rewrite Hi. }
    destruct (CheckAndRemove _ _) as [[st'| | |]|]; [|done..|].
    + destruct H as (_ & _ & _ & H). exists st'. split; [done|]. intros i k. unfold active_message. rewrite H.
      destruct (mapSporksActive st !! i) as [inner|]; [|done]. cbn [mbind option_bind]. apply purged_lookup.
    + destruct (H Hk) as (i & inner & Hi & Hf). exfalso.
      assert (Hm : (size inner <= max_list (size <$> (int_order (mapSporksActive st)).*2))%nat); [|lia].
      apply max_list_elem_of_le. apply list_elem_of_fmap. exists inner. split; [done|].
      apply list_elem_of_fmap. exists (i, inner). split; [done|]. by apply int_order_lookup.
  - intros i k m Hm Hk fuel. pose proof (CheckAndRemove_spec fuel st Hne) as H.
    destruct (CheckAndRemove fuel st) as [[st'| | |]|]; [|done..]. exfalso. destruct H as [H _].
    unfold active_message in Hm. destruct (mapSporksActive st !! i) as [inner|] eqn:Hi; [|done].
    apply Hk. specialize (H i inner Hi). rewrite all_known_lookup in H. by apply (H k m).
Qed.

(** ** Runs of the manager *)

Inductive spork_step : CSporkManager -> CSporkManager -> Prop :=
  | step_process env st m : spork_step st (ProcessSpork env st m).1
  | step_update env st i v : spork_step st (UpdateSpork env st i v).1.1
  | step_clear st : spork_step st (Clear st)
  | step_key secrets st now s : spork_step st (SetPrivKey secrets st now s).1
  | step_check fuel st st' : CheckAndRemove fuel st = Some (Val st') -> spork_step st st'.

(** What every step keeps. *)
Definition spork_inv (keys : gset (list Z)) (min : Z) (st : CSporkManager) : Prop :=
  setSporkPubKeyIDs st = keys /\ nMinSporkKeys st = min /\ authentic st.

Lemma authentic_same st st' : setSporkPubKeyIDs st' = setSporkPubKeyIDs st -> mapSporksActive st' = mapSporksActive st ->
  authentic st -> authentic st'.
Proof. intros H1 H2 H i k m. unfold active_message. rewrite H1, H2. apply H. Qed.

Lemma spork_step_inv keys min st st' : spork_step st st' -> spork_inv keys min st -> spork_inv keys min st'.
Proof.
  intros Hstep (H1 & H2 & H3). destruct Hstep as [env st m|env st i v|st|secrets st now s|fuel st st' Hc].
  - destruct (ProcessSpork_spec env st m) as (E1 & E2 & E3). split; [congruence|]. split; [congruence|].
    unfold processed in E3. destruct (_ || _); [by apply (authentic_same st)|].
    destruct (resolve_signer _ _ _) as [k|] eqn:Er; [|by apply (authentic_same st)]. cbn [mbind option_bind] in E3.
    destruct (seen st k m); [by apply (authentic_same st)|]. apply resolve_signer_inv in Er as [Hk Hs].
    apply (authentic_same (record_spork st k m)); [done|done|]. by apply authentic_record.
  - unfold UpdateSpork. destruct (Sign _ _ _) as [m|]; [|done].
    destruct (known_signer _ _ _) as [k|] eqn:Ek; [|done]. apply known_signer_inv in Ek as [Hk Hs].
    split; [done|]. split; [done|]. apply authentic_record; eauto.
  - split; [done|]. split; [done|]. intros i k m. unfold active_message. cbn. by rewrite lookup_empty.
  - unfold SetPrivKey. destruct (secrets s) as [key|]; [|done]. destruct (decide _); [|done]. destruct (Sign _ _ _); [|done].
    split; [done|]. split; [done|]. by apply (authentic_same st).
  - assert (Hne : setSporkPubKeyIDs st <> ∅) by (intros He; unfold CheckAndRemove in Hc; by rewrite decide_True in Hc).
    pose proof (CheckAndRemove_spec fuel st Hne) as H. rewrite Hc in H. destruct H as (_ & E1 & E2 & E3).
    split; [congruence|]. split; [congruence|]. intros i k m Hm. rewrite E1. apply H3. unfold active_message in *.
    rewrite E3 in Hm. destruct (mapSporksActive st !! i) as [inner|]; [|done]. cbn [mbind option_bind] in Hm |- *.
    rewrite purged_lookup in Hm. destruct (inner !! k) as [m'|]; [|done]. cbn [mbind option_bind] in Hm.
    destruct (CheckSignature _ _ _); [|done]. done.
Qed.

Lemma spork_run_inv keys min st st' : rtc spork_step st st' -> spork_inv keys min st -> spork_inv keys min st'.
Proof. induction 1 as [|st1 st2 st3 Hs _ IH]; [done|]. intros H. apply IH. by apply (spork_step_inv keys min st1). Qed.

Lemma SetMinSporkKeys_majority st min st' : SetMinSporkKeys st min = (st', true) ->
  0 < min /\ Z.of_nat (size (setSporkPubKeyIDs st)) < 2 * min /\
  setSporkPubKeyIDs st' = setSporkPubKeyIDs st /\ nMinSporkKeys st' = min /\ mapSporksActive st' = mapSporksActive st.
Proof.
  unfold SetMinSporkKeys. destruct (_ || _) eqn:E; [done|]. intros [= <-]. apply orb_false_iff in E as [E1 E2].
  apply Z.leb_gt in E1. split; [|split; [|done]].
  - enough (0 <= Z.of_nat (size (setSporkPubKeyIDs st)) / 2) by lia. apply Z.div_pos; lia.
  - pose proof (Z.div_mod (Z.of_nat (size (setSporkPubKeyIDs st))) 2). pose proof (Z.mod_pos_bound (Z.of_nat (size (setSporkPubKeyIDs st))) 2). lia.
Qed.

(** The known signers of a spork fit into the configured keys. *)
Lemma inner_size st i inner : authentic st -> mapSporksActive st !! i = Some inner ->
  (size inner <= size (setSporkPubKeyIDs st))%nat.
Proof.
  intros Ha Hi. rewrite <- (size_dom (D := gset (list Z)) inner). apply subseteq_size. intros k Hk.
  apply elem_of_dom in Hk as [m Hm]. apply (Ha i k m). unfold active_message. by rewrite Hi.
Qed.

(** A value is active exactly when [min] different configured keys have a stored
    message with it, and every stored message carries the signature of its key,
    after any sequence of messages, updates, new keys, clears and checks. *)
Lemma spork_value_stored st0 min st1 st i v :
  mapSporksActive st0 = ∅ -> SetMinSporkKeys st0 min = (st1, true) -> rtc spork_step st1 st ->
  (SporkValueIsActive st i = Some v <->
   exists signers : gset (list Z), signers ⊆ setSporkPubKeyIDs st0 /\ min <= Z.of_nat (size signers) /\
     forall k, k ∈ signers -> exists m, active_message st i k = Some m /\ nValue m = v) /\
  authentic st.
Proof.
  intros He Hmin Hrun. destruct (SetMinSporkKeys_majority st0 min st1 Hmin) as (Hpos & Hmaj & Hk & Hm & Ha).
  assert (Hinv : spork_inv (setSporkPubKeyIDs st0) min st).
  { apply (spork_run_inv _ _ st1 st Hrun). split; [done|]. split; [done|]. intros i' k m. unfold active_message.
    rewrite Ha, He, lookup_empty. done. }
  destruct Hinv as (H1 & H2 & H3). split; [|done]. rewrite <- H1 in Hmaj |- *. rewrite <- H2 in Hpos, Hmaj |- *.
  destruct (mapSporksActive st !! i) as [inner|] eqn:Ei.
  - pose proof (inner_size st i inner H3 Ei). rewrite (SporkValueIsActive_spec st i v inner Ei) by lia. split.
    + intros Hv. exists (list_to_set (voters v (in_order inner))). split; [|split].
      * intros k Hin. apply elem_of_list_to_set, voters_in in Hin as (m & Hin & _). apply (H3 i k m).
        unfold active_message. by rewrite Ei.
      * rewrite size_list_to_set by apply voters_NoDup, in_order_keys. done.
      * intros k Hin. apply elem_of_list_to_set, voters_in in Hin as (m & Hin & Hm'). exists m.
        unfold active_message. by rewrite Ei.
    + intros (signers & Hsub & Hn & Hall). unfold zlen.
      rewrite <- (size_list_to_set (C := gset (list Z)) (voters v (in_order inner))) by apply voters_NoDup, in_order_keys.
      enough (size signers <= size (list_to_set (C := gset (list Z)) (voters v (in_order inner))))%nat by lia.
      apply subseteq_size. intros k Hin. apply elem_of_list_to_set, voters_in. destruct (Hall k Hin) as (m & Hm' & Hv).
      unfold active_message in Hm'. rewrite Ei in Hm'. eauto.
  - split; [unfold SporkValueIsActive; by rewrite Ei|]. intros (signers & _ & Hn & Hall).
    destruct (decide (signers = ∅)) as [->|Hne]; [rewrite size_empty in Hn; lia|].
    apply set_choose_L in Hne as [k Hin]. destruct (Hall k Hin) as (m & Hm' & _). unfold active_message in Hm'. by rewrite Ei in Hm'.
Qed.

(** ** Convergence *)

Definition run (st : CSporkManager) (l : list (spork_env * CSporkMessage)) : CSporkManager :=
  fold_left (fun st p => (ProcessSpork p.1 st p.2).1) l st.

(** A message counts for a signer under a number. *)
Definition counts_for (st : CSporkManager) (i : Z) (k : list Z) (m : CSporkMessage) : Prop :=
  nSporkID m = i /\ resolve_signer st m true = Some k.

(** The state holds the newest of the messages [ms]. *)
Definition newest (st0 : CSporkManager) (ms : list CSporkMessage) (st : CSporkManager) : Prop := forall i k,
  match active_message st i k with
  | Some m => m ∈ ms /\ counts_for st0 i k m /\ forall m', m' ∈ ms -> counts_for st0 i k m' -> nTimeSigned m' <= nTimeSigned m
  | None => forall m', m' ∈ ms -> ~ counts_for st0 i k m'
  end.

Lemma resolve_keys st st' m six : setSporkPubKeyIDs st' = setSporkPubKeyIDs st -> resolve_signer st' m six = resolve_signer st m six.
Proof. intros H. unfold resolve_signer, known_signer. by rewrite H. Qed.

(** No spork without a message. *)
Definition no_empty (st : CSporkManager) : Prop := forall i inner, mapSporksActive st !! i = Some inner -> inner <> ∅.

Lemma newest_step st0 ms st env m : fLiteMode env = false -> hasTip env = true ->
  setSporkPubKeyIDs st = setSporkPubKeyIDs st0 -> resolve_signer st0 m true = resolve_signer st0 m false ->
  newest st0 ms st -> newest st0 (m :: ms) (ProcessSpork env st m).1.
Proof.
  intros Hl Ht Hk Hr Hn i k. destruct (ProcessSpork_spec env st m) as (_ & _ & E).
  unfold processed in E. rewrite Hl, Ht in E. cbn [orb negb] in E. rewrite (resolve_keys st0 st) in E by done.
  assert (Er : forall six, resolve_signer st0 m six = resolve_signer st0 m true) by (intros []; done). rewrite Er in E.
  assert (Ea : active_message (ProcessSpork env st m).1 i k =
    if decide (counts_for st0 i k m /\ seen st k m = false) then Some m else active_message st i k).
  { unfold active_message at 1. rewrite E. unfold counts_for. destruct (resolve_signer st0 m true) as [k'|].
    - cbn [mbind option_bind]. destruct (seen st k' m) eqn:Es.
      + rewrite decide_False; [done|]. intros [[_ [= ->]] Hs]. congruence.
      + fold (active_message (record_spork st k' m) i k). rewrite active_record.
        destruct (decide (i = nSporkID m /\ k = k')) as [[-> ->]|Hd].
        * by rewrite decide_True.
        * rewrite decide_False; [done|]. intros [[H1 [= H2]] _]. apply Hd. split; [done|congruence].
    - cbn [mbind option_bind]. rewrite decide_False; [done|]. by intros [[_ ?] _]. }
  rewrite Ea. specialize (Hn i k). destruct (decide _) as [[Hc Hs]|Hd].
  - split; [by left|]. split; [done|]. intros m' [->|Hin]%elem_of_cons Hc'; [done|].
    unfold seen in Hs. destruct Hc as [Hid Hres]. rewrite Hid in Hs. fold (active_message st i k) in Hs.
    destruct (active_message st i k) as [old|]; [|by destruct (Hn m' Hin)].
    destruct Hn as (_ & _ & Hn). specialize (Hn m' Hin Hc'). lia.
  - destruct (active_message st i k) as [old|] eqn:Eo.
    + destruct Hn as (H1 & H2 & H3). split; [by right|]. split; [done|]. intros m' [->|Hin]%elem_of_cons Hc; [|by apply H3].
      destruct (seen st k m) eqn:Es; [|by destruct Hd]. unfold seen in Es. destruct Hc as [Hid _].
      rewrite Hid in Es. fold (active_message st i k) in Es. rewrite Eo in Es. lia.
    + intros m' [->|Hin]%elem_of_cons Hc; [|by apply (Hn m' Hin)]. apply Hd. split; [done|].
      unfold seen. destruct Hc as [Hid _]. rewrite Hid. fold (active_message st i k). by rewrite Eo.
Qed.

Lemma no_empty_step env st m : no_empty st -> no_empty (ProcessSpork env st m).1.
Proof.
  intros H i inner. destruct (ProcessSpork_spec env st m) as (_ & _ & ->).
  destruct (processed env st m) as [k|]; [|apply H]. cbn [record_spork set_sporks mapSporksActive].
  destruct (decide (i = nSporkID m)) as [->|Hne].
  - rewrite lookup_insert_eq. intros [= <-]. apply insert_non_empty.
  - rewrite lookup_insert_ne by done. apply H.
Qed.

Lemma newest_run st0 l : forall ms st,
  Forall (fun p => fLiteMode p.1 = false /\ hasTip p.1 = true /\ resolve_signer st0 p.2 true = resolve_signer st0 p.2 false) l ->
  setSporkPubKeyIDs st = setSporkPubKeyIDs st0 -> newest st0 ms st -> no_empty st ->
  newest st0 (rev l.*2 ++ ms) (run st l) /\ no_empty (run st l).
Proof.
  induction l as [|[env m] l IH]; intros ms st Hl Hk Hn He; [done|]. apply Forall_cons_iff in Hl as [(H1 & H2 & H3) Hl].
  destruct (ProcessSpork_spec env st m) as (E1 & _ & _). cbn [run fold_left fst snd] in *. rewrite fmap_cons. cbn [rev snd].
  rewrite <- app_assoc. apply IH; [done|congruence| |by apply no_empty_step]. by apply newest_step.
Qed.

Lemma run_steps l : forall st, rtc spork_step st (run st l).
Proof.
  induction l as [|[env m] l IH]; intros st; [apply rtc_refl|]. eapply rtc_l; [apply (step_process env st m)|apply IH].
Qed.

(** A message is the last word of signer [k] on spork [i] among [ms]. *)
Definition last_word (st0 : CSporkManager) (ms : list CSporkMessage) (i : Z) (k : list Z) (m : CSporkMessage) : Prop :=
  m ∈ ms /\ counts_for st0 i k m /\ forall m', m' ∈ ms -> counts_for st0 i k m' -> nTimeSigned m' <= nTimeSigned m.

(** After a run the stored messages are the last words. *)
Lemma run_last_word st0 st1 l i k : mapSporksActive st1 = ∅ -> setSporkPubKeyIDs st1 = setSporkPubKeyIDs st0 ->
  Forall (fun p => fLiteMode p.1 = false /\ hasTip p.1 = true /\ resolve_signer st0 p.2 true = resolve_signer st0 p.2 false) l ->
  match active_message (run st1 l) i k with
  | Some m => last_word st0 l.*2 i k m
  | None => forall m, ~ last_word st0 l.*2 i k m
  end.
Proof.
  intros He Hk Hl. destruct (newest_run st0 l [] st1 Hl Hk) as [N _].
  { intros i' k'. unfold active_message. rewrite He, lookup_empty. intros m' Hin. by apply elem_of_nil in Hin. }
  { intros i' inner. rewrite He, lookup_empty. done. }
  specialize (N i k). rewrite app_nil_r in N.
  assert (Hin : forall m, m ∈ rev l.*2 <-> m ∈ l.*2) by (intros m; rewrite !list_elem_of_In; symmetry; apply in_rev).
  destruct (active_message (run st1 l) i k) as [m|].
  - destruct N as (A & B & C). rewrite Hin in A. split; [done|]. split; [done|]. intros m' Hm'. apply C. by rewrite Hin.
  - intros m (A & B & _). apply (N m); [by rewrite Hin|done].
Qed.

(** C24: a spork value is active only by agreement. Start without sporks, with the
    keys set and a number [min] of signers that [SetMinSporkKeys] accepts. (1) After
    any sequence of received messages, own updates, new keys, clears and checks, a
    value is active exactly when [min] different configured keys have a stored
    message with it, and every stored message carries the signature of its key.
    (2) After any list of messages received by [ProcessSpork] (not in lite mode, with
    a tip), in whatever order and however often, it is active exactly when [min]
    different configured keys each signed it in the message of theirs on that spork
    with the latest [nTimeSigned] of the list. For (2) every message names the same signer in the
    old and the new signature format and a signer does not sign two values of one spork for
    the same time; the node's own [UpdateSpork] is in (1) only, since it stores
    its message without comparing times. *)
Theorem spork_value_agreed st0 min st1 :
  mapSporksActive st0 = ∅ -> SetMinSporkKeys st0 min = (st1, true) ->
  (forall st i v, rtc spork_step st1 st ->
    (SporkValueIsActive st i = Some v <->
     exists signers : gset (list Z), signers ⊆ setSporkPubKeyIDs st0 /\ min <= Z.of_nat (size signers) /\
       forall k, k ∈ signers -> exists m, active_message st i k = Some m /\ nValue m = v) /\
    authentic st) /\
  (forall l i v,
    Forall (fun p => fLiteMode p.1 = false /\ hasTip p.1 = true /\ resolve_signer st0 p.2 true = resolve_signer st0 p.2 false) l ->
    (forall m m' k, m ∈ l.*2 -> m' ∈ l.*2 -> counts_for st0 i k m -> counts_for st0 i k m' ->
       nTimeSigned m = nTimeSigned m' -> nValue m = nValue m') ->
    SporkValueIsActive (run st1 l) i = Some v <->
    exists signers : gset (list Z), signers ⊆ setSporkPubKeyIDs st0 /\ min <= Z.of_nat (size signers) /\
      forall k, k ∈ signers -> exists m, last_word st0 l.*2 i k m /\ nValue m = v).
Proof.
  intros He Hmin. split; [intros st i v; by apply spork_value_stored|]. intros l i v Hl Hties.
  destruct (spork_value_stored st0 min st1 (run st1 l) i v He Hmin (run_steps l st1)) as [Hst _]. rewrite Hst.
  destruct (SetMinSporkKeys_majority st0 min st1 Hmin) as (_ & _ & Hk & _ & Ha). rewrite He in Ha.
  assert (Hsame : forall k, (exists m, active_message (run st1 l) i k = Some m /\ nValue m = v) <->
    exists m, last_word st0 l.*2 i k m /\ nValue m = v).
  { intros k. pose proof (run_last_word st0 st1 l i k Ha Hk Hl) as Hw.
    destruct (active_message (run st1 l) i k) as [m|]; split.
    - intros (m' & [= <-] & Hv). by exists m.
    - intros (m' & Hm' & <-). exists m. split; [done|]. destruct Hw as (A & B & C), Hm' as (A' & B' & C').
      apply (Hties m m' k); [done..|]. specialize (C m' A' B'). specialize (C' m A B). lia.
    - intros (m & ? & _). done.
    - intros (m & Hm & _). by destruct (Hw m). }
  split; intros (signers & H1 & H2 & H3); exists signers; (split; [done|]); (split; [done|]); intros k Hin; apply Hsame, H3, Hin.
Qed.

(** The active messages determine the map. *)
Lemma active_ext st st' : no_empty st -> no_empty st' -> (forall i k, active_message st i k = active_message st' i k) ->
  mapSporksActive st = mapSporksActive st'.
Proof.
  assert (Hside : forall st st', no_empty st -> (forall i k, active_message st i k = active_message st' i k) ->
    forall i inner, mapSporksActive st !! i = Some inner -> exists inner', mapSporksActive st' !! i = Some inner').
  { intros s s' He Hx i inner Hi. destruct (map_choose inner (He i inner Hi)) as (k & m & Hm).
    specialize (Hx i k). unfold active_message in Hx. rewrite Hi in Hx. cbn [mbind option_bind] in Hx. rewrite Hm in Hx.
    destruct (mapSporksActive s' !! i) as [inner'|]; [by exists inner'|done]. }
  intros He He' Hx. apply map_eq. intros i.
  destruct (mapSporksActive st !! i) as [inner|] eqn:E.
  - destruct (Hside st st' He Hx i inner E) as [inner' E']. rewrite E'. f_equal. apply map_eq. intros k.
    specialize (Hx i k). unfold active_message in Hx. rewrite E, E' in Hx. done.
  - destruct (mapSporksActive st' !! i) as [inner'|] eqn:E'; [|done].
    destruct (Hside st' st He' ltac:(done) i inner' E') as [inner E'']. congruence.
Qed.

(** Sporks converge. Two nodes that start without sporks and with the same
    keys, and that receive the same messages, in whatever order and however
    often, hold the same active sporks: per spork and signer the newest message.
    (No message is signed by known keys in both formats, and no signer signs two
    messages of one spork for the same time.) *)
Theorem sporks_converge st l1 l2 : mapSporksActive st = ∅ ->
  Forall (fun p => fLiteMode p.1 = false /\ hasTip p.1 = true /\ resolve_signer st p.2 true = resolve_signer st p.2 false) (l1 ++ l2) ->
  (forall m, m ∈ l1.*2 <-> m ∈ l2.*2) ->
  (forall m m' i k, m ∈ l1.*2 -> m' ∈ l1.*2 -> counts_for st i k m -> counts_for st i k m' -> nTimeSigned m = nTimeSigned m' -> m = m') ->
  mapSporksActive (run st l1) = mapSporksActive (run st l2).
Proof.
  intros He Hall Hsame Hties. apply Forall_app in Hall as [Ha1 Ha2].
  assert (H0 : newest st [] st /\ no_empty st).
  { split; [intros i k|intros i inner]; unfold active_message; rewrite He, lookup_empty; [|done]. intros m' Hin. by apply elem_of_nil in Hin. }
  destruct H0 as [Hn0 He0].
  destruct (newest_run st l1 [] st Ha1 eq_refl Hn0 He0) as [N1 E1]. destruct (newest_run st l2 [] st Ha2 eq_refl Hn0 He0) as [N2 E2].
  rewrite app_nil_r in N1, N2. apply active_ext; [done|done|]. intros i k. specialize (N1 i k). specialize (N2 i k).
  assert (Hin : forall l m, m ∈ rev l <-> m ∈ (l : list CSporkMessage)) by (intros l m; rewrite !list_elem_of_In; symmetry; apply in_rev).
  destruct (active_message (run st l1) i k) as [m1|], (active_message (run st l2) i k) as [m2|].
  - destruct N1 as (A1 & B1 & C1), N2 as (A2 & B2 & C2). rewrite Hin in A1, A2. f_equal.
    pose proof (C1 m2 ltac:(by rewrite Hin, Hsame) B2). pose proof (C2 m1 ltac:(by rewrite Hin, <- Hsame) B1).
    apply (Hties m1 m2 i k); [done|by rewrite Hsame|done|done|lia].
  - destruct N1 as (A1 & B1 & _). rewrite Hin in A1. exfalso. apply (N2 m1); [|done]. by rewrite Hin, <- Hsame.
  - destruct N2 as (A2 & B2 & _). rewrite Hin in A2. exfalso. apply (N1 m2); [|done]. by rewrite Hin, Hsame.
  - done.
Qed.

(** ** The text that is signed *)

Lemma le_digits_app n m : forall t a, 0 <= t < 10 ^ Z.of_nat n ->
  le_digits (n + m) (a * 10 ^ Z.of_nat n + t) = le_digits n t ++ le_digits m a.
Proof.
  induction n as [|n IH]; intros t a Ht.
  - change (10 ^ Z.of_nat 0) with 1 in *. cbn [Nat.add le_digits app]. f_equal. lia.
  - rewrite Nat2Z.inj_succ, Z.pow_succ_r in * by lia. set (p := 10 ^ Z.of_nat n) in *. cbn [Nat.add le_digits app].
    replace (a * (10 * p) + t) with (t + (a * p) * 10) by lia. rewrite Z_mod_plus_full, Z.div_add by lia. f_equal.
    replace (t / 10 + a * p) with (a * p + t / 10) by lia. apply IH. split; [apply Z.div_pos; lia|apply Z.div_lt_upper_bound; lia].
Qed.

(** A time of ten digits. *)
Lemma ten_digits t : 10 ^ 9 <= t < 10 ^ 10 -> exists d D, rev (le_digits 10 t) = d :: D /\ d <> 0.
Proof.
  intros Ht. exists (t / 10 ^ 9), (rev (le_digits 9 (t mod 10 ^ 9))).
  assert (E : le_digits 10 t = le_digits 9 (t mod 10 ^ 9) ++ le_digits 1 (t / 10 ^ 9)).
  { rewrite <- (le_digits_app 9 1); [|apply Z.mod_pos_bound; lia]. change (10 ^ Z.of_nat 9) with (10 ^ 9).
    rewrite Z.mul_comm, <- Z.div_mod by lia. done. }
  assert (Hd : 1 <= t / 10 ^ 9 < 10) by (split; [apply Z.div_le_lower_bound|apply Z.div_lt_upper_bound]; lia).
  rewrite E, rev_app_distr. cbn [le_digits rev app]. rewrite Z.mod_small by lia. split; [done|lia].
Qed.

Lemma show_ten_digits t : 10 ^ 9 <= t < 10 ^ 10 -> show_d t = show_digits (rev (le_digits 10 t)) /\
  show_d (70908800 * 10 ^ 10 + t) = str "70908800" ++ show_digits (rev (le_digits 10 t)).
Proof.
  intros Ht. destruct (ten_digits t Ht) as (d & D & E & Hd).
  assert (H : forall a, le_digits 19 (a * 10 ^ 10 + t) = le_digits 10 t ++ le_digits 9 a).
  { intros a. apply (le_digits_app 10 9). change (10 ^ Z.of_nat 10) with (10 ^ 10). lia. }
  unfold show_d. rewrite (proj2 (Z.eqb_neq t 0)), (proj2 (Z.eqb_neq (70908800 * 10 ^ 10 + t) 0)) by lia.
  specialize (H 0) as H0. rewrite Z.mul_0_l, Z.add_0_l in H0. rewrite H0, (H 70908800), !rev_app_distr, E. split.
  - change (rev (le_digits 9 0)) with [0; 0; 0; 0; 0; 0; 0; 0; 0]. cbn [app skip_zeroes Z.eqb].
    rewrite (proj2 (Z.eqb_neq d 0)) by done. done.
  - change (rev (le_digits 9 70908800)) with [0; 7; 0; 9; 0; 8; 8; 0; 0]. cbn [app skip_zeroes Z.eqb].
    reflexivity.
Qed.

(** "Off" at the time [t], and the message read from the same text. *)
Definition off_spork (i t : Z) (sig : list Z) : CSporkMessage := mkSpork i 4070908800 t sig.
Definition forged_spork (i t : Z) (sig : list Z) : CSporkMessage := mkSpork i 40 (70908800 * 10 ^ 10 + t) sig.

Lemma forged_text i t sig : 10 ^ 9 <= t < 10 ^ 10 -> strMessage (forged_spork i t sig) = strMessage (off_spork i t sig).
Proof.
  intros Ht. destruct (show_ten_digits t Ht) as [H1 H2]. unfold strMessage, off_spork, forged_spork.
  cbn [nSporkID nValue nTimeSigned]. f_equal. unfold show_int at 1 3. cbn [Z.ltb Z.compare]. unfold show_int.
  rewrite !(proj2 (Z.ltb_ge _ 0)) by lia. rewrite H1, H2. reflexivity.
Qed.

Lemma single_inner st i k inner : setSporkPubKeyIDs st = {[k]} -> authentic st -> mapSporksActive st !! i = Some inner ->
  forall m, <[k := m]> inner = {[k := m]}.
Proof.
  intros Hk Ha Hi m. apply map_eq. intros k'. destruct (decide (k' = k)) as [->|Hne].
  - by rewrite lookup_insert_eq, lookup_singleton_eq.
  - rewrite lookup_insert_ne, lookup_singleton_ne by done. destruct (inner !! k') as [m'|] eqn:E; [|done].
    destruct (Ha i k' m') as [Hin _]; [unfold active_message; by rewrite Hi|]. rewrite Hk in Hin. apply elem_of_singleton in Hin. done.
Qed.

Lemma single_value st i k m : mapSporksActive st !! i = Some {[k := m]} -> nMinSporkKeys st = 1 -> SporkValueIsActive st i = Some (nValue m).
Proof.
  intros Hi Hmin. unfold SporkValueIsActive. rewrite Hi. cbn [mbind option_bind].
  assert (E : in_order {[k := m]} = [(k, m)]).
  { apply Permutation_singleton_r. rewrite in_order_perm, map_to_list_singleton. done. }
  rewrite E, Hmin. cbn [count_values]. rewrite lookup_empty. done.
Qed.

(** A spork that is switched off can be switched on by anyone. The signed text
    of a message is its three numbers without separators. From the message that
    sets a spork to 4070908800, the value that means "off", anybody can form the
    message that sets it to 40 for a later time: it has the same text and so the
    same valid signature, and a node with one spork key (every network's default)
    that holds the first message takes the second for a newer one and activates
    the spork. *)
Theorem off_spork_forged env st i t sig k now : 10 ^ 9 <= t < 10 ^ 10 ->
  setSporkPubKeyIDs st = {[k]} -> nMinSporkKeys st = 1 -> authentic st ->
  fLiteMode env = false -> hasTip env = true -> IsSporkActive st (adjustedTime env) SPORK_6_NEW_SIGS = false ->
  known_signer st (off_spork i t sig) false = Some k -> active_message st i k = Some (off_spork i t sig) ->
  40 < now <= 4070908800 ->
  IsSporkActive st now i = false /\ IsSporkActive (ProcessSpork env st (forged_spork i t sig)).1 now i = true.
Proof.
  intros Ht Hk Hmin Ha Hl Htip H6 Hs Hm Hnow. unfold active_message in Hm.
  destruct (mapSporksActive st !! i) as [inner|] eqn:Ei; [|done]. cbn [mbind option_bind] in Hm. split.
  - unfold IsSporkActive. rewrite (single_value st i k (off_spork i t sig)); [apply Z.ltb_ge; cbn; lia| |done].
    rewrite Ei. f_equal. rewrite <- (single_inner st i k inner Hk Ha Ei). symmetry. by apply insert_id.
  - destruct (ProcessSpork_spec env st (forged_spork i t sig)) as (E1 & E2 & E3). unfold processed in E3.
    rewrite Hl, Htip, H6 in E3. cbn [orb negb] in E3. unfold resolve_signer in E3.
    assert (Hs' : known_signer st (forged_spork i t sig) false = Some k).
    { rewrite <- Hs. unfold known_signer, GetSignerKeyID. rewrite forged_text by done. done. }
    rewrite Hs' in E3. cbn [mbind option_bind] in E3. unfold seen in E3. cbn [nSporkID forged_spork] in E3.
    rewrite Ei in E3. cbn [mbind option_bind] in E3. rewrite Hm in E3. cbn [nTimeSigned forged_spork off_spork] in E3.
    rewrite (proj2 (Z.leb_gt _ _)) in E3 by lia. cbn [record_spork set_sporks mapSporksActive nSporkID forged_spork] in E3.
    rewrite Ei in E3. change (default ∅ (Some inner)) with inner in E3.
    unfold IsSporkActive. rewrite (single_value _ i k (forged_spork i t sig)); [apply Z.ltb_lt; cbn; lia| |congruence].
    rewrite E3, lookup_insert_eq. f_equal. by apply (single_inner st i k inner).
Qed.

End Manager.

(** ** Witnesses *)

Definition toy_signer (n : Z) : list Z := @CHash160 toy_crypto (toy_key n).
Definition no_key : CKey := mkKey false (fun _ => None) [].
Definition fresh_manager (keys : gset (list Z)) : CSporkManager := mkManager ∅ ∅ keys 0 no_key 0.
Definition toy_env : spork_env := mkEnv false true 1558389600 1558389600.
Definition three_keys : gset (list Z) := {[toy_signer 1; toy_signer 2; toy_signer 3]}.
Definition toy_manager : CSporkManager := (SetMinSporkKeys (fresh_manager three_keys) 2).1.
Definition toy_spork (value time key : Z) : CSporkMessage := mkSpork SPORK_9_SUPERBLOCKS_ENABLED value time (toy_key key).

Abbreviation toy_run := (run (CR := toy_crypto) (PK := toy_recovery)).

Definition two_votes : list (spork_env * CSporkMessage) := [(toy_env, toy_spork 7 100 1); (toy_env, toy_spork 8 100 2); (toy_env, toy_spork 7 101 2)].

(** No two of the votes share signer and time. *)
Lemma two_votes_ties st m m' i k : st = toy_manager \/ st = fresh_manager three_keys ->
  m ∈ two_votes.*2 -> m' ∈ two_votes.*2 ->
  counts_for (CR := toy_crypto) (PK := toy_recovery) st i k m ->
  counts_for (CR := toy_crypto) (PK := toy_recovery) st i k m' -> nTimeSigned m = nTimeSigned m' -> m = m'.
Proof.
  intros Hst Hm Hm' [Hi Hk] [Hi' Hk'] Ht. unfold two_votes in Hm, Hm'. cbn [fmap list_fmap snd] in Hm, Hm'.
  rewrite !elem_of_cons, elem_of_nil in Hm, Hm'.
  destruct Hm as [->|[->|[->|[]]]], Hm' as [->|[->|[->|[]]]]; try reflexivity; try (cbn in Ht; discriminate Ht);
    exfalso; destruct Hst as [-> | ->]; vm_compute in Hk, Hk'; congruence.
Qed.

Lemma spork_value_agreed_witness :
  SporkValueIsActive (toy_run toy_manager two_votes) SPORK_9_SUPERBLOCKS_ENABLED = Some 7 /\
  exists signers : gset (list Z), signers ⊆ three_keys /\ 2 <= Z.of_nat (size signers) /\
    forall k, k ∈ signers -> exists m,
      last_word (CR := toy_crypto) (PK := toy_recovery) (fresh_manager three_keys) two_votes.*2 SPORK_9_SUPERBLOCKS_ENABLED k m /\ nValue m = 7.
Proof.
  assert (E : SporkValueIsActive (toy_run toy_manager two_votes) SPORK_9_SUPERBLOCKS_ENABLED = Some 7) by (vm_compute; reflexivity).
  split; [exact E|].
  destruct (@spork_value_agreed toy_crypto toy_recovery (fresh_manager three_keys) 2 toy_manager) as [_ H];
    [reflexivity|vm_compute; reflexivity|].
  apply (H two_votes SPORK_9_SUPERBLOCKS_ENABLED 7); [| |exact E].
  - repeat (constructor; [split; [reflexivity|split; [reflexivity|vm_compute; reflexivity]]|]). constructor.
  - intros m m' k H1 H2 H3 H4 H5. rewrite (two_votes_ties _ m m' SPORK_9_SUPERBLOCKS_ENABLED k (or_intror eq_refl) H1 H2 H3 H4 H5). reflexivity.
Defined.

Lemma sporks_converge_witness :
  mapSporksActive (toy_run toy_manager two_votes) = mapSporksActive (toy_run toy_manager (rev two_votes ++ two_votes)).
Proof.
  apply (@sporks_converge toy_crypto toy_recovery toy_manager two_votes (rev two_votes ++ two_votes)).
  - reflexivity.
  - repeat (constructor; [split; [reflexivity|split; [reflexivity|vm_compute; reflexivity]]|]). constructor.
  - intros m. unfold two_votes. cbn [rev app fmap list_fmap snd]. rewrite !elem_of_cons, elem_of_nil. tauto.
  - intros m m' i k. exact (two_votes_ties toy_manager m m' i k (or_introl eq_refl)).
Defined.

Definition stale_manager : CSporkManager :=
  mkManager ∅ {[SPORK_9_SUPERBLOCKS_ENABLED := {[toy_signer 9 := toy_spork 7 100 9]}]} {[toy_signer 1]} 1 no_key 0.

Lemma CheckAndRemove_terminates_witness :
  setSporkPubKeyIDs stale_manager <> ∅ /\ forall fuel, CheckAndRemove (CR := toy_crypto) (PK := toy_recovery) fuel stale_manager = None.
Proof.
  assert (H : setSporkPubKeyIDs stale_manager <> ∅) by (intros He; apply (f_equal size) in He; vm_compute in He; discriminate He).
  split; [exact H|]. destruct (@CheckAndRemove_terminates toy_crypto toy_recovery stale_manager H) as [_ Hh].
  apply (Hh SPORK_9_SUPERBLOCKS_ENABLED (toy_signer 9) (toy_spork 7 100 9)).
  - vm_compute. reflexivity.
  - intros Hin. cbn [stale_manager setSporkPubKeyIDs] in Hin. apply elem_of_singleton in Hin. vm_compute in Hin. discriminate Hin.
Defined.

Definition off_manager : CSporkManager :=
  mkManager ∅ {[SPORK_9_SUPERBLOCKS_ENABLED := {[toy_signer 1 := off_spork SPORK_9_SUPERBLOCKS_ENABLED 1558389600 (toy_key 1)]}]}
    {[toy_signer 1]} 1 no_key 0.

Lemma off_spork_forged_witness :
  IsSporkActive off_manager 1558400000 SPORK_9_SUPERBLOCKS_ENABLED = false /\
  IsSporkActive (ProcessSpork (CR := toy_crypto) (PK := toy_recovery) toy_env off_manager
    (forged_spork SPORK_9_SUPERBLOCKS_ENABLED 1558389600 (toy_key 1))).1 1558400000 SPORK_9_SUPERBLOCKS_ENABLED = true.
Proof.
  apply (@off_spork_forged toy_crypto toy_recovery toy_env off_manager SPORK_9_SUPERBLOCKS_ENABLED 1558389600 (toy_key 1)
    (toy_signer 1) 1558400000).
  - lia.
  - reflexivity.
  - reflexivity.
  - intros i k m Hm. unfold active_message, off_manager in Hm. cbn [mapSporksActive] in Hm.
    destruct (decide (i = SPORK_9_SUPERBLOCKS_ENABLED)) as [->|Hne]; [|rewrite lookup_singleton_ne in Hm; [discriminate Hm|congruence]].
    rewrite lookup_singleton_eq in Hm. cbn [mbind option_bind] in Hm.
    destruct (decide (k = toy_signer 1)) as [->|Hne]; [|rewrite lookup_singleton_ne in Hm; [discriminate Hm|congruence]].
    rewrite lookup_singleton_eq in Hm. injection Hm as <-. split; [cbn [off_manager setSporkPubKeyIDs]; apply elem_of_singleton; reflexivity|].
    split; [reflexivity|]. exists false. vm_compute. reflexivity.
  - reflexivity.
  - reflexivity.
  - vm_compute. reflexivity.
  - vm_compute. reflexivity.
  - vm_compute. reflexivity.
  - lia.
Defined.

End Spork.
