(* ===== verification/Caches.v ===== *)
(** * Caches of the most recent items (cachemap.h)

    A cache keeps its items in a list, the newest first, and finds them through a
    map of iterators into the list.  A list node is modelled by its address, an
    iterator by the address of its node; an address that no node has any more is
    a dangling iterator, and following it has no result. *)

From Stdlib Require Import ZArith Lia.
From S2P Require Import Prelude.
From stdpp Require Import sorting base numbers option gmap list list_numbers.

Local Open Scope Z_scope.

#[local] Set Default Proof Using "Type*".

(** ** Lists of nodes *)

Module Nodes.
Section Nodes.
Context {A : Type}.

(** [*it]. *)
Definition deref (l : list (nat * A)) (a : nat) : option A := snd <$> List.find (fun e => Nat.eqb e.1 a) l.

(** [listItems.erase(it)]. *)
Definition erase (l : list (nat * A)) (a : nat) : option (list (nat * A)) :=
  _ ← deref l a; Some (filter (fun e => e.1 <> a) l).

(** No two nodes share an address, and the next one is unused. *)
Definition nodes_ok (l : list (nat * A)) (next : nat) : Prop := NoDup l.*1 /\ Forall (fun e => (e.1 < next)%nat) l.

Lemma deref_in l a x next : nodes_ok l next -> (a, x) ∈ l -> deref l a = Some x.
Proof.
  intros [Hd _]. unfold deref. induction l as [|[b y] l IH]; [by intros ?%elem_of_nil|]. cbn in Hd |- *.
  apply list.NoDup_cons in Hd as [Hb Hd]. intros [[= <- <-]|Hin]%elem_of_cons; [by rewrite Nat.eqb_refl|].
  destruct (Nat.eqb_spec b a) as [->|_]; [|by apply IH]. destruct Hb. apply list_elem_of_fmap. by exists (a, x).
Qed.

Lemma nodes_ok_cons l next x : nodes_ok l next -> nodes_ok ((next, x) :: l) (S next).
Proof.
  intros [Hd Hf]. split.
  - cbn. apply list.NoDup_cons. split; [|done]. intros ([b y] & E & Hin)%list_elem_of_fmap. cbn in E. subst b.
    rewrite Forall_forall in Hf. specialize (Hf _ Hin). cbn in Hf. lia.
  - constructor; [cbn; lia|]. eapply Forall_impl; [exact Hf|]. cbn. intros e He. lia.
Qed.

Lemma nodes_ok_sublist l l' next : sublist l' l -> nodes_ok l next -> nodes_ok l' next.
Proof.
  intros Hs [Hd Hf]. split; [eapply sublist_NoDup; [exact Hd|by apply fmap_sublist]|].
  rewrite Forall_forall in Hf |- *. intros e He. apply Hf. by apply (sublist_subseteq _ _ Hs).
Qed.

(** A copy of a list has nodes of its own, at the addresses from [next] on. *)
Definition renumber (next : nat) (l : list (nat * A)) : list (nat * A) := zip (seq next (length l)) l.*2.

Lemma renumber_addresses next l : (renumber next l).*1 = seq next (length l).
Proof. apply fst_zip. by rewrite length_seq, length_fmap. Qed.

Lemma renumber_values next l : (renumber next l).*2 = l.*2.
Proof. apply snd_zip. by rewrite length_seq, length_fmap. Qed.

Lemma renumber_ok next l : nodes_ok (renumber next l) (next + length l).
Proof.
  split; [rewrite renumber_addresses; apply NoDup_seq|]. apply Forall_forall. intros e He.
  assert (Ha : e.1 ∈ (renumber next l).*1) by (apply list_elem_of_fmap; by exists e).
  rewrite renumber_addresses, elem_of_seq in Ha. lia.
Qed.

(** The old addresses dangle in the copy. *)
Lemma renumber_dangling next l a : (a < next)%nat -> deref (renumber next l) a = None.
Proof.
  intros Ha. unfold deref. destruct (List.find _ _) as [e|] eqn:E; [|done]. apply List.find_some in E as [Hin He%Nat.eqb_eq].
  assert (Hin' : e.1 ∈ (renumber next l).*1) by (apply list_elem_of_fmap; exists e; by rewrite list_elem_of_In).
  rewrite renumber_addresses, elem_of_seq in Hin'. lia.
Qed.

End Nodes.
End Nodes.

(** ** The cache *)

Module CacheMap.
Section CacheMap.
Context {K V : Type} `{Countable K}.

Record CacheItem : Type := mkItem { key : K; value : V }.

Record CacheMap : Type := mkCache {
  nMaxSize : Z;
  listItems : list (nat * CacheItem);
  mapIndex : gmap K nat;
  next_node : nat
}.

Definition new (nMaxSizeIn : Z) : CacheMap := mkCache nMaxSizeIn [] ∅ 0.

Definition Clear (c : CacheMap) : CacheMap := mkCache (nMaxSize c) [] ∅ (next_node c).
Definition SetMaxSize (c : CacheMap) (nMaxSizeIn : Z) : CacheMap := mkCache nMaxSizeIn (listItems c) (mapIndex c) (next_node c).
Definition GetSize (c : CacheMap) : Z := Z.of_nat (length (listItems c)).
Definition HasKey (c : CacheMap) (k : K) : bool := bool_decide (mapIndex c !! k <> None).

Definition PruneLast (c : CacheMap) : CacheMap :=
  match last (listItems c) with
  | None => c
  | Some (_, item) => mkCache (nMaxSize c) (removelast (listItems c)) (delete (key item) (mapIndex c)) (next_node c)
  end.

Definition Insert (c : CacheMap) (k : K) (v : V) : CacheMap * bool :=
  if decide (mapIndex c !! k <> None) then (c, false)
  else
    let c := if GetSize c =? nMaxSize c then PruneLast c else c in
    (mkCache (nMaxSize c) ((next_node c, mkItem k v) :: listItems c) (<[k := next_node c]> (mapIndex c)) (S (next_node c)), true).

(** The outer [None]: a dangling iterator is followed. *)
Definition Get (c : CacheMap) (k : K) : option (option V) :=
  match mapIndex c !! k with
  | None => Some None
  | Some it => item ← Nodes.deref (listItems c) it; Some (Some (value item))
  end.

Definition Erase (c : CacheMap) (k : K) : option CacheMap :=
  match mapIndex c !! k with
  | None => Some c
  | Some it => l ← Nodes.erase (listItems c) it; Some (mkCache (nMaxSize c) l (delete k (mapIndex c)) (next_node c))
  end.

(** [emplace] keeps an entry that is there. *)
Definition RebuildIndex (c : CacheMap) : CacheMap :=
  mkCache (nMaxSize c) (listItems c)
    (fold_left (fun m e => if decide (m !! key e.2 <> None) then m else <[key e.2 := e.1]> m) (listItems c) ∅) (next_node c).

(** The copy constructor: the items are copied to new nodes, to which the index
    is then built. *)
Definition copy (other : CacheMap) : CacheMap :=
  RebuildIndex (mkCache (nMaxSize other) (Nodes.renumber (next_node other) (listItems other)) ∅
                        (next_node other + length (listItems other))).

(** *** What a client sees *)

(** The items, the newest first. *)
Definition items (c : CacheMap) : list (K * V) := (fun e => (key e.2, value e.2)) <$> listItems c.

Definition index_of (l : list (nat * CacheItem)) : gmap K nat := list_to_map ((fun e => (key e.2, e.1)) <$> l).

Definition cache_wf (c : CacheMap) : Prop :=
  Nodes.nodes_ok (listItems c) (next_node c) /\ NoDup (items c).*1 /\ mapIndex c = index_of (listItems c).

Inductive cache_op : Type :=
  | OpInsert (k : K) (v : V)
  | OpErase (k : K)
  | OpClear
  | OpSetMaxSize (n : Z)
  | OpCopy.

Definition cache_step (c : CacheMap) (op : cache_op) : option CacheMap :=
  match op with
  | OpInsert k v => Some (Insert c k v).1
  | OpErase k => Erase c k
  | OpClear => Some (Clear c)
  | OpSetMaxSize n => Some (SetMaxSize c n)
  | OpCopy => Some (copy c)
  end.

(** What each operation does to the limit and the items. *)
Definition spec_step (s : Z * list (K * V)) (op : cache_op) : Z * list (K * V) :=
  let '(max, l) := s in
  match op with
  | OpInsert k v => if decide (k ∈ l.*1) then s else (max, (k, v) :: (if Z.of_nat (length l) =? max then removelast l else l))
  | OpErase k => (max, filter (fun e => e.1 <> k) l)
  | OpClear => (max, [])
  | OpSetMaxSize n => (n, l)
  | OpCopy => s
  end.

Lemma index_lookup l k : NoDup (key <$> l.*2) ->
  (forall a, index_of l !! k = Some a <-> exists v, (a, mkItem k v) ∈ l) /\ (index_of l !! k = None <-> k ∉ key <$> l.*2).
Proof.
  intros Hd. unfold index_of. assert (Hk : ((fun e : nat * CacheItem => (key e.2, e.1)) <$> l).*1 = key <$> l.*2)
    by (rewrite <- !list_fmap_compose; done).
  split.
  - intros a. rewrite <- elem_of_list_to_map by (by rewrite Hk). split.
    + intros ([b [k' v]] & [= -> ->] & Hin)%list_elem_of_fmap. by exists v.
    + intros [v Hin]. apply list_elem_of_fmap. by exists (a, mkItem k v).
  - rewrite <- not_elem_of_list_to_map, Hk. done.
Qed.

Lemma items_keys c : (items c).*1 = key <$> (listItems c).*2.
Proof. unfold items. rewrite <- !list_fmap_compose. done. Qed.

Lemma index_not_in c k : cache_wf c -> mapIndex c !! k = None <-> k ∉ (items c).*1.
Proof. intros (_ & Hd & ->). rewrite items_keys in *. by apply index_lookup. Qed.

Lemma PruneLast_spec c : cache_wf c -> cache_wf (PruneLast c) /\ items (PruneLast c) = removelast (items c) /\ nMaxSize (PruneLast c) = nMaxSize c.
Proof.
  intros (Hn & Hd & Hi). unfold PruneLast. destruct c as [max l idx next]. cbn in *. destruct l as [|[a item] l _] using rev_ind; [done|].
  rewrite last_snoc, removelast_last. unfold items in *. cbn in *. rewrite fmap_app in Hd |- *. cbn. rewrite removelast_last. split; [|done].
  rewrite fmap_app in Hd. cbn in Hd. apply NoDup_app in Hd as (Hd & Hk & _). split; [|split; [done|]]; cbn.
  - eapply Nodes.nodes_ok_sublist; [|exact Hn]. by apply sublist_inserts_r.
  - rewrite Hi. unfold index_of. rewrite fmap_app. cbn. rewrite list_to_map_snoc.
    + apply delete_insert_id. apply not_elem_of_list_to_map. intros Hin. apply (Hk (key item)); [|by left].
      rewrite <- !list_fmap_compose in *. exact Hin.
    + intros Hin. apply (Hk (key item)); [|by left]. rewrite <- !list_fmap_compose in *. exact Hin.
Qed.

Lemma Insert_spec c k v : cache_wf c ->
  cache_wf (Insert c k v).1 /\ (nMaxSize (Insert c k v).1, items (Insert c k v).1) = spec_step (nMaxSize c, items c) (OpInsert k v) /\
  (Insert c k v).2 = bool_decide (k ∉ (items c).*1).
Proof.
  intros Hc. unfold Insert, spec_step. pose proof (index_not_in c k Hc) as Hk. destruct (decide (mapIndex c !! k <> None)) as [Hs|Hs].
  { rewrite decide_True by (destruct (decide (k ∈ (items c).*1)); [done|tauto]).
    rewrite bool_decide_eq_false_2 by tauto. done. }
  assert (Hnk : k ∉ (items c).*1) by (apply Hk; destruct (mapIndex c !! k); [destruct Hs|]; done).
  rewrite decide_False, bool_decide_eq_true_2 by done.
  assert (Hlen : Z.of_nat (length (items c)) = GetSize c) by (unfold items, GetSize; by rewrite length_fmap). rewrite Hlen.
  set (c' := if GetSize c =? nMaxSize c then PruneLast c else c).
  assert (Hc' : cache_wf c' /\ items c' = (if GetSize c =? nMaxSize c then removelast (items c) else items c) /\ nMaxSize c' = nMaxSize c).
  { subst c'. destruct (_ =? _); [by apply PruneLast_spec|done]. }
  destruct Hc' as (Hw & Hit & Hmax). cbn [fst snd]. split; [|split; [|done]].
  - assert (Hnk' : k ∉ (items c').*1).
    { rewrite Hit. destruct (_ =? _); [|done]. intros Hin. apply Hnk. revert Hin. apply (sublist_subseteq _ _).
      apply fmap_sublist. destruct (items c) as [|x l _] using rev_ind; [done|]. rewrite removelast_last. by apply sublist_inserts_r. }
    destruct Hw as (H1 & H2 & H3). split; [|split]; cbn.
    + by apply Nodes.nodes_ok_cons.
    + unfold items in *. cbn. by apply list.NoDup_cons.
    + unfold index_of in *. cbn. by rewrite H3.
  - cbn. rewrite Hmax, <- Hit. done.
Qed.

Lemma Get_spec c k : cache_wf c -> Get c k = Some (snd <$> List.find (fun e => bool_decide (e.1 = k)) (items c)).
Proof.
  intros Hc. unfold Get. destruct (mapIndex c !! k) as [a|] eqn:E.
  - destruct Hc as (Hn & Hd & Hi). rewrite Hi in E. rewrite items_keys in Hd. apply index_lookup in E as [v Hin]; [|done].
    rewrite (Nodes.deref_in _ _ _ _ Hn Hin). cbn [mbind option_bind value]. do 2 f_equal. unfold items. clear Hn Hi.
    induction (listItems c) as [|[b [k' v']] l IH]; [by apply elem_of_nil in Hin|]. cbn in Hd |- *.
    apply list.NoDup_cons in Hd as [Hk Hd]. apply elem_of_cons in Hin as [[= <- <- <-]|Hin]; [by rewrite bool_decide_eq_true_2|].
    rewrite bool_decide_eq_false_2; [by apply IH|]. intros ->. apply Hk. apply list_elem_of_fmap. exists (mkItem k v). split; [done|].
    apply list_elem_of_fmap. by exists (a, mkItem k v).
  - apply index_not_in in E; [|done]. f_equal. induction (items c) as [|[k' v] l IH]; [done|]. cbn in *.
    apply not_elem_of_cons in E as [E1 E2]. rewrite bool_decide_eq_false_2 by done. by apply IH.
Qed.

Lemma filter_keys_id (l : list (K * V)) k : k ∉ l.*1 -> filter (fun e => e.1 <> k) l = l.
Proof.
  induction l as [|[k' v] l IH]; [done|]. rewrite fmap_cons, filter_cons. intros [E1 E2]%not_elem_of_cons.
  rewrite decide_True by (cbn in *; congruence). by rewrite IH.
Qed.

Lemma Erase_spec c k : cache_wf c ->
  exists c', Erase c k = Some c' /\ cache_wf c' /\ (nMaxSize c', items c') = spec_step (nMaxSize c, items c) (OpErase k).
Proof.
  intros Hc. unfold Erase. destruct (mapIndex c !! k) as [a|] eqn:E.
  2: { exists c. split; [done|]. split; [done|]. cbn. rewrite filter_keys_id; [done|]. by apply index_not_in. }
  destruct Hc as (Hn & Hd & Hi). rewrite Hi in E. pose proof Hd as Hd'. rewrite items_keys in Hd'. apply index_lookup in E as [v Hin]; [|done].
  unfold Nodes.erase. rewrite (Nodes.deref_in _ _ _ _ Hn Hin). cbn [mbind option_bind]. eexists. split; [done|].
  assert (Hsame : forall e, e ∈ listItems c -> e.1 <> a <-> key e.2 <> k).
  { intros [b [k' v']] He. cbn. split; intros Hne ->; apply Hne.
    - destruct (index_lookup (listItems c) k Hd') as [H1 _]. assert (Ha : index_of (listItems c) !! k = Some a) by (apply H1; eauto).
      assert (Hb : index_of (listItems c) !! k = Some b) by (apply H1; eauto). congruence.
    - pose proof (Nodes.deref_in _ _ _ _ Hn Hin) as E1. rewrite (Nodes.deref_in _ _ _ _ Hn He) in E1. by injection E1. }
  assert (Hf : (fun e : nat * CacheItem => (key e.2, value e.2)) <$> filter (fun e => e.1 <> a) (listItems c) =
               filter (fun e => e.1 <> k) (items c)).
  { unfold items. clear Hn Hd Hd' Hi Hin. induction (listItems c) as [|e l IH]; [done|]. rewrite fmap_cons, !filter_cons. cbn [fst].
    rewrite (decide_ext _ (key e.2 <> k)) by (apply Hsame; by left). destruct (decide (key e.2 <> k)); rewrite ?fmap_cons, IH; try done;
      intros e' He'; apply Hsame; by right. }
  split; [|unfold items at 1; cbn [listItems nMaxSize]; by rewrite Hf]. split; [|split].
  - eapply Nodes.nodes_ok_sublist; [|exact Hn]. apply sublist_filter.
  - unfold items. cbn [listItems]. rewrite Hf. eapply sublist_NoDup; [exact Hd|]. apply fmap_sublist, sublist_filter.
  - cbn [mapIndex listItems]. rewrite Hi. apply map_eq. intros k'. destruct (index_lookup (listItems c) k' Hd') as [H1 _].
    assert (Hd2 : NoDup (key <$> (filter (fun e => e.1 <> a) (listItems c)).*2)).
    { eapply sublist_NoDup; [exact Hd'|]. do 2 apply fmap_sublist. apply sublist_filter. }
    destruct (index_lookup _ k' Hd2) as [H2 _]. apply option_eq. intros b. rewrite H2, lookup_delete_Some, H1.
    setoid_rewrite list_elem_of_filter. split.
    + intros [Hne [v' Hv]]. exists v'. split; [|done]. apply Hsame; done.
    + intros (v' & Hb & Hv). split; [|by exists v']. apply Hsame in Hb; [|done]. done.
Qed.

Lemma RebuildIndex_index l : forall (m : gmap K nat) k,
  fold_left (fun m (e : nat * CacheItem) => if decide (m !! key e.2 <> None) then m else <[key e.2 := e.1]> m) l m !! k =
  match m !! k with Some a => Some a | None => index_of l !! k end.
Proof.
  induction l as [|[a [k' v]] l IH]; intros m k; cbn [fold_left]; [by destruct (m !! k)|]. rewrite IH. unfold index_of. cbn.
  destruct (decide (k = k')) as [->|Hne].
  - rewrite lookup_insert_eq. destruct (decide (m !! k' <> None)) as [Hs|Hs]; [by destruct (m !! k')|].
    rewrite lookup_insert_eq. destruct (m !! k'); [|done]. by destruct Hs.
  - rewrite lookup_insert_ne by done. destruct (decide _); [done|]. by rewrite lookup_insert_ne.
Qed.

Lemma copy_spec c : cache_wf c -> cache_wf (copy c) /\ items (copy c) = items c /\ nMaxSize (copy c) = nMaxSize c.
Proof.
  intros (H1 & H2 & H3).
  assert (Hi : items (copy c) = items c).
  { assert (Hf : forall l : list (nat * CacheItem), (fun e => (key e.2, value e.2)) <$> l = (fun i => (key i, value i)) <$> l.*2)
      by (intros l; by rewrite <- list_fmap_compose).
    unfold items. cbn [copy RebuildIndex listItems]. rewrite !Hf. by rewrite Nodes.renumber_values. }
  split; [|done]. split; [apply Nodes.renumber_ok|]. split; [by rewrite Hi|]. cbn. apply map_eq. intros k.
  by rewrite RebuildIndex_index, lookup_empty.
Qed.

Lemma cache_step_spec c op : cache_wf c ->
  exists c', cache_step c op = Some c' /\ cache_wf c' /\ (nMaxSize c', items c') = spec_step (nMaxSize c, items c) op.
Proof.
  intros Hc. destruct op as [k v|k| |n|]; cbn [cache_step].
  - eexists. split; [done|]. split; by apply Insert_spec.
  - by apply Erase_spec.
  - eexists. split; [done|]. split; [|done]. split; [split; constructor|split; [constructor|done]].
  - eexists. split; [done|]. split; [|done]. destruct Hc as (H1 & H2 & H3). done.
  - destruct (copy_spec c Hc) as (H1 & H2 & H3). eexists. split; [done|]. split; [done|]. by rewrite H2, H3.
Qed.

Definition cache_run (ops : list cache_op) (c : CacheMap) : option CacheMap :=
  fold_left (fun c op => c ≫= (fun c => cache_step c op)) ops (Some c).

Lemma cache_run_spec ops : forall c, cache_wf c ->
  exists c', cache_run ops c = Some c' /\ cache_wf c' /\ (nMaxSize c', items c') = fold_left spec_step ops (nMaxSize c, items c).
Proof.
  unfold cache_run. induction ops as [|op ops IH]; intros c Hc; [by exists c|].
  destruct (cache_step_spec c op Hc) as (c' & E & Hw & Hs). destruct (IH c' Hw) as (c'' & E2 & H').
  exists c''. cbn [fold_left mbind option_bind]. rewrite E, <- Hs. done.
Qed.

Lemma new_wf max : cache_wf (new max).
Proof. split; [split; constructor|split; [constructor|done]]. Qed.

(** *** The contract: the N most recently added items *)

(** A history: the items added so far, the newest first.  An item whose key is
    among the N newest is not added again; erasing an item forgets it and what
    fell out of the window before. *)
Definition add_history (s : nat * list (K * V)) (op : cache_op) : nat * list (K * V) :=
  let '(N, added) := s in
  match op with
  | OpInsert k v => if decide (k ∈ (take N added).*1) then s else (N, (k, v) :: added)
  | OpErase k => (N, filter (fun e => e.1 <> k) (take N added))
  | OpClear => (N, [])
  | OpSetMaxSize n => (Z.to_nat n, take N added)
  | OpCopy => s
  end.

(** The limit is never lowered. *)
Fixpoint limits_rise (N : Z) (ops : list cache_op) : bool :=
  match ops with
  | [] => true
  | OpSetMaxSize n :: ops => (N <=? n) && limits_rise n ops
  | _ :: ops => limits_rise N ops
  end.

Lemma removelast_take {B} (l : list B) : removelast l = take (pred (length l)) l.
Proof. apply removelast_firstn_len. Qed.

Lemma add_history_step N added op : (1 <= N)%nat -> limits_rise (Z.of_nat N) [op] = true ->
  let '(N', added') := add_history (N, added) op in
  spec_step (Z.of_nat N, take N added) op = (Z.of_nat N', take N' added') /\ (N <= N')%nat.
Proof.
  intros HN Hr. destruct op as [k v|k| |n|]; cbn [add_history spec_step].
  - destruct (decide _); [done|]. split; [|done]. f_equal. destruct N as [|N]; [lia|]. rewrite firstn_cons. f_equal.
    rewrite length_take. destruct (Z.eqb_spec (Z.of_nat (S N `min` length added)) (Z.of_nat (S N))) as [E|E].
    + rewrite removelast_take, length_take, take_take. f_equal. lia.
    + rewrite !take_ge by lia. done.
  - split; [|done]. f_equal. symmetry. apply take_ge. pose proof (length_filter (fun e : K * V => e.1 <> k) (take N added)).
    pose proof (firstn_le_length N added). lia.
  - by rewrite take_nil.
  - cbn in Hr. split; [|lia]. f_equal; [lia|]. rewrite take_take. f_equal. lia.
  - done.
Qed.

Lemma add_history_run ops : forall N added, (1 <= N)%nat -> limits_rise (Z.of_nat N) ops = true ->
  let '(N', added') := fold_left add_history ops (N, added) in
  fold_left spec_step ops (Z.of_nat N, take N added) = (Z.of_nat N', take N' added').
Proof.
  induction ops as [|op ops IH]; intros N added HN Hr; [done|]. cbn [fold_left].
  assert (H1 : limits_rise (Z.of_nat N) [op] = true).
  { clear IH. destruct op; cbn [limits_rise] in *; try done. apply andb_true_iff in Hr as [-> _]. done. }
  pose proof (add_history_step N added op HN H1) as Hs. destruct (add_history (N, added) op) as [N1 added1] eqn:E1.
  destruct Hs as [-> Hle]. apply IH; [lia|].
  destruct op; cbn in E1, Hr |- *; try (injection E1 as <- <-; done).
  - destruct (decide _); by injection E1 as <- <-.
  - injection E1 as <- <-. apply andb_true_iff in Hr as [Hr1 Hr2]. by rewrite Z2Nat.id by lia.
Qed.

(** Inserting different keys into an empty history. *)
Lemma add_history_inserts N (l : list (K * V)) : NoDup l.*1 ->
  fold_left add_history ((fun e => OpInsert e.1 e.2) <$> l) (N, []) = (N, reverse l).
Proof.
  intros Hd. enough (Hg : forall acc, NoDup (l.*1 ++ acc.*1) ->
    fold_left add_history ((fun e => OpInsert e.1 e.2) <$> l) (N, acc) = (N, reverse l ++ acc)).
  { rewrite Hg by (cbn; by rewrite app_nil_r). by rewrite app_nil_r. }
  clear Hd. induction l as [|[k v] l IH]; intros acc Hd; [done|]. cbn [fmap list_fmap fold_left fst snd]. cbn in Hd.
  apply list.NoDup_cons in Hd as [Hk Hd]. apply not_elem_of_app in Hk as [Hk1 Hk2].
  cbn [add_history]. rewrite decide_False.
  - rewrite IH, reverse_cons, <- app_assoc; [done|]. cbn. rewrite <- Permutation_middle. apply list.NoDup_cons. split; [|done].
    by apply not_elem_of_app.
  - intros Hin. apply Hk2. rewrite fmap_take in Hin. apply list_elem_of_lookup in Hin as [i Hi].
    apply lookup_take_Some in Hi as [Hi _]. by apply list_elem_of_lookup_2 in Hi.
Qed.


(** A cache with a limit of zero has no limit. The limit is compared for
    equality before an insertion, and at zero items there is nothing to drop:
    after that the size never equals the limit again, so any number of different
    keys is kept. *)
Theorem zero_limit_unbounded (l : list (K * V)) : NoDup l.*1 ->
  (nMaxSize <$> cache_run ((fun e => OpInsert e.1 e.2) <$> l) (new 0)) = Some 0 /\
  (items <$> cache_run ((fun e => OpInsert e.1 e.2) <$> l) (new 0)) = Some (reverse l).
Proof.
  intros Hd. destruct (cache_run_spec ((fun e => OpInsert e.1 e.2) <$> l) (new 0) (new_wf 0)) as (c & -> & _ & Hs). cbn.
  enough (H' : forall acc, NoDup (l.*1 ++ acc.*1) -> fold_left spec_step ((fun e => OpInsert e.1 e.2) <$> l) (0, acc) = (0, reverse l ++ acc)).
  { cbn in Hs. rewrite H' in Hs by (cbn; by rewrite app_nil_r). injection Hs as -> ->. by rewrite app_nil_r. }
  clear Hd Hs. induction l as [|[k v] l IH]; intros acc Hd; [done|]. cbn [fmap list_fmap fold_left fst snd]. cbn in Hd.
  apply list.NoDup_cons in Hd as [Hk Hd]. apply not_elem_of_app in Hk as [Hk1 Hk2].
  cbn [spec_step]. rewrite decide_False by done.
  assert (Hrem : (if Z.of_nat (length acc) =? 0 then removelast acc else acc) = acc) by (destruct acc; done).
  rewrite Hrem, IH, reverse_cons, <- app_assoc; [done|]. cbn. rewrite <- Permutation_middle. apply list.NoDup_cons. split; [|done].
  by apply not_elem_of_app.
Qed.

End CacheMap.
End CacheMap.

(** ** Concrete caches *)

Module CacheExamples.

(** Three items into a cache of two, one of them again after a copy. *)
Definition some_ops : list (CacheMap.cache_op (K := Z) (V := Z)) :=
  [CacheMap.OpInsert 1 10; CacheMap.OpInsert 2 20; CacheMap.OpCopy; CacheMap.OpInsert 3 30; CacheMap.OpInsert 2 21;
   CacheMap.OpErase 3; CacheMap.OpInsert 1 11].


Lemma zero_limit_unbounded_witness :
  CacheMap.items <$> CacheMap.cache_run ((fun e : Z * Z => CacheMap.OpInsert e.1 e.2) <$> [(1, 10); (2, 20); (3, 30)]) (CacheMap.new 0) =
  Some [(3, 30); (2, 20); (1, 10)].
Proof.
  refine (proj2 (@CacheMap.zero_limit_unbounded Z Z _ _ [(1, 10); (2, 20); (3, 30)] _)). vm_compute. by_decide.
Defined.

End CacheExamples.
