(* ===== verification/MultiMaps.v ===== *)
(** * The cache with several values per key (cachemultimap.h)

    Like the cache of [Caches], with a standard map from values to iterators for
    each key.  Such a map is a list sorted by the comparison of the values,
    searched and extended as [std::map] does; a reference to a map that was
    erased has no result when it is used. *)

From Stdlib Require Import ZArith Lia.
From S2P Require Import Prelude Caches.
From stdpp Require Import sorting base numbers option gmap list list_numbers.

Local Open Scope Z_scope.

#[local] Set Default Proof Using "Type*".

(** What [std::map] asks of the comparison of its keys. *)
Class StrictWeak {V : Type} (ltb : V -> V -> bool) : Prop := {
  ltb_irrefl : forall v, ltb v v = false;
  ltb_trans : forall u v w, ltb u v = true -> ltb v w = true -> ltb u w = true;
  ltb_incomparable : forall u v w, ltb u v = false -> ltb v u = false -> ltb v w = false -> ltb w v = false -> ltb u w = false
}.

(** A map from values to iterators, as the list of its entries in order. *)
Module ItMap.
Section ItMap.
Context {V : Type} (ltb : V -> V -> bool).

Definition equiv (u v : V) : bool := negb (ltb u v) && negb (ltb v u).

Fixpoint find (v : V) (m : list (V * nat)) : option nat :=
  match m with
  | [] => None
  | (w, a) :: m => if ltb w v then find v m else if ltb v w then None else Some a
  end.

Fixpoint emplace (v : V) (a : nat) (m : list (V * nat)) : list (V * nat) :=
  match m with
  | [] => [(v, a)]
  | (w, b) :: r => if ltb w v then (w, b) :: emplace v a r else if ltb v w then (v, a) :: m else m
  end.

Fixpoint erase (v : V) (m : list (V * nat)) : list (V * nat) :=
  match m with
  | [] => []
  | (w, b) :: r => if ltb w v then (w, b) :: erase v r else if ltb v w then m else r
  end.

Definition sorted (m : list (V * nat)) : Prop := StronglySorted (fun x y => ltb x.1 y.1 = true) m.

Context `{!StrictWeak ltb}.

Lemma equiv_true u v : equiv u v = true <-> ltb u v = false /\ ltb v u = false.
Proof. unfold equiv. rewrite andb_true_iff, !negb_true_iff. done. Qed.

Lemma sorted_cons x m : sorted (x :: m) <-> Forall (fun y => ltb x.1 y.1 = true) m /\ sorted m.
Proof. split; [by inversion 1|]. intros [H1 H2]. by constructor. Qed.

Lemma find_none v m : sorted m -> find v m = None <-> Forall (fun x => equiv v x.1 = false) m.
Proof.
  induction m as [|[w a] m IH]; intros Hs; [done|]. apply sorted_cons in Hs as [Hw Hs]. cbn [find]. rewrite Forall_cons_iff. cbn [fst].
  destruct (ltb w v) eqn:E1.
  - rewrite IH by done. unfold equiv at 2. rewrite E1. cbn. rewrite andb_false_r. tauto.
  - destruct (ltb v w) eqn:E2.
    + split; [|done]. intros _. unfold equiv at 1. rewrite E2. split; [done|]. eapply Forall_impl; [exact Hw|]. intros [u b] Hu. cbn in Hu |- *.
      unfold equiv. by rewrite (ltb_trans v w u).
    + split; [done|]. intros [H _]. unfold equiv in H. by rewrite E1, E2 in H.
Qed.

Lemma find_some v m a : sorted m -> find v m = Some a -> exists w, (w, a) ∈ m /\ equiv v w = true.
Proof.
  induction m as [|[w b] m IH]; intros Hs; [done|]. apply sorted_cons in Hs as [Hw Hs]. cbn [find]. destruct (ltb w v) eqn:E1.
  - intros H. destruct (IH Hs H) as (u & Hu & He). exists u. split; [by right|done].
  - destruct (ltb v w) eqn:E2; [done|]. intros [= <-]. exists w. split; [by left|by apply equiv_true].
Qed.

Lemma emplace_spec v a m : sorted m -> find v m = None ->
  sorted (emplace v a m) /\ forall x, x ∈ emplace v a m <-> x = (v, a) \/ x ∈ m.
Proof.
  induction m as [|[w b] m IH]; intros Hs Hf; cbn [emplace find] in *.
  { split; [by constructor; constructor|]. intros x. rewrite elem_of_cons. done. }
  apply sorted_cons in Hs as [Hw Hs]. destruct (ltb w v) eqn:E1.
  - destruct (IH Hs Hf) as [H1 H2]. split.
    + apply sorted_cons. split; [|done]. apply Forall_forall. intros x [->|Hx]%H2; [done|]. rewrite Forall_forall in Hw. by apply Hw.
    + intros x. rewrite !elem_of_cons, H2. tauto.
  - destruct (ltb v w) eqn:E2; [|done]. split; [|intros x; by rewrite !elem_of_cons].
    apply sorted_cons. split; [|by apply sorted_cons]. constructor; [done|]. eapply Forall_impl; [exact Hw|]. cbn. intros y Hy.
    by apply (ltb_trans v w y.1).
Qed.

(** Erasing removes the one entry with an equivalent value. *)
Lemma erase_spec v m w a : sorted m -> (w, a) ∈ m -> equiv v w = true ->
  sorted (erase v m) /\ (forall x, x ∈ erase v m <-> x ∈ m /\ x <> (w, a)) /\ find v m = Some a.
Proof.
  induction m as [|[u b] m IH]; intros Hs Hin He; [by apply elem_of_nil in Hin|]. apply sorted_cons in Hs as [Hu Hs].
  apply equiv_true in He as [E1 E2]. cbn [erase find]. apply elem_of_cons in Hin as [[= <- <-]|Hin].
  - rewrite E1, E2. split; [done|]. split; [|done]. intros x. rewrite elem_of_cons. split; [|tauto]. intros Hx. split; [by right|].
    intros ->. rewrite Forall_forall in Hu. specialize (Hu _ Hx). cbn in Hu. by rewrite ltb_irrefl in Hu.
  - assert (Huw : ltb u w = true) by (rewrite Forall_forall in Hu; by apply (Hu (w, a))).
    destruct (ltb u v) eqn:E3.
    + destruct (IH Hs Hin) as (H1 & H2 & H3); [by apply equiv_true|]. split; [|split; [|done]].
      * apply sorted_cons. split; [|done]. apply Forall_forall. intros x [Hx _]%H2. rewrite Forall_forall in Hu. by apply Hu.
      * intros x. rewrite !elem_of_cons, H2. split; [|tauto]. intros [->|[H4 H5]]; [|tauto]. split; [by left|].
        intros [= -> ->]. by rewrite ltb_irrefl in Huw.
    + destruct (ltb v u) eqn:E4.
      * by rewrite (ltb_trans v u w) in E1.
      * by rewrite (ltb_incomparable u v w) in Huw.
Qed.

End ItMap.
End ItMap.

Module CacheMultiMap.
Import CacheMap.

Section CacheMultiMap.
Context {K V : Type} `{Countable K} (ltb : V -> V -> bool).

Record CacheMultiMap : Type := mkMulti {
  nMaxSize : Z;
  listItems : list (nat * @CacheItem K V);
  mapIndex : gmap K (list (V * nat));
  next_node : nat
}.

Definition new (nMaxSizeIn : Z) : CacheMultiMap := mkMulti nMaxSizeIn [] ∅ 0.

Definition Clear (c : CacheMultiMap) : CacheMultiMap := mkMulti (nMaxSize c) [] ∅ (next_node c).
Definition SetMaxSize (c : CacheMultiMap) (nMaxSizeIn : Z) : CacheMultiMap := mkMulti nMaxSizeIn (listItems c) (mapIndex c) (next_node c).
Definition GetSize (c : CacheMultiMap) : Z := Z.of_nat (length (listItems c)).
Definition HasKey (c : CacheMultiMap) (k : K) : bool := bool_decide (mapIndex c !! k <> None).

(** The index without the value of an item, and without its key when no other
    value is left. *)
Definition prune_index (idx : gmap K (list (V * nat))) (k : K) (v : V) : gmap K (list (V * nat)) :=
  match idx !! k with
  | None => idx
  | Some mapIt => match ItMap.erase ltb v mapIt with [] => delete k idx | mapIt => <[k := mapIt]> idx end
  end.

Definition PruneLast (c : CacheMultiMap) : CacheMultiMap :=
  match last (listItems c) with
  | None => c
  | Some (_, item) => mkMulti (nMaxSize c) (removelast (listItems c)) (prune_index (mapIndex c) (key item) (value item)) (next_node c)
  end.

(** [None]: the reference [mapIt] is used after [PruneLast] erased what it
    refers to. *)
Definition Insert (c : CacheMultiMap) (k : K) (v : V) : option (CacheMultiMap * bool) :=
  let mapIt := default [] (mapIndex c !! k) in
  let c := mkMulti (nMaxSize c) (listItems c) (<[k := mapIt]> (mapIndex c)) (next_node c) in
  match ItMap.find ltb v mapIt with
  | Some _ => Some (c, false)
  | None =>
      let c := if GetSize c =? nMaxSize c then PruneLast c else c in
      mapIt ← mapIndex c !! k;
      Some (mkMulti (nMaxSize c) ((next_node c, mkItem k v) :: listItems c)
              (<[k := ItMap.emplace ltb v (next_node c) mapIt]> (mapIndex c)) (S (next_node c)), true)
  end.

(** The outer [None]: a dangling iterator, or the first entry of an empty map. *)
Definition Get (c : CacheMultiMap) (k : K) : option (option V) :=
  match mapIndex c !! k with
  | None => Some None
  | Some [] => None
  | Some ((_, it) :: _) => item ← Nodes.deref (listItems c) it; Some (Some (value item))
  end.

(** The values of a key; none when the key is absent. *)
Definition GetAll (c : CacheMultiMap) (k : K) : option (list V) :=
  match mapIndex c !! k with
  | None => Some []
  | Some mapIt => mapM (fun e => value <$> Nodes.deref (listItems c) e.2) mapIt
  end.

(** [Erase(key)]. *)
Definition Erase (c : CacheMultiMap) (k : K) : option CacheMultiMap :=
  match mapIndex c !! k with
  | None => Some c
  | Some mapIt =>
      l ← fold_left (fun l e => l ≫= (fun l => Nodes.erase l e.2)) mapIt (Some (listItems c));
      Some (mkMulti (nMaxSize c) l (delete k (mapIndex c)) (next_node c))
  end.

(** [Erase(key, value)]. *)
Definition EraseValue (c : CacheMultiMap) (k : K) (v : V) : option CacheMultiMap :=
  match mapIndex c !! k with
  | None => Some c
  | Some mapIt =>
      match ItMap.find ltb v mapIt with
      | None => Some c
      | Some it =>
          l ← Nodes.erase (listItems c) it;
          Some (mkMulti (nMaxSize c) l (prune_index (mapIndex c) k v) (next_node c))
      end
  end.

Definition RebuildIndex (c : CacheMultiMap) : CacheMultiMap :=
  mkMulti (nMaxSize c) (listItems c)
    (fold_left (fun idx e => <[key e.2 := ItMap.emplace ltb (value e.2) e.1 (default [] (idx !! key e.2))]> idx) (listItems c) ∅)
    (next_node c).

Definition items (c : CacheMultiMap) : list (K * V) := (fun e => (key e.2, value e.2)) <$> listItems c.

(** The entries of a key are its items, in order. *)
Definition index_ok (l : list (nat * @CacheItem K V)) (idx : gmap K (list (V * nat))) : Prop :=
  forall k, ItMap.sorted ltb (default [] (idx !! k)) /\ forall v a, (v, a) ∈ default [] (idx !! k) <-> (a, mkItem k v) ∈ l.

Definition multi_wf (c : CacheMultiMap) : Prop :=
  Nodes.nodes_ok (listItems c) (next_node c) /\ index_ok (listItems c) (mapIndex c) /\ forall k, mapIndex c !! k <> Some [].

Context `{!StrictWeak ltb}.

(** Erasing a node and its entry together keeps the index right. *)
Lemma prune_index_ok l l' idx k v w a : index_ok l idx -> (a, mkItem k w) ∈ l -> ItMap.equiv ltb v w = true ->
  (forall e, e ∈ l' <-> e ∈ l /\ e.1 <> a) -> (forall e, e ∈ l -> e.1 = a -> e = (a, mkItem k w)) ->
  index_ok l' (prune_index idx k v) /\
  (forall k', prune_index idx k v !! k' = Some [] -> idx !! k' = Some []) /\
  (forall k', k' <> k -> prune_index idx k v !! k' = idx !! k') /\
  (prune_index idx k v !! k = None <-> forall v' b, (b, mkItem k v') ∈ l -> b = a).
Proof.
  intros Hok Hin He Hl' Ha. destruct (Hok k) as [Hs Hk]. unfold prune_index. apply Hk in Hin as Hin'.
  destruct (idx !! k) as [m|] eqn:Em; cbn [default] in *; [|by apply elem_of_nil in Hin'].
  destruct (ItMap.erase_spec ltb v m w a Hs Hin' He) as (Hs' & Hx & _).
  assert (Hm' : forall v' b, (v', b) ∈ ItMap.erase ltb v m <-> (b, mkItem k v') ∈ l').
  { intros v' b. rewrite Hx, Hl', Hk. cbn. split; intros [H1 H2]; (split; [done|]).
    - intros ->. apply Ha in H1; [|done]. injection H1 as ->. by apply H2.
    - intros [= -> ->]. done. }
  assert (Hother : forall k', k' <> k -> forall v' b, (v', b) ∈ default [] (idx !! k') <-> (b, mkItem k' v') ∈ l').
  { intros k' Hne v' b. destruct (Hok k') as [_ Hk']. rewrite Hk', Hl'. cbn. split; [|tauto]. intros H1. split; [done|].
    intros ->. apply Ha in H1; [|done]. by injection H1. }
  assert (Hnil : ItMap.erase ltb v m = [] <-> forall v' b, (b, mkItem k v') ∈ l -> b = a).
  { split.
    - intros E v' b Hb. destruct (decide (b = a)) as [|Hne]; [done|].
      assert (Hbad : (v', b) ∈ ItMap.erase ltb v m) by (apply Hm', Hl'; done). rewrite E in Hbad. by apply elem_of_nil in Hbad.
    - intros Hall. destruct (ItMap.erase ltb v m) as [|[v' b] r]; [done|]. exfalso.
      assert (Hb : (b, mkItem k v') ∈ l') by (apply Hm'; by left). apply Hl' in Hb as [Hb Hne]. cbn in Hne. by apply Hne, (Hall v'). }
  destruct (ItMap.erase ltb v m) as [|x r] eqn:Er.
  - split; [|split; [|split]].
    + intros k'. destruct (decide (k' = k)) as [->|Hne].
      * rewrite lookup_delete_eq. split; [constructor|]. exact Hm'.
      * rewrite lookup_delete_ne by done. split; [apply (Hok k')|by apply Hother].
    + intros k' E. apply lookup_delete_Some in E. tauto.
    + intros k' Hne. by rewrite lookup_delete_ne.
    + rewrite lookup_delete_eq. tauto.
  - split; [|split; [|split]].
    + intros k'. destruct (decide (k' = k)) as [->|Hne].
      * rewrite lookup_insert_eq. split; [exact Hs'|exact Hm'].
      * rewrite lookup_insert_ne by done. split; [apply (Hok k')|by apply Hother].
    + intros k' E. destruct (decide (k' = k)) as [->|Hne]; [by rewrite lookup_insert_eq in E|by rewrite lookup_insert_ne in E].
    + intros k' Hne. by rewrite lookup_insert_ne.
    + rewrite lookup_insert_eq. split; [done|]. intros Hall. apply Hnil in Hall. done.
Qed.

(** The oldest item is the only one of its key. *)
Definition oldest_alone (l : list (nat * @CacheItem K V)) (k : K) : Prop :=
  exists a w, last l = Some (a, mkItem k w) /\ forall v b, (b, mkItem k v) ∈ l -> b = a.

Lemma PruneLast_ok c : Nodes.nodes_ok (listItems c) (next_node c) -> index_ok (listItems c) (mapIndex c) ->
  let c' := PruneLast c in
  (Nodes.nodes_ok (listItems c') (next_node c') /\ index_ok (listItems c') (mapIndex c') /\ items c' = removelast (items c)) /\
  (forall k, mapIndex c' !! k = Some [] -> mapIndex c !! k = Some []) /\
  (forall k, mapIndex c !! k <> None -> mapIndex c' !! k = None <-> oldest_alone (listItems c) k).
Proof.
  intros Hn Hok c'. subst c'. unfold PruneLast. destruct c as [max l idx next]. cbn [listItems mapIndex next_node nMaxSize] in *.
  unfold items, oldest_alone. cbn [listItems].
  destruct l as [|[a [k w]] l _] using rev_ind.
  { cbn. split; [done|]. split; [done|]. intros k Hk. split; [done|]. by intros (a & w & E & _). }
  rewrite last_snoc, removelast_last. cbn [listItems mapIndex next_node key value].
  assert (Huniq : forall e, e ∈ l ++ [(a, mkItem k w)] -> e.1 = a -> e = (a, mkItem k w)).
  { intros [b x] He <-. assert (Hin : (b, mkItem k w) ∈ l ++ [(b, mkItem k w)]) by (apply elem_of_app; right; by left).
    pose proof (Nodes.deref_in _ _ _ _ Hn Hin) as E. cbn in He. rewrite (Nodes.deref_in _ _ _ _ Hn He) in E. by injection E as ->. }
  assert (Hl : forall e, e ∈ l <-> e ∈ l ++ [(a, mkItem k w)] /\ e.1 <> a).
  { intros e. rewrite elem_of_app, list_elem_of_singleton. split; [|intros [[He| ->] Hne]; done]. intros He. split; [by left|].
    destruct Hn as [Hd _]. rewrite fmap_app in Hd. apply NoDup_app in Hd as (_ & Hd & _). intros <-. apply (Hd e.1); [|by left].
    apply list_elem_of_fmap. by exists e. }
  destruct (prune_index_ok (l ++ [(a, mkItem k w)]) l idx k w w a Hok) as (H1 & H2 & H3 & H4); [apply elem_of_app; right; by left| |done|done|].
  { apply ItMap.equiv_true; [exact _|]. split; apply (ltb_irrefl w). }
  split; [split; [|split; [done|]]|split; [done|]].
  - eapply Nodes.nodes_ok_sublist; [|exact Hn]. by apply sublist_inserts_r.
  - rewrite fmap_app. cbn. by rewrite removelast_last.
  - intros k' Hk'. destruct (decide (k' = k)) as [->|Hne].
    + rewrite H4. split; [intros Hall; by exists a, w|]. intros (b & w' & [= <- <-] & Hall). exact Hall.
    + rewrite H3 by done. split; [done|]. intros (b & w' & [= _ <- _] & _). done.
Qed.

(** The values of a key, up to equivalence. *)
Definition has_value (c : CacheMultiMap) (k : K) (v : V) : Prop := exists w, (k, w) ∈ items c /\ ItMap.equiv ltb v w = true.

Lemma items_in c k v : (k, v) ∈ items c <-> exists a, (a, mkItem k v) ∈ listItems c.
Proof.
  unfold items. rewrite list_elem_of_fmap. split.
  - intros ([a [k' v']] & [= -> ->] & Hin). by exists a.
  - intros [a Hin]. by exists (a, mkItem k v).
Qed.

Lemma find_value c k v : index_ok (listItems c) (mapIndex c) ->
  ItMap.find ltb v (default [] (mapIndex c !! k)) = None <-> ~ has_value c k v.
Proof.
  intros Hok. destruct (Hok k) as [Hs Hk]. rewrite ItMap.find_none by done. rewrite Forall_forall. split.
  - intros Hall (w & Hin & He). apply items_in in Hin as [a Hin]. apply Hk, Hall in Hin. cbn in Hin. congruence.
  - intros Hno [w a] Hin. apply not_true_iff_false. intros He. apply Hno. exists w. split; [|done]. apply items_in. exists a. by apply Hk.
Qed.

Lemma index_ok_key l idx k : index_ok l idx -> index_ok l (<[k := default [] (idx !! k)]> idx).
Proof.
  intros Hok k'. destruct (decide (k' = k)) as [->|Hne]; [rewrite lookup_insert_eq|rewrite lookup_insert_ne by done]; apply Hok.
Qed.

(** A new node and its entry together keep the index right. *)
Lemma emplace_ok l idx k v a mapIt : index_ok l idx -> idx !! k = Some mapIt -> ItMap.find ltb v mapIt = None ->
  index_ok ((a, mkItem k v) :: l) (<[k := ItMap.emplace ltb v a mapIt]> idx) /\ ItMap.emplace ltb v a mapIt <> [].
Proof.
  intros Hok Hk Hf. destruct (Hok k) as [Hs Hin]. rewrite Hk in Hs, Hin. cbn [default] in Hs, Hin.
  destruct (ItMap.emplace_spec ltb v a mapIt Hs Hf) as [Hs' Hx]. split.
  - intros k'. destruct (decide (k' = k)) as [->|Hne].
    + rewrite lookup_insert_eq. split; [done|]. intros v' b. cbn [default]. rewrite Hx, Hin, elem_of_cons.
      split; (intros [E|E]; [left; by injection E as -> ->|by right]).
    + rewrite lookup_insert_ne by done. split; [apply (Hok k')|]. intros v' b. destruct (Hok k') as [_ ->]. rewrite elem_of_cons.
      split; [by right|]. intros [[= _ E _]|E]; [by destruct Hne|done].
  - intros E. assert (Hv : (v, a) ∈ ItMap.emplace ltb v a mapIt) by (apply Hx; by left). rewrite E in Hv. by apply elem_of_nil in Hv.
Qed.

#[export] Instance has_value_dec c k v : Decision (has_value c k v).
Proof.
  refine (cast_if (decide (Exists (fun e => e.1 = k /\ ItMap.equiv ltb v e.2 = true) (items c)))); rewrite Exists_exists in *.
  - destruct e as ([k' w] & Hin & Hk & He). cbn in *. subst k'. by exists w.
  - intros (w & Hin & He). apply n. by exists (k, w).
Defined.

Lemma oldest_alone_dec l k : oldest_alone l k \/ ~ oldest_alone l k.
Proof.
  unfold oldest_alone. destruct (last l) as [[a [k' w]]|]; [|right; by intros (a & w & E & _)].
  destruct (decide (k' = k)) as [->|Hne]; [|right; by intros (b & w' & [= _ <- _] & _)].
  destruct (decide (Forall (fun e => key e.2 = k -> e.1 = a) l)) as [Hall|Hall]; rewrite Forall_forall in Hall.
  - left. exists a, w. split; [done|]. intros v b Hin. by apply (Hall _ Hin).
  - right. intros (b & w' & [= <- <-] & Hb). apply Hall. intros [b [k' v]] Hin Hk. cbn in *. subst k'. by apply (Hb v).
Qed.

(** The cases of an insertion. *)
Lemma Insert_cases c k v : multi_wf c ->
  (has_value c k v -> exists c', Insert c k v = Some (c', false) /\ multi_wf c' /\ items c' = items c) /\
  (~ has_value c k v ->
     (GetSize c = nMaxSize c /\ oldest_alone (listItems c) k -> Insert c k v = None) /\
     (~ (GetSize c = nMaxSize c /\ oldest_alone (listItems c) k) ->
        exists c', Insert c k v = Some (c', true) /\ multi_wf c' /\
          items c' = (k, v) :: (if GetSize c =? nMaxSize c then removelast (items c) else items c))).
Proof.
  intros (Hn & Hok & Hne). unfold Insert. pose proof (find_value c k v Hok) as Hf. split.
  - intros Hv. destruct (ItMap.find ltb v _) as [a|] eqn:E; [|tauto]. eexists. split; [done|]. split; [|done]. split; [done|].
    split; [by apply index_ok_key|]. cbn. intros k'. destruct (decide (k' = k)) as [->|Hk]; [|by rewrite lookup_insert_ne].
    rewrite lookup_insert_eq. destruct (mapIndex c !! k) as [m|] eqn:Em; [|by cbn in E]. specialize (Hne k). rewrite Em in Hne. exact Hne.
  - intros Hv. apply Hf in Hv. rewrite Hv. set (c1 := mkMulti _ _ _ _).
    assert (Hok1 : index_ok (listItems c1) (mapIndex c1)) by (by apply index_ok_key).
    assert (Hk1 : mapIndex c1 !! k <> None) by (cbn; by rewrite lookup_insert_eq).
    assert (Hempty : forall k', k' <> k -> mapIndex c1 !! k' <> Some []) by (intros k' Hk; cbn; by rewrite lookup_insert_ne).
    destruct (PruneLast_ok c1 Hn Hok1) as ((P1 & P2 & P3) & P4 & P5). specialize (P5 k Hk1).
    change (GetSize c1) with (GetSize c). change (nMaxSize c1) with (nMaxSize c). change (items c1) with (items c) in P3.
    change (listItems c1) with (listItems c) in P5.
    set (c2 := if GetSize c =? nMaxSize c then PruneLast c1 else c1).
    assert (H2 : Nodes.nodes_ok (listItems c2) (next_node c2) /\ index_ok (listItems c2) (mapIndex c2) /\
      items c2 = (if GetSize c =? nMaxSize c then removelast (items c) else items c) /\ (forall k', k' <> k -> mapIndex c2 !! k' <> Some [])).
    { subst c2. destruct (_ =? _); [|done]. split; [done|]. split; [done|]. split; [done|]. intros k' Hk E. by apply (Hempty k' Hk), P4. }
    destruct H2 as (Hn2 & Hok2 & Hit & Hne2). split.
    + intros [Hfull Ho]. assert (E : mapIndex c2 !! k = None) by (subst c2; rewrite (proj2 (Z.eqb_eq _ _)) by done; by apply P5). by rewrite E.
    + intros Hno. destruct (mapIndex c2 !! k) as [m|] eqn:Em.
      * cbn [mbind option_bind]. assert (Hfm : ItMap.find ltb v m = None).
        { pose proof (find_value c2 k v Hok2) as Hf2. rewrite Em in Hf2. apply Hf2. intros (w & Hin & He).
          apply (proj1 Hf Hv). exists w. split; [|done]. rewrite Hit in Hin. destruct (_ =? _); [|done].
          destruct (items c) as [|x l _] using rev_ind; [done|]. rewrite removelast_last in Hin. apply elem_of_app. by left. }
        destruct (emplace_ok (listItems c2) (mapIndex c2) k v (next_node c2) m Hok2 Em Hfm) as [Hok3 Hm3].
        eexists. split; [done|]. split; [|unfold items at 1; cbn; by rewrite <- Hit]. split; [by apply Nodes.nodes_ok_cons|]. split; [done|].
        intros k'. cbn. destruct (decide (k' = k)) as [->|Hk]; [rewrite lookup_insert_eq; congruence|].
        rewrite lookup_insert_ne by done. by apply Hne2.
      * destruct Hno. subst c2. destruct (GetSize c =? nMaxSize c) eqn:Ef; [|by destruct Hk1]. split; [by apply Z.eqb_eq|]. by apply P5.
Qed.

(** What an insertion into the multimap does, exactly. It is refused, and
    changes nothing, exactly when the key has an equivalent value. Otherwise it
    uses a freed map exactly when the cache is full and the item to drop is the
    only one of the same key; in every other case the new item comes first, the
    oldest goes when the cache was full, and list and index stay in agreement. *)
Theorem multimap_insert_exact c k v : multi_wf c ->
  match Insert c k v with
  | None => ~ has_value c k v /\ GetSize c = nMaxSize c /\ oldest_alone (listItems c) k
  | Some (c', false) => has_value c k v /\ multi_wf c' /\ items c' = items c
  | Some (c', true) =>
      ~ has_value c k v /\ ~ (GetSize c = nMaxSize c /\ oldest_alone (listItems c) k) /\ multi_wf c' /\
      items c' = (k, v) :: (if GetSize c =? nMaxSize c then removelast (items c) else items c)
  end.
Proof.
  intros Hwf. destruct (Insert_cases c k v Hwf) as [H1 H2]. 
  destruct (decide (has_value c k v)) as [Hv|Hv].
  - destruct (H1 Hv) as (c' & -> & H'). done.
  - destruct (H2 Hv) as [H3 H4]. destruct (oldest_alone_dec (listItems c) k) as [Ho|Ho].
    + destruct (decide (GetSize c = nMaxSize c)) as [Hs|Hs]; [by rewrite H3|].
      destruct H4 as (c' & -> & H'); [tauto|]. tauto.
    + destruct H4 as (c' & -> & H'); [tauto|]. tauto.
Qed.

(** Erasing a value removes its one item, and never follows a dangling iterator. *)
Lemma EraseValue_spec c k v : multi_wf c ->
  exists c', EraseValue c k v = Some c' /\ multi_wf c' /\ sublist (items c') (items c) /\
    forall k' w, (k', w) ∈ items c' -> (k', w) ∈ items c /\ ~ (k' = k /\ ItMap.equiv ltb v w = true).
Proof.
  intros (Hn & Hok & Hne). unfold EraseValue. pose proof (find_value c k v Hok) as Hf.
  destruct (mapIndex c !! k) as [m|] eqn:Em; cbn [default] in Hf.
  2: { exists c. split; [done|]. split; [done|]. split; [done|]. intros k' w Hin. split; [done|]. intros [-> He].
       apply (proj1 Hf); [done|]. by exists w. }
  destruct (ItMap.find ltb v m) as [a|] eqn:Ef.
  2: { exists c. split; [done|]. split; [done|]. split; [done|]. intros k' w Hin. split; [done|]. intros [-> He].
       apply (proj1 Hf); [done|]. by exists w. }
  destruct (Hok k) as [Hs Hk]. rewrite Em in Hs, Hk. cbn [default] in Hs, Hk.
  destruct (ItMap.find_some ltb v m a Hs Ef) as (w & Hin & He). apply Hk in Hin as Hin'.
  unfold Nodes.erase. rewrite (Nodes.deref_in _ _ _ _ Hn Hin'). cbn [mbind option_bind]. eexists. split; [done|].
  assert (Huniq : forall e, e ∈ listItems c -> e.1 = a -> e = (a, mkItem k w)).
  { intros [b x] He' <-. pose proof (Nodes.deref_in _ _ _ _ Hn Hin') as E. cbn in E, He'. rewrite (Nodes.deref_in _ _ _ _ Hn He') in E.
    by injection E as ->. }
  destruct (prune_index_ok (listItems c) (filter (fun e => e.1 <> a) (listItems c)) (mapIndex c) k v w a Hok Hin' He) as (H1 & H2 & H3 & H4);
    [intros e; rewrite list_elem_of_filter; tauto|done|].
  split; [|split; [apply fmap_sublist, sublist_filter|]].
  - split; [eapply Nodes.nodes_ok_sublist; [apply sublist_filter|exact Hn]|]. split; [exact H1|]. intros k' E. by apply (Hne k'), H2.
  - intros k' w' Hin2. apply items_in in Hin2 as [b Hb]. cbn in Hb. apply list_elem_of_filter in Hb as [Hba Hb]. cbn in Hba.
    split; [apply items_in; eauto|]. intros [-> He']. apply Hba.
    assert (Hw' : (w', b) ∈ m) by (by apply Hk). destruct (ItMap.erase_spec ltb v m w' b Hs Hw' He') as (_ & _ & E). congruence.
Qed.

Lemma multi_new_wf max : multi_wf (new max).
Proof.
  split; [split; constructor|]. split; [|by intros k; cbn; rewrite lookup_empty].
  intros k. cbn. rewrite lookup_empty. split; [constructor|]. intros v a. split; intros Hin; by apply elem_of_nil in Hin.
Qed.

End CacheMultiMap.
End CacheMultiMap.

(** ** Concrete caches *)

Module MultiMapExamples.

#[export] Instance Z_strict_weak : StrictWeak Z.ltb.
Proof. split; intros; lia. Qed.

(** A full cache with one item, and another value for its key. *)
Lemma multimap_insert_exact_witness :
  exists c, CacheMultiMap.Insert Z.ltb (CacheMultiMap.new 1) 5 10 = Some (c, true) /\ CacheMultiMap.Insert Z.ltb c 5 20 = None /\
    CacheMultiMap.GetSize c = CacheMultiMap.nMaxSize c.
Proof.
  pose proof (CacheMultiMap.multimap_insert_exact Z.ltb (CacheMultiMap.new 1) 5 10 (CacheMultiMap.multi_new_wf Z.ltb 1)) as H.
  destruct (CacheMultiMap.Insert Z.ltb (CacheMultiMap.new 1) 5 10) as [[c b]|] eqn:Hc; [|discriminate Hc].
  assert (Hb : b = true) by (vm_compute in Hc; by injection Hc as _ <-). subst b. destruct H as (_ & _ & Hwf & _).
  assert (Hn : CacheMultiMap.Insert Z.ltb c 5 20 = None) by (vm_compute in Hc; injection Hc as <-; vm_compute; reflexivity).
  exists c. split; [reflexivity|]. split; [exact Hn|].
  pose proof (CacheMultiMap.multimap_insert_exact Z.ltb c 5 20 Hwf) as H. rewrite Hn in H. exact (proj1 (proj2 H)).
Defined.

End MultiMapExamples.
