(* ===== verification/Governance.v ===== *)
(** * Governance votes, triggers and superblocks (governance-vote.cpp,
    governance-votedb.cpp, governance-object.cpp, governance-classes.cpp)

    A governance object collects the votes of masternodes; a trigger is an object
    that schedules the payments of a superblock, and the superblock with the most
    support decides the payments of the coinbase at its height.  The masternode
    list, the clock and the sporks that the code reads are the fields of an
    environment; a governance object's data, read as JSON by a library, is the
    block height and the two strings of a trigger, or nothing when the reading
    throws. *)

From stdpp Require Import base list list_numbers gmap sorting numbers option strings.
From Stdlib Require Import ZArith Lia.
From S2P Require Import Prelude Serialize Script Transaction Interpreter InterpreterSafety Standard Encodings Decimal FluidToken FluidDB Spork Caches MultiMaps.

Local Open Scope Z_scope.

Module Governance.
Import Serialize Script Transaction Interpreter InterpreterSafety Encodings Decimal FluidToken.

(** ** Votes *)

Definition VOTE_OUTCOME_NONE : Z := 0.
Definition VOTE_OUTCOME_YES : Z := 1.
Definition VOTE_OUTCOME_NO : Z := 2.
Definition VOTE_OUTCOME_ABSTAIN : Z := 3.
Definition VOTE_SIGNAL_NONE : Z := 0.
Definition VOTE_SIGNAL_FUNDING : Z := 1.
Definition VOTE_SIGNAL_VALID : Z := 2.
Definition VOTE_SIGNAL_DELETE : Z := 3.
Definition VOTE_SIGNAL_ENDORSED : Z := 4.
Definition MAX_SUPPORTED_VOTE_SIGNAL : Z := VOTE_SIGNAL_ENDORSED.
Definition GOVERNANCE_UPDATE_MIN : Z := 60 * 60.
Definition GOVERNANCE_ORPHAN_EXPIRATION_TIME : Z := 10 * 60.

Record CGovernanceVote : Type := mkVote {
  nVoteSignal : Z;
  masternodeOutpoint : COutPoint;
  nParentHash : list Z;
  nVoteOutcome : Z;
  vTime : Z;
  vvchSig : list Z
}.

#[export] Instance CGovernanceVote_eq_dec : EqDecision CGovernanceVote.
Proof. solve_decision. Defined.

(** The order of [COutPoint]: hashes by [memcmp], then indices. *)
Definition outpoint_lt (a b : COutPoint) : bool :=
  FluidDB.bytes_lt (hash a) (hash b) || (bool_decide (hash a = hash b) && (n a <? n b)).

(** [operator<], with its early returns. *)
Definition vote_lt (v1 v2 : CGovernanceVote) : bool :=
  if negb (outpoint_lt (masternodeOutpoint v1) (masternodeOutpoint v2)) then false
  else
    let fResult := bool_decide (masternodeOutpoint v1 = masternodeOutpoint v2) in
    let fResult := fResult && FluidDB.bytes_lt (nParentHash v1) (nParentHash v2) in
    if negb fResult then false
    else
      let fResult := fResult && bool_decide (nParentHash v1 = nParentHash v2) in
      let fResult := fResult && (nVoteOutcome v1 <? nVoteOutcome v2) in
      if negb fResult then false
      else
        let fResult := fResult && (nVoteOutcome v1 =? nVoteOutcome v2) in
        let fResult := fResult && (nVoteSignal v1 =? nVoteSignal v2) in
        if negb fResult then false
        else
          let fResult := fResult && (nVoteSignal v1 =? nVoteSignal v2) in
          fResult && (vTime v1 <? vTime v2).

(** The order of votes with their times of expiry looks at the votes only. *)
Definition pair_lt (p1 p2 : CGovernanceVote * Z) : bool := vote_lt p1.1 p2.1.

(** The enumeration of signals has an unsigned representation. *)
Definition GetSignal (v : CGovernanceVote) : Z := u32 (nVoteSignal v).

(** What is known of a masternode. *)
Record masternode_info : Type := mkInfo {
  pubKeyMasternode : list Z;
  pubKeyCollateralAddress : list Z;
  nProtocolVersion : Z
}.

(** What the functions read of the rest of the node. *)
Record gov_env : Type := mkGov {
  GetMasternodeInfo : COutPoint -> option masternode_info;
  CountEnabled : Z;
  AreRateChecksEnabled : bool;
  gov_time : Z;
  spork6 : bool;
  nGovernanceMinQuorum : Z
}.

Definition mn_Has (env : gov_env) (o : COutPoint) : bool := bool_decide (GetMasternodeInfo env o <> None).

Section Votes.
Context {CR : Crypto} {PK : PubKeyRecovery}.

Definition vote_GetHash (v : CGovernanceVote) : list Z :=
  CHash256 (Ser c_outpoint (masternodeOutpoint v) ++ Ser c_uint8 0 ++ Ser c_uint32 0xffffffff ++ nParentHash v ++
            Ser c_int32 (nVoteSignal v) ++ Ser c_int32 (nVoteOutcome v) ++ Ser c_int64 (vTime v)).

Definition vote_GetSignatureHash (v : CGovernanceVote) : list Z :=
  CHash256 (Ser c_outpoint (masternodeOutpoint v) ++ nParentHash v ++
            Ser c_int32 (nVoteOutcome v) ++ Ser c_int32 (nVoteSignal v) ++ Ser c_int64 (vTime v)).

(** [uint256::ToString]: the bytes from last to first. *)
Definition hash_string (h : list Z) : list Z := HexStr (rev h).

Definition ToStringShort (o : COutPoint) : list Z := take 64 (hash_string (hash o)) ++ [45] ++ show_d (n o).

Definition vote_message (v : CGovernanceVote) : list Z :=
  ToStringShort (masternodeOutpoint v) ++ [124] ++ hash_string (nParentHash v) ++ [124] ++
  show_int (nVoteSignal v) ++ [124] ++ show_int (nVoteOutcome v) ++ [124] ++ show_int (vTime v).

Definition vote_CheckSignature (env : gov_env) (v : CGovernanceVote) (pubKey : list Z) : bool :=
  if spork6 env then
    Spork.VerifyHash (vote_GetSignatureHash v) (CHash160 pubKey) (vvchSig v) ||
    Spork.VerifyMessage (CHash160 pubKey) (vvchSig v) (vote_message v)
  else Spork.VerifyMessage (CHash160 pubKey) (vvchSig v) (vote_message v).

Definition vote_IsValid (env : gov_env) (v : CGovernanceVote) (fSignatureCheck : bool) : bool :=
  if i64 (gov_time env + 60 * 60) <? vTime v then false
  else if MAX_SUPPORTED_VOTE_SIGNAL <? nVoteSignal v then false
  else if 3 <? nVoteOutcome v then false
  else match GetMasternodeInfo env (masternodeOutpoint v) with
       | None => false
       | Some infoMn => if negb fSignatureCheck then true else vote_CheckSignature env v (pubKeyMasternode infoMn)
       end.

(** ** The file of votes *)

Record vote_file : Type := mkFile {
  nMemoryVotes : Z;
  listVotes : list CGovernanceVote;
  mapVoteIndex : gmap (list Z) CGovernanceVote
}.

Definition empty_file : vote_file := mkFile 0 [] ∅.

Definition HasVote (f : vote_file) (h : list Z) : bool := bool_decide (mapVoteIndex f !! h <> None).

Definition AddVote (f : vote_file) (v : CGovernanceVote) : vote_file :=
  if HasVote f (vote_GetHash v) then f
  else mkFile (nMemoryVotes f + 1) (v :: listVotes f) (<[vote_GetHash v := v]> (mapVoteIndex f)).

Fixpoint remove_votes (l : list CGovernanceVote) (o : COutPoint) (f : vote_file) : vote_file :=
  match l with
  | [] => f
  | v :: l =>
      let r := remove_votes l o in
      if decide (masternodeOutpoint v = o) then
        r (mkFile (nMemoryVotes f - 1) (listVotes f) (delete (vote_GetHash v) (mapVoteIndex f)))
      else r (mkFile (nMemoryVotes f) (listVotes f ++ [v]) (mapVoteIndex f))
  end.

Definition RemoveVotesFromMasternode (f : vote_file) (o : COutPoint) : vote_file :=
  remove_votes (listVotes f) o (mkFile (nMemoryVotes f) [] (mapVoteIndex f)).

Fixpoint rebuild (l : list CGovernanceVote) (f : vote_file) : vote_file :=
  match l with
  | [] => f
  | v :: l =>
      if HasVote f (vote_GetHash v) then rebuild l f
      else rebuild l (mkFile (nMemoryVotes f + 1) (listVotes f ++ [v]) (<[vote_GetHash v := v]> (mapVoteIndex f)))
  end.

Definition RebuildIndex (f : vote_file) : vote_file := rebuild (listVotes f) empty_file.

(** ** Objects *)

Record vote_instance_t : Type := mkInstance { eOutcome : Z; iTime : Z; nCreationTime : Z }.
Definition no_vote : vote_instance_t := mkInstance VOTE_OUTCOME_NONE 0 0.

Record CGovernanceObject : Type := mkObject {
  nObjectType : Z;
  object_nTime : Z;
  object_outpoint : COutPoint;
  trigger_data : option (Z * list Z * list Z);
  nDeletionTime : Z;
  fCachedFunding : bool;
  fCachedValid : bool;
  fCachedDelete : bool;
  fCachedEndorsed : bool;
  fDirtyCache : bool;
  fExpired : bool;
  mapCurrentMNVotes : gmap COutPoint (gmap Z vote_instance_t);
  fileVotes : vote_file;
  cmmapOrphanVotes : CacheMultiMap.CacheMultiMap (K := COutPoint) (V := CGovernanceVote * Z)
}.

Definition set_votes (obj : CGovernanceObject) votes file dirty : CGovernanceObject :=
  mkObject (nObjectType obj) (object_nTime obj) (object_outpoint obj) (trigger_data obj) (nDeletionTime obj) (fCachedFunding obj) (fCachedValid obj) (fCachedDelete obj)
    (fCachedEndorsed obj) dirty (fExpired obj) votes file (cmmapOrphanVotes obj).

Definition set_orphans (obj : CGovernanceObject) orphans : CGovernanceObject :=
  mkObject (nObjectType obj) (object_nTime obj) (object_outpoint obj) (trigger_data obj) (nDeletionTime obj) (fCachedFunding obj) (fCachedValid obj) (fCachedDelete obj)
    (fCachedEndorsed obj) (fDirtyCache obj) (fExpired obj) (mapCurrentMNVotes obj) (fileVotes obj) orphans.

(** The returns of [ProcessVote]; an orphan vote that is kept makes the node ask
    for the masternode.  [FreedMapUsed]: the cache of orphans used freed memory. *)
Inductive vote_result : Type :=
  | KnownVote | OrphanVote (asked : bool) | FreedMapUsed | NoSignal | UnsupportedSignal | ObsoleteVote | VotingTooOften | InvalidVote | NotAdded | Accepted.

#[export] Instance vote_result_eq_dec : EqDecision vote_result.
Proof. solve_decision. Defined.

(** The record of the masternode and the instance of the signal are made before
    the vote is checked. *)
Definition ProcessVote (env : gov_env) (obj : CGovernanceObject) (vote : CGovernanceVote) : CGovernanceObject * vote_result :=
  if HasVote (fileVotes obj) (vote_GetHash vote) then (obj, KnownVote)
  else if negb (mn_Has env (masternodeOutpoint vote)) then
    match CacheMultiMap.Insert pair_lt (cmmapOrphanVotes obj) (masternodeOutpoint vote)
            (vote, i64 (gov_time env + GOVERNANCE_ORPHAN_EXPIRATION_TIME)) with
    | None => (obj, FreedMapUsed)
    | Some (orphans, asked) => (set_orphans obj orphans, OrphanVote asked)
    end
  else
    let rec := default ∅ (mapCurrentMNVotes obj !! masternodeOutpoint vote) in
    let put rec file dirty := set_votes obj (<[masternodeOutpoint vote := rec]> (mapCurrentMNVotes obj)) file dirty in
    let eSignal := GetSignal vote in
    if eSignal =? VOTE_SIGNAL_NONE then (put rec (fileVotes obj) (fDirtyCache obj), NoSignal)
    else if MAX_SUPPORTED_VOTE_SIGNAL <? eSignal then (put rec (fileVotes obj) (fDirtyCache obj), UnsupportedSignal)
    else
      let voteInstance := default no_vote (rec !! eSignal) in
      let rec := <[eSignal := voteInstance]> rec in
      let unchanged := put rec (fileVotes obj) (fDirtyCache obj) in
      if vTime vote <? nCreationTime voteInstance then (unchanged, ObsoleteVote)
      else
        let nVoteTimeUpdate := iTime voteInstance in
        if AreRateChecksEnabled env && (i64 (gov_time env - iTime voteInstance) <? GOVERNANCE_UPDATE_MIN) then (unchanged, VotingTooOften)
        else if negb (vote_IsValid env vote true) then (unchanged, InvalidVote)
        else if negb (mn_Has env (masternodeOutpoint vote)) then (unchanged, NotAdded)
        else (put (<[eSignal := mkInstance (nVoteOutcome vote) nVoteTimeUpdate (vTime vote)]> rec) (AddVote (fileVotes obj) vote) true, Accepted).

Definition ClearMasternodeVotes (env : gov_env) (obj : CGovernanceObject) : CGovernanceObject :=
  set_votes obj (filter (fun e => mn_Has env e.1 = true) (mapCurrentMNVotes obj))
    (fold_left (fun f o => if mn_Has env o then f else RemoveVotesFromMasternode f o) (map_to_list (mapCurrentMNVotes obj)).*1 (fileVotes obj))
    (fDirtyCache obj).

Definition CountMatchingVotes (obj : CGovernanceObject) (eVoteSignalIn eVoteOutcomeIn : Z) : Z :=
  Z.of_nat (size (filter (fun e => eOutcome <$> e.2 !! eVoteSignalIn = Some eVoteOutcomeIn) (mapCurrentMNVotes obj))).

Definition GetAbsoluteYesCount (obj : CGovernanceObject) (signal : Z) : Z :=
  CountMatchingVotes obj signal VOTE_OUTCOME_YES - CountMatchingVotes obj signal VOTE_OUTCOME_NO.

Definition GetAbsoluteNoCount (obj : CGovernanceObject) (signal : Z) : Z :=
  CountMatchingVotes obj signal VOTE_OUTCOME_NO - CountMatchingVotes obj signal VOTE_OUTCOME_YES.

Definition UpdateSentinelVariables (env : gov_env) (obj : CGovernanceObject) : CGovernanceObject :=
  let nMnCount := CountEnabled env in
  if nMnCount =? 0 then obj
  else
    let nAbsVoteReq := Z.max (nGovernanceMinQuorum env) (Z.quot nMnCount 10) in
    let nAbsDeleteReq := Z.max (nGovernanceMinQuorum env) (Z.quot (2 * nMnCount) 3) in
    let delete_now := (nAbsDeleteReq <=? GetAbsoluteYesCount obj VOTE_SIGNAL_DELETE) && negb (fCachedDelete obj) in
    mkObject (nObjectType obj) (object_nTime obj) (object_outpoint obj) (trigger_data obj)
      (if delete_now && (nDeletionTime obj =? 0) then gov_time env else nDeletionTime obj)
      (nAbsVoteReq <=? GetAbsoluteYesCount obj VOTE_SIGNAL_FUNDING)
      (negb (nAbsVoteReq <=? GetAbsoluteNoCount obj VOTE_SIGNAL_VALID))
      (fCachedDelete obj || delete_now)
      (nAbsVoteReq <=? GetAbsoluteYesCount obj VOTE_SIGNAL_ENDORSED)
      false (fExpired obj) (mapCurrentMNVotes obj) (fileVotes obj) (cmmapOrphanVotes obj).

End Votes.

(** ** Superblocks *)

Definition GOVERNANCE_OBJECT_TRIGGER : Z := 2.
Definition SEEN_OBJECT_IS_VALID : Z := 0.
Definition SEEN_OBJECT_ERROR_INVALID : Z := 1.
Definition SEEN_OBJECT_EXECUTED : Z := 3.
Definition SEEN_OBJECT_UNKNOWN : Z := 4.
Definition STATIC_SUPERBLOCK_AMOUNT : Z := 0.

(** The consensus parameters of superblocks and of the older budgets. *)
Record superblock_params : Type := mkSuperblockParams {
  nSuperblockStartBlock : Z;
  nSuperblockCycle : Z;
  nBudgetPaymentsStartBlock : Z;
  nBudgetPaymentsCycleBlocks : Z;
  nBudgetPaymentsWindowBlocks : Z
}.

Definition main_superblocks : superblock_params := mkSuperblockParams 2880 87660 8640 438291 3600.
Definition testnet_superblocks : superblock_params := mkSuperblockParams 2880 87660 8640 438291 3600.
Definition regtest_superblocks : superblock_params := mkSuperblockParams 0 10 1000 50 10.
Definition privatenet_superblocks : superblock_params := mkSuperblockParams 0 24 200 50 10.

(** [CGovernancePayment]; the constructor used here always succeeds. *)
Record CGovernancePayment : Type := mkPayment { payment_script : CScript; payment_amount : Z }.

Record CSuperblock : Type := mkSuperblock {
  nGovObjHash : list Z;
  sb_height : Z;
  nStatus : Z;
  vecPayments : list CGovernancePayment
}.

(** [SplitBy] for one delimiter: the parts that occur in the delimiter string
    (the empty one) are erased. *)
Definition SplitBy (s : list Z) (delimit : Z) : list (list Z) :=
  List.filter (fun p => negb (bool_decide (p = []) || bool_decide (p = [delimit]))) (split delimit s).

(** [inl]: the text of the exception. *)
Definition ParsePaymentAmount (strAmount : list Z) : string + Z :=
  match strAmount with
  | [] => inl "ParsePaymentAmount: Amount is empty"%string
  | c :: _ =>
      if 20 <? zlen strAmount then inl "ParsePaymentAmount: Amount string too long"%string
      else if negb (forallb (fun c => isdigit c || (c =? 46)) strAmount) then
        inl "ParsePaymentAmount: Amount string contains invalid character"%string
      else if c =? 46 then inl "ParsePaymentAmount: Invalid amount string, leading decimal point not allowed"%string
      else if (1 <? length (List.filter (Z.eqb 46) strAmount))%nat then
        inl "ParsePaymentAmount: Invalid amount string, too many decimal points"%string
      else match ParseFixedPoint strAmount 8 with
           | None => inl "ParsePaymentAmount: ParseFixedPoint failed"%string
           | Some nAmount =>
               if negb (MoneyRange nAmount) then
                 inl "ParsePaymentAmount: Invalid amount string, value outside of valid money range"%string
               else inr nAmount
           end
  end.

Section Superblocks.
Context {CR : Crypto} {BP : Base58Prefix} {PK : PubKeyRecovery}.

Definition Address_IsScript (a : CBase58Data) : bool := Address_IsValid a && bool_decide (vchVersion a = SCRIPT_ADDRESS).

(** The loop of [ParsePaymentSchedule]; [res] is the assertion of base 58. *)
Fixpoint parse_schedule (addresses amounts : list (list Z)) : res (string + list CGovernancePayment) :=
  match addresses, amounts with
  | strAddress :: addresses, strAmount :: amounts =>
      address ← CDebitAddress strAddress;
      if negb (Address_IsValid address) then Val (inl "Invalid Cash debit address"%string)
      else if Address_IsScript address then Val (inl "Script addresses are not supported yet"%string)
      else match ParsePaymentAmount strAmount with
           | inl what => Val (inl what)
           | inr nAmount =>
               rest ← parse_schedule addresses amounts;
               Val (match rest with
                    | inl what => inl what
                    | inr payments => inr (mkPayment (Standard.GetScriptForDestination (Address_Get address)) nAmount :: payments)
                    end)
           end
  | _, _ => Val (inr [])
  end.

Definition ParsePaymentSchedule (strPaymentAddresses strPaymentAmounts : list Z) : res (string + list CGovernancePayment) :=
  let vecParsed1 := SplitBy strPaymentAddresses 124 in
  let vecParsed2 := SplitBy strPaymentAmounts 124 in
  if negb (length vecParsed1 =? length vecParsed2)%nat then Val (inl "Mismatched payments and amounts"%string)
  else if (length vecParsed1 =? 0)%nat then Val (inl "Error no payments"%string)
  else parse_schedule vecParsed1 vecParsed2.

Definition IsValidBlockHeight (p : superblock_params) (nBlockHeight : Z) : bool :=
  (nSuperblockStartBlock p <=? nBlockHeight) && (Z.rem nBlockHeight (nSuperblockCycle p) =? 0).

(** The last and the next height. *)
Definition GetNearestSuperblocksHeights (p : superblock_params) (nBlockHeight : Z) : Z * Z :=
  let cycle := nSuperblockCycle p in
  let nFirstSuperblockOffset := Z.rem (cycle - Z.rem (nSuperblockStartBlock p) cycle) cycle in
  let nFirstSuperblock := nSuperblockStartBlock p + nFirstSuperblockOffset in
  if nBlockHeight <? nFirstSuperblock then (0, nFirstSuperblock)
  else let last := nBlockHeight - Z.rem nBlockHeight cycle in (last, last + cycle).

Definition GetPaymentsLimit (p : superblock_params) (nBlockHeight : Z) : Z :=
  if negb (IsValidBlockHeight p nBlockHeight) then 0 else STATIC_SUPERBLOCK_AMOUNT.

Definition GetPaymentsTotalAmount (sb : CSuperblock) : Z :=
  fold_left (fun total payment => i64 (total + payment_amount payment)) (vecPayments sb) 0.

(** The search for one payment from the output [j] on. *)
Fixpoint find_payment (payment : CGovernancePayment) (outs : list CTxOut) (j : nat) : option nat :=
  match outs with
  | [] => None
  | o :: outs =>
      if bool_decide (payment_script payment = scriptPubKey o) && (payment_amount payment =? nValue o) then Some j
      else find_payment payment outs (S j)
  end.

(** The loop over the payments; the next search starts at the output found. *)
Fixpoint match_payments (payments : list CGovernancePayment) (vout : list CTxOut) (nVoutIndex : nat) : bool :=
  match payments with
  | [] => true
  | payment :: payments =>
      match find_payment payment (drop nVoutIndex vout) nVoutIndex with
      | None => false
      | Some j => match_payments payments vout j
      end
  end.

(** [CSuperblock::IsValid]; [None] is the exception of [GetValueOut]. *)
Definition sb_IsValid (p : superblock_params) (sb : CSuperblock) (txNew : CTransaction) (nBlockHeight blockReward : Z) : option bool :=
  if negb (IsValidBlockHeight p nBlockHeight) then Some false
  else if zlen (vout txNew) - zlen (vecPayments sb) <? 0 then Some false
  else
    let nPaymentsTotalAmount := GetPaymentsTotalAmount sb in
    if GetPaymentsLimit p nBlockHeight <? nPaymentsTotalAmount then Some false
    else
      nBlockValue ← GetValueOut txNew;
      Some (if i64 (blockReward + nPaymentsTotalAmount) <? nBlockValue then false
            else match_payments (vecPayments sb) (vout txNew) 0).

(** ** Triggers *)

Record gov_state : Type := mkGovState {
  mapObjects : gmap (list Z) CGovernanceObject;
  mapTrigger : gmap (list Z) CSuperblock;
  nCachedHeight : Z
}.

(** [CSuperblock(nHash)]. *)
Definition new_superblock (st : gov_state) (nHash : list Z) : res (string + CSuperblock) :=
  match mapObjects st !! nHash with
  | None => Val (inl "CSuperblock: Failed to find Governance Object"%string)
  | Some obj =>
      if negb (nObjectType obj =? GOVERNANCE_OBJECT_TRIGGER) then Val (inl "CSuperblock: Governance Object not a trigger"%string)
      else match trigger_data obj with
           | None => Val (inl "JSON"%string)
           | Some (event_block_height, strAddresses, strAmounts) =>
               payments ← ParsePaymentSchedule strAddresses strAmounts;
               Val (match payments with
                    | inl what => inl what
                    | inr payments => inr (mkSuperblock nHash event_block_height SEEN_OBJECT_UNKNOWN payments)
                    end)
           end
  end.

Definition set_status (sb : CSuperblock) (status : Z) : CSuperblock := mkSuperblock (nGovObjHash sb) (sb_height sb) status (vecPayments sb).

Definition AddNewTrigger (st : gov_state) (nHash : list Z) : res (gov_state * bool) :=
  if decide (mapTrigger st !! nHash <> None) then Val (st, false)
  else
    sb ← new_superblock st nHash;
    match sb with
    | inl _ => Val (st, false)
    | inr sb => Val (mkGovState (mapObjects st) (<[nHash := set_status sb SEEN_OBJECT_IS_VALID]> (mapTrigger st)) (nCachedHeight st), true)
    end.

Definition mark_expired (now : Z) (obj : CGovernanceObject) : CGovernanceObject :=
  mkObject (nObjectType obj) (object_nTime obj) (object_outpoint obj) (trigger_data obj) now (fCachedFunding obj) (fCachedValid obj) (fCachedDelete obj)
    (fCachedEndorsed obj) (fDirtyCache obj) true (mapCurrentMNVotes obj) (fileVotes obj) (cmmapOrphanVotes obj).

Definition mark_deleted (now : Z) (obj : CGovernanceObject) : CGovernanceObject :=
  mkObject (nObjectType obj) (object_nTime obj) (object_outpoint obj) (trigger_data obj) (if nDeletionTime obj =? 0 then now else nDeletionTime obj)
    (fCachedFunding obj) (fCachedValid obj) true (fCachedEndorsed obj) (fDirtyCache obj) (fExpired obj) (mapCurrentMNVotes obj) (fileVotes obj) (cmmapOrphanVotes obj).

Definition sb_expired (p : superblock_params) (st : gov_state) (sb : CSuperblock) : bool :=
  let nExpirationBlocks :=
    if nStatus sb =? SEEN_OBJECT_EXECUTED then nSuperblockCycle p else if nStatus sb =? SEEN_OBJECT_IS_VALID then 576 else 24 in
  i32 (sb_height sb + nExpirationBlocks) <? nCachedHeight st.

(** [IsExpired], which also marks the object. *)
Definition IsExpired (p : superblock_params) (now : Z) (st : gov_state) (sb : CSuperblock) : gov_state * bool :=
  if sb_expired p st sb then
    (mkGovState (alter (mark_expired now) (nGovObjHash sb) (mapObjects st)) (mapTrigger st) (nCachedHeight st), true)
  else (st, false).

(** One round of the loop of [CleanAndRemove]. *)
Definition clean_one (p : superblock_params) (now : Z) (st : gov_state) (e : list Z * CSuperblock) : gov_state :=
  let '(h, sb) := e in
  let is_trigger := match mapObjects st !! h with Some obj => nObjectType obj =? GOVERNANCE_OBJECT_TRIGGER | None => false end in
  let sb := if is_trigger then sb else set_status sb SEEN_OBJECT_ERROR_INVALID in
  let st := mkGovState (mapObjects st) (<[h := sb]> (mapTrigger st)) (nCachedHeight st) in
  let '(st, remove) :=
    if (nStatus sb =? SEEN_OBJECT_ERROR_INVALID) || (nStatus sb =? SEEN_OBJECT_UNKNOWN) then (st, true)
    else if (nStatus sb =? SEEN_OBJECT_IS_VALID) || (nStatus sb =? SEEN_OBJECT_EXECUTED) then IsExpired p now st sb
    else (st, false) in
  if remove then mkGovState (alter (mark_deleted now) h (mapObjects st)) (delete h (mapTrigger st)) (nCachedHeight st) else st.

Definition CleanAndRemove (p : superblock_params) (now : Z) (st : gov_state) : gov_state :=
  fold_left (clean_one p now) (Spork.in_order (mapTrigger st)) st.

Definition GetActiveTriggers (st : gov_state) : list (list Z * CSuperblock) :=
  filter (fun e => is_Some (mapObjects st !! e.1)) (Spork.in_order (mapTrigger st)).

(** The loop of [IsSuperblockTriggered], which refreshes the objects it meets. *)
Fixpoint triggered_loop (env : gov_env) (nBlockHeight : Z) (vecTriggers : list (list Z * CSuperblock)) (st : gov_state)
  : gov_state * bool :=
  match vecTriggers with
  | [] => (st, false)
  | (_, sb) :: vecTriggers =>
      match mapObjects st !! nGovObjHash sb with
      | None => triggered_loop env nBlockHeight vecTriggers st
      | Some obj =>
          if negb (nBlockHeight =? sb_height sb) then triggered_loop env nBlockHeight vecTriggers st
          else
            let obj := UpdateSentinelVariables env obj in
            let st := mkGovState (<[nGovObjHash sb := obj]> (mapObjects st)) (mapTrigger st) (nCachedHeight st) in
            if fCachedFunding obj then (st, true) else triggered_loop env nBlockHeight vecTriggers st
      end
  end.

Definition IsSuperblockTriggered (p : superblock_params) (env : gov_env) (st : gov_state) (nBlockHeight : Z) : gov_state * bool :=
  if negb (IsValidBlockHeight p nBlockHeight) then (st, false)
  else triggered_loop env nBlockHeight (GetActiveTriggers st) st.

Fixpoint best_loop (st : gov_state) (nBlockHeight : Z) (vecTriggers : list (list Z * CSuperblock)) (nYesCount : Z)
  (best : option (list Z * CSuperblock)) : option (list Z * CSuperblock) :=
  match vecTriggers with
  | [] => if 0 <? nYesCount then best else None
  | (h, sb) :: vecTriggers =>
      match mapObjects st !! nGovObjHash sb with
      | None => best_loop st nBlockHeight vecTriggers nYesCount best
      | Some obj =>
          if negb (nBlockHeight =? sb_height sb) then best_loop st nBlockHeight vecTriggers nYesCount best
          else
            let nTempYesCount := GetAbsoluteYesCount obj VOTE_SIGNAL_FUNDING in
            if nYesCount <? nTempYesCount then best_loop st nBlockHeight vecTriggers nTempYesCount (Some (h, sb))
            else best_loop st nBlockHeight vecTriggers nYesCount best
      end
  end.

(** The superblock and the hash it is filed under; [None] is [false]. *)
Definition GetBestSuperblock (p : superblock_params) (st : gov_state) (nBlockHeight : Z) : option (list Z * CSuperblock) :=
  if negb (IsValidBlockHeight p nBlockHeight) then None
  else best_loop st nBlockHeight (GetActiveTriggers st) 0 None.

(** The outputs appended to the coinbase. *)
Definition CreateSuperblock (p : superblock_params) (st : gov_state) (nBlockHeight : Z) : list CTxOut :=
  match GetBestSuperblock p st nBlockHeight with
  | None => []
  | Some (_, sb) => (fun payment => mkCTxOut (payment_amount payment) (payment_script payment) (-10)) <$> vecPayments sb
  end.

(** [CSuperblockManager::IsValid]. *)
Definition manager_IsValid (p : superblock_params) (st : gov_state) (txNew : CTransaction) (nBlockHeight blockReward : Z) : option bool :=
  match GetBestSuperblock p st nBlockHeight with
  | Some (_, sb) => sb_IsValid p sb txNew nBlockHeight blockReward
  | None => Some false
  end.

Definition ExecuteBestSuperblock (p : superblock_params) (st : gov_state) (nBlockHeight : Z) : gov_state :=
  match GetBestSuperblock p st nBlockHeight with
  | Some (h, sb) => mkGovState (mapObjects st) (<[h := set_status sb SEEN_OBJECT_EXECUTED]> (mapTrigger st)) (nCachedHeight st)
  | None => st
  end.

End Superblocks.

(** ** The order of votes *)

Lemma bytes_lt_irrefl a : FluidDB.bytes_lt a a = false.
Proof. induction a as [|x a IH]; [done|]. cbn. rewrite Z.ltb_irrefl, Z.eqb_refl, IH. done. Qed.

Lemma outpoint_lt_irrefl o : outpoint_lt o o = false.
Proof. unfold outpoint_lt. rewrite bytes_lt_irrefl, Z.ltb_irrefl, andb_false_r. done. Qed.

(** The order that [operator<] is meant to be relates no two votes: it goes on
    to the next field only when the first is both less and equal. *)
Lemma vote_lt_never v1 v2 : vote_lt v1 v2 = false.
Proof.
  unfold vote_lt. destruct (outpoint_lt _ _) eqn:E; [|done]. cbn [negb].
  rewrite bool_decide_eq_false_2; [done|]. intros Heq. rewrite Heq, outpoint_lt_irrefl in E. done.
Qed.

Section VoteLemmas.
Context {CR : Crypto} {PK : PubKeyRecovery}.

(** ** The file of votes stays consistent *)

Definition indexed (l : list CGovernanceVote) : list (list Z * CGovernanceVote) := (fun v => (vote_GetHash v, v)) <$> l.

Definition file_wf (f : vote_file) : Prop :=
  NoDup (vote_GetHash <$> listVotes f) /\ mapVoteIndex f = list_to_map (indexed (listVotes f)) /\
  nMemoryVotes f = zlen (listVotes f).

Lemma indexed_keys l : (indexed l).*1 = vote_GetHash <$> l.
Proof. unfold indexed. rewrite <- list_fmap_compose. done. Qed.

Lemma HasVote_wf f h : file_wf f -> HasVote f h = true <-> h ∈ vote_GetHash <$> listVotes f.
Proof.
  intros (H1 & H2 & H3). unfold HasVote. rewrite bool_decide_eq_true, H2, <- indexed_keys. split.
  - intros H. destruct (decide (h ∈ (indexed (listVotes f)).*1)) as [|Hn]; [done|]. apply not_elem_of_list_to_map in Hn. done.
  - intros Hin Hn. by apply not_elem_of_list_to_map in Hn.
Qed.

Lemma AddVote_wf f v : file_wf f -> file_wf (AddVote f v).
Proof.
  intros Hf. unfold AddVote. destruct (HasVote f (vote_GetHash v)) eqn:E; [done|].
  assert (Hn : vote_GetHash v ∉ vote_GetHash <$> listVotes f) by (rewrite <- HasVote_wf by done; congruence).
  destruct Hf as (H1 & H2 & H3). split; [|split]; cbn.
  - by apply list.NoDup_cons.
  - by rewrite H2.
  - rewrite H3. unfold zlen. cbn [length]. lia.
Qed.

Lemma NoDup_hash_filter (P : CGovernanceVote -> Prop) `{!forall v, Decision (P v)} l :
  NoDup (vote_GetHash <$> l) -> NoDup (vote_GetHash <$> filter P l).
Proof.
  induction l as [|v l IH]; [done|]. rewrite fmap_cons. intros [H1 H2]%list.NoDup_cons. rewrite filter_cons. case_decide; [|auto].
  rewrite fmap_cons. apply list.NoDup_cons. split; [|auto]. intros Hin. apply H1.
  apply list_elem_of_fmap in Hin as (w & Hw & Hin). apply list_elem_of_filter in Hin as [_ Hin]. apply list_elem_of_fmap. eauto.
Qed.

(** Removing the votes of a masternode keeps the others, with their index. *)
Lemma remove_votes_spec o l : forall f, NoDup (vote_GetHash <$> listVotes f ++ l) ->
  mapVoteIndex f = list_to_map (indexed (listVotes f ++ l)) -> nMemoryVotes f = zlen (listVotes f ++ l) ->
  let keep := filter (fun v => masternodeOutpoint v <> o) l in
  remove_votes l o f = mkFile (zlen (listVotes f ++ keep)) (listVotes f ++ keep) (list_to_map (indexed (listVotes f ++ keep))).
Proof.
  induction l as [|v l IH]; intros f H1 H2 H3 keep; cbn [remove_votes]; subst keep.
  { rewrite filter_nil, app_nil_r in *. destruct f; cbn in *. congruence. }
  rewrite filter_cons. destruct (decide (masternodeOutpoint v = o)) as [He|He].
  - rewrite decide_False by tauto. rewrite IH; cbn [listVotes mapVoteIndex nMemoryVotes]; [done|..].
    + rewrite <- Permutation_middle, fmap_cons in H1. by apply list.NoDup_cons in H1 as [_ H1].
    + rewrite H2. rewrite (list_to_map_proper _ (indexed (v :: listVotes f ++ l))).
      * cbn. apply delete_insert_id. apply not_elem_of_list_to_map. rewrite indexed_keys.
        rewrite <- Permutation_middle, fmap_cons in H1. by apply list.NoDup_cons in H1 as [H1 _].
      * by rewrite indexed_keys.
      * unfold indexed. by rewrite <- Permutation_middle.
    + rewrite H3. unfold zlen. rewrite !length_app. cbn [length]. lia.
  - rewrite decide_True by tauto. specialize (IH (mkFile (nMemoryVotes f) (listVotes f ++ [v]) (mapVoteIndex f))).
    cbn [listVotes mapVoteIndex nMemoryVotes] in IH. rewrite <- !app_assoc in IH. by apply IH.
Qed.

Lemma RemoveVotes_spec f o : file_wf f ->
  let f' := RemoveVotesFromMasternode f o in
  file_wf f' /\ listVotes f' = filter (fun v => masternodeOutpoint v <> o) (listVotes f).
Proof.
  intros (H1 & H2 & H3). unfold RemoveVotesFromMasternode.
  rewrite (remove_votes_spec o (listVotes f) (mkFile (nMemoryVotes f) [] (mapVoteIndex f)) H1 H2 H3). cbn [listVotes app].
  split; [|done]. split; [|done]. by apply NoDup_hash_filter.
Qed.

(** Rebuilding the index of a list drops the repeated votes. *)
Lemma rebuild_wf l : forall f, file_wf f -> file_wf (rebuild l f) /\
  forall h, h ∈ vote_GetHash <$> listVotes (rebuild l f) <-> h ∈ vote_GetHash <$> listVotes f ++ l.
Proof.
  induction l as [|v l IH]; intros f Hf; cbn [rebuild]; [by rewrite app_nil_r|].
  destruct (HasVote f (vote_GetHash v)) eqn:E.
  - apply HasVote_wf in E; [|done]. destruct (IH f Hf) as [IH1 IH2]. split; [done|]. intros h. rewrite IH2.
    rewrite !fmap_app, fmap_cons, !elem_of_app, elem_of_cons. split; [tauto|]. intros [?|[->|?]]; tauto.
  - assert (Hn : vote_GetHash v ∉ vote_GetHash <$> listVotes f) by (rewrite <- HasVote_wf by done; congruence).
    destruct Hf as (H1 & H2 & H3).
    assert (Hnd : NoDup (vote_GetHash <$> listVotes f ++ [v])).
    { rewrite <- Permutation_cons_append, fmap_cons. by apply list.NoDup_cons. }
    destruct (IH (mkFile (nMemoryVotes f + 1) (listVotes f ++ [v]) (<[vote_GetHash v := v]> (mapVoteIndex f)))) as [IH1 IH2].
    + split; [done|]. cbn. split; [|rewrite H3; unfold zlen; rewrite length_app; cbn; lia].
      rewrite H2. symmetry. rewrite (list_to_map_proper _ (indexed (v :: listVotes f))); [done|by rewrite indexed_keys|].
      unfold indexed. by rewrite <- Permutation_cons_append.
    + split; [done|]. intros h. rewrite IH2. cbn [listVotes]. by rewrite <- app_assoc.
Qed.

(** The file of votes and its index never disagree. Adding a vote, removing
    the votes of a masternode and rebuilding the index keep the invariant: no
    vote twice, each vote found under its hash, the counter exact; a removal
    drops exactly the votes of that masternode. *)
Theorem vote_file_consistent f v o : file_wf f ->
  file_wf (AddVote f v) /\ file_wf (RemoveVotesFromMasternode f o) /\ file_wf (RebuildIndex f) /\
  HasVote (AddVote f v) (vote_GetHash v) = true /\
  listVotes (RemoveVotesFromMasternode f o) = filter (fun w => masternodeOutpoint w <> o) (listVotes f) /\
  forall h, HasVote (RebuildIndex f) h = HasVote f h.
Proof.
  intros Hf. destruct (RemoveVotes_spec f o Hf) as [H1 H2]. pose proof (AddVote_wf f v Hf) as H3.
  assert (He : file_wf empty_file) by (split; [constructor|done]).
  destruct (rebuild_wf (listVotes f) empty_file He) as [H4 H5]. fold (RebuildIndex f) in H4, H5.
  split; [done|]. split; [done|]. split; [done|]. split; [|split; [done|]].
  - apply HasVote_wf; [done|]. unfold AddVote. destruct (HasVote f (vote_GetHash v)) eqn:E; [by apply HasVote_wf in E|].
    cbn [listVotes]. rewrite fmap_cons. by left.
  - intros h. apply eq_true_iff_eq. rewrite !HasVote_wf by done. by rewrite H5.
Qed.

(** ** The tally of votes *)

Definition vote_instance (obj : CGovernanceObject) (o : COutPoint) (s : Z) : option vote_instance_t :=
  mapCurrentMNVotes obj !! o ≫= (fun rec => rec !! s).

Lemma instance_set obj rec file dirty o o' s :
  vote_instance (set_votes obj (<[o := rec]> (mapCurrentMNVotes obj)) file dirty) o' s =
  if decide (o' = o) then rec !! s else vote_instance obj o' s.
Proof.
  unfold vote_instance, set_votes. cbn [mapCurrentMNVotes]. destruct (decide (o' = o)) as [->|Hne].
  - by rewrite lookup_insert_eq.
  - by rewrite lookup_insert_ne.
Qed.

Lemma instance_default obj o s : default ∅ (mapCurrentMNVotes obj !! o) !! s = vote_instance obj o s.
Proof. unfold vote_instance. destruct (mapCurrentMNVotes obj !! o); done. Qed.

(** What a vote does to the instances: an accepted one is recorded; any other
    adds at most an instance without a vote. *)
Lemma ProcessVote_spec env obj v (obj' := (ProcessVote env obj v).1) :
  if decide ((ProcessVote env obj v).2 = Accepted) then
    vote_IsValid env v true = true /\
    nCreationTime (default no_vote (vote_instance obj (masternodeOutpoint v) (GetSignal v))) <= vTime v /\
    forall o s, vote_instance obj' o s = if decide (o = masternodeOutpoint v /\ s = GetSignal v)
      then Some (mkInstance (nVoteOutcome v) (iTime (default no_vote (vote_instance obj o s))) (vTime v))
      else vote_instance obj o s
  else forall o s, vote_instance obj' o s = vote_instance obj o s \/
    (vote_instance obj o s = None /\ vote_instance obj' o s = Some no_vote).
Proof.
  subst obj'. unfold ProcessVote. destruct (HasVote _ _); [rewrite decide_False by done; auto|].
  destruct (mn_Has env _); [|destruct (CacheMultiMap.Insert _ _ _ _) as [[orphans asked]|]; rewrite decide_False by done; auto]. cbn [negb].
  assert (Hsame : forall file dirty o s, vote_instance (set_votes obj (<[masternodeOutpoint v :=
    default ∅ (mapCurrentMNVotes obj !! masternodeOutpoint v)]> (mapCurrentMNVotes obj)) file dirty) o s = vote_instance obj o s).
  { intros file dirty o s. rewrite instance_set. destruct (decide _) as [->|]; [|done]. apply instance_default. }
  destruct (_ =? VOTE_SIGNAL_NONE); [rewrite decide_False by done; intros o s; left; apply Hsame|].
  destruct (MAX_SUPPORTED_VOTE_SIGNAL <? _); [rewrite decide_False by done; intros o s; left; apply Hsame|].
  rewrite !instance_default. set (i := default no_vote (vote_instance obj (masternodeOutpoint v) (GetSignal v))).
  assert (Hun : forall file dirty o s, let x := vote_instance (set_votes obj (<[masternodeOutpoint v :=
    <[GetSignal v := i]> (default ∅ (mapCurrentMNVotes obj !! masternodeOutpoint v))]> (mapCurrentMNVotes obj)) file dirty) o s in
    x = vote_instance obj o s \/ (vote_instance obj o s = None /\ x = Some no_vote)).
  { intros file dirty o s x. subst x. rewrite instance_set. destruct (decide _) as [->|]; [|auto].
    destruct (decide (s = GetSignal v)) as [->|Hs]; [|rewrite lookup_insert_ne, instance_default by done; auto].
    rewrite lookup_insert_eq. subst i. destruct (vote_instance obj _ _) as [x|]; [by left|by right]. }
  destruct (_ <? nCreationTime i) eqn:Et; [rewrite decide_False by done; apply Hun|].
  destruct (_ && _); [rewrite decide_False by done; apply Hun|].
  destruct (vote_IsValid env v true) eqn:Ev; [|rewrite decide_False by done; apply Hun]. cbn [negb fst snd].
  rewrite decide_True by done. split; [done|]. split; [lia|]. intros o s. rewrite instance_set, insert_insert_eq.
  destruct (decide (o = masternodeOutpoint v)) as [->|Ho]; [|rewrite decide_False by tauto; done].
  destruct (decide (s = GetSignal v)) as [->|Hs].
  - rewrite lookup_insert_eq, decide_True by done. done.
  - rewrite lookup_insert_ne, decide_False by (done || tauto). apply instance_default.
Qed.

(** A run of votes, with the accepted ones, the newest first. *)
Fixpoint tally (l : list (gov_env * CGovernanceVote)) (obj : CGovernanceObject) (acc : list CGovernanceVote)
  : CGovernanceObject * list CGovernanceVote :=
  match l with
  | [] => (obj, acc)
  | (env, v) :: l =>
      let '(obj', r) := ProcessVote env obj v in tally l obj' (if decide (r = Accepted) then v :: acc else acc)
  end.

(** The vote that counts. *)
Definition last_vote (acc : list CGovernanceVote) (o : COutPoint) (s : Z) : option CGovernanceVote :=
  head (filter (fun v => masternodeOutpoint v = o /\ GetSignal v = s) acc).

Definition tally_ok (acc : list CGovernanceVote) (obj : CGovernanceObject) : Prop := forall o s,
  match last_vote acc o s with
  | Some v => vote_instance obj o s = Some (mkInstance (nVoteOutcome v) 0 (vTime v)) /\
      forall w, w ∈ acc -> masternodeOutpoint w = o -> GetSignal w = s -> vTime w <= vTime v
  | None => vote_instance obj o s = None \/ vote_instance obj o s = Some no_vote
  end.

Lemma last_vote_None acc o s w : last_vote acc o s = None -> w ∈ acc -> masternodeOutpoint w = o -> GetSignal w = s -> False.
Proof.
  intros H Hin Ho Hs. unfold last_vote in H. apply head_None in H.
  assert (Hw : w ∈ filter (fun v => masternodeOutpoint v = o /\ GetSignal v = s) acc) by (by apply list_elem_of_filter).
  rewrite H in Hw. by apply elem_of_nil in Hw.
Qed.

Lemma last_vote_cons v acc o s : last_vote (v :: acc) o s =
  if decide (masternodeOutpoint v = o /\ GetSignal v = s) then Some v else last_vote acc o s.
Proof. unfold last_vote. rewrite filter_cons. by case_decide. Qed.

Lemma tally_step acc obj env v : tally_ok acc obj ->
  tally_ok (if decide ((ProcessVote env obj v).2 = Accepted) then v :: acc else acc) (ProcessVote env obj v).1.
Proof.
  intros Hok o s. pose proof (ProcessVote_spec env obj v) as Hp. specialize (Hok o s) as Hos.
  destruct (decide _) as [Ha|Ha].
  - destruct Hp as (_ & Ht & Hi). rewrite last_vote_cons, Hi.
    destruct (decide (masternodeOutpoint v = o /\ GetSignal v = s)) as [[Ho Hs]|Hne].
    + rewrite Ho, Hs in Ht. rewrite decide_True by done.
      assert (H0 : iTime (default no_vote (vote_instance obj o s)) = 0 /\
        forall w, w ∈ acc -> masternodeOutpoint w = o -> GetSignal w = s -> vTime w <= vTime v).
      { destruct (last_vote acc o s) as [u|] eqn:El.
        - destruct Hos as [E Hmax]. rewrite E in Ht |- *. cbn in Ht. split; [done|]. intros w H1 H2 H3.
          specialize (Hmax w H1 H2 H3). lia.
        - split; [destruct Hos as [-> | ->]; done|]. intros w H1 H2 H3. by destruct (last_vote_None acc o s w). }
      destruct H0 as [-> Hw]. split; [done|]. intros w [->|Hin]%elem_of_cons H2 H3; [lia|by apply Hw].
    + rewrite decide_False by (intros [-> ->]; tauto). destruct (last_vote acc o s) as [u|]; [|done].
      destruct Hos as [E Hmax]. split; [done|]. intros w [->|Hin]%elem_of_cons H2 H3; [tauto|by apply Hmax].
  - specialize (Hp o s). destruct (last_vote acc o s) as [u|]; destruct Hp as [->|[Hn ->]]; auto.
    destruct Hos as [E _]. congruence.
Qed.

Lemma tally_ok_run l : forall obj acc, tally_ok acc obj -> tally_ok (tally l obj acc).2 (tally l obj acc).1.
Proof.
  induction l as [|[env v] l IH]; intros obj acc H; [done|]. cbn [tally].
  pose proof (tally_step acc obj env v H) as Hs. destruct (ProcessVote env obj v) as [obj' r]. by apply IH.
Qed.

Lemma tally_valid l : forall obj acc v, v ∈ (tally l obj acc).2 -> v ∈ acc \/ exists env, (env, v) ∈ l /\ vote_IsValid env v true = true.
Proof.
  induction l as [|[env w] l IH]; intros obj acc v Hin; [by left|]. cbn [tally] in Hin.
  pose proof (ProcessVote_spec env obj w) as Hp. destruct (ProcessVote env obj w) as [obj' r]. cbn [snd] in Hp.
  apply IH in Hin as [Hin|(env' & Hin & Hv)]; [|right; exists env'; split; [by right|done]].
  destruct (decide (r = Accepted)); [|by left]. apply elem_of_cons in Hin as [->|Hin]; [|by left].
  right. exists env. split; [by left|]. tauto.
Qed.

(** C25: each masternode counts once, with its newest vote. Let any votes arrive at
    an object without votes. The count of an outcome (other than "none") for a
    signal is the number of masternodes whose last accepted vote on that signal
    has this outcome; the last accepted vote has the newest time, and every
    accepted vote was valid, with the signature of its masternode, when it
    came. *)
Theorem votes_counted_once l obj s out : mapCurrentMNVotes obj = ∅ -> out <> VOTE_OUTCOME_NONE ->
  let '(obj', acc) := tally l obj [] in
  (exists voters : gset COutPoint, CountMatchingVotes obj' s out = Z.of_nat (size voters) /\
     forall o, o ∈ voters <-> exists v, last_vote acc o s = Some v /\ nVoteOutcome v = out) /\
  (forall v, v ∈ acc -> (exists env, (env, v) ∈ l /\ vote_IsValid env v true = true) /\
     exists w, last_vote acc (masternodeOutpoint v) (GetSignal v) = Some w /\ vTime v <= vTime w).
Proof.
  intros He Hout. assert (H0 : tally_ok [] obj).
  { intros o s'. left. unfold vote_instance. by rewrite He, lookup_empty. }
  pose proof (tally_ok_run l obj [] H0) as Hok. pose proof (tally_valid l obj []) as Hv.
  destruct (tally l obj []) as [obj' acc]. cbn [fst snd] in *. split.
  - exists (dom (filter (fun e => eOutcome <$> e.2 !! s = Some out) (mapCurrentMNVotes obj'))). split; [by rewrite size_dom|].
    intros o. rewrite elem_of_dom. specialize (Hok o s). unfold vote_instance in Hok.
    assert (Hf : is_Some (filter (fun e => eOutcome <$> e.2 !! s = Some out) (mapCurrentMNVotes obj') !! o) <->
      eOutcome <$> (mapCurrentMNVotes obj' !! o ≫= (fun rec => rec !! s)) = Some out).
    { destruct (mapCurrentMNVotes obj' !! o) as [rec|] eqn:Er; cbn [mbind option_bind].
      - split.
        + intros [rec' Hr]. apply map_lookup_filter_Some in Hr as [Hr Hx]. cbn in Hx. congruence.
        + intros Hx. exists rec. by apply map_lookup_filter_Some.
      - split; [|done]. intros [rec' Hr]. apply map_lookup_filter_Some in Hr as [Hr _]. congruence. }
    rewrite Hf. destruct (last_vote acc o s) as [v|].
    + destruct Hok as [-> _]. cbn. split; [intros [= <-]; eauto|]. intros (w & [= ->] & <-). done.
    + split; [|by intros (w & Hw & _)]. destruct Hok as [-> | ->]; cbn; [done|]. intros [= <-]. done.
  - intros v Hin. split; [destruct (Hv v Hin) as [H|H]; [by apply elem_of_nil in H|done]|].
    specialize (Hok (masternodeOutpoint v) (GetSignal v)). destruct (last_vote _ _ _) as [w|] eqn:El.
    + exists w. split; [done|]. by apply Hok.
    + by destruct (last_vote_None acc _ _ v El Hin).
Qed.

(** The limit on how often a masternode may vote does nothing. The time that
    the limit compares with is stored only in the branch that discards it, so it
    stays zero: after any votes, and once the clock is past the first hour of
    1970, no vote is ever refused as too frequent. *)
Theorem vote_rate_limit_inert l obj env v : mapCurrentMNVotes obj = ∅ -> GOVERNANCE_UPDATE_MIN <= gov_time env < 2 ^ 63 ->
  (ProcessVote env (tally l obj []).1 v).2 <> VotingTooOften.
Proof.
  intros He Ht. assert (H0 : tally_ok [] obj).
  { intros o s'. left. unfold vote_instance. by rewrite He, lookup_empty. }
  pose proof (tally_ok_run l obj [] H0) as Hok. set (obj' := (tally l obj []).1) in *. unfold ProcessVote.
  destruct (HasVote _ _); [done|]. destruct (mn_Has env _); [|destruct (CacheMultiMap.Insert _ _ _ _) as [[orphans asked]|]; done]. cbn [negb].
  destruct (_ =? VOTE_SIGNAL_NONE); [done|]. destruct (MAX_SUPPORTED_VOTE_SIGNAL <? _); [done|].
  rewrite instance_default. specialize (Hok (masternodeOutpoint v) (GetSignal v)).
  assert (Hz : iTime (default no_vote (vote_instance obj' (masternodeOutpoint v) (GetSignal v))) = 0).
  { destruct (last_vote _ _ _) as [w|]; [destruct Hok as [-> _]; done|]. destruct Hok as [-> | ->]; done. }
  rewrite Hz, Z.sub_0_r, i64_small by (unfold GOVERNANCE_UPDATE_MIN in Ht; lia).
  destruct (_ <? nCreationTime _); [done|]. rewrite (proj2 (Z.ltb_ge _ _)), andb_false_r by lia.
  destruct (vote_IsValid _ _ _); done.
Qed.

End VoteLemmas.

(** ** Superblocks: lemmas *)

Section SuperblockLemmas.
Context {CR : Crypto} {BP : Base58Prefix} {PK : PubKeyRecovery}.

Lemma IsValidBlockHeight_spec p h : 0 <= nSuperblockStartBlock p -> 0 < nSuperblockCycle p ->
  IsValidBlockHeight p h = true <-> nSuperblockStartBlock p <= h /\ h mod nSuperblockCycle p = 0.
Proof.
  intros Hs Hc. unfold IsValidBlockHeight. rewrite andb_true_iff, Z.leb_le, Z.eqb_eq.
  split; intros [H1 H2]; (split; [done|]); rewrite Z.rem_mod_nonneg in * by lia; done.
Qed.

(** No multiple of the cycle lies strictly between two neighbours. *)
Lemma between_multiples c a x : 0 < c -> a mod c = 0 -> a < x < a + c -> x mod c <> 0.
Proof.
  intros Hc Ha Hx Hm. apply Z.mod_divide in Ha as [q ->]; [|lia]. apply Z.mod_divide in Hm as [r ->]; [|lia].
  assert (q < r) by nia. assert (r < q + 1) by nia. lia.
Qed.

(** The heights named as the nearest superblocks are the nearest ones. The
    next height is a superblock height after the given one with none in between;
    the last height is a superblock height not after it with none in between, or
    zero when there was none yet. *)
Theorem nearest_superblocks_exact p h : 0 <= nSuperblockStartBlock p -> 0 < nSuperblockCycle p -> 0 <= h ->
  let '(last, next) := GetNearestSuperblocksHeights p h in
  IsValidBlockHeight p next = true /\ h < next /\
  (forall x, h < x < next -> IsValidBlockHeight p x = false) /\
  ((IsValidBlockHeight p last = true /\ last <= h /\ forall x, last < x <= h -> IsValidBlockHeight p x = false) \/
   (last = 0 /\ forall x, x <= h -> IsValidBlockHeight p x = false)).
Proof.
  intros Hs Hc Hh. unfold GetNearestSuperblocksHeights. set (c := nSuperblockCycle p) in *. set (s := nSuperblockStartBlock p) in *.
  assert (Hno : forall x, ~ (s <= x /\ x mod c = 0) -> IsValidBlockHeight p x = false).
  { intros x Hx. apply not_true_iff_false. rewrite IsValidBlockHeight_spec by done. done. }
  pose proof (Z.mod_pos_bound s c Hc) as Hm. rewrite (Z.rem_mod_nonneg s), (Z.rem_mod_nonneg (c - s mod c)) by lia.
  set (first := s + (c - s mod c) mod c).
  assert (Hfirst : first mod c = 0 /\ s <= first /\ forall x, s <= x < first -> x mod c <> 0).
  { assert (Hdiv : s = c * (s / c) + s mod c) by (apply Z.div_mod; lia).
    destruct (decide (s mod c = 0)) as [E|E].
    - subst first. rewrite E, Z.sub_0_r, Z_mod_same_full, Z.add_0_r. split; [done|]. split; [lia|]. intros x Hx. lia.
    - subst first. rewrite (Z.mod_small (c - s mod c)) by lia.
      assert (Hf : s + (c - s mod c) = c * (s / c) + c) by lia.
      assert (Hb : (c * (s / c)) mod c = 0) by (rewrite Z.mul_comm; apply Z_mod_mult). rewrite Hf. split; [|split; [lia|]].
      + rewrite Z.mul_comm, <- Z.mul_succ_l. apply Z_mod_mult.
      + intros x Hx. apply (between_multiples c (c * (s / c))); [done|done|lia]. }
  destruct Hfirst as (F1 & F2 & F3). destruct (h <? first) eqn:El.
  - split; [by apply IsValidBlockHeight_spec|]. split; [lia|]. split.
    + intros x Hx. apply Hno. intros [Hx1 Hx2]. apply (F3 x); [lia|done].
    + right. split; [done|]. intros x Hx. apply Hno. intros [Hx1 Hx2]. apply (F3 x); [lia|done].
  - rewrite Z.rem_mod_nonneg by lia. set (last := h - h mod c). pose proof (Z.mod_pos_bound h c Hc) as Hhm.
    assert (Hlast : last mod c = 0).
    { subst last. rewrite Zminus_mod_idemp_r, Z.sub_diag. done. }
    assert (Hge : s <= last).
    { destruct (decide (last < first)) as [Hlt|]; [|lia]. exfalso.
      apply (between_multiples c last first); [done|done| |done]. subst last. lia. }
    assert (Hnext : (last + c) mod c = 0) by (rewrite Z.add_mod, Hlast, Z_mod_same_full by lia; done).
    split; [apply IsValidBlockHeight_spec; [done|done|split; [lia|done]]|]. split; [subst last; lia|]. split.
    + intros x Hx. apply Hno. intros [_ Hx2]. apply (between_multiples c last x) in Hx2; [done|done|done|subst last; lia].
    + left. split; [by apply IsValidBlockHeight_spec|]. split; [subst last; lia|]. intros x Hx. apply Hno. intros [_ Hx2].
      apply (between_multiples c last x) in Hx2; [done|done|done|subst last; lia].
Qed.

Lemma total_bound sb : - 2 ^ 63 <= GetPaymentsTotalAmount sb < 2 ^ 63.
Proof.
  unfold GetPaymentsTotalAmount. destruct (vecPayments sb) as [|q l] using rev_ind; [cbn; lia|].
  rewrite fold_left_app. cbn [fold_left]. apply i64_bound.
Qed.

(** A valid superblock pays at most the block reward. *)
Lemma sb_IsValid_bound p sb tx h reward : 0 <= reward < 2 ^ 63 -> sb_IsValid p sb tx h reward = Some true ->
  exists v, GetValueOut tx = Some v /\ v <= reward.
Proof.
  intros Hr H. unfold sb_IsValid in H. destruct (IsValidBlockHeight p h); [|done]. cbn [negb] in H.
  destruct (_ <? 0); [done|]. destruct (_ <? GetPaymentsTotalAmount sb) eqn:El; [done|].
  destruct (GetValueOut tx) as [v|]; [|done]. cbn [mbind option_bind] in H. exists v. split; [done|].
  destruct (_ <? v) eqn:Ev; [done|]. pose proof (total_bound sb) as Hb.
  assert (Hl : GetPaymentsLimit p h = 0) by (unfold GetPaymentsLimit; by destruct (IsValidBlockHeight p h)).
  rewrite Hl in El. rewrite i64_small in Ev by lia. lia.
Qed.

Lemma find_payment_found payment o outs : forall i j,
  outs !! i = Some o -> payment_script payment = scriptPubKey o -> payment_amount payment = nValue o ->
  exists k, find_payment payment outs j = Some k /\ (j <= k <= j + i)%nat.
Proof.
  induction outs as [|o' outs IH]; intros i j Hi Hs Ha; [done|]. cbn [find_payment].
  destruct (_ && _) eqn:E; [exists j; split; [done|lia]|].
  destruct i as [|i]; cbn in Hi.
  - injection Hi as ->. rewrite bool_decide_eq_true_2, Ha, Z.eqb_refl in E by done. done.
  - destruct (IH i (S j) Hi Hs Ha) as (k & -> & Hk). exists k. split; [done|lia].
Qed.

Definition payment_out (payment : CGovernancePayment) : CTxOut := mkCTxOut (payment_amount payment) (payment_script payment) (-10).

(** The payments are found in order behind any other outputs. *)
Lemma match_payments_suffix payments : forall miner start, (start <= length miner)%nat ->
  match_payments payments (miner ++ (payment_out <$> payments)) start = true.
Proof.
  induction payments as [|q payments IH]; intros miner start Hs; [done|]. cbn [match_payments].
  destruct (find_payment_found q (payment_out q) (drop start (miner ++ (payment_out <$> q :: payments)))
    (length miner - start) start) as (k & -> & Hk); [|done|done|].
  { rewrite lookup_drop. replace (start + (length miner - start))%nat with (length miner) by lia.
    rewrite lookup_app_r, Nat.sub_diag by lia. done. }
  specialize (IH (miner ++ [payment_out q]) k). rewrite <- app_assoc in IH. apply IH. rewrite length_app. cbn. lia.
Qed.

(** What a miner builds for a superblock is accepted. When the best superblock
    at a height schedules payments within the limit, a coinbase made of any
    miner outputs followed by the outputs of [CreateSuperblock], worth at most
    the reward plus the payments, passes the check. *)
Theorem created_superblock_valid p st h reward miner rest h0 sb v :
  GetBestSuperblock p st h = Some (h0, sb) -> GetPaymentsTotalAmount sb <= GetPaymentsLimit p h ->
  GetValueOut (mkCTransaction 1 rest (miner ++ CreateSuperblock p st h) 0) = Some v ->
  v <= i64 (reward + GetPaymentsTotalAmount sb) ->
  manager_IsValid p st (mkCTransaction 1 rest (miner ++ CreateSuperblock p st h) 0) h reward = Some true.
Proof.
  intros Hb Ht Hv Hle. unfold manager_IsValid. rewrite Hb. unfold sb_IsValid.
  assert (Hh : IsValidBlockHeight p h = true) by (unfold GetBestSuperblock in Hb; by destruct (IsValidBlockHeight p h)).
  rewrite Hh. cbn [negb]. unfold CreateSuperblock in *. rewrite Hb in *. cbn [vout].
  rewrite (proj2 (Z.ltb_ge _ 0)) by (unfold zlen; rewrite length_app, length_fmap; lia).
  rewrite (proj2 (Z.ltb_ge _ _)) by lia. rewrite Hv. cbn [mbind option_bind]. rewrite (proj2 (Z.ltb_ge _ _)) by lia.
  f_equal. apply (match_payments_suffix (vecPayments sb) miner 0). lia.
Qed.

Lemma find_payment_start payment outs : forall j k, find_payment payment outs j = Some k ->
  exists o, outs !! (k - j)%nat = Some o /\ (j <= k)%nat /\ payment_script payment = scriptPubKey o /\ payment_amount payment = nValue o.
Proof.
  induction outs as [|o outs IH]; intros j k H; [done|]. cbn [find_payment] in H. destruct (_ && _) eqn:E.
  - injection H as <-. rewrite Nat.sub_diag. exists o. apply andb_true_iff in E as [E1 E2].
    apply bool_decide_eq_true in E1. apply Z.eqb_eq in E2. done.
  - destruct (IH (S j) k H) as (o' & Ho & Hk & Hs). exists o'. replace (k - j)%nat with (S (k - S j))%nat by lia. split; [done|].
    split; [lia|done].
Qed.

(** One output pays for all equal payments. The search for the next payment
    starts at the output of the last one, not after it, so a coinbase with a
    single matching output satisfies a schedule that pays the same amount to the
    same script any number of times. *)
Theorem equal_payments_paid_once payment k vout :
  match_payments (replicate (S k) payment) vout 0 = match_payments [payment] vout 0.
Proof.
  cbn [replicate match_payments]. destruct (find_payment payment (drop 0 vout) 0) as [j|] eqn:E; [|done].
  apply find_payment_start in E as (o & Ho & Hj & Hs & Ha). rewrite drop_0, Nat.sub_0_r in Ho.
  clear Hj. induction k as [|k IH]; [done|]. cbn [replicate match_payments].
  destruct (find_payment_found payment o (drop j vout) 0 j) as (i & -> & Hi); [by rewrite lookup_drop, Nat.add_0_r|done|done|].
  replace i with j by lia. done.
Qed.

End SuperblockLemmas.

(** ** Concrete instances *)

(** A toy world, in which a signature is the key itself and a masternode's key
    repeats the index of its outpoint. *)
Definition toy_outpoint (i : Z) : COutPoint := mkCOutPoint (replicate 32 i) i.
Definition toy_gov_vote (i signal outcome time : Z) : CGovernanceVote :=
  mkVote signal (toy_outpoint i) (replicate 32 5) outcome time (toy_key i).
Definition toy_gov_env (checks : bool) : gov_env :=
  mkGov (fun o => Some (mkInfo (toy_key (n o)) (toy_key (n o)) 71200)) 3 checks 1500000000 false 1.
Definition toy_object : CGovernanceObject :=
  mkObject GOVERNANCE_OBJECT_TRIGGER 1499999000 (toy_outpoint 1) None 0 false true false false true false ∅ empty_file (CacheMultiMap.new 0).
Definition toy_ballots : list (gov_env * CGovernanceVote) := (fun v => (toy_gov_env true, v)) <$>
  [toy_gov_vote 1 VOTE_SIGNAL_FUNDING VOTE_OUTCOME_NO 1499999000; toy_gov_vote 2 VOTE_SIGNAL_FUNDING VOTE_OUTCOME_YES 1499999000;
   toy_gov_vote 1 VOTE_SIGNAL_FUNDING VOTE_OUTCOME_YES 1499999500; toy_gov_vote 3 VOTE_SIGNAL_FUNDING VOTE_OUTCOME_NO 1600000000].

Lemma vote_file_consistent_witness :
  let f := @AddVote toy_crypto (@AddVote toy_crypto empty_file (toy_gov_vote 1 1 1 10)) (toy_gov_vote 2 1 1 11) in
  listVotes (@RemoveVotesFromMasternode toy_crypto f (toy_outpoint 1)) = [toy_gov_vote 2 1 1 11] /\
  @file_wf toy_crypto (@RebuildIndex toy_crypto f).
Proof.
  split; [vm_compute; reflexivity|].
  assert (H0 : @file_wf toy_crypto empty_file) by (split; [constructor|split; reflexivity]).
  pose proof (@vote_file_consistent toy_crypto empty_file (toy_gov_vote 1 1 1 10) (toy_outpoint 1) H0) as [H1 _].
  pose proof (@vote_file_consistent toy_crypto _ (toy_gov_vote 2 1 1 11) (toy_outpoint 1) H1) as [H2 _].
  exact (proj1 (proj2 (proj2 (@vote_file_consistent toy_crypto _ (toy_gov_vote 2 1 1 11) (toy_outpoint 1) H2)))).
Defined.

Lemma votes_counted_once_witness :
  CountMatchingVotes (@tally toy_crypto toy_recovery toy_ballots toy_object []).1 VOTE_SIGNAL_FUNDING VOTE_OUTCOME_YES = 2 /\
  CountMatchingVotes (@tally toy_crypto toy_recovery toy_ballots toy_object []).1 VOTE_SIGNAL_FUNDING VOTE_OUTCOME_NO = 0 /\
  let '(obj', acc) := @tally toy_crypto toy_recovery toy_ballots toy_object [] in
  exists voters : gset COutPoint, CountMatchingVotes obj' VOTE_SIGNAL_FUNDING VOTE_OUTCOME_YES = Z.of_nat (size voters) /\
     forall o, o ∈ voters <-> exists v, last_vote acc o VOTE_SIGNAL_FUNDING = Some v /\ nVoteOutcome v = VOTE_OUTCOME_YES.
Proof.
  split; [vm_compute; reflexivity|]. split; [vm_compute; reflexivity|].
  pose proof (@votes_counted_once toy_crypto toy_recovery toy_ballots toy_object VOTE_SIGNAL_FUNDING VOTE_OUTCOME_YES) as H.
  destruct (@tally toy_crypto toy_recovery toy_ballots toy_object []) as [obj' acc].
  apply H; [reflexivity|discriminate].
Defined.

Lemma vote_rate_limit_inert_witness :
  (@ProcessVote toy_crypto toy_recovery (toy_gov_env true) (@tally toy_crypto toy_recovery toy_ballots toy_object []).1
     (toy_gov_vote 1 VOTE_SIGNAL_FUNDING VOTE_OUTCOME_ABSTAIN 1499999501)).2 <> VotingTooOften.
Proof. apply (@vote_rate_limit_inert toy_crypto toy_recovery toy_ballots toy_object); [reflexivity|split; reflexivity || discriminate]. Defined.

Lemma nearest_superblocks_exact_witness :
  GetNearestSuperblocksHeights main_superblocks 100000 = (87660, 175320) /\
  forall x, 100000 < x < 175320 -> IsValidBlockHeight main_superblocks x = false.
Proof.
  split; [reflexivity|]. intros x Hx.
  pose proof (nearest_superblocks_exact main_superblocks 100000 ltac:(by_decide) ltac:(by_decide) ltac:(by_decide)) as H.
  change (GetNearestSuperblocksHeights main_superblocks 100000) with (87660, 175320) in H.
  destruct H as (_ & _ & H & _). exact (H x Hx).
Defined.

(** A trigger for the first superblock, funded by one masternode. *)
Definition toy_funded (amount : Z) : gov_state :=
  mkGovState
    {[ [1] := mkObject GOVERNANCE_OBJECT_TRIGGER 1499999000 (toy_outpoint 1) None 0 false true false false true false
        {[ toy_outpoint 1 := {[ VOTE_SIGNAL_FUNDING := mkInstance VOTE_OUTCOME_YES 0 0 ]} ]} empty_file (CacheMultiMap.new 0) ]}
    {[ [1] := mkSuperblock [1] 87660 SEEN_OBJECT_IS_VALID [mkPayment [OP_RETURN] amount] ]} 87000.

Lemma created_superblock_valid_witness :
  manager_IsValid main_superblocks (toy_funded 0)
    (mkCTransaction 1 [] ([mkCTxOut 60 [] (-10)] ++ CreateSuperblock main_superblocks (toy_funded 0) 87660) 0) 87660 60 = Some true.
Proof.
  apply (created_superblock_valid main_superblocks (toy_funded 0) 87660 60 [mkCTxOut 60 [] (-10)] [] [1]
    (mkSuperblock [1] 87660 SEEN_OBJECT_IS_VALID [mkPayment [OP_RETURN] 0]) 60).
  - vm_compute. reflexivity.
  - vm_compute. discriminate.
  - vm_compute. reflexivity.
  - vm_compute. discriminate.
Defined.

End Governance.
