(* ===== verification/GovernanceManager.v ===== *)
(** * The governance manager (governance.h/.cpp, governance-object.cpp)

    The manager keeps the objects, finds the object of a vote, holds back votes
    of unknown objects and of unknown masternodes, and objects whose masternode
    is unknown or whose fee is not yet buried.  What an object's own checks
    against the chain and the masternode list say is a field of the environment;
    messages sent and punishments are effects. *)

From stdpp Require Import base list list_numbers gmap sorting numbers option strings.
From Stdlib Require Import ZArith Lia.
From S2P Require Import Prelude Serialize Script Transaction Interpreter InterpreterSafety Standard Encodings Decimal FluidToken FluidDB Spork Caches MultiMaps Governance.

Local Open Scope Z_scope.

Module GovernanceManager.
Import Serialize Script Transaction Interpreter InterpreterSafety Encodings Decimal FluidToken Governance.

Definition RATE_BUFFER_SIZE : nat := 5.
Definition MAX_CACHE_SIZE : Z := 1000000.
Definition MAX_TIME_FUTURE_DEVIATION : Z := 60 * 60.
Definition RELIABLE_PROPAGATION_TIME : Z := 60.
Definition MIN_GOVERNANCE_PEER_PROTO_VERSION : Z := 70900.
Definition GOVERNANCE_DELETION_DELAY : Z := 10 * 60.

(** ** The buffer of timestamps *)

Record CRateCheckBuffer : Type := mkBuffer {
  vecTimestamps : list Z;
  nDataStart : nat;
  nDataEnd : nat;
  fBufferEmpty : bool
}.

Definition empty_buffer : CRateCheckBuffer := mkBuffer (replicate RATE_BUFFER_SIZE 0) 0 0 true.

Definition AddTimestamp (b : CRateCheckBuffer) (nTimestamp : Z) : CRateCheckBuffer :=
  let start :=
    if (nDataEnd b =? nDataStart b)%nat && negb (fBufferEmpty b) then ((nDataStart b + 1) mod RATE_BUFFER_SIZE)%nat else nDataStart b in
  mkBuffer (<[nDataEnd b := nTimestamp]> (vecTimestamps b)) start ((nDataEnd b + 1) mod RATE_BUFFER_SIZE)%nat false.

(** The loops of [GetMinTimestamp] and [GetMaxTimestamp]: [keep] the new value
    and go on until [nDataEnd]. *)
Fixpoint scan_buffer (fuel : nat) (keep : Z -> Z -> bool) (b : CRateCheckBuffer) (nIndex : nat) (acc : Z) : Z :=
  match fuel with
  | O => acc
  | S fuel =>
      let t := nth nIndex (vecTimestamps b) 0 in
      let acc := if keep t acc then t else acc in
      let nIndex := ((nIndex + 1) mod RATE_BUFFER_SIZE)%nat in
      if (nIndex =? nDataEnd b)%nat then acc else scan_buffer fuel keep b nIndex acc
  end.

Definition GetMinTimestamp (b : CRateCheckBuffer) : Z :=
  let nMin := 2 ^ 63 - 1 in
  if fBufferEmpty b then nMin else scan_buffer RATE_BUFFER_SIZE Z.ltb b (nDataStart b) nMin.

Definition GetMaxTimestamp (b : CRateCheckBuffer) : Z :=
  if fBufferEmpty b then 0 else scan_buffer RATE_BUFFER_SIZE Z.gtb b (nDataStart b) 0.

Definition GetCount (b : CRateCheckBuffer) : Z :=
  if fBufferEmpty b then 0
  else if (nDataStart b <? nDataEnd b)%nat then Z.of_nat (nDataEnd b) - Z.of_nat (nDataStart b)
  else Z.of_nat RATE_BUFFER_SIZE - Z.of_nat (nDataStart b) + Z.of_nat (nDataEnd b).

(** The rate, as what the division is made of. *)
Inductive rate : Type := NoRate | InfiniteRate | Rate (count span : Z).

Definition GetRate (b : CRateCheckBuffer) : rate :=
  let nCount := GetCount b in
  if nCount <? Z.of_nat RATE_BUFFER_SIZE then NoRate
  else if GetMinTimestamp b =? GetMaxTimestamp b then InfiniteRate
  else Rate nCount (i64 (GetMaxTimestamp b - GetMinTimestamp b)).

(** ** State *)

Record ExpirationInfo : Type := mkExpiration { nExpirationTime : Z; idFrom : Z }.
Record last_object_rec : Type := mkLast { triggerBuffer : CRateCheckBuffer; fStatusOK : bool }.

Record gov_manager : Type := mkManager {
  objects : gov_state;
  mapErasedGovernanceObjects : gmap (list Z) Z;
  mapMasternodeOrphanObjects : gmap (list Z) (CGovernanceObject * ExpirationInfo);
  mapMasternodeOrphanCounter : gmap COutPoint Z;
  mapPostponedObjects : gmap (list Z) CGovernanceObject;
  setAdditionalRelayObjects : gset (list Z);
  cmapVoteToObject : CacheMap.CacheMap (K := list Z) (V := list Z);
  cmapInvalidVotes : CacheMap.CacheMap (K := list Z) (V := CGovernanceVote);
  orphanVotes : CacheMultiMap.CacheMultiMap (K := list Z) (V := CGovernanceVote * Z);
  mapLastMasternodeObject : gmap COutPoint last_object_rec;
  setRequestedObjects : gset (list Z);
  setRequestedVotes : gset (list Z);
  fRateChecksEnabled : bool
}.

Definition new_manager : gov_manager :=
  mkManager (mkGovState ∅ ∅ 0) ∅ ∅ ∅ ∅ ∅ (CacheMap.new MAX_CACHE_SIZE) (CacheMap.new MAX_CACHE_SIZE) (CacheMultiMap.new MAX_CACHE_SIZE)
    ∅ ∅ ∅ true.

(** What [IsValidLocally] reports. *)
Record local_validity : Type := mkLocal { is_valid : bool; missing_masternode : bool; missing_confirmations : bool }.

(** What the functions read of the rest of the node; [rate_below] is the
    comparison of a rate with the largest one allowed, in floating point. *)
Record mgr_env : Type := mkMgrEnv {
  votes_env : gov_env;
  fLiteMode : bool;
  IsBlockchainSynced : bool;
  IsMasternodeListSynced : bool;
  IsWinnersListSynced : bool;
  IsSynced : bool;
  peer_id : Z;
  peer_nVersion : Z;
  node_time : Z;
  nSuperblockCycleSeconds : Z;
  rate_below : rate -> bool;
  IsValidLocally : CGovernanceObject -> local_validity;
  IsCollateralValid : CGovernanceObject -> bool * bool;
  proposal_validates : CGovernanceObject -> bool;
  dirty_hashes : list (list Z)
}.

Inductive gov_effect : Type :=
  | RejectObsolete
  | AskAgain (h : list Z)
  | Misbehaving (node howmuch : Z)
  | RelayObject (h : list Z)
  | RelayVote (h : list Z)
  | RequestObject (h : list Z)
  | NotifyVote (h : list Z)
  | NotifyObject (h : list Z).

Definition now (env : mgr_env) : Z := gov_time (votes_env env).

(** The environment of the votes, with the manager's own switch. *)
Definition checks (env : mgr_env) (enabled : bool) : gov_env :=
  let e := votes_env env in mkGov (GetMasternodeInfo e) (CountEnabled e) enabled (gov_time e) (spork6 e) (nGovernanceMinQuorum e).

Definition set_objects (m : gov_manager) (objs : gmap (list Z) CGovernanceObject) : gov_manager :=
  mkManager (mkGovState objs (mapTrigger (objects m)) (nCachedHeight (objects m))) (mapErasedGovernanceObjects m) (mapMasternodeOrphanObjects m)
    (mapMasternodeOrphanCounter m) (mapPostponedObjects m) (setAdditionalRelayObjects m) (cmapVoteToObject m) (cmapInvalidVotes m)
    (orphanVotes m) (mapLastMasternodeObject m) (setRequestedObjects m) (setRequestedVotes m) (fRateChecksEnabled m).

Definition set_caches (m : gov_manager) voteToObject invalid orphans : gov_manager :=
  mkManager (objects m) (mapErasedGovernanceObjects m) (mapMasternodeOrphanObjects m)
    (mapMasternodeOrphanCounter m) (mapPostponedObjects m) (setAdditionalRelayObjects m) voteToObject invalid
    orphans (mapLastMasternodeObject m) (setRequestedObjects m) (setRequestedVotes m) (fRateChecksEnabled m).

Definition set_orphan_objects (m : gov_manager) orphanObjects counter : gov_manager :=
  mkManager (objects m) (mapErasedGovernanceObjects m) orphanObjects counter (mapPostponedObjects m)
    (setAdditionalRelayObjects m) (cmapVoteToObject m) (cmapInvalidVotes m)
    (orphanVotes m) (mapLastMasternodeObject m) (setRequestedObjects m) (setRequestedVotes m) (fRateChecksEnabled m).

Definition set_rates (m : gov_manager) relay lastObject : gov_manager :=
  mkManager (objects m) (mapErasedGovernanceObjects m) (mapMasternodeOrphanObjects m)
    (mapMasternodeOrphanCounter m) (mapPostponedObjects m) relay (cmapVoteToObject m) (cmapInvalidVotes m)
    (orphanVotes m) lastObject (setRequestedObjects m) (setRequestedVotes m) (fRateChecksEnabled m).

Definition set_requested (m : gov_manager) objs votes : gov_manager :=
  mkManager (objects m) (mapErasedGovernanceObjects m) (mapMasternodeOrphanObjects m)
    (mapMasternodeOrphanCounter m) (mapPostponedObjects m) (setAdditionalRelayObjects m) (cmapVoteToObject m) (cmapInvalidVotes m)
    (orphanVotes m) (mapLastMasternodeObject m) objs votes (fRateChecksEnabled m).

Definition set_postponed (m : gov_manager) postponed : gov_manager :=
  mkManager (objects m) (mapErasedGovernanceObjects m) (mapMasternodeOrphanObjects m)
    (mapMasternodeOrphanCounter m) postponed (setAdditionalRelayObjects m) (cmapVoteToObject m) (cmapInvalidVotes m)
    (orphanVotes m) (mapLastMasternodeObject m) (setRequestedObjects m) (setRequestedVotes m) (fRateChecksEnabled m).

(** A use of memory that is gone. *)
Definition defined {A} (o : option A) : res A := match o with Some a => Val a | None => NullDeref end.

Section Manager.
Context {CR : Crypto} {BP : Base58Prefix} {PK : PubKeyRecovery}.

(** ** Votes *)

Definition AddInvalidVote (m : gov_manager) (vote : CGovernanceVote) : gov_manager :=
  set_caches m (cmapVoteToObject m) (CacheMap.Insert (cmapInvalidVotes m) (vote_GetHash vote) vote).1 (orphanVotes m).

(** [ProcessVote] of an object, with its call of [AddInvalidVote]. *)
Definition object_ProcessVote (env : gov_env) (m : gov_manager) (obj : CGovernanceObject) (vote : CGovernanceVote)
  : option (gov_manager * CGovernanceObject * vote_result) :=
  let '(obj, r) := ProcessVote env obj vote in
  if decide (r = FreedMapUsed) then None
  else Some (if decide (r = InvalidVote) then AddInvalidVote m vote else m, obj, r).

(** The penalty of the exceptions. *)
Definition GetNodePenalty (r : vote_result) : Z :=
  match r with UnsupportedSignal | InvalidVote => 20 | _ => 0 end.

(** [CGovernanceManager::ProcessVote]: whether the vote is new, the penalty, and
    the request for an unknown object. *)
Definition manager_ProcessVote (env : mgr_env) (m : gov_manager) (vote : CGovernanceVote)
  : option (gov_manager * bool * Z * list gov_effect) :=
  let nHashVote := vote_GetHash vote in
  let nHashGovobj := nParentHash vote in
  if CacheMap.HasKey (cmapVoteToObject m) nHashVote then Some (m, false, 0, [])
  else if CacheMap.HasKey (cmapInvalidVotes m) nHashVote then Some (m, false, 20, [])
  else match mapObjects (objects m) !! nHashGovobj with
       | None =>
           '(orphans, new) ← CacheMultiMap.Insert pair_lt (orphanVotes m) nHashGovobj (vote, i64 (now env + GOVERNANCE_ORPHAN_EXPIRATION_TIME));
           Some (set_caches m (cmapVoteToObject m) (cmapInvalidVotes m) orphans, false, 0, if (new : bool) then [RequestObject nHashGovobj] else [])
       | Some govobj =>
           if fCachedDelete govobj || fExpired govobj then Some (m, false, 0, [])
           else
             '(m, govobj, r) ← object_ProcessVote (checks env (fRateChecksEnabled m)) m govobj vote;
             let m := set_objects m (<[nHashGovobj := govobj]> (mapObjects (objects m))) in
             if decide (r = Accepted) then
               let '(c, fOk) := CacheMap.Insert (cmapVoteToObject m) nHashVote nHashGovobj in
               Some (set_caches m c (cmapInvalidVotes m) (orphanVotes m), fOk, 0, [])
             else Some (m, false, GetNodePenalty r, [])
       end.

(** [AcceptMessage] on one of the two sets. *)
Definition AcceptMessage (nHash : list Z) (setHash : gset (list Z)) : gset (list Z) * bool :=
  if decide (nHash ∈ setHash) then (setHash ∖ {[nHash]}, true) else (setHash, false).

(** [ConfirmInventoryRequest]: whether to ask for an object, or for a vote. *)
Inductive inv_type : Type := MSG_GOVERNANCE_OBJECT | MSG_GOVERNANCE_OBJECT_VOTE.

Definition ConfirmInventoryRequest (env : mgr_env) (m : gov_manager) (type : inv_type) (h : list Z) : gov_manager * bool :=
  if negb (IsWinnersListSynced env) then (m, false)
  else match type with
       | MSG_GOVERNANCE_OBJECT =>
           if decide (mapObjects (objects m) !! h <> None \/ mapPostponedObjects m !! h <> None) then (m, false)
           else (set_requested m ({[h]} ∪ setRequestedObjects m) (setRequestedVotes m), true)
       | MSG_GOVERNANCE_OBJECT_VOTE =>
           if CacheMap.HasKey (cmapVoteToObject m) h then (m, false)
           else (set_requested m (setRequestedObjects m) ({[h]} ∪ setRequestedVotes m), true)
       end.

(** "Governance object vote": an obsolete peer is told so, and its vote is
    processed all the same. *)
Definition VoteMessage (env : mgr_env) (m : gov_manager) (vote : CGovernanceVote) : option (gov_manager * list gov_effect) :=
  if fLiteMode env || negb (IsBlockchainSynced env) then Some (m, [])
  else
    let es := if peer_nVersion env <? MIN_GOVERNANCE_PEER_PROTO_VERSION then [RejectObsolete] else [] in
    if negb (IsMasternodeListSynced env) then Some (m, es)
    else
      let '(requested, ok) := AcceptMessage (vote_GetHash vote) (setRequestedVotes m) in
      let m := set_requested m (setRequestedObjects m) requested in
      if negb ok then Some (m, es)
      else
        '(m, new, penalty, es') ← manager_ProcessVote env m vote;
        Some (m, es ++ es' ++
          if (new : bool) then [RelayVote (vote_GetHash vote); NotifyVote (vote_GetHash vote)]
          else if negb (penalty =? 0) && IsSynced env then [Misbehaving (peer_id env) penalty] else []).

(** [CGovernanceObject::CheckOrphanVotes]: the nodes of the list in order. *)
Fixpoint check_orphans (env : gov_env) (todo : list nat) (m : gov_manager) (obj : CGovernanceObject) (es : list gov_effect)
  : option (gov_manager * CGovernanceObject * list gov_effect) :=
  match todo with
  | [] => Some (m, obj, es)
  | it :: todo =>
      item ← Nodes.deref (CacheMultiMap.listItems (cmmapOrphanVotes obj)) it;
      let '(vote, time) := CacheMap.value item in
      let expired := time <? gov_time env in
      if negb expired && negb (mn_Has env (masternodeOutpoint vote)) then check_orphans env todo m obj es
      else
        '(m, obj, r) ← object_ProcessVote env m obj vote;
        let es := if decide (r = Accepted) then es ++ [RelayVote (vote_GetHash vote)] else es in
        if expired || bool_decide (r = Accepted) then
          orphans ← CacheMultiMap.EraseValue pair_lt (cmmapOrphanVotes obj) (CacheMap.key item) (CacheMap.value item);
          check_orphans env todo m (set_orphans obj orphans) es
        else check_orphans env todo m obj es
  end.

Definition object_CheckOrphanVotes (env : gov_env) (m : gov_manager) (obj : CGovernanceObject)
  : option (gov_manager * CGovernanceObject * list gov_effect) :=
  check_orphans env (CacheMultiMap.listItems (cmmapOrphanVotes obj)).*1 m obj [].

(** Every object in turn, with the rate checks off. *)
Definition CheckMasternodeOrphanVotes (env : mgr_env) (m : gov_manager) : option (gov_manager * list gov_effect) :=
  fold_left (fun s e =>
      '(m, es) ← s;
      '(m, obj, es') ← object_CheckOrphanVotes (checks env false) m e.2;
      Some (set_objects m (<[e.1 := obj]> (mapObjects (objects m))), es ++ es'))
    (Spork.in_order (mapObjects (objects m))) (Some (m, [])).

(** The votes that waited for an object, onto the object given. *)
Fixpoint check_votes (env : mgr_env) (nHash : list Z) (vecVotePairs : list (CGovernanceVote * Z)) (m : gov_manager) (govobj : CGovernanceObject)
  (es : list gov_effect) : option (gov_manager * CGovernanceObject * list gov_effect) :=
  match vecVotePairs with
  | [] => Some (m, govobj, es)
  | (vote, time) :: rest =>
      '(m, govobj, fRemove, es) ←
        (if time <? now env then Some (m, govobj, true, es)
         else
           '(m, govobj, r) ← object_ProcessVote (checks env false) m govobj vote;
           Some (m, govobj, bool_decide (r = Accepted), if decide (r = Accepted) then es ++ [RelayVote (vote_GetHash vote)] else es));
      if (fRemove : bool) then
        orphans ← CacheMultiMap.EraseValue pair_lt (orphanVotes m) nHash (vote, time);
        check_votes env nHash rest (set_caches m (cmapVoteToObject m) (cmapInvalidVotes m) orphans) govobj es
      else check_votes env nHash rest m govobj es
  end.

Definition CheckOrphanVotes (env : mgr_env) (m : gov_manager) (nHash : list Z) (govobj : CGovernanceObject)
  : option (gov_manager * CGovernanceObject * list gov_effect) :=
  vecVotePairs ← CacheMultiMap.GetAll (orphanVotes m) nHash;
  check_votes env nHash vecVotePairs m govobj [].

(** [CleanOrphanObjects]: the orphan votes whose time is over. *)
Definition CleanOrphanObjects (env : mgr_env) (m : gov_manager) : option gov_manager :=
  orphans ← fold_left (fun c (e : nat * CacheMap.CacheItem) =>
      c ← c;
      item ← Nodes.deref (CacheMultiMap.listItems c) e.1;
      if (CacheMap.value item).2 <? now env then CacheMultiMap.EraseValue pair_lt c (CacheMap.key item) (CacheMap.value item) else Some c)
    (CacheMultiMap.listItems (orphanVotes m)) (Some (orphanVotes m));
  Some (set_caches m (cmapVoteToObject m) (cmapInvalidVotes m) orphans).

(** ** Objects *)

Definition MasternodeRateUpdate (env : mgr_env) (m : gov_manager) (nHash : list Z) (govobj : CGovernanceObject) : gov_manager :=
  if negb (nObjectType govobj =? GOVERNANCE_OBJECT_TRIGGER) then m
  else
    let rec := default (mkLast empty_buffer true) (mapLastMasternodeObject m !! object_outpoint govobj) in
    let nTimestamp := object_nTime govobj in
    set_rates m
      (if node_time env + MAX_TIME_FUTURE_DEVIATION - RELIABLE_PROPAGATION_TIME <? nTimestamp
       then {[nHash]} ∪ setAdditionalRelayObjects m else setAdditionalRelayObjects m)
      (<[object_outpoint govobj := mkLast (AddTimestamp (triggerBuffer rec) nTimestamp) true]> (mapLastMasternodeObject m)).

(** The result, and whether the check was bypassed. *)
Definition MasternodeRateCheck (env : mgr_env) (m : gov_manager) (govobj : CGovernanceObject) (fUpdateFailStatus fForce : bool)
  : gov_manager * bool * bool :=
  if negb (IsSynced env) then (m, true, false)
  else if negb (fRateChecksEnabled m) then (m, true, false)
  else if negb (nObjectType govobj =? GOVERNANCE_OBJECT_TRIGGER) then (m, true, false)
  else
    let nTimestamp := object_nTime govobj in
    if nTimestamp <? now env - 2 * nSuperblockCycleSeconds env then (m, false, false)
    else if now env + MAX_TIME_FUTURE_DEVIATION <? nTimestamp then (m, false, false)
    else match mapLastMasternodeObject m !! object_outpoint govobj with
         | None => (m, true, false)
         | Some rec =>
             if fStatusOK rec && negb fForce then (m, true, true)
             else if rate_below env (GetRate (AddTimestamp (triggerBuffer rec) nTimestamp)) then (m, true, false)
             else (if fUpdateFailStatus
                   then set_rates m (setAdditionalRelayObjects m)
                          (<[object_outpoint govobj := mkLast (triggerBuffer rec) false]> (mapLastMasternodeObject m))
                   else m, false, false)
         end.

Definition set_gov_state (m : gov_manager) (gs : gov_state) : gov_manager :=
  mkManager gs (mapErasedGovernanceObjects m) (mapMasternodeOrphanObjects m)
    (mapMasternodeOrphanCounter m) (mapPostponedObjects m) (setAdditionalRelayObjects m) (cmapVoteToObject m) (cmapInvalidVotes m)
    (orphanVotes m) (mapLastMasternodeObject m) (setRequestedObjects m) (setRequestedVotes m) (fRateChecksEnabled m).

(** The object is copied into the map; the votes that waited for it go to the
    object given. *)
Definition AddGovernanceObject (env : mgr_env) (m : gov_manager) (nHash : list Z) (govobj : CGovernanceObject)
  : res (gov_manager * list gov_effect) :=
  let govobj := UpdateSentinelVariables (votes_env env) govobj in
  if negb (is_valid (IsValidLocally env govobj)) then Val (m, [])
  else if decide (mapObjects (objects m) !! nHash <> None) then Val (m, [])
  else
    let m := set_objects m (<[nHash := govobj]> (mapObjects (objects m))) in
    '(m, ok) ← (if nObjectType govobj =? GOVERNANCE_OBJECT_TRIGGER then
                  '(gs, ok) ← AddNewTrigger (objects m) nHash; Val (set_gov_state m gs, ok : bool)
                else Val (m, true));
    if negb ok then Val (set_objects m (alter (mark_deleted (now env)) nHash (mapObjects (objects m))), [])
    else
      let m := MasternodeRateUpdate env m nHash govobj in
      '(m, _, es) ← defined (CheckOrphanVotes env m nHash govobj);
      Val (m, (if IsSynced env then [RelayObject nHash] else []) ++ es ++ [NotifyObject nHash]).

(** "Governance object".  The arguments of the expiry are in the order of the
    call: the peer first. *)
Definition ObjectMessage (env : mgr_env) (m : gov_manager) (nHash : list Z) (govobj : CGovernanceObject)
  : res (gov_manager * list gov_effect) :=
  if fLiteMode env || negb (IsBlockchainSynced env) then Val (m, [])
  else if peer_nVersion env <? MIN_GOVERNANCE_PEER_PROTO_VERSION then Val (m, [RejectObsolete])
  else if negb (IsMasternodeListSynced env) then Val (m, [])
  else
    let '(requested, ok) := AcceptMessage nHash (setRequestedObjects m) in
    let m := set_requested m requested (setRequestedVotes m) in
    if negb ok then Val (m, [])
    else if decide (mapObjects (objects m) !! nHash <> None \/ mapPostponedObjects m !! nHash <> None \/
                    mapErasedGovernanceObjects m !! nHash <> None \/ mapMasternodeOrphanObjects m !! nHash <> None) then Val (m, [])
    else
      let '(m, ok, bypassed) := MasternodeRateCheck env m govobj true false in
      if negb ok then Val (m, [])
      else
        let validity := IsValidLocally env govobj in
        let '(m, ok) :=
          if bypassed && (is_valid validity || missing_masternode validity) then (MasternodeRateCheck env m govobj true true).1 else (m, true) in
        if negb ok then Val (m, [])
        else if is_valid validity then AddGovernanceObject env m nHash govobj
        else if missing_masternode validity then
          let count := default 0 (mapMasternodeOrphanCounter m !! object_outpoint govobj) in
          if 10 <=? count then
            Val (set_orphan_objects m (mapMasternodeOrphanObjects m) (<[object_outpoint govobj := count]> (mapMasternodeOrphanCounter m)), [AskAgain nHash])
          else
            let info := mkExpiration (peer_id env) (i32 (now env + GOVERNANCE_ORPHAN_EXPIRATION_TIME)) in
            Val (set_orphan_objects m (<[nHash := (govobj, info)]> (mapMasternodeOrphanObjects m))
                   (<[object_outpoint govobj := count + 1]> (mapMasternodeOrphanCounter m)), [])
        else if missing_confirmations validity then Val (set_postponed m (<[nHash := govobj]> (mapPostponedObjects m)), [])
        else Val (m, [Misbehaving (peer_id env) 20]).

(** One round of [CheckMasternodeOrphanObjects], with the rate checks off. *)
Definition check_orphan_object (env : mgr_env) (m : gov_manager) (e : list Z * (CGovernanceObject * ExpirationInfo))
  : res (gov_manager * list gov_effect) :=
  let '(nHash, (govobj, info)) := e in
  let validity := IsValidLocally env govobj in
  if (now env <=? nExpirationTime info) && negb (is_valid validity) && missing_masternode validity then Val (m, [])
  else
    '(m, es) ← (if now env <=? nExpirationTime info then
                  if is_valid validity then AddGovernanceObject env m nHash govobj else Val (m, [])
                else Val (m, [Misbehaving (idFrom info) 20]));
    count ← defined (mapMasternodeOrphanCounter m !! object_outpoint govobj);
    Val (set_orphan_objects m (delete nHash (mapMasternodeOrphanObjects m))
           (if count - 1 =? 0 then delete (object_outpoint govobj) (mapMasternodeOrphanCounter m)
            else <[object_outpoint govobj := count - 1]> (mapMasternodeOrphanCounter m)), es).

Fixpoint check_orphan_objects (env : mgr_env) (l : list (list Z * (CGovernanceObject * ExpirationInfo))) (m : gov_manager) (es : list gov_effect)
  : res (gov_manager * list gov_effect) :=
  match l with
  | [] => Val (m, es)
  | e :: l => '(m, es') ← check_orphan_object env m e; check_orphan_objects env l m (es ++ es')
  end.

Definition set_rate_checks (m : gov_manager) (b : bool) : gov_manager :=
  mkManager (objects m) (mapErasedGovernanceObjects m) (mapMasternodeOrphanObjects m)
    (mapMasternodeOrphanCounter m) (mapPostponedObjects m) (setAdditionalRelayObjects m) (cmapVoteToObject m) (cmapInvalidVotes m)
    (orphanVotes m) (mapLastMasternodeObject m) (setRequestedObjects m) (setRequestedVotes m) b.

Definition CheckMasternodeOrphanObjects (env : mgr_env) (m : gov_manager) : res (gov_manager * list gov_effect) :=
  '(m', es) ← check_orphan_objects env (Spork.in_order (mapMasternodeOrphanObjects m)) (set_rate_checks m false) [];
  Val (set_rate_checks m' (fRateChecksEnabled m), es).

(** One postponed object: whether it stays; the assertion on its type. *)
Definition check_postponed (env : mgr_env) (m : gov_manager) (e : list Z * CGovernanceObject) : res (gov_manager * list gov_effect) :=
  let '(nHash, govobj) := e in
  if nObjectType govobj =? GOVERNANCE_OBJECT_TRIGGER then BadAssert
  else
    let '(collateral, missing) := IsCollateralValid env govobj in
    if negb collateral && missing then Val (m, [])
    else
      '(m, es) ← (if (collateral : bool) && is_valid (IsValidLocally env govobj) then AddGovernanceObject env m nHash govobj else Val (m, []));
      Val (set_postponed m (delete nHash (mapPostponedObjects m)), es).

Fixpoint check_postponed_all (env : mgr_env) (l : list (list Z * CGovernanceObject)) (m : gov_manager) (es : list gov_effect)
  : res (gov_manager * list gov_effect) :=
  match l with
  | [] => Val (m, es)
  | e :: l => '(m, es') ← check_postponed env m e; check_postponed_all env l m (es ++ es')
  end.

(** The additional relays: the hashes that stay, and the relays. *)
Definition additional_relays (env : mgr_env) (m : gov_manager) : gset (list Z) * list gov_effect :=
  let time h := object_nTime <$> mapObjects (objects m) !! h in
  let valid t := (t <=? now env + MAX_TIME_FUTURE_DEVIATION) && (now env - 2 * nSuperblockCycleSeconds env <=? t) in
  let ready t := t <=? now env + MAX_TIME_FUTURE_DEVIATION - RELIABLE_PROPAGATION_TIME in
  let stays h := match time h with Some t => valid t && negb (ready t) | None => false end in
  let relayed h := match time h with Some t => valid t && ready t | None => false end in
  (filter (fun h => stays h = true) (setAdditionalRelayObjects m),
   RelayObject <$> filter (fun h => relayed h = true) (Spork.in_order (gset_to_gmap tt (setAdditionalRelayObjects m))).*1).

Definition CheckPostponedObjects (env : mgr_env) (m : gov_manager) : res (gov_manager * list gov_effect) :=
  if negb (IsSynced env) then Val (m, [])
  else
    '(m, es) ← check_postponed_all env (Spork.in_order (mapPostponedObjects m)) m [];
    let '(relay, es') := additional_relays env m in
    Val (set_rates m relay (mapLastMasternodeObject m), es ++ es').

(** The votes of a dirty object whose masternodes are gone. *)
Definition clear_dirty (env : mgr_env) (m : gov_manager) (h : list Z) : gov_manager :=
  set_objects m (alter (fun obj => let obj := ClearMasternodeVotes (votes_env env) obj in
    set_votes obj (mapCurrentMNVotes obj) (fileVotes obj) true) h (mapObjects (objects m))).

Definition set_erased (m : gov_manager) erased : gov_manager :=
  mkManager (objects m) erased (mapMasternodeOrphanObjects m)
    (mapMasternodeOrphanCounter m) (mapPostponedObjects m) (setAdditionalRelayObjects m) (cmapVoteToObject m) (cmapInvalidVotes m)
    (orphanVotes m) (mapLastMasternodeObject m) (setRequestedObjects m) (setRequestedVotes m) (fRateChecksEnabled m).

(** Erasing the references of an object: the nodes of the list in order. *)
Definition erase_references (c : CacheMap.CacheMap (K := list Z) (V := list Z)) (h : list Z) : option (CacheMap.CacheMap (K := list Z) (V := list Z)) :=
  fold_left (fun c (e : nat * CacheMap.CacheItem) =>
      c ← c;
      item ← Nodes.deref (CacheMap.listItems c) e.1;
      if decide (CacheMap.value item = h) then CacheMap.Erase c (CacheMap.key item) else Some c)
    (CacheMap.listItems c) (Some c).

(** One object of [UpdateCachesAndClean]. *)
Definition clean_object (env : mgr_env) (m : gov_manager) (e : list Z * CGovernanceObject) : option gov_manager :=
  let '(nHash, obj) := e in
  let obj := if fDirtyCache obj then UpdateSentinelVariables (votes_env env) obj else obj in
  let nTimeSinceDeletion := i64 (now env - nDeletionTime obj) in
  if (fCachedDelete obj || fExpired obj) && (GOVERNANCE_DELETION_DELAY <=? nTimeSinceDeletion) then
    refs ← erase_references (cmapVoteToObject m) nHash;
    let nTimeExpired :=
      if nObjectType obj =? 1 then 2 ^ 63 - 1
      else i64 (object_nTime obj + 2 * nSuperblockCycleSeconds env + GOVERNANCE_DELETION_DELAY) in
    let m := set_caches m refs (cmapInvalidVotes m) (orphanVotes m) in
    let m := set_erased m (match mapErasedGovernanceObjects m !! nHash with
                           | Some _ => mapErasedGovernanceObjects m
                           | None => <[nHash := nTimeExpired]> (mapErasedGovernanceObjects m)
                           end) in
    Some (set_objects m (delete nHash (mapObjects (objects m))))
  else
    let obj :=
      if (nObjectType obj =? 1) && negb (proposal_validates env obj) then mark_deleted (now env) obj else obj in
    Some (set_objects m (<[nHash := obj]> (mapObjects (objects m)))).

Definition UpdateCachesAndClean (p : superblock_params) (env : mgr_env) (m : gov_manager) : option gov_manager :=
  let m := fold_left (clear_dirty env) (dirty_hashes env) m in
  let m := set_gov_state m (CleanAndRemove p (now env) (objects m)) in
  m ← fold_left (fun m e => m ← m; clean_object env m e) (Spork.in_order (mapObjects (objects m))) (Some m);
  Some (set_erased m (filter (fun e => now env <= e.2) (mapErasedGovernanceObjects m))).

Definition RebuildIndexes (m : gov_manager) : gov_manager :=
  set_caches m
    (fold_left (fun c e => (CacheMap.Insert c (vote_GetHash (snd e)) (fst e)).1)
       (e ← Spork.in_order (mapObjects (objects m)); pair e.1 <$> listVotes (fileVotes e.2)) (CacheMap.Clear (cmapVoteToObject m)))
    (cmapInvalidVotes m) (orphanVotes m).

Fixpoint add_cached_triggers (env : mgr_env) (l : list (list Z * CGovernanceObject)) (m : gov_manager) : res gov_manager :=
  match l with
  | [] => Val m
  | (h, obj) :: l =>
      if negb (nObjectType obj =? GOVERNANCE_OBJECT_TRIGGER) then add_cached_triggers env l m
      else
        '(gs, ok) ← AddNewTrigger (objects m) h;
        let m := set_gov_state m gs in
        add_cached_triggers env l (if ok : bool then m else set_objects m (alter (mark_deleted (now env)) h (mapObjects (objects m))))
  end.

Definition AddCachedTriggers (env : mgr_env) (m : gov_manager) : res gov_manager :=
  add_cached_triggers env (Spork.in_order (mapObjects (objects m))) m.

Definition InitOnLoad (env : mgr_env) (m : gov_manager) : res gov_manager := AddCachedTriggers env (RebuildIndexes m).

End Manager.

(** ** The buffer keeps the latest timestamps *)

Definition contents (b : CRateCheckBuffer) : list Z :=
  (fun i => nth ((nDataStart b + i) mod RATE_BUFFER_SIZE)%nat (vecTimestamps b) 0) <$> seq 0 (Z.to_nat (GetCount b)).

Definition buffer_wf (b : CRateCheckBuffer) : Prop :=
  length (vecTimestamps b) = RATE_BUFFER_SIZE /\ (nDataStart b < 5)%nat /\ (nDataEnd b < 5)%nat /\
  (fBufferEmpty b = true -> nDataStart b = nDataEnd b).

(** The five positions. *)
Ltac positions n := destruct n as [|[|[|[|[|n]]]]]; [..|exfalso; lia].

Ltac five_stamps l :=
  let a := fresh "a" in let b := fresh "b" in let c := fresh "c" in let d := fresh "d" in let e := fresh "e" in
  destruct l as [|a [|b [|c [|d [|e [|? ?]]]]]]; try discriminate.

Lemma AddTimestamp_contents b t : buffer_wf b ->
  buffer_wf (AddTimestamp b t) /\
  contents (AddTimestamp b t) = (if decide (length (contents b) = RATE_BUFFER_SIZE) then tail (contents b) else contents b) ++ [t].
Proof.
  destruct b as [l s e empty]. intros (Hl & Hs & He & Hx). cbn in Hl, Hs, He, Hx. five_stamps l.
  destruct empty; [specialize (Hx eq_refl); subst e|clear Hx; positions e]; positions s;
    (split; [repeat split; cbn; try lia; discriminate|reflexivity]).
Qed.

Lemma scan_contents b keep acc : buffer_wf b -> fBufferEmpty b = false ->
  scan_buffer RATE_BUFFER_SIZE keep b (nDataStart b) acc = fold_left (fun acc t => if keep t acc then t else acc) (contents b) acc.
Proof.
  destruct b as [l s e empty]. intros (Hl & Hs & He & Hx) Hn. cbn in Hl, Hs, He, Hn. subst empty. five_stamps l.
  positions e; positions s; reflexivity.
Qed.

Lemma count_contents b : buffer_wf b -> GetCount b = Z.of_nat (length (contents b)) /\ (fBufferEmpty b = true -> contents b = []).
Proof.
  intros (Hl & Hs & He & Hx). unfold contents. rewrite length_fmap, length_seq. split.
  - rewrite Z2Nat.id; [done|]. unfold GetCount, RATE_BUFFER_SIZE. destruct (fBufferEmpty b); [lia|]. destruct (Nat.ltb_spec (nDataStart b) (nDataEnd b)); lia.
  - intros E. unfold GetCount. by rewrite E.
Qed.

Lemma buffer_run l : forall b, buffer_wf b ->
  buffer_wf (fold_left AddTimestamp l b) /\
  contents (fold_left AddTimestamp l b) = drop (length (contents b ++ l) - 5) (contents b ++ l) \/ (5 < length (contents b))%nat.
Proof.
  induction l as [|t l IH]; intros b Hb; cbn [fold_left].
  - destruct (decide (5 < length (contents b))%nat); [by right|]. left. split; [done|]. rewrite app_nil_r.
    replace (length (contents b) - 5)%nat with 0%nat by lia. done.
  - destruct (AddTimestamp_contents b t Hb) as [Hw Hc]. destruct (IH _ Hw) as [[H1 H2]|H]; [left; split; [done|]|right].
    + rewrite H2, Hc. unfold RATE_BUFFER_SIZE. destruct (decide (length (contents b) = 5%nat)) as [E|E].
      * destruct (contents b) as [|x c]; [done|]. cbn [tail]. rewrite <- app_assoc. cbn in E |- *. rewrite !length_app. cbn [length].
        replace (length c + S (length l) - 5)%nat with (length l) by lia. replace (length c + S (length l) - 4)%nat with (S (length l)) by lia. done.
      * rewrite <- app_assoc. done.
    + rewrite Hc, length_app in H. cbn in H. destruct (decide _) as [E|E]; [|unfold RATE_BUFFER_SIZE in E; lia].
      destruct (contents b); cbn in *; unfold RATE_BUFFER_SIZE in E; lia.
Qed.

(** The ring buffer of a masternode's triggers is the list of its latest five
    timestamps. Whatever timestamps are added to an empty buffer, its count is
    the number of the latest ones, up to five, and its minimum and maximum are
    those of the latest five, starting from the largest number and from zero. *)
Theorem rate_buffer_latest l :
  let b := fold_left AddTimestamp l empty_buffer in
  let latest := drop (length l - 5) l in
  GetCount b = Z.of_nat (length latest) /\
  GetMinTimestamp b = fold_left (fun acc t => if t <? acc then t else acc) latest (2 ^ 63 - 1) /\
  GetMaxTimestamp b = fold_left (fun acc t => if t >? acc then t else acc) latest 0.
Proof.
  intros b latest. destruct (buffer_run l empty_buffer) as [[Hw Hc]|H]; [repeat split; cbn; lia| |change (contents empty_buffer) with (@nil Z) in H; cbn in H; lia].
  change (contents empty_buffer) with (@nil Z) in Hc. cbn [app] in Hc. fold b in Hw, Hc. fold latest in Hc.
  destruct (count_contents b Hw) as [H1 H2]. rewrite <- Hc. split; [done|]. unfold GetMinTimestamp, GetMaxTimestamp.
  destruct (fBufferEmpty b) eqn:Ee; [by rewrite H2|]. split; by apply scan_contents.
Qed.

(** ** Held-back votes *)

#[export] Instance pair_strict_weak : StrictWeak pair_lt.
Proof. split; unfold pair_lt; intros; rewrite ?vote_lt_never in *; done. Qed.

Lemma pair_equiv a b : ItMap.equiv pair_lt a b = true.
Proof. unfold ItMap.equiv, pair_lt. by rewrite !vote_lt_never. Qed.

Section Orphans.
Context {K : Type} `{Countable K}.

Definition orphans_ok (c : CacheMultiMap.CacheMultiMap (K := K) (V := CGovernanceVote * Z)) : Prop :=
  CacheMultiMap.multi_wf pair_lt c /\ NoDup (CacheMultiMap.items c).*1.

Lemma has_value_key (c : CacheMultiMap.CacheMultiMap (K := K) (V := CGovernanceVote * Z)) k v : CacheMultiMap.has_value pair_lt c k v <-> k ∈ (CacheMultiMap.items c).*1.
Proof.
  unfold CacheMultiMap.has_value. rewrite list_elem_of_fmap. split.
  - intros (w & Hin & _). by exists (k, w).
  - intros ([k' w] & -> & Hin). exists w. split; [done|apply pair_equiv].
Qed.

(** An orphan vote is kept when its key has none yet, and dropped otherwise. *)
Lemma orphan_insert (c : CacheMultiMap.CacheMultiMap (K := K) (V := CGovernanceVote * Z)) k v : orphans_ok c ->
  exists c', CacheMultiMap.Insert pair_lt c k v = Some (c', bool_decide (k ∉ (CacheMultiMap.items c).*1)) /\ orphans_ok c' /\
    CacheMultiMap.items c' = if decide (k ∈ (CacheMultiMap.items c).*1) then CacheMultiMap.items c
      else (k, v) :: (if CacheMultiMap.GetSize c =? CacheMultiMap.nMaxSize c then removelast (CacheMultiMap.items c) else CacheMultiMap.items c).
Proof.
  intros [Hw Hd]. destruct (CacheMultiMap.Insert_cases pair_lt c k v Hw) as [H1 H2]. rewrite has_value_key in H1, H2.
  destruct (decide (k ∈ (CacheMultiMap.items c).*1)) as [Hk|Hk].
  - destruct (H1 Hk) as (c' & E & Hw' & Hi). exists c'. rewrite bool_decide_eq_false_2 by tauto. split; [done|]. split; [|done]. split; [done|]. by rewrite Hi.
  - destruct (H2 Hk) as [_ H3]. destruct H3 as (c' & E & Hw' & Hi).
    { intros [_ (a & w & Hl & _)]. apply Hk. apply list_elem_of_fmap. exists (k, w). split; [done|]. apply (CacheMultiMap.items_in pair_lt). exists a.
      apply last_Some_elem_of in Hl. done. }
    exists c'. rewrite bool_decide_eq_true_2 by done. split; [done|]. split; [|done]. split; [done|]. rewrite Hi. cbn. apply list.NoDup_cons.
    assert (Hsub : sublist (if CacheMultiMap.GetSize c =? CacheMultiMap.nMaxSize c then removelast (CacheMultiMap.items c) else CacheMultiMap.items c)
      (CacheMultiMap.items c)).
    { destruct (_ =? _); [|done]. destruct (CacheMultiMap.items c) as [|x l _] using rev_ind; [done|]. rewrite removelast_last. by apply sublist_inserts_r. }
    split; [|eapply sublist_NoDup; [exact Hd|by apply fmap_sublist]]. intros Hin. apply Hk. revert Hin. apply sublist_subseteq. by apply fmap_sublist.
Qed.

Lemma orphan_erase (c : CacheMultiMap.CacheMultiMap (K := K) (V := CGovernanceVote * Z)) k v : orphans_ok c ->
  exists c', CacheMultiMap.EraseValue pair_lt c k v = Some c' /\ orphans_ok c' /\ sublist (CacheMultiMap.items c') (CacheMultiMap.items c) /\
    k ∉ (CacheMultiMap.items c').*1.
Proof.
  intros [Hw Hd]. destruct (CacheMultiMap.EraseValue_spec pair_lt c k v Hw) as (c' & E & Hw' & Hs & Hi). exists c'. split; [done|].
  split; [split; [done|eapply sublist_NoDup; [exact Hd|by apply fmap_sublist]]|]. split; [done|].
  intros ([k' w] & -> & Hin)%list_elem_of_fmap. apply Hi in Hin as [_ Hno]. apply Hno. split; [done|apply pair_equiv].
Qed.

End Orphans.

Section ManagerLemmas.
Context {CR : Crypto} {BP : Base58Prefix} {PK : PubKeyRecovery}.

(** A run of vote messages that are processed. *)
Definition run_votes (l : list (mgr_env * CGovernanceVote)) (m : gov_manager) : option gov_manager :=
  fold_left (fun m e => m ← m; '(m, _, _, _) ← manager_ProcessVote e.1 m e.2; Some m) l (Some m).

Lemma new_orphans_ok {K} `{Countable K} max : orphans_ok (K := K) (CacheMultiMap.new max).
Proof. split; [apply CacheMultiMap.multi_new_wf; exact _|constructor]. Qed.

(** A vote for an unknown object that is not in the caches. *)
Lemma unknown_object_vote env m vote : mapObjects (objects m) = ∅ -> CacheMap.mapIndex (cmapVoteToObject m) = ∅ ->
  CacheMap.mapIndex (cmapInvalidVotes m) = ∅ -> orphans_ok (orphanVotes m) ->
  exists c' es, manager_ProcessVote env m vote = Some (set_caches m (cmapVoteToObject m) (cmapInvalidVotes m) c', false, 0, es) /\
    orphans_ok c' /\ (nParentHash vote ∈ (CacheMultiMap.items (orphanVotes m)).*1 -> CacheMultiMap.items c' = CacheMultiMap.items (orphanVotes m)) /\
    (CacheMultiMap.items (orphanVotes m) = [] ->
       CacheMultiMap.items c' = [(nParentHash vote, (vote, i64 (now env + GOVERNANCE_ORPHAN_EXPIRATION_TIME)))]).
Proof.
  intros Ho H1 H2 Hok. unfold manager_ProcessVote, CacheMap.HasKey. rewrite H1, H2, Ho, !lookup_empty.
  destruct (orphan_insert (orphanVotes m) (nParentHash vote) (vote, i64 (now env + GOVERNANCE_ORPHAN_EXPIRATION_TIME)) Hok) as (c' & -> & Hok' & Hi).
  cbn [mbind option_bind]. rewrite !bool_decide_eq_false_2 by tauto. eexists c', _. split; [done|]. split; [done|]. split.
  - intros Hk. by rewrite Hi, decide_True.
  - intros Hn. rewrite Hi, Hn, decide_False by (by intros ?%elem_of_nil). by destruct (_ =? _).
Qed.

(** Only the first vote for an object that is not known yet is kept. However
    many votes for it arrive, from whatever masternodes, the cache of votes that
    wait for their object holds the first one alone: the order of votes relates
    no two votes, so the cache takes every later one for a copy. *)
Theorem orphan_votes_first_only env v votes h :
  Forall (fun e => nParentHash e.2 = h) ((env, v) :: votes) ->
  exists m, run_votes ((env, v) :: votes) new_manager = Some m /\
    CacheMultiMap.items (orphanVotes m) = [(h, (v, i64 (now env + GOVERNANCE_ORPHAN_EXPIRATION_TIME)))].
Proof.
  intros [Hh Hall]%Forall_cons_iff. cbn in Hh. unfold run_votes. cbn [fold_left mbind option_bind fst snd].
  destruct (unknown_object_vote env new_manager v) as (c1 & es & -> & Hok & _ & Hi); [done|done|done|apply new_orphans_ok|].
  cbn [mbind option_bind]. specialize (Hi eq_refl). rewrite Hh in Hi.
  set (m := set_caches _ _ _ c1). assert (Hm : mapObjects (objects m) = ∅ /\ CacheMap.mapIndex (cmapVoteToObject m) = ∅ /\
    CacheMap.mapIndex (cmapInvalidVotes m) = ∅ /\ orphans_ok (orphanVotes m) /\
    CacheMultiMap.items (orphanVotes m) = [(h, (v, i64 (now env + GOVERNANCE_ORPHAN_EXPIRATION_TIME)))]) by done.
  clearbody m. clear Hi Hok Hh. revert m Hm. induction votes as [|[env' v'] votes IH]; intros m (H1 & H2 & H3 & H4 & H5); [by exists m|].
  apply Forall_cons_iff in Hall as [Hh' Hall]. cbn in Hh'. cbn [fold_left mbind option_bind fst snd].
  destruct (unknown_object_vote env' m v' H1 H2 H3 H4) as (c2 & es2 & -> & Hok2 & Hi2 & _). cbn [mbind option_bind].
  apply (IH Hall). split; [done|]. split; [done|]. split; [done|]. split; [done|]. cbn. rewrite Hi2; [done|]. rewrite H5, Hh'. by left.
Qed.

(** What processing a vote leaves alone. *)
Definition frame (m : gov_manager) := (objects m, mapMasternodeOrphanObjects m, mapMasternodeOrphanCounter m, orphanVotes m).

Lemma object_ProcessVote_frame env m obj v m' obj' r : object_ProcessVote env m obj v = Some (m', obj', r) -> frame m' = frame m.
Proof.
  unfold object_ProcessVote. destruct (ProcessVote env obj v) as [o s]. destruct (decide _); [done|]. intros [= <- <- <-].
  by destruct (decide _).
Qed.

(** The votes that waited for an object: what they leave alone, and which go. *)
Lemma check_votes_spec env h pairs : forall m obj es m' obj' es', orphans_ok (orphanVotes m) ->
  check_votes env h pairs m obj es = Some (m', obj', es') ->
  objects m' = objects m /\ mapMasternodeOrphanObjects m' = mapMasternodeOrphanObjects m /\
  mapMasternodeOrphanCounter m' = mapMasternodeOrphanCounter m /\ orphans_ok (orphanVotes m') /\
  sublist (CacheMultiMap.items (orphanVotes m')) (CacheMultiMap.items (orphanVotes m)) /\
  forall x, RelayVote x ∈ es' -> RelayVote x ∈ es \/ h ∉ (CacheMultiMap.items (orphanVotes m')).*1.
Proof.
  induction pairs as [|[v t] pairs IH]; intros m obj es m' obj' es' Hok; cbn [check_votes].
  { intros [= <- <- <-]. split; [done|]. split; [done|]. split; [done|]. split; [done|]. split; [done|]. auto. }
  set (step := if t <? now env then _ else _). destruct step as [[[[m1 obj1] rm] es1]|] eqn:Es; [|done]. cbn [mbind option_bind].
  assert (Hstep : frame m1 = frame m /\ (rm = false -> es1 = es)).
  { subst step. destruct (t <? now env); [by injection Es as <- <- <- <-|].
    destruct (object_ProcessVote _ _ _ _) as [[[m2 obj2] r]|] eqn:Ep; [|done]. cbn [mbind option_bind] in Es. injection Es as <- <- <- <-.
    split; [by eapply object_ProcessVote_frame|]. intros Er. apply bool_decide_eq_false in Er. by rewrite decide_False. }
  destruct Hstep as [Hf Hes]. injection Hf as F1 F2 F3 F4. destruct rm.
  - destruct (orphan_erase (orphanVotes m1) h (v, t)) as (c' & -> & Hok' & Hsub & Hnot); [by rewrite F4|]. cbn [mbind option_bind].
    intros Hrun. apply IH in Hrun as (G1 & G2 & G3 & G4 & G5 & G6); [|exact Hok']. cbn in G1, G2, G3, G5. rewrite F4 in Hsub.
    split; [congruence|]. split; [congruence|]. split; [congruence|]. split; [done|]. split; [by etransitivity|].
    intros x Hx. right. intros Hin. apply Hnot. revert Hin. apply sublist_subseteq. by apply fmap_sublist.
  - intros Hrun. apply IH in Hrun as (G1 & G2 & G3 & G4 & G5 & G6); [|by rewrite F4].
    rewrite Hes in G6 by done. split; [congruence|]. split; [congruence|]. split; [congruence|]. split; [done|]. split; [by rewrite <- F4|done].
Qed.

Lemma AddNewTrigger_objects st h gs ok : AddNewTrigger st h = Val (gs, ok) -> mapObjects gs = mapObjects st.
Proof.
  unfold AddNewTrigger. destruct (decide _); [by intros [= <- <-]|]. destruct (new_superblock st h) as [[what|sb]| | |]; try done;
    cbn [mbind res_bind]; by intros [= <- <-].
Qed.

(** An object that is not added changes nothing; one that is added has the votes
    it came with. *)
Lemma AddGovernanceObject_spec env m nHash govobj m' es : orphans_ok (orphanVotes m) ->
  AddGovernanceObject env m nHash govobj = Val (m', es) ->
  (mapMasternodeOrphanObjects m' = mapMasternodeOrphanObjects m /\ mapMasternodeOrphanCounter m' = mapMasternodeOrphanCounter m /\
   orphans_ok (orphanVotes m')) /\
  (mapObjects (objects m) !! nHash = None -> is_valid (IsValidLocally env (UpdateSentinelVariables (votes_env env) govobj)) = true ->
     exists stored, mapObjects (objects m') !! nHash = Some stored /\ mapCurrentMNVotes stored = mapCurrentMNVotes govobj /\
       fileVotes stored = fileVotes govobj /\ forall x, RelayVote x ∈ es -> nHash ∉ (CacheMultiMap.items (orphanVotes m')).*1).
Proof.
  intros Hok. unfold AddGovernanceObject. set (obj := UpdateSentinelVariables (votes_env env) govobj).
  assert (Hvotes : mapCurrentMNVotes obj = mapCurrentMNVotes govobj /\ fileVotes obj = fileVotes govobj).
  { subst obj. unfold UpdateSentinelVariables. by destruct (_ =? 0). }
  destruct (is_valid _); [|by intros [= <- <-]]. cbn [negb].
  destruct (decide (mapObjects (objects m) !! nHash <> None)) as [Hs|_]; [intros [= <- <-]; tauto|].
  set (m1 := set_objects m _). set (trigger := if nObjectType obj =? _ then _ else _).
  destruct trigger as [[m2 ok]| | |] eqn:Et; try done. cbn [mbind res_bind].
  assert (H2 : mapObjects (objects m2) !! nHash = Some obj /\ mapMasternodeOrphanObjects m2 = mapMasternodeOrphanObjects m /\
    mapMasternodeOrphanCounter m2 = mapMasternodeOrphanCounter m /\ orphanVotes m2 = orphanVotes m).
  { subst trigger. destruct (nObjectType obj =? _); [|injection Et as <- <-; cbn; by rewrite lookup_insert_eq].
    destruct (AddNewTrigger (objects m1) nHash) as [[gs b]| | |] eqn:Ea; try done. cbn [mbind res_bind] in Et. injection Et as <- <-.
    apply AddNewTrigger_objects in Ea. cbn. rewrite Ea. cbn. by rewrite lookup_insert_eq. }
  destruct H2 as (Ho & H3 & H4 & H5). destruct ok; cbn [negb].
  2: { intros [= <- <-]. cbn. rewrite H5. split; [done|]. intros _ _. rewrite lookup_alter_eq, Ho. cbn. eexists. split; [done|].
       split; [apply Hvotes|]. split; [apply Hvotes|]. intros x Hx. by apply elem_of_nil in Hx. }
  set (m3 := MasternodeRateUpdate env m2 nHash obj).
  assert (H6 : frame m3 = frame m2) by (subst m3; unfold MasternodeRateUpdate; by destruct (_ =? _)).
  injection H6 as F1 F2 F3 F4. unfold CheckOrphanVotes.
  destruct (CacheMultiMap.GetAll (orphanVotes m3) nHash) as [pairs|]; [|done]. cbn [mbind option_bind].
  destruct (check_votes env nHash pairs m3 obj []) as [[[m4 obj4] es4]|] eqn:Ec; [|done]. cbn [defined mbind res_bind]. intros [= <- <-].
  apply check_votes_spec in Ec as (G1 & G2 & G3 & G4 & G5 & G6); [|by rewrite F4, H5]. split; [split; [congruence|split; [congruence|done]]|].
  intros _ _. exists obj. rewrite G1, F1. split; [done|]. split; [apply Hvotes|]. split; [apply Hvotes|]. intros x Hx.
  rewrite !elem_of_app in Hx. destruct Hx as [Hx|[Hx|Hx]].
  - destruct (IsSynced env); [by apply list_elem_of_singleton in Hx|by apply elem_of_nil in Hx].
  - apply G6 in Hx as [Hx|Hx]; [by apply elem_of_nil in Hx|done].
  - by apply list_elem_of_singleton in Hx.
Qed.

(** The votes that waited for an object are lost when it comes. A new valid
    object is stored with the votes it came with and no others; every waiting
    vote that is accepted is counted on the caller's copy of the object, relayed,
    and gone from the cache. *)
Theorem orphan_votes_discarded env m nHash govobj m' es :
  orphans_ok (orphanVotes m) -> mapObjects (objects m) !! nHash = None ->
  is_valid (IsValidLocally env (UpdateSentinelVariables (votes_env env) govobj)) = true ->
  AddGovernanceObject env m nHash govobj = Val (m', es) ->
  exists stored, mapObjects (objects m') !! nHash = Some stored /\ mapCurrentMNVotes stored = mapCurrentMNVotes govobj /\
    fileVotes stored = fileVotes govobj /\
    forall x, RelayVote x ∈ es -> nHash ∉ (CacheMultiMap.items (orphanVotes m')).*1.
Proof. intros Hok Hn Hv Ha. destruct (AddGovernanceObject_spec env m nHash govobj m' es Hok Ha) as [_ H]. by apply H. Qed.

(** ** Objects without their masternode *)

(** The objects of a masternode among some entries. *)
Definition owned (o : COutPoint) (l : list (list Z * (CGovernanceObject * ExpirationInfo))) : Z :=
  Z.of_nat (length (filter (fun e => object_outpoint e.2.1 = o) l)).

(** The counters, and expiry times below [T]. *)
Definition waiting_ok (T : Z) (l : list (list Z * (CGovernanceObject * ExpirationInfo))) (counter : gmap COutPoint Z) : Prop :=
  (forall o, default 0 (counter !! o) = owned o l) /\ Forall (fun e => nExpirationTime e.2.2 < T) l.

Lemma owned_cons o e l : owned o (e :: l) = (if decide (object_outpoint e.2.1 = o) then 1 else 0) + owned o l.
Proof. unfold owned. rewrite filter_cons. destruct (decide _); cbn [length]; lia. Qed.

Lemma owned_perm o l l' : l ≡ₚ l' -> owned o l = owned o l'.
Proof. unfold owned. by intros ->. Qed.

(** When every time is over, every object goes and none is added. *)
Lemma check_orphan_objects_expired env T l : T <= now env -> forall m es,
  waiting_ok T l (mapMasternodeOrphanCounter m) -> mapMasternodeOrphanObjects m = list_to_map l -> NoDup l.*1 ->
  exists m' es', check_orphan_objects env l m es = Val (m', es') /\ objects m' = objects m /\ mapMasternodeOrphanObjects m' = ∅.
Proof.
  intros HT. induction l as [|[h [obj info]] l IH]; intros m es [Hc Hf] Hm Hd; cbn [check_orphan_objects]; [by exists m, es|].
  apply Forall_cons_iff in Hf as [Hi Hf]. cbn in Hi, Hd. apply list.NoDup_cons in Hd as [Hh Hd].
  unfold check_orphan_object. rewrite (proj2 (Z.leb_gt _ _)) by lia. cbn [andb mbind res_bind].
  assert (Hcnt : mapMasternodeOrphanCounter m !! object_outpoint obj = Some (1 + owned (object_outpoint obj) l)).
  { specialize (Hc (object_outpoint obj)). rewrite owned_cons in Hc. cbn in Hc. rewrite decide_True in Hc by done.
    destruct (_ !! object_outpoint obj); cbn in Hc; [by rewrite Hc|]. unfold owned in Hc. lia. }
  rewrite Hcnt. cbn [defined mbind res_bind].
  set (m1 := set_orphan_objects m _ _). destruct (IH m1 (es ++ [Misbehaving (idFrom info) 20])) as (m' & es' & E & H1 & H2).
  - split; [|done]. intros o. specialize (Hc o). rewrite owned_cons in Hc. cbn [fst snd] in Hc. cbn.
    replace (1 + owned (object_outpoint obj) l - 1) with (owned (object_outpoint obj) l) by lia.
    destruct (decide (object_outpoint obj = o)) as [<-|Hne].
    + destruct (owned (object_outpoint obj) l =? 0) eqn:E0; [rewrite lookup_delete_eq; cbn; lia|by rewrite lookup_insert_eq].
    + destruct (owned (object_outpoint obj) l =? 0); [by rewrite lookup_delete_ne|by rewrite lookup_insert_ne].
  - cbn. rewrite Hm. cbn. apply delete_insert_id. by apply not_elem_of_list_to_map.
  - done.
  - exists m', es'. split; [exact E|]. split; [by rewrite H1|done].
Qed.

Definition waiting (T : Z) (m : gov_manager) : Prop :=
  waiting_ok T (map_to_list (mapMasternodeOrphanObjects m)) (mapMasternodeOrphanCounter m) /\ orphans_ok (orphanVotes m).

Lemma waiting_same T m m' : mapMasternodeOrphanObjects m' = mapMasternodeOrphanObjects m ->
  mapMasternodeOrphanCounter m' = mapMasternodeOrphanCounter m -> orphans_ok (orphanVotes m') -> waiting T m -> waiting T m'.
Proof. intros E1 E2 Hok [H _]. unfold waiting. by rewrite E1, E2. Qed.

Lemma MasternodeRateCheck_frame env m obj b1 b2 : frame (MasternodeRateCheck env m obj b1 b2).1.1 = frame m.
Proof. unfold MasternodeRateCheck. repeat case_match; done. Qed.

(** A new waiting object gets the number of its peer as the time of its expiry. *)
Lemma waiting_add T env m nHash govobj count : peer_id env < T -> waiting T m -> mapMasternodeOrphanObjects m !! nHash = None ->
  count = default 0 (mapMasternodeOrphanCounter m !! object_outpoint govobj) ->
  waiting T (set_orphan_objects m
    (<[nHash := (govobj, mkExpiration (peer_id env) (i32 (now env + GOVERNANCE_ORPHAN_EXPIRATION_TIME)))]> (mapMasternodeOrphanObjects m))
    (<[object_outpoint govobj := count + 1]> (mapMasternodeOrphanCounter m))).
Proof.
  intros HT [[Hc Hf] Hok] Hn ->. split; [|done]. cbn. split.
  - intros o. rewrite (owned_perm o _ _ (map_to_list_insert _ _ _ Hn)), owned_cons. cbn [fst snd]. rewrite <- Hc.
    destruct (decide (object_outpoint govobj = o)) as [<-|Hne]; [rewrite lookup_insert_eq; cbn; lia|by rewrite lookup_insert_ne].
  - rewrite map_to_list_insert by done. by constructor.
Qed.

Lemma waiting_message T env m nHash govobj m' es : peer_id env < T -> waiting T m ->
  ObjectMessage env m nHash govobj = Val (m', es) -> waiting T m'.
Proof.
  intros HT Hw. unfold ObjectMessage. destruct (_ || _); [by intros [= <- <-]|]. destruct (_ <? _); [by intros [= <- <-]|].
  destruct (IsMasternodeListSynced env); [|by intros [= <- <-]]. cbn [negb].
  destruct (AcceptMessage nHash (setRequestedObjects m)) as [req []]; [|by intros [= <- <-]]. cbn [negb].
  set (m1 := set_requested m _ _). assert (H1 : waiting T m1) by done. clearbody m1. clear Hw.
  destruct (decide _) as [|Hnew]; [by intros [= <- <-]|].
  pose proof (MasternodeRateCheck_frame env m1 govobj true false) as F. destruct (MasternodeRateCheck env m1 govobj true false) as [[m2 []] byp];
    cbn in F; injection F as F1 F2 F3 F4; [|by intros [= <- <-]; apply (waiting_same T m1); [..|rewrite F4; apply H1|]]. cbn [negb].
  assert (H2 : waiting T m2) by (apply (waiting_same T m1); [done|done|rewrite F4; apply H1|done]).
  set (again := if byp && _ then _ else _). destruct again as [m3 ok] eqn:Ea.
  assert (H3 : frame m3 = frame m2).
  { subst again. pose proof (MasternodeRateCheck_frame env m2 govobj true true) as F. destruct (byp && _); [|by injection Ea as <- <-].
    destruct (MasternodeRateCheck env m2 govobj true true) as [[m4 b] b']. by injection Ea as <- <-. }
  injection H3 as G1 G2 G3 G4. assert (Hw3 : waiting T m3) by (apply (waiting_same T m2); [done|done|rewrite G4; apply H2|done]).
  destruct ok; cbn [negb]; [|by intros [= <- <-]].
  destruct (is_valid (IsValidLocally env govobj)).
  { intros Ha. destruct (AddGovernanceObject_spec _ _ _ _ _ _ (proj2 Hw3) Ha) as [(E1 & E2 & E3) _]. by apply (waiting_same T m3). }
  destruct (missing_masternode _); [|destruct (missing_confirmations _); by intros [= <- <-]].
  destruct (10 <=? _) eqn:Ec; intros [= <- <-].
  - destruct Hw3 as [[Hc Hf] Hok]. split; [|done]. split; [|done]. intros o. cbn. rewrite <- Hc.
    destruct (decide (object_outpoint govobj = o)) as [<-|Hne]; [by rewrite lookup_insert_eq|by rewrite lookup_insert_ne].
  - apply waiting_add; [done|done| |done]. rewrite G2, F2. destruct (mapMasternodeOrphanObjects m1 !! nHash) eqn:E; [|done].
    destruct Hnew. right. right. by right.
Qed.

(** A run of announcements and object messages. *)
Inductive object_event : Type := Announced (type : inv_type) (h : list Z) | Received (h : list Z) (govobj : CGovernanceObject).

Fixpoint run_objects (l : list (mgr_env * object_event)) (m : gov_manager) : res gov_manager :=
  match l with
  | [] => Val m
  | (env, Announced type h) :: l => run_objects l (ConfirmInventoryRequest env m type h).1
  | (env, Received h govobj) :: l => '(m, _) ← ObjectMessage env m h govobj; run_objects l m
  end.

Lemma ConfirmInventoryRequest_frame env m type h : frame (ConfirmInventoryRequest env m type h).1 = frame m.
Proof. unfold ConfirmInventoryRequest. repeat case_match; done. Qed.

(** An object that waits for its masternode never gets in. The time of its
    expiry is set to the number of the peer that sent it, so after any announcements and object
    messages from peers with numbers below the clock, the next check throws every
    waiting object away, adds none, and leaves the objects as they were, even
    when the masternodes have arrived in the meantime. *)
Theorem orphan_objects_never_added msgs m env :
  run_objects msgs new_manager = Val m -> Forall (fun e => peer_id e.1 < now env) msgs ->
  exists m' es, CheckMasternodeOrphanObjects env m = Val (m', es) /\ objects m' = objects m /\ mapMasternodeOrphanObjects m' = ∅.
Proof.
  intros Hrun Hall. assert (Hw : waiting (now env) m).
  { assert (H0 : waiting (now env) new_manager) by (split; [split; [intros o; cbn; by rewrite lookup_empty|constructor]|apply new_orphans_ok]).
    revert H0 Hrun. generalize new_manager. induction msgs as [|[e [type h|h obj]] msgs IH]; intros m0 H0 Hrun; cbn [run_objects] in Hrun;
      [by injection Hrun as <-|apply Forall_cons_iff in Hall as [Hp Hall]..].
    { apply (IH Hall _) in Hrun; [done|]. pose proof (ConfirmInventoryRequest_frame e m0 type h) as F. injection F as F1 F2 F3 F4.
      apply (waiting_same _ m0); [done|done|rewrite F4; apply H0|done]. }
    destruct (ObjectMessage e m0 h obj) as [[m1 es]| | |] eqn:E; try done. cbn [mbind res_bind] in Hrun.
    apply (IH Hall m1); [|done]. by apply (waiting_message _ _ _ _ _ _ _ Hp H0 E). }
  unfold CheckMasternodeOrphanObjects. destruct Hw as [[Hc Hf] _].
  pose proof (Spork.in_order_perm (mapMasternodeOrphanObjects m)) as Hp.
  destruct (check_orphan_objects_expired env (now env) (Spork.in_order (mapMasternodeOrphanObjects m)) ltac:(lia) (set_rate_checks m false) [])
    as (m' & es & -> & H1 & H2).
  - split; [intros o; cbn; by rewrite Hc, (owned_perm o _ _ Hp)|]. by rewrite Hp.
  - cbn. rewrite <- (list_to_map_to_list (mapMasternodeOrphanObjects m)) at 1. symmetry. apply list_to_map_proper; [apply Spork.in_order_keys|done].
  - apply Spork.in_order_keys.
  - cbn [mbind res_bind]. eexists _, es. split; [done|]. done.
Qed.

End ManagerLemmas.

(** ** Concrete runs *)

(** A toy world: two masternodes, whose signatures are their keys; [known] says
    whether the node knows them. *)
Definition toy_manager_env (known : bool) (time : Z) : mgr_env :=
  let e := toy_gov_env true in
  mkMgrEnv (mkGov (GetMasternodeInfo e) 3 true time false 1) false true true true true 7 70900 time 1000 (fun _ => true)
    (fun _ => mkLocal known (negb known) false) (fun _ => (true, false)) (fun _ => true) [].
Definition toy_parent : list Z := replicate 32 5.
Definition toy_proposal : CGovernanceObject :=
  mkObject 1 1499999000 (toy_outpoint 1) None 0 false true false false true false ∅ empty_file (CacheMultiMap.new 0).
Definition toy_waiting : list (mgr_env * CGovernanceVote) :=
  (fun v => (toy_manager_env true 1500000000, v)) <$>
    [toy_gov_vote 1 VOTE_SIGNAL_FUNDING VOTE_OUTCOME_YES 1499999000; toy_gov_vote 2 VOTE_SIGNAL_FUNDING VOTE_OUTCOME_YES 1499999000].

Lemma orphan_votes_first_only_witness :
  exists m, @run_votes toy_crypto toy_recovery toy_waiting new_manager = Some m /\ length (CacheMultiMap.items (orphanVotes m)) = 1%nat.
Proof.
  destruct (@orphan_votes_first_only toy_crypto toy_recovery (toy_manager_env true 1500000000)
    (toy_gov_vote 1 VOTE_SIGNAL_FUNDING VOTE_OUTCOME_YES 1499999000)
    [(toy_manager_env true 1500000000, toy_gov_vote 2 VOTE_SIGNAL_FUNDING VOTE_OUTCOME_YES 1499999000)] toy_parent) as (m & Hm & Hi).
  - constructor; [reflexivity|]. constructor; [reflexivity|constructor].
  - exists m. split; [exact Hm|]. rewrite Hi. reflexivity.
Defined.

(** The waiting vote is accepted and relayed; the stored object has no vote. *)
Definition toy_held : gov_manager := default new_manager (@run_votes toy_crypto toy_recovery toy_waiting new_manager).

Lemma toy_held_ok : orphans_ok (orphanVotes toy_held).
Proof.
  unfold toy_held. destruct (@run_votes toy_crypto toy_recovery toy_waiting new_manager) as [m|] eqn:E; [|apply new_orphans_ok].
  unfold run_votes, toy_waiting in E. cbn [fmap list_fmap fold_left mbind option_bind fst snd] in E.
  destruct (@unknown_object_vote toy_crypto toy_recovery (toy_manager_env true 1500000000) new_manager
    (toy_gov_vote 1 VOTE_SIGNAL_FUNDING VOTE_OUTCOME_YES 1499999000)) as (c1 & es1 & E1 & Hok1 & _); [done|done|done|apply new_orphans_ok|].
  rewrite E1 in E. cbn [mbind option_bind] in E.
  destruct (@unknown_object_vote toy_crypto toy_recovery (toy_manager_env true 1500000000) (set_caches new_manager (cmapVoteToObject new_manager)
    (cmapInvalidVotes new_manager) c1) (toy_gov_vote 2 VOTE_SIGNAL_FUNDING VOTE_OUTCOME_YES 1499999000)) as (c2 & es2 & E2 & Hok2 & _); [done|done|done|done|].
  rewrite E2 in E. cbn [mbind option_bind] in E. by injection E as <-.
Qed.

Lemma orphan_votes_discarded_witness :
  exists m' es stored, @AddGovernanceObject toy_crypto main_prefixes toy_recovery (toy_manager_env true 1500000000) toy_held toy_parent toy_proposal = Val (m', es) /\
    length (List.filter (fun e => match e with RelayVote _ => true | _ => false end) es) = 1%nat /\
    mapObjects (objects m') !! toy_parent = Some stored /\ mapCurrentMNVotes stored = ∅.
Proof.
  destruct (@AddGovernanceObject toy_crypto main_prefixes toy_recovery (toy_manager_env true 1500000000) toy_held toy_parent toy_proposal)
    as [[m' es]| | |] eqn:E.
  - destruct (@orphan_votes_discarded toy_crypto main_prefixes toy_recovery (toy_manager_env true 1500000000) toy_held toy_parent toy_proposal m' es
      toy_held_ok) as (stored & H1 & H2 & _); [vm_compute; reflexivity|reflexivity|exact E|].
    exists m', es, stored. split; [reflexivity|]. split; [|exact (conj H1 H2)].
    assert (H : (match @AddGovernanceObject toy_crypto main_prefixes toy_recovery (toy_manager_env true 1500000000) toy_held toy_parent toy_proposal with
                | Val (_, es) => length (List.filter (fun e => match e with RelayVote _ => true | _ => false end) es) | _ => 0%nat end) = 1%nat)
      by (vm_compute; reflexivity).
    rewrite E in H. exact H.
  - exfalso. revert E. vm_compute. discriminate.
  - exfalso. revert E. vm_compute. discriminate.
  - exfalso. revert E. vm_compute. discriminate.
Defined.

Definition toy_messages : list (mgr_env * object_event) :=
  (fun e => (toy_manager_env false 1500000000, e)) <$> [Announced MSG_GOVERNANCE_OBJECT toy_parent; Received toy_parent toy_proposal].

Lemma orphan_objects_never_added_witness :
  exists m m' es, @run_objects toy_crypto main_prefixes toy_recovery toy_messages new_manager = Val m /\ size (mapMasternodeOrphanObjects m) = 1%nat /\
    @CheckMasternodeOrphanObjects toy_crypto main_prefixes toy_recovery (toy_manager_env true 1500000001) m = Val (m', es) /\ objects m' = objects m.
Proof.
  destruct (@run_objects toy_crypto main_prefixes toy_recovery toy_messages new_manager) as [m| | |] eqn:E.
  - destruct (@orphan_objects_never_added toy_crypto main_prefixes toy_recovery toy_messages m (toy_manager_env true 1500000001) E) as (m' & es & H1 & H2 & _).
    { constructor; [reflexivity|]. constructor; [reflexivity|constructor]. }
    exists m, m', es. split; [reflexivity|]. split; [|exact (conj H1 H2)].
    assert (H : (match @run_objects toy_crypto main_prefixes toy_recovery toy_messages new_manager with
                | Val m => size (mapMasternodeOrphanObjects m) | _ => 0%nat end) = 1%nat) by (vm_compute; reflexivity).
    rewrite E in H. exact H.
  - exfalso. revert E. vm_compute. discriminate.
  - exfalso. revert E. vm_compute. discriminate.
  - exfalso. revert E. vm_compute. discriminate.
Defined.

End GovernanceManager.
