(* ===== verification/Payments.v ===== *)
(** * Masternode payments (masternode-payments.h/.cpp, masternode-sync.h)

    Masternodes vote for the payee of each block; the node counts the votes and
    checks the coinbase of a block against them and against the superblocks and
    the rewards.  The masternode list, the chain, the sporks and the keys of the
    own masternode are the fields of an environment; messages sent and
    punishments of peers are effects. *)

From stdpp Require Import base list list_numbers gmap sorting numbers option strings.
From Stdlib Require Import ZArith Lia.
From S2P Require Import Prelude Serialize Script Transaction Interpreter InterpreterSafety Standard Encodings Decimal FluidToken FluidDB Spork Governance.

Local Open Scope Z_scope.

Module Payments.
Import Serialize Script Transaction Interpreter InterpreterSafety Encodings Decimal FluidToken.

Definition MNPAYMENTS_SIGNATURES_REQUIRED : Z := 10.
Definition MNPAYMENTS_SIGNATURES_TOTAL : Z := 20.
Definition MIN_MASTERNODE_PAYMENT_PROTO_VERSION_1 : Z := 71150.
Definition MIN_MASTERNODE_PAYMENT_PROTO_VERSION_2 : Z := 71150.

Definition MASTERNODE_SYNC_WAITING : Z := 1.
Definition MASTERNODE_SYNC_LIST : Z := 2.
Definition MASTERNODE_SYNC_MNW : Z := 3.
Definition MASTERNODE_SYNC_FINISHED : Z := 999.

(** ** Data *)

Record CMasternodePaymentVote : Type := mkPayVote {
  voter : COutPoint;
  nBlockHeight : Z;
  payee : CScript;
  vchSig : list Z
}.

#[export] Instance CMasternodePaymentVote_eq_dec : EqDecision CMasternodePaymentVote.
Proof. solve_decision. Defined.

Record CMasternodePayee : Type := mkPayee { GetPayee : CScript; vecVoteHashes : list (list Z) }.

Definition GetVoteCount (p : CMasternodePayee) : Z := zlen (vecVoteHashes p).

Record CMasternodePayments : Type := mkPayments {
  mapMasternodePaymentVotes : gmap (list Z) CMasternodePaymentVote;
  mapMasternodeBlocks : gmap Z (list CMasternodePayee);
  mapMasternodesLastVote : gmap COutPoint Z;
  mapMasternodesDidNotVote : gmap COutPoint Z;
  nCachedBlockHeight : Z
}.

(** What the functions read of the rest of the node. *)
Record pay_env : Type := mkPayEnv {
  syncAsset : Z;
  sporkActive : Z -> bool;
  fLiteMode : bool;
  fMasternodeMode : bool;
  GetMasternodeInfo : COutPoint -> option Governance.masternode_info;
  GetMasternodeRank : COutPoint -> Z -> Z -> option Z;
  GetMasternodeRanks : Z -> Z -> option (list COutPoint);
  GetNextMasternodeInQueueForPayment : Z -> option Governance.masternode_info;
  GetBlockHash : Z -> option (list Z);
  mnodeman_size : Z;
  activeOutpoint : COutPoint;
  keyMasternode : Spork.CKey;
  pubKeyMasternode : list Z;
  peer_nVersion : Z
}.

Inductive pay_effect : Type :=
  | RejectObsolete
  | AskForMN (o : COutPoint)
  | Misbehaving (howmuch : Z)
  | RelayVote (h : list Z).

Definition IsBlockchainSynced (env : pay_env) : bool := MASTERNODE_SYNC_WAITING <? syncAsset env.
Definition IsMasternodeListSynced (env : pay_env) : bool := MASTERNODE_SYNC_LIST <? syncAsset env.
Definition IsWinnersListSynced (env : pay_env) : bool := MASTERNODE_SYNC_MNW <? syncAsset env.
Definition IsSynced (env : pay_env) : bool := syncAsset env =? MASTERNODE_SYNC_FINISHED.

Definition IsVerified (v : CMasternodePaymentVote) : bool := bool_decide (vchSig v <> []).
Definition MarkAsNotVerified (v : CMasternodePaymentVote) : CMasternodePaymentVote :=
  mkPayVote (voter v) (nBlockHeight v) (payee v) [].

Section Votes.
Context {CR : Crypto} {PK : PubKeyRecovery}.

Definition pv_GetHash (v : CMasternodePaymentVote) : list Z :=
  CHash256 (Ser c_bytes (payee v) ++ Ser c_int32 (nBlockHeight v) ++ Ser c_outpoint (voter v)).

Definition pv_GetSignatureHash (v : CMasternodePaymentVote) : list Z :=
  CHash256 (Ser c_outpoint (voter v) ++ Ser c_int32 (nBlockHeight v) ++ Ser c_bytes (payee v)).

Definition pv_message (v : CMasternodePaymentVote) : list Z :=
  Governance.ToStringShort (voter v) ++ show_int (nBlockHeight v) ++ ScriptToAsmStr (payee v).

(** Whether the signature is by this key, and the punishment when it is not. *)
Definition signed_by (env : pay_env) (v : CMasternodePaymentVote) (pubKey : list Z) : bool :=
  if sporkActive env Spork.SPORK_6_NEW_SIGS then
    Spork.VerifyHash (pv_GetSignatureHash v) (CHash160 pubKey) (vchSig v) ||
    Spork.VerifyMessage (CHash160 pubKey) (vchSig v) (pv_message v)
  else Spork.VerifyMessage (CHash160 pubKey) (vchSig v) (pv_message v).

Definition pv_CheckSignature (env : pay_env) (v : CMasternodePaymentVote) (pubKey : list Z) (nValidationHeight : Z) : bool * Z :=
  if signed_by env v pubKey then (true, 0)
  else (false, if IsMasternodeListSynced env && (nValidationHeight <? nBlockHeight v) then 20 else 0).

Definition pv_Sign (env : pay_env) (v : CMasternodePaymentVote) : option CMasternodePaymentVote :=
  let h := if sporkActive env Spork.SPORK_6_NEW_SIGS then pv_GetSignatureHash v else Spork.message_hash (pv_message v) in
  let key := keyMasternode env in
  sig ← Spork.SignCompact key h;
  if Spork.VerifyHash h (CHash160 (pubKeyMasternode env)) sig then Some (mkPayVote (voter v) (nBlockHeight v) (payee v) sig) else None.

Definition GetMinMasternodePaymentsProto (env : pay_env) : Z :=
  if sporkActive env Spork.SPORK_10_MASTERNODE_PAY_UPDATED_NODES then MIN_MASTERNODE_PAYMENT_PROTO_VERSION_2
  else MIN_MASTERNODE_PAYMENT_PROTO_VERSION_1.

Definition pv_IsValid (env : pay_env) (v : CMasternodePaymentVote) (nValidationHeight : Z) : bool * list pay_effect :=
  match GetMasternodeInfo env (voter v) with
  | None => (false, if IsMasternodeListSynced env then [AskForMN (voter v)] else [])
  | Some mnInfo =>
      let nMinRequiredProtocol :=
        if nValidationHeight <=? nBlockHeight v then GetMinMasternodePaymentsProto env else MIN_MASTERNODE_PAYMENT_PROTO_VERSION_1 in
      if Governance.nProtocolVersion mnInfo <? nMinRequiredProtocol then (false, [])
      else if negb (fMasternodeMode env) && (nBlockHeight v <? nValidationHeight) then (true, [])
      else match GetMasternodeRank env (voter v) (i32 (nBlockHeight v - 101)) nMinRequiredProtocol with
           | None => (false, [])
           | Some nRank =>
               if MNPAYMENTS_SIGNATURES_TOTAL <? nRank then
                 (false, if (MNPAYMENTS_SIGNATURES_TOTAL * 2 <? nRank) && (nValidationHeight <? nBlockHeight v) then [Misbehaving 20] else [])
               else (true, [])
           end
  end.

(** ** Payees of a block *)

Fixpoint AddPayee (vecPayees : list CMasternodePayee) (script : CScript) (nVoteHash : list Z) : list CMasternodePayee :=
  match vecPayees with
  | [] => [mkPayee script [nVoteHash]]
  | p :: vecPayees =>
      if bool_decide (GetPayee p = script) then mkPayee (GetPayee p) (vecVoteHashes p ++ [nVoteHash]) :: vecPayees
      else p :: AddPayee vecPayees script nVoteHash
  end.

Fixpoint best_payee (vecPayees : list CMasternodePayee) (nVotes : Z) (payeeRet : option CScript) : option CScript :=
  match vecPayees with
  | [] => payeeRet
  | p :: vecPayees =>
      if nVotes <? GetVoteCount p then best_payee vecPayees (GetVoteCount p) (Some (GetPayee p))
      else best_payee vecPayees nVotes payeeRet
  end.

(** [None] is [false]. *)
Definition GetBestPayee (vecPayees : list CMasternodePayee) : option CScript := best_payee vecPayees (-1) None.

Definition HasPayeeWithVotes (vecPayees : list CMasternodePayee) (payeeIn : CScript) (nVotesReq : Z) : bool :=
  existsb (fun p => (nVotesReq <=? GetVoteCount p) && bool_decide (GetPayee p = payeeIn)) vecPayees.

(** [CMasternodeBlockPayees::IsTransactionValid], given the masternode reward. *)
Definition payees_IsTransactionValid (nMasternodePayment : Z) (vecPayees : list CMasternodePayee) (txNew : CTransaction) : bool :=
  let nMaxSignatures := fold_left (fun m p => if m <=? GetVoteCount p then GetVoteCount p else m) vecPayees 0 in
  if nMaxSignatures <? MNPAYMENTS_SIGNATURES_REQUIRED then true
  else existsb (fun p => (MNPAYMENTS_SIGNATURES_REQUIRED <=? GetVoteCount p) &&
                 existsb (fun txout => bool_decide (GetPayee p = scriptPubKey txout) && (nMasternodePayment =? nValue txout)) (vout txNew)) vecPayees.

(** ** The manager *)

Definition GetBlockPayee (st : CMasternodePayments) (h : Z) : option CScript := mapMasternodeBlocks st !! h ≫= GetBestPayee.

Definition IsScheduled (env : pay_env) (st : CMasternodePayments) (mnInfo : Governance.masternode_info) (nNotBlockHeight : Z) : bool :=
  IsMasternodeListSynced env &&
  let mnpayee := Standard.GetScriptForDestination (Standard.CKeyID (CHash160 (Governance.pubKeyCollateralAddress mnInfo))) in
  existsb (fun i => let h := nCachedBlockHeight st + Z.of_nat i in
             negb (h =? nNotBlockHeight) && bool_decide (GetBlockPayee st (i32 h) = Some mnpayee)) (seq 0 9).

Definition IsTransactionValid (reward : Z -> Z) (st : CMasternodePayments) (txNew : CTransaction) (h : Z) : bool :=
  match mapMasternodeBlocks st !! h with
  | None => true
  | Some vecPayees => payees_IsTransactionValid (reward h) vecPayees txNew
  end.

Definition HasVerifiedPaymentVote (st : CMasternodePayments) (hashIn : list Z) : bool :=
  match mapMasternodePaymentVotes st !! hashIn with Some v => IsVerified v | None => false end.

Definition set_votes (st : CMasternodePayments) votes blocks : CMasternodePayments :=
  mkPayments votes blocks (mapMasternodesLastVote st) (mapMasternodesDidNotVote st) (nCachedBlockHeight st).

Definition AddOrUpdatePaymentVote (env : pay_env) (st : CMasternodePayments) (vote : CMasternodePaymentVote) : CMasternodePayments * bool :=
  match GetBlockHash env (i32 (nBlockHeight vote - 101)) with
  | None => (st, false)
  | Some _ =>
      let nVoteHash := pv_GetHash vote in
      if HasVerifiedPaymentVote st nVoteHash then (st, false)
      else (set_votes st (<[nVoteHash := vote]> (mapMasternodePaymentVotes st))
              (<[nBlockHeight vote := AddPayee (default [] (mapMasternodeBlocks st !! nBlockHeight vote)) (payee vote) nVoteHash]>
                 (mapMasternodeBlocks st)), true)
  end.

Definition UpdateLastVote (st : CMasternodePayments) (vote : CMasternodePaymentVote) : CMasternodePayments * bool :=
  if bool_decide (mapMasternodesLastVote st !! voter vote = Some (nBlockHeight vote)) then (st, false)
  else (mkPayments (mapMasternodePaymentVotes st) (mapMasternodeBlocks st) (<[voter vote := nBlockHeight vote]> (mapMasternodesLastVote st))
          (mapMasternodesDidNotVote st) (nCachedBlockHeight st), true).

(** The product with 1.25 is exact for any list of masternodes that fits in memory. *)
Definition GetStorageLimit (env : pay_env) : Z := Z.max (mnodeman_size env * 5 / 4) 5000.

(** "Masternode payment vote" of [ProcessMessage]. *)
Definition ProcessVoteMessage (env : pay_env) (st : CMasternodePayments) (vote : CMasternodePaymentVote)
  : CMasternodePayments * list pay_effect :=
  if fLiteMode env then (st, [])
  else if peer_nVersion env <? GetMinMasternodePaymentsProto env then (st, [RejectObsolete])
  else if negb (IsMasternodeListSynced env) then (st, [])
  else
    let nHash := pv_GetHash vote in
    if HasVerifiedPaymentVote st nHash then (st, [])
    else
      let stored := default vote (mapMasternodePaymentVotes st !! nHash) in
      let st := set_votes st (<[nHash := MarkAsNotVerified stored]> (mapMasternodePaymentVotes st)) (mapMasternodeBlocks st) in
      let nFirstBlock := i32 (nCachedBlockHeight st - GetStorageLimit env) in
      if (nBlockHeight vote <? nFirstBlock) || (i32 (nCachedBlockHeight st + 20) <? nBlockHeight vote) then (st, [])
      else
        let '(valid, es) := pv_IsValid env vote (nCachedBlockHeight st) in
        if negb valid then (st, es)
        else match GetMasternodeInfo env (voter vote) with
             | None => (st, es ++ [AskForMN (voter vote)])
             | Some mnInfo =>
                 let '(ok, nDos) := pv_CheckSignature env vote (Governance.pubKeyMasternode mnInfo) (nCachedBlockHeight st) in
                 if negb ok then (st, es ++ (if nDos =? 0 then [] else [Misbehaving nDos]) ++ [AskForMN (voter vote)])
                 else
                   let '(st, fresh) := UpdateLastVote st vote in
                   if negb fresh then (st, es)
                   else
                     let '(st, added) := AddOrUpdatePaymentVote env st vote in
                     (st, if (added : bool) then es ++ (if IsSynced env then [RelayVote nHash] else []) else es)
             end.

(** [ProcessBlock]: the own vote. *)
Definition ProcessBlock (env : pay_env) (st : CMasternodePayments) (h : Z) : CMasternodePayments * bool :=
  if fLiteMode env || negb (fMasternodeMode env) then (st, false)
  else if negb (IsMasternodeListSynced env) then (st, false)
  else match GetMasternodeRank env (activeOutpoint env) (i32 (h - 101)) (GetMinMasternodePaymentsProto env) with
       | None => (st, false)
       | Some nRank =>
           if MNPAYMENTS_SIGNATURES_TOTAL <? nRank then (st, false)
           else match GetNextMasternodeInQueueForPayment env h with
                | None => (st, false)
                | Some mnInfo =>
                    let script := Standard.GetScriptForDestination (Standard.CKeyID (CHash160 (Governance.pubKeyCollateralAddress mnInfo))) in
                    match pv_Sign env (mkPayVote (activeOutpoint env) h script []) with
                    | None => (st, false)
                    | Some voteNew => AddOrUpdatePaymentVote env st voteNew
                    end
                end
       end.

(** Whether a vote of this masternode is among the payees of a block. *)
Definition has_voted (st : CMasternodePayments) (h : Z) (o : COutPoint) : bool :=
  match mapMasternodeBlocks st !! h with
  | None => false
  | Some vecPayees =>
      existsb (fun p => existsb (fun voteHash => match mapMasternodePaymentVotes st !! voteHash with
                                                 | Some v => bool_decide (voter v = o)
                                                 | None => false
                                                 end) (vecVoteHashes p)) vecPayees
  end.

Definition CheckBlockVotes (env : pay_env) (st : CMasternodePayments) (h : Z) : CMasternodePayments :=
  if negb (IsWinnersListSynced env) then st
  else match GetMasternodeRanks env (i32 (h - 101)) (GetMinMasternodePaymentsProto env) with
       | None => st
       | Some mns =>
           mkPayments (mapMasternodePaymentVotes st) (mapMasternodeBlocks st) (mapMasternodesLastVote st)
             (fold_left (fun m o => if has_voted st h o then m else <[o := default 0 (m !! o) + 1]> m)
                (take (Z.to_nat MNPAYMENTS_SIGNATURES_TOTAL) mns) (mapMasternodesDidNotVote st))
             (nCachedBlockHeight st)
       end.

(** [UpdatedBlockTip] for a tip of this height. *)
Definition UpdatedBlockTip (env : pay_env) (st : CMasternodePayments) (tip : Z) : CMasternodePayments :=
  let st := mkPayments (mapMasternodePaymentVotes st) (mapMasternodeBlocks st) (mapMasternodesLastVote st) (mapMasternodesDidNotVote st) tip in
  let nFutureBlock := i32 (tip + 10) in
  (ProcessBlock env (CheckBlockVotes env st (i32 (nFutureBlock - 1))) nFutureBlock).1.

Definition Clear (st : CMasternodePayments) : CMasternodePayments := set_votes st ∅ ∅.

(** One vote of [CheckAndRemove]. *)
Definition outdated (env : pay_env) (st : CMasternodePayments) (v : CMasternodePaymentVote) : bool :=
  GetStorageLimit env <? i32 (nCachedBlockHeight st - nBlockHeight v).

Definition CheckAndRemove (env : pay_env) (st : CMasternodePayments) : CMasternodePayments :=
  if negb (IsBlockchainSynced env) then st
  else fold_left (fun s e => if outdated env st e.2 then set_votes s (delete e.1 (mapMasternodePaymentVotes s)) (delete (nBlockHeight e.2) (mapMasternodeBlocks s)) else s)
         (Spork.in_order (mapMasternodePaymentVotes st)) st.

(** ** Blocks *)

(** The coinbase and the output for the masternode ([None]: the null output). *)
Definition FillBlockPayee (env : pay_env) (reward : Z -> Z) (st : CMasternodePayments) (vout : list CTxOut) (h : Z)
  : list CTxOut * option CTxOut :=
  let found :=
    match GetBlockPayee st h with
    | Some payee => Some payee
    | None => (fun mnInfo => Standard.GetScriptForDestination (Standard.CKeyID (CHash160 (Governance.pubKeyCollateralAddress mnInfo)))) <$>
                GetNextMasternodeInQueueForPayment env h
    end in
  match found with
  | None => (vout, None)
  | Some payee => let txout := mkCTxOut (reward h) payee (-10) in (vout ++ [txout], Some txout)
  end.

(** The state of the governance objects changes because [IsSuperblockTriggered]
    refreshes them; [None] is the exception of [GetValueOut]. *)
Definition IsBlockValueValid (p : Governance.superblock_params) (env : pay_env) (genv : Governance.gov_env) (g : Governance.gov_state)
  (vtx0 : CTransaction) (h blockReward : Z) : Governance.gov_state * option bool :=
  match GetValueOut vtx0 with
  | None => (g, None)
  | Some value =>
      let isBlockRewardValueMet := value <=? blockReward in
      if h <? Governance.nSuperblockStartBlock p then
        let nOffset := Z.rem h (Governance.nBudgetPaymentsCycleBlocks p) in
        if (Governance.nBudgetPaymentsStartBlock p <=? h) && (nOffset <? Governance.nBudgetPaymentsWindowBlocks p) then
          if IsSynced env && negb (sporkActive env Spork.SPORK_13_OLD_SUPERBLOCK_FLAG) then (g, Some isBlockRewardValueMet)
          else (g, Some true)
        else (g, Some isBlockRewardValueMet)
      else
        let nSuperblockMaxValue := i64 (blockReward + Governance.GetPaymentsLimit p h) in
        if negb (IsSynced env) then
          if Governance.IsValidBlockHeight p h then (g, Some (value <=? nSuperblockMaxValue)) else (g, Some isBlockRewardValueMet)
        else if sporkActive env Spork.SPORK_9_SUPERBLOCKS_ENABLED then
          let '(g, triggered) := Governance.IsSuperblockTriggered p genv g h in
          if (triggered : bool) then (g, Governance.manager_IsValid p g vtx0 h blockReward) else (g, Some isBlockRewardValueMet)
        else (g, Some isBlockRewardValueMet)
  end.

(** The masternode payment, where no superblock is triggered. *)
Definition payment_enforced (env : pay_env) (reward : Z -> Z) (st : CMasternodePayments) (txNew : CTransaction) (h : Z) : bool :=
  IsTransactionValid reward st txNew h || negb (sporkActive env Spork.SPORK_8_MASTERNODE_PAYMENT_ENFORCEMENT).

Definition IsBlockPayeeValid (p : Governance.superblock_params) (env : pay_env) (reward : Z -> Z) (genv : Governance.gov_env)
  (g : Governance.gov_state) (st : CMasternodePayments) (txNew : CTransaction) (h blockReward : Z) : Governance.gov_state * option bool :=
  if negb (IsSynced env) then (g, Some true)
  else if h <? Governance.nSuperblockStartBlock p then (g, Some true)
  else if sporkActive env Spork.SPORK_9_SUPERBLOCKS_ENABLED then
    let '(g, triggered) := Governance.IsSuperblockTriggered p genv g h in
    if (triggered : bool) then (g, Governance.manager_IsValid p g txNew h blockReward)
    else (g, Some (payment_enforced env reward st txNew h))
  else (g, Some (payment_enforced env reward st txNew h)).

(** The outputs of the new coinbase. *)
Definition FillBlockPayments (p : Governance.superblock_params) (env : pay_env) (reward : Z -> Z) (genv : Governance.gov_env)
  (g : Governance.gov_state) (st : CMasternodePayments) (vout : list CTxOut) (h : Z) : Governance.gov_state * list CTxOut :=
  if sporkActive env Spork.SPORK_9_SUPERBLOCKS_ENABLED then
    let '(g, triggered) := Governance.IsSuperblockTriggered p genv g h in
    if (triggered : bool) then (g, vout ++ Governance.CreateSuperblock p g h) else (g, (FillBlockPayee env reward st vout h).1)
  else (g, (FillBlockPayee env reward st vout h).1).

End Votes.

(** ** What is paid *)

Lemma max_votes_spec (l : list CMasternodePayee) : forall m,
  let k := fold_left (fun m p => if m <=? GetVoteCount p then GetVoteCount p else m) l m in
  m <= k /\ (forall p, p ∈ l -> GetVoteCount p <= k) /\ (k = m \/ exists p, p ∈ l /\ GetVoteCount p = k).
Proof.
  induction l as [|p l IH]; intros m k; cbn [fold_left] in k; subst k.
  { split; [lia|]. split; [by intros p Hp%elem_of_nil|by left]. }
  set (m' := if m <=? GetVoteCount p then GetVoteCount p else m). destruct (IH m') as (H1 & H2 & H3).
  assert (Hm : m <= m' /\ GetVoteCount p <= m' /\ (m' = m \/ m' = GetVoteCount p)) by (subst m'; case_match; lia).
  split; [lia|]. split.
  - intros q [->|Hq]%elem_of_cons; [lia|by apply H2].
  - destruct H3 as [H3|(q & Hq & E)]; [|right; exists q; split; [by right|done]].
    destruct Hm as (_ & _ & [Hm|Hm]); [left; lia|]. right. exists p. split; [by left|lia].
Qed.

(** The payment rule, exactly. A coinbase passes when no payee of the height
    has ten votes, or when one of its outputs pays exactly the masternode reward
    to a payee with at least ten votes; in no other case. *)
Theorem payment_rule_exact nMasternodePayment vecPayees tx :
  payees_IsTransactionValid nMasternodePayment vecPayees tx = true <->
  (forall p, p ∈ vecPayees -> GetVoteCount p < MNPAYMENTS_SIGNATURES_REQUIRED) \/
  (exists p o, p ∈ vecPayees /\ MNPAYMENTS_SIGNATURES_REQUIRED <= GetVoteCount p /\ o ∈ vout tx /\
     scriptPubKey o = GetPayee p /\ nValue o = nMasternodePayment).
Proof.
  unfold payees_IsTransactionValid. destruct (max_votes_spec vecPayees 0) as (H1 & H2 & H3).
  set (k := fold_left _ _ _) in *. destruct (k <? MNPAYMENTS_SIGNATURES_REQUIRED) eqn:E.
  { split; [|done]. intros _. left. intros p Hp. specialize (H2 p Hp). lia. }
  rewrite existsb_exists. split.
  - intros (p & Hp & [Hc Ho]%andb_true_iff). right. apply existsb_exists in Ho as (o & Ho & [Hs Hv]%andb_true_iff).
    apply bool_decide_eq_true in Hs. exists p, o. rewrite <- !list_elem_of_In in *. apply Z.leb_le in Hc. apply Z.eqb_eq in Hv. done.
  - intros [H|(p & o & Hp & Hc & Ho & Hs & Hv)].
    + destruct H3 as [H3|(p & Hp & Hk)]; [cbv in E, H3; by rewrite H3 in E|]. specialize (H p Hp). lia.
    + exists p. split; [by apply list_elem_of_In|]. rewrite (proj2 (Z.leb_le _ _)) by done. apply existsb_exists. exists o.
      split; [by apply list_elem_of_In|]. rewrite bool_decide_eq_true_2, Hv by done. apply Z.eqb_refl.
Qed.

Lemma best_payee_spec l : forall nVotes r,
  (best_payee l nVotes r = r /\ forall p, p ∈ l -> GetVoteCount p <= nVotes) \/
  (exists p, p ∈ l /\ best_payee l nVotes r = Some (GetPayee p) /\ nVotes < GetVoteCount p /\
     forall q, q ∈ l -> GetVoteCount q <= GetVoteCount p).
Proof.
  induction l as [|p l IH]; intros nVotes r; cbn [best_payee].
  { left. split; [done|]. by intros p Hp%elem_of_nil. }
  destruct (nVotes <? GetVoteCount p) eqn:E.
  - right. destruct (IH (GetVoteCount p) (Some (GetPayee p))) as [[-> H]|(q & Hq & -> & Hlt & H)].
    + exists p. split; [by left|]. split; [done|]. split; [lia|]. intros q [->|Hq]%elem_of_cons; [lia|by apply H].
    + exists q. split; [by right|]. split; [done|]. split; [lia|]. intros q' [->|Hq']%elem_of_cons; [lia|by apply H].
  - destruct (IH nVotes r) as [[-> H]|(q & Hq & -> & Hlt & H)].
    + left. split; [done|]. intros q [->|Hq]%elem_of_cons; [lia|by apply H].
    + right. exists q. split; [by right|]. split; [done|]. split; [lia|]. intros q' [->|Hq']%elem_of_cons; [lia|by apply H].
Qed.

Section Blocks.
Context {CR : Crypto} {PK : PubKeyRecovery}.

(** A coinbase to which [FillBlockPayee] added its output pays as the votes want. *)
Lemma FillBlockPayee_valid env reward st tx before h : vout tx = (FillBlockPayee env reward st before h).1 ->
  IsTransactionValid reward st tx h = true.
Proof.
  intros Hv. unfold IsTransactionValid. destruct (mapMasternodeBlocks st !! h) as [l|] eqn:El; [|done].
  unfold payees_IsTransactionValid. destruct (max_votes_spec l 0) as (_ & _ & H3). set (k := fold_left _ _ _) in *.
  destruct (k <? MNPAYMENTS_SIGNATURES_REQUIRED) eqn:E; [done|]. apply Z.ltb_ge in E. unfold MNPAYMENTS_SIGNATURES_REQUIRED in E.
  destruct H3 as [H3|(p & Hp & Hk)]; [lia|].
  destruct (best_payee_spec l (-1) None) as [[_ H]|(q & Hq & Hb & _ & H)]; [specialize (H p Hp); lia|]. specialize (H p Hp).
  apply existsb_exists. exists q. split; [by apply list_elem_of_In|].
  rewrite (proj2 (Z.leb_le _ _)) by (unfold MNPAYMENTS_SIGNATURES_REQUIRED; lia). apply existsb_exists.
  exists (mkCTxOut (reward h) (GetPayee q) (-10)). split.
  - apply list_elem_of_In. rewrite Hv. unfold FillBlockPayee, GetBlockPayee, GetBestPayee. rewrite El. cbn [mbind option_bind]. rewrite Hb.
    apply elem_of_app. right. by left.
  - cbn. rewrite bool_decide_eq_true_2, Z.eqb_refl by done. done.
Qed.

(** A miner's block pays the masternode that the validator asks for. Whatever
    votes the node has and whatever the sporks, when no superblock is triggered
    at the height, a coinbase that [FillBlockPayments] completed is accepted by
    [IsBlockPayeeValid] in the same state. *)
Theorem filled_block_payee_valid p env reward genv g st before version inputs lock h blockReward :
  (Governance.IsSuperblockTriggered p genv g h).2 = false ->
  (IsBlockPayeeValid p env reward genv g st
     (mkCTransaction version inputs (FillBlockPayments p env reward genv g st before h).2 lock) h blockReward).2 = Some true.
Proof.
  intros Ht. unfold IsBlockPayeeValid, FillBlockPayments, payment_enforced.
  destruct (Governance.IsSuperblockTriggered p genv g h) as [g' t]. cbn [snd] in Ht. subst t.
  destruct (IsSynced env); [|done]. destruct (h <? _); [done|]. cbn [negb].
  destruct (sporkActive env Spork.SPORK_9_SUPERBLOCKS_ENABLED); cbn [snd]; f_equal; apply orb_true_intro; left;
    by apply (FillBlockPayee_valid env _ _ _ before).
Qed.

(** C15: no coinbase pays more than its block allows. With superblocks that start no
    later than the older budgets, as on every network, an accepted coinbase is
    worth at most the block's expected value, synced or not, with any sporks,
    votes and triggers: superblocks add nothing because their limit is zero. *)
Theorem coinbase_value_bounded p env genv g tx h blockReward g' :
  Governance.nSuperblockStartBlock p <= Governance.nBudgetPaymentsStartBlock p -> 0 <= blockReward < 2 ^ 63 ->
  IsBlockValueValid p env genv g tx h blockReward = (g', Some true) ->
  exists v, GetValueOut tx = Some v /\ v <= blockReward.
Proof.
  intros Hp Hr. unfold IsBlockValueValid. destruct (GetValueOut tx) as [v|] eqn:Ev; [|done]. intros H. exists v. split; [done|].
  destruct (h <? _) eqn:Eh.
  { rewrite (proj2 (Z.leb_gt _ _)) in H by lia. cbn [andb] in H. injection H as _ H. lia. }
  assert (Hl : Governance.GetPaymentsLimit p h = 0) by (unfold Governance.GetPaymentsLimit; by destruct (Governance.IsValidBlockHeight p h)).
  rewrite Hl, Z.add_0_r, i64_small in H by lia. destruct (IsSynced env); cbn [negb] in H.
  2: { destruct (Governance.IsValidBlockHeight p h); injection H as _ H; lia. }
  destruct (sporkActive env _); [|injection H as _ H; lia].
  destruct (Governance.IsSuperblockTriggered p genv g h) as [g1 []]; [|injection H as _ H; lia].
  injection H as -> H. unfold Governance.manager_IsValid in H. destruct (Governance.GetBestSuperblock p g' h) as [[k sb]|]; [|done].
  destruct (Governance.sb_IsValid_bound p sb tx h blockReward Hr H) as (w & Hw & Hle). congruence.
Qed.

(** C37: a superblock that masternodes funded stops the chain. When superblocks are
    enabled, the node is synced and the triggered superblock at a height pays
    anything, no block at that height is valid, whatever its coinbase pays: the
    payments exceed the limit, which is zero. *)
Theorem funded_superblock_blocks_chain p env genv g tx h blockReward g1 k sb :
  IsSynced env = true -> sporkActive env Spork.SPORK_9_SUPERBLOCKS_ENABLED = true -> Governance.nSuperblockStartBlock p <= h ->
  Governance.IsSuperblockTriggered p genv g h = (g1, true) -> Governance.GetBestSuperblock p g1 h = Some (k, sb) ->
  0 < Governance.GetPaymentsTotalAmount sb -> (IsBlockValueValid p env genv g tx h blockReward).2 <> Some true.
Proof.
  intros Hs H9 Hh Ht Hb Hpos. unfold IsBlockValueValid. destruct (GetValueOut tx) as [v|]; [|done].
  rewrite (proj2 (Z.ltb_ge _ _)), Hs, H9, Ht by done. cbn [negb snd]. unfold Governance.manager_IsValid. rewrite Hb. unfold Governance.sb_IsValid.
  destruct (Governance.IsValidBlockHeight p h) eqn:Ev; [|done]. cbn [negb]. destruct (_ <? 0); [done|].
  unfold Governance.GetPaymentsLimit. rewrite Ev. cbn [negb]. rewrite (proj2 (Z.ltb_lt _ _)) by done. done.
Qed.

End Blocks.

(** ** Who voted *)

Inductive pay_event : Type :=
  | VoteMessage (vote : CMasternodePaymentVote)
  | NewTip (tip : Z)
  | Prune
  | ClearAll.

Definition no_payments : CMasternodePayments := mkPayments ∅ ∅ ∅ ∅ 0.

Section Events.
Context {CR : Crypto} {PK : PubKeyRecovery}.

Definition handle (st : CMasternodePayments) (e : pay_env * pay_event) : CMasternodePayments :=
  match e.2 with
  | VoteMessage vote => (ProcessVoteMessage e.1 st vote).1
  | NewTip tip => UpdatedBlockTip e.1 st tip
  | Prune => CheckAndRemove e.1 st
  | ClearAll => Clear st
  end.

(** The vote was signed by the masternode it names, as this environment knows
    it, or is the own vote, signed by the own key. *)
Definition authentic (env : pay_env) (v : CMasternodePaymentVote) : Prop :=
  (exists info, GetMasternodeInfo env (voter v) = Some info /\ signed_by env v (Governance.pubKeyMasternode info) = true) \/
  (voter v = activeOutpoint env /\ exists h, h ∈ [pv_GetSignatureHash v; Spork.message_hash (pv_message v)] /\
     Spork.VerifyHash h (CHash160 (pubKeyMasternode env)) (vchSig v) = true).

(** [CPubKey::RecoverCompact] refuses signatures of another length. *)
Hypothesis recover_length : forall h sig k, RecoverCompact h sig = Some k -> zlen sig = 65.

Lemma verified_nonempty h k sig : Spork.VerifyHash h k sig = true -> sig <> [].
Proof using recover_length.
  unfold Spork.VerifyHash. destruct (RecoverCompact h sig) as [key|] eqn:E; [|done]. intros _ ->. apply recover_length in E. done.
Qed.

Lemma authentic_verified env v : authentic env v -> IsVerified v = true.
Proof using recover_length.
  unfold IsVerified. rewrite bool_decide_eq_true. intros [(info & _ & H)|(_ & h & _ & H)]; [|by apply verified_nonempty in H].
  unfold signed_by, Spork.VerifyMessage in H. destruct (sporkActive _ _); [apply orb_true_iff in H as [H|H]|]; by apply verified_nonempty in H.
Qed.

(** A counted vote: it is stored and verified, and it is for this payee. *)
Definition counted (P : CMasternodePaymentVote -> Prop) (st : CMasternodePayments) (h : Z) (p : CMasternodePayee) (k : list Z) : Prop :=
  exists v, mapMasternodePaymentVotes st !! k = Some v /\ IsVerified v = true /\ pv_GetHash v = k /\
    nBlockHeight v = h /\ payee v = GetPayee p /\ P v.

Definition payees_ok (P : CMasternodePaymentVote -> Prop) (st : CMasternodePayments) (h : Z) (p : CMasternodePayee) : Prop :=
  NoDup (vecVoteHashes p) /\ Forall (counted P st h p) (vecVoteHashes p).

(** The invariant of the votes and the payees. *)
Definition votes_ok (P : CMasternodePaymentVote -> Prop) (st : CMasternodePayments) : Prop :=
  forall h l, mapMasternodeBlocks st !! h = Some l -> Forall (payees_ok P st h) l.

Lemma payees_ok_mono (P : CMasternodePaymentVote -> Prop) st st' h l :
  (forall k v, k ∈ l ≫= vecVoteHashes -> mapMasternodePaymentVotes st !! k = Some v -> IsVerified v = true -> nBlockHeight v = h ->
     mapMasternodePaymentVotes st' !! k = Some v) ->
  Forall (payees_ok P st h) l -> Forall (payees_ok P st' h) l.
Proof.
  intros Hk Hl. apply Forall_forall. intros p Hp. rewrite Forall_forall in Hl. destruct (Hl p Hp) as [H1 H2]. split; [done|].
  apply Forall_forall. intros k Hin. rewrite Forall_forall in H2. destruct (H2 k Hin) as (v & Hv & Hver & Hh & Hb & Hr).
  exists v. split; [|done]. apply Hk; try done. apply list_elem_of_bind. eauto.
Qed.

(** Storing a vote whose hash is not yet that of a verified vote touches no counted vote. *)
Lemma votes_ok_store P st k v : votes_ok P st -> HasVerifiedPaymentVote st k = false ->
  votes_ok P (set_votes st (<[k := v]> (mapMasternodePaymentVotes st)) (mapMasternodeBlocks st)).
Proof.
  intros Hst Hn h l Hl. cbn in Hl. specialize (Hst h l Hl). revert Hst. apply payees_ok_mono. intros k' w _ Hw Hver _. cbn.
  rewrite lookup_insert_ne; [done|]. intros <-. unfold HasVerifiedPaymentVote in Hn. rewrite Hw in Hn. congruence.
Qed.

Lemma AddPayee_ok P st h l v : Forall (payees_ok P st h) l -> counted P st h (mkPayee (payee v) []) (pv_GetHash v) ->
  Forall (fun p => pv_GetHash v ∉ vecVoteHashes p) l -> Forall (payees_ok P st h) (AddPayee l (payee v) (pv_GetHash v)).
Proof.
  intros Hl Hc Hn. induction l as [|p l IH]; cbn [AddPayee].
  { constructor; [|done]. split; cbn; [apply NoDup_singleton|]. constructor; [|done]. exact Hc. }
  apply Forall_cons_iff in Hl as [[H1 H2] Hl]. apply Forall_cons_iff in Hn as [Hn1 Hn].
  case_bool_decide as Ep; [|constructor; [done|by apply IH]]. constructor; [|done]. split; cbn.
  - apply NoDup_app. split; [done|]. split; [|apply NoDup_singleton]. intros k Hk ->%list_elem_of_singleton. done.
  - apply Forall_app. split; [exact H2|]. constructor; [|done]. unfold counted in *. cbn in *. rewrite Ep. done.
Qed.

Lemma votes_ok_add P env st v : votes_ok P st -> IsVerified v = true -> P v -> votes_ok P (AddOrUpdatePaymentVote env st v).1.
Proof.
  intros Hst Hv HP. unfold AddOrUpdatePaymentVote. destruct (GetBlockHash _ _) as [bh|]; [|done].
  destruct (HasVerifiedPaymentVote st (pv_GetHash v)) eqn:En; [done|]. cbn [fst].
  pose proof (votes_ok_store P st (pv_GetHash v) v Hst En) as Hs.
  set (st1 := set_votes st _ (mapMasternodeBlocks st)) in Hs. intros h l Hl. cbn [set_votes mapMasternodeBlocks] in Hl.
  assert (Hsame : forall m, Forall (payees_ok P st1 h) m -> Forall (payees_ok P (set_votes st (<[pv_GetHash v := v]> (mapMasternodePaymentVotes st))
    (<[nBlockHeight v := AddPayee (default [] (mapMasternodeBlocks st !! nBlockHeight v)) (payee v) (pv_GetHash v)]> (mapMasternodeBlocks st))) h) m).
  { intros m. by apply payees_ok_mono. }
  apply Hsame. destruct (decide (h = nBlockHeight v)) as [->|Hne].
  - rewrite lookup_insert_eq in Hl. injection Hl as <-. apply AddPayee_ok.
    + destruct (mapMasternodeBlocks st !! nBlockHeight v) as [m|] eqn:Em; [by apply Hs|constructor].
    + exists v. cbn. rewrite lookup_insert_eq. done.
    + destruct (mapMasternodeBlocks st !! nBlockHeight v) as [m|] eqn:Em; [|constructor]. cbn. apply Forall_forall. intros p Hp Hin.
      specialize (Hst _ _ Em). rewrite Forall_forall in Hst. destruct (Hst p Hp) as [_ Hc]. rewrite Forall_forall in Hc.
      destruct (Hc _ Hin) as (w & Hw & Hver & _). unfold HasVerifiedPaymentVote in En. rewrite Hw in En. congruence.
  - rewrite lookup_insert_ne in Hl by done. by apply Hs.
Qed.

Lemma votes_ok_same P st st' : mapMasternodePaymentVotes st' = mapMasternodePaymentVotes st ->
  mapMasternodeBlocks st' = mapMasternodeBlocks st -> votes_ok P st -> votes_ok P st'.
Proof.
  intros E1 E2 H h l Hl. rewrite E2 in Hl. specialize (H h l Hl). revert H. apply payees_ok_mono. by rewrite E1.
Qed.

Lemma votes_ok_message (P : CMasternodePaymentVote -> Prop) env st v :
  (authentic env v -> P v) -> votes_ok P st -> votes_ok P (ProcessVoteMessage env st v).1.
Proof using recover_length.
  intros HP Hst. unfold ProcessVoteMessage. destruct (fLiteMode env); [done|]. destruct (peer_nVersion env <? _); [done|].
  destruct (IsMasternodeListSynced env); [|done]. cbn [negb].
  destruct (HasVerifiedPaymentVote st (pv_GetHash v)) eqn:En; [done|].
  set (st1 := set_votes st _ (mapMasternodeBlocks st)). assert (H1 : votes_ok P st1) by (by apply votes_ok_store).
  destruct (_ || _); [done|]. destruct (pv_IsValid _ _ _) as [[] es]; [|done]. cbn [negb].
  destruct (GetMasternodeInfo env (voter v)) as [info|] eqn:Ei; [|done].
  unfold pv_CheckSignature. destruct (signed_by env v (Governance.pubKeyMasternode info)) eqn:Es; [|done]. cbn [negb].
  assert (Ha : authentic env v) by (left; eauto).
  unfold UpdateLastVote. case_bool_decide; [done|]. cbn [negb].
  set (st2 := mkPayments _ _ _ _ _). assert (H2 : votes_ok P st2) by (by apply (votes_ok_same P st1)).
  pose proof (votes_ok_add P env st2 v H2 (authentic_verified env v Ha) (HP Ha)) as H3.
  destruct (AddOrUpdatePaymentVote env st2 v) as [st3 added]. exact H3.
Qed.

Lemma pv_Sign_authentic env v v' : voter v = activeOutpoint env -> pv_Sign env v = Some v' -> authentic env v'.
Proof.
  intros Hv. unfold pv_Sign. set (h := if sporkActive env _ then _ else _).
  destruct (Spork.SignCompact (keyMasternode env) h) as [sig|]; [|done]. cbn [mbind option_bind].
  destruct (Spork.VerifyHash _ _ _) eqn:E; [|done]. intros [= <-]. right. split; [done|]. exists h. split; [|done].
  subst h. destruct (sporkActive env _); [by left|by right; left].
Qed.

Lemma votes_ok_block (P : CMasternodePaymentVote -> Prop) env st h :
  (forall v, authentic env v -> P v) -> votes_ok P st -> votes_ok P (ProcessBlock env st h).1.
Proof using recover_length.
  intros HP Hst. unfold ProcessBlock. destruct (_ || _); [done|]. destruct (IsMasternodeListSynced env); [|done]. cbn [negb].
  destruct (GetMasternodeRank _ _ _ _) as [r|]; [|done]. destruct (_ <? r); [done|].
  destruct (GetNextMasternodeInQueueForPayment env h) as [info|]; [|done].
  destruct (pv_Sign env _) as [v|] eqn:E; [|done]. apply pv_Sign_authentic in E; [|done].
  apply votes_ok_add; [done|by apply (authentic_verified env)|by apply HP].
Qed.

(** Pruning removes the payees of every height from which it removes a vote. *)
Lemma votes_ok_prune P env st : votes_ok P st -> votes_ok P (CheckAndRemove env st).
Proof.
  intros Hst. unfold CheckAndRemove. destruct (IsBlockchainSynced env); [|done]. cbn [negb].
  assert (Hin : forall e, e ∈ Spork.in_order (mapMasternodePaymentVotes st) -> mapMasternodePaymentVotes st !! e.1 = Some e.2).
  { intros [k v] He. by apply Spork.in_order_lookup. }
  revert Hin. generalize (Spork.in_order (mapMasternodePaymentVotes st)). intros es Hin.
  enough (Hloop : forall s, mapMasternodePaymentVotes s ⊆ mapMasternodePaymentVotes st -> votes_ok P s -> votes_ok P (fold_left (fun s e =>
    if outdated env st e.2 then set_votes s (delete e.1 (mapMasternodePaymentVotes s)) (delete (nBlockHeight e.2) (mapMasternodeBlocks s)) else s) es s))
    by (by apply Hloop).
  induction es as [|[k v] es IH]; intros s Hsub Hs; [done|]. cbn [fold_left]. apply IH.
  - intros e He. apply Hin. by right.
  - cbn [fst snd]. destruct (outdated env st v); [|done]. cbn. etransitivity; [apply delete_subseteq|done].
  - cbn [fst snd]. destruct (outdated env st v); [|done]. intros h l Hl. cbn in Hl. apply lookup_delete_Some in Hl as [Hne Hl].
    specialize (Hs h l Hl). revert Hs. apply payees_ok_mono. intros k' w _ Hw _ Hh. cbn. rewrite lookup_delete_ne; [done|].
    intros <-. apply Hne. pose proof (lookup_weaken _ _ _ _ Hw Hsub) as Hw'. specialize (Hin (k, v)). cbn in Hin.
    rewrite Hin in Hw' by (by left). congruence.
Qed.

Lemma votes_ok_handle (P : CMasternodePaymentVote -> Prop) st e :
  (forall v, authentic e.1 v -> P v) -> votes_ok P st -> votes_ok P (handle st e).
Proof using recover_length.
  intros HP Hst. destruct e as [env ev]. cbn [fst] in HP. unfold handle. cbn [fst snd]. destruct ev as [v|tip| |].
  - apply votes_ok_message; auto.
  - unfold UpdatedBlockTip. apply votes_ok_block; [done|]. revert Hst.
    unfold CheckBlockVotes. destruct (IsWinnersListSynced env); [destruct (GetMasternodeRanks _ _ _)|]; by apply votes_ok_same.
  - by apply votes_ok_prune.
  - intros h l Hl. cbn in Hl. by rewrite lookup_empty in Hl.
Qed.

Lemma votes_ok_run (P : CMasternodePaymentVote -> Prop) trace : forall st,
  (forall e v, e ∈ trace -> authentic e.1 v -> P v) -> votes_ok P st -> votes_ok P (fold_left handle trace st).
Proof using recover_length.
  induction trace as [|e trace IH]; intros st HP Hst; [done|]. cbn [fold_left]. apply IH.
  - intros e' v He. apply HP. by right.
  - apply votes_ok_handle; [|done]. intros v. apply HP. by left.
Qed.

(** The votes behind the hashes of a payee. *)
Lemma counted_votes P st h p l : NoDup l -> Forall (counted P st h p) l ->
  exists votes, pv_GetHash <$> votes = l /\ NoDup (voter <$> votes) /\
    forall v, v ∈ votes -> nBlockHeight v = h /\ payee v = GetPayee p /\ P v.
Proof.
  induction l as [|k l IH]; intros Hd Hc.
  { exists []. split; [done|]. split; [apply NoDup_nil_2|]. by intros v Hv%elem_of_nil. }
  apply list.NoDup_cons in Hd as [Hk Hd]. apply Forall_cons_iff in Hc as [(v & _ & _ & Eh & Hh & Hp & HP) Hc].
  destruct (IH Hd Hc) as (votes & E & Hn & Hall). exists (v :: votes). rewrite !fmap_cons, E, Eh. split; [done|]. split.
  - apply list.NoDup_cons. split; [|done]. intros (w & Ew & Hw)%list_elem_of_fmap. apply Hk. rewrite <- E, <- Eh.
    apply list_elem_of_fmap. exists w. split; [|done]. destruct (Hall w Hw) as (Hh' & Hp' & _). unfold pv_GetHash.
    by rewrite Ew, Hh', Hp', Hh, Hp.
  - intros w [->|Hw]%elem_of_cons; [done|by apply Hall].
Qed.

(** C23: the count of a payee is a count of masternodes. After any sequence of vote
    messages, new tips, prunings and clearings, the votes counted for a payee at
    a height come from as many different masternodes, each for this payee and
    this height, and each was signed by the masternode it names, as the node knew
    it when the vote came, or by the node's own masternode key. *)
Theorem payee_votes_authentic trace h l p :
  let st := fold_left handle trace no_payments in
  mapMasternodeBlocks st !! h = Some l -> p ∈ l ->
  exists votes, zlen votes = GetVoteCount p /\ NoDup (voter <$> votes) /\
    forall v, v ∈ votes -> nBlockHeight v = h /\ payee v = GetPayee p /\ exists e, e ∈ trace /\ authentic e.1 v.
Proof using recover_length.
  intros st Hl Hp. set (P v := exists e : pay_env * pay_event, e ∈ trace /\ authentic e.1 v).
  assert (Hok : votes_ok P st).
  { apply votes_ok_run; [intros e v He Ha; exists e; done|]. intros h' l' H. cbn in H. by rewrite lookup_empty in H. }
  specialize (Hok h l Hl). rewrite Forall_forall in Hok. destruct (Hok p Hp) as [Hd Hc].
  destruct (counted_votes P st h p _ Hd Hc) as (votes & E & Hn & Hall). exists votes. split; [|done].
  unfold GetVoteCount, zlen. by rewrite <- E, length_fmap.
Qed.

End Events.

(** ** Concrete runs *)

(** A toy world: a signature of 65 bytes is the key itself; a masternode's key
    repeats the index of its outpoint. *)
Definition toy_compact : PubKeyRecovery := fun _ sig => if zlen sig =? 65 then Some sig else None.
Definition toy_mn (i : Z) : COutPoint := mkCOutPoint (replicate 32 i) i.
Definition toy_mn_key (i : Z) : list Z := replicate 65 i.
Definition toy_payee (i : Z) : CScript := replicate 4 i.
Definition toy_vote (i h target : Z) : CMasternodePaymentVote := mkPayVote (toy_mn i) h (toy_payee target) (toy_mn_key i).

Definition toy_env (spork9 : bool) : pay_env :=
  mkPayEnv MASTERNODE_SYNC_FINISHED (fun id => (id =? Spork.SPORK_9_SUPERBLOCKS_ENABLED) && spork9) false false
    (fun o => Some (Governance.mkInfo (toy_mn_key (n o)) (toy_mn_key (n o)) 71200)) (fun _ _ _ => Some 1) (fun _ _ => None)
    (fun _ => None) (fun _ => Some []) 3 (toy_mn 9) (Spork.mkKey false (fun _ => None) []) [] 71200.

Definition toy_trace : list (pay_env * pay_event) :=
  (fun e => (toy_env false, e)) <$> [NewTip 1000; VoteMessage (toy_vote 1 1005 7); VoteMessage (toy_vote 2 1005 7); Prune].

Definition toy_run (l : list (pay_env * pay_event)) : CMasternodePayments := fold_left (@handle toy_crypto toy_compact) l no_payments.

Lemma payee_votes_authentic_witness :
  exists l p votes, mapMasternodeBlocks (toy_run toy_trace) !! 1005 = Some l /\ p ∈ l /\
    zlen votes = GetVoteCount p /\ GetVoteCount p = 2 /\ NoDup (voter <$> votes).
Proof.
  destruct (mapMasternodeBlocks (toy_run toy_trace) !! 1005) as [[|p l]|] eqn:E; [vm_compute in E; discriminate| |vm_compute in E; discriminate].
  assert (Hc : GetVoteCount p = 2).
  { assert (H : (GetVoteCount <$> default [] (mapMasternodeBlocks (toy_run toy_trace) !! 1005)) = [2]) by (vm_compute; reflexivity).
    rewrite E in H. cbn in H. injection H as -> _. done. }
  destruct (@payee_votes_authentic toy_crypto toy_compact) with (trace := toy_trace) (h := 1005) (l := p :: l) (p := p) as (votes & H1 & H2 & _).
  - intros h sig k. unfold RecoverCompact, toy_compact. destruct (zlen sig =? 65) eqn:El; [|discriminate]. intros _. lia.
  - exact E.
  - left.
  - exists (p :: l), p, votes. split; [reflexivity|]. split; [left|]. exact (conj H1 (conj Hc H2)).
Defined.

(** A masternode votes for two payees at one height by voting for another height
    in between: the last vote is all that is remembered of it. *)
Lemma double_vote_counted :
  (fun p => (GetPayee p, (fun k => voter <$> mapMasternodePaymentVotes (toy_run ((fun e => (toy_env false, e)) <$>
      [NewTip 1000; VoteMessage (toy_vote 1 1005 7); VoteMessage (toy_vote 1 1006 7); VoteMessage (toy_vote 1 1005 8)])) !! k) <$> vecVoteHashes p)) <$>
    default [] (mapMasternodeBlocks (toy_run ((fun e => (toy_env false, e)) <$>
      [NewTip 1000; VoteMessage (toy_vote 1 1005 7); VoteMessage (toy_vote 1 1006 7); VoteMessage (toy_vote 1 1005 8)])) !! 1005) =
  [(toy_payee 7, [Some (toy_mn 1)]); (toy_payee 8, [Some (toy_mn 1)])].
Proof. vm_compute. reflexivity. Qed.

(** One masternode, which funded a trigger for the first superblock height. *)
Definition toy_gov_env : Governance.gov_env := Governance.mkGov (fun _ => None) 1 false 1500000000 false 1.
Definition toy_coinbase (outs : list CTxOut) : CTransaction := mkCTransaction 1 [] outs 0.

Lemma filled_block_payee_valid_witness :
  (Governance.IsSuperblockTriggered Governance.main_superblocks toy_gov_env (Governance.toy_funded 5) 87661).2 = false /\
  (@IsBlockPayeeValid Governance.main_superblocks (toy_env true) (fun _ => 50) toy_gov_env (Governance.toy_funded 5) (toy_run toy_trace)
     (mkCTransaction 1 [] (@FillBlockPayments toy_crypto Governance.main_superblocks (toy_env true) (fun _ => 50) toy_gov_env (Governance.toy_funded 5)
        (toy_run toy_trace) [] 87661).2 0) 87661 60).2 = Some true.
Proof.
  assert (H : (Governance.IsSuperblockTriggered Governance.main_superblocks toy_gov_env (Governance.toy_funded 5) 87661).2 = false) by (vm_compute; reflexivity).
  split; [exact H|]. exact (@filled_block_payee_valid toy_crypto Governance.main_superblocks (toy_env true) (fun _ => 50) toy_gov_env
    (Governance.toy_funded 5) (toy_run toy_trace) [] 1 [] 0 87661 60 H).
Defined.

Lemma coinbase_value_bounded_witness :
  (IsBlockValueValid Governance.main_superblocks (toy_env true) toy_gov_env (Governance.toy_funded 0)
     (toy_coinbase [mkCTxOut 60 [] (-10); mkCTxOut 0 [OP_RETURN] (-10)]) 87660 60).2 = Some true /\
  exists v, GetValueOut (toy_coinbase [mkCTxOut 60 [] (-10); mkCTxOut 0 [OP_RETURN] (-10)]) = Some v /\ v <= 60.
Proof.
  assert (H : (IsBlockValueValid Governance.main_superblocks (toy_env true) toy_gov_env (Governance.toy_funded 0)
     (toy_coinbase [mkCTxOut 60 [] (-10); mkCTxOut 0 [OP_RETURN] (-10)]) 87660 60).2 = Some true) by (vm_compute; reflexivity).
  split; [exact H|]. destruct (IsBlockValueValid _ _ _ _ _ _ _) as [g' r] eqn:E. cbn [snd] in H. subst r.
  apply (coinbase_value_bounded Governance.main_superblocks (toy_env true) toy_gov_env (Governance.toy_funded 0) _ 87660 60 g'); [by_decide|by_decide|exact E].
Defined.

Lemma funded_superblock_blocks_chain_witness :
  (Governance.IsSuperblockTriggered Governance.main_superblocks toy_gov_env (Governance.toy_funded 5) 87660).2 = true /\
  forall outs, (IsBlockValueValid Governance.main_superblocks (toy_env true) toy_gov_env (Governance.toy_funded 5) (toy_coinbase outs) 87660 60).2 <> Some true.
Proof.
  assert (H : (Governance.IsSuperblockTriggered Governance.main_superblocks toy_gov_env (Governance.toy_funded 5) 87660).2 = true) by (vm_compute; reflexivity).
  split; [exact H|]. intros outs.
  set (g1 := (Governance.IsSuperblockTriggered Governance.main_superblocks toy_gov_env (Governance.toy_funded 5) 87660).1).
  apply (funded_superblock_blocks_chain Governance.main_superblocks (toy_env true) toy_gov_env (Governance.toy_funded 5) (toy_coinbase outs) 87660 60
    g1 [1] (Governance.mkSuperblock [1] 87660 Governance.SEEN_OBJECT_IS_VALID [Governance.mkPayment [OP_RETURN] 5])).
  - reflexivity.
  - reflexivity.
  - by_decide.
  - subst g1. rewrite <- H. apply surjective_pairing.
  - vm_compute. reflexivity.
  - reflexivity.
Defined.

End Payments.
