(* ===== verification/TxGraph.v ===== *)
(** * Reachability and sums over finite graphs

    The graph of unconfirmed transactions is a function from a transaction to the
    set of its neighbours.  This file has what the memory pool needs of such
    graphs: the set of nodes that can be reached, how it changes when nodes are
    removed or added, the search with a set of nodes still to visit, and sums of
    weights over sets. *)

From stdpp Require Import base relations list gmap fin_sets numbers option.
From Stdlib Require Import ZArith Lia.
From S2P Require Import Prelude.

Local Open Scope Z_scope.

Module TxGraph.

(** ** Sums over finite sets *)

Section Sums.
Context {A : Type} `{Countable A}.
Implicit Types (w : A -> Z) (X Y : gset A).

Definition sum_over w X : Z := foldr (fun x acc => w x + acc) 0 (elements X).

Lemma foldr_sum_perm w (l l' : list A) : l ≡ₚ l' ->
  foldr (fun x acc => w x + acc) 0 l = foldr (fun x acc => w x + acc) 0 l'.
Proof. induction 1; cbn; lia. Qed.

Lemma sum_over_empty w : sum_over w ∅ = 0.
Proof. unfold sum_over. by rewrite elements_empty. Qed.

Lemma sum_over_insert w x X : x ∉ X -> sum_over w ({[x]} ∪ X) = w x + sum_over w X.
Proof. intros Hx. unfold sum_over. by rewrite (foldr_sum_perm w _ (x :: elements X)) by by apply elements_union_singleton. Qed.

Lemma sum_over_union w X Y : X ## Y -> sum_over w (X ∪ Y) = sum_over w X + sum_over w Y.
Proof.
  induction X as [|x X Hx IH] using set_ind_L; intros Hd.
  - rewrite sum_over_empty, (left_id_L ∅ (∪)). lia.
  - rewrite <- (assoc_L (∪)), !sum_over_insert, IH by set_solver. lia.
Qed.

Lemma sum_over_ext w w' X : (forall x, x ∈ X -> w x = w' x) -> sum_over w X = sum_over w' X.
Proof.
  induction X as [|x X Hx IH] using set_ind_L; intros He; [by rewrite !sum_over_empty|].
  rewrite !sum_over_insert by done. rewrite IH by set_solver. rewrite (He x) by set_solver. lia.
Qed.

Lemma sum_over_difference w X Y : Y ⊆ X -> sum_over w (X ∖ Y) = sum_over w X - sum_over w Y.
Proof.
  intros Hs. rewrite (union_difference_L Y X) at 2 by done. rewrite sum_over_union by set_solver. lia.
Qed.

Lemma sum_over_delete w x X : x ∈ X -> sum_over w (X ∖ {[x]}) = sum_over w X - w x.
Proof.
  intros Hx. rewrite sum_over_difference by set_solver.
  rewrite <- (right_id_L ∅ (∪) {[x]}), sum_over_insert, sum_over_empty by set_solver. lia.
Qed.

Lemma sum_over_nonneg w X : (forall x, x ∈ X -> 0 <= w x) -> 0 <= sum_over w X.
Proof.
  induction X as [|x X Hx IH] using set_ind_L; intros Hw; [by rewrite sum_over_empty|].
  rewrite sum_over_insert by done. specialize (IH ltac:(set_solver)). specialize (Hw x ltac:(set_solver)). lia.
Qed.

Lemma sum_over_subset w X Y : X ⊆ Y -> (forall x, x ∈ Y -> 0 <= w x) -> sum_over w X <= sum_over w Y.
Proof.
  intros Hs Hw. rewrite (union_difference_L X Y), sum_over_union by set_solver.
  pose proof (sum_over_nonneg w (Y ∖ X) ltac:(set_solver)). lia.
Qed.

Lemma sum_over_one X : sum_over (fun _ => 1) X = Z.of_nat (size X).
Proof.
  induction X as [|x X Hx IH] using set_ind_L; [by rewrite sum_over_empty, size_empty|].
  rewrite sum_over_insert, IH, size_union, size_singleton by set_solver. lia.
Qed.

(** A node and a set that does not contain it weigh no more than all together. *)
Lemma sum_over_node w x X Y : x ∉ X -> x ∈ Y -> X ⊆ Y -> (forall y, y ∈ Y -> 0 <= w y) -> w x + sum_over w X <= sum_over w Y.
Proof. intros. rewrite <- sum_over_insert by done. apply sum_over_subset; set_solver. Qed.

(** One weight changes. *)
Lemma sum_over_update w w' x X : x ∈ X -> (forall y, y ∈ X -> y <> x -> w' y = w y) -> sum_over w' X = sum_over w X - w x + w' x.
Proof.
  intros Hx Hw. rewrite (union_difference_L {[x]} X) by set_solver. rewrite !sum_over_insert by set_solver.
  rewrite (sum_over_ext w' w (X ∖ {[x]})) by set_solver. lia.
Qed.

(** Elements of weight zero do not count. *)
Lemma sum_over_support w X Y : X ⊆ Y -> (forall y, y ∈ Y -> y ∉ X -> w y = 0) -> sum_over w Y = sum_over w X.
Proof.
  intros Hs H0. rewrite (union_difference_L X Y), sum_over_union by set_solver.
  assert (sum_over w (Y ∖ X) = 0) as ->; [|lia].
  rewrite (sum_over_ext w (fun _ => 0)) by set_solver.
  induction (Y ∖ X) as [|x Z Hx IH] using set_ind_L; [by rewrite sum_over_empty|]. by rewrite sum_over_insert, IH.
Qed.

End Sums.

(** ** Reachability *)

Section Reach.
Context {A : Type} `{Countable A}.
Implicit Types (g : A -> gset A) (X Y S : gset A).

Definition edge g : relation A := fun x y => y ∈ g x.

(** The nodes that are reached from [x] in at least one step. *)
Definition is_reach g x X : Prop := forall y, y ∈ X <-> tc (edge g) x y.

Definition acyclic g : Prop := forall x, ~ tc (edge g) x x.

Lemma is_reach_unique g x X Y : is_reach g x X -> is_reach g x Y -> X = Y.
Proof. intros HX HY. apply set_eq. intros y. by rewrite (HX y), (HY y). Qed.

Lemma tc_edge_mono g g' x y : (forall x, g x ⊆ g' x) -> tc (edge g) x y -> tc (edge g') x y.
Proof. intros Hs. induction 1; [apply tc_once|eapply tc_l; [|done]]; by apply Hs. Qed.

Lemma tc_last (R : relation A) x z : tc R x z -> R x z \/ exists y, tc R x y /\ R y z.
Proof. intros Ht. induction Ht as [x y Hs|x y z Hs Ht IH]; [by left|]. right. destruct IH as [|(u & Hu & Hl)]; [eauto using tc_once|eauto using tc_l]. Qed.

Lemma tc_first (R : relation A) x z : tc R x z -> exists y, R x y /\ rtc R y z.
Proof. intros Ht. destruct Ht as [x y Hs|x y z Hs Ht]; exists y; (split; [done|]); [apply rtc_refl|by apply tc_rtc]. Qed.

(** Following the edges backwards. *)
Lemma tc_transpose g g' x y : (forall x y, y ∈ g x <-> x ∈ g' y) -> tc (edge g) x y <-> tc (edge g') y x.
Proof.
  intros He. split; induction 1 as [a b Hs|a b c Hs Ht IH].
  - apply tc_once. by apply He.
  - eapply tc_r; [exact IH|]. by apply He.
  - apply tc_once. by apply He.
  - eapply tc_r; [exact IH|]. by apply He.
Qed.

(** A set that no edge leaves is not left by a path. *)
Lemma tc_closed g S x y : (forall z, z ∈ S -> g z ⊆ S) -> tc (edge g) x y -> x ∈ S -> y ∈ S.
Proof. intros Hc. induction 1 as [x y Hs|x y z Hs Ht IH]; intros Hx; [|apply IH]; by apply (Hc x). Qed.

(** Without a set that no edge leaves, the other nodes reach the rest of what they reached. *)
Lemma reach_remove_closed g g' S x X : (forall z, z ∈ S -> g z ⊆ S) -> (forall z, z ∉ S -> g' z = g z ∖ S) ->
  x ∉ S -> is_reach g x X -> is_reach g' x (X ∖ S).
Proof.
  intros Hc Hg Hx HX y. rewrite elem_of_difference, (HX y). clear X HX. split.
  - intros [Ht Hy]. induction Ht as [x y Hs|x y z Hs Ht IH].
    + apply tc_once. unfold edge. rewrite Hg by done. set_solver.
    + assert (y ∉ S) by (intros Hin; apply Hy; by apply (tc_closed g S y z)).
      eapply tc_l; [|by apply IH]. unfold edge. rewrite Hg by done. set_solver.
  - intros Ht. induction Ht as [x y Hs|x y z Hs Ht IH]; unfold edge in Hs; rewrite Hg in Hs by done.
    + split; [apply tc_once|]; set_solver.
    + destruct (IH ltac:(set_solver)) as [Ht' Hy]. split; [|done]. eapply tc_l; [|done]. set_solver.
Qed.

(** Without a set that no edge enters, the other nodes reach what they reached. *)
Lemma reach_remove_initial g g' S x X : (forall z, z ∉ S -> g z ## S) -> (forall z, z ∉ S -> g' z = g z) ->
  x ∉ S -> is_reach g x X -> is_reach g' x X /\ X ## S.
Proof.
  intros Hc Hg Hx HX. assert (Hc' : forall y, tc (edge g) x y -> tc (edge g') x y /\ y ∉ S).
  { intros y Ht. clear X HX. induction Ht as [x y Hs|x y z Hs Ht IH].
    - split; [apply tc_once; unfold edge; by rewrite Hg|]. specialize (Hc x Hx). set_solver.
    - assert (y ∉ S) by (specialize (Hc x Hx); set_solver). destruct (IH ltac:(done)) as [Ht' Hz].
      split; [|done]. eapply tc_l; [|done]. unfold edge. by rewrite Hg. }
  split.
  - intros y. rewrite (HX y). split; [intros Ht; by apply Hc'|]. clear X HX Hc'. intros Ht.
    induction Ht as [x y Hs|x y z Hs Ht IH]; unfold edge in Hs; rewrite Hg in Hs by done; [by apply tc_once|].
    eapply tc_l; [done|]. apply IH. specialize (Hc x Hx). set_solver.
  - intros y Hy HyS. apply HX in Hy. by apply Hc' in Hy as [_ Hy].
Qed.

Lemma acyclic_sub g g' : (forall x, g' x ⊆ g x) -> acyclic g -> acyclic g'.
Proof. intros Hs Ha x Ht. apply (Ha x). by apply (tc_edge_mono g'). Qed.

(** ** The search *)

(** One round of a search moves a node from the stage to the nodes seen and puts
    its new neighbours on the stage. *)
Record searching g (start stage seen : gset A) : Prop := mkSearching {
  searching_disjoint : stage ## seen;
  searching_start : start ⊆ stage ∪ seen;
  searching_next x : x ∈ seen -> g x ⊆ stage ∪ seen
}.

Lemma searching_round g start stage seen x : searching g start stage seen -> x ∈ stage ->
  searching g start (stage ∖ {[x]} ∪ g x ∖ ({[x]} ∪ seen)) ({[x]} ∪ seen).
Proof.
  intros [Hd Hs Hn] Hx. constructor; [set_solver| |].
  - intros y Hy. specialize (Hs y Hy). destruct (decide (y = x)); set_solver.
  - intros y Hy z Hz. destruct (decide (z ∈ {[x]} ∪ seen)) as [|Hns]; [set_solver|].
    apply elem_of_union in Hy as [->%elem_of_singleton|Hy]; [set_solver|]. specialize (Hn y Hy z Hz). set_solver.
Qed.

(** What the search only ever meets. *)
Lemma searching_sound g (P : A -> Prop) stage seen x : (forall y z, P y -> z ∈ g y -> P z) ->
  (forall y, y ∈ stage ∪ seen -> P y) -> x ∈ stage ->
  forall y, y ∈ (stage ∖ {[x]} ∪ g x ∖ ({[x]} ∪ seen)) ∪ ({[x]} ∪ seen) -> P y.
Proof.
  intros Hc Hp Hx y Hy. destruct (decide (y ∈ stage ∪ seen)) as [Hin|Hin]; [by apply Hp|].
  apply (Hc x y); [apply Hp; set_solver|]. set_solver.
Qed.

(** When the stage is empty the nodes seen are a closed set. *)
Lemma searching_done g start seen y : searching g start ∅ seen ->
  (exists s, s ∈ start /\ rtc (edge g) s y) -> y ∈ seen.
Proof.
  intros [_ Hs Hn] (s & Hin & Ht). assert (Hy : s ∈ seen) by set_solver. clear Hs Hin.
  induction Ht as [|a b c Hab Ht IH]; [done|]. apply IH. specialize (Hn a Hy b Hab). set_solver.
Qed.

(** The number of nodes not seen decreases. *)
Lemma search_measure (U stage seen : gset A) x : x ∈ stage -> stage ## seen -> stage ⊆ U ->
  (size (U ∖ ({[x]} ∪ seen)) < size (U ∖ seen))%nat.
Proof. intros Hx Hd Hu. apply subset_size. split; [set_solver|]. intros Hs. specialize (Hs x). set_solver. Qed.

(** The nodes reached from [x] are those reached from its neighbours or equal to one. *)
Lemma reach_from_neighbours g x y : (exists s, s ∈ g x /\ rtc (edge g) s y) <-> tc (edge g) x y.
Proof.
  split.
  - intros (s & Hs & Ht). eapply tc_rtc_r; [by apply tc_once|done].
  - intros Ht. exact (tc_first _ _ _ Ht).
Qed.

(** All nodes that are reached, with a bound on the number of rounds. *)
Fixpoint closure (fuel : nat) g (stage seen : gset A) : gset A :=
  match elements stage, fuel with
  | x :: _, Datatypes.S fuel => closure fuel g (stage ∖ {[x]} ∪ g x ∖ ({[x]} ∪ seen)) ({[x]} ∪ seen)
  | _, _ => seen
  end.

Definition reach_set (fuel : nat) g x : gset A := closure fuel g (g x) ∅.

Lemma closure_spec g (U start : gset A) (P : A -> Prop) fuel : (forall y, g y ⊆ U) -> (forall y z, P y -> z ∈ g y -> P z) ->
  forall stage seen, (size (U ∖ seen) <= fuel)%nat -> stage ⊆ U -> searching g start stage seen ->
  (forall y, y ∈ stage ∪ seen -> P y) ->
  forall y, y ∈ closure fuel g stage seen -> P y.
Proof.
  intros HU HP. induction fuel as [|fuel IH]; intros stage seen Hf Hs Hi Hin y Hy; cbn [closure] in Hy.
  - apply Hin. destruct (elements stage); set_solver.
  - destruct (elements stage) as [|x l] eqn:E; [apply Hin; set_solver|].
    assert (Hx : x ∈ stage) by (apply elem_of_elements; rewrite E; left).
    pose proof (search_measure U stage seen x Hx (searching_disjoint _ _ _ _ Hi) Hs).
    apply IH in Hy; [done|lia|set_solver|by apply searching_round|]. by apply searching_sound.
Qed.

Lemma closure_complete g (U start : gset A) fuel : (forall y, g y ⊆ U) ->
  forall stage seen, (size (U ∖ seen) <= fuel)%nat -> stage ⊆ U -> searching g start stage seen ->
  forall y, (exists s, s ∈ start /\ rtc (edge g) s y) -> y ∈ closure fuel g stage seen.
Proof.
  intros HU. induction fuel as [|fuel IH]; intros stage seen Hf Hs Hi y Hy; cbn [closure].
  - assert (stage = ∅) as ->.
    { apply set_eq. intros x. split; [|set_solver]. intros Hx.
      pose proof (search_measure U stage seen x Hx (searching_disjoint _ _ _ _ Hi) Hs). lia. }
    rewrite elements_empty. by apply (searching_done g start).
  - destruct (elements stage) as [|x l] eqn:E.
    + apply elements_empty_inv in E. apply (searching_done g start); [|done]. by rewrite <- (leibniz_equiv _ _ E).
    + assert (Hx : x ∈ stage) by (apply elem_of_elements; rewrite E; left).
      pose proof (search_measure U stage seen x Hx (searching_disjoint _ _ _ _ Hi) Hs).
      apply IH; [lia|set_solver|by apply searching_round|done].
Qed.

Lemma searching_init g start : searching g start start ∅.
Proof. constructor; set_solver. Qed.

Lemma reach_set_spec g (U : gset A) fuel x : (forall y, g y ⊆ U) -> (size U <= fuel)%nat -> is_reach g x (reach_set fuel g x).
Proof.
  intros HU Hf y. unfold reach_set. split.
  - intros Hy. apply (closure_spec g U (g x) (fun y => tc (edge g) x y) fuel HU) in Hy; [done| | |done| |].
    + intros z z' Hz Hz'. by eapply tc_r.
    + by rewrite difference_empty_L.
    + apply searching_init.
    + intros z Hz. apply tc_once. unfold edge. set_solver.
  - intros Hy. apply (closure_complete g U (g x)); [done| |done|apply searching_init|by apply reach_from_neighbours].
    by rewrite difference_empty_L.
Qed.

End Reach.

End TxGraph.
