(* ===== verification/MemPool.v ===== *)
(** * The memory pool (txmempool.h/.cpp, memusage.h)

    The pool keeps unconfirmed transactions with, for each, the number, size and
    fees of its ancestors and descendants in the pool, the links between parents
    and children, and the inputs that are spent.

    An iterator into [mapTx] is the hash of its transaction; a set of iterators
    ([setEntries]) is a [gset], walked in the order of the hashes.  The vector
    [vTxHashes] can outlive the entries it points to, so its iterators may be
    dangling ([None]).  A result [None] is a failed assertion, a dangling iterator
    or an index out of range; errors that are reported are values.  Sizes and
    layouts are those of a 64-bit target; what the C++ library chooses (vector
    capacities), floating point and the fee estimator are operations of the class
    [PoolEnv].  Left out are the priorities of entries (floating point), which no
    function here reads. *)

From stdpp Require Import base list list_numbers gmap fin_sets sorting numbers option.
From Stdlib Require Import ZArith Lia.
From S2P Require Import Prelude Serialize Script Transaction Interpreter InterpreterSafety Chain Coins Ledger TxVerify FluidDB TxGraph.

Local Open Scope Z_scope.

Module MemPool.
Import Serialize Script Transaction Interpreter Ledger TxGraph.

Abbreviation setEntries := (gset uint256).

(** ** Entries *)

Record LockPoints : Type := mkLockPoints { lp_height : Z; lp_time : Z; maxInputBlock : option nat }.

Record CTxMemPoolEntry : Type := mkTxEntry {
  entry_tx : CTransaction;
  nFee : Z;
  nTxSize : Z;
  nModSize : Z;
  nUsageSize : Z;
  entry_nTime : Z;
  entryHeight : Z;
  inChainInputValue : Z;
  spendsCoinbase : bool;
  sigOpCount : Z;
  feeDelta : Z;
  lockPoints : LockPoints;
  nCountWithDescendants : Z;
  nSizeWithDescendants : Z;
  nModFeesWithDescendants : Z;
  nCountWithAncestors : Z;
  nSizeWithAncestors : Z;
  nModFeesWithAncestors : Z;
  nSigOpCountWithAncestors : Z;
  vTxHashesIdx : Z
}.

(** The constructor; [usage] is the memory of the transaction, which depends on
    the capacities of its vectors. *)
Definition new_entry (tx : CTransaction) (fee time height inChain : Z) (coinbase : bool) (sigOps : Z) (lp : LockPoints) (usage : Z)
  : option CTxMemPoolEntry :=
  let size := GetTotalSize tx in
  out ← GetValueOut tx;
  if inChain <=? i64 (out + fee) then
    Some (mkTxEntry tx fee size (CalculateModifiedSize tx size) usage time height inChain coinbase sigOps 0 lp
            1 size fee 1 size fee sigOps 0)
  else None.

Definition GetModifiedFee (e : CTxMemPoolEntry) : Z := i64 (nFee e + feeDelta e).

(** The entry with other totals of its descendants or ancestors, or another
    delta, lock points or index. *)
Definition with_descendants (e : CTxMemPoolEntry) (count size fees : Z) : CTxMemPoolEntry :=
  mkTxEntry (entry_tx e) (nFee e) (nTxSize e) (nModSize e) (nUsageSize e) (entry_nTime e) (entryHeight e) (inChainInputValue e)
    (spendsCoinbase e) (sigOpCount e) (feeDelta e) (lockPoints e) count size fees
    (nCountWithAncestors e) (nSizeWithAncestors e) (nModFeesWithAncestors e) (nSigOpCountWithAncestors e) (vTxHashesIdx e).
Definition with_ancestors (e : CTxMemPoolEntry) (count size fees sigOps : Z) : CTxMemPoolEntry :=
  mkTxEntry (entry_tx e) (nFee e) (nTxSize e) (nModSize e) (nUsageSize e) (entry_nTime e) (entryHeight e) (inChainInputValue e)
    (spendsCoinbase e) (sigOpCount e) (feeDelta e) (lockPoints e)
    (nCountWithDescendants e) (nSizeWithDescendants e) (nModFeesWithDescendants e) count size fees sigOps (vTxHashesIdx e).
Definition with_delta (e : CTxMemPoolEntry) (delta feesDesc feesAnc : Z) : CTxMemPoolEntry :=
  mkTxEntry (entry_tx e) (nFee e) (nTxSize e) (nModSize e) (nUsageSize e) (entry_nTime e) (entryHeight e) (inChainInputValue e)
    (spendsCoinbase e) (sigOpCount e) delta (lockPoints e)
    (nCountWithDescendants e) (nSizeWithDescendants e) feesDesc
    (nCountWithAncestors e) (nSizeWithAncestors e) feesAnc (nSigOpCountWithAncestors e) (vTxHashesIdx e).
Definition with_lock_points (e : CTxMemPoolEntry) (lp : LockPoints) : CTxMemPoolEntry :=
  mkTxEntry (entry_tx e) (nFee e) (nTxSize e) (nModSize e) (nUsageSize e) (entry_nTime e) (entryHeight e) (inChainInputValue e)
    (spendsCoinbase e) (sigOpCount e) (feeDelta e) lp
    (nCountWithDescendants e) (nSizeWithDescendants e) (nModFeesWithDescendants e)
    (nCountWithAncestors e) (nSizeWithAncestors e) (nModFeesWithAncestors e) (nSigOpCountWithAncestors e) (vTxHashesIdx e).
Definition with_index (e : CTxMemPoolEntry) (idx : Z) : CTxMemPoolEntry :=
  mkTxEntry (entry_tx e) (nFee e) (nTxSize e) (nModSize e) (nUsageSize e) (entry_nTime e) (entryHeight e) (inChainInputValue e)
    (spendsCoinbase e) (sigOpCount e) (feeDelta e) (lockPoints e)
    (nCountWithDescendants e) (nSizeWithDescendants e) (nModFeesWithDescendants e)
    (nCountWithAncestors e) (nSizeWithAncestors e) (nModFeesWithAncestors e) (nSigOpCountWithAncestors e) idx.

Definition UpdateFeeDelta (newFeeDelta : Z) (e : CTxMemPoolEntry) : option CTxMemPoolEntry :=
  Some (with_delta e newFeeDelta
          (i64 (nModFeesWithDescendants e + i64 (newFeeDelta - feeDelta e)))
          (i64 (nModFeesWithAncestors e + i64 (newFeeDelta - feeDelta e)))).

Definition UpdateDescendantState (modifySize modifyFee modifyCount : Z) (e : CTxMemPoolEntry) : option CTxMemPoolEntry :=
  let size := u64 (nSizeWithDescendants e + modifySize) in
  let count := u64 (nCountWithDescendants e + modifyCount) in
  if (0 <? i64 size) && (0 <? i64 count)
  then Some (with_descendants e count size (i64 (nModFeesWithDescendants e + modifyFee)))
  else None.

Definition UpdateAncestorState (modifySize modifyFee modifyCount modifySigOps : Z) (e : CTxMemPoolEntry) : option CTxMemPoolEntry :=
  let size := u64 (nSizeWithAncestors e + modifySize) in
  let count := u64 (nCountWithAncestors e + modifyCount) in
  let sigOps := u32 (nSigOpCountWithAncestors e + modifySigOps) in
  if (0 <? i64 size) && (0 <? i64 count) && (0 <=? i32 sigOps)
  then Some (with_ancestors e count size (i64 (nModFeesWithAncestors e + modifyFee)) sigOps)
  else None.

(** ** Memory *)

(** [MallocUsage] on a 64-bit target. *)
Definition MallocUsage (alloc : Z) : Z := if alloc =? 0 then 0 else Z.shiftl (Z.shiftr (u64 (alloc + 31)) 4) 4.

(** The node of a tree: a colour, three pointers and the value. *)
Definition tree_node (value : Z) : Z := 8 + 3 * 8 + value.

(** The memory of one element of a [setEntries], which is one pointer. *)
Definition set_node_usage : Z := MallocUsage (tree_node 8).
Definition set_usage (s : setEntries) : Z := set_node_usage * Z.of_nat (size s).

(** ** The pool *)

Record TxLinks : Type := mkLinks { parents : setEntries; children : setEntries }.

Inductive MemPoolRemovalReason : Type := UNKNOWN | EXPIRY | SIZELIMIT | REORG | BLOCK | CONFLICT | REPLACED.

(** The signals that the pool sends. *)
Inductive notification : Type :=
  | NotifyEntryAdded (tx : CTransaction)
  | NotifyEntryRemoved (tx : CTransaction) (reason : MemPoolRemovalReason).

(** The keys of the address index, and its entries. *)
Record CMempoolAddressDeltaKey : Type := mkDeltaKey { dk_type : Z; addressBytes : list Z; dk_txhash : uint256; dk_index : Z; spending : Z }.
#[export] Instance CMempoolAddressDeltaKey_eq_dec : EqDecision CMempoolAddressDeltaKey.
Proof. solve_decision. Defined.
#[export] Instance CMempoolAddressDeltaKey_countable : Countable CMempoolAddressDeltaKey.
Proof.
  apply (inj_countable' (fun k => (dk_type k, addressBytes k, dk_txhash k, dk_index k, spending k))
           (fun '(a, b, c, d, e) => mkDeltaKey a b c d e)). by intros [].
Defined.
Record CMempoolAddressDelta : Type := mkDelta { delta_time : Z; delta_amount : Z; delta_prevhash : uint256; delta_prevout : Z }.
Record CSpentIndexValue : Type := mkSpentValue {
  sv_txid : uint256; sv_inputIndex : Z; sv_blockHeight : Z; sv_satoshis : Z; sv_addressType : Z; sv_addressHash : list Z }.

(** What is not part of this file: the estimator of fees, doubles, and the
    layout and growth of vectors.  [d_decay x t h] is [x / pow(2.0, t / h)]. *)
Class PoolEnv : Type := {
  estimator : Type;
  est_new : Z -> estimator;
  est_processTransaction : estimator -> CTxMemPoolEntry -> bool -> estimator;
  est_processBlock : estimator -> Z -> list CTxMemPoolEntry -> estimator;
  est_removeTx : estimator -> uint256 -> estimator;
  double : Type;
  d_of : Z -> double;
  d_ltb : double -> double -> bool;
  d_eqb : double -> double -> bool;
  d_trunc : double -> Z;
  d_half : double -> double;
  d_decay : double -> Z -> Z -> double;
  sizeof_entry : Z;
  vec_grow : Z -> Z;
  vec_shrink : Z -> Z -> Z
}.

Section Pool.
Context `{!Crypto} `{!PoolEnv} `{!TxVerify.Protocols}.

Record CTxMemPool : Type := mkPool {
  nCheckFrequency : Z;
  nTransactionsUpdated : Z;
  minerPolicyEstimator : estimator;
  totalTxSize : Z;
  cachedInnerUsage : Z;
  lastRollingFeeUpdate : Z;
  blockSinceLastRollingFeeBump : bool;
  rollingMinimumFeeRate : double;
  mapTx : gmap uint256 CTxMemPoolEntry;
  vTxHashes : list (uint256 * option uint256);
  vTxHashes_capacity : Z;
  mapLinks : gmap uint256 TxLinks;
  mapAddress : gmap CMempoolAddressDeltaKey CMempoolAddressDelta;
  mapAddressInserted : gmap uint256 (list CMempoolAddressDeltaKey);
  mapSpent : gmap COutPoint CSpentIndexValue;
  mapSpentInserted : gmap uint256 (list COutPoint);
  mapNextTx : gmap COutPoint uint256;
  mapDeltas : gmap uint256 Z;
  notifications : list notification
}.
Implicit Types pool : CTxMemPool.

Definition set_entries pool (m : gmap uint256 CTxMemPoolEntry) : CTxMemPool :=
  mkPool (nCheckFrequency pool) (nTransactionsUpdated pool) (minerPolicyEstimator pool) (totalTxSize pool) (cachedInnerUsage pool) (lastRollingFeeUpdate pool)
    (blockSinceLastRollingFeeBump pool) (rollingMinimumFeeRate pool) m (vTxHashes pool) (vTxHashes_capacity pool) (mapLinks pool)
    (mapAddress pool) (mapAddressInserted pool) (mapSpent pool) (mapSpentInserted pool) (mapNextTx pool) (mapDeltas pool) (notifications pool).
Definition set_links pool (l : gmap uint256 TxLinks) (usage : Z) : CTxMemPool :=
  mkPool (nCheckFrequency pool) (nTransactionsUpdated pool) (minerPolicyEstimator pool) (totalTxSize pool) usage (lastRollingFeeUpdate pool)
    (blockSinceLastRollingFeeBump pool) (rollingMinimumFeeRate pool) (mapTx pool) (vTxHashes pool) (vTxHashes_capacity pool) l
    (mapAddress pool) (mapAddressInserted pool) (mapSpent pool) (mapSpentInserted pool) (mapNextTx pool) (mapDeltas pool) (notifications pool).
Definition set_deltas pool (d : gmap uint256 Z) : CTxMemPool :=
  mkPool (nCheckFrequency pool) (nTransactionsUpdated pool) (minerPolicyEstimator pool) (totalTxSize pool) (cachedInnerUsage pool) (lastRollingFeeUpdate pool)
    (blockSinceLastRollingFeeBump pool) (rollingMinimumFeeRate pool) (mapTx pool) (vTxHashes pool) (vTxHashes_capacity pool) (mapLinks pool)
    (mapAddress pool) (mapAddressInserted pool) (mapSpent pool) (mapSpentInserted pool) (mapNextTx pool) d (notifications pool).
Definition set_estimator pool (est : estimator) : CTxMemPool :=
  mkPool (nCheckFrequency pool) (nTransactionsUpdated pool) est (totalTxSize pool) (cachedInnerUsage pool) (lastRollingFeeUpdate pool)
    (blockSinceLastRollingFeeBump pool) (rollingMinimumFeeRate pool) (mapTx pool) (vTxHashes pool) (vTxHashes_capacity pool) (mapLinks pool)
    (mapAddress pool) (mapAddressInserted pool) (mapSpent pool) (mapSpentInserted pool) (mapNextTx pool) (mapDeltas pool) (notifications pool).
Definition set_rolling pool (update : Z) (bump : bool) (rate : double) : CTxMemPool :=
  mkPool (nCheckFrequency pool) (nTransactionsUpdated pool) (minerPolicyEstimator pool) (totalTxSize pool) (cachedInnerUsage pool) update
    bump rate (mapTx pool) (vTxHashes pool) (vTxHashes_capacity pool) (mapLinks pool)
    (mapAddress pool) (mapAddressInserted pool) (mapSpent pool) (mapSpentInserted pool) (mapNextTx pool) (mapDeltas pool) (notifications pool).
Definition set_indexes pool (a : gmap CMempoolAddressDeltaKey CMempoolAddressDelta) (ai : gmap uint256 (list CMempoolAddressDeltaKey))
  (sp : gmap COutPoint CSpentIndexValue) (si : gmap uint256 (list COutPoint)) : CTxMemPool :=
  mkPool (nCheckFrequency pool) (nTransactionsUpdated pool) (minerPolicyEstimator pool) (totalTxSize pool) (cachedInnerUsage pool) (lastRollingFeeUpdate pool)
    (blockSinceLastRollingFeeBump pool) (rollingMinimumFeeRate pool) (mapTx pool) (vTxHashes pool) (vTxHashes_capacity pool) (mapLinks pool)
    a ai sp si (mapNextTx pool) (mapDeltas pool) (notifications pool).

(** ** Walking sets and changing entries *)

(** The order of [CompareIteratorByHash]. *)
Definition hash_le (a b : uint256) : Prop := FluidDB.bytes_lt b a = false.
#[export] Instance hash_le_dec : RelDecision hash_le.
Proof. intros a b. unfold hash_le. apply _. Defined.

Definition in_hash_order (s : setEntries) : list uint256 := merge_sort hash_le (elements s).

(** [*s.begin()]. *)
Definition begin (s : setEntries) : option uint256 := head (in_hash_order s).

(** A loop whose body can fail. *)
Fixpoint each {X S : Type} (body : X -> S -> option S) (l : list X) (s : S) : option S :=
  match l with
  | [] => Some s
  | x :: l => s ← body x s; each body l s
  end.

Definition modify (it : uint256) (f : CTxMemPoolEntry -> option CTxMemPoolEntry) pool : option CTxMemPool :=
  e ← mapTx pool !! it; e ← f e; Some (set_entries pool (<[it := e]> (mapTx pool))).

Definition GetMemPoolParents pool (entry : uint256) : option setEntries := parents <$> mapLinks pool !! entry.
Definition GetMemPoolChildren pool (entry : uint256) : option setEntries := children <$> mapLinks pool !! entry.

Definition links_at pool (entry : uint256) : TxLinks := default (mkLinks ∅ ∅) (mapLinks pool !! entry).

Definition UpdateChild (entry child : uint256) (add : bool) pool : CTxMemPool :=
  let l := links_at pool entry in
  let usage := cachedInnerUsage pool in
  if add then
    set_links pool (<[entry := mkLinks (parents l) ({[child]} ∪ children l)]> (mapLinks pool))
      (if bool_decide (child ∈ children l) then usage else u64 (usage + set_node_usage))
  else
    set_links pool (<[entry := mkLinks (parents l) (children l ∖ {[child]})]> (mapLinks pool))
      (if bool_decide (child ∈ children l) then u64 (usage - set_node_usage) else usage).

Definition UpdateParent (entry parent : uint256) (add : bool) pool : CTxMemPool :=
  let l := links_at pool entry in
  let usage := cachedInnerUsage pool in
  if add then
    set_links pool (<[entry := mkLinks ({[parent]} ∪ parents l) (children l)]> (mapLinks pool))
      (if bool_decide (parent ∈ parents l) then usage else u64 (usage + set_node_usage))
  else
    set_links pool (<[entry := mkLinks (parents l ∖ {[parent]}) (children l)]> (mapLinks pool))
      (if bool_decide (parent ∈ parents l) then u64 (usage - set_node_usage) else usage).

(** ** Ancestors and descendants *)

(** The reasons for which [CalculateMemPoolAncestors] returns [false]. *)
Inductive ancestor_error : Type :=
  | TooManyParents
  | DescendantSizeLimit (hash : uint256)
  | TooManyDescendants (hash : uint256)
  | AncestorSizeLimit
  | TooManyAncestors.

Record ancestor_limits : Type := mkLimits {
  limitAncestorCount : Z; limitAncestorSize : Z; limitDescendantCount : Z; limitDescendantSize : Z }.

Definition nNoLimit : Z := 2 ^ 64 - 1.
Definition no_limits : ancestor_limits := mkLimits nNoLimit nNoLimit nNoLimit nNoLimit.

(** The parents that the inputs name, and whether they were too many. *)
Fixpoint search_parents pool (lim : ancestor_limits) (vin : list CTxIn) (parentHashes : setEntries) : bool * setEntries :=
  match vin with
  | [] => (true, parentHashes)
  | txin :: vin =>
      let h := hash (prevout txin) in
      match mapTx pool !! h with
      | Some _ =>
          let parentHashes := {[h]} ∪ parentHashes in
          if limitAncestorCount lim <? Z.of_nat (size parentHashes) + 1 then (false, parentHashes)
          else search_parents pool lim vin parentHashes
      | None => search_parents pool lim vin parentHashes
      end
  end.

(** The parents of one ancestor are put on the stage. *)
Fixpoint stage_parents (lim : ancestor_limits) (setAncestors : setEntries) (ps : list uint256) (parentHashes : setEntries) : bool * setEntries :=
  match ps with
  | [] => (true, parentHashes)
  | phash :: ps =>
      let parentHashes := if bool_decide (phash ∈ setAncestors) then parentHashes else {[phash]} ∪ parentHashes in
      if limitAncestorCount lim <? Z.of_nat (size parentHashes) + Z.of_nat (size setAncestors) + 1 then (false, parentHashes)
      else stage_parents lim setAncestors ps parentHashes
  end.

Fixpoint ancestors_loop (fuel : nat) pool (lim : ancestor_limits) (entry : CTxMemPoolEntry)
  (parentHashes setAncestors : setEntries) (total : Z) : option (option ancestor_error * setEntries) :=
  match begin parentHashes with
  | None => Some (None, setAncestors)
  | Some stageit =>
      match fuel with
      | O => None
      | S fuel =>
          e ← mapTx pool !! stageit;
          let setAncestors := {[stageit]} ∪ setAncestors in
          let parentHashes := parentHashes ∖ {[stageit]} in
          let total := u64 (total + nTxSize e) in
          if limitDescendantSize lim <? u64 (nSizeWithDescendants e + nTxSize entry) then Some (Some (DescendantSizeLimit stageit), setAncestors)
          else if limitDescendantCount lim <? u64 (nCountWithDescendants e + 1) then Some (Some (TooManyDescendants stageit), setAncestors)
          else if limitAncestorSize lim <? total then Some (Some AncestorSizeLimit, setAncestors)
          else
            ps ← GetMemPoolParents pool stageit;
            match stage_parents lim setAncestors (in_hash_order ps) parentHashes with
            | (false, _) => Some (Some TooManyAncestors, setAncestors)
            | (true, parentHashes) => ancestors_loop fuel pool lim entry parentHashes setAncestors total
            end
      end
  end.

(** Whether a limit was exceeded, and the ancestors found until then. *)
Definition CalculateMemPoolAncestors pool (entry : CTxMemPoolEntry) (setAncestors : setEntries) (lim : ancestor_limits) (fSearchForParents : bool)
  : option (option ancestor_error * setEntries) :=
  let run parentHashes := ancestors_loop (size (mapTx pool)) pool lim entry parentHashes setAncestors (nTxSize entry) in
  if fSearchForParents then
    match search_parents pool lim (vin (entry_tx entry)) ∅ with
    | (false, _) => Some (Some TooManyParents, setAncestors)
    | (true, parentHashes) => run parentHashes
    end
  else
    ps ← GetMemPoolParents pool (GetHash (entry_tx entry)); run ps.

Fixpoint descendants_loop (fuel : nat) pool (stage setDescendants : setEntries) : option setEntries :=
  match begin stage with
  | None => Some setDescendants
  | Some it =>
      match fuel with
      | O => None
      | S fuel =>
          let setDescendants := {[it]} ∪ setDescendants in
          let stage := stage ∖ {[it]} in
          setChildren ← GetMemPoolChildren pool it;
          descendants_loop fuel pool (stage ∪ setChildren ∖ setDescendants) setDescendants
      end
  end.

Definition CalculateDescendants pool (entryit : uint256) (setDescendants : setEntries) : option setEntries :=
  descendants_loop (size (mapTx pool)) pool (if bool_decide (entryit ∈ setDescendants) then ∅ else {[entryit]}) setDescendants.

(** ** Keeping the totals *)

Definition update_count (add : bool) : Z := if add then 1 else -1.

Definition UpdateAncestorsOf (add : bool) (it : uint256) (setAncestors : setEntries) pool : option CTxMemPool :=
  parentIters ← GetMemPoolParents pool it;
  let pool := foldl (fun pool piter => UpdateChild piter it add pool) pool (in_hash_order parentIters) in
  e ← mapTx pool !! it;
  let updateCount := update_count add in
  let updateSize := i64 (updateCount * nTxSize e) in
  let updateFee := i64 (updateCount * GetModifiedFee e) in
  each (fun ancestorIt => modify ancestorIt (UpdateDescendantState updateSize updateFee updateCount)) (in_hash_order setAncestors) pool.

(** The size, fees and signature operations of a list of entries. *)
Fixpoint sum_entries pool (l : list uint256) (sz fee sigOps : Z) : option (Z * Z * Z) :=
  match l with
  | [] => Some (sz, fee, sigOps)
  | it :: l => e ← mapTx pool !! it;
      sum_entries pool l (i64 (sz + nTxSize e)) (i64 (fee + GetModifiedFee e)) (i32 (sigOps + sigOpCount e))
  end.

Definition UpdateEntryForAncestors (it : uint256) (setAncestors : setEntries) pool : option CTxMemPool :=
  let updateCount := Z.of_nat (size setAncestors) in
  '(updateSize, updateFee, updateSigOps) ← sum_entries pool (in_hash_order setAncestors) 0 0 0;
  modify it (UpdateAncestorState updateSize updateFee updateCount updateSigOps) pool.

Definition UpdateChildrenForRemoval (it : uint256) pool : option CTxMemPool :=
  setMemPoolChildren ← GetMemPoolChildren pool it;
  Some (foldl (fun pool updateIt => UpdateParent updateIt it false pool) pool (in_hash_order setMemPoolChildren)).

(** The first loop of [UpdateForRemoveFromMempool]. *)
Definition forget_ancestor (removeIt : uint256) pool : option CTxMemPool :=
  setDescendants ← CalculateDescendants pool removeIt ∅;
  e ← mapTx pool !! removeIt;
  each (fun dit => modify dit (UpdateAncestorState (i64 (- nTxSize e)) (i64 (- GetModifiedFee e)) (-1) (i32 (- sigOpCount e))))
    (in_hash_order (setDescendants ∖ {[removeIt]})) pool.

(** Its second loop. *)
Definition forget_descendant (removeIt : uint256) pool : option CTxMemPool :=
  entry ← mapTx pool !! removeIt;
  '(_, setAncestors) ← CalculateMemPoolAncestors pool entry ∅ no_limits false;
  UpdateAncestorsOf false removeIt setAncestors pool.

Definition UpdateForRemoveFromMempool (entriesToRemove : setEntries) (updateDescendants : bool) pool : option CTxMemPool :=
  let l := in_hash_order entriesToRemove in
  pool ← (if updateDescendants then each forget_ancestor l pool else Some pool);
  pool ← each forget_descendant l pool;
  each UpdateChildrenForRemoval l pool.

(** ** Indexes by address and by spent output *)

Definition removeAddressIndex (txhash : uint256) pool : CTxMemPool :=
  match mapAddressInserted pool !! txhash with
  | Some keys => set_indexes pool (foldl (fun m k => delete k m) (mapAddress pool) keys) (delete txhash (mapAddressInserted pool))
                   (mapSpent pool) (mapSpentInserted pool)
  | None => pool
  end.

Definition removeSpentIndex (txhash : uint256) pool : CTxMemPool :=
  match mapSpentInserted pool !! txhash with
  | Some keys => set_indexes pool (mapAddress pool) (mapAddressInserted pool)
                   (foldl (fun m k => delete k m) (mapSpent pool) keys) (delete txhash (mapSpentInserted pool))
  | None => pool
  end.

(** ** Adding and removing one entry *)

(** [std::map::insert] keeps an entry that is there. *)
Definition insert_new {K V} `{Countable K} (k : K) (v : V) (m : gmap K V) : gmap K V :=
  match m !! k with Some _ => m | None => <[k := v]> m end.

Definition isSpent pool (outpoint : COutPoint) : bool := bool_decide (is_Some (mapNextTx pool !! outpoint)).

(** The fields that change when an entry arrives, before its ancestors are told:
    the entry, its links, its inputs and the memory. *)
Definition insert_entry (h : uint256) (entry : CTxMemPoolEntry) pool : CTxMemPool :=
  mkPool (nCheckFrequency pool) (nTransactionsUpdated pool) (minerPolicyEstimator pool) (totalTxSize pool) (u64 (cachedInnerUsage pool + nUsageSize entry))
    (lastRollingFeeUpdate pool) (blockSinceLastRollingFeeBump pool) (rollingMinimumFeeRate pool)
    (insert_new h entry (mapTx pool)) (vTxHashes pool) (vTxHashes_capacity pool) (insert_new h (mkLinks ∅ ∅) (mapLinks pool))
    (mapAddress pool) (mapAddressInserted pool) (mapSpent pool) (mapSpentInserted pool)
    (mapNextTx pool) (mapDeltas pool) (notifications pool ++ [NotifyEntryAdded (entry_tx entry)]).

Definition set_next pool (next : gmap COutPoint uint256) : CTxMemPool :=
  mkPool (nCheckFrequency pool) (nTransactionsUpdated pool) (minerPolicyEstimator pool) (totalTxSize pool) (cachedInnerUsage pool) (lastRollingFeeUpdate pool)
    (blockSinceLastRollingFeeBump pool) (rollingMinimumFeeRate pool) (mapTx pool) (vTxHashes pool) (vTxHashes_capacity pool) (mapLinks pool)
    (mapAddress pool) (mapAddressInserted pool) (mapSpent pool) (mapSpentInserted pool) next (mapDeltas pool) (notifications pool).

(** The counters, the estimator and the vector of hashes. *)
Definition append_hash (hash newit : uint256) (entry : CTxMemPoolEntry) (validFeeEstimate : bool) pool : CTxMemPool :=
  mkPool (nCheckFrequency pool) (u32 (nTransactionsUpdated pool + 1)) (est_processTransaction (minerPolicyEstimator pool) entry validFeeEstimate)
    (u64 (totalTxSize pool + nTxSize entry)) (cachedInnerUsage pool)
    (lastRollingFeeUpdate pool) (blockSinceLastRollingFeeBump pool) (rollingMinimumFeeRate pool)
    (mapTx pool) (vTxHashes pool ++ [(hash, Some newit)])
    (if vTxHashes_capacity pool =? zlen (vTxHashes pool) then vec_grow (vTxHashes_capacity pool) else vTxHashes_capacity pool)
    (mapLinks pool) (mapAddress pool) (mapAddressInserted pool) (mapSpent pool) (mapSpentInserted pool)
    (mapNextTx pool) (mapDeltas pool) (notifications pool).

(** The transactions whose outputs the inputs spend. *)
Definition setParentTransactions (tx : CTransaction) : gset uint256 := list_to_set ((fun i => hash (prevout i)) <$> vin tx).

Definition link_parent (newit phash : uint256) pool : CTxMemPool :=
  match mapTx pool !! phash with Some _ => UpdateParent newit phash true pool | None => pool end.

(** [addUnchecked] with the ancestors given. *)
Definition addUnchecked_with (hash : uint256) (entry : CTxMemPoolEntry) (setAncestors : setEntries) (validFeeEstimate : bool) pool : option CTxMemPool :=
  let newit := GetHash (entry_tx entry) in
  let pool := insert_entry newit entry pool in
  pool ← (match mapDeltas pool !! hash with
          | Some delta => if delta =? 0 then Some pool else modify newit (UpdateFeeDelta delta) pool
          | None => Some pool
          end);
  tx ← entry_tx <$> mapTx pool !! newit;
  let pool := set_next pool (foldl (fun m i => insert_new (prevout i) newit m) (mapNextTx pool) (vin tx)) in
  let pool := foldl (fun pool phash => link_parent newit phash pool) pool (in_hash_order (setParentTransactions tx)) in
  pool ← UpdateAncestorsOf true newit setAncestors pool;
  pool ← UpdateEntryForAncestors newit setAncestors pool;
  let pool := append_hash hash newit entry validFeeEstimate pool in
  modify newit (fun e => Some (with_index e (zlen (vTxHashes pool) - 1))) pool.

Definition addUnchecked (hash : uint256) (entry : CTxMemPoolEntry) (validFeeEstimate : bool) pool : option CTxMemPool :=
  '(_, setAncestors) ← CalculateMemPoolAncestors pool entry ∅ no_limits true;
  addUnchecked_with hash entry setAncestors validFeeEstimate pool.

Definition set_hashes pool (v : list (uint256 * option uint256)) (cap : Z) : CTxMemPool :=
  mkPool (nCheckFrequency pool) (nTransactionsUpdated pool) (minerPolicyEstimator pool) (totalTxSize pool) (cachedInnerUsage pool) (lastRollingFeeUpdate pool)
    (blockSinceLastRollingFeeBump pool) (rollingMinimumFeeRate pool) (mapTx pool) v cap (mapLinks pool)
    (mapAddress pool) (mapAddressInserted pool) (mapSpent pool) (mapSpentInserted pool) (mapNextTx pool) (mapDeltas pool) (notifications pool).

(** The vector gives the place of the removed entry to its last one. *)
Definition drop_hash (idx : Z) pool : option CTxMemPool :=
  let v := vTxHashes pool in
  if 1 <? zlen v then
    back ← v !! (length v - 1)%nat;
    _ ← v !! Z.to_nat idx;
    let v := <[Z.to_nat idx := back]> v in
    moved ← back.2;
    pool ← modify moved (fun e => Some (with_index e idx)) pool;
    let v := take (length v - 1) v in
    Some (set_hashes pool v
      (if zlen v * 2 <? vTxHashes_capacity pool then vec_shrink (vTxHashes_capacity pool) (zlen v) else vTxHashes_capacity pool))
  else Some (set_hashes pool [] (vTxHashes_capacity pool)).

(** The maps and counters without the entry. *)
Definition erase_entry (reason : MemPoolRemovalReason) (it : uint256) (e : CTxMemPoolEntry) pool : CTxMemPool :=
  let l := links_at pool it in
  let usage := u64 (u64 (cachedInnerUsage pool - nUsageSize e) - (set_usage (parents l) + set_usage (children l))) in
  mkPool (nCheckFrequency pool) (u32 (nTransactionsUpdated pool + 1)) (est_removeTx (minerPolicyEstimator pool) (GetHash (entry_tx e)))
    (u64 (totalTxSize pool - nTxSize e)) usage
    (lastRollingFeeUpdate pool) (blockSinceLastRollingFeeBump pool) (rollingMinimumFeeRate pool)
    (delete it (mapTx pool)) (vTxHashes pool) (vTxHashes_capacity pool) (delete it (mapLinks pool))
    (mapAddress pool) (mapAddressInserted pool) (mapSpent pool) (mapSpentInserted pool)
    (mapNextTx pool) (mapDeltas pool) (notifications pool ++ [NotifyEntryRemoved (entry_tx e) reason]).

Definition removeUnchecked (reason : MemPoolRemovalReason) (it : uint256) pool : option CTxMemPool :=
  e ← mapTx pool !! it;
  let h := GetHash (entry_tx e) in
  let pool := set_next pool (foldl (fun m o => delete o m) (mapNextTx pool) (prevout <$> vin (entry_tx e))) in
  pool ← drop_hash (vTxHashesIdx e) pool;
  Some (removeSpentIndex h (removeAddressIndex h (erase_entry reason it e pool))).

Definition RemoveStaged (stage : setEntries) (updateDescendants : bool) (reason : MemPoolRemovalReason) pool : option CTxMemPool :=
  pool ← UpdateForRemoveFromMempool stage updateDescendants pool;
  each (removeUnchecked reason) (in_hash_order stage) pool.

(** ** Removing transactions *)

(** The descendants of several entries. *)
Definition all_descendants pool (l : list uint256) (s : setEntries) : option setEntries := each (CalculateDescendants pool) l s.

(** The spenders, in the pool, of outputs of a transaction that is not. *)
Fixpoint spenders_of pool (h : uint256) (i : Z) (outs : list CTxOut) (txToRemove : setEntries) : option setEntries :=
  match outs with
  | [] => Some txToRemove
  | _ :: outs =>
      match mapNextTx pool !! mkCOutPoint h (u32 i) with
      | None => spenders_of pool h (i + 1) outs txToRemove
      | Some nextit => _ ← mapTx pool !! nextit; spenders_of pool h (i + 1) outs ({[nextit]} ∪ txToRemove)
      end
  end.

Definition removeRecursive (origTx : CTransaction) (reason : MemPoolRemovalReason) pool : option CTxMemPool :=
  txToRemove ← (match mapTx pool !! GetHash origTx with
                | Some _ => Some {[GetHash origTx]}
                | None => spenders_of pool (GetHash origTx) 0 (vout origTx) ∅
                end);
  setAllRemoves ← all_descendants pool (in_hash_order txToRemove) ∅;
  RemoveStaged setAllRemoves false reason pool.

Definition ClearPrioritisation (hash : uint256) pool : CTxMemPool := set_deltas pool (delete hash (mapDeltas pool)).

(** One input of [removeConflicts]. *)
Definition remove_conflict (tx : CTransaction) (txin : CTxIn) pool : option CTxMemPool :=
  match mapNextTx pool !! prevout txin with
  | Some it =>
      txConflict ← entry_tx <$> mapTx pool !! it;
      if bool_decide (GetHash txConflict = GetHash tx) then Some pool
      else removeRecursive txConflict CONFLICT (ClearPrioritisation (GetHash txConflict) pool)
  | None => Some pool
  end.

Definition removeConflicts (tx : CTransaction) pool : option CTxMemPool := each (remove_conflict tx) (vin tx) pool.

(** One transaction of the block in [removeForBlock]. *)
Definition remove_mined (tx : CTransaction) pool : option CTxMemPool :=
  let h := GetHash tx in
  pool ← (match mapTx pool !! h with Some _ => RemoveStaged {[h]} true BLOCK pool | None => Some pool end);
  pool ← removeConflicts tx pool;
  Some (ClearPrioritisation h pool).

Definition removeForBlock (vtx : list CTransaction) (nBlockHeight now : Z) pool : option CTxMemPool :=
  let entries := omap (fun tx => mapTx pool !! GetHash tx) vtx in
  let pool := set_estimator pool (est_processBlock (minerPolicyEstimator pool) nBlockHeight entries) in
  pool ← each remove_mined vtx pool;
  Some (set_rolling pool now true (rollingMinimumFeeRate pool)).

(** *** The lock points of an entry *)

Definition MEMPOOL_HEIGHT : Z := 0x7FFFFFFF.
Definition LOCKTIME_MEDIAN_TIME_PAST : Z := 2.

Definition get pool (h : uint256) : option CTransaction := entry_tx <$> mapTx pool !! h.

(** [CCoinsViewMemPool::GetCoin] over the coins of the chain. *)
Definition viewMemPool_GetCoin pool (coins : utxos) (outpoint : COutPoint) : option Coins.Coin :=
  match get pool (hash outpoint) with
  | Some ptx => out ← vout ptx !! Z.to_nat (n outpoint); Some (Coins.Coin_of out MEMPOOL_HEIGHT false)
  | None => coins !! outpoint
  end.

(** What [removeForReorg] reads of the node: the block index, the active chain,
    the coins of [pcoinsTip], the flags and the adjusted time. *)
Record reorg_view : Type := mkReorgView {
  rv_index : gmap nat Chain.CBlockIndex;
  rv_chainActive : Chain.CChain;
  rv_coins : utxos;
  rv_flags : Z;
  GetAdjustedTime : Z
}.

Definition view_AccessCoin (rv : reorg_view) (outpoint : COutPoint) : Coins.Coin := default Coins.coinEmpty (rv_coins rv !! outpoint).

Definition TestLockPointValidity (rv : reorg_view) (lp : LockPoints) : option bool :=
  match maxInputBlock lp with
  | Some p => Chain.Contains (rv_index rv) (rv_chainActive rv) p
  | None => Some true
  end.

Definition CheckFinalTx (rv : reorg_view) (tx : CTransaction) : option bool :=
  let flags := Z.max (rv_flags rv) 0 in
  let nBlockHeight := Chain.Height (rv_chainActive rv) + 1 in
  nBlockTime ← (if Z.land flags LOCKTIME_MEDIAN_TIME_PAST =? 0 then Some (GetAdjustedTime rv)
                else tip ← Chain.Tip (rv_chainActive rv); Chain.GetMedianTimePast (rv_index rv) tip);
  Some (TxVerify.IsFinalTx tx nBlockHeight nBlockTime).

(** The block index of the next block, on the stack: its parent is the tip. *)
Definition next_index (tip : nat) (h : Z) : Chain.CBlockIndex :=
  Chain.set_links (Chain.new_index [] (Chain.mkHeader 0 [] [] 0 0 0)) (Some tip) None h.
Definition next_block (T : gmap nat Chain.CBlockIndex) : nat := stdpp.base.fresh (dom T).
Definition with_next (T : gmap nat Chain.CBlockIndex) (tip : nat) (h : Z) : gmap nat Chain.CBlockIndex :=
  <[next_block T := next_index tip h]> T.

(** The heights of the coins that a transaction spends, [None] when one is missing;
    those of the pool count as confirmed in the next block. *)
Fixpoint prev_heights (rv : reorg_view) pool (nextHeight : Z) (vin : list CTxIn) : option (list Z) :=
  match vin with
  | [] => Some []
  | txin :: vin =>
      coin ← viewMemPool_GetCoin pool (rv_coins rv) (prevout txin);
      hs ← prev_heights rv pool nextHeight vin;
      Some ((if Coins.coin_nHeight coin =? MEMPOOL_HEIGHT then nextHeight else Coins.coin_nHeight coin) :: hs)
  end.

(** What [CalculateSequenceLocks] leaves in [prevHeights]: 0 for the inputs without a lock. *)
Definition locked_heights (tx : CTransaction) (flags : Z) (hs : list Z) : list Z :=
  if (u32 (nVersion tx) >=? 2) && negb (Z.land flags TxVerify.LOCKTIME_VERIFY_SEQUENCE =? 0) then
    zip_with (fun i h => if Z.land (nSequence i) SEQUENCE_LOCKTIME_DISABLE_FLAG =? 0 then h else 0) (vin tx) hs
  else hs.

(** The result and the lock points after the call. *)
Definition CheckSequenceLocks (rv : reorg_view) pool (tx : CTransaction) (lp : LockPoints) (useExistingLockPoints : bool) : option (bool * LockPoints) :=
  let T := rv_index rv in
  tip ← Chain.Tip (rv_chainActive rv);
  bt ← T !! tip;
  let h := Chain.nHeight bt + 1 in
  let index := next_block T in
  if useExistingLockPoints then
    ok ← TxVerify.EvaluateSequenceLocks (with_next T tip h) index (lp_height lp, lp_time lp); Some (ok, lp)
  else
    match prev_heights rv pool h (vin tx) with
    | None => Some (false, lp)
    | Some prevheights =>
        lockPair ← TxVerify.CalculateSequenceLocks (with_next T tip h) tx (rv_flags rv) prevheights index;
        let maxInputHeight := foldl (fun m height => if height =? h then m else Z.max m height) 0 (locked_heights tx (rv_flags rv) prevheights) in
        block ← Chain.GetAncestor T tip maxInputHeight;
        ok ← TxVerify.EvaluateSequenceLocks (with_next T tip h) index lockPair;
        Some (ok, mkLockPoints (fst lockPair) (snd lockPair) block)
    end.

(** Whether an input spends a coin that is gone or not yet mature; the assertion
    holds only while the pool is checked. *)
Fixpoint spends_immature (rv : reorg_view) (nMemPoolHeight : Z) pool (vin : list CTxIn) : option bool :=
  match vin with
  | [] => Some false
  | txin :: vin =>
      match mapTx pool !! hash (prevout txin) with
      | Some _ => spends_immature rv nMemPoolHeight pool vin
      | None =>
          let coin := view_AccessCoin rv (prevout txin) in
          if negb (nCheckFrequency pool =? 0) && Coins.IsSpent coin then None
          else if Coins.IsSpent coin || (Coins.coin_fCoinBase coin && (nMemPoolHeight - Coins.coin_nHeight coin <? COINBASE_MATURITY)) then Some true
          else spends_immature rv nMemPoolHeight pool vin
      end
  end.

(** One entry of the loop: whether it is to be removed, and the entry. *)
Definition reorg_entry (rv : reorg_view) (nMemPoolHeight : Z) (p : uint256 * CTxMemPoolEntry) (st : CTxMemPool * setEntries)
  : option (CTxMemPool * setEntries) :=
  let '(it, e) := p in
  let '(pool, txToRemove) := st in
  let tx := entry_tx e in
  validLP ← TestLockPointValidity rv (lockPoints e);
  isFinal ← CheckFinalTx rv tx;
  '(final, lp) ← (if isFinal : bool then CheckSequenceLocks rv pool tx (lockPoints e) validLP else Some (false, lockPoints e));
  remove ← (if negb final then Some true
            else if spendsCoinbase e then spends_immature rv nMemPoolHeight pool (vin tx) else Some false);
  pool ← (if validLP : bool then Some pool else modify it (fun e => Some (with_lock_points e lp)) pool);
  Some (pool, if remove : bool then {[it]} ∪ txToRemove else txToRemove).

Definition removeForReorg (rv : reorg_view) (nMemPoolHeight : Z) pool : option CTxMemPool :=
  '(pool, txToRemove) ← each (reorg_entry rv nMemPoolHeight) (map_to_list (mapTx pool)) (pool, ∅);
  setAllRemoves ← all_descendants pool (in_hash_order txToRemove) ∅;
  RemoveStaged setAllRemoves false REORG pool.

(** The entries die, and the vector keeps its iterators to them. *)
Definition clear (now : Z) pool : CTxMemPool :=
  mkPool (nCheckFrequency pool) (u32 (nTransactionsUpdated pool + 1)) (minerPolicyEstimator pool) 0 0 now false (d_of 0)
    ∅ ((fun p => (p.1, None)) <$> vTxHashes pool) (vTxHashes_capacity pool) ∅
    (mapAddress pool) (mapAddressInserted pool) (mapSpent pool) (mapSpentInserted pool) ∅ (mapDeltas pool) (notifications pool).

(** The constructor; [_clear] sets the members that have no initial value. *)
Definition new_pool (minReasonableRelayFee now : Z) : CTxMemPool :=
  clear now (mkPool 0 0 (est_new minReasonableRelayFee) 0 0 0 false (d_of 0) ∅ [] 0 ∅ ∅ ∅ ∅ ∅ ∅ ∅ []).

(** Old entries that InstantSend has not locked, and their descendants. *)
Definition Expire (locked : uint256 -> bool) (time : Z) pool : option (CTxMemPool * Z) :=
  let old := filter (fun p => (entry_nTime p.2 <? time) && negb (locked (GetHash (entry_tx p.2)))) (map_to_list (mapTx pool)) in
  let toremove : setEntries := list_to_set old.*1 in
  stage ← all_descendants pool (in_hash_order toremove) ∅;
  pool ← RemoveStaged stage false EXPIRY pool;
  Some (pool, Z.of_nat (size stage)).

(** ** Fees *)

Definition PrioritiseTransaction (hash : uint256) (nFeeDelta : Z) pool : option CTxMemPool :=
  let delta := i64 (default 0 (mapDeltas pool !! hash) + nFeeDelta) in
  let pool := set_deltas pool (<[hash := delta]> (mapDeltas pool)) in
  match mapTx pool !! hash with
  | None => Some pool
  | Some _ =>
      pool ← modify hash (UpdateFeeDelta delta) pool;
      e ← mapTx pool !! hash;
      '(_, setAncestors) ← CalculateMemPoolAncestors pool e ∅ no_limits false;
      pool ← each (fun it => modify it (UpdateDescendantState 0 nFeeDelta 0)) (in_hash_order setAncestors) pool;
      setDescendants ← CalculateDescendants pool hash ∅;
      each (fun it => modify it (UpdateAncestorState 0 nFeeDelta 0 0)) (in_hash_order (setDescendants ∖ {[hash]})) pool
  end.

Definition ApplyDeltas pool (hash : uint256) (nFeeDelta : Z) : Z :=
  match mapDeltas pool !! hash with Some d => i64 (nFeeDelta + d) | None => nFeeDelta end.

(** The nodes of the maps: two pointers; a hash and two numbers; a pointer and
    two sets. *)
Definition DynamicMemoryUsage pool : Z :=
  u64 (MallocUsage (sizeof_entry + 15 * 8) * Z.of_nat (size (mapTx pool)) +
       MallocUsage (tree_node 16) * Z.of_nat (size (mapNextTx pool)) +
       MallocUsage (tree_node 48) * Z.of_nat (size (mapDeltas pool)) +
       MallocUsage (tree_node (8 + 2 * 48)) * Z.of_nat (size (mapLinks pool)) +
       MallocUsage (vTxHashes_capacity pool * 40) + cachedInnerUsage pool).

Definition ROLLING_FEE_HALFLIFE : Z := 60 * 60 * 12.

(** A [CFeeRate] is its number of satoshis per kilobyte. *)
Definition GetMinFee (incrementalRelayFee now sizelimit : Z) pool : option (Z * CTxMemPool) :=
  let rate := rollingMinimumFeeRate pool in
  if negb (blockSinceLastRollingFeeBump pool) || d_eqb rate (d_of 0) then Some (d_trunc rate, pool)
  else if lastRollingFeeUpdate pool + 10 <? now then
    let halflife :=
      if DynamicMemoryUsage pool <? sizelimit / 4 then ROLLING_FEE_HALFLIFE / 4
      else if DynamicMemoryUsage pool <? sizelimit / 2 then ROLLING_FEE_HALFLIFE / 2
      else ROLLING_FEE_HALFLIFE in
    let rate := d_decay rate (now - lastRollingFeeUpdate pool) halflife in
    perK ← GetFee incrementalRelayFee 1000;
    if d_ltb rate (d_half (d_of perK)) then Some (0, set_rolling pool now true (d_of 0))
    else Some (Z.max (d_trunc rate) incrementalRelayFee, set_rolling pool now true rate)
  else Some (Z.max (d_trunc rate) incrementalRelayFee, pool).

Definition UpdateMinFee (minReasonableRelayFee : Z) pool : CTxMemPool := set_estimator pool (est_new minReasonableRelayFee).

Definition trackPackageRemoved (rate : Z) pool : option CTxMemPool :=
  perK ← GetFee rate 1000;
  Some (if d_ltb (rollingMinimumFeeRate pool) (d_of perK) then set_rolling pool (lastRollingFeeUpdate pool) false (d_of perK) else pool).

(** The inputs of removed transactions whose own transactions are not in the pool. *)
Definition outside_inputs pool (txn : list CTransaction) : list COutPoint :=
  tx ← txn; filter (fun o => mapTx pool !! hash o = None) (prevout <$> vin tx).

(** The loop of [TrimToSize]; [worst] is the first entry by descendant score. *)
Fixpoint trim_loop (fuel : nat) (worst : CTxMemPool -> uint256) (incrementalRelayFee sizelimit : Z) pool
  (nTxnRemoved maxFeeRateRemoved : Z) (noSpends : list COutPoint) : option (CTxMemPool * Z * Z * list COutPoint) :=
  if negb (bool_decide (mapTx pool = ∅)) && (sizelimit <? DynamicMemoryUsage pool) then
    match fuel with
    | O => None
    | S fuel =>
        let it := worst pool in
        e ← mapTx pool !! it;
        removed ← CFeeRate_of (nModFeesWithDescendants e) (nSizeWithDescendants e);
        let removed := i64 (removed + incrementalRelayFee) in
        pool ← trackPackageRemoved removed pool;
        stage ← CalculateDescendants pool it ∅;
        let txn := omap (fun h => entry_tx <$> mapTx pool !! h) (in_hash_order stage) in
        pool ← RemoveStaged stage false SIZELIMIT pool;
        trim_loop fuel worst incrementalRelayFee sizelimit pool (u32 (nTxnRemoved + Z.of_nat (size stage)))
          (Z.max maxFeeRateRemoved removed) (noSpends ++ outside_inputs pool txn)
    end
  else Some (pool, nTxnRemoved, maxFeeRateRemoved, noSpends).

Definition TrimToSize (worst : CTxMemPool -> uint256) (incrementalRelayFee sizelimit : Z) pool : option (CTxMemPool * Z * Z * list COutPoint) :=
  trim_loop (size (mapTx pool)) worst incrementalRelayFee sizelimit pool 0 0 [].

Definition TransactionWithinChainLimit pool (txid : uint256) (chainLimit : Z) : bool :=
  match mapTx pool !! txid with
  | None => true
  | Some e => (nCountWithAncestors e <? chainLimit) && (nCountWithDescendants e <? chainLimit)
  end.

(** ** Questions *)

Definition exists_tx pool (h : uint256) : bool := bool_decide (is_Some (mapTx pool !! h)).
Definition exists_output pool (o : COutPoint) : bool :=
  match mapTx pool !! hash o with Some e => n o <? zlen (vout (entry_tx e)) | None => false end.
Definition HasNoInputsOf pool (tx : CTransaction) : bool := forallb (fun i => negb (exists_tx pool (hash (prevout i)))) (vin tx).

(** ** Transactions that return from a disconnected block *)

Abbreviation cacheMap := (gmap uint256 setEntries).

(** The children of one descendant, in the loop of [UpdateForDescendants]. *)
Definition visit_child (cachedDescendants : cacheMap) (st : setEntries * setEntries) (childEntry : uint256) : setEntries * setEntries :=
  let '(stageEntries, setAllDescendants) := st in
  match cachedDescendants !! childEntry with
  | Some s => (stageEntries, setAllDescendants ∪ s)
  | None => if bool_decide (childEntry ∈ setAllDescendants) then st else ({[childEntry]} ∪ stageEntries, setAllDescendants)
  end.

Fixpoint descend_loop (fuel : nat) pool (cachedDescendants : cacheMap) (stageEntries setAllDescendants : setEntries) : option setEntries :=
  match begin stageEntries with
  | None => Some setAllDescendants
  | Some cit =>
      match fuel with
      | O => None
      | S fuel =>
          setChildren ← GetMemPoolChildren pool cit;
          let '(stageEntries, setAllDescendants) :=
            foldl (visit_child cachedDescendants) (stageEntries ∖ {[cit]}, {[cit]} ∪ setAllDescendants) (in_hash_order setChildren) in
          descend_loop fuel pool cachedDescendants stageEntries setAllDescendants
      end
  end.

(** The totals of the descendants, which learn of their ancestor. *)
Record descendant_sums : Type := mkSums { modifySize : Z; modifyFee : Z; modifyCount : Z }.

Definition add_descendant (updateIt : uint256) (setExclude : gset uint256) (cit : uint256)
  (st : CTxMemPool * cacheMap * descendant_sums) : option (CTxMemPool * cacheMap * descendant_sums) :=
  let '(pool, cache, s) := st in
  e ← mapTx pool !! cit;
  if bool_decide (GetHash (entry_tx e) ∈ setExclude) then Some st
  else
    u ← mapTx pool !! updateIt;
    pool ← modify cit (UpdateAncestorState (nTxSize u) (GetModifiedFee u) 1 (sigOpCount u)) pool;
    Some (pool, <[updateIt := {[cit]} ∪ default ∅ (cache !! updateIt)]> cache,
          mkSums (i64 (modifySize s + nTxSize e)) (i64 (modifyFee s + GetModifiedFee e)) (modifyCount s + 1)).

Definition UpdateForDescendants (updateIt : uint256) (setExclude : gset uint256) (st : CTxMemPool * cacheMap) : option (CTxMemPool * cacheMap) :=
  let '(pool, cache) := st in
  stageEntries ← GetMemPoolChildren pool updateIt;
  setAllDescendants ← descend_loop (size (mapTx pool)) pool cache stageEntries ∅;
  '(pool, cache, s) ← each (add_descendant updateIt setExclude) (in_hash_order setAllDescendants) (pool, cache, mkSums 0 0 0);
  pool ← modify updateIt (UpdateDescendantState (modifySize s) (modifyFee s) (modifyCount s)) pool;
  Some (pool, cache).

(** The spent outputs of a transaction and who spends them, in the order of the map. *)
Definition index_le (a b : COutPoint * uint256) : Prop := n a.1 <= n b.1.
#[export] Instance index_le_dec : RelDecision index_le.
Proof. intros a b. unfold index_le. apply _. Defined.
Definition spent_outputs pool (h : uint256) : list (COutPoint * uint256) :=
  merge_sort index_le (filter (fun p => hash p.1 = h) (map_to_list (mapNextTx pool))).

(** One spender of an output of [it]. *)
Definition link_child (it : uint256) (setAlreadyIncluded : gset uint256) (p : COutPoint * uint256) (st : CTxMemPool * setEntries)
  : option (CTxMemPool * setEntries) :=
  let '(pool, setChildren) := st in
  let childHash := p.2 in
  _ ← mapTx pool !! childHash;
  Some (if negb (bool_decide (childHash ∈ setChildren)) && negb (bool_decide (childHash ∈ setAlreadyIncluded))
        then UpdateParent childHash it true (UpdateChild it childHash true pool) else pool,
        {[childHash]} ∪ setChildren).

Definition update_from_block (setAlreadyIncluded : gset uint256) (hash : uint256) (st : CTxMemPool * cacheMap) : option (CTxMemPool * cacheMap) :=
  let '(pool, cache) := st in
  match mapTx pool !! hash with
  | None => Some st
  | Some _ =>
      '(pool, _) ← each (link_child hash setAlreadyIncluded) (spent_outputs pool hash) (pool, ∅);
      UpdateForDescendants hash setAlreadyIncluded (pool, cache)
  end.

Definition UpdateTransactionsFromBlock (vHashesToUpdate : list uint256) pool : option CTxMemPool :=
  '(pool, _) ← each (update_from_block (list_to_set vHashesToUpdate)) (reverse vHashesToUpdate) (pool, ∅);
  Some pool.

(** The part of [DisconnectTip] that returns the transactions of a block to the
    pool.  A coinbase and a transaction that [AcceptToMemoryPool] refuses come
    without an entry; for the others, the entry that it adds and whether it counts
    for the estimation of fees. *)
Definition resurrect_tx (p : CTransaction * option (CTxMemPoolEntry * bool)) (st : CTxMemPool * list uint256) : option (CTxMemPool * list uint256) :=
  let '(tx, accepted) := p in
  let '(pool, vHashUpdate) := st in
  match accepted with
  | None => pool ← removeRecursive tx REORG pool; Some (pool, vHashUpdate)
  | Some (entry, validForFeeEstimation) =>
      pool ← addUnchecked (GetHash tx) entry validForFeeEstimation pool;
      Some (pool, if exists_tx pool (GetHash tx) then vHashUpdate ++ [GetHash tx] else vHashUpdate)
  end.

Definition resurrect (vtx : list (CTransaction * option (CTxMemPoolEntry * bool))) pool : option CTxMemPool :=
  '(pool, vHashUpdate) ← each resurrect_tx vtx (pool, []);
  UpdateTransactionsFromBlock vHashUpdate pool.

End Pool.
End MemPool.
