(* ===== verification/MemPoolLocks.v ===== *)
(** * Lock points of the pool's entries

    [TestLockPointValidity], [CheckFinalTx] and [CheckSequenceLocks] against the
    node's block index and coins: on a well-formed index they never follow a null
    block, and they read of the pool only its transactions. *)

From stdpp Require Import base list gmap fin_sets numbers option.
From Stdlib Require Import ZArith Lia.
From S2P Require Import Prelude Serialize Script Transaction Interpreter Chain Coins Ledger TxVerify BlockTree Activation MemPool.

Local Open Scope Z_scope.

Module MemPoolLocks.
Import Serialize Script Transaction Interpreter Ledger MemPool.

(** The node's state: a well-formed block index, the active chain that ends with
    [tip], and coins of blocks up to it. *)
Record node_view_ok (rv : reorg_view) (tip : nat) (bt : Chain.CBlockIndex) : Prop := mkNodeViewOk {
  nv_tree : Chain.tree_wf (rv_index rv);
  nv_tip : rv_index rv !! tip = Some bt;
  nv_chain : rv_chainActive rv = Chain.path (rv_index rv) tip;
  nv_heights o x : rv_coins rv !! o = Some x -> Coins.coin_nHeight x <= Chain.nHeight bt
}.

Section Locks.
Context `{!Crypto} `{!PoolEnv} `{!TxVerify.Protocols}.
Context (rv : reorg_view) (tip : nat) (bt : Chain.CBlockIndex) (Hv : node_view_ok rv tip bt).
Implicit Types (pool : CTxMemPool) (tx : CTransaction) (lp : LockPoints).

Abbreviation T := (rv_index rv).
Abbreviation T' := (with_next (rv_index rv) tip (Chain.nHeight bt + 1)).
Abbreviation next := (next_block (rv_index rv)).

Lemma view_tip : Chain.Tip (rv_chainActive rv) = Some tip.
Proof using Hv. rewrite (nv_chain _ _ _ Hv). apply (Activation.Tip_path T (nv_tree _ _ _ Hv) tip bt), (nv_tip _ _ _ Hv). Qed.

Lemma next_fresh : T !! next = None.
Proof. apply not_elem_of_dom. unfold next_block. apply is_fresh. Qed.

Lemma next_tree : Chain.tree_wf T' /\ T' !! next = Some (next_index tip (Chain.nHeight bt + 1)).
Proof using Hv.
  unfold with_next. split; [|apply lookup_insert_eq]. destruct (nv_tree _ _ _ Hv tip bt (nv_tip _ _ _ Hv)) as [Hh _].
  apply BlockTree.tree_wf_insert; [apply next_fresh|apply (nv_tree _ _ _ Hv)|cbn; lia|].
  unfold Chain.entry_ok. cbn. exists bt. split; [apply (nv_tip _ _ _ Hv)|]. split; [done|]. done.
Qed.

Lemma next_tip : T' !! tip = Some bt.
Proof using Hv.
  unfold with_next. rewrite lookup_insert_ne; [apply (nv_tip _ _ _ Hv)|]. intros E. pose proof next_fresh as Hn. rewrite E, (nv_tip _ _ _ Hv) in Hn. done.
Qed.

(** *** The checks have a result *)

Lemma TestLockPointValidity_total lp : (forall p, maxInputBlock lp = Some p -> is_Some (T !! p)) -> is_Some (TestLockPointValidity rv lp).
Proof using Hv.
  unfold TestLockPointValidity. destruct (maxInputBlock lp) as [p|]; [|by eexists]. intros Hp. destruct (Hp p eq_refl) as [b Hb].
  rewrite (nv_chain _ _ _ Hv), (Chain.Contains_path T (nv_tree _ _ _ Hv) tip bt p b) by (done || apply (nv_tip _ _ _ Hv)). by eexists.
Qed.

Lemma CheckFinalTx_total tx : is_Some (CheckFinalTx rv tx).
Proof using Hv.
  unfold CheckFinalTx. destruct (_ =? 0); [by eexists|]. rewrite view_tip. cbn [mbind option_bind].
  destruct (Chain.median_total T (nv_tree _ _ _ Hv) tip bt (nv_tip _ _ _ Hv)) as (m & _ & -> & _). by eexists.
Qed.

Lemma EvaluateSequenceLocks_total lockPair : is_Some (TxVerify.EvaluateSequenceLocks T' next lockPair).
Proof using Hv.
  destruct next_tree as [Hwf Hn]. unfold TxVerify.EvaluateSequenceLocks. rewrite Hn. cbn [mbind option_bind next_index Chain.set_links Chain.pprev].
  destruct (Chain.median_total T' Hwf tip bt next_tip) as (m & _ & -> & _). by eexists.
Qed.

Lemma sequence_locks_total vin : forall hs mh mt, Forall (fun h => h <= Chain.nHeight bt + 1) hs ->
  is_Some (TxVerify.sequence_locks_loop T' next vin hs mh mt).
Proof using Hv.
  destruct next_tree as [Hwf Hn]. destruct (nv_tree _ _ _ Hv tip bt (nv_tip _ _ _ Hv)) as [Hh0 _].
  induction vin as [|i vin IH]; intros [|h hs] mh mt Hh; cbn [TxVerify.sequence_locks_loop]; try by eexists.
  apply Forall_cons_iff in Hh as [Hh Hhs]. destruct (negb _); [by apply IH|]. destruct (negb _); [|by apply IH].
  rewrite (Chain.GetAncestor_correct T' Hwf next _ _ Hn). cbn [mbind option_bind].
  rewrite (proj2 (Z.leb_le _ _)), (proj2 (Z.leb_le _ _)) by (cbn [next_index Chain.set_links Chain.nHeight]; lia). cbn [andb].
  destruct (Chain.ancestor_some T' Hwf next _ (Z.max (h - 1) 0) Hn) as (q & bq & -> & Hq & _); [cbn [next_index Chain.set_links Chain.nHeight]; lia|].
  cbn [mbind option_bind]. destruct (Chain.median_total T' Hwf q bq Hq) as (m & _ & -> & _). cbn [mbind option_bind]. by apply IH.
Qed.

Lemma prev_heights_bound pool vin : forall hs, prev_heights rv pool (Chain.nHeight bt + 1) vin = Some hs ->
  length hs = length vin /\ Forall (fun h => h <= Chain.nHeight bt + 1) hs.
Proof using Hv.
  induction vin as [|i vin IH]; intros hs; cbn [prev_heights]; [intros [= <-]; by split|].
  destruct (viewMemPool_GetCoin _ _ _) as [x|] eqn:Ex; [|done]. cbn [mbind option_bind].
  destruct (prev_heights _ _ _ vin) as [hs'|]; [|done]. cbn [mbind option_bind]. intros [= <-]. destruct (IH hs' eq_refl) as [Hl Hf].
  split; [cbn; by rewrite Hl|]. constructor; [|done]. destruct (Z.eqb_spec (Coins.coin_nHeight x) MEMPOOL_HEIGHT) as [|Hne]; [lia|].
  unfold viewMemPool_GetCoin in Ex. destruct (get pool _) as [ptx|].
  - destruct (vout ptx !! _) as [out|]; [|done]. cbn [mbind option_bind] in Ex. injection Ex as <-. by destruct Hne.
  - apply (nv_heights _ _ _ Hv) in Ex. lia.
Qed.

Lemma CheckSequenceLocks_total pool tx lp useExisting : is_Some (CheckSequenceLocks rv pool tx lp useExisting).
Proof using Hv.
  unfold CheckSequenceLocks. rewrite view_tip. cbn [mbind option_bind]. rewrite (nv_tip _ _ _ Hv). cbn [mbind option_bind].
  destruct useExisting.
  - destruct (EvaluateSequenceLocks_total (lp_height lp, lp_time lp)) as [ok ->]. by eexists.
  - destruct (prev_heights rv pool (Chain.nHeight bt + 1) (vin tx)) as [hs|] eqn:Eh; [|by eexists]. apply prev_heights_bound in Eh as [Hl Hf].
    assert (Hc : is_Some (TxVerify.CalculateSequenceLocks T' tx (rv_flags rv) hs next)).
    { unfold TxVerify.CalculateSequenceLocks. rewrite Hl, Nat.eqb_refl. cbn [negb]. destruct (negb _); [by eexists|]. by apply sequence_locks_total. }
    destruct Hc as [lockPair ->]. cbn [mbind option_bind].
    rewrite (Chain.GetAncestor_correct T (nv_tree _ _ _ Hv) tip bt _ (nv_tip _ _ _ Hv)). cbn [mbind option_bind].
    destruct (EvaluateSequenceLocks_total lockPair) as [ok ->]. by eexists.
Qed.

End Locks.

Section Same.
Context `{!Crypto} `{!PoolEnv} `{!TxVerify.Protocols}.
Implicit Types (pool : CTxMemPool) (tx : CTransaction) (lp : LockPoints).

(** *** They read only the transactions of the pool *)

Lemma prev_heights_same rv pool pool' h vin : (forall t, get pool' t = get pool t) -> prev_heights rv pool' h vin = prev_heights rv pool h vin.
Proof. intros Hg. induction vin as [|i vin IH]; cbn [prev_heights]; [done|]. unfold viewMemPool_GetCoin. by rewrite Hg, IH. Qed.

Lemma CheckSequenceLocks_same rv pool pool' tx lp useExisting : (forall t, get pool' t = get pool t) ->
  CheckSequenceLocks rv pool' tx lp useExisting = CheckSequenceLocks rv pool tx lp useExisting.
Proof.
  intros Hg. unfold CheckSequenceLocks. destruct (Chain.Tip _) as [tip|]; [|done]. cbn [mbind option_bind].
  destruct (rv_index rv !! tip); [|done]. cbn [mbind option_bind]. by rewrite (prev_heights_same rv pool pool').
Qed.

End Same.
End MemPoolLocks.
