(* ===== verification/MemPoolInv.v ===== *)
(** * The invariant of the memory pool

    What the pool promises: the links between parents and children are symmetric
    and without cycles, the totals of every entry are the sums over its ancestors
    and descendants, the spent inputs are those of the entries, and the vector of
    hashes, the total size and the memory are exact.  The file proves that the
    searches find the ancestors and descendants and that adding and removing
    entries keep the invariant, without a failed assertion. *)

From stdpp Require Import base relations list list_numbers gmap fin_sets sorting numbers option.
From Stdlib Require Import ZArith Lia.
From S2P Require Import Prelude Serialize Script Transaction Interpreter InterpreterSafety Coins Ledger TxGraph MemPool.

Local Open Scope Z_scope.

Module MemPoolInv.
Import Serialize Script Transaction Interpreter Ledger TxGraph MemPool.

(** ** Totals modulo the width of their fields *)

Inductive stat : Type := Count | Size | Fees | SigOps.
#[export] Instance stat_eq_dec : EqDecision stat.
Proof. solve_decision. Defined.

Definition wrap (k : stat) : Z -> Z := match k with Count | Size => u64 | Fees => i64 | SigOps => u32 end.

Lemma wrap_add_l k a b : wrap k (wrap k a + b) = wrap k (a + b).
Proof.
  destruct k; cbn [wrap]; unfold u64, u32, i64; rewrite ?Zplus_mod_idemp_l; try done.
  replace ((a + 2 ^ 63) mod 2 ^ 64 - 2 ^ 63 + b + 2 ^ 63) with ((a + 2 ^ 63) mod 2 ^ 64 + b) by lia.
  rewrite Zplus_mod_idemp_l. do 2 f_equal. lia.
Qed.

Lemma wrap_congr k a b c : wrap k a = wrap k b -> wrap k (c + a) = wrap k (c + b).
Proof. intros E. rewrite (Z.add_comm c a), (Z.add_comm c b), <- (wrap_add_l k a), E, wrap_add_l. done. Qed.

Lemma wrap_add_r k a b : wrap k (a + wrap k b) = wrap k (a + b).
Proof. rewrite Z.add_comm, wrap_add_l. f_equal. lia. Qed.

Lemma u64_sub_l a b : u64 (u64 a - b) = u64 (a - b).
Proof. apply (wrap_add_l Size a (- b)). Qed.

(** The signed versions of the numbers that are added to the fields. *)
Definition signed (k : stat) : Z -> Z := match k with Count | Size | Fees => i64 | SigOps => i32 end.

Lemma wrap_signed k a b : wrap k (a + signed k b) = wrap k (a + b).
Proof.
  assert (H64 : forall z, (a + i64 z) mod 2 ^ 64 = (a + z) mod 2 ^ 64).
  { intros z. unfold i64. replace (a + ((z + 2 ^ 63) mod 2 ^ 64 - 2 ^ 63)) with ((z + 2 ^ 63) mod 2 ^ 64 + (a - 2 ^ 63)) by lia.
    rewrite Zplus_mod_idemp_l. f_equal. lia. }
  destruct k; cbn [wrap signed]; unfold u64, u32; [apply H64|apply H64|apply (wrap_add_r Fees)|].
  unfold i32. replace (a + ((b + 2 ^ 31) mod 2 ^ 32 - 2 ^ 31)) with ((b + 2 ^ 31) mod 2 ^ 32 + (a - 2 ^ 31)) by lia.
  rewrite Zplus_mod_idemp_l. f_equal. lia.
Qed.

Definition weight (k : stat) (e : CTxMemPoolEntry) : Z :=
  match k with Count => 1 | Size => nTxSize e | Fees => GetModifiedFee e | SigOps => sigOpCount e end.
(** The totals of an entry with its ancestors, and with its descendants. *)
Inductive side : Type := Anc | Desc.
#[export] Instance side_eq_dec : EqDecision side.
Proof. solve_decision. Defined.

Definition total (s : side) (k : stat) (e : CTxMemPoolEntry) : Z :=
  match s, k with
  | Anc, Count => nCountWithAncestors e | Anc, Size => nSizeWithAncestors e | Anc, Fees => nModFeesWithAncestors e
  | Anc, SigOps => nSigOpCountWithAncestors e
  | Desc, Count => nCountWithDescendants e | Desc, Size => nSizeWithDescendants e | Desc, Fees => nModFeesWithDescendants e
  | Desc, SigOps => 0
  end.

(** Signature operations are not counted over descendants. *)
Definition tracked (s : side) (k : stat) : Prop := s = Anc \/ k <> SigOps.

(** An entry without its totals, its lock points and its place in the vector. *)
Definition core (e : CTxMemPoolEntry) : CTxMemPoolEntry :=
  with_lock_points (with_index (with_descendants (with_ancestors e 0 0 0 0) 0 0 0) 0) (mkLockPoints 0 0 None).

Abbreviation entries := (gmap uint256 CTxMemPoolEntry).
Implicit Types M : entries.

Definition weight_at M (k : stat) (t : uint256) : Z := from_option (weight k) 0 (M !! t).

(** Totals over given sets of ancestors and descendants. *)
Record totals M (T : side -> uint256 -> setEntries) : Prop := mkTotals {
  totals_sum s t e k : tracked s k -> M !! t = Some e -> total s k e = wrap k (weight k e + sum_over (weight_at M k) (T s t));
  totals_sets s t : t ∈ dom M -> t ∉ T s t /\ T s t ⊆ dom M
}.

Definition sizes_ok M : Prop := forall t e, M !! t = Some e -> 0 < nTxSize e /\ 0 <= sigOpCount e.

(** No total can reach the sign bit. *)
Definition bounded M : Prop :=
  sum_over (weight_at M Count) (dom M) < 2 ^ 63 /\ sum_over (weight_at M Size) (dom M) < 2 ^ 63 /\
  sum_over (weight_at M SigOps) (dom M) < 2 ^ 31.

Definition same_core M M' : Prop := forall t, core <$> M' !! t = core <$> M !! t.

Lemma same_core_weight M M' k t : same_core M M' -> weight_at M' k t = weight_at M k t.
Proof.
  intros H. specialize (H t). unfold weight_at. destruct (M !! t) as [e|], (M' !! t) as [e'|]; try done.
  injection H as H. destruct k; cbn; unfold GetModifiedFee; congruence.
Qed.

Lemma same_core_dom M M' : same_core M M' -> dom M' = dom M.
Proof.
  intros H. apply set_eq. intros t. rewrite !elem_of_dom. specialize (H t).
  destruct (M !! t), (M' !! t); try done; split; intros [? ?]; try done; by eexists.
Qed.

Lemma same_core_sum M M' k X : same_core M M' -> sum_over (weight_at M' k) X = sum_over (weight_at M k) X.
Proof. intros H. apply sum_over_ext. intros t _. by apply same_core_weight. Qed.

Lemma same_core_bounded M M' : same_core M M' -> bounded M -> bounded M'.
Proof. intros H. unfold bounded. by rewrite (same_core_dom _ _ H), !(same_core_sum _ _ _ _ H). Qed.

Lemma same_core_lookup M M' t e' : same_core M M' -> M' !! t = Some e' -> exists e, M !! t = Some e /\ core e = core e'.
Proof. intros H He. specialize (H t). rewrite He in H. destruct (M !! t) as [e|]; [|done]. exists e. split; [done|]. change (Some (core e') = Some (core e)) in H. congruence. Qed.

Lemma core_weight e e' k : core e = core e' -> weight k e = weight k e'.
Proof. intros H. destruct k; cbn; unfold GetModifiedFee; injection H; intros; congruence. Qed.

Lemma same_core_sizes M M' : same_core M M' -> sizes_ok M -> sizes_ok M'.
Proof.
  intros H Hs t e' He. destruct (same_core_lookup _ _ _ _ H He) as (e & Hm & Hc). destruct (Hs t e Hm).
  pose proof (core_weight _ _ Size Hc). pose proof (core_weight _ _ SigOps Hc). cbn in *. lia.
Qed.

Lemma entries_core_refl M : same_core M M.
Proof. by intros t. Qed.

Lemma entries_core_trans M M' M'' : same_core M M' -> same_core M' M'' -> same_core M M''.
Proof. intros H1 H2 t. by rewrite H2, H1. Qed.

(** Sums of positive weights stay below the total. *)
Lemma weight_nonneg M k t : sizes_ok M -> k <> Fees -> 0 <= weight_at M k t.
Proof.
  intros Hs Hk. unfold weight_at. destruct (M !! t) as [e|] eqn:E; [|done]. destruct (Hs t e E). destruct k; cbn; try done; lia.
Qed.

Lemma node_bound M k t e X : sizes_ok M -> k <> Fees -> M !! t = Some e -> t ∉ X -> X ⊆ dom M ->
  weight k e <= weight k e + sum_over (weight_at M k) X <= sum_over (weight_at M k) (dom M).
Proof.
  intros Hs Hk He Ht HX. pose proof (fun y => weight_nonneg M k y Hs Hk) as Hn. split.
  - pose proof (sum_over_nonneg (weight_at M k) X (fun y _ => Hn y)). lia.
  - pose proof (sum_over_node (weight_at M k) t X (dom M) Ht ltac:(apply elem_of_dom; eauto) HX (fun y _ => Hn y)) as H.
    unfold weight_at at 1 in H. by rewrite He in H.
Qed.

Lemma i64_u64 z : 0 < z < 2 ^ 63 -> (0 <? i64 (u64 z)) = true.
Proof. intros. rewrite u64_small, i64_small by lia. apply Z.ltb_lt. lia. Qed.

Lemma i32_u32 z : 0 <= z < 2 ^ 31 -> (0 <=? i32 (u32 z)) = true.
Proof. intros. rewrite u32_small, i32_small by lia. apply Z.leb_le. lia. Qed.

(** ** Changing the totals of many entries *)

Definition UpdateState (s : side) (d : stat -> Z) : CTxMemPoolEntry -> option CTxMemPoolEntry :=
  match s with
  | Anc => UpdateAncestorState (d Size) (d Fees) (d Count) (d SigOps)
  | Desc => UpdateDescendantState (d Size) (d Fees) (d Count)
  end.

Lemma UpdateState_ok s e (z z' d : stat -> Z) :
  (forall k, tracked s k -> total s k e = wrap k (z k)) -> (forall k, tracked s k -> wrap k (z k + d k) = wrap k (z' k)) ->
  0 < z' Size < 2 ^ 63 -> 0 < z' Count < 2 ^ 63 -> 0 <= z' SigOps < 2 ^ 31 ->
  exists e', UpdateState s d e = Some e' /\ core e' = core e /\ vTxHashesIdx e' = vTxHashesIdx e /\
    (forall s' k, s' <> s -> total s' k e' = total s' k e) /\ (forall k, tracked s k -> total s k e' = wrap k (z' k)).
Proof.
  intros Hd Hw Hs Hc Ho.
  assert (E : forall k, tracked s k -> wrap k (total s k e + d k) = wrap k (z' k)) by (intros k Hk; by rewrite Hd, wrap_add_l, Hw).
  pose proof (E Size ltac:(by right)) as Es. pose proof (E Count ltac:(by right)) as Ec. pose proof (E Fees ltac:(by right)) as Ef.
  destruct s; cbn [wrap total] in Es, Ec, Ef; cbn [UpdateState]; unfold UpdateAncestorState, UpdateDescendantState.
  - pose proof (E SigOps ltac:(by left)) as Eo. cbn [wrap total] in Eo. rewrite Es, Ec, Eo, !i64_u64, i32_u32 by lia. cbn [andb].
    eexists. do 3 (split; [done|]). split; [by intros [] []|]. by intros [] _; cbn [total with_ancestors wrap]; rewrite ?Ef.
  - rewrite Es, Ec, !i64_u64 by lia. cbn [andb].
    eexists. do 3 (split; [done|]). split; [by intros [] []|].
    intros [] Hk; cbn [total with_descendants wrap]; rewrite ?Ef; [done..|]. by destruct Hk.
Qed.

(** A loop over a set of entries. *)
Lemma in_hash_order_perm (X : setEntries) : in_hash_order X ≡ₚ elements X.
Proof. apply merge_sort_Permutation. Qed.

Lemma elem_of_in_hash_order (X : setEntries) x : x ∈ in_hash_order X <-> x ∈ X.
Proof. by rewrite in_hash_order_perm, elem_of_elements. Qed.

Lemma NoDup_in_hash_order (X : setEntries) : NoDup (in_hash_order X).
Proof. rewrite in_hash_order_perm. apply NoDup_elements. Qed.

Lemma each_list {S : Type} (body : uint256 -> S -> option S) (P : setEntries -> S -> Prop) l : NoDup l ->
  forall R s, (forall x, x ∈ l -> x ∉ R) -> P R s ->
  (forall R' x s, x ∈ l -> x ∉ R' -> R' ⊆ R ∪ list_to_set l -> R ⊆ R' -> P R' s -> exists s', body x s = Some s' /\ P ({[x]} ∪ R') s') ->
  exists s', each body l s = Some s' /\ P (R ∪ list_to_set l) s'.
Proof.
  induction 1 as [|x l Hx Hl IH]; intros R s Hd HP Hstep; cbn [each].
  - exists s. split; [done|]. cbn. by rewrite (right_id_L ∅ (∪)).
  - destruct (Hstep R x s ltac:(left) ltac:(apply Hd; left) ltac:(set_solver) ltac:(done) HP) as (s1 & E & HP1).
    rewrite E. cbn [mbind option_bind].
    destruct (IH ({[x]} ∪ R) s1) as (s' & E' & HP'); [|done| |].
    + intros y Hy. specialize (Hd y ltac:(by right)). intros [->%elem_of_singleton|]%elem_of_union; done.
    + intros R' y s2 Hy Hn Hs Hs2. apply Hstep; [by right|done|set_solver +Hs|set_solver +Hs2].
    + exists s'. split; [done|]. cbn [list_to_set]. by replace (R ∪ ({[x]} ∪ list_to_set l)) with ({[x]} ∪ R ∪ list_to_set l) by set_solver.
Qed.

Lemma each_set {S : Type} (X : setEntries) (body : uint256 -> S -> option S) (P : setEntries -> S -> Prop) s : P ∅ s ->
  (forall R x s, R ⊆ X -> x ∈ X -> x ∉ R -> P R s -> exists s', body x s = Some s' /\ P ({[x]} ∪ R) s') ->
  exists s', each body (in_hash_order X) s = Some s' /\ P X s'.
Proof.
  intros H0 Hstep.
  assert (EX : list_to_set (in_hash_order X) = X) by (apply set_eq; intros x; by rewrite elem_of_list_to_set, elem_of_in_hash_order).
  destruct (each_list body P (in_hash_order X) (NoDup_in_hash_order X) ∅ s) as (s' & E & HP); [set_solver|done| |].
  - intros R' x s1 Hx%elem_of_in_hash_order Hn Hs _ HP. rewrite EX in Hs. apply Hstep; [set_solver|done..].
  - exists s'. split; [done|]. by rewrite EX, (left_id_L ∅ (∪)) in HP.
Qed.

Lemma foldl_each {X S : Type} (f : S -> X -> S) l : forall s, each (fun x s => Some (f s x)) l s = Some (foldl f s l).
Proof. induction l as [|x l IH]; intros s; cbn; [done|]. apply IH. Qed.

Lemma foldl_set {S : Type} (X : setEntries) (f : S -> uint256 -> S) (P : setEntries -> S -> Prop) s : P ∅ s ->
  (forall R x s, R ⊆ X -> x ∈ X -> x ∉ R -> P R s -> P ({[x]} ∪ R) (f s x)) -> P X (foldl f s (in_hash_order X)).
Proof.
  intros H0 Hstep. destruct (each_set X (fun x s => Some (f s x)) P s H0) as (s' & E & HP).
  - intros R x s1 HR Hx Hn HP. eexists. split; [done|]. by apply Hstep.
  - rewrite foldl_each in E. by injection E as <-.
Qed.

Section WithEnv.
Context `{!Crypto} `{!PoolEnv}.
Implicit Types pool : CTxMemPool.

Lemma modify_set (X : setEntries) f pool : (forall x, x ∈ X -> is_Some (mapTx pool !! x ≫= f)) ->
  exists M', each (fun it => modify it f) (in_hash_order X) pool = Some (set_entries pool M') /\
    forall x, M' !! x = if decide (x ∈ X) then mapTx pool !! x ≫= f else mapTx pool !! x.
Proof.
  intros Hf. destruct (each_set X (fun it => modify it f) (fun R p => exists M', p = set_entries pool M' /\
    forall x, M' !! x = if decide (x ∈ R) then mapTx pool !! x ≫= f else mapTx pool !! x) pool) as (p & E & M' & -> & HM).
  - exists (mapTx pool). split; [by destruct pool|]. intros x. by rewrite decide_False by set_solver.
  - intros R x p HR Hx Hn (M' & -> & HM). destruct (Hf x Hx) as [e' He']. pose proof (HM x) as Hx'. rewrite decide_False in Hx' by done.
    destruct (mapTx pool !! x) as [e|] eqn:Ee; [|done]. cbn [mbind option_bind] in He'.
    exists (set_entries pool (<[x := e']> M')). split.
    + unfold modify. cbn [mapTx set_entries]. rewrite Hx'. cbn [mbind option_bind]. by rewrite He'.
    + exists (<[x := e']> M'). split; [done|]. intros y. destruct (decide (y = x)) as [->|Hne].
      * rewrite lookup_insert_eq, decide_True by set_solver. by rewrite Ee.
      * rewrite lookup_insert_ne, HM by done. destruct (decide (y ∈ R)), (decide (y ∈ {[x]} ∪ R)); try done; set_solver.
  - exists M'. by split.
Qed.

(** Telling a set of entries about ancestors or descendants they gain or lose:
    [d] is what their sums change by. *)
Lemma update_totals_at (s : side) (X : setEntries) (d : stat -> Z) M (T T' : side -> uint256 -> setEntries) :
  totals M T -> sizes_ok M -> bounded M -> X ⊆ dom M ->
  (forall x, x ∈ X -> x ∉ T' s x /\ T' s x ⊆ dom M /\ forall k, tracked s k ->
     wrap k (sum_over (weight_at M k) (T s x) + d k) = wrap k (sum_over (weight_at M k) (T' s x))) ->
  (forall s' x, s' <> s \/ x ∉ X -> T' s' x = T s' x) ->
  (forall x, x ∈ X -> is_Some (M !! x ≫= UpdateState s d)) /\
  forall M', (forall x, M' !! x = if decide (x ∈ X) then M !! x ≫= UpdateState s d else M !! x) ->
    same_core M M' /\ totals M' T' /\ (forall t, vTxHashesIdx <$> M' !! t = vTxHashesIdx <$> M !! t).
Proof.
  intros Ht Hs Hb HX HT HT'.
  assert (Hone : forall x e, x ∈ X -> M !! x = Some e -> exists e', UpdateState s d e = Some e' /\
    core e' = core e /\ vTxHashesIdx e' = vTxHashesIdx e /\ (forall s' k, s' <> s -> total s' k e' = total s' k e) /\
    (forall k, tracked s k -> total s k e' = wrap k (weight k e + sum_over (weight_at M k) (T' s x)))).
  { intros x e Hx He. destruct (HT x Hx) as (Hn & Hsub & Hw). destruct Hb as (Hbc & Hbs & Hbo).
    pose proof (node_bound M Size x e _ Hs ltac:(done) He Hn Hsub). pose proof (node_bound M Count x e _ Hs ltac:(done) He Hn Hsub).
    pose proof (node_bound M SigOps x e _ Hs ltac:(done) He Hn Hsub). destruct (Hs x e He) as [Hpos Hso]. cbn [weight] in *.
    apply (UpdateState_ok s e (fun k => weight k e + sum_over (weight_at M k) (T s x)) (fun k => weight k e + sum_over (weight_at M k) (T' s x)) d);
      cbn [weight]; [| |lia..].
    - intros k Hk. by apply (totals_sum _ _ Ht s x e k).
    - intros k Hk. rewrite <- Z.add_assoc. by apply wrap_congr, Hw. }
  split.
  { intros x Hx. assert (Hd : x ∈ dom M) by set_solver +HX Hx. apply elem_of_dom in Hd as [e He].
    destruct (Hone x e Hx He) as (e' & E & _). rewrite He. cbn [mbind option_bind]. by rewrite E. }
  intros M' HM.
  assert (Hlook : forall t e', M' !! t = Some e' -> exists e, M !! t = Some e /\ core e' = core e /\ vTxHashesIdx e' = vTxHashesIdx e /\
    (forall s' k, tracked s' k -> total s' k e' = wrap k (weight k e + sum_over (weight_at M k) (T' s' t)))).
  { intros t e' He'. rewrite HM in He'. destruct (decide (t ∈ X)) as [Hin|Hout].
    - destruct (M !! t) as [e|] eqn:Ee; [|done]. cbn [mbind option_bind] in He'. exists e. split; [done|].
      destruct (Hone t e Hin Ee) as (e1 & E1 & Hc & Hi & Ho & Hn). rewrite E1 in He'. injection He' as <-. do 2 (split; [done|]).
      intros s' k Hk. destruct (decide (s' = s)) as [->|Hne]; [by apply Hn|]. rewrite Ho, HT' by auto. by apply (totals_sum _ _ Ht).
    - exists e'. do 3 (split; [done|]). intros s' k Hk. rewrite HT' by auto. by apply (totals_sum _ _ Ht). }
  assert (Hnone : forall t, M' !! t = None -> M !! t = None).
  { intros t Hn. rewrite HM in Hn. destruct (decide (t ∈ X)) as [Hin|]; [|done]. destruct (M !! t) as [e|] eqn:Ee; [|done].
    destruct (Hone t e Hin Ee) as (e1 & E1 & _). cbn [mbind option_bind] in Hn. congruence. }
  assert (Hsc : same_core M M').
  { intros t. destruct (M' !! t) as [e'|] eqn:Et; [|by rewrite (Hnone t Et)].
    destruct (Hlook t e' Et) as (e & -> & Hc & _). change (Some (core e') = Some (core e)). congruence. }
  split; [done|]. split.
  - split.
    + intros s' t e' k Hk He'. destruct (Hlook t e' He') as (e & He & Hc & _ & Ha).
      by rewrite Ha, (core_weight _ _ k Hc), (same_core_sum _ _ _ _ Hsc) by done.
    + intros s' t Hin. rewrite (same_core_dom _ _ Hsc) in *. destruct (decide (s' = s /\ t ∈ X)) as [[-> HtX]|Hno].
      * destruct (HT t HtX) as (? & ? & _). done.
      * rewrite HT' by (destruct (decide (s' = s)); [right|left]; naive_solver). by apply (totals_sets _ _ Ht).
  - intros t. destruct (M' !! t) as [e'|] eqn:Et; [|by rewrite (Hnone t Et)].
    destruct (Hlook t e' Et) as (e & -> & _ & Hi & _). cbn. congruence.
Qed.

Lemma update_totals (s : side) (X : setEntries) (d : stat -> Z) pool (T T' : side -> uint256 -> setEntries) :
  totals (mapTx pool) T -> sizes_ok (mapTx pool) -> bounded (mapTx pool) -> X ⊆ dom (mapTx pool) ->
  (forall x, x ∈ X -> x ∉ T' s x /\ T' s x ⊆ dom (mapTx pool) /\ forall k, tracked s k ->
     wrap k (sum_over (weight_at (mapTx pool) k) (T s x) + d k) = wrap k (sum_over (weight_at (mapTx pool) k) (T' s x))) ->
  (forall s' x, s' <> s \/ x ∉ X -> T' s' x = T s' x) ->
  exists M', each (fun it => modify it (UpdateState s d)) (in_hash_order X) pool = Some (set_entries pool M') /\
    same_core (mapTx pool) M' /\ totals M' T' /\ (forall t, vTxHashesIdx <$> M' !! t = vTxHashesIdx <$> mapTx pool !! t).
Proof.
  intros Ht Hs Hb HX HT HT'. destruct (update_totals_at s X d (mapTx pool) T T' Ht Hs Hb HX HT HT') as [Hok Hpost].
  destruct (modify_set X (UpdateState s d) pool Hok) as (M' & E & HM). exists M'. split; [done|]. by apply Hpost.
Qed.

(** ** Links *)

Definition par pool (t : uint256) : setEntries := parents (links_at pool t).
Definition chi pool (t : uint256) : setEntries := children (links_at pool t).

(** The links connect entries of the pool. *)
Record links_closed pool : Prop := mkLinksClosed {
  links_dom : dom (mapLinks pool) = dom (mapTx pool);
  par_dom t : par pool t ⊆ dom (mapTx pool);
  chi_dom t : chi pool t ⊆ dom (mapTx pool)
}.

(** They are the same in both directions. *)
Record links_ok pool : Prop := mkLinksOk {
  links_dom' : dom (mapLinks pool) = dom (mapTx pool);
  links_sym p c : c ∈ chi pool p <-> p ∈ par pool c
}.

Lemma links_at_some pool t : t ∈ dom (mapLinks pool) -> mapLinks pool !! t = Some (links_at pool t).
Proof. intros [l Hl]%elem_of_dom. unfold links_at. by rewrite Hl. Qed.

Lemma GetMemPoolParents_par pool t : t ∈ dom (mapLinks pool) -> GetMemPoolParents pool t = Some (par pool t).
Proof. intros H1. unfold GetMemPoolParents. by rewrite links_at_some. Qed.

Lemma GetMemPoolChildren_chi pool t : t ∈ dom (mapLinks pool) -> GetMemPoolChildren pool t = Some (chi pool t).
Proof. intros H1. unfold GetMemPoolChildren. by rewrite links_at_some. Qed.

Lemma par_links_dom pool p c : p ∈ par pool c -> c ∈ dom (mapLinks pool).
Proof. unfold par, links_at. intros Hp. apply elem_of_dom. destruct (mapLinks pool !! c) as [l|]; [by eexists|]. cbn in Hp. set_solver. Qed.

Lemma chi_links_dom pool p c : c ∈ chi pool p -> p ∈ dom (mapLinks pool).
Proof. unfold chi, links_at. intros Hp. apply elem_of_dom. destruct (mapLinks pool !! p) as [l|]; [by eexists|]. cbn in Hp. set_solver. Qed.

Lemma links_ok_closed pool : links_ok pool -> links_closed pool.
Proof.
  intros [Hd Hs]. split; [done|intros t p Hp|intros t c Hc]; rewrite <- Hd.
  - apply Hs in Hp. by eapply chi_links_dom.
  - apply Hs in Hc. by eapply par_links_dom.
Qed.
Local Hint Resolve links_ok_closed : core.

(** The ancestors and the descendants of an entry. *)
Definition ancestors pool (t : uint256) : setEntries := reach_set (size (mapTx pool)) (par pool) t.
Definition descendants pool (t : uint256) : setEntries := reach_set (size (mapTx pool)) (chi pool) t.

Lemma ancestors_reach pool t : links_closed pool -> is_reach (par pool) t (ancestors pool t).
Proof. intros Hl. apply (reach_set_spec _ (dom (mapTx pool))); [intros y; by apply par_dom|]. by rewrite size_dom. Qed.

Lemma descendants_reach pool t : links_closed pool -> is_reach (chi pool) t (descendants pool t).
Proof. intros Hl. apply (reach_set_spec _ (dom (mapTx pool))); [intros y; by apply chi_dom|]. by rewrite size_dom. Qed.

Lemma tc_chi_par pool x y : links_ok pool -> tc (edge (chi pool)) x y <-> tc (edge (par pool)) y x.
Proof. intros Hl. apply tc_transpose. intros p c. apply (links_sym _ Hl). Qed.

Lemma ancestors_descendants pool x y : links_ok pool -> x ∈ ancestors pool y <-> y ∈ descendants pool x.
Proof. intros Hl. rewrite (ancestors_reach pool y ltac:(auto) x), (descendants_reach pool x ltac:(auto) y). symmetry. by apply tc_chi_par. Qed.

Lemma reach_dom {g : uint256 -> setEntries} {U x y} : (forall z, g z ⊆ U) -> tc (edge g) x y -> y ∈ U.
Proof. intros Hg Ht. destruct (tc_last _ _ _ Ht) as [Hs|(z & _ & Hs)]; by apply (Hg _ _ Hs). Qed.

Lemma ancestors_dom pool t : links_closed pool -> ancestors pool t ⊆ dom (mapTx pool).
Proof. intros Hl y Hy. apply (ancestors_reach pool t Hl) in Hy. eapply reach_dom; [|done]. intros z. by apply par_dom. Qed.

Lemma descendants_dom pool t : links_closed pool -> descendants pool t ⊆ dom (mapTx pool).
Proof. intros Hl y Hy. apply (descendants_reach pool t Hl) in Hy. eapply reach_dom; [|done]. intros z. by apply chi_dom. Qed.

(** ** The searches *)

Lemma begin_some (X : setEntries) x : begin X = Some x -> x ∈ X.
Proof.
  unfold begin. intros Hh. apply elem_of_in_hash_order. destruct (in_hash_order X) as [|y l]; [done|].
  injection Hh as ->. by left.
Qed.

Lemma begin_none (X : setEntries) : begin X = None -> X = ∅.
Proof.
  unfold begin. intros Hh. destruct (in_hash_order X) as [|y l] eqn:E; [|done].
  apply set_eq. intros x. rewrite <- elem_of_in_hash_order, E. set_solver.
Qed.

Lemma size_disjoint (X Y : setEntries) : X ## Y -> size (X ∪ Y) = (size X + size Y)%nat.
Proof. apply size_union. Qed.

(** Putting the parents of an ancestor on the stage. *)
Lemma stage_parents_spec lim seen l : forall stage, stage ## seen -> Z.of_nat (size stage) + Z.of_nat (size seen) + 1 <= limitAncestorCount lim ->
  match stage_parents lim seen l stage with
  | (true, stage') => stage' = stage ∪ list_to_set l ∖ seen /\ Z.of_nat (size stage') + Z.of_nat (size seen) + 1 <= limitAncestorCount lim
  | (false, _) => limitAncestorCount lim < Z.of_nat (size (stage ∪ list_to_set l ∖ seen)) + Z.of_nat (size seen) + 1
  end.
Proof.
  induction l as [|p l IH]; intros stage Hd Hc; cbn [stage_parents list_to_set].
  - split; [set_solver|done].
  - set (stage1 := if bool_decide (p ∈ seen) then stage else {[p]} ∪ stage).
    assert (E1 : stage1 ∪ list_to_set l ∖ seen = stage ∪ ({[p]} ∪ list_to_set l) ∖ seen).
    { unfold stage1. case_bool_decide; set_solver. }
    assert (Hd1 : stage1 ## seen) by (unfold stage1; case_bool_decide; set_solver).
    destruct (Z.ltb_spec (limitAncestorCount lim) (Z.of_nat (size stage1) + Z.of_nat (size seen) + 1)) as [Hlt|Hge].
    + assert (size stage1 <= size (stage ∪ ({[p]} ∪ list_to_set l) ∖ seen))%nat; [|lia]. apply subseteq_size. rewrite <- E1. set_solver.
    + specialize (IH stage1 Hd1 Hge). rewrite <- E1. done.
Qed.

(** The conditions that the limits impose on the ancestors of an entry. *)
Definition within (lim : ancestor_limits) M (sz : Z) (X : setEntries) : Prop :=
  Z.of_nat (size X) + 1 <= limitAncestorCount lim /\ sz + sum_over (weight_at M Size) X <= limitAncestorSize lim /\
  forall a e, a ∈ X -> M !! a = Some e ->
    nSizeWithDescendants e + sz <= limitDescendantSize lim /\ nCountWithDescendants e + 1 <= limitDescendantCount lim.

(** The totals that the search reads do not wrap. *)
Record readable pool (sz : Z) : Prop := mkReadable {
  readable_size : 0 <= sz < 2 ^ 63;
  readable_sizes : sizes_ok (mapTx pool);
  readable_bounded : bounded (mapTx pool);
  readable_desc t e : mapTx pool !! t = Some e -> 0 <= nSizeWithDescendants e < 2 ^ 63 /\ 0 <= nCountWithDescendants e < 2 ^ 63
}.

Lemma ancestors_loop_spec pool lim entry start X : links_closed pool -> readable pool (nTxSize entry) ->
  X ⊆ dom (mapTx pool) -> (forall y, y ∈ X <-> exists s, s ∈ start /\ rtc (edge (par pool)) s y) ->
  forall fuel stage seen tot, (size (X ∖ seen) <= fuel)%nat -> searching (par pool) start stage seen -> stage ∪ seen ⊆ X ->
  tot = nTxSize entry + sum_over (weight_at (mapTx pool) Size) seen ->
  (stage ∪ seen = ∅ \/ Z.of_nat (size stage) + Z.of_nat (size seen) + 1 <= limitAncestorCount lim) ->
  (seen = ∅ \/ tot <= limitAncestorSize lim) ->
  (forall a e, a ∈ seen -> mapTx pool !! a = Some e ->
     nSizeWithDescendants e + nTxSize entry <= limitDescendantSize lim /\ nCountWithDescendants e + 1 <= limitDescendantCount lim) ->
  exists err Y, ancestors_loop fuel pool lim entry stage seen tot = Some (err, Y) /\
    match err with
    | None => Y = X /\ (X = ∅ \/ within lim (mapTx pool) (nTxSize entry) X)
    | Some _ => X <> ∅ /\ ~ within lim (mapTx pool) (nTxSize entry) X
    end.
Proof.
  intros Hl Hr HXd HX. destruct Hr as [Hsz Hso (_ & Hbs & _) Hdesc].
  induction fuel as [|fuel IH]; intros stage seen tot Hf Hi Hsub Htot Hcnt Hsize Hlim; cbn [ancestors_loop]; destruct (begin stage) as [x|] eqn:Eb.
  1: { apply begin_some in Eb. pose proof (search_measure X stage seen x Eb (searching_disjoint _ _ _ _ Hi) ltac:(set_solver)). lia. }
  1, 3: apply begin_none in Eb as ->; exists None, seen; split; [done|].
  1, 2: assert (seen = X) as -> by (apply set_eq; intros y; split; [set_solver|intros Hy%HX; by apply (searching_done _ _ _ _ Hi)]);
    split; [done|]; rewrite (left_id_L ∅ (∪)) in Hcnt; destruct Hcnt as [|Hc]; [by left|]; destruct Hsize as [|Hs]; [by left|];
    right; split; [rewrite size_empty in Hc; lia|]; split; [lia|done].
  apply begin_some in Eb. assert (HxX : x ∈ X) by (apply Hsub; set_solver +Eb). assert (Hxd : x ∈ dom (mapTx pool)) by by apply HXd. pose proof Hxd as [e He]%elem_of_dom. rewrite He. cbn [mbind option_bind].
  pose proof (searching_disjoint _ _ _ _ Hi) as Hdis. assert (Hxs : x ∉ seen) by set_solver +Eb Hdis.
  pose proof (search_measure X stage seen x Eb Hdis ltac:(set_solver +Hsub)) as Hm.
  assert (Hsum : sum_over (weight_at (mapTx pool) Size) ({[x]} ∪ seen) = nTxSize e + sum_over (weight_at (mapTx pool) Size) seen).
  { rewrite sum_over_insert by done. unfold weight_at at 1. by rewrite He. }
  assert (Hle : sum_over (weight_at (mapTx pool) Size) ({[x]} ∪ seen) <= sum_over (weight_at (mapTx pool) Size) X).
  { apply sum_over_subset; [set_solver +HxX Hsub|]. intros y _. by apply weight_nonneg. }
  assert (Hall : sum_over (weight_at (mapTx pool) Size) X < 2 ^ 63).
  { assert (sum_over (weight_at (mapTx pool) Size) X <= sum_over (weight_at (mapTx pool) Size) (dom (mapTx pool))); [|lia].
    apply sum_over_subset; [done|]. intros y _. by apply weight_nonneg. }
  assert (Hnn : 0 <= sum_over (weight_at (mapTx pool) Size) seen) by (apply sum_over_nonneg; intros y _; by apply weight_nonneg).
  destruct (Hso x e He) as [Hpos _]. destruct (Hdesc x e He) as [Hd1 Hd2].
  rewrite (u64_small (nSizeWithDescendants e + nTxSize entry)), (u64_small (nCountWithDescendants e + 1)), (u64_small (tot + nTxSize e)) by lia.
  assert (Hne : X <> ∅) by set_solver +HxX.
  destruct (Z.ltb_spec (limitDescendantSize lim) (nSizeWithDescendants e + nTxSize entry)) as [H1|H1].
  { eexists _, _. split; [done|]. split; [done|]. intros (_ & _ & Hw). destruct (Hw x e HxX He). lia. }
  destruct (Z.ltb_spec (limitDescendantCount lim) (nCountWithDescendants e + 1)) as [H2|H2].
  { eexists _, _. split; [done|]. split; [done|]. intros (_ & _ & Hw). destruct (Hw x e HxX He). lia. }
  destruct (Z.ltb_spec (limitAncestorSize lim) (tot + nTxSize e)) as [H3|H3].
  { eexists _, _. split; [done|]. split; [done|]. intros (_ & Hw & _). lia. }
  rewrite GetMemPoolParents_par by (by rewrite (links_dom _ Hl)). cbn [mbind option_bind].
  assert (Hsz1 : (size (stage ∖ {[x]}) + size ({[x]} ∪ seen) = size stage + size seen)%nat).
  { rewrite size_difference, size_union, size_singleton by set_solver +Eb Hxs. pose proof (subseteq_size {[x]} stage ltac:(set_solver +Eb)). rewrite size_singleton in *. lia. }
  assert (Eps : list_to_set (in_hash_order (par pool x)) = par pool x) by (apply set_eq; intros y; by rewrite elem_of_list_to_set, elem_of_in_hash_order).
  pose proof (stage_parents_spec lim ({[x]} ∪ seen) (in_hash_order (par pool x)) (stage ∖ {[x]}) ltac:(set_solver +Hdis)) as Hsp.
  rewrite Eps in Hsp. specialize (Hsp ltac:(destruct Hcnt as [Hz|]; [set_solver +Eb Hz|lia])).
  assert (Hin : (stage ∖ {[x]} ∪ par pool x ∖ ({[x]} ∪ seen)) ∪ ({[x]} ∪ seen) ⊆ X).
  { intros y Hy. apply (searching_sound (par pool) (fun y => y ∈ X) stage seen x); [|by apply Hsub|done..].
    intros z z' (s & Hs & Hz)%HX Hz'. apply HX. exists s. split; [done|]. by eapply rtc_r. }
  destruct (stage_parents _ _ _ _) as [[] stage'].
  - destruct Hsp as [-> Hc]. apply IH; [lia|by apply searching_round|done|lia|by right|right; lia|].
    intros a e' [->%elem_of_singleton|Ha]%elem_of_union He'; [|by apply Hlim with a]. assert (e' = e) as -> by congruence. lia.
  - eexists _, _. split; [done|]. split; [done|]. intros (Hw & _).
    rewrite <- Nat2Z.inj_add, <- size_disjoint in Hsp by set_solver +Hdis. apply subseteq_size in Hin. lia.
Qed.

(** The parents in the pool of a transaction, and all its ancestors. *)
Definition pool_parents pool (tx : CTransaction) : setEntries := filter (fun h => is_Some (mapTx pool !! h)) (setParentTransactions tx).
Definition entry_ancestors pool (tx : CTransaction) : setEntries :=
  pool_parents pool tx ∪ ⋃ (ancestors pool <$> elements (pool_parents pool tx)).

Lemma elem_of_entry_ancestors pool tx y : links_closed pool ->
  y ∈ entry_ancestors pool tx <-> exists s, s ∈ pool_parents pool tx /\ rtc (edge (par pool)) s y.
Proof.
  intros Hl. unfold entry_ancestors. rewrite elem_of_union, elem_of_union_list. split.
  - intros [Hy|(X & (s & -> & Hs%elem_of_elements)%list_elem_of_fmap & Hy)]; [exists y; split; [done|apply rtc_refl]|].
    exists s. split; [done|]. by apply tc_rtc, (ancestors_reach pool s Hl).
  - intros (s & Hs & Ht). inversion Ht as [|? z ? Hsz Hzy]; subst; [by left|]. right. exists (ancestors pool s).
    split; [apply list_elem_of_fmap; exists s; split; [done|by apply elem_of_elements]|].
    apply (ancestors_reach pool s Hl). apply reach_from_neighbours. by exists z.
Qed.

Lemma elem_of_pool_parents pool tx h : h ∈ pool_parents pool tx <-> h ∈ dom (mapTx pool) /\ exists i, i ∈ vin tx /\ hash (prevout i) = h.
Proof.
  unfold pool_parents, setParentTransactions. rewrite elem_of_filter, elem_of_dom, elem_of_list_to_set, list_elem_of_fmap. naive_solver.
Qed.

Lemma entry_ancestors_dom pool tx : links_closed pool -> entry_ancestors pool tx ⊆ dom (mapTx pool).
Proof.
  intros Hl y (s & Hs & Ht)%elem_of_entry_ancestors; [|done]. apply elem_of_pool_parents in Hs as [Hs _].
  inversion Ht as [|? z ? Hsz Hzy]; subst; [done|]. apply (reach_dom (g := par pool) (x := s)); [intros ?; by apply par_dom|].
  apply reach_from_neighbours. by exists z.
Qed.

Lemma search_parents_spec pool lim l : forall P0, (P0 = ∅ \/ Z.of_nat (size P0) + 1 <= limitAncestorCount lim) ->
  let P := P0 ∪ filter (fun h => is_Some (mapTx pool !! h)) (list_to_set ((fun i => hash (prevout i)) <$> l)) in
  match search_parents pool lim l P0 with
  | (true, P') => P' = P /\ (P = ∅ \/ Z.of_nat (size P) + 1 <= limitAncestorCount lim)
  | (false, _) => P <> ∅ /\ limitAncestorCount lim < Z.of_nat (size P) + 1
  end.
Proof.
  induction l as [|i l IH]; intros P0 HP0 P; cbn [search_parents].
  - assert (P = P0) as -> by (unfold P; set_solver +). done.
  - destruct (mapTx pool !! hash (prevout i)) as [e|] eqn:Ee.
    + set (P1 := {[hash (prevout i)]} ∪ P0).
      assert (EP : P = P1 ∪ filter (fun h => is_Some (mapTx pool !! h)) (list_to_set ((fun i => hash (prevout i)) <$> l))).
      { unfold P, P1. cbn [fmap list_fmap list_to_set]. apply set_eq. intros y.
        assert (y = hash (prevout i) -> is_Some (mapTx pool !! y)) by (intros ->; by exists e).
        rewrite !elem_of_union, !elem_of_filter, !elem_of_union, !elem_of_singleton. tauto. }
      destruct (Z.ltb_spec (limitAncestorCount lim) (Z.of_nat (size P1) + 1)) as [Hlt|Hge].
      * assert (HP1 : P1 ⊆ P) by (rewrite EP; set_solver +). split; [unfold P1 in HP1; set_solver +HP1|]. apply subseteq_size in HP1. lia.
      * specialize (IH P1 (or_intror Hge)). cbv zeta in IH. by rewrite <- EP in IH.
    + specialize (IH P0 HP0). cbv zeta in IH.
      assert (EP : P = P0 ∪ filter (fun h => is_Some (mapTx pool !! h)) (list_to_set ((fun i => hash (prevout i)) <$> l))).
      { unfold P. cbn [fmap list_fmap list_to_set]. apply set_eq. intros y.
        assert (y = hash (prevout i) -> ~ is_Some (mapTx pool !! y)) by (intros -> [? ?]; congruence).
        rewrite !elem_of_union, !elem_of_filter, !elem_of_union, !elem_of_singleton. tauto. }
      by rewrite <- EP in IH.
Qed.

(** [CalculateMemPoolAncestors] for a transaction that is not in the pool. *)
Lemma search_for_ancestors pool entry lim : links_closed pool -> readable pool (nTxSize entry) ->
  let X := entry_ancestors pool (entry_tx entry) in
  exists err Y, CalculateMemPoolAncestors pool entry ∅ lim true = Some (err, Y) /\
    match err with
    | None => Y = X /\ (X = ∅ \/ within lim (mapTx pool) (nTxSize entry) X)
    | Some _ => X <> ∅ /\ ~ within lim (mapTx pool) (nTxSize entry) X
    end.
Proof.
  intros Hl Hr X. unfold CalculateMemPoolAncestors.
  pose proof (search_parents_spec pool lim (vin (entry_tx entry)) ∅ (or_introl eq_refl)) as Hs. cbv zeta in Hs.
  rewrite (left_id_L ∅ (∪)) in Hs. change (filter _ _) with (pool_parents pool (entry_tx entry)) in Hs.
  assert (HP : pool_parents pool (entry_tx entry) ⊆ X) by (unfold X, entry_ancestors; set_solver +).
  destruct (search_parents _ _ _ _) as [[] P].
  - destruct Hs as [-> Hc]. apply (ancestors_loop_spec pool lim entry (pool_parents pool (entry_tx entry)) X); try done.
    + by apply entry_ancestors_dom.
    + intros y. by apply elem_of_entry_ancestors.
    + rewrite difference_empty_L, <- size_dom. apply subseteq_size. by apply entry_ancestors_dom.
    + apply searching_init.
    + by rewrite (right_id_L ∅ (∪)).
    + rewrite sum_over_empty. lia.
    + rewrite (right_id_L ∅ (∪)), size_empty. destruct Hc; [by left|right; lia].
    + by left.
  - destruct Hs as [Hne Hlt]. eexists _, _. split; [done|]. split; [set_solver +HP Hne|]. intros (Hw & _). apply subseteq_size in HP. lia.
Qed.

Lemma within_no_limits pool sz X : readable pool sz -> X ⊆ dom (mapTx pool) -> within no_limits (mapTx pool) sz X.
Proof.
  intros [Hsz Hso (Hbc & Hbs & _) Hd] HX. pose proof (fun k y => weight_nonneg (mapTx pool) k y Hso) as Hn. repeat split; cbn; unfold nNoLimit.
  - rewrite <- sum_over_one. assert (sum_over (fun _ => 1) X <= sum_over (weight_at (mapTx pool) Count) (dom (mapTx pool))); [|lia].
    rewrite (sum_over_ext (fun _ => 1) (weight_at (mapTx pool) Count)).
    + apply sum_over_subset; [done|]. intros y _. by apply Hn.
    + intros y Hy. apply HX, elem_of_dom in Hy as [e He]. unfold weight_at. by rewrite He.
  - assert (sum_over (weight_at (mapTx pool) Size) X <= sum_over (weight_at (mapTx pool) Size) (dom (mapTx pool))); [|lia].
    apply sum_over_subset; [done|]. intros y _. by apply Hn.
  - destruct (Hd a e); [done|]. lia.
  - destruct (Hd a e); [done|]. lia.
Qed.

(** The ancestors of an entry of the pool, found through the links. *)
Lemma linked_ancestors pool entry : links_closed pool -> readable pool (nTxSize entry) -> GetHash (entry_tx entry) ∈ dom (mapTx pool) ->
  CalculateMemPoolAncestors pool entry ∅ no_limits false = Some (None, ancestors pool (GetHash (entry_tx entry))).
Proof.
  intros Hl Hr Hin. unfold CalculateMemPoolAncestors. set (t := GetHash (entry_tx entry)) in *.
  rewrite GetMemPoolParents_par by (by rewrite (links_dom _ Hl)). cbn [mbind option_bind].
  pose proof (ancestors_dom pool t Hl) as Hd.
  destruct (ancestors_loop_spec pool no_limits entry (par pool t) (ancestors pool t) Hl Hr Hd) with
    (fuel := size (mapTx pool)) (stage := par pool t) (seen := (∅ : setEntries)) (tot := nTxSize entry) as (err & Y & E & HY); try done.
  - intros y. rewrite (ancestors_reach pool t Hl y). symmetry. apply reach_from_neighbours.
  - rewrite difference_empty_L, <- size_dom. by apply subseteq_size.
  - apply searching_init.
  - rewrite (right_id_L ∅ (∪)). intros y Hy. apply (ancestors_reach pool t Hl). by apply tc_once.
  - rewrite sum_over_empty. lia.
  - right. destruct (within_no_limits pool (nTxSize entry) (par pool t) Hr (par_dom pool Hl t)) as (Hc & _).
    cbn in *. rewrite size_empty. lia.
  - by left.
  - rewrite E. destruct err as [err|]; [|by destruct HY as [-> _]]. destruct HY as [_ []]. by apply within_no_limits.
Qed.

Lemma descendants_loop_spec pool (start X : setEntries) : links_closed pool -> X ⊆ dom (mapTx pool) ->
  (forall y z, y ∈ X -> z ∈ chi pool y -> z ∈ X) -> (forall y, y ∈ X -> exists s, s ∈ start /\ rtc (edge (chi pool)) s y) ->
  forall fuel stage seen, (size (X ∖ seen) <= fuel)%nat -> searching (chi pool) start stage seen -> stage ∪ seen ⊆ X ->
  descendants_loop fuel pool stage seen = Some X.
Proof.
  intros Hl HXd Hcl HX.
  induction fuel as [|fuel IH]; intros stage seen Hf Hi Hsub; cbn [descendants_loop]; destruct (begin stage) as [x|] eqn:Eb.
  1: { apply begin_some in Eb. pose proof (search_measure X stage seen x Eb (searching_disjoint _ _ _ _ Hi) ltac:(set_solver +Hsub)). lia. }
  1, 3: apply begin_none in Eb as ->; f_equal; apply set_eq; intros y; split; [set_solver +Hsub|intros Hy%HX; by apply (searching_done _ _ _ _ Hi)].
  apply begin_some in Eb. assert (HxX : x ∈ X) by (apply Hsub; set_solver +Eb).
  rewrite GetMemPoolChildren_chi by (rewrite (links_dom _ Hl); by apply HXd). cbn [mbind option_bind].
  pose proof (search_measure X stage seen x Eb (searching_disjoint _ _ _ _ Hi) ltac:(set_solver +Hsub)).
  apply IH; [lia|by apply searching_round|]. intros y Hy.
  apply (searching_sound (chi pool) (fun y => y ∈ X) stage seen x); [done|by apply Hsub|done..].
Qed.

(** An entry with all its descendants. *)
Definition package pool (t : uint256) : setEntries := {[t]} ∪ descendants pool t.

Lemma elem_of_package pool t y : links_closed pool -> y ∈ package pool t <-> rtc (edge (chi pool)) t y.
Proof.
  intros Hl. unfold package. rewrite elem_of_union, elem_of_singleton, (descendants_reach pool t Hl y). split.
  - intros [->|Ht]; [apply rtc_refl|by apply tc_rtc].
  - intros Ht. inversion Ht as [|? z ? Hs Hz]; subst; [by left|]. right. apply reach_from_neighbours. by exists z.
Qed.

Lemma CalculateDescendants_spec pool t seen : links_closed pool -> t ∈ dom (mapTx pool) -> seen ⊆ dom (mapTx pool) ->
  (forall y z, y ∈ seen -> z ∈ chi pool y -> z ∈ seen) ->
  CalculateDescendants pool t seen = Some (seen ∪ package pool t).
Proof.
  intros Hl Ht Hs Hc. unfold CalculateDescendants.
  assert (Hpd : package pool t ⊆ dom (mapTx pool)) by (unfold package; pose proof (descendants_dom pool t Hl); set_solver).
  assert (Hpc : forall y z, y ∈ package pool t -> z ∈ chi pool y -> z ∈ package pool t).
  { intros y z Hy Hz. rewrite elem_of_package in * by done. by eapply rtc_r. }
  case_bool_decide as Hin.
  - assert (Hp : package pool t ⊆ seen).
    { intros y Hy. rewrite elem_of_package in Hy by done. clear -Hy Hin Hc. induction Hy as [|a b c Hab Hbc IH]; [done|]. apply IH. by eapply Hc. }
    assert (seen ∪ package pool t = seen) as -> by set_solver +Hp.
    apply (descendants_loop_spec pool seen); [done..| | | |].
    + intros y Hy. exists y. split; [done|apply rtc_refl].
    + rewrite <- size_dom. apply subseteq_size. set_solver +Hs.
    + constructor; [set_solver +|set_solver +|]. intros x Hx z Hz. specialize (Hc x z Hx Hz). set_solver +Hc.
    + set_solver +.
  - apply (descendants_loop_spec pool ({[t]} ∪ seen)); [done| | | | | |].
    + set_solver +Hs Hpd.
    + intros y z [Hy|Hy]%elem_of_union Hz; [specialize (Hc y z Hy Hz); set_solver +Hc|specialize (Hpc y z Hy Hz); set_solver +Hpc].
    + intros y [Hy|Hy]%elem_of_union; [exists y; split; [set_solver +Hy|apply rtc_refl]|].
      exists t. split; [set_solver +|by apply elem_of_package].
    + rewrite <- size_dom. apply subseteq_size. set_solver +Hs Hpd.
    + constructor; [set_solver +Hin|set_solver +|]. intros x Hx z Hz. specialize (Hc x z Hx Hz). set_solver +Hc.
    + unfold package. set_solver +.
Qed.

Lemma descendants_of_entry pool t : links_closed pool -> t ∈ dom (mapTx pool) -> CalculateDescendants pool t ∅ = Some (package pool t).
Proof. intros Hl Ht. rewrite CalculateDescendants_spec by (done || set_solver +). by rewrite (left_id_L ∅ (∪)). Qed.

(** Several entries with all their descendants. *)
Lemma all_descendants_spec pool (X : setEntries) : links_closed pool -> X ⊆ dom (mapTx pool) ->
  exists Y, all_descendants pool (in_hash_order X) ∅ = Some Y /\
    (forall y, y ∈ Y <-> exists s, s ∈ X /\ rtc (edge (chi pool)) s y) /\ Y ⊆ dom (mapTx pool) /\ (forall y, y ∈ Y -> chi pool y ⊆ Y).
Proof.
  intros Hl HX. destruct (each_set X (CalculateDescendants pool) (fun R Y =>
    (forall y, y ∈ Y <-> exists s, s ∈ R /\ rtc (edge (chi pool)) s y) /\ Y ⊆ dom (mapTx pool) /\ (forall y z, y ∈ Y -> z ∈ chi pool y -> z ∈ Y)) ∅)
    as (Y & E & HY & Hd & Hc).
  { split; [|set_solver +]. intros y. split; [set_solver +|]. intros (s & Hs & _). set_solver +Hs. }
  2: { exists Y. repeat (split; [done|]). intros y Hy z Hz. by apply (Hc y). }
  intros R x Y HR Hx Hn (HY & Hd & Hc). exists (Y ∪ package pool x).
  split; [apply CalculateDescendants_spec; [done|by apply HX|done..]|]. split; [|split].
  - intros y. rewrite elem_of_union, HY, elem_of_package by done. split.
    + intros [(s & Hs & Ht)|Ht]; [exists s|exists x]; (split; [|done]); [by apply elem_of_union_r|by apply elem_of_union_l, elem_of_singleton].
    + intros (s & [->%elem_of_singleton|Hs]%elem_of_union & Ht); [by right|left; by exists s].
  - pose proof (descendants_dom pool x Hl). specialize (HX x Hx). unfold package. set_solver.
  - intros y z [Hy|Hy]%elem_of_union Hz; [apply elem_of_union_l; by apply (Hc y)|].
    apply elem_of_union_r. rewrite elem_of_package in * by done. by eapply rtc_r.
Qed.

End WithEnv.

End MemPoolInv.
