(* ===== verification/MemPoolOps.v ===== *)
(** * Adding and removing transactions of the memory pool

    The invariant of the pool and its proofs for [addUnchecked], [RemoveStaged]
    and the operations built from them. *)

From stdpp Require Import base relations list list_numbers gmap fin_sets sorting numbers option.
From Stdlib Require Import ZArith Lia.
From S2P Require Import Prelude Serialize Script Transaction Interpreter InterpreterSafety Coins Ledger TxGraph MemPool MemPoolInv.

Local Open Scope Z_scope.

Module MemPoolOps.
Import Serialize Script Transaction Interpreter Ledger TxGraph MemPool MemPoolInv.

Section WithEnv.
Context `{!Crypto} `{!PoolEnv}.
Implicit Types (pool : CTxMemPool) (e : CTxMemPoolEntry) (it t x : uint256) (X : setEntries) (s : side) (T : side -> uint256 -> setEntries) (add : bool).
#[local] Hint Resolve links_ok_closed : core.

(** ** The invariant *)

Definition sets pool (s : side) (t : uint256) : setEntries :=
  match s with Anc => ancestors pool t | Desc => descendants pool t end.

(** The memory of the entries and of their links. *)
Definition usage_at (M : entries) (t : uint256) : Z := from_option nUsageSize 0 (M !! t).
Definition link_usage pool (t : uint256) : Z := set_usage (par pool t) + set_usage (chi pool t).
Definition inner_usage pool : Z :=
  sum_over (usage_at (mapTx pool)) (dom (mapTx pool)) + sum_over (link_usage pool) (dom (mapLinks pool)).
Definition usage_ok pool : Prop := cachedInnerUsage pool = u64 (inner_usage pool).

Definition prevouts (tx : CTransaction) : list COutPoint := prevout <$> vin tx.

Record wf pool : Prop := mkWf {
  wf_hash t e : mapTx pool !! t = Some e -> GetHash (entry_tx e) = t;
  wf_sizes : sizes_ok (mapTx pool);
  wf_bounded : bounded (mapTx pool);
  wf_links : links_ok pool;
  wf_acyclic : acyclic (par pool);
  wf_inputs t e : mapTx pool !! t = Some e -> par pool t ⊆ setParentTransactions (entry_tx e);
  wf_totals : totals (mapTx pool) (sets pool);
  wf_next o t : mapNextTx pool !! o = Some t <-> exists e, mapTx pool !! t = Some e /\ o ∈ prevouts (entry_tx e);
  wf_index t e : mapTx pool !! t = Some e -> 0 <= vTxHashesIdx e /\ vTxHashes pool !! Z.to_nat (vTxHashesIdx e) = Some (t, Some t);
  wf_hashes i p : vTxHashes pool !! i = Some p -> exists t e, p = (t, Some t) /\ mapTx pool !! t = Some e /\ vTxHashesIdx e = Z.of_nat i;
  wf_size : totalTxSize pool = u64 (sum_over (weight_at (mapTx pool) Size) (dom (mapTx pool)));
  wf_usage : usage_ok pool
}.

(** Every parent in the pool is linked: this holds except between the return of
    transactions from a disconnected block and [UpdateTransactionsFromBlock]. *)
Definition linked pool : Prop := forall t e, mapTx pool !! t = Some e -> par pool t = pool_parents pool (entry_tx e).

(** The deltas of the entries are those of the pool. *)
Definition prioritised pool : Prop := forall t e, mapTx pool !! t = Some e -> feeDelta e = default 0 (mapDeltas pool !! t).

Lemma totals_readable pool T sz : totals (mapTx pool) T -> sizes_ok (mapTx pool) -> bounded (mapTx pool) -> 0 <= sz < 2 ^ 63 -> readable pool sz.
Proof.
  intros Ht Hs Hb Hsz. split; [done..|]. intros t e He. assert (Hin : t ∈ dom (mapTx pool)) by (apply elem_of_dom; eauto).
  destruct (totals_sets _ _ Ht Desc t Hin) as [Hn Hsub]. destruct (Hs t e He) as [Hpos _]. destruct Hb as (Hbc & Hbs & _).
  pose proof (node_bound _ Size t e _ Hs ltac:(done) He Hn Hsub). pose proof (node_bound _ Count t e _ Hs ltac:(done) He Hn Hsub).
  pose proof (totals_sum _ _ Ht Desc t e Size ltac:(by right) He) as E1. pose proof (totals_sum _ _ Ht Desc t e Count ltac:(by right) He) as E2.
  cbn [total wrap weight] in *. rewrite E1, E2, !u64_small by lia. lia.
Qed.

Lemma entry_size pool t e : sizes_ok (mapTx pool) -> bounded (mapTx pool) -> mapTx pool !! t = Some e -> 0 <= nTxSize e < 2 ^ 63.
Proof.
  intros Hs Hb He. pose proof (node_bound _ Size t e ∅ Hs ltac:(done) He ltac:(set_solver +) ltac:(set_solver +)) as Hn.
  rewrite sum_over_empty in Hn. destruct (Hs t e He), Hb as (_ & Hb & _). cbn [weight] in Hn. lia.
Qed.

(** ** What the updates of totals and links leave alone *)

Record frame pool pool' : Prop := mkFrame {
  frame_core : same_core (mapTx pool) (mapTx pool');
  frame_index t : vTxHashesIdx <$> mapTx pool' !! t = vTxHashesIdx <$> mapTx pool !! t;
  frame_links : dom (mapLinks pool') = dom (mapLinks pool);
  frame_hashes : vTxHashes pool' = vTxHashes pool;
  frame_next : mapNextTx pool' = mapNextTx pool;
  frame_deltas : mapDeltas pool' = mapDeltas pool;
  frame_size : totalTxSize pool' = totalTxSize pool;
  frame_usage : usage_ok pool -> usage_ok pool'
}.

Lemma frame_refl pool : frame pool pool.
Proof. by split. Qed.

Lemma frame_trans p1 p2 p3 : frame p1 p2 -> frame p2 p3 -> frame p1 p3.
Proof.
  intros [] []. split; [by eapply entries_core_trans| |congruence..|auto].
  intros t. by rewrite frame_index1, frame_index0.
Qed.

Lemma same_core_usage M M' t : same_core M M' -> usage_at M' t = usage_at M t.
Proof.
  intros Hc. specialize (Hc t). unfold usage_at. destruct (M !! t) as [e|], (M' !! t) as [e'|]; try done. injection Hc as Hc. cbn. congruence.
Qed.

Lemma frame_entries pool M : same_core (mapTx pool) M -> (forall t, vTxHashesIdx <$> M !! t = vTxHashesIdx <$> mapTx pool !! t) ->
  frame pool (set_entries pool M).
Proof.
  intros Hc Hi. split; [done..|]. unfold usage_ok, inner_usage. cbn [cachedInnerUsage set_entries mapTx mapLinks]. intros ->. f_equal.
  rewrite (same_core_dom _ _ Hc). f_equal. apply sum_over_ext. intros t _. symmetry. by apply same_core_usage.
Qed.

(** [UpdateChild] and [UpdateParent] as changes of one of the two maps of links. *)
Definition changed (X : setEntries) (x : uint256) (add : bool) : setEntries := if add then {[x]} ∪ X else X ∖ {[x]}.
Definition change_usage (X : setEntries) (x : uint256) (add : bool) : Z := set_usage (changed X x add) - set_usage X.

Lemma change_usage_eq X x add : change_usage X x add =
  if add then (if bool_decide (x ∈ X) then 0 else set_node_usage) else (if bool_decide (x ∈ X) then - set_node_usage else 0).
Proof.
  unfold change_usage, set_usage, changed. destruct add; case_bool_decide as Hin.
  - replace ({[x]} ∪ X) with X by set_solver. lia.
  - rewrite size_union, size_singleton by set_solver. lia.
  - pose proof (subseteq_size {[x]} X ltac:(set_solver)) as Hs. rewrite size_difference by set_solver. rewrite size_singleton in *.
    replace (Z.of_nat (size X - 1)) with (Z.of_nat (size X) - 1) by lia. lia.
  - replace (X ∖ {[x]}) with X by set_solver. lia.
Qed.

Lemma set_links_frame pool entry l u X x add : entry ∈ dom (mapLinks pool) ->
  set_usage (parents l) + set_usage (children l) = link_usage pool entry + change_usage X x add ->
  (usage_ok pool -> u = u64 (cachedInnerUsage pool + change_usage X x add)) ->
  frame pool (set_links pool (<[entry := l]> (mapLinks pool)) u).
Proof.
  intros Hin Hu Hc. assert (Hd : dom (<[entry := l]> (mapLinks pool)) = dom (mapLinks pool)) by (rewrite dom_insert_L; set_solver +Hin).
  split; try done. intros Hok. set (pool' := set_links pool _ u).
  assert (El : link_usage pool' entry = set_usage (parents l) + set_usage (children l)).
  { unfold link_usage, par, chi, links_at. cbn [mapLinks pool' set_links]. by rewrite lookup_insert_eq. }
  assert (Hi : inner_usage pool' = inner_usage pool + change_usage X x add).
  { unfold inner_usage. cbn [mapTx mapLinks pool' set_links]. rewrite Hd.
    rewrite (sum_over_update (link_usage pool) (link_usage pool') entry (dom (mapLinks pool)) Hin); [lia|].
    intros y Hy Hne. unfold link_usage, par, chi, links_at. cbn [mapLinks pool' set_links]. by rewrite lookup_insert_ne. }
  unfold usage_ok. rewrite Hi. cbn [cachedInnerUsage pool' set_links]. rewrite (Hc Hok), Hok. apply (wrap_add_l Size).
Qed.

Lemma usage_unchanged pool : usage_ok pool -> cachedInnerUsage pool = u64 (cachedInnerUsage pool + 0).
Proof. intros ->. rewrite (wrap_add_l Size). cbn [wrap]. f_equal. lia. Qed.

Lemma UpdateChild_spec entry child add pool : entry ∈ dom (mapLinks pool) ->
  frame pool (UpdateChild entry child add pool) /\ mapTx (UpdateChild entry child add pool) = mapTx pool /\
  (forall t, par (UpdateChild entry child add pool) t = par pool t) /\
  (forall t, chi (UpdateChild entry child add pool) t = if decide (t = entry) then changed (chi pool entry) child add else chi pool t).
Proof.
  intros Hin. assert (E : exists u, UpdateChild entry child add pool =
    set_links pool (<[entry := mkLinks (par pool entry) (changed (chi pool entry) child add)]> (mapLinks pool)) u /\
    (usage_ok pool -> u = u64 (cachedInnerUsage pool + change_usage (chi pool entry) child add))).
  { unfold UpdateChild. destruct add; eexists; (split; [reflexivity|]); intros Hok; rewrite change_usage_eq; fold (chi pool entry);
      case_bool_decide; try done; by apply usage_unchanged. }
  destruct E as (u & -> & Hu). split; [|split; [done|split]].
  - apply (set_links_frame pool entry _ u (chi pool entry) child add); [done| |done]. unfold change_usage, link_usage. cbn [parents children]. lia.
  - intros t. unfold par, links_at. cbn [mapLinks set_links]. destruct (decide (t = entry)) as [->|Hne]; [by rewrite lookup_insert_eq|by rewrite lookup_insert_ne].
  - intros t. unfold chi at 1, links_at. cbn [mapLinks set_links]. case_decide as Hd; [subst; by rewrite lookup_insert_eq|by rewrite lookup_insert_ne].
Qed.

Lemma UpdateParent_spec entry parent add pool : entry ∈ dom (mapLinks pool) ->
  frame pool (UpdateParent entry parent add pool) /\ mapTx (UpdateParent entry parent add pool) = mapTx pool /\
  (forall t, par (UpdateParent entry parent add pool) t = if decide (t = entry) then changed (par pool entry) parent add else par pool t) /\
  (forall t, chi (UpdateParent entry parent add pool) t = chi pool t).
Proof.
  intros Hin. assert (E : exists u, UpdateParent entry parent add pool =
    set_links pool (<[entry := mkLinks (changed (par pool entry) parent add) (chi pool entry)]> (mapLinks pool)) u /\
    (usage_ok pool -> u = u64 (cachedInnerUsage pool + change_usage (par pool entry) parent add))).
  { unfold UpdateParent. destruct add; eexists; (split; [reflexivity|]); intros Hok; rewrite change_usage_eq; fold (par pool entry);
      case_bool_decide; try done; by apply usage_unchanged. }
  destruct E as (u & -> & Hu). split; [|split; [done|split]].
  - apply (set_links_frame pool entry _ u (par pool entry) parent add); [done| |done]. unfold change_usage, link_usage. cbn [parents children]. lia.
  - intros t. unfold par at 1, links_at. cbn [mapLinks set_links]. case_decide as Hd; [subst; by rewrite lookup_insert_eq|by rewrite lookup_insert_ne].
  - intros t. unfold chi, links_at. cbn [mapLinks set_links]. destruct (decide (t = entry)) as [->|Hne]; [by rewrite lookup_insert_eq|by rewrite lookup_insert_ne].
Qed.

(** ** Loops over links and totals *)

Lemma update_children X it add pool : X ⊆ dom (mapLinks pool) ->
  let pool' := foldl (fun pool piter => UpdateChild piter it add pool) pool (in_hash_order X) in
  frame pool pool' /\ mapTx pool' = mapTx pool /\ (forall t, par pool' t = par pool t) /\
  (forall t, chi pool' t = if decide (t ∈ X) then changed (chi pool t) it add else chi pool t).
Proof.
  intros HX. apply (foldl_set X _ (fun R pool' => frame pool pool' /\ mapTx pool' = mapTx pool /\ (forall t, par pool' t = par pool t) /\
    (forall t, chi pool' t = if decide (t ∈ R) then changed (chi pool t) it add else chi pool t))).
  - split; [apply frame_refl|]. do 2 (split; [done|]). intros t. by rewrite decide_False by set_solver +.
  - intros R x p HR Hx Hn (Hf & Hm & Hp & Hc).
    destruct (UpdateChild_spec x it add p) as (Hf1 & Hm1 & Hp1 & Hc1); [rewrite (frame_links _ _ Hf); by apply HX|].
    split; [by eapply frame_trans|]. split; [congruence|]. split; [intros t; by rewrite Hp1|].
    intros t. rewrite Hc1, !Hc. destruct (decide (t = x)) as [->|Hne].
    + rewrite decide_False, decide_True by set_solver +Hn. done.
    + destruct (decide (t ∈ R)), (decide (t ∈ {[x]} ∪ R)); try done; set_solver.
Qed.

Lemma update_parents X it add pool : X ⊆ dom (mapLinks pool) ->
  let pool' := foldl (fun pool citer => UpdateParent citer it add pool) pool (in_hash_order X) in
  frame pool pool' /\ mapTx pool' = mapTx pool /\ (forall t, chi pool' t = chi pool t) /\
  (forall t, par pool' t = if decide (t ∈ X) then changed (par pool t) it add else par pool t).
Proof.
  intros HX. apply (foldl_set X _ (fun R pool' => frame pool pool' /\ mapTx pool' = mapTx pool /\ (forall t, chi pool' t = chi pool t) /\
    (forall t, par pool' t = if decide (t ∈ R) then changed (par pool t) it add else par pool t))).
  - split; [apply frame_refl|]. do 2 (split; [done|]). intros t. by rewrite decide_False by set_solver +.
  - intros R x p HR Hx Hn (Hf & Hm & Hp & Hc).
    destruct (UpdateParent_spec x it add p) as (Hf1 & Hm1 & Hc1 & Hp1); [rewrite (frame_links _ _ Hf); by apply HX|].
    split; [by eapply frame_trans|]. split; [congruence|]. split; [intros t; by rewrite Hp1|].
    intros t. rewrite Hc1, !Hc. destruct (decide (t = x)) as [->|Hne].
    + rewrite decide_False, decide_True by set_solver +Hn. done.
    + destruct (decide (t ∈ R)), (decide (t ∈ {[x]} ∪ R)); try done; set_solver.
Qed.

(** The sets over which totals are taken, when the entries of [X] gain or lose [it]. *)
Definition retotal (T : side -> uint256 -> setEntries) (s : side) (X : setEntries) (it : uint256) (add : bool) : side -> uint256 -> setEntries :=
  fun s' t => if decide (s' = s /\ t ∈ X) then changed (T s t) it add else T s' t.

Definition delta (add : bool) (e : CTxMemPoolEntry) (k : stat) : Z := signed k (update_count add * weight k e).

Lemma update_totals_one s X it e add pool T : totals (mapTx pool) T -> sizes_ok (mapTx pool) -> bounded (mapTx pool) ->
  mapTx pool !! it = Some e -> X ⊆ dom (mapTx pool) ->
  (forall x, x ∈ X -> if add then it ∉ T s x /\ it <> x else it ∈ T s x) ->
  exists M', each (fun t => modify t (UpdateState s (delta add e))) (in_hash_order X) pool = Some (set_entries pool M') /\
    totals M' (retotal T s X it add) /\ frame pool (set_entries pool M').
Proof.
  intros Ht Hs Hb He HX Hit. assert (Hd : it ∈ dom (mapTx pool)) by (apply elem_of_dom; eauto).
  assert (Hw : forall k, weight_at (mapTx pool) k it = weight k e) by (intros k; unfold weight_at; by rewrite He).
  destruct (update_totals s X (delta add e) pool T (retotal T s X it add) Ht Hs Hb HX) as (M' & E & Hc & Ht' & Hi).
  - intros x Hx. specialize (Hit x Hx). destruct (totals_sets _ _ Ht s x (HX x Hx)) as [Hn Hsub]. unfold retotal. rewrite decide_True by done.
    unfold changed, delta. split; [destruct add; set_solver|]. split; [destruct add; set_solver|]. intros k Hk. rewrite wrap_signed.
    destruct add; cbn [update_count].
    + rewrite sum_over_insert by apply Hit. rewrite Hw. f_equal; lia.
    + rewrite sum_over_delete by done. rewrite Hw. f_equal; lia.
  - intros s' x Hx. unfold retotal. rewrite decide_False; [done|]. intros [-> ?]. naive_solver.
  - exists M'. split; [done|]. split; [done|]. by apply frame_entries.
Qed.

Lemma UpdateAncestorsOf_spec add it e X pool T : links_closed pool -> mapTx pool !! it = Some e -> totals (mapTx pool) T ->
  sizes_ok (mapTx pool) -> bounded (mapTx pool) -> X ⊆ dom (mapTx pool) ->
  (forall x, x ∈ X -> if add then it ∉ T Desc x /\ it <> x else it ∈ T Desc x) ->
  exists pool', UpdateAncestorsOf add it X pool = Some pool' /\ frame pool pool' /\ totals (mapTx pool') (retotal T Desc X it add) /\
    (forall t, par pool' t = par pool t) /\
    (forall t, chi pool' t = if decide (t ∈ par pool it) then changed (chi pool t) it add else chi pool t).
Proof.
  intros Hl He Ht Hs Hb HX Hit. assert (Hin : it ∈ dom (mapTx pool)) by (apply elem_of_dom; eauto).
  unfold UpdateAncestorsOf. rewrite GetMemPoolParents_par by (by rewrite (links_dom _ Hl)). cbn [mbind option_bind].
  destruct (update_children (par pool it) it add pool) as (Hf & Hm & Hp & Hc); [rewrite (links_dom _ Hl); apply (par_dom _ Hl)|].
  set (pool1 := foldl _ pool _) in *. rewrite Hm, He. cbn [mbind option_bind].
  destruct (update_totals_one Desc X it e add pool1 T) as (M' & E & Ht' & Hf'); rewrite ?Hm; try done.
  exists (set_entries pool1 M'). split.
  - rewrite <- E. by destruct add.
  - split; [by eapply frame_trans|]. split; [done|]. by split.
Qed.

(** Frames keep what the searches need. *)
Lemma frame_lookup pool pool' t e : frame pool pool' -> mapTx pool !! t = Some e -> exists e', mapTx pool' !! t = Some e' /\ core e' = core e.
Proof.
  intros Hf He. pose proof (frame_core _ _ Hf t) as Hc. rewrite He in Hc. destruct (mapTx pool' !! t) as [e'|]; [|done].
  exists e'. split; [done|]. change (Some (core e') = Some (core e)) in Hc. congruence.
Qed.

Lemma frame_sizes pool pool' : frame pool pool' -> sizes_ok (mapTx pool) -> sizes_ok (mapTx pool').
Proof. intros Hf. apply same_core_sizes, (frame_core _ _ Hf). Qed.

Lemma frame_bounded pool pool' : frame pool pool' -> bounded (mapTx pool) -> bounded (mapTx pool').
Proof. intros Hf. apply same_core_bounded, (frame_core _ _ Hf). Qed.

Lemma frame_dom pool pool' : frame pool pool' -> dom (mapTx pool') = dom (mapTx pool).
Proof. intros Hf. apply same_core_dom, (frame_core _ _ Hf). Qed.

(** The sets found depend on the links only. *)
Lemma ancestors_ext pool pool' t : links_closed pool -> links_closed pool' -> (forall t, par pool' t = par pool t) -> ancestors pool' t = ancestors pool t.
Proof.
  intros Hl Hl' Hp. apply (is_reach_unique (par pool) t); [|by apply ancestors_reach].
  intros y. rewrite (ancestors_reach pool' t Hl' y). split; apply tc_edge_mono; intros x; by rewrite Hp.
Qed.

Lemma descendants_ext pool pool' t : links_closed pool -> links_closed pool' -> (forall t, chi pool' t = chi pool t) -> descendants pool' t = descendants pool t.
Proof.
  intros Hl Hl' Hp. apply (is_reach_unique (chi pool) t); [|by apply descendants_reach].
  intros y. rewrite (descendants_reach pool' t Hl' y). split; apply tc_edge_mono; intros x; by rewrite Hp.
Qed.

Lemma totals_ext (M : entries) (T T' : side -> uint256 -> setEntries) : (forall s t, T' s t = T s t) -> totals M T -> totals M T'.
Proof. intros E [H1 H2]. split; [intros s t e k Hk He; rewrite E; by apply H1|intros s t Hin; rewrite E; by apply H2]. Qed.

(** ** Removing entries: the totals *)

(** The state while the entries of a set are forgotten: the links and the sets over
    which totals are taken, in terms of those of the pool at the start. *)
Definition forgetting pool (A D : uint256 -> setEntries) (p c : uint256 -> setEntries) pool' : Prop :=
  frame pool pool' /\ totals (mapTx pool') (fun s => match s with Anc => A | Desc => D end) /\
  (forall t, par pool' t = p t) /\ (forall t, chi pool' t = c t).

Lemma forgetting_closed pool (A D p c : uint256 -> setEntries) pool' : links_closed pool -> (forall t, p t ⊆ par pool t) -> (forall t, c t ⊆ chi pool t) ->
  forgetting pool A D p c pool' -> links_closed pool'.
Proof.
  intros Hl Hp Hc (Hf & _ & Ep & Ec). split.
  - rewrite (frame_links _ _ Hf), (frame_dom _ _ Hf). apply (links_dom _ Hl).
  - intros t. rewrite Ep, (frame_dom _ _ Hf), Hp. apply (par_dom _ Hl).
  - intros t. rewrite Ec, (frame_dom _ _ Hf), Hc. apply (chi_dom _ Hl).
Qed.

Lemma not_own_descendant pool t : links_ok pool -> acyclic (par pool) -> t ∉ descendants pool t.
Proof. intros Hl Ha Ht%(descendants_reach pool t (links_ok_closed _ Hl)). apply (Ha t). by apply tc_chi_par. Qed.

Lemma not_own_ancestor pool t : links_ok pool -> acyclic (par pool) -> t ∉ ancestors pool t.
Proof. intros Hl Ha Ht%(ancestors_reach pool t (links_ok_closed _ Hl)). by apply (Ha t). Qed.

Lemma forget_ancestors_spec pool (S : setEntries) : wf pool -> S ⊆ dom (mapTx pool) ->
  exists pool', each forget_ancestor (in_hash_order S) pool = Some pool' /\
    forgetting pool (fun t => ancestors pool t ∖ S) (descendants pool) (par pool) (chi pool) pool'.
Proof.
  intros Hw HS. pose proof (wf_links _ Hw) as Hl. pose proof (links_ok_closed _ Hl) as Hlc.
  apply (each_set S forget_ancestor (fun R => forgetting pool (fun t => ancestors pool t ∖ R) (descendants pool) (par pool) (chi pool))).
  - split; [apply frame_refl|]. split; [|done]. apply (totals_ext _ (sets pool)); [|apply (wf_totals _ Hw)]. intros [] t; cbn; [|done]. by rewrite difference_empty_L.
  - intros R r p HR Hr Hn Hfo. pose proof (forgetting_closed _ _ _ _ _ _ Hlc ltac:(done) ltac:(done) Hfo) as Hlp.
    destruct Hfo as (Hf & Ht & Ep & Ec). unfold forget_ancestor.
    assert (Hrd : r ∈ dom (mapTx p)) by (rewrite (frame_dom _ _ Hf); by apply HS). pose proof Hrd as [e He]%elem_of_dom.
    rewrite descendants_of_entry by done. cbn [mbind option_bind]. rewrite He. cbn [mbind option_bind].
    assert (EX : package p r ∖ {[r]} = descendants pool r).
    { unfold package. rewrite (descendants_ext pool p r Hlc Hlp Ec). pose proof (not_own_descendant pool r Hl (wf_acyclic _ Hw)) as Hno. set_solver +Hno. }
    rewrite EX. destruct (update_totals_one Anc (descendants pool r) r e false p _ Ht) as (M' & E & Ht' & Hf'); [| |done| | |].
    + by apply (frame_sizes _ _ Hf), (wf_sizes _ Hw).
    + by apply (frame_bounded _ _ Hf), (wf_bounded _ Hw).
    + rewrite (frame_dom _ _ Hf). by apply descendants_dom.
    + intros x Hx. cbn. apply elem_of_difference. split; [by apply ancestors_descendants|done].
    + exists (set_entries p M'). split.
      * rewrite <- E. cbn [UpdateState]. unfold delta. cbn [signed update_count weight].
        replace (-1 * nTxSize e) with (- nTxSize e) by lia. replace (-1 * GetModifiedFee e) with (- GetModifiedFee e) by lia.
        replace (-1 * sigOpCount e) with (- sigOpCount e) by lia. done.
      * split; [by eapply frame_trans|]. split; [|done]. refine (totals_ext _ _ _ _ Ht'). intros [] t; unfold retotal.
        -- destruct (decide (Anc = Anc /\ t ∈ descendants pool r)) as [[_ Hin]|Hout]; cbn; [set_solver +|].
           assert (r ∉ ancestors pool t) as Hno; [|set_solver +Hno]. intros Hin. apply Hout. split; [done|]. by apply ancestors_descendants.
        -- by rewrite decide_False by naive_solver.
Qed.

Lemma forget_descendants_spec pool pool1 (A : uint256 -> setEntries) (S : setEntries) : wf pool -> S ⊆ dom (mapTx pool) ->
  forgetting pool A (descendants pool) (par pool) (chi pool) pool1 ->
  exists pool', each forget_descendant (in_hash_order S) pool1 = Some pool' /\
    forgetting pool A (fun t => descendants pool t ∖ S) (par pool) (fun t => chi pool t ∖ S) pool'.
Proof.
  intros Hw HS Hfo1. pose proof (wf_links _ Hw) as Hl. pose proof (links_ok_closed _ Hl) as Hlc.
  apply (each_set S forget_descendant (fun R => forgetting pool A (fun t => descendants pool t ∖ R) (par pool) (fun t => chi pool t ∖ R))).
  - destruct Hfo1 as (Hf & Ht & Ep & Ec). split; [done|]. split; [|split; [done|intros t; by rewrite difference_empty_L]].
    refine (totals_ext _ _ _ _ Ht). intros [] t; [done|]. by rewrite difference_empty_L.
  - intros R r p HR Hr Hn Hfo. assert (Hlp : links_closed p) by (eapply forgetting_closed; [exact Hlc|..|exact Hfo]; [done|intros ?; set_solver +]).
    destruct Hfo as (Hf & Ht & Ep & Ec). unfold forget_descendant.
    assert (Hrd : r ∈ dom (mapTx p)) by (rewrite (frame_dom _ _ Hf); by apply HS). pose proof Hrd as [e He]%elem_of_dom.
    pose proof (frame_sizes _ _ Hf (wf_sizes _ Hw)) as Hso. pose proof (frame_bounded _ _ Hf (wf_bounded _ Hw)) as Hbo.
    assert (Hh : GetHash (entry_tx e) = r).
    { destruct (same_core_lookup _ _ _ _ (frame_core _ _ Hf) He) as (e0 & He0 & Hc). rewrite <- (wf_hash _ Hw r e0 He0). f_equal. by injection Hc. }
    rewrite He. cbn [mbind option_bind]. rewrite linked_ancestors; [|done| |by rewrite Hh].
    2: { eapply totals_readable; [done..|]. by eapply entry_size. }
    cbn [mbind option_bind]. rewrite Hh, (ancestors_ext pool p r Hlc Hlp Ep).
    destruct (UpdateAncestorsOf_spec false r e (ancestors pool r) p _ Hlp He Ht Hso Hbo) as (p' & E & Hf' & Ht' & Ep' & Ec').
    + rewrite (frame_dom _ _ Hf). by apply ancestors_dom.
    + intros x Hx. cbn. apply elem_of_difference. split; [by apply ancestors_descendants|done].
    + exists p'. split; [done|]. split; [by eapply frame_trans|]. split; [|split].
      * refine (totals_ext _ _ _ _ Ht'). intros [] t; unfold retotal; [by rewrite decide_False by naive_solver|].
        destruct (decide (Desc = Desc /\ t ∈ ancestors pool r)) as [[_ Hin]|Hout]; cbn; [set_solver +|].
        assert (r ∉ descendants pool t) as Hno; [|set_solver +Hno]. intros Hin. apply Hout. split; [done|]. by apply ancestors_descendants.
      * intros t. by rewrite Ep'.
      * intros t. rewrite Ec', Ec, Ep. case_decide as Hd; cbn; [set_solver +|].
        assert (r ∉ chi pool t) as Hno; [|set_solver +Hno]. by rewrite (links_sym _ Hl).
Qed.

(** The links of the entries that remain. *)
Definition kept_parents pool (S R : setEntries) (t : uint256) : setEntries := if decide (t ∈ S) then par pool t else par pool t ∖ R.

Lemma sever_children_spec pool pool2 (A D : uint256 -> setEntries) (S : setEntries) : wf pool -> S ⊆ dom (mapTx pool) ->
  forgetting pool A D (par pool) (fun t => chi pool t ∖ S) pool2 ->
  exists pool', each UpdateChildrenForRemoval (in_hash_order S) pool2 = Some pool' /\
    forgetting pool A D (kept_parents pool S S) (fun t => chi pool t ∖ S) pool'.
Proof.
  intros Hw HS Hfo2. pose proof (wf_links _ Hw) as Hl. pose proof (links_ok_closed _ Hl) as Hlc.
  apply (each_set S UpdateChildrenForRemoval (fun R => forgetting pool A D (kept_parents pool S R) (fun t => chi pool t ∖ S))).
  - destruct Hfo2 as (Hf & Ht & Ep & Ec). split; [done|]. split; [done|]. split; [|done]. intros t. rewrite Ep. unfold kept_parents. case_decide; set_solver +.
  - intros R r p HR Hr Hn Hfo.
    assert (Hlp : links_closed p).
    { eapply forgetting_closed; [exact Hlc|..|exact Hfo]; intros t; [|set_solver +]. unfold kept_parents. case_decide; set_solver +. }
    destruct Hfo as (Hf & Ht & Ep & Ec). unfold UpdateChildrenForRemoval.
    rewrite GetMemPoolChildren_chi by (rewrite (links_dom _ Hlp), (frame_dom _ _ Hf); by apply HS). cbn [mbind option_bind]. rewrite Ec.
    destruct (update_parents (chi pool r ∖ S) r false p) as (Hf' & Hm & Ec' & Ep'); [rewrite <- Ec, (links_dom _ Hlp); apply (chi_dom _ Hlp)|].
    eexists. split; [reflexivity|]. split; [by eapply frame_trans|]. split; [by rewrite Hm|]. split; [|intros t; by rewrite Ec', Ec].
    intros t. rewrite Ep', Ep. unfold kept_parents. cbn [changed]. destruct (decide (t ∈ S)) as [HtS|HtS].
    + by rewrite decide_False by set_solver +HtS.
    + destruct (decide (t ∈ chi pool r ∖ S)) as [Hin|Hout]; [set_solver +|].
      assert (r ∉ par pool t) as Hno; [|set_solver +Hno]. rewrite <- (links_sym _ Hl). set_solver +Hout HtS.
Qed.

(** ** Removing entries: the vector of hashes *)

Definition placed (v : list (uint256 * option uint256)) (t : uint256) (e : CTxMemPoolEntry) : Prop :=
  0 <= vTxHashesIdx e /\ v !! Z.to_nat (vTxHashesIdx e) = Some (t, Some t).
Definition names (M : entries) (i : nat) (p : uint256 * option uint256) : Prop :=
  exists t e, p = (t, Some t) /\ M !! t = Some e /\ vTxHashesIdx e = Z.of_nat i.

Definition unplaced (e : CTxMemPoolEntry) : CTxMemPoolEntry := with_index e 0.

Lemma unplaced_index e i : unplaced (with_index e i) = unplaced e.
Proof. done. Qed.

Lemma drop_hash_spec pool r e : (forall t e, mapTx pool !! t = Some e -> placed (vTxHashes pool) t e) ->
  (forall i p, vTxHashes pool !! i = Some p -> names (mapTx pool) i p) -> mapTx pool !! r = Some e ->
  exists M v cap, drop_hash (vTxHashesIdx e) pool = Some (set_hashes (set_entries pool M) v cap) /\
    (forall t, unplaced <$> M !! t = unplaced <$> mapTx pool !! t) /\
    (forall t e', t <> r -> M !! t = Some e' -> placed v t e') /\ (forall i p, v !! i = Some p -> names (delete r M) i p).
Proof.
  intros Hpl Hna He. unfold drop_hash. set (v := vTxHashes pool) in *. destruct (Hpl r e He) as [Hi0 Hi]. set (i := Z.to_nat (vTxHashesIdx e)) in *.
  pose proof (lookup_lt_Some _ _ _ Hi) as Hlt. destruct (Z.ltb_spec 1 (zlen v)) as [Hlong|Hshort]; unfold zlen in *.
  - destruct (lookup_lt_is_Some_2 v (length v - 1)%nat) as [back Hback]; [lia|]. rewrite Hback. cbn [mbind option_bind]. rewrite Hi. cbn [mbind option_bind].
    destruct (Hna _ _ Hback) as (tb & eb & -> & Heb & Hib). cbn [snd mbind option_bind]. unfold modify. rewrite Heb. cbn [mbind option_bind].
    eexists _, _, _. split; [reflexivity|]. rewrite length_insert.
    assert (Hnew : forall j q, take (length v - 1) (<[i := (tb, Some tb)]> v) !! j = Some q <->
      (j < length v - 1)%nat /\ ((j = i /\ q = (tb, Some tb)) \/ (j <> i /\ v !! j = Some q))).
    { intros j q. rewrite lookup_take_Some, list_lookup_insert_Some. clear -Hlt. naive_solver lia. }
    assert (Hrb : (i < length v - 1)%nat -> tb <> r).
    { intros Hlast ->. assert (eb = e) as -> by congruence. unfold i in Hlast. lia. }
    split; [|split].
    + intros t. destruct (decide (t = tb)) as [->|Hne]; [by rewrite lookup_insert_eq, Heb|by rewrite lookup_insert_ne].
    + intros t e' Hne Ht. apply lookup_insert_Some in Ht as [[<- <-]|[Htb Ht]].
      * split; [done|]. apply Hnew. cbn [with_index vTxHashesIdx]. split; [|by left].
        destruct (decide (i = length v - 1)%nat) as [Ei|]; [|fold i; lia]. rewrite Ei, Hback in Hi. congruence.
      * destruct (Hpl t e' Ht) as [Hj0 Hj]. split; [done|]. apply Hnew.
        split; [|right; split; [|done]].
        -- apply lookup_lt_Some in Hj as Hl. destruct (decide (Z.to_nat (vTxHashesIdx e') = length v - 1)%nat) as [Ej|]; [|lia]. rewrite Ej, Hback in Hj. congruence.
        -- intros Ej. rewrite Ej, Hi in Hj. congruence.
    + intros j q Hq. apply Hnew in Hq as [Hj [[-> ->]|[Hji Hq]]].
      * exists tb, (with_index eb (vTxHashesIdx e)). split; [done|]. split; [by rewrite lookup_delete_ne, lookup_insert_eq by (symmetry; by apply Hrb)|].
        cbn [with_index vTxHashesIdx]. unfold i. lia.
      * destruct (Hna j q Hq) as (t & et & -> & Het & Hjt). exists t, et. split; [done|]. split; [|done].
        rewrite lookup_delete_ne, lookup_insert_ne; [done| |].
        -- intros ->. assert (eb = et) as -> by congruence. lia.
        -- intros <-. assert (et = e) as -> by congruence. unfold i in Hji. lia.
  - exists (mapTx pool), [], (vTxHashes_capacity pool). split; [by destruct pool|]. split; [done|]. split; [|done].
    intros t e' Hne Ht. destruct (Hpl t e' Ht) as [_ Hj]. pose proof (lookup_lt_Some _ _ _ Hj).
    replace (Z.to_nat (vTxHashesIdx e')) with i in Hj by lia. congruence.
Qed.

(** ** Removing entries: the maps *)

Definition next_ok pool : Prop := forall o t, mapNextTx pool !! o = Some t <-> exists e, mapTx pool !! t = Some e /\ o ∈ prevouts (entry_tx e).
Definition size_ok pool : Prop := totalTxSize pool = u64 (sum_over (weight_at (mapTx pool) Size) (dom (mapTx pool))).

(** What is left when the entries of [R] are gone. *)
Record removed pool (R : setEntries) pool' : Prop := mkRemoved {
  removed_entries t : unplaced <$> mapTx pool' !! t = if decide (t ∈ R) then None else unplaced <$> mapTx pool !! t;
  removed_links t : mapLinks pool' !! t = if decide (t ∈ R) then None else mapLinks pool !! t;
  removed_next o t : mapNextTx pool' !! o = Some t <-> mapNextTx pool !! o = Some t /\ t ∉ R;
  removed_deltas : mapDeltas pool' = mapDeltas pool;
  removed_placed t e : mapTx pool' !! t = Some e -> placed (vTxHashes pool') t e;
  removed_names i p : vTxHashes pool' !! i = Some p -> names (mapTx pool') i p;
  removed_size : size_ok pool';
  removed_usage : usage_ok pool'
}.

Lemma removed_entry pool R pool' t e' : removed pool R pool' -> mapTx pool' !! t = Some e' ->
  t ∉ R /\ exists e, mapTx pool !! t = Some e /\ unplaced e' = unplaced e.
Proof.
  intros Hr He. pose proof (removed_entries _ _ _ Hr t) as E. rewrite He in E. destruct (decide (t ∈ R)); [done|].
  split; [done|]. destruct (mapTx pool !! t) as [e|]; [|done]. exists e. split; [done|].
  change (Some (unplaced e') = Some (unplaced e)) in E. congruence.
Qed.

Lemma removed_dom pool R pool' : removed pool R pool' -> dom (mapTx pool') = dom (mapTx pool) ∖ R.
Proof.
  intros Hr. apply set_eq. intros t. rewrite elem_of_difference, !elem_of_dom. pose proof (removed_entries _ _ _ Hr t) as E.
  destruct (decide (t ∈ R)) as [Hin|Hout], (mapTx pool !! t), (mapTx pool' !! t); try done; split; try naive_solver; intros [? ?]; try done; by eexists.
Qed.

Lemma unplaced_weight e e' k : unplaced e = unplaced e' -> weight k e = weight k e'.
Proof. intros E. destruct k; cbn; unfold GetModifiedFee; injection E; intros; congruence. Qed.

Lemma unplaced_weight_at (M M' : entries) k t : unplaced <$> M' !! t = unplaced <$> M !! t -> weight_at M' k t = weight_at M k t /\ usage_at M' t = usage_at M t.
Proof.
  intros E. unfold weight_at, usage_at. destruct (M !! t) as [e|], (M' !! t) as [e'|]; try done.
  change (Some (unplaced e') = Some (unplaced e)) in E. apply (inj Some) in E. cbn. split; [by apply unplaced_weight|]. exact (f_equal nUsageSize E).
Qed.

Lemma lookup_foldl_delete {K V} `{Countable K} (l : list K) : forall (m : gmap K V) k v,
  foldl (fun m k => delete k m) m l !! k = Some v <-> m !! k = Some v /\ k ∉ l.
Proof.
  induction l as [|a l IH]; intros m k v; cbn [foldl]; [set_solver|]. rewrite IH, lookup_delete_Some, not_elem_of_cons. naive_solver.
Qed.

Lemma index_changes h pool : exists a ai sp si, removeSpentIndex h (removeAddressIndex h pool) = set_indexes pool a ai sp si.
Proof.
  unfold removeAddressIndex. destruct (mapAddressInserted pool !! h); unfold removeSpentIndex; cbn [mapSpentInserted set_indexes];
    destruct (mapSpentInserted pool !! h); try (eexists _, _, _, _; reflexivity).
  exists (mapAddress pool), (mapAddressInserted pool), (mapSpent pool), (mapSpentInserted pool). by destruct pool.
Qed.

Lemma removeUnchecked_spec pool R pool' reason r : next_ok pool -> dom (mapLinks pool) = dom (mapTx pool) -> removed pool R pool' ->
  r ∈ dom (mapTx pool) -> r ∉ R ->
  exists pool'', removeUnchecked reason r pool' = Some pool'' /\ removed pool ({[r]} ∪ R) pool''.
Proof.
  intros Hnx Hld Hr Hin Hn. unfold removeUnchecked. assert (Hin' : r ∈ dom (mapTx pool')) by (rewrite (removed_dom _ _ _ Hr); set_solver +Hin Hn).
  pose proof Hin' as [e He]%elem_of_dom. rewrite He. cbn [mbind option_bind].
  destruct (removed_entry _ _ _ _ _ Hr He) as (_ & e0 & He0 & Eu). pose proof (eq_sym (f_equal entry_tx Eu)) as Etx. cbn [unplaced with_index entry_tx] in Etx.
  set (p1 := set_next pool' _). destruct (drop_hash_spec p1 r e) as (M & v & cap & E & HM & Hpl & Hna); [apply (removed_placed _ _ _ Hr)|apply (removed_names _ _ _ Hr)|done|].
  rewrite E. cbn [mbind option_bind]. set (p2 := set_hashes (set_entries p1 M) v cap) in *.
  destruct (index_changes (GetHash (entry_tx e)) (erase_entry reason r e p2)) as (a & ai & sp & si & Ei).
  rewrite Ei. clear Ei E. eexists. split; [reflexivity|]. pose proof (removed_entries _ _ _ Hr) as HE. pose proof (removed_links _ _ _ Hr) as HL.
  assert (Ed : dom (delete r M) = dom (mapTx pool') ∖ {[r]}).
  { rewrite dom_delete_L. f_equal. apply set_eq. intros t. rewrite !elem_of_dom. specialize (HM t). cbn in HM.
    destruct (M !! t), (mapTx pool' !! t); try done; split; intros [? ?]; try done; by eexists. }
  assert (Hw : forall t, t <> r -> weight_at (delete r M) Size t = weight_at (mapTx pool') Size t /\ usage_at (delete r M) t = usage_at (mapTx pool') t).
  { intros t Hne. apply unplaced_weight_at. rewrite lookup_delete_ne by done. apply HM. }
  constructor; cbn [mapTx mapLinks mapNextTx mapDeltas vTxHashes set_indexes erase_entry p2 set_hashes set_entries p1 set_next].
  - intros t. destruct (decide (t = r)) as [->|Hne]; [rewrite lookup_delete_eq, decide_True by set_solver +; done|].
    rewrite lookup_delete_ne, HM by done. cbn. rewrite HE. destruct (decide (t ∈ R)), (decide (t ∈ {[r]} ∪ R)); try done; set_solver.
  - intros t. destruct (decide (t = r)) as [->|Hne]; [rewrite lookup_delete_eq, decide_True by set_solver +; done|].
    rewrite lookup_delete_ne, HL by done. destruct (decide (t ∈ R)), (decide (t ∈ {[r]} ∪ R)); try done; set_solver.
  - intros o t. rewrite lookup_foldl_delete, (removed_next _ _ _ Hr), not_elem_of_union, not_elem_of_singleton.
    change (prevout <$> vin (entry_tx e)) with (prevouts (entry_tx e)). rewrite <- Etx. split.
    + intros [[Ho Ht] Hout]. split; [done|]. split; [|done]. intros ->. apply Hout. apply Hnx in Ho as (e1 & He1 & Hin1). congruence.
    + intros (Ho & Hne & Ht). split; [done|]. intros Hin1. apply Hne. assert (Hor : mapNextTx pool !! o = Some r) by (apply Hnx; eauto). congruence.
  - apply (removed_deltas _ _ _ Hr).
  - intros t e' [Hne Ht]%lookup_delete_Some. by apply Hpl.
  - done.
  - unfold size_ok. cbn [totalTxSize mapTx set_indexes erase_entry p2 set_hashes set_entries p1 set_next].
    rewrite (removed_size _ _ _ Hr), Ed, u64_sub_l. f_equal.
    rewrite (sum_over_ext (weight_at (delete r M) Size) (weight_at (mapTx pool') Size)) by (intros t Ht; apply Hw; set_solver +Ht).
    rewrite sum_over_delete by done. assert (weight_at (mapTx pool') Size r = nTxSize e) as -> by (unfold weight_at; by rewrite He). lia.
  - unfold usage_ok. cbn [cachedInnerUsage set_indexes erase_entry p2 set_hashes set_entries p1 set_next].
    rewrite (removed_usage _ _ _ Hr), (u64_sub_l (inner_usage pool')), u64_sub_l. f_equal. unfold inner_usage. cbn [mapTx mapLinks set_indexes erase_entry p2 set_hashes set_entries p1 set_next].
    assert (Hrl : r ∈ dom (mapLinks pool')) by (apply elem_of_dom; rewrite HL, decide_False by done; apply elem_of_dom; by rewrite Hld).
    rewrite Ed, dom_delete_L, (sum_over_ext (usage_at (delete r M)) (usage_at (mapTx pool'))) by (intros t Ht; apply Hw; set_solver +Ht).
    rewrite sum_over_delete by done. assert (usage_at (mapTx pool') r = nUsageSize e) as -> by (unfold usage_at; by rewrite He).
    rewrite (sum_over_ext (link_usage (set_indexes _ _ _ _ _)) (link_usage pool')).
    + rewrite sum_over_delete by done. change (links_at p2 r) with (links_at pool' r). unfold link_usage, par, chi. lia.
    + intros t Ht. unfold link_usage, par, chi, links_at. cbn [mapLinks set_indexes erase_entry p2 set_hashes set_entries p1 set_next].
      rewrite lookup_delete_ne by set_solver +Ht. done.
Qed.

(** ** Removing a staged set *)

(** A set that may be removed: with all its descendants, or, when descendants are
    told about it, with all its ancestors. *)
Definition removable pool (S : setEntries) (updateDescendants : bool) : Prop :=
  S ⊆ dom (mapTx pool) /\ forall x, x ∈ S -> (if updateDescendants then par pool x else chi pool x) ⊆ S.

(** The pool without a set of entries; the others keep everything but their
    totals and their place. *)
Record without pool (S : setEntries) pool' : Prop := mkWithout {
  without_entries t : core <$> mapTx pool' !! t = if decide (t ∈ S) then None else core <$> mapTx pool !! t;
  without_par t : t ∉ S -> par pool' t = par pool t ∖ S;
  without_deltas : mapDeltas pool' = mapDeltas pool
}.

Lemma unplaced_core e e' : unplaced e = unplaced e' -> core e = core e'.
Proof. intros E. change (core (unplaced e) = core (unplaced e')). by rewrite E. Qed.

Lemma unplaced_total e e' s k : unplaced e = unplaced e' -> total s k e = total s k e'.
Proof. intros E. change (total s k (unplaced e) = total s k (unplaced e')). by rewrite E. Qed.

Lemma unlinked pool pool' S t : removed pool S pool' ->
  par pool' t = (if decide (t ∈ S) then ∅ else par pool t) /\ chi pool' t = (if decide (t ∈ S) then ∅ else chi pool t).
Proof. intros Hr. unfold par, chi, links_at. rewrite (removed_links _ _ _ Hr). by case_decide. Qed.

Section Staged.
Context pool (S : setEntries) (upd : bool) (A : uint256 -> setEntries) pool3 pool4.
Hypothesis Hw : wf pool.
Hypothesis HS : removable pool S upd.
Hypothesis HA : forall t, A t = if upd then ancestors pool t ∖ S else ancestors pool t.
Hypothesis H3 : forgetting pool A (fun t => descendants pool t ∖ S) (kept_parents pool S S) (fun t => chi pool t ∖ S) pool3.
Hypothesis H4 : removed pool3 S pool4.

Lemma staged_par t : par pool4 t = if decide (t ∈ S) then ∅ else par pool t ∖ S.
Proof using H3 H4. rewrite (proj1 (unlinked _ _ _ t H4)). destruct H3 as (_ & _ & Ep & _). rewrite Ep. unfold kept_parents. by case_decide. Qed.

Lemma staged_chi t : chi pool4 t = if decide (t ∈ S) then ∅ else chi pool t ∖ S.
Proof using H3 H4. rewrite (proj2 (unlinked _ _ _ t H4)). destruct H3 as (_ & _ & _ & Ec). rewrite Ec. by case_decide. Qed.

Lemma staged_dom : dom (mapTx pool4) = dom (mapTx pool) ∖ S.
Proof using H3 H4. rewrite (removed_dom _ _ _ H4). destruct H3 as (Hf & _). by rewrite (frame_dom _ _ Hf). Qed.

Lemma staged_links : links_ok pool4.
Proof using Hw H3 H4.
  split.
  - rewrite staged_dom. apply set_eq. intros t. rewrite elem_of_difference, elem_of_dom, (removed_links _ _ _ H4).
    destruct H3 as (Hf & _). rewrite <- (links_dom' _ (wf_links _ Hw)), <- (frame_links _ _ Hf), elem_of_dom.
    case_decide; [split; [by intros []|naive_solver]|naive_solver].
  - intros p c. rewrite staged_par, staged_chi. pose proof (links_sym _ (wf_links _ Hw) p c) as Hs.
    destruct (decide (p ∈ S)) as [Hp|Hp], (decide (c ∈ S)) as [Hc|Hc]; set_solver +Hs Hp Hc.
Qed.

(** What the remaining entries reach is what they reached outside the set. *)
Lemma staged_sets t : t ∉ S -> ancestors pool4 t = A t /\ A t ## S /\ descendants pool4 t = descendants pool t ∖ S.
Proof using Hw HS HA H3 H4.
  intros Ht. pose proof (links_ok_closed _ (wf_links _ Hw)) as Hl. pose proof (links_ok_closed _ staged_links) as Hl4.
  pose proof (ancestors_reach pool t Hl) as Ha. pose proof (descendants_reach pool t Hl) as Hd.
  pose proof (ancestors_reach pool4 t Hl4) as Ha4. pose proof (descendants_reach pool4 t Hl4) as Hd4.
  assert (Ep : forall z, z ∉ S -> par pool4 z = par pool z ∖ S) by (intros z Hz; by rewrite staged_par, decide_False).
  assert (Ec : forall z, z ∉ S -> chi pool4 z = chi pool z ∖ S) by (intros z Hz; by rewrite staged_chi, decide_False).
  destruct HS as [_ Hcl]. rewrite HA. destruct upd.
  - assert (Hno : forall z, z ∉ S -> chi pool z ## S).
    { intros z Hz c Hc HcS. apply Hz. apply (Hcl c HcS). by apply (links_sym _ (wf_links _ Hw)). }
    destruct (reach_remove_initial (chi pool) (chi pool4) S t (descendants pool t) Hno) as [Hr Hdis]; [|done|done|].
    { intros z Hz. rewrite Ec by done. specialize (Hno z Hz). set_solver +Hno. }
    split; [|split; [set_solver +|]].
    + apply (is_reach_unique _ _ _ _ Ha4). by apply (reach_remove_closed (par pool)).
    + rewrite (is_reach_unique _ _ _ _ Hd4 Hr). set_solver +Hdis.
  - assert (Hno : forall z, z ∉ S -> par pool z ## S).
    { intros z Hz p Hp HpS. apply Hz. apply (Hcl p HpS). by apply (links_sym _ (wf_links _ Hw)). }
    destruct (reach_remove_initial (par pool) (par pool4) S t (ancestors pool t) Hno) as [Hr Hdis]; [|done|done|].
    { intros z Hz. rewrite Ep by done. specialize (Hno z Hz). set_solver +Hno. }
    split; [|split; [done|]].
    + by apply (is_reach_unique _ _ _ _ Ha4).
    + apply (is_reach_unique _ _ _ _ Hd4). by apply (reach_remove_closed (chi pool)).
Qed.

Lemma staged_entry t e' : mapTx pool4 !! t = Some e' -> t ∉ S /\ exists e3 e, mapTx pool3 !! t = Some e3 /\ unplaced e' = unplaced e3 /\
  mapTx pool !! t = Some e /\ core e' = core e.
Proof using H3 H4.
  intros He. destruct (removed_entry _ _ _ _ _ H4 He) as (Hn & e3 & He3 & Eu). split; [done|]. destruct H3 as (Hf & _).
  destruct (same_core_lookup _ _ _ _ (frame_core _ _ Hf) He3) as (e & He0 & Ec). exists e3, e. repeat (split; [done|]). rewrite Ec. by apply unplaced_core.
Qed.

Lemma staged_weight k t : t ∉ S -> weight_at (mapTx pool4) k t = weight_at (mapTx pool3) k t.
Proof using H4.
  intros Ht. apply (unplaced_weight_at (mapTx pool3) (mapTx pool4)). by rewrite (removed_entries _ _ _ H4), decide_False.
Qed.

Lemma staged_totals : totals (mapTx pool4) (sets pool4).
Proof using Hw HS HA H3 H4.
  split.
  - intros s t e' k Hk He'. destruct (staged_entry t e' He') as (Hn & e3 & e & He3 & Eu & _). destruct (staged_sets t Hn) as (E1 & Hdis & E2).
    destruct H3 as (_ & Ht & _). rewrite (unplaced_total _ _ s k Eu), (unplaced_weight _ _ k Eu), (totals_sum _ _ Ht s t e3 k Hk He3). f_equal. f_equal.
    destruct s; cbn [sets]; rewrite ?E1, ?E2; apply sum_over_ext; intros y Hy; symmetry; apply staged_weight; set_solver +Hdis Hy.
  - intros s t Hin. pose proof (links_ok_closed _ staged_links) as Hl4. assert (Ha : acyclic (par pool4)).
    { apply (acyclic_sub (par pool)); [|apply (wf_acyclic _ Hw)]. intros x. rewrite staged_par. case_decide; set_solver +. }
    destruct s; cbn [sets]; split.
    + apply not_own_ancestor; [apply staged_links|done].
    + by apply ancestors_dom.
    + apply not_own_descendant; [apply staged_links|done].
    + by apply descendants_dom.
Qed.

Lemma staged_bounded : sizes_ok (mapTx pool4) /\ bounded (mapTx pool4).
Proof using Hw H3 H4.
  assert (Hs : sizes_ok (mapTx pool4)).
  { intros t e' He'. destruct (staged_entry t e' He') as (_ & e3 & e & _ & _ & He & Ec). destruct (wf_sizes _ Hw t e He).
    pose proof (core_weight _ _ Size Ec). pose proof (core_weight _ _ SigOps Ec). cbn in *. lia. }
  split; [done|].
  assert (Hle : forall k, k <> Fees -> sum_over (weight_at (mapTx pool4) k) (dom (mapTx pool4)) <= sum_over (weight_at (mapTx pool) k) (dom (mapTx pool))).
  { intros k Hk. rewrite staged_dom, (sum_over_ext (weight_at (mapTx pool4) k) (weight_at (mapTx pool) k)).
    - apply sum_over_subset; [set_solver +|]. intros x _. apply weight_nonneg; [apply (wf_sizes _ Hw)|done].
    - intros x Hx. rewrite staged_weight by set_solver +Hx. destruct H3 as (Hf & _). apply same_core_weight, (frame_core _ _ Hf). }
  destruct (wf_bounded _ Hw) as (B1 & B2 & B3). pose proof (Hle Count ltac:(done)). pose proof (Hle Size ltac:(done)). pose proof (Hle SigOps ltac:(done)).
  unfold bounded. lia.
Qed.

Lemma staged_wf : wf pool4 /\ without pool S pool4.
Proof using All.
  destruct staged_bounded as [Hs Hb]. pose proof H3 as (Hf & _). split.
  - split.
    + intros t e' He'. destruct (staged_entry t e' He') as (_ & e3 & e & _ & _ & He & Ec).
      pose proof (f_equal entry_tx Ec) as Et. cbn in Et. rewrite Et. by apply (wf_hash _ Hw).
    + done.
    + done.
    + apply staged_links.
    + apply (acyclic_sub (par pool)); [|apply (wf_acyclic _ Hw)]. intros x. rewrite staged_par. case_decide; set_solver +.
    + intros t e' He'. destruct (staged_entry t e' He') as (Hn & e3 & e & _ & _ & He & Ec). rewrite staged_par, decide_False by done.
      pose proof (f_equal entry_tx Ec) as Et. cbn in Et. rewrite Et. pose proof (wf_inputs _ Hw t e He) as Hi. set_solver +Hi.
    + apply staged_totals.
    + intros o t. rewrite (removed_next _ _ _ H4), (frame_next _ _ Hf), (wf_next _ Hw o t). split.
      * intros [(e & He & Ho) Hn]. destruct (frame_lookup _ _ _ _ Hf He) as (e3 & He3 & Ec3).
        pose proof (removed_entries _ _ _ H4 t) as E. rewrite decide_False, He3 in E by done. destruct (mapTx pool4 !! t) as [e'|] eqn:He'; [|done].
        destruct (staged_entry t e' He') as (_ & e3' & e0 & _ & _ & He0 & Ec). assert (e0 = e) as -> by congruence.
        exists e'. split; [done|]. pose proof (f_equal entry_tx Ec) as Et. cbn in Et. by rewrite Et.
      * intros (e' & He' & Ho). destruct (staged_entry t e' He') as (Hn & e3 & e & _ & _ & He & Ec). split; [|done]. exists e. split; [done|].
        pose proof (f_equal entry_tx Ec) as Et. cbn in Et. by rewrite <- Et.
    + apply (removed_placed _ _ _ H4).
    + apply (removed_names _ _ _ H4).
    + apply (removed_size _ _ _ H4).
    + apply (removed_usage _ _ _ H4).
  - split.
    + intros t. pose proof (removed_entries _ _ _ H4 t) as E. pose proof (frame_core _ _ Hf t) as E'.
      assert (Hcu : forall y : option CTxMemPoolEntry, core <$> (unplaced <$> y) = core <$> y) by (intros []; reflexivity). rewrite <- Hcu, E. case_decide; [done|]. by rewrite Hcu.
    + intros t Hn. by rewrite staged_par, decide_False.
    + rewrite (removed_deltas _ _ _ H4). apply (frame_deltas _ _ Hf).
Qed.

End Staged.

Lemma RemoveStaged_spec pool S upd reason : wf pool -> removable pool S upd ->
  exists pool', RemoveStaged S upd reason pool = Some pool' /\ wf pool' /\ without pool S pool'.
Proof.
  intros Hw HS. pose proof HS as [HSd _]. unfold RemoveStaged, UpdateForRemoveFromMempool.
  set (A := fun t => if upd then ancestors pool t ∖ S else ancestors pool t).
  assert (H1 : exists pool1, (if upd then each forget_ancestor (in_hash_order S) pool else Some pool) = Some pool1 /\
    forgetting pool A (descendants pool) (par pool) (chi pool) pool1).
  { unfold A. destruct upd; [by apply forget_ancestors_spec|]. exists pool. split; [done|]. split; [apply frame_refl|]. split; [|done].
    refine (totals_ext _ _ _ _ (wf_totals _ Hw)). by intros []. }
  destruct H1 as (pool1 & -> & H1). cbn [mbind option_bind].
  destruct (forget_descendants_spec pool pool1 A S Hw HSd H1) as (pool2 & -> & H2). cbn [mbind option_bind].
  destruct (sever_children_spec pool pool2 A _ S Hw HSd H2) as (pool3 & -> & H3). cbn [mbind option_bind].
  pose proof H3 as (Hf & _).
  assert (Hr0 : removed pool3 ∅ pool3).
  { assert (Hlook : forall t e3, mapTx pool3 !! t = Some e3 -> exists e, mapTx pool !! t = Some e /\ vTxHashesIdx e3 = vTxHashesIdx e).
    { intros t e3 He3. pose proof (frame_index _ _ Hf t) as Ei. rewrite He3 in Ei. destruct (mapTx pool !! t) as [e|]; [|done]. exists e. split; [done|]. by injection Ei. }
    split; try done.
    - intros o t. set_solver +.
    - intros t e3 He3. destruct (Hlook t e3 He3) as (e & He & Ei). unfold placed. rewrite Ei, (frame_hashes _ _ Hf). by apply (wf_index _ Hw).
    - intros i p Hp. rewrite (frame_hashes _ _ Hf) in Hp. destruct (wf_hashes _ Hw i p Hp) as (t & e & -> & He & Ei).
      destruct (frame_lookup _ _ _ _ Hf He) as (e3 & He3 & _). destruct (Hlook t e3 He3) as (e0 & He0 & Ei0). exists t, e3. split; [done|]. split; [done|]. congruence.
    - unfold size_ok. rewrite (frame_size _ _ Hf), (frame_dom _ _ Hf), (same_core_sum _ _ _ _ (frame_core _ _ Hf)). apply (wf_size _ Hw).
    - apply (frame_usage _ _ Hf), (wf_usage _ Hw). }
  assert (Hnx : next_ok pool3).
  { intros o t. rewrite (frame_next _ _ Hf), (wf_next _ Hw o t). split; intros (e & He & Ho).
    - destruct (frame_lookup _ _ _ _ Hf He) as (e3 & He3 & Ec). exists e3. split; [done|]. pose proof (f_equal entry_tx Ec) as Et. cbn in Et. by rewrite Et.
    - destruct (same_core_lookup _ _ _ _ (frame_core _ _ Hf) He) as (e0 & He0 & Ec). exists e0. split; [done|]. pose proof (f_equal entry_tx Ec) as Et. cbn in Et. by rewrite Et. }
  destruct (each_set S (removeUnchecked reason) (fun R p => removed pool3 R p) pool3 Hr0) as (pool4 & -> & H4).
  - intros R r p HR Hr Hn Hrem. apply (removeUnchecked_spec pool3 R p reason r); [done| |done| |done].
    + rewrite (frame_links _ _ Hf), (frame_dom _ _ Hf). apply (links_dom' _ (wf_links _ Hw)).
    + rewrite (frame_dom _ _ Hf). by apply HSd.
  - exists pool4. split; [done|]. by apply (staged_wf pool S upd A pool3).
Qed.

End WithEnv.
End MemPoolOps.
