(* ===== verification/MemPoolAdd.v ===== *)
(** * Adding a transaction to the memory pool

    [addUnchecked] keeps the invariant of the pool: it is called for a
    transaction that is new, whose inputs no entry spends, and which the totals
    have room for. *)

From stdpp Require Import base relations list list_numbers gmap fin_sets sorting numbers option.
From Stdlib Require Import ZArith Lia.
From S2P Require Import Prelude Serialize Script Transaction Interpreter InterpreterSafety Coins Ledger TxGraph MemPool MemPoolInv MemPoolOps.

Local Open Scope Z_scope.

Module MemPoolAdd.
Import Serialize Script Transaction Interpreter Ledger TxGraph MemPool MemPoolInv MemPoolOps.

Section WithEnv.
Context `{!Crypto} `{!PoolEnv}.
Implicit Types (pool : CTxMemPool) (e : CTxMemPoolEntry) (it t x : uint256) (X : setEntries) (s : side) (add : bool).
#[local] Hint Resolve links_ok_closed : core.

Record acceptable pool e : Prop := mkAcceptable {
  acceptable_fresh : GetHash (entry_tx e) ∉ dom (mapTx pool);
  acceptable_unspent o : o ∈ prevouts (entry_tx e) -> mapNextTx pool !! o = None;
  acceptable_self : GetHash (entry_tx e) ∉ setParentTransactions (entry_tx e);
  acceptable_totals s k : tracked s k -> total s k e = wrap k (weight k e);
  acceptable_delta : feeDelta e = 0;
  acceptable_size : 0 < nTxSize e /\ 0 <= sigOpCount e;
  acceptable_room : sum_over (weight_at (mapTx pool) Count) (dom (mapTx pool)) + 1 < 2 ^ 63 /\
    sum_over (weight_at (mapTx pool) Size) (dom (mapTx pool)) + nTxSize e < 2 ^ 63 /\
    sum_over (weight_at (mapTx pool) SigOps) (dom (mapTx pool)) + sigOpCount e < 2 ^ 31
}.

(** The constructor of entries makes such totals. *)
Lemma new_entry_totals tx fee time height inChain coinbase sigOps lp usage e : new_entry tx fee time height inChain coinbase sigOps lp usage = Some e ->
  - 2 ^ 63 <= fee < 2 ^ 63 -> 0 <= sigOps < 2 ^ 32 -> nTxSize e < 2 ^ 64 ->
  entry_tx e = tx /\ feeDelta e = 0 /\ forall s k, tracked s k -> total s k e = wrap k (weight k e).
Proof.
  unfold new_entry. intros E Hf Hs Hz. destruct (GetValueOut tx); [|done]. cbn [mbind option_bind] in E. destruct (inChain <=? _); [|done].
  injection E as <-. do 2 (split; [done|]). assert (0 <= GetTotalSize tx) by (unfold GetTotalSize, zlen; lia).
  cbn [nTxSize] in Hz. assert (Efee : i64 (i64 (fee + 0)) = fee) by (rewrite Z.add_0_r, !i64_small by (rewrite ?i64_small; lia); done).
  intros s k Hk. destruct k.
  - destruct s; reflexivity.
  - destruct s; symmetry; apply u64_small; cbn; lia.
  - destruct s; symmetry; exact Efee.
  - destruct s; [symmetry; apply u32_small; cbn; lia|]. by destruct Hk.
Qed.

(** ** One new node *)

Lemma insert_new_fresh {K V} `{Countable K} (m : gmap K V) k v : m !! k = None -> insert_new k v m = <[k := v]> m.
Proof. intros E. unfold insert_new. by rewrite E. Qed.

Lemma insert_news {K} `{Countable K} {V} (v : V) (l : list K) : forall (m : gmap K V) k w,
  foldl (fun m k => insert_new k v m) m l !! k = Some w <-> m !! k = Some w \/ (m !! k = None /\ k ∈ l /\ w = v).
Proof.
  induction l as [|a l IH]; intros m k w; cbn [foldl]; [set_solver +|]. rewrite IH. unfold insert_new. rewrite elem_of_cons.
  destruct (m !! a) as [u|] eqn:Ea; [naive_solver congruence|]. destruct (decide (k = a)) as [->|Hne].
  - rewrite lookup_insert_eq, Ea. naive_solver.
  - rewrite lookup_insert_ne by done. naive_solver.
Qed.

Section Add.
Context pool (e : CTxMemPoolEntry).
Hypothesis Hw : wf pool.
Hypothesis Ha : acceptable pool e.

Abbreviation h := (GetHash (entry_tx e)).
Abbreviation P := (pool_parents pool (entry_tx e)).
Abbreviation X := (entry_ancestors pool (entry_tx e)).

(** The pool with the new entry and no links yet. *)
Definition started pool' (e1 : CTxMemPoolEntry) : Prop :=
  mapTx pool' = <[h := e1]> (mapTx pool) /\ core e1 = core (with_delta e (default 0 (mapDeltas pool !! h)) 0 0) /\
  (forall s k, tracked s k -> total s k e1 = wrap k (weight k e1)) /\
  mapLinks pool' = <[h := mkLinks ∅ ∅]> (mapLinks pool) /\ vTxHashes pool' = vTxHashes pool /\ mapDeltas pool' = mapDeltas pool /\
  (forall o t, mapNextTx pool' !! o = Some t <-> mapNextTx pool !! o = Some t \/ (o ∈ prevouts (entry_tx e) /\ t = h)) /\
  totalTxSize pool' = totalTxSize pool /\ usage_ok pool'.

Lemma fresh_links : mapLinks pool !! h = None.
Proof using Hw Ha. apply not_elem_of_dom. rewrite (links_dom' _ (wf_links _ Hw)). apply (acceptable_fresh _ _ Ha). Qed.

Lemma fresh_entry : mapTx pool !! h = None.
Proof using Ha. apply not_elem_of_dom, (acceptable_fresh _ _ Ha). Qed.

Lemma insert_entry_usage : usage_ok (insert_entry h e pool).
Proof using Hw Ha.
  pose proof fresh_entry as Hf. pose proof fresh_links as Hfl. unfold usage_ok, inner_usage. cbn [cachedInnerUsage mapTx mapLinks insert_entry].
  rewrite !insert_new_fresh, !dom_insert_L by done. rewrite (wf_usage _ Hw). unfold inner_usage.
  rewrite (wrap_add_l Size : forall a b, u64 (u64 a + b) = u64 (a + b)). f_equal.
  rewrite !sum_over_insert by (by apply not_elem_of_dom).
  assert (usage_at (<[h := e]> (mapTx pool)) h = nUsageSize e) as -> by (unfold usage_at; by rewrite lookup_insert_eq).
  rewrite (sum_over_ext (usage_at (<[h := e]> (mapTx pool))) (usage_at (mapTx pool))).
  2: { intros t Ht. unfold usage_at. rewrite lookup_insert_ne; [done|]. intros <-. by apply not_elem_of_dom in Hf. }
  assert (El : forall t, link_usage (insert_entry h e pool) t = link_usage pool t).
  { intros t. unfold link_usage, par, chi, links_at. cbn [mapLinks insert_entry]. rewrite insert_new_fresh by done.
    destruct (decide (t = h)) as [->|Hne]; [by rewrite lookup_insert_eq, Hfl|by rewrite lookup_insert_ne]. }
  rewrite (sum_over_ext (link_usage (insert_entry h e pool)) (link_usage pool)) by (intros; apply El). rewrite El.
  assert (link_usage pool h = 0) as ->; [|lia]. unfold link_usage, par, chi, links_at. by rewrite Hfl.
Qed.

Lemma start_spec : exists pool1 e1,
  (match mapDeltas (insert_entry h e pool) !! h with
   | Some delta => if delta =? 0 then Some (insert_entry h e pool) else modify h (UpdateFeeDelta delta) (insert_entry h e pool)
   | None => Some (insert_entry h e pool)
   end) = Some pool1 /\ mapTx pool1 !! h = Some e1 /\ entry_tx e1 = entry_tx e /\
  started (set_next pool1 (foldl (fun m i => insert_new (prevout i) h m) (mapNextTx pool1) (vin (entry_tx e)))) e1.
Proof using Hw Ha.
  pose proof fresh_entry as Hf. pose proof fresh_links as Hfl. pose proof insert_entry_usage as Hu.
  assert (Hnext : forall o t, foldl (fun m i => insert_new (prevout i) h m) (mapNextTx pool) (vin (entry_tx e)) !! o = Some t <->
    mapNextTx pool !! o = Some t \/ (o ∈ prevouts (entry_tx e) /\ t = h)).
  { intros o t. assert (E : forall m, foldl (fun m i => insert_new (prevout i) h m) m (vin (entry_tx e)) =
      foldl (fun m k => insert_new k h m) m (prevouts (entry_tx e))).
    { unfold prevouts. induction (vin (entry_tx e)) as [|i l IH]; intros m; cbn; [done|]. apply IH. }
    rewrite E, insert_news. pose proof (acceptable_unspent _ _ Ha o). naive_solver. }
  assert (Hdone : forall e1, core e1 = core (with_delta e (default 0 (mapDeltas pool !! h)) 0 0) ->
    (forall s k, tracked s k -> total s k e1 = wrap k (weight k e1)) ->
    started (set_next (set_entries (insert_entry h e pool) (<[h := e1]> (mapTx pool)))
      (foldl (fun m i => insert_new (prevout i) h m) (mapNextTx pool) (vin (entry_tx e)))) e1).
  { intros e1 Hc Ht. split; [done|]. do 2 (split; [done|]). split; [cbn; by rewrite insert_new_fresh|]. do 2 (split; [done|]). split; [done|].
    split; [done|]. unfold usage_ok, inner_usage in *. cbn [cachedInnerUsage mapTx mapLinks insert_entry set_next set_entries] in *. rewrite Hu. f_equal. f_equal.
    rewrite insert_new_fresh, !dom_insert_L by done. apply sum_over_ext. intros t _. unfold usage_at.
    destruct (decide (t = h)) as [->|Hne]; [rewrite !lookup_insert_eq; cbn; symmetry; exact (f_equal nUsageSize Hc)|by rewrite !lookup_insert_ne]. }
  assert (Hsame : insert_entry h e pool = set_entries (insert_entry h e pool) (<[h := e]> (mapTx pool))).
  { unfold insert_entry, set_entries. cbn. by rewrite (insert_new_fresh (mapTx pool)). }
  pose proof (acceptable_delta _ _ Ha) as Hd0. pose proof (acceptable_totals _ _ Ha) as Htot.
  change (mapDeltas (insert_entry h e pool)) with (mapDeltas pool).
  assert (Hzero : default 0 (mapDeltas pool !! h) = 0 -> started (set_next (set_entries (insert_entry h e pool) (<[h := e]> (mapTx pool)))
      (foldl (fun m i => insert_new (prevout i) h m) (mapNextTx pool) (vin (entry_tx e)))) e).
  { intros E. apply Hdone; [|done]. rewrite E. unfold core, with_delta, with_index, with_descendants, with_ancestors, with_lock_points. cbn. by rewrite Hd0. }
  destruct (mapDeltas pool !! h) as [d|]; [destruct (Z.eqb_spec d 0) as [->|Hd]|].
  - eexists _, e. split; [done|]. rewrite Hsame. cbn [mapTx set_entries]. rewrite lookup_insert_eq. do 2 (split; [done|]). by apply Hzero.
  - assert (Hm : mapTx (insert_entry h e pool) !! h = Some e) by (rewrite Hsame; cbn; apply lookup_insert_eq).
    unfold modify, UpdateFeeDelta. rewrite Hm. cbn [mbind option_bind]. set (e1 := with_delta e _ _ _).
    exists (set_entries (insert_entry h e pool) (<[h := e1]> (mapTx pool))), e1. split.
    + do 2 f_equal. cbn [mapTx insert_entry]. by rewrite insert_new_fresh, insert_insert_eq by done.
    + cbn [mapTx set_entries]. rewrite lookup_insert_eq. do 2 (split; [done|]). apply Hdone; [done|].
      intros s k Hk. specialize (Htot s k Hk). unfold e1, with_delta. rewrite Hd0.
      destruct k; [by destruct s..| |by destruct s].
      assert (E : i64 (i64 (nFee e) + i64 (d - 0)) = i64 (i64 (nFee e + d))).
      { rewrite (wrap_add_l Fees : forall a b, i64 (i64 a + b) = i64 (a + b)), (wrap_add_r Fees : forall a b, i64 (a + i64 b) = i64 (a + b)).
        rewrite <- (Z.add_0_l (i64 (nFee e + d))), (wrap_add_r Fees : forall a b, i64 (a + i64 b) = i64 (a + b)). f_equal. lia. }
      assert (Ef : i64 (GetModifiedFee e) = i64 (nFee e)).
      { unfold GetModifiedFee. rewrite Hd0, Z.add_0_r. rewrite <- (Z.add_0_l (i64 (nFee e))), (wrap_add_r Fees : forall a b, i64 (a + i64 b) = i64 (a + b)). done. }
      destruct s; cbn [total wrap weight GetModifiedFee nFee feeDelta nModFeesWithAncestors nModFeesWithDescendants] in *; unfold GetModifiedFee;
        cbn [nFee feeDelta]; rewrite Htot, Ef; apply E.
  - eexists _, e. split; [done|]. rewrite Hsame. cbn [mapTx set_entries]. rewrite lookup_insert_eq. do 2 (split; [done|]). by apply Hzero.
Qed.

(** ** Its links *)

Lemma started_dom pool2 e1 : started pool2 e1 -> dom (mapTx pool2) = {[h]} ∪ dom (mapTx pool).
Proof using. intros (-> & _). apply dom_insert_L. Qed.

Lemma started_links pool2 e1 t : started pool2 e1 -> links_at pool2 t = links_at pool t.
Proof using Hw Ha.
  intros (_ & _ & _ & El & _). unfold links_at. rewrite El. pose proof fresh_links as Hf.
  destruct (decide (t = h)) as [->|Hne]; [by rewrite lookup_insert_eq, Hf|by rewrite lookup_insert_ne].
Qed.

Lemma fresh_par : par pool h = ∅ /\ chi pool h = ∅.
Proof using Hw Ha. unfold par, chi, links_at. by rewrite fresh_links. Qed.

Lemma link_parents_spec pool2 e1 : started pool2 e1 ->
  let pool3 := foldl (fun pool phash => link_parent h phash pool) pool2 (in_hash_order (setParentTransactions (entry_tx e))) in
  frame pool2 pool3 /\ mapTx pool3 = mapTx pool2 /\ (forall t, par pool3 t = if decide (t = h) then P else par pool t) /\ (forall t, chi pool3 t = chi pool t).
Proof using Hw Ha.
  intros Hst. set (Q := setParentTransactions (entry_tx e)).
  assert (EP : P = filter (fun q => is_Some (mapTx pool2 !! q)) Q).
  { unfold pool_parents. apply set_eq. intros q. fold Q. rewrite !elem_of_filter. destruct Hst as (-> & _). pose proof (acceptable_self _ _ Ha) as Hs. fold Q in Hs.
    destruct (decide (q = h)) as [->|Hne]; [tauto|]. by rewrite lookup_insert_ne. }
  intros pool3. destruct (foldl_set Q (fun pool phash => link_parent h phash pool) (fun R p => frame pool2 p /\ mapTx p = mapTx pool2 /\
    (forall t, par p t = if decide (t = h) then filter (fun q => is_Some (mapTx pool2 !! q)) R else par pool t) /\ (forall t, chi p t = chi pool t)) pool2)
    as (Hf & Hm & Hp & Hc).
  - split; [apply frame_refl|]. split; [done|]. unfold par, chi. setoid_rewrite (fun t => started_links pool2 e1 t Hst). split; [|done].
    intros t. case_decide as Ht; [|done]. subst t. fold (par pool h). rewrite (proj1 fresh_par). set_solver +.
  - intros R x p HR Hx Hn (Hf & Hm & Hp & Hc). unfold link_parent. rewrite Hm. destruct (mapTx pool2 !! x) as [ex|] eqn:Ex.
    + destruct (UpdateParent_spec h x true p) as (Hf1 & Hm1 & Hp1 & Hc1).
      { rewrite (frame_links _ _ Hf). destruct Hst as (_ & _ & _ & -> & _). rewrite dom_insert_L. set_solver +. }
      split; [by eapply frame_trans|]. split; [congruence|]. split; [|intros t; by rewrite Hc1].
      intros t. rewrite Hp1, !Hp. destruct (decide (t = h)) as [->|]; [|done]. rewrite decide_True by done. cbn [changed]. apply set_eq. intros q.
      rewrite elem_of_union, !elem_of_filter, elem_of_union, elem_of_singleton. assert (q = x -> is_Some (mapTx pool2 !! q)) by (intros ->; by exists ex). tauto.
    + split; [done|]. split; [done|]. split; [|done]. intros t. rewrite Hp. case_decide; [|done]. apply set_eq. intros q.
      rewrite !elem_of_filter, elem_of_union, elem_of_singleton. assert (q = x -> ~ is_Some (mapTx pool2 !! q)) by (intros -> [? ?]; congruence). tauto.
  - split; [done|]. split; [done|]. by rewrite EP.
Qed.

(** Totals before the ancestors are told. *)
Definition before s t : setEntries := if decide (t = h) then ∅ else sets pool s t.

Lemma started_weight pool2 e1 k t : started pool2 e1 -> t <> h -> weight_at (mapTx pool2) k t = weight_at (mapTx pool) k t.
Proof using. intros (-> & _) Hne. unfold weight_at. by rewrite lookup_insert_ne. Qed.

Lemma started_core pool2 e1 k : started pool2 e1 -> k <> Fees -> weight k e1 = weight k e.
Proof using.
  intros (_ & Hc & _) Hk. pose proof (f_equal nTxSize Hc) as E1. pose proof (f_equal sigOpCount Hc) as E2. by destruct k.
Qed.

Lemma started_sum pool2 e1 k X0 : started pool2 e1 -> X0 ⊆ dom (mapTx pool) -> sum_over (weight_at (mapTx pool2) k) X0 = sum_over (weight_at (mapTx pool) k) X0.
Proof using Ha.
  intros Hst HX. apply sum_over_ext. intros y Hy. apply (started_weight pool2 e1); [done|]. intros ->. by apply (acceptable_fresh _ _ Ha), HX.
Qed.

Lemma started_bounded pool2 e1 : started pool2 e1 -> sizes_ok (mapTx pool2) /\ bounded (mapTx pool2).
Proof using Hw Ha.
  intros Hst. pose proof Hst as (Em & _). split.
  - intros t e' He'. rewrite Em in He'. apply lookup_insert_Some in He' as [[<- <-]|[Hne He']]; [|by apply (wf_sizes _ Hw t)].
    pose proof (started_core _ _ Size Hst ltac:(done)). pose proof (started_core _ _ SigOps Hst ltac:(done)). pose proof (acceptable_size _ _ Ha). cbn in *. lia.
  - assert (E : forall k, k <> Fees -> sum_over (weight_at (mapTx pool2) k) (dom (mapTx pool2)) = weight k e + sum_over (weight_at (mapTx pool) k) (dom (mapTx pool))).
    { intros k Hk. rewrite (started_dom _ _ Hst), sum_over_insert by apply (acceptable_fresh _ _ Ha). rewrite (started_sum _ _ _ _ Hst) by done.
      f_equal. rewrite <- (started_core _ _ k Hst Hk). unfold weight_at. by rewrite Em, lookup_insert_eq. }
    destruct (acceptable_room _ _ Ha) as (R1 & R2 & R3). unfold bounded. rewrite !E by done. cbn [weight]. lia.
Qed.

Lemma sets_dom s t : sets pool s t ⊆ dom (mapTx pool).
Proof using Hw. destruct s; [apply ancestors_dom|apply descendants_dom]; apply links_ok_closed, (wf_links _ Hw). Qed.

Lemma started_totals pool2 e1 : started pool2 e1 -> totals (mapTx pool2) before.
Proof using Hw Ha.
  intros Hst. pose proof Hst as (Em & _ & Ht & _). split.
  - intros s t e' k Hk He'. unfold before. rewrite Em in He'. apply lookup_insert_Some in He' as [[<- <-]|[Hne He']].
    + rewrite decide_True, sum_over_empty, Z.add_0_r by done. by apply Ht.
    + rewrite decide_False by done. rewrite (started_sum _ _ _ _ Hst) by apply sets_dom. by apply (totals_sum _ _ (wf_totals _ Hw)).
  - intros s t Hin. unfold before. rewrite (started_dom _ _ Hst) in *. case_decide as Hd; [set_solver +|].
    destruct (totals_sets _ _ (wf_totals _ Hw) s t) as [H1 H2]; [set_solver +Hin Hd|]. split; [done|]. set_solver +H2.
Qed.

(** ** Its ancestors *)

Lemma X_dom : X ⊆ dom (mapTx pool).
Proof using Hw. apply entry_ancestors_dom, links_ok_closed, (wf_links _ Hw). Qed.

(** Totals after they were told, and after the entry counts them. *)
Definition after_ancestors : side -> uint256 -> setEntries := retotal before Desc X h true.
Definition after s t : setEntries := if decide (s = Anc /\ t = h) then X else after_ancestors s t.

Lemma i32_add a b : i32 (i32 a + b) = i32 (a + b).
Proof using. unfold i32. replace ((a + 2 ^ 31) mod 2 ^ 32 - 2 ^ 31 + b + 2 ^ 31) with ((a + 2 ^ 31) mod 2 ^ 32 + b) by lia. rewrite Zplus_mod_idemp_l. do 2 f_equal. lia. Qed.

Lemma sum_entries_spec pool0 l : NoDup l -> (forall t, t ∈ l -> t ∈ dom (mapTx pool0)) -> forall a b c,
  sum_entries pool0 l (i64 a) (i64 b) (i32 c) = Some (i64 (a + sum_over (weight_at (mapTx pool0) Size) (list_to_set l)),
    i64 (b + sum_over (weight_at (mapTx pool0) Fees) (list_to_set l)), i32 (c + sum_over (weight_at (mapTx pool0) SigOps) (list_to_set l))).
Proof using.
  induction 1 as [|t l Ht Hl IH]; intros Hin a b c; cbn [sum_entries list_to_set].
  - by rewrite !sum_over_empty, !Z.add_0_r.
  - destruct (proj1 (elem_of_dom (mapTx pool0) t) (Hin t ltac:(left))) as [et Het]. rewrite Het. cbn [mbind option_bind].
    rewrite !(wrap_add_l Fees : forall a b, i64 (i64 a + b) = i64 (a + b)), i32_add, IH by (intros y Hy; apply Hin; by right).
    rewrite !sum_over_insert by (by rewrite elem_of_list_to_set).
    assert (E : forall k, weight_at (mapTx pool0) k t = weight k et) by (intros k; unfold weight_at; by rewrite Het). rewrite !E. cbn [weight].
    by rewrite !Z.add_assoc.
Qed.

Lemma UpdateEntryForAncestors_spec pool4 e4 : mapTx pool4 !! h = Some e4 -> dom (mapTx pool4) = {[h]} ∪ dom (mapTx pool) -> sizes_ok (mapTx pool4) -> bounded (mapTx pool4) ->
  totals (mapTx pool4) after_ancestors ->
  exists M, UpdateEntryForAncestors h X pool4 = Some (set_entries pool4 M) /\ totals M after /\ frame pool4 (set_entries pool4 M).
Proof using Hw Ha.
  intros He Hd Hs Hb Ht. unfold UpdateEntryForAncestors. pose proof X_dom as HX. pose proof (acceptable_fresh _ _ Ha) as Hfr.
  assert (HX4 : X ⊆ dom (mapTx pool4)) by (rewrite Hd; set_solver +HX). assert (HhX : h ∉ X) by (intros Hin; by apply Hfr, HX).
  assert (EX : list_to_set (in_hash_order X) = X) by (apply set_eq; intros y; by rewrite elem_of_list_to_set, elem_of_in_hash_order).
  pose proof (sum_entries_spec pool4 (in_hash_order X) (NoDup_in_hash_order X)) as Hsum. rewrite EX in Hsum.
  specialize (Hsum ltac:(intros t Hin%elem_of_in_hash_order; by apply HX4) 0 0 0). change (i64 0) with 0 in Hsum. change (i32 0) with 0 in Hsum.
  rewrite Hsum. clear Hsum. cbn [mbind option_bind]. rewrite !Z.add_0_l.
  set (d := fun k => signed k (sum_over (weight_at (mapTx pool4) k) X)).
  destruct (update_totals Anc {[h]} d pool4 after_ancestors after Ht Hs Hb) as (M & E & Hc & Ht' & Hi).
  - rewrite Hd. set_solver +.
  - intros x ->%elem_of_singleton. assert (E1 : after Anc h = X) by (unfold after; by rewrite decide_True).
    assert (E2 : after_ancestors Anc h = ∅) by (unfold after_ancestors, retotal, before; rewrite decide_False by naive_solver; by rewrite decide_True).
    rewrite E1, E2. split; [done|]. split; [done|]. intros k Hk. rewrite sum_over_empty, Z.add_0_l. unfold d.
    rewrite <- (Z.add_0_l (signed k _)), wrap_signed. by rewrite Z.add_0_l.
  - intros s' x Hx. unfold after. rewrite decide_False; [done|]. intros [-> ->]. destruct Hx as [|Hx]; [done|]. set_solver +Hx.
  - exists M. split; [|split; [done|by apply frame_entries]].
    assert (E0 : in_hash_order {[h]} = [h]).
    { apply Permutation_singleton_r. rewrite in_hash_order_perm. by rewrite elements_singleton. }
    rewrite E0 in E. cbn [each] in E. destruct (modify h (UpdateState Anc d) pool4) as [p|] eqn:Em; [|done]. cbn [mbind option_bind] in E. injection E as ->.
    rewrite <- Em. f_equal. cbn [UpdateState]. f_equal. unfold d. cbn [signed].
    assert (Ec : sum_over (weight_at (mapTx pool4) Count) X = Z.of_nat (size X)).
    { rewrite <- sum_over_one. apply sum_over_ext. intros y Hy. apply HX4, elem_of_dom in Hy as [ey Hey]. unfold weight_at. by rewrite Hey. }
    rewrite Ec, i64_small; [done|]. pose proof (sum_over_subset (weight_at (mapTx pool4) Count) X (dom (mapTx pool4)) HX4
      (fun y _ => weight_nonneg _ Count y Hs ltac:(done))). destruct Hb as (Hb & _). lia.
Qed.

(** ** The grown graph *)

Record grown pool6 : Prop := mkGrown {
  grown_dom : dom (mapTx pool6) = {[h]} ∪ dom (mapTx pool);
  grown_links : dom (mapLinks pool6) = dom (mapTx pool6);
  grown_par t : par pool6 t = if decide (t = h) then P else par pool t;
  grown_chi t : chi pool6 t = if decide (t ∈ P) then {[h]} ∪ chi pool t else chi pool t
}.

Lemma P_dom : P ⊆ dom (mapTx pool).
Proof using. intros q Hq. apply elem_of_pool_parents in Hq. tauto. Qed.

Lemma h_not_parent t : h ∉ par pool t.
Proof using Hw Ha. intros Hin. apply (acceptable_fresh _ _ Ha). by apply (par_dom _ (links_ok_closed _ (wf_links _ Hw)) t). Qed.

Lemma grown_links_ok pool6 : grown pool6 -> links_ok pool6.
Proof using Hw Ha.
  intros Hg. split; [apply (grown_links _ Hg)|]. intros p c. rewrite (grown_par _ Hg), (grown_chi _ Hg).
  pose proof (links_sym _ (wf_links _ Hw) p c) as Hs. pose proof (acceptable_fresh _ _ Ha) as Hfr.
  destruct (decide (c = h)) as [->|Hne].
  - assert (Hno : h ∉ chi pool p) by (intros Hin; apply Hfr; by apply (chi_dom _ (links_ok_closed _ (wf_links _ Hw)) p)).
    destruct (decide (p ∈ P)) as [Hp|Hp]; set_solver +Hno Hp.
  - destruct (decide (p ∈ P)) as [Hp|Hp]; [|done]. set_solver +Hs Hne.
Qed.

Lemma grown_ancestors_old pool6 t : grown pool6 -> t <> h -> ancestors pool6 t = ancestors pool t.
Proof using Hw Ha.
  intros Hg Hne. pose proof (ancestors_reach pool6 t (links_ok_closed _ (grown_links_ok _ Hg))) as Hr6.
  destruct (reach_remove_initial (par pool6) (par pool) {[h]} t (ancestors pool6 t)) as [Hr _]; [| |set_solver +Hne|done|].
  - intros z Hz. rewrite (grown_par _ Hg), decide_False by set_solver +Hz. pose proof (h_not_parent z) as Hno. set_solver +Hno.
  - intros z Hz. by rewrite (grown_par _ Hg), decide_False by set_solver +Hz.
  - apply (is_reach_unique _ _ _ _ Hr). apply ancestors_reach, links_ok_closed, (wf_links _ Hw).
Qed.

Lemma grown_ancestors_new pool6 : grown pool6 -> ancestors pool6 h = X.
Proof using Hw Ha.
  intros Hg. pose proof (links_ok_closed _ (grown_links_ok _ Hg)) as Hl6. pose proof (links_ok_closed _ (wf_links _ Hw)) as Hl.
  apply set_eq. intros y. rewrite (ancestors_reach pool6 h Hl6 y), <- reach_from_neighbours, elem_of_entry_ancestors by done.
  rewrite (grown_par _ Hg), decide_True by done.
  assert (Hr : forall q, q ∈ P -> rtc (edge (par pool6)) q y <-> rtc (edge (par pool)) q y).
  { intros q Hq. assert (Hqh : q <> h) by (intros ->; by apply (acceptable_fresh _ _ Ha), P_dom). pose proof (grown_ancestors_old _ q Hg Hqh) as Eq.
    split; intros Ht; (inversion Ht as [|? z ? Hs Hz]; subst; [apply rtc_refl|]); apply tc_rtc.
    - apply (ancestors_reach pool q Hl). rewrite <- Eq. apply (ancestors_reach pool6 q Hl6), reach_from_neighbours. by exists z.
    - apply (ancestors_reach pool6 q Hl6). rewrite Eq. apply (ancestors_reach pool q Hl), reach_from_neighbours. by exists z. }
  split; intros (q & Hq & Ht); exists q; (split; [done|]); by apply Hr.
Qed.

Lemma grown_sets pool6 s t : grown pool6 -> t ∈ dom (mapTx pool6) -> sets pool6 s t = after s t.
Proof using Hw Ha.
  intros Hg Hin. pose proof (grown_links_ok _ Hg) as Hl6. pose proof (wf_links _ Hw) as Hl. pose proof X_dom as HX. pose proof (acceptable_fresh _ _ Ha) as Hfr.
  unfold after, after_ancestors, retotal, before. destruct s; cbn [sets].
  - destruct (decide (t = h)) as [->|Hne]; [rewrite decide_True by done; by apply grown_ancestors_new|].
    rewrite decide_False, decide_False by naive_solver. by apply grown_ancestors_old.
  - rewrite decide_False by naive_solver. apply set_eq. intros y. rewrite <- ancestors_descendants by done.
    destruct (decide (y = h)) as [->|Hyh].
    + rewrite grown_ancestors_new by done. destruct (decide (Desc = Desc /\ t ∈ X)) as [[_ HtX]|HtX]; [cbn; set_solver +HtX|].
      split; [intros Ht; destruct HtX; by split|]. intros Hd. exfalso. apply Hfr. case_decide; [set_solver +Hd|]. by apply (sets_dom Desc t).
    + rewrite grown_ancestors_old, ancestors_descendants by done. destruct (decide (t = h)) as [->|Hth].
      * assert (Hno : y ∉ descendants pool h).
        { intros Hd. apply ancestors_descendants in Hd; [|done]. apply Hfr. by apply (ancestors_dom pool y (links_ok_closed _ Hl)). }
        rewrite decide_False by (intros [_ Hd]; by apply Hfr, HX). set_solver +Hno.
      * destruct (decide (Desc = Desc /\ t ∈ X)); cbn; set_solver +Hyh.
Qed.

Lemma grown_acyclic pool6 : grown pool6 -> acyclic (par pool6).
Proof using Hw Ha.
  intros Hg t Ht. pose proof (links_ok_closed _ (grown_links_ok _ Hg)) as Hl6. apply (ancestors_reach pool6 t Hl6) in Ht.
  destruct (decide (t = h)) as [->|Hne].
  - rewrite grown_ancestors_new in Ht by done. by apply (acceptable_fresh _ _ Ha), X_dom.
  - rewrite grown_ancestors_old in Ht by done. revert Ht. apply not_own_ancestor; [apply (wf_links _ Hw)|apply (wf_acyclic _ Hw)].
Qed.

(** The pool with one more entry. *)
Record with_entry pool6 : Prop := mkWithEntry {
  with_entry_new : exists e6, mapTx pool6 !! h = Some e6 /\ core e6 = core (with_delta e (default 0 (mapDeltas pool !! h)) 0 0);
  with_entry_old t : t <> h -> core <$> mapTx pool6 !! t = core <$> mapTx pool !! t;
  with_entry_grown : grown pool6;
  with_entry_deltas : mapDeltas pool6 = mapDeltas pool
}.

(** The last step: the counters and the vector of hashes. *)
Lemma finish_spec pool5 e5 est : mapTx pool5 !! h = Some e5 -> core e5 = core (with_delta e (default 0 (mapDeltas pool !! h)) 0 0) ->
  (forall t, t <> h -> core <$> mapTx pool5 !! t = core <$> mapTx pool !! t) ->
  (forall t, t <> h -> vTxHashesIdx <$> mapTx pool5 !! t = vTxHashesIdx <$> mapTx pool !! t) ->
  sizes_ok (mapTx pool5) -> bounded (mapTx pool5) -> totals (mapTx pool5) after -> grown pool5 ->
  (forall o t, mapNextTx pool5 !! o = Some t <-> mapNextTx pool !! o = Some t \/ (o ∈ prevouts (entry_tx e) /\ t = h)) ->
  vTxHashes pool5 = vTxHashes pool -> mapDeltas pool5 = mapDeltas pool -> totalTxSize pool5 = totalTxSize pool -> usage_ok pool5 ->
  exists pool6, modify h (fun e => Some (with_index e (zlen (vTxHashes (append_hash h h e est pool5)) - 1))) (append_hash h h e est pool5) = Some pool6 /\
    wf pool6 /\ with_entry pool6.
Proof using Hw Ha.
  intros He5 Hc5 Hold Hidx Hs Hb Ht Hg Hnx Hv Hd Hts Hu. unfold modify. cbn [mapTx append_hash]. rewrite He5. cbn [mbind option_bind].
  eexists. split; [reflexivity|]. set (e6 := with_index e5 _). set (pool6 := set_entries _ _).
  assert (Hlen : vTxHashesIdx e6 = Z.of_nat (length (vTxHashes pool))).
  { cbn [e6 with_index vTxHashesIdx vTxHashes append_hash]. unfold zlen. rewrite length_app, Hv. cbn [length]. lia. }
  assert (Hun : forall t, unplaced <$> mapTx pool6 !! t = unplaced <$> mapTx pool5 !! t).
  { intros t. cbn [pool6 mapTx set_entries append_hash]. destruct (decide (t = h)) as [->|Hne]; [by rewrite lookup_insert_eq, He5|by rewrite lookup_insert_ne]. }
  assert (Hcu : forall y : option CTxMemPoolEntry, core <$> (unplaced <$> y) = core <$> y) by (intros []; reflexivity).
  assert (Hc : same_core (mapTx pool5) (mapTx pool6)) by (intros t; by rewrite <- Hcu, Hun, Hcu).
  assert (Hg6 : grown pool6).
  { destruct Hg as [G1 G2 G3 G4]. split; [by rewrite (same_core_dom _ _ Hc)|by rewrite (same_core_dom _ _ Hc)|done|done]. }
  assert (Htx5 : entry_tx e5 = entry_tx e) by exact (f_equal entry_tx Hc5).
  assert (Hlook : forall t e', mapTx pool6 !! t = Some e' -> (t = h /\ e' = e6) \/ (t <> h /\ mapTx pool5 !! t = Some e' /\ exists e0, mapTx pool !! t = Some e0 /\ core e' = core e0)).
  { intros t e' He'. cbn [pool6 mapTx set_entries append_hash] in He'. apply lookup_insert_Some in He' as [[<- <-]|[Hne He']]; [by left|right].
    split; [done|]. split; [done|]. specialize (Hold t ltac:(done)). rewrite He' in Hold. destruct (mapTx pool !! t) as [e0|]; [|done]. exists e0. split; [done|].
    change (Some (core e') = Some (core e0)) in Hold. congruence. }
  assert (Hfr : mapTx pool !! h = None) by (apply not_elem_of_dom, (acceptable_fresh _ _ Ha)).
  split; [split|split].
  - intros t e' He'. destruct (Hlook t e' He') as [[-> ->]|(_ & _ & e0 & He0 & Ec)]; [cbn; by rewrite Htx5|].
    pose proof (f_equal entry_tx Ec) as Et. cbn in Et. rewrite Et. by apply (wf_hash _ Hw).
  - by apply (same_core_sizes _ _ Hc).
  - by apply (same_core_bounded _ _ Hc).
  - by apply grown_links_ok.
  - by apply grown_acyclic.
  - intros t e' He'. rewrite (grown_par _ Hg6). destruct (Hlook t e' He') as [[-> ->]|(Hne & _ & e0 & He0 & Ec)].
    + rewrite decide_True by done. change (entry_tx e6) with (entry_tx e5). rewrite Htx5. unfold pool_parents. intros q Hq. by apply elem_of_filter in Hq as [_ ?].
    + rewrite decide_False by done. pose proof (f_equal entry_tx Ec) as Et. cbn in Et. rewrite Et. by apply (wf_inputs _ Hw).
  - assert (Ht6 : totals (mapTx pool6) after).
    { split; [|intros s t Hin; rewrite (same_core_dom _ _ Hc) in *; by apply (totals_sets _ _ Ht)].
      intros s t e' k Hk He'. rewrite (same_core_sum _ _ _ _ Hc). assert (He5' : exists e0, mapTx pool5 !! t = Some e0 /\ unplaced e' = unplaced e0).
      { specialize (Hun t). rewrite He' in Hun. destruct (mapTx pool5 !! t) as [e0|]; [|done]. exists e0. split; [done|]. change (Some (unplaced e') = Some (unplaced e0)) in Hun. congruence. }
      destruct He5' as (e0 & He0 & Eu). rewrite (unplaced_total _ _ s k Eu), (unplaced_weight _ _ k Eu). by apply (totals_sum _ _ Ht). }
    destruct Ht6 as [T1 T2]. split.
    + intros s t e' k Hk He'. rewrite grown_sets by (done || (apply elem_of_dom; eauto)). by apply T1.
    + intros s t Hin. rewrite grown_sets by done. by apply T2.
  - intros o t. change (mapNextTx pool6) with (mapNextTx pool5). rewrite Hnx, (wf_next _ Hw o t). split.
    + intros [(e0 & He0 & Ho)|[Ho ->]].
      * assert (Hne : t <> h) by (intros ->; congruence). specialize (Hold t Hne). rewrite He0 in Hold. destruct (mapTx pool5 !! t) as [e'|] eqn:He'; [|done].
        exists e'. split; [cbn [pool6 mapTx set_entries append_hash]; by rewrite lookup_insert_ne|].
        change (Some (core e') = Some (core e0)) in Hold. assert (Ec : core e' = core e0) by congruence. pose proof (f_equal entry_tx Ec) as Et. cbn in Et. by rewrite Et.
      * exists e6. split; [cbn [pool6 mapTx set_entries append_hash]; apply lookup_insert_eq|]. change (entry_tx e6) with (entry_tx e5). by rewrite Htx5.
    + intros (e' & He' & Ho). destruct (Hlook t e' He') as [[-> ->]|(_ & _ & e0 & He0 & Ec)].
      * right. split; [|done]. change (entry_tx e6) with (entry_tx e5) in Ho. by rewrite <- Htx5.
      * left. exists e0. split; [done|]. pose proof (f_equal entry_tx Ec) as Et. cbn in Et. by rewrite <- Et.
  - intros t e' He'. change (vTxHashes pool6) with (vTxHashes pool5 ++ [(h, Some h)]). rewrite Hv. destruct (Hlook t e' He') as [[-> ->]|(Hne & He5' & _)].
    + rewrite Hlen. split; [lia|]. rewrite Nat2Z.id. by apply list_lookup_middle.
    + specialize (Hidx t Hne). rewrite He5' in Hidx. destruct (mapTx pool !! t) as [e0|] eqn:He0; [|done]. change (Some (vTxHashesIdx e') = Some (vTxHashesIdx e0)) in Hidx. apply (inj Some) in Hidx as Ei.
      rewrite Ei. destruct (wf_index _ Hw t e0 He0) as [Hi1 Hi2]. split; [done|]. by apply lookup_app_l_Some.
  - intros i p Hp. change (vTxHashes pool6) with (vTxHashes pool5 ++ [(h, Some h)]) in Hp. rewrite Hv in Hp. apply lookup_app_Some in Hp as [Hp|[Hge Hp]].
    + destruct (wf_hashes _ Hw i p Hp) as (t & e0 & -> & He0 & Ei). assert (Hne : t <> h) by (intros ->; congruence).
      specialize (Hidx t Hne). rewrite He0 in Hidx. destruct (mapTx pool5 !! t) as [e'|] eqn:He'; [|done]. exists t, e'. split; [done|].
      split; [cbn [pool6 mapTx set_entries append_hash]; by rewrite lookup_insert_ne|]. change (Some (vTxHashesIdx e') = Some (vTxHashesIdx e0)) in Hidx. congruence.
    + apply list_lookup_singleton_Some in Hp as [Hi <-]. exists h, e6. split; [done|].
      split; [cbn [pool6 mapTx set_entries append_hash]; apply lookup_insert_eq|]. rewrite Hlen. lia.
  - unfold size_ok. rewrite (same_core_dom _ _ Hc), (same_core_sum _ _ _ _ Hc), (grown_dom _ Hg), sum_over_insert by apply (acceptable_fresh _ _ Ha).
    cbn [totalTxSize pool6 set_entries append_hash]. rewrite Hts, (wf_size _ Hw), (wrap_add_l Size : forall a b, u64 (u64 a + b) = u64 (a + b)). f_equal.
    rewrite Z.add_comm. f_equal.
    + unfold weight_at. rewrite He5. cbn. symmetry. exact (f_equal nTxSize Hc5).
    + symmetry. apply sum_over_ext. intros t Hin. assert (Hne : t <> h) by (intros ->; by apply (acceptable_fresh _ _ Ha)).
      unfold weight_at. specialize (Hold t Hne). destruct (mapTx pool5 !! t) as [e'|], (mapTx pool !! t) as [e0|]; try done.
      change (Some (core e') = Some (core e0)) in Hold. apply (core_weight e' e0 Size). congruence.
  - unfold usage_ok, inner_usage in *. change (cachedInnerUsage pool6) with (cachedInnerUsage pool5). rewrite Hu. f_equal. rewrite (same_core_dom _ _ Hc). f_equal.
    apply sum_over_ext. intros t _. symmetry. by apply same_core_usage.
  - exists e6. split; [cbn [pool6 mapTx set_entries append_hash]; apply lookup_insert_eq|]. change (core e6) with (core e5). done.
  - intros t Hne. by rewrite (Hc t), Hold.
  - done.
  - done.
Qed.

Lemma addUnchecked_with_spec est : exists pool', addUnchecked_with h e X est pool = Some pool' /\ wf pool' /\ with_entry pool'.
Proof using Hw Ha.
  unfold addUnchecked_with. destruct start_spec as (pool1 & e1 & -> & He1 & Htx & Hst). cbn [mbind option_bind]. rewrite He1. cbn [fmap option_fmap option_map mbind option_bind].
  rewrite Htx. set (pool2 := set_next pool1 _) in *. destruct (link_parents_spec pool2 e1 Hst) as (Hf3 & Hm3 & Hp3 & Hc3). set (pool3 := foldl _ pool2 _) in *.
  destruct (started_bounded _ _ Hst) as [Hs2 Hb2]. pose proof Hst as (Em2 & Ec2 & _ & El2 & Ev2 & Ed2 & Hn2 & Et2 & Hu2).
  assert (He3 : mapTx pool3 !! h = Some e1) by (rewrite Hm3, Em2; apply lookup_insert_eq).
  pose proof (links_ok_closed _ (wf_links _ Hw)) as Hl. pose proof P_dom as HP. pose proof X_dom as HX.
  assert (Hd3 : dom (mapTx pool3) = {[h]} ∪ dom (mapTx pool)) by (rewrite Hm3; by apply (started_dom _ e1)).
  assert (Hl3 : links_closed pool3).
  { split.
    - rewrite (frame_links _ _ Hf3), El2, dom_insert_L, Hd3, (links_dom' _ (wf_links _ Hw)). done.
    - intros t. rewrite Hp3, Hd3. case_decide; [set_solver +HP|]. pose proof (par_dom _ Hl t) as Hd. set_solver +Hd.
    - intros t. rewrite Hc3, Hd3. pose proof (chi_dom _ Hl t) as Hd. set_solver +Hd. }
  destruct (UpdateAncestorsOf_spec true h e1 X pool3 before Hl3 He3) as (pool4 & -> & Hf4 & Ht4 & Hp4 & Hc4).
  { rewrite Hm3. by apply (started_totals _ e1). }
  { by rewrite Hm3. }
  { by rewrite Hm3. }
  { rewrite Hd3. set_solver +HX. }
  { intros x Hx. assert (Hxh : x <> h) by (intros ->; by apply (acceptable_fresh _ _ Ha), HX). unfold before. rewrite decide_False by done.
    split; [|done]. intros Hin. apply (acceptable_fresh _ _ Ha). by apply (sets_dom Desc x). }
  cbn [mbind option_bind]. destruct (frame_lookup _ _ _ _ Hf4 He3) as (e4 & He4 & Hc4').
  destruct (UpdateEntryForAncestors_spec pool4 e4 He4) as (M5 & -> & Ht5 & Hf5).
  { by rewrite (frame_dom _ _ Hf4). }
  { apply (frame_sizes _ _ Hf4). by rewrite Hm3. }
  { apply (frame_bounded _ _ Hf4). by rewrite Hm3. }
  { done. }
  cbn [mbind option_bind]. set (pool5 := set_entries pool4 M5) in *.
  pose proof (frame_trans _ _ _ Hf3 (frame_trans _ _ _ Hf4 Hf5)) as Hf. destruct (frame_lookup _ _ _ _ Hf5 He4) as (e5 & He5 & Hc5).
  apply (finish_spec pool5 e5); try done.
  - congruence.
  - intros t Hne. rewrite (frame_core _ _ Hf t), Em2. by rewrite lookup_insert_ne.
  - intros t Hne. rewrite (frame_index _ _ Hf t), Em2. by rewrite lookup_insert_ne.
  - by apply (frame_sizes _ _ Hf).
  - by apply (frame_bounded _ _ Hf).
  - split.
    + rewrite (frame_dom _ _ Hf). by apply (started_dom _ e1).
    + rewrite (frame_links _ _ Hf), (frame_dom _ _ Hf), El2, Em2, !dom_insert_L, (links_dom' _ (wf_links _ Hw)). done.
    + intros t. change (par pool5 t) with (par pool4 t). by rewrite Hp4.
    + intros t. change (chi pool5 t) with (chi pool4 t). rewrite Hc4, Hp3, (decide_True (P := (h = h))) by done. by rewrite Hc3.
  - intros o t. by rewrite (frame_next _ _ Hf).
  - by rewrite (frame_hashes _ _ Hf).
  - by rewrite (frame_deltas _ _ Hf).
  - by rewrite (frame_size _ _ Hf).
  - by apply (frame_usage _ _ Hf).
Qed.

End Add.

(** [addUnchecked] computes these ancestors and adds the entry. *)
Lemma addUnchecked_spec pool e est : wf pool -> acceptable pool e ->
  exists pool', addUnchecked (GetHash (entry_tx e)) e est pool = Some pool' /\ wf pool' /\ with_entry pool e pool'.
Proof.
  intros Hw Ha. unfold addUnchecked. pose proof (links_ok_closed _ (wf_links _ Hw)) as Hl.
  assert (Hr : readable pool (nTxSize e)).
  { eapply totals_readable; [apply (wf_totals _ Hw)|apply (wf_sizes _ Hw)|apply (wf_bounded _ Hw)|]. destruct (acceptable_size _ _ Ha), (acceptable_room _ _ Ha) as (_ & Hroom & _).
    pose proof (sum_over_nonneg (weight_at (mapTx pool) Size) (dom (mapTx pool)) (fun y _ => weight_nonneg _ Size y (wf_sizes _ Hw) ltac:(done))). lia. }
  destruct (search_for_ancestors pool e no_limits Hl Hr) as (err & Y & -> & HY). cbn [mbind option_bind].
  assert (Y = entry_ancestors pool (entry_tx e)) as ->.
  { destruct err; [|by destruct HY]. destruct HY as [_ []]. apply within_no_limits; [done|]. by apply entry_ancestors_dom. }
  by apply addUnchecked_with_spec.
Qed.

(** When no entry spends its outputs, every parent is linked again. *)
Lemma with_entry_linked pool e pool' : wf pool -> acceptable pool e -> with_entry pool e pool' -> linked pool ->
  (forall t e0, mapTx pool !! t = Some e0 -> GetHash (entry_tx e) ∉ setParentTransactions (entry_tx e0)) -> linked pool'.
Proof.
  intros Hw Ha Hwe Hl Hno t e' He'. destruct Hwe as [(e6 & He6 & Hc6) Hold Hg _]. rewrite (grown_par _ _ _ Hg).
  assert (Hpp : forall tx, GetHash (entry_tx e) ∉ setParentTransactions tx -> pool_parents pool' tx = pool_parents pool tx).
  { intros tx Htx. unfold pool_parents. apply set_eq. intros q. rewrite !elem_of_filter. assert (Hq : q ∈ setParentTransactions tx -> is_Some (mapTx pool' !! q) <-> is_Some (mapTx pool !! q)).
    { intros Hin. assert (Hne : q <> GetHash (entry_tx e)) by congruence. specialize (Hold q Hne).
      destruct (mapTx pool' !! q), (mapTx pool !! q); try done; split; intros [? ?]; try done; by eexists. }
    tauto. }
  case_decide as Ht.
  - subst t. rewrite He6 in He'. injection He' as <-. pose proof (f_equal entry_tx Hc6) as Et. cbn in Et. rewrite Et. symmetry. apply Hpp, (acceptable_self _ _ Ha).
  - specialize (Hold t Ht). rewrite He' in Hold. destruct (mapTx pool !! t) as [e0|] eqn:He0; [|done]. change (Some (core e') = Some (core e0)) in Hold.
    assert (Et : entry_tx e' = entry_tx e0) by (apply (inj Some) in Hold; exact (f_equal entry_tx Hold)). rewrite Et, Hpp by by apply (Hno t). by apply Hl.
Qed.
End WithEnv.
End MemPoolAdd.
