(* ===== verification/MemPoolSteps.v ===== *)
(** * The operations of the memory pool

    What the operations that the node calls do to the pool: the removal of a
    transaction with its descendants, of the transactions of a block and their
    conflicts, of old transactions and of those with the lowest score, and the
    change of a priority.  Every operation keeps the invariant. *)

From stdpp Require Import base relations list list_numbers gmap fin_sets sorting numbers option.
From Stdlib Require Import ZArith Lia.
From S2P Require Import Prelude Serialize Script Transaction Interpreter InterpreterSafety Coins Ledger TxGraph MemPool MemPoolInv MemPoolOps MemPoolAdd.

Local Open Scope Z_scope.

Module MemPoolSteps.
Import Serialize Script Transaction Interpreter Ledger TxGraph MemPool MemPoolInv MemPoolOps MemPoolAdd.

Section WithEnv.
Context `{!Crypto} `{!PoolEnv}.
Implicit Types (pool : CTxMemPool) (e : CTxMemPoolEntry) (it t x : uint256) (X S : setEntries) (s : side) (tx : CTransaction).

Lemma wf_closed pool : wf pool -> links_closed pool.
Proof. intros Hw. apply links_ok_closed, (wf_links _ Hw). Qed.

(** ** Pools with fewer entries *)

Lemma core_tx e e' : core e = core e' -> entry_tx e = entry_tx e'.
Proof. intros E. exact (f_equal entry_tx E). Qed.

Lemma without_entry pool S pool' t e' : without pool S pool' -> mapTx pool' !! t = Some e' ->
  t ∉ S /\ exists e, mapTx pool !! t = Some e /\ core e' = core e.
Proof.
  intros Hwo He. pose proof (without_entries _ _ _ Hwo t) as E. rewrite He in E. case_decide; [done|]. split; [done|].
  destruct (mapTx pool !! t) as [e|]; [|done]. exists e. split; [done|]. change (Some (core e') = Some (core e)) in E. congruence.
Qed.

Lemma without_lookup pool S pool' t e : without pool S pool' -> mapTx pool !! t = Some e -> t ∉ S -> exists e', mapTx pool' !! t = Some e' /\ core e' = core e.
Proof.
  intros Hwo He Ht. pose proof (without_entries _ _ _ Hwo t) as E. rewrite decide_False, He in E by done.
  destruct (mapTx pool' !! t) as [e'|]; [|done]. exists e'. split; [done|]. change (Some (core e') = Some (core e)) in E. congruence.
Qed.

Lemma without_dom pool S pool' : without pool S pool' -> dom (mapTx pool') = dom (mapTx pool) ∖ S.
Proof.
  intros Hwo. apply set_eq. intros t. rewrite elem_of_difference, !elem_of_dom. pose proof (without_entries _ _ _ Hwo t) as E.
  destruct (decide (t ∈ S)) as [Hin|Hout], (mapTx pool !! t), (mapTx pool' !! t); try done; split; try naive_solver; intros [? ?]; try done; by eexists.
Qed.

Lemma outside_par pool t : links_closed pool -> t ∉ dom (mapTx pool) -> par pool t = ∅ /\ chi pool t = ∅.
Proof.
  intros Hl Ht. rewrite <- (links_dom _ Hl), not_elem_of_dom in Ht. unfold par, chi, links_at. by rewrite Ht.
Qed.

Lemma without_sub pool S pool' : wf pool -> wf pool' -> without pool S pool' ->
  (forall t, par pool' t ⊆ par pool t) /\ (forall t, chi pool' t ⊆ chi pool t).
Proof.
  intros Hw Hw' Hwo. assert (Hp : forall t, par pool' t ⊆ par pool t).
  { intros t. destruct (decide (t ∈ S)) as [Hin|Hout]; [|rewrite (without_par _ _ _ Hwo t Hout); set_solver +].
    assert (Hd : t ∉ dom (mapTx pool')) by (rewrite (without_dom _ _ _ Hwo); set_solver +Hin).
    rewrite (proj1 (outside_par pool' t (wf_closed _ Hw') Hd)). set_solver +. }
  split; [done|]. intros t c Hc. apply (links_sym _ (wf_links _ Hw)). apply Hp. by apply (links_sym _ (wf_links _ Hw')).
Qed.

Lemma without_linked pool S pool' : wf pool' -> without pool S pool' -> linked pool -> linked pool'.
Proof.
  intros Hw' Hwo Hl t e' He'. destruct (without_entry _ _ _ _ _ Hwo He') as (Ht & e & He & Ec).
  rewrite (without_par _ _ _ Hwo t Ht), (Hl t e He), (core_tx _ _ Ec). apply set_eq. intros q.
  rewrite elem_of_difference, !elem_of_pool_parents, (without_dom _ _ _ Hwo). set_solver +.
Qed.

Lemma without_prioritised pool S pool' : without pool S pool' -> prioritised pool -> prioritised pool'.
Proof.
  intros Hwo Hp t e' He'. destruct (without_entry _ _ _ _ _ Hwo He') as (Ht & e & He & Ec).
  rewrite (without_deltas _ _ _ Hwo), <- (Hp t e He). exact (f_equal feeDelta Ec).
Qed.

(** A pool that keeps some entries of another, and lost only what [G] allows. *)
Record shrunk pool (G : uint256 -> Prop) pool' : Prop := mkShrunk {
  shrunk_wf : wf pool';
  shrunk_entries t : core <$> mapTx pool' !! t = core <$> mapTx pool !! t \/ (mapTx pool' !! t = None /\ G t);
  shrunk_par t : par pool' t ⊆ par pool t;
  shrunk_chi t : chi pool' t ⊆ chi pool t;
  shrunk_linked : linked pool -> linked pool';
  shrunk_prioritised : prioritised pool -> prioritised pool'
}.

Lemma shrunk_refl pool G : wf pool -> shrunk pool G pool.
Proof. intros Hw. split; try done. intros t. by left. Qed.

Lemma shrunk_trans p1 p2 p3 (G : uint256 -> Prop) : shrunk p1 G p2 -> shrunk p2 G p3 -> shrunk p1 G p3.
Proof.
  intros H1 H2. split; [apply (shrunk_wf _ _ _ H2)|..].
  - intros t. destruct (shrunk_entries _ _ _ H2 t) as [E|[E Hg]]; [|by right]. destruct (shrunk_entries _ _ _ H1 t) as [E'|[E' Hg]]; [left; congruence|right].
    split; [|done]. rewrite E' in E. by destruct (mapTx p3 !! t).
  - intros t. etrans; [apply (shrunk_par _ _ _ H2)|apply (shrunk_par _ _ _ H1)].
  - intros t. etrans; [apply (shrunk_chi _ _ _ H2)|apply (shrunk_chi _ _ _ H1)].
  - intros Hl. apply (shrunk_linked _ _ _ H2), (shrunk_linked _ _ _ H1), Hl.
  - intros Hp. apply (shrunk_prioritised _ _ _ H2), (shrunk_prioritised _ _ _ H1), Hp.
Qed.

Lemma shrunk_weaken pool (G G' : uint256 -> Prop) pool' : (forall t, G t -> G' t) -> shrunk pool G pool' -> shrunk pool G' pool'.
Proof. intros Hg [H1 H2 H3 H4 H5 H6]. split; try done. intros t. destruct (H2 t) as [|[? ?]]; [by left|right; auto]. Qed.

Lemma without_shrunk pool S pool' : wf pool -> wf pool' -> without pool S pool' -> shrunk pool (fun t => t ∈ S) pool'.
Proof.
  intros Hw Hw' Hwo. destruct (without_sub _ _ _ Hw Hw' Hwo) as [Hp Hc]. split; try done.
  - intros t. pose proof (without_entries _ _ _ Hwo t) as E. case_decide; [right|by left]. split; [|done]. by destruct (mapTx pool' !! t).
  - by apply (without_linked _ S).
  - by apply (without_prioritised _ S).
Qed.

Lemma shrunk_entry pool G pool' t e' : shrunk pool G pool' -> mapTx pool' !! t = Some e' -> exists e, mapTx pool !! t = Some e /\ core e' = core e.
Proof.
  intros Hs He. destruct (shrunk_entries _ _ _ Hs t) as [E|[E _]]; [|congruence]. rewrite He in E. destruct (mapTx pool !! t) as [e|]; [|done].
  exists e. split; [done|]. change (Some (core e') = Some (core e)) in E. congruence.
Qed.

Lemma rtc_mono (g g' : uint256 -> setEntries) x t : (forall y, g' y ⊆ g y) -> rtc (edge g') x t -> rtc (edge g) x t.
Proof. intros Hs. induction 1 as [|a b c Hab Hbc IH]; [apply rtc_refl|]. eapply rtc_l; [|done]. by apply Hs. Qed.

(** Changing fields that the invariant does not read. *)
Lemma wf_ext pool pool' : mapTx pool' = mapTx pool -> mapLinks pool' = mapLinks pool -> mapNextTx pool' = mapNextTx pool ->
  vTxHashes pool' = vTxHashes pool -> totalTxSize pool' = totalTxSize pool -> cachedInnerUsage pool' = cachedInnerUsage pool -> wf pool -> wf pool'.
Proof.
  intros E1 E2 E3 E4 E5 E6 [W1 W2 W3 [W4 W4'] W5 W6 W7 W8 W9 W10 W11 W12].
  assert (Ep : par pool' = par pool) by (unfold par, links_at; by rewrite E2). assert (Ec : chi pool' = chi pool) by (unfold chi, links_at; by rewrite E2).
  assert (Es : sets pool' = sets pool) by (unfold sets, ancestors, descendants; by rewrite Ep, Ec, E1).
  constructor; [| | |constructor|..]; rewrite ?Ep, ?Ec, ?Es, ?E1, ?E2, ?E3, ?E4, ?E5; try done.
  unfold usage_ok, inner_usage, link_usage in *. rewrite Ep, Ec, E1, E2, E6. done.
Qed.

(** ** Removing transactions with their descendants *)

Lemma remove_closed pool S reason : wf pool -> S ⊆ dom (mapTx pool) -> (forall y, y ∈ S -> chi pool y ⊆ S) ->
  exists pool', RemoveStaged S false reason pool = Some pool' /\ wf pool' /\ without pool S pool'.
Proof. intros Hw Hd Hc. apply RemoveStaged_spec; [done|]. by split. Qed.

(** The entries that [removeRecursive] starts from: the transaction, or the
    spenders of its outputs. *)
Definition roots pool tx t : Prop :=
  if decide (GetHash tx ∈ dom (mapTx pool)) then t = GetHash tx
  else exists i : nat, (i < length (vout tx))%nat /\ mapNextTx pool !! mkCOutPoint (GetHash tx) (u32 (Z.of_nat i)) = Some t.

Lemma spenders_of_spec pool h outs : wf pool -> forall (i : nat) S0, exists S, spenders_of pool h (Z.of_nat i) outs S0 = Some S /\
  forall t, t ∈ S <-> t ∈ S0 \/ exists j : nat, (i <= j < i + length outs)%nat /\ mapNextTx pool !! mkCOutPoint h (u32 (Z.of_nat j)) = Some t.
Proof.
  intros Hw. induction outs as [|o outs IH]; intros i S0; cbn [spenders_of length].
  - exists S0. split; [done|]. intros t. split; [by left|]. intros [|(j & Hj & _)]; [done|lia].
  - replace (Z.of_nat i + 1) with (Z.of_nat (Datatypes.S i)) by lia. destruct (mapNextTx pool !! _) as [nx|] eqn:En.
    + destruct (proj1 (wf_next _ Hw _ nx) En) as (e & He & _). rewrite He. cbn [mbind option_bind].
      destruct (IH (Datatypes.S i) ({[nx]} ∪ S0)) as (S & -> & HS). exists S. split; [done|]. intros t. rewrite HS, elem_of_union, elem_of_singleton. split.
      * intros [[->|]|(j & Hj & Hn)]; [right; exists i; split; [lia|done]|by left|right; exists j; split; [lia|done]].
      * intros [|(j & Hj & Hn)]; [tauto|]. destruct (decide (j = i)) as [->|Hne]; [left; left; congruence|right; exists j; split; [lia|done]].
    + destruct (IH (Datatypes.S i) S0) as (S & -> & HS). exists S. split; [done|]. intros t. rewrite HS. split.
      * intros [|(j & Hj & Hn)]; [by left|right; exists j; split; [lia|done]].
      * intros [|(j & Hj & Hn)]; [by left|]. destruct (decide (j = i)) as [->|Hne]; [congruence|right; exists j; split; [lia|done]].
Qed.

Lemma next_dom pool o t : wf pool -> mapNextTx pool !! o = Some t -> t ∈ dom (mapTx pool).
Proof. intros Hw Hn. apply (wf_next _ Hw) in Hn as (e & He & _). apply elem_of_dom. eauto. Qed.

Lemma removeRecursive_spec pool tx reason : wf pool -> exists S pool', removeRecursive tx reason pool = Some pool' /\ wf pool' /\ without pool S pool' /\
  forall y, y ∈ S <-> exists x, roots pool tx x /\ rtc (edge (chi pool)) x y.
Proof.
  intros Hw. unfold removeRecursive. assert (HR : exists X, (match mapTx pool !! GetHash tx with Some _ => Some {[GetHash tx]}
    | None => spenders_of pool (GetHash tx) 0 (vout tx) ∅ end) = Some X /\ X ⊆ dom (mapTx pool) /\ forall t, t ∈ X <-> roots pool tx t).
  { unfold roots. destruct (mapTx pool !! GetHash tx) as [e|] eqn:E.
    - assert (Hin : GetHash tx ∈ dom (mapTx pool)) by (apply elem_of_dom; eauto). exists {[GetHash tx]}. split; [done|]. split; [set_solver +Hin|].
      intros t. rewrite decide_True by done. apply elem_of_singleton.
    - destruct (spenders_of_spec pool (GetHash tx) (vout tx) Hw 0 ∅) as (X & EX & HX). exists X. split; [done|]. split.
      + intros t Ht. apply HX in Ht as [Ht|(j & _ & Ht)]; [set_solver +Ht|]. by eapply next_dom.
      + intros t. rewrite decide_False by (by apply not_elem_of_dom). rewrite HX. split.
        * intros [Ht|(j & Hj & Ht)]; [set_solver +Ht|]. exists j. split; [lia|done].
        * intros (j & Hj & Ht). right. exists j. split; [lia|done]. }
  destruct HR as (X & -> & HXd & HX). cbn [mbind option_bind].
  destruct (all_descendants_spec pool X (wf_closed _ Hw) HXd) as (Y & -> & HY & HYd & HYc). cbn [mbind option_bind].
  destruct (remove_closed pool Y reason Hw HYd HYc) as (pool' & -> & Hw' & Hwo). exists Y, pool'. repeat (split; [done|]).
  intros y. rewrite HY. split; intros (x & Hx & Ht); exists x; (split; [by apply HX|done]).
Qed.

Lemma shrunk_next pool G pool' o c : wf pool -> shrunk pool G pool' -> mapNextTx pool' !! o = Some c -> mapNextTx pool !! o = Some c.
Proof.
  intros Hw Hs Hn. apply (wf_next _ (shrunk_wf _ _ _ Hs)) in Hn as (e' & He' & Ho). destruct (shrunk_entry _ _ _ _ _ Hs He') as (e & He & Ec).
  apply (wf_next _ Hw). exists e. split; [done|]. by rewrite <- (core_tx _ _ Ec).
Qed.

Lemma shrunk_dom pool G pool' : shrunk pool G pool' -> dom (mapTx pool') ⊆ dom (mapTx pool).
Proof. intros Hs t [e' He']%elem_of_dom. destruct (shrunk_entry _ _ _ _ _ Hs He') as (e & He & _). apply elem_of_dom. eauto. Qed.

(** ** Conflicts *)

(** What descends from an entry, not the transaction itself, that spends [o]. *)
Definition conflict_at pool tx (o : COutPoint) t : Prop :=
  exists c, mapNextTx pool !! o = Some c /\ c <> GetHash tx /\ rtc (edge (chi pool)) c t.
Definition conflicting pool tx t : Prop := exists o, o ∈ prevouts tx /\ conflict_at pool tx o t.

Lemma conflicting_mono pool G pool' tx t : wf pool -> shrunk pool G pool' -> conflicting pool' tx t -> conflicting pool tx t.
Proof.
  intros Hw Hs (o & Ho & c & Hc & Hne & Ht). exists o. split; [done|]. exists c. split; [by apply (shrunk_next _ _ _ _ _ Hw Hs)|].
  split; [done|]. by apply (rtc_mono _ _ _ _ (shrunk_chi _ _ _ Hs)).
Qed.

Lemma remove_conflict_spec tx txin pool : wf pool -> exists pool', remove_conflict tx txin pool = Some pool' /\
  shrunk pool (conflict_at pool tx (prevout txin)) pool' /\ (forall c, mapNextTx pool' !! prevout txin = Some c -> c = GetHash tx).
Proof.
  intros Hw. unfold remove_conflict. destruct (mapNextTx pool !! prevout txin) as [c|] eqn:Ec.
  2: { exists pool. split; [done|]. split; [by apply shrunk_refl|]. intros c. by rewrite Ec. }
  destruct (proj1 (wf_next _ Hw _ c) Ec) as (e & He & Ho). rewrite He. cbn [fmap option_fmap option_map mbind option_bind].
  rewrite (wf_hash _ Hw c e He). case_bool_decide as Eh.
  { exists pool. split; [done|]. split; [by apply shrunk_refl|]. intros c'. rewrite Ec. congruence. }
  unfold ClearPrioritisation. set (pool1 := set_deltas pool _).
  assert (Hw1 : wf pool1) by (by apply (wf_ext pool)).
  destruct (removeRecursive_spec pool1 (entry_tx e) CONFLICT Hw1) as (S & pool' & -> & Hw' & Hwo & HS). exists pool'. split; [done|].
  assert (Hcd : c ∈ dom (mapTx pool1)) by (apply elem_of_dom; eauto).
  assert (Hroot : forall x, roots pool1 (entry_tx e) x <-> x = c) by (intros x; unfold roots; by rewrite (wf_hash _ Hw c e He), decide_True).
  assert (HcS : c ∈ S) by (apply HS; exists c; split; [by apply Hroot|apply rtc_refl]).
  destruct (without_shrunk _ _ _ Hw1 Hw' Hwo) as [G1 G2 G3 G4 G5 G6]. split.
  - split; try done.
    + intros t. destruct (G2 t) as [|[Hn Ht]]; [by left|right]. split; [done|]. exists c. split; [done|]. split; [done|].
      apply HS in Ht as (x & ->%Hroot & Ht). exact Ht.
    + intros Hp t e' He'. destruct (without_entry _ _ _ _ _ Hwo He') as (Ht & e0 & He0 & Ecore). rewrite (without_deltas _ _ _ Hwo).
      change (mapDeltas pool1) with (delete c (mapDeltas pool)). rewrite lookup_delete_ne by (intros <-; done). rewrite <- (Hp t e0 He0). exact (f_equal feeDelta Ecore).
  - intros c' Hc'. apply (wf_next _ Hw') in Hc' as (e' & He' & Ho'). destruct (without_entry _ _ _ _ _ Hwo He') as (Ht & e0 & He0 & Ecore).
    assert (Hn : mapNextTx pool !! prevout txin = Some c') by (apply (wf_next _ Hw); exists e0; split; [done|]; by rewrite <- (core_tx _ _ Ecore)).
    assert (c' = c) as -> by congruence. done.
Qed.

Lemma removeConflicts_spec tx pool : wf pool -> exists pool', removeConflicts tx pool = Some pool' /\ shrunk pool (conflicting pool tx) pool' /\
  (forall o c, o ∈ prevouts tx -> mapNextTx pool' !! o = Some c -> c = GetHash tx).
Proof.
  intros Hw. unfold removeConflicts.
  enough (HL : forall l, (forall i, i ∈ l -> prevout i ∈ prevouts tx) -> forall p, shrunk pool (conflicting pool tx) p ->
    exists p', each (remove_conflict tx) l p = Some p' /\ shrunk pool (conflicting pool tx) p' /\ shrunk p (conflicting pool tx) p' /\
      (forall i c, i ∈ l -> mapNextTx p' !! prevout i = Some c -> c = GetHash tx)).
  { destruct (HL (vin tx)) with (p := pool) as (p' & E & Hs & _ & Hc); [|by apply shrunk_refl|].
    - intros i Hi. apply list_elem_of_fmap. eauto.
    - exists p'. split; [done|]. split; [done|]. intros o c Ho. apply list_elem_of_fmap in Ho as (i & -> & Hi). by apply Hc. }
  induction l as [|i l IH]; intros Hl p Hs; cbn [each].
  - exists p. split; [done|]. split; [done|]. split; [apply shrunk_refl, (shrunk_wf _ _ _ Hs)|]. intros i c Hi. by apply elem_of_nil in Hi.
  - destruct (remove_conflict_spec tx i p (shrunk_wf _ _ _ Hs)) as (p1 & -> & Hs1 & Hc1). cbn [mbind option_bind].
    assert (Hs1' : shrunk p (conflicting pool tx) p1).
    { eapply shrunk_weaken; [|exact Hs1]. intros t Ht. apply (conflicting_mono pool _ p tx t Hw Hs). exists (prevout i). split; [apply Hl; left|done]. }
    destruct (IH (fun j Hj => Hl j (list_elem_of_further _ _ _ Hj)) p1 (shrunk_trans _ _ _ _ Hs Hs1')) as (p' & -> & Hs2 & Hs3 & Hc2).
    exists p'. split; [done|]. split; [done|]. split; [by eapply shrunk_trans|]. intros j c Hj Hn. apply elem_of_cons in Hj as [->|Hj]; [|by apply (Hc2 j)].
    apply Hc1. by apply (shrunk_next _ _ _ _ _ (shrunk_wf _ _ _ Hs1) Hs3).
Qed.

(** ** Blocks *)

Definition mined_or_conflicting pool tx t : Prop := t = GetHash tx \/ conflicting pool tx t.

Lemma remove_mined_spec tx pool : wf pool -> par pool (GetHash tx) = ∅ ->
  exists pool', remove_mined tx pool = Some pool' /\ shrunk pool (mined_or_conflicting pool tx) pool' /\ GetHash tx ∉ dom (mapTx pool') /\
    (forall o, o ∈ prevouts tx -> mapNextTx pool' !! o = None).
Proof.
  intros Hw Hp. unfold remove_mined. set (h := GetHash tx) in *.
  assert (H1 : exists pool1, (match mapTx pool !! h with Some _ => RemoveStaged {[h]} true BLOCK pool | None => Some pool end) = Some pool1 /\
    shrunk pool (fun t => t = h) pool1 /\ h ∉ dom (mapTx pool1)).
  { destruct (mapTx pool !! h) as [e|] eqn:E.
    - destruct (RemoveStaged_spec pool {[h]} true BLOCK Hw) as (pool1 & -> & Hw1 & Hwo).
      { split; [apply singleton_subseteq_l, elem_of_dom; eauto|]. intros x ->%elem_of_singleton. rewrite Hp. set_solver +. }
      exists pool1. split; [done|]. split; [|rewrite (without_dom _ _ _ Hwo); set_solver +].
      eapply shrunk_weaken; [|by apply without_shrunk]. intros t. apply elem_of_singleton.
    - exists pool. split; [done|]. split; [by apply shrunk_refl|]. by apply not_elem_of_dom. }
  destruct H1 as (pool1 & -> & Hs1 & Hh1). cbn [mbind option_bind].
  destruct (removeConflicts_spec tx pool1 (shrunk_wf _ _ _ Hs1)) as (pool2 & -> & Hs2 & Hc2). cbn [mbind option_bind].
  assert (Hs : shrunk pool (mined_or_conflicting pool tx) pool2).
  { eapply shrunk_trans; [eapply shrunk_weaken; [|exact Hs1]; by left|]. eapply shrunk_weaken; [|exact Hs2].
    intros t Ht. right. by apply (conflicting_mono pool _ pool1 tx t Hw Hs1). }
  assert (Hh2 : h ∉ dom (mapTx pool2)) by (intros Hin; by apply Hh1, (shrunk_dom _ _ _ Hs2)).
  eexists. split; [reflexivity|]. unfold ClearPrioritisation. split; [|split; [done|]].
  - destruct Hs as [G1 G2 G3 G4 G5 G6]. split; try done; [by apply (wf_ext pool2)|].
    intros Hpr t e' He'. change (mapDeltas (set_deltas pool2 _)) with (delete h (mapDeltas pool2)). rewrite lookup_delete_ne; [by apply (G6 Hpr)|].
    intros <-. apply Hh2, elem_of_dom. eauto.
  - intros o Ho. change (mapNextTx (set_deltas pool2 _)) with (mapNextTx pool2). destruct (mapNextTx pool2 !! o) as [c|] eqn:Ec; [|done].
    exfalso. apply Hh2. assert (c = h) as <- by by apply (Hc2 o). apply (next_dom pool2 o); [apply (shrunk_wf _ _ _ Hs2)|done].
Qed.

(** The parents in the pool of a transaction of the block come before it in the block. *)
Definition block_order (vtx : list CTransaction) pool : Prop :=
  forall l1 tx l2, vtx = l1 ++ tx :: l2 -> par pool (GetHash tx) ⊆ list_to_set (GetHash <$> l1).

Definition lost_to_block (vtx : list CTransaction) pool t : Prop := exists tx, tx ∈ vtx /\ mined_or_conflicting pool tx t.

Lemma removeForBlock_spec vtx height now pool : wf pool -> block_order vtx pool ->
  exists pool', removeForBlock vtx height now pool = Some pool' /\ shrunk pool (lost_to_block vtx pool) pool' /\
    forall tx, tx ∈ vtx -> GetHash tx ∉ dom (mapTx pool') /\ forall o, o ∈ prevouts tx -> mapNextTx pool' !! o = None.
Proof.
  intros Hw Hord. unfold removeForBlock. set (pool0 := set_estimator pool _). assert (Hs0 : shrunk pool (lost_to_block vtx pool) pool0).
  { split; try done; [by apply (wf_ext pool)|]. intros t. by left. }
  enough (HL : forall l2 l1, vtx = l1 ++ l2 -> forall p, shrunk pool (lost_to_block vtx pool) p ->
    (forall tx, tx ∈ l1 -> GetHash tx ∉ dom (mapTx p) /\ forall o, o ∈ prevouts tx -> mapNextTx p !! o = None) ->
    exists p', each remove_mined l2 p = Some p' /\ shrunk pool (lost_to_block vtx pool) p' /\
      forall tx, tx ∈ vtx -> GetHash tx ∉ dom (mapTx p') /\ forall o, o ∈ prevouts tx -> mapNextTx p' !! o = None).
  { destruct (HL vtx [] eq_refl pool0 Hs0) as (p' & -> & Hs & Hg); [intros tx Htx; by apply elem_of_nil in Htx|]. cbn [mbind option_bind].
    eexists. split; [reflexivity|]. destruct Hs as [G1 G2 G3 G4 G5 G6]. split; [|done]. split; try done. by apply (wf_ext p'). }
  induction l2 as [|tx l2 IH]; intros l1 El p Hs Hgone; cbn [each].
  - exists p. split; [done|]. split; [done|]. intros tx Htx. apply Hgone. by rewrite El, app_nil_r in Htx.
  - assert (Hp : par p (GetHash tx) = ∅).
    { apply set_eq. intros q. split; [|set_solver +]. intros Hq. exfalso. assert (Hq0 : q ∈ par pool (GetHash tx)) by by apply (shrunk_par _ _ _ Hs).
      apply (Hord _ _ _ El), elem_of_list_to_set, list_elem_of_fmap in Hq0 as (tx' & -> & Htx').
      apply (proj1 (Hgone tx' Htx')). by apply (par_dom _ (wf_closed _ (shrunk_wf _ _ _ Hs)) (GetHash tx)). }
    destruct (remove_mined_spec tx p (shrunk_wf _ _ _ Hs) Hp) as (p1 & -> & Hs1 & Hh1 & Hn1). cbn [mbind option_bind].
    assert (Hin : tx ∈ vtx) by (rewrite El; set_solver +).
    apply (IH (l1 ++ [tx])); [by rewrite <- app_assoc| |].
    + eapply shrunk_trans; [done|]. eapply shrunk_weaken; [|exact Hs1]. intros t [->|Ht]; exists tx; (split; [done|]); [by left|right].
      by apply (conflicting_mono pool _ p tx t Hw Hs).
    + intros tx' [Htx'|Htx']%elem_of_app.
      * destruct (Hgone tx' Htx') as [Hd Hn]. split; [intros Hd'; by apply Hd, (shrunk_dom _ _ _ Hs1)|].
        intros o Ho. destruct (mapNextTx p1 !! o) as [c|] eqn:Ec; [|done]. apply (shrunk_next _ _ _ _ _ (shrunk_wf _ _ _ Hs) Hs1) in Ec. rewrite Hn in Ec by done. done.
      * apply list_elem_of_singleton in Htx' as ->. done.
Qed.

(** ** Old transactions *)

Definition expired (locked : uint256 -> bool) (time : Z) pool t : Prop :=
  exists e, mapTx pool !! t = Some e /\ entry_nTime e < time /\ locked t = false.

Lemma Expire_spec locked time pool : wf pool -> exists S pool', Expire locked time pool = Some (pool', Z.of_nat (size S)) /\
  wf pool' /\ without pool S pool' /\ forall y, y ∈ S <-> exists x, expired locked time pool x /\ rtc (edge (chi pool)) x y.
Proof.
  intros Hw. unfold Expire. set (X := list_to_set _ : setEntries).
  assert (HX : forall t, t ∈ X <-> expired locked time pool t).
  { intros t. unfold X, expired. rewrite elem_of_list_to_set, list_elem_of_fmap. split.
    - intros ([t' e] & -> & [Hb He]%list_elem_of_filter). apply elem_of_map_to_list in He. cbn [fst snd] in *. exists e. split; [done|].
      apply Is_true_true, andb_true_iff in Hb as [Hb1 Hb2]. rewrite (wf_hash _ Hw t' e He) in Hb2. split; [by apply Z.ltb_lt|by apply negb_true_iff].
    - intros (e & He & Ht & Hl). exists (t, e). split; [done|]. apply list_elem_of_filter. split; [|by apply elem_of_map_to_list].
      cbn [fst snd]. apply Is_true_true, andb_true_iff. split; [by apply Z.ltb_lt|]. by rewrite (wf_hash _ Hw t e He), Hl. }
  destruct (all_descendants_spec pool X (wf_closed _ Hw)) as (Y & -> & HY & HYd & HYc).
  { intros t (e & He & _)%HX. apply elem_of_dom. eauto. }
  cbn [mbind option_bind]. destruct (remove_closed pool Y EXPIRY Hw HYd HYc) as (pool' & -> & Hw' & Hwo). cbn [mbind option_bind].
  exists Y, pool'. repeat (split; [done|]). intros y. rewrite HY. split; intros (x & Hx & Ht); exists x; (split; [by apply HX|done]).
Qed.

(** ** Limiting the memory *)

Lemma descendant_size pool t e : wf pool -> mapTx pool !! t = Some e -> 0 <= nSizeWithDescendants e < 2 ^ 63.
Proof.
  intros Hw He. pose proof (entry_size pool t e (wf_sizes _ Hw) (wf_bounded _ Hw) He) as Hsz.
  pose proof (totals_readable pool _ (nTxSize e) (wf_totals _ Hw) (wf_sizes _ Hw) (wf_bounded _ Hw) Hsz) as Hr. apply (readable_desc _ _ Hr t e He).
Qed.

(** The loop ends: each round removes an entry with its descendants. *)
Lemma trim_loop_spec worst incremental limit fuel : (forall pool, mapTx pool <> ∅ -> worst pool ∈ dom (mapTx pool)) ->
  forall pool n rate outs, wf pool -> (size (mapTx pool) <= fuel)%nat ->
  exists pool' n' rate' outs', trim_loop fuel worst incremental limit pool n rate outs = Some (pool', n', rate', outs') /\
    shrunk pool (fun _ => True) pool' /\ (mapTx pool' = ∅ \/ DynamicMemoryUsage pool' <= limit).
Proof.
  intros Hworst. induction fuel as [|fuel IH]; intros pool n rate outs Hw Hf; cbn [trim_loop].
  - assert (E : mapTx pool = ∅) by (apply map_size_empty_iff; lia). rewrite bool_decide_true by done. cbn [negb andb].
    eexists _, _, _, _. split; [reflexivity|]. split; [by apply shrunk_refl|by left].
  - case_bool_decide as E; cbn [negb andb]; [eexists _, _, _, _; split; [reflexivity|]; split; [by apply shrunk_refl|by left]|].
    destruct (Z.ltb_spec limit (DynamicMemoryUsage pool)) as [Hlt|Hge]; [|eexists _, _, _, _; split; [reflexivity|]; split; [by apply shrunk_refl|by right]].
    pose proof (Hworst pool E) as Hin. pose proof Hin as [e He]%elem_of_dom. rewrite He. cbn [mbind option_bind].
    pose proof (descendant_size _ _ _ Hw He) as Hds. unfold CFeeRate_of, INT64_MAX. rewrite (proj2 (Z.leb_le _ _)) by lia. cbn [mbind option_bind].
    set (removed := i64 (_ + incremental)). unfold trackPackageRemoved.
    assert (Hfee : exists perK, GetFee removed 1000 = Some perK) by (unfold GetFee; eexists; reflexivity). destruct Hfee as [perK ->]. cbn [mbind option_bind].
    set (pool1 := if d_ltb _ _ then _ else pool). assert (Hs1 : shrunk pool (fun _ => True) pool1 /\ mapTx pool1 = mapTx pool).
    { unfold pool1. destruct (d_ltb _ _); [|split; [by apply shrunk_refl|done]]. split; [|done]. split; try done; [by apply (wf_ext pool)|]. intros t. by left. }
    destruct Hs1 as [Hs1 Em1]. pose proof (shrunk_wf _ _ _ Hs1) as Hw1. rewrite descendants_of_entry by (apply (wf_closed _ Hw1) || (by rewrite Em1)). cbn [mbind option_bind].
    destruct (remove_closed pool1 (package pool1 (worst pool)) SIZELIMIT Hw1) as (pool2 & -> & Hw2 & Hwo).
    + intros y Hy. unfold package in Hy. apply elem_of_union in Hy as [->%elem_of_singleton|Hy]; [by rewrite Em1|]. by apply (descendants_dom pool1 (worst pool) (wf_closed _ Hw1)).
    + intros y Hy z Hz. rewrite elem_of_package in * by apply (wf_closed _ Hw1). by eapply rtc_r.
    + cbn [mbind option_bind]. assert (Hlt2 : (size (mapTx pool2) < size (mapTx pool))%nat).
      { rewrite <- !size_dom, (without_dom _ _ _ Hwo), Em1. apply subset_size. split; [set_solver +|]. intros Hsub. specialize (Hsub _ Hin).
        unfold package in Hsub. set_solver +Hsub. }
      destruct (IH pool2 (u32 (n + Z.of_nat (size (package pool1 (worst pool))))) (Z.max rate removed)
        (outs ++ outside_inputs pool2 (omap (fun h => entry_tx <$> mapTx pool1 !! h) (in_hash_order (package pool1 (worst pool)))) ) Hw2 ltac:(lia))
        as (pool' & n' & rate' & outs' & -> & Hs & Hend).
      eexists _, _, _, _. split; [reflexivity|]. split; [|done]. eapply shrunk_trans; [exact Hs1|]. eapply shrunk_trans; [|exact Hs].
      eapply shrunk_weaken; [|by apply without_shrunk]. done.
Qed.

(** ** Priorities *)

Lemma fee_update s e d : 0 < total s Size e < 2 ^ 63 -> 0 < total s Count e < 2 ^ 63 -> (s = Anc -> 0 <= total s SigOps e < 2 ^ 31) ->
  exists e', UpdateState s (fun k => if decide (k = Fees) then d else 0) e = Some e' /\ core e' = core e /\ vTxHashesIdx e' = vTxHashesIdx e /\
    (forall s' k, s' <> s \/ k <> Fees -> total s' k e' = total s' k e) /\ total s Fees e' = i64 (total s Fees e + d).
Proof.
  intros H1 H2 H3. destruct s; cbn [UpdateState total] in *; unfold UpdateAncestorState, UpdateDescendantState;
    rewrite !(decide_False (P := (_ = Fees))), decide_True, !Z.add_0_r by done.
  - specialize (H3 eq_refl). rewrite !u64_small, u32_small, !i64_small, i32_small by lia.
    rewrite !(proj2 (Z.ltb_lt _ _)), (proj2 (Z.leb_le _ _)) by lia. cbn [andb]. eexists. do 3 (split; [done|]). split; [|done].
    intros [] [] [Hs|Hk]; done.
  - rewrite !u64_small, !i64_small by lia. rewrite !(proj2 (Z.ltb_lt _ _)) by lia. cbn [andb]. eexists. do 3 (split; [done|]). split; [|done].
    intros [] [] [Hs|Hk]; done.
Qed.


(** What the invariant reads of an entry, but for the fees and the totals. *)
Definition label e : CTransaction * Z * Z * Z * Z := (entry_tx e, nTxSize e, sigOpCount e, nUsageSize e, vTxHashesIdx e).
Definition same_labels (M M' : entries) : Prop := forall t, label <$> M' !! t = label <$> M !! t.

Lemma same_labels_lookup M M' t e' : same_labels M M' -> M' !! t = Some e' -> exists e, M !! t = Some e /\ label e' = label e.
Proof.
  intros Hl He. specialize (Hl t). rewrite He in Hl. destruct (M !! t) as [e|]; [|done]. exists e. split; [done|].
  change (Some (label e') = Some (label e)) in Hl. congruence.
Qed.

Lemma same_labels_sym M M' : same_labels M M' -> same_labels M' M.
Proof. intros Hl t. by rewrite Hl. Qed.

Lemma same_labels_dom M M' : same_labels M M' -> dom M' = dom M.
Proof.
  intros Hl. apply set_eq. intros t. rewrite !elem_of_dom. specialize (Hl t). destruct (M !! t), (M' !! t); try done; split; intros [? ?]; try done; by eexists.
Qed.

Lemma label_weight e e' k : k <> Fees -> label e = label e' -> weight k e = weight k e'.
Proof. intros Hk E. injection E as E1 E2 E3 E4 E5. by destruct k. Qed.

Lemma same_labels_weight M M' k t : k <> Fees -> same_labels M M' -> weight_at M' k t = weight_at M k t.
Proof.
  intros Hk Hl. specialize (Hl t). unfold weight_at. destruct (M !! t) as [e|], (M' !! t) as [e'|]; try done.
  change (Some (label e') = Some (label e)) in Hl. apply (label_weight e' e k Hk). congruence.
Qed.

Lemma wf_relabel pool pool' : wf pool -> mapLinks pool' = mapLinks pool -> mapNextTx pool' = mapNextTx pool -> vTxHashes pool' = vTxHashes pool ->
  totalTxSize pool' = totalTxSize pool -> cachedInnerUsage pool' = cachedInnerUsage pool -> same_labels (mapTx pool) (mapTx pool') ->
  totals (mapTx pool') (sets pool) -> wf pool'.
Proof.
  intros Hw E2 E3 E4 E5 E6 Hl Ht. pose proof (same_labels_dom _ _ Hl) as Ed.
  assert (Ep : par pool' = par pool) by (unfold par, links_at; by rewrite E2). assert (Ec : chi pool' = chi pool) by (unfold chi, links_at; by rewrite E2).
  assert (Es : sets pool' = sets pool) by (unfold sets, ancestors, descendants; by rewrite Ep, Ec, <- !size_dom, Ed).
  assert (Hlook : forall t e', mapTx pool' !! t = Some e' -> exists e, mapTx pool !! t = Some e /\ entry_tx e' = entry_tx e /\ nTxSize e' = nTxSize e /\
    sigOpCount e' = sigOpCount e /\ vTxHashesIdx e' = vTxHashesIdx e).
  { intros t e' He'. destruct (same_labels_lookup _ _ _ _ Hl He') as (e & He & E). exists e. injection E as X1 X2 X3 X4 X5. done. }
  assert (Hlook' : forall t e, mapTx pool !! t = Some e -> exists e', mapTx pool' !! t = Some e' /\ entry_tx e' = entry_tx e /\ vTxHashesIdx e' = vTxHashesIdx e).
  { intros t e He. destruct (same_labels_lookup _ _ _ _ (same_labels_sym _ _ Hl) He) as (e' & He' & E). exists e'. injection E as X1 X2 X3 X4 X5. done. }
  assert (Hsum : forall k, k <> Fees -> sum_over (weight_at (mapTx pool') k) (dom (mapTx pool')) = sum_over (weight_at (mapTx pool) k) (dom (mapTx pool))).
  { intros k Hk. rewrite Ed. apply sum_over_ext. intros y _. by apply same_labels_weight. }
  split.
  - intros t e' He'. destruct (Hlook t e' He') as (e & He & -> & _). by apply (wf_hash _ Hw).
  - intros t e' He'. destruct (Hlook t e' He') as (e & He & _ & -> & -> & _). by apply (wf_sizes _ Hw t).
  - unfold bounded. rewrite !Hsum by done. apply (wf_bounded _ Hw).
  - destruct (wf_links _ Hw) as [L1 L2]. split; [by rewrite E2, Ed|by rewrite Ep, Ec].
  - rewrite Ep. apply (wf_acyclic _ Hw).
  - intros t e' He'. destruct (Hlook t e' He') as (e & He & -> & _). rewrite Ep. by apply (wf_inputs _ Hw).
  - by rewrite Es.
  - intros o t. rewrite E3, (wf_next _ Hw o t). split; intros (e & He & Ho).
    + destruct (Hlook' t e He) as (e' & He' & Et & _). exists e'. by rewrite Et.
    + destruct (Hlook t e He) as (e' & He' & Et & _). exists e'. by rewrite <- Et.
  - intros t e' He'. destruct (Hlook t e' He') as (e & He & _ & _ & _ & ->). rewrite E4. by apply (wf_index _ Hw).
  - intros i p Hp. rewrite E4 in Hp. destruct (wf_hashes _ Hw i p Hp) as (t & e & -> & He & Ei). destruct (Hlook' t e He) as (e' & He' & _ & Ei').
    exists t, e'. split; [done|]. split; [done|congruence].
  - rewrite E5, Hsum by done. apply (wf_size _ Hw).
  - unfold usage_ok, inner_usage, link_usage. rewrite Ep, Ec, Ed, E2, E6, (wf_usage _ Hw). unfold inner_usage. f_equal. f_equal.
    apply sum_over_ext. intros t _. specialize (Hl t). unfold usage_at. destruct (mapTx pool !! t) as [e|], (mapTx pool' !! t) as [e'|]; try done.
    change (Some (label e') = Some (label e)) in Hl. injection Hl as X1 X2 X3 X4 X5. cbn. congruence.
Qed.


End WithEnv.
End MemPoolSteps.
