(* ===== verification/MemPoolFees.v ===== *)
(** * Priorities in the memory pool

    [PrioritiseTransaction] adds a delta to the fee of a transaction.  The file
    shows that the totals of the entry, of its ancestors and of its descendants
    follow, also where the sums wrap around, and that the invariant stays. *)

From stdpp Require Import base relations list list_numbers gmap fin_sets sorting numbers option.
From Stdlib Require Import ZArith Lia.
From S2P Require Import Prelude Serialize Script Transaction Interpreter InterpreterSafety Coins Ledger TxGraph MemPool MemPoolInv MemPoolOps MemPoolAdd MemPoolSteps.

Local Open Scope Z_scope.

Module MemPoolFees.
Import Serialize Script Transaction Interpreter Ledger TxGraph MemPool MemPoolInv MemPoolOps MemPoolAdd MemPoolSteps.

Section WithEnv.
Context `{!Crypto} `{!PoolEnv}.
Implicit Types (pool : CTxMemPool) (e : CTxMemPoolEntry) (it t x h : uint256) (X : setEntries) (s : side) (M : entries).

(** An entry whose fees changed: its modified fee by [df], and the fees of its
    totals by [ds]. *)
Record repriced (df : Z) (ds : side -> Z) e e' : Prop := mkRepriced {
  repriced_label : label e' = label e;
  repriced_fee : GetModifiedFee e' = i64 (GetModifiedFee e + df);
  repriced_totals s k : k <> Fees -> total s k e' = total s k e;
  repriced_fees s : total s Fees e' = i64 (total s Fees e + ds s)
}.

Lemma i64_i64_add a b : i64 (i64 a + b) = i64 (a + b).
Proof. exact (wrap_add_l Fees a b). Qed.

Lemma i64_idem a : i64 (i64 a) = i64 a.
Proof. pose proof (i64_i64_add a 0) as E. by rewrite !Z.add_0_r in E. Qed.

Lemma i64_same a : i64 (i64 a + 0) = i64 a.
Proof. by rewrite i64_i64_add, Z.add_0_r. Qed.

(** Entries that are read with totals that fit. *)
Definition fits e : Prop := forall s, 0 < total s Size e < 2 ^ 63 /\ 0 < total s Count e < 2 ^ 63 /\ (s = Anc -> 0 <= total s SigOps e < 2 ^ 31) /\
  i64 (total s Fees e) = total s Fees e.

Lemma repriced_refl e : fits e -> repriced 0 (fun _ => 0) e e.
Proof.
  intros Hf. split; try done; [unfold GetModifiedFee; by rewrite i64_same|]. intros s. rewrite Z.add_0_r. symmetry. apply Hf.
Qed.

Lemma repriced_trans df df' ds ds' e1 e2 e3 : repriced df ds e1 e2 -> repriced df' ds' e2 e3 ->
  repriced (df + df') (fun s => ds s + ds' s) e1 e3.
Proof.
  intros H1 H2. split.
  - by rewrite (repriced_label _ _ _ _ H2), (repriced_label _ _ _ _ H1).
  - by rewrite (repriced_fee _ _ _ _ H2), (repriced_fee _ _ _ _ H1), i64_i64_add, Z.add_assoc.
  - intros s k Hk. by rewrite (repriced_totals _ _ _ _ H2), (repriced_totals _ _ _ _ H1).
  - intros s. by rewrite (repriced_fees _ _ _ _ H2), (repriced_fees _ _ _ _ H1), i64_i64_add, Z.add_assoc.
Qed.

(** The same of every entry. *)
Definition all_repriced (df : uint256 -> Z) (ds : side -> uint256 -> Z) M M' : Prop :=
  forall t, option_Forall2 (repriced (df t) (fun s => ds s t)) (M !! t) (M' !! t).

Lemma wf_fits pool t e : wf pool -> mapTx pool !! t = Some e -> fits e.
Proof.
  intros Hw He s. assert (Hin : t ∈ dom (mapTx pool)) by (apply elem_of_dom; eauto).
  destruct (totals_sets _ _ (wf_totals _ Hw) s t Hin) as [Hn Hsub]. pose proof (wf_sizes _ Hw) as Hs. destruct (Hs t e He) as [Hpos Hso].
  destruct (wf_bounded _ Hw) as (Hbc & Hbs & Hbo).
  pose proof (node_bound _ Size t e _ Hs ltac:(done) He Hn Hsub). pose proof (node_bound _ Count t e _ Hs ltac:(done) He Hn Hsub).
  pose proof (node_bound _ SigOps t e _ Hs ltac:(done) He Hn Hsub). cbn [weight] in *.
  rewrite (totals_sum _ _ (wf_totals _ Hw) s t e Size ltac:(by right) He), (totals_sum _ _ (wf_totals _ Hw) s t e Count ltac:(by right) He).
  cbn [wrap weight]. rewrite !u64_small by lia. split; [lia|]. split; [lia|]. split.
  - intros ->. rewrite (totals_sum _ _ (wf_totals _ Hw) Anc t e SigOps ltac:(by left) He). cbn [wrap weight]. rewrite u32_small by lia. lia.
  - rewrite (totals_sum _ _ (wf_totals _ Hw) s t e Fees ltac:(by right) He). apply i64_idem.
Qed.

Lemma fits_repriced df ds e e' : repriced df ds e e' -> fits e -> fits e'.
Proof.
  intros Hr Hf s. rewrite !(repriced_totals _ _ _ _ Hr) by done. destruct (Hf s) as (H1 & H2 & H3 & _). repeat (split; [done|]).
  rewrite (repriced_fees _ _ _ _ Hr). apply i64_idem.
Qed.

Definition fee_only (d : Z) (k : stat) : Z := if decide (k = Fees) then d else 0.

Lemma fee_update_repriced s e d : fits e -> exists e', UpdateState s (fee_only d) e = Some e' /\ feeDelta e' = feeDelta e /\
  repriced 0 (fun s' => if decide (s' = s) then d else 0) e e'.
Proof.
  intros Hf. destruct (Hf s) as (H1 & H2 & H3 & _). destruct (fee_update s e d H1 H2 H3) as (e' & E & Ec & Ei & Eo & Es). exists e'. split; [exact E|]. split; [exact (f_equal feeDelta Ec)|].
  pose proof (core_weight _ _ Fees Ec) as Ef. cbn [weight] in Ef. split.
  - unfold label. rewrite (f_equal entry_tx Ec : entry_tx e' = entry_tx e), (f_equal nTxSize Ec : nTxSize e' = nTxSize e),
      (f_equal sigOpCount Ec : sigOpCount e' = sigOpCount e), (f_equal nUsageSize Ec : nUsageSize e' = nUsageSize e), Ei. done.
  - rewrite Ef. unfold GetModifiedFee. by rewrite i64_same.
  - intros s' k Hk. apply Eo. by right.
  - intros s'. case_decide as Hs; [by subst|]. rewrite Eo, Z.add_0_r by by left. symmetry. apply Hf.
Qed.

(** Telling a set of entries about a fee. *)
Lemma fee_pass s X d pool : (forall t e, mapTx pool !! t = Some e -> fits e) -> X ⊆ dom (mapTx pool) ->
  exists M', each (fun it => modify it (UpdateState s (fee_only d))) (in_hash_order X) pool = Some (set_entries pool M') /\
    all_repriced (fun _ => 0) (fun s' t => if decide (s' = s /\ t ∈ X) then d else 0) (mapTx pool) M' /\
    forall t, feeDelta <$> M' !! t = feeDelta <$> mapTx pool !! t.
Proof.
  intros Hf HX. destruct (modify_set X (UpdateState s (fee_only d)) pool) as (M' & E & HM).
  { intros x Hx. pose proof (HX x Hx) as [e He]%elem_of_dom. rewrite He. cbn [mbind option_bind].
    destruct (fee_update_repriced s e d (Hf x e He)) as (e' & -> & _). by eexists. }
  exists M'. split; [done|]. split; intros t; rewrite HM; destruct (decide (t ∈ X)) as [Hin|Hout].
  - pose proof (HX t Hin) as [e He]%elem_of_dom. rewrite He. cbn [mbind option_bind].
    destruct (fee_update_repriced s e d (Hf t e He)) as (e' & -> & _ & [R1 R2 R4 R5]). constructor. split; try done.
    intros s'. rewrite R5. destruct (decide (s' = s)), (decide (s' = s /\ t ∈ X)); try done; naive_solver.
  - destruct (mapTx pool !! t) as [e|] eqn:He; constructor. destruct (repriced_refl e (Hf t e He)) as [R1 R2 R4 R5]. split; try done.
    intros s'. rewrite decide_False by naive_solver. apply R5.
  - pose proof (HX t Hin) as [e He]%elem_of_dom. rewrite He. cbn [mbind option_bind].
    destruct (fee_update_repriced s e d (Hf t e He)) as (e' & -> & Ed & _). cbn. by rewrite Ed.
  - done.
Qed.

Lemma all_repriced_trans df df' ds ds' M1 M2 M3 : all_repriced df ds M1 M2 -> all_repriced df' ds' M2 M3 ->
  all_repriced (fun t => df t + df' t) (fun s t => ds s t + ds' s t) M1 M3.
Proof.
  intros H1 H2 t. specialize (H1 t). specialize (H2 t). destruct H1 as [e1 e2 H1|]; inversion H2; subst; constructor.
  by eapply (repriced_trans (df t) (df' t) (fun s => ds s t) (fun s => ds' s t)).
Qed.

Lemma all_repriced_ext df df' ds ds' M M' : (forall t, df t = df' t) -> (forall s t, ds s t = ds' s t) -> all_repriced df ds M M' -> all_repriced df' ds' M M'.
Proof.
  intros Ef Es Ha t. destruct (Ha t) as [e e' [R1 R2 R4 R5]|]; constructor. split; try done; [by rewrite <- Ef|]. intros s. by rewrite <- Es.
Qed.

Lemma all_repriced_lookup df ds M M' t e' : all_repriced df ds M M' -> M' !! t = Some e' -> exists e, M !! t = Some e /\ repriced (df t) (fun s => ds s t) e e'.
Proof. intros Ha He. specialize (Ha t). rewrite He in Ha. inversion Ha; subst. eauto. Qed.

Lemma all_repriced_labels df ds M M' : all_repriced df ds M M' -> same_labels M M'.
Proof. intros Ha t. destruct (Ha t) as [e e' R|]; [|done]. cbn. f_equal. apply (repriced_label _ _ _ _ R). Qed.

(** The fee of [h] and every total that counts it change by [d]. *)
Definition own_fee h (d : Z) t : Z := if decide (t = h) then d else 0.
Definition counted_fee pool h (d : Z) s t : Z := if decide (t = h \/ h ∈ sets pool s t) then d else 0.

Lemma weight_repriced h d ds M M' t : all_repriced (own_fee h d) ds M M' -> t <> h -> weight_at M' Fees t = weight_at M Fees t.
Proof.
  intros Ha Hne. unfold weight_at. destruct (Ha t) as [e e' R|]; [|done]. cbn. rewrite (repriced_fee _ _ _ _ R).
  unfold own_fee. rewrite decide_False by done. apply i64_same.
Qed.

Lemma weight_repriced_own h d ds M M' : all_repriced (own_fee h d) ds M M' -> h ∈ dom M -> weight_at M' Fees h = i64 (weight_at M Fees h + d).
Proof.
  intros Ha [e He]%elem_of_dom. unfold weight_at. specialize (Ha h). rewrite He in *. inversion Ha as [? e' R|]; subst. cbn. rewrite (repriced_fee _ _ _ _ R).
  unfold own_fee. by rewrite decide_True.
Qed.

(** What a sum over a set with or without [h] becomes. *)
Lemma sum_repriced h d ds M M' X : all_repriced (own_fee h d) ds M M' -> h ∈ dom M ->
  i64 (sum_over (weight_at M' Fees) X) = i64 (sum_over (weight_at M Fees) X + (if decide (h ∈ X) then d else 0)).
Proof.
  intros Ha Hin. destruct (decide (h ∈ X)) as [Hh|Hh].
  - rewrite (sum_over_update (weight_at M Fees) (weight_at M' Fees) h X Hh) by (intros y _ Hne; by apply (weight_repriced h d ds)).
    rewrite (weight_repriced_own h d ds M M' Ha Hin), (wrap_add_r Fees). cbn [wrap]. f_equal. lia.
  - rewrite Z.add_0_r. f_equal. apply sum_over_ext. intros y Hy. apply (weight_repriced h d ds); [done|]. by intros ->.
Qed.

Lemma totals_repriced pool h d M' : wf pool -> h ∈ dom (mapTx pool) ->
  all_repriced (own_fee h d) (counted_fee pool h d) (mapTx pool) M' -> totals M' (sets pool).
Proof.
  intros Hw Hin Ha. pose proof (all_repriced_labels _ _ _ _ Ha) as Hl. pose proof (same_labels_dom _ _ Hl) as Ed.
  split; [|intros s t Ht; rewrite Ed in *; by apply (totals_sets _ _ (wf_totals _ Hw))].
  intros s t e' k Htr He'. destruct (all_repriced_lookup _ _ _ _ _ _ Ha He') as (e & He & R).
  pose proof (totals_sum _ _ (wf_totals _ Hw) s t e k Htr He) as Es. destruct (decide (k = Fees)) as [->|Hk].
  - rewrite (repriced_fees _ _ _ _ R), Es. cbn [wrap weight]. rewrite i64_i64_add, (repriced_fee _ _ _ _ R), i64_i64_add.
    rewrite (Z.add_comm (GetModifiedFee e + own_fee h d t)), <- (i64_i64_add (sum_over (weight_at M' Fees) _)), (sum_repriced h d _ _ _ _ Ha Hin), i64_i64_add. f_equal.
    assert (Hd : counted_fee pool h d s t = own_fee h d t + (if decide (h ∈ sets pool s t) then d else 0)); [|lia].
    unfold counted_fee, own_fee. destruct (totals_sets _ _ (wf_totals _ Hw) s h Hin) as [Hno _].
    destruct (decide (t = h)) as [->|Hne]; [rewrite decide_True, decide_False by tauto; lia|].
    destruct (decide (h ∈ sets pool s t)); [rewrite decide_True by tauto|rewrite decide_False by tauto]; lia.
  - rewrite (repriced_totals _ _ _ _ R) by done. rewrite Es. f_equal. f_equal.
    + symmetry. apply (label_weight e' e k Hk), (repriced_label _ _ _ _ R).
    + apply sum_over_ext. intros y _. symmetry. by apply same_labels_weight.
Qed.

Lemma reprice_own h d e : fits e -> exists e', UpdateFeeDelta (i64 (feeDelta e + d)) e = Some e' /\ feeDelta e' = i64 (feeDelta e + d) /\
  repriced d (fun _ => d) e e'.
Proof.
  intros Hf. eexists. split; [reflexivity|]. split; [done|].
  assert (E : forall a, i64 (a + i64 (i64 (feeDelta e + d) - feeDelta e)) = i64 (a + d)).
  { intros a. rewrite (wrap_add_r Fees a). cbn [wrap]. replace (a + (i64 (feeDelta e + d) - feeDelta e)) with (i64 (feeDelta e + d) + (a - feeDelta e)) by lia.
    rewrite i64_i64_add. f_equal. lia. }
  split; try done.
  - unfold GetModifiedFee, with_delta. cbn [nFee feeDelta]. rewrite (wrap_add_r Fees). cbn [wrap]. rewrite i64_i64_add. f_equal. lia.
  - by intros [] [].
  - intros []; cbn [total with_delta nModFeesWithAncestors nModFeesWithDescendants]; apply E.
Qed.

Lemma sets_same pool pool' : mapLinks pool' = mapLinks pool -> dom (mapTx pool') = dom (mapTx pool) -> sets pool' = sets pool.
Proof. intros El Ed. unfold sets, ancestors, descendants, par, chi, links_at. by rewrite El, <- !size_dom, Ed. Qed.

Lemma closed_same pool pool' : mapLinks pool' = mapLinks pool -> dom (mapTx pool') = dom (mapTx pool) -> links_closed pool -> links_closed pool'.
Proof. intros El Ed [L1 L2 L3]. split; unfold par, chi, links_at in *; rewrite ?El, ?Ed; done. Qed.

(** The first step: the entry itself. *)
Lemma all_repriced_insert h d e e' M : (forall t e, M !! t = Some e -> fits e) -> M !! h = Some e -> repriced d (fun _ => d) e e' ->
  all_repriced (own_fee h d) (fun _ => own_fee h d) M (<[h := e']> M).
Proof.
  intros Hf He R t. unfold own_fee. destruct (decide (t = h)) as [->|Hne].
  - rewrite lookup_insert_eq, He. by constructor.
  - rewrite lookup_insert_ne by done. destruct (M !! t) as [e0|] eqn:E0; constructor. apply repriced_refl. by apply (Hf t).
Qed.

(** The fee of a transaction that is not in the pool is in no total. *)
Lemma all_repriced_absent pool h d : wf pool -> h ∉ dom (mapTx pool) -> all_repriced (own_fee h d) (counted_fee pool h d) (mapTx pool) (mapTx pool).
Proof.
  intros Hw Hout t. destruct (mapTx pool !! t) as [e|] eqn:E; constructor. assert (Hin : t ∈ dom (mapTx pool)) by (apply elem_of_dom; eauto).
  unfold own_fee. rewrite decide_False by congruence. destruct (repriced_refl e (wf_fits _ _ _ Hw E)) as [R1 R2 R4 R5]. split; try done.
  intros s. unfold counted_fee. rewrite decide_False; [apply R5|]. intros [->|Hs]; [done|]. by apply Hout, (totals_sets _ _ (wf_totals _ Hw) s t Hin).
Qed.

Lemma counted_split pool h d s t : links_ok pool -> acyclic (par pool) ->
  counted_fee pool h d s t = own_fee h d t + (if decide (s = Desc /\ t ∈ ancestors pool h) then d else 0) +
                             (if decide (s = Anc /\ t ∈ descendants pool h) then d else 0).
Proof.
  intros Hl Ha. assert (Hs : h ∈ sets pool s t <-> (s = Desc /\ t ∈ ancestors pool h) \/ (s = Anc /\ t ∈ descendants pool h)).
  { destruct s; cbn [sets]; [rewrite (ancestors_descendants pool h t Hl)|rewrite <- (ancestors_descendants pool t h Hl)]; naive_solver. }
  unfold counted_fee, own_fee. pose proof (not_own_ancestor pool h Hl Ha). pose proof (not_own_descendant pool h Hl Ha).
  destruct (decide (t = h)) as [->|Hne].
  - rewrite decide_True, !decide_False by tauto. lia.
  - destruct (decide (s = Desc /\ t ∈ ancestors pool h)), (decide (s = Anc /\ t ∈ descendants pool h)); [naive_solver|..];
      (rewrite decide_True by tauto) || (rewrite decide_False by tauto); lia.
Qed.

Lemma fits_all df ds M M' : all_repriced df ds M M' -> (forall t e, M !! t = Some e -> fits e) -> forall t e, M' !! t = Some e -> fits e.
Proof. intros Ha Hf t e' He'. destruct (all_repriced_lookup _ _ _ _ _ _ Ha He') as (e & He & R). eapply fits_repriced; [exact R|]. by apply (Hf t). Qed.

Lemma fits_readable pool sz : (forall t e, mapTx pool !! t = Some e -> fits e) -> sizes_ok (mapTx pool) -> bounded (mapTx pool) -> 0 <= sz < 2 ^ 63 -> readable pool sz.
Proof. intros Hf Hs Hb Hsz. split; [done..|]. intros t e He. destruct (Hf t e He Desc) as (H1 & H2 & _). cbn [total] in *. lia. Qed.

Lemma labels_sizes M M' : same_labels M M' -> sizes_ok M -> sizes_ok M'.
Proof.
  intros Hl Hs t e' He'. destruct (same_labels_lookup _ _ _ _ Hl He') as (e & He & E). injection E as _ E2 E3 _ _. rewrite E2, E3. by apply (Hs t).
Qed.

Lemma labels_bounded M M' : same_labels M M' -> bounded M -> bounded M'.
Proof.
  intros Hl Hb. assert (E : forall k, k <> Fees -> sum_over (weight_at M' k) (dom M') = sum_over (weight_at M k) (dom M)).
  { intros k Hk. rewrite (same_labels_dom _ _ Hl). apply sum_over_ext. intros y _. by apply same_labels_weight. }
  unfold bounded. by rewrite !E.
Qed.

(** The search for the ancestors of an entry after its fee was changed. *)
Lemma repriced_ancestors pool pool' df ds h e' : wf pool -> mapLinks pool' = mapLinks pool -> all_repriced df ds (mapTx pool) (mapTx pool') ->
  mapTx pool' !! h = Some e' -> CalculateMemPoolAncestors pool' e' ∅ no_limits false = Some (None, ancestors pool h).
Proof.
  intros Hw El Ha He'. pose proof (all_repriced_labels _ _ _ _ Ha) as Hl. pose proof (same_labels_dom _ _ Hl) as Ed.
  destruct (same_labels_lookup _ _ _ _ Hl He') as (e & He & E). injection E as E1 E2 _ _ _.
  assert (Hh : GetHash (entry_tx e') = h) by (rewrite E1; by apply (wf_hash _ Hw)).
  rewrite linked_ancestors, Hh; [f_equal; f_equal; exact (f_equal (fun f => f Anc h) (sets_same pool pool' El Ed))|..].
  - by apply (closed_same pool), (wf_closed _ Hw).
  - apply fits_readable; [intros t e0; apply (fits_all _ _ _ _ Ha); intros t0 e2; by apply wf_fits|by apply (labels_sizes _ _ Hl), (wf_sizes _ Hw)|by apply (labels_bounded _ _ Hl), (wf_bounded _ Hw)|].
    rewrite E2. apply (entry_size pool h e); [apply (wf_sizes _ Hw)|apply (wf_bounded _ Hw)|done].
  - rewrite Hh. apply elem_of_dom. eauto.
Qed.

Lemma reprice_entry pool D h d e : wf pool -> prioritised pool -> mapTx pool !! h = Some e -> let delta := i64 (feeDelta e + d) in
  exists M', (pool ← modify h (UpdateFeeDelta delta) (set_deltas pool D);
      e ← mapTx pool !! h;
      '(_, setAncestors) ← CalculateMemPoolAncestors pool e ∅ no_limits false;
      pool ← each (fun it => modify it (UpdateDescendantState 0 d 0)) (in_hash_order setAncestors) pool;
      setDescendants ← CalculateDescendants pool h ∅;
      each (fun it => modify it (UpdateAncestorState 0 d 0 0)) (in_hash_order (setDescendants ∖ {[h]})) pool) = Some (set_entries (set_deltas pool D) M') /\
    all_repriced (own_fee h d) (counted_fee pool h d) (mapTx pool) M' /\
    forall t, feeDelta <$> M' !! t = if decide (t = h) then Some delta else feeDelta <$> mapTx pool !! t.
Proof.
  intros Hw Hp He delta. pose proof (wf_links _ Hw) as Hl. pose proof (wf_acyclic _ Hw) as Hac. pose proof (wf_closed _ Hw) as Hlc.
  destruct (reprice_own h d e (wf_fits _ _ _ Hw He)) as (e1 & E1 & Ed1 & R1). fold delta in E1, Ed1.
  set (M1 := <[h := e1]> (mapTx pool)).
  assert (A1 : all_repriced (own_fee h d) (fun _ => own_fee h d) (mapTx pool) M1) by (apply (all_repriced_insert h d e); [intros t0 e0; by apply wf_fits|done..]).
  replace (modify h (UpdateFeeDelta delta) (set_deltas pool D)) with (Some (set_entries (set_deltas pool D) M1)).
  2: { unfold modify. cbn [mapTx set_deltas]. rewrite He. cbn [mbind option_bind]. by rewrite E1. }
  cbn [mbind option_bind]. set (pool1 := set_entries (set_deltas pool D) M1). change (mapTx pool1) with M1. unfold M1 at 1. rewrite lookup_insert_eq. cbn [mbind option_bind].
  rewrite (repriced_ancestors pool pool1 _ _ h e1 Hw eq_refl A1) by apply lookup_insert_eq. cbn [mbind option_bind].
  assert (Ed : dom M1 = dom (mapTx pool)) by apply (same_labels_dom _ _ (all_repriced_labels _ _ _ _ A1)).
  assert (F1 : forall t e, M1 !! t = Some e -> fits e) by (intros t0; apply (fits_all _ _ _ _ A1); intros t2 e2; by apply wf_fits).
  destruct (fee_pass Desc (ancestors pool h) d pool1 F1) as (M2 & E2 & A2 & D2).
  { change (mapTx pool1) with M1. rewrite Ed. by apply ancestors_dom. }
  change (UpdateState Desc (fee_only d)) with (UpdateDescendantState 0 d 0) in E2. rewrite E2. cbn [mbind option_bind].
  change (mapTx pool1) with M1 in *. set (pool2 := set_entries pool1 M2).
  assert (Ed2 : dom M2 = dom (mapTx pool)) by (rewrite <- Ed; apply (same_labels_dom _ _ (all_repriced_labels _ _ _ _ A2))).
  assert (Es : sets pool2 = sets pool) by by apply sets_same.
  rewrite descendants_of_entry; [|by apply (closed_same pool)|change (h ∈ dom M2); rewrite Ed2; apply elem_of_dom; eauto]. cbn [mbind option_bind].
  replace (package pool2 h ∖ {[h]}) with (descendants pool h).
  2: { unfold package. rewrite (f_equal (fun f => f Desc h) Es : descendants pool2 h = descendants pool h). pose proof (not_own_descendant pool h Hl Hac) as Hno. set_solver +Hno. }
  destruct (fee_pass Anc (descendants pool h) d pool2) as (M3 & E3 & A3 & D3).
  { intros t0. by apply (fits_all _ _ _ _ A2). } { change (mapTx pool2) with M2. rewrite Ed2. by apply descendants_dom. }
  change (UpdateState Anc (fee_only d)) with (UpdateAncestorState 0 d 0 0) in E3. rewrite E3. exists M3. split; [done|]. split.
  - eapply all_repriced_ext; [| |exact (all_repriced_trans _ _ _ _ _ _ _ (all_repriced_trans _ _ _ _ _ _ _ A1 A2) A3)].
    + intros t. cbn. lia.
    + intros s t. symmetry. by apply counted_split.
  - intros t. rewrite D3. change (mapTx pool2) with M2. rewrite D2. change (mapTx pool1) with M1. unfold M1. case_decide as Ht.
    + subst t. rewrite lookup_insert_eq. cbn. by rewrite Ed1.
    + by rewrite lookup_insert_ne.
Qed.

Lemma PrioritiseTransaction_spec h d pool : wf pool -> prioritised pool ->
  exists pool', PrioritiseTransaction h d pool = Some pool' /\ wf pool' /\ prioritised pool' /\
    mapDeltas pool' = <[h := i64 (default 0 (mapDeltas pool !! h) + d)]> (mapDeltas pool) /\ mapLinks pool' = mapLinks pool /\
    all_repriced (own_fee h d) (counted_fee pool h d) (mapTx pool) (mapTx pool').
Proof.
  intros Hw Hp. unfold PrioritiseTransaction. change (mapTx (set_deltas pool _)) with (mapTx pool). set (D := <[h := _]> _).
  destruct (mapTx pool !! h) as [e|] eqn:He.
  - rewrite <- (Hp h e He) in *. destruct (reprice_entry pool D h d e Hw Hp He) as (M' & E & Ha & Hd). rewrite E.
    eexists. split; [reflexivity|]. split; [|split; [|done]].
    + apply (wf_relabel pool); try done; [by apply (all_repriced_labels _ _ _ _ Ha)|]. apply (totals_repriced pool h d); [done|apply elem_of_dom; eauto|done].
    + intros t e' He'. change (M' !! t = Some e') in He'. change (mapDeltas (set_entries _ M')) with D. specialize (Hd t). rewrite He' in Hd. unfold D.
      case_decide as Ht; [subst t; rewrite lookup_insert_eq; change (Some (feeDelta e') = Some (i64 (feeDelta e + d))) in Hd; change (feeDelta e' = i64 (default 0 (mapDeltas pool !! h) + d)); rewrite <- (Hp h e He); congruence|]. rewrite lookup_insert_ne by done.
      destruct (mapTx pool !! t) as [e0|] eqn:E0; [|done]. change (Some (feeDelta e') = Some (feeDelta e0)) in Hd. rewrite <- (Hp t e0 E0). congruence.
  - eexists. split; [reflexivity|]. split; [by apply (wf_ext pool)|]. split; [|do 2 (split; [done|]); apply (all_repriced_absent pool h d Hw); by apply not_elem_of_dom].
    intros t e' He'. change (mapTx pool !! t = Some e') in He'. change (mapDeltas (set_deltas pool D)) with D. unfold D. rewrite lookup_insert_ne by (intros <-; congruence). by apply Hp.
Qed.

End WithEnv.
End MemPoolFees.
