(* ===== verification/MemPoolReorg.v ===== *)
(** * Transactions that return from a disconnected block

    When a block is disconnected its transactions come back to the pool, where
    their children may already be.  [addUnchecked] does not link such children;
    [UpdateTransactionsFromBlock] does, once for the whole block.  The file
    shows that the links and totals are then those of the transactions. *)

From stdpp Require Import base relations list list_numbers gmap fin_sets sorting numbers option.
From Stdlib Require Import ZArith Lia.
From S2P Require Import Prelude Serialize Script Transaction Interpreter InterpreterSafety Coins Ledger TxGraph MemPool MemPoolInv MemPoolOps MemPoolAdd MemPoolSteps.

Local Open Scope Z_scope.

Module MemPoolReorg.
Import Serialize Script Transaction Interpreter Ledger TxGraph MemPool MemPoolInv MemPoolOps MemPoolAdd MemPoolSteps.

Section WithEnv.
Context `{!Crypto} `{!PoolEnv}.
Implicit Types (pool : CTxMemPool) (e : CTxMemPoolEntry) (it t x h p c d y : uint256) (X S P B : setEntries) (s : side) (l : list uint256).

Abbreviation cacheMap := (gmap uint256 setEntries).

Lemma each_app {A S0 : Type} (body : A -> S0 -> option S0) (l1 l2 : list A) (s0 : S0) : each body (l1 ++ l2) s0 = (each body l1 s0 ≫= each body l2).
Proof. revert s0. induction l1 as [|x l1 IH]; intros s0; cbn; [done|]. destruct (body x s0); cbn; [apply IH|done]. Qed.

(** ** The links that the inputs of the entries name *)

Definition full pool t : setEntries := from_option (fun e => pool_parents pool (entry_tx e)) ∅ (mapTx pool !! t).
Definition full_chi pool p : setEntries := filter (fun c => p ∈ full pool c) (dom (mapTx pool)).

Lemma full_dom pool t : full pool t ⊆ dom (mapTx pool).
Proof. unfold full. destruct (mapTx pool !! t) as [e|]; cbn; [|set_solver +]. intros p Hp. apply elem_of_pool_parents in Hp. tauto. Qed.

Lemma full_sym pool p c : c ∈ full_chi pool p <-> p ∈ full pool c.
Proof.
  unfold full_chi. rewrite elem_of_filter. split; [tauto|]. intros Hp. split; [done|]. apply elem_of_dom. unfold full in Hp.
  destruct (mapTx pool !! c); [by eexists|cbn in Hp; set_solver +Hp].
Qed.

Lemma full_chi_dom pool p : full_chi pool p ⊆ dom (mapTx pool).
Proof. intros c Hc. unfold full_chi in Hc. apply elem_of_filter in Hc. tauto. Qed.

Lemma full_linked pool : linked pool <-> forall t, t ∈ dom (mapTx pool) -> par pool t = full pool t.
Proof.
  unfold linked, full. split.
  - intros Hl t [e He]%elem_of_dom. rewrite He. by apply Hl.
  - intros Hl t e He. rewrite (Hl t) by (apply elem_of_dom; eauto). by rewrite He.
Qed.

(** The transactions of [l] returned from a block, in its order: they are linked
    to their parents, which are all among them, and to none of the other entries;
    the others are linked among themselves. *)
Record returned l pool : Prop := mkReturned {
  returned_nodup : NoDup l;
  returned_par t : t ∈ dom (mapTx pool) -> par pool t = if decide (t ∈ l) then full pool t else full pool t ∖ list_to_set l;
  returned_closed t : t ∈ l -> full pool t ⊆ list_to_set l;
  returned_order l1 h l2 : l = l1 ++ h :: l2 -> forall c, c ∈ l -> h ∈ full pool c -> c ∈ l2
}.

Section FromBlock.
Variables (pool : CTxMemPool) (l : list uint256).
Hypothesis Hw : wf pool.
Hypothesis Hr : returned l pool.

Abbreviation B := (list_to_set l : setEntries).
Abbreviation M := (mapTx pool).

Lemma par_returned t : par pool t = if decide (t ∈ B) then full pool t else full pool t ∖ B.
Proof using Hw Hr.
  destruct (decide (t ∈ dom M)) as [Hin|Hout].
  - rewrite (returned_par _ _ Hr t Hin). destruct (decide (t ∈ l)), (decide (t ∈ B)); try done; set_solver.
  - rewrite (proj1 (outside_par pool t (wf_closed _ Hw) Hout)). apply not_elem_of_dom in Hout. unfold full. rewrite Hout. cbn. destruct (decide _); set_solver +.
Qed.

Lemma full_in t : t ∈ B -> full pool t ⊆ B.
Proof using Hr. intros Ht. apply (returned_closed _ _ Hr). set_solver +Ht. Qed.

Lemma full_chi_out p : p ∉ B -> full_chi pool p ## B.
Proof using Hr. intros Hp c Hc Hin. apply full_sym in Hc. by apply Hp, (full_in c). Qed.

Lemma chi_returned p : chi pool p = if decide (p ∈ B) then full_chi pool p ∩ B else full_chi pool p.
Proof using Hw Hr.
  apply set_eq. intros c. rewrite (links_sym _ (wf_links _ Hw)), par_returned. pose proof (full_sym pool p c) as Hs.
  destruct (decide (p ∈ B)) as [Hp|Hp], (decide (c ∈ B)) as [Hc|Hc]; try set_solver +Hp Hc Hs.
Qed.

(** The descendants outside the block. *)
Definition far p : setEntries := reach_set (size M) (full_chi pool) p ∖ B.

Lemma full_chi_reach p : is_reach (full_chi pool) p (reach_set (size M) (full_chi pool) p).
Proof using. apply (reach_set_spec _ (dom M)); [apply full_chi_dom|by rewrite size_dom]. Qed.

Lemma elem_of_far p d : d ∈ far p <-> tc (edge (full_chi pool)) p d /\ d ∉ B.
Proof using. unfold far. by rewrite elem_of_difference, (full_chi_reach p d). Qed.

Lemma far_dom p : far p ⊆ dom M.
Proof using. intros d [Hd _]%elem_of_far. by apply (reach_dom (full_chi_dom pool) Hd). Qed.

Lemma far_none p : p ∉ dom M -> far p = ∅.
Proof using.
  intros Hp. apply set_eq. intros d. split; [|set_solver +]. intros [(c & Hc & _)%tc_first _]%elem_of_far.
  exfalso. apply Hp. apply full_sym in Hc. by apply (full_dom pool c).
Qed.

(** ** The state while the block is processed from its end *)

(** The sets over which the totals are taken when [P] has been processed. *)
Definition at_progress P s t : setEntries :=
  match s with
  | Anc => if decide (t ∈ B) then ancestors pool t else ancestors pool t ∪ filter (fun h => t ∈ far h) P
  | Desc => if decide (t ∈ P) then descendants pool t ∪ far t else descendants pool t
  end.

Record progress P pool' (cache : cacheMap) : Prop := mkProgress {
  progress_frame : frame pool pool';
  progress_par t : par pool' t = if decide (t ∈ B) then par pool t else par pool t ∪ full pool t ∩ P;
  progress_chi x : chi pool' x = if decide (x ∈ P) then chi pool x ∪ full_chi pool x ∖ B else chi pool x;
  progress_totals : totals (mapTx pool') (at_progress P);
  progress_cache p : cache !! p = if decide (p ∈ P /\ far p <> ∅) then Some (far p) else None
}.

Lemma progress_start : progress ∅ pool ∅.
Proof using Hw.
  split.
  - apply frame_refl.
  - intros t. case_decide; set_solver +.
  - intros x. by rewrite decide_False by set_solver +.
  - apply (totals_ext _ (sets pool)); [|apply (wf_totals _ Hw)]. intros [] t; cbn; [case_decide; [done|]; set_solver +|]. by rewrite decide_False by set_solver +.
  - intros p. rewrite decide_False by set_solver +. apply lookup_empty.
Qed.

(** ** Linking the children *)

(** The links after the children in [X] have been looked at. *)
Record linking h pool1 X pool2 : Prop := mkLinking {
  linking_frame : frame pool1 pool2;
  linking_entries : mapTx pool2 = mapTx pool1;
  linking_par t : par pool2 t = if decide (t ∈ X ∖ B) then {[h]} ∪ par pool1 t else par pool1 t;
  linking_chi x : chi pool2 x = if decide (x = h) then chi pool1 h ∪ X ∖ B else chi pool1 x
}.

Lemma link_child_spec h o c pool1 X pool2 : h ∈ dom (mapLinks pool1) -> c ∈ dom (mapLinks pool1) -> c ∈ dom (mapTx pool1) -> linking h pool1 X pool2 ->
  exists pool3, link_child h B (o, c) (pool2, X) = Some (pool3, {[c]} ∪ X) /\ linking h pool1 ({[c]} ∪ X) pool3.
Proof using.
  intros Hh Hc [e He]%elem_of_dom [Hf Hm Hp Hx]. unfold link_child. cbn [snd]. rewrite Hm, He. cbn [mbind option_bind].
  destruct (decide (c ∈ X \/ c ∈ B)) as [Hold|Hnew].
  - exists pool2. split.
    + destruct (decide (c ∈ X)) as [Hin|Hin]; [by rewrite bool_decide_true|]. rewrite (bool_decide_true (c ∈ B)) by tauto. by rewrite andb_false_r.
    + assert (E : ({[c]} ∪ X) ∖ B = X ∖ B) by set_solver +Hold. by split; rewrite ?E.
  - rewrite !bool_decide_false by tauto. cbn [negb andb]. eexists. split; [reflexivity|].
    destruct (UpdateChild_spec h c true pool2) as (F1 & M1 & P1 & C1); [by rewrite (frame_links _ _ Hf)|].
    destruct (UpdateParent_spec c h true (UpdateChild h c true pool2)) as (F2 & M2 & P2 & C2); [by rewrite (frame_links _ _ F1), (frame_links _ _ Hf)|].
    split.
    + eapply frame_trans; [exact Hf|]. by eapply frame_trans.
    + congruence.
    + intros t. rewrite P2, !P1, !Hp. cbn [changed]. destruct (decide (t = c)) as [->|Hne].
      * rewrite (decide_False (P := (c ∈ X ∖ B))), decide_True by set_solver +Hnew. done.
      * destruct (decide (t ∈ X ∖ B)) as [q1|q1], (decide (t ∈ ({[c]} ∪ X) ∖ B)) as [q2|q2]; try done; set_solver +q1 q2 Hne.
    + intros x. rewrite C2, C1, !Hx. cbn [changed]. rewrite (decide_True (P := (h = h))) by done. case_decide; [|done]. set_solver +Hnew.
Qed.

Lemma link_loop_spec h pool1 L : h ∈ dom (mapLinks pool1) -> dom (mapLinks pool1) = dom (mapTx pool1) -> (forall o c, (o, c) ∈ L -> c ∈ dom (mapTx pool1)) ->
  forall X pool2, linking h pool1 X pool2 -> exists pool3 X', each (link_child h B) L (pool2, X) = Some (pool3, X') /\ linking h pool1 X' pool3 /\
    forall c, c ∈ X' <-> c ∈ X \/ exists o, (o, c) ∈ L.
Proof using.
  intros Hh Hd. induction L as [|[o c] L IH]; intros HL X pool2 Hk; cbn [each].
  - exists pool2, X. do 2 (split; [done|]). intros c. split; [by left|]. intros [|(o & Ho)]; [done|]. by apply elem_of_nil in Ho.
  - assert (Hc : c ∈ dom (mapTx pool1)) by (apply (HL o); by left).
    destruct (link_child_spec h o c pool1 X pool2 Hh ltac:(by rewrite Hd) Hc Hk) as (pool3 & -> & Hk3). cbn [mbind option_bind].
    destruct (IH (fun o c Ho => HL o c (list_elem_of_further _ _ _ Ho)) ({[c]} ∪ X) pool3 Hk3) as (pool4 & X' & E & Hk4 & HX). exists pool4, X'. do 2 (split; [done|]).
    intros c'. rewrite HX. setoid_rewrite elem_of_cons. set_solver +.
Qed.

(** The spenders of the outputs of a transaction are the entries it is a parent of. *)
Lemma elem_of_spent_outputs h c : h ∈ dom M -> c ∈ full_chi pool h <-> exists o, (o, c) ∈ spent_outputs pool h.
Proof using Hw.
  intros Hh. rewrite full_sym. unfold spent_outputs. setoid_rewrite merge_sort_Permutation. setoid_rewrite list_elem_of_filter. setoid_rewrite elem_of_map_to_list. cbn [fst]. split.
  - unfold full. destruct (mapTx pool !! c) as [e|] eqn:He; cbn; [|set_solver +]. intros (_ & i & Hi & Ho)%elem_of_pool_parents.
    exists (prevout i). split; [done|]. apply (wf_next _ Hw). exists e. split; [done|]. apply list_elem_of_fmap. by exists i.
  - intros (o & Ho & Hn). apply (wf_next _ Hw) in Hn as (e & He & (i & -> & Hi)%list_elem_of_fmap). unfold full. rewrite He. cbn. apply elem_of_pool_parents.
    split; [done|]. by exists i.
Qed.

Lemma link_children_spec h pool1 : h ∈ dom M -> frame pool pool1 -> exists pool2 X, each (link_child h B) (spent_outputs pool1 h) (pool1, ∅) = Some (pool2, X) /\
  linking h pool1 (full_chi pool h) pool2.
Proof using Hw.
  intros Hh Hf. assert (E : spent_outputs pool1 h = spent_outputs pool h) by (unfold spent_outputs; by rewrite (frame_next _ _ Hf)).
  assert (Hd : dom (mapLinks pool1) = dom M) by (rewrite (frame_links _ _ Hf); apply (links_dom _ (wf_closed _ Hw))).
  destruct (link_loop_spec h pool1 (spent_outputs pool h)) with (X := (∅ : setEntries)) (pool2 := pool1) as (pool2 & X & E2 & Hk & HX).
  - by rewrite Hd.
  - by rewrite Hd, (frame_dom _ _ Hf).
  - intros o c Hc. rewrite (frame_dom _ _ Hf). apply (full_chi_dom pool h). apply elem_of_spent_outputs; [done|]. by exists o.
  - split; [apply frame_refl|done|..]; intros t; [by rewrite decide_False by set_solver +|]. case_decide; [subst|done]. set_solver +.
  - exists pool2, X. rewrite E. split; [done|]. replace (full_chi pool h) with X; [done|]. apply set_eq. intros c. rewrite HX, elem_of_spent_outputs by done. set_solver +.
Qed.

(** ** The search with a cache *)

Section Search.
Variables (h : uint256) (pool2 : CTxMemPool) (cache : cacheMap).
Hypothesis Hlinks : dom (mapLinks pool2) = dom M.
Hypothesis Hchi : forall x, tc (edge (full_chi pool)) h x -> chi pool2 x = full_chi pool x.
Hypothesis Hcache : forall p X, cache !! p = Some X -> p ∈ B /\ X = far p.

(** A child that was met, or whose descendants outside the block were. *)
Definition covered (stage all : setEntries) c : Prop := c ∈ stage \/ c ∈ all \/ exists X, cache !! c = Some X /\ X ⊆ all.

Lemma covered_mono stage all stage' all' c : stage ⊆ stage' ∪ all' -> all ⊆ all' -> covered stage all c -> covered stage' all' c.
Proof using.
  intros Hs Ha [Hc|[Hc|(X & Hc & HX)]]; [apply Hs, elem_of_union in Hc as [Hc|Hc]; [by left|by right; left]|right; left; by apply Ha|]. right. right. exists X. split; [done|]. by etrans.
Qed.

Lemma visit_children_spec stage all C : exists stage' all', foldl (visit_child cache) (stage, all) (in_hash_order C) = (stage', all') /\
  stage ⊆ stage' /\ stage' ⊆ stage ∪ C ∖ all /\ all ⊆ all' /\ (forall c, c ∈ C -> covered stage' all' c) /\
  (forall x, x ∈ all' -> x ∈ all \/ exists c X, c ∈ C /\ cache !! c = Some X /\ x ∈ X /\ X ⊆ all').
Proof using.
  enough (HP : (fun st : setEntries * setEntries => stage ⊆ st.1 /\ st.1 ⊆ stage ∪ C ∖ all /\ all ⊆ st.2 /\ (forall c, c ∈ C -> covered st.1 st.2 c) /\
    (forall x, x ∈ st.2 -> x ∈ all \/ exists c X, c ∈ C /\ cache !! c = Some X /\ x ∈ X /\ X ⊆ st.2)) (foldl (visit_child cache) (stage, all) (in_hash_order C))).
  { destruct (foldl _ _ _) as [stage' all']. exists stage', all'. done. }
  apply (foldl_set C (visit_child cache) (fun R st => stage ⊆ st.1 /\ st.1 ⊆ stage ∪ C ∖ all /\ all ⊆ st.2 /\ (forall c, c ∈ R -> covered st.1 st.2 c) /\
    (forall x, x ∈ st.2 -> x ∈ all \/ exists c X, c ∈ C /\ cache !! c = Some X /\ x ∈ X /\ X ⊆ st.2))); cbn [fst snd].
  - split; [done|]. split; [set_solver +|]. split; [done|]. split; [intros c Hc; set_solver +Hc|]. intros x Hx. by left.
  - intros R c [st al] HR Hc _ (H1 & H2 & H3 & H4 & H5). cbn [fst snd] in *. unfold visit_child. destruct (cache !! c) as [X|] eqn:Ec; cbn [fst snd].
    + split; [done|]. split; [done|]. split; [set_solver +H3|]. split.
      * intros c' [->%elem_of_singleton|Hc']%elem_of_union; [right; right; exists X; split; [done|set_solver +]|].
        apply (covered_mono st al); [set_solver +|set_solver +|by apply H4].
      * intros x [Hx|Hx]%elem_of_union; [|right; exists c, X; split; [done|]; split; [done|]; split; [done|set_solver +]].
        destruct (H5 x Hx) as [|(c' & X' & Hc' & E' & Hx' & Hs')]; [by left|right]. exists c', X'. do 3 (split; [done|]). set_solver +Hs'.
    + case_bool_decide as Hin; cbn [fst snd].
      * do 3 (split; [done|]). split; [|done]. intros c' [->%elem_of_singleton|Hc']%elem_of_union; [by right; left|by apply H4].
      * split; [set_solver +H1|]. split; [set_solver +H2 H3 Hc Hin|]. split; [done|]. split; [|done].
        intros c' [->%elem_of_singleton|Hc']%elem_of_union; [left; set_solver +|]. apply (covered_mono st al); [set_solver +|done|by apply H4].
Qed.

Lemma far_closed p x c : x ∈ far p -> c ∈ full_chi pool x -> c ∈ far p.
Proof using Hr.
  intros [Hx HxB]%elem_of_far Hc. apply elem_of_far. split; [by eapply tc_r|]. intros HcB. by apply (full_chi_out x HxB c).
Qed.

(** What holds between the rounds; [Q] are the entries that were taken from the stage. *)
Record descending (Q stage all : setEntries) : Prop := mkDescending {
  descending_taken : Q ⊆ all;
  descending_stage : stage ## Q;
  descending_sound x : x ∈ stage ∪ all -> tc (edge (full_chi pool)) h x;
  descending_first c : c ∈ full_chi pool h -> covered stage all c;
  descending_next x c : x ∈ all -> c ∈ full_chi pool x -> covered stage all c
}.

Lemma descending_round Q stage all x stage' all' : descending Q stage all -> x ∈ stage ->
  foldl (visit_child cache) (stage ∖ {[x]}, {[x]} ∪ all) (in_hash_order (full_chi pool x)) = (stage', all') -> descending ({[x]} ∪ Q) stage' all'.
Proof using Hr Hcache.
  intros [D1 D2 D3 D4 D5] Hx E. destruct (visit_children_spec (stage ∖ {[x]}) ({[x]} ∪ all) (full_chi pool x)) as (st & al & E' & V1 & V2 & V3 & V4 & V5).
  rewrite E in E'. injection E' as <- <-. assert (Htx : tc (edge (full_chi pool)) h x) by (apply D3; set_solver +Hx).
  assert (Hreach : forall c X y, c ∈ full_chi pool x -> cache !! c = Some X -> y ∈ X -> tc (edge (full_chi pool)) h y).
  { intros c X y Hc Ec Hy. destruct (Hcache c X Ec) as [_ ->]. apply elem_of_far in Hy as [Hy _]. eapply tc_transitive; [|exact Hy]. by eapply tc_r. }
  assert (Hmono : forall c, covered stage all c -> covered stage' all' c).
  { intros c. apply covered_mono; [|set_solver +V3]. intros y Hy. destruct (decide (y = x)) as [->|Hne]; [set_solver +V3|set_solver +V1 Hy Hne]. }
  split.
  - set_solver +D1 V3.
  - set_solver +D1 D2 V2.
  - intros y [Hy|Hy]%elem_of_union.
    + apply V2, elem_of_union in Hy as [Hy|Hy]; [apply D3; set_solver +Hy|]. eapply tc_r; [exact Htx|]. unfold edge. set_solver +Hy.
    + destruct (V5 y Hy) as [Hy'|(c & X & Hc & Ec & HyX & _)]; [apply D3; set_solver +Hy' Hx|]. by apply (Hreach c X).
  - intros c Hc. by apply Hmono, D4.
  - intros y c Hy Hc. destruct (V5 y Hy) as [[->%elem_of_singleton|Hy']%elem_of_union|(c' & X & Hc' & Ec & HyX & Hs)].
    + by apply V4.
    + by apply Hmono, (D5 y).
    + right. left. apply Hs. destruct (Hcache c' X Ec) as [_ ->]. by apply (far_closed c' y).
Qed.

Lemma descend_loop_spec fuel : forall Q stage all, (size (dom M ∖ Q) <= fuel)%nat -> descending Q stage all ->
  exists S, descend_loop fuel pool2 cache stage all = Some S /\ S ∖ B = far h /\ S ⊆ dom M.
Proof using Hr Hlinks Hchi Hcache.
  assert (Hdone : forall Q all, descending Q ∅ all -> all ∖ B = far h /\ all ⊆ dom M).
  { intros Q all [D1 D2 D3 D4 D5]. assert (Hd : forall y, tc (edge (full_chi pool)) h y -> y ∈ dom M) by (intros y Hy; by apply (reach_dom (full_chi_dom pool) Hy)).
    split; [|intros y Hy; apply Hd, D3; set_solver +Hy]. apply set_eq. intros y. rewrite elem_of_difference, elem_of_far.
    split; [intros [Hy HyB]; split; [apply D3; set_solver +Hy|done]|]. intros [Hy HyB]. split; [|done].
    assert (Hcov : covered ∅ all y \/ exists c X, cache !! c = Some X /\ X ⊆ all /\ tc (edge (full_chi pool)) c y).
    { clear HyB. apply tc_first in Hy as (s0 & Hs0 & Hy). revert y Hy. apply rtc_ind_r; [left; by apply D4|]. intros y z _ Hs IH.
      destruct IH as [[Hy'|[Hy'|(X & Ec & HX)]]|(c & X & Ec & HX & Ht)]; [set_solver +Hy'|left; by apply (D5 y)|..]; right.
      - exists y, X. split; [done|]. split; [done|]. by apply tc_once.
      - exists c, X. split; [done|]. split; [done|]. by eapply tc_r. }
    destruct Hcov as [[Hy'|[Hy'|(X & Ec & HX)]]|(c & X & Ec & HX & Ht)]; [set_solver +Hy'|done|by destruct (Hcache y X Ec)|].
    apply HX. destruct (Hcache c X Ec) as [_ ->]. by apply elem_of_far. }
  induction fuel as [|fuel IH]; intros Q stage all Hf HD; cbn [descend_loop].
  - destruct (begin stage) as [x|] eqn:Eb.
    + apply begin_some in Eb. exfalso. assert (Hx : x ∈ dom M ∖ Q).
      { pose proof (descending_stage _ _ _ HD) as Hdis. apply elem_of_difference. split; [|set_solver +Eb Hdis]. apply (reach_dom (full_chi_dom pool) (descending_sound _ _ _ HD x ltac:(set_solver +Eb))). }
      assert (size (dom M ∖ Q) <> 0%nat) by (apply size_non_empty_iff; set_solver +Hx). lia.
    + apply begin_none in Eb as ->. exists all. split; [done|]. by apply (Hdone Q).
  - destruct (begin stage) as [x|] eqn:Eb.
    + apply begin_some in Eb. pose proof (descending_sound _ _ _ HD x ltac:(set_solver +Eb)) as Htx. pose proof (reach_dom (full_chi_dom pool) Htx) as Hxd.
      rewrite GetMemPoolChildren_chi by (by rewrite Hlinks). cbn [mbind option_bind]. rewrite (Hchi x Htx).
      destruct (foldl _ _ _) as [stage' all'] eqn:E. apply (IH ({[x]} ∪ Q)); [|by apply (descending_round Q stage all x)].
      assert (size (dom M ∖ ({[x]} ∪ Q)) < size (dom M ∖ Q))%nat; [|lia]. pose proof (descending_stage _ _ _ HD) as Hdis.
      apply subset_size. split; [set_solver +|]. intros Hs. specialize (Hs x). set_solver +Hs Hxd Eb Hdis.
    + apply begin_none in Eb as ->. exists all. split; [done|]. by apply (Hdone Q).
Qed.

End Search.

(** ** Telling the descendants *)

Lemma wrap_i64 a b : i64 (i64 a + b) = i64 (a + b).
Proof using. exact (wrap_add_l Fees a b). Qed.

Section Tell.
Variables (h : uint256) (pool2 : CTxMemPool) (cache : cacheMap) (u : CTxMemPoolEntry).
Hypothesis Hhash : forall t e, mapTx pool2 !! t = Some e -> GetHash (entry_tx e) = t.
Hypothesis Hu : mapTx pool2 !! h = Some u.
Hypothesis Hh : h ∈ B.
Hypothesis Hfresh : cache !! h = None.

Abbreviation tell := (UpdateAncestorState (nTxSize u) (GetModifiedFee u) 1 (sigOpCount u)).

Record told X (st : CTxMemPool * cacheMap * descendant_sums) : Prop := mkTold {
  told_pool : exists M', st.1.1 = set_entries pool2 M' /\ forall x, M' !! x = if decide (x ∈ X) then mapTx pool2 !! x ≫= tell else mapTx pool2 !! x;
  told_cache p : st.1.2 !! p = if decide (p = h /\ X <> ∅) then Some X else cache !! p;
  told_size : modifySize st.2 = i64 (sum_over (weight_at (mapTx pool2) Size) X);
  told_fee : modifyFee st.2 = i64 (sum_over (weight_at (mapTx pool2) Fees) X);
  told_count : modifyCount st.2 = Z.of_nat (size X)
}.

Lemma add_descendant_spec X st c : told X st -> c ∈ dom (mapTx pool2) -> c ∉ X -> c ∉ B -> X ## B -> is_Some (mapTx pool2 !! c ≫= tell) ->
  exists st', add_descendant h B c st = Some st' /\ told ({[c]} ∪ X) st'.
Proof using Hhash Hu Hh Hfresh.
  intros [(M' & E1 & HM) Hc Hs Hf Hn] [e He]%elem_of_dom Hx HcB HXB [e' He']. destruct st as [[p1 ca] sm]. cbn [fst snd] in *. subst p1.
  rewrite He in He'. cbn [mbind option_bind] in He'.
  assert (HMc : M' !! c = Some e) by (by rewrite HM, decide_False). assert (HMh : M' !! h = Some u) by (rewrite HM, decide_False; [done|set_solver +HXB Hh]).
  unfold add_descendant. cbn [mapTx set_entries]. rewrite HMc. cbn [mbind option_bind]. rewrite (Hhash c e He), bool_decide_false by done.
  rewrite HMh. cbn [mbind option_bind]. unfold modify. cbn [mapTx set_entries]. rewrite HMc. cbn [mbind option_bind]. rewrite He'. cbn [mbind option_bind].
  eexists. split; [reflexivity|].
  assert (Hw1 : forall k, weight_at (mapTx pool2) k c = weight k e) by (intros k; unfold weight_at; by rewrite He).
  split; cbn [fst snd modifySize modifyFee modifyCount].
  - exists (<[c := e']> M'). split; [done|]. intros x. destruct (decide (x = c)) as [->|Hne].
    + rewrite lookup_insert_eq, decide_True by set_solver +. by rewrite He.
    + rewrite lookup_insert_ne, HM by done. destruct (decide (x ∈ X)) as [q1|q1], (decide (x ∈ {[c]} ∪ X)) as [q2|q2]; try done; set_solver +q1 q2 Hne.
  - intros p. destruct (decide (p = h)) as [->|Hne].
    + rewrite lookup_insert_eq, decide_True by (split; [done|set_solver +]). f_equal. rewrite Hc. destruct (decide (h = h /\ X <> ∅)) as [|Hno]; [done|].
      rewrite Hfresh. cbn. assert (X = ∅) as -> by (destruct (decide (X = ∅)); [done|tauto]). done.
    + rewrite lookup_insert_ne, Hc by done. rewrite !decide_False by tauto. done.
  - rewrite Hs, wrap_i64, sum_over_insert, Hw1 by done. cbn [weight]. f_equal. lia.
  - rewrite Hf, wrap_i64, sum_over_insert, Hw1 by done. cbn [weight]. f_equal. lia.
  - rewrite Hn, size_union, size_singleton by set_solver +Hx. lia.
Qed.

Lemma add_descendants_spec S : S ⊆ dom (mapTx pool2) -> (forall x, x ∈ S ∖ B -> is_Some (mapTx pool2 !! x ≫= tell)) ->
  exists st, each (add_descendant h B) (in_hash_order S) (pool2, cache, mkSums 0 0 0) = Some st /\ told (S ∖ B) st.
Proof using Hhash Hu Hh Hfresh.
  intros HS Hok. apply (each_set S (add_descendant h B) (fun R st => told (R ∖ B) st)).
  - assert ((∅ : setEntries) ∖ B = ∅) as -> by set_solver +. split; cbn [fst snd modifySize modifyFee modifyCount].
    + exists (mapTx pool2). split; [by destruct pool2|]. intros x. by rewrite decide_False by set_solver +.
    + intros p. by rewrite decide_False by tauto.
    + by rewrite sum_over_empty.
    + by rewrite sum_over_empty.
    + by rewrite size_empty.
  - intros R x st HR Hx Hn Ht. destruct (decide (x ∈ B)) as [HxB|HxB].
    + assert (({[x]} ∪ R) ∖ B = R ∖ B) as -> by set_solver +HxB. exists st. split; [|done]. pose proof (HS x Hx) as [e He]%elem_of_dom.
      destruct st as [[p1 ca] sm]. destruct Ht as [(M' & E1 & HM) _ _ _ _]. cbn [fst snd] in *. subst p1. unfold add_descendant. cbn [mapTx set_entries].
      assert (HMx : M' !! x = Some e) by (rewrite HM, decide_False; [done|set_solver +HxB]). rewrite HMx. cbn [mbind option_bind]. by rewrite (Hhash x e He), bool_decide_true.
    + assert (({[x]} ∪ R) ∖ B = {[x]} ∪ R ∖ B) as -> by set_solver +HxB. apply add_descendant_spec; [done|by apply HS|set_solver +Hn|done|set_solver +|]. apply Hok. set_solver +Hx HxB.
Qed.

End Tell.

(** ** One transaction of the block *)

Lemma ancestors_out t : t ∉ B -> ancestors pool t ## B.
Proof using Hw Hr.
  intros Ht. destruct (reach_remove_initial (par pool) (par pool) B t (ancestors pool t)) as [_ Hd]; try done.
  - intros z Hz. rewrite par_returned, decide_False by done. set_solver +.
  - apply ancestors_reach, (wf_closed _ Hw).
Qed.

Lemma descendants_in t : t ∈ B -> descendants pool t ⊆ B.
Proof using Hw Hr.
  intros Ht y Hy. apply (descendants_reach pool t (wf_closed _ Hw)) in Hy. apply (tc_closed (chi pool) B t y); [|done|done].
  intros z Hz. rewrite chi_returned, decide_True by done. set_solver +.
Qed.

Section Step.
Variables (h : uint256) (P : setEntries).
Hypothesis Hh : h ∈ B.
Hypothesis Hhd : h ∈ dom M.
Hypothesis HP : P ⊆ B.
Hypothesis HhP : h ∉ P.

(** The sets after the descendants were told, and before the entry itself is. *)
Definition midway s t : setEntries := match s with Anc => at_progress ({[h]} ∪ P) Anc t | Desc => at_progress P Desc t end.

Lemma midway_far x : x ∈ far h -> midway Anc x = {[h]} ∪ at_progress P Anc x /\ h ∉ at_progress P Anc x.
Proof using Hw Hr HP HhP Hh.
  intros Hx. pose proof (proj2 (proj1 (elem_of_far h x) Hx)) as HxB. cbn [midway at_progress]. rewrite !decide_False by done. split.
  - apply set_eq. intros y. rewrite !elem_of_union, !elem_of_filter, !elem_of_union, elem_of_singleton. naive_solver.
  - pose proof (ancestors_out x HxB) as Ho. rewrite elem_of_union, elem_of_filter. intros [Hin|[_ Hin]]; [set_solver +Ho Hin Hh|done].
Qed.

Lemma midway_other s x : s <> Anc \/ x ∉ far h -> midway s x = at_progress P s x.
Proof using.
  intros Ho. destruct s; [|done]. cbn [midway at_progress]. case_decide; [done|]. f_equal. apply set_eq. intros y.
  rewrite !elem_of_filter, elem_of_union, elem_of_singleton. destruct Ho as [|Ho]; [done|]. naive_solver.
Qed.

Lemma tell_totals M2 u : same_core M M2 -> totals M2 (at_progress P) -> M2 !! h = Some u -> let tell := UpdateAncestorState (nTxSize u) (GetModifiedFee u) 1 (sigOpCount u) in
  (forall x, x ∈ far h -> is_Some (M2 !! x ≫= tell)) /\
  forall M', (forall x, M' !! x = if decide (x ∈ far h) then M2 !! x ≫= tell else M2 !! x) ->
    same_core M2 M' /\ totals M' midway /\ (forall t, vTxHashesIdx <$> M' !! t = vTxHashesIdx <$> M2 !! t).
Proof using Hw Hr HP HhP Hh Hhd.
  intros Hc Ht Hu tell. pose proof (same_core_dom _ _ Hc) as Ed. pose proof (far_dom h) as Hfd.
  apply (update_totals_at Anc (far h) (fun k => weight k u) M2 (at_progress P) midway Ht).
  - by apply (same_core_sizes _ _ Hc), (wf_sizes _ Hw).
  - by apply (same_core_bounded _ _ Hc), (wf_bounded _ Hw).
  - by rewrite Ed.
  - intros x Hx. destruct (midway_far x Hx) as [E Hn]. destruct (totals_sets _ _ Ht Anc x) as [Hx1 Hx2]; [rewrite Ed; by apply Hfd|].
    assert (Hxh : x <> h) by (intros ->; by apply (proj2 (proj1 (elem_of_far h h) Hx))). rewrite E. split; [set_solver +Hx1 Hxh|]. split; [rewrite Ed in *; set_solver +Hx2 Hhd|].
    intros k _. rewrite sum_over_insert by done. f_equal. assert (weight_at M2 k h = weight k u) as -> by (unfold weight_at; by rewrite Hu). lia.
  - intros s x Ho. by apply midway_other.
Qed.

Lemma own_totals M3 (sm : descendant_sums) : same_core M M3 -> totals M3 midway -> modifySize sm = i64 (sum_over (weight_at M3 Size) (far h)) ->
  modifyFee sm = i64 (sum_over (weight_at M3 Fees) (far h)) -> modifyCount sm = Z.of_nat (size (far h)) ->
  let own := UpdateDescendantState (modifySize sm) (modifyFee sm) (modifyCount sm) in
  is_Some (M3 !! h ≫= own) /\ forall M', (forall x, M' !! x = if decide (x ∈ ({[h]} : setEntries)) then M3 !! x ≫= own else M3 !! x) ->
    same_core M3 M' /\ totals M' (at_progress ({[h]} ∪ P)) /\ (forall t, vTxHashesIdx <$> M' !! t = vTxHashesIdx <$> M3 !! t).
Proof using Hw Hr HP HhP Hh Hhd.
  intros Hc Ht E1 E2 E3 own. pose proof (same_core_dom _ _ Hc) as Ed. pose proof (far_dom h) as Hfd.
  assert (Hcount : sum_over (weight_at M3 Count) (far h) = Z.of_nat (size (far h))).
  { rewrite <- sum_over_one. apply sum_over_ext. intros y Hy. apply Hfd in Hy. rewrite <- Ed in Hy. apply elem_of_dom in Hy as [e He]. unfold weight_at. by rewrite He. }
  destruct (update_totals_at Desc {[h]} (fun k => match k with Size => modifySize sm | Fees => modifyFee sm | _ => modifyCount sm end) M3 midway (at_progress ({[h]} ∪ P)) Ht) as [Hok Hpost].
  - by apply (same_core_sizes _ _ Hc), (wf_sizes _ Hw).
  - by apply (same_core_bounded _ _ Hc), (wf_bounded _ Hw).
  - rewrite Ed. set_solver +Hhd.
  - intros x ->%elem_of_singleton. destruct (totals_sets _ _ Ht Desc h) as [Hx1 Hx2]; [by rewrite Ed|]. cbn [midway at_progress] in *.
    rewrite (decide_False (P := (h ∈ P))) in * by done. rewrite decide_True by set_solver +.
    assert (Hdis : descendants pool h ## far h) by (pose proof (descendants_in h Hh) as Hi; unfold far; set_solver +Hi).
    split; [unfold far; set_solver +Hx1 Hh|]. split; [rewrite Ed in *; set_solver +Hx2 Hfd|]. intros k [Hk|Hk]; [done|]. rewrite sum_over_union by done.
    destruct k; [by rewrite E3, Hcount|rewrite E1; apply (wrap_signed Size)|rewrite E2; apply (wrap_signed Fees)|done].
  - intros s x Ho. destruct s; [done|]. cbn [midway at_progress]. assert (H1 : x <> h) by (destruct Ho as [|Ho]; [done|set_solver +Ho]).
    destruct (decide (x ∈ P)) as [q1|q1], (decide (x ∈ {[h]} ∪ P)) as [q2|q2]; try done; set_solver +q1 q2 H1.
  - split; [apply (Hok h); set_solver +|]. intros M' HM. by apply Hpost.
Qed.

Hypothesis Hclosed : forall p, p ∈ {[h]} ∪ P -> full_chi pool p ∩ B ⊆ P.

(** What is reached from the entry is processed or outside the block. *)
Lemma reached_processed x : tc (edge (full_chi pool)) h x -> x ∈ P \/ x ∉ B.
Proof using Hclosed Hr.
  intros Ht. assert (Hstep : forall y z, y ∈ {[h]} ∪ P \/ y ∉ B -> z ∈ full_chi pool y -> z ∈ P \/ z ∉ B).
  { intros y z [Hy|Hy] Hz; [|right; intros Hin; by apply (full_chi_out y Hy z)]. destruct (decide (z ∈ B)) as [Hin|]; [left|by right]. apply (Hclosed y Hy). set_solver +Hz Hin. }
  apply tc_first in Ht as (c & Hc & Hp). assert (Hc' : c ∈ P \/ c ∉ B) by (apply (Hstep h); [left; set_solver +|done]). revert x Hp. apply rtc_ind_r; [done|].
  intros y z _ Hs IH. apply (Hstep y); [|exact Hs]. destruct IH as [Hy|Hy]; [left; set_solver +Hy|by right].
Qed.

Lemma linking_progress pool1 cache pool2 : progress P pool1 cache -> linking h pool1 (full_chi pool h) pool2 ->
  (forall t, par pool2 t = if decide (t ∈ B) then par pool t else par pool t ∪ full pool t ∩ ({[h]} ∪ P)) /\
  (forall x, chi pool2 x = if decide (x ∈ {[h]} ∪ P) then chi pool x ∪ full_chi pool x ∖ B else chi pool x).
Proof using HhP.
  intros [F1 P1 C1 T1 K1] [F2 M2 P2 C2]. split.
  - intros t. rewrite P2, P1. pose proof (full_sym pool h t) as Hs. destruct (decide (t ∈ B)) as [Ht|Ht]; [by rewrite decide_False by set_solver +Ht|].
    destruct (decide (t ∈ full_chi pool h ∖ B)) as [q|q]; set_solver +q Hs Ht.
  - intros x. rewrite C2, !C1. rewrite (decide_False (P := (h ∈ P))) by done. destruct (decide (x = h)) as [->|Hne]; [by rewrite decide_True by set_solver +|].
    destruct (decide (x ∈ P)) as [q1|q1], (decide (x ∈ {[h]} ∪ P)) as [q2|q2]; try done; set_solver +q1 q2 Hne.
Qed.

Lemma processed_chi p : p ∈ B -> chi pool p ∪ full_chi pool p ∖ B = full_chi pool p.
Proof using Hw Hr. intros Hp. rewrite chi_returned, decide_True by done. apply set_eq. intros y. destruct (decide (y ∈ B)) as [q|q]; set_solver +q. Qed.

Lemma update_from_block_spec pool1 cache : progress P pool1 cache ->
  exists pool' cache', update_from_block B h (pool1, cache) = Some (pool', cache') /\ progress ({[h]} ∪ P) pool' cache'.
Proof using All.
  intros Hpr. pose proof Hpr as [F1 P1 C1 T1 K1]. unfold update_from_block.
  assert (Hu : exists u, mapTx pool1 !! h = Some u) by (apply elem_of_dom; by rewrite (frame_dom _ _ F1)). destruct Hu as [u Hu]. rewrite Hu.
  destruct (link_children_spec h pool1 Hhd F1) as (pool2 & X & E2 & Hk). rewrite E2. cbn [mbind option_bind].
  destruct (linking_progress pool1 cache pool2 Hpr Hk) as [P2 C2]. pose proof (linking_entries _ _ _ _ Hk) as M2.
  pose proof (frame_trans _ _ _ F1 (linking_frame _ _ _ _ Hk)) as F2. rewrite <- M2 in Hu, T1.
  assert (Hd2 : dom (mapLinks pool2) = dom M) by (rewrite (frame_links _ _ F2); apply (links_dom _ (wf_closed _ Hw))).
  assert (Hchi2 : forall x, x ∈ {[h]} ∪ P \/ x ∉ B -> chi pool2 x = full_chi pool x).
  { intros x Hx. rewrite C2. case_decide as Hin; [apply processed_chi; set_solver +Hin HP Hh|]. destruct Hx as [|Hx]; [done|]. by rewrite chi_returned, decide_False. }
  unfold UpdateForDescendants. rewrite GetMemPoolChildren_chi by (by rewrite Hd2). cbn [mbind option_bind]. rewrite (Hchi2 h) by (left; set_solver +).
  destruct (descend_loop_spec h pool2 cache Hd2) with (fuel := size (mapTx pool2)) (Q := (∅ : setEntries)) (stage := full_chi pool h) (all := (∅ : setEntries)) as (S & -> & HS & HSd).
  { intros x Hx. apply Hchi2. destruct (reached_processed x Hx) as [Hy|Hy]; [left; set_solver +Hy|by right]. }
  { intros p Y Ec. rewrite K1 in Ec. case_decide as Hc; [|done]. injection Ec as <-. split; [apply HP; tauto|done]. }
  { rewrite difference_empty_L, <- !size_dom, (frame_dom _ _ F2). done. }
  { split; [set_solver +|set_solver +| |intros c Hc; by left|intros x c Hx; set_solver +Hx]. intros x Hx. apply tc_once. unfold edge. set_solver +Hx. }
  cbn [mbind option_bind].
  destruct (tell_totals (mapTx pool2) u (frame_core _ _ F2) T1 Hu) as [Hok Hpost].
  destruct (add_descendants_spec h pool2 cache u) with (S := S) as ([[pool3 cache3] sm] & E3 & Ht3).
  { intros t e He. destruct (same_core_lookup _ _ _ _ (frame_core _ _ F2) He) as (e0 & He0 & Ec). rewrite <- (core_tx _ _ Ec). by apply (wf_hash _ Hw). }
  { done. } { done. } { rewrite K1, decide_False; [done|tauto]. } { by rewrite (frame_dom _ _ F2). } { rewrite HS. exact Hok. }
  rewrite E3. cbn [mbind option_bind]. rewrite HS in Ht3. destruct Ht3 as [(M3 & Ep3 & HM3) Hcache3 Hsz Hfee Hcnt]. cbn [fst snd] in *. subst pool3.
  destruct (Hpost M3 HM3) as (Hc3 & T3 & I3). pose proof (frame_entries pool2 M3 Hc3 I3) as F3. pose proof (frame_trans _ _ _ F2 F3) as F23.
  destruct (own_totals M3 sm (frame_core _ _ F23) T3) as [[u' Hu'] Hpost4].
  { by rewrite (same_core_sum _ _ _ _ Hc3). } { by rewrite (same_core_sum _ _ _ _ Hc3). } { done. }
  destruct (M3 !! h) as [u3|] eqn:Eu3; [|done]. cbn [mbind option_bind] in Hu'.
  assert (Em : modify h (UpdateDescendantState (modifySize sm) (modifyFee sm) (modifyCount sm)) (set_entries pool2 M3) = Some (set_entries (set_entries pool2 M3) (<[h := u']> M3))).
  { unfold modify. cbn [mapTx set_entries]. rewrite Eu3. cbn [mbind option_bind]. by rewrite Hu'. }
  rewrite Em. cbn [mbind option_bind]. eexists _, _. split; [reflexivity|].
  destruct (Hpost4 (<[h := u']> M3)) as (Hc4 & T4 & I4).
  { intros x. destruct (decide (x = h)) as [->|Hne]; [rewrite lookup_insert_eq, decide_True, Eu3 by set_solver +; done|]. rewrite lookup_insert_ne, decide_False by set_solver +Hne. done. }
  pose proof (frame_entries (set_entries pool2 M3) (<[h := u']> M3) Hc4 I4) as F4. split.
  - by eapply frame_trans.
  - exact P2.
  - exact C2.
  - exact T4.
  - intros p. rewrite Hcache3, K1. destruct (decide (p = h)) as [->|Hne].
    + destruct (decide (far h = ∅)) as [Ef|Ef]; [rewrite !decide_False by tauto; done|]. rewrite !decide_True by (split; [set_solver +|done]). done.
    + rewrite (decide_False (P := (p = h /\ _))) by tauto. destruct (decide (p ∈ P /\ far p <> ∅)) as [q1|q1], (decide (p ∈ {[h]} ∪ P /\ far p <> ∅)) as [q2|q2]; try done; set_solver +q1 q2 Hne.
Qed.

End Step.

(** ** The whole block *)

Lemma from_block_loop l2 : forall l1, l = l1 ++ l2 -> exists pool' cache', each (update_from_block B) (reverse l2) (pool, ∅) = Some (pool', cache') /\
  progress (list_to_set l2 ∩ dom M) pool' cache'.
Proof using Hw Hr.
  induction l2 as [|h l2 IH]; intros l1 El.
  - exists pool, ∅. split; [done|]. assert (list_to_set [] ∩ dom M = (∅ : setEntries)) as -> by set_solver +. apply progress_start.
  - destruct (IH (l1 ++ [h])) as (pool1 & cache1 & E & Hpr); [by rewrite <- app_assoc|]. rewrite reverse_cons, each_app, E. cbn [mbind option_bind each].
    assert (HhB : h ∈ B) by (rewrite El; set_solver +). assert (Hnd : h ∉ l2).
    { pose proof (returned_nodup _ _ Hr) as Hn. rewrite El in Hn. apply list.NoDup_app in Hn as (_ & _ & Hn). by apply list.NoDup_cons in Hn as [? _]. }
    destruct (decide (h ∈ dom M)) as [Hhd|Hhd].
    + destruct (update_from_block_spec h (list_to_set l2 ∩ dom M) HhB Hhd) with (pool1 := pool1) (cache := cache1) as (pool2 & cache2 & E2 & Hpr2); [| | |done|].
      * rewrite El. set_solver +.
      * set_solver +Hnd.
      * intros p Hp c Hc. apply elem_of_intersection in Hc as [Hc HcB]. apply elem_of_intersection. split; [|by apply (full_chi_dom pool p)].
        apply full_sym in Hc. rewrite elem_of_list_to_set in HcB. apply elem_of_list_to_set.
        apply elem_of_union in Hp as [->%elem_of_singleton|Hp]; [by apply (returned_order _ _ Hr l1 h)|].
        apply elem_of_intersection in Hp as [(la & lb & Hl2)%elem_of_list_to_set%list_elem_of_split _].
        assert (Hlb : c ∈ lb) by (apply (returned_order _ _ Hr (l1 ++ h :: la) p); [by rewrite El, Hl2, <- app_assoc|done|done]). rewrite Hl2. set_solver +Hlb.
      * rewrite E2. exists pool2, cache2. split; [done|]. replace (list_to_set (h :: l2) ∩ dom M) with ({[h]} ∪ list_to_set l2 ∩ dom M); [done|]. set_solver +Hhd.
    + assert (E0 : mapTx pool1 !! h = None) by (apply not_elem_of_dom; by rewrite (frame_dom _ _ (progress_frame _ _ _ Hpr))).
      unfold update_from_block. rewrite E0. cbn [mbind option_bind]. exists pool1, cache1. split; [done|].
      replace (list_to_set (h :: l2) ∩ dom M) with (list_to_set l2 ∩ dom M : setEntries); [done|]. set_solver +Hhd.
Qed.

(** Paths within the block, and paths outside. *)
Lemma path_in x y : x ∈ B -> tc (edge (full pool)) x y -> tc (edge (par pool)) x y /\ y ∈ B.
Proof using Hw Hr.
  intros Hx Ht. induction Ht as [x y Hs|x y z Hs Ht IH]; (assert (Hy : y ∈ B) by (by apply (full_in x Hx)));
    (assert (Hs' : edge (par pool) x y) by (unfold edge; by rewrite par_returned, decide_True)).
  - split; [by apply tc_once|done].
  - destruct (IH Hy). split; [by eapply tc_l|done].
Qed.

Lemma path_out x y : y ∉ B -> tc (edge (full pool)) x y -> tc (edge (par pool)) x y /\ x ∉ B.
Proof using Hw Hr.
  intros Hy Ht. assert (Hx : forall a b, b ∉ B -> b ∈ full pool a -> a ∉ B /\ b ∈ par pool a).
  { intros a b Hb Hab. assert (Ha : a ∉ B) by (intros Ha; by apply Hb, (full_in a Ha)). split; [done|]. rewrite par_returned, decide_False by done. set_solver +Hab Hb. }
  induction Ht as [x y Hs|x y z Hs Ht IH].
  - destruct (Hx x y Hy Hs). split; [by apply tc_once|done].
  - destruct (IH Hy) as [Ht' HyB]. destruct (Hx x y HyB Hs) as [HxB Hxy]. split; [by eapply tc_l|done].
Qed.

Lemma full_acyclic : acyclic (full pool).
Proof using Hw Hr.
  intros x Ht. apply (wf_acyclic _ Hw x). destruct (decide (x ∈ B)) as [Hx|Hx]; [by apply path_in|by apply path_out].
Qed.

Lemma full_tc x y : tc (edge (full_chi pool)) x y <-> tc (edge (full pool)) y x.
Proof using. apply tc_transpose. intros a b. apply full_sym. Qed.

Lemma par_full x y : tc (edge (par pool)) x y -> tc (edge (full pool)) x y.
Proof using Hw Hr. apply tc_edge_mono. intros z. rewrite par_returned. case_decide; set_solver +. Qed.

(** At the end the totals are over all ancestors and descendants. *)
Lemma progress_sets s t : t ∈ dom M -> forall y, y ∈ at_progress (B ∩ dom M) s t <-> match s with Anc => tc (edge (full pool)) t y | Desc => tc (edge (full pool)) y t end.
Proof using Hw Hr.
  intros Ht y. pose proof (wf_closed _ Hw) as Hlc. destruct s; cbn [at_progress].
  - destruct (decide (t ∈ B)) as [HtB|HtB].
    + rewrite (ancestors_reach pool t Hlc y). split; [by apply par_full|intros Hy; by apply path_in].
    + rewrite elem_of_union, (ancestors_reach pool t Hlc y), elem_of_filter, elem_of_far, full_tc. split.
      * intros [Hy|[[Hy _] _]]; [by apply par_full|done].
      * intros Hy. destruct (decide (y ∈ B)) as [HyB|HyB]; [right|left; by apply path_out].
        split; [done|]. apply elem_of_intersection. split; [done|]. exact (reach_dom (full_dom pool) Hy).
  - assert (Hd : y ∈ descendants pool t <-> tc (edge (par pool)) y t) by (rewrite (descendants_reach pool t Hlc y); apply tc_chi_par, (wf_links _ Hw)).
    destruct (decide (t ∈ B ∩ dom M)) as [HtB|HtB].
    + rewrite elem_of_union, elem_of_far, full_tc, Hd. split; [intros [Hy|[Hy _]]; [by apply par_full|done]|]. intros Hy.
      destruct (decide (y ∈ B)) as [HyB|HyB]; [left; by apply path_in|by right].
    + rewrite Hd. split; [by apply par_full|]. intros Hy. apply path_out; [set_solver +HtB Ht|done].
Qed.

Lemma progress_links pool' cache : progress (B ∩ dom M) pool' cache -> (forall t, par pool' t = full pool t) /\ (forall x, chi pool' x = full_chi pool x).
Proof using Hw Hr.
  intros [F P1 C1 T K]. split.
  - intros t. rewrite P1, par_returned. pose proof (full_dom pool t) as Hd. destruct (decide (t ∈ B)) as [Ht|Ht]; [done|]. apply set_eq. intros y. destruct (decide (y ∈ B)) as [q|q]; set_solver +q Hd.
  - intros x. rewrite C1. destruct (decide (x ∈ B ∩ dom M)) as [Hx|Hx]; [apply processed_chi; set_solver +Hx|]. rewrite chi_returned. case_decide as HxB; [|done].
    assert (E : full_chi pool x = ∅); [|rewrite E; set_solver +]. apply set_eq. intros c. split; [|set_solver +]. intros Hc%full_sym. apply full_dom in Hc. set_solver +Hc Hx HxB.
Qed.

Lemma returned_wf pool' cache : progress (B ∩ dom M) pool' cache -> wf pool' /\ linked pool' /\ frame pool pool'.
Proof using Hw Hr.
  intros Hpr. destruct (progress_links pool' cache Hpr) as [Hp Hc]. pose proof Hpr as [F _ _ T _]. pose proof (frame_dom _ _ F) as Ed.
  assert (Hlook : forall t e', mapTx pool' !! t = Some e' -> exists e, mapTx pool !! t = Some e /\ entry_tx e' = entry_tx e /\ vTxHashesIdx e' = vTxHashesIdx e).
  { intros t e' He'. destruct (same_core_lookup _ _ _ _ (frame_core _ _ F) He') as (e & He & Ec). exists e. split; [done|]. split; [by apply core_tx|].
    pose proof (frame_index _ _ F t) as Ei. rewrite He, He' in Ei. change (Some (vTxHashesIdx e') = Some (vTxHashesIdx e)) in Ei. congruence. }
  assert (Hlook' : forall t e, mapTx pool !! t = Some e -> exists e', mapTx pool' !! t = Some e' /\ entry_tx e' = entry_tx e /\ vTxHashesIdx e' = vTxHashesIdx e).
  { intros t e He. assert (Hin : t ∈ dom (mapTx pool')) by (rewrite Ed; apply elem_of_dom; eauto). apply elem_of_dom in Hin as [e' He']. exists e'.
    destruct (Hlook t e' He') as (e0 & He0 & E1 & E2). assert (e0 = e) as -> by congruence. done. }
  assert (Hl : links_ok pool') by (split; [rewrite (frame_links _ _ F), Ed; apply (links_dom _ (wf_closed _ Hw))|intros p c; rewrite Hp, Hc; apply full_sym]).
  assert (Hlinked : linked pool').
  { apply full_linked. intros t Ht. rewrite Hp. unfold full. apply elem_of_dom in Ht as [e' He']. destruct (Hlook t e' He') as (e & He & E1 & _). rewrite He, He'. cbn. rewrite E1.
    apply set_eq. intros q. by rewrite !elem_of_pool_parents, Ed. }
  split; [|done]. split.
  - intros t e' He'. destruct (Hlook t e' He') as (e & He & -> & _). by apply (wf_hash _ Hw).
  - apply (frame_sizes _ _ F), (wf_sizes _ Hw).
  - apply (frame_bounded _ _ F), (wf_bounded _ Hw).
  - done.
  - intros x Ht. apply (full_acyclic x). revert Ht. apply tc_edge_mono. intros z. by rewrite Hp.
  - intros t e' He'. rewrite Hlinked with (e := e') by done. unfold pool_parents. intros q Hq. by apply elem_of_filter in Hq as [_ ?].
  - assert (Es : forall s t, t ∈ dom (mapTx pool') -> sets pool' s t = at_progress (B ∩ dom M) s t).
    { intros s t Ht. rewrite Ed in Ht. apply set_eq. intros y. rewrite (progress_sets s t Ht y). pose proof (links_ok_closed _ Hl) as Hlc. destruct s; cbn [sets].
      - rewrite (ancestors_reach pool' t Hlc y). split; apply tc_edge_mono; intros z; by rewrite Hp.
      - rewrite (descendants_reach pool' t Hlc y), <- full_tc. split; apply tc_edge_mono; intros z; by rewrite Hc. }
    split.
    + intros s t e k Hk He. rewrite Es by (apply elem_of_dom; eauto). by apply (totals_sum _ _ T).
    + intros s t Ht. rewrite Es by done. by apply (totals_sets _ _ T).
  - intros o t. rewrite (frame_next _ _ F), (wf_next _ Hw o t). split; intros (e & He & Ho).
    + destruct (Hlook' t e He) as (e' & He' & Et & _). exists e'. by rewrite Et.
    + destruct (Hlook t e He) as (e' & He' & Et & _). exists e'. by rewrite <- Et.
  - intros t e' He'. destruct (Hlook t e' He') as (e & He & _ & ->). rewrite (frame_hashes _ _ F). by apply (wf_index _ Hw).
  - intros i q Hq. rewrite (frame_hashes _ _ F) in Hq. destruct (wf_hashes _ Hw i q Hq) as (t & e & -> & He & Ei). destruct (Hlook' t e He) as (e' & He' & _ & Ei').
    exists t, e'. split; [done|]. split; [done|congruence].
  - rewrite (frame_size _ _ F), Ed, (same_core_sum _ _ _ _ (frame_core _ _ F)). apply (wf_size _ Hw).
  - apply (frame_usage _ _ F), (wf_usage _ Hw).
Qed.

Lemma UpdateTransactionsFromBlock_returned : exists pool', UpdateTransactionsFromBlock l pool = Some pool' /\ wf pool' /\ linked pool' /\ frame pool pool'.
Proof using Hw Hr.
  unfold UpdateTransactionsFromBlock. destruct (from_block_loop l [] eq_refl) as (pool' & cache & E & Hpr). rewrite E. cbn [mbind option_bind].
  exists pool'. split; [done|]. by apply (returned_wf pool' cache).
Qed.

End FromBlock.
(** ** The return of the transactions *)

Lemma returned_nil pool : linked pool -> returned [] pool.
Proof.
  intros Hl. split; [constructor|..].
  - intros t Ht. rewrite decide_False by apply not_elem_of_nil. rewrite (proj1 (full_linked pool) Hl t Ht). set_solver +.
  - intros t Ht. by apply elem_of_nil in Ht.
  - intros l1 h l2 E. by destruct l1.
Qed.

(** A transaction that may return after those of [v]. *)
Record returning (v : list uint256) pool e : Prop := mkReturning {
  returning_acceptable : acceptable pool e;
  returning_fresh : GetHash (entry_tx e) ∉ v;
  returning_parents : pool_parents pool (entry_tx e) ⊆ list_to_set v;
  returning_order t e0 : t ∈ v -> mapTx pool !! t = Some e0 -> GetHash (entry_tx e) ∉ setParentTransactions (entry_tx e0)
}.

Lemma without_full pool S pool' t : without pool S pool' -> full pool' t = if decide (t ∈ S) then ∅ else full pool t ∖ S.
Proof.
  intros Hwo. unfold full. pose proof (without_entries _ _ _ Hwo t) as E. case_decide as Ht.
  - by destruct (mapTx pool' !! t).
  - destruct (mapTx pool' !! t) as [e'|], (mapTx pool !! t) as [e|]; try done; cbn; [|set_solver +]. change (Some (core e') = Some (core e)) in E. apply (inj Some) in E.
    rewrite (core_tx _ _ E). apply set_eq. intros q. rewrite elem_of_difference, !elem_of_pool_parents, (without_dom _ _ _ Hwo). set_solver +.
Qed.

Lemma without_returned v pool S pool' : without pool S pool' -> returned v pool -> returned v pool'.
Proof.
  intros Hwo [R1 R2 R3 R4]. pose proof (fun t => without_full pool S pool' t Hwo) as Hf.
  assert (Hsub : forall t, full pool' t ⊆ full pool t) by (intros t; rewrite Hf; case_decide; set_solver +). split.
  - done.
  - intros t Ht. rewrite (without_dom _ _ _ Hwo) in Ht. apply elem_of_difference in Ht as [Ht HtS]. rewrite (without_par _ _ _ Hwo t HtS), (R2 t Ht), Hf.
    rewrite (decide_False (P := (t ∈ S))) by done. case_decide; [done|]. set_solver +.
  - intros t Ht. etrans; [apply Hsub|by apply R3].
  - intros l1 h l2 E c Hc Hh. apply (R4 l1 h l2 E c Hc). by apply Hsub.
Qed.

Lemma with_entry_full pool e pool' t : acceptable pool e -> with_entry pool e pool' ->
  full pool' t = if decide (t = GetHash (entry_tx e)) then pool_parents pool (entry_tx e)
                 else full pool t ∪ from_option (fun e0 => {[GetHash (entry_tx e)]} ∩ setParentTransactions (entry_tx e0)) ∅ (mapTx pool !! t).
Proof.
  intros Ha Hwe. destruct Hwe as [(e6 & He6 & Hc6) Hold Hg _]. pose proof (grown_dom _ _ _ Hg) as Ed.
  assert (Hpp : forall tx, pool_parents pool' tx = pool_parents pool tx ∪ {[GetHash (entry_tx e)]} ∩ setParentTransactions tx).
  { intros tx. assert (Hq : forall q, q ∈ setParentTransactions tx <-> exists i, i ∈ vin tx /\ hash (prevout i) = q).
    { intros q. unfold setParentTransactions. rewrite elem_of_list_to_set, list_elem_of_fmap. naive_solver. }
    apply set_eq. intros q. rewrite elem_of_union, elem_of_intersection, !elem_of_pool_parents, <- !Hq, Ed. set_solver +. }
  unfold full. case_decide as Ht.
  - subst t. rewrite He6. cbn. rewrite (f_equal entry_tx Hc6 : entry_tx e6 = entry_tx e), Hpp. pose proof (acceptable_self _ _ Ha) as Hs. set_solver +Hs.
  - specialize (Hold t Ht). destruct (mapTx pool' !! t) as [e'|], (mapTx pool !! t) as [e0|]; try done; cbn.
    change (Some (core e') = Some (core e0)) in Hold. apply (inj Some) in Hold. by rewrite (core_tx _ _ Hold), Hpp.
Qed.

Lemma list_snoc_split {A : Type} (v l1 l2 : list A) (x h : A) : v ++ [h] = l1 ++ x :: l2 -> (l2 = [] /\ x = h /\ l1 = v) \/ exists w : list A, l2 = w ++ [h] /\ v = l1 ++ x :: w.
Proof.
  intros E. destruct l2 as [|y l2 _] using rev_ind.
  - left. apply app_inj_tail in E as [-> ->]. done.
  - right. exists l2. rewrite app_comm_cons, app_assoc in E. apply app_inj_tail in E as [-> ->]. done.
Qed.

Lemma with_entry_returned v pool e pool' : wf pool -> returned v pool -> returning v pool e -> with_entry pool e pool' -> returned (v ++ [GetHash (entry_tx e)]) pool'.
Proof.
  intros Hw [R1 R2 R3 R4] [Ha Hfr Hpa Hor] Hwe. set (h := GetHash (entry_tx e)) in *. pose proof (fun t => with_entry_full pool e pool' t Ha Hwe) as Hf. fold h in Hf.
  destruct Hwe as [_ _ Hg _]. pose proof (acceptable_fresh _ _ Ha) as Hhd. fold h in Hhd.
  assert (Hnh : h ∉ pool_parents pool (entry_tx e)) by (intros [Hin _]%elem_of_pool_parents; done).
  assert (Hin : forall t, t ∈ v -> t <> h /\ full pool' t = full pool t).
  { intros t Ht. assert (Hne : t <> h) by congruence. split; [done|]. rewrite Hf, decide_False by done. destruct (mapTx pool !! t) as [e0|] eqn:E0; cbn; [|set_solver +].
    pose proof (Hor t e0 Ht E0) as Hno. set_solver +Hno. }
  assert (Hh : full pool' h = pool_parents pool (entry_tx e)) by (by rewrite Hf, decide_True). split.
  - apply list.NoDup_app. split; [done|]. split; [|apply NoDup_singleton]. intros x Hx ->%list_elem_of_singleton. done.
  - intros t Ht. rewrite (grown_par _ _ _ Hg). fold h. rewrite (grown_dom _ _ _ Hg) in Ht. fold h in Ht. destruct (decide (t = h)) as [->|Hne].
    + rewrite decide_True by set_solver +. by rewrite Hh.
    + rewrite (R2 t) by set_solver +Ht Hne. destruct (decide (t ∈ v)) as [Htv|Htv].
      * rewrite decide_True by set_solver +Htv. by rewrite (proj2 (Hin t Htv)).
      * rewrite decide_False by set_solver +Htv Hne. rewrite Hf, decide_False by done. pose proof (full_dom pool t) as Hd.
        assert (Hht : h ∉ full pool t) by (intros Hx; by apply Hhd, Hd). destruct (mapTx pool !! t) as [e0|]; cbn; set_solver +Hht.
  - intros t [Ht|Ht]%elem_of_app.
    + rewrite (proj2 (Hin t Ht)). etrans; [by apply R3|]. set_solver +.
    + apply list_elem_of_singleton in Ht as ->. rewrite Hh. set_solver +Hpa.
  - intros l1 x l2 E c Hc Hx. destruct (list_snoc_split v l1 l2 x h E) as [(-> & -> & ->)|(l2' & -> & Ev)].
    + exfalso. apply elem_of_app in Hc as [Hc|Hc].
      * rewrite (proj2 (Hin c Hc)) in Hx. by apply Hhd, (full_dom pool c).
      * apply list_elem_of_singleton in Hc as ->. by rewrite Hh in Hx.
    + apply elem_of_app in Hc as [Hc|Hc]; [|set_solver +Hc]. rewrite (proj2 (Hin c Hc)) in Hx. pose proof (R4 l1 x l2' Ev c Hc Hx) as Hc'. set_solver +Hc'.
Qed.

End WithEnv.
End MemPoolReorg.
