(* ===== verification/MemPoolSafety.v ===== *)
(** * The memory pool as a whole

    The operations of the pool in any order: none of them fails an assertion,
    and each of them keeps the pool sound.  The file also states
    what the limits on ancestors, the arrival of a block, the limit on the memory
    and a change of priority do. *)

From stdpp Require Import base relations list list_numbers gmap fin_sets sorting numbers option.
From Stdlib Require Import ZArith Lia.
From S2P Require Import Prelude Serialize Script Transaction Interpreter InterpreterSafety Chain Coins Ledger TxVerify TxGraph MemPool MemPoolLocks MemPoolInv MemPoolOps MemPoolAdd MemPoolSteps MemPoolFees MemPoolReorg.

Local Open Scope Z_scope.

Module MemPoolSafety.
Import Serialize Script Transaction Interpreter Ledger TxGraph MemPool MemPoolLocks MemPoolInv MemPoolOps MemPoolAdd MemPoolSteps MemPoolFees MemPoolReorg.

Section WithEnv.
Context {CR : Crypto} {PE : PoolEnv} {PR : TxVerify.Protocols}.
Implicit Types (pool : CTxMemPool) (e : CTxMemPoolEntry) (it t x h : uint256) (X S : setEntries) (s : side) (M : entries) (tx : CTransaction).

(** ** Outputs and totals *)

(** An output of a transaction of the pool that exists and is not null. *)
Definition has_output pool (o : COutPoint) : Prop := forall e, mapTx pool !! hash o = Some e ->
  exists out, vout (entry_tx e) !! Z.to_nat (n o) = Some out /\ CTxOut_IsNull out = false.

(** Inputs that spend transactions of the pool spend outputs that exist. *)
Definition funded pool : Prop := forall t e o, mapTx pool !! t = Some e -> o ∈ prevouts (entry_tx e) -> has_output pool o.

Lemma linked_entry_ancestors pool t e : wf pool -> linked pool -> mapTx pool !! t = Some e -> entry_ancestors pool (entry_tx e) = ancestors pool t.
Proof.
  intros Hw Hl He. pose proof (wf_closed _ Hw) as Hlc. apply set_eq. intros y. rewrite elem_of_entry_ancestors, (ancestors_reach pool t Hlc y), <- reach_from_neighbours by done.
  by rewrite <- (Hl t e He).
Qed.

(** The loops over sets that add up a field. *)
Lemma foldl_weight M (f : CTxMemPoolEntry -> Z) X a : foldl (fun acc h => acc + from_option f 0 (M !! h)) a (in_hash_order X) = a + sum_over (fun h => from_option f 0 (M !! h)) X.
Proof.
  apply (foldl_set X _ (fun R acc => acc = a + sum_over (fun h => from_option f 0 (M !! h)) R)).
  - rewrite sum_over_empty. lia.
  - intros R x acc _ _ Hx ->. rewrite sum_over_insert by done. lia.
Qed.

Lemma children_check pool t : wf pool -> linked pool -> t ∈ dom (mapTx pool) -> list_to_set (spent_outputs pool t).*2 = chi pool t.
Proof.
  intros Hw Hl Ht. apply set_eq. intros c. rewrite elem_of_list_to_set, list_elem_of_fmap, (links_sym _ (wf_links _ Hw)).
  unfold spent_outputs. split.
  - intros ([o c'] & -> & Hin). rewrite merge_sort_Permutation in Hin. apply list_elem_of_filter in Hin as [Ho Hin]. apply elem_of_map_to_list in Hin. cbn [fst snd] in *.
    apply (wf_next _ Hw) in Hin as (e & He & Hp). rewrite (Hl c' e He). apply elem_of_pool_parents. split; [done|]. apply list_elem_of_fmap in Hp as (i & -> & Hi). by exists i.
  - intros Hc. assert (Hd : c ∈ dom (mapTx pool)).
    { destruct (decide (c ∈ dom (mapTx pool))) as [|Hout]; [done|]. rewrite (proj1 (outside_par pool c (wf_closed _ Hw) Hout)) in Hc. set_solver +Hc. }
    apply elem_of_dom in Hd as [e He]. rewrite (Hl c e He) in Hc. apply elem_of_pool_parents in Hc as (_ & i & Hi & Hh).
    exists (prevout i, c). split; [done|]. rewrite merge_sort_Permutation. apply list_elem_of_filter. split; [done|]. apply elem_of_map_to_list, (wf_next _ Hw).
    exists e. split; [done|]. apply list_elem_of_fmap. by exists i.
Qed.

Lemma foldr_map_to_list {A} (m : gmap uint256 A) (f : A -> Z) : foldr (fun p acc => f p.2 + acc) 0 (map_to_list m) = sum_over (fun h => from_option f 0 (m !! h)) (dom m).
Proof.
  induction m as [|k v m Hm IH] using map_ind; [by rewrite map_to_list_empty, dom_empty_L, sum_over_empty|].
  rewrite (foldr_sum_perm (fun p : uint256 * A => f p.2) _ ((k, v) :: map_to_list m)) by by apply map_to_list_insert.
  cbn [foldr snd]. rewrite IH, dom_insert_L, sum_over_insert by (by apply not_elem_of_dom). rewrite lookup_insert_eq. cbn [from_option]. f_equal.
  apply sum_over_ext. intros x Hx. rewrite lookup_insert_ne; [done|]. intros <-. by apply not_elem_of_dom in Hm.
Qed.

Lemma count_sum M X : X ⊆ dom M -> sum_over (weight_at M Count) X = Z.of_nat (size X).
Proof.
  intros HX. rewrite <- sum_over_one. apply sum_over_ext. intros y Hy. apply HX, elem_of_dom in Hy as [e He]. unfold weight_at. by rewrite He.
Qed.

(** The totals of the ancestors that [check] adds up. *)
Lemma check_ancestor_sums pool t e : wf pool -> mapTx pool !! t = Some e ->
  let w f := foldl (fun acc h => acc + from_option f 0 (mapTx pool !! h)) in
  let l := in_hash_order (ancestors pool t) in
  nCountWithAncestors e = u64 (Z.of_nat (size (ancestors pool t)) + 1) /\ nSizeWithAncestors e = u64 (w nTxSize (nTxSize e) l) /\
  nSigOpCountWithAncestors e = u32 (w sigOpCount (sigOpCount e) l) /\ nModFeesWithAncestors e = i64 (w GetModifiedFee (GetModifiedFee e) l).
Proof.
  intros Hw He w l. unfold w, l. rewrite !foldl_weight.
  pose proof (totals_sum _ _ (wf_totals _ Hw) Anc t e) as Hsum. cbn [sets] in Hsum. repeat split.
  - rewrite <- (count_sum (mapTx pool)) by apply ancestors_dom, (wf_closed _ Hw). rewrite Z.add_comm. by apply (Hsum Count); [left|].
  - by apply (Hsum Size); [left|].
  - by apply (Hsum SigOps); [left|].
  - by apply (Hsum Fees); [left|].
Qed.

(** The bound on the size of the children. *)
Lemma check_child_sizes pool t e : wf pool -> mapTx pool !! t = Some e ->
  u64 (foldl (fun acc h => acc + from_option nTxSize 0 (mapTx pool !! h)) 0 (in_hash_order (chi pool t)) + nTxSize e) <= nSizeWithDescendants e.
Proof.
  intros Hw He. rewrite foldl_weight. change (sum_over _ _) with (sum_over (weight_at (mapTx pool) Size) (chi pool t)).
  assert (Ht : t ∈ dom (mapTx pool)) by (apply elem_of_dom; eauto). destruct (totals_sets _ _ (wf_totals _ Hw) Desc t Ht) as [Hn Hsub].
  pose proof (totals_sum _ _ (wf_totals _ Hw) Desc t e Size ltac:(by right) He) as E. cbn [total wrap weight sets] in *. rewrite E.
  pose proof (node_bound _ Size t e _ (wf_sizes _ Hw) ltac:(done) He Hn Hsub) as Hb. destruct (wf_bounded _ Hw) as (_ & Hbs & _), (wf_sizes _ Hw t e He).
  cbn [weight sets] in Hb. rewrite (u64_small (nTxSize e + _)) by lia.
  assert (Hc : sum_over (weight_at (mapTx pool) Size) (chi pool t) <= sum_over (weight_at (mapTx pool) Size) (descendants pool t)); [|pose proof (sum_over_nonneg (weight_at (mapTx pool) Size) (chi pool t) (fun y _ => weight_nonneg _ Size y (wf_sizes _ Hw) ltac:(done))); rewrite u64_small; lia].
  apply sum_over_subset; [|intros y _; by apply weight_nonneg; [apply (wf_sizes _ Hw)|]].
  intros c Hc. apply (descendants_reach pool t (wf_closed _ Hw)). by apply tc_once.
Qed.

(** ** What every operation keeps *)

Record sound pool : Prop := mkSound {
  sound_wf : wf pool;
  sound_linked : linked pool;
  sound_prioritised : prioritised pool;
  sound_funded : funded pool
}.

(** Pools whose entries have the transactions of another's. *)
Definition same_txs_within pool pool' : Prop := forall t e', mapTx pool' !! t = Some e' -> exists e, mapTx pool !! t = Some e /\ entry_tx e' = entry_tx e.

Lemma funded_within pool pool' : same_txs_within pool pool' -> funded pool -> funded pool'.
Proof.
  intros Hs Hf t e' o He' Ho e2' He2'. destruct (Hs t e' He') as (e & He & Et), (Hs _ e2' He2') as (e2 & He2 & Et2).
  rewrite Et in Ho. destruct (Hf t e o He Ho e2 He2) as (out & Hout & Hnull). exists out. by rewrite Et2.
Qed.

Lemma shrunk_sound pool G pool' : sound pool -> shrunk pool G pool' -> sound pool'.
Proof.
  intros [Hw Hl Hp Hf] Hs. split; [apply (shrunk_wf _ _ _ Hs)|by apply (shrunk_linked _ _ _ Hs)|by apply (shrunk_prioritised _ _ _ Hs)|].
  apply (funded_within pool); [|done]. intros t e' He'. destruct (shrunk_entry _ _ _ _ _ Hs He') as (e & He & Ec). exists e. split; [done|]. by apply core_tx.
Qed.

Lemma without_sound pool S pool' : sound pool -> wf pool' -> without pool S pool' -> sound pool'.
Proof. intros Hs Hw' Hwo. eapply shrunk_sound; [exact Hs|]. by apply (without_shrunk _ S); [apply sound_wf|..]. Qed.

(** A transaction that may be offered to the pool: its inputs exist, and nothing
    in the pool spends its outputs yet. *)
Record offered pool e : Prop := mkOffered {
  offered_acceptable : acceptable pool e;
  offered_first t e0 : mapTx pool !! t = Some e0 -> GetHash (entry_tx e) ∉ setParentTransactions (entry_tx e0);
  offered_funded o : o ∈ prevouts (entry_tx e) -> has_output pool o
}.

Lemma prevouts_parents tx o : o ∈ prevouts tx -> hash o ∈ setParentTransactions tx.
Proof. intros (i & -> & Hi)%list_elem_of_fmap. unfold setParentTransactions. apply elem_of_list_to_set, list_elem_of_fmap. by exists i. Qed.

(** What an output of a returning transaction must offer to entries that spend it. *)
Definition pays_children pool e : Prop := forall t e0 o, mapTx pool !! t = Some e0 -> o ∈ prevouts (entry_tx e0) -> hash o = GetHash (entry_tx e) ->
  exists out, vout (entry_tx e) !! Z.to_nat (n o) = Some out /\ CTxOut_IsNull out = false.

Lemma with_entry_lookup pool e pool' t e' : with_entry pool e pool' -> mapTx pool' !! t = Some e' ->
  if decide (t = GetHash (entry_tx e)) then core e' = core (with_delta e (default 0 (mapDeltas pool !! t)) 0 0)
  else exists e0, mapTx pool !! t = Some e0 /\ core e' = core e0.
Proof.
  intros Hwe He'. case_decide as Ht.
  - subst t. destruct (with_entry_new _ _ _ Hwe) as (e6 & He6 & Hc6). congruence.
  - pose proof (with_entry_old _ _ _ Hwe t Ht) as E. rewrite He' in E. destruct (mapTx pool !! t) as [e0|]; [|done]. exists e0. split; [done|].
    change (Some (core e') = Some (core e0)) in E. congruence.
Qed.

Lemma with_entry_prioritised pool e pool' : with_entry pool e pool' -> prioritised pool -> prioritised pool'.
Proof.
  intros Hwe Hp t e' He'. rewrite (with_entry_deltas _ _ _ Hwe). pose proof (with_entry_lookup _ _ _ _ _ Hwe He') as Hc. case_decide as Ht.
  - exact (f_equal feeDelta Hc).
  - destruct Hc as (e0 & He0 & Hc). rewrite <- (Hp t e0 He0). exact (f_equal feeDelta Hc).
Qed.

Lemma with_entry_tx pool e pool' t e' : with_entry pool e pool' -> mapTx pool' !! t = Some e' ->
  (t = GetHash (entry_tx e) /\ entry_tx e' = entry_tx e) \/ (t <> GetHash (entry_tx e) /\ exists e0, mapTx pool !! t = Some e0 /\ entry_tx e' = entry_tx e0).
Proof.
  intros Hwe He'. pose proof (with_entry_lookup _ _ _ _ _ Hwe He') as Hc. case_decide as Ht.
  - left. split; [done|]. exact (f_equal entry_tx Hc).
  - right. split; [done|]. destruct Hc as (e0 & He0 & Hc). exists e0. split; [done|]. by apply core_tx.
Qed.

Lemma with_entry_funded pool e pool' : acceptable pool e -> with_entry pool e pool' -> funded pool -> (forall o, o ∈ prevouts (entry_tx e) -> has_output pool o) ->
  pays_children pool e -> funded pool'.
Proof.
  intros Ha Hwe Hf Hfu Hpay t e' o He' Ho e2' He2'. destruct (with_entry_tx _ _ _ _ _ Hwe He2') as [[E2 Et2]|(_ & e2 & He2 & Et2)]; rewrite Et2.
  - destruct (with_entry_tx _ _ _ _ _ Hwe He') as [[_ Et]|(_ & e0 & He0 & Et)]; rewrite Et in Ho; [|by apply (Hpay t e0)].
    exfalso. apply (acceptable_self _ _ Ha). rewrite <- E2. by apply prevouts_parents.
  - destruct (with_entry_tx _ _ _ _ _ Hwe He') as [[_ Et]|(_ & e0 & He0 & Et)]; rewrite Et in Ho; [by apply (Hfu o)|by apply (Hf t e0)].
Qed.

Lemma with_entry_sound pool e pool' : sound pool -> offered pool e -> wf pool' -> with_entry pool e pool' -> sound pool'.
Proof.
  intros [Hw Hl Hp Hf] [Ha Hno Hfu] Hw' Hwe. split; [done|by apply (with_entry_linked pool e)|by eapply with_entry_prioritised|].
  apply (with_entry_funded pool e); try done. intros t e0 o He0 Ho Eo. exfalso. apply (Hno t e0 He0). rewrite <- Eo. by apply prevouts_parents.
Qed.

Lemma repriced_sound pool pool' df ds : sound pool -> wf pool' -> prioritised pool' -> mapLinks pool' = mapLinks pool ->
  all_repriced df ds (mapTx pool) (mapTx pool') -> sound pool'.
Proof.
  intros [Hw Hl Hp Hf] Hw' Hp' El Ha. pose proof (all_repriced_labels _ _ _ _ Ha) as Hla. pose proof (same_labels_dom _ _ Hla) as Ed.
  assert (Htx : same_txs_within pool pool').
  { intros t e' He'. destruct (same_labels_lookup _ _ _ _ Hla He') as (e & He & E). exists e. split; [done|]. by injection E. }
  split; [done| |done|by apply (funded_within pool)].
  intros t e' He'. destruct (Htx t e' He') as (e & He & ->). replace (par pool' t) with (par pool t) by (unfold par, links_at; by rewrite El).
  rewrite (Hl t e He). apply set_eq. intros q. by rewrite !elem_of_pool_parents, Ed.
Qed.

(** ** After a reorganisation *)

(** What [removeForReorg] relies on: a well-formed block index with an active
    chain, whose coins are not above its tip; the blocks that lock points name are in
    the index; and its assertion: while the pool is checked, the coins of inputs from
    outside the pool are unspent in the view. *)
Record reorg_view_ok (rv : reorg_view) pool : Prop := mkReorgViewOk {
  rvo_node : exists tip bt, node_view_ok rv tip bt;
  rvo_blocks t e p : mapTx pool !! t = Some e -> maxInputBlock (lockPoints e) = Some p -> is_Some (rv_index rv !! p);
  rvo_coins t e i : mapTx pool !! t = Some e -> i ∈ vin (entry_tx e) -> hash (prevout i) ∉ dom (mapTx pool) ->
    nCheckFrequency pool = 0 \/ Coins.IsSpent (view_AccessCoin rv (prevout i)) = false
}.

(** An input from outside the pool whose coin is gone or not yet mature. *)
Definition immature (rv : reorg_view) (height : Z) pool (i : CTxIn) : bool :=
  let coin := view_AccessCoin rv (prevout i) in
  bool_decide (hash (prevout i) ∉ dom (mapTx pool)) &&
  (Coins.IsSpent coin || (Coins.coin_fCoinBase coin && (height - Coins.coin_nHeight coin <? COINBASE_MATURITY))).

(** The transaction is final in the next block, and its relative locks hold there:
    by its lock points when they are still valid, else by the heights of its coins. *)
Definition reorg_final (rv : reorg_view) pool e : bool :=
  match TestLockPointValidity rv (lockPoints e), CheckFinalTx rv (entry_tx e) with
  | Some validLP, Some true =>
      match CheckSequenceLocks rv pool (entry_tx e) (lockPoints e) validLP with Some (ok, _) => ok | None => false end
  | _, _ => false
  end.

(** The entries that can no longer be in the next block. *)
Definition reorg_lost (rv : reorg_view) (height : Z) pool e : bool :=
  negb (reorg_final rv pool e) || (spendsCoinbase e && existsb (immature rv height pool) (vin (entry_tx e))).

Lemma spends_immature_spec rv height pool l : (forall i, i ∈ l -> hash (prevout i) ∉ dom (mapTx pool) -> nCheckFrequency pool = 0 \/ Coins.IsSpent (view_AccessCoin rv (prevout i)) = false) ->
  spends_immature rv height pool l = Some (existsb (immature rv height pool) l).
Proof.
  induction l as [|i l IH]; intros Hok; cbn [spends_immature existsb]; [done|].
  assert (Hok' : forall j, j ∈ l -> hash (prevout j) ∉ dom (mapTx pool) -> nCheckFrequency pool = 0 \/ Coins.IsSpent (view_AccessCoin rv (prevout j)) = false).
  { intros j Hj. apply Hok. by right. }
  unfold immature at 1. destruct (mapTx pool !! hash (prevout i)) as [e|] eqn:Ee.
  - rewrite bool_decide_false by (intros Hn; apply Hn, elem_of_dom; eauto). cbn [andb orb]. by apply IH.
  - apply not_elem_of_dom in Ee. rewrite bool_decide_true by done. cbn [andb]. destruct (Hok i ltac:(set_solver +) Ee) as [->|Hs].
    + cbn [Z.eqb negb andb]. destruct (_ || _); [done|]. by apply IH.
    + rewrite Hs. rewrite andb_false_r. cbn [orb]. destruct (_ && _); [done|]. by apply IH.
Qed.

Abbreviation unpriced := (all_repriced (fun _ => 0) (fun _ _ => 0)).

Lemma immature_same rv height pool pool' i : dom (mapTx pool') = dom (mapTx pool) -> immature rv height pool' i = immature rv height pool i.
Proof. intros Ed. unfold immature. by rewrite Ed. Qed.

Lemma relock_repriced e lp : fits e -> repriced 0 (fun _ => 0) e (with_lock_points e lp).
Proof. intros Hf. destruct (repriced_refl e Hf) as [R1 R2 R4 R5]. split; [done|exact R2|by intros [] []|]. intros []; [exact (R5 Anc)|exact (R5 Desc)]. Qed.

Lemma unpriced_refl M : (forall t e, M !! t = Some e -> fits e) -> unpriced M M.
Proof. intros Hf t. destruct (M !! t) as [e|] eqn:E; constructor. apply repriced_refl. by apply (Hf t). Qed.

Lemma unpriced_trans M1 M2 M3 : unpriced M1 M2 -> unpriced M2 M3 -> unpriced M1 M3.
Proof. intros H1 H2. eapply all_repriced_ext; [| |exact (all_repriced_trans _ _ _ _ _ _ _ H1 H2)]; done. Qed.

(** The pool's transactions are part of the labels. *)
Lemma same_labels_get pool M1 x : same_labels (mapTx pool) M1 -> get (set_entries pool M1) x = get pool x.
Proof.
  intros Hl. unfold get. cbn [mapTx set_entries]. destruct (M1 !! x) as [e1|] eqn:E1.
  - destruct (same_labels_lookup _ _ _ _ Hl E1) as (e & -> & E). cbn. f_equal. by injection E.
  - pose proof (same_labels_dom _ _ Hl) as Ed. assert (Hn : x ∉ dom (mapTx pool)) by (rewrite <- Ed; by apply not_elem_of_dom).
    apply not_elem_of_dom in Hn. by rewrite Hn.
Qed.

(** One entry changes only its lock points. *)
Lemma reorg_entry_spec rv height pool M1 R t e : wf pool -> reorg_view_ok rv pool -> mapTx pool !! t = Some e -> unpriced (mapTx pool) M1 ->
  exists M2, reorg_entry rv height (t, e) (set_entries pool M1, R) = Some (set_entries pool M2, if reorg_lost rv height pool e then {[t]} ∪ R else R) /\
    unpriced (mapTx pool) M2 /\ (forall x, feeDelta <$> M2 !! x = feeDelta <$> M1 !! x).
Proof.
  intros Hw Hok He Hu. pose proof (all_repriced_labels _ _ _ _ Hu) as Hl. pose proof (same_labels_dom _ _ Hl) as Ed. unfold reorg_entry.
  destruct (rvo_node _ _ Hok) as (tip & bt & Hnv).
  destruct (TestLockPointValidity_total rv tip bt Hnv (lockPoints e) (fun p => rvo_blocks _ _ Hok t e p He)) as [valid Evalid].
  destruct (CheckFinalTx_total rv tip bt Hnv (entry_tx e)) as [fin Efin].
  assert (Hf : exists lp, (if fin then CheckSequenceLocks rv (set_entries pool M1) (entry_tx e) (lockPoints e) valid else Some (false, lockPoints e)) =
    Some (reorg_final rv pool e, lp)).
  { unfold reorg_final. rewrite Evalid, Efin. destruct fin; [|by eexists]. rewrite (CheckSequenceLocks_same rv pool).
    - destruct (CheckSequenceLocks_total rv tip bt Hnv pool (entry_tx e) (lockPoints e) valid) as [[ok lp] ->]. by exists lp.
    - intros x. by apply same_labels_get. }
  destruct Hf as [lp Hlp]. rewrite Evalid. cbn [mbind option_bind]. rewrite Efin. cbn [mbind option_bind]. rewrite Hlp. cbn [mbind option_bind].
  replace (if negb (reorg_final rv pool e) then Some true else if spendsCoinbase e then spends_immature rv height (set_entries pool M1) (vin (entry_tx e)) else Some false)
    with (Some (reorg_lost rv height pool e)).
  2: { unfold reorg_lost. destruct (reorg_final rv pool e), (spendsCoinbase e); cbn [negb orb andb]; try done. rewrite spends_immature_spec.
       - f_equal. induction (vin (entry_tx e)) as [|i l IH]; cbn [existsb]; [done|]. by rewrite (immature_same rv height pool (set_entries pool M1) i Ed), IH.
       - intros i Hi Hout. apply (rvo_coins _ _ Hok t e i He Hi). by rewrite <- Ed. }
  cbn [mbind option_bind]. destruct valid.
  - cbn [mbind option_bind]. exists M1. done.
  - assert (Hin : t ∈ dom M1) by (rewrite Ed; apply elem_of_dom; eauto). apply elem_of_dom in Hin as [e1 He1].
    unfold modify. cbn [mapTx set_entries]. rewrite He1. cbn [mbind option_bind]. eexists. split; [reflexivity|]. split.
    + eapply unpriced_trans; [exact Hu|]. intros x. destruct (decide (x = t)) as [->|Hne].
      * rewrite lookup_insert_eq, He1. constructor. apply relock_repriced. apply (fits_all _ _ _ _ Hu) with t; [|done]. intros x0 e0. by apply wf_fits.
      * rewrite lookup_insert_ne by done. apply unpriced_refl. apply (fits_all _ _ _ _ Hu). intros x0 e0. by apply wf_fits.
    + intros x. destruct (decide (x = t)) as [->|Hne]; [by rewrite lookup_insert_eq, He1|by rewrite lookup_insert_ne].
Qed.

Lemma reorg_loop_spec rv height pool l : wf pool -> reorg_view_ok rv pool -> (forall t e, (t, e) ∈ l -> mapTx pool !! t = Some e) -> forall M1 R, unpriced (mapTx pool) M1 ->
  exists M2 R', each (reorg_entry rv height) l (set_entries pool M1, R) = Some (set_entries pool M2, R') /\
    unpriced (mapTx pool) M2 /\ (forall x, feeDelta <$> M2 !! x = feeDelta <$> M1 !! x) /\
    (forall x, x ∈ R' <-> x ∈ R \/ exists e, (x, e) ∈ l /\ reorg_lost rv height pool e = true).
Proof.
  intros Hw Hok. induction l as [|[t e] l IH]; intros Hl M1 R Hu; cbn [each].
  - exists M1, R. do 3 (split; [done|]). intros x. split; [by left|]. intros [|(e & He & _)]; [done|]. by apply elem_of_nil in He.
  - destruct (reorg_entry_spec rv height pool M1 R t e Hw Hok (Hl t e ltac:(set_solver +)) Hu) as (M2 & -> & Hu2 & Hd2). cbn [mbind option_bind].
    destruct (IH (fun t e He => Hl t e (list_elem_of_further _ _ _ He)) M2 (if reorg_lost rv height pool e then {[t]} ∪ R else R) Hu2) as (M3 & R' & -> & Hu3 & Hd3 & HR).
    exists M3, R'. do 2 (split; [done|]). split; [intros x; by rewrite Hd3|]. intros x. rewrite HR. split.
    + destruct (reorg_lost rv height pool e) eqn:El.
      * intros [[->%elem_of_singleton|]%elem_of_union|(e' & He' & Hlo)]; [right; exists e; split; [by left|done]|by left|right; exists e'; split; [by right|done]].
      * intros [|(e' & He' & Hlo)]; [by left|right; exists e'; split; [by right|done]].
    + intros [Hx|(e' & [E|He']%elem_of_cons & Hlo)].
      * left. destruct (reorg_lost rv height pool e); set_solver +Hx.
      * injection E as <- <-. left. rewrite Hlo. set_solver +.
      * right. by exists e'.
Qed.

Lemma unpriced_totals pool M' : wf pool -> unpriced (mapTx pool) M' -> totals M' (sets pool).
Proof.
  intros Hw Hu. destruct (decide (dom (mapTx pool) = ∅)) as [E|(h & Hh)%set_choose_L].
  - pose proof (same_labels_dom _ _ (all_repriced_labels _ _ _ _ Hu)) as Ed. rewrite E in Ed. split; [|rewrite Ed; set_solver +].
    intros s t e k _ He. apply elem_of_dom_2 in He. rewrite Ed in He. set_solver +He.
  - apply (totals_repriced pool h 0 M' Hw Hh). eapply all_repriced_ext; [| |exact Hu]; intros; unfold own_fee, counted_fee; by case_decide.
Qed.

Definition reorg_expelled (rv : reorg_view) (height : Z) pool t : Prop :=
  exists x e, mapTx pool !! x = Some e /\ reorg_lost rv height pool e = true /\ rtc (edge (chi pool)) x t.

Lemma removeForReorg_spec rv height pool : sound pool -> reorg_view_ok rv pool -> exists pool', removeForReorg rv height pool = Some pool' /\ sound pool' /\
  forall t, t ∈ dom (mapTx pool') <-> t ∈ dom (mapTx pool) /\ ~ reorg_expelled rv height pool t.
Proof.
  intros Hs Hok. pose proof (sound_wf _ Hs) as Hw. unfold removeForReorg.
  destruct (reorg_loop_spec rv height pool (map_to_list (mapTx pool)) Hw Hok) with (M1 := mapTx pool) (R := (∅ : setEntries)) as (M2 & R & E & Hu & Hd & HR).
  { intros t e He. by apply elem_of_map_to_list. } { apply unpriced_refl. intros t e. by apply wf_fits. }
  replace (set_entries pool (mapTx pool)) with pool in E by by destruct pool. rewrite E. cbn [mbind option_bind]. set (pool1 := set_entries pool M2) in *.
  assert (Hw1 : wf pool1) by (apply (wf_relabel pool); try done; [by apply (all_repriced_labels _ _ _ _ Hu)|by apply unpriced_totals]).
  assert (Hs1 : sound pool1).
  { eapply (repriced_sound pool pool1); [done|done| |done|exact Hu]. intros t e' He'. specialize (Hd t). change (M2 !! t = Some e') in He'. rewrite He' in Hd.
    destruct (mapTx pool !! t) as [e|] eqn:Ee; [|done]. change (Some (feeDelta e') = Some (feeDelta e)) in Hd. change (mapDeltas pool1) with (mapDeltas pool).
    rewrite <- (sound_prioritised _ Hs t e Ee). congruence. }
  assert (Ed : dom M2 = dom (mapTx pool)) by apply (same_labels_dom _ _ (all_repriced_labels _ _ _ _ Hu)).
  assert (HR' : forall x, x ∈ R <-> exists e, mapTx pool !! x = Some e /\ reorg_lost rv height pool e = true).
  { intros x. rewrite HR. setoid_rewrite elem_of_map_to_list. set_solver +. }
  destruct (all_descendants_spec pool1 R (wf_closed _ Hw1)) as (Y & -> & HY & HYd & HYc).
  { change (mapTx pool1) with M2. rewrite Ed. intros x (e & He & _)%HR'. apply elem_of_dom. eauto. }
  cbn [mbind option_bind]. destruct (remove_closed pool1 Y REORG Hw1 HYd HYc) as (pool' & -> & Hw' & Hwo). exists pool'. split; [done|].
  split; [by apply (without_sound pool1 Y)|]. intros t. rewrite (without_dom _ _ _ Hwo), elem_of_difference. change (mapTx pool1) with M2. rewrite Ed.
  assert (Ht : t ∈ Y <-> reorg_expelled rv height pool t); [|tauto]. rewrite HY. unfold reorg_expelled. change (chi pool1) with (chi pool). setoid_rewrite HR'. naive_solver.
Qed.

(** ** After a disconnected block *)

(** A pool to which the transactions [v] of a block have returned. *)
Record nearly_sound (v : list uint256) pool : Prop := mkNearly {
  nearly_wf : wf pool;
  nearly_returned : returned v pool;
  nearly_prioritised : prioritised pool;
  nearly_funded : funded pool
}.

(** Blocks whose transactions can return: accepted transactions are new to the
    pool, with all their parents in the pool among those that returned before. *)
Fixpoint resurrectable (vtx : list (CTransaction * option (CTxMemPoolEntry * bool))) (v : list uint256) pool : Prop :=
  match vtx with
  | [] => True
  | (tx, None) :: vtx => forall pool', removeRecursive tx REORG pool = Some pool' -> resurrectable vtx v pool'
  | (tx, Some (e, est)) :: vtx =>
      entry_tx e = tx /\ returning v pool e /\ (forall o, o ∈ prevouts tx -> has_output pool o) /\ pays_children pool e /\
      forall pool', addUnchecked (GetHash tx) e est pool = Some pool' -> resurrectable vtx (v ++ [GetHash tx]) pool'
  end.

Lemma resurrect_loop_spec vtx : forall v pool, nearly_sound v pool -> resurrectable vtx v pool ->
  exists pool' v', each resurrect_tx vtx (pool, v) = Some (pool', v') /\ nearly_sound v' pool'.
Proof.
  induction vtx as [|[tx [[e est]|]] vtx IH]; intros v pool [Hw Hr Hp Hf] Hok; cbn [each resurrectable resurrect_tx] in *; [by exists pool, v| |].
  - destruct Hok as (<- & Hre & Hfu & Hpay & Hnext). pose proof (returning_acceptable _ _ _ Hre) as Ha.
    destruct (addUnchecked_spec pool e est Hw Ha) as (pool1 & E & Hw1 & Hwe). rewrite E. cbn [mbind option_bind].
    assert (Hex : exists_tx pool1 (GetHash (entry_tx e)) = true) by (apply bool_decide_eq_true_2; destruct (with_entry_new _ _ _ Hwe) as (e6 & -> & _); by eexists).
    rewrite Hex. apply IH; [|by apply Hnext]. split; [done|by apply (with_entry_returned v pool e)|by apply (with_entry_prioritised pool e)|by apply (with_entry_funded pool e)].
  - destruct (removeRecursive_spec pool tx REORG Hw) as (S & pool1 & E & Hw1 & Hwo & _). rewrite E. cbn [mbind option_bind]. apply IH; [|by apply Hok].
    split; [done|by apply (without_returned v pool S)|by apply (without_prioritised pool S)|]. apply (funded_within pool); [|done]. intros t e' He'.
    destruct (without_entry _ _ _ _ _ Hwo He') as (_ & e & He & Ec). exists e. split; [done|]. by apply core_tx.
Qed.

Lemma resurrect_spec vtx pool : sound pool -> resurrectable vtx [] pool -> exists pool', resurrect vtx pool = Some pool' /\ sound pool'.
Proof.
  intros [Hw Hl Hp Hf] Hok. unfold resurrect. destruct (resurrect_loop_spec vtx [] pool) as (pool1 & v & -> & [Hw1 Hr1 Hp1 Hf1]); [split; [done|by apply returned_nil|done..]|done|].
  cbn [mbind option_bind]. destruct (UpdateTransactionsFromBlock_returned pool1 v Hw1 Hr1) as (pool2 & -> & Hw2 & Hl2 & F). exists pool2. split; [done|].
  assert (Hlook : forall t e', mapTx pool2 !! t = Some e' -> exists e, mapTx pool1 !! t = Some e /\ core e' = core e).
  { intros t e' He'. destruct (same_core_lookup _ _ _ _ (frame_core _ _ F) He') as (e & He & Ec). by exists e. }
  split; [done|done|..].
  - intros t e' He'. destruct (Hlook t e' He') as (e & He & Ec). rewrite (frame_deltas _ _ F), <- (Hp1 t e He). exact (f_equal feeDelta Ec).
  - apply (funded_within pool1); [|done]. intros t e' He'. destruct (Hlook t e' He') as (e & He & Ec). exists e. split; [done|]. by apply core_tx.
Qed.

(** ** The operations in any order *)

Inductive pool_op : Type :=
  | OpAdd (e : CTxMemPoolEntry) (estimate : bool)
  | OpRemove (tx : CTransaction) (reason : MemPoolRemovalReason)
  | OpConflicts (tx : CTransaction)
  | OpBlock (vtx : list CTransaction) (height now : Z)
  | OpDisconnect (vtx : list (CTransaction * option (CTxMemPoolEntry * bool)))
  | OpReorg (rv : reorg_view) (height : Z)
  | OpExpire (locked : uint256 -> bool) (time : Z)
  | OpTrim (worst : CTxMemPool -> uint256) (incremental limit : Z)
  | OpPrioritise (h : uint256) (delta : Z)
  | OpMinFee (incremental now limit : Z).

Definition run (op : pool_op) pool : option CTxMemPool :=
  match op with
  | OpAdd e estimate => addUnchecked (GetHash (entry_tx e)) e estimate pool
  | OpRemove tx reason => removeRecursive tx reason pool
  | OpConflicts tx => removeConflicts tx pool
  | OpBlock vtx height now => removeForBlock vtx height now pool
  | OpDisconnect vtx => resurrect vtx pool
  | OpReorg rv height => removeForReorg rv height pool
  | OpExpire locked time => fst <$> Expire locked time pool
  | OpTrim worst incremental limit => (fun r => r.1.1.1) <$> TrimToSize worst incremental limit pool
  | OpPrioritise h delta => PrioritiseTransaction h delta pool
  | OpMinFee incremental now limit => snd <$> GetMinFee incremental now limit pool
  end.

(** The first entry of an index is in the pool. *)
Definition picks_entry (worst : CTxMemPool -> uint256) : Prop := forall pool, mapTx pool <> ∅ -> worst pool ∈ dom (mapTx pool).

(** What the callers provide. *)
Definition allowed (op : pool_op) pool : Prop :=
  match op with
  | OpAdd e _ => offered pool e
  | OpBlock vtx _ _ => block_order vtx pool
  | OpDisconnect vtx => resurrectable vtx [] pool
  | OpReorg rv _ => reorg_view_ok rv pool
  | OpTrim worst _ _ => picks_entry worst
  | _ => True
  end.

Fixpoint permitted (ops : list pool_op) pool : Prop :=
  match ops with
  | [] => True
  | op :: ops => allowed op pool /\ forall pool', run op pool = Some pool' -> permitted ops pool'
  end.

Lemma rolling_sound pool update bump rate : sound pool -> sound (set_rolling pool update bump rate).
Proof. intros [Hw Hl Hp Hf]. split; try done. by apply (wf_ext pool). Qed.

Lemma TrimToSize_spec worst incremental limit pool : wf pool -> picks_entry worst ->
  exists pool' n rate outs, TrimToSize worst incremental limit pool = Some (pool', n, rate, outs) /\
    shrunk pool (fun _ => True) pool' /\ (mapTx pool' = ∅ \/ DynamicMemoryUsage pool' <= limit).
Proof. intros Hw Hp. unfold TrimToSize. by apply trim_loop_spec. Qed.

Lemma GetMinFee_sound incremental now limit pool : sound pool -> exists fee pool', GetMinFee incremental now limit pool = Some (fee, pool') /\ sound pool'.
Proof.
  intros Hs. unfold GetMinFee. destruct (_ || _); [by eexists _, _|]. destruct (_ <? now); [|by eexists _, _].
  assert (Hfee : exists perK, GetFee incremental 1000 = Some perK) by (unfold GetFee; eexists; reflexivity). destruct Hfee as [perK ->]. cbn [mbind option_bind].
  destruct (d_ltb _ _); (eexists _, _; split; [reflexivity|]; by apply rolling_sound).
Qed.

Lemma run_sound op pool : sound pool -> allowed op pool -> exists pool', run op pool = Some pool' /\ sound pool'.
Proof.
  intros Hs Ha. pose proof (sound_wf _ Hs) as Hw. destruct op as [e est|tx reason|tx|vtx height now|vtx|rv height|locked time|worst inc limit|h d|inc now limit]; cbn [run allowed] in *.
  - destruct (addUnchecked_spec pool e est Hw (offered_acceptable _ _ Ha)) as (pool' & -> & Hw' & Hwe). exists pool'. split; [done|]. by apply (with_entry_sound pool e).
  - destruct (removeRecursive_spec pool tx reason Hw) as (S & pool' & -> & Hw' & Hwo & _). exists pool'. split; [done|]. by apply (without_sound pool S).
  - destruct (removeConflicts_spec tx pool Hw) as (pool' & -> & Hsh & _). exists pool'. split; [done|]. by eapply shrunk_sound.
  - destruct (removeForBlock_spec vtx height now pool Hw Ha) as (pool' & -> & Hsh & _). exists pool'. split; [done|]. by eapply shrunk_sound.
  - destruct (resurrect_spec vtx pool Hs Ha) as (pool' & -> & Hs'). by exists pool'.
  - destruct (removeForReorg_spec rv height pool Hs Ha) as (pool' & -> & Hs' & _). by exists pool'.
  - destruct (Expire_spec locked time pool Hw) as (S & pool' & -> & Hw' & Hwo & _). exists pool'. split; [done|]. by apply (without_sound pool S).
  - destruct (TrimToSize_spec worst inc limit pool Hw Ha) as (pool' & n & rate & outs & -> & Hsh & _). exists pool'. split; [done|]. by eapply shrunk_sound.
  - destruct (PrioritiseTransaction_spec h d pool Hw (sound_prioritised _ Hs)) as (pool' & -> & Hw' & Hp' & _ & El & Hr). exists pool'. split; [done|]. by eapply repriced_sound.
  - destruct (GetMinFee_sound inc now limit pool Hs) as (fee & pool' & -> & Hs'). by exists pool'.
Qed.

Lemma new_pool_sound fee now : sound (new_pool fee now).
Proof.
  assert (Hm : forall t, mapTx (new_pool fee now) !! t = None) by (intros t; apply lookup_empty).
  assert (Hd : dom (mapTx (new_pool fee now)) = ∅) by apply dom_empty_L.
  assert (Hp : forall t, par (new_pool fee now) t = ∅) by (intros t; unfold par, links_at; cbn; by rewrite lookup_empty).
  assert (Hc : forall t, chi (new_pool fee now) t = ∅) by (intros t; unfold chi, links_at; cbn; by rewrite lookup_empty).
  assert (Hno : forall (P : Prop) t e, mapTx (new_pool fee now) !! t = Some e -> P) by (intros P t e He; by rewrite Hm in He).
  split; [split|..]; try (intros t e He; by apply (Hno _ t e)).
  - unfold bounded. rewrite Hd, !sum_over_empty. lia.
  - split; [done|]. intros p c. rewrite Hp, Hc. set_solver +.
  - intros x Ht. apply tc_first in Ht as (y & Hy & _). unfold edge in Hy. rewrite Hp in Hy. set_solver +Hy.
  - split; [intros s t e k _ He; by apply (Hno _ t e)|]. intros s t Ht. rewrite Hd in Ht. set_solver +Ht.
  - intros o t. split; [intros Hn; change ((∅ : gmap COutPoint uint256) !! o = Some t) in Hn; by rewrite lookup_empty in Hn|]. intros (e & He & _). by apply (Hno _ t e).
  - intros i p Hi. done.
  - rewrite Hd, sum_over_empty. done.
  - unfold usage_ok, inner_usage. rewrite Hd, sum_over_empty. change (mapLinks (new_pool fee now)) with (∅ : gmap uint256 TxLinks). rewrite dom_empty_L, sum_over_empty. done.
  - intros t e o He. by apply (Hno _ t e).
Qed.

(** Any sequence of permitted operations. *)
Lemma run_all_sound ops : forall pool, sound pool -> permitted ops pool -> exists pool', each run ops pool = Some pool' /\ sound pool'.
Proof.
  induction ops as [|op ops IH]; intros pool Hs Hp; cbn [each permitted] in *; [by exists pool|]. destruct Hp as [Ha Hp].
  destruct (run_sound op pool Hs Ha) as (pool1 & E & Hs1). rewrite E. cbn [mbind option_bind]. apply IH; [done|]. by apply Hp.
Qed.

(** ** Theorems *)

(** A parent of the transaction in the pool, or an ancestor of one. *)
Definition unconfirmed_ancestor pool tx y : Prop := exists p, p ∈ pool_parents pool tx /\ rtc (edge (par pool)) p y.

(** C18: the limits on unconfirmed chains are exact. For a transaction that is not
    yet in a well-formed pool, [CalculateMemPoolAncestors] finds, when it succeeds,
    exactly the parents of the transaction in the pool and their ancestors; it
    succeeds if and only if there are none of them or they respect the limits on the
    number and the size of the ancestors, and those on the number and the size of
    the descendants of each of them. It always returns. *)
Theorem ancestor_limits_exact pool entry lim : wf pool -> 0 <= nTxSize entry < 2 ^ 63 ->
  let X := entry_ancestors pool (entry_tx entry) in
  (forall y, y ∈ X <-> unconfirmed_ancestor pool (entry_tx entry) y) /\
  exists err Y, CalculateMemPoolAncestors pool entry ∅ lim true = Some (err, Y) /\
    (err = None -> Y = X) /\ (err = None <-> X = ∅ \/ within lim (mapTx pool) (nTxSize entry) X).
Proof.
  intros Hw Hsz X. split; [intros y; apply elem_of_entry_ancestors, (wf_closed _ Hw)|].
  pose proof (totals_readable pool _ _ (wf_totals _ Hw) (wf_sizes _ Hw) (wf_bounded _ Hw) Hsz) as Hr.
  destruct (search_for_ancestors pool entry lim (wf_closed _ Hw) Hr) as (err & Y & E & HY). fold X in HY. exists err, Y. split; [done|].
  destruct err as [r|]; [|tauto]. split; [done|]. split; [done|]. intros [Hx|Hx]; tauto.
Qed.

(** C19: a connected block is taken out of the pool completely. For a block whose
    transactions come after their parents in the pool, [removeForBlock] succeeds;
    afterwards the pool contains no transaction of the block and no transaction
    that spends an input of one of them, it still passes its invariant, and an
    entry is gone only if it was in the block or descends from a transaction that
    conflicts with the block. Every other entry is kept as it was, up to its
    totals. *)
Theorem block_leaves_no_conflicts vtx height now pool : sound pool -> block_order vtx pool ->
  exists pool', removeForBlock vtx height now pool = Some pool' /\ sound pool' /\
    (forall tx, tx ∈ vtx -> GetHash tx ∉ dom (mapTx pool') /\ forall t e o, mapTx pool' !! t = Some e -> o ∈ prevouts (entry_tx e) -> o ∉ prevouts tx) /\
    (forall t, core <$> mapTx pool' !! t = core <$> mapTx pool !! t \/ (mapTx pool' !! t = None /\ lost_to_block vtx pool t)).
Proof.
  intros Hs Hord. destruct (removeForBlock_spec vtx height now pool (sound_wf _ Hs) Hord) as (pool' & E & Hsh & Hg). exists pool'. split; [done|].
  pose proof (shrunk_sound _ _ _ Hs Hsh) as Hs'. split; [done|]. split; [|apply (shrunk_entries _ _ _ Hsh)].
  intros tx Htx. destruct (Hg tx Htx) as [Hd Hn]. split; [done|]. intros t e o He Ho Ho'. specialize (Hn o Ho').
  assert (mapNextTx pool' !! o = Some t) by (apply (wf_next _ (sound_wf _ Hs')); by exists e). congruence.
Qed.

(** C20: [TrimToSize] ends, within one round for each entry, and leaves either an
    empty pool or one within the limit on the memory; the pool stays sound, and
    what it keeps is unchanged up to the totals. *)
Theorem TrimToSize_bounds_memory worst incremental limit pool : sound pool -> picks_entry worst ->
  exists pool' n rate outs, TrimToSize worst incremental limit pool = Some (pool', n, rate, outs) /\ sound pool' /\
    (mapTx pool' = ∅ \/ DynamicMemoryUsage pool' <= limit) /\
    (forall t, mapTx pool' !! t = None \/ core <$> mapTx pool' !! t = core <$> mapTx pool !! t).
Proof.
  intros Hs Hp. destruct (TrimToSize_spec worst incremental limit pool (sound_wf _ Hs) Hp) as (pool' & n & rate & outs & E & Hsh & Hend).
  exists pool', n, rate, outs. split; [done|]. split; [by eapply shrunk_sound|]. split; [done|]. intros t. destruct (shrunk_entries _ _ _ Hsh t) as [|[]]; tauto.
Qed.

(** C21: a change of priority reaches every total that counts the transaction.
    [PrioritiseTransaction] succeeds on a sound pool, keeps it sound, records the
    sum of the deltas, changes the modified fee of the transaction by the delta,
    the fees of the totals of the transaction, of its ancestors (with descendants)
    and of its descendants (with ancestors) by the delta, all modulo 2^64, and
    nothing else: no other entry, size, count or link. *)
Theorem PrioritiseTransaction_exact h delta pool : sound pool -> exists pool', PrioritiseTransaction h delta pool = Some pool' /\ sound pool' /\
  mapDeltas pool' = <[h := i64 (default 0 (mapDeltas pool !! h) + delta)]> (mapDeltas pool) /\ mapLinks pool' = mapLinks pool /\
  forall t, option_Forall2 (fun e e' => GetModifiedFee e' = i64 (GetModifiedFee e + own_fee h delta t) /\
      (forall s, total s Fees e' = i64 (total s Fees e + counted_fee pool h delta s t)) /\
      (forall s k, k <> Fees -> total s k e' = total s k e) /\ label e' = label e) (mapTx pool !! t) (mapTx pool' !! t).
Proof.
  intros Hs. destruct (PrioritiseTransaction_spec h delta pool (sound_wf _ Hs) (sound_prioritised _ Hs)) as (pool' & E & Hw & Hp & Ed & El & Ha).
  exists pool'. split; [done|]. split; [by eapply repriced_sound|]. do 2 (split; [done|]). intros t. destruct (Ha t) as [e e' [R1 R2 R3 R4]|]; constructor. done.
Qed.

(** C22: after a reorganisation the pool keeps exactly the transactions that pass
    the tests for the next block. The pool is sound and the node is as
    [reorg_view_ok] says: a well-formed block index with an active chain, coins no
    higher than its tip, lock points that name blocks of the index, and, while
    [nCheckFrequency] is not zero, unspent coins for the inputs from outside the
    pool (else the assertion of the loop aborts). Then [removeForReorg] succeeds and
    keeps the pool sound, and an entry leaves the pool if and only if it is, or
    descends from, an entry that is not final in the next block ([CheckFinalTx]),
    whose relative locks do not hold there ([CheckSequenceLocks], by the stored lock points
    while [TestLockPointValidity] accepts them, else from the heights of its coins), or
    that is flagged as spending a coinbase and has an input from outside the pool
    whose coin is gone, or is a coinbase that has not matured. *)
Theorem removeForReorg_exact rv height pool : sound pool -> reorg_view_ok rv pool -> exists pool', removeForReorg rv height pool = Some pool' /\ sound pool' /\
  forall t, t ∈ dom (mapTx pool') <-> t ∈ dom (mapTx pool) /\ ~ reorg_expelled rv height pool t.
Proof. apply removeForReorg_spec. Qed.

(** [clear] leaves the iterators of the cleared entries in the vector of
    hashes: the pool is empty, and each place of the vector that held an entry
    still holds its hash, with an iterator that points nowhere. A pool that was
    cleared while it had entries is therefore not well formed. *)
Theorem clear_keeps_iterators now pool : wf pool -> mapTx pool <> ∅ ->
  mapTx (clear now pool) = ∅ /\ ~ wf (clear now pool) /\
  forall t e, mapTx pool !! t = Some e -> vTxHashes (clear now pool) !! Z.to_nat (vTxHashesIdx e) = Some (t, None).
Proof.
  intros Hw Hne. assert (Hv : forall t e, mapTx pool !! t = Some e -> vTxHashes (clear now pool) !! Z.to_nat (vTxHashesIdx e) = Some (t, None)).
  { intros t e He. cbn [vTxHashes clear]. rewrite list_lookup_fmap. by rewrite (proj2 (wf_index _ Hw t e He)). }
  split; [done|]. split; [|done]. intros Hw'. apply map_choose in Hne as (t & e & He).
  destruct (wf_hashes _ Hw' _ _ (Hv t e He)) as (t' & e' & E & _). done.
Qed.


End WithEnv.

(** ** A pool with a parent and a child *)

Section Example_pool.
#[local] Existing Instance InterpreterSafety.toy_crypto.
Definition toy_env : PoolEnv := {|
  estimator := unit; est_new _ := (); est_processTransaction _ _ _ := (); est_processBlock _ _ _ := (); est_removeTx _ _ := ();
  double := Z; d_of z := z; d_ltb := Z.ltb; d_eqb := Z.eqb; d_trunc z := z; d_half z := z / 2; d_decay z _ _ := z / 2;
  sizeof_entry := 200; vec_grow n := 2 * n + 1; vec_shrink _ n := n |}.
#[local] Existing Instance toy_env.
#[local] Existing Instance TxVerify.toy_protocols.

Definition coin_tx : CTransaction := mkCTransaction 1 [mkCTxIn (mkCOutPoint (repeat 9 32) 0) [1] 0] [mkCTxOut 100 [OP_1] (-10); mkCTxOut 50 [OP_1] (-10)] 0.
Definition child_tx : CTransaction := mkCTransaction 1 [mkCTxIn (mkCOutPoint (GetHash coin_tx) 0) [1] 0] [mkCTxOut 90 [OP_1] (-10)] 0.
Definition rival_tx : CTransaction := mkCTransaction 2 [mkCTxIn (mkCOutPoint (repeat 9 32) 0) [1; 1] 0] [mkCTxOut 120 [OP_1] (-10)] 0.
Definition entry_of (tx : CTransaction) (fee sigOps : Z) : CTxMemPoolEntry :=
  let size := GetTotalSize tx in mkTxEntry tx fee size size 300 1000 5 0 true sigOps 0 (mkLockPoints 0 0 None) 1 size fee 1 size fee sigOps 0.
Definition e_coin : CTxMemPoolEntry := entry_of coin_tx 10 1.
Definition e_child : CTxMemPoolEntry := entry_of child_tx 7 2.

Definition pool0 : CTxMemPool := new_pool 1000 50.
Definition pool1 : CTxMemPool := default pool0 (run (OpAdd e_coin true) pool0).
Definition pool2 : CTxMemPool := default pool0 (run (OpAdd e_child true) pool1).

Lemma offered_coin : offered pool0 e_coin.
Proof.
  split; [split|..].
  - by_decide.
  - intros o _. apply lookup_empty.
  - by_decide.
  - intros [] [] Ht; first [by vm_compute|by destruct Ht].
  - done.
  - by vm_compute.
  - by vm_compute.
  - intros t e He. by vm_compute in He.
  - intros o _ e He. by vm_compute in He.
Qed.

Lemma run_coin : run (OpAdd e_coin true) pool0 = Some pool1.
Proof. vm_compute. reflexivity. Qed.

Lemma offered_child : offered pool1 e_child.
Proof.
  split; [split|..].
  - by_decide.
  - intros o Ho. apply list_elem_of_singleton in Ho as ->. vm_compute. reflexivity.
  - by_decide.
  - intros [] [] Ht; first [by vm_compute|by destruct Ht].
  - done.
  - by vm_compute.
  - by vm_compute.
  - assert (Hall : map_Forall (fun _ e0 => GetHash (entry_tx e_child) ∉ setParentTransactions (entry_tx e0)) (mapTx pool1)) by by_decide. exact Hall.
  - intros o Ho e He. apply list_elem_of_singleton in Ho as ->. exists (mkCTxOut 100 [OP_1] (-10)). split; [|done].
    assert (E : entry_tx <$> mapTx pool1 !! GetHash coin_tx = Some coin_tx) by (vm_compute; reflexivity).
    rewrite (He : mapTx pool1 !! GetHash coin_tx = Some e) in E. injection E as ->. done.
Qed.

Lemma run_child : run (OpAdd e_child true) pool1 = Some pool2.
Proof. vm_compute. reflexivity. Qed.

Lemma run_sound_to op pool pool' : sound pool -> allowed op pool -> run op pool = Some pool' -> sound pool'.
Proof. intros Hs Ha E. destruct (run_sound op pool Hs Ha) as (p & E' & Hp). congruence. Qed.

Lemma pool2_sound : sound pool2.
Proof.
  apply (run_sound_to (OpAdd e_child true) pool1); [|exact offered_child|exact run_child].
  apply (run_sound_to (OpAdd e_coin true) pool0); [apply new_pool_sound|exact offered_coin|exact run_coin].
Qed.

Definition first_entry (pool : CTxMemPool) : uint256 := default [] (head (elements (dom (mapTx pool)))).

Lemma first_entry_picks : picks_entry first_entry.
Proof.
  intros pool Hne. unfold first_entry. destruct (elements (dom (mapTx pool))) as [|t l] eqn:E.
  - apply elements_empty_iff, dom_empty_inv in E. done.
  - cbn. apply elem_of_elements. rewrite E. by left.
Qed.

Lemma pool2_parents : par pool2 (GetHash coin_tx) = ∅ /\ par pool2 (GetHash child_tx) = {[GetHash coin_tx]} /\ par pool2 (GetHash rival_tx) = ∅.
Proof. split; [|split]; by_decide. Qed.

Lemma block_order_one tx pool : par pool (GetHash tx) = ∅ -> block_order [tx] pool.
Proof.
  intros Hp l1 tx' l2 E. destruct l1 as [|a l1]; [injection E as <- _|injection E as _ E; by destruct l1]. rewrite Hp. set_solver +.
Qed.

Lemma permitted_cons op ops pool pool' : allowed op pool -> run op pool = Some pool' -> permitted ops pool' -> permitted (op :: ops) pool.
Proof. intros Ha E Hp. split; [done|]. intros p E'. assert (p = pool') as -> by congruence. done. Qed.

(** The chain of the sample tree, with the coin that the parent spends; in the
    second view it is a coinbase. *)
Definition view_with (coinbase : bool) : reorg_view :=
  mkReorgView Chain.sample_tree (Chain.path Chain.sample_tree 3)
    {[mkCOutPoint (repeat 9 32) 0 := Coins.mkCoin (mkCTxOut 200 [OP_1] (-10)) coinbase 1]} 3 200.
Definition toy_view : reorg_view := view_with false.
Definition immature_view : reorg_view := view_with true.
Definition after (op : pool_op) (pool : CTxMemPool) : CTxMemPool := default pool (run op pool).
Definition more_ops : list pool_op :=
  [OpPrioritise (GetHash coin_tx) 5; OpTrim first_entry 0 1000000; OpReorg toy_view 6; OpMinFee 1000 90 1000000].
Definition toy_ops : list pool_op :=
  [OpAdd e_coin true; OpAdd e_child true] ++ more_ops ++ [OpBlock [coin_tx] 6 60; OpDisconnect [(rival_tx, None); (coin_tx, Some (e_coin, false))]; OpExpire (fun _ => false) 5; OpRemove child_tx REPLACED; OpConflicts rival_tx].

Lemma run_after op pool : is_Some (run op pool) -> run op pool = Some (after op pool).
Proof. unfold after. by intros [p ->]. Qed.

Lemma permitted_after op ops pool : allowed op pool -> is_Some (run op pool) -> permitted ops (after op pool) -> permitted (op :: ops) pool.
Proof. intros Ha Hr. apply permitted_cons; [done|]. by apply run_after. Qed.

Lemma view_with_ok coinbase pool : nCheckFrequency pool = 0 -> map_Forall (fun _ e => maxInputBlock (lockPoints e) = None) (mapTx pool) ->
  reorg_view_ok (view_with coinbase) pool.
Proof.
  intros Hf Hall. split; [|intros t e p He; by rewrite (Hall t e He)|intros; by left].
  exists 3%nat, (Chain.sample_block 3 (Some 2%nat) (Some 1%nat) 3 190). split; [exact Chain.sample_tree_wf|reflexivity|reflexivity|].
  intros o x Hx. cbn [rv_coins view_with] in Hx. apply lookup_singleton_Some in Hx as [_ <-]. cbn. lia.
Qed.

#[local] Ltac step_op := apply permitted_after; [cbn [allowed]|by (apply (bool_decide_unpack _); vm_compute)|].

(** The pool after the block that contains the parent. *)
Definition pool_mined : CTxMemPool := after (OpBlock [coin_tx] 6 60) (foldl (fun pool op => after op pool) pool2 more_ops).
Definition pool_rival : CTxMemPool := default pool_mined (removeRecursive rival_tx REORG pool_mined).

Lemma returning_coin : returning [] pool_rival e_coin.
Proof.
  split; [split|..].
  - by_decide.
  - intros o Ho. apply list_elem_of_singleton in Ho as ->. vm_compute. reflexivity.
  - by_decide.
  - intros [] [] Ht; first [by vm_compute|by destruct Ht].
  - done.
  - by vm_compute.
  - by vm_compute.
  - apply not_elem_of_nil.
  - by_decide.
  - intros t e0 Ht. destruct (not_elem_of_nil _ Ht).
Qed.

Lemma coin_pays : pays_children pool_rival e_coin.
Proof.
  intros t e0 o He0 Ho _. assert (Hall : map_Forall (fun _ e0 => Forall (fun o => n o = 0) (prevouts (entry_tx e0))) (mapTx pool_rival)) by by_decide.
  pose proof (proj1 (list.Forall_forall _ _) (Hall t e0 He0) o Ho) as E. cbv beta in E. rewrite E. eexists. split; reflexivity.
Qed.

Lemma coin_inputs o : o ∈ prevouts coin_tx -> has_output pool_rival o.
Proof.
  assert (Hall : Forall (fun o => hash o ∉ dom (mapTx pool_rival)) (prevouts coin_tx)) by by_decide.
  intros Ho e He. exfalso. apply (proj1 (list.Forall_forall _ _) Hall o Ho). apply elem_of_dom. exists e. exact He.
Qed.

Lemma coin_returns : resurrectable [(rival_tx, None); (coin_tx, Some (e_coin, false))] [] pool_mined.
Proof.
  cbn [resurrectable]. intros pool' E. assert (E' : removeRecursive rival_tx REORG pool_mined = Some pool_rival) by (vm_compute; reflexivity).
  rewrite E' in E. apply (inj Some) in E. rewrite <- E. split; [reflexivity|]. split; [exact returning_coin|]. split; [|split; [exact coin_pays|intros; exact I]].
  exact coin_inputs.
Qed.

Lemma toy_permitted : permitted toy_ops pool0.
Proof.
  unfold toy_ops, more_ops. cbn [app]. apply (permitted_cons _ _ _ pool1); [exact offered_coin|exact run_coin|]. apply (permitted_cons _ _ _ pool2); [exact offered_child|exact run_child|].
  do 1 (step_op; [done|]). step_op; [exact first_entry_picks|]. step_op; [apply view_with_ok; [vm_compute; reflexivity|by_decide]|]. step_op; [done|].
  step_op; [apply block_order_one; by_decide|]. step_op; [exact coin_returns|]. do 3 (step_op; [done|]). done.
Qed.

(** A limit of one ancestor at most refuses a child of the parent. *)
Lemma ancestor_limits_exact_witness : entry_ancestors pool1 child_tx = {[GetHash coin_tx]} /\
  exists err Y, CalculateMemPoolAncestors pool1 e_child ∅ (mkLimits 1 1000 25 1000) true = Some (err, Y) /\ err <> None.
Proof.
  split; [by_decide|]. assert (Hw : wf pool1) by exact (sound_wf _ (run_sound_to (OpAdd e_coin true) pool0 pool1 (new_pool_sound 1000 50) offered_coin run_coin)).
  destruct (ancestor_limits_exact pool1 e_child (mkLimits 1 1000 25 1000) Hw ltac:(by vm_compute)) as [_ (err & Y & E & _ & Hx)].
  exists err, Y. split; [exact E|]. intros Hn. apply Hx in Hn as [Hn|(Hn & _)]; [|revert Hn; vm_compute; intros Hn; by apply Hn].
  assert (Hd : entry_ancestors pool1 (entry_tx e_child) <> ∅) by by_decide. exact (Hd Hn).
Defined.

(** A block with a rival of the parent removes the parent and its child. *)
Lemma block_leaves_no_conflicts_witness : GetHash coin_tx ∈ dom (mapTx pool2) /\ exists pool', removeForBlock [rival_tx] 6 60 pool2 = Some pool' /\ sound pool' /\
  dom (mapTx pool') = ∅ /\ GetHash rival_tx ∉ dom (mapTx pool').
Proof.
  split; [by_decide|]. destruct (block_leaves_no_conflicts [rival_tx] 6 60 pool2 pool2_sound (block_order_one _ _ (proj2 (proj2 pool2_parents)))) as (pool' & E & Hs & Hg & _).
  exists pool'. split; [exact E|]. split; [exact Hs|]. split; [|exact (proj1 (Hg rival_tx (list_elem_of_here _ _)))].
  assert (Ed : (fun p => dom (mapTx p)) <$> removeForBlock [rival_tx] 6 60 pool2 = Some ∅) by (vm_compute; reflexivity). rewrite E in Ed. exact (Some_inj _ _ Ed).
Defined.

Lemma TrimToSize_bounds_memory_witness : exists pool' n rate outs, TrimToSize first_entry 0 100 pool2 = Some (pool', n, rate, outs) /\ sound pool' /\
  (mapTx pool' = ∅ \/ DynamicMemoryUsage pool' <= 100).
Proof.
  destruct (TrimToSize_bounds_memory first_entry 0 100 pool2 pool2_sound first_entry_picks) as (pool' & n & rate & outs & E & Hs & Hb & _).
  exists pool', n, rate, outs. exact (conj E (conj Hs Hb)).
Defined.

Lemma option_Forall2_inv_Some {A B} (R : A -> B -> Prop) x y : option_Forall2 R (Some x) (Some y) -> R x y.
Proof. by inversion 1. Qed.

(** A delta for the parent shows in the fees of the child with its ancestors. *)
Lemma PrioritiseTransaction_exact_witness : exists pool' e e', PrioritiseTransaction (GetHash coin_tx) 5 pool2 = Some pool' /\ sound pool' /\
  mapTx pool2 !! GetHash child_tx = Some e /\ mapTx pool' !! GetHash child_tx = Some e' /\ nModFeesWithAncestors e' = i64 (nModFeesWithAncestors e + 5).
Proof.
  destruct (PrioritiseTransaction_exact (GetHash coin_tx) 5 pool2 pool2_sound) as (pool' & E & Hs & _ & _ & Ha). exists pool'.
  specialize (Ha (GetHash child_tx)). assert (Hi : is_Some (mapTx pool2 !! GetHash child_tx)) by by_decide. destruct Hi as [e He].
  rewrite He in Ha. destruct (mapTx pool' !! GetHash child_tx) as [e'|] eqn:He'; [|inversion Ha]. apply option_Forall2_inv_Some in Ha. destruct Ha as (_ & Hf & _). specialize (Hf Anc).
  replace (counted_fee pool2 (GetHash coin_tx) 5 Anc (GetHash child_tx)) with 5 in Hf by (vm_compute; reflexivity).
  exists e, e'. exact (conj E (conj Hs (conj He (conj eq_refl Hf)))).
Defined.

(** When the coin of the parent is a coinbase again that has not matured, parent
    and child leave. *)
Lemma removeForReorg_exact_witness : GetHash coin_tx ∈ dom (mapTx pool2) /\ GetHash child_tx ∈ dom (mapTx pool2) /\
  exists pool', removeForReorg immature_view 4 pool2 = Some pool' /\ sound pool' /\ dom (mapTx pool') = ∅ /\
    (forall t, t ∈ dom (mapTx pool') <-> t ∈ dom (mapTx pool2) /\ ~ reorg_expelled immature_view 4 pool2 t).
Proof.
  split; [by_decide|]. split; [by_decide|].
  assert (Hok : reorg_view_ok immature_view pool2) by (apply view_with_ok; [vm_compute; reflexivity|by_decide]).
  destruct (removeForReorg_exact immature_view 4 pool2 pool2_sound Hok) as (pool' & E & Hs & Hx). exists pool'. split; [exact E|]. split; [exact Hs|].
  split; [|exact Hx]. assert (Ed : (fun p => dom (mapTx p)) <$> removeForReorg immature_view 4 pool2 = Some ∅) by (vm_compute; reflexivity).
  rewrite E in Ed. exact (Some_inj _ _ Ed).
Defined.

Lemma clear_keeps_iterators_witness : mapTx (clear 60 pool2) = ∅ /\ ~ wf (clear 60 pool2) /\ length (vTxHashes (clear 60 pool2)) = 2%nat.
Proof.
  assert (Hne : mapTx pool2 <> ∅) by (intros E; assert (Hs : size (mapTx pool2) = 2%nat) by (vm_compute; reflexivity); by rewrite E in Hs).
  destruct (clear_keeps_iterators 60 pool2 (sound_wf _ pool2_sound) Hne) as (H1 & H2 & _). split; [exact H1|]. split; [exact H2|]. vm_compute. reflexivity.
Defined.

End Example_pool.
End MemPoolSafety.
