(* ===== verification/MemPoolCheck.v ===== *)
(** * The consistency check of the pool (txmempool.cpp, [CTxMemPool::check])

    [check] walks over the pool and asserts that links, totals and spent inputs
    agree, that every input has its output in the pool or its coin in the view, and
    that all transactions pass [CheckTxInputs] when they are applied to a copy of
    the view, parents before children.  [None] is a failed assertion (or an
    exception, or a null dereference).  [mempoolDuplicate] is a cache on a copy of
    [pcoins]: reading through either loads coins and changes no answer.

    The file proves that the check passes on every pool that the operations of
    [MemPoolSafety] reach, for every view that backs its transactions. *)

From stdpp Require Import base relations list list_numbers gmap fin_sets sorting numbers option.
From Stdlib Require Import ZArith Lia.
From S2P Require Import Prelude Serialize Script Transaction Interpreter InterpreterSafety Coins Ledger TxVerify TxGraph MemPool MemPoolLocks MemPoolInv MemPoolOps MemPoolAdd MemPoolSteps MemPoolFees MemPoolReorg MemPoolSafety.

Local Open Scope Z_scope.

Module MemPoolCheck.
Import Serialize Script Transaction Interpreter Coins Ledger TxGraph MemPool MemPoolInv MemPoolOps MemPoolAdd MemPoolSteps MemPoolFees MemPoolReorg MemPoolSafety.

(** ** The check *)

Section Check.
Context {CR : Crypto} {PE : PoolEnv} {V : Type} {CV : CCoinsView V}.
Implicit Types (pool : CTxMemPool) (e : CTxMemPoolEntry).

(** The height that outputs of the pool get in [mempoolDuplicate]. *)
Definition check_height : Z := 1000000.

(** [GetSpendHeight]: the height of the best block of the view, plus one. *)
Definition GetSpendHeight {W : Type} `{!CCoinsView W} (mapBlockIndex : gmap uint256 Z) (inputs : CCoinsViewCache W) : option (Z * CCoinsViewCache W) :=
  let '(block, inputs) := cache_GetBestBlock inputs in
  nHeight ← mapBlockIndex !! block;
  Some (nHeight + 1, inputs).

(** The loop over the inputs of an entry: [fDependsWait], [setParentCheck] and the view. *)
Fixpoint check_inputs pool (it : uint256) (vin : list CTxIn) (fDependsWait : bool) (setParentCheck : setEntries) (pcoins : CCoinsViewCache V)
  : option (bool * setEntries * CCoinsViewCache V) :=
  match vin with
  | [] => Some (fDependsWait, setParentCheck, pcoins)
  | txin :: vin =>
      let h := hash (prevout txin) in
      '(fDependsWait, setParentCheck, pcoins) ←
        match mapTx pool !! h with
        | Some e2 =>
            out ← vout (entry_tx e2) !! Z.to_nat (n (prevout txin));
            if CTxOut_IsNull out then None else Some (true, {[h]} ∪ setParentCheck, pcoins)
        | None => let '(have, pcoins) := HaveCoin pcoins (prevout txin) in if have then Some (fDependsWait, setParentCheck, pcoins) else None
        end;
      spender ← mapNextTx pool !! prevout txin;
      if bool_decide (spender = it) then check_inputs pool it vin fDependsWait setParentCheck pcoins else None
  end.

(** The assertions on the links and the totals of an entry. *)
Definition check_links pool (it : uint256) e (links : TxLinks) (setParentCheck : setEntries) : option unit :=
  if negb (bool_decide (setParentCheck = parents links)) then None
  else
    '(_, setAncestors) ← CalculateMemPoolAncestors pool e ∅ no_limits true;
    let w f := foldl (fun acc h => acc + from_option f 0 (mapTx pool !! h)) in
    let l := in_hash_order setAncestors in
    if (nCountWithAncestors e =? u64 (Z.of_nat (size setAncestors) + 1)) &&
       (nSizeWithAncestors e =? u64 (w nTxSize (nTxSize e) l)) &&
       (nSigOpCountWithAncestors e =? u32 (w sigOpCount (sigOpCount e) l)) &&
       (nModFeesWithAncestors e =? i64 (w GetModifiedFee (GetModifiedFee e) l))
    then
      let setChildrenCheck : setEntries := list_to_set (spent_outputs pool it).*2 in
      if forallb (fun h => bool_decide (is_Some (mapTx pool !! h))) (in_hash_order setChildrenCheck) &&
         bool_decide (setChildrenCheck = children links) &&
         (u64 (w nTxSize 0 (in_hash_order setChildrenCheck) + nTxSize e) <=? nSizeWithDescendants e)
      then Some () else None
    else None.

(** [fCheckResult], its assertion and [UpdateCoins]. *)
Definition check_coins (nSpendHeight : Z) (tx : CTransaction) (mempoolDuplicate : CCoinsViewCache (CCoinsViewCache V))
  : option (CCoinsViewCache (CCoinsViewCache V)) :=
  mempoolDuplicate ← (if IsCoinBase tx then Some mempoolDuplicate
                      else match TxVerify.CheckTxInputs mempoolDuplicate tx nSpendHeight with
                           | Done (inr c) => Some c
                           | _ => None
                           end);
  match UpdateCoins mempoolDuplicate tx check_height with
  | Done (_, c) => Some c
  | _ => None
  end.

Record check_state : Type := mkCheckState {
  mempoolDuplicate : CCoinsViewCache (CCoinsViewCache V);
  pcoins : CCoinsViewCache V;
  waitingOnDependants : list uint256
}.

(** One entry of the loop over [mapTx]. *)
Definition check_entry pool (nSpendHeight : Z) (p : uint256 * CTxMemPoolEntry) (st : check_state) : option check_state :=
  let '(it, e) := p in
  links ← mapLinks pool !! it;
  '(fDependsWait, setParentCheck, pc) ← check_inputs pool it (vin (entry_tx e)) false ∅ (pcoins st);
  _ ← check_links pool it e links setParentCheck;
  if fDependsWait : bool then Some (mkCheckState (mempoolDuplicate st) pc (waitingOnDependants st ++ [it]))
  else c ← check_coins nSpendHeight (entry_tx e) (mempoolDuplicate st); Some (mkCheckState c pc (waitingOnDependants st)).

(** [while (!waitingOnDependants.empty())] *)
Fixpoint waiting_loop (fuel : nat) pool (nSpendHeight : Z) (c : CCoinsViewCache (CCoinsViewCache V)) (waiting : list uint256)
  (stepsSinceLastRemove : nat) : option (CCoinsViewCache (CCoinsViewCache V)) :=
  match waiting with
  | [] => Some c
  | it :: waiting =>
      match fuel with
      | O => None
      | S fuel =>
          e ← mapTx pool !! it;
          let '(have, c) := HaveInputs c (entry_tx e) in
          if negb have then
            let waiting := waiting ++ [it] in
            let stepsSinceLastRemove := S stepsSinceLastRemove in
            if (stepsSinceLastRemove <? length waiting)%nat then waiting_loop fuel pool nSpendHeight c waiting stepsSinceLastRemove else None
          else
            c ← check_coins nSpendHeight (entry_tx e) c;
            waiting_loop fuel pool nSpendHeight c waiting 0
      end
  end.

(** Each round removes a transaction or postpones one, and no more than all of
    them in a row. *)
Definition waiting_fuel (waiting : list uint256) : nat := S (length waiting * S (length waiting)).

(** The loop over [mapNextTx]. *)
Definition check_next pool : bool := forallb (fun p => bool_decide (is_Some (mapTx pool !! p.2))) (map_to_list (mapNextTx pool)).

(** [checkTotal] and [innerUsage]. *)
Definition check_totals pool : bool :=
  let total f := foldr (fun p acc => f p.2 + acc) 0 (map_to_list (mapTx pool)) in
  let links := foldr (fun p acc => set_usage (parents p.2) + set_usage (children p.2) + acc) 0 (map_to_list (mapLinks pool)) in
  (totalTxSize pool =? u64 (total nTxSize)) && (cachedInnerUsage pool =? u64 (total nUsageSize + links)).

(** [check]; [roll] is the answer of [GetRand]. *)
Definition check (mapBlockIndex : gmap uint256 Z) (roll : Z) pool (pc : CCoinsViewCache V) : option unit :=
  if nCheckFrequency pool =? 0 then Some ()
  else if roll >=? nCheckFrequency pool then Some ()
  else
    '(nSpendHeight, c) ← GetSpendHeight mapBlockIndex (new_cache pc);
    st ← each (check_entry pool nSpendHeight) (map_to_list (mapTx pool)) (mkCheckState c pc []);
    let waiting := waitingOnDependants st in
    _ ← waiting_loop (waiting_fuel waiting) pool nSpendHeight (mempoolDuplicate st) waiting 0;
    if check_next pool && check_totals pool then Some () else None.

End Check.

(** ** Coins after some transactions *)

Section Coins.
Context {CR : Crypto} {PE : PoolEnv}.

Lemma spend_all_lookup ins : forall (u : utxos) xs mid, spend_all u ins = Some (xs, mid) ->
  forall o, mid !! o = if decide (o ∈ ins) then None else u !! o.
Proof.
  induction ins as [|o0 ins IH]; intros u xs mid; cbn [spend_all].
  - intros [= <- <-] o. rewrite decide_False by apply not_elem_of_nil. done.
  - destruct (u !! o0); [|done]. cbn [mbind option_bind]. destruct (spend_all (delete o0 u) ins) as [[ys u1]|] eqn:E; [|done].
    cbn [mbind option_bind]. intros [= <- <-] o. rewrite (IH _ _ _ E o). destruct (decide (o ∈ ins)) as [Hin|Hin].
    + rewrite decide_True by (by right). done.
    + destruct (decide (o = o0)) as [->|Hne]; [rewrite decide_True by (by left); by rewrite lookup_delete_eq|].
      rewrite decide_False by (rewrite elem_of_cons; tauto). by rewrite lookup_delete_ne.
Qed.

(** The coin of an output, if it is spendable. *)
Definition output_coin (h : Z) (cb : bool) (outs : list CTxOut) (i : Z) : option Coin :=
  if i <? 0 then None else out ← outs !! Z.to_nat i; if IsUnspendable (scriptPubKey out) then None else Some (Coin_of out h cb).

Lemma add_all_lookup txid h cb outs : forall u i o, 0 <= i -> i + zlen outs <= 2 ^ 32 ->
  add_all u txid i outs h cb !! o =
  match (if decide (hash o = txid) then output_coin h cb outs (n o - i) else None) with Some x => Some x | None => u !! o end.
Proof.
  induction outs as [|out outs IH]; intros u i o Hi Hl; cbn [add_all].
  { unfold output_coin. case_decide; [|done]. destruct (_ <? 0); [done|]. by rewrite lookup_nil. }
  unfold zlen in *. cbn [length] in Hl. rewrite IH by lia.
  assert (Hk : mkCOutPoint txid (u32 i) = mkCOutPoint txid i) by (by rewrite u32_small by lia). rewrite Hk.
  destruct (decide (hash o = txid)) as [Hh|Hh].
  - unfold output_coin. destruct (Z.ltb_spec (n o - (i + 1)) 0), (Z.ltb_spec (n o - i) 0); try lia.
    + destruct (IsUnspendable _); [done|]. apply lookup_insert_ne. intros <-. cbn in *. lia.
    + assert (n o = i) as Hn by lia. replace (n o - i) with 0 by lia. cbn.
      assert (o = mkCOutPoint txid i) as -> by (destruct o; cbn in *; congruence).
      change ((out :: outs) !! Z.to_nat 0) with (Some out). cbn [mbind option_bind]. destruct (IsUnspendable _); [done|]. by rewrite lookup_insert_eq.
    + replace (Z.to_nat (n o - i)) with (S (Z.to_nat (n o - (i + 1)))) by lia. cbn [lookup list_lookup].
      destruct (outs !! Z.to_nat (n o - (i + 1))) as [out'|]; cbn [mbind option_bind].
      * destruct (IsUnspendable (scriptPubKey out')); [|done]. destruct (IsUnspendable _); [done|]. apply lookup_insert_ne. intros <-. cbn in *. lia.
      * destruct (IsUnspendable _); [done|]. apply lookup_insert_ne. intros <-. cbn in *. lia.
  - destruct (IsUnspendable _); [done|]. apply lookup_insert_ne. intros <-. by apply Hh.
Qed.

End Coins.

(** ** Pools whose transactions a view backs *)

Section Backed.
Context {CR : Crypto} {PE : PoolEnv} {V : Type} {CV : CCoinsView V} {HV : CCoinsViewOk V}.
Implicit Types (pool : CTxMemPool) (e : CTxMemPoolEntry) (c : CCoinsViewCache (CCoinsViewCache V)) (D : setEntries).

(** The coin that an input of the pool spends: an output of the pool, or a coin of the chain. *)
Definition pool_coin (u : utxos) pool (o : COutPoint) : option Coin :=
  match mapTx pool !! hash o with
  | Some e => output_coin check_height false (vout (entry_tx e)) (n o)
  | None => u !! o
  end.

(** The rules of [CheckTxInputs] on the values of the coins [xs]. *)
Definition values_ok (tx : CTransaction) (h : Z) (xs : list Coin) : Prop :=
  Forall (TxVerify.mature h) xs /\
  Forall (fun x => 0 <= nValue (coin_out x) <= MAX_MONEY) xs /\ TxVerify.in_values xs <= MAX_MONEY /\
  Forall (fun o => 0 <= nValue o <= MAX_MONEY) (vout tx) /\ sum_values (vout tx) <= TxVerify.in_values xs.

(** The coins [u] of the chain back the pool for a block at height [h]: no entry is a
    coinbase; each has distinct inputs, every one of which finds a coin in the chain or
    an output in the pool, with values as [CheckTxInputs] asks for; the outputs can
    be coins; and the chain has no coin of a transaction of the pool. *)
Record backed (u : utxos) (h : Z) pool : Prop := mkBacked {
  backed_ordinary t e : mapTx pool !! t = Some e -> IsCoinBase (entry_tx e) = false;
  backed_distinct t e : mapTx pool !! t = Some e -> NoDup (prevouts (entry_tx e));
  backed_inputs t e : mapTx pool !! t = Some e ->
    exists xs, Forall2 (fun i x => pool_coin u pool (prevout i) = Some x) (vin (entry_tx e)) xs /\ values_ok (entry_tx e) h xs;
  backed_outputs t e : mapTx pool !! t = Some e -> Forall (out_ok check_height false) (vout (entry_tx e)) /\ zlen (vout (entry_tx e)) <= 2 ^ 32;
  backed_fresh t i : is_Some (mapTx pool !! t) -> u !! mkCOutPoint t i = None
}.

Context (u : utxos) (h : Z) (pool : CTxMemPool) (Hs : sound pool) (Hb : backed u h pool).

(** The coins when the transactions [D] of the pool are applied. *)
Definition available D (o : COutPoint) : option Coin :=
  match mapTx pool !! hash o with
  | Some e => if decide (hash o ∈ D) then output_coin check_height false (vout (entry_tx e)) (n o) else None
  | None => u !! o
  end.
Definition coins_after D (o : COutPoint) : option Coin :=
  match mapNextTx pool !! o with
  | Some t => if decide (t ∈ D) then None else available D o
  | None => available D o
  end.

Record applied c D : Prop := mkApplied {
  applied_ok : cache_ok c;
  applied_coins o : cache_utxo c !! o = coins_after D o;
  applied_dom : D ⊆ dom (mapTx pool);
  applied_closed t : t ∈ D -> par pool t ⊆ D
}.

Lemma applied_ext c c' D : applied c D -> cache_ok c' -> cache_utxo c' = cache_utxo c -> applied c' D.
Proof using. intros [H1 H2 H3 H4] Hc E. split; [done| |done|done]. intros o. by rewrite E. Qed.

Lemma spender t e i : mapTx pool !! t = Some e -> i ∈ vin (entry_tx e) -> mapNextTx pool !! prevout i = Some t.
Proof using Hs. intros He Hi. apply (wf_next _ (sound_wf _ Hs)). exists e. split; [done|]. apply list_elem_of_fmap. by exists i. Qed.

Lemma parent_of t e p : mapTx pool !! t = Some e -> p ∈ par pool t <-> p ∈ dom (mapTx pool) /\ exists i, i ∈ vin (entry_tx e) /\ hash (prevout i) = p.
Proof using Hs. intros He. rewrite (sound_linked _ Hs t e He). apply elem_of_pool_parents. Qed.

(** A transaction whose parents are applied finds the coins that back it. *)
Lemma coins_ready D t e i : mapTx pool !! t = Some e -> t ∉ D -> par pool t ⊆ D -> i ∈ vin (entry_tx e) ->
  coins_after D (prevout i) = pool_coin u pool (prevout i).
Proof using Hs.
  intros He Ht Hp Hi. unfold coins_after, available, pool_coin. rewrite (spender t e i He Hi), decide_False by done.
  destruct (mapTx pool !! hash (prevout i)) as [e2|] eqn:E2; [|done]. rewrite decide_True; [done|].
  apply Hp, (parent_of t e _ He). split; [apply elem_of_dom; eauto|by exists i].
Qed.

(** One that still has a parent to wait for does not. *)
Lemma coins_missing D t e : mapTx pool !! t = Some e -> t ∉ D -> ~ par pool t ⊆ D -> exists i, i ∈ vin (entry_tx e) /\ coins_after D (prevout i) = None.
Proof using Hs.
  intros He Ht Hp. assert (Hx : exists p, p ∈ par pool t /\ p ∉ D).
  { destruct (decide (par pool t ∖ D = ∅)) as [E|(p & Hin)%set_choose_L]; [destruct Hp; intros p Hin; destruct (decide (p ∈ D)); [done|]; set_solver +E Hin n0|].
    exists p. set_solver +Hin. }
  destruct Hx as (p & (Hd & i & Hi & <-)%(parent_of t e _ He) & Hn). exists i. split; [done|]. apply elem_of_dom in Hd as [e2 E2].
  unfold coins_after, available. by rewrite (spender t e i He Hi), decide_False, E2, decide_False.
Qed.

Lemma inputs_ready c D t e : applied c D -> mapTx pool !! t = Some e -> t ∉ D -> par pool t ⊆ D ->
  exists xs, TxVerify.inputs_valid (cache_utxo c) (entry_tx e) h xs.
Proof using Hs Hb.
  intros Ha He Ht Hp. destruct (backed_inputs _ _ _ Hb t e He) as (xs & Hxs & Hv). exists xs. split; [|done].
  unfold TxVerify.coins_of. assert (Hin : forall i, i ∈ vin (entry_tx e) -> cache_utxo c !! prevout i = pool_coin u pool (prevout i)).
  { intros i Hi. rewrite (applied_coins _ _ Ha). by apply (coins_ready D t e). }
  clear - Hxs Hin. induction Hxs as [|i x l xs Hx Hxs IH]; constructor; [rewrite Hin by (by left); done|]. apply IH. intros j Hj. apply Hin. by right.
Qed.

Lemma HaveInputs_ready c D t e : applied c D -> mapTx pool !! t = Some e -> t ∉ D ->
  exists c', HaveInputs c (entry_tx e) = (bool_decide (par pool t ⊆ D), c') /\ applied c' D.
Proof using Hs Hb.
  intros Ha He Ht. unfold HaveInputs. rewrite (backed_ordinary _ _ _ Hb t e He).
  destruct (TxVerify.HaveInputs_loop_ok (vin (entry_tx e)) c (applied_ok _ _ Ha)) as (c' & Hc' & Hu' & Hcase). exists c'.
  split; [|by apply (applied_ext c)]. destruct (decide (par pool t ⊆ D)) as [Hp|Hp].
  - rewrite bool_decide_true by done. destruct Hcase as [[_ ->]|[Hno _]]; [done|]. destruct Hno.
    destruct (inputs_ready c D t e Ha He Ht Hp) as (xs & Hxs & _). by exists xs.
  - rewrite bool_decide_false by done. destruct Hcase as [[[xs Hxs] _]|[_ ->]]; [|done].
    destruct (coins_missing D t e He Ht Hp) as (i & Hi & Hn). apply list_elem_of_lookup in Hi as [k Hk].
    destruct (Forall2_lookup_l _ _ _ _ _ Hxs Hk) as (x & _ & Hx). cbv beta in Hx. rewrite (applied_coins _ _ Ha), Hn in Hx. done.
Qed.

(** The coins after one more transaction. *)
Lemma coins_after_step D t e mid o : mapTx pool !! t = Some e -> t ∉ D -> (forall x, x ∈ D -> par pool x ⊆ D) ->
  (forall o, mid !! o = if decide (o ∈ prevouts (entry_tx e)) then None else coins_after D o) ->
  zlen (vout (entry_tx e)) <= 2 ^ 32 ->
  add_all mid t 0 (vout (entry_tx e)) check_height false !! o = coins_after ({[t]} ∪ D) o.
Proof using Hs.
  intros He Ht Hcl Hmid Hl. rewrite add_all_lookup, Z.sub_0_r by lia. unfold coins_after.
  assert (Hsp : forall t', mapNextTx pool !! o = Some t' -> hash o = t -> t' ∈ {[t]} ∪ D -> False).
  { intros t' Hn Hh Ht'. apply (wf_next _ (sound_wf _ Hs)) in Hn as (e' & He' & Ho). apply list_elem_of_fmap in Ho as (i & -> & Hi).
    assert (Hpar : t ∈ par pool t') by (apply (parent_of t' e' _ He'); split; [apply elem_of_dom; eauto|by exists i]).
    apply elem_of_union in Ht' as [ ->%elem_of_singleton|Ht']; [|by apply Ht, (Hcl t' Ht')].
    apply (wf_acyclic _ (sound_wf _ Hs) t). by apply tc_once. }
  destruct (decide (hash o = t)) as [Hh|Hh].
  - assert (Hmo : mid !! o = None).
    { rewrite Hmid. case_decide; [done|]. unfold coins_after, available. rewrite Hh, He, decide_False by done. repeat case_match; done. }
    rewrite Hmo. transitivity (available ({[t]} ∪ D) o).
    + unfold available. rewrite Hh, He, decide_True by set_solver +. by destruct (output_coin _ _ _ _).
    + destruct (mapNextTx pool !! o) as [t'|] eqn:En; [|done]. rewrite decide_False; [done|]. intros Ht'. by apply (Hsp t').
  - rewrite Hmid. assert (Hav : available ({[t]} ∪ D) o = available D o).
    { unfold available. destruct (mapTx pool !! hash o); [|done]. destruct (decide (hash o ∈ D)); [by rewrite decide_True by (apply elem_of_union; by right)|].
      rewrite decide_False; [done|]. rewrite elem_of_union, elem_of_singleton. tauto. }
    rewrite Hav. destruct (decide (o ∈ prevouts (entry_tx e))) as [Ho|Ho].
    + assert (En : mapNextTx pool !! o = Some t) by (apply (wf_next _ (sound_wf _ Hs)); by exists e). rewrite En, decide_True by set_solver +. done.
    + unfold coins_after. destruct (mapNextTx pool !! o) as [t'|] eqn:En; [|done]. destruct (decide (t' ∈ D)) as [Hin|Hin].
      * by rewrite decide_True by (apply elem_of_union; by right).
      * rewrite decide_False; [done|]. intros [ ->%elem_of_singleton|]%elem_of_union; [|done].
        apply (wf_next _ (sound_wf _ Hs)) in En as (e' & He' & Ho'). assert (e' = e) as -> by congruence. done.
Qed.

Lemma check_coins_step c D t e : applied c D -> mapTx pool !! t = Some e -> t ∉ D -> par pool t ⊆ D ->
  exists c', check_coins h (entry_tx e) c = Some c' /\ applied c' ({[t]} ∪ D).
Proof using Hs Hb.
  intros Ha He Ht Hp. unfold check_coins. rewrite (backed_ordinary _ _ _ Hb t e He).
  destruct (TxVerify.CheckTxInputs_cases c (entry_tx e) h (applied_ok _ _ Ha) (backed_ordinary _ _ _ Hb t e He)) as [(xs & c1 & Hv & -> & Hc1 & Hu1)|[Hno _]];
    [|destruct Hno; by apply (inputs_ready c D t e)]. cbn [mbind option_bind].
  destruct (TxVerify.coins_of_spend (cache_utxo c) (vin (entry_tx e)) (cache_utxo c1) xs (backed_distinct _ _ _ Hb t e He) (proj1 Hv)) as (mid & Hmid & Hsub);
    [intros i _; by rewrite Hu1|].
  destruct (backed_outputs _ _ _ Hb t e He) as [Hout Hlen].
  assert (Hm : forall o, mid !! o = if decide (o ∈ prevouts (entry_tx e)) then None else coins_after D o).
  { intros o. rewrite (spend_all_lookup _ _ _ _ Hmid o). by rewrite Hu1, (applied_coins _ _ Ha). }
  assert (Hth : GetHash (entry_tx e) = t) by (by apply (wf_hash _ (sound_wf _ Hs))).
  destruct (UpdateCoins_spec c1 (entry_tx e) check_height xs mid Hc1) as (c' & -> & Hc' & Hu').
  - unfold spends. by rewrite (backed_ordinary _ _ _ Hb t e He).
  - by rewrite (backed_ordinary _ _ _ Hb t e He).
  - done.
  - rewrite Hth. generalize 0. clear Hout Hlen Hv. induction (vout (entry_tx e)) as [|out outs IH]; intros k; cbn [fresh]; [done|]. split; [|by apply IH].
    intros _. rewrite Hm. case_decide; [done|]. unfold coins_after, available. cbn [hash]. rewrite He, decide_False by done. repeat case_match; done.
  - exists c'. split; [done|]. split; [done| | |].
    + intros o. rewrite Hu', Hth, (backed_ordinary _ _ _ Hb t e He). apply (coins_after_step D t e mid o); try done. apply (applied_closed _ _ Ha).
    + pose proof (applied_dom _ _ Ha) as Hd. assert (Hin : t ∈ dom (mapTx pool)) by (apply elem_of_dom; eauto). set_solver +Hd Hin.
    + intros x [ ->%elem_of_singleton|Hx]%elem_of_union; [set_solver +Hp|]. pose proof (applied_closed _ _ Ha x Hx) as Hx'. set_solver +Hx'.
Qed.


(** *** The transactions that wait *)

Lemma NoDup_snoc {A} (l : list A) x : NoDup l -> x ∉ l -> NoDup (l ++ [x]).
Proof using. intros Hl Hx. rewrite <- Permutation_cons_append. by apply list.NoDup_cons. Qed.

(** Some transaction that is not applied has all its parents applied. *)
Lemma some_ready D : D <> dom (mapTx pool) -> D ⊆ dom (mapTx pool) -> exists t, t ∈ dom (mapTx pool) /\ t ∉ D /\ par pool t ⊆ D.
Proof using Hs.
  intros Hne Hsub. pose proof (sound_wf _ Hs) as Hw. pose proof (wf_closed _ Hw) as Hlc.
  assert (Htr : Transitive (fun p t => p ∈ ancestors pool t)).
  { intros x y z Hxy Hyz. apply (ancestors_reach pool _ Hlc) in Hxy, Hyz. apply (ancestors_reach pool _ Hlc). by etrans. }
  assert (Hdec : forall x y, Decision ((fun p t => p ∈ ancestors pool t) x y)) by (intros x y; cbv beta; apply _).
  destruct (minimal_exists_elem_of_L (fun p t => p ∈ ancestors pool t) (dom (mapTx pool) ∖ D)) as (t & Ht & Hmin).
  { intros E. apply Hne, (anti_symm (⊆)); [done|]. intros y Hy. destruct (decide (y ∈ D)) as [|Hyn]; [done|]. set_solver +E Hy Hyn. }
  exists t. apply elem_of_difference in Ht as [Ht1 Ht2]. split; [done|]. split; [done|]. intros p Hp.
  destruct (decide (p ∈ D)) as [|Hn]; [done|]. exfalso. assert (Hpt : p ∈ ancestors pool t) by (apply (ancestors_reach pool t Hlc); by apply tc_once).
  assert (Hpd : p ∈ dom (mapTx pool)) by (by apply (par_dom _ Hlc) in Hp).
  specialize (Hmin p ltac:(set_solver +Hpd Hn) Hpt). cbv beta in Hmin.
  apply (not_own_ancestor pool t (wf_links _ Hw) (wf_acyclic _ Hw)). by apply (Htr t p t).
Qed.

(** The waiting loop: of the list, the last [length w2] are known not to be ready. *)
Lemma waiting_loop_passes fuel : forall c D w1 w2, applied c D -> NoDup (w1 ++ w2) -> (forall x, x ∈ w1 ++ w2 <-> x ∈ dom (mapTx pool) /\ x ∉ D) ->
  (forall x, x ∈ w2 -> ~ par pool x ⊆ D) ->
  (length (w1 ++ w2) * S (length (w1 ++ w2)) < fuel + length w2)%nat ->
  is_Some (waiting_loop fuel pool h c (w1 ++ w2) (length w2)).
Proof using Hs Hb.
  induction fuel as [|fuel IH]; intros c D w1 w2 Ha Hnd Hall Hnot Hf.
  { destruct (w1 ++ w2) as [|x l] eqn:E; [by eexists|]. rewrite <- E in Hf. rewrite length_app in Hf. nia. }
  destruct w1 as [|t w1].
  { cbn [app] in *. destruct w2 as [|t w2]; [by eexists|]. exfalso. destruct (some_ready D) as (x & Hx1 & Hx2 & Hx3).
    - intros E. destruct (proj1 (Hall t)) as [Ht Hn]; [by left|]. by rewrite E in Hn.
    - apply (applied_dom _ _ Ha).
    - apply (Hnot x); [by apply Hall|done]. }
  cbn [app waiting_loop]. destruct (proj1 (Hall t)) as [Htd Htn]; [by left|]. pose proof Htd as [e He]%elem_of_dom. rewrite He. cbn [mbind option_bind].
  cbn [app] in Hnd. apply list.NoDup_cons in Hnd as [Hnin Hnd].
  destruct (HaveInputs_ready c D t e Ha He Htn) as (c1 & -> & Ha1). destruct (decide (par pool t ⊆ D)) as [Hp|Hp].
  - rewrite bool_decide_true by done. cbn [negb]. destruct (check_coins_step c1 D t e Ha1 He Htn Hp) as (c2 & -> & Ha2). cbn [mbind option_bind].
    replace (w1 ++ w2) with ((w1 ++ w2) ++ []) by apply app_nil_r. apply (IH c2 ({[t]} ∪ D) (w1 ++ w2) []).
    + done.
    + by rewrite app_nil_r.
    + intros x. rewrite app_nil_r, elem_of_union, elem_of_singleton. split.
      * intros Hx. destruct (proj1 (Hall x)) as [H1 H2]; [by right|]. split; [done|]. intros [->|?]; done.
      * intros [H1 H2]. assert (Hx : x ∈ t :: w1 ++ w2) by (apply Hall; split; [done|tauto]). apply elem_of_cons in Hx as [->|]; [tauto|done].
    + intros x Hx. by apply elem_of_nil in Hx.
    + rewrite app_nil_r. cbn [length app] in Hf |- *. rewrite length_app in Hf |- *. nia.
  - rewrite bool_decide_false by done. cbn [negb]. rewrite <- app_assoc.
    assert (Hlt : (S (length w2) < length (w1 ++ w2 ++ [t]))%nat).
    { destruct w1 as [|x w1]; [|cbn [app length]; rewrite !length_app; cbn [length]; lia]. exfalso. destruct (some_ready D) as (y & Hy1 & Hy2 & Hy3).
      - intros E. by rewrite E in Htn.
      - apply (applied_dom _ _ Ha).
      - assert (Hy : y ∈ t :: w2) by (apply (Hall y); done). apply elem_of_cons in Hy as [->|Hy]; [done|]. by apply (Hnot y). }
    rewrite (proj2 (Nat.ltb_lt _ _) Hlt).
    replace (S (length w2)) with (length (w2 ++ [t])) by (rewrite length_app; cbn; lia). apply (IH c1 D w1 (w2 ++ [t]) Ha1).
    + rewrite app_assoc. apply NoDup_snoc; done.
    + intros x. rewrite <- Hall. cbn [app]. rewrite app_assoc, elem_of_app, !elem_of_cons, elem_of_nil. tauto.
    + intros x [Hx| ->%list_elem_of_singleton]%elem_of_app; [by apply Hnot|done].
    + assert (El : length (w1 ++ w2 ++ [t]) = length ((t :: w1) ++ w2)) by (cbn [app length]; rewrite !length_app; cbn [length]; lia).
      rewrite El, (length_app w2 [t]). cbn [length] in *. lia.
Qed.

(** *** The loop over the entries *)

Lemma check_inputs_passes it l : forall b P0 (pc : CCoinsViewCache V), cache_ok pc -> cache_utxo pc = u ->
  (forall i, i ∈ l -> has_output pool (prevout i) /\ mapNextTx pool !! prevout i = Some it /\ is_Some (pool_coin u pool (prevout i))) ->
  exists pc', check_inputs pool it l b P0 pc =
      Some (b || existsb (fun i => bool_decide (is_Some (mapTx pool !! hash (prevout i)))) l,
            P0 ∪ filter (fun h => is_Some (mapTx pool !! h)) (list_to_set ((fun i => hash (prevout i)) <$> l)), pc') /\
    cache_ok pc' /\ cache_utxo pc' = u.
Proof using HV.
  induction l as [|i l IH]; intros b P0 pc Hpc Hu Hl; cbn [check_inputs].
  - exists pc. split; [|done]. rewrite orb_false_r. do 2 f_equal. f_equal. set_solver +.
  - destruct (Hl i ltac:(set_solver +)) as (Ho & Hn & Hcoin). assert (Hl' : forall i, i ∈ l -> has_output pool (prevout i) /\ mapNextTx pool !! prevout i = Some it /\ is_Some (pool_coin u pool (prevout i))).
    { intros j Hj. apply Hl. by right. }
    cbn [existsb]. destruct (mapTx pool !! hash (prevout i)) as [e|] eqn:Ee.
    + destruct (Ho e Ee) as (out & -> & Hnull). cbn [mbind option_bind]. rewrite Hnull. cbn [mbind option_bind]. rewrite Hn. cbn [mbind option_bind].
      rewrite bool_decide_true by done. destruct (IH true ({[hash (prevout i)]} ∪ P0) pc Hpc Hu Hl') as (pc' & -> & Hpc' & Hu'). exists pc'. split; [|done].
      rewrite (bool_decide_true (is_Some (Some e))) by by eexists. rewrite orb_true_r. cbn [orb]. do 2 f_equal. f_equal. apply set_eq. intros y.
      assert (y = hash (prevout i) -> is_Some (mapTx pool !! y)) by (intros ->; by exists e).
      cbn [fmap list_fmap list_to_set]. rewrite !elem_of_union, !elem_of_filter, !elem_of_union, !elem_of_singleton. tauto.
    + destruct (HaveCoin_ok pc (prevout i) Hpc) as (pc1 & -> & Hpc1 & Hu1 & _ & _).
      rewrite bool_decide_true by (rewrite Hu; unfold pool_coin in Hcoin; by rewrite Ee in Hcoin). cbn [mbind option_bind]. rewrite Hn. cbn [mbind option_bind].
      rewrite bool_decide_true by done. destruct (IH b P0 pc1 Hpc1 ltac:(by rewrite Hu1) Hl') as (pc' & -> & Hpc' & Hu'). exists pc'. split; [|done].
      rewrite bool_decide_false by (by intros [? ?]). cbn [orb]. do 2 f_equal. f_equal. apply set_eq. intros y.
      assert (y = hash (prevout i) -> ~ is_Some (mapTx pool !! y)) by (intros -> [? ?]; congruence).
      cbn [fmap list_fmap list_to_set]. rewrite !elem_of_union, !elem_of_filter, !elem_of_union, !elem_of_singleton. tauto.
Qed.

Lemma check_links_pass t e : mapTx pool !! t = Some e -> check_links pool t e (links_at pool t) (par pool t) = Some ().
Proof using Hs.
  intros He. pose proof (sound_wf _ Hs) as Hw. pose proof (sound_linked _ Hs) as Hl. pose proof (wf_closed _ Hw) as Hlc.
  assert (Ht : t ∈ dom (mapTx pool)) by (apply elem_of_dom; eauto). unfold check_links.
  change (parents (links_at pool t)) with (par pool t). rewrite bool_decide_true by done. cbn [negb].
  destruct (Hw.(wf_sizes _) t e He) as [Hpos Hso].
  assert (Hr : readable pool (nTxSize e)) by (apply (totals_readable pool _ _ (wf_totals _ Hw) (wf_sizes _ Hw) (wf_bounded _ Hw)), (entry_size pool t e (wf_sizes _ Hw) (wf_bounded _ Hw) He)).
  destruct (search_for_ancestors pool e no_limits Hlc Hr) as (err & Y & -> & HY). cbn [mbind option_bind].
  assert (Y = ancestors pool t) as ->.
  { rewrite <- (linked_entry_ancestors pool t e) by done. destruct err; [|by destruct HY]. destruct HY as [_ []]. apply within_no_limits; [done|]. by apply entry_ancestors_dom. }
  destruct (check_ancestor_sums pool t e Hw He) as (S1 & S2 & S3 & S4).
  rewrite (proj2 (Z.eqb_eq _ _) S1), (proj2 (Z.eqb_eq _ _) S2), (proj2 (Z.eqb_eq _ _) S3), (proj2 (Z.eqb_eq _ _) S4). cbn [andb].
  rewrite children_check by done. change (children (links_at pool t)) with (chi pool t). rewrite (bool_decide_true (chi pool t = chi pool t)) by done.
  rewrite (proj2 (Z.leb_le _ _) (check_child_sizes pool t e Hw He)), (proj2 (forallb_forall _ _)); [done|].
  intros x Hx%list_elem_of_In%elem_of_in_hash_order. apply bool_decide_eq_true_2. apply (chi_dom _ Hlc) in Hx. by apply elem_of_dom.
Qed.

Lemma check_totals_pass : check_totals pool = true.
Proof using Hs.
  pose proof (sound_wf _ Hs) as Hw. unfold check_totals. apply andb_true_iff. rewrite !Z.eqb_eq. rewrite !foldr_map_to_list. split; [apply (wf_size _ Hw)|].
  rewrite (foldr_map_to_list (mapLinks pool) (fun l => set_usage (parents l) + set_usage (children l))). rewrite (wf_usage _ Hw). f_equal. unfold inner_usage. f_equal. apply sum_over_ext. intros x Hx. unfold link_usage, par, chi.
  by rewrite (links_at_some pool x Hx).
Qed.

Lemma check_next_pass : check_next pool = true.
Proof using Hs.
  unfold check_next. apply forallb_forall. intros [o t] Hin%list_elem_of_In%elem_of_map_to_list. apply bool_decide_eq_true_2. cbn [snd].
  apply (wf_next _ (sound_wf _ Hs)) in Hin as (e & He & _). by exists e.
Qed.

(** The state of the loop after the entries [seen]. *)
Record walked (seen : list uint256) (D : setEntries) (st : check_state) : Prop := mkWalked {
  walked_coins : applied (mempoolDuplicate st) D;
  walked_view : cache_ok (pcoins st) /\ cache_utxo (pcoins st) = u;
  walked_waiting : NoDup (waitingOnDependants st);
  walked_split x : x ∈ seen <-> x ∈ D \/ x ∈ waitingOnDependants st;
  walked_apart x : x ∈ waitingOnDependants st -> x ∉ D
}.

Lemma check_entry_passes seen D st t e : walked seen D st -> mapTx pool !! t = Some e -> t ∉ seen ->
  exists D' st', check_entry pool h (t, e) st = Some st' /\ walked (t :: seen) D' st'.
Proof using Hs Hb.
  intros [Wc [Wv1 Wv2] Ww Ws Wa] He Ht. assert (HtD : t ∉ D) by (intros Hin; apply Ht, Ws; by left).
  assert (Htw : t ∉ waitingOnDependants st) by (intros Hin; apply Ht, Ws; by right).
  unfold check_entry. rewrite links_at_some by (rewrite (links_dom _ (wf_closed _ (sound_wf _ Hs))); apply elem_of_dom; eauto). cbn [mbind option_bind].
  destruct (backed_inputs _ _ _ Hb t e He) as (xs & Hxs & _).
  destruct (check_inputs_passes t (vin (entry_tx e)) false ∅ (pcoins st) Wv1 Wv2) as (pc & -> & Hpc & Hu).
  { intros i Hi. split; [apply (sound_funded _ Hs t e); [done|apply list_elem_of_fmap; by exists i]|]. split; [by apply (spender t e)|].
    apply list_elem_of_lookup in Hi as [k Hk]. destruct (Forall2_lookup_l _ _ _ _ _ Hxs Hk) as (x & _ & Hx). by exists x. }
  cbn [mbind option_bind]. rewrite (left_id_L ∅ (∪)). change (filter _ _) with (pool_parents pool (entry_tx e)). rewrite <- (sound_linked _ Hs t e He).
  rewrite check_links_pass by done. cbn [mbind option_bind orb]. destruct (existsb _ _) eqn:Ew.
  - exists D. eexists. split; [reflexivity|]. split; cbn [mempoolDuplicate pcoins waitingOnDependants]; try done.
    + by apply NoDup_snoc.
    + intros x. rewrite elem_of_cons, elem_of_app, list_elem_of_singleton, Ws. tauto.
    + intros x [Hx| ->%list_elem_of_singleton]%elem_of_app; [by apply Wa|done].
  - assert (Hp : par pool t ⊆ D).
    { intros p (Hd & i & Hi & <-)%(parent_of t e _ He). exfalso. apply elem_of_dom in Hd.
      assert (Hx : existsb (fun i => bool_decide (is_Some (mapTx pool !! hash (prevout i)))) (vin (entry_tx e)) = true).
      { apply existsb_exists. exists i. split; [by apply list_elem_of_In|]. by apply bool_decide_eq_true_2. }
      congruence. }
    destruct (check_coins_step (mempoolDuplicate st) D t e Wc He HtD Hp) as (c' & -> & Ha'). cbn [mbind option_bind].
    exists ({[t]} ∪ D). eexists. split; [reflexivity|]. split; cbn [mempoolDuplicate pcoins waitingOnDependants]; try done.
    + intros x. rewrite elem_of_cons, elem_of_union, elem_of_singleton, Ws. tauto.
    + intros x Hx [ ->%elem_of_singleton|Hin]%elem_of_union; [done|]. by apply (Wa x).
Qed.

Lemma check_entries_pass l : forall seen D st, walked seen D st -> NoDup l.*1 -> (forall t e, (t, e) ∈ l -> mapTx pool !! t = Some e /\ t ∉ seen) ->
  exists D' st', each (check_entry pool h) l st = Some st' /\ walked (rev l.*1 ++ seen) D' st'.
Proof using Hs Hb.
  induction l as [|[t e] l IH]; intros seen D st Hw Hd Hl; cbn [each].
  - by exists D, st.
  - destruct (Hl t e ltac:(by left)) as [He Ht]. destruct (check_entry_passes seen D st t e Hw He Ht) as (D1 & st1 & -> & Hw1). cbn [mbind option_bind].
    cbn [fmap list_fmap] in Hd. apply list.NoDup_cons in Hd as [Hn Hd]. destruct (IH (t :: seen) D1 st1 Hw1 Hd) as (D2 & st2 & -> & Hw2).
    + intros t' e' Hin. destruct (Hl t' e' ltac:(by right)) as [He' Ht']. split; [done|]. rewrite elem_of_cons. intros [->|]; [|done].
      apply Hn, list_elem_of_fmap. by exists (t, e').
    + exists D2, st2. split; [done|]. cbn [fmap list_fmap rev]. by rewrite <- app_assoc.
Qed.

(** *** The whole check *)

Lemma check_passes (mapBlockIndex : gmap uint256 Z) roll (pc : CCoinsViewCache V) : cache_ok pc -> cache_utxo pc = u ->
  mapBlockIndex !! cache_best pc = Some (h - 1) -> check mapBlockIndex roll pool pc = Some ().
Proof using Hs Hb.
  intros Hpc Hu Hbest. unfold check. destruct (_ =? 0); [done|]. destruct (_ >=? _); [done|].
  destruct (cache_GetBestBlock_ok (HV := CCoinsViewCache_ok) (new_cache pc) (new_cache_ok (HV := CCoinsViewCache_ok) pc Hpc)) as (c & Hget & Hc & Huc & _).
  unfold GetSpendHeight. rewrite Hget. change (cache_best (new_cache pc)) with (cache_best pc). rewrite Hbest. cbn [mbind option_bind]. rewrite Z.sub_add.
  assert (Hw0 : walked [] ∅ (mkCheckState c pc [])).
  { split; cbn [mempoolDuplicate pcoins waitingOnDependants]; try done.
    - split; [done| |set_solver +|set_solver +]. intros o. rewrite Huc. change (cache_utxo (new_cache pc)) with (overlay ∅ (cache_utxo pc)).
      rewrite overlay_empty, Hu. unfold coins_after, available. assert (Hemp : forall x : uint256, x ∉ (∅ : setEntries)) by set_solver +.
      destruct (mapTx pool !! hash o) as [e|] eqn:E.
      + assert (Hn : u !! o = None) by (destruct o as [t i]; apply (backed_fresh _ _ _ Hb); by exists e). rewrite Hn.
        rewrite (decide_False (P := hash o ∈ (∅ : setEntries))) by apply Hemp. destruct (mapNextTx pool !! o); [by case_decide|done].
      + destruct (mapNextTx pool !! o) as [t|]; [by rewrite decide_False by apply Hemp|done].
    - constructor.
    - intros x. rewrite !elem_of_nil. set_solver +.
  }
  destruct (check_entries_pass (map_to_list (mapTx pool)) [] ∅ _ Hw0) as (D & st & -> & [Wc _ Ww Ws Wa]).
  { apply NoDup_fst_map_to_list. } { intros t e Hin. split; [by apply elem_of_map_to_list|apply not_elem_of_nil]. }
  cbn [mbind option_bind]. destruct (waiting_loop_passes (waiting_fuel (waitingOnDependants st)) (mempoolDuplicate st) D (waitingOnDependants st) []) as [c' Hc'].
  - done.
  - by rewrite app_nil_r.
  - intros x. rewrite app_nil_r. assert (Hx : x ∈ rev (map_to_list (mapTx pool)).*1 ++ [] <-> x ∈ dom (mapTx pool)).
    { rewrite app_nil_r, list_elem_of_In, <- in_rev, <- list_elem_of_In, list_elem_of_fmap, elem_of_dom. split.
      - intros ([t e] & -> & Hin). exists e. by apply elem_of_map_to_list.
      - intros [e He]. exists (x, e). split; [done|]. by apply elem_of_map_to_list. }
    specialize (Ws x). specialize (Wa x). rewrite Hx in Ws. tauto.
  - intros x Hx. by apply elem_of_nil in Hx.
  - rewrite app_nil_r. unfold waiting_fuel. cbn [length]. lia.
  - rewrite app_nil_r in Hc'. cbn [length] in Hc'. rewrite Hc'. cbn [mbind option_bind]. by rewrite check_next_pass, check_totals_pass.
Qed.

End Backed.

Arguments backed {PE} V {CV HV} u h pool.

(** ** The theorem *)

(** [setSanityCheck]; [frequency] is [dFrequency * 4294967295.0] as an integer. *)
Definition setSanityCheck {PE : PoolEnv} (frequency : Z) (pool : CTxMemPool) : CTxMemPool :=
  mkPool frequency (nTransactionsUpdated pool) (minerPolicyEstimator pool) (totalTxSize pool) (cachedInnerUsage pool) (lastRollingFeeUpdate pool)
    (blockSinceLastRollingFeeBump pool) (rollingMinimumFeeRate pool) (mapTx pool) (vTxHashes pool) (vTxHashes_capacity pool) (mapLinks pool)
    (mapAddress pool) (mapAddressInserted pool) (mapSpent pool) (mapSpentInserted pool) (mapNextTx pool) (mapDeltas pool) (notifications pool).

Lemma setSanityCheck_sound {CR : Crypto} {PE : PoolEnv} frequency pool : sound pool -> sound (setSanityCheck frequency pool).
Proof. intros [Hw Hl Hp Hf]. split; try done. by apply (wf_ext pool). Qed.

(** C5: the memory pool never fails one of its assertions, and it passes its own
    consistency check against every view that backs it. Start with the pool of the
    constructor, checked with any frequency, and run any sequence of additions, recursive removals, removals of
    conflicts, connected blocks, disconnected blocks, reorganisations, expiries,
    trims, changes of priority and reads of the minimum fee, in which the callers
    offer transactions that spend unspent outputs which exist, blocks in order, and
    views with the coins they must have. Then no step
    aborts. And whatever cache of coins is then passed to [check], with whatever
    frequency and random number, if the height of its best block is known and its coins back the pool for the
    next height (every input of an entry finds its coin in the view or its output in
    the pool, mature and with values in range and not below the outputs, no
    entry is a coinbase or has coins in the view), [check] returns: all its
    assertions hold, on links, totals, inputs and coins, its loop over the waiting
    transactions ends, and every transaction passes [CheckTxInputs] in the order it finds. *)
Theorem mempool_check_never_fails {CR : Crypto} {PE : PoolEnv} {PR : TxVerify.Protocols} fee now frequency ops :
  permitted ops (setSanityCheck frequency (new_pool fee now)) ->
  exists pool, each run ops (setSanityCheck frequency (new_pool fee now)) = Some pool /\ sound pool /\
    forall (V : Type) (CV : CCoinsView V) (HV : CCoinsViewOk V) (pc : CCoinsViewCache V) mapBlockIndex nHeight frequency' roll,
      cache_ok pc -> mapBlockIndex !! cache_best pc = Some nHeight -> backed V (cache_utxo pc) (nHeight + 1) pool ->
      check mapBlockIndex roll (setSanityCheck frequency' pool) pc = Some ().
Proof.
  intros Hp. destruct (run_all_sound ops _ (setSanityCheck_sound frequency _ (new_pool_sound fee now)) Hp) as (pool & E & Hs).
  exists pool. split; [done|]. split; [done|]. intros V CV HV pc blocks nHeight frequency' roll Hc Hbest [B1 B2 B3 B4 B5].
  apply (check_passes (cache_utxo pc) (nHeight + 1)); [by apply setSanityCheck_sound|by split|done|done|].
  by replace (nHeight + 1 - 1) with nHeight by lia.
Qed.

(** ** A pool with a parent and a child, and the coin of the parent *)

Section Example_check.
#[local] Existing Instance InterpreterSafety.toy_crypto.
#[local] Existing Instance MemPoolSafety.toy_env.
#[local] Existing Instance TxVerify.toy_protocols.
#[local] Existing Instance toy_curve.
#[local] Existing Instance toy_curve_ok.

Definition paid_outpoint : COutPoint := mkCOutPoint (repeat 9 32) 0.
Definition paid_coin : Coin := mkCoin (mkCTxOut 200 [OP_1] (-10)) false 1.
Definition paid_view : CCoinsViewCache CCoinsViewDB := new_cache (mkDB {[paid_outpoint := Ser c_coin paid_coin]} (Some (repeat 9 32))).
Definition unpaid_view : CCoinsViewCache CCoinsViewDB := new_cache (mkDB ∅ (Some (repeat 9 32))).
Definition known_blocks : gmap uint256 Z := {[repeat 9 32 := 4]}.

Lemma paid_view_ok : cache_ok paid_view.
Proof.
  apply new_cache_ok. intros o bs Hb. cbn [db_coins] in Hb. apply lookup_singleton_Some in Hb as [_ <-]. exists paid_coin. split; [|reflexivity].
  vm_compute. intuition congruence.
Qed.

Lemma pool2_txs t e : mapTx pool2 !! t = Some e -> entry_tx e = coin_tx \/ entry_tx e = child_tx.
Proof.
  assert (Hall : map_Forall (fun _ e => entry_tx e = coin_tx \/ entry_tx e = child_tx) (mapTx pool2)) by by_decide. exact (Hall t e).
Qed.

Lemma paid_utxo : cache_utxo paid_view = {[paid_outpoint := paid_coin]}.
Proof. vm_compute. reflexivity. Qed.

Lemma pool2_backed : backed CCoinsViewDB (cache_utxo paid_view) 5 pool2.
Proof.
  split.
  - intros t e [-> | ->]%pool2_txs; reflexivity.
  - intros t e [-> | ->]%pool2_txs; (constructor; [apply not_elem_of_nil|constructor]).
  - intros t e [-> | ->]%pool2_txs.
    + exists [paid_coin]. split; [constructor; [vm_compute; reflexivity|constructor]|].
      split; [constructor; [done|constructor]|]. split; [constructor; [vm_compute; intuition congruence|constructor]|].
      split; [vm_compute; congruence|]. split; [repeat constructor; vm_compute; congruence|vm_compute; congruence].
    + exists [Coin_of (mkCTxOut 100 [OP_1] (-10)) check_height false]. split; [constructor; [vm_compute; reflexivity|constructor]|].
      split; [constructor; [done|constructor]|]. split; [constructor; [vm_compute; intuition congruence|constructor]|].
      split; [vm_compute; congruence|]. split; [repeat constructor; vm_compute; congruence|vm_compute; congruence].
  - intros t e [-> | ->]%pool2_txs; (split; [|vm_compute; congruence]);
      repeat (constructor; [split; [reflexivity|intros _; unfold coin_ok, CCoinsViewDB_ok, coin_storable; vm_compute; intuition congruence]|]); constructor.
  - intros t i [e He]. rewrite paid_utxo. apply lookup_singleton_ne. intros [= Ht _]. pose proof (wf_hash _ (sound_wf _ pool2_sound) t e He) as Hh.
    destruct (pool2_txs t e He) as [E|E]; rewrite E, <- Ht in Hh; vm_compute in Hh; discriminate Hh.
Qed.

(** [check] runs through for the view with the coin of the parent, and fails its
    assertion for the one without it. *)
Lemma mempool_check_never_fails_witness :
  each run [OpAdd e_coin true; OpAdd e_child true] (setSanityCheck 0 pool0) = Some pool2 /\
  check known_blocks 3 (setSanityCheck 4294967295 pool2) paid_view = Some () /\
  check known_blocks 3 (setSanityCheck 4294967295 pool2) unpaid_view = None.
Proof.
  destruct (mempool_check_never_fails 1000 50 0 [OpAdd e_coin true; OpAdd e_child true]) as (pool & E & _ & Hc).
  - apply (permitted_cons _ _ _ pool1); [exact offered_coin|exact run_coin|]. apply (permitted_cons _ _ _ pool2); [exact offered_child|exact run_child|exact I].
  - assert (E2 : each run [OpAdd e_coin true; OpAdd e_child true] (setSanityCheck 0 pool0) = Some pool2) by (vm_compute; reflexivity).
    assert (Hp : pool = pool2) by (apply (inj Some); rewrite <- E2, <- E; reflexivity).
    split; [exact E2|]. split; [|vm_compute; reflexivity]. rewrite <- Hp.
    apply (Hc CCoinsViewDB _ _ paid_view known_blocks 4 4294967295 3); [exact paid_view_ok|vm_compute; reflexivity|]. rewrite Hp. exact pool2_backed.
Defined.

End Example_check.
End MemPoolCheck.
