(* ===== verification/Miner.v ===== *)
(** * Block templates (miner/miner-util.cpp)

    [CreateNewBlock] fills a block from the memory pool: first, up to a size,
    with the transactions of the highest priority, then by fee rate, each after
    its parents in the pool.  It then writes the coinbase, with the reward, the
    minted coins and the payment of the masternode or of a superblock.

    A heap and a [std::priority_queue] are lists from which the greatest element
    is taken.  Both comparators compare hashes last, so that the greatest element
    is unique and the layout of the heap does not matter; for the same reason
    the index of the pool by score is a sorted list.  The arithmetic of doubles
    extends that of [MemPool]; the priorities of entries, which the pool does not
    read, come with the environment of the miner.  [None] is a failed assertion or
    an exception.  The outputs for the masternode and the superblock that
    the template repeats for [getblocktemplate] are left out. *)

From stdpp Require Import base list list_numbers gmap fin_sets sorting numbers option.
From Stdlib Require Import ZArith Lia.
From S2P Require Import Prelude Serialize Script Transaction Interpreter InterpreterSafety Standard Coins Ledger TxVerify Chain Pow Merkle Encodings FluidToken FluidDB Governance Payments TxGraph MemPool.

Local Open Scope Z_scope.

Module Miner.
Import Serialize Script Transaction Interpreter Ledger TxVerify TxGraph MemPool.

Definition MAX_BLOCK_SIZE : Z := 1572864.
Definition MAX_BLOCK_SIGOPS : Z := MAX_BLOCK_SIZE / 50.
Definition DEFAULT_BLOCK_MAX_SIZE : Z := 1179648.
Definition DEFAULT_BLOCK_MIN_SIZE : Z := 0.
Definition DEFAULT_BLOCK_PRIORITY_SIZE : Z := 262144.

(** ** Blocks *)

Record CBlock : Type := mkBlock { header : Chain.CBlockHeader; vtx : list CTransaction }.

Record CBlockTemplate : Type := mkTemplate { block : CBlock; vTxFees : list Z; vTxSigOps : list Z }.

(** ** Queues *)

(** [pop_heap] and [priority_queue::pop] with the comparator [lt]. *)
Fixpoint pop_max {A : Type} (lt : A -> A -> bool) (l : list A) : option (A * list A) :=
  match l with
  | [] => None
  | x :: l =>
      match pop_max lt l with
      | None => Some (x, [])
      | Some (y, l') => if lt y x then Some (x, y :: l') else Some (y, x :: l')
      end
  end.

(** The arithmetic of doubles used here. *)
Class Arithmetic `{!PoolEnv} : Type := {
  d_add : double -> double -> double;
  d_mul : double -> double -> double;
  d_div : double -> double -> double
}.

Section Templates.
Context `{!Crypto} `{!PoolEnv} `{!Arithmetic} `{!Protocols} `{!Encodings.Base58Prefix}.
Implicit Types (pool : CTxMemPool) (e : CTxMemPoolEntry) (it : uint256).

(** ** Priorities and scores *)

Definition AllowFreeThreshold : double := d_of (COIN * 144 / 250).
Definition AllowFree (dPriority : double) : bool := d_ltb AllowFreeThreshold dPriority.

(** [CTxMemPoolEntry::GetPriority], of an entry that entered with a priority. *)
Definition GetPriority (entryPriority : double) e (currentHeight : Z) : double :=
  let deltaPriority := d_div (d_mul (d_of (u32 (currentHeight - entryHeight e))) (d_of (inChainInputValue e))) (d_of (nModSize e)) in
  let dResult := d_add entryPriority deltaPriority in
  if d_ltb dResult (d_of 0) then d_of 0 else dResult.

(** [CompareTxMemPoolEntryByScore]: the higher score comes first. *)
Definition CompareTxMemPoolEntryByScore (a b : CTxMemPoolEntry) : bool :=
  let f1 := d_mul (d_of (GetModifiedFee a)) (d_of (nTxSize b)) in
  let f2 := d_mul (d_of (GetModifiedFee b)) (d_of (nTxSize a)) in
  if d_eqb f1 f2 then FluidDB.bytes_lt (GetHash (entry_tx b)) (GetHash (entry_tx a)) else d_ltb f2 f1.

Definition by_score pool (a b : uint256) : bool :=
  match mapTx pool !! a, mapTx pool !! b with
  | Some ea, Some eb => CompareTxMemPoolEntryByScore ea eb
  | _, _ => false
  end.

(** [ScoreCompare] and [TxCoinAgePriorityCompare], on iterators. *)
Definition ScoreCompare pool (a b : uint256) : bool := by_score pool b a.
Definition TxCoinAgePriorityCompare pool (a b : double * uint256) : bool :=
  if d_eqb a.1 b.1 then by_score pool b.2 a.2 else d_ltb a.1 b.1.

(** The index of the pool by score. *)
Definition score_le pool (a b : uint256) : Prop := by_score pool b a = false.
#[export] Instance score_le_dec pool : RelDecision (score_le pool).
Proof. intros a b. unfold score_le. apply _. Defined.
Definition mining_score pool : list uint256 := merge_sort (score_le pool) (elements (dom (mapTx pool))).

(** ** The selection of transactions *)

(** The arguments of the node, and the priorities of the transactions. *)
Record miner_env : Type := mkMiner {
  arg_blockmaxsize : Z;
  arg_blockprioritysize : Z;
  arg_blockminsize : Z;
  minRelayTxFee : Z;
  entryPriority : uint256 -> double;
  priorityDelta : uint256 -> double
}.

(** The limits; the arguments are 64-bit numbers. *)
Definition nBlockMaxSize (env : miner_env) : Z := Z.max 1000 (Z.min (MAX_BLOCK_SIZE - 1000) (u32 (arg_blockmaxsize env))).
Definition nBlockPrioritySize (env : miner_env) : Z := Z.min (nBlockMaxSize env) (u32 (arg_blockprioritysize env)).
Definition nBlockMinSize (env : miner_env) : Z := Z.min (nBlockMaxSize env) (u32 (arg_blockminsize env)).

(** The transactions that are still to be looked at, and those that wait for a
    parent; [mi] is the rest of the index by score. *)
Record queues : Type := mkQueues {
  vecPriority : list (double * uint256);
  waitPriMap : gmap uint256 double;
  clearedTxs : list uint256;
  waitSet : setEntries;
  mi : list uint256
}.

(** What the block has so far, without its coinbase. *)
Record tally : Type := mkTally {
  inBlock : setEntries;
  chosen : list CTransaction;
  chosen_fees : list Z;
  chosen_sigops : list Z;
  nBlockSize : Z;
  nBlockTx : Z;
  nBlockSigOps : Z;
  nFees : Z
}.

Record selection : Type := mkSelection {
  waiting : queues;
  taken : tally;
  fPriorityBlock : bool;
  actualPriority : double;
  lastFewTxs : Z
}.
Implicit Types (q : queues) (b : tally) (st : selection).

(** [vecPriority] before it becomes a heap. *)
Definition priority_of (env : miner_env) pool (nHeight : Z) it : double :=
  match mapTx pool !! it with
  | Some e =>
      let dPriority := GetPriority (entryPriority env it) e nHeight in
      match mapDeltas pool !! it with Some _ => d_add dPriority (priorityDelta env it) | None => dPriority end
  | None => d_of 0
  end.
Definition initial_priorities (env : miner_env) pool (nHeight : Z) : list (double * uint256) :=
  (fun it => (priority_of env pool nHeight it, it)) <$> in_hash_order (dom (mapTx pool)).

Definition start (env : miner_env) pool (nHeight : Z) : selection :=
  let fPriorityBlock := 0 <? nBlockPrioritySize env in
  mkSelection
    (mkQueues (if fPriorityBlock then initial_priorities env pool nHeight else []) ∅ [] ∅ (mining_score pool))
    (mkTally ∅ [] [] [] 1000 0 100 0)
    fPriorityBlock (d_of (-1)) 0.

(** The transaction that a round looks at: whether it comes from the priority
    queue, its iterator, and what is left. *)
Definition next pool st : option (bool * uint256 * selection) :=
  let q := waiting st in
  match (if fPriorityBlock st then pop_max (TxCoinAgePriorityCompare pool) (vecPriority q) else None) with
  | Some ((p, it), rest) =>
      Some (true, it, mkSelection (mkQueues rest (waitPriMap q) (clearedTxs q) (waitSet q) (mi q)) (taken st) true p (lastFewTxs st))
  | None =>
      match pop_max (ScoreCompare pool) (clearedTxs q) with
      | None =>
          match mi q with
          | [] => None
          | it :: mi' =>
              Some (false, it, mkSelection (mkQueues (vecPriority q) (waitPriMap q) (clearedTxs q) (waitSet q) mi') (taken st)
                                 (fPriorityBlock st) (actualPriority st) (lastFewTxs st))
          end
      | Some (it, rest) =>
          Some (false, it, mkSelection (mkQueues (vecPriority q) (waitPriMap q) rest (waitSet q) (mi q)) (taken st)
                             (fPriorityBlock st) (actualPriority st) (lastFewTxs st))
      end
  end.

(** A transaction with a parent that is not in the block waits. *)
Definition postpone (priorityTx : bool) it st : selection :=
  let q := waiting st in
  mkSelection
    (if priorityTx
     then mkQueues (vecPriority q) (match waitPriMap q !! it with Some _ => waitPriMap q | None => <[it := actualPriority st]> (waitPriMap q) end)
            (clearedTxs q) (waitSet q) (mi q)
     else mkQueues (vecPriority q) (waitPriMap q) (clearedTxs q) ({[it]} ∪ waitSet q) (mi q))
    (taken st) (fPriorityBlock st) (actualPriority st) (lastFewTxs st).

(** The space for priorities is used up, or the priorities are too low. *)
Definition leave_priority (env : miner_env) (nTxSize : Z) st : selection :=
  if fPriorityBlock st && ((nBlockPrioritySize env <=? u64 (nBlockSize (taken st) + nTxSize)) || negb (AllowFree (actualPriority st))) then
    let q := waiting st in
    mkSelection (mkQueues (vecPriority q) ∅ (clearedTxs q) (waitSet q) (mi q)) (taken st) false (actualPriority st) (lastFewTxs st)
  else st.

(** A child of a transaction that is now in the block. *)
Definition wake (fPriority : bool) q (child : uint256) : queues :=
  if fPriority then
    match waitPriMap q !! child with
    | Some p => mkQueues ((p, child) :: vecPriority q) (delete child (waitPriMap q)) (clearedTxs q) (waitSet q) (mi q)
    | None => q
    end
  else if bool_decide (child ∈ waitSet q)
  then mkQueues (vecPriority q) (waitPriMap q) (child :: clearedTxs q) (waitSet q ∖ {[child]}) (mi q)
  else q.

Definition take_tx e it b : tally :=
  mkTally ({[it]} ∪ inBlock b) (chosen b ++ [entry_tx e]) (chosen_fees b ++ [nFee e]) (chosen_sigops b ++ [sigOpCount e])
    (u64 (nBlockSize b + nTxSize e)) (u64 (nBlockTx b + 1)) (u32 (nBlockSigOps b + sigOpCount e)) (i64 (nFees b + nFee e)).

Definition include pool e it st : option selection :=
  children ← GetMemPoolChildren pool it;
  Some (mkSelection (foldl (wake (fPriorityBlock st)) (waiting st) (in_hash_order children)) (take_tx e it (taken st))
          (fPriorityBlock st) (actualPriority st) (lastFewTxs st)).

(** The rest of a round, and whether the loop goes on. *)
Definition consider (env : miner_env) pool (nHeight nLockTimeCutoff : Z) (priorityTx : bool) it st : option (bool * selection) :=
  if bool_decide (it ∈ inBlock (taken st)) then Some (true, st)
  else
    parents ← GetMemPoolParents pool it;
    if negb (bool_decide (parents ⊆ inBlock (taken st))) then Some (true, postpone priorityTx it st)
    else
      e ← mapTx pool !! it;
      let nTxSize := u32 (nTxSize e) in
      let st := leave_priority env nTxSize st in
      let size := nBlockSize (taken st) in
      fee ← GetFee (minRelayTxFee env) nTxSize;
      if negb priorityTx && ((GetModifiedFee e <? fee) && (nBlockMinSize env <=? size)) then Some (false, st)
      else if nBlockMaxSize env <=? u64 (size + nTxSize) then
        if (nBlockMaxSize env - 100 <? size) || (50 <? lastFewTxs st) then Some (false, st)
        else Some (true, if nBlockMaxSize env - 1000 <? size
                         then mkSelection (waiting st) (taken st) (fPriorityBlock st) (actualPriority st) (lastFewTxs st + 1) else st)
      else if negb (IsFinalTx (entry_tx e) nHeight nLockTimeCutoff) then Some (true, st)
      else if MAX_BLOCK_SIGOPS <=? u32 (nBlockSigOps (taken st) + sigOpCount e) then
        Some (negb (MAX_BLOCK_SIGOPS - 2 <? nBlockSigOps (taken st)), st)
      else st ← include pool e it st; Some (true, st).

Fixpoint select_loop (fuel : nat) (env : miner_env) pool (nHeight nLockTimeCutoff : Z) st : option selection :=
  match mi (waiting st), clearedTxs (waiting st) with
  | [], [] => Some st
  | _, _ =>
      match fuel with
      | O => None
      | S fuel =>
          '(priorityTx, it, st) ← next pool st;
          '(go_on, st) ← consider env pool nHeight nLockTimeCutoff priorityTx it st;
          if (go_on : bool) then select_loop fuel env pool nHeight nLockTimeCutoff st else Some st
      end
  end.

(** Each transaction is looked at once in each queue, and again after a parent of it
    has entered the block. *)
Definition select_fuel pool : nat := let k := size (mapTx pool) in k * (k + 3) + 1.

Definition select (env : miner_env) pool (nHeight nLockTimeCutoff : Z) : option tally :=
  taken <$> select_loop (select_fuel pool) env pool nHeight nLockTimeCutoff (start env pool nHeight).

(** ** The coinbase *)

(** What the template needs of the rest of the node: the parameters of the chain,
    the state of the governance objects and of the votes for payees, and the
    databases of fluid commands. *)
Record payment_env : Type := mkPaymentEnv {
  rewards : FluidDB.reward_params;
  superblocks : Governance.superblock_params;
  payments : Payments.pay_env;
  governance : Governance.gov_env;
  payees : Payments.CMasternodePayments;
  miningDB : option (FluidDB.fluid_db FluidDB.CFluidReward);
  masternodeDB : option (FluidDB.fluid_db FluidDB.CFluidReward);
  mintDB : option (FluidDB.fluid_db FluidDB.CFluidMint)
}.
Implicit Types pe : payment_env.

Definition masternode_reward pe (h : Z) : Z := FluidDB.GetFluidMasternodeReward (rewards pe) (masternodeDB pe) h.

(** [chainActive.Height()] is one less than the height of the new block. *)
Definition blockReward pe (nHeight fees : Z) : Z :=
  let reward := FluidDB.GetFluidMiningReward (rewards pe) (miningDB pe) nHeight in
  if FluidDB.nFeeRewardStart (rewards pe) <? nHeight - 1 then i64 (fees + reward) else reward.

(** The script of an address to which coins are minted. *)
Definition mint_script (mintAddress : Encodings.CBase58Data) : option CScript :=
  if negb (Encodings.Address_IsValid mintAddress) then None
  else if negb (bool_decide (Encodings.vchVersion mintAddress = Encodings.SCRIPT_ADDRESS)) then
    Some (Standard.GetScriptForDestination (Encodings.Address_Get mintAddress))
  else match Encodings.Address_Get mintAddress with
       | Standard.CScriptID fluidScriptID => Some (push_bytes [OP_HASH160] fluidScriptID ++ [OP_EQUAL])
       | _ => None
       end.

(** The outputs before the payments of masternodes and superblocks. *)
Definition issued_outputs pe (scriptPubKeyIn : option CScript) (nHeight reward : Z) : option (list CTxOut) :=
  let script := default [] scriptPubKeyIn in
  match FluidDB.GetMintingInstructions (mintDB pe) nHeight with
  | None => Some [mkCTxOut reward script (-10)]
  | Some fluidMint =>
      let fluidIssuance := FluidDB.MintAmount fluidMint in
      '(mintAddress, _) ← Encodings.SetString (FluidDB.DestinationAddress fluidMint);
      mint ← mint_script mintAddress;
      Some [mkCTxOut (i64 (i64 (reward + fluidIssuance) - fluidIssuance)) script (-10); mkCTxOut fluidIssuance mint (-10)]
  end.

Definition coinbase_outputs pe (g : Governance.gov_state) (scriptPubKeyIn : option CScript) (nHeight fees : Z)
  : option (Governance.gov_state * list CTxOut) :=
  outs ← issued_outputs pe scriptPubKeyIn nHeight (blockReward pe nHeight fees);
  Some (Payments.FillBlockPayments (superblocks pe) (payments pe) (masternode_reward pe) (governance pe) g (payees pe) outs nHeight).

Definition coinbase_script (nHeight : Z) : CScript := push_int64 [] nHeight ++ [OP_0].

Definition new_coinbase (nHeight : Z) (outs : list CTxOut) : CTransaction :=
  mkCTransaction 1 [mkCTxIn COutPoint_SetNull (coinbase_script nHeight) SEQUENCE_FINAL] outs 0.

(** ** The block *)

Definition with_time (block : Chain.CBlockHeader) (time bits : Z) : Chain.CBlockHeader :=
  Chain.mkHeader (Chain.hd_nVersion block) (Chain.hd_hashPrevBlock block) (Chain.hd_hashMerkleRoot block) time bits (Chain.hd_nNonce block).

(** The block index, the rules of difficulty with their scaling in floating
    point ([Pow]), whether blocks of minimal difficulty are allowed, the clock
    and the version that [ComputeBlockVersion] or the argument gives. *)
Record chain_env : Type := mkChainEnv {
  tree : gmap nat Chain.CBlockIndex;
  scale_min : Z -> Z;
  scale_max : Z -> Z;
  pow_params : Pow.Params;
  fPowAllowMinDifficultyBlocks : bool;
  GetAdjustedTime : Z;
  block_version : Z
}.
Implicit Types ce : chain_env.

Definition next_work ce (indexPrev : nat) : option Z := Pow.GetNextWorkRequired (scale_min ce) (scale_max ce) (tree ce) (Some indexPrev) (pow_params ce).

Definition UpdateTime ce (indexPrev : nat) (block : Chain.CBlockHeader) : option (Z * Chain.CBlockHeader) :=
  let old_time := Chain.hd_nTime block in
  mtp ← Chain.GetMedianTimePast (tree ce) indexPrev;
  let new_time := Z.max (i64 (mtp + 1)) (GetAdjustedTime ce) in
  let time := if old_time <? new_time then u32 new_time else old_time in
  bits ← (if fPowAllowMinDifficultyBlocks ce then next_work ce indexPrev else Some (Chain.hd_nBits block));
  Some (i64 (new_time - old_time), with_time block time bits).

(** [TestBlockValidity] is an argument; when it fails an exception is thrown. *)
Definition CreateNewBlock (TestBlockValidity : CBlock -> bool) (env : miner_env) ce pe (g : Governance.gov_state) pool (indexPrev : nat)
  (scriptPubKeyIn : option CScript) : option (Governance.gov_state * CBlockTemplate) :=
  prev ← tree ce !! indexPrev;
  let nHeight := Chain.nHeight prev + 1 in
  let time := u32 (GetAdjustedTime ce) in
  nLockTimeCutoff ← Chain.GetMedianTimePast (tree ce) indexPrev;
  b ← select env pool nHeight nLockTimeCutoff;
  '(g, outs) ← coinbase_outputs pe g scriptPubKeyIn nHeight (nFees b);
  let coinbase := new_coinbase nHeight outs in
  let header := Chain.mkHeader (block_version ce) (Chain.hashBlock prev) uint256_null time 0 0 in
  '(_, header) ← UpdateTime ce indexPrev header;
  bits ← next_work ce indexPrev;
  let block := mkBlock (with_time header (Chain.hd_nTime header) bits) (coinbase :: chosen b) in
  if TestBlockValidity block
  then Some (g, mkTemplate block (i64 (- nFees b) :: chosen_fees b) (GetLegacySigOpCount coinbase :: chosen_sigops b))
  else None.

Definition with_coinbase (block : CBlock) (coinbase : CTransaction) : CBlock :=
  let vtx := coinbase :: tail (vtx block) in
  let h := header block in
  mkBlock (Chain.mkHeader (Chain.hd_nVersion h) (Chain.hd_hashPrevBlock h) (Merkle.BlockMerkleRoot vtx).1
             (Chain.hd_nTime h) (Chain.hd_nBits h) (Chain.hd_nNonce h)) vtx.

(** The static variable [hashPrevBlock] and the caller's [nExtraNonce] are
    passed and returned; [flags] is [COINBASE_FLAGS]. *)
Definition IncrementExtraNonce (flags : CScript) (hashPrevBlock : uint256) (nExtraNonce : Z) (prev : Chain.CBlockIndex) (block : CBlock)
  : option (uint256 * Z * CBlock) :=
  let fresh := negb (bool_decide (hashPrevBlock = Chain.hd_hashPrevBlock (header block))) in
  let nExtraNonce := u32 ((if fresh then 0 else nExtraNonce) + 1) in
  let nHeight := u32 (Chain.nHeight prev + 1) in
  txCoinbase ← head (vtx block);
  i ← head (vin txCoinbase);
  let scriptSig := push_bytes (push_int64 [] nHeight) (serialize nExtraNonce) ++ flags in
  if zlen scriptSig <=? 100 then
    Some (Chain.hd_hashPrevBlock (header block), nExtraNonce,
          with_coinbase block (mkCTransaction (nVersion txCoinbase) (mkCTxIn (prevout i) scriptSig (nSequence i) :: tail (vin txCoinbase))
                                 (vout txCoinbase) (nLockTime txCoinbase)))
  else None.

Definition SetBlockPubkeyScript (block : CBlock) (scriptPubKeyIn : CScript) : option CBlock :=
  txCoinbase ← head (vtx block);
  o ← head (vout txCoinbase);
  Some (with_coinbase block (mkCTransaction (nVersion txCoinbase) (vin txCoinbase)
                               (mkCTxOut (nValue o) scriptPubKeyIn (nRounds o) :: tail (vout txCoinbase)) (nLockTime txCoinbase))).

End Templates.
End Miner.
