(* ===== verification/MinerSelect.v ===== *)
(** * The selection of transactions for a block

    The loop of [CreateNewBlock] always ends.  The transactions it takes are
    distinct, final, in an order in which parents come first, and within the
    limits on size and signature operations; it takes the whole pool when the
    pool fits. *)

From stdpp Require Import base relations list list_numbers gmap fin_sets sorting numbers option.
From Stdlib Require Import ZArith Lia.
From S2P Require Import Prelude Serialize Script Transaction Interpreter InterpreterSafety Coins Ledger TxVerify TxGraph MemPool MemPoolInv MemPoolOps MemPoolAdd MemPoolSteps MemPoolSafety Encodings Miner.

Local Open Scope Z_scope.

Module MinerSelect.
Import Serialize Script Transaction Interpreter Ledger TxVerify TxGraph MemPool MemPoolInv MemPoolOps MemPoolAdd MemPoolSteps Miner.

(** ** Queues *)

Lemma pop_max_none {A} (lt : A -> A -> bool) l : pop_max lt l = None -> l = [].
Proof. destruct l as [|x l]; [done|]. cbn. destruct (pop_max lt l) as [[y l']|]; [by destruct (lt y x)|done]. Qed.

Lemma pop_max_perm {A} (lt : A -> A -> bool) l : forall x r, pop_max lt l = Some (x, r) -> l ≡ₚ x :: r.
Proof.
  induction l as [|a l IH]; intros x r E; [done|]. cbn in E. destruct (pop_max lt l) as [[y l']|] eqn:Ep.
  - specialize (IH y l' eq_refl). destruct (lt y a); injection E as <- <-; rewrite IH; [done|apply Permutation_swap].
  - apply pop_max_none in Ep as ->. by injection E as <- <-.
Qed.

(** With a strict order it is a greatest element that is taken. *)
Lemma pop_max_greatest {A} (lt : A -> A -> bool) l : (forall a b, lt a b = true -> lt b a = false) ->
  (forall a b c, lt a b = true -> lt b c = true -> lt a c = true) ->
  forall x r y, pop_max lt l = Some (x, r) -> y ∈ r -> lt x y = false.
Proof.
  intros Ha Ht. induction l as [|a l IH]; intros x r z E Hz; [done|]. cbn in E. destruct (pop_max lt l) as [[y l']|] eqn:Ep.
  - destruct (lt y a) eqn:El; injection E as <- <-; apply elem_of_cons in Hz as [->|Hz]; try done.
    + by apply Ha.
    + specialize (IH y l' z eq_refl Hz). destruct (lt a z) eqn:Ez; [|done]. by rewrite (Ht y a z) in IH.
    + by apply (IH y l').
  - injection E as <- <-. by apply elem_of_nil in Hz.
Qed.

Section WithEnv.
Context `{!Crypto} `{!PoolEnv} `{!Arithmetic} `{!Protocols}.
Context (env : miner_env) (pool : CTxMemPool) (nHeight nLockTimeCutoff : Z).
Implicit Types (e : CTxMemPoolEntry) (it t x c : uint256) (X R B : setEntries) (q : queues) (b : tally) (st : selection).

Abbreviation all := (dom (mapTx pool)).

(** The iterators in the queues point to entries. *)
Record queued q : Prop := mkQueued {
  queued_priority x : x ∈ (vecPriority q).*2 -> x ∈ all;
  queued_cleared x : x ∈ clearedTxs q -> x ∈ all;
  queued_mi x : x ∈ mi q -> x ∈ all
}.

Definition load q : nat := length (vecPriority q) + length (clearedTxs q) + length (mi q).

(** What [wake] has done for a set of children. *)
Record woken (f : bool) R q q' : Prop := mkWoken {
  woken_mi : mi q' = mi q;
  woken_priority x : x ∈ (vecPriority q').*2 <-> x ∈ (vecPriority q).*2 \/ f = true /\ x ∈ R /\ x ∈ dom (waitPriMap q);
  woken_waitPri : dom (waitPriMap q') = if f then dom (waitPriMap q) ∖ R else dom (waitPriMap q);
  woken_cleared x : x ∈ clearedTxs q' <-> x ∈ clearedTxs q \/ f = false /\ x ∈ R /\ x ∈ waitSet q;
  woken_waitSet : waitSet q' = if f then waitSet q else waitSet q ∖ R;
  woken_load : (load q' <= load q + size R)%nat
}.

Lemma wake_children f q X : woken f X q (foldl (wake f) q (in_hash_order X)).
Proof using Type.
  apply (foldl_set X (wake f) (fun R q' => woken f R q q')).
  - split; try done; [set_solver +|by destruct f; set_solver +|set_solver +|by destruct f; set_solver +|rewrite size_empty; lia].
  - intros R x q' HR Hx Hn [W1 W2 W3 W4 W5 W6].
    assert (Hsz : size ({[x]} ∪ R) = S (size R)) by (rewrite size_union, size_singleton by set_solver +Hn; lia).
    unfold wake. destruct f; cbn [negb] in W3, W5; cbv iota in W3, W5.
    + destruct (waitPriMap q' !! x) as [p|] eqn:Ex.
      * assert (Hd : x ∈ dom (waitPriMap q)) by (assert (x ∈ dom (waitPriMap q')) by (apply elem_of_dom; eauto); set_solver).
        split; cbn [vecPriority waitPriMap clearedTxs waitSet mi]; [done| | | |done|].
        -- intros y. cbn [fmap list_fmap snd]. rewrite elem_of_cons, W2. set_solver +Hd.
        -- rewrite dom_delete_L, W3. set_solver +.
        -- intros y. rewrite W4. by split; (intros [?|[? ?]]; [by left|]).
        -- unfold load in *. cbn [vecPriority clearedTxs mi length]. lia.
      * assert (Hd : x ∉ dom (waitPriMap q)) by (apply not_elem_of_dom in Ex; set_solver +Ex W3 Hn).
        split; try done; [|rewrite W3; set_solver +Hd| |lia].
        -- intros y. rewrite W2. set_solver +Hd.
        -- intros y. rewrite W4. by split; (intros [?|[? ?]]; [by left|]).
    + case_bool_decide as Hin.
      * rewrite W5 in Hin. split; cbn [vecPriority waitPriMap clearedTxs waitSet mi]; [done| |done| | |].
        -- intros y. rewrite W2. by split; (intros [?|[? ?]]; [by left|]).
        -- intros y. rewrite elem_of_cons, W4. set_solver +Hin.
        -- rewrite W5. set_solver +.
        -- unfold load in *. cbn [vecPriority clearedTxs mi length]. lia.
      * rewrite W5 in Hin. split; try done; [| |rewrite W5; set_solver +Hin Hn|lia].
        -- intros y. rewrite W2. by split; (intros [?|[? ?]]; [by left|]).
        -- intros y. rewrite W4. set_solver +Hin Hn.
Qed.

(** ** What a block has so far *)

(** The transactions [chosen] with their entries [es]: distinct entries of the
    pool, with their fees and signature operations, parents first, final, and
    within the limits; the sizes and signature operations are summed without
    overflow, the fees as 64-bit numbers. *)
Record tallied (es : list CTxMemPoolEntry) b : Prop := mkTallied {
  tallied_entries : Forall (fun e => mapTx pool !! GetHash (entry_tx e) = Some e) es;
  tallied_distinct : NoDup (GetHash <$> chosen b);
  tallied_inBlock : inBlock b = list_to_set (GetHash <$> chosen b);
  tallied_chosen : chosen b = entry_tx <$> es;
  tallied_fees : chosen_fees b = nFee <$> es;
  tallied_sigops : chosen_sigops b = sigOpCount <$> es;
  tallied_order : block_order (chosen b) pool;
  tallied_final tx : tx ∈ chosen b -> IsFinalTx tx nHeight nLockTimeCutoff = true;
  tallied_size : nBlockSize b = 1000 + sum_over (weight_at (mapTx pool) Size) (inBlock b);
  tallied_fits : es = [] \/ nBlockSize b < nBlockMaxSize env;
  tallied_ops : nBlockSigOps b = 100 + sum_over (weight_at (mapTx pool) SigOps) (inBlock b);
  tallied_ops_fit : nBlockSigOps b < MAX_BLOCK_SIGOPS;
  tallied_sum : nFees b = i64 (foldr Z.add 0 (chosen_fees b))
}.

Lemma tallied_dom es b : tallied es b -> inBlock b ⊆ all.
Proof using Type.
  intros Ht x Hx. rewrite (tallied_inBlock _ _ Ht), elem_of_list_to_set, (tallied_chosen _ _ Ht), list_elem_of_fmap in Hx.
  destruct Hx as (tx & -> & (e & -> & He)%list_elem_of_fmap). apply elem_of_dom. exists e.
  by apply (proj1 (list.Forall_forall _ _) (tallied_entries _ _ Ht)).
Qed.

Lemma tallied_start : tallied [] (taken (start env pool nHeight)).
Proof using Type.
  split; cbn [taken start inBlock chosen chosen_fees chosen_sigops nBlockSize nBlockSigOps nFees fmap list_fmap foldr]; try done.
  - constructor.
  - intros l1 tx l2 E. by destruct l1.
  - intros tx Htx. by apply elem_of_nil in Htx.
  - by left.
Qed.

Lemma nBlockMaxSize_bounds : 1000 <= nBlockMaxSize env <= MAX_BLOCK_SIZE - 1000.
Proof using Type. unfold nBlockMaxSize, MAX_BLOCK_SIZE. lia. Qed.

Context (Hw : wf pool) (Hsmall : forall t e, mapTx pool !! t = Some e -> nTxSize e < 2 ^ 32).

(** Adding an entry that is within the limits. *)
Lemma tallied_take es b e it : tallied es b -> mapTx pool !! it = Some e -> it ∉ inBlock b -> par pool it ⊆ inBlock b ->
  nBlockSize b + nTxSize e < nBlockMaxSize env -> IsFinalTx (entry_tx e) nHeight nLockTimeCutoff = true ->
  nBlockSigOps b + sigOpCount e < MAX_BLOCK_SIGOPS -> tallied (es ++ [e]) (take_tx e it b).
Proof using Hw Hsmall.
  intros Ht He Hn Hp Hsz Hf Hop. pose proof (wf_hash _ Hw it e He) as Hh. destruct (wf_sizes _ Hw it e He) as [Hpos Hops].
  pose proof (tallied_dom _ _ Ht) as Hd. pose proof nBlockMaxSize_bounds as Hmax. unfold MAX_BLOCK_SIZE in Hmax.
  assert (Hs : forall k, k <> Fees -> 0 <= sum_over (weight_at (mapTx pool) k) (inBlock b)).
  { intros k Hk. apply sum_over_nonneg. intros x _. by apply weight_nonneg; [apply Hw|]. }
  pose proof (Hs Size ltac:(done)). pose proof (Hs SigOps ltac:(done)). pose proof (tallied_size _ _ Ht). pose proof (tallied_ops _ _ Ht).
  assert (Hwt : forall k, weight_at (mapTx pool) k it = weight k e) by (intros k; unfold weight_at; by rewrite He).
  destruct Ht as [G1 G2 G3 G4 G5 G6 G7 G8 G9 G10 G11 G12 G13].
  assert (MAX_BLOCK_SIGOPS < 2 ^ 31) by (vm_compute; done).
  split; cbn [take_tx inBlock chosen chosen_fees chosen_sigops nBlockSize nBlockSigOps nFees].
  - apply Forall_app. split; [done|]. apply list.Forall_singleton. by rewrite Hh.
  - rewrite fmap_app. cbn [fmap list_fmap]. rewrite Hh. apply list.NoDup_app. split; [done|]. split; [|apply NoDup_singleton].
    intros x Hx ->%list_elem_of_singleton. apply Hn. rewrite G3. by apply elem_of_list_to_set.
  - rewrite fmap_app, list_to_set_app_L, G3. cbn [fmap list_fmap list_to_set]. rewrite Hh. set_solver +.
  - by rewrite fmap_app, G4.
  - by rewrite fmap_app, G5.
  - by rewrite fmap_app, G6.
  - intros l1 tx l2 E. destruct l2 as [|tx' l2] using rev_ind.
    + apply app_inj_tail in E as [<- <-]. by rewrite Hh, <- G3.
    + rewrite app_comm_cons, app_assoc in E. apply app_inj_tail in E as [E _]. by apply (G7 l1 tx l2).
  - intros tx [Htx| ->%list_elem_of_singleton]%elem_of_app; [by apply G8|done].
  - rewrite sum_over_insert, Hwt, u64_small by (done || lia). cbn [weight]. lia.
  - right. rewrite u64_small by lia. lia.
  - rewrite sum_over_insert, Hwt, u32_small by (done || lia). cbn [weight]. lia.
  - rewrite u32_small by lia. lia.
  - rewrite G13, foldr_app. cbn [foldr]. rewrite (wrap_add_l Fees). cbn [wrap]. f_equal.
    clear. generalize (nFee e). induction (chosen_fees b) as [|z l IH]; intros y; cbn [foldr]; [lia|]. rewrite <- IH. lia.
Qed.

(** ** Rounds *)

Definition too_poor e b : Prop := exists fee, GetFee (minRelayTxFee env) (nTxSize e) = Some fee /\ GetModifiedFee e < fee /\ nBlockMinSize env <= nBlockSize b.

(** What [consider] does with an entry that is not in the block yet and whose
    parents are. *)
Inductive round (priorityTx : bool) it st : bool -> selection -> Prop :=
  | round_seen : it ∈ inBlock (taken st) -> round priorityTx it st true st
  | round_wait : it ∉ inBlock (taken st) -> ~ par pool it ⊆ inBlock (taken st) -> round priorityTx it st true (postpone priorityTx it st)
  | round_refuse e go st' : mapTx pool !! it = Some e -> it ∉ inBlock (taken st) -> par pool it ⊆ inBlock (taken st) ->
      (priorityTx = false /\ too_poor e (taken st) \/ nBlockMaxSize env <= nBlockSize (taken st) + nTxSize e \/
       IsFinalTx (entry_tx e) nHeight nLockTimeCutoff = false \/ MAX_BLOCK_SIGOPS <= nBlockSigOps (taken st) + sigOpCount e) ->
      waiting st' = waiting (leave_priority env (nTxSize e) st) -> taken st' = taken st -> round priorityTx it st go st'
  | round_take e st1 : mapTx pool !! it = Some e -> it ∉ inBlock (taken st) -> par pool it ⊆ inBlock (taken st) ->
      nBlockSize (taken st) + nTxSize e < nBlockMaxSize env -> IsFinalTx (entry_tx e) nHeight nLockTimeCutoff = true ->
      nBlockSigOps (taken st) + sigOpCount e < MAX_BLOCK_SIGOPS -> st1 = leave_priority env (nTxSize e) st ->
      round priorityTx it st true
        (mkSelection (foldl (wake (fPriorityBlock st1)) (waiting st1) (in_hash_order (chi pool it))) (take_tx e it (taken st))
           (fPriorityBlock st1) (actualPriority st) (lastFewTxs st)).

Lemma leave_priority_same size st : let st' := leave_priority env size st in
  taken st' = taken st /\ actualPriority st' = actualPriority st /\ lastFewTxs st' = lastFewTxs st.
Proof using Type. unfold leave_priority. by destruct (_ && _). Qed.

Lemma consider_round priorityTx it st es : it ∈ all -> tallied es (taken st) ->
  exists go st', consider env pool nHeight nLockTimeCutoff priorityTx it st = Some (go, st') /\ round priorityTx it st go st'.
Proof using Hw Hsmall.
  intros Hit Ht. unfold consider. case_bool_decide as Hin; [by eexists _, _; split; [|apply round_seen]|].
  assert (Hl : it ∈ dom (mapLinks pool)) by by rewrite (links_dom' _ (wf_links _ Hw)).
  rewrite GetMemPoolParents_par by done. cbn [mbind option_bind]. case_bool_decide as Hp; [|by eexists _, _; split; [|apply round_wait]].
  cbn [negb]. apply elem_of_dom in Hit as [e He]. rewrite He. cbn [mbind option_bind].
  destruct (wf_sizes _ Hw it e He) as [Hpos Hops]. specialize (Hsmall it e He). rewrite (u32_small (nTxSize e)) by lia.
  destruct (leave_priority_same (nTxSize e) st) as (Et & Ea & El). set (st1 := leave_priority env (nTxSize e) st) in *.
  pose proof nBlockMaxSize_bounds as Hmax. unfold MAX_BLOCK_SIZE in Hmax.
  assert (Hsz : 0 <= nBlockSize (taken st) <= MAX_BLOCK_SIZE).
  { split; [rewrite (tallied_size _ _ Ht); pose proof (sum_over_nonneg (weight_at (mapTx pool) Size) (inBlock (taken st)) ltac:(intros x _; by apply weight_nonneg; [apply Hw|])); lia|].
    unfold MAX_BLOCK_SIZE. destruct (tallied_fits _ _ Ht) as [->|]; [|lia]. rewrite (tallied_size _ _ Ht), (tallied_inBlock _ _ Ht), (tallied_chosen _ _ Ht).
    cbn [fmap list_fmap list_to_set]. rewrite sum_over_empty. lia. }
  unfold MAX_BLOCK_SIZE in Hsz. pose proof (tallied_ops_fit _ _ Ht). assert (MAX_BLOCK_SIGOPS < 2 ^ 31) by (vm_compute; done).
  assert (Hso : 0 <= nBlockSigOps (taken st)).
  { rewrite (tallied_ops _ _ Ht). pose proof (sum_over_nonneg (weight_at (mapTx pool) SigOps) (inBlock (taken st)) ltac:(intros x _; by apply weight_nonneg; [apply Hw|])). lia. }
  assert (Hso2 : sigOpCount e < 2 ^ 31).
  { destruct (wf_bounded _ Hw) as (_ & _ & Hb). pose proof (node_bound (mapTx pool) SigOps it e ∅ (wf_sizes _ Hw) ltac:(done) He ltac:(set_solver +) ltac:(set_solver +)) as Hnb. cbn [weight] in Hnb. lia. }
  rewrite Et, El, u64_small, u32_small by lia.
  assert (Hfee : exists fee, GetFee (minRelayTxFee env) (nTxSize e) = Some fee).
  { unfold GetFee. rewrite (proj2 (Z.leb_le _ _)) by (unfold INT64_MAX; lia). by eexists. }
  destruct Hfee as [fee Hfee]. rewrite Hfee. cbn [mbind option_bind].
  destruct (negb priorityTx && _) eqn:E1.
  { exists false, st1. split; [done|]. eapply round_refuse; [done..| |done|done]. left. apply andb_true_iff in E1 as [E1 [E2 E3]%andb_true_iff].
    split; [by destruct priorityTx|]. exists fee. split; [done|]. lia. }
  destruct (nBlockMaxSize env <=? _) eqn:E2.
  { assert (Hr : forall go st', waiting st' = waiting st1 -> taken st' = taken st -> round priorityTx it st go st').
    { intros go st' Hq' Ht'. eapply round_refuse; [done..| |done|done]. right. left. lia. }
    destruct (_ || _); eexists _, _; (split; [reflexivity|]); [by apply Hr|]. case_match; apply Hr; done. }
  destruct (IsFinalTx (entry_tx e) nHeight nLockTimeCutoff) eqn:E3; cbn [negb].
  2: { eexists _, _. split; [done|]. eapply round_refuse; [done..| |done|done]. right. right. by left. }
  destruct (MAX_BLOCK_SIGOPS <=? _) eqn:E4.
  { eexists _, _. split; [done|]. eapply round_refuse; [done..| |done|done]. right. right. right. lia. }
  unfold include. rewrite GetMemPoolChildren_chi by done. cbn [mbind option_bind]. eexists _, _. split; [done|].
  rewrite Et, Ea, El. eapply round_take; [done..|lia|done|lia|done].
Qed.

(** ** The loop ends *)

(** What [next] takes out of the queues. *)
Inductive taken_from st : bool -> uint256 -> selection -> Prop :=
  | from_priority p it rest : fPriorityBlock st = true -> vecPriority (waiting st) ≡ₚ (p, it) :: rest ->
      taken_from st true it (mkSelection (mkQueues rest (waitPriMap (waiting st)) (clearedTxs (waiting st)) (waitSet (waiting st)) (mi (waiting st)))
                               (taken st) true p (lastFewTxs st))
  | from_cleared it rest : (fPriorityBlock st = true -> vecPriority (waiting st) = []) -> clearedTxs (waiting st) ≡ₚ it :: rest ->
      taken_from st false it (mkSelection (mkQueues (vecPriority (waiting st)) (waitPriMap (waiting st)) rest (waitSet (waiting st)) (mi (waiting st)))
                                (taken st) (fPriorityBlock st) (actualPriority st) (lastFewTxs st))
  | from_mi it rest : (fPriorityBlock st = true -> vecPriority (waiting st) = []) -> mi (waiting st) = it :: rest ->
      taken_from st false it (mkSelection (mkQueues (vecPriority (waiting st)) (waitPriMap (waiting st)) (clearedTxs (waiting st)) (waitSet (waiting st)) rest)
                                (taken st) (fPriorityBlock st) (actualPriority st) (lastFewTxs st)).

Lemma next_spec st : mi (waiting st) <> [] \/ clearedTxs (waiting st) <> [] ->
  exists pri it st', next pool st = Some (pri, it, st') /\ taken_from st pri it st'.
Proof using Type.
  intros Hne. unfold next.
  destruct (if fPriorityBlock st then _ else None) as [[[p it] rest]|] eqn:E1.
  { destruct (fPriorityBlock st) eqn:Ef; [|done]. eexists _, _, _. split; [reflexivity|]. apply from_priority; [done|]. by apply pop_max_perm in E1. }
  assert (Hv : fPriorityBlock st = true -> vecPriority (waiting st) = []) by (intros Ef; rewrite Ef in E1; by apply pop_max_none in E1).
  destruct (pop_max (ScoreCompare pool) (clearedTxs (waiting st))) as [[it rest]|] eqn:E2.
  { eexists _, _, _. split; [reflexivity|]. apply from_cleared; [done|]. by apply pop_max_perm in E2. }
  apply pop_max_none in E2. destruct (mi (waiting st)) as [|it rest] eqn:E3; [by destruct Hne|].
  eexists _, _, _. split; [reflexivity|]. by apply from_mi.
Qed.

Lemma taken_from_queued st pri it st' : taken_from st pri it st' -> queued (waiting st) ->
  it ∈ all /\ queued (waiting st') /\ load (waiting st) = S (load (waiting st')) /\ taken st' = taken st.
Proof using Type.
  intros Ht [Q1 Q2 Q3]. unfold load. destruct Ht as [p it rest Hf Hp|it rest Hv Hc|it rest Hv Hm]; cbn [waiting vecPriority clearedTxs mi taken].
  - assert (Hq : forall x, x ∈ ((p, it) :: rest).*2 -> x ∈ all) by (intros x Hx; apply Q1; by rewrite Hp). rewrite Hp. cbn [length].
    split; [apply Hq; by left|]. split; [|split; [lia|done]]. split; cbn [vecPriority clearedTxs mi]; [|done|done]. intros x Hx. apply Hq. by right.
  - assert (Hq : forall x, x ∈ it :: rest -> x ∈ all) by (intros x Hx; apply Q2; by rewrite Hc). rewrite Hc. cbn [length].
    split; [apply Hq; by left|]. split; [|split; [lia|done]]. split; cbn [vecPriority clearedTxs mi]; [done| |done]. intros x Hx. apply Hq. by right.
  - rewrite Hm in Q3 |- *. cbn [length]. split; [apply Q3; by left|]. split; [|split; [lia|done]].
    split; cbn [vecPriority clearedTxs mi]; [done..|]. intros x Hx. apply Q3. by right.
Qed.

Lemma postpone_queued pri it st : queued (waiting st) -> queued (waiting (postpone pri it st)) /\ load (waiting (postpone pri it st)) = load (waiting st).
Proof using Type. intros [Q1 Q2 Q3]. unfold postpone. by destruct pri. Qed.

Lemma leave_queued size st : queued (waiting st) -> queued (waiting (leave_priority env size st)) /\ load (waiting (leave_priority env size st)) = load (waiting st).
Proof using Type. intros [Q1 Q2 Q3]. unfold leave_priority. by destruct (_ && _). Qed.

(** The rounds that are left. *)
Definition rounds st : nat := (size all - size (inBlock (taken st))) * (size all + 1) + load (waiting st).

Lemma chi_all it : chi pool it ⊆ all.
Proof using Hw. apply (chi_dom pool), links_ok_closed, Hw. Qed.

Lemma woken_queued f q q' it : woken f (chi pool it) q q' -> queued q -> queued q'.
Proof using Hw.
  intros [W1 W2 W3 W4 W5 W6] [Q1 Q2 Q3]. pose proof (chi_all it) as Hc. split.
  - intros x [Hx|(_ & Hx & _)]%W2; [by apply Q1|by apply Hc].
  - intros x [Hx|(_ & Hx & _)]%W4; [by apply Q2|by apply Hc].
  - rewrite W1. done.
Qed.

Lemma round_progress pri it st go st' es : round pri it st go st' -> queued (waiting st) -> tallied es (taken st) ->
  exists es', tallied es' (taken st') /\ queued (waiting st') /\ (rounds st' <= rounds st)%nat.
Proof using Hw Hsmall.
  intros Hr Hq Ht. unfold rounds. destruct Hr as [Hin|Hn Hp|e go st' He Hn Hp _ Ewait Etaken|e st1 He Hn Hp Hsz Hf Hop E1].
  - by exists es.
  - destruct (postpone_queued pri it st Hq) as [Hq' ->]. exists es. unfold postpone in *. destruct pri; cbn [taken] in *; done.
  - destruct (leave_queued (nTxSize e) st Hq) as [Hq' El]. rewrite Ewait, Etaken, El. by exists es.
  - destruct (leave_queued (nTxSize e) st Hq) as [Hq' El]. rewrite <- E1 in Hq', El.
    pose proof (wake_children (fPriorityBlock st1) (waiting st1) (chi pool it)) as Hwk. cbn [waiting taken].
    exists (es ++ [e]). split; [by apply tallied_take|]. split; [by apply (woken_queued _ _ _ _ Hwk)|].
    pose proof (woken_load _ _ _ _ Hwk) as Hld. pose proof (subseteq_size _ _ (chi_all it)). pose proof (tallied_dom _ _ Ht) as Hd.
    assert (it ∈ all) by (apply elem_of_dom; by eexists).
    assert (Hs : size ({[it]} ∪ inBlock (taken st)) = S (size (inBlock (taken st)))) by (rewrite size_union, size_singleton by set_solver +Hn; lia).
    assert (size ({[it]} ∪ inBlock (taken st)) <= size all)%nat by (apply subseteq_size; set_solver).
    cbn [take_tx inBlock]. rewrite Hs. nia.
Qed.

Lemma more_rounds st : (mi (waiting st) = [] /\ clearedTxs (waiting st) = []) \/ (mi (waiting st) <> [] \/ clearedTxs (waiting st) <> []).
Proof using Type. destruct (mi (waiting st)), (clearedTxs (waiting st)); naive_solver. Qed.

(** The loop stops when the queues are empty, or when a round says so. *)
Definition ended st : Prop :=
  mi (waiting st) = [] /\ clearedTxs (waiting st) = [] \/
  exists pri it st1 es, it ∈ all /\ tallied es (taken st1) /\ round pri it st1 false st.

(** The loop, with a property [P] of the states that every round keeps. *)
Lemma select_loop_spec (P : selection -> Prop) :
  (forall st pri it st1 go st2 es, P st -> tallied es (taken st) -> it ∈ all -> taken_from st pri it st1 -> round pri it st1 go st2 -> P st2) ->
  forall fuel st es, queued (waiting st) -> tallied es (taken st) -> P st -> (rounds st <= fuel)%nat ->
  exists st' es', select_loop fuel env pool nHeight nLockTimeCutoff st = Some st' /\ tallied es' (taken st') /\ P st' /\ ended st'.
Proof using Hw Hsmall.
  intros Hstep. induction fuel as [|fuel IH]; intros st es Hq Ht HP Hfuel.
  - assert (E : mi (waiting st) = [] /\ clearedTxs (waiting st) = []).
    { unfold rounds in Hfuel. assert (Hl : (load (waiting st) <= 0)%nat) by nia. unfold load in Hl. split; apply nil_length_inv; lia. }
    destruct E as [E1 E2]. cbn [select_loop]. rewrite E1, E2. exists st, es. do 3 (split; [done|]). by left.
  - cbn [select_loop]. destruct (more_rounds st) as [[E1 E2]|Hne]; [rewrite E1, E2; exists st, es; do 3 (split; [done|]); by left|].
    destruct (next_spec st Hne) as (pri & it & st1 & -> & Hfrom). cbn [mbind option_bind].
    destruct (taken_from_queued _ _ _ _ Hfrom Hq) as (Hit & Hq1 & Hl & Et). rewrite <- Et in Ht.
    destruct (consider_round pri it st1 es Hit Ht) as (go & st2 & -> & Hround). cbn [mbind option_bind].
    destruct (round_progress _ _ _ _ _ _ Hround Hq1 Ht) as (es2 & Ht2 & Hq2 & Hr).
    assert (HP2 : P st2) by (rewrite Et in Ht; by eapply Hstep).
    assert (Hres : exists st' es', (if go then select_loop fuel env pool nHeight nLockTimeCutoff st2 else Some st2) = Some st' /\ tallied es' (taken st') /\ P st' /\ ended st').
    { destruct go; [|exists st2, es2; do 3 (split; [done|]); right; by exists pri, it, st1, es]. apply (IH st2 es2); [done..|]. unfold rounds in *. rewrite Et in Hr. lia. }
    destruct (mi (waiting st)), (clearedTxs (waiting st)); try done; by destruct Hne.
Qed.

Lemma elem_of_mining_score x : x ∈ mining_score pool <-> x ∈ all.
Proof using Type. unfold mining_score. by rewrite merge_sort_Permutation, elem_of_elements. Qed.

Lemma start_priorities x : x ∈ (initial_priorities env pool nHeight).*2 <-> x ∈ all.
Proof using Type. unfold initial_priorities. rewrite <- list_fmap_compose. rewrite (list_fmap_ext _ id), list_fmap_id by done. apply elem_of_in_hash_order. Qed.

Lemma start_queued : queued (waiting (start env pool nHeight)) /\ (rounds (start env pool nHeight) <= select_fuel pool)%nat.
Proof using Type.
  assert (Hlen : length (initial_priorities env pool nHeight) = size all /\ length (mining_score pool) = size all).
  { unfold initial_priorities, mining_score. by rewrite length_fmap, in_hash_order_perm, merge_sort_Permutation. }
  destruct Hlen as [Hl1 Hl2]. unfold start. split.
  - split; cbn [waiting vecPriority clearedTxs mi]; [|by intros x Hx%elem_of_nil|intros x; apply elem_of_mining_score].
    destruct (0 <? _); [intros x; apply start_priorities|by intros x Hx%elem_of_nil].
  - unfold rounds, load, select_fuel. cbn [waiting taken inBlock vecPriority clearedTxs mi length]. rewrite size_empty, Hl2, <- (size_dom (mapTx pool)).
    destruct (0 <? _); [rewrite Hl1|cbn [length]]; nia.
Qed.

Lemma select_spec (P : selection -> Prop) : P (start env pool nHeight) ->
  (forall st pri it st1 go st2 es, P st -> tallied es (taken st) -> it ∈ all -> taken_from st pri it st1 -> round pri it st1 go st2 -> P st2) ->
  exists st es, select env pool nHeight nLockTimeCutoff = Some (taken st) /\ tallied es (taken st) /\ P st /\ ended st.
Proof using Hw Hsmall.
  intros Hst Hstep. destruct start_queued as [Hq Hf].
  destruct (select_loop_spec P Hstep (select_fuel pool) (start env pool nHeight) [] Hq tallied_start Hst Hf) as (st & es & E & Ht & HP).
  exists st, es. unfold select. by rewrite E.
Qed.

(** ** Nothing is left behind *)

(** A set of entries that has every entry with all its parents in the set is the whole pool. *)
Lemma all_reached B : (forall t, t ∈ all -> par pool t ⊆ B -> t ∈ B) -> all ⊆ B.
Proof using Hw.
  intros HB. pose proof (links_ok_closed _ (wf_links _ Hw)) as Hl.
  enough (Hn : forall k t, (size (ancestors pool t) < k)%nat -> t ∈ all -> t ∈ B) by (intros t; by apply (Hn (S (size (ancestors pool t)))); lia).
  induction k as [|k IH]; intros t Hk Ht; [lia|]. apply HB; [done|]. intros p Hp. apply IH; [|by apply (par_dom _ Hl t)].
  assert (Hpt : p ∈ ancestors pool t) by (apply (ancestors_reach pool t Hl), tc_once; exact Hp).
  assert (Hpp : p ∉ ancestors pool p) by (apply not_own_ancestor; [apply Hw|apply Hw]).
  enough (size (ancestors pool p) < size (ancestors pool t))%nat by lia. apply subset_size. split; [|set_solver +Hpt Hpp].
  intros a Ha%(ancestors_reach pool p Hl). apply (ancestors_reach pool t Hl). by apply tc_l with p.
Qed.

(** The entries outside the block, except for [X], are in the queues; those that wait
    have a parent outside the block. *)
Record covers_priority X st : Prop := mkCoversPriority {
  cover_queue t : t ∈ all -> t ∉ X -> t ∉ inBlock (taken st) -> t ∈ (vecPriority (waiting st)).*2 \/ t ∈ dom (waitPriMap (waiting st));
  cover_waiting t : t ∈ dom (waitPriMap (waiting st)) -> t ∉ inBlock (taken st) -> ~ par pool t ⊆ inBlock (taken st);
  cover_rest : all ⊆ inBlock (taken st) \/ (all ⊆ list_to_set (mi (waiting st)) /\ waitSet (waiting st) = ∅)
}.
Record covers_score X st : Prop := mkCoversScore {
  cover_mi t : t ∈ all -> t ∉ X -> t ∉ inBlock (taken st) -> t ∈ mi (waiting st) \/ t ∈ clearedTxs (waiting st) \/ t ∈ waitSet (waiting st);
  cover_waitSet t : t ∈ waitSet (waiting st) -> t ∉ inBlock (taken st) -> ~ par pool t ⊆ inBlock (taken st)
}.
Definition covers X st : Prop := if fPriorityBlock st then covers_priority X st else covers_score X st.

Lemma covers_start : covers ∅ (start env pool nHeight).
Proof using Type.
  unfold covers, start. cbn [fPriorityBlock]. destruct (0 <? _); split; cbn [waiting taken vecPriority waitPriMap waitSet mi clearedTxs].
  - intros t Ht _ _. left. by apply start_priorities.
  - set_solver +.
  - right. split; [|done]. intros t Ht. by apply elem_of_list_to_set, elem_of_mining_score.
  - intros t Ht _ _. left. by apply elem_of_mining_score.
  - set_solver +.
Qed.

Lemma covers_priority_done st : covers_priority ∅ st -> vecPriority (waiting st) = [] -> all ⊆ inBlock (taken st).
Proof using Hw.
  intros [C1 C2 C3] Hv. apply all_reached. intros t Ht Hp. destruct (decide (t ∈ inBlock (taken st))) as [|Hb]; [done|]. exfalso.
  destruct (C1 t Ht ltac:(set_solver +) Hb) as [Hq|Hq]; [rewrite Hv in Hq; by apply elem_of_nil in Hq|]. by apply (C2 t Hq Hb).
Qed.

Lemma covers_next st pri it st' : covers ∅ st -> taken_from st pri it st' ->
  covers {[it]} st' /\ (fPriorityBlock st' = pri \/ all ⊆ inBlock (taken st')).
Proof using Hw.
  intros Hc Hf. unfold covers in *. destruct Hf as [p it rest Hp Hperm|it rest Hv Hperm|it rest Hv Hm]; cbn [fPriorityBlock].
  - rewrite Hp in Hc. destruct Hc as [C1 C2 C3]. split; [|by left]. split; cbn [waiting taken vecPriority waitPriMap waitSet mi]; [|done|done].
    intros t Ht Hx Hb. destruct (C1 t Ht ltac:(set_solver +) Hb) as [Hq|Hq]; [|by right]. rewrite Hperm in Hq. left. cbn in Hq. set_solver +Hq Hx.
  - destruct (fPriorityBlock st).
    + pose proof (covers_priority_done st Hc (Hv eq_refl)) as Hall. destruct Hc as [C1 C2 C3].
      split; [|by right]. split; cbn [waiting taken vecPriority waitPriMap waitSet mi]; [|done|by left]. intros t Ht _ Hb. set_solver +Hall Ht Hb.
    + split; [|by left]. destruct Hc as [C1 C2]. split; cbn [waiting taken vecPriority waitPriMap waitSet mi clearedTxs]; [|done].
      intros t Ht Hx Hb. destruct (C1 t Ht ltac:(set_solver +) Hb) as [Hq|[Hq|Hq]]; [by left| |by right; right]. rewrite Hperm in Hq. right. left. set_solver +Hq Hx.
  - destruct (fPriorityBlock st).
    + pose proof (covers_priority_done st Hc (Hv eq_refl)) as Hall. destruct Hc as [C1 C2 C3].
      split; [|by right]. split; cbn [waiting taken vecPriority waitPriMap waitSet mi]; [|done|by left]. intros t Ht _ Hb. set_solver +Hall Ht Hb.
    + split; [|by left]. destruct Hc as [C1 C2]. split; cbn [waiting taken vecPriority waitPriMap waitSet mi clearedTxs]; [|done].
      intros t Ht Hx Hb. destruct (C1 t Ht ltac:(set_solver +) Hb) as [Hq|[Hq|Hq]]; [|by right; left|by right; right]. rewrite Hm in Hq. left. set_solver +Hq Hx.
Qed.

(** A transaction that waits. *)
Lemma covers_postpone pri it st : covers {[it]} st -> (fPriorityBlock st = pri \/ all ⊆ inBlock (taken st)) -> it ∈ all ->
  it ∉ inBlock (taken st) -> ~ par pool it ⊆ inBlock (taken st) -> covers ∅ (postpone pri it st).
Proof using Type.
  intros Hc [Hp|Hp] Hit Hn Hpar; [|set_solver +Hp Hit Hn]. unfold covers, postpone in *. cbn [fPriorityBlock]. rewrite Hp in *.
  destruct pri; destruct Hc; split; cbn [waiting taken vecPriority waitPriMap waitSet mi clearedTxs]; try done.
  - intros t Ht _ Hb. destruct (waitPriMap (waiting st) !! it) eqn:Ei; (destruct (decide (t = it)) as [->|Hne];
      [right|destruct (cover_queue0 t Ht ltac:(set_solver +Hne) Hb) as [|Hq]; [by left|right]]);
      [apply elem_of_dom; by eexists|done|rewrite dom_insert_L; set_solver +|rewrite dom_insert_L; set_solver +Hq].
  - intros t Ht. destruct (waitPriMap (waiting st) !! it) eqn:Ei; [by apply cover_waiting0|]. rewrite dom_insert_L in Ht.
    apply elem_of_union in Ht as [->%elem_of_singleton|Ht]; [done|by apply cover_waiting0].
  - intros t Ht _ Hb. destruct (decide (t = it)) as [->|Hne]; [right; right; set_solver +|].
    destruct (cover_mi0 t Ht ltac:(set_solver +Hne) Hb) as [|[|Hq]]; [by left|by right; left|right; right; set_solver +Hq].
  - intros t [->%elem_of_singleton|Ht]%elem_of_union; [done|by apply cover_waitSet0].
Qed.

Lemma covers_leave size it st : covers {[it]} st -> it ∈ all -> it ∉ inBlock (taken st) -> covers {[it]} (leave_priority env size st).
Proof using Type.
  intros Hc Hit Hn. unfold leave_priority. destruct (_ && _) eqn:E; [|done]. apply andb_true_iff in E as [Ef _]. unfold covers in *. rewrite Ef in Hc. cbn [fPriorityBlock].
  destruct Hc as [_ _ [Hall|[Hm Hws]]]; [set_solver +Hall Hit Hn|]. split; cbn [waiting taken vecPriority waitPriMap waitSet mi clearedTxs].
  - intros t Ht _ _. left. by apply (elem_of_list_to_set (C := setEntries)), Hm.
  - rewrite Hws. set_solver +.
Qed.

(** The children of a transaction that enters the block no longer wait for it. *)
Lemma covers_take it st q b a l : covers {[it]} st -> it ∈ all -> it ∉ inBlock (taken st) -> inBlock b = {[it]} ∪ inBlock (taken st) ->
  woken (fPriorityBlock st) (chi pool it) (waiting st) q -> covers ∅ (mkSelection q b (fPriorityBlock st) a l).
Proof using Hw.
  intros Hc Hit Hn HB [W1 W2 W3 W4 W5 _]. pose proof (links_sym _ (wf_links _ Hw)) as Hsym. unfold covers in *. cbn [fPriorityBlock].
  destruct (fPriorityBlock st); destruct Hc; split; cbn [waiting taken]; rewrite ?HB, ?W1.
  - intros t Ht _ Hb. rewrite W2, W3. destruct (cover_queue0 t Ht ltac:(set_solver +Hb) ltac:(set_solver +Hb)) as [|Hq]; [by left; left|].
    destruct (decide (t ∈ chi pool it)) as [|n]; [by left; right|right; set_solver +Hq n].
  - rewrite W3. intros t Ht Hb Hp. apply (cover_waiting0 t); [set_solver +Ht|set_solver +Hb|].
    assert (Hnp : it ∉ par pool t) by (rewrite <- Hsym; set_solver +Ht). set_solver +Hnp Hp.
  - right. rewrite W5. destruct cover_rest0 as [Hall|Hr]; [set_solver +Hall Hit Hn|done].
  - intros t Ht _ Hb. rewrite W4, W5. destruct (cover_mi0 t Ht ltac:(set_solver +Hb) ltac:(set_solver +Hb)) as [|[|Hq]]; [by left|by right; left; left|].
    destruct (decide (t ∈ chi pool it)) as [|n]; [by right; left; right|right; right; set_solver +Hq n].
  - rewrite W5. intros t Ht Hb Hp. apply (cover_waitSet0 t); [set_solver +Ht|set_solver +Hb|].
    assert (Hnp : it ∉ par pool t) by (rewrite <- Hsym; set_solver +Ht). set_solver +Hnp Hp.
Qed.

(** The whole pool fits into a block, is final and pays the fee for relaying. *)
Record roomy : Prop := mkRoomy {
  roomy_size : 1000 + sum_over (weight_at (mapTx pool) Size) all < nBlockMaxSize env;
  roomy_ops : 100 + sum_over (weight_at (mapTx pool) SigOps) all < MAX_BLOCK_SIGOPS;
  roomy_entries t e : mapTx pool !! t = Some e -> IsFinalTx (entry_tx e) nHeight nLockTimeCutoff = true /\
    forall fee, GetFee (minRelayTxFee env) (nTxSize e) = Some fee -> fee <= GetModifiedFee e
}.

Lemma roomy_sum k es b it e : tallied es b -> mapTx pool !! it = Some e -> it ∉ inBlock b -> k <> Fees ->
  sum_over (weight_at (mapTx pool) k) (inBlock b) + weight k e <= sum_over (weight_at (mapTx pool) k) all.
Proof using Hw.
  clear Hsmall. intros Ht He Hn Hk. pose proof (tallied_dom _ _ Ht) as Hd. assert (Hia : it ∈ all) by (apply elem_of_dom; by eexists).
  pose proof (sum_over_subset (weight_at (mapTx pool) k) ({[it]} ∪ inBlock b) all ltac:(set_solver +Hd Hia) ltac:(intros x _; by apply weight_nonneg; [apply Hw|])) as Hs.
  rewrite sum_over_insert in Hs by done. unfold weight_at in Hs at 1. rewrite He in Hs. cbn in Hs. lia.
Qed.

Lemma roomy_accepts es b it e pri : roomy -> tallied es b -> mapTx pool !! it = Some e -> it ∉ inBlock b ->
  ~ (pri = false /\ too_poor e b \/ nBlockMaxSize env <= nBlockSize b + nTxSize e \/
     IsFinalTx (entry_tx e) nHeight nLockTimeCutoff = false \/ MAX_BLOCK_SIGOPS <= nBlockSigOps b + sigOpCount e).
Proof using Hw.
  intros [R1 R2 R3] Ht He Hn Hwhy. pose proof (roomy_sum Size es _ it e Ht He Hn ltac:(done)) as S1. pose proof (roomy_sum SigOps es _ it e Ht He Hn ltac:(done)) as S2. cbn [weight] in S1, S2.
  pose proof (tallied_size _ _ Ht). pose proof (tallied_ops _ _ Ht). destruct (R3 it e He) as [Hfin Hfee].
  destruct Hwhy as [[_ (fee & Ef & Hlt & _)]|[Hbig|[Hnf|Hops]]]; [|lia|by rewrite Hfin in Hnf|lia]. specialize (Hfee fee Ef). lia.
Qed.

Lemma roomy_go_on pri it st go st' es : roomy -> tallied es (taken st) -> round pri it st go st' -> go = true.
Proof using Hw. intros Hroom Ht Hr. destruct Hr as [| |e go st' He Hn _ Hwhy _ _|]; try done. by destruct (roomy_accepts es (taken st) it e pri). Qed.

Lemma roomy_round pri it st go st' es : roomy -> tallied es (taken st) -> it ∈ all -> round pri it st go st' -> covers {[it]} st ->
  (fPriorityBlock st = pri \/ all ⊆ inBlock (taken st)) -> covers ∅ st'.
Proof using Hw.
  intros Hroom Ht Hit Hr Hc Hp. destruct Hr as [Hin|Hn Hpar|e go st' He Hn Hpar Hwhy _ _|e st1 He Hn Hpar Hsz Hf Hop E1].
  - unfold covers in *. destruct (fPriorityBlock st); destruct Hc as [C1 C2]; (split; [|done..]); intros t Ht' _ Hb; apply C1; set_solver +Ht' Hb Hin.
  - by apply covers_postpone.
  - by destruct (roomy_accepts es (taken st) it e pri).
  - destruct (leave_priority_same (nTxSize e) st) as (Et & _ & _). subst st1. apply (covers_take it); [by apply covers_leave|done|by rewrite Et| |].
    + by rewrite Et.
    + apply wake_children.
Qed.

Lemma covers_ended st : covers ∅ st -> mi (waiting st) = [] -> clearedTxs (waiting st) = [] -> all ⊆ inBlock (taken st).
Proof using Hw.
  intros Hc Hm Hcl. unfold covers in Hc. destruct (fPriorityBlock st).
  - destruct Hc as [_ _ [|[Hall _]]]; [done|]. rewrite Hm in Hall. set_solver +Hall.
  - destruct Hc as [C1 C2]. apply all_reached. intros t Ht Hp. destruct (decide (t ∈ inBlock (taken st))) as [|Hb]; [done|]. exfalso.
    destruct (C1 t Ht ltac:(set_solver +) Hb) as [Hq|[Hq|Hq]]; [rewrite Hm in Hq|rewrite Hcl in Hq|by apply (C2 t)]; by apply elem_of_nil in Hq.
Qed.

Lemma select_all : roomy -> exists b es, select env pool nHeight nLockTimeCutoff = Some b /\ tallied es b /\ inBlock b = all.
Proof using Hw Hsmall.
  intros Hroom. destruct (select_spec (covers ∅) covers_start) as (st & es & E & Ht & Hc & Hend).
  - intros st pri it st1 go st2 es Hc Ht Hit Hf Hr. destruct (covers_next _ _ _ _ Hc Hf) as [Hc1 Hm].
    assert (Et : taken st1 = taken st) by by destruct Hf. rewrite <- Et in Ht. by apply (roomy_round pri it st1 go st2 es).
  - exists (taken st), es. split; [done|]. split; [done|]. apply set_eq. intros x. split; [apply (tallied_dom _ _ Ht)|].
    destruct Hend as [[Hm Hcl]|(pri & it & st1 & es1 & Hit & Ht1 & Hr)]; [by apply covers_ended|].
    by pose proof (roomy_go_on _ _ _ _ _ _ Hroom Ht1 Hr).
Qed.

End WithEnv.

(** ** The theorems *)

Section Claims.
Context `{!Crypto} `{!PoolEnv} `{!Arithmetic} `{!Protocols}.
Implicit Types (env : miner_env) (pool : CTxMemPool).

Lemma block_order_coinbase pool coinbase vtx : wf pool -> GetHash coinbase ∉ dom (mapTx pool) -> block_order vtx pool -> block_order (coinbase :: vtx) pool.
Proof using Type.
  intros Hw Hc Ho l1 tx l2 E. destruct l1 as [|c l1]; injection E as -> E.
  - intros p Hp. exfalso. apply Hc. rewrite <- (links_dom' _ (wf_links _ Hw)). by apply (par_links_dom pool p).
  - intros p Hp. cbn. apply elem_of_union. right. by apply (Ho l1 tx l2 E).
Qed.

(** C6: the transactions of a block template form a valid block. For a well-formed
    memory pool with entries below 2^32 bytes, whatever the settings, priorities and fees, the loop of
    [CreateNewBlock] ends; it has chosen distinct entries of the pool, each after
    its parents in the pool, each final for the new block, with their fees and
    signature operations and the sum of the fees; their size with the thousand bytes
    reserved for the coinbase is the sum over the entries and below the limit,
    which is a thousand bytes below that of the network, and so are the signature
    operations. When the block is connected, with a coinbase whose hash is not in the
    pool, they all leave the pool. *)
Theorem template_selection_sound env pool nHeight nLockTimeCutoff : wf pool -> (forall t e, mapTx pool !! t = Some e -> nTxSize e < 2 ^ 32) ->
  nBlockMaxSize env <= MAX_BLOCK_SIZE - 1000 /\
  exists b es, select env pool nHeight nLockTimeCutoff = Some b /\ tallied env pool nHeight nLockTimeCutoff es b /\
    forall coinbase height now, GetHash coinbase ∉ dom (mapTx pool) ->
      exists pool', removeForBlock (coinbase :: chosen b) height now pool = Some pool' /\ wf pool' /\
        forall tx, tx ∈ chosen b -> GetHash tx ∉ dom (mapTx pool').
Proof.
  intros Hw Hs. split; [apply nBlockMaxSize_bounds|].
  destruct (select_spec env pool nHeight nLockTimeCutoff Hw Hs (fun _ => True)) as (st & es & E & Ht & _); [done..|].
  exists (taken st), es. split; [done|]. split; [done|]. intros coinbase height now Hc.
  destruct (removeForBlock_spec (coinbase :: chosen (taken st)) height now pool Hw) as (pool' & Er & Hsh & Hg).
  { apply block_order_coinbase; [done..|]. apply Ht. }
  exists pool'. split; [done|]. split; [apply Hsh|]. intros tx Htx. apply Hg. by right.
Qed.

(** C17: no transaction is left behind. When the whole pool fits into a block (in size
    and signature operations), is final and pays the fee for relaying, the template
    has every transaction of the pool, whatever the order of priorities and fees,
    the part of the block that is kept for priorities and the transactions that
    have to wait for their parents. *)
Theorem template_takes_all env pool nHeight nLockTimeCutoff : wf pool -> (forall t e, mapTx pool !! t = Some e -> nTxSize e < 2 ^ 32) ->
  roomy env pool nHeight nLockTimeCutoff ->
  exists b, select env pool nHeight nLockTimeCutoff = Some b /\ NoDup (chosen b) /\
    forall tx, tx ∈ chosen b <-> exists t e, mapTx pool !! t = Some e /\ entry_tx e = tx.
Proof.
  intros Hw Hs Hr. destruct (select_all env pool nHeight nLockTimeCutoff Hw Hs Hr) as (b & es & E & Ht & Hall). exists b. split; [done|].
  split; [by apply (NoDup_fmap_1 GetHash), Ht|]. intros tx. split.
  - rewrite (tallied_chosen _ _ _ _ _ _ Ht). intros (e & -> & He)%list_elem_of_fmap. exists (GetHash (entry_tx e)), e. split; [|done].
    by apply (proj1 (list.Forall_forall _ _) (tallied_entries _ _ _ _ _ _ Ht)).
  - intros (t & e & He & <-). assert (Hin : t ∈ inBlock b) by (rewrite Hall; apply elem_of_dom; by eexists).
    rewrite (tallied_inBlock _ _ _ _ _ _ Ht), elem_of_list_to_set, list_elem_of_fmap in Hin. destruct Hin as (tx & -> & Htx).
    rewrite (tallied_chosen _ _ _ _ _ _ Ht) in Htx |- *. apply list_elem_of_fmap in Htx as (e' & -> & He').
    pose proof (proj1 (list.Forall_forall _ _) (tallied_entries _ _ _ _ _ _ Ht) e' He') as Hl. cbn in Hl. rewrite He in Hl. injection Hl as <-. by apply list_elem_of_fmap_2.
Qed.

End Claims.
(** ** A block with a parent and a child *)

Section Example_block.
#[local] Existing Instances InterpreterSafety.toy_crypto MemPoolSafety.toy_env TxVerify.toy_protocols.
Definition toy_arithmetic : Arithmetic := {| d_add := Z.add; d_mul := Z.mul; d_div := Z.div |}.
#[local] Existing Instance toy_arithmetic.

(** The child has the higher priority and must wait for its parent. *)
Definition toy_miner : miner_env :=
  mkMiner DEFAULT_BLOCK_MAX_SIZE DEFAULT_BLOCK_PRIORITY_SIZE DEFAULT_BLOCK_MIN_SIZE 20
    (fun it => if bool_decide (it = GetHash MemPoolSafety.child_tx) then 100000000 else 60000000) (fun _ => 0).

Lemma toy_pool_small t e : mapTx MemPoolSafety.pool2 !! t = Some e -> nTxSize e < 2 ^ 32.
Proof.
  assert (Hall : map_Forall (fun _ e => nTxSize e < 2 ^ 32) (mapTx MemPoolSafety.pool2)) by by_decide. exact (Hall t e).
Qed.

Lemma toy_select : chosen <$> select toy_miner MemPoolSafety.pool2 6 0 = Some [MemPoolSafety.coin_tx; MemPoolSafety.child_tx].
Proof. vm_compute. reflexivity. Qed.

Lemma toy_roomy : roomy toy_miner MemPoolSafety.pool2 6 0.
Proof.
  split; [by vm_compute..|].
  assert (Hall : map_Forall (fun _ e => IsFinalTx (entry_tx e) 6 0 = true /\ from_option (fun fee => fee <=? GetModifiedFee e) true (GetFee 20 (nTxSize e)) = true) (mapTx MemPoolSafety.pool2)).
  { by_decide. }
  intros t e He. destruct (Hall t e He) as [Hf Hfee]. split; [exact Hf|]. intros fee Ef. change (minRelayTxFee toy_miner) with 20 in Ef. rewrite Ef in Hfee. apply Z.leb_le. exact Hfee.
Qed.

Lemma template_selection_sound_witness : exists b es, select toy_miner MemPoolSafety.pool2 6 0 = Some b /\ tallied toy_miner MemPoolSafety.pool2 6 0 es b /\
  chosen b = [MemPoolSafety.coin_tx; MemPoolSafety.child_tx].
Proof.
  destruct (template_selection_sound toy_miner MemPoolSafety.pool2 6 0 (MemPoolSafety.sound_wf _ MemPoolSafety.pool2_sound) toy_pool_small) as (_ & b & es & E & Ht & _).
  exists b, es. split; [exact E|]. split; [exact Ht|]. pose proof toy_select as Es. rewrite E in Es. injection Es as ->. reflexivity.
Defined.

Lemma template_takes_all_witness : exists b, select toy_miner MemPoolSafety.pool2 6 0 = Some b /\ NoDup (chosen b) /\ MemPoolSafety.child_tx ∈ chosen b.
Proof.
  destruct (template_takes_all toy_miner MemPoolSafety.pool2 6 0 (MemPoolSafety.sound_wf _ MemPoolSafety.pool2_sound) toy_pool_small toy_roomy) as (b & E & Hd & Hall).
  exists b. split; [exact E|]. split; [exact Hd|]. apply Hall. exists (GetHash MemPoolSafety.child_tx).
  destruct (mapTx MemPoolSafety.pool2 !! GetHash MemPoolSafety.child_tx) as [e|] eqn:He.
  - exists e. split; [reflexivity|]. assert (Et : entry_tx <$> mapTx MemPoolSafety.pool2 !! GetHash MemPoolSafety.child_tx = Some MemPoolSafety.child_tx) by (vm_compute; reflexivity).
    rewrite He in Et. injection Et as ->. reflexivity.
  - exfalso. assert (Et : is_Some (mapTx MemPoolSafety.pool2 !! GetHash MemPoolSafety.child_tx)) by by_decide. rewrite He in Et. destruct Et as [? Et]. discriminate Et.
Defined.

End Example_block.

End MinerSelect.
