(* ===== verification/MinerCoinbase.v ===== *)
(** * The coinbase and the header of a template

    What [CreateNewBlock] writes is what [ConnectBlock] asks for: the value and
    the payee of the coinbase, and the time of the header.  The exception is the
    first height at which masternodes are paid.  [IncrementExtraNonce] gives
    a new coinbase each time. *)

From stdpp Require Import base list list_numbers gmap numbers option.
From Stdlib Require Import ZArith Lia.
From S2P Require Import Prelude Serialize Script Transaction Interpreter InterpreterSafety Standard Coins Ledger TxVerify Chain Pow Merkle Encodings FluidToken FluidDB Spork Governance Payments TxGraph MemPool MemPoolInv MemPoolOps MemPoolAdd MemPoolSteps MemPoolSafety Miner MinerSelect.

Local Open Scope Z_scope.

Module MinerCoinbase.
Import Serialize Script Transaction Interpreter Ledger TxVerify TxGraph MemPool MemPoolInv MemPoolOps Miner MinerSelect.

(** ** Values *)

Lemma i64_add_l a b : i64 (i64 a + b) = i64 (a + b).
Proof. apply (wrap_add_l Fees). Qed.

Lemma i64_add_l2 a b c : i64 (i64 a + b + c) = i64 (a + b + c).
Proof. by rewrite <- !Z.add_assoc, i64_add_l. Qed.

Lemma sum_values_app l1 l2 : sum_values (l1 ++ l2) = sum_values l1 + sum_values l2.
Proof. induction l1 as [|o l1 IH]; cbn [sum_values foldr app]; [done|]. fold (sum_values (l1 ++ l2)). fold (sum_values l1). lia. Qed.

Lemma GetValueOut_some tx v : GetValueOut tx = Some v -> v = sum_values (vout tx) /\ 0 <= v < 2 ^ 63.
Proof.
  rewrite GetValueOut_exact. case_bool_decide as H; [|done]. intros [= <-]. destruct H as [Hf Hm]. split; [done|].
  pose proof (sum_values_nonneg _ Hf). unfold MAX_MONEY, INT64_MAX in Hm. lia.
Qed.

Section Coinbase.
Context `{!Crypto} `{!PoolEnv} `{!Arithmetic} `{!Protocols} `{!Encodings.Base58Prefix}.
Implicit Types (pe : payment_env) (g : Governance.gov_state).

Definition mint_issuance pe (h : Z) : Z := match FluidDB.GetMintingInstructions (mintDB pe) h with Some m => FluidDB.MintAmount m | None => 0 end.

(** [nExpectedBlockValue] of [ConnectBlock] for the block that follows the tip. *)
Definition expected_value pe (h fees : Z) : Z :=
  FluidDB.expected_block_value (rewards pe) (miningDB pe) (masternodeDB pe) (mintDB pe) (h - 1) h fees.

Lemma masternode_reward_nonneg pe h : 0 <= masternode_reward pe h.
Proof using Type.
  unfold masternode_reward, FluidDB.GetFluidMasternodeReward, FluidDB.fluid_reward.
  assert (0 <= FluidDB.GetStandardMasternodePayment (rewards pe) h) by (unfold FluidDB.GetStandardMasternodePayment; case_match; vm_compute; done).
  destruct (_ <? _); [done|]. destruct (masternodeDB pe) as [db|]; [|done]. destruct (FluidDB.db_IsEmpty db); [done|].
  destruct (FluidDB.GetLastFluidReward db h) as [r|]; [|done]. destruct (0 <? _) eqn:E; lia.
Qed.

Lemma expected_value_eq pe h fees : FLUID_ACTIVATE_HEIGHT <= h ->
  expected_value pe h fees = i64 (blockReward pe h fees + mint_issuance pe h +
    (if FluidDB.nMasternodePaymentsStartBlock (rewards pe) <? h - 1 then masternode_reward pe h else 0)).
Proof using Type.
  intros Hh. unfold expected_value, FluidDB.expected_block_value, blockReward, mint_issuance, masternode_reward.
  rewrite (proj2 (Z.geb_le _ _)) by done. destruct (FluidDB.nFeeRewardStart (rewards pe) <? h - 1); rewrite !i64_add_l, ?i64_add_l2; f_equal; lia.
Qed.

Lemma issued_value pe script h reward outs : issued_outputs pe script h reward = Some outs ->
  i64 (sum_values outs) = i64 (reward + mint_issuance pe h).
Proof using Type.
  unfold issued_outputs, mint_issuance. destruct (FluidDB.GetMintingInstructions (mintDB pe) h) as [m|].
  - destruct (Encodings.SetString _) as [[a ok]|]; [|done]. cbn [mbind option_bind]. destruct (mint_script a) as [s|]; [|done]. intros [= <-].
    cbn [sum_values foldr nValue]. rewrite i64_add_l, Z.add_0_r, <- (Z.add_opp_r (i64 _)), <- Z.add_assoc, i64_add_l. f_equal. lia.
  - by intros [= <-].
Qed.

(** Whether a superblock is triggered at a height. *)
Definition triggered pe g h : bool := (Governance.IsSuperblockTriggered (superblocks pe) (governance pe) g h).2.

(** The outputs without a superblock: those of the miner and of the mint, and the
    masternode's, if there is one. *)
Lemma coinbase_outputs_cases pe g script h fees g' outs : coinbase_outputs pe g script h fees = Some (g', outs) -> triggered pe g h = false ->
  exists issued payee, issued_outputs pe script h (blockReward pe h fees) = Some issued /\
    outs = (Payments.FillBlockPayee (payments pe) (masternode_reward pe) (payees pe) issued h).1 /\
    outs = issued ++ payee /\ (payee = [] \/ exists s, payee = [mkCTxOut (masternode_reward pe h) s (-10)]).
Proof using Type.
  unfold coinbase_outputs, triggered. destruct (issued_outputs pe script h _) as [issued|]; [|done]. cbn [mbind option_bind]. intros E Ht.
  assert (Ho : outs = (Payments.FillBlockPayee (payments pe) (masternode_reward pe) (payees pe) issued h).1).
  { injection E as E. unfold Payments.FillBlockPayments in E. destruct (Payments.sporkActive _ _); [|by injection E as _ <-].
    destruct (Governance.IsSuperblockTriggered _ _ g h) as [g1 t]. cbn [snd] in Ht. subst t. by injection E as _ <-. }
  exists issued. revert Ho. unfold Payments.FillBlockPayee.
  match goal with |- context [match ?f with Some payee => _ | None => (issued, None) end] => destruct f as [s|] end; cbn [fst]; intros ->.
  - eexists. do 3 (split; [reflexivity|]). right. by eexists.
  - exists []. rewrite app_nil_r. do 3 (split; [done|]). by left.
Qed.

(** Without a superblock the value is compared with the expected one, or accepted. *)
Lemma value_accepted pe g tx h v expected : GetValueOut tx = Some v -> triggered pe g h = false -> v <= expected < 2 ^ 63 -> 0 <= v ->
  (Payments.IsBlockValueValid (superblocks pe) (payments pe) (governance pe) g tx h expected).2 = Some true.
Proof using Type.
  intros Ev Ht Hle Hv0. unfold Payments.IsBlockValueValid, triggered in *. rewrite Ev, (proj2 (Z.leb_le v expected)) by lia.
  assert (Hl : Governance.GetPaymentsLimit (superblocks pe) h = 0) by (unfold Governance.GetPaymentsLimit; by destruct (Governance.IsValidBlockHeight _ h)).
  rewrite Hl, Z.add_0_r, i64_small by lia. rewrite (proj2 (Z.leb_le v expected)) by lia.
  destruct (Governance.IsSuperblockTriggered _ _ g h) as [g1 t]. cbn [snd] in Ht. subst t. repeat case_match; done.
Qed.

Lemma payee_accepted pe g tx before h expected : triggered pe g h = false ->
  vout tx = (Payments.FillBlockPayee (payments pe) (masternode_reward pe) (payees pe) before h).1 ->
  (Payments.IsBlockPayeeValid (superblocks pe) (payments pe) (masternode_reward pe) (governance pe) g (payees pe) tx h expected).2 = Some true.
Proof using Type.
  intros Ht Hv. unfold Payments.IsBlockPayeeValid, Payments.payment_enforced, triggered in *. rewrite (Payments.FillBlockPayee_valid _ _ _ _ _ _ Hv).
  destruct (Governance.IsSuperblockTriggered _ _ g h) as [g1 t]. cbn [snd] in Ht. subst t. repeat case_match; done.
Qed.

(** The coinbase of the height after the tip, where masternodes are paid and no
    superblock is triggered. *)
Lemma coinbase_accepted pe g g2 script h fees g' outs v : coinbase_outputs pe g script h fees = Some (g', outs) ->
  triggered pe g h = false -> triggered pe g2 h = false -> FLUID_ACTIVATE_HEIGHT <= h ->
  FluidDB.nMasternodePaymentsStartBlock (rewards pe) < h - 1 ->
  GetValueOut (new_coinbase h outs) = Some v -> v + masternode_reward pe h < 2 ^ 63 ->
  (Payments.IsBlockValueValid (superblocks pe) (payments pe) (governance pe) g2 (new_coinbase h outs) h (expected_value pe h fees)).2 = Some true /\
  (Payments.IsBlockPayeeValid (superblocks pe) (payments pe) (masternode_reward pe) (governance pe) g2 (payees pe) (new_coinbase h outs) h
     (expected_value pe h fees)).2 = Some true.
Proof using Type.
  intros E Ht Ht2 Hh Hstart Ev Hov. destruct (coinbase_outputs_cases _ _ _ _ _ _ _ E Ht) as (issued & payee & Ei & Hf & Ho & Hp).
  destruct (GetValueOut_some _ _ Ev) as [Hv Hr]. cbn [new_coinbase vout] in Hv. pose proof (masternode_reward_nonneg pe h) as Hm.
  split; [|by apply (payee_accepted pe g2 (new_coinbase h outs) issued)]. apply (value_accepted pe g2 _ h v); [done|done| |lia].
  rewrite expected_value_eq, (proj2 (Z.ltb_lt _ _)) by done. rewrite <- i64_add_l, <- (issued_value pe script h (blockReward pe h fees) issued Ei), i64_add_l.
  rewrite Ho, sum_values_app in Hv. destruct Hp as [->|[s ->]]; cbn [sum_values foldr nValue] in Hv; fold (sum_values issued) in Hv.
  - rewrite Z.add_0_r in Hv. rewrite <- Hv, i64_small by lia. lia.
  - rewrite Z.add_0_r in Hv. rewrite <- Hv, i64_small by lia. lia.
Qed.

(** ** The template *)

(** What a template is made of. *)
Lemma CreateNewBlock_inv test env ce pe g pool p script g' t : CreateNewBlock test env ce pe g pool p script = Some (g', t) ->
  exists prev mtp b outs header, tree ce !! p = Some prev /\ Chain.GetMedianTimePast (tree ce) p = Some mtp /\
    select env pool (Chain.nHeight prev + 1) mtp = Some b /\
    coinbase_outputs pe g script (Chain.nHeight prev + 1) (nFees b) = Some (g', outs) /\
    block t = mkBlock header (new_coinbase (Chain.nHeight prev + 1) outs :: chosen b) /\
    vTxFees t = i64 (- nFees b) :: chosen_fees b /\ next_work ce p = Some (Chain.hd_nBits header) /\
    Chain.hd_hashPrevBlock header = Chain.hashBlock prev /\ (* the time of [UpdateTime] *)
    Chain.hd_nTime header = (let time := u32 (GetAdjustedTime ce) in let new_time := Z.max (i64 (mtp + 1)) (GetAdjustedTime ce) in
                             if time <? new_time then u32 new_time else time) /\
    test (block t) = true.
Proof using Type.
  unfold CreateNewBlock. destruct (tree ce !! p) as [prev|] eqn:Ep; [|done]. cbn [mbind option_bind].
  destruct (Chain.GetMedianTimePast (tree ce) p) as [mtp|] eqn:Em; [|done]. cbn [mbind option_bind].
  destruct (select env pool _ mtp) as [b|] eqn:Eb; [|done]. cbn [mbind option_bind].
  destruct (coinbase_outputs _ _ _ _ _) as [[g1 outs]|] eqn:Eo; [|done]. cbn [mbind option_bind].
  unfold UpdateTime. rewrite Em. cbn [mbind option_bind Chain.hd_nTime].
  destruct (if fPowAllowMinDifficultyBlocks ce then _ else _) as [bits0|]; [|done]. cbn [mbind option_bind].
  destruct (next_work ce p) as [bits|] eqn:Ew; [|done]. cbn [mbind option_bind].
  destruct (test _) eqn:Et; [|done]. intros [= <- <-]. eexists prev, mtp, b, outs, _. cbn [block vTxFees]. do 5 (split; [done|]). by repeat split.
Qed.

(** The time of a template is later than the median of its predecessors, as
    the check of headers demands. *)
Lemma template_time test env ce pe g pool p script g' t mtp : CreateNewBlock test env ce pe g pool p script = Some (g', t) ->
  Chain.GetMedianTimePast (tree ce) p = Some mtp -> 0 <= mtp < 2 ^ 32 - 1 -> 0 <= GetAdjustedTime ce < 2 ^ 32 ->
  mtp < Chain.hd_nTime (header (block t)) /\ GetAdjustedTime ce <= Chain.hd_nTime (header (block t)).
Proof using Type.
  intros E Em Hm Ha. destruct (CreateNewBlock_inv _ _ _ _ _ _ _ _ _ _ E) as (prev & mtp' & b & outs & hd & _ & Em' & _ & _ & -> & _ & _ & _ & Et & _).
  cbn [header]. rewrite Em in Em'. injection Em' as <-. rewrite Et, (u32_small (GetAdjustedTime ce)), (i64_small (mtp + 1)) by lia. cbv zeta.
  destruct (_ <? _) eqn:El; [rewrite u32_small by lia|]; lia.
Qed.

(** C16: a template pays what the validator expects. Take a template from a
    well-formed pool (entries below 2^32 bytes) at a height from
    [FLUID_ACTIVATE_HEIGHT] (10) on and after the first one with masternode payments, where
    no superblock is triggered. If the value of its coinbase is in range, its
    coinbase passes [IsBlockValueValid] and [IsBlockPayeeValid] for the value that
    [ConnectBlock] expects of the next block with the fees of the template,
    whatever commands have changed the rewards or minted coins, and whoever the
    masternodes voted for. *)
Theorem template_coinbase_accepted test env ce pe g g2 pool p prev script g' t :
  wf pool -> (forall x e, mapTx pool !! x = Some e -> nTxSize e < 2 ^ 32) ->
  tree ce !! p = Some prev -> CreateNewBlock test env ce pe g pool p script = Some (g', t) ->
  let h := Chain.nHeight prev + 1 in
  let expected := expected_value pe h (i64 (foldr Z.add 0 (tail (vTxFees t)))) in
  triggered pe g h = false -> triggered pe g2 h = false -> FLUID_ACTIVATE_HEIGHT <= h ->
  FluidDB.nMasternodePaymentsStartBlock (rewards pe) < Chain.nHeight prev ->
  forall coinbase v, head (vtx (block t)) = Some coinbase -> GetValueOut coinbase = Some v -> v + masternode_reward pe h < 2 ^ 63 ->
  IsCoinBase coinbase = true /\
  (Payments.IsBlockValueValid (superblocks pe) (payments pe) (governance pe) g2 coinbase h expected).2 = Some true /\
  (Payments.IsBlockPayeeValid (superblocks pe) (payments pe) (masternode_reward pe) (governance pe) g2 (payees pe) coinbase h expected).2 = Some true.
Proof using Type.
  intros Hw Hs Ep E h expected Ht Ht2 Hh Hstart coinbase v Hc Ev Hov. subst h expected.
  destruct (CreateNewBlock_inv _ _ _ _ _ _ _ _ _ _ E) as (prev' & mtp & b & outs & hd & Ep' & _ & Eb & Eo & Hb & Hf & _).
  rewrite Ep in Ep'. injection Ep' as <-. rewrite Hb in Hc. injection Hc as <-. rewrite Hf. cbn [tail].
  destruct (select_spec env pool (Chain.nHeight prev + 1) mtp Hw Hs (fun _ => True)) as (st & es & Es & Htl & _); [done..|].
  rewrite Eb in Es. injection Es as ->. rewrite <- (tallied_sum _ _ _ _ _ _ Htl). split; [done|].
  by apply (coinbase_accepted pe g g2 script _ _ g' outs v); [done..|lia|done|done].
Qed.

(** ** The first height with payments *)

(** At the height after [nMasternodePaymentsStartBlock] the payment of
    the masternode is asked for but not part of the expected value:
    [GetStandardMasternodePayment] compares the height of the block,
    [ConnectBlock] that of its predecessor. Where a payee has ten votes and
    the other rewards are less than the payment, no coinbase passes both checks. *)
Theorem first_paid_height_blocked pe g tx h fees l q :
  FluidDB.nMasternodePaymentsStartBlock (rewards pe) = h - 1 -> FLUID_ACTIVATE_HEIGHT <= h ->
  Governance.nSuperblockStartBlock (superblocks pe) <= h -> triggered pe g h = false ->
  Payments.IsSynced (payments pe) = true -> Payments.sporkActive (payments pe) Spork.SPORK_8_MASTERNODE_PAYMENT_ENFORCEMENT = true ->
  Payments.mapMasternodeBlocks (payees pe) !! h = Some l -> q ∈ l -> Payments.MNPAYMENTS_SIGNATURES_REQUIRED <= Payments.GetVoteCount q ->
  0 <= blockReward pe h fees + mint_issuance pe h < masternode_reward pe h -> masternode_reward pe h < 2 ^ 63 ->
  (Payments.IsBlockValueValid (superblocks pe) (payments pe) (governance pe) g tx h (expected_value pe h fees)).2 = Some true ->
  (Payments.IsBlockPayeeValid (superblocks pe) (payments pe) (masternode_reward pe) (governance pe) g (payees pe) tx h (expected_value pe h fees)).2 = Some false.
Proof using Type.
  intros Hstart Hh Hsb Ht Hsync H8 Hl Hq Hv Hr Hm63 Hval.
  assert (Hex : expected_value pe h fees = blockReward pe h fees + mint_issuance pe h).
  { rewrite expected_value_eq, (proj2 (Z.ltb_ge _ _)), Z.add_0_r, i64_small by lia. done. }
  assert (Hvo : exists v, GetValueOut tx = Some v /\ v < masternode_reward pe h).
  { rewrite Hex in Hval. unfold Payments.IsBlockValueValid, triggered in *. destruct (GetValueOut tx) as [v|]; [|done]. exists v. split; [done|].
    rewrite (proj2 (Z.ltb_ge _ _)), Hsync in Hval by lia. cbn [negb] in Hval. destruct (Governance.IsSuperblockTriggered _ _ g h) as [g1 tr]. cbn [snd] in Ht. subst tr.
    destruct (Payments.sporkActive _ Spork.SPORK_9_SUPERBLOCKS_ENABLED); injection Hval as Hval; lia. }
  destruct Hvo as (v & Ev & Hlt).
  assert (Hinv : Payments.IsTransactionValid (masternode_reward pe) (payees pe) tx h = false).
  { unfold Payments.IsTransactionValid. rewrite Hl. destruct (Payments.payees_IsTransactionValid _ l tx) eqn:Ep; [|done]. exfalso.
    apply Payments.payment_rule_exact in Ep as [Hno|(q' & o & _ & _ & Ho & _ & Hov)]; [specialize (Hno q Hq); lia|].
    rewrite GetValueOut_exact in Ev. case_bool_decide as Hrange; [|done]. injection Ev as <-. destruct Hrange as [Hf _].
    clear - Ho Hov Hlt Hf. revert Ho Hlt. induction Hf as [|o' l' Ho' Hf IH]; intros Ho Hlt; [by apply elem_of_nil in Ho|]. cbn [sum_values foldr] in Hlt. fold (sum_values l') in Hlt.
    pose proof (sum_values_nonneg _ Hf). apply elem_of_cons in Ho as [->|Ho]; [lia|]. apply IH; [done|lia]. }
  unfold Payments.IsBlockPayeeValid, Payments.payment_enforced, triggered in *. rewrite Hsync, (proj2 (Z.ltb_ge _ _)), Hinv, H8 by lia. cbn [negb].
  destruct (Governance.IsSuperblockTriggered _ _ g h) as [g1 tr]. cbn [snd] in Ht. subst tr. by destruct (Payments.sporkActive _ Spork.SPORK_9_SUPERBLOCKS_ENABLED).
Qed.

(** ** Extra nonces *)

Definition script_of_nonce (flags : CScript) (height nonce : Z) : CScript := push_bytes (push_int64 [] height) (serialize nonce) ++ flags.

Lemma small_number z : 0 <= z < 2 ^ 32 -> zlen (serialize z) <= 5 /\ CScriptNum (serialize z) true 5 = Some z.
Proof using Type. intros Hz. destruct (scriptnum_decode z 5) as (Hd & Hl & _); [lia|rewrite Z.abs_eq by lia; lia|done]. Qed.

Lemma push_int64_short z : 0 <= z < 2 ^ 32 -> 1 <= zlen (push_int64 [] z) <= 6.
Proof using Type.
  intros Hz. destruct (small_number z Hz) as [Hl _]. unfold push_int64. destruct (_ || _); [by vm_compute|]. destruct (z =? 0); [by vm_compute|].
  unfold push_bytes. rewrite (proj2 (Z.ltb_lt _ _)) by (unfold OP_PUSHDATA1; lia). unfold zlen in *. rewrite length_app. cbn [length app]. lia.
Qed.

Lemma nonce_script_eq flags height nonce : 0 <= nonce < 2 ^ 32 ->
  script_of_nonce flags height nonce = push_int64 [] height ++ [zlen (serialize nonce)] ++ serialize nonce ++ flags.
Proof using Type.
  intros Hn. destruct (small_number nonce Hn) as [Hl _]. unfold script_of_nonce, push_bytes. rewrite (proj2 (Z.ltb_lt _ _)) by (unfold OP_PUSHDATA1; lia).
  replace (u8 (zlen (serialize nonce))) with (zlen (serialize nonce)) by (symmetry; apply Z.mod_small; unfold zlen in *; lia). by rewrite <- !app_assoc.
Qed.

(** [IncrementExtraNonce] never fails its assertion with flags of up to 86 bytes. It
    changes only the input script of the coinbase and the Merkle root, which is
    that of the new transactions; the script has from 2 to 100 bytes, begins
    with the height, and differs from that of every other nonce, so each of the
    2^32 values for a predecessor gives a different coinbase to hash. *)
Theorem IncrementExtraNonce_fresh flags hashPrevBlock nonce prev block coinbase rest i ins :
  zlen flags <= 86 -> vtx block = coinbase :: rest -> vin coinbase = i :: ins ->
  exists nonce' coinbase', IncrementExtraNonce flags hashPrevBlock nonce prev block =
      Some (Chain.hd_hashPrevBlock (header block), nonce', with_coinbase block coinbase') /\
    nonce' = u32 ((if bool_decide (hashPrevBlock = Chain.hd_hashPrevBlock (header block)) then nonce else 0) + 1) /\
    coinbase' = mkCTransaction (nVersion coinbase) (mkCTxIn (prevout i) (script_of_nonce flags (u32 (Chain.nHeight prev + 1)) nonce') (nSequence i) :: ins)
                  (vout coinbase) (nLockTime coinbase) /\
    2 <= zlen (script_of_nonce flags (u32 (Chain.nHeight prev + 1)) nonce') <= 100 /\
    forall n2, 0 <= n2 < 2 ^ 32 -> script_of_nonce flags (u32 (Chain.nHeight prev + 1)) n2 = script_of_nonce flags (u32 (Chain.nHeight prev + 1)) nonce' -> n2 = nonce'.
Proof using Type.
  intros Hf Hv Hi. set (k := u32 ((if bool_decide (hashPrevBlock = Chain.hd_hashPrevBlock (header block)) then nonce else 0) + 1)).
  assert (Hk : 0 <= k < 2 ^ 32) by (apply Z.mod_pos_bound; lia). set (height := u32 (Chain.nHeight prev + 1)).
  assert (Hh : 0 <= height < 2 ^ 32) by (apply Z.mod_pos_bound; lia). destruct (small_number k Hk) as [Hl Hd].
  pose proof (push_int64_short height Hh) as Hph.
  assert (Hlen : 2 <= zlen (script_of_nonce flags height k) <= 100).
  { rewrite nonce_script_eq by done. unfold zlen in *. rewrite !length_app. cbn [length]. lia. }
  exists k. eexists. unfold IncrementExtraNonce. rewrite Hv. cbn [head mbind option_bind]. rewrite Hi. cbn [head mbind option_bind tail].
  replace (u32 ((if negb (bool_decide (hashPrevBlock = Chain.hd_hashPrevBlock (header block))) then 0 else nonce) + 1)) with k by (subst k; by case_bool_decide).
  fold height. fold (script_of_nonce flags height k). rewrite (proj2 (Z.leb_le _ _)) by lia.
  split; [reflexivity|]. do 2 (split; [done|]). split; [done|]. intros n2 Hn2 E. destruct (small_number n2 Hn2) as [_ Hd2].
  rewrite !nonce_script_eq in E by done. apply app_inv_head in E. cbn [app] in E. injection E as El E.
  assert (serialize n2 = serialize k) as Es by (apply (app_inj_1 _ _ flags flags); [unfold zlen in El; lia|done]). rewrite Es in Hd2. congruence.
Qed.

End Coinbase.
(** ** A template after a block at height 1004 *)

Section Example_template.
#[local] Existing Instances InterpreterSafety.toy_crypto MemPoolSafety.toy_env TxVerify.toy_protocols toy_arithmetic Encodings.regtest_prefixes.

Definition toy_tip : Chain.CBlockIndex :=
  Chain.mkIndex (repeat 4 32) None None 1004 0 0 0 [] 1 1005 0 4 [] 5000 0x1f05ffff 0 0 5000.
Definition toy_chain : chain_env :=
  mkChainEnv {[ 0%nat := toy_tip ]} (fun z => z) (fun z => z) (Pow.mkParams Pow.main_powLimit 30 4 8 13 2000 3000 4000) false 6000 4.
Definition toy_payments : payment_env :=
  mkPaymentEnv (FluidDB.mkRewardParams 0 500 0) Governance.regtest_superblocks (Payments.toy_env false) Payments.toy_gov_env
    (Payments.toy_run Payments.toy_trace) None None None.
Definition toy_template : option (Governance.gov_state * CBlockTemplate) :=
  CreateNewBlock (fun _ => true) toy_miner toy_chain toy_payments (Governance.toy_funded 5) MemPoolSafety.pool2 0 (Some [OP_1]).

(** The miner has the reward and the fees of two transactions, the masternode its payment. *)
Lemma toy_template_values :
  (fun p => (map nValue (from_option vout [] (head (vtx (block p.2)))), length (vtx (block p.2)), vTxFees p.2)) <$> toy_template =
  Some ([10000017; 40000000], 3%nat, [-17; 10; 7]).
Proof. vm_compute. reflexivity. Qed.

Definition toy_cb : CTransaction := from_option (fun p => default (mkCTransaction 1 [] [] 0) (head (vtx (block p.2)))) (mkCTransaction 1 [] [] 0) toy_template.

Lemma toy_template_exists : is_Some toy_template.
Proof. vm_compute. eexists. reflexivity. Qed.

Lemma toy_template_head : from_option (fun p => head (vtx (block p.2))) None toy_template = Some toy_cb.
Proof. vm_compute. reflexivity. Qed.

Lemma template_coinbase_accepted_witness : exists g' t, toy_template = Some (g', t) /\
  (Payments.IsBlockValueValid (superblocks toy_payments) (payments toy_payments) (governance toy_payments) (Governance.toy_funded 5) toy_cb 1005
     (expected_value toy_payments 1005 (i64 (foldr Z.add 0 (tail (vTxFees t)))))).2 = Some true.
Proof.
  destruct toy_template_exists as [[g' t] E]. exists g', t. split; [exact E|].
  pose proof toy_template_head as Hc. rewrite E in Hc.
  unfold toy_template in E. assert (Htip : tree toy_chain !! 0%nat = Some toy_tip) by reflexivity.
  pose proof (template_coinbase_accepted (fun _ => true) toy_miner toy_chain toy_payments (Governance.toy_funded 5) (Governance.toy_funded 5) MemPoolSafety.pool2 0 toy_tip
    (Some [OP_1]) g' t (MemPoolSafety.sound_wf _ MemPoolSafety.pool2_sound) toy_pool_small Htip E) as Hacc.
  cbv zeta in Hacc. change (Chain.nHeight toy_tip + 1) with 1005 in Hacc.
  refine (proj1 (proj2 (Hacc _ _ _ _ toy_cb 50000017 Hc _ _))).
  - vm_compute. reflexivity.
  - vm_compute. reflexivity.
  - by_decide.
  - by_decide.
  - vm_compute. reflexivity.
  - by_decide.
Defined.

End Example_template.

End MinerCoinbase.
